(* ===== verification/_CoqProject ===== *)
-Q . S2P
Prelude.v
Json.v
Protocol.v
Codec.v
Session.v
SessionFacts.v
RestoreFacts.v
Projection.v
ProjectionFacts.v
Calendar.v
CalendarFacts.v
Schedule.v
ScheduleFacts.v
ScheduleRunFacts.v
ScheduleDriveFacts.v
Goal.v
GoalFacts.v
GoalLedgerFacts.v
GoalWriteFacts.v
Approval.v
ApprovalHost.v
ApprovalFacts.v
Question.v
QuestionFacts.v
Permissions.v
ToolSchema.v
Tools.v
Planning.v
ServiceCodec.v
ToolFacts.v
Jsonl.v
JsonlFacts.v
JsonTextCodec.v
AgentInbox.v
AgentInboxFacts.v
Llm.v
LlmFacts.v
SkillText.v
SystemPrompt.v
Compaction.v
AgentLoop.v
AgentTurn.v
AgentTurnFacts.v
CompactionFacts.v
CompactionLogic.v
CompactionRunFacts.v
CompactionLogFacts.v
AgentCompaction.v
AgentRetryFacts.v
AgentDrive.v
Storage.v
StorageFacts.v
StorageRunFacts.v
RemoteAccess.v
RemoteFacts.v
RemoteRunFacts.v
Attachments.v
AttachmentFacts.v
Responses.v
CompatibleApi.v
ProviderFacts.v
ProviderStreamFacts.v
Samples.v
AgentCodec.v
ProtocolProps.v
SessionProps.v
ScheduleProps.v
ProjectionProps.v
GoalProps.v
ApprovalProps.v
PlanningProps.v
ToolProps.v
JsonlProps.v
AgentProps.v
CompactionProps.v
StorageProps.v
RemoteProps.v
AttachmentProps.v
ProviderProps.v
