(* ===== verification/Prelude.v ===== *)
(** * Tessivum: a verification library for the Rust agent harness

    Tessivum runs coding agents.  A _session_ is an append-only log of events;
    everything else of the program is either a service that appends to it and
    folds its own state back from it (goals, schedules, plan mode, permissions,
    approvals, questions, projections), a back end that stores it, or the agent
    that drives a model over it.  The library models these parts as functions and
    proves what makes each of them correct.

    ** Parts, files and the code they model

    For a part [X], [X.v] holds the definitions, [XFacts.v] (and the other
    [...Facts] files) the lemmas, [ServiceCodec] and the other [...Codec] files
    concrete instances of the derived serialisers for the witnesses, and
    [XProps.v] its properties.  Those numbered C1, C2, ... in the order of their
    importance are the main ones; the others stand without a number.

    - [Prelude]: results as a monad, loops with early return, machine integers
      and string helpers, tactics and hints.  [Json] (serde_json values,
      accessors, the class [Wire] of derived serialisers with its [WireLaw]) and
      [Codec], [JsonTextCodec]: concrete codecs, used by witnesses only.
    - [Protocol] (protocol.rs, error.rs): the wire data and every [validate].
    - [Session] (session.rs): the trait [SessionPersistence] of storage back ends
      with its documented laws, the in-memory back end [Memory], admission and
      replay of events ([admit_event], [build_state]), the appends, the store of
      live sessions ([Module Store]), the replayed inbox ([Module Inbox]), the
      closing of interrupted turns ([Module Closers]).  [SessionFacts],
      [RestoreFacts].
    - [Jsonl] (persistence_jsonl.rs): the file back end, down to bytes, with an
      injected fault at each input or output step ([Disk]).
    - [Projection] (projection.rs): folds of JSON callbacks over the log, frames,
      checkpoints.
    - [Calendar], [Schedule] (schedule.rs): civil time and its formats; reminders
      folded from the log, the tool handlers, the driver.
    - [Goal] (goal.rs): the ledger, the compare-and-swap service with its retry
      loop, the rounds.  [GoalLedgerFacts] relates the ledger to an abstract
      machine of one goal; [GoalWriteFacts] treats the service.
    - [Approval] and [ApprovalHost] (approval.rs): a decision of one agent, and the
      host's table of the requests that wait for a browser.
    - [Question], [Planning] (question.rs, planning.rs): questions to the user,
      plan mode and its review, todo lists.
    - [Permissions] (permissions.rs): presets, the durable facts, the policy text.
    - [ToolSchema], [Tools] (tools.rs): the schema dialect, scopes and their
      narrowing, the registry, the execution of a call.
    - [AgentInbox] (agent.rs): the live inbox with its reservations ([Module
      Inbox], [InboxState]) and the guards of the agent around it.
    - [Llm] (llm.rs): providers, one generation as a stream, the assembly of a
      message, retry policies in IEEE doubles ([SpecFloat]).
    - [SystemPrompt] (system_prompt.rs), [SkillText] (skills.rs and the gestures of
      agent_loop.rs): what goes into a prompt.
    - [AgentLoop], [AgentTurn] (agent_loop.rs): the appends and the context of a
      turn; one step (generation with retries and recovery, tools) and the turn
      around it.  [AgentTurnFacts]: the automaton of a turn's events and the triples
      that follow a computation through it; [AgentRetryFacts]: the bounds of its
      loops.
    - [AgentDrive] (agent_loop.rs): the worker of an agent and its clients as the
      steps of one transition system.
    - [Compaction] (compaction.rs): the plan of one compaction, what a recovery
      selects and protects, and the service ([Module Service]) as programs of a
      state and error monad over a session and its back end, with the other tasks
      between any two of their calls.  [CompactionFacts]: tool pairs, boundaries and
      batches; [CompactionLogic]: rules of the monad, one triple for all
      postconditions; [CompactionRunFacts]: the measure of a recovery and what its
      rounds keep; [CompactionLogFacts]: the events it writes; [AgentCompaction]
      puts the service into the agent's loop.
    - [Storage] (storage.rs): documents of tables and units, the contract of a back
      end ([StorageBackend], [StorageBackendLaws]) with the in-memory one, and the
      registry ([Module Registry]): openings, commits, closings and the shutdown as
      tasks, one step between two awaits.  [StorageFacts], [StorageRunFacts].
    - [RemoteAccess] (remote_access.rs): paired devices and their sessions, the
      checks, the store's file with a fault at each input or output step, and every
      operation under the lock ([Module Remote]).  [RemoteFacts], [RemoteRunFacts]
      (what an exchange may have given away, what a restart reads, the codec of its
      witnesses).
    - [Attachments] (attachments.rs): identifiers and references of images, Base64,
      the headers of the four formats with every access of a byte, and the store:
      one step per system call, between two of which other tasks change the
      directory, each of which can fail ([AttachmentDisk]).  [AttachmentFacts].
    - [Responses] (openai_responses.rs, and [decode_mcp_image] of mcp.rs): routes and
      models, the table of tool names, the body of a request, the decoder of
      server-sent events, the events of a response ([Module ResponseEvents]), the
      stream and the errors of HTTP.  [CompatibleApi] (compatible_api.rs): the same
      for chat completions ([Module Chat]) and Anthropic ([Module Anthropic]).
      [ProviderFacts]: the decoder against an encoder, Base64 both ways, names;
      [ProviderStreamFacts]: well-formed streams as a relation, that the assembler
      of [Llm] accepts them, and that each protocol produces them.
    - [Samples]: the concrete sessions of the witnesses.

    Functions keep the names of the code; where two components use one name, a
    Module or the file's name tells them apart.  A method that holds a lock is a
    function of the state the lock protects.  Where the code releases its lock or
    awaits, what other tasks do is a field of an environment record
    ([te_between], [le_others], and the like): the theorems hold for each
    environment, so for every interleaving.  An [expect], an index out of range or an
    [unreachable!] that a caller could reach is the outcome [None]; errors are
    values of [result].  A [BTreeMap] or [HashMap] is a [gmap], or an association
    list where its order is observed; [u64] is [N] and [i64] is [Z], with the
    overflow checks of the code.

    ** What the properties show

    - Sessions ([SessionProps]): live admission agrees with replay, an append is
      atomic, live sessions are durable prefixes, restoration rebuilds them, an
      interrupted turn is durably closed, the surface cites its events.
    - The file back end ([JsonlProps]): it refines the map of logs that the trait
      promises, each read (headers, inspections, events, texts, the listing)
      returns what was written; the torn-tail defect.
    - Projections ([ProjectionProps]): live folds, replays and checkpoints agree.
    - Schedules ([ScheduleProps]): the log implements a list of reminders; the
      driver ends, waits for what it should and loses nothing; records survive
      their JSON form.
    - Goals ([GoalProps]): the ledger is the replay of the log whatever other tasks
      append, goals follow the abstract machine, the retry loop ends.
    - Approvals, questions, plans ([ApprovalProps], [PlanningProps]): decisions fail
      closed and are audited, the first answer is final; the tool that leaves plan
      mode succeeds only after a review and never changes the mode itself (the
      user's own command needs no review).
    - Tools ([ToolProps]): a handler runs only when scope, schema and approval
      permit; when a call returns; a scope never broadens.
    - The agent ([AgentProps]): the live inbox implements two queues among its
      users; an assembled message is what the stream said; each turn is bracketed in
      the log and ends, each worker that is idle has served what was committed, and
      a woken worker settles; the delays of a retry stay within their bounds.
    - Compaction ([CompactionProps]): calls and results stay together, seeds and the
      latest context survive a recovery, which ends by itself, its events are
      bracketed unless the session refuses an end, and it does not disturb the
      brackets of a turn.  The world of the service has one history variable, the
      appends that the session refused ([cw_refused]), which no operation reads.
    - Storage ([StorageProps]): commits of a domain serialise and are durable before
      they are seen, the shutdown is final, and the opening that escapes it.
    - Remote access ([RemoteProps]): who is authenticated was paired and not revoked,
      a token pairs one device, a restart brings back what memory had or is one
      failed write ahead of it.
    - Attachments ([AttachmentProps]): headers are read in range, a batch is saved as
      a whole or not at all, what is read is what the identifier names; the rollback
      that takes a file of another task.
    - Providers ([ProviderProps]): the streams of all protocols are assembled into
      what was streamed, events and tool names come back, an image that is sent is
      the one that is stored; the call without arguments that blocks a conversation.
    - Permissions and protocol ([ApprovalProps], [ProtocolProps]): further
      theorems, not in the numbered list.

    ** Fuel and bounds

    [Goal.write_loop] retries a write while other tasks append between its steps;
    its fuel is universally quantified and the property of its end gives the bound
    (two rounds beyond the disturbed ones).  [Jsonl.zstd_records] takes the number of bytes
    left as fuel: a frame has a header of several bytes, so each round consumes
    one.  [AgentTurn.generation_loop] is called with
    the retries of the policy plus two, which its property shows to be enough.
    [Compaction.Service.recover] takes the bound of the code's own loop, twice the
    length of the surface plus one, and its property shows that a larger one changes
    nothing.  Sums of sizes in memory are unbounded naturals where the code adds
    [u64]s without a check; the sum of a recorded usage, whose numbers are data,
    wraps around as in a release build ([Compaction.u64_sum]).
    [Responses.drain] takes the length of the buffer, of which every event consumes
    at least two bytes ([ProviderFacts] gives its equation without fuel), and
    [Attachments.parse_jpeg_from] that of the image.
    [SkillText.span_segments] and the word splitters take the length of the
    text.  [Schedule.drive] is not fuelled: it is one drive, which
    says how the next one is asked for (at once, when the busy agent is idle, or on
    the timer), and its property bounds the drives that follow at once by the
    reminders that are due.

    ** Not modelled

    The derived serialisers and the JSON text form (parameters [...Wire],
    [JsonText]); zstd and CRC ([Zstd]); clocks, fresh identifiers and random
    numbers (arguments); handlers, hooks, answerers, provider adapters and
    projection callbacks, which are clients' code (parameters or quantified
    functions).  The HTTP client, the URL parser and the check of header values are
    parameters of the provider protocols; a race between a cancellation and the
    network is the value that it yields ([Incoming], [Answer]).  The HTTP server, bridge, host, subprocess and plugin layers are input
    and output around these services and are left out, as are the SQLite back
    end (its contract is [SessionPersistence]), subagents, settings, the file-system
    parts of skills and the resolution of modes and resources at the start of
    agent_loop.rs.  A future that is dropped at an await is not modelled, in the
    compaction, the storage and elsewhere: each operation runs to its end or for
    ever.  SHA-256 and the JSON text of the device store are parameters
    (the length of a digest is the law [Sha256Law]); the timers
    of remote access are recorded but do not fire (what an expired session may do is
    checked where it is used), and the replacement of a file on Windows and the
    process's umask are left out. *)

From stdpp Require Export prelude gmap strings list sorting fin_maps pretty.
From Stdlib Require Export ZArith Lia Ascii.

#[global] Set Default Proof Using "Type".
#[global] Set Warnings "-clear-no-such-hyp,-register-all".

#[global] Open Scope string_scope.
#[global] Open Scope list_scope.

(** ** Results: Rust's [Result<A, E>] as a monad for stdpp's notations *)

Inductive result (E A : Type) : Type :=
| Ok (a : A)
| Err (e : E).
Arguments Ok {E A} a.
Arguments Err {E A} e.

#[export] Instance result_ret E : MRet (result E) := λ A a, Ok a.
#[export] Instance result_bind E : MBind (result E) := λ A B k r,
  match r with Ok a => k a | Err e => Err e end.
#[export] Instance result_fmap E : FMap (result E) := λ A B f r,
  match r with Ok a => Ok (f a) | Err e => Err e end.
#[export] Instance result_eq_dec {E A} `{EqDecision E, EqDecision A} :
  EqDecision (result E A).
Proof. solve_decision. Defined.

(** [Result::map_err], the conversion the [?] operator applies. *)
Definition map_err {E F A} (f : E → F) (r : result E A) : result F A :=
  match r with Ok a => Ok a | Err e => Err (f e) end.

(** [Option::ok_or]. *)
Definition ok_or {E A} (o : option A) (e : E) : result E A :=
  match o with Some a => Ok a | None => Err e end.

Definition is_ok {E A} (r : result E A) : bool :=
  match r with Ok _ => true | Err _ => false end.

(** [if cond { return Err(e) }]. *)
Definition ensure {E} (b : bool) (e : E) : result E unit :=
  if b then Ok tt else Err e.

(** A [for] loop whose body may return early with [?]. *)
Fixpoint foldM {E A S} (f : S → A → result E S) (s : S) (l : list A) : result E S :=
  match l with
  | [] => Ok s
  | x :: l' => s' ← f s x; foldM f s' l'
  end.

(** A loop that only checks: [for x in l { f(x)?; }]. *)
Fixpoint forM {E A} (f : A → result E unit) (l : list A) : result E unit :=
  match l with
  | [] => Ok tt
  | x :: l' => _ ← f x; forM f l'
  end.

(** [iter().map(f).collect::<Result<Vec<_>, _>>()]. *)
Fixpoint collectM {E A B} (f : A → result E B) (l : list A) : result E (list B) :=
  match l with
  | [] => Ok []
  | x :: l' => y ← f x; ys ← collectM f l'; Ok (y :: ys)
  end.

Section result_inversion.
Context {E A B : Type}.

Lemma bind_Ok (r : result E A) (k : A → result E B) (b : B) :
  (r ≫= k) = Ok b ↔ ∃ a, r = Ok a ∧ k a = Ok b.
Proof. destruct r as [a|e]; simpl; split; naive_solver. Qed.

(** A guard clause: [if b { return Err(e) } r]. *)
Lemma guard_Ok (b : bool) (e : E) (r : result E A) (a : A) :
  (if b then Err e else r) = Ok a ↔ b = false ∧ r = Ok a.
Proof. destruct b; naive_solver. Qed.

Lemma ensure_Ok (b : bool) (e : E) (u : unit) : ensure b e = Ok u ↔ b = true.
Proof. destruct b, u; naive_solver. Qed.

Lemma ok_or_Ok (o : option A) (e : E) (a : A) : ok_or o e = Ok a ↔ o = Some a.
Proof. destruct o; naive_solver. Qed.

Lemma map_err_Ok {F} (f : E → F) (r : result E A) (a : A) :
  map_err f r = Ok a ↔ r = Ok a.
Proof. destruct r; naive_solver. Qed.

End result_inversion.

Section loop_lemmas.
Context {E A S : Type}.

Lemma foldM_app (f : S → A → result E S) (s : S) (l1 l2 : list A) :
  foldM f s (l1 ++ l2) = (s' ← foldM f s l1; foldM f s' l2).
Proof.
  revert s; induction l1 as [|x l1 IH]; intros s; [done|].
  simpl. destruct (f s x); simpl; [apply IH | done].
Qed.

Lemma foldM_snoc (f : S → A → result E S) (s : S) (l : list A) (x : A) :
  foldM f s (l ++ [x]) = (s' ← foldM f s l; f s' x).
Proof.
  rewrite foldM_app. destruct (foldM f s l) as [s'|]; [|done].
  simpl. by destruct (f s' x).
Qed.

(** The invariant rule of [for] loops with early returns. *)
Lemma foldM_inv (f : S → A → result E S) (P : list A → S → Prop) (s0 : S) :
  P [] s0 →
  (∀ done s x s', P done s → f s x = Ok s' → P (done ++ [x]) s') →
  ∀ l s, foldM f s0 l = Ok s → P l s.
Proof.
  intros H0 Hstep l. induction l as [|x l IH] using rev_ind; intros s Hs.
  - by simplify_eq/=.
  - rewrite foldM_snoc in Hs. apply bind_Ok in Hs as (s' & Hs' & Hx).
    eapply Hstep; eauto.
Qed.

Lemma forM_Ok (f : A → result E unit) (l : list A) (u : unit) :
  forM f l = Ok u ↔ Forall (λ x, f x = Ok tt) l.
Proof.
  destruct u. induction l as [|x l IH]; simpl; [naive_solver|].
  rewrite Forall_cons, <-IH. destruct (f x) as [[]|]; naive_solver.
Qed.
End loop_lemmas.

Create Rewrite HintDb result.
#[export] Hint Rewrite @bind_Ok @ensure_Ok @ok_or_Ok @map_err_Ok @forM_Ok : result.

(** Inverts a successful computation down to its guards. *)
Ltac invert_ok :=
  repeat match goal with
  | H : (_ ≫= _) = Ok _ |- _ => apply bind_Ok in H as (? & ? & ?)
  | H : (if _ then Err _ else _) = Ok _ |- _ => apply guard_Ok in H as [? ?]
  | H : negb _ = false |- _ => apply negb_false_iff in H
  | H : orb _ _ = false |- _ => apply orb_false_iff in H as [? ?]
  | H : ensure _ _ = Ok _ |- _ => apply ensure_Ok in H
  | H : ok_or _ _ = Ok _ |- _ => apply ok_or_Ok in H
  | H : map_err _ _ = Ok _ |- _ => apply map_err_Ok in H
  | H : forM _ _ = Ok _ |- _ => apply forM_Ok in H
  | H : Ok _ = Ok _ |- _ => injection H as H; subst
  | H : Err _ = Ok _ |- _ => discriminate H
  | H : Some _ = Some _ |- _ => injection H as H; subst
  | u : unit |- _ => destruct u
  end.

(** Case analysis on the scrutinee of a [match] or [if], keeping the equation. *)
Ltac case_on t :=
  let E := fresh "Hcase" in destruct t eqn:E.
Ltac break_match :=
  match goal with
  | |- context [match ?x with _ => _ end] => case_on x
  end.
Ltac break_match_in H :=
  match type of H with
  | context [match ?x with _ => _ end] => case_on x
  end.

(** ** Machine integers

    [u64] values are [N], [i64] values are [Z]; the wrap-around, checked and
    saturating operations of the standard library are written out. *)

Definition U64_MAX : N := 18446744073709551615.
Definition I64_MAX : Z := 9223372036854775807.
Definition I64_MIN : Z := (-9223372036854775808).

Definition is_u64 (n : N) : Prop := (n ≤ U64_MAX)%N.
Definition is_i64 (z : Z) : Prop := (I64_MIN ≤ z ≤ I64_MAX)%Z.

#[export] Instance is_u64_dec n : Decision (is_u64 n).
Proof. unfold is_u64. apply _. Defined.
#[export] Instance is_i64_dec z : Decision (is_i64 z).
Proof. unfold is_i64. apply _. Defined.

Definition u64_checked_add (a b : N) : option N :=
  if (a + b <=? U64_MAX)%N then Some (a + b)%N else None.
Definition u64_saturating_add (a b : N) : N := N.min (a + b) U64_MAX.
Definition u64_saturating_sub (a b : N) : N := (a - b)%N.

Definition i64_checked (z : Z) : option Z :=
  if bool_decide (is_i64 z) then Some z else None.
Definition i64_checked_add (a b : Z) : option Z := i64_checked (a + b).
Definition i64_checked_sub (a b : Z) : option Z := i64_checked (a - b).
Definition i64_checked_mul (a b : Z) : option Z := i64_checked (a * b).
Definition i64_saturating_sub (a b : Z) : Z :=
  Z.max I64_MIN (Z.min I64_MAX (a - b)).

(** [i64::div_euclid] and [rem_euclid] for a positive divisor: [Z.div] and
    [Z.modulo]; the plain [/] and [%] truncate towards zero: [Z.quot], [Z.rem]. *)
Definition i64_div_euclid (a b : Z) : Z := (a / b)%Z.
Definition i64_rem_euclid (a b : Z) : Z := (a mod b)%Z.

Lemma i64_checked_Some z w : i64_checked z = Some w ↔ w = z ∧ is_i64 z.
Proof. unfold i64_checked. case_bool_decide; naive_solver. Qed.

Lemma u64_checked_add_Some a b c :
  u64_checked_add a b = Some c ↔ c = (a + b)%N ∧ is_u64 (a + b).
Proof.
  unfold u64_checked_add, is_u64.
  destruct (N.leb_spec (a + b) U64_MAX); naive_solver lia.
Qed.

Lemma u64_checked_add_fits a b : (a + b ≤ U64_MAX)%N → u64_checked_add a b = Some (a + b)%N.
Proof. intros. by apply u64_checked_add_Some. Qed.

(** Exhaustive checking over a finite interval of [Z], run by [vm_compute]. *)
Definition Z_forall_below (n : N) (f : Z → bool) : bool :=
  N.peano_rec (λ _, bool) true (λ k acc, if acc then f (Z.of_N k) else false) n.

Lemma Z_forall_below_spec n f :
  Z_forall_below n f = true → ∀ z, (0 ≤ z < Z.of_N n)%Z → f z = true.
Proof.
  unfold Z_forall_below. induction n as [|n IH] using N.peano_ind.
  - lia.
  - rewrite N.peano_rec_succ. intros Hf z Hz.
    destruct (N.peano_rec _ _ _ n) eqn:Hn; [|done].
    destruct (decide (z = Z.of_N n)) as [->|]; [done|].
    apply IH; [done|lia].
Qed.

(** ** Strings

    A [String]/[&str] is its sequence of UTF-8 bytes.  [trim] removes the
    characters with the Unicode [White_Space] property; their UTF-8 encodings
    have one, two or three bytes. *)

Definition byte (a : ascii) : N := N_of_ascii a.

Definition ws1 (a : ascii) : bool :=
  let b := byte a in ((9 <=? b) && (b <=? 13) || (b =? 32))%N.
Definition ws2 (a b : ascii) : bool :=
  ((byte a =? 194) && ((byte b =? 133) || (byte b =? 160)))%N.
Definition ws3 (a b c : ascii) : bool :=
  let x := byte a in let y := byte b in let z := byte c in
  ((x =? 225) && (y =? 154) && (z =? 128)
   || (x =? 226) && (y =? 128)
      && ((128 <=? z) && (z <=? 138) || (z =? 168) || (z =? 169) || (z =? 175))
   || (x =? 226) && (y =? 129) && (z =? 159)
   || (x =? 227) && (y =? 128) && (z =? 128))%N.

(** Removes leading white space, the two- and three-byte tests being given so
    that the same loop also serves the reversed string. *)
Fixpoint strip_ws (t2 : ascii → ascii → bool) (t3 : ascii → ascii → ascii → bool)
    (l : list ascii) : list ascii :=
  match l with
  | [] => []
  | a :: l1 =>
      if ws1 a then strip_ws t2 t3 l1 else
      match l1 with
      | [] => l
      | b :: l2 =>
          if t2 a b then strip_ws t2 t3 l2 else
          match l2 with
          | [] => l
          | c :: l3 => if t3 a b c then strip_ws t2 t3 l3 else l
          end
      end
  end.

Definition trim_start_bytes : list ascii → list ascii := strip_ws ws2 ws3.
Definition trim_end_bytes (l : list ascii) : list ascii :=
  rev (strip_ws (λ a b, ws2 b a) (λ a b c, ws3 c b a) (rev l)).

Definition bytes_of (s : string) : list ascii := String.list_ascii_of_string s.
Definition string_of (l : list ascii) : string := String.string_of_list_ascii l.

(** [str::trim]. *)
Definition trim (s : string) : string :=
  string_of (trim_end_bytes (trim_start_bytes (bytes_of s))).

(** [str::is_empty] and [str::len] (bytes). *)
Definition is_empty (s : string) : bool := String.eqb s "".
Definition str_len (s : string) : N := N.of_nat (String.length s).

(** [value.trim().is_empty()], the blankness test used all over the code. *)
Definition blank (s : string) : bool := is_empty (trim s).

(** [value.trim() == value]. *)
Definition trimmed (s : string) : bool := String.eqb (trim s) s.

(** [str::contains(pattern)], [str::starts_with(pattern)]. *)
Definition starts_with (p s : string) : bool := String.prefix p s.
Fixpoint contains (p s : string) : bool :=
  starts_with p s || match s with EmptyString => false | String _ s' => contains p s' end.

(** ASCII classes of [u8]. *)
Definition is_ascii_digit (a : ascii) : bool :=
  ((48 <=? byte a) && (byte a <=? 57))%N.
Definition is_ascii_lowercase (a : ascii) : bool :=
  ((97 <=? byte a) && (byte a <=? 122))%N.
Definition is_ascii_alphabetic (a : ascii) : bool :=
  is_ascii_lowercase a || ((65 <=? byte a) && (byte a <=? 90))%N.
Definition is_ascii_alphanumeric (a : ascii) : bool :=
  is_ascii_alphabetic a || is_ascii_digit a.

(** The line feed character. *)
Definition line_feed : string := string_of [ascii_of_nat 10].

(** Decimal formatting: [{n}] and the zero-padded [{n:0w}] of a non-negative number. *)
Definition fmt_N (n : N) : string := pretty n.
Definition zeros (n : nat) : string := string_of (repeat "0"%char n).
Definition fmt_pad (w : nat) (z : Z) : string :=
  let s := fmt_N (Z.to_N z) in zeros (w - String.length s) +:+ s.

(** The white-space character at the front of a byte sequence, removed. *)
Definition lead_ws (t2 : ascii → ascii → bool) (t3 : ascii → ascii → ascii → bool)
    (l : list ascii) : option (list ascii) :=
  match l with
  | [] => None
  | a :: l1 =>
      if ws1 a then Some l1 else
      match l1 with
      | [] => None
      | b :: l2 =>
          if t2 a b then Some l2 else
          match l2 with
          | [] => None
          | c :: l3 => if t3 a b c then Some l3 else None
          end
      end
  end.

Section trim_lemmas.
Variable t2 : ascii → ascii → bool.
Variable t3 : ascii → ascii → ascii → bool.

Lemma strip_ws_unfold l :
  strip_ws t2 t3 l =
    match lead_ws t2 t3 l with Some r => strip_ws t2 t3 r | None => l end.
Proof.
  destruct l as [|a [|b [|c l]]]; simpl; try done.
  all: destruct (ws1 a); try done.
  all: destruct (t2 a b); try done. by destruct (t3 a b c).
Qed.

Lemma lead_ws_tail l r :
  lead_ws t2 t3 l = Some r → ∃ p, p ≠ [] ∧ l = p ++ r.
Proof.
  destruct l as [|a [|b [|c l]]]; simpl; repeat case_match; intros [=]; subst.
  all: first [by exists [a] | by exists [a; b] | by exists [a; b; c]].
Qed.

Lemma strip_ws_ind (P : list ascii → Prop) :
  (∀ l, lead_ws t2 t3 l = None → P l) →
  (∀ l r, lead_ws t2 t3 l = Some r → P r → P l) →
  ∀ l, P l.
Proof.
  intros HN HS l. remember (length l) as n eqn:Hn.
  revert l Hn. induction (lt_wf n) as [n _ IH]. intros l ->.
  destruct (lead_ws t2 t3 l) as [r|] eqn:Hl; [|by apply HN].
  apply (HS _ _ Hl). apply (IH (length r)); [|done].
  apply lead_ws_tail in Hl as (p & Hp & ->). rewrite length_app.
  destruct p; [done|simpl; lia].
Qed.

Lemma strip_ws_suffix l : ∃ p, l = p ++ strip_ws t2 t3 l.
Proof.
  induction l as [l Hl|l r Hl [p IH]] using strip_ws_ind; rewrite strip_ws_unfold, Hl.
  - by exists [].
  - apply lead_ws_tail in Hl as (q & _ & ->). exists (q ++ p).
    by rewrite <-app_assoc, <-IH.
Qed.

(** What is left never starts with white space. *)
Lemma strip_ws_lead l : lead_ws t2 t3 (strip_ws t2 t3 l) = None.
Proof.
  induction l as [l Hl|l r Hl IH] using strip_ws_ind; by rewrite strip_ws_unfold, Hl.
Qed.

Lemma strip_ws_fix l : lead_ws t2 t3 l = None → strip_ws t2 t3 l = l.
Proof. intros Hl. by rewrite strip_ws_unfold, Hl. Qed.

(** A prefix of a sequence with no leading white space has none either. *)
Lemma lead_ws_prefix p l : lead_ws t2 t3 (p ++ l) = None → lead_ws t2 t3 p = None.
Proof.
  destruct p as [|a [|b [|c p]]]; simpl; try done.
  all: destruct (ws1 a); try done.
  all: destruct (t2 a b); try done. by destruct (t3 a b c).
Qed.
End trim_lemmas.

Lemma trim_end_prefix l : ∃ r, l = trim_end_bytes l ++ r.
Proof.
  unfold trim_end_bytes.
  destruct (strip_ws_suffix (λ a b, ws2 b a) (λ a b c, ws3 c b a) (rev l)) as [p Hp].
  exists (rev p). rewrite <-rev_app_distr, <-Hp. by rewrite rev_involutive.
Qed.

Lemma trim_end_idemp l : trim_end_bytes (trim_end_bytes l) = trim_end_bytes l.
Proof.
  unfold trim_end_bytes. rewrite rev_involutive. f_equal.
  apply strip_ws_fix, strip_ws_lead.
Qed.

(** [trim] is idempotent: a trimmed string is stable. *)
Lemma trim_trim s : trim (trim s) = trim s.
Proof.
  unfold trim, bytes_of, string_of.
  rewrite String.list_ascii_of_string_of_list_ascii. f_equal.
  set (l := trim_start_bytes (String.list_ascii_of_string s)).
  assert (lead_ws ws2 ws3 (trim_end_bytes l) = None) as Hl.
  { destruct (trim_end_prefix l) as [r Hr]. apply (lead_ws_prefix _ _ _ r).
    rewrite <-Hr. apply strip_ws_lead. }
  rewrite (strip_ws_fix _ _ _ Hl : trim_start_bytes (trim_end_bytes l) = _). apply trim_end_idemp.
Qed.

Lemma trimmed_trim s : trimmed (trim s) = true.
Proof. unfold trimmed. rewrite trim_trim. apply String.eqb_refl. Qed.

Lemma trimmed_eq s : trimmed s = true ↔ trim s = s.
Proof. apply String.eqb_eq. Qed.

Lemma blank_trimmed s : trimmed s = true → blank s = is_empty s.
Proof. intros Hs%trimmed_eq. unfold blank. by rewrite Hs. Qed.

Example trim_ex :
  trim (" a b" +:+ string_of [ascii_of_N 194; ascii_of_N 160; "010"%char]) = "a b".
Proof. reflexivity. Qed.

(** ** Ordered maps

    A [BTreeMap<String, V>] is a [gmap string V]; where the program observes
    its order (iteration, [values], [keys]) it is [btree_list], the entries in
    increasing key order. *)

Definition key_le {V} (p q : string * V) : Prop := String.leb p.1 q.1 = true.
#[export] Instance key_le_dec {V} (p q : string * V) : Decision (key_le p q).
Proof. unfold key_le. apply _. Defined.

Definition btree_list {V} (m : gmap string V) : list (string * V) :=
  merge_sort key_le (map_to_list m).
Definition btree_values {V} (m : gmap string V) : list V := (btree_list m).*2.
Definition btree_keys {V} (m : gmap string V) : list string := (btree_list m).*1.

Lemma btree_list_perm {V} (m : gmap string V) : btree_list m ≡ₚ map_to_list m.
Proof. apply merge_sort_Permutation. Qed.

Lemma elem_of_btree_list {V} (m : gmap string V) k v :
  (k, v) ∈ btree_list m ↔ m !! k = Some v.
Proof. by rewrite btree_list_perm, elem_of_map_to_list. Qed.

Lemma NoDup_btree_keys {V} (m : gmap string V) : NoDup (btree_keys m).
Proof.
  unfold btree_keys. rewrite btree_list_perm. apply NoDup_fst_map_to_list.
Qed.

(** ** Cancellation

    A cancellation token is inspected at several points of one operation.  It
    is modelled by the answers of its [is_cancelled()] calls, indexed by the
    path of the call site: [check i t] is the [i]-th inspection of a function
    body and [sub i t] the token handed to its [i]-th callee. *)

Definition token : Type := list nat → bool.
Definition check (i : nat) (t : token) : bool := t [i].
Definition sub (i : nat) (t : token) : token := λ p, t (i :: p).
Definition live_token : token := λ _, false.

(** ** Lists *)

Lemma filter_Forall {A} (P : A → Prop) `{∀ x, Decision (P x)} (l : list A) :
  Forall P l → filter P l = l.
Proof. induction 1 as [|x l Hx _ IH]; [done|]. by rewrite filter_cons_True, IH. Qed.

(** [iter().position(f)]. *)
Fixpoint position {A} (f : A → bool) (l : list A) : option nat :=
  match l with
  | [] => None
  | x :: l' => if f x then Some 0 else S <$> position f l'
  end.

Lemma position_Some {A} (f : A → bool) l i :
  position f l = Some i ↔
  ∃ x, l !! i = Some x ∧ f x = true ∧ ∀ j y, j < i → l !! j = Some y → f y = false.
Proof.
  revert i; induction l as [|x l IH]; intros i; simpl.
  { split; [done|]. intros (y & [=] & _). }
  destruct (f x) eqn:Hx.
  - split.
    + intros [= <-]. exists x. repeat split; [done..|lia].
    + intros (y & Hy & Hf & Hlt). destruct i as [|i]; [done|].
      specialize (Hlt 0 x ltac:(lia) eq_refl). congruence.
  - rewrite fmap_Some. split.
    + intros (i' & (y & Hy & Hf & Hlt)%IH & ->). exists y. repeat split; [done..|].
      intros [|j] z Hj; simpl; [intros [= <-]; done|]. apply Hlt. lia.
    + intros (y & Hy & Hf & Hlt). destruct i as [|i]; [simplify_eq/=; congruence|].
      exists i. split; [|done]. apply IH. exists y. repeat split; [done..|].
      intros j z Hj. apply (Hlt (S j)). lia.
Qed.

Lemma position_None {A} (f : A → bool) l :
  position f l = None ↔ Forall (λ x, f x = false) l.
Proof.
  induction l as [|x l IH]; simpl; [done|].
  rewrite Forall_cons, <-IH. destruct (f x), (position f l); simpl; intuition done.
Qed.

Lemma bytes_of_app a b : bytes_of (a +:+ b) = bytes_of a ++ bytes_of b.
Proof. induction a as [|c a IH]; [done|]. exact (f_equal (cons c) IH). Qed.

Lemma filter_none {A} (P : A → Prop) `{∀ x, Decision (P x)} (l : list A) :
  (∀ x, x ∈ l → ¬ P x) → filter P l = [].
Proof.
  induction l as [|x l IH]; intros Hn; [done|]. rewrite filter_cons_False by apply Hn, list_elem_of_here.
  apply IH. intros. by apply Hn, list_elem_of_further.
Qed.
