(* ===== verification/Json.v ===== *)
(** * JSON values and the wire interface

    [serde_json::Value], the accessors the program calls on it, the [json!]
    builder, the [PartialEq] of values (an equivalence coarser than Leibniz
    equality: the two zeros of [f64] are equal), and the class [Wire] of types
    that cross the JSON boundary through derived [Serialize]/[Deserialize]
    implementations.  The derived code is generated, so the model is
    parametric in it; [WireLaw] is serde's documented round trip. *)

From S2P Require Import Prelude.

(** ** Numbers *)

(** A finite [f64] in dyadic form: [(-1)^neg * mant * 2^exp].  [serde_json]
    numbers are never NaN or infinite. *)
Record dyadic := Dyadic { f64_neg : bool; f64_mant : N; f64_exp : Z }.

Inductive number :=
| PosInt (n : N)
| NegInt (z : Z)
| Float (f : dyadic).

#[export] Instance f64_eq_dec : EqDecision dyadic.
Proof. solve_decision. Defined.

(** Any [f64]. *)
Inductive f64 :=
| Finite (f : dyadic)
| Infinite (neg : bool)
| NaN.
Definition is_finite (f : f64) : bool :=
  match f with Finite _ => true | _ => false end.

(** The canonical form of a dyadic number: an odd signed mantissa, or zero. *)
Fixpoint odd_part (p : positive) : positive * Z :=
  match p with
  | xO q => let '(r, k) := odd_part q in (r, (k + 1)%Z)
  | _ => (p, 0%Z)
  end.

Definition f64_canon (f : dyadic) : Z * Z :=
  match f64_mant f with
  | N0 => (0, 0)%Z
  | Npos p =>
      let '(r, k) := odd_part p in
      ((if f64_neg f then Zneg r else Zpos r), (f64_exp f + k)%Z)
  end.

(** [==] on [f64]. *)
Definition f64_eqb (a b : dyadic) : bool := bool_decide (f64_canon a = f64_canon b).

(** [value.fract() == 0.0], [value.abs() <= bound] and [value as i64]. *)
Definition f64_is_integer (f : dyadic) : bool :=
  let '(m, e) := f64_canon f in bool_decide (m = 0%Z) || (0 <=? e)%Z.
Definition f64_to_Z (f : dyadic) : Z :=
  let '(m, e) := f64_canon f in
  if (0 <=? e)%Z then (m * 2 ^ e)%Z else Z.quot m (2 ^ (- e))%Z.
Definition f64_abs_le (f : dyadic) (bound : N) : bool :=
  let '(m, e) := f64_canon f in
  if (0 <=? e)%Z then (Z.abs m * 2 ^ e <=? Z.of_N bound)%Z
  else (Z.abs m <=? Z.of_N bound * 2 ^ (- e))%Z.
Definition f64_as_i64 (f : dyadic) : Z := Z.max I64_MIN (Z.min I64_MAX (f64_to_Z f)).

(** [n as f64]: round to nearest, ties to even, on 53 bits. *)
Definition f64_of_N (n : N) : dyadic :=
  if (n <? 2 ^ 53)%N then Dyadic false n 0 else
  let e := (N.log2 n - 52)%N in
  let q := (n / 2 ^ e)%N in
  let r := (n mod 2 ^ e)%N in
  let half := (2 ^ (e - 1))%N in
  let up := (half <? r)%N || ((r =? half)%N && N.odd q) in
  Dyadic false (if up then q + 1 else q)%N (Z.of_N e).
Definition f64_of_Z (z : Z) : dyadic :=
  Dyadic (z <? 0)%Z (f64_mant (f64_of_N (Z.abs_N z))) (f64_exp (f64_of_N (Z.abs_N z))).

(** ** Values *)

(** An object is a [BTreeMap<String, Value>]: its entries in key order. *)
Inductive Value :=
| VNull
| VBool (b : bool)
| VNumber (n : number)
| VString (s : string)
| VArray (l : list Value)
| VObject (m : list (string * Value)).

Fixpoint obj_insert (k : string) (v : Value) (m : list (string * Value)) :
    list (string * Value) :=
  match m with
  | [] => [(k, v)]
  | (k', v') :: m' =>
      match String.compare k k' with
      | Lt => (k, v) :: m
      | Eq => (k, v) :: m'
      | Gt => (k', v') :: obj_insert k v m'
      end
  end.

Fixpoint obj_get (k : string) (m : list (string * Value)) : option Value :=
  match m with
  | [] => None
  | (k', v) :: m' => if String.eqb k k' then Some v else obj_get k m'
  end.

(** [Map::remove]. *)
Definition obj_remove (k : string) (m : list (string * Value)) : list (string * Value) :=
  filter (λ kv, kv.1 ≠ k) m.

(** [json!({k: v, ...})]: the entries are inserted in turn. *)
Definition json_object (kvs : list (string * Value)) : Value :=
  VObject (foldl (λ m kv, obj_insert kv.1 kv.2 m) [] kvs).

Definition json_u64 (n : N) : Value := VNumber (PosInt n).
Definition json_i64 (z : Z) : Value :=
  VNumber (if (0 <=? z)%Z then PosInt (Z.to_N z) else NegInt z).
Definition json_strings (l : list string) : Value := VArray (VString <$> l).
Definition json_option {A} (f : A → Value) (o : option A) : Value :=
  match o with Some a => f a | None => VNull end.

(** [Value::get], [as_str], [as_u64], [as_i64], [as_f64], [as_object], ... *)
Definition get (k : string) (v : Value) : option Value :=
  match v with VObject m => obj_get k m | _ => None end.
Definition as_str (v : Value) : option string :=
  match v with VString s => Some s | _ => None end.
Definition as_bool (v : Value) : option bool :=
  match v with VBool b => Some b | _ => None end.
Definition as_u64 (v : Value) : option N :=
  match v with VNumber (PosInt n) => Some n | _ => None end.
Definition as_i64 (v : Value) : option Z :=
  match v with
  | VNumber (PosInt n) =>
      if (Z.of_N n <=? I64_MAX)%Z then Some (Z.of_N n) else None
  | VNumber (NegInt z) => Some z
  | _ => None
  end.
Definition as_f64 (v : Value) : option dyadic :=
  match v with
  | VNumber (PosInt n) => Some (f64_of_N n)
  | VNumber (NegInt z) => Some (f64_of_Z z)
  | VNumber (Float f) => Some f
  | _ => None
  end.
Definition as_array (v : Value) : option (list Value) :=
  match v with VArray l => Some l | _ => None end.
Definition as_object (v : Value) : option (list (string * Value)) :=
  match v with VObject m => Some m | _ => None end.
Definition is_null (v : Value) : bool := match v with VNull => true | _ => false end.
Definition is_object (v : Value) : bool :=
  match v with VObject _ => true | _ => false end.

Definition get_str (k : string) (v : Value) : option string := get k v ≫= as_str.
Definition get_u64 (k : string) (v : Value) : option N := get k v ≫= as_u64.

(** [Value::pointer] on a path of object keys. *)
Fixpoint pointer (path : list string) (v : Value) : option Value :=
  match path with
  | [] => Some v
  | k :: path' => get k v ≫= pointer path'
  end.

(** [data[k] = v] on an object. *)
Definition set_key (k : string) (v : Value) (data : Value) : Value :=
  match data with VObject m => VObject (obj_insert k v m) | _ => data end.

(** ** Equality of values *)

Definition number_eqb (a b : number) : bool :=
  match a, b with
  | PosInt x, PosInt y => (x =? y)%N
  | NegInt x, NegInt y => (x =? y)%Z
  | Float x, Float y => f64_eqb x y
  | _, _ => false
  end.

Section list_eqb.
Context {A : Type} (f : A → A → bool).
Fixpoint list_eqb (l l' : list A) : bool :=
  match l, l' with
  | [], [] => true
  | x :: l, y :: l' => f x y && list_eqb l l'
  | _, _ => false
  end.
End list_eqb.

(** The derived [PartialEq]. *)
Fixpoint value_eqb (a b : Value) : bool :=
  match a, b with
  | VNull, VNull => true
  | VBool x, VBool y => Bool.eqb x y
  | VNumber x, VNumber y => number_eqb x y
  | VString x, VString y => String.eqb x y
  | VArray l, VArray l' => list_eqb value_eqb l l'
  | VObject m, VObject m' =>
      list_eqb (λ p q, match p, q with
                       | (k, v), (k', v') => String.eqb k k' && value_eqb v v'
                       end) m m'
  | _, _ => false
  end.

#[export] Instance value_equiv : Equiv Value := λ a b, value_eqb a b = true.

(** Induction over values, through the lists they are nested in. *)
Section value_induction.
Variable P : Value → Prop.
Hypothesis Hnull : P VNull.
Hypothesis Hbool : ∀ b, P (VBool b).
Hypothesis Hnum : ∀ n, P (VNumber n).
Hypothesis Hstr : ∀ s, P (VString s).
Hypothesis Harr : ∀ l, Forall P l → P (VArray l).
Hypothesis Hobj : ∀ m, Forall (λ kv, P kv.2) m → P (VObject m).

Fixpoint value_nested_ind (v : Value) : P v :=
  match v with
  | VNull => Hnull
  | VBool b => Hbool b
  | VNumber n => Hnum n
  | VString s => Hstr s
  | VArray l =>
      Harr l ((fix go l : Forall P l :=
        match l with
        | [] => Forall_nil_2 _
        | x :: l' => Forall_cons_2 _ _ _ (value_nested_ind x) (go l')
        end) l)
  | VObject m =>
      Hobj m ((fix go m : Forall (λ kv, P kv.2) m :=
        match m with
        | [] => Forall_nil_2 _
        | (k, x) :: m' => Forall_cons_2 (λ kv, P kv.2) (k, x) _ (value_nested_ind x) (go m')
        end) m)
  end.
End value_induction.

Section list_eqb_lemmas.
Context {A : Type} (f : A → A → bool).

Lemma list_eqb_refl l : Forall (λ x, f x x = true) l → list_eqb f l l = true.
Proof. induction 1 as [|x l Hx _ IH]; simpl; [done|]. by rewrite Hx, IH. Qed.

Lemma list_eqb_sym l l' :
  Forall (λ x, ∀ y, f x y = true → f y x = true) l →
  list_eqb f l l' = true → list_eqb f l' l = true.
Proof.
  intros Hl; revert l'; induction Hl as [|x l Hx _ IH]; intros [|y l']; simpl; try done.
  rewrite !andb_true_iff. naive_solver.
Qed.

Lemma list_eqb_trans l1 l2 l3 :
  Forall (λ x, ∀ y z, f x y = true → f y z = true → f x z = true) l1 →
  list_eqb f l1 l2 = true → list_eqb f l2 l3 = true → list_eqb f l1 l3 = true.
Proof.
  intros Hl; revert l2 l3.
  induction Hl as [|x l Hx _ IH]; intros [|y l2] [|z l3]; simpl; try done.
  rewrite !andb_true_iff. naive_solver.
Qed.
End list_eqb_lemmas.

Lemma f64_eqb_true a b : f64_eqb a b = true ↔ f64_canon a = f64_canon b.
Proof. apply bool_decide_eq_true. Qed.

#[export] Instance value_equivalence : Equivalence (≡@{Value}).
Proof.
  split; unfold equiv, value_equiv.
  - intros v. induction v as [| | [] | | |] using value_nested_ind; simpl;
      auto using Bool.eqb_reflx, String.eqb_refl, N.eqb_refl, Z.eqb_refl, list_eqb_refl.
    + by apply f64_eqb_true.
    + apply list_eqb_refl. eapply Forall_impl; [done|].
      intros [k w] Hw; simpl in *. by rewrite String.eqb_refl, Hw.
  - intros v. induction v as [|b|n|s|l IH|m IH] using value_nested_ind;
      intros [|b'|n'|s'|l'|m']; simpl; try done.
    + rewrite !Bool.eqb_true_iff. done.
    + destruct n, n'; simpl; try done; [rewrite N.eqb_sym|rewrite Z.eqb_sym|]; try done.
      rewrite !f64_eqb_true. done.
    + by rewrite String.eqb_sym.
    + by apply list_eqb_sym.
    + apply list_eqb_sym. eapply Forall_impl; [done|].
      intros [k w] Hw [k' w']; simpl in *. rewrite !andb_true_iff, String.eqb_sym.
      naive_solver.
  - intros v. induction v as [|b|n|s|l IH|m IH] using value_nested_ind;
      intros [|b'|n'|s'|l'|m'] [|b''|n''|s''|l''|m'']; simpl; try done.
    + rewrite !Bool.eqb_true_iff. congruence.
    + destruct n, n', n''; simpl; try done;
        rewrite ?N.eqb_eq, ?Z.eqb_eq, ?f64_eqb_true; congruence.
    + rewrite !String.eqb_eq. congruence.
    + by apply list_eqb_trans.
    + apply list_eqb_trans. eapply Forall_impl; [done|].
      intros [k w] Hw [k' w'] [k'' w'']; simpl in *.
      rewrite !andb_true_iff, !String.eqb_eq. naive_solver.
Qed.

(** ** Objects as maps *)

Definition obj_sorted (m : list (string * Value)) : Prop :=
  StronglySorted (λ k k', String.compare k k' = Lt) m.*1.

Lemma compare_lt_trans a b c :
  String.compare a b = Lt → String.compare b c = Lt → String.compare a c = Lt.
Proof.
  revert b c; induction a as [|x a IH]; intros [|y b] [|z c]; simpl; try done.
  unfold Ascii.compare.
  destruct (N.compare_spec (N_of_ascii x) (N_of_ascii y)) as [Hxy|Hxy|Hxy]; try done;
  destruct (N.compare_spec (N_of_ascii y) (N_of_ascii z)) as [Hyz|Hyz|Hyz]; try done;
  intros; destruct (N.compare_spec (N_of_ascii x) (N_of_ascii z)); try done; try lia.
  eauto.
Qed.

Lemma compare_Eq a b : String.compare a b = Eq ↔ a = b.
Proof.
  split; [apply String.compare_eq_iff|]. intros ->.
  induction b as [|x b IH]; simpl; [done|]. unfold Ascii.compare. by rewrite N.compare_refl.
Qed.

Lemma compare_Gt a b : String.compare a b = Gt → String.compare b a = Lt.
Proof. intros H. rewrite String.compare_antisym, H. done. Qed.

Lemma obj_get_insert k v m : obj_get k (obj_insert k v m) = Some v.
Proof.
  induction m as [|[k' v'] m IH]; simpl; [by rewrite String.eqb_refl|].
  destruct (String.compare k k') eqn:Hk; simpl; rewrite ?String.eqb_refl; try done.
  destruct (String.eqb_spec k k') as [->|]; [|done].
  by rewrite (proj2 (compare_Eq k' k') eq_refl) in Hk.
Qed.

Lemma obj_get_insert_ne k k' v m :
  k ≠ k' → obj_get k' (obj_insert k v m) = obj_get k' m.
Proof.
  intros Hne. induction m as [|[k1 v1] m IH]; simpl.
  - destruct (String.eqb_spec k' k); congruence.
  - destruct (String.compare k k1) eqn:Hk; simpl.
    + apply compare_Eq in Hk as <-. by destruct (String.eqb_spec k' k); [congruence|].
    + by destruct (String.eqb_spec k' k); [congruence|].
    + by rewrite IH.
Qed.

(** ** The wire interface *)

(** [serde_json::to_value] and [serde_json::from_value] at a type with derived
    (de)serialisers; an error carries its text. *)
Class Wire (A : Type) := {
  to_value : A → Value;
  from_value : Value → result string A;
}.
#[global] Hint Mode Wire ! : typeclass_instances.

(** What is written is read back.  [Some VNull] inside an optional JSON field
    is the documented exception, so the law is relative to the values a client
    writes. *)
Class WireLaw (A : Type) `{Wire A} (stable : A → Prop) :=
  from_to_value : ∀ a, stable a → from_value (to_value a) = Ok a.
