(* ===== verification/Protocol.v ===== *)
(** * Protocol: wire-stable data and its validation (protocol.rs, error.rs)

    The structs and enums of the protocol with the source's fields and
    constructors, and every [validate] function, errors and details included. *)

From S2P Require Import Prelude Json.

(** ** Errors (error.rs) *)

Record TessivumError := mkError {
  err_code : string;
  err_message : string;
  err_phase : string;
  err_details : Value;
}.

Definition TessivumError_new (code message phase : string) (details : Value) : TessivumError :=
  {| err_code := code; err_message := message; err_phase := phase; err_details := details |}.

(** Its [Display]. *)
Definition error_text (e : TessivumError) : string := err_code e +:+ ": " +:+ err_message e.

Definition TessivumError_protocol (code message : string) (details : Value) : TessivumError :=
  TessivumError_new code message "protocol" details.

Definition SESSION_FORMAT_VERSION : N := 0.
Definition MAX_SAFE_INTEGER : N := 9007199254740991.

(** ** Leaf validators *)

Definition invalid (code message : string) (details : Value) : TessivumError :=
  TessivumError_protocol code message details.

Definition check_safe_integer (name : string) (value : N) : result TessivumError unit :=
  if (MAX_SAFE_INTEGER <? value)%N then
    Err (invalid "NUMERIC_BOUND_EXCEEDED"
      "numeric protocol fields must fit a JavaScript safe integer"
      (json_object [("field", VString name); ("value", json_u64 value);
                    ("maximum", json_u64 MAX_SAFE_INTEGER)]))
  else Ok tt.

Definition validate_positive_optional (name : string) (value : option N) :
    result TessivumError unit :=
  match value with
  | Some value =>
      _ ← check_safe_integer name value;
      if (value =? 0)%N then
        Err (invalid "INVALID_POSITIVE_VALUE"
          "optional numeric protocol fields must be positive when present"
          (json_object [("field", VString name); ("value", json_u64 value)]))
      else Ok tt
  | None => Ok tt
  end.

Definition validate_temperature (temperature : option f64) : result TessivumError unit :=
  match temperature with
  | Some t =>
      if negb (is_finite t) then
        Err (invalid "INVALID_TEMPERATURE" "temperature must be finite" VNull)
      else Ok tt
  | None => Ok tt
  end.

Definition validate_route (provider model : string) : result TessivumError unit :=
  if blank provider || blank model then
    Err (invalid "INVALID_LLM_ROUTE" "provider and model must be non-empty" VNull)
  else Ok tt.

Definition validate_nonempty (code field value : string) : result TessivumError unit :=
  if blank value then
    Err (invalid code "required protocol fields must be non-empty"
           (json_object [("field", VString field)]))
  else Ok tt.

Definition block_types : list string :=
  ["text"; "reasoning"; "image"; "tool-call"; "tool-result"].

Definition validate_block_type (block_type : string) : result TessivumError unit :=
  if bool_decide (block_type ∈ block_types) then Ok tt
  else Err (invalid "INVALID_STREAM_BLOCK_TYPE"
              "blockType must name a known content block type"
              (json_object [("blockType", VString block_type)])).

Definition validate_stop (stop : option (list string)) : result TessivumError unit :=
  match stop with
  | Some [] =>
      Err (invalid "INVALID_STOP_SEQUENCES" "empty stop sequences must be omitted" VNull)
  | Some stop => forM (validate_nonempty "INVALID_STOP_SEQUENCES" "stop") stop
  | None => Ok tt
  end.

(** [clientTimeZone]: UTC or an IANA Area/Location name of at most 64 bytes. *)
Definition zone_byte (a : ascii) : bool :=
  is_ascii_alphanumeric a || bool_decide (a ∈ ["_"; "+"; "."; "-"; "/"]%char).

Definition validate_client_time_zone (value : string) : result TessivumError unit :=
  if String.eqb value "UTC" then Ok tt else
  ensure (negb (is_empty value) && (str_len value <=? 64)%N && trimmed value
          && contains "/" value && negb (contains ".." value)
          && forallb zone_byte (bytes_of value))
    (TessivumError_new "INVALID_CLIENT_TIME_ZONE"
       "clientTimeZone must be UTC or a valid IANA Area/Location name" "protocol" VNull).

(** ** Identifiers

    [SessionId], [MessageId], [ToolCallId], [ProviderRequestId] and
    [WorkflowRunId] wrap an uninterpreted string. *)

Definition SessionId : Type := string.
Definition MessageId : Type := string.
Definition ToolCallId : Type := string.
Definition ProviderRequestId : Type := string.
Definition WorkflowRunId : Type := string.
Definition AgentModeId : Type := string.

(** ** Session header *)

Inductive SessionOrigin := Subagent.

Record SessionHeader := mkHeader {
  h_version : N;
  h_id : SessionId;
  h_created_at : N;
  h_cwd : option string;
  h_parent_session : option SessionId;
  h_seed_length : option N;
  h_origin : option SessionOrigin;
  h_delegation_depth : option N;
  h_agent_mode : option AgentModeId;
}.

Record SessionHeaderWire := mkHeaderWire {
  w_version : N;
  w_id : SessionId;
  w_created_at : N;
  w_cwd : option string;
  w_parent_session : option SessionId;
  w_seed_length : option N;
  w_origin : option SessionOrigin;
  w_delegation_depth : option N;
  w_agent_mode : option AgentModeId;
  w_agent_preset : option string;
}.

(** [legacy_mode_path] reads the environment: the model takes its root. *)
Definition legacy_mode_path (root legacy_preset : string) : string :=
  root +:+ "/modes/" +:+ legacy_preset +:+ "/mode.toml".

(** [{legacy_preset:?}], the [Debug] rendering of a string, is the standard
    library's; it only decorates an error message and is left a parameter. *)
Definition migrate_legacy_agent_preset (root : string) (debug : string → string)
    (legacy_preset : string) : result TessivumError AgentModeId :=
  if String.eqb legacy_preset "standard" then Ok "standard"
  else if String.eqb legacy_preset "code" then Ok "ptc"
  else if String.eqb legacy_preset "minimal" then Ok "minimal"
  else if String.eqb legacy_preset "cordis" then Ok "composition"
  else
    let expected_mode_path := legacy_mode_path root legacy_preset in
    Err (TessivumError_new "MODE_MIGRATION_REQUIRED"
      ("legacy agent preset " +:+ debug legacy_preset +:+ " must migrate to "
         +:+ expected_mode_path)
      "persistence"
      (json_object [("legacyPreset", VString legacy_preset);
                    ("expectedModePath", VString expected_mode_path)])).

Definition from_wire (root : string) (debug : string → string) (wire : SessionHeaderWire) :
    result TessivumError SessionHeader :=
  match w_agent_mode wire, w_agent_preset wire with
  | Some _, Some _ =>
      Err (invalid "SESSION_HEADER_MODE_CONFLICT"
        "session header cannot contain both agentMode and agentPreset"
        (json_object [("fields", json_strings ["agentMode"; "agentPreset"])]))
  | mode, preset =>
      agent_mode ←
        match mode with
        | Some m => Ok (Some m)
        | None =>
            match preset with
            | Some p => Some <$> migrate_legacy_agent_preset root debug p
            | None => Ok None
            end
        end;
      Ok {| h_version := w_version wire; h_id := w_id wire;
            h_created_at := w_created_at wire; h_cwd := w_cwd wire;
            h_parent_session := w_parent_session wire;
            h_seed_length := w_seed_length wire; h_origin := w_origin wire;
            h_delegation_depth := w_delegation_depth wire; h_agent_mode := agent_mode |}
  end.

Definition SessionHeader_validate (h : SessionHeader) : result TessivumError unit :=
  if negb (h_version h =? SESSION_FORMAT_VERSION)%N then
    Err (invalid "UNSUPPORTED_SESSION_FORMAT" "session header version is not supported"
      (json_object [("version", json_u64 (h_version h));
                    ("supportedVersion", json_u64 SESSION_FORMAT_VERSION)]))
  else
    _ ← check_safe_integer "createdAt" (h_created_at h);
    _ ← match h_seed_length h with
        | Some seed_length => check_safe_integer "seedLength" seed_length
        | None => Ok tt
        end;
    match h_delegation_depth h with
    | Some delegation_depth => check_safe_integer "delegationDepth" delegation_depth
    | None => Ok tt
    end.

(** ** Model selection and failures *)

Record SessionModelSelection := mkSelection {
  sel_provider : string;
  sel_model : string;
  sel_reasoning_effort : option string;
}.

Definition SessionModelSelection_validate (s : SessionModelSelection) :
    result TessivumError unit :=
  if blank (sel_provider s) || blank (sel_model s) then
    Err (invalid "INVALID_MODEL_SELECTION" "provider and model must not be blank" VNull)
  else if from_option blank false (sel_reasoning_effort s) then
    Err (invalid "INVALID_MODEL_SELECTION"
           "reasoningEffort must not be blank when present" VNull)
  else Ok tt.

Record LlmFailure := mkFailure {
  lf_message : string;
  lf_code : string;
  lf_status : option N;
  lf_provider_retry_after_ms : option N;
  lf_request_id : option ProviderRequestId;
}.

Definition LlmFailure_validate (f : LlmFailure) : result TessivumError unit :=
  if blank (lf_message f) || blank (lf_code f) then
    Err (invalid "INVALID_LLM_FAILURE" "LLM failure message and code must be non-empty" VNull)
  else
    _ ← match lf_status f with
        | Some status =>
            if negb ((100 <=? status) && (status <=? 599))%N then
              Err (invalid "INVALID_LLM_FAILURE_STATUS"
                "LLM failure status must be an HTTP status code"
                (json_object [("status", json_u64 status)]))
            else Ok tt
        | None => Ok tt
        end;
    _ ← validate_positive_optional "providerRetryAfterMs" (lf_provider_retry_after_ms f);
    match lf_request_id f with
    | Some request_id => validate_nonempty "INVALID_LLM_REQUEST_ID" "requestId" request_id
    | None => Ok tt
    end.

(** ** Content blocks, sources and messages *)

Inductive ContentBlock :=
| Text (text : string)
| Reasoning (text : string)
| Image (attachment : Value)
| ToolCall (id : ToolCallId) (name arguments : string)
| ToolResult (tool_call_id : ToolCallId) (content : list ContentBlock)
    (is_error : option bool).

Fixpoint ContentBlock_validate (b : ContentBlock) : result TessivumError unit :=
  match b with
  | ToolResult tool_call_id content _ =>
      _ ← validate_nonempty "INVALID_TOOL_CALL_ID" "tool-result toolCallId" tool_call_id;
      forM ContentBlock_validate content
  | Text _ | Reasoning _ | Image _ | ToolCall _ _ _ => Ok tt
  end.

Definition type_tag (b : ContentBlock) : string :=
  match b with
  | Text _ => "text"
  | Reasoning _ => "reasoning"
  | Image _ => "image"
  | ToolCall _ _ _ => "tool-call"
  | ToolResult _ _ _ => "tool-result"
  end.

Record ContextSnapshotSection := mkSection { sec_name : string; sec_text : string }.

Inductive ContextForm := Instructions | Catalog | Snapshot | Notice | Relay | Recall.

#[export] Instance ContextForm_eq_dec : EqDecision ContextForm.
Proof. solve_decision. Defined.

Inductive MessageSource :=
| SourceGoal (goal_id : string) (revision round : N)
| SourceUser (client_time_zone : option string)
| SourcePlugin (plugin : string) (compaction_id : option string)
    (form : option ContextForm) (sections : option (list ContextSnapshotSection))
    (summary : option string)
| SourceSkillInvocation (name : string) (form : ContextForm)
| SourceModel (provider model : string) (replay_state : option Value)
| SourceTool (call_id : ToolCallId).

Definition MessageSource_validate (s : MessageSource) : result TessivumError unit :=
  match s with
  | SourcePlugin plugin compaction_id form sections summary =>
      _ ← validate_nonempty "INVALID_MESSAGE_SOURCE" "plugin" plugin;
      _ ← match compaction_id with
          | Some c => validate_nonempty "INVALID_MESSAGE_SOURCE" "compactionId" c
          | None => Ok tt
          end;
      match form, sections, summary with
      | Some Snapshot, None, _ =>
          Err (invalid "INVALID_MESSAGE_SOURCE"
                 "snapshot plugin sources require sections" VNull)
      | Some Notice, _, None =>
          Err (invalid "INVALID_MESSAGE_SOURCE"
                 "notice plugin sources require a summary" VNull)
      | _, _, _ => Ok tt
      end
  | SourceSkillInvocation name form =>
      _ ← validate_nonempty "INVALID_MESSAGE_SOURCE" "name" name;
      if bool_decide (form ≠ Instructions) then
        Err (invalid "INVALID_MESSAGE_SOURCE"
               "skill invocation sources require instructions form" VNull)
      else Ok tt
  | SourceModel provider model _ => validate_route provider model
  | SourceTool call_id => validate_nonempty "INVALID_TOOL_CALL_ID" "callId" call_id
  | SourceUser client_time_zone =>
      match client_time_zone with
      | Some value => validate_client_time_zone value
      | None => Ok tt
      end
  | SourceGoal goal_id revision round =>
      _ ← validate_nonempty "INVALID_GOAL_SOURCE" "goalId" goal_id;
      if (revision =? 0)%N || (round =? 0)%N then
        Err (TessivumError_new "INVALID_GOAL_SOURCE"
          "goal message source revision and round must be positive" "protocol" VNull)
      else Ok tt
  end.

Inductive MessageRole := RoleSystem | RoleUser | RoleAssistant.

#[export] Instance MessageRole_eq_dec : EqDecision MessageRole.
Proof. solve_decision. Defined.

Record Message := mkMessage {
  m_id : MessageId;
  m_role : MessageRole;
  m_content : list ContentBlock;
  m_source : MessageSource;
}.

Definition Message_validate (m : Message) : result TessivumError unit :=
  _ ← MessageSource_validate (m_source m);
  forM ContentBlock_validate (m_content m).

(** ** Model requests *)

Record TokenUsage := mkUsage {
  tu_input_tokens : N;
  tu_output_tokens : N;
  tu_cache_read_tokens : option N;
  tu_cache_write_tokens : option N;
  tu_reasoning_tokens : option N;
}.

Definition TokenUsage_validate (u : TokenUsage) : result TessivumError unit :=
  _ ← forM (λ nv, check_safe_integer nv.1 nv.2)
        [("inputTokens", tu_input_tokens u); ("outputTokens", tu_output_tokens u)];
  forM (λ nv : string * option N,
          match nv.2 with Some value => check_safe_integer nv.1 value | None => Ok tt end)
    [("cacheReadTokens", tu_cache_read_tokens u);
     ("cacheWriteTokens", tu_cache_write_tokens u);
     ("reasoningTokens", tu_reasoning_tokens u)].

Inductive FinishReason :=
| FinishStop
| FinishToolCalls
| FinishMaxTokens
| FinishAborted (failure : LlmFailure)
| FinishError (failure : LlmFailure).

Definition FinishReason_validate (r : FinishReason) : result TessivumError unit :=
  match r with
  | FinishAborted failure | FinishError failure => LlmFailure_validate failure
  | FinishStop | FinishToolCalls | FinishMaxTokens => Ok tt
  end.

Inductive StreamChunk :=
| BlockStart (index : N) (block_type : string)
| TextDelta (index : N) (text : string)
| ReasoningDelta (index : N) (text : string)
| ToolCallDelta (index : N) (id : ToolCallId) (name : option string)
    (arguments_delta : string)
| BlockEnd (index : N) (block : ContentBlock)
| ChunkUsage (usage : TokenUsage)
| Finish (reason : FinishReason) (replay_state : option Value).

Definition StreamChunk_validate (c : StreamChunk) : result TessivumError unit :=
  match c with
  | BlockStart index block_type =>
      _ ← check_safe_integer "index" index; validate_block_type block_type
  | TextDelta index _ | ReasoningDelta index _ => check_safe_integer "index" index
  | ToolCallDelta index _ _ _ => check_safe_integer "index" index
  | BlockEnd index block =>
      _ ← check_safe_integer "index" index; ContentBlock_validate block
  | ChunkUsage usage => TokenUsage_validate usage
  | Finish reason _ => FinishReason_validate reason
  end.

Record ToolSchema := mkToolSchema {
  ts_name : string;
  ts_description : string;
  ts_parameters : Value;
}.

Definition ToolSchema_validate (t : ToolSchema) : result TessivumError unit :=
  _ ← validate_nonempty "INVALID_TOOL_SCHEMA" "tool schema name" (ts_name t);
  if negb (is_object (ts_parameters t)) then
    Err (invalid "INVALID_TOOL_SCHEMA" "tool schema parameters must be a JSON object"
           (json_object [("field", VString "parameters")]))
  else Ok tt.

(** The loop of [validate_tools]; [prior] is [tools[..index]]. *)
Fixpoint validate_tools_from (prior tools : list ToolSchema) : result TessivumError unit :=
  match tools with
  | [] => Ok tt
  | tool :: rest =>
      _ ← ToolSchema_validate tool;
      if existsb (λ p, String.eqb (ts_name p) (ts_name tool)) prior then
        Err (invalid "DUPLICATE_TOOL_SCHEMA"
          "tool schema names must be unique within a request snapshot"
          (json_object [("name", VString (ts_name tool))]))
      else validate_tools_from (prior ++ [tool]) rest
  end.
Definition validate_tools (tools : list ToolSchema) : result TessivumError unit :=
  validate_tools_from [] tools.

Record LlmCallConfig := mkCallConfig {
  cc_provider : string;
  cc_model : string;
  cc_reasoning_effort : option string;
  cc_temperature : option f64;
  cc_max_tokens : option N;
  cc_stop : option (list string);
}.

Definition validate_reasoning_effort (o : option string) : result TessivumError unit :=
  match o with
  | Some r => validate_nonempty "INVALID_REASONING_EFFORT" "reasoningEffort" r
  | None => Ok tt
  end.

Definition LlmCallConfig_validate (c : LlmCallConfig) : result TessivumError unit :=
  _ ← validate_route (cc_provider c) (cc_model c);
  _ ← validate_reasoning_effort (cc_reasoning_effort c);
  _ ← validate_temperature (cc_temperature c);
  _ ← validate_positive_optional "maxTokens" (cc_max_tokens c);
  validate_stop (cc_stop c).

Record LlmCallConfigAdapterDefaults := mkAdapterDefaults {
  ad_reasoning_effort : option bool;
  ad_max_tokens : option bool;
}.

Definition LlmCallConfigAdapterDefaults_validate (d : LlmCallConfigAdapterDefaults) :
    result TessivumError unit :=
  match ad_reasoning_effort d, ad_max_tokens d with
  | Some false, _ | _, Some false =>
      Err (invalid "INVALID_ADAPTER_DEFAULTS"
             "adapter default markers must be true when present" VNull)
  | None, None =>
      Err (invalid "INVALID_ADAPTER_DEFAULTS"
             "empty adapter default markers must be omitted" VNull)
  | _, _ => Ok tt
  end.

Inductive GeneratePurpose := PurposeCompaction | PurposeSessionTitle.

Record GenerateRequest := mkGenerateRequest {
  gr_provider : string;
  gr_model : string;
  gr_reasoning_effort : option string;
  gr_messages : list Message;
  gr_system : option string;
  gr_tools : option (list ToolSchema);
  gr_temperature : option f64;
  gr_max_tokens : option N;
  gr_stop : option (list string);
  gr_session_id : option SessionId;
  gr_purpose : option GeneratePurpose;
}.

Definition GenerateRequest_validate (r : GenerateRequest) : result TessivumError unit :=
  _ ← validate_route (gr_provider r) (gr_model r);
  _ ← validate_reasoning_effort (gr_reasoning_effort r);
  _ ← validate_temperature (gr_temperature r);
  _ ← validate_positive_optional "maxTokens" (gr_max_tokens r);
  _ ← validate_stop (gr_stop r);
  _ ← forM Message_validate (gr_messages r);
  match gr_tools r with Some tools => validate_tools tools | None => Ok tt end.

Record EpochHeader := mkEpochHeader {
  eh_config : LlmCallConfig;
  eh_adapter_defaults : option LlmCallConfigAdapterDefaults;
  eh_system : option string;
  eh_tools : option (list ToolSchema);
}.

Definition EpochHeader_validate (h : EpochHeader) : result TessivumError unit :=
  _ ← LlmCallConfig_validate (eh_config h);
  _ ← match eh_adapter_defaults h with
      | Some d => LlmCallConfigAdapterDefaults_validate d
      | None => Ok tt
      end;
  _ ← match eh_system h with
      | Some system => validate_nonempty "INVALID_EPOCH_HEADER" "system" system
      | None => Ok tt
      end;
  match eh_tools h with
  | Some [] =>
      Err (invalid "INVALID_EPOCH_HEADER" "empty tool snapshots must be omitted" VNull)
  | Some tools => validate_tools tools
  | None => Ok tt
  end.

Record RequestContext := mkRequestContext {
  rc_provider : string;
  rc_model : string;
  rc_context_window : option N;
}.

Definition RequestContext_validate (c : RequestContext) : result TessivumError unit :=
  _ ← validate_route (rc_provider c) (rc_model c);
  validate_positive_optional "contextWindow" (rc_context_window c).

(** ** Turn ends *)

Inductive AgentCancelCause :=
| CancelUser | CancelParent | CancelHook (reason : string) | CancelDisposed.

Inductive TurnEndCancelCause :=
| EndUser | EndParent | EndHook (reason : string) | EndDisposed | EndLegacy.

Definition TurnEndCancelCause_from (c : AgentCancelCause) : TurnEndCancelCause :=
  match c with
  | CancelUser => EndUser
  | CancelParent => EndParent
  | CancelHook reason => EndHook reason
  | CancelDisposed => EndDisposed
  end.

Inductive TurnEndReason :=
| TurnCompleted
| TurnAborted (reason : TurnEndCancelCause)
| TurnBlocked
| TurnError (error : LlmFailure)
| TurnMaxTokens
| TurnInterrupted.

Definition TurnEndReason_validate (r : TurnEndReason) : result TessivumError unit :=
  match r with
  | TurnError error => LlmFailure_validate error
  | TurnCompleted | TurnAborted _ | TurnBlocked | TurnMaxTokens | TurnInterrupted => Ok tt
  end.

(** ** To-do items *)

Inductive TodoStatus := Pending | InProgress | Completed.

Record TodoItem := mkTodo { todo_content : string; todo_status : TodoStatus }.

Definition TodoItem_validate (t : TodoItem) : result TessivumError unit :=
  if is_empty (todo_content t) then
    Err (invalid "INVALID_TODO_ITEM" "todo content must be non-empty" VNull)
  else Ok tt.

(** ** SDK runtime messages *)

Record InitializeParams := mkInitializeParams {
  ip_cwd : string;
  ip_provider : string;
  ip_model : string;
  ip_max_tokens : option N;
}.
Definition InitializeParams_validate (p : InitializeParams) : result TessivumError unit :=
  validate_positive_optional "maxTokens" (ip_max_tokens p).

Record SessionPromptParams := mkPromptParams {
  pp_session_id : SessionId;
  pp_content_blocks : list ContentBlock;
  pp_client_time_zone : option string;
}.
Definition SessionPromptParams_validate (p : SessionPromptParams) :
    result TessivumError unit :=
  _ ← forM ContentBlock_validate (pp_content_blocks p);
  match pp_client_time_zone p with
  | Some value => validate_client_time_zone value
  | None => Ok tt
  end.

(** ** Session events *)

Inductive SurfaceOp :=
| Append
| Replace (start fin : N).

#[export] Instance SurfaceOp_eq_dec : EqDecision SurfaceOp.
Proof. solve_decision. Defined.

Definition SurfaceOp_validate (op : SurfaceOp) : result TessivumError unit :=
  match op with
  | Replace start fin =>
      _ ← check_safe_integer "surfaceOp.start" start;
      _ ← check_safe_integer "surfaceOp.end" fin;
      if (fin <? start)%N then
        Err (invalid "INVALID_SURFACE_RANGE"
          "surface replacement start must not exceed end"
          (json_object [("start", json_u64 start); ("end", json_u64 fin)]))
      else Ok tt
  | Append => Ok tt
  end.

(** [SurfaceOp] has hand-written (de)serialisers, through the untagged
    [SurfaceOpWire]: a string, or an object with the fields [op], [start], [end]. *)
Definition SurfaceOp_serialize (op : SurfaceOp) : Value :=
  match op with
  | Append => VString "append"
  | Replace start fin =>
      json_object [("op", VString "replace"); ("start", json_u64 start);
                   ("end", json_u64 fin)]
  end.

Inductive SurfaceOpWire :=
| WireAppend (op : string)
| WireReplace (op : string) (start fin : N).

Definition SurfaceOp_of_wire (w : SurfaceOpWire) : result string SurfaceOp :=
  match w with
  | WireAppend op =>
      if String.eqb op "append" then Ok Append
      else Err "surfaceOp must be append or a replace range"
  | WireReplace op start fin =>
      if String.eqb op "replace" then Ok (Replace start fin)
      else Err "surfaceOp must be append or a replace range"
  end.

Inductive WorkflowAgentOutcome := OutcomeCompleted | OutcomeFailed | OutcomeCancelled.
Inductive WorkflowStopReason := StopCompleted | StopCancelled | StopError.

Record ToolWorkflowRunStartData := mkRunStart {
  rs_run_id : WorkflowRunId; rs_name : string }.
Record ToolWorkflowAgentStartData := mkAgentStart {
  as_run_id : WorkflowRunId; as_seq : N; as_label : string;
  as_phase : option string; as_child_id : SessionId }.
Record ToolWorkflowAgentEndData := mkAgentEnd {
  ae_run_id : WorkflowRunId; ae_seq : N; ae_outcome : WorkflowAgentOutcome }.
Record ToolWorkflowRunEndData := mkRunEnd {
  re_run_id : WorkflowRunId; re_stop_reason : WorkflowStopReason }.

(** The event envelope; [data] is kept as raw JSON. *)
Record SessionEvent := mkEvent {
  event_type : string;
  ev_seq : N;
  ev_time : N;
  ev_data : Value;
  ev_ignorable : option bool;
  ev_source_event_seqs : option (list N);
  ev_surface_op : option SurfaceOp;
}.

Definition known_event_types : list string := [
  "turn/start"; "turn/end"; "step/start"; "step/end"; "user/message";
  "assistant/chunk"; "assistant/message"; "agent/inbox/enqueued";
  "agent/inbox/spliced"; "tool/call"; "tool/result"; "tool/code-dispatch-start";
  "tool/code-dispatch"; "todo/write"; "cordis/dynamic"; "schedule/change";
  "goal/change"; "plan/change"; "plan/mode"; "command/run"; "command/done";
  "feedback/record"; "permission/preset"; "sandbox/mode"; "approval/policy";
  "agent-mode/selected"; "approval/asked"; "approval/decided"; "question/asked";
  "question/resolved"; "job/done"; "subagent/contained-start";
  "subagent/contained-end"; "subagent/descriptor"; "tool-workflow/run-start";
  "tool-workflow/agent-start"; "tool-workflow/agent-end"; "tool-workflow/run-end";
  "request/header"; "request/context"; "llm/retry"; "llm/retry-started";
  "session/model-selected"; "session/title"; "web/deepseek-search-llm-request";
  "session/end-seed"].
Definition is_known_event_type (t : string) : bool :=
  bool_decide (t ∈ known_event_types).

Definition is_surface_event_type (t : string) : bool :=
  String.eqb t "user/message" || String.eqb t "assistant/message"
  || String.eqb t "tool/result".

Definition workflow_nonempty (field value : string) : result TessivumError unit :=
  if is_empty value then
    Err (invalid "INVALID_TOOL_WORKFLOW_EVENT"
           "tool-workflow identity fields must not be empty"
           (json_object [("field", VString field)]))
  else Ok tt.

Definition workflow_event_data {T} `{Wire T} (t : string) (data : Value) :
    result TessivumError T :=
  map_err (λ error, invalid "INVALID_TOOL_WORKFLOW_EVENT"
    "tool-workflow event data does not match its canonical schema"
    (json_object [("type", VString t); ("error", VString error)])) (from_value data).

(** The types of this file that are read from or written to JSON. *)
Class ProtocolWire := {
  wire_message :: Wire Message;
  wire_run_start :: Wire ToolWorkflowRunStartData;
  wire_agent_start :: Wire ToolWorkflowAgentStartData;
  wire_agent_end :: Wire ToolWorkflowAgentEndData;
  wire_run_end :: Wire ToolWorkflowRunEndData;
}.

Section events.
Context `{ProtocolWire}.

Definition positive_workflow_seq (t : string) (seq : N) : result TessivumError unit :=
  if (seq =? 0)%N then
    Err (invalid "INVALID_TOOL_WORKFLOW_EVENT"
           "tool-workflow agent sequence must be positive"
           (json_object [("type", VString t); ("seq", json_u64 seq)]))
  else Ok tt.

Definition validate_tool_workflow_event (t : string) (data : Value) :
    result TessivumError unit :=
  if String.eqb t "tool-workflow/run-start" then
    d ← workflow_event_data (T := ToolWorkflowRunStartData) t data;
    _ ← workflow_nonempty "runId" (rs_run_id d);
    workflow_nonempty "name" (rs_name d)
  else if String.eqb t "tool-workflow/agent-start" then
    if from_option is_null false (get "phase" data) then
      Err (invalid "INVALID_TOOL_WORKFLOW_EVENT"
             "tool-workflow agent phase must be omitted or a string"
             (json_object [("type", VString t)]))
    else
      d ← workflow_event_data (T := ToolWorkflowAgentStartData) t data;
      _ ← workflow_nonempty "runId" (as_run_id d);
      _ ← check_safe_integer "tool-workflow.agent-start.seq" (as_seq d);
      _ ← positive_workflow_seq t (as_seq d);
      workflow_nonempty "childId" (as_child_id d)
  else if String.eqb t "tool-workflow/agent-end" then
    d ← workflow_event_data (T := ToolWorkflowAgentEndData) t data;
    _ ← workflow_nonempty "runId" (ae_run_id d);
    _ ← check_safe_integer "tool-workflow.agent-end.seq" (ae_seq d);
    positive_workflow_seq t (ae_seq d)
  else if String.eqb t "tool-workflow/run-end" then
    d ← workflow_event_data (T := ToolWorkflowRunEndData) t data;
    workflow_nonempty "runId" (re_run_id d)
  else Ok tt.

(** The surface metadata of a message-producing event. *)
Definition validate_surface_metadata (e : SessionEvent) : result TessivumError unit :=
  surface_op ← ok_or (ev_surface_op e)
    (invalid "MISSING_SURFACE_OPERATION" "surface events must declare surfaceOp"
       (json_object [("type", VString (event_type e))]));
  _ ← SurfaceOp_validate surface_op;
  _ ← match ev_source_event_seqs e with
      | Some source_event_seqs =>
          _ ← (if negb (String.eqb (event_type e) "assistant/message")
                  && bool_decide (source_event_seqs = []) then
                 Err (invalid "INVALID_SOURCE_EVENT_SEQS"
                   "only assistant/message may cite an empty sourceEventSeqs list"
                   (json_object [("type", VString (event_type e))]))
               else Ok tt);
          forM (λ source_seq,
            _ ← check_safe_integer "sourceEventSeqs" source_seq;
            if (ev_seq e <=? source_seq)%N then
              Err (invalid "INVALID_SOURCE_EVENT_SEQS"
                "sourceEventSeqs must cite earlier events"
                (json_object [("seq", json_u64 (ev_seq e));
                              ("sourceEventSeq", json_u64 source_seq)]))
            else Ok tt) source_event_seqs
      | None => Ok tt
      end;
  match surface_op, ev_source_event_seqs e with
  | Replace _ _, (None | Some []) =>
      Err (invalid "INVALID_SURFACE_REPLACEMENT"
             "surface replacements must cite shadowed source events" VNull)
  | _, _ => Ok tt
  end.

Definition SessionEvent_validate (e : SessionEvent) : result TessivumError unit :=
  _ ← check_safe_integer "seq" (ev_seq e);
  _ ← check_safe_integer "time" (ev_time e);
  if bool_decide (ev_ignorable e = Some false) then
    Err (invalid "INVALID_IGNORABLE_EVENT" "ignorable must be true when present" VNull)
  else if negb (is_known_event_type (event_type e))
          && negb (bool_decide (ev_ignorable e = Some true)) then
    Err (invalid "UNKNOWN_REQUIRED_EVENT"
      "unknown session events must be marked ignorable"
      (json_object [("type", VString (event_type e))]))
  else
    _ ← validate_tool_workflow_event (event_type e) (ev_data e);
    if is_surface_event_type (event_type e) then validate_surface_metadata e
    else
      match ev_surface_op e, ev_source_event_seqs e with
      | None, None => Ok tt
      | _, _ =>
          Err (invalid "INVALID_SURFACE_METADATA"
            "surface metadata is only valid on user/message, assistant/message, and tool/result"
            (json_object [("type", VString (event_type e))]))
      end.
End events.

(** [migrate_legacy_agent_preset_selection]: the stored preset event becomes
    the mode event while durable history is restored. *)
Definition migrate_legacy_agent_preset_selection (root : string) (debug : string → string)
    (t : string) (data : Value) : result TessivumError (string * Value) :=
  if negb (String.eqb t "agent-preset/selected") then Ok (t, data) else
  let stored : option string := o ← as_object data; v ← obj_get "agentPreset" o; as_str v in
  legacy_preset ← ok_or stored
    (invalid "INVALID_LEGACY_AGENT_PRESET_EVENT"
       "legacy agent preset selection must contain agentPreset" VNull);
  agent_mode ← migrate_legacy_agent_preset root debug legacy_preset;
  Ok ("agent-mode/selected", json_object [("agentMode", VString agent_mode)]).

(** ** The leaf validators *)

Lemma check_safe_integer_Ok name n :
  check_safe_integer name n = Ok tt ↔ (n ≤ MAX_SAFE_INTEGER)%N.
Proof.
  unfold check_safe_integer. destruct (N.ltb_spec MAX_SAFE_INTEGER n); split; done || lia.
Qed.

Lemma validate_nonempty_Ok code field value :
  validate_nonempty code field value = Ok tt ↔ blank value = false.
Proof. unfold validate_nonempty. by destruct (blank value). Qed.
