(* ===== verification/Codec.v ===== *)
(** * A concrete wire codec

    One instance of the parameter [ProtocolWire]: the JSON forms that the
    [serde] attributes of protocol.rs prescribe (field renaming, internal tags,
    omitted options, refusal of unknown fields).  It discharges [WireLaw] and
    makes the witnesses of the other files executable; nothing is proved
    about the program from it. *)

From S2P Require Import Prelude Json Protocol.

(** ** Building and reading objects *)

(** An object whose absent options are skipped. *)
Definition obj_of (kvs : list (string * option Value)) : Value :=
  json_object (omap (λ kv, pair kv.1 <$> kv.2) kvs).

Section fields.
Context (m : list (string * Value)).

Definition field {A} (k : string) (f : Value → result string A) : result string A :=
  match obj_get k m with Some v => f v | None => Err ("missing field " +:+ k) end.
Definition opt_field {A} (k : string) (f : Value → result string A) :
    result string (option A) :=
  match obj_get k m with
  | None | Some VNull => Ok None
  | Some v => Some <$> f v
  end.
Definition only (ks : list string) : result string unit :=
  ensure (forallb (λ kv, bool_decide (kv.1 ∈ ks)) m) "unknown field".
End fields.

Definition of_str (v : Value) : result string string := ok_or (as_str v) "expected a string".
Definition of_u64 (v : Value) : result string N := ok_or (as_u64 v) "expected a u64".
Definition of_bool (v : Value) : result string bool := ok_or (as_bool v) "expected a bool".
Definition of_obj (v : Value) : result string (list (string * Value)) :=
  ok_or (as_object v) "expected an object".
Definition of_array {A} (f : Value → result string A) (v : Value) : result string (list A) :=
  match v with VArray l => collectM f l | _ => Err "expected an array" end.
(** A unit variant, by name. *)
Definition of_enum {A} (names : list (string * A)) (v : Value) : result string A :=
  s ← of_str v;
  ok_or (snd <$> head (filter (λ p, p.1 = s) names)) "unknown variant".

(** ** Messages *)

Definition form_names : list (string * ContextForm) :=
  [("instructions", Instructions); ("catalog", Catalog); ("snapshot", Snapshot);
   ("notice", Notice); ("relay", Relay); ("recall", Recall)].
Definition form_str (f : ContextForm) : Value :=
  VString match f with
  | Instructions => "instructions" | Catalog => "catalog" | Snapshot => "snapshot"
  | Notice => "notice" | Relay => "relay" | Recall => "recall" end.
Definition role_names : list (string * MessageRole) :=
  [("system", RoleSystem); ("user", RoleUser); ("assistant", RoleAssistant)].
Definition role_str (r : MessageRole) : Value :=
  VString match r with
  | RoleSystem => "system" | RoleUser => "user" | RoleAssistant => "assistant" end.

Fixpoint block_value (b : ContentBlock) : Value :=
  match b with
  | Text t => obj_of [("type", Some (VString "text")); ("text", Some (VString t))]
  | Reasoning t => obj_of [("type", Some (VString "reasoning")); ("text", Some (VString t))]
  | Image a => obj_of [("type", Some (VString "image")); ("attachment", Some a)]
  | ToolCall i n a =>
      obj_of [("type", Some (VString "tool-call")); ("id", Some (VString i));
              ("name", Some (VString n)); ("arguments", Some (VString a))]
  | ToolResult i c e =>
      obj_of [("type", Some (VString "tool-result")); ("toolCallId", Some (VString i));
              ("content", Some (VArray (block_value <$> c))); ("isError", VBool <$> e)]
  end.

(** The nested blocks are decoded while scanning the entries, which keeps the
    recursion structural. *)
Fixpoint block_of (v : Value) : result string ContentBlock :=
  match v with
  | VObject m =>
      let content : result string (list ContentBlock) :=
        (fix scan m := match m with
         | [] => Err "missing field content"
         | (k, w) :: m' =>
             if String.eqb k "content" then of_array block_of w else scan m'
         end) m in
      kind ← field m "type" of_str;
      if String.eqb kind "text" then
        _ ← only m ["type"; "text"]; Text <$> field m "text" of_str
      else if String.eqb kind "reasoning" then
        _ ← only m ["type"; "text"]; Reasoning <$> field m "text" of_str
      else if String.eqb kind "image" then
        _ ← only m ["type"; "attachment"]; Image <$> field m "attachment" Ok
      else if String.eqb kind "tool-call" then
        _ ← only m ["type"; "id"; "name"; "arguments"];
        i ← field m "id" of_str; n ← field m "name" of_str;
        a ← field m "arguments" of_str; Ok (ToolCall i n a)
      else if String.eqb kind "tool-result" then
        _ ← only m ["type"; "toolCallId"; "content"; "isError"];
        i ← field m "toolCallId" of_str; c ← content;
        e ← opt_field m "isError" of_bool; Ok (ToolResult i c e)
      else Err "unknown variant"
  | _ => Err "expected an object"
  end.

Definition section_value (s : ContextSnapshotSection) : Value :=
  obj_of [("name", Some (VString (sec_name s))); ("text", Some (VString (sec_text s)))].
Definition section_of (v : Value) : result string ContextSnapshotSection :=
  m ← of_obj v; _ ← only m ["name"; "text"];
  n ← field m "name" of_str; t ← field m "text" of_str; Ok (mkSection n t).

Definition source_value (s : MessageSource) : Value :=
  let kind k := ("kind", Some (VString k)) in
  match s with
  | SourceGoal g r n =>
      obj_of [kind "goal"; ("goalId", Some (VString g)); ("revision", Some (json_u64 r));
              ("round", Some (json_u64 n))]
  | SourceUser z => obj_of [kind "user"; ("clientTimeZone", VString <$> z)]
  | SourcePlugin p c f ss t =>
      obj_of [kind "plugin"; ("plugin", Some (VString p)); ("compactionId", VString <$> c);
              ("form", form_str <$> f);
              ("sections", (λ l, VArray (section_value <$> l)) <$> ss);
              ("summary", VString <$> t)]
  | SourceSkillInvocation n f =>
      obj_of [kind "skill-invocation"; ("name", Some (VString n)); ("form", Some (form_str f))]
  | SourceModel p m r =>
      obj_of [kind "model"; ("provider", Some (VString p)); ("model", Some (VString m));
              ("replayState", r)]
  | SourceTool c => obj_of [kind "tool"; ("callId", Some (VString c))]
  end.

Definition source_of (v : Value) : result string MessageSource :=
  m ← of_obj v;
  kind ← field m "kind" of_str;
  if String.eqb kind "goal" then
    _ ← only m ["kind"; "goalId"; "revision"; "round"];
    g ← field m "goalId" of_str; r ← field m "revision" of_u64;
    n ← field m "round" of_u64; Ok (SourceGoal g r n)
  else if String.eqb kind "user" then
    _ ← only m ["kind"; "clientTimeZone"];
    SourceUser <$> opt_field m "clientTimeZone" of_str
  else if String.eqb kind "plugin" then
    _ ← only m ["kind"; "plugin"; "compactionId"; "form"; "sections"; "summary"];
    p ← field m "plugin" of_str; c ← opt_field m "compactionId" of_str;
    f ← opt_field m "form" (of_enum form_names);
    ss ← opt_field m "sections" (of_array section_of);
    t ← opt_field m "summary" of_str; Ok (SourcePlugin p c f ss t)
  else if String.eqb kind "skill-invocation" then
    _ ← only m ["kind"; "name"; "form"];
    n ← field m "name" of_str; f ← field m "form" (of_enum form_names);
    Ok (SourceSkillInvocation n f)
  else if String.eqb kind "model" then
    _ ← only m ["kind"; "provider"; "model"; "replayState"];
    p ← field m "provider" of_str; n ← field m "model" of_str;
    r ← opt_field m "replayState" Ok; Ok (SourceModel p n r)
  else if String.eqb kind "tool" then
    _ ← only m ["kind"; "callId"]; SourceTool <$> field m "callId" of_str
  else Err "unknown variant".

Definition message_value (m : Message) : Value :=
  obj_of [("id", Some (VString (m_id m))); ("role", Some (role_str (m_role m)));
          ("content", Some (VArray (block_value <$> m_content m)));
          ("source", Some (source_value (m_source m)))].
Definition message_of (v : Value) : result string Message :=
  m ← of_obj v;
  _ ← only m ["id"; "role"; "content"; "source"];
  i ← field m "id" of_str; r ← field m "role" (of_enum role_names);
  c ← field m "content" (of_array block_of); s ← field m "source" source_of;
  Ok (mkMessage i r c s).

#[local] Instance message_wire : Wire Message :=
  {| to_value := message_value; from_value := message_of |}.

(** ** Workflow records *)

#[local] Instance run_start_wire : Wire ToolWorkflowRunStartData := {|
  to_value d := obj_of [("runId", Some (VString (rs_run_id d)));
                        ("name", Some (VString (rs_name d)))];
  from_value v :=
    m ← of_obj v; _ ← only m ["runId"; "name"];
    i ← field m "runId" of_str; n ← field m "name" of_str; Ok (mkRunStart i n) |}.

#[local] Instance agent_start_wire : Wire ToolWorkflowAgentStartData := {|
  to_value d := obj_of [("runId", Some (VString (as_run_id d))); ("seq", Some (json_u64 (as_seq d)));
                        ("label", Some (VString (as_label d))); ("phase", VString <$> as_phase d);
                        ("childId", Some (VString (as_child_id d)))];
  from_value v :=
    m ← of_obj v; _ ← only m ["runId"; "seq"; "label"; "phase"; "childId"];
    i ← field m "runId" of_str; s ← field m "seq" of_u64; l ← field m "label" of_str;
    p ← opt_field m "phase" of_str; c ← field m "childId" of_str;
    Ok (mkAgentStart i s l p c) |}.

Definition outcome_names : list (string * WorkflowAgentOutcome) :=
  [("completed", OutcomeCompleted); ("failed", OutcomeFailed); ("cancelled", OutcomeCancelled)].
Definition outcome_str (o : WorkflowAgentOutcome) : Value :=
  VString match o with
  | OutcomeCompleted => "completed" | OutcomeFailed => "failed"
  | OutcomeCancelled => "cancelled" end.
Definition stop_names : list (string * WorkflowStopReason) :=
  [("completed", StopCompleted); ("cancelled", StopCancelled); ("error", StopError)].
Definition stop_str (o : WorkflowStopReason) : Value :=
  VString match o with
  | StopCompleted => "completed" | StopCancelled => "cancelled" | StopError => "error" end.

#[local] Instance agent_end_wire : Wire ToolWorkflowAgentEndData := {|
  to_value d := obj_of [("runId", Some (VString (ae_run_id d))); ("seq", Some (json_u64 (ae_seq d)));
                        ("outcome", Some (outcome_str (ae_outcome d)))];
  from_value v :=
    m ← of_obj v; _ ← only m ["runId"; "seq"; "outcome"];
    i ← field m "runId" of_str; s ← field m "seq" of_u64;
    o ← field m "outcome" (of_enum outcome_names); Ok (mkAgentEnd i s o) |}.

#[local] Instance run_end_wire : Wire ToolWorkflowRunEndData := {|
  to_value d := obj_of [("runId", Some (VString (re_run_id d)));
                        ("stopReason", Some (stop_str (re_stop_reason d)))];
  from_value v :=
    m ← of_obj v; _ ← only m ["runId"; "stopReason"];
    i ← field m "runId" of_str; o ← field m "stopReason" (of_enum stop_names);
    Ok (mkRunEnd i o) |}.

#[export] Instance protocol_wire : ProtocolWire := {}.

(** ** The round trip *)

(** The values that survive it: [replayState] is not an explicit null. *)
Definition message_stable (m : Message) : Prop :=
  match m_source m with SourceModel _ _ (Some VNull) => False | _ => True end.

Lemma collectM_fmap {E A B} (f : A → B) (g : B → result E A) l :
  Forall (λ x, g (f x) = Ok x) l → collectM g (f <$> l) = Ok l.
Proof. induction 1 as [|x l Hx _ IH]; [done|]. rewrite fmap_cons. cbn. rewrite Hx. cbn. by rewrite IH. Qed.

(** Induction over content blocks, through the lists they are nested in. *)
Section block_induction.
Variable P : ContentBlock → Prop.
Hypothesis Htext : ∀ t, P (Text t).
Hypothesis Hreasoning : ∀ t, P (Reasoning t).
Hypothesis Himage : ∀ v, P (Image v).
Hypothesis Hcall : ∀ i n a, P (ToolCall i n a).
Hypothesis Hresult : ∀ i c e, Forall P c → P (ToolResult i c e).

Fixpoint block_nested_ind (b : ContentBlock) : P b :=
  match b with
  | Text t => Htext t
  | Reasoning t => Hreasoning t
  | Image v => Himage v
  | ToolCall i n a => Hcall i n a
  | ToolResult i c e =>
      Hresult i c e ((fix go c : Forall P c :=
        match c with
        | [] => Forall_nil_2 _
        | x :: c' => Forall_cons_2 _ _ _ (block_nested_ind x) (go c')
        end) c)
  end.
End block_induction.

Lemma block_of_value b : block_of (block_value b) = Ok b.
Proof.
  induction b as [t|t|v|i n a|i c e IH] using block_nested_ind; try reflexivity.
  assert (collectM block_of (block_value <$> c) = Ok c) as Hc by by apply collectM_fmap.
  change (block_value (ToolResult i c e)) with
    (obj_of [("type", Some (VString "tool-result")); ("toolCallId", Some (VString i));
             ("content", Some (VArray (block_value <$> c))); ("isError", VBool <$> e)]).
  revert Hc. generalize (block_value <$> c). intros l Hc.
  destruct e; lazy -[collectM] in Hc |- *; by rewrite Hc.
Qed.

Lemma section_of_value s : section_of (section_value s) = Ok s.
Proof. by destruct s. Qed.

Lemma source_of_value s :
  match s with SourceModel _ _ (Some VNull) => False | _ => True end →
  source_of (source_value s) = Ok s.
Proof.
  destruct s as [g r n|z|p c f ss t|n f|p m r|c]; intros Hs; try reflexivity.
  - by destruct z.
  - destruct ss as [l|]; [|by destruct c, t, f as [[]|]].
    assert (collectM section_of (section_value <$> l) = Ok l) as Hc.
    { apply collectM_fmap, Forall_true, section_of_value. }
    unfold source_value. cbn [fmap option_fmap option_map].
    revert Hc. generalize (section_value <$> l). intros l' Hc.
    destruct c, t, f as [[]|]; lazy -[collectM] in Hc |- *; by rewrite Hc.
  - by destruct f.
  - by destruct r as [[]|].
Qed.

#[export] Instance message_law : @WireLaw Message wire_message message_stable.
Proof.
  intros [i r c s] Hs. unfold message_stable in Hs. simpl in Hs.
  assert (collectM block_of (block_value <$> c) = Ok c) as Hc.
  { apply collectM_fmap, Forall_true, block_of_value. }
  apply source_of_value in Hs. simpl. unfold message_value, m_content, m_source, m_role, m_id.
  revert Hc Hs. generalize (block_value <$> c), (source_value s). intros l v Hc Hs.
  destruct r; lazy -[collectM source_of] in Hc |- *; rewrite Hc; by rewrite Hs.
Qed.
