(* ===== verification/Session.v ===== *)
(** * Sessions (session.rs): the durable log and its in-memory projection

    [SessionPersistence] is the trait of the storage back ends, with the laws
    its documentation promises; [Memory] is the back end the file implements.
    [Inbox] is the replayed next-turn/next-step queue pair.  A [Session] is the
    admitted log with its derived surface; [append_under_gate] is the only way
    an event gets in: checked, persisted, then made visible.  The write gate is
    an async mutex, so appends are atomic steps and a history is a sequence of
    them. *)

From S2P Require Import Prelude Json Protocol.

(** ** Errors *)

Inductive SessionError :=
| EProtocol (e : TessivumError)
| ECancelled
| ENotFound (id : SessionId)
| EDuplicateLive (id : SessionId)
| EAlreadyExists (id : SessionId)
| ESequenceGap (expected actual : N)
| ESequenceExhausted
| EHeaderIdMismatch
| EEmptySessionId
| EInvalidSeedLength (seed_length event_count : N)
| EInvalidSeedBoundary
| EDuplicateSeedBoundary
| EStaleSurface (expected actual : list N)
| ESurfaceRange (start fin len : N)
| EMissingSourceEvent (source_seq : N)
| EInvalidSurfaceMessage
| EInvalidSurfaceRole
| EInvalidTurnId
| EInvalidTurnLifecycle
| EOrphanTurn
| ESeedRequiresEvents
| EInvalidInboxEvent (reason : string)
| EInboxMutationOutOfOrder (item_id : MessageId)
| ERawArtifactsUnsupported
| EDeleteUnsupported.

Definition SessionError_code (e : SessionError) : string :=
  match e with
  | EProtocol error => err_code error
  | ECancelled => "CANCELLED"
  | ENotFound _ => "SESSION_NOT_FOUND"
  | EDuplicateLive _ => "DUPLICATE_LIVE_SESSION"
  | EAlreadyExists _ => "SESSION_ALREADY_EXISTS"
  | ESequenceGap _ _ => "NON_CONTIGUOUS_EVENT_SEQUENCE"
  | ESequenceExhausted => "SESSION_SEQUENCE_EXHAUSTED"
  | EHeaderIdMismatch => "SESSION_HEADER_ID_MISMATCH"
  | EEmptySessionId => "INVALID_SESSION_ID"
  | EInvalidSeedLength _ _ => "INVALID_SEED_LENGTH"
  | EInvalidSeedBoundary => "INVALID_SEED_BOUNDARY"
  | EDuplicateSeedBoundary => "DUPLICATE_SEED_BOUNDARY"
  | EStaleSurface _ _ => "STALE_SESSION_SURFACE"
  | ESurfaceRange _ _ _ => "INVALID_SURFACE_RANGE"
  | EMissingSourceEvent _ => "MISSING_SOURCE_EVENT"
  | EInvalidSurfaceMessage => "INVALID_SURFACE_MESSAGE"
  | EInvalidSurfaceRole => "INVALID_SURFACE_ROLE"
  | EInvalidTurnId => "INVALID_TURN_ID"
  | EInvalidTurnLifecycle => "INVALID_TURN_LIFECYCLE"
  | EOrphanTurn => "ORPHAN_TURN"
  | ESeedRequiresEvents => "SEED_REQUIRES_EVENTS"
  | EInvalidInboxEvent _ => "INVALID_INBOX_EVENT"
  | EInboxMutationOutOfOrder _ => "INBOX_MUTATION_OUT_OF_ORDER"
  | ERawArtifactsUnsupported => "SESSION_RAW_ARTIFACTS_UNSUPPORTED"
  | EDeleteUnsupported => "SESSION_DELETE_UNSUPPORTED"
  end.

(** [?] on a protocol validation: [From<TessivumError>]. *)
Definition protocol {A} (r : result TessivumError A) : result SessionError A :=
  map_err EProtocol r.

Inductive RestoreMode := Live | Metadata | Cold.
#[export] Instance RestoreMode_eq_dec : EqDecision RestoreMode.
Proof. solve_decision. Defined.

Record SurfaceMessage := mkSurface {
  sm_event_seq : N;
  sm_message : Message;
  sm_source_event_seqs : option (list N);
}.

Record SessionInspection := mkInspection {
  si_header : SessionHeader;
  si_event_count : N;
  si_next_seq : N;
  si_flush_count : N;
}.

(** ** Shared checks *)

Definition check_cancellation (cancelled : bool) : result SessionError unit :=
  if cancelled then Err ECancelled else Ok tt.

Definition validate_header (header : SessionHeader) : result SessionError unit :=
  _ ← protocol (SessionHeader_validate header);
  if is_empty (h_id header) then Err EEmptySessionId else Ok tt.

Definition next_seq (events : list SessionEvent) : result SessionError N :=
  match last events with
  | None => Ok 0%N
  | Some event => ok_or (u64_checked_add (ev_seq event) 1) ESequenceExhausted
  end.

(** ** The persistence boundary *)

(** The trait [SessionPersistence] over a back-end state [S]; reads leave it
    unchanged, writes return it whether or not they succeed. *)
Class SessionPersistence (S : Type) := {
  p_create : token → SessionHeader → S → result SessionError unit * S;
  p_append : token → SessionId → SessionEvent → S → result SessionError unit * S;
  p_create_seeded :
    token → SessionHeader → list SessionEvent → S → result SessionError unit * S;
  p_load : token → SessionId → S → result SessionError (option SessionHeader);
  p_inspect : token → SessionId → S → result SessionError (option SessionInspection);
  p_read_from : token → SessionId → N → S → result SessionError (list SessionEvent);
  p_flush : token → SessionId → S → result SessionError unit * S;
  p_delete : token → SessionId → S → result SessionError unit * S;
  p_list : token → S → result SessionError (list SessionInspection);
}.

(** The durable log of every session; the [i]-th event of a log has sequence
    number [i]. *)
Abbreviation durable_logs := (gmap SessionId (SessionHeader * list SessionEvent)).
Definition contiguous (events : list SessionEvent) : Prop :=
  ∀ i e, events !! i = Some e → ev_seq e = N.of_nat i.

(** The effect of a committed creation and of a committed append. *)
Definition commits_create (h : SessionHeader) (evs : list SessionEvent)
    (d d' : durable_logs) : Prop :=
  d !! h_id h = None ∧ contiguous evs ∧ d' = <[h_id h := (h, evs)]> d.
Definition commits_append (id : SessionId) (e : SessionEvent) (d d' : durable_logs) : Prop :=
  ∃ h evs, d !! id = Some (h, evs) ∧ next_seq evs = Ok (ev_seq e) ∧
           d' = <[id := (h, evs ++ [e])]> d.

(** A write that succeeds commits exactly its events; one that fails or is
    cancelled leaves every committed prefix intact: it has committed nothing,
    or (the outcome being uncertain) exactly its events. *)
Definition writes {A} (commit : durable_logs → durable_logs → Prop)
    (r : result SessionError A) (d d' : durable_logs) : Prop :=
  match r with Ok _ => commit d d' | Err _ => d' = d ∨ commit d d' end.

(** The documented contract of the trait. *)
Class PersistenceLaws (S : Type) `{SessionPersistence S} := {
  durable : S → durable_logs;
  create_writes t h s r s' :
    p_create t h s = (r, s') →
    writes (commits_create h []) r (durable s) (durable s');
  create_seeded_writes t h evs s r s' :
    p_create_seeded t h evs s = (r, s') →
    writes (commits_create h evs) r (durable s) (durable s');
  append_writes t id e s r s' :
    p_append t id e s = (r, s') →
    writes (commits_append id e) r (durable s) (durable s');
  load_reads t id s o :
    p_load t id s = Ok o → o = fst <$> durable s !! id;
  read_from_reads t id from s evs :
    p_read_from t id from s = Ok evs →
    ∃ h all, durable s !! id = Some (h, all) ∧
             evs = filter (λ e, (from ≤ ev_seq e)%N) all;
  flush_keeps t id s s' r :
    p_flush t id s = (r, s') → durable s' = durable s;
}.

(** *** The in-memory back end *)

Record MemorySession := mkMemory {
  ms_header : SessionHeader;
  ms_events : list SessionEvent;
  ms_flush_count : N;
}.

Abbreviation MemorySessionPersistence := (gmap SessionId MemorySession).

Definition inspect_memory_session (session : MemorySession) :
    result SessionError SessionInspection :=
  next ← next_seq (ms_events session);
  Ok {| si_header := ms_header session;
        si_event_count := N.of_nat (length (ms_events session));
        si_next_seq := next; si_flush_count := ms_flush_count session |}.

Section memory.
Context `{ProtocolWire}.
Abbreviation store := MemorySessionPersistence.

Definition memory_create (t : token) (header : SessionHeader) (s : store) :
    result SessionError unit * store :=
  match _ ← check_cancellation (check 0 t); validate_header header with
  | Err e => (Err e, s)
  | Ok _ =>
      match s !! h_id header with
      | Some _ => (Err (EAlreadyExists (h_id header)), s)
      | None => (Ok tt, <[h_id header := mkMemory header [] 0]> s)
      end
  end.

(** [for (expected, event) in events.iter().enumerate()]. *)
Fixpoint check_seed_events (expected : N) (events : list SessionEvent) :
    result SessionError unit :=
  match events with
  | [] => Ok tt
  | event :: rest =>
      _ ← protocol (SessionEvent_validate event);
      if negb (ev_seq event =? expected)%N then
        Err (ESequenceGap expected (ev_seq event))
      else check_seed_events (expected + 1) rest
  end.

Definition memory_create_seeded (t : token) (header : SessionHeader)
    (events : list SessionEvent) (s : store) : result SessionError unit * store :=
  match _ ← check_cancellation (check 0 t);
        _ ← validate_header header; check_seed_events 0 events with
  | Err e => (Err e, s)
  | Ok _ =>
      match s !! h_id header with
      | Some _ => (Err (EAlreadyExists (h_id header)), s)
      | None =>
          match check_cancellation (check 1 t) with
          | Err e => (Err e, s)
          | Ok _ => (Ok tt, <[h_id header := mkMemory header events 0]> s)
          end
      end
  end.

Definition memory_append (t : token) (id : SessionId) (event : SessionEvent) (s : store) :
    result SessionError unit * store :=
  match _ ← check_cancellation (check 0 t);
        _ ← protocol (SessionEvent_validate event);
        session ← ok_or (s !! id) (ENotFound id);
        expected ← next_seq (ms_events session);
        if negb (ev_seq event =? expected)%N then
          Err (ESequenceGap expected (ev_seq event))
        else Ok session with
  | Err e => (Err e, s)
  | Ok session =>
      (Ok tt, <[id := mkMemory (ms_header session) (ms_events session ++ [event])
                        (ms_flush_count session)]> s)
  end.

Definition memory_load (t : token) (id : SessionId) (s : store) :
    result SessionError (option SessionHeader) :=
  _ ← check_cancellation (check 0 t);
  Ok (ms_header <$> s !! id).

Definition memory_inspect (t : token) (id : SessionId) (s : store) :
    result SessionError (option SessionInspection) :=
  _ ← check_cancellation (check 0 t);
  match s !! id with
  | Some session => Some <$> inspect_memory_session session
  | None => Ok None
  end.

Definition memory_read_from (t : token) (id : SessionId) (from_seq : N) (s : store) :
    result SessionError (list SessionEvent) :=
  _ ← check_cancellation (check 0 t);
  session ← ok_or (s !! id) (ENotFound id);
  Ok (filter (λ e, (from_seq ≤ ev_seq e)%N) (ms_events session)).

Definition memory_flush (t : token) (id : SessionId) (s : store) :
    result SessionError unit * store :=
  match _ ← check_cancellation (check 0 t);
        session ← ok_or (s !! id) (ENotFound id);
        count ← ok_or (u64_checked_add (ms_flush_count session) 1) ESequenceExhausted;
        Ok (mkMemory (ms_header session) (ms_events session) count) with
  | Err e => (Err e, s)
  | Ok session => (Ok tt, <[id := session]> s)
  end.

Definition memory_delete (t : token) (id : SessionId) (s : store) :
    result SessionError unit * store :=
  match check_cancellation (check 0 t) with
  | Err e => (Err e, s)
  | Ok _ =>
      match s !! id with
      | Some _ => (Ok tt, delete id s)
      | None => (Err (ENotFound id), s)
      end
  end.

Definition memory_list (t : token) (s : store) :
    result SessionError (list SessionInspection) :=
  _ ← check_cancellation (check 0 t);
  collectM inspect_memory_session (btree_values s).

#[export] Instance memory_persistence : SessionPersistence store := {|
  p_create := memory_create;
  p_append := memory_append;
  p_create_seeded := memory_create_seeded;
  p_load := memory_load;
  p_inspect := memory_inspect;
  p_read_from := memory_read_from;
  p_flush := memory_flush;
  p_delete := memory_delete;
  p_list := memory_list;
|}.
End memory.

(** ** Message equality

    The derived [PartialEq] of messages, through that of their JSON parts. *)

Definition option_eqb {A} (f : A → A → bool) (a b : option A) : bool :=
  match a, b with
  | Some x, Some y => f x y
  | None, None => true
  | _, _ => false
  end.

Fixpoint block_eqb (a b : ContentBlock) : bool :=
  match a, b with
  | Text x, Text y | Reasoning x, Reasoning y => String.eqb x y
  | Image x, Image y => value_eqb x y
  | ToolCall i n x, ToolCall j m y => String.eqb i j && String.eqb n m && String.eqb x y
  | ToolResult i c e, ToolResult j d f =>
      String.eqb i j && list_eqb block_eqb c d && option_eqb Bool.eqb e f
  | _, _ => false
  end.

Definition section_eqb (a b : ContextSnapshotSection) : bool :=
  String.eqb (sec_name a) (sec_name b) && String.eqb (sec_text a) (sec_text b).

Definition source_eqb (a b : MessageSource) : bool :=
  match a, b with
  | SourceGoal i r n, SourceGoal i' r' n' => String.eqb i i' && (r =? r')%N && (n =? n')%N
  | SourceUser z, SourceUser z' => option_eqb String.eqb z z'
  | SourcePlugin p c f s t, SourcePlugin p' c' f' s' t' =>
      String.eqb p p' && option_eqb String.eqb c c' && bool_decide (f = f')
      && option_eqb (list_eqb section_eqb) s s' && option_eqb String.eqb t t'
  | SourceSkillInvocation n f, SourceSkillInvocation n' f' =>
      String.eqb n n' && bool_decide (f = f')
  | SourceModel p m r, SourceModel p' m' r' =>
      String.eqb p p' && String.eqb m m' && option_eqb value_eqb r r'
  | SourceTool c, SourceTool c' => String.eqb c c'
  | _, _ => false
  end.

Definition message_eqb (a b : Message) : bool :=
  String.eqb (m_id a) (m_id b) && bool_decide (m_role a = m_role b)
  && list_eqb block_eqb (m_content a) (m_content b) && source_eqb (m_source a) (m_source b).

(** ** The durable inbox *)

Definition INBOX_ENQUEUED_EVENT : string := "agent/inbox/enqueued".
Definition INBOX_SPLICED_EVENT : string := "agent/inbox/spliced".

Inductive InboxReplayTarget := Followup | Step.
#[export] Instance InboxReplayTarget_eq_dec : EqDecision InboxReplayTarget.
Proof. solve_decision. Defined.

Definition inbox_event (reason : string) : SessionError := EInvalidInboxEvent reason.

Definition is_inbox_event (event : SessionEvent) : bool :=
  String.eqb (event_type event) INBOX_ENQUEUED_EVENT
  || String.eqb (event_type event) INBOX_SPLICED_EVENT.

Definition inbox_target (event : SessionEvent) : result SessionError InboxReplayTarget :=
  match get_str "target" (ev_data event) with
  | Some "next-turn" => Ok Followup
  | Some "next-step" => Ok Step
  | _ => Err (inbox_event "inbox target must be next-turn or next-step")
  end.

Record InboxReplay := mkInbox { followups : list Message; steps : list Message }.

Module Inbox.
Section inbox.
Context `{ProtocolWire}.

Definition empty : InboxReplay := mkInbox [] [].

(** Decoding and validating one message, with one error text for both. *)
Definition decode_message (reason : string) (v : Value) : result SessionError Message :=
  m ← map_err (λ _, inbox_event reason) (from_value (A := Message) v);
  _ ← map_err (λ _, inbox_event reason) (Message_validate m);
  Ok m.

Definition inbox_message (event : SessionEvent) : result SessionError Message :=
  v ← ok_or (get "message" (ev_data event)) (inbox_event "inbox message is missing");
  decode_message "inbox message is invalid" v.

(** [MessageId] is a transparent string on the wire. *)
Definition inbox_item_id (event : SessionEvent) : result SessionError MessageId :=
  v ← ok_or (get "itemId" (ev_data event)) (inbox_event "splice itemId is missing");
  ok_or (as_str v) (inbox_event "splice itemId is invalid").

Definition queue (target : InboxReplayTarget) (i : InboxReplay) : list Message :=
  match target with Followup => followups i | Step => steps i end.
Definition set_queue (target : InboxReplayTarget) (q : list Message) (i : InboxReplay) :
    InboxReplay :=
  match target with
  | Followup => mkInbox q (steps i)
  | Step => mkInbox (followups i) q
  end.

Definition index_of (item_id : MessageId) (q : list Message) : option nat :=
  position (λ m, String.eqb (m_id m) item_id) q.

Definition find (item_id : MessageId) (i : InboxReplay) :
    option (InboxReplayTarget * nat) :=
  match index_of item_id (followups i) with
  | Some index => Some (Followup, index)
  | None => pair Step <$> index_of item_id (steps i)
  end.

Definition remove_first (item_id : MessageId) (q : list Message) : list Message :=
  match index_of item_id q with Some index => delete index q | None => q end.
Definition remove (item_id : MessageId) (i : InboxReplay) : InboxReplay :=
  mkInbox (remove_first item_id (followups i)) (remove_first item_id (steps i)).

(** The duplicate test of the range splice; [before] is [inserted[..index]]. *)
Fixpoint check_inserted (i : InboxReplay) (target : InboxReplayTarget)
    (start removed : nat) (before inserted : list Message) : result SessionError unit :=
  match inserted with
  | [] => Ok tt
  | message :: rest =>
      let found := find (m_id message) i in
      let replaces_removed :=
        match found with
        | Some (existing_target, existing_index) =>
            bool_decide (existing_target = target)
            && (start <=? existing_index)%nat
            && (existing_index <? start + removed)%nat
        | None => false
        end in
      if (bool_decide (is_Some found) && negb replaces_removed)
         || existsb (λ c, String.eqb (m_id c) (m_id message)) before
      then Err (inbox_event "message id is already pending")
      else check_inserted i target start removed (before ++ [message]) rest
  end.

Definition apply_enqueued (event : SessionEvent) (i : InboxReplay) :
    result SessionError InboxReplay :=
  target ← inbox_target event;
  message ← inbox_message event;
  match find (m_id message) i with
  | Some _ => Err (inbox_event "message id is already pending")
  | None => Ok (set_queue target (queue target i ++ [message]) i)
  end.

(** The positional form: [start], [removedCount], [inserted]. *)
Definition apply_range (event : SessionEvent) (i : InboxReplay) :
    result SessionError InboxReplay :=
  target ← inbox_target event;
  start ← ok_or (get_u64 "start" (ev_data event)) (inbox_event "splice start is missing");
  let removed_count := default 0%N (get_u64 "removedCount" (ev_data event)) in
  inserted ← ok_or (get "inserted" (ev_data event) ≫= as_array)
    (inbox_event "splice inserted is missing");
  inserted ← collectM (decode_message "splice inserted message is invalid") inserted;
  let len := N.of_nat (length (queue target i)) in
  if (len <? start)%N || (len - start <? removed_count)%N then
    Err (inbox_event "splice range is invalid")
  else
    let start := N.to_nat start in
    let removed := N.to_nat removed_count in
    _ ← check_inserted i target start removed [] inserted;
    let q := queue target i in
    Ok (set_queue target (take start q ++ inserted ++ drop (start + removed) q) i).

(** The item form: [itemId], [message], [action].  The two lookups at
    [index] are the source's [expect("validated inbox index")]: [index] comes
    from [find], so they never fail ([find_lookup]). *)
Definition apply_item (event : SessionEvent) (i : InboxReplay) :
    result SessionError InboxReplay :=
  item_id ← inbox_item_id event;
  target ← inbox_target event;
  message ← inbox_message event;
  if negb (String.eqb (m_id message) item_id) then
    Err (inbox_event "splice message id does not match itemId")
  else
    action ← ok_or (get_str "action" (ev_data event))
      (inbox_event "splice action is missing");
    match find item_id i with
    | None => Err (EInboxMutationOutOfOrder item_id)
    | Some (current_target, index) =>
        if String.eqb action "steer" then
          if bool_decide (current_target ≠ Followup) || bool_decide (target ≠ Step) then
            Err (inbox_event "steer does not move a next-turn item to next-step")
          else
            original ← ok_or (followups i !! index) (inbox_event "validated inbox index");
            if negb (message_eqb message original) then
              Err (inbox_event "steer changes its message")
            else
              Ok (mkInbox (delete index (followups i)) (steps i ++ [message]))
        else if bool_decide (current_target ≠ target) then
          Err (inbox_event "splice target does not match the pending item")
        else if String.eqb action "edit" then
          Ok (set_queue target (<[index := message]> (queue target i)) i)
        else if String.eqb action "remove" then
          original ← ok_or (queue target i !! index) (inbox_event "validated inbox index");
          if negb (message_eqb message original) then
            Err (inbox_event "remove changes its message")
          else Ok (set_queue target (delete index (queue target i)) i)
        else Err (inbox_event "unknown splice action")
    end.

Definition is_some {A} (o : option A) : bool := bool_decide (is_Some o).

Definition apply (i : InboxReplay) (event : SessionEvent) :
    result SessionError InboxReplay :=
  if String.eqb (event_type event) INBOX_ENQUEUED_EVENT then apply_enqueued event i
  else if String.eqb (event_type event) INBOX_SPLICED_EVENT then
    if negb (is_some (get "action" (ev_data event)))
       && (is_some (get "start" (ev_data event))
           || is_some (get "inserted" (ev_data event)))
    then apply_range event i
    else apply_item event i
  else if String.eqb (event_type event) "user/message" then
    match get_str "id" (ev_data event) with
    | Some item_id => Ok (remove item_id i)
    | None => Ok i
    end
  else Ok i.

Definition replay (events : list SessionEvent) : result SessionError InboxReplay :=
  foldM apply empty events.
End inbox.
End Inbox.

(** ** The session state *)

Record SessionState := mkState {
  st_events : list SessionEvent;
  st_surface : list SurfaceMessage;
  st_seed_length : nat;
  st_end_seed_seen : bool;
}.

Section state.
Context `{ProtocolWire}.

Definition validate_seed_boundary (header : SessionHeader) (state : SessionState)
    (event : SessionEvent) : result SessionError unit :=
  if negb (String.eqb (event_type event) "session/end-seed") then Ok tt
  else if st_end_seed_seen state then Err EDuplicateSeedBoundary
  else if negb (length (st_events state) =? st_seed_length state)%nat
          || bool_decide (h_seed_length header = None) then Err EInvalidSeedBoundary
  else Ok tt.

Definition validate_sources (event : SessionEvent) (prior_events : list SessionEvent) :
    result SessionError unit :=
  match ev_source_event_seqs event with
  | None => Ok tt
  | Some sources =>
      forM (λ source_seq,
        if existsb (λ prior, ev_seq prior =? source_seq)%N prior_events then Ok tt
        else Err (EMissingSourceEvent source_seq)) sources
  end.

Definition expected_role (t : string) : option MessageRole :=
  if String.eqb t "user/message" then Some RoleUser
  else if String.eqb t "assistant/message" then Some RoleAssistant
  else if String.eqb t "tool/result" then Some RoleUser
  else None.

Definition decode_surface_event (event : SessionEvent) :
    result SessionError (option SurfaceMessage) :=
  match expected_role (event_type event) with
  | None => Ok None
  | Some role =>
      data ← (if String.eqb (event_type event) "user/message" then Ok (ev_data event)
              else ok_or (get "message" (ev_data event)) EInvalidSurfaceMessage);
      message ← map_err (λ _, EInvalidSurfaceMessage) (from_value (A := Message) data);
      _ ← map_err (λ _, EInvalidSurfaceMessage) (Message_validate message);
      if bool_decide (m_role message ≠ role) then Err EInvalidSurfaceRole
      else Ok (Some {| sm_event_seq := ev_seq event; sm_message := message;
                       sm_source_event_seqs := ev_source_event_seqs event |})
  end.

Definition validate_surface_operation (event : SessionEvent)
    (projection : option SurfaceMessage) (surface : list SurfaceMessage) :
    result SessionError unit :=
  match projection with
  | None => Ok tt
  | Some _ =>
      match ev_surface_op event with
      | Some Append => Ok tt
      | Some (Replace start fin) =>
          let len := N.of_nat (length surface) in
          if (fin <? start)%N || (len <? fin)%N then Err (ESurfaceRange start fin len)
          else Ok tt
      | None => Err EInvalidSurfaceMessage
      end
  end.

(** [surface.splice(start..end, once(projection))]; the last case is the
    source's [unreachable!], excluded by [validate_surface_operation]. *)
Definition apply_surface_operation (event : SessionEvent)
    (projection : option SurfaceMessage) (surface : list SurfaceMessage) :
    list SurfaceMessage :=
  match projection with
  | None => surface
  | Some projection =>
      match ev_surface_op event with
      | Some Append => surface ++ [projection]
      | Some (Replace start fin) =>
          take (N.to_nat start) surface ++ [projection] ++ drop (N.to_nat fin) surface
      | None => surface
      end
  end.

(** The checks shared by replay and live admission, in their common order. *)
Definition check_admissible (header : SessionHeader) (state : SessionState)
    (event : SessionEvent) : result SessionError (option SurfaceMessage) :=
  _ ← protocol (SessionEvent_validate event);
  expected ← next_seq (st_events state);
  _ ← (if negb (ev_seq event =? expected)%N then
         Err (ESequenceGap expected (ev_seq event)) else Ok tt);
  _ ← validate_seed_boundary header state event;
  _ ← validate_sources event (st_events state);
  projection ← decode_surface_event event;
  _ ← validate_surface_operation event projection (st_surface state);
  Ok projection.

(** Making a checked event visible. *)
Definition admit_event (state : SessionState) (event : SessionEvent)
    (projection : option SurfaceMessage) : SessionState :=
  {| st_events := st_events state ++ [event];
     st_surface := apply_surface_operation event projection (st_surface state);
     st_seed_length := st_seed_length state;
     st_end_seed_seen :=
       String.eqb (event_type event) "session/end-seed" || st_end_seed_seen state |}.

Definition replay_event (header : SessionHeader) (state : SessionState)
    (event : SessionEvent) : result SessionError SessionState :=
  projection ← check_admissible header state event;
  Ok (admit_event state event projection).

Definition build_state (header : SessionHeader) (events : list SessionEvent) :
    result SessionError SessionState :=
  _ ← validate_header header;
  let seed_length := default 0%N (h_seed_length header) in
  let event_count := N.of_nat (length events) in
  if (event_count <? seed_length)%N then Err (EInvalidSeedLength seed_length event_count)
  else
    state ← foldM (replay_event header)
              {| st_events := []; st_surface := []; st_seed_length := N.to_nat seed_length;
                 st_end_seed_seen := false |} events;
    _ ← Inbox.replay (st_events state);
    Ok state.
End state.

(** ** Sessions *)

(** [s_updates] is what has been sent on the broadcast channel. *)
Record Session := mkSession {
  s_header : SessionHeader;
  s_state : SessionState;
  s_updates : list SessionEvent;
}.

Definition seed_events (s : Session) : list SessionEvent :=
  take (st_seed_length (s_state s)) (st_events (s_state s)).
Definition live_events (s : Session) : list SessionEvent :=
  drop (st_seed_length (s_state s)) (st_events (s_state s)).
Definition derive_messages (s : Session) : list Message :=
  sm_message <$> st_surface (s_state s).
Definition surface_seqs (state : SessionState) : list N := sm_event_seq <$> st_surface state.

Section session.
Context `{ProtocolWire} {S : Type} `{SessionPersistence S}.

Definition from_committed (header : SessionHeader) (events : list SessionEvent) :
    result SessionError Session :=
  state ← build_state header events;
  Ok {| s_header := header; s_state := state; s_updates := [] |}.

Definition pending_next_turn_inbox (s : Session) : result SessionError (list Message) :=
  followups <$> Inbox.replay (st_events (s_state s)).

(** The checks made under the gate, before the event is persisted. *)
Definition check_append (t : token) (event : SessionEvent) (expected : option (list N))
    (s : Session) : result SessionError (option SurfaceMessage) :=
  _ ← check_cancellation (check 0 t);
  _ ← (match expected with
       | Some expected =>
           if bool_decide (surface_seqs (s_state s) = expected) then Ok tt
           else Err (EStaleSurface expected (surface_seqs (s_state s)))
       | None => Ok tt
       end);
  projection ← check_admissible (s_header s) (s_state s) event;
  _ ← (if is_inbox_event event then
         inbox ← Inbox.replay (st_events (s_state s)); Inbox.apply inbox event
       else Ok Inbox.empty);
  Ok projection.

Definition append_under_gate (t : token) (event : SessionEvent)
    (expected : option (list N)) (s : Session) (b : S) :
    result SessionError unit * Session * S :=
  match check_append t event expected s with
  | Err e => (Err e, s, b)
  | Ok projection =>
      match p_append (sub 1 t) (h_id (s_header s)) event b with
      | (Err e, b') => (Err e, s, b')
      | (Ok _, b') =>
          (Ok tt, {| s_header := s_header s;
                     s_state := admit_event (s_state s) event projection;
                     s_updates := s_updates s ++ [event] |}, b')
      end
  end.

Definition append_inner (t : token) (event : SessionEvent) (expected : option (list N))
    (s : Session) (b : S) : result SessionError unit * Session * S :=
  match check_cancellation (check 0 t) with
  | Err e => (Err e, s, b)
  | Ok _ => append_under_gate (sub 1 t) event expected s b
  end.

Definition append (t : token) (event : SessionEvent) (s : Session) (b : S) :
    result SessionError unit * Session * S := append_inner t event None s b.

Definition append_if_surface (t : token) (event : SessionEvent) (expected : list N)
    (s : Session) (b : S) : result SessionError unit * Session * S :=
  append_inner t event (Some expected) s b.

Definition append_next_if_surface (t : token) (build : N → SessionEvent)
    (expected : option (list N)) (s : Session) (b : S) :
    result SessionError N * Session * S :=
  match _ ← check_cancellation (check 0 t);
        _ ← check_cancellation (check 1 t); next_seq (st_events (s_state s)) with
  | Err e => (Err e, s, b)
  | Ok seq =>
      match append_under_gate (sub 2 t) (build seq) expected s b with
      | (Err e, s', b') => (Err e, s', b')
      | (Ok _, s', b') => (Ok seq, s', b')
      end
  end.

Definition append_next (t : token) (build : N → SessionEvent) (s : Session) (b : S) :
    result SessionError N * Session * S := append_next_if_surface t build None s b.

Definition flush (t : token) (s : Session) (b : S) : result SessionError unit * S :=
  match check_cancellation (check 0 t) with
  | Err e => (Err e, b)
  | Ok _ => p_flush (sub 1 t) (h_id (s_header s)) b
  end.
End session.

(** ** Closing an interrupted turn *)

Definition turn_id (event : SessionEvent) : result SessionError N :=
  ok_or (get_u64 "turn" (ev_data event)) EInvalidTurnId.

Module Closers.
Section closers.
Context `{ProtocolWire}.

Record PendingCall := mkPending {
  call_id : ToolCallId;
  call_step : N;
  call_seq : option N;
}.

(** The scan's variables [open_turn], [open_step] and [pending]. *)
Record scan := mkScan {
  open_turn : option N;
  open_step : option N;
  pending : list PendingCall;
}.

Definition pending_of_blocks (step : N) (content : list ContentBlock) : list PendingCall :=
  omap (λ block, match block with
                 | ToolCall id _ _ => Some (mkPending id step None)
                 | _ => None
                 end) content.

(** [pending.iter_mut().find(..)]: the first call with this id. *)
Fixpoint mark_called (id : option string) (seq : N) (calls : list PendingCall) :
    list PendingCall :=
  match calls with
  | [] => []
  | call :: rest =>
      if bool_decide (Some (call_id call) = id) then
        mkPending (call_id call) (call_step call) (Some seq) :: rest
      else call :: mark_called id seq rest
  end.

Definition surface_of (event : SessionEvent) : result SessionError SurfaceMessage :=
  o ← decode_surface_event event; ok_or o EInvalidSurfaceMessage.

Definition scan_event (s : scan) (event : SessionEvent) : result SessionError scan :=
  let t := event_type event in
  if String.eqb t "turn/start" then
    turn ← turn_id event; Ok (mkScan (Some turn) None [])
  else if String.eqb t "turn/end" then Ok (mkScan None None [])
  else if String.eqb t "step/start" then
    Ok (mkScan (open_turn s) (get_u64 "step" (ev_data event)) (pending s))
  else if String.eqb t "step/end" then Ok (mkScan (open_turn s) None [])
  else if String.eqb t "assistant/message" then
    step ← ok_or (get_u64 "step" (ev_data event)) EInvalidTurnLifecycle;
    message ← surface_of event;
    Ok (mkScan (open_turn s) (open_step s)
          (pending s ++ pending_of_blocks step (m_content (sm_message message))))
  else if String.eqb t "tool/call" then
    Ok (mkScan (open_turn s) (open_step s)
          (mark_called (get_str "callId" (ev_data event)) (ev_seq event) (pending s)))
  else if String.eqb t "tool/result" then
    message ← surface_of event;
    match m_source (sm_message message) with
    | SourceTool id =>
        Ok (mkScan (open_turn s) (open_step s)
              (filter (λ call, call_id call ≠ id) (pending s)))
    | _ => Ok s
    end
  else Ok s.

Definition scan_events (events : list SessionEvent) : result SessionError scan :=
  foldM scan_event (mkScan None None []) events.

(** The facts reported for a call, by whether it was recorded as started. *)
Definition outcome (call : PendingCall) : string * string * string :=
  if bool_decide (is_Some (call_seq call)) then
    ("TOOL_OUTCOME_UNKNOWN", "ToolOutcomeUnknownError",
     "The tool call was interrupted after it was recorded, but no result was durably recorded. Its outcome is unknown. Decide whether to retry from the tool semantics: retry only if the operation is read-only or idempotent; if it may have side effects, first verify external state or ask the user. Do not retry blindly.")
  else
    ("TOOL_NOT_STARTED", "ToolNotStartedError",
     "The tool call was interrupted before the Harness recorded it as started. Retry it if it is still needed.").

Definition result_message (call : PendingCall) (seq : N) : Message :=
  {| m_id := "interrupted-tool-result-" +:+ call_id call +:+ "-" +:+ fmt_N seq;
     m_role := RoleUser;
     m_content := [ToolResult (call_id call) [Text (outcome call).2] (Some true)];
     m_source := SourceTool (call_id call) |}.

Definition result_event (turn : N) (time : N) (call : PendingCall) (seq : N) :
    SessionEvent :=
  let '(code, name, _) := outcome call in
  {| event_type := "tool/result"; ev_seq := seq; ev_time := time;
     ev_data := json_object
       [("turn", json_u64 turn); ("step", json_u64 (call_step call));
        ("message", to_value (result_message call seq));
        ("error", json_object [("name", VString name); ("code", VString code)])];
     ev_ignorable := None;
     ev_source_event_seqs := (λ s, [s]) <$> call_seq call;
     ev_surface_op := Some Append |}.

Definition step_end_event (turn step time seq : N) : SessionEvent :=
  {| event_type := "step/end"; ev_seq := seq; ev_time := time;
     ev_data := json_object [("turn", json_u64 turn); ("step", json_u64 step)];
     ev_ignorable := None; ev_source_event_seqs := None; ev_surface_op := None |}.

Definition turn_end_event (turn time seq : N) : SessionEvent :=
  {| event_type := "turn/end"; ev_seq := seq; ev_time := time;
     ev_data := json_object
       [("turn", json_u64 turn);
        ("reason", json_object [("kind", VString "interrupted")]);
        ("synthetic", VBool true)];
     ev_ignorable := None; ev_source_event_seqs := None; ev_surface_op := None |}.

Definition next (seq : N) : result SessionError N :=
  ok_or (u64_checked_add seq 1) ESequenceExhausted.

Fixpoint close_calls (turn time seq : N) (calls : list PendingCall) :
    result SessionError (list SessionEvent * N) :=
  match calls with
  | [] => Ok ([], seq)
  | call :: rest =>
      seq' ← next seq;
      closed ← close_calls turn time seq' rest;
      Ok (result_event turn time call seq :: closed.1, closed.2)
  end.

Definition interrupted_turn_closers (events : list SessionEvent) :
    result SessionError (list SessionEvent) :=
  s ← scan_events events;
  match open_turn s, last events with
  | Some turn, Some last =>
      seq ← next (ev_seq last);
      closed ← close_calls turn (ev_time last) seq (pending s);
      match open_step s with
      | Some step =>
          seq' ← next closed.2;
          Ok (closed.1 ++ [step_end_event turn step (ev_time last) closed.2;
                           turn_end_event turn (ev_time last) seq'])
      | None => Ok (closed.1 ++ [turn_end_event turn (ev_time last) closed.2])
      end
  | _, _ => Ok []
  end.
End closers.
End Closers.

(** ** The session store *)

Record SessionStore (S : Type) := mkStore {
  backend : S;
  live : gmap SessionId Session;
}.
Arguments mkStore {S} backend live.
Arguments backend {S} s.
Arguments live {S} s.

Module Store.
Section store.
Context `{ProtocolWire} {S : Type} `{SessionPersistence S}.

Definition ensure_not_live (id : SessionId) (st : SessionStore S) :
    result SessionError unit :=
  match live st !! id with Some _ => Err (EDuplicateLive id) | None => Ok tt end.

Definition insert_live (id : SessionId) (session : Session) (st : SessionStore S) :
    result SessionError unit * SessionStore S :=
  match live st !! id with
  | Some _ => (Err (EDuplicateLive id), st)
  | None => (Ok tt, mkStore (backend st) (<[id := session]> (live st)))
  end.

(** [insert_live(..)?; Ok(session)]. *)
Definition publish (id : SessionId) (session : Session) (st : SessionStore S) :
    result SessionError Session * SessionStore S :=
  match insert_live id session st with
  | (Err e, st') => (Err e, st')
  | (Ok _, st') => (Ok session, st')
  end.

Definition create (t : token) (header : SessionHeader) (st : SessionStore S) :
    result SessionError Session * SessionStore S :=
  match _ ← check_cancellation (check 0 t);
        _ ← validate_header header;
        _ ← (if negb (default 0 (h_seed_length header) =? 0)%N then
               Err ESeedRequiresEvents else Ok tt);
        ensure_not_live (h_id header) st with
  | Err e => (Err e, st)
  | Ok _ =>
      match p_create (sub 1 t) header (backend st) with
      | (Err e, b) => (Err e, mkStore b (live st))
      | (Ok _, b) =>
          match from_committed header [] with
          | Err e => (Err e, mkStore b (live st))
          | Ok session => publish (h_id header) session (mkStore b (live st))
          end
      end
  end.

Definition create_seeded (t : token) (header : SessionHeader)
    (seed_events : list SessionEvent) (st : SessionStore S) :
    result SessionError Session * SessionStore S :=
  let count := N.of_nat (length seed_events) in
  match _ ← check_cancellation (check 0 t);
        _ ← validate_header header;
        _ ← (if negb (bool_decide (h_seed_length header = Some count)) then
               Err (EInvalidSeedLength (default 0%N (h_seed_length header)) count)
             else Ok tt);
        session ← from_committed header seed_events;
        _ ← ensure_not_live (h_id header) st;
        Ok session with
  | Err e => (Err e, st)
  | Ok session =>
      match p_create_seeded (sub 1 t) header seed_events (backend st) with
      | (Err e, b) => (Err e, mkStore b (live st))
      | (Ok _, b) => publish (h_id header) session (mkStore b (live st))
      end
  end.

(** [for event in closers { session.append(event)?; }]. *)
Fixpoint append_all (t : token) (n : nat) (events : list SessionEvent) (s : Session)
    (b : S) : result SessionError unit * Session * S :=
  match events with
  | [] => (Ok tt, s, b)
  | event :: rest =>
      match append (sub n t) event s b with
      | (Err e, s', b') => (Err e, s', b')
      | (Ok _, s', b') => append_all t (n + 1) rest s' b'
      end
  end.

(** The reading half of [restore]: the replayed session and its closers. *)
Definition load_session (t : token) (id : SessionId) (st : SessionStore S) :
    result SessionError (Session * list SessionEvent) :=
  _ ← check_cancellation (check 0 t);
  _ ← ensure_not_live id st;
  header ← p_load (sub 1 t) id (backend st);
  header ← ok_or header (ENotFound id);
  _ ← validate_header header;
  _ ← (if negb (String.eqb (h_id header) id) then Err EHeaderIdMismatch else Ok tt);
  events ← p_read_from (sub 2 t) id 0 (backend st);
  session ← from_committed header events;
  closers ← Closers.interrupted_turn_closers (st_events (s_state session));
  Ok (session, closers).

Definition restore (t : token) (id : SessionId) (mode : RestoreMode) (st : SessionStore S) :
    result SessionError Session * SessionStore S :=
  match load_session t id st with
  | Err e => (Err e, st)
  | Ok (session, []) => publish id session st
  | Ok (session, closers) =>
      match mode with
      | Live => (Err EOrphanTurn, st)
      | Metadata => publish id session st
      | Cold =>
          match append_all t 3 closers session (backend st) with
          | (Err e, _, b) => (Err e, mkStore b (live st))
          | (Ok _, session', b) => publish id session' (mkStore b (live st))
          end
      end
  end.

Definition snapshot (t : token) (id : SessionId) (st : SessionStore S) :
    result SessionError (option (SessionHeader * list SessionEvent)) :=
  _ ← check_cancellation (check 0 t);
  match live st !! id with
  | Some session => Ok (Some (s_header session, st_events (s_state session)))
  | None =>
      header ← p_load (sub 1 t) id (backend st);
      match header with
      | None => Ok None
      | Some header =>
          events ← p_read_from (sub 2 t) id 0 (backend st);
          session ← from_committed header events;
          Ok (Some (s_header session, st_events (s_state session)))
      end
  end.

Definition list_live (st : SessionStore S) : list Session := btree_values (live st).

Definition remove (id : SessionId) (st : SessionStore S) : SessionStore S :=
  mkStore (backend st) (delete id (live st)).

(** An append through the shared handle of a live session. *)
Definition append_live (t : token) (id : SessionId) (event : SessionEvent)
    (expected : option (list N)) (st : SessionStore S) :
    result SessionError unit * SessionStore S :=
  match live st !! id with
  | None => (Err (ENotFound id), st)
  | Some session =>
      match append_inner t event expected session (backend st) with
      | (r, session', b) => (r, mkStore b (<[id := session']> (live st)))
      end
  end.
End store.
End Store.
