(* ===== verification/SessionFacts.v ===== *)
(** * Sessions: the lemmas

    Replay and live admission agree event by event, every operation of the store
    keeps live sessions durable, and restoration rebuilds the live state; with
    the contiguity of sequence numbers and the provenance of the surface. *)

From S2P Require Import Prelude Json Protocol Session.

(** ** The in-memory back end keeps its contract *)

Section memory_laws.
Context `{ProtocolWire}.

Definition memory_durable (s : MemorySessionPersistence) : durable_logs :=
  (λ m, (ms_header m, ms_events m)) <$> s.

Lemma check_seed_events_contiguous n events :
  check_seed_events n events = Ok tt →
  ∀ i e, events !! i = Some e → ev_seq e = (n + N.of_nat i)%N.
Proof.
  revert n; induction events as [|x events IH]; intros n; simpl; [done|].
  intros Hc [|i] e; simpl; invert_ok;
    match goal with Hs : N.eqb _ _ = true |- _ => apply N.eqb_eq in Hs end.
  - intros [= <-]. lia.
  - intros He. rewrite (IH (n + 1)%N) with (i := i); [lia|done..].
Qed.

#[export] Instance memory_laws : PersistenceLaws MemorySessionPersistence.
Proof.
  refine {| durable := memory_durable |};
    simpl; unfold memory_durable.
  - intros t h s r s'. unfold memory_create.
    repeat case_match; intros [= <- <-]; simpl; try (by left).
    split; [rewrite lookup_fmap; by simplify_option_eq|].
    split; [done|]. by rewrite fmap_insert.
  - intros t h evs s r s'. unfold memory_create_seeded.
    repeat case_match; intros [= <- <-]; simpl; try (by left).
    split; [rewrite lookup_fmap; by simplify_option_eq|]. split; [|by rewrite fmap_insert].
    invert_ok. intros i e Hi.
    by rewrite (check_seed_events_contiguous 0 evs ltac:(done) i e Hi).
  - intros t id e s r s'. unfold memory_append. case_match; intros [= <- <-]; [|by left].
    invert_ok. match goal with Hs : N.eqb _ _ = true |- _ => apply N.eqb_eq in Hs end.
    eexists _, _. rewrite lookup_fmap, fmap_insert. simplify_option_eq. done.
  - intros t id s o Ho. unfold memory_load in Ho. invert_ok.
    rewrite lookup_fmap. by destruct (s !! id).
  - intros t id from s evs Ho. unfold memory_read_from in Ho. invert_ok.
    rewrite lookup_fmap. simplify_option_eq. eauto.
  - intros t id s s' r. unfold memory_flush. case_match; intros [= _ <-]; [|done].
    invert_ok. apply map_eq. intros i. rewrite !lookup_fmap, lookup_insert.
    case_decide; simplify_option_eq; done.
Defined.
End memory_laws.

(** ** The replayed log *)

Definition initial_state (header : SessionHeader) : SessionState :=
  {| st_events := []; st_surface := [];
     st_seed_length := N.to_nat (default 0%N (h_seed_length header));
     st_end_seed_seen := false |}.

Section replay.
Context `{ProtocolWire}.

(** A state is replayable when it is what its own events rebuild. *)
Definition replayable (header : SessionHeader) (state : SessionState) : Prop :=
  build_state header (st_events state) = Ok state.

Lemma replay_event_Ok header state event state' :
  replay_event header state event = Ok state' ↔
  ∃ p, check_admissible header state event = Ok p ∧ state' = admit_event state event p.
Proof.
  unfold replay_event. rewrite bind_Ok.
  split; [intros (p & ? & [= <-]); eauto | intros (p & ? & ->); eauto].
Qed.

Lemma replay_events header events state :
  foldM (replay_event header) (initial_state header) events = Ok state →
  st_events state = events ∧
  st_seed_length state = st_seed_length (initial_state header).
Proof.
  apply (foldM_inv _ (λ done s, st_events s = done ∧
    st_seed_length s = st_seed_length (initial_state header))); [done|].
  intros done s e s' [Hev Hseed] (p & _ & ->)%replay_event_Ok. simpl. by rewrite Hev.
Qed.

Lemma build_state_Ok header events state :
  build_state header events = Ok state ↔
  validate_header header = Ok tt ∧
  (default 0 (h_seed_length header) ≤ N.of_nat (length events))%N ∧
  foldM (replay_event header) (initial_state header) events = Ok state ∧
  is_ok (Inbox.replay events) = true.
Proof.
  unfold build_state. fold (initial_state header). split.
  - intros Hb. invert_ok.
    match goal with Hlen : N.ltb _ _ = false |- _ => apply N.ltb_ge in Hlen end.
    match goal with Hf : foldM _ _ _ = Ok _ |- _ =>
      pose proof (replay_events _ _ _ Hf) as [He _]; rewrite He in * end.
    repeat split; [done..|].
    by match goal with Hi : Inbox.replay _ = _ |- _ => rewrite Hi end.
  - intros (-> & Hlen & Hf & Hi). simpl.
    rewrite (proj2 (N.ltb_ge _ _) Hlen), Hf. simpl.
    destruct (replay_events _ _ _ Hf) as [-> _].
    by destruct (Inbox.replay events).
Qed.

Lemma replayable_events header events state :
  build_state header events = Ok state → st_events state = events.
Proof. intros (_ & _ & Hf & _)%build_state_Ok. by apply replay_events in Hf as [? _]. Qed.

(** Events of other types never fail in the inbox. *)
Lemma inbox_apply_other i event :
  is_inbox_event event = false → is_ok (Inbox.apply i event) = true.
Proof.
  unfold is_inbox_event, Inbox.apply. intros [-> ->]%orb_false_iff.
  by repeat case_match.
Qed.

(** Live admission extends a replayable log to a replayable log. *)
Lemma replayable_snoc header state event p :
  replayable header state →
  check_admissible header state event = Ok p →
  (is_inbox_event event = true →
   is_ok (Inbox.replay (st_events state) ≫= λ i, Inbox.apply i event) = true) →
  replayable header (admit_event state event p).
Proof.
  unfold replayable. intros (Hh & Hlen & Hf & Hi)%build_state_Ok Hc Hinb.
  apply build_state_Ok. simpl. split_and!; [done|..].
  - rewrite length_app. lia.
  - rewrite foldM_snoc, Hf. apply replay_event_Ok. eauto.
  - unfold Inbox.replay in *. rewrite foldM_snoc.
    destruct (is_inbox_event event) eqn:He; [by apply Hinb|].
    destruct (foldM Inbox.apply _ _) as [i|]; [|done]. by apply inbox_apply_other.
Qed.

(** ** Sequence numbers *)

Lemma contiguous_next_seq events n :
  contiguous events → next_seq events = Ok n → n = N.of_nat (length events).
Proof.
  intros Hc Hn. unfold next_seq in Hn.
  destruct events as [|e events _] using rev_ind; [by simplify_eq/=|].
  rewrite last_snoc in Hn. apply ok_or_Ok, u64_checked_add_Some in Hn as [-> _].
  rewrite (Hc (length events) e); [|by rewrite list_lookup_middle].
  rewrite length_app. simpl. lia.
Qed.

Lemma check_admissible_seq header state event p :
  check_admissible header state event = Ok p →
  SessionEvent_validate event = Ok tt ∧ next_seq (st_events state) = Ok (ev_seq event).
Proof.
  unfold check_admissible, protocol. intros Hc. invert_ok. split; [done|].
  match goal with Hs : N.eqb _ _ = true |- _ => by apply N.eqb_eq in Hs as -> end.
Qed.

Lemma contiguous_snoc events e :
  contiguous events → ev_seq e = N.of_nat (length events) → contiguous (events ++ [e]).
Proof.
  intros Hc He i x [Hx|[Hlen Hx]]%lookup_app_Some; [by apply Hc|].
  apply list_lookup_singleton_Some in Hx as [? <-]. rewrite He. f_equal. lia.
Qed.

Lemma replay_contiguous header events state :
  foldM (replay_event header) (initial_state header) events = Ok state →
  contiguous events.
Proof.
  intros Hf. destruct (replay_events _ _ _ Hf) as [<- _]. revert Hf.
  apply (foldM_inv _ (λ _ s, contiguous (st_events s))).
  - intros i e. simpl. done.
  - intros done s e s' Hs (p & Hp & ->)%replay_event_Ok. simpl.
    apply contiguous_snoc; [done|]. apply check_admissible_seq in Hp as [_ Hn].
    by apply contiguous_next_seq.
Qed.
End replay.

(** ** Appending *)

Section append.
Context `{ProtocolWire} {S : Type} `{SessionPersistence S}.

(** What one append can do: fail and leave the session alone, or persist the
    event and then admit it. *)
Lemma append_under_gate_inv t event expected s (b : S) r s' b' :
  append_under_gate t event expected s b = (r, s', b') →
  (∃ err, r = Err err ∧ s' = s ∧
     (b' = b ∨ p_append (sub 1 t) (h_id (s_header s)) event b = (Err err, b'))) ∨
  (∃ p, r = Ok tt ∧ check_append t event expected s = Ok p ∧
     p_append (sub 1 t) (h_id (s_header s)) event b = (Ok tt, b') ∧
     s' = mkSession (s_header s) (admit_event (s_state s) event p)
                    (s_updates s ++ [event])).
Proof.
  unfold append_under_gate. destruct (check_append _ _ _ _) as [p|e].
  - destruct (p_append _ _ _ _) as [[[]|e] b1] eqn:Hp; intros [= <- <- <-]; eauto 10.
  - intros [= <- <- <-]. eauto 10.
Qed.

Lemma append_inner_inv t event expected s (b : S) r s' b' :
  append_inner t event expected s b = (r, s', b') →
  (∃ err, r = Err err ∧ s' = s ∧
     (b' = b ∨ p_append (sub 1 (sub 1 t)) (h_id (s_header s)) event b = (Err err, b'))) ∨
  (∃ p, r = Ok tt ∧ check_append (sub 1 t) event expected s = Ok p ∧
     p_append (sub 1 (sub 1 t)) (h_id (s_header s)) event b = (Ok tt, b') ∧
     s' = mkSession (s_header s) (admit_event (s_state s) event p)
                    (s_updates s ++ [event])).
Proof.
  unfold append_inner. destruct (check_cancellation _).
  - apply append_under_gate_inv.
  - intros [= <- <- <-]. eauto 10.
Qed.

Lemma check_append_Ok t event expected s p :
  check_append t event expected s = Ok p →
  check_admissible (s_header s) (s_state s) event = Ok p ∧
  (is_inbox_event event = true →
   is_ok (Inbox.replay (st_events (s_state s)) ≫= λ i, Inbox.apply i event) = true) ∧
  ∀ seqs, expected = Some seqs → surface_seqs (s_state s) = seqs.
Proof.
  unfold check_append. intros Hc. invert_ok. split_and!; [done|..].
  - intros He. rewrite He in *. invert_ok.
    by match goal with Hi : Inbox.replay _ = _, Ha : Inbox.apply _ _ = _ |- _ =>
      rewrite Hi; simpl; rewrite Ha end.
  - intros seqs ->. case_bool_decide; [done|]. by invert_ok.
Qed.

(** A session is well formed when its state replays, and what it broadcast is
    the tail of its log. *)
Definition session_wf (s : Session) : Prop :=
  replayable (s_header s) (s_state s) ∧
  s_updates s `suffix_of` st_events (s_state s).

Lemma from_committed_wf header events s :
  from_committed header events = Ok s →
  session_wf s ∧ s_header s = header ∧ st_events (s_state s) = events.
Proof.
  unfold from_committed. intros Hs. invert_ok. simpl.
  match goal with Hb : build_state _ _ = Ok ?x |- _ =>
    pose proof (replayable_events _ _ _ Hb) as He; unfold session_wf, replayable;
    simpl; rewrite He end.
  split_and!; try done. apply suffix_nil.
Qed.

(** Appending an event extends the log by it, or leaves the session alone. *)
Lemma append_events t event s (b : S) r s' b' :
  append t event s b = (r, s', b') →
  st_events (s_state s') = st_events (s_state s) ++ (if is_ok r then [event] else []).
Proof.
  unfold append. intros [(e & -> & -> & _)|(p & -> & _ & _ & ->)]%append_inner_inv; simpl;
    [by rewrite app_nil_r|done].
Qed.

Lemma append_inner_wf t event expected s (b : S) r s' b' :
  session_wf s → append_inner t event expected s b = (r, s', b') →
  session_wf s' ∧ s_header s' = s_header s.
Proof.
  intros [Hr [k Hk]] [(err & _ & -> & _)|(p & _ & Hc & _ & ->)]%append_inner_inv; simpl.
  - split; [|done]. split; [done|by exists k].
  - apply check_append_Ok in Hc as (Hc & Hi & _). split; [|done].
    split; simpl; [by apply replayable_snoc|].
    exists k. by rewrite Hk, app_assoc.
Qed.

Lemma append_next_if_surface_inv t build expected s (b : S) r s' b' :
  append_next_if_surface t build expected s b = (r, s', b') →
  (∃ e, r = Err e ∧ s' = s) ∨
  (∃ seq t' p, r = Ok seq ∧ check_append t' (build seq) expected s = Ok p ∧
     s' = mkSession (s_header s) (admit_event (s_state s) (build seq) p)
            (s_updates s ++ [build seq])).
Proof.
  unfold append_next_if_surface.
  destruct (_ ≫= _) as [seq|e]; [|intros [= <- <- <-]; left; by exists e].
  destruct (append_under_gate _ _ _ _ _) as [[r1 s1] b1] eqn:Ha.
  apply append_under_gate_inv in Ha as [(e & -> & -> & _)|(p & -> & Hc & _ & ->)].
  - intros [= <- <- <-]. left. by exists e.
  - intros [= <- <- <-]. right. by exists seq, (sub 2 t), p.
Qed.

Lemma append_next_inv t build s (b : S) r s' b' :
  append_next t build s b = (r, s', b') →
  (is_ok r = false ∧ s' = s) ∨
  (∃ seq, r = Ok seq ∧ s_header s' = s_header s ∧
     st_events (s_state s') = st_events (s_state s) ++ [build seq]).
Proof.
  intros [(e & -> & ->)|(seq & t' & p & -> & _ & ->)]%append_next_if_surface_inv; [by left|].
  right. by exists seq.
Qed.
End append.

(** ** The store as a transition system *)

Section store.
Context `{ProtocolWire} {S : Type} `{SessionPersistence S}.

(** One step: any public operation, with any token and any outcome. *)
Inductive store_step : SessionStore S → SessionStore S → Prop :=
| step_create t header st r st' :
    Store.create t header st = (r, st') → store_step st st'
| step_create_seeded t header seed st r st' :
    Store.create_seeded t header seed st = (r, st') → store_step st st'
| step_restore t id mode st r st' :
    Store.restore t id mode st = (r, st') → store_step st st'
| step_append t id event expected st r st' :
    Store.append_live t id event expected st = (r, st') → store_step st st'
| step_remove id st : store_step st (Store.remove id st).

Context `{!PersistenceLaws S}.

(** Every live session is well formed, sits under its own id, and its whole
    log is a committed prefix of the durable log. *)
Definition backed (d : durable_logs) (id : SessionId) (s : Session) : Prop :=
  h_id (s_header s) = id ∧ session_wf s ∧
  ∃ more, d !! id = Some (s_header s, st_events (s_state s) ++ more).

Definition logs_contiguous (d : durable_logs) : Prop :=
  ∀ id h evs, d !! id = Some (h, evs) → contiguous evs.

Definition store_inv (st : SessionStore S) : Prop :=
  logs_contiguous (durable (backend st)) ∧
  ∀ id s, live st !! id = Some s → backed (durable (backend st)) id s.

(** *** Committed prefixes survive *)

Definition keeps_prefix (d d' : durable_logs) : Prop :=
  ∀ id h evs, d !! id = Some (h, evs) → ∃ more, d' !! id = Some (h, evs ++ more).

Lemma keeps_prefix_refl d : keeps_prefix d d.
Proof. intros id h evs Hd. exists []. by rewrite app_nil_r. Qed.

Lemma keeps_prefix_trans d1 d2 d3 :
  keeps_prefix d1 d2 → keeps_prefix d2 d3 → keeps_prefix d1 d3.
Proof.
  intros H12 H23 id h evs Hd.
  destruct (H12 _ _ _ Hd) as [m1 Hd2]. destruct (H23 _ _ _ Hd2) as [m2 Hd3].
  exists (m1 ++ m2). by rewrite app_assoc.
Qed.

Lemma backed_keeps d d' id s : keeps_prefix d d' → backed d id s → backed d' id s.
Proof.
  intros Hk (Hid & Hwf & more & Hm). split_and!; [done..|].
  destruct (Hk _ _ _ Hm) as [more' Hm']. exists (more ++ more').
  by rewrite app_assoc.
Qed.

Lemma contiguous_append evs e :
  contiguous evs → next_seq evs = Ok (ev_seq e) → contiguous (evs ++ [e]).
Proof. intros Hc Hn. apply contiguous_snoc; [done|]. by apply contiguous_next_seq. Qed.

(** A committed write keeps the prefixes and the contiguity of all logs. *)
Definition good_write (d d' : durable_logs) : Prop :=
  keeps_prefix d d' ∧ (logs_contiguous d → logs_contiguous d').

Lemma good_write_refl d : good_write d d.
Proof. split; [apply keeps_prefix_refl|done]. Qed.

Lemma good_write_trans d1 d2 d3 : good_write d1 d2 → good_write d2 d3 → good_write d1 d3.
Proof. intros [? ?] [? ?]. split; [by eapply keeps_prefix_trans|eauto]. Qed.

Lemma commits_create_good h evs d d' : commits_create h evs d d' → good_write d d'.
Proof.
  intros (Hn & Hc & ->). split.
  - intros id h' evs' Hd. exists []. rewrite app_nil_r, lookup_insert_ne; congruence.
  - intros Hd id h' evs'. rewrite lookup_insert. case_decide; naive_solver.
Qed.

Lemma commits_append_good id e d d' : commits_append id e d d' → good_write d d'.
Proof.
  intros (h & evs & Hd & Hn & ->). split.
  - intros id' h' evs' Hd'. rewrite lookup_insert. case_decide; subst.
    + exists [e]. by simplify_eq.
    + exists []. by rewrite app_nil_r.
  - intros Hc id' h' evs'. rewrite lookup_insert. case_decide; subst; [|by apply Hc].
    intros [= <- <-]. apply contiguous_append; [by eapply Hc|done].
Qed.

Lemma writes_good {A} (c : durable_logs → durable_logs → Prop) (r : result SessionError A) d d' :
  (∀ x y, c x y → good_write x y) → writes c r d d' → good_write d d'.
Proof.
  intros Hc. destruct r; simpl; [apply Hc|].
  intros [->|?]; [apply good_write_refl|by apply Hc].
Qed.

(** *** Every operation keeps the store invariant *)

Lemma session_wf_contiguous s : session_wf s → contiguous (st_events (s_state s)).
Proof.
  intros [(_ & _ & Hf & _)%build_state_Ok _]. by eapply replay_contiguous.
Qed.

(** The durable log a session appends to is exactly its own: a longer one
    would make the sequence number wrong. *)
Lemma backed_exact d id s e h evs :
  logs_contiguous d → backed d id s →
  next_seq (st_events (s_state s)) = Ok (ev_seq e) →
  d !! id = Some (h, evs) → next_seq evs = Ok (ev_seq e) →
  h = s_header s ∧ evs = st_events (s_state s).
Proof.
  intros Hd (_ & Hwf & more & Hm) Hn Hl Hn'. simplify_eq. split; [done|].
  apply contiguous_next_seq in Hn; [|by apply session_wf_contiguous].
  apply contiguous_next_seq in Hn'; [|by eapply Hd].
  rewrite length_app in Hn'. destruct more; [by rewrite app_nil_r|simpl in Hn'; lia].
Qed.

Lemma append_inner_good t event expected s (b : S) id r s' b' :
  logs_contiguous (durable b) → backed (durable b) id s →
  append_inner t event expected s b = (r, s', b') →
  good_write (durable b) (durable b') ∧ backed (durable b') id s'.
Proof.
  intros Hd Hb Ha.
  destruct (append_inner_wf _ _ _ _ _ _ _ _ (proj1 (proj2 Hb)) Ha) as [Hwf Hh].
  apply append_inner_inv in Ha as [(err & -> & -> & Hb')|(p & -> & Hc & Hp & ->)].
  - assert (good_write (durable b) (durable b')) as Hk.
    { destruct Hb' as [->|Hp]; [apply good_write_refl|].
      apply append_writes in Hp. eapply writes_good, Hp. apply commits_append_good. }
    split; [done|]. eapply backed_keeps; [|done]. apply Hk.
  - apply append_writes in Hp. simpl in Hp.
    split; [by eapply commits_append_good|].
    destruct Hp as (h & evs & Hl & Hn & Hd').
    apply check_append_Ok in Hc as (Hc & _ & _).
    apply check_admissible_seq in Hc as [_ Hs].
    pose proof (proj1 Hb) as Hid. rewrite Hid in *.
    destruct (backed_exact _ _ _ _ _ _ Hd Hb Hs Hl Hn) as [-> ->].
    split_and!; [done..|]. exists []. rewrite Hd', app_nil_r. apply lookup_insert_eq.
Qed.

(** Replacing the back end by a good write, then publishing a backed session. *)
Lemma store_inv_write b b' l :
  good_write (durable b) (durable b') → store_inv (mkStore b l) → store_inv (mkStore b' l).
Proof.
  intros [Hk Hc] [Hd Hl]. split; [by apply Hc|].
  intros id s Hs. eapply backed_keeps; [done|]. by apply Hl.
Qed.

Lemma store_inv_insert id s (st : SessionStore S) :
  store_inv st → backed (durable (backend st)) id s →
  store_inv (mkStore (backend st) (<[id := s]> (live st))).
Proof.
  intros [Hd Hl] Hs. split; [done|]. intros id' s'. simpl.
  rewrite lookup_insert. case_decide; naive_solver.
Qed.

Lemma publish_inv id s (st : SessionStore S) r st' :
  store_inv st → backed (durable (backend st)) id s →
  Store.publish id s st = (r, st') → store_inv st'.
Proof.
  unfold Store.publish, Store.insert_live. intros Hinv Hs.
  destruct (live st !! id); intros Heq; simplify_eq; [done|]. by apply store_inv_insert.
Qed.

Lemma backed_committed (d : durable_logs) header events s :
  from_committed header events = Ok s →
  d !! h_id header = Some (header, events) → backed d (h_id header) s.
Proof.
  intros (Hwf & Hh & He)%from_committed_wf Hd. split_and!; [by rewrite Hh|done|].
  exists []. by rewrite app_nil_r, Hh, He.
Qed.

Lemma append_all_good t n events s (b : S) id r s' b' :
  logs_contiguous (durable b) → backed (durable b) id s →
  Store.append_all t n events s b = (r, s', b') →
  good_write (durable b) (durable b') ∧ backed (durable b') id s'.
Proof.
  revert n s b. induction events as [|e events IH]; intros n s b Hd Hb; simpl.
  { intros [= <- <- <-]. split; [apply good_write_refl|done]. }
  destruct (append (sub n t) e s b) as [[r1 s1] b1] eqn:Ha.
  pose proof (append_inner_good _ _ _ _ _ _ _ _ _ Hd Hb Ha) as [Hg Hb1].
  destruct r1; intros Heq; [|by simplify_eq].
  apply IH in Heq as [Hg' Hb']; [|by apply Hg|done].
  split; [by eapply good_write_trans|done].
Qed.

Lemma load_session_Ok t id (st : SessionStore S) s closers :
  Store.load_session t id st = Ok (s, closers) →
  live st !! id = None ∧ h_id (s_header s) = id ∧
  Closers.interrupted_turn_closers (st_events (s_state s)) = Ok closers ∧
  ∃ events, durable (backend st) !! id = Some (s_header s, events) ∧
            from_committed (s_header s) (filter (λ e, (0 ≤ ev_seq e)%N) events) = Ok s.
Proof.
  unfold Store.load_session, Store.ensure_not_live. intros Hl. invert_ok.
  repeat match goal with
  | Hp : p_load _ _ _ = Ok _ |- _ => apply load_reads in Hp
  | Hp : p_read_from _ _ _ _ = Ok _ |- _ => apply read_from_reads in Hp as (? & ? & ? & ->)
  | Hp : String.eqb _ _ = true |- _ => apply String.eqb_eq in Hp
  end.
  simplify_option_eq.
  match goal with Hf : from_committed _ _ = Ok _ |- _ =>
    pose proof (from_committed_wf _ _ _ Hf) as (_ & Hh & _); subst end.
  split_and!; eauto. by destruct (live st !! _).
Qed.

Lemma filter_all (events : list SessionEvent) :
  filter (λ e, (0 ≤ ev_seq e)%N) events = events.
Proof.
  apply filter_Forall, Forall_forall. intros. lia.
Qed.

Lemma store_step_inv st st' : store_step st st' → store_inv st → store_inv st'.
Proof.
  intros Hstep Hinv. destruct Hstep as [t h st r st' Hs|t h seed st r st' Hs
    |t id mode st r st' Hs|t id e x st r st' Hs|id st]; destruct st as [b l].
  - unfold Store.create in Hs. case_match; [|by simplify_eq]. simpl in Hs.
    destruct (p_create _ _ _) as [r1 b1] eqn:Hp. apply create_writes in Hp.
    assert (store_inv (mkStore b1 l)) as Hinv1.
    { eapply store_inv_write; [|done]. eapply writes_good, Hp. apply commits_create_good. }
    destruct r1; [|by simplify_eq].
    destruct (from_committed h []) as [s|] eqn:Hf; [|by simplify_eq].
    eapply publish_inv; [done| |done]. apply (backed_committed _ _ _ _ Hf).
    destruct Hp as (_ & _ & Hp). simpl. rewrite Hp. apply lookup_insert_eq.
  - unfold Store.create_seeded in Hs. case_match eqn:Hg; [|by simplify_eq]. simpl in Hs.
    destruct (p_create_seeded _ _ _ _) as [r1 b1] eqn:Hp. apply create_seeded_writes in Hp.
    assert (store_inv (mkStore b1 l)) as Hinv1.
    { eapply store_inv_write; [|done]. eapply writes_good, Hp. apply commits_create_good. }
    destruct r1; [|by simplify_eq]. invert_ok.
    eapply publish_inv; [done| |done]. eapply backed_committed; [done|].
    destruct Hp as (_ & _ & Hp). simpl. rewrite Hp. apply lookup_insert_eq.
  - unfold Store.restore in Hs.
    destruct (Store.load_session _ _ _) as [[s closers]|] eqn:Hl; [|by simplify_eq].
    apply load_session_Ok in Hl as (_ & Hid & _ & events & Hd & Hf).
    assert (backed (durable b) id s) as Hb.
    { rewrite <-Hid. eapply backed_committed; [done|].
      by rewrite filter_all, Hid. }
    destruct closers as [|c closers]; [by eapply publish_inv|].
    destruct mode; [by simplify_eq|by eapply publish_inv|].
    destruct (Store.append_all _ _ _ _ _) as [[r1 s1] b1] eqn:Ha.
    apply (append_all_good _ _ _ _ _ id) in Ha as [Hg Hb1]; [|apply Hinv|done].
    assert (store_inv (mkStore b1 l)) by (by eapply store_inv_write).
    destruct r1; [|by simplify_eq]. by eapply publish_inv.
  - unfold Store.append_live in Hs. simpl in Hs.
    destruct (l !! id) as [s|] eqn:Hid; [|by simplify_eq].
    destruct (append_inner _ _ _ _ _) as [[r1 s1] b1] eqn:Ha. simplify_eq.
    apply (append_inner_good _ _ _ _ _ id) in Ha as [Hg Hb1];
      [|apply Hinv|by apply (proj2 Hinv)].
    apply (store_inv_insert id s1 (mkStore b1 l)); [|done]. by eapply store_inv_write.
  - split; [apply Hinv|]. simpl. intros id' s' [_ Hs]%lookup_delete_Some.
    by apply (proj2 Hinv).
Qed.

(** The store starts with no live session over whatever is on disk. *)
Definition initial_store (st : SessionStore S) : Prop :=
  live st = ∅ ∧ logs_contiguous (durable (backend st)).

Lemma reachable_inv st0 st : initial_store st0 → rtc store_step st0 st → store_inv st.
Proof.
  intros [Hl Hd] Hr.
  assert (store_inv st0) as Hinv by (split; [done|]; intros ? ?; by rewrite Hl).
  clear Hl Hd. induction Hr as [|x y z Hxy _ IH]; [done|].
  apply IH. by eapply store_step_inv.
Qed.
End store.

(** ** Admitted events decode, and the surface cites them *)

Section admitted.
Context `{ProtocolWire}.

Lemma check_admissible_decode header state event p :
  check_admissible header state event = Ok p → decode_surface_event event = Ok p.
Proof. unfold check_admissible. intros Hc. by invert_ok. Qed.

Lemma replay_decodes header events state :
  foldM (replay_event header) (initial_state header) events = Ok state →
  Forall (λ e, is_ok (decode_surface_event e) = true ∧ SessionEvent_validate e = Ok tt) events.
Proof.
  apply (foldM_inv _ (λ l _, Forall (λ e, is_ok (decode_surface_event e) = true ∧
    SessionEvent_validate e = Ok tt) l)); [done|].
  intros done s e s' Hl (p & Hp & _)%replay_event_Ok.
  apply Forall_app. split; [done|]. constructor; [|done].
  rewrite (check_admissible_decode _ _ _ _ Hp).
  by apply check_admissible_seq in Hp as [-> _].
Qed.

Lemma decode_surface_event_seq event sm :
  decode_surface_event event = Ok (Some sm) → sm_event_seq sm = ev_seq event.
Proof.
  unfold decode_surface_event. destruct (expected_role _); [|done].
  intros Hd. by invert_ok.
Qed.

(** Every surface entry decodes from the logged event it names. *)
Definition surface_cites (events : list SessionEvent) (sm : SurfaceMessage) : Prop :=
  ∃ e, events !! N.to_nat (sm_event_seq sm) = Some e ∧
       decode_surface_event e = Ok (Some sm).

Lemma surface_cites_snoc events e sm :
  surface_cites events sm → surface_cites (events ++ [e]) sm.
Proof.
  intros (x & Hx & ?). exists x. split; [|done]. by apply lookup_app_l_Some.
Qed.

Lemma apply_surface_elem event p surface sm :
  sm ∈ apply_surface_operation event p surface → sm ∈ surface ∨ p = Some sm.
Proof.
  unfold apply_surface_operation. destruct p as [x|]; [|by left].
  destruct (ev_surface_op event) as [[|start fin]|]; [..|by left];
    rewrite !elem_of_app, list_elem_of_singleton.
  - intros [?| ->]; auto.
  - intros [Hs|[->|Hs]]; auto; left; revert Hs.
    + apply elem_of_subseteq, subseteq_take.
    + apply elem_of_subseteq, subseteq_drop.
Qed.

Lemma splice_sublist {A} (a b : nat) (l : list A) :
  (a ≤ b)%nat → take a l ++ drop b l `sublist_of` l.
Proof.
  intros Hab. rewrite <-(take_drop a l) at 3. apply sublist_app; [done|].
  replace b with (a + (b - a)) by lia. rewrite <-drop_drop. apply sublist_drop.
Qed.

Lemma check_admissible_surface header state event p :
  check_admissible header state event = Ok p →
  validate_surface_operation event p (st_surface state) = Ok tt.
Proof. unfold check_admissible. intros Hc. by invert_ok. Qed.

(** The surface keeps its sequence numbers distinct. *)
Lemma apply_surface_NoDup event p surface :
  validate_surface_operation event p surface = Ok tt →
  (∀ sm, p = Some sm → sm_event_seq sm ∉ (sm_event_seq <$> surface)) →
  NoDup (sm_event_seq <$> surface) →
  NoDup (sm_event_seq <$> apply_surface_operation event p surface).
Proof.
  intros Hv Hfresh Hnd. unfold apply_surface_operation, validate_surface_operation in *.
  destruct p as [x|]; [|done]. specialize (Hfresh x eq_refl).
  destruct (ev_surface_op event) as [[|start fin]|]; [..|done].
  - rewrite fmap_app, <-Permutation_app_comm. by constructor.
  - invert_ok. match goal with Hlt : N.ltb fin start = false |- _ => apply N.ltb_ge in Hlt end.
    pose proof (splice_sublist (N.to_nat start) (N.to_nat fin) surface ltac:(lia)) as Hsub.
    apply (fmap_sublist sm_event_seq) in Hsub.
    rewrite !fmap_app. simpl. rewrite <-Permutation_middle. constructor.
    + rewrite <-fmap_app. intros Hin. apply Hfresh. by eapply elem_of_sublist.
    + rewrite <-fmap_app. by eapply sublist_NoDup.
Qed.

Lemma replay_surface header events state :
  foldM (replay_event header) (initial_state header) events = Ok state →
  Forall (surface_cites events) (st_surface state) ∧ NoDup (surface_seqs state).
Proof.
  intros Hf.
  assert (contiguous events ∧ st_events state = events ∧
    Forall (surface_cites events) (st_surface state) ∧ NoDup (surface_seqs state))
    as (_ & _ & ?); [|done].
  revert Hf.
  apply (foldM_inv _ (λ l s, contiguous l ∧ st_events s = l ∧
    Forall (surface_cites l) (st_surface s) ∧ NoDup (surface_seqs s))).
  { split_and!; try done. constructor. }
  intros l s e s' (Hc & Hl & Hs & Hnd) (p & Hp & ->)%replay_event_Ok. simpl.
  pose proof (check_admissible_seq _ _ _ _ Hp) as [_ Hn]. rewrite Hl in *.
  apply contiguous_next_seq in Hn; [|done].
  pose proof (check_admissible_surface _ _ _ _ Hp) as Hv.
  apply check_admissible_decode in Hp.
  split_and!; [by apply contiguous_snoc|done|..].
  - apply Forall_forall. intros sm [Hin| ->]%apply_surface_elem.
    + apply surface_cites_snoc. by eapply Forall_forall in Hs.
    + exists e. split; [|done]. rewrite (decode_surface_event_seq _ _ Hp), Hn, Nat2N.id.
      by apply list_lookup_middle.
  - apply apply_surface_NoDup; [done| |done]. intros x ->.
    rewrite (decode_surface_event_seq _ _ Hp), Hn. intros (y & Hy & Hin)%list_elem_of_fmap.
    eapply Forall_forall in Hs as (z & Hz%lookup_lt_Some & _); [|done].
    rewrite <-Hy, Nat2N.id in Hz. lia.
Qed.
End admitted.
