(* ===== verification/RestoreFacts.v ===== *)
(** * Facts about restoration and the replayed inbox

    What a restore appends and leaves, and the inbox that a log replays to. *)

From S2P Require Import Prelude Json Protocol Session SessionFacts.

Section closers.
Context `{ProtocolWire}.

Lemma scan_events_snoc events e :
  Closers.scan_events (events ++ [e]) =
    (s ← Closers.scan_events events; Closers.scan_event s e).
Proof. apply foldM_snoc. Qed.

Definition closer_types : list string := ["tool/result"; "step/end"; "turn/end"].

Lemma elem_of_closer_types t :
  t ∈ closer_types ↔ t = "tool/result" ∨ t = "step/end" ∨ t = "turn/end".
Proof.
  unfold closer_types. rewrite !elem_of_cons. pose proof (not_elem_of_nil t). tauto.
Qed.

(** An event of a closing type that decodes never stops the scan, and opens
    nothing. *)
Lemma scan_closer s e :
  is_ok (decode_surface_event e) = true → event_type e ∈ closer_types →
  ∃ s', Closers.scan_event s e = Ok s'.
Proof.
  unfold Closers.scan_event, Closers.surface_of, decode_surface_event.
  intros Hd [Ht|[Ht|Ht]]%elem_of_closer_types; rewrite Ht in *; simpl in *; [|eauto..].
  destruct (ok_or _ _ ≫= _) as [[sm|]|] eqn:Hsm; [| |done].
  - simpl. destruct (m_source _); eauto.
  - exfalso. invert_ok. case_bool_decide; discriminate.
Qed.

Lemma scan_closers s events :
  Forall (λ e, is_ok (decode_surface_event e) = true ∧ event_type e ∈ closer_types) events →
  ∃ s', foldM Closers.scan_event s events = Ok s'.
Proof.
  intros Hall; revert s. induction Hall as [|e l [Hd Ht] _ IH]; intros s; [by eexists|].
  destruct (scan_closer s e Hd Ht) as [s' Hs']. simpl. rewrite Hs'. apply IH.
Qed.

(** *** The shape of the closers *)

Lemma result_event_type turn time call seq :
  event_type (Closers.result_event turn time call seq) = "tool/result".
Proof. unfold Closers.result_event. by destruct (Closers.outcome call) as [[]]. Qed.

(** The [i]-th pending call is closed by the [i]-th closer, [i] after the
    first sequence number. *)
Lemma close_calls_Ok turn time seq calls closed :
  Closers.close_calls turn time seq calls = Ok closed →
  closed.1 = imap (λ i call, Closers.result_event turn time call (seq + N.of_nat i)) calls ∧
  closed.2 = (seq + N.of_nat (length calls))%N.
Proof.
  revert seq closed. induction calls as [|call calls IH]; intros seq closed; simpl.
  - intros [= <-]. simpl. split; [done|lia].
  - intros Hc. invert_ok. unfold Closers.next in *. invert_ok.
    match goal with Hn : u64_checked_add _ _ = Some _ |- _ =>
      apply u64_checked_add_Some in Hn as [-> _] end.
    match goal with Hr : Closers.close_calls _ _ _ _ = Ok _ |- _ =>
      apply IH in Hr as [-> ->] end.
    simpl. split; [|lia]. f_equal; [by rewrite N.add_0_r|].
    apply imap_ext. intros i x _. simpl. f_equal. lia.
Qed.

Lemma close_calls_total turn time seq calls :
  (seq + N.of_nat (length calls) ≤ U64_MAX)%N →
  ∃ closed, Closers.close_calls turn time seq calls = Ok closed.
Proof.
  revert seq. induction calls as [|call calls IH]; intros seq Hs; simpl in *; [by eexists|].
  unfold Closers.next.
  assert (u64_checked_add seq 1 = Some (seq + 1)%N) as ->.
  { apply u64_checked_add_Some. split; [done|]. unfold is_u64. lia. }
  simpl. destruct (IH (seq + 1)%N) as [closed ->]; [lia|]. by eexists.
Qed.

(** The closers of an open turn, in closed form. *)
Definition closers_of (turn time seq : N) (s : Closers.scan) : list SessionEvent :=
  let results :=
    imap (λ i call, Closers.result_event turn time call (seq + N.of_nat i))
         (Closers.pending s) in
  let n := (seq + N.of_nat (length (Closers.pending s)))%N in
  match Closers.open_step s with
  | Some step => results ++ [Closers.step_end_event turn step time n;
                             Closers.turn_end_event turn time (n + 1)]
  | None => results ++ [Closers.turn_end_event turn time n]
  end.

Lemma closers_Ok events closers :
  Closers.interrupted_turn_closers events = Ok closers →
  ∃ s, Closers.scan_events events = Ok s ∧
    match Closers.open_turn s, last events with
    | Some turn, Some e => closers = closers_of turn (ev_time e) (ev_seq e + 1) s
    | _, _ => closers = []
    end.
Proof.
  unfold Closers.interrupted_turn_closers. intros Hc.
  apply bind_Ok in Hc as (s & Hs & Hc). exists s. split; [done|].
  destruct (Closers.open_turn s), (last events); try by simplify_eq.
  unfold Closers.next in Hc. invert_ok.
  repeat match goal with
  | Hn : u64_checked_add _ _ = Some _ |- _ => apply u64_checked_add_Some in Hn as [-> _]
  | Hr : Closers.close_calls _ _ _ _ = Ok _ |- _ => apply close_calls_Ok in Hr as [? ?]
  end.
  unfold closers_of. destruct (Closers.open_step s); invert_ok.
  - match goal with Hn : u64_checked_add _ _ = Some _ |- _ =>
      apply u64_checked_add_Some in Hn as [-> _] end.
    by repeat match goal with Hx : _.1 = _ |- _ => rewrite Hx; clear Hx
                         | Hx : _.2 = _ |- _ => rewrite Hx; clear Hx end.
  - by repeat match goal with Hx : _.1 = _ |- _ => rewrite Hx; clear Hx
                         | Hx : _.2 = _ |- _ => rewrite Hx; clear Hx end.
Qed.

Lemma closers_of_length turn time seq s :
  (length (closers_of turn time seq s) ≤ length (Closers.pending s) + 2)%nat.
Proof.
  unfold closers_of. destruct (Closers.open_step s); rewrite length_app, length_imap; simpl; lia.
Qed.

(** With room for the sequence numbers, closing never fails. *)
Lemma closers_total events s :
  contiguous events → Closers.scan_events events = Ok s →
  (N.of_nat (length events + length (Closers.pending s)) + 2 ≤ U64_MAX)%N →
  ∃ closers, Closers.interrupted_turn_closers events = Ok closers.
Proof.
  intros Hc Hs Hroom. unfold Closers.interrupted_turn_closers. rewrite Hs. simpl.
  destruct (Closers.open_turn s) as [turn|]; [|eauto].
  destruct events as [|e events _] using rev_ind; [simpl; eauto|].
  rewrite last_snoc, (Hc (length events) e) by by rewrite list_lookup_middle.
  rewrite length_app in Hroom. simpl in Hroom. unfold Closers.next.
  rewrite u64_checked_add_fits by lia. simpl.
  destruct (close_calls_total turn (ev_time e) (N.of_nat (length events) + 1)
    (Closers.pending s)) as [closed Hcl]; [lia|].
  rewrite Hcl. simpl. apply close_calls_Ok in Hcl as [_ ->].
  destruct (Closers.open_step s); [|eauto].
  rewrite u64_checked_add_fits by lia.
  simpl. eauto.
Qed.

Lemma closers_of_types turn time seq s :
  Forall (λ e, event_type e ∈ closer_types) (closers_of turn time seq s).
Proof.
  assert (Forall (λ e, event_type e ∈ closer_types)
    (imap (λ i call, Closers.result_event turn time call (seq + N.of_nat i))
          (Closers.pending s))) as Hr.
  { apply Forall_lookup_2. intros i e (c & _ & ->)%list_lookup_imap_Some.
    rewrite result_event_type. apply elem_of_closer_types. auto. }
  unfold closers_of. destruct (Closers.open_step s); apply Forall_app; split; try done;
    repeat constructor; apply elem_of_closer_types; auto.
Qed.

Lemma closers_of_last turn time seq s :
  ∃ l e, closers_of turn time seq s = l ++ [e] ∧ event_type e = "turn/end".
Proof.
  unfold closers_of. destruct (Closers.open_step s).
  - eexists (_ ++ [_]), _. rewrite <-app_assoc. simpl. done.
  - by eexists _, _.
Qed.

(** Once the closers are in the log, nothing is left to close. *)
Lemma closed_log events closers :
  Closers.interrupted_turn_closers events = Ok closers → closers ≠ [] →
  Forall (λ e, is_ok (decode_surface_event e) = true) closers →
  Closers.interrupted_turn_closers (events ++ closers) = Ok [].
Proof.
  intros (s & Hs & Hc)%closers_Ok Hne Hd.
  destruct (Closers.open_turn s) as [turn|], (last events) as [e|]; try done.
  pose proof (closers_of_types turn (ev_time e) (ev_seq e + 1) s) as Ht.
  destruct (closers_of_last turn (ev_time e) (ev_seq e + 1) s) as (l & x & Hl & Hx).
  rewrite <-Hc in *. rewrite Hl in *. apply Forall_app in Ht as [Ht _].
  apply Forall_app in Hd as [Hd _].
  destruct (scan_closers s l) as [s' Hs'].
  { by apply Forall_and. }
  unfold Closers.interrupted_turn_closers. rewrite app_assoc, scan_events_snoc.
  unfold Closers.scan_events in *. rewrite foldM_app, Hs. cbn. rewrite Hs'. cbn.
  unfold Closers.scan_event. rewrite Hx. done.
Qed.
End closers.

(** ** Appending a list of events *)

Section append_all.
Context `{ProtocolWire} {S : Type} `{SessionPersistence S}.

Lemma append_all_events t n events s (b : S) s' b' :
  session_wf s → Store.append_all t n events s b = (Ok tt, s', b') →
  session_wf s' ∧ s_header s' = s_header s ∧
  st_events (s_state s') = st_events (s_state s) ++ events.
Proof.
  revert n s b. induction events as [|e events IH]; intros n s b Hwf; simpl.
  { intros [= <- _]. by rewrite app_nil_r. }
  destruct (append (sub n t) e s b) as [[r s1] b1] eqn:Ha.
  destruct (append_inner_wf _ _ _ _ _ _ _ _ Hwf Ha) as [Hwf1 Hh1].
  destruct r as [[]|]; [|done]. intros Hall.
  apply IH in Hall as (Hwf' & -> & ->); [|done]. split_and!; [done..|].
  apply append_inner_inv in Ha as [(? & [=] & _)|(p & _ & _ & _ & ->)]. simpl.
  by rewrite <-app_assoc.
Qed.

Lemma session_wf_decodes s :
  session_wf s →
  Forall (λ e, is_ok (decode_surface_event e) = true ∧ SessionEvent_validate e = Ok tt)
    (st_events (s_state s)).
Proof. intros [(_ & _ & Hf & _)%build_state_Ok _]. by eapply replay_decodes. Qed.
End append_all.

(** ** Closers over the in-memory back end *)

Section memory_closers.
Context `{ProtocolWire}.

(** An event that is admissible in any log of length [k]. *)
Record plain (k : nat) (e : SessionEvent) : Prop := {
  plain_valid : SessionEvent_validate e = Ok tt;
  plain_seq : ev_seq e = N.of_nat k;
  plain_type : event_type e ∈ closer_types;
  plain_sources : ∀ sources, ev_source_event_seqs e = Some sources →
    Forall (λ q, (q < N.of_nat k)%N) sources;
  plain_decode : ∃ p, decode_surface_event e = Ok p ∧
    (p = None ∨ ev_surface_op e = Some Append);
}.

Lemma next_seq_contiguous events :
  contiguous events → (N.of_nat (length events) ≤ U64_MAX)%N →
  next_seq events = Ok (N.of_nat (length events)).
Proof.
  intros Hc Hlen. unfold next_seq. destruct events as [|e events _] using rev_ind; [done|].
  rewrite last_snoc, (Hc (length events) e) by by rewrite list_lookup_middle.
  rewrite length_app in *. simpl in *. apply ok_or_Ok, u64_checked_add_Some.
  unfold is_u64. split; lia.
Qed.

Lemma plain_admissible header state e :
  contiguous (st_events state) → (N.of_nat (length (st_events state)) ≤ U64_MAX)%N →
  plain (length (st_events state)) e →
  ∃ p, check_admissible header state e = Ok p ∧ is_inbox_event e = false.
Proof.
  intros Hc Hlen [Hv Hs Ht Hq (p & Hd & Hp)]. exists p. split.
  - unfold check_admissible, protocol. rewrite Hv, next_seq_contiguous, Hd by done.
    simpl. rewrite Hs, N.eqb_refl. simpl.
    assert (validate_seed_boundary header state e = Ok tt) as ->.
    { unfold validate_seed_boundary.
      by apply elem_of_closer_types in Ht as [->|[->| ->]]. }
    assert (validate_sources e (st_events state) = Ok tt) as ->.
    { unfold validate_sources. destruct (ev_source_event_seqs e) as [l|] eqn:Hl; [|done].
      apply forM_Ok. eapply Forall_impl; [by apply Hq|]. intros q Hlt. simpl in *.
      assert (existsb (λ prior, ev_seq prior =? q)%N (st_events state) = true) as ->; [|done].
      destruct (lookup_lt_is_Some_2 (st_events state) (N.to_nat q)) as [x Hx]; [lia|].
      apply existsb_exists. exists x. split.
      - apply list_elem_of_In. by eapply list_elem_of_lookup_2.
      - apply N.eqb_eq. rewrite (Hc _ _ Hx). lia. }
    simpl. assert (validate_surface_operation e p (st_surface state) = Ok tt) as ->; [|done].
    unfold validate_surface_operation. destruct Hp as [->|Hop]; [done|].
    rewrite Hop. by destruct p.
  - unfold is_inbox_event. by apply elem_of_closer_types in Ht as [->|[->| ->]].
Qed.

Lemma memory_append_ok s b e h n p :
  b !! h_id (s_header s) = Some (mkMemory h (st_events (s_state s)) n) →
  check_admissible (s_header s) (s_state s) e = Ok p → is_inbox_event e = false →
  append (S := MemorySessionPersistence) live_token e s b =
    (Ok tt, mkSession (s_header s) (admit_event (s_state s) e p) (s_updates s ++ [e]),
     <[h_id (s_header s) := mkMemory h (st_events (s_state s) ++ [e]) n]> b).
Proof.
  intros Hb Hc Hi. unfold append, append_inner, append_under_gate, check_append. simpl.
  rewrite Hc, Hi. simpl. unfold memory_append. simpl. unfold protocol.
  apply check_admissible_seq in Hc as [Hv Hn].
  rewrite Hv. simpl. rewrite Hb. simpl. rewrite Hn. simpl. by rewrite N.eqb_refl.
Qed.

Lemma memory_append_all k events s b h n :
  session_wf s →
  b !! h_id (s_header s) = Some (mkMemory h (st_events (s_state s)) n) →
  (∀ i e, events !! i = Some e → plain (length (st_events (s_state s)) + i) e) →
  (N.of_nat (length (st_events (s_state s)) + length events) ≤ U64_MAX)%N →
  ∃ s' b', Store.append_all (S := MemorySessionPersistence) live_token k events s b
           = (Ok tt, s', b').
Proof.
  revert k s b. induction events as [|e events IH]; intros k s b Hwf Hb Hp Hlen; simpl.
  { by eexists _, _. }
  change (sub k live_token) with live_token.
  destruct (plain_admissible (s_header s) (s_state s) e) as (p & Hc & Hi).
  - by apply session_wf_contiguous.
  - simpl in Hlen. lia.
  - specialize (Hp 0 e eq_refl). by rewrite Nat.add_0_r in Hp.
  - pose proof (memory_append_ok _ _ _ _ _ _ Hb Hc Hi) as Ha. rewrite Ha.
    apply append_inner_wf in Ha as [Hwf' _]; [|done].
    apply IH; [done|by rewrite lookup_insert_eq|..]; simpl; rewrite length_app.
    + intros i x Hx. simpl. rewrite <-Nat.add_assoc. by apply (Hp (Datatypes.S i)).
    + simpl in *. lia.
Qed.

(** *** The closers are plain events *)

Definition started_before (k : nat) (calls : list Closers.PendingCall) : Prop :=
  Forall (λ c, ∀ q, Closers.call_seq c = Some q → (q < N.of_nat k)%N) calls.

Lemma started_before_le k k' calls :
  (k ≤ k')%nat → started_before k calls → started_before k' calls.
Proof. intros Hk Hs. eapply Forall_impl; [done|]. intros c Hc q Hq. specialize (Hc q Hq). lia. Qed.

Lemma mark_called_before k id seq calls :
  (seq < N.of_nat k)%N → started_before k calls →
  started_before k (Closers.mark_called id seq calls).
Proof.
  intros Hs. induction 1 as [|c calls Hc Hcs IH]; simpl; [constructor|].
  case_bool_decide; constructor; try done. by intros q [= <-].
Qed.

Lemma pending_of_blocks_before k step content :
  started_before k (Closers.pending_of_blocks step content).
Proof.
  apply Forall_forall. intros c (b & _ & Hb)%list_elem_of_omap.
  destruct b; simplify_eq/=. by intros q [=].
Qed.

Lemma scan_event_before k s e s' :
  (ev_seq e < N.of_nat k)%N → started_before k (Closers.pending s) →
  Closers.scan_event s e = Ok s' → started_before k (Closers.pending s').
Proof.
  intros He Hs. unfold Closers.scan_event.
  repeat case_match; intros Hk; invert_ok; simpl; try done;
    repeat match goal with H : context [match ?x with _ => _ end] |- _ =>
      destruct x eqn:?; invert_ok end; simpl; try done; try constructor.
  - apply Forall_app. split; [done|]. apply pending_of_blocks_before.
  - by apply mark_called_before.
  - apply Forall_forall. intros c [_ Hin]%list_elem_of_filter.
    by eapply Forall_forall in Hs.
Qed.

Lemma scan_pending events s :
  contiguous events → Closers.scan_events events = Ok s →
  started_before (length events) (Closers.pending s).
Proof.
  intros Hc Hs. revert Hc. revert events s Hs.
  apply (foldM_inv _ (λ l s, contiguous l → started_before (length l) (Closers.pending s)));
    [by constructor|].
  intros l s e s' IH He Hc. eapply scan_event_before; [|eapply started_before_le|done].
  - rewrite (Hc (length l) e) by by rewrite list_lookup_middle.
    rewrite length_app. simpl. lia.
  - rewrite length_app. apply Nat.le_add_r.
  - apply IH. intros i x Hx. apply Hc. by apply lookup_app_l_Some.
Qed.

Lemma turn_end_plain turn time k :
  (time ≤ MAX_SAFE_INTEGER)%N → (N.of_nat k ≤ MAX_SAFE_INTEGER)%N →
  plain k (Closers.turn_end_event turn time (N.of_nat k)).
Proof.
  intros Ht Hk. split; try done.
  - unfold SessionEvent_validate. simpl.
    by rewrite !(proj2 (check_safe_integer_Ok _ _)) by done.
  - apply elem_of_closer_types. auto.
  - exists None. auto.
Qed.

Lemma step_end_plain turn step time k :
  (time ≤ MAX_SAFE_INTEGER)%N → (N.of_nat k ≤ MAX_SAFE_INTEGER)%N →
  plain k (Closers.step_end_event turn step time (N.of_nat k)).
Proof.
  intros Ht Hk. split; try done.
  - unfold SessionEvent_validate. simpl.
    by rewrite !(proj2 (check_safe_integer_Ok _ _)) by done.
  - apply elem_of_closer_types. auto.
  - exists None. auto.
Qed.

Context {stable : Message → Prop} `{!WireLaw Message stable}.

Lemma result_event_message turn time call seq :
  get "message" (ev_data (Closers.result_event turn time call seq)) =
    Some (to_value (Closers.result_message call seq)).
Proof. unfold Closers.result_event. by destruct (Closers.outcome call) as [[]]. Qed.

Lemma result_event_decode turn time call seq :
  blank (Closers.call_id call) = false →
  stable (Closers.result_message call seq) →
  ∃ p, decode_surface_event (Closers.result_event turn time call seq) = Ok p.
Proof using All.
  intros Hb Hst. unfold decode_surface_event.
  rewrite result_event_type, result_event_message. simpl.
  rewrite (from_to_value _ Hst). simpl.
  assert (Message_validate (Closers.result_message call seq) = Ok tt) as ->; [|by eexists].
  unfold Message_validate. simpl. by rewrite !(proj2 (validate_nonempty_Ok _ _ _)) by done.
Qed.

Lemma result_event_plain turn time call k :
  (time ≤ MAX_SAFE_INTEGER)%N → (N.of_nat k ≤ MAX_SAFE_INTEGER)%N →
  (∀ q, Closers.call_seq call = Some q → (q < N.of_nat k)%N) →
  blank (Closers.call_id call) = false →
  stable (Closers.result_message call (N.of_nat k)) →
  plain k (Closers.result_event turn time call (N.of_nat k)).
Proof using All.
  intros Ht Hk Hq Hb Hst.
  destruct (result_event_decode turn time call (N.of_nat k) Hb Hst) as [p Hp].
  revert Hp. unfold Closers.result_event. destruct (Closers.outcome call) as [[code name] ?].
  intros Hp. split; try done.
  - unfold SessionEvent_validate. simpl.
    rewrite !(proj2 (check_safe_integer_Ok _ _)) by done. simpl.
    unfold validate_surface_metadata. simpl.
    destruct (Closers.call_seq call) as [q|]; [|done]. simpl.
    specialize (Hq q eq_refl).
    rewrite (proj2 (check_safe_integer_Ok _ _)) by lia. simpl.
    by rewrite (proj2 (N.leb_gt _ _)) by lia.
  - apply elem_of_closer_types. auto.
  - simpl. intros l. destruct (Closers.call_seq call) as [q|]; intros [= <-].
    repeat constructor. by apply Hq.
  - eexists. split; [done|by right].
Qed.

(** Everything a cold restore writes is admissible where it is written. *)
Lemma closers_plain turn time k s :
  (time ≤ MAX_SAFE_INTEGER)%N →
  (N.of_nat k + N.of_nat (length (Closers.pending s)) + 2 ≤ MAX_SAFE_INTEGER)%N →
  started_before k (Closers.pending s) →
  Forall (λ c, blank (Closers.call_id c) = false) (Closers.pending s) →
  (∀ m c, m_source m = SourceTool c → stable m) →
  ∀ i e, closers_of turn time (N.of_nat k) s !! i = Some e → plain (k + i) e.
Proof using All.
  intros Ht Hk Hq Hb Hst i e.
  set (results := imap (λ i call,
    Closers.result_event turn time call (N.of_nat k + N.of_nat i)) (Closers.pending s)).
  assert (∀ i e, results !! i = Some e → plain (k + i) e) as Hr.
  { intros j x (c & Hc & ->)%list_lookup_imap_Some. simpl. rewrite <-Nat2N.inj_add.
    apply result_event_plain; try done.
    - apply lookup_lt_Some in Hc. lia.
    - intros q Hcq. eapply Forall_lookup_1 in Hq; [|done]. specialize (Hq q Hcq). lia.
    - by eapply Forall_lookup_1 in Hb.
    - by eapply Hst. }
  assert (length results = length (Closers.pending s)) as Hl by apply length_imap.
  unfold closers_of. fold results.
  replace (N.of_nat k + N.of_nat (length (Closers.pending s)))%N
    with (N.of_nat (k + length results)) by lia.
  destruct (Closers.open_step s); intros [?|[Hi He]]%lookup_app_Some; auto.
  all: destruct (i - length results)%nat as [|[|]] eqn:Hn; simplify_eq/=.
  all: replace i with (length results + (i - length results))%nat by lia; rewrite Hn.
  - rewrite Nat.add_0_r. apply step_end_plain; [done|lia].
  - rewrite Nat.add_assoc. replace (N.of_nat (k + length results) + 1)%N
      with (N.of_nat (k + length results + 1)) by lia. apply turn_end_plain; [done|lia].
  - rewrite Nat.add_0_r. apply turn_end_plain; [done|lia].
Qed.
End memory_closers.

(** ** The replayed inbox: message ids stay unique *)

Import Inbox.

Definition ids (q : list Message) : list MessageId := m_id <$> q.
Definition inbox_ids (i : InboxReplay) : list MessageId := ids (followups i) ++ ids (steps i).
Definition other (t : InboxReplayTarget) : InboxReplayTarget :=
  match t with Followup => Step | Step => Followup end.

Lemma inbox_ids_queue t i : inbox_ids i ≡ₚ ids (queue t i) ++ ids (queue (other t) i).
Proof. destruct t; simpl; [done|]. by rewrite Permutation_app_comm. Qed.

Lemma inbox_ids_set_queue t q i :
  inbox_ids (set_queue t q i) ≡ₚ ids q ++ ids (queue (other t) i).
Proof. destruct t; simpl; [done|]. by rewrite Permutation_app_comm. Qed.

Lemma index_of_Some id q n :
  index_of id q = Some n → ∃ m, q !! n = Some m ∧ m_id m = id.
Proof.
  intros (m & Hm & Heq & _)%position_Some. exists m. split; [done|].
  by apply String.eqb_eq in Heq.
Qed.

Lemma index_of_None id q : index_of id q = None ↔ id ∉ ids q.
Proof.
  unfold index_of, ids. rewrite position_None, Forall_forall, list_elem_of_fmap. split.
  - intros Hall (m & -> & Hm). specialize (Hall m Hm). by rewrite String.eqb_refl in Hall.
  - intros Hn m Hm. apply String.eqb_neq. intros <-. eauto.
Qed.

Lemma find_Some id i t n :
  find id i = Some (t, n) → ∃ m, queue t i !! n = Some m ∧ m_id m = id.
Proof.
  unfold find. destruct (index_of id (followups i)) eqn:Hf.
  - intros [= <- <-]. by apply index_of_Some.
  - intros (k & Hs & [= -> ->])%fmap_Some. by apply index_of_Some.
Qed.

Lemma find_None id i : find id i = None ↔ id ∉ inbox_ids i.
Proof.
  unfold find, inbox_ids. rewrite not_elem_of_app, <-!index_of_None.
  destruct (index_of id (followups i)); [by split; [|intros []]|].
  rewrite fmap_None. tauto.
Qed.

(** *** Lists of ids *)

Lemma ids_split q n m : q !! n = Some m → ids q ≡ₚ m_id m :: ids (delete n q).
Proof. intros Hm. unfold ids. by rewrite (delete_Permutation _ _ _ Hm) at 1. Qed.

Lemma ids_delete_sublist n q : ids (delete n q) `sublist_of` ids q.
Proof. apply fmap_sublist, sublist_delete. Qed.

Lemma ids_insert q n m m' :
  q !! n = Some m → m_id m' = m_id m → ids (<[n := m']> q) = ids q.
Proof.
  intros Hm Hid. unfold ids. rewrite list_fmap_insert.
  apply list_insert_id. by rewrite list_lookup_fmap, Hm, Hid.
Qed.

Lemma remove_first_sublist id q : remove_first id q `sublist_of` q.
Proof. unfold remove_first. destruct (index_of id q); [apply sublist_delete|done]. Qed.

Lemma remove_first_not_in id q : NoDup (ids q) → id ∉ ids (remove_first id q).
Proof.
  unfold remove_first. intros Hnd. destruct (index_of id q) as [n|] eqn:Hn.
  - apply index_of_Some in Hn as (m & Hm & <-). rewrite (ids_split _ _ _ Hm) in Hnd.
    by apply NoDup_cons in Hnd as [? _].
  - by apply index_of_None.
Qed.

(** *** The duplicate test of a range splice *)

Lemma check_inserted_Ok i target start removed before inserted :
  check_inserted i target start removed before inserted = Ok tt →
  NoDup (ids before) →
  NoDup (ids (before ++ inserted)) ∧
  Forall (λ m, m_id m ∉ inbox_ids i ∨
               (∃ n, find (m_id m) i = Some (target, n) ∧ (start ≤ n < start + removed)))%nat inserted.
Proof.
  revert before. induction inserted as [|m inserted IH]; intros before Hc Hnd; simpl in Hc.
  { by rewrite app_nil_r. }
  apply guard_Ok in Hc as [Hg Hc].
  apply orb_false_iff in Hg as [Hfind Hbefore].
  assert (m_id m ∉ ids before) as Hm.
  { intros (x & Hx & Hin)%list_elem_of_fmap. apply not_true_iff_false in Hbefore. apply Hbefore.
    apply existsb_exists. exists x. split; [by apply list_elem_of_In|].
    apply String.eqb_eq. congruence. }
  apply IH in Hc as [Hnd' Hall].
  - rewrite <-app_assoc in Hnd'. split; [done|]. constructor; [|done].
    destruct (find (m_id m) i) as [[t n]|] eqn:Hf; [|left; by apply find_None].
    right. exists n. simpl in Hfind. apply negb_false_iff in Hfind.
    rewrite !andb_true_iff, bool_decide_eq_true, Nat.leb_le, Nat.ltb_lt in Hfind.
    destruct Hfind as [[-> ?] ?]. done.
  - unfold ids in *. rewrite fmap_app, NoDup_app. split_and!; [done| |apply NoDup_singleton].
    intros x Hx Hx'. apply list_elem_of_singleton in Hx'. subst. done.
Qed.

(** What stays of a queue after a range is removed contains no removed id. *)
Lemma kept_not_removed (q : list Message) start removed n m :
  NoDup (ids q) → q !! n = Some m → (start ≤ n < start + removed)%nat →
  m_id m ∉ ids (take start q) ++ ids (drop (start + removed) q).
Proof.
  intros Hnd Hm Hn. unfold ids in *. rewrite elem_of_app, fmap_take, fmap_drop.
  assert ((m_id <$> q) !! n = Some (m_id m)) as Hid by by rewrite list_lookup_fmap, Hm.
  intros [[k Hk]%list_elem_of_lookup|[k Hk]%list_elem_of_lookup].
  - pose proof (lookup_lt_Some _ _ _ Hk) as Hlt. rewrite length_take in Hlt.
    rewrite lookup_take_lt in Hk by lia.
    pose proof (NoDup_lookup _ _ _ _ Hnd Hk Hid). lia.
  - rewrite lookup_drop in Hk. pose proof (NoDup_lookup _ _ _ _ Hnd Hk Hid). lia.
Qed.

(** *** Every operation keeps the ids unique *)

Section unique.
Context `{ProtocolWire}.

Definition unique (i : InboxReplay) : Prop := NoDup (inbox_ids i).

Lemma unique_set_queue t q i :
  unique i → NoDup (ids q) → (∀ x, x ∈ ids q → x ∉ ids (queue (other t) i)) →
  unique (set_queue t q i).
Proof.
  unfold unique. rewrite (inbox_ids_queue t i), inbox_ids_set_queue, !NoDup_app.
  intros (_ & _ & ?) ? Hx. auto.
Qed.

Lemma unique_queue t i : unique i → NoDup (ids (queue t i)).
Proof. unfold unique. rewrite (inbox_ids_queue t i), NoDup_app. tauto. Qed.

Lemma unique_other t i x :
  unique i → x ∈ ids (queue t i) → x ∉ ids (queue (other t) i).
Proof. unfold unique. rewrite (inbox_ids_queue t i), NoDup_app. naive_solver. Qed.

Lemma unique_sublist i i' :
  ids (followups i') `sublist_of` ids (followups i) →
  ids (steps i') `sublist_of` ids (steps i) → unique i → unique i'.
Proof.
  intros Hf Hs Hu. unfold unique in *. eapply sublist_NoDup; [done|].
  by apply sublist_app.
Qed.

Lemma unique_set_sublist t q i :
  ids q `sublist_of` ids (queue t i) → unique i → unique (set_queue t q i).
Proof. destruct t; simpl; intros Hq; by apply unique_sublist. Qed.

Lemma enqueued_unique event i i' :
  apply_enqueued event i = Ok i' → unique i → unique i'.
Proof.
  unfold apply_enqueued. intros Ha Hu. invert_ok.
  destruct (find _ i) eqn:Hf; invert_ok. apply find_None in Hf.
  rewrite (inbox_ids_queue x) in Hf. apply not_elem_of_app in Hf as [Hq Ho].
  apply unique_set_queue; [done|..]; unfold ids in *; rewrite fmap_app.
  - apply NoDup_app. split_and!; [by apply unique_queue| |apply NoDup_singleton].
    intros y Hy Hy'%list_elem_of_singleton. by subst.
  - intros y [Hy|Hy%list_elem_of_singleton]%elem_of_app; [|by subst].
    by eapply unique_other.
Qed.

(** An inserted message collides with nothing that stays. *)
Lemma inserted_fresh i target start removed m :
  unique i →
  (m_id m ∉ inbox_ids i ∨
   (∃ n, find (m_id m) i = Some (target, n) ∧ (start ≤ n < start + removed)))%nat →
  (m_id m ∉ ids (take start (queue target i) ++ drop (start + removed) (queue target i))) ∧
  (m_id m ∉ ids (queue (other target) i)).
Proof.
  intros Hu. pose proof (unique_queue target i Hu) as Hq.
  intros [Hn|(n & Hf & Hn)].
  - rewrite (inbox_ids_queue target) in Hn. apply not_elem_of_app in Hn as [Hn Ho].
    split; [|done]. intros Hin. apply Hn. eapply elem_of_sublist; [done|].
    apply fmap_sublist, splice_sublist. lia.
  - apply find_Some in Hf as (x & Hx & Hid). rewrite <-Hid. split.
    + unfold ids. rewrite fmap_app. by eapply kept_not_removed.
    + apply unique_other; [done|]. apply list_elem_of_fmap. exists x.
      split; [done|]. by eapply list_elem_of_lookup_2.
Qed.

Lemma range_unique event i i' : apply_range event i = Ok i' → unique i → unique i'.
Proof.
  unfold apply_range. intros Ha Hu. invert_ok.
  match goal with Hc : check_inserted _ ?t ?s ?r _ ?ins = Ok _ |- _ =>
    apply check_inserted_Ok in Hc as [Hnd Hall]; [|constructor]; simpl in Hnd;
    set (target := t) in *; set (start := s) in *; set (removed := r) in *;
    rename ins into inserted end.
  set (kept := take start (queue target i) ++ drop (start + removed) (queue target i)).
  assert (kept `sublist_of` queue target i) as Hkept by (apply splice_sublist; lia).
  apply (fmap_sublist m_id) in Hkept. pose proof (unique_queue target i Hu) as Hq.
  assert (Hids : ids (take start (queue target i) ++ inserted
                      ++ drop (start + removed) (queue target i))
                 ≡ₚ ids inserted ++ ids kept).
  { unfold ids, kept. rewrite !fmap_app. rewrite !(Permutation_app_comm (m_id <$> inserted)).
    by rewrite <-app_assoc. }
  assert (∀ m, m ∈ inserted →
    (m_id m ∉ ids kept) ∧ (m_id m ∉ ids (queue (other target) i))) as Hfresh.
  { intros m Hm. apply inserted_fresh; [done|]. by eapply Forall_forall in Hall. }
  apply unique_set_queue; [done|..]; rewrite ?Hids.
  - apply NoDup_app. split_and!; [done| |by eapply sublist_NoDup].
    intros y (m & -> & Hm)%list_elem_of_fmap. by apply Hfresh.
  - intros y. rewrite Hids, elem_of_app. intros [(m & -> & Hm)%list_elem_of_fmap|Hy].
    + by apply Hfresh.
    + apply unique_other; [done|]. by eapply elem_of_sublist.
Qed.

Lemma item_unique event i i' : apply_item event i = Ok i' → unique i → unique i'.
Proof.
  unfold apply_item. intros Ha Hu. invert_ok.
  destruct (find _ i) as [[t n]|] eqn:Hf; [|done].
  pose proof (find_Some _ _ _ _ Hf) as (m & Hm & Hid).
  repeat match goal with H : (if ?b then _ else _) = Ok _ |- _ => destruct b eqn:?; invert_ok end.
  all: repeat match goal with
    | H : bool_decide _ = false |- _ => apply bool_decide_eq_false, dec_stable in H; subst
    | H : String.eqb (m_id _) (m_id _) = true |- _ => apply String.eqb_eq in H
    end; simpl in *.
  - unfold unique, inbox_ids in *; simpl. rewrite (ids_split _ _ _ Hm) in Hu.
    unfold ids in *. rewrite fmap_app. simpl.
    match goal with Hx : m_id _ = m_id m |- _ => rewrite Hx end.
    by rewrite app_assoc, <-Permutation_cons_append.
  - apply unique_set_sublist; [|done]. by erewrite ids_insert.
  - apply unique_set_sublist; [|done]. apply ids_delete_sublist.
Qed.

Lemma remove_unique id i : unique i → unique (remove id i).
Proof. apply unique_sublist; apply fmap_sublist, remove_first_sublist. Qed.

Lemma apply_unique event i i' : apply i event = Ok i' → unique i → unique i'.
Proof.
  unfold apply. repeat case_match; intros Ha; simplify_eq; try done.
  - by eapply enqueued_unique.
  - by eapply range_unique.
  - by eapply item_unique.
  - apply remove_unique.
Qed.

Lemma replay_unique events i : replay events = Ok i → unique i.
Proof.
  unfold replay. apply (foldM_inv _ (λ _ i, unique i)); [constructor|].
  intros _ s x s' Hs Hx. by eapply apply_unique.
Qed.
End unique.

(** *** The effect of single operations *)

Lemma remove_first_filter id q :
  NoDup (ids q) → remove_first id q = filter (λ m, m_id m ≠ id) q.
Proof.
  unfold remove_first, index_of, ids.
  induction q as [|m q IH]; intros Hnd; [done|]. apply NoDup_cons in Hnd as [Hm Hnd].
  simpl. destruct (String.eqb_spec (m_id m) id) as [Hid|Hid]; simpl.
  - rewrite filter_cons_False by auto. symmetry. apply filter_Forall, Forall_forall.
    intros x Hx Heq. apply Hm. apply list_elem_of_fmap. exists x. split; [congruence|done].
  - rewrite filter_cons_True by auto. rewrite <-IH by done.
    by destruct (position _ q).
Qed.

Section steer.
Context `{ProtocolWire}.

Lemma steer_moves event i i' :
  event_type event = "agent/inbox/spliced" →
  get_str "action" (ev_data event) = Some "steer" →
  apply i event = Ok i' →
  ∃ before m m' after,
    followups i = before ++ m :: after ∧ followups i' = before ++ after ∧
    steps i' = steps i ++ [m'] ∧ m_id m' = m_id m ∧ message_eqb m' m = true.
Proof.
  intros Ht Hact. unfold apply. rewrite Ht. simpl.
  assert (is_some (get "action" (ev_data event)) = true) as ->.
  { unfold get_str in Hact. unfold is_some. destruct (get _ _); [|done]. done. }
  simpl. unfold apply_item. rewrite Hact. intros Ha. invert_ok.
  destruct (find _ i) as [[t n]|] eqn:Hf; [|done].
  apply find_Some in Hf as (m & Hm & Hid). simpl in *.
  invert_ok. simpl in *.
  repeat match goal with
  | H : bool_decide _ = false |- _ => apply bool_decide_eq_false, dec_stable in H; subst
  end.
  simpl in Hm. simplify_eq.
  match goal with Hx : message_eqb ?x m = true |- _ =>
    exists (take n (followups i)), m, x, (drop (S n) (followups i)) end.
  match goal with Hx : String.eqb _ _ = true |- _ => apply String.eqb_eq in Hx end.
  split_and!; [by rewrite take_drop_middle|by apply delete_take_drop|done..].
Qed.
End steer.
