(* ===== verification/Projection.v ===== *)
(** * Projections (projection.rs): JSON states folded over a session's events

    A registry of named, versioned, pure callbacks; for every attached session
    one state per definition, advanced event by event, with a frame kept for
    each observable change.  The callbacks are the clients' code: they are
    fields of [ProjectionDefinition], so every statement quantifies over them.
    The [apply_gate] mutex makes one event's work atomic.  A panic ([expect])
    is the outcome [None]. *)

From S2P Require Import Prelude Json Protocol Session.

(** ** Errors *)

Inductive ProjectionError :=
| EEmptyKey
| EAlreadyRegistered (key : string)
| ENotRegistered (key : string)
| ENotAttached (session_id : SessionId) (key : string)
| ECallback (reason : string)
| EFullRereadRequired (session_id : SessionId) (key : string) (base_seq : N)
| EShutdown.

Definition ProjectionError_code (e : ProjectionError) : string :=
  match e with
  | EEmptyKey => "INVALID_PROJECTION_KEY"
  | EAlreadyRegistered _ => "PROJECTION_ALREADY_REGISTERED"
  | ENotRegistered _ => "PROJECTION_NOT_REGISTERED"
  | ENotAttached _ _ => "PROJECTION_NOT_ATTACHED"
  | ECallback _ => "PROJECTION_CALLBACK_FAILED"
  | EFullRereadRequired _ _ _ => "PROJECTION_FULL_REREAD_REQUIRED"
  | EShutdown => "PROJECTION_SHUTDOWN"
  end.

(** ** Data *)

Record ProjectionDefinition := mkDefinition {
  pd_key : string;
  pd_state_version : N;
  pd_init : SessionHeader → result ProjectionError Value;
  pd_apply : Value → SessionEvent → result ProjectionError Value;
  pd_view : Value → result ProjectionError Value;
}.

Record ProjectionCheckpoint := mkCheckpoint {
  cp_session_id : SessionId;
  cp_key : string;
  cp_state_version : N;
  cp_as_of_seq : option N;
  cp_state : Value;
}.

Record ProjectionSnapshot := mkSnapshot {
  sn_session_id : SessionId;
  sn_key : string;
  sn_state_version : N;
  sn_as_of_seq : option N;
  sn_state : Value;
  sn_view : Value;
}.

Record StateFrame := mkFrame { fr_as_of_seq : option N; fr_state : Value }.

Record ProjectionState := mkProjection {
  ps_state_version : N;
  ps_state : Value;
  ps_last_seq : option N;
  ps_frames : list StateFrame;
  ps_last_error : option ProjectionError;
}.

Record AttachedSession := mkAttached {
  at_header : SessionHeader;
  at_projections : gmap string ProjectionState;
}.

(** [reg_observed] lists the sessions with an observer task ([subscriptions]). *)
Record ProjectionRegistry := mkRegistry {
  reg_definitions : gmap string ProjectionDefinition;
  reg_sessions : gmap SessionId AttachedSession;
  reg_observed : list SessionId;
  reg_shutdown : bool;
}.

Definition ProjectionRegistry_new : ProjectionRegistry := mkRegistry ∅ ∅ [] false.

Definition set_sessions (sessions : gmap SessionId AttachedSession) (r : ProjectionRegistry) :
    ProjectionRegistry :=
  mkRegistry (reg_definitions r) sessions (reg_observed r) (reg_shutdown r).

(** One projection of one attached session, and its replacement. *)
Definition projection_of (r : ProjectionRegistry) (id : SessionId) (key : string) :
    option ProjectionState :=
  attached ← reg_sessions r !! id; at_projections attached !! key.
Definition put_projection (id : SessionId) (attached : AttachedSession) (key : string)
    (p : ProjectionState) (r : ProjectionRegistry) : ProjectionRegistry :=
  set_sessions
    (<[id := mkAttached (at_header attached) (<[key := p]> (at_projections attached))]>
       (reg_sessions r)) r.

(** The state a definition starts from, and the one a checkpoint resumes. *)
Definition initial_projection (d : ProjectionDefinition) (initial : Value) : ProjectionState :=
  mkProjection (pd_state_version d) initial None [mkFrame None initial] None.
Definition checkpoint_projection (d : ProjectionDefinition) (c : ProjectionCheckpoint) :
    ProjectionState :=
  mkProjection (pd_state_version d) (cp_state c) (cp_as_of_seq c)
    [mkFrame (cp_as_of_seq c) (cp_state c)] None.

(** ** Registration *)

Definition register (d : ProjectionDefinition) (r : ProjectionRegistry) :
    result ProjectionError unit * ProjectionRegistry :=
  if blank (pd_key d) then (Err EEmptyKey, r)
  else match reg_definitions r !! pd_key d with
       | Some _ => (Err (EAlreadyRegistered (pd_key d)), r)
       | None =>
           (Ok tt, mkRegistry (<[pd_key d := d]> (reg_definitions r)) (reg_sessions r)
                     (reg_observed r) (reg_shutdown r))
       end.

Definition definition (r : ProjectionRegistry) (key : string) :
    result ProjectionError ProjectionDefinition :=
  ok_or (reg_definitions r !! key) (ENotRegistered key).

(** ** Applying one event *)

(** [state.last_seq.is_none_or(|seq| event.seq > seq)]. *)
Definition is_new (event : SessionEvent) (p : ProjectionState) : bool :=
  match ps_last_seq p with None => true | Some seq => (seq <? ev_seq event)%N end.

(** The work list: the definitions whose state has not seen the event, in key
    order, each with its current state. *)
Definition collect_work (event : SessionEvent) (attached : AttachedSession)
    (r : ProjectionRegistry) : list (ProjectionDefinition * Value) :=
  omap (λ kd : string * ProjectionDefinition,
    p ← at_projections attached !! kd.1;
    if is_new event p then Some (kd.2, ps_state p) else None)
    (btree_list (reg_definitions r)).

(** A state equal to the previous one moves [last_seq] without a frame. *)
Definition advance (event : SessionEvent) (next : Value) (p : ProjectionState) :
    ProjectionState :=
  if value_eqb (ps_state p) next then
    mkProjection (ps_state_version p) (ps_state p) (Some (ev_seq event)) (ps_frames p)
      (ps_last_error p)
  else
    mkProjection (ps_state_version p) next (Some (ev_seq event))
      (ps_frames p ++ [mkFrame (Some (ev_seq event)) next]) (ps_last_error p).

Fixpoint apply_work (id : SessionId) (event : SessionEvent)
    (work : list (ProjectionDefinition * Value)) (r : ProjectionRegistry) :
    result ProjectionError unit * ProjectionRegistry :=
  match work with
  | [] => (Ok tt, r)
  | (d, current) :: rest =>
      match pd_apply d current event with
      | Err e => (Err e, r)
      | Ok next =>
          match reg_sessions r !! id with
          | None => (Err (ENotAttached id (pd_key d)), r)
          | Some attached =>
              match at_projections attached !! pd_key d with
              | None => (Err (ENotAttached id (pd_key d)), r)
              | Some p =>
                  if is_new event p then
                    apply_work id event rest
                      (put_projection id attached (pd_key d) (advance event next p) r)
                  else apply_work id event rest r
              end
          end
      end
  end.

Definition apply_event_locked (id : SessionId) (event : SessionEvent)
    (r : ProjectionRegistry) : result ProjectionError unit * ProjectionRegistry :=
  match reg_sessions r !! id with
  | None => (Err (ENotAttached id "*"), r)
  | Some attached => apply_work id event (collect_work event attached r) r
  end.

(** [for event in events { self.apply_event_locked(..)?; }]. *)
Fixpoint apply_events (id : SessionId) (events : list SessionEvent) (r : ProjectionRegistry) :
    result ProjectionError unit * ProjectionRegistry :=
  match events with
  | [] => (Ok tt, r)
  | event :: rest =>
      match apply_event_locked id event r with
      | (Err e, r') => (Err e, r')
      | (Ok _, r') => apply_events id rest r'
      end
  end.

Definition replay_locked (session : Session) (r : ProjectionRegistry) :
    result ProjectionError unit * ProjectionRegistry :=
  apply_events (h_id (s_header session)) (st_events (s_state session)) r.

(** ** Attaching sessions *)

Definition add_initial (header : SessionHeader) (projections : gmap string ProjectionState)
    (d : ProjectionDefinition) : result ProjectionError (gmap string ProjectionState) :=
  initial ← pd_init d header;
  Ok (<[pd_key d := initial_projection d initial]> projections).
Definition initial_projections (header : SessionHeader) (r : ProjectionRegistry) :
    result ProjectionError (gmap string ProjectionState) :=
  foldM (add_initial header) ∅ (btree_values (reg_definitions r)).

Definition attach (session : Session) (r : ProjectionRegistry) :
    result ProjectionError unit * ProjectionRegistry :=
  let header := s_header session in
  let id := h_id header in
  if reg_shutdown r then (Err EShutdown, r)
  else match reg_sessions r !! id with
       | Some _ => (Ok tt, r)
       | None =>
           match initial_projections header r with
           | Err e => (Err e, r)
           | Ok projections =>
               let r1 := set_sessions
                 (<[id := mkAttached header projections]> (reg_sessions r)) r in
               match replay_locked session r1 with
               | (Err e, r2) => (Err e, r2)
               | (Ok _, r2) =>
                   (Ok tt, mkRegistry (reg_definitions r2) (reg_sessions r2)
                             (reg_observed r2 ++ [id]) (reg_shutdown r2))
               end
           end
       end.

Fixpoint attach_all (sessions : list Session) (r : ProjectionRegistry) :
    result ProjectionError unit * ProjectionRegistry :=
  match sessions with
  | [] => (Ok tt, r)
  | session :: rest =>
      match attach session r with
      | (Err e, r') => (Err e, r')
      | (Ok _, r') => attach_all rest r'
      end
  end.

Definition attach_store {S} (store : SessionStore S) (r : ProjectionRegistry) :
    result ProjectionError unit * ProjectionRegistry :=
  attach_all (Store.list_live store) r.

Definition shutdown (r : ProjectionRegistry) : ProjectionRegistry :=
  mkRegistry (reg_definitions r) (reg_sessions r) [] true.

(** ** Observing appends *)

Definition record_error (id : SessionId) (error : ProjectionError) (r : ProjectionRegistry) :
    ProjectionRegistry :=
  match reg_sessions r !! id with
  | None => r
  | Some attached =>
      set_sessions
        (<[id := mkAttached (at_header attached)
             ((λ p, mkProjection (ps_state_version p) (ps_state p) (ps_last_seq p)
                      (ps_frames p) (Some error)) <$> at_projections attached)]>
           (reg_sessions r)) r
  end.

(** What the broadcast receiver of an observer yields. *)
Inductive received :=
| Received (event : SessionEvent)
| Lagged.

(** One turn of [observe_session]: errors are contained. *)
Definition observe (session : Session) (m : received) (r : ProjectionRegistry) :
    ProjectionRegistry :=
  let id := h_id (s_header session) in
  match (match m with
         | Received event => apply_event_locked id event r
         | Lagged => replay_locked session r
         end) with
  | (Ok _, r') => r'
  | (Err error, r') => record_error id error r'
  end.

Definition last_error (id : SessionId) (key : string) (r : ProjectionRegistry) :
    result ProjectionError (option ProjectionError) :=
  ps_last_error <$> ok_or (projection_of r id key) (ENotAttached id key).

(** ** Snapshots *)

(** [frame.as_of_seq.is_none_or(|at| at <= seq)]. *)
Definition at_or_before (seq : N) (f : StateFrame) : bool :=
  match fr_as_of_seq f with None => true | Some at_ => (at_ <=? seq)%N end.

(** [frames.last()], or [frames.iter().rev().find(..)]. *)
Definition find_frame (as_of : option N) (frames : list StateFrame) : option StateFrame :=
  match as_of with
  | None => last frames
  | Some seq => List.find (at_or_before seq) (reverse frames)
  end.

(** [None] is the panic of [expect] on a state without a suitable frame. *)
Definition snapshot_as_of (id : SessionId) (key : string) (as_of : option N)
    (r : ProjectionRegistry) : option (result ProjectionError ProjectionSnapshot) :=
  match reg_sessions r !! id with
  | None => Some (Err (ENotAttached id key))
  | Some attached =>
      match at_projections attached !! key with
      | None => Some (Err (ENotAttached id key))
      | Some p =>
          match find_frame as_of (ps_frames p) with
          | None => None
          | Some frame => Some (
              d ← definition r key;
              view ← pd_view d (fr_state frame);
              Ok {| sn_session_id := h_id (at_header attached); sn_key := key;
                    sn_state_version := ps_state_version p;
                    sn_as_of_seq := fr_as_of_seq frame; sn_state := fr_state frame;
                    sn_view := view |})
          end
      end
  end.

Definition snapshot (id : SessionId) (key : string) (r : ProjectionRegistry) :
    option (result ProjectionError ProjectionSnapshot) := snapshot_as_of id key None r.
Definition as_of_seq (id : SessionId) (key : string) (seq : N) (r : ProjectionRegistry) :
    option (result ProjectionError ProjectionSnapshot) := snapshot_as_of id key (Some seq) r.

(** [keys.map(..).collect()]: the first error or panic ends the iteration. *)
Fixpoint snapshot_keys (id : SessionId) (keys : list string) (as_of : option N)
    (r : ProjectionRegistry) : option (result ProjectionError (list ProjectionSnapshot)) :=
  match keys with
  | [] => Some (Ok [])
  | key :: rest =>
      match snapshot_as_of id key as_of r with
      | None => None
      | Some (Err e) => Some (Err e)
      | Some (Ok s) =>
          match snapshot_keys id rest as_of r with
          | None => None
          | Some (Err e) => Some (Err e)
          | Some (Ok l) => Some (Ok (s :: l))
          end
      end
  end.
Definition snapshots (id : SessionId) (as_of : option N) (r : ProjectionRegistry) :
    option (result ProjectionError (list ProjectionSnapshot)) :=
  snapshot_keys id (btree_keys (reg_definitions r)) as_of r.

Definition checkpoint (id : SessionId) (key : string) (r : ProjectionRegistry) :
    option (result ProjectionError ProjectionCheckpoint) :=
  match snapshot id key r with
  | None => None
  | Some (Err e) => Some (Err e)
  | Some (Ok s) =>
      Some (Ok (mkCheckpoint (sn_session_id s) (sn_key s) (sn_state_version s)
                  (sn_as_of_seq s) (sn_state s)))
  end.

(** ** Restoring a checkpoint *)

Definition reset_projection (session : Session) (d : ProjectionDefinition)
    (r : ProjectionRegistry) : result ProjectionError unit * ProjectionRegistry :=
  let id := h_id (s_header session) in
  match pd_init d (s_header session) with
  | Err e => (Err e, r)
  | Ok initial =>
      match reg_sessions r !! id with
      | None => (Err (ENotAttached id (pd_key d)), r)
      | Some attached =>
          (Ok tt, put_projection id attached (pd_key d) (initial_projection d initial) r)
      end
  end.

(** [as_of_seq.map_or(0, |seq| seq.saturating_add(1))]. *)
Definition checkpoint_next (c : ProjectionCheckpoint) : N :=
  match cp_as_of_seq c with None => 0%N | Some seq => u64_saturating_add seq 1 end.

Definition restore_floor (session : Session) (c : ProjectionCheckpoint) (floor : N)
    (r : ProjectionRegistry) : result ProjectionError unit * ProjectionRegistry :=
  let id := h_id (s_header session) in
  match definition r (cp_key c) with
  | Err e => (Err e, r)
  | Ok d =>
      if negb (String.eqb (cp_session_id c) id)
         || negb (cp_state_version c =? pd_state_version d)%N then
        if negb (floor =? 0)%N then
          (Err (EFullRereadRequired id (cp_key c) floor), r)
        else
          match reset_projection session d r with
          | (Err e, r') => (Err e, r')
          | (Ok _, r') => replay_locked session r'
          end
      else if (checkpoint_next c <? floor)%N then
        (Err (EFullRereadRequired id (cp_key c) floor), r)
      else
        match reg_sessions r !! id with
        | None => (Err (ENotAttached id (pd_key d)), r)
        | Some attached =>
            replay_locked session
              (put_projection id attached (pd_key d) (checkpoint_projection d c) r)
        end
  end.

Definition restore (session : Session) (c : ProjectionCheckpoint) (r : ProjectionRegistry) :
    result ProjectionError unit * ProjectionRegistry :=
  restore_floor session c (checkpoint_next c) r.
