(* ===== verification/ProjectionFacts.v ===== *)
(** * Projections as folds: the lemmas

    The registry-level loop is, projection by projection, a fold of
    [step_projection]; that fold computes the plain fold of the callback up to
    equality of JSON values, and its frames answer every earlier log point. *)

From S2P Require Import Prelude Json Protocol Session Projection.

(** ** One projection *)

Definition step_projection (d : ProjectionDefinition) (p : ProjectionState)
    (event : SessionEvent) : result ProjectionError ProjectionState :=
  if is_new event p then
    next ← pd_apply d (ps_state p) event; Ok (advance event next p)
  else Ok p.

(** The reference: the callback folded over the events. *)
Definition fold_state (d : ProjectionDefinition) (v : Value) (events : list SessionEvent) :
    result ProjectionError Value := foldM (pd_apply d) v events.

(** ** The registry loop is a fold per projection *)

Definition registry_wf (r : ProjectionRegistry) : Prop :=
  ∀ k d, reg_definitions r !! k = Some d → pd_key d = k.

(** What one event does to one key. *)
Definition key_step (r : ProjectionRegistry) (at_ at' : AttachedSession)
    (event : SessionEvent) (key : string) : Prop :=
  match at_projections at_ !! key, reg_definitions r !! key with
  | Some p, Some d =>
      ∃ p', step_projection d p event = Ok p' ∧ at_projections at' !! key = Some p'
  | o, _ => at_projections at' !! key = o
  end.

Definition work_keys (work : list (ProjectionDefinition * Value)) : list string :=
  (λ w, pd_key w.1) <$> work.

Lemma apply_work_Ok id event work r r' at_ :
  reg_sessions r !! id = Some at_ →
  NoDup (work_keys work) →
  Forall (λ w, ∃ p, at_projections at_ !! pd_key w.1 = Some p ∧ ps_state p = w.2 ∧
                    is_new event p = true) work →
  apply_work id event work r = (Ok tt, r') →
  ∃ at', r' = set_sessions (<[id := at']> (reg_sessions r)) r ∧
    at_header at' = at_header at_ ∧
    (∀ key, key ∉ work_keys work → at_projections at' !! key = at_projections at_ !! key) ∧
    Forall (λ w, ∃ p next, at_projections at_ !! pd_key w.1 = Some p ∧
      pd_apply w.1 (ps_state p) event = Ok next ∧
      at_projections at' !! pd_key w.1 = Some (advance event next p)) work.
Proof.
  revert r at_. induction work as [|[d current] work IH]; intros r at_ Hat Hnd Hall; simpl.
  { intros [= <-]. exists at_. rewrite insert_id by done. by destruct r. }
  apply Forall_cons in Hall as [(p & Hp & Hcur & Hnew) Hall]. simpl in *.
  apply NoDup_cons in Hnd as [Hd Hnd].
  destruct (pd_apply d current event) as [next|] eqn:Hnext; [|done].
  rewrite Hat, Hp, Hnew. intros Hw.
  assert (∀ k, k ≠ pd_key d →
    <[pd_key d := advance event next p]> (at_projections at_) !! k = at_projections at_ !! k)
    as Hne by (intros; by rewrite lookup_insert_ne).
  eapply IH in Hw as (at' & -> & Hh & Hkeep & Hdone); [|apply lookup_insert_eq|done|].
  - exists at'. split_and!.
    + unfold put_projection, set_sessions. simpl. by rewrite insert_insert_eq.
    + by rewrite Hh.
    + intros key [Hk1 Hk2]%not_elem_of_cons. rewrite Hkeep by done. by apply Hne.
    + apply Forall_cons. split.
      * exists p, next. subst current. split_and!; [done..|]. simpl. rewrite Hkeep by done.
        apply lookup_insert_eq.
      * apply Forall_forall. intros w Hw. eapply Forall_forall in Hdone; [|done].
        destruct Hdone as (p' & n' & Hp' & ? & ?). simpl in Hp'.
        rewrite Hne in Hp'; [by exists p', n'|]. intros Heq. apply Hd.
        apply list_elem_of_fmap. by exists w.
  - apply Forall_forall. intros w Hw'. eapply Forall_forall in Hall; [|done]. simpl.
    rewrite Hne; [done|]. intros Heq. apply Hd. apply list_elem_of_fmap. by exists w.
Qed.

Lemma elem_of_collect_work event at_ r w :
  w ∈ collect_work event at_ r ↔
  ∃ k p, reg_definitions r !! k = Some w.1 ∧ at_projections at_ !! k = Some p ∧
         is_new event p = true ∧ w.2 = ps_state p.
Proof.
  unfold collect_work. rewrite list_elem_of_omap. split.
  - intros ([k d] & Hin%elem_of_btree_list & Hw). simpl in Hw.
    destruct (at_projections at_ !! k) as [p|] eqn:Hp; [|done]. simpl in Hw.
    destruct (is_new event p) eqn:Hn; simplify_eq/=. by exists k, p.
  - intros (k & p & Hd & Hp & Hn & Hw). exists (k, w.1).
    rewrite elem_of_btree_list. split; [done|]. simpl. rewrite Hp. simpl. rewrite Hn.
    destruct w; by simplify_eq/=.
Qed.

Lemma collect_work_NoDup event at_ r :
  registry_wf r → NoDup (work_keys (collect_work event at_ r)).
Proof.
  intros Hwf. unfold work_keys, collect_work.
  pose proof (NoDup_btree_keys (reg_definitions r)) as Hnd. unfold btree_keys in Hnd.
  assert (Forall (λ kd, pd_key kd.2 = kd.1) (btree_list (reg_definitions r))) as Hk.
  { apply Forall_forall. intros [k d] Hin%elem_of_btree_list. by apply Hwf. }
  eapply sublist_NoDup; [exact Hnd|]. clear Hnd.
  induction Hk as [|[k d] l Hk _ IH]; simpl in *; [constructor|].
  destruct (at_projections at_ !! k) as [p|]; simpl; [|by constructor].
  destruct (is_new event p); simpl; [rewrite Hk|]; by constructor.
Qed.

Lemma apply_event_Ok id event r r' at_ :
  registry_wf r → reg_sessions r !! id = Some at_ →
  apply_event_locked id event r = (Ok tt, r') →
  ∃ at', r' = set_sessions (<[id := at']> (reg_sessions r)) r ∧
    at_header at' = at_header at_ ∧ ∀ key, key_step r at_ at' event key.
Proof.
  intros Hwf Hat. unfold apply_event_locked. rewrite Hat. intros Hw.
  eapply apply_work_Ok in Hw as (at' & -> & Hh & Hkeep & Hdone);
    [|done|by apply collect_work_NoDup|].
  - exists at'. split_and!; [done..|]. intros key. unfold key_step.
    assert (key ∉ work_keys (collect_work event at_ r) →
      at_projections at' !! key = at_projections at_ !! key) as Hk by apply Hkeep.
    destruct (at_projections at_ !! key) as [p|] eqn:Hp; cycle 1.
    { rewrite Hk; [done|]. intros (w & -> & Hin)%list_elem_of_fmap.
      eapply Forall_forall in Hdone as (? & ? & ? & _); [|done]. simplify_eq. }
    destruct (reg_definitions r !! key) as [d|] eqn:Hd; cycle 1.
    { rewrite Hk; [done|]. intros (w & -> & (k & q & Hkd & _)%elem_of_collect_work)%list_elem_of_fmap.
      rewrite (Hwf _ _ Hkd) in Hd. congruence. }
    unfold step_projection. destruct (is_new event p) eqn:Hn.
    + eapply (Forall_forall _ _) in Hdone as (q & next & Hq & Ha & Hres);
        [|apply (elem_of_collect_work _ _ _ (d, ps_state p)); by exists key, p].
      simpl in *. rewrite (Hwf _ _ Hd) in *. simplify_eq. rewrite Ha. simpl. eauto.
    + exists p. split; [done|]. rewrite Hk; [done|].
      intros (w & Hkey & (k & q & Hkd & Hq & Hnq & _)%elem_of_collect_work)%list_elem_of_fmap.
      rewrite (Hwf _ _ Hkd) in Hkey. simplify_eq. congruence.
  - apply Forall_forall. intros w (k & p & Hd & Hp & Hn & Hcur)%elem_of_collect_work.
    rewrite (Hwf _ _ Hd). by exists p.
Qed.

(** A projection that has a definition folds all the events. *)
Lemma apply_events_Ok id events r r' at_ :
  registry_wf r → reg_sessions r !! id = Some at_ →
  apply_events id events r = (Ok tt, r') →
  ∃ at', r' = set_sessions (<[id := at']> (reg_sessions r)) r ∧
    at_header at' = at_header at_ ∧
    ∀ key p d, at_projections at_ !! key = Some p → reg_definitions r !! key = Some d →
      ∃ p', foldM (step_projection d) p events = Ok p' ∧ at_projections at' !! key = Some p'.
Proof.
  revert r at_. induction events as [|e events IH]; intros r at_ Hwf Hat; simpl.
  { intros [= <-]. exists at_. rewrite insert_id by done. split_and!; [by destruct r|done|].
    eauto. }
  destruct (apply_event_locked id e r) as [[[]|] r1] eqn:He; [|done]. intros Hes.
  eapply apply_event_Ok in He as (at1 & -> & Hh1 & Hk1); [|done..].
  eapply IH in Hes as (at' & -> & Hh & Hk); [|done|apply lookup_insert_eq].
  exists at'. split_and!; [|congruence|].
  - unfold set_sessions. simpl. by rewrite insert_insert_eq.
  - intros key p d Hp Hd. specialize (Hk1 key). unfold key_step in Hk1. rewrite Hp, Hd in Hk1.
    destruct Hk1 as (p1 & Hs & Hp1). destruct (Hk key p1 d Hp1 Hd) as (p' & Hf & Hp').
    exists p'. by rewrite Hs.
Qed.

(** Attaching runs every definition over the whole log. *)
Lemma initial_projections_Ok header r projections :
  registry_wf r → initial_projections header r = Ok projections →
  ∀ key d, reg_definitions r !! key = Some d →
    ∃ v, pd_init d header = Ok v ∧ projections !! key = Some (initial_projection d v).
Proof.
  intros Hwf Hi. unfold initial_projections, btree_values in Hi.
  assert (∀ l m, NoDup (pd_key <$> l) →
    foldM (add_initial header) ∅ l = Ok m →
    Forall (λ d, ∃ v, pd_init d header = Ok v ∧
                      m !! pd_key d = Some (initial_projection d v)) l) as Hall.
  { intros l m Hnd. revert m. induction l as [|d l IH] using rev_ind; intros m; [done|].
    rewrite foldM_snoc. rewrite fmap_app in Hnd. simpl in Hnd.
    apply NoDup_app in Hnd as (Hnd & Hd & _). intros (m' & Hm' & Hs)%bind_Ok.
    apply bind_Ok in Hs as (v & Hv & [= <-]). specialize (IH Hnd m' Hm').
    apply Forall_app. split.
    - apply Forall_forall. intros x Hx. eapply Forall_forall in IH as (w & Hw & Hl); [|done].
      exists w. split; [done|]. rewrite lookup_insert_ne; [done|]. intros Heq.
      apply (Hd (pd_key x)); [apply list_elem_of_fmap; by exists x|]. rewrite Heq.
      by apply list_elem_of_singleton.
    - repeat constructor. exists v. split; [done|]. apply lookup_insert_eq. }
  assert (pd_key <$> (btree_list (reg_definitions r)).*2 = (btree_list (reg_definitions r)).*1)
    as Hkeys.
  { rewrite <-list_fmap_compose. apply list_fmap_ext. intros i [k d] Hl. simpl.
    apply Hwf, elem_of_btree_list. by eapply list_elem_of_lookup_2. }
  apply Hall in Hi; [|rewrite Hkeys; apply NoDup_btree_keys].
  intros key d Hd. eapply Forall_forall in Hi; [|].
  - rewrite (Hwf _ _ Hd) in Hi. exact Hi.
  - apply list_elem_of_fmap. exists (key, d). split; [done|]. by apply elem_of_btree_list.
Qed.

Lemma attach_Ok session r r' :
  registry_wf r → reg_sessions r !! h_id (s_header session) = None →
  attach session r = (Ok tt, r') →
  ∃ at_, r' = mkRegistry (reg_definitions r)
               (<[h_id (s_header session) := at_]> (reg_sessions r))
               (reg_observed r ++ [h_id (s_header session)]) (reg_shutdown r) ∧
    at_header at_ = s_header session ∧
    ∀ key d, reg_definitions r !! key = Some d →
    ∃ v p, pd_init d (s_header session) = Ok v ∧
      foldM (step_projection d) (initial_projection d v) (st_events (s_state session)) = Ok p ∧
      at_projections at_ !! key = Some p.
Proof.
  intros Hwf Hnone. unfold attach. destruct (reg_shutdown r) eqn:Hsd; [done|]. rewrite Hnone.
  destruct (initial_projections _ _) as [projections|] eqn:Hi; [|done].
  destruct (replay_locked _ _) as [[[]|] r2] eqn:Hr; [|done]. intros [= <-].
  eapply apply_events_Ok in Hr as (at' & -> & Hh & Hk); [|done|apply lookup_insert_eq].
  exists at'. unfold set_sessions. simpl. rewrite insert_insert_eq, Hsd.
  split_and!; [done..|]. intros key d Hd.
  destruct (initial_projections_Ok _ _ _ Hwf Hi _ _ Hd) as (v & Hv & Hp).
  destruct (Hk key _ d Hp Hd) as (p & Hf & Hp'). by exists v, p.
Qed.

(** ** The fold of one projection *)

Definition after (from : option N) (event : SessionEvent) : Prop :=
  match from with None => True | Some seq => (seq < ev_seq event)%N end.
#[export] Instance after_dec from event : Decision (after from event).
Proof. destruct from; simpl; apply _. Defined.

(** The events in strictly increasing order of sequence number. *)
Definition ordered (events : list SessionEvent) : Prop :=
  StronglySorted (λ e e', ev_seq e < ev_seq e')%N events.

Lemma contiguous_ordered events : contiguous events → ordered events.
Proof.
  intros Hc. assert (∀ n, (∀ i e, events !! i = Some e → ev_seq e = (n + N.of_nat i)%N) →
    ordered events) as Hgen.
  { clear Hc. induction events as [|e events IH]; intros n Hn; constructor.
    - apply (IH (n + 1)%N). intros i x Hx. rewrite (Hn (S i) x Hx). lia.
    - apply Forall_lookup_2. intros i x Hx. rewrite (Hn 0 e eq_refl), (Hn (S i) x Hx). lia. }
  apply (Hgen 0%N). intros i e He. by rewrite (Hc i e He).
Qed.

(** Events at or before the resumption point are skipped. *)
Lemma fold_skips d from events p :
  (match from with None => True | Some a => ∃ b, ps_last_seq p = Some b ∧ (a ≤ b)%N end) →
  foldM (step_projection d) p events = foldM (step_projection d) p (filter (after from) events).
Proof.
  revert p. induction events as [|e events IH]; intros p Hp; [done|].
  destruct (decide (after from e)) as [Ha|Ha].
  - rewrite filter_cons_True by done. simpl.
    destruct (step_projection d p e) as [p'|] eqn:Hs; [|done]. simpl. apply IH.
    destruct from as [a|]; [|done]. destruct Hp as (b & Hb & Hab).
    unfold step_projection in Hs. destruct (is_new e p) eqn:Hn; [|simplify_eq; eauto].
    invert_ok. exists (ev_seq e). unfold is_new in Hn. rewrite Hb in Hn.
    apply N.ltb_lt in Hn. split; [|lia]. unfold advance. by case_match.
  - rewrite filter_cons_False by done. simpl. destruct from as [a|]; [|done].
    destruct Hp as (b & Hb & Hab). simpl in Ha.
    unfold step_projection at 2, is_new. rewrite Hb.
    destruct (N.ltb_spec b (ev_seq e)); [lia|]. simpl. apply IH. eauto.
Qed.

(** Equality of callback results up to equality of JSON values. *)
Inductive value_result_equiv : result ProjectionError Value → result ProjectionError Value → Prop :=
| equiv_Ok v w : v ≡ w → value_result_equiv (Ok v) (Ok w)
| equiv_Err e : value_result_equiv (Err e) (Err e).

(** What the registry relies on in a callback: it does not tell equal values
    apart.  (Callbacks are documented as pure functions of JSON values.) *)
Definition callback_proper (d : ProjectionDefinition) : Prop :=
  ∀ v w e, v ≡ w → value_result_equiv (pd_apply d v e) (pd_apply d w e).

Lemma fold_state_proper d v w events :
  callback_proper d → v ≡ w → value_result_equiv (fold_state d v events) (fold_state d w events).
Proof.
  intros Hd. unfold fold_state. revert v w. induction events as [|e events IH]; intros v w Hvw.
  - by constructor.
  - simpl. destruct (Hd v w e Hvw); simpl; [by apply IH|constructor].
Qed.

(** What a projection knows after [news], when it resumed from the state [v0]
    as of [from]. *)
Definition start (ver : N) (v0 : Value) (from : option N) (err : option ProjectionError) :
    ProjectionState := mkProjection ver v0 from [mkFrame from v0] err.
Definition up_to (q : N) (events : list SessionEvent) : list SessionEvent :=
  filter (λ e, (ev_seq e ≤ q)%N) events.

Record folded (d : ProjectionDefinition) (v0 : Value) (from : option N)
    (news : list SessionEvent) (p : ProjectionState) : Prop := {
  fd_last : ps_last_seq p = match last news with Some e => Some (ev_seq e) | None => from end;
  fd_state : ∃ v, fold_state d v0 news = Ok v ∧ ps_state p ≡ v;
  fd_top : ∃ f, last (ps_frames p) = Some f ∧ fr_state f = ps_state p ∧
    (fr_as_of_seq f = from ∧ fr_state f = v0 ∨
     ∃ e, e ∈ news ∧ fr_as_of_seq f = Some (ev_seq e));
  fd_frames : ∀ q, match from with None => True | Some a => (a ≤ q)%N end →
    ∃ f v, find_frame (Some q) (ps_frames p) = Some f ∧
      fold_state d v0 (up_to q news) = Ok v ∧ fr_state f ≡ v;
}.

Lemma fold_state_snoc d v0 news e :
  fold_state d v0 (news ++ [e]) = (v ← fold_state d v0 news; pd_apply d v e).
Proof. apply foldM_snoc. Qed.

Lemma up_to_snoc q news e :
  up_to q (news ++ [e]) = if decide (ev_seq e ≤ q)%N then up_to q news ++ [e] else up_to q news.
Proof.
  unfold up_to. rewrite filter_app, filter_cons, filter_nil. case_decide; [done|].
  by rewrite app_nil_r.
Qed.

Lemma ordered_snoc news e :
  ordered (news ++ [e]) → ordered news ∧ Forall (λ x, ev_seq x < ev_seq e)%N news.
Proof.
  induction news as [|x news IH]; intros Ho; [split; [constructor|done]|].
  apply StronglySorted_inv in Ho as [Ho Hx]. destruct (IH Ho) as [Hn Hl].
  apply Forall_app in Hx as [Hx Hxe]. apply Forall_cons in Hxe as [Hxe _].
  split; [by constructor|]. constructor; [exact Hxe|exact Hl].
Qed.

Lemma up_to_all q news : Forall (λ x, ev_seq x ≤ q)%N news → up_to q news = news.
Proof. apply filter_Forall. Qed.

Lemma find_frame_snoc q frames f :
  find_frame (Some q) (frames ++ [f]) =
    if at_or_before q f then Some f else find_frame (Some q) frames.
Proof. simpl. rewrite reverse_snoc. done. Qed.

Section folding.
Context (d : ProjectionDefinition) (ver : N) (v0 : Value) (from : option N).
Context (err : option ProjectionError) (Hproper : callback_proper d).

Lemma folded_start : folded d v0 from [] (start ver v0 from err).
Proof using Type.
  split; simpl; [done|by exists v0|exists (mkFrame from v0); auto|].
  intros q Hq. exists (mkFrame from v0), v0. split_and!; [|done|done].
  unfold at_or_before. simpl. destruct from as [a|]; [|done].
  by rewrite (proj2 (N.leb_le a q) Hq).
Qed.

(** The event is new to a projection that has folded everything before it. *)
Lemma folded_is_new news p e :
  folded d v0 from news p → Forall (λ x, ev_seq x < ev_seq e)%N news → after from e →
  is_new e p = true.
Proof using Type.
  intros [Hl _ _ _] Hn Ha. unfold is_new. rewrite Hl.
  destruct news as [|x news _] using rev_ind; simpl.
  - destruct from as [a|]; [by apply N.ltb_lt|done].
  - rewrite last_snoc. apply Forall_app in Hn as [_ [Hn _]%Forall_cons]. by apply N.ltb_lt.
Qed.

Lemma folded_snoc news p e p' :
  folded d v0 from news p → Forall (λ x, ev_seq x < ev_seq e)%N news → after from e →
  step_projection d p e = Ok p' → folded d v0 from (news ++ [e]) p'.
Proof using Hproper.
  intros Hf Hn Ha. pose proof (folded_is_new _ _ _ Hf Hn Ha) as Hnew.
  unfold step_projection. rewrite Hnew. intros (next & Hnext & [= <-])%bind_Ok.
  destruct Hf as [Hl (v & Hv & Hpv) (f & Hf & Hfs & Hfa) Hfr].
  assert (∃ v', pd_apply d v e = Ok v' ∧ next ≡ v') as (v' & Hv' & Hnv).
  { pose proof (Hproper _ _ e Hpv) as Hx. rewrite Hnext in Hx. inversion Hx; subst. eauto. }
  assert (fold_state d v0 (news ++ [e]) = Ok v') as Hfold by by rewrite fold_state_snoc, Hv.
  unfold advance. destruct (value_eqb (ps_state p) next) eqn:Heq.
  - assert (ps_state p ≡ v') as Hpv' by (by etrans; [exact Heq|]).
    split; simpl; [by rewrite last_snoc|by exists v'| |].
    + exists f. split_and!; [done..|]. destruct Hfa as [?|(x & Hx & ?)]; [by left|right].
      exists x. rewrite elem_of_app. auto.
    + intros q Hq. destruct (Hfr q Hq) as (g & w & Hg & Hw & Hgw).
      rewrite up_to_snoc. case_decide as Hle; [|by exists g, w].
      rewrite up_to_all in Hw by (eapply Forall_impl; [done|]; simpl; lia).
      rewrite up_to_all by (eapply Forall_impl; [done|]; simpl; lia).
      rewrite Hv in Hw. injection Hw as <-. exists g, v'. split_and!; [done..|].
      etrans; [exact Hgw|]. etrans; [symmetry; exact Hpv|exact Hpv'].
  - split; simpl; [by rewrite last_snoc|by exists v'| |].
    + exists (mkFrame (Some (ev_seq e)) next). rewrite last_snoc. split_and!; [done..|].
      right. exists e. rewrite elem_of_app, list_elem_of_singleton. auto.
    + intros q Hq. destruct (Hfr q Hq) as (g & w & Hg & Hw & Hgw).
      rewrite up_to_snoc, reverse_snoc. simpl. unfold at_or_before at 1. simpl.
      destruct (N.leb_spec (ev_seq e) q); case_decide; try lia; [|by exists g, w].
      rewrite up_to_all by (eapply Forall_impl; [done|]; simpl; lia).
      by exists (mkFrame (Some (ev_seq e)) next), v'.
Qed.

Lemma folded_events news p :
  ordered news → Forall (after from) news →
  foldM (step_projection d) (start ver v0 from err) news = Ok p →
  folded d v0 from news p.
Proof using Hproper.
  revert p. induction news as [|e news IH] using rev_ind; intros p Ho Ha.
  { intros [= <-]. apply folded_start. }
  apply ordered_snoc in Ho as [Ho Hn]. apply Forall_app in Ha as [Ha [Hae _]%Forall_cons].
  rewrite foldM_snoc. intros (p1 & H1 & Hs)%bind_Ok.
  eapply folded_snoc; eauto.
Qed.

(** From any starting point: the events after it are folded, the others skipped. *)
Lemma folded_from events p :
  ordered events →
  foldM (step_projection d) (start ver v0 from err) events = Ok p →
  folded d v0 from (filter (after from) events) p.
Proof using Hproper.
  intros Ho. rewrite (fold_skips d from) by (simpl; destruct from; [eexists; by split|done]).
  apply folded_events.
  - clear -Ho. induction Ho as [|e events Ho IH He]; [constructor|].
    rewrite filter_cons. case_decide; [|done]. constructor; [done|].
    apply Forall_forall. intros x [_ Hx]%list_elem_of_filter. by eapply Forall_forall in He.
  - apply Forall_forall. by intros x [? _]%list_elem_of_filter.
Qed.
End folding.

(** ** Splitting a log at a point *)

Lemma ordered_split a events :
  ordered events → events = up_to a events ++ filter (after (Some a)) events.
Proof.
  induction 1 as [|e events Ho IH He]; [done|]. unfold up_to in *.
  destruct (decide (ev_seq e ≤ a)%N).
  - rewrite filter_cons_True, filter_cons_False by (simpl; lia). simpl. by f_equal.
  - rewrite (filter_cons_False (λ x, ev_seq x ≤ a)%N), filter_cons_True by (simpl; lia).
    assert (Forall (λ x, a < ev_seq x)%N events) as Hall.
    { eapply Forall_impl; [done|]. simpl. lia. }
    rewrite (filter_Forall (after (Some a))) by done.
    assert (filter (λ x, ev_seq x ≤ a)%N events = []) as ->; [|done].
    clear -Hall. induction Hall as [|x l Hx _ IH]; [done|].
    rewrite filter_cons_False by lia. done.
Qed.

Lemma up_to_app_later a events more :
  Forall (λ x, a < ev_seq x)%N more → up_to a (events ++ more) = up_to a events.
Proof.
  intros Hm. unfold up_to. rewrite filter_app.
  assert (filter (λ x, ev_seq x ≤ a)%N more = []) as ->; [|by rewrite app_nil_r].
  induction Hm as [|x l Hx _ IH]; [done|]. rewrite filter_cons_False by lia. done.
Qed.

Lemma fold_state_app d v l1 l2 :
  fold_state d v (l1 ++ l2) = (w ← fold_state d v l1; fold_state d w l2).
Proof. apply foldM_app. Qed.

(** The frame a checkpoint is taken from holds the fold of the log up to it. *)
Lemma folded_top d v0 events p f :
  folded d v0 None events p → last (ps_frames p) = Some f →
  match fr_as_of_seq f with
  | None => fr_state f = v0
  | Some a => (∃ e, e ∈ events ∧ a = ev_seq e) ∧
      ∃ v, fold_state d v0 (up_to a events) = Ok v ∧ fr_state f ≡ v
  end.
Proof.
  intros [_ _ (f' & Hf & _ & Ha) Hfr] Hl. rewrite Hl in Hf. injection Hf as <-.
  destruct Ha as [[-> ?]|(e & He & Ha)]; [done|]. rewrite Ha. split; [eauto|].
  destruct (Hfr (ev_seq e) I) as (g & v & Hg & Hv & Hgv). exists v. split; [done|].
  apply last_Some in Hl as [l Hl]. rewrite Hl, find_frame_snoc in Hg.
  unfold at_or_before in Hg. rewrite Ha, N.leb_refl in Hg. by simplify_eq.
Qed.

(** ** Registries that differ only in their observers *)

Definition set_observed (l : list SessionId) (r : ProjectionRegistry) : ProjectionRegistry :=
  mkRegistry (reg_definitions r) (reg_sessions r) l (reg_shutdown r).

Lemma apply_work_observed id event work l r :
  apply_work id event work (set_observed l r) =
    (let '(x, r') := apply_work id event work r in (x, set_observed l r')).
Proof.
  revert r. induction work as [|[d current] work IH]; intros r; simpl; [done|].
  destruct (pd_apply d current event); [|done].
  destruct (reg_sessions r !! id) as [attached|]; [|done].
  destruct (at_projections attached !! pd_key d) as [p|]; [|done].
  destruct (is_new event p); [|apply IH].
  apply (IH (put_projection id attached (pd_key d) (advance event a p) r)).
Qed.

Lemma apply_events_observed id events l r :
  apply_events id events (set_observed l r) =
    (let '(x, r') := apply_events id events r in (x, set_observed l r')).
Proof.
  revert r. induction events as [|e events IH]; intros r; simpl; [done|].
  unfold apply_event_locked. simpl. destruct (reg_sessions r !! id) as [at_|]; [|done].
  change (collect_work e at_ (set_observed l r)) with (collect_work e at_ r).
  rewrite apply_work_observed.
  destruct (apply_work id e (collect_work e at_ r) r) as [[[]|] r1]; [apply IH|done].
Qed.

Lemma apply_events_app id l1 l2 r :
  apply_events id (l1 ++ l2) r =
    match apply_events id l1 r with
    | (Ok _, r1) => apply_events id l2 r1
    | (Err e, r1) => (Err e, r1)
    end.
Proof.
  revert r. induction l1 as [|e l1 IH]; intros r; [done|]. simpl.
  destruct (apply_event_locked id e r) as [[[]|] r1]; [apply IH|done].
Qed.

(** ** Events every projection has seen *)

Lemma apply_event_seen id event r at_ :
  reg_sessions r !! id = Some at_ →
  (∀ key p d, at_projections at_ !! key = Some p → reg_definitions r !! key = Some d →
     is_new event p = false) →
  apply_event_locked id event r = (Ok tt, r).
Proof.
  intros Hat Hseen. unfold apply_event_locked. rewrite Hat.
  assert (collect_work event at_ r = []) as ->; [|done].
  destruct (collect_work event at_ r) as [|w work] eqn:Hw; [done|]. exfalso.
  assert (w ∈ collect_work event at_ r) as (k & p & Hd & Hp & Hn & _)%elem_of_collect_work.
  { rewrite Hw. by left. }
  by rewrite (Hseen _ _ _ Hp Hd) in Hn.
Qed.

Lemma apply_events_seen id events r at_ :
  reg_sessions r !! id = Some at_ →
  (∀ event key p d, event ∈ events → at_projections at_ !! key = Some p →
     reg_definitions r !! key = Some d → is_new event p = false) →
  apply_events id events r = (Ok tt, r).
Proof.
  intros Hat. induction events as [|e events IH]; intros Hseen; [done|]. simpl.
  rewrite (apply_event_seen _ _ _ _ Hat).
  - apply IH. intros x key p d Hx. apply (Hseen x). by right.
  - intros key p d. apply (Hseen e). by left.
Qed.

(** After folding an ordered log a projection has seen all of it. *)
Lemma fold_step_last d ver v0 err events p :
  ordered events → foldM (step_projection d) (start ver v0 None err) events = Ok p →
  ps_last_seq p = ev_seq <$> last events.
Proof.
  revert p. induction events as [|e events IH] using rev_ind; intros p Ho.
  { by intros [= <-]. }
  apply ordered_snoc in Ho as [Ho Hn]. rewrite foldM_snoc, last_snoc.
  intros (p1 & H1 & Hs)%bind_Ok. apply IH in H1; [|done].
  assert (is_new e p1 = true) as Hnew.
  { unfold is_new. rewrite H1. destruct events as [|x l _] using rev_ind; [done|].
    rewrite last_snoc. simpl. apply Forall_app in Hn as [_ [Hn _]%Forall_cons].
    by apply N.ltb_lt. }
  unfold step_projection in Hs. rewrite Hnew in Hs. invert_ok. unfold advance. by case_match.
Qed.

Lemma seen_all events p :
  ordered events → ps_last_seq p = ev_seq <$> last events →
  ∀ e, e ∈ events → is_new e p = false.
Proof.
  intros Ho Hl e He. unfold is_new. rewrite Hl.
  destruct events as [|x l _] using rev_ind; [by apply elem_of_nil in He|].
  apply ordered_snoc in Ho as [_ Hn]. rewrite last_snoc. simpl. apply N.ltb_ge.
  apply elem_of_app in He as [He|He%list_elem_of_singleton]; [|subst; lia].
  eapply Forall_forall in Hn; [|done]. simpl in Hn. lia.
Qed.

Lemma apply_events_keeps_observed id events r x r' :
  apply_events id events r = (x, r') → reg_observed r' = reg_observed r.
Proof.
  intros Ha. pose proof (apply_events_observed id events (reg_observed r) r) as Ho.
  assert (set_observed (reg_observed r) r = r) as Hr by by destruct r.
  rewrite Hr, Ha in Ho. by injection Ho as ->.
Qed.

(** ** Checkpoints *)

Lemma fold_step_version d p events p' :
  foldM (step_projection d) p events = Ok p' → ps_state_version p' = ps_state_version p.
Proof.
  apply (foldM_inv _ (λ _ q, ps_state_version q = ps_state_version p)); [done|].
  intros _ q e q' <- Hs. unfold step_projection in Hs. case_match; invert_ok; [|done].
  unfold advance. by case_match.
Qed.

Lemma checkpoint_Ok id key r at_ p c :
  reg_sessions r !! id = Some at_ → at_projections at_ !! key = Some p →
  checkpoint id key r = Some (Ok c) →
  ∃ f, last (ps_frames p) = Some f ∧
    c = mkCheckpoint (h_id (at_header at_)) key (ps_state_version p)
          (fr_as_of_seq f) (fr_state f).
Proof.
  intros Hat Hp. unfold checkpoint, snapshot, snapshot_as_of. rewrite Hat, Hp. simpl.
  destruct (last (ps_frames p)) as [f|]; [|done].
  destruct (definition r key) as [d|]; simpl; [|done].
  destruct (pd_view d (fr_state f)); simpl; [|done]. intros [= <-]. by exists f.
Qed.

Lemma restore_Ok session c r r' d :
  registry_wf r → reg_definitions r !! cp_key c = Some d →
  cp_session_id c = h_id (s_header session) → cp_state_version c = pd_state_version d →
  restore session c r = (Ok tt, r') →
  ∃ p, projection_of r' (h_id (s_header session)) (cp_key c) = Some p ∧
    foldM (step_projection d) (checkpoint_projection d c) (st_events (s_state session)) = Ok p.
Proof.
  intros Hwf Hd Hid Hver. unfold restore, restore_floor, definition. rewrite Hd. simpl.
  rewrite Hid, String.eqb_refl, Hver, N.eqb_refl. simpl. rewrite N.ltb_irrefl.
  destruct (reg_sessions r !! _) as [at_|] eqn:Hat; [|done]. unfold replay_locked. intros Hr.
  pose proof (Hwf _ _ Hd) as Hk.
  eapply apply_events_Ok in Hr as (at' & -> & _ & Hr); [|done|apply lookup_insert_eq].
  destruct (Hr (cp_key c) (checkpoint_projection d c) d) as (p & Hf & Hp); [|done|].
  - simpl. rewrite Hk. apply lookup_insert_eq.
  - exists p. split; [|done]. unfold projection_of. simpl. rewrite lookup_insert_eq. done.
Qed.

Lemma ordered_app l1 l2 :
  ordered (l1 ++ l2) → ordered l1 ∧ ∀ x y, x ∈ l1 → y ∈ l2 → (ev_seq x < ev_seq y)%N.
Proof.
  induction l1 as [|e l1 IH]; intros Ho; [split; [constructor|by intros x y ?%elem_of_nil]|].
  apply StronglySorted_inv in Ho as [Ho He]. destruct (IH Ho) as [Hl Hxy].
  apply Forall_app in He as [He1 He2]. split; [by constructor|].
  intros x y [->|Hx]%elem_of_cons Hy; [|by apply Hxy]. by eapply Forall_forall in He2.
Qed.

(** A projection resumed at [a] has no frame before [a]. *)
Definition not_before (a : N) (p : ProjectionState) : Prop :=
  (∃ b, ps_last_seq p = Some b ∧ (a ≤ b)%N) ∧
  Forall (λ f, ∃ b, fr_as_of_seq f = Some b ∧ (a ≤ b)%N) (ps_frames p).

Lemma fold_not_before d a p events p' :
  not_before a p → foldM (step_projection d) p events = Ok p' → not_before a p'.
Proof.
  intros Hp. apply (foldM_inv _ (λ _ q, not_before a q)); [done|].
  intros _ q e q' [(b & Hb & Hab) Hfr] Hs. unfold step_projection in Hs.
  destruct (is_new e q) eqn:Hn; invert_ok; [|split; [eauto|done]].
  unfold is_new in Hn. rewrite Hb in Hn. apply N.ltb_lt in Hn.
  assert (a ≤ ev_seq e)%N by lia.
  unfold advance. case_match; split; simpl; eauto.
  apply Forall_app. split; [done|]. repeat constructor. simpl. eauto.
Qed.

Lemma find_frame_not_before a q p :
  not_before a p → (q < a)%N → find_frame (Some q) (ps_frames p) = None.
Proof.
  intros [_ Hfr] Hq. simpl. apply Forall_reverse in Hfr.
  induction Hfr as [|f l (b & Hb & Hab) _ IH]; [done|]. simpl.
  unfold at_or_before at 1. rewrite Hb. destruct (N.leb_spec b q); [lia|done].
Qed.
