(* ===== verification/Calendar.v ===== *)
(** * Civil time (the calendar half of schedule.rs)

    Days since 1970-01-01 from and to the proleptic Gregorian calendar, UTC
    instants in milliseconds, their four-digit-year RFC 3339 form, and the two
    user formats: a date-time with a numeric offset and a local date and time in
    a named zone.  [i64] quantities are [Z]: the fields are bounded by the
    guards, so no intermediate overflows; [/] and [%] truncate ([Z.quot],
    [Z.rem]) and [div_euclid], [rem_euclid] are [Z.div], [Z.modulo]. *)

From S2P Require Import Prelude Json.

#[local] Open Scope Z_scope.

Definition MIN_INSTANT_MS : Z := -62135596800000.
Definition MAX_INSTANT_MS : Z := 253402300799999.
Definition DAY_MS : Z := 86400000.

Definition representable (millis : Z) : bool :=
  (MIN_INSTANT_MS <=? millis) && (millis <=? MAX_INSTANT_MS).

(** ** Days and dates *)

Definition days_from_civil (year month day : Z) : Z :=
  let year := year - (if month <=? 2 then 1 else 0) in
  let era := Z.quot (if 0 <=? year then year else year - 399) 400 in
  let year_of_era := year - era * 400 in
  let day_of_year :=
    Z.quot (153 * (month + (if 2 <? month then -3 else 9)) + 2) 5 + day - 1 in
  era * 146097 + year_of_era * 365 + Z.quot year_of_era 4 - Z.quot year_of_era 100
    + day_of_year - 719468.

Definition civil_from_days (days : Z) : Z * Z * Z :=
  let days := days + 719468 in
  let era := Z.quot (if 0 <=? days then days else days - 146096) 146097 in
  let day_of_era := days - era * 146097 in
  let year_of_era :=
    Z.quot (day_of_era - Z.quot day_of_era 1460 + Z.quot day_of_era 36524
            - Z.quot day_of_era 146096) 365 in
  let year := year_of_era + era * 400 in
  let day_of_year :=
    day_of_era - (365 * year_of_era + Z.quot year_of_era 4 - Z.quot year_of_era 100) in
  let month_prime := Z.quot (5 * day_of_year + 2) 153 in
  let day := day_of_year - Z.quot (153 * month_prime + 2) 5 + 1 in
  let month := month_prime + (if month_prime <? 10 then 3 else -9) in
  (year + (if month <=? 2 then 1 else 0), month, day).

(** ** Instants *)

Record Calendar := mkCalendar {
  year : Z; month : Z; day : Z; hour : Z; minute : Z; second : Z; millis : Z;
}.

Definition within (lo hi z : Z) : bool := (lo <=? z) && (z <=? hi).

Definition calendar_millis (f : Calendar) : option Z :=
  if negb (within 1 9999 (year f)) || negb (within 1 12 (month f))
     || negb (within 0 23 (hour f)) || negb (within 0 59 (minute f))
     || negb (within 0 59 (second f)) || negb (within 0 999 (millis f))
  then None
  else
    let days := days_from_civil (year f) (month f) (day f) in
    day_ms ← i64_checked_mul days DAY_MS;
    ms ← i64_checked_add day_ms
           (hour f * 3600000 + minute f * 60000 + second f * 1000 + millis f);
    if bool_decide (civil_from_days days = (year f, month f, day f)) && representable ms
    then Some ms else None.

Definition format_instant (millis : Z) : option string :=
  if negb (representable millis) then None
  else
    let days := i64_div_euclid millis DAY_MS in
    let day := i64_rem_euclid millis DAY_MS in
    let '(year, month, date) := civil_from_days days in
    Some (fmt_pad 4 year +:+ "-" +:+ fmt_pad 2 month +:+ "-" +:+ fmt_pad 2 date
          +:+ "T" +:+ fmt_pad 2 (Z.quot day 3600000)
          +:+ ":" +:+ fmt_pad 2 (Z.rem (Z.quot day 60000) 60)
          +:+ ":" +:+ fmt_pad 2 (Z.rem (Z.quot day 1000) 60)
          +:+ "." +:+ fmt_pad 3 (Z.rem day 1000) +:+ "Z").

(** ** Parsing the canonical form *)

(** [bytes.iter().try_fold(0, ..)]. *)
Definition add_digit (acc : option Z) (a : ascii) : option Z :=
  r ← acc; if is_ascii_digit a then Some (r * 10 + (Z.of_N (byte a) - 48)) else None.
Definition digits (l : list ascii) : option Z := foldl add_digit (Some 0) l.

(** [bytes[i] == c] and [&bytes[a..b]]. *)
Definition byte_is (l : list ascii) (i : nat) (c : ascii) : bool :=
  bool_decide (l !! i = Some c).
Definition slice (a b : nat) (l : list ascii) : list ascii := take (b - a) (drop a l).

Definition parse_instant (value : string) : option Z :=
  let bytes := bytes_of value in
  if negb (length bytes =? 24)%nat
     || negb (byte_is bytes 4 "-") || negb (byte_is bytes 7 "-")
     || negb (byte_is bytes 10 "T") || negb (byte_is bytes 13 ":")
     || negb (byte_is bytes 16 ":") || negb (byte_is bytes 19 ".")
     || negb (byte_is bytes 23 "Z")
  then None
  else
    year ← digits (slice 0 4 bytes);
    month ← digits (slice 5 7 bytes);
    day ← digits (slice 8 10 bytes);
    hour ← digits (slice 11 13 bytes);
    minute ← digits (slice 14 16 bytes);
    second ← digits (slice 17 19 bytes);
    millis ← digits (slice 20 23 bytes);
    ms ← calendar_millis (mkCalendar year month day hour minute second millis);
    if bool_decide (format_instant ms = Some value) then Some ms else None.

Example format_epoch : format_instant 0 = Some "1970-01-01T00:00:00.000Z".
Proof. vm_compute. reflexivity. Qed.
Example parse_leap_day : parse_instant "2024-02-29T12:30:45.678Z" = Some 1709209845678.
Proof. vm_compute. reflexivity. Qed.

(** ** User formats

    The regular expressions use [\d], which in the regex crate is any Unicode
    decimal digit; which byte sequences are non-ASCII digits is that crate's
    table, so it is a parameter: [nd l] is the byte length of the non-ASCII
    decimal digit at the front of [l], if there is one.  The expressions are
    deterministic, so each is a reader over the bytes.  [None] is a panic. *)

Definition error (code message : string) : Value :=
  json_object [("code", VString code); ("message", VString message)].
Definition time_out_of_range : Value :=
  error "time_out_of_range"
    "The scheduled time must be representable as a four-digit-year RFC 3339 UTC instant.".

(** A computation that may panic; [fallible] adds an error value. *)
Definition panics (A : Type) : Type := option A.
Definition fallible (A : Type) : Type := panics (result Value A).
Definition ok {A} (a : A) : fallible A := Some (Ok a).
Definition fail {A} (e : Value) : fallible A := Some (Err e).
(** [expect] on an option. *)
Definition expect {A} (o : option A) : panics A := o.
(** Sequencing: a panic or an error ends the computation. *)
Definition and_then {A B} (r : fallible A) (k : A → fallible B) : fallible B :=
  match r with Some (Ok a) => k a | Some (Err e) => Some (Err e) | None => None end.

Section formats.
Variable nd : list ascii → option nat.

(** One [\d]: its bytes and what follows. *)
Definition digit_char (l : list ascii) : option (list ascii * list ascii) :=
  match l with
  | [] => None
  | a :: r =>
      if is_ascii_digit a then Some ([a], r)
      else n ← nd l; Some (take n l, drop n l)
  end.

(** [\d{n}], and [\d{1,3}], as the lists of their characters. *)
Fixpoint digit_chars (n : nat) (l : list ascii) : option (list (list ascii) * list ascii) :=
  match n with
  | O => Some ([], l)
  | S n' =>
      c ← digit_char l; cs ← digit_chars n' c.2; Some (c.1 :: cs.1, cs.2)
  end.
Fixpoint up_to_chars (n : nat) (l : list ascii) : list (list ascii) * list ascii :=
  match n with
  | O => ([], l)
  | S n' =>
      match digit_char l with
      | None => ([], l)
      | Some (c, r) => let '(cs, r') := up_to_chars n' r in (c :: cs, r')
      end
  end.
Definition lit (c : ascii) (l : list ascii) : option (list ascii) :=
  match l with a :: r => if bool_decide (a = c) then Some r else None | [] => None end.

(** [(?:\.(\d{1,3}))?], greedy. *)
Definition fraction_chars (l : list ascii) : option (list (list ascii)) * list ascii :=
  match lit "." l with
  | None => (None, l)
  | Some r =>
      match up_to_chars 3 r with
      | ([], _) => (None, l)
      | (cs, r') => (Some cs, r')
      end
  end.

Record date_captures := mkDateCaptures { cap_year : list ascii; cap_month : list ascii; cap_day : list ascii }.
Record time_captures := mkTimeCaptures {
  cap_hour : list ascii; cap_minute : list ascii; cap_second : list ascii;
  cap_fraction : option (list (list ascii)) }.

Definition date_regex (l : list ascii) : option (date_captures * list ascii) :=
  y ← digit_chars 4 l; r ← lit "-" y.2; m ← digit_chars 2 r; r ← lit "-" m.2;
  d ← digit_chars 2 r; Some (mkDateCaptures (concat y.1) (concat m.1) (concat d.1), d.2).
Definition time_regex (l : list ascii) : option (time_captures * list ascii) :=
  h ← digit_chars 2 l; r ← lit ":" h.2; m ← digit_chars 2 r; r ← lit ":" m.2;
  s ← digit_chars 2 r;
  let '(f, r) := fraction_chars s.2 in
  Some (mkTimeCaptures (concat h.1) (concat m.1) (concat s.1) f, r).

(** [(Z|[+-]\d{2}:\d{2})$]: the captured zone. *)
Definition zone_regex (l : list ascii) : option (list ascii) :=
  match l with
  | ["Z"%char] => Some l
  | a :: r =>
      if bool_decide (a = "+"%char) || bool_decide (a = "-"%char) then
        h ← digit_chars 2 r; r1 ← lit ":" h.2; m ← digit_chars 2 r1;
        match m.2 with [] => Some l | _ => None end
      else None
  | [] => None
  end.

Definition offset_regex (l : list ascii) :
    option (date_captures * time_captures * list ascii) :=
  d ← date_regex l; r ← lit "T" d.2; t ← time_regex r; z ← zone_regex t.2;
  Some (d.1, t.1, z).

(** [format!("{:0<3}", value).parse::<i64>().expect("fraction is digits")]: the
    padding counts characters, and only ASCII digits parse. *)
Definition fraction_millis (f : option (list (list ascii))) : panics Z :=
  match f with
  | None => Some 0
  | Some cs => expect (digits (concat cs ++ repeat "0"%char (3 - length cs)))
  end.

(** [&s[a..b]] on a [str]: a panic outside character boundaries. *)
Definition char_boundary (i : nat) (l : list ascii) : bool :=
  match l !! i with
  | None => (i =? length l)%nat
  | Some a => negb ((128 <=? byte a)%N && (byte a <? 192)%N)
  end.
Definition str_slice (a b : nat) (l : list ascii) : panics (list ascii) :=
  if char_boundary a l && char_boundary b l then Some (slice a b l) else None.

Definition parse_offset_instant (value : string) : fallible Z :=
  match offset_regex (bytes_of value) with
  | None =>
      fail (error "invalid_rule" "at must use YYYY-MM-DDTHH:mm:ss with optional 1-3 digit fractional seconds and an explicit Z or numeric offset.")
  | Some (d, t, zone) =>
      match fraction_millis (cap_fraction t) with
      | None => None
      | Some fraction =>
          match calendar_millis
                  {| year := default 0 (digits (cap_year d));
                     month := default 0 (digits (cap_month d));
                     day := default 0 (digits (cap_day d));
                     hour := default 24 (digits (cap_hour t));
                     minute := default 60 (digits (cap_minute t));
                     second := default 60 (digits (cap_second t));
                     millis := fraction |} with
          | None =>
              fail (error "invalid_rule"
                      "The at value must be a real ISO calendar date and time.")
          | Some local =>
              if bool_decide (zone = ["Z"%char]) then ok local
              else
                match str_slice 1 3 zone with
                | None => None
                | Some h =>
                    match str_slice 4 6 zone with
                    | None => None
                    | Some m =>
                        let offset_hour := default 24 (digits h) in
                        let offset_minute := default 60 (digits m) in
                        if (23 <? offset_hour) || (59 <? offset_minute)
                           || bool_decide (zone = bytes_of "-00:00")
                        then fail (error "invalid_rule" "The at numeric offset is invalid.")
                        else
                          let offset := (offset_hour * 60 + offset_minute) * 60000 in
                          match i64_checked_sub local
                                  (if bool_decide (head zone = Some "+"%char) then offset
                                   else - offset) with
                          | None => fail time_out_of_range
                          | Some ms => ok ms
                          end
                    end
                end
          end
      end
  end.

Definition local_format_error : Value :=
  error "invalid_rule" "Local at requires date YYYY-MM-DD and time HH:mm:ss with optional one-to-three digit milliseconds.".

(** [^(\d{4})-(\d{2})-(\d{2})$] and its counterpart for times. *)
Definition whole {A} (r : option (A * list ascii)) : option A :=
  match r with Some (a, []) => Some a | _ => None end.

Definition parse_local_fields (date time : string) : fallible Calendar :=
  match whole (date_regex (bytes_of date)) with
  | None => fail local_format_error
  | Some d =>
      match whole (time_regex (bytes_of time)) with
      | None => fail local_format_error
      | Some t =>
          match fraction_millis (cap_fraction t) with
          | None => None
          | Some fraction =>
              ok {| year := default (-1) (digits (cap_year d));
                    month := default (-1) (digits (cap_month d));
                    day := default (-1) (digits (cap_day d));
                    hour := default (-1) (digits (cap_hour t));
                    minute := default (-1) (digits (cap_minute t));
                    second := default (-1) (digits (cap_second t));
                    millis := fraction |}
          end
      end
  end.

Definition zone_name_byte (a : ascii) : bool :=
  is_ascii_alphanumeric a || bool_decide (a ∈ ["/"; "_"; "+"; "."; "-"]%char).
Definition valid_zone_name (name : string) : bool :=
  contains "/" name && negb (starts_with "/" name) && negb (contains ".." name)
  && forallb zone_name_byte (bytes_of name).

End formats.

(** The time-zone library ([jiff]): zones by name, civil date-times, and the
    instants a local time denotes in a zone. *)
Class TimeZones := {
  zone : Type;
  zone_get : string → option zone;
  datetime : Type;
  datetime_new : Calendar → option datetime;
  in_gap : zone → datetime → bool;
  earlier : zone → datetime → option Z;
}.

Section local.
Context (nd : list ascii → option nat) `{TimeZones}.

Definition resolve_local_at (value : list (string * Value)) : fallible Z :=
  if negb (length value =? 3)%nat then
    fail (error "invalid_rule" "Local at must contain exactly date, time, and time_zone.")
  else
    match obj_get "date" value ≫= as_str, obj_get "time" value ≫= as_str with
    | Some date, Some time =>
        match obj_get "time_zone" value ≫= as_str with
        | None => fail (error "invalid_time_zone" "time_zone must be a string.")
        | Some name =>
            and_then (parse_local_fields nd date time) (λ fields,
            match calendar_millis fields with
            | None =>
                fail (error "invalid_rule"
                        "The local at value must be a real ISO calendar date and time.")
            | Some _ =>
                let invalid_zone := error "invalid_time_zone"
                  "time_zone must be UTC or a valid IANA Area/Location name." in
                if negb (String.eqb name "UTC") && negb (valid_zone_name name)
                then fail invalid_zone
                else
                  match zone_get name with
                  | None => fail invalid_zone
                  | Some z =>
                      match datetime_new fields with
                      | None => fail time_out_of_range
                      | Some local =>
                          if in_gap z local then
                            fail (error "invalid_rule"
                              "The local at time does not exist in the selected time zone.")
                          else
                            match earlier z local with
                            | None => fail time_out_of_range
                            | Some ms => ok ms
                            end
                      end
                  end
            end)
        end
    | _, _ => fail (error "invalid_rule" "Local at date and time must be strings.")
    end.
End local.

Example parse_offset_ex :
  parse_offset_instant (λ _, None) "2024-02-29T12:30:45.6+02:00"
  = ok (1709209845600 - 7200000).
Proof. vm_compute. reflexivity. Qed.
