(* ===== verification/CalendarFacts.v ===== *)
(** * Civil time: periodicity, round trips, ranges

    The calendar repeats every 146097 days.  Inside one era the year of a day is
    monotone, so its 400 first and last days decide it; inside one year the 366
    days are evaluated.  Periodicity carries the result to every day. *)

From S2P Require Import Prelude Json Calendar.

#[local] Open Scope Z_scope.

(** ** One era *)

Lemma floor_quot z n :
  0 < n → Z.quot (if 0 <=? z then z else z - (n - 1)) n = z / n.
Proof.
  intros Hn. destruct (Z.leb_spec 0 z).
  - by apply Z.quot_div_nonneg.
  - Z.to_euclidean_division_equations. nia.
Qed.

Definition ERA : Z := 146097.
Definition EPOCH : Z := 719468.

Lemma civil_from_days_era e doe :
  0 <= doe < ERA →
  civil_from_days (e * ERA + doe - EPOCH) =
    (let '(y, m, d) := civil_from_days (doe - EPOCH) in (y + 400 * e, m, d)).
Proof.
  intros Hdoe. unfold ERA, EPOCH in *.
  assert (∀ z, Z.quot (if 0 <=? z then z else z - 146096) 146097 = z / 146097) as Hq.
  { intros z. apply (floor_quot z 146097). lia. }
  unfold civil_from_days. rewrite !Hq.
  replace (e * 146097 + doe - 719468 + 719468) with (doe + e * 146097) by lia.
  replace (doe - 719468 + 719468) with doe by lia.
  rewrite Z.div_add, (Z.div_small doe) by lia.
  replace (doe + e * 146097 - (0 + e) * 146097) with doe by lia.
  rewrite Z.mul_0_l, Z.sub_0_r. f_equal. f_equal. lia.
Qed.

Lemma days_from_civil_era e y m d :
  days_from_civil (y + 400 * e) m d = days_from_civil y m d + e * ERA.
Proof.
  unfold ERA.
  assert (∀ z, Z.quot (if 0 <=? z then z else z - 399) 400 = z / 400) as Hq.
  { intros z. apply (floor_quot z 400). lia. }
  unfold days_from_civil. rewrite !Hq.
  set (x := y - (if m <=? 2 then 1 else 0)).
  replace (y + 400 * e - (if m <=? 2 then 1 else 0)) with (x + e * 400) by lia.
  rewrite Z.div_add by lia.
  replace (x + e * 400 - (x / 400 + e) * 400) with (x - x / 400 * 400) by lia. lia.
Qed.

(** *** The year of a day of the era *)

Definition yoe (doe : Z) : Z :=
  Z.quot (doe - Z.quot doe 1460 + Z.quot doe 36524 - Z.quot doe 146096) 365.
Definition year_start (k : Z) : Z := 365 * k + Z.quot k 4 - Z.quot k 100 + Z.quot k 400.

Lemma yoe_mono a b : 0 <= a <= b -> yoe a <= yoe b.
Proof.
  intros Hab. unfold yoe. apply Z.quot_le_mono; [lia|].
  rewrite !Z.quot_div_nonneg by lia. Z.to_euclidean_division_equations. lia.
Qed.

(** Only the first and the last day of each of the 400 years are evaluated. *)
Definition year_ok (k : Z) : bool :=
  (yoe (year_start k) =? k) && (yoe (year_start (k + 1) - 1) =? k)
  && (year_start k <=? year_start (k + 1) - 1) && (year_start (k + 1) - year_start k <=? 366)
  && (0 <=? year_start k).
Lemma years_checked : Z_forall_below 400 year_ok = true.
Proof. vm_compute. reflexivity. Qed.

Lemma year_facts k :
  0 <= k < 400 →
  yoe (year_start k) = k ∧ yoe (year_start (k + 1) - 1) = k ∧
  0 <= year_start k ∧ year_start k < year_start (k + 1) <= year_start k + 366.
Proof.
  intros Hk. pose proof (Z_forall_below_spec _ _ years_checked k Hk) as Hok.
  unfold year_ok in Hok. rewrite !andb_true_iff, !Z.eqb_eq, !Z.leb_le in Hok. lia.
Qed.

Lemma yoe_start doe :
  0 <= doe < ERA →
  0 <= yoe doe < 400 ∧ year_start (yoe doe) <= doe < year_start (yoe doe + 1).
Proof.
  intros Hdoe. set (k := yoe doe).
  assert (0 <= k < 400) as Hk.
  { assert (yoe 0 = 0) as H0 by done. assert (yoe (ERA - 1) = 399) as H1 by done.
    pose proof (yoe_mono 0 doe ltac:(lia)). pose proof (yoe_mono doe (ERA - 1) ltac:(lia)). lia. }
  split; [done|]. destruct (year_facts k Hk) as (Hs & He & Hp & Hlt). split.
  - destruct (Z.lt_ge_cases doe (year_start k)) as [Hd|]; [exfalso|done].
    assert (year_start 0 = 0) as H0 by done.
    destruct (decide (k = 0)) as [Hk0|]; [rewrite Hk0, H0 in Hd; lia|].
    destruct (year_facts (k - 1) ltac:(lia)) as (_ & He' & _).
    replace (k - 1 + 1) with k in He' by lia.
    pose proof (yoe_mono doe (year_start k - 1) ltac:(lia)) as Hmono. fold k in Hmono. lia.
  - destruct (Z.lt_ge_cases doe (year_start (k + 1))) as [|Hd]; [done|exfalso].
    assert (year_start (399 + 1) = ERA) as H400 by done.
    destruct (decide (k = 399)) as [Hk0|]; [rewrite Hk0, H400 in Hd; lia|].
    destruct (year_facts (k + 1) ltac:(lia)) as (Hs' & _).
    pose proof (yoe_mono (year_start (k + 1)) doe ltac:(lia)) as Hmono. fold k in Hmono. lia.
Qed.

(** *** The date of a day of the year *)

Definition month_of (doy : Z) : Z :=
  let mp := Z.quot (5 * doy + 2) 153 in mp + (if mp <? 10 then 3 else -9).
Definition day_of (doy : Z) : Z :=
  let mp := Z.quot (5 * doy + 2) 153 in doy - Z.quot (153 * mp + 2) 5 + 1.
Definition doy_of (m d : Z) : Z :=
  Z.quot (153 * (m + (if 2 <? m then -3 else 9)) + 2) 5 + d - 1.

Definition doy_ok (doy : Z) : bool :=
  let m := month_of doy in let d := day_of doy in
  (doy_of m d =? doy) && within 1 12 m && within 1 31 d && Bool.eqb (m <=? 2) (306 <=? doy).
Lemma doys_checked : Z_forall_below 366 doy_ok = true.
Proof. vm_compute. reflexivity. Qed.

Lemma doy_facts doy :
  0 <= doy < 366 →
  doy_of (month_of doy) (day_of doy) = doy ∧ 1 <= month_of doy <= 12 ∧
  1 <= day_of doy <= 31 ∧ (month_of doy <=? 2) = (306 <=? doy).
Proof.
  intros Hd. pose proof (Z_forall_below_spec _ _ doys_checked doy Hd) as Hok.
  unfold doy_ok, within in Hok.
  rewrite !andb_true_iff, Z.eqb_eq, !Z.leb_le, Bool.eqb_true_iff in Hok. tauto.
Qed.

(** *** The two functions on one era *)

Lemma civil_of_era_day doe :
  0 <= doe < ERA →
  let doy := doe - year_start (yoe doe) in
  civil_from_days (doe - EPOCH) =
    (yoe doe + (if month_of doy <=? 2 then 1 else 0), month_of doy, day_of doy).
Proof.
  intros Hdoe doy. destruct (yoe_start doe Hdoe) as [Hk _].
  unfold civil_from_days, EPOCH. replace (doe - 719468 + 719468) with doe by lia.
  rewrite (proj2 (Z.leb_le 0 doe)) by lia.
  rewrite (Z.quot_small doe) by (unfold ERA in *; lia).
  rewrite Z.mul_0_l, Z.sub_0_r. fold (yoe doe).
  assert (doe - (365 * yoe doe + Z.quot (yoe doe) 4 - Z.quot (yoe doe) 100) = doy) as ->.
  { unfold doy, year_start. rewrite (Z.quot_small (yoe doe) 400) by lia. lia. }
  unfold month_of, day_of. by rewrite Z.add_0_r.
Qed.

Lemma days_of_era_year k m d :
  0 <= k < 400 →
  days_from_civil (k + (if m <=? 2 then 1 else 0)) m d =
    year_start k + doy_of m d - EPOCH.
Proof.
  intros Hk. unfold days_from_civil, year_start, doy_of, EPOCH.
  replace (k + (if m <=? 2 then 1 else 0) - (if m <=? 2 then 1 else 0)) with k by lia.
  rewrite (proj2 (Z.leb_le 0 k)) by lia. rewrite (Z.quot_small k 400) by lia.
  replace (k - 0 * 400) with k by lia. lia.
Qed.

#[local] Opaque civil_from_days days_from_civil.

Lemma era_day_facts doe y m d :
  0 <= doe < ERA → civil_from_days (doe - EPOCH) = (y, m, d) →
  days_from_civil y m d = doe - EPOCH ∧ 0 <= y <= 400 ∧ 1 <= m <= 12 ∧ 1 <= d <= 31 ∧
  (306 <= doe → 1 <= y) ∧ (doe <= 146036 → y <= 399).
Proof.
  intros Hdoe. rewrite civil_of_era_day by done.
  destruct (yoe_start doe Hdoe) as [Hk Hs].
  destruct (year_facts _ Hk) as (_ & _ & Hp & Hlen).
  set (doy := doe - year_start (yoe doe)).
  assert (0 <= doy < 366) as Hdoy by (unfold doy; lia).
  destruct (doy_facts doy Hdoy) as (Hback & Hm & Hd & H306). intros [= <- <- <-].
  rewrite days_of_era_year, Hback by done. rewrite H306.
  assert (yoe doe = 0 → year_start (yoe doe) = 0) as H0 by (intros ->; done).
  assert (yoe doe = 399 → year_start (yoe doe) = 145731) as H399 by (intros ->; done).
  unfold doy in *. destruct (Z.leb_spec 306 (doe - year_start (yoe doe))); lia.
Qed.

Record date_ok (days : Z) (ymd : Z * Z * Z) : Prop := {
  date_back : days_from_civil ymd.1.1 ymd.1.2 ymd.2 = days;
  date_month : 1 <= ymd.1.2 <= 12;
  date_day : 1 <= ymd.2 <= 31;
  date_year : -719162 <= days <= 2932896 → 1 <= ymd.1.1 <= 9999;
}.

Lemma date_ok_era e doe :
  0 <= doe < ERA → date_ok (e * ERA + doe - EPOCH) (civil_from_days (e * ERA + doe - EPOCH)).
Proof.
  intros Hdoe. rewrite civil_from_days_era by done.
  destruct (civil_from_days (doe - EPOCH)) as [[y m] d] eqn:Heq.
  apply era_day_facts in Heq as (Hb & Hy & Hm & Hd & H306 & H146036); [|done].
  split; simpl; [|done..|].
  - rewrite days_from_civil_era, Hb. lia.
  - unfold ERA, EPOCH in *. intros Hr. split.
    + destruct (Z.leb_spec 306 doe); lia.
    + destruct (Z.leb_spec doe 146036); lia.
Qed.

Lemma civil_date_ok days : date_ok days (civil_from_days days).
Proof.
  assert (0 <= (days + EPOCH) mod ERA < ERA) as Hdoe by by apply Z.mod_pos_bound.
  assert (days = (days + EPOCH) / ERA * ERA + (days + EPOCH) mod ERA - EPOCH) as Hd.
  { pose proof (Z.div_mod (days + EPOCH) ERA ltac:(done)). lia. }
  rewrite Hd. by apply date_ok_era.
Qed.

(** ** Decimal fields *)

Definition pad_ok (w : nat) (n : Z) : bool :=
  let l := bytes_of (fmt_pad w n) in
  (length l =? w)%nat && bool_decide (digits l = Some n).

Lemma pads_checked :
  Z_forall_below 100 (pad_ok 2) && Z_forall_below 1000 (pad_ok 3)
  && Z_forall_below 10000 (pad_ok 4) = true.
Proof. vm_compute. reflexivity. Qed.

Lemma pad_facts w n :
  (w = 2%nat ∧ 0 <= n < 100) ∨ (w = 3%nat ∧ 0 <= n < 1000) ∨ (w = 4%nat ∧ 0 <= n < 10000) →
  length (bytes_of (fmt_pad w n)) = w ∧ digits (bytes_of (fmt_pad w n)) = Some n.
Proof.
  pose proof pads_checked as Hc.
  apply andb_true_iff in Hc as [Hc H4]. apply andb_true_iff in Hc as [H2 H3].
  intros [[-> Hn]|[[-> Hn]|[-> Hn]]];
    [apply (Z_forall_below_spec _ _ H2) in Hn|apply (Z_forall_below_spec _ _ H3) in Hn
    |apply (Z_forall_below_spec _ _ H4) in Hn];
    unfold pad_ok in Hn;
    by rewrite andb_true_iff, Nat.eqb_eq, bool_decide_eq_true in Hn.
Qed.

(** ** The time of day *)

Lemma time_of_day day :
  0 <= day < DAY_MS →
  let h := Z.quot day 3600000 in let m := Z.rem (Z.quot day 60000) 60 in
  let s := Z.rem (Z.quot day 1000) 60 in let x := Z.rem day 1000 in
  0 <= h <= 23 ∧ 0 <= m <= 59 ∧ 0 <= s <= 59 ∧ 0 <= x <= 999 ∧
  h * 3600000 + m * 60000 + s * 1000 + x = day.
Proof.
  unfold DAY_MS. intros Hd.
  rewrite !Z.quot_div_nonneg by lia.
  rewrite !Z.rem_mod_nonneg by (try apply Z.div_pos; lia).
  assert (day / 60000 / 60 = day / 3600000) as H1 by by rewrite Z.div_div.
  assert (day / 1000 / 60 = day / 60000) as H2 by by rewrite Z.div_div.
  pose proof (Z.div_mod (day / 60000) 60 ltac:(done)) as Hm. rewrite H1 in Hm.
  pose proof (Z.div_mod (day / 1000) 60 ltac:(done)) as Hs. rewrite H2 in Hs.
  pose proof (Z.div_mod day 1000 ltac:(done)).
  pose proof (Z.mod_pos_bound (day / 60000) 60 ltac:(done)).
  pose proof (Z.mod_pos_bound (day / 1000) 60 ltac:(done)).
  pose proof (Z.mod_pos_bound day 1000 ltac:(done)).
  assert (0 <= day / 3600000 < 24).
  { split; [by apply Z.div_pos; lia|apply Z.div_lt_upper_bound; lia]. }
  lia.
Qed.

(** ** The round trip *)

Lemma representable_iff ms :
  representable ms = true ↔ MIN_INSTANT_MS <= ms <= MAX_INSTANT_MS.
Proof. unfold representable. rewrite andb_true_iff, !Z.leb_le. done. Qed.

Lemma representable_day ms :
  MIN_INSTANT_MS <= ms <= MAX_INSTANT_MS → -719162 <= ms / DAY_MS <= 2932896.
Proof.
  unfold MIN_INSTANT_MS, MAX_INSTANT_MS, DAY_MS. intros. split.
  - apply Z.div_le_lower_bound; lia.
  - apply Z.lt_succ_r, Z.div_lt_upper_bound; lia.
Qed.

(** The fields of an instant rebuild it. *)
Lemma calendar_millis_of_instant ms y m d :
  MIN_INSTANT_MS <= ms <= MAX_INSTANT_MS → civil_from_days (ms / DAY_MS) = (y, m, d) →
  let day := ms mod DAY_MS in
  calendar_millis (mkCalendar y m d (Z.quot day 3600000) (Z.rem (Z.quot day 60000) 60)
    (Z.rem (Z.quot day 1000) 60) (Z.rem day 1000)) = Some ms ∧
  1 <= y <= 9999 ∧ 1 <= m <= 12 ∧ 1 <= d <= 31.
Proof.
  intros Hr Hc day. pose proof (civil_date_ok (ms / DAY_MS)) as [Hb Hm Hd Hy].
  rewrite Hc in *. simpl in *. specialize (Hy (representable_day _ Hr)).
  assert (0 <= day < DAY_MS) as Hday by by apply Z.mod_pos_bound.
  destruct (time_of_day day Hday) as (Hh & Hmi & Hs & Hx & Hsum).
  split_and!; try lia. unfold calendar_millis, within. simpl.
  rewrite !(proj2 (Z.leb_le _ _)) by lia. simpl. rewrite Hb, Hsum.
  pose proof (representable_day _ Hr).
  assert (ms / DAY_MS * DAY_MS + day = ms) as Hms.
  { unfold day. pose proof (Z.div_mod ms DAY_MS ltac:(done)). lia. }
  assert (i64_checked_mul (ms / DAY_MS) DAY_MS = Some (ms / DAY_MS * DAY_MS)) as ->.
  { apply i64_checked_Some. split; [done|].
    unfold is_i64, DAY_MS, I64_MIN, I64_MAX in *. lia. }
  simpl.
  assert (i64_checked_add (ms / DAY_MS * DAY_MS) day = Some ms) as ->.
  { apply i64_checked_Some. split; [by symmetry|]. rewrite Hms.
    unfold is_i64, MIN_INSTANT_MS, MAX_INSTANT_MS, I64_MIN, I64_MAX in *. lia. }
  simpl. rewrite bool_decide_eq_true_2 by done. by rewrite (proj2 (representable_iff ms)).
Qed.

Ltac explode l n :=
  lazymatch n with
  | O => destruct l; [|discriminate]
  | S ?n => let l' := fresh "l" in destruct l as [|? l']; [discriminate|explode l' n]
  end.

Lemma format_parse ms :
  MIN_INSTANT_MS <= ms <= MAX_INSTANT_MS →
  ∃ s, format_instant ms = Some s ∧ parse_instant s = Some ms.
Proof.
  intros Hr. pose proof (proj2 (representable_iff ms) Hr) as Hrep.
  destruct (civil_from_days (ms / DAY_MS)) as [[y m] d] eqn:Hc.
  destruct (calendar_millis_of_instant ms y m d Hr Hc) as (Hcal & Hy & Hm & Hd).
  assert (0 <= ms mod DAY_MS < DAY_MS) as Hday by by apply Z.mod_pos_bound.
  destruct (time_of_day _ Hday) as (Hh & Hmi & Hs & Hx & _).
  set (day := ms mod DAY_MS) in *.
  assert (∃ s, format_instant ms = Some s) as [s Hf].
  { unfold format_instant, i64_div_euclid. rewrite Hrep, Hc. simpl. eauto. }
  exists s. split; [done|]. unfold parse_instant. rewrite <-Hf in *.
  assert (bytes_of s = bytes_of (fmt_pad 4 y) ++ "-"%char :: bytes_of (fmt_pad 2 m)
    ++ "-"%char :: bytes_of (fmt_pad 2 d) ++ "T"%char
    :: bytes_of (fmt_pad 2 (Z.quot day 3600000)) ++ ":"%char
    :: bytes_of (fmt_pad 2 (Z.rem (Z.quot day 60000) 60)) ++ ":"%char
    :: bytes_of (fmt_pad 2 (Z.rem (Z.quot day 1000) 60)) ++ "."%char
    :: bytes_of (fmt_pad 3 (Z.rem day 1000)) ++ ["Z"%char]) as ->.
  { unfold format_instant, i64_div_euclid, i64_rem_euclid in Hf. rewrite Hrep, Hc in Hf.
    simpl in Hf. injection Hf as <-. rewrite !bytes_of_app. done. }
  destruct (pad_facts 4 y ltac:(lia)) as [Ly Dy].
  destruct (pad_facts 2 m ltac:(lia)) as [Lm Dm].
  destruct (pad_facts 2 d ltac:(lia)) as [Ld Dd].
  destruct (pad_facts 2 (Z.quot day 3600000) ltac:(lia)) as [Lh Dh].
  destruct (pad_facts 2 (Z.rem (Z.quot day 60000) 60) ltac:(lia)) as [Lmi Dmi].
  destruct (pad_facts 2 (Z.rem (Z.quot day 1000) 60) ltac:(lia)) as [Ls Ds].
  destruct (pad_facts 3 (Z.rem day 1000) ltac:(lia)) as [Lx Dx].
  repeat match goal with |- context [bytes_of (fmt_pad ?w ?n)] =>
    let l := fresh "l" in generalize dependent (bytes_of (fmt_pad w n)); intros l end.
  intros Ly Dy Lm Dm Ld Dd Lh Dh Lmi Dmi Ls Ds Lx Dx.
  explode l 4%nat. explode l0 2%nat. explode l1 2%nat. explode l2 2%nat.
  explode l3 2%nat. explode l4 2%nat. explode l5 3%nat.
  unfold slice, byte_is. simpl.
  rewrite Dy. simpl. rewrite Dm. simpl. rewrite Dd. simpl. rewrite Dh. simpl. rewrite Dmi. simpl.
  rewrite Ds. simpl. rewrite Dx. simpl. rewrite Hcal. simpl. by rewrite bool_decide_eq_true_2.
Qed.

(** ** ASCII input never panics *)

Definition all_ascii (l : list ascii) : Prop := Forall (λ a, (byte a < 128)%N) l.

Lemma ascii_digit_byte a : is_ascii_digit a = true → (48 <= byte a <= 57)%N.
Proof. unfold is_ascii_digit. rewrite andb_true_iff, !N.leb_le. lia. Qed.

Lemma digits_total l : Forall (λ a, is_ascii_digit a = true) l → is_Some (digits l).
Proof.
  unfold digits. assert (is_Some (Some 0)) as Hs by by eexists. revert Hs. generalize (Some 0).
  intros o Ho Hl. revert o Ho. induction Hl as [|a l Ha _ IH]; intros o [z ->]; simpl; [by eexists|].
  apply IH. rewrite Ha. by eexists.
Qed.

Lemma char_boundary_ascii l i : all_ascii l → (i <= length l)%nat → char_boundary i l = true.
Proof.
  intros Hl Hi. unfold char_boundary. destruct (l !! i) as [a|] eqn:Ha.
  - pose proof (Forall_lookup_1 _ _ _ _ Hl Ha) as Hb. simpl in Hb.
    destruct (N.leb_spec 128 (byte a)); [lia|done].
  - apply lookup_ge_None in Ha. apply Nat.eqb_eq. lia.
Qed.

Section ascii_input.
Variable nd : list ascii → option nat.
(** [nd] recognises characters outside ASCII only. *)
Variable nd_ascii : ∀ a l, (byte a < 128)%N → nd (a :: l) = None.

Lemma digit_char_ascii l c r :
  all_ascii l → digit_char nd l = Some (c, r) →
  ∃ a, c = [a] ∧ is_ascii_digit a = true ∧ l = a :: r ∧ all_ascii r.
Proof using All.
  destruct l as [|a l]; simpl; [done|]. intros [Ha Hl]%Forall_cons. case_match.
  - intros [= <- <-]. by exists a.
  - by rewrite nd_ascii.
Qed.

Lemma digit_chars_ascii n l cs r :
  all_ascii l → digit_chars nd n l = Some (cs, r) → all_ascii r ∧ length l = (n + length r)%nat.
Proof using All.
  revert l cs r. induction n as [|n IH]; intros l cs r Hl; simpl; [by intros [= <- <-]|].
  intros ([c l1] & (a & -> & _ & -> & Hl1)%digit_char_ascii & ([cs1 r1] & Hc & [= <- <-])%bind_Some)%bind_Some;
    [|done].
  simpl in *. apply IH in Hc as [? ->]; done.
Qed.

Lemma up_to_chars_ascii n l cs r :
  all_ascii l → up_to_chars nd n l = (cs, r) →
  all_ascii r ∧ Forall (λ a, is_ascii_digit a = true) (concat cs).
Proof using All.
  revert l cs r. induction n as [|n IH]; intros l cs r Hl; simpl.
  { intros [= <- <-]. by split; [|constructor]. }
  destruct (digit_char nd l) as [[c l1]|] eqn:Hc; [|intros [= <- <-]; by split; [|constructor]].
  apply digit_char_ascii in Hc as (a & -> & Ha & -> & Hl1); [|done].
  destruct (up_to_chars nd n l1) as [cs1 r1] eqn:Hu. intros [= <- <-].
  apply IH in Hu as [? ?]; [|done]. split; [done|]. simpl. by constructor.
Qed.

Lemma lit_ascii c l r : all_ascii l → lit c l = Some r → all_ascii r ∧ l = c :: r.
Proof.
  destruct l as [|a l]; simpl; [done|]. intros [_ Hl]%Forall_cons. case_bool_decide; [|done].
  intros [= <-]. by subst.
Qed.

Lemma fraction_ascii l f r :
  all_ascii l → fraction_chars nd l = (f, r) → all_ascii r ∧ is_Some (fraction_millis f).
Proof using All.
  intros Hl. unfold fraction_chars. destruct (lit "." l) as [l1|] eqn:Hd; cycle 1.
  { intros [= <- <-]. by split; [|eexists]. }
  apply lit_ascii in Hd as [Hl1 _]; [|done].
  destruct (up_to_chars nd 3 l1) as [[|c cs] r1] eqn:Hu; intros [= <- <-]; [by split; [|eexists]|].
  apply up_to_chars_ascii in Hu as [? Hcs]; [|done]. split; [done|].
  unfold fraction_millis, expect. apply digits_total, Forall_app. split; [done|].
  apply Forall_forall. intros a Ha%list_elem_of_In%List.repeat_spec. by subst.
Qed.

Lemma time_regex_ascii l t r :
  all_ascii l → time_regex nd l = Some (t, r) → all_ascii r ∧ is_Some (fraction_millis (cap_fraction t)).
Proof using All.
  intros Hl. unfold time_regex.
  intros ([h1 h2] & Hh & Ht)%bind_Some. apply digit_chars_ascii in Hh as [Hh _]; [|done].
  apply bind_Some in Ht as (l1 & H1 & Ht). apply lit_ascii in H1 as [H1 _]; [|done].
  apply bind_Some in Ht as ([m1 m2] & Hm & Ht). apply digit_chars_ascii in Hm as [Hm _]; [|done].
  apply bind_Some in Ht as (l2 & H2 & Ht). apply lit_ascii in H2 as [H2 _]; [|done].
  apply bind_Some in Ht as ([s1 s2] & Hs & Ht). apply digit_chars_ascii in Hs as [Hs _]; [|done].
  simpl in Ht. destruct (fraction_chars nd s2) as [f r'] eqn:Hf. simplify_eq/=.
  by eapply fraction_ascii.
Qed.

Lemma date_regex_ascii l d r : all_ascii l → date_regex nd l = Some (d, r) → all_ascii r.
Proof using All.
  intros Hl. unfold date_regex.
  intros ([h1 h2] & Hh & Ht)%bind_Some. apply digit_chars_ascii in Hh as [Hh _]; [|done].
  apply bind_Some in Ht as (l1 & H1 & Ht). apply lit_ascii in H1 as [H1 _]; [|done].
  apply bind_Some in Ht as ([m1 m2] & Hm & Ht). apply digit_chars_ascii in Hm as [Hm _]; [|done].
  apply bind_Some in Ht as (l2 & H2 & Ht). apply lit_ascii in H2 as [H2 _]; [|done].
  apply bind_Some in Ht as ([s1 s2] & Hs & Ht). apply digit_chars_ascii in Hs as [Hs _]; [|done].
  by simplify_eq/=.
Qed.

Lemma zone_regex_ascii l z :
  all_ascii l → zone_regex nd l = Some z → z = l ∧ (z = ["Z"%char] ∨ length z = 6%nat).
Proof using All.
  unfold zone_regex. intros Hl Hz.
  assert (l = ["Z"%char] ∨ ∃ a r, l = a :: r ∧ l ≠ ["Z"%char]) as [->|(a & r & -> & Hne)].
  { destruct l as [|a [|b l]]; [done| |right; by eexists _, _].
    destruct (decide (a = "Z"%char)) as [->|?]; [by left|right; eexists _, _; split; [done|by intros [= ->]]]. }
  { simplify_eq. auto. }
  apply Forall_cons in Hl as [_ Hl].
  assert (Hgen : (if bool_decide (a = "+"%char) || bool_decide (a = "-"%char) then
        h ← digit_chars nd 2 r; r1 ← lit ":" h.2; m ← digit_chars nd 2 r1;
        match m.2 with [] => Some (a :: r) | _ => None end else None) = Some z).
  { destruct a as [[] [] [] [] [] [] [] []], r; try done; exact Hz. }
  clear Hz. case_match; [|done].
  apply bind_Some in Hgen as ([h1 h2] & Hh & Ht). apply digit_chars_ascii in Hh as [Hh Lh]; [|done].
  apply bind_Some in Ht as (l1 & H1 & Ht). apply lit_ascii in H1 as [H1 L1]; [|done].
  apply bind_Some in Ht as ([m1 m2] & Hm & Ht). apply digit_chars_ascii in Hm as [Hm Lm]; [|done].
  simpl in *. destruct m2; [|done]. simplify_eq. split; [done|]. right. simpl in *. lia.
Qed.

Lemma parse_offset_ascii s : all_ascii (bytes_of s) → is_Some (parse_offset_instant nd s).
Proof using All.
  intros Hs. unfold parse_offset_instant.
  destruct (offset_regex nd (bytes_of s)) as [[[d t] z]|] eqn:Hr; [|by eexists].
  unfold offset_regex in Hr.
  apply bind_Some in Hr as ([d1 r1] & Hd & Hr). apply date_regex_ascii in Hd; [|done].
  apply bind_Some in Hr as (r2 & H2 & Hr). apply lit_ascii in H2 as [H2 _]; [|done].
  apply bind_Some in Hr as ([t1 r3] & Ht & Hr). apply time_regex_ascii in Ht as [Ht [f Hf]]; [|done].
  apply bind_Some in Hr as (z1 & Hz & Hr). simpl in *. simplify_eq.
  apply zone_regex_ascii in Hz as [-> Hz]; [|done].
  rewrite Hf. destruct (calendar_millis _); [|by eexists].
  case_bool_decide; [by eexists|]. destruct Hz as [|Hz]; [done|].
  unfold str_slice. rewrite !char_boundary_ascii by (done || lia). simpl.
  case_match; [by eexists|]. case_match; by eexists.
Qed.

Lemma parse_local_ascii date time :
  all_ascii (bytes_of time) → is_Some (parse_local_fields nd date time).
Proof using All.
  intros Ht. unfold parse_local_fields. destruct (whole _); [|by eexists].
  destruct (time_regex nd (bytes_of time)) as [[t [|]]|] eqn:Hr; try by eexists.
  simpl. apply time_regex_ascii in Hr as [_ [f ->]]; [|done]. by eexists.
Qed.

Lemma resolve_local_ascii `{TimeZones} o :
  (∀ time, obj_get "time" o ≫= as_str = Some time → all_ascii (bytes_of time)) →
  is_Some (resolve_local_at nd o).
Proof using All.
  intros Ho. unfold resolve_local_at. case_match; [by eexists|].
  destruct (obj_get "date" o ≫= as_str) as [date|]; [|by eexists].
  destruct (obj_get "time" o ≫= as_str) as [time|]; [|by eexists].
  case_match; [|by eexists]. destruct (parse_local_ascii date time (Ho _ eq_refl)) as [[c|e] ->];
    simpl; [|by eexists].
  repeat (case_match; try by eexists).
Qed.
End ascii_input.
