(* ===== verification/ScheduleFacts.v ===== *)
(** * Schedules: the lemmas

    Records decode to themselves; the folded log is a list of reminders in
    creation order, on which each logged change acts as a list operation. *)

From S2P Require Import Prelude Json Protocol Session Calendar CalendarFacts Schedule.

#[local] Open Scope Z_scope.

(** ** Well-formed records *)

Definition id_ok (id : string) : Prop := is_empty id = false ∧ trimmed id = true.

Definition seconds_ok (r : Record_) : Prop :=
  match r_kind r with
  | After => ∃ s, r_after_seconds r = Some s ∧ 0 < s <= Z.of_N MAX_SAFE_INTEGER ∧
                  r_every_seconds r = None
  | At => r_after_seconds r = None ∧ r_every_seconds r = None
  | Every => r_after_seconds r = None ∧
      ∃ s, r_every_seconds r = Some s ∧ MIN_EVERY_SECONDS <= s <= Z.of_N MAX_SAFE_INTEGER
  end.

Record record_wf (r : Record_) : Prop := {
  wf_id : id_ok (r_id r);
  wf_prompt : is_empty (r_prompt r) = false ∧ trimmed (r_prompt r) = true;
  wf_time : format_instant (r_scheduled_ms r) = Some (r_scheduled_at r);
  wf_seconds : seconds_ok r;
}.

Lemma valid_id_Some id id' : valid_id id = Some id' ↔ id' = id ∧ id_ok id.
Proof.
  unfold valid_id, id_ok. destruct (is_empty id), (trimmed id); simpl;
    split; intros; destruct_and?; simplify_eq; done.
Qed.

Lemma filter_opt_Some {A} (f : A → bool) o a :
  filter_opt f o = Some a ↔ o = Some a ∧ f a = true.
Proof. unfold filter_opt. destruct o as [x|]; [destruct (f x) eqn:?|];
  split; intros; destruct_and?; simplify_eq; done || congruence. Qed.

Lemma format_representable ms s :
  format_instant ms = Some s → MIN_INSTANT_MS <= ms <= MAX_INSTANT_MS.
Proof.
  unfold format_instant. destruct (representable ms) eqn:Hr; [|done].
  intros _. by apply representable_iff.
Qed.

Lemma format_total ms :
  MIN_INSTANT_MS <= ms <= MAX_INSTANT_MS → is_Some (format_instant ms).
Proof. intros (s & Hs & _)%format_parse. by exists s. Qed.

Lemma parse_of_format ms s : format_instant ms = Some s → parse_instant s = Some ms.
Proof.
  intros Hf. destruct (format_parse ms (format_representable _ _ Hf)) as (s' & Hf' & Hp).
  congruence.
Qed.

Lemma format_of_parse s ms : parse_instant s = Some ms → format_instant ms = Some s.
Proof.
  unfold parse_instant. case_match; [done|]. intros Hp.
  repeat (apply bind_Some in Hp as (? & _ & Hp)). by case_bool_decide; simplify_eq.
Qed.

Lemma seconds_fit s :
  0 <= s <= Z.of_N MAX_SAFE_INTEGER → i64_checked_mul s 1000 = Some (s * 1000).
Proof.
  intros Hs. apply i64_checked_Some. split; [done|].
  unfold is_i64, I64_MIN, I64_MAX, MAX_SAFE_INTEGER in *. lia.
Qed.

Lemma as_i64_json s :
  0 <= s <= Z.of_N MAX_SAFE_INTEGER → as_i64 (json_i64 s) = Some s.
Proof.
  intros Hs. unfold json_i64. rewrite (proj2 (Z.leb_le 0 s)) by lia. simpl.
  rewrite Z2N.id by lia. rewrite (proj2 (Z.leb_le _ _)); [done|].
  unfold I64_MAX, MAX_SAFE_INTEGER in *. lia.
Qed.

(** Objects in the key order the [json!] literals of records produce. *)
Lemma after_value id p at_ sec ms ev :
  Record_value (mkRecord id After p at_ ms sec ev) =
    VObject [("afterSeconds", json_option json_i64 sec); ("id", VString id);
             ("kind", VString "after"); ("prompt", VString p); ("scheduledAt", VString at_)].
Proof. reflexivity. Qed.
Lemma at_value id p at_ sec ms ev :
  Record_value (mkRecord id At p at_ ms sec ev) =
    VObject [("id", VString id); ("kind", VString "at"); ("prompt", VString p);
             ("scheduledAt", VString at_)].
Proof. reflexivity. Qed.
Lemma every_value id p at_ sec ms ev :
  Record_value (mkRecord id Every p at_ ms sec ev) =
    VObject [("everySeconds", json_option json_i64 ev); ("id", VString id);
             ("kind", VString "every"); ("prompt", VString p); ("scheduledAt", VString at_)].
Proof. reflexivity. Qed.

#[local] Arguments json_i64 : simpl never.
#[local] Arguments as_i64 : simpl never.

(** What is written is what is read back. *)
Lemma decode_value r : record_wf r → decode_record (Record_value r) = Some r.
Proof.
  destruct r as [id kind p at_ ms af ev]. intros [Hid [Hp1 Hp2] Ht Hs]. simpl in *.
  apply parse_of_format in Ht. unfold seconds_ok in Hs. simpl in Hs.
  assert (valid_id id = Some id) as Hv by by apply valid_id_Some.
  destruct kind.
  - destruct Hs as (s & -> & Hs & ->). rewrite after_value. unfold decode_record. simpl.
    rewrite Hv. simpl. rewrite Hp1, Hp2. simpl. rewrite Ht. simpl.
    rewrite as_i64_json by (unfold MAX_SAFE_INTEGER; lia). simpl. unfold MAX_SAFE_INTEGER in *.
    by rewrite !(proj2 (Z.leb_le _ _)), (proj2 (Z.ltb_lt _ _)) by lia.
  - destruct Hs as [-> ->]. rewrite at_value. unfold decode_record. simpl.
    rewrite Hv. simpl. rewrite Hp1, Hp2. simpl. by rewrite Ht.
  - destruct Hs as (-> & s & -> & Hs). rewrite every_value. unfold decode_record. simpl.
    rewrite Hv. simpl. rewrite Hp1, Hp2. simpl. rewrite Ht. simpl.
    unfold MIN_EVERY_SECONDS in *. rewrite as_i64_json by (unfold MAX_SAFE_INTEGER; lia). simpl.
    rewrite !(proj2 (Z.leb_le _ _)) by (unfold MIN_EVERY_SECONDS, MAX_SAFE_INTEGER in *; lia). simpl.
    rewrite seconds_fit by (unfold MAX_SAFE_INTEGER; lia). done.
Qed.

(** Everything decoded is well formed. *)
Lemma decode_wf v r : decode_record v = Some r → record_wf r.
Proof.
  unfold decode_record. intros Hd.
  repeat match goal with H : (_ ≫= _) = Some _ |- _ => apply bind_Some in H as (? & ? & ?) end.
  simplify_eq.
  repeat match goal with
  | H : valid_id _ = Some _ |- _ => apply valid_id_Some in H as [-> ?]
  | H : filter_opt _ _ = Some _ |- _ => apply filter_opt_Some in H as [? ?]
  | H : parse_instant _ = Some _ |- _ => apply format_of_parse in H
  | H : (_ && _)%bool = true |- _ => apply andb_true_iff in H as [? ?]
  | H : negb _ = true |- _ => apply negb_true_iff in H
  end.
  split; simpl; [done..|]. unfold seconds_ok. simpl.
  repeat match goal with k : Kind |- _ => destruct k end; simplify_eq; try done;
  repeat match goal with H : (_ ≫= _) = Some _ |- _ => apply bind_Some in H as (? & ? & ?) end;
  simplify_eq;
  repeat match goal with
  | H : filter_opt _ _ = Some _ |- _ => apply filter_opt_Some in H as [? ?]
  | H : (_ && _)%bool = true |- _ => apply andb_true_iff in H as [? ?]
  | H : (_ <=? _) = true |- _ => apply Z.leb_le in H
  | H : (_ <? _) = true |- _ => apply Z.ltb_lt in H
  end; eauto 10.
Qed.

(** ** The log as list operations *)

(** The changes the program writes, and the payload of each. *)
Inductive change :=
| Create (r : Record_)
| Delete (id : string)
| Dispatch (id : string)
| DispatchEvery (id accepted_at : string).

Definition change_data (c : change) : Value :=
  match c with
  | Create r => create_data r
  | Delete id => delete_data id
  | Dispatch id => dispatch_data id
  | DispatchEvery id at_ => dispatch_every_data id at_
  end.
Definition change_ok (c : change) : Prop :=
  match c with
  | Create r => record_wf r
  | Delete id | Dispatch id | DispatchEvery id _ => id_ok id
  end.

Definition find_id (id : string) (l : list Record_) : option Record_ :=
  List.find (λ r, String.eqb (r_id r) id) l.
Definition drop_id (id : string) (l : list Record_) : list Record_ :=
  filter (λ r, r_id r ≠ id) l.
Definition replace_id (id : string) (n : Record_) (l : list Record_) : list Record_ :=
  (λ r, if String.eqb (r_id r) id then n else r) <$> l.

(** The abstract schedule: the reminders in creation order, and the ids used. *)
Definition apply_change (F : Folded) (c : change) : option Folded :=
  match c with
  | Create r =>
      if bool_decide (r_id r ∈ f_seen F) then None
      else Some (mkFolded (f_active F ++ [r]) ({[ r_id r ]} ∪ f_seen F))
  | Delete id =>
      _ ← find_id id (f_active F); Some (mkFolded (drop_id id (f_active F)) (f_seen F))
  | Dispatch id =>
      r ← find_id id (f_active F);
      if is_every r then None else Some (mkFolded (drop_id id (f_active F)) (f_seen F))
  | DispatchEvery id at_ =>
      r ← find_id id (f_active F);
      if is_every r then
        accepted ← parse_instant at_;
        next ← every_next r accepted;
        Some (mkFolded match next with
                       | Some n => replace_id id n (f_active F)
                       | None => drop_id id (f_active F)
                       end (f_seen F))
      else None
  end.

Lemma existsb_find id l :
  existsb (λ r, String.eqb (r_id r) id) l = true → is_Some (find_id id l).
Proof.
  intros (r & Hr & Hid)%existsb_exists. unfold find_id.
  destruct (List.find _ l) eqn:Hf; [by eexists|].
  by rewrite (List.find_none _ _ Hf r Hr) in Hid.
Qed.

Record folding_wf (f : folding) : Prop := {
  fw_order : NoDup (fg_order f);
  fw_seen : ∀ id, id ∈ fg_order f ↔ id ∈ fg_seen f;
  fw_active : ∀ id r, fg_active f !! id = Some r → r_id r = id ∧ record_wf r ∧ id ∈ fg_order f;
}.

Definition actives (m : gmap string Record_) (order : list string) : list Record_ :=
  omap (λ id, m !! id) order.
Definition keyed (m : gmap string Record_) : Prop := ∀ id r, m !! id = Some r → r_id r = id.

Lemma take_active_omap order m : NoDup order → take_active order m = actives m order.
Proof.
  unfold actives. revert m. induction order as [|id order IH]; intros m Hnd; simpl; [done|].
  apply NoDup_cons in Hnd as [Hn Hnd].
  destruct (m !! id) as [r|]; rewrite IH by done; [|done]. f_equal.
  apply list_omap_ext, Forall2_same_length_lookup_2; [done|]. intros i x y Hx Hy. simplify_eq.
  rewrite lookup_delete_ne; [done|]. intros ->. apply Hn. by eapply list_elem_of_lookup_2.
Qed.

Lemma actives_app m l1 l2 : actives m (l1 ++ l2) = actives m l1 ++ actives m l2.
Proof. unfold actives. induction l1 as [|x l1 IH]; simpl; [done|]. destruct (m !! x); simpl; [f_equal|]; apply IH. Qed.

Lemma actives_ext m m' order :
  (∀ id, id ∈ order → m !! id = m' !! id) → actives m order = actives m' order.
Proof.
  unfold actives. induction order as [|id order IH]; intros Hext; [done|]. csimpl.
  rewrite (Hext id) by left. rewrite IH; [done|]. intros x Hx. apply Hext. by right.
Qed.

Lemma actives_delete m order id :
  keyed m → actives (delete id m) order = drop_id id (actives m order).
Proof.
  intros Hk. unfold actives, drop_id. induction order as [|x order IH]; [done|]. csimpl.
  destruct (decide (x = id)) as [->|Hne].
  - rewrite lookup_delete_eq, IH. destruct (m !! id) as [r|] eqn:Hr; [|done].
    rewrite filter_cons_False; [done|]. intros Hx. apply Hx. by apply Hk.
  - rewrite lookup_delete_ne by done. destruct (m !! x) as [r|] eqn:Hr; rewrite IH; [|done].
    rewrite filter_cons_True; [done|]. by rewrite (Hk _ _ Hr).
Qed.

Lemma actives_insert m order id r n :
  keyed m → m !! id = Some r → actives (<[id := n]> m) order = replace_id id n (actives m order).
Proof.
  intros Hk Hid. unfold actives, replace_id. induction order as [|x order IH]; [done|]. csimpl.
  destruct (decide (x = id)) as [->|Hne].
  - rewrite lookup_insert_eq, Hid, IH. simpl. by rewrite (Hk _ _ Hid), String.eqb_refl.
  - rewrite lookup_insert_ne by done. destruct (m !! x) as [y|] eqn:Hy; rewrite IH; [|done].
    simpl. rewrite (Hk _ _ Hy). by destruct (String.eqb_spec x id).
Qed.

Lemma find_actives m order id :
  keyed m → (∀ r, m !! id = Some r → id ∈ order) → find_id id (actives m order) = m !! id.
Proof.
  intros Hk Hin. unfold find_id, actives. induction order as [|x order IH]; csimpl.
  - destruct (m !! id) as [r|]; [|done]. by pose proof (Hin r eq_refl) as ?%elem_of_nil.
  - destruct (m !! x) as [y|] eqn:Hy; simpl.
    + rewrite (Hk _ _ Hy). destruct (String.eqb_spec x id) as [->|Hne]; [by rewrite Hy|].
      apply IH. intros r Hr. by apply Hin, elem_of_cons in Hr as [?|?].
    + apply IH. intros r Hr. pose proof (Hin r Hr) as [->|?]%elem_of_cons; [congruence|done].
Qed.

(** *** One logged change *)

Definition folded_of (f : folding) : Folded :=
  mkFolded (take_active (fg_order f) (fg_active f)) (fg_seen f).

Lemma record_id_value r : get "id" (Record_value r) ≫= as_str = Some (r_id r).
Proof. destruct r as [id [| |] p at_ ms af ev]; reflexivity. Qed.

Lemma create_data_value r :
  create_data r = VObject [("operation", VString "create"); ("schedule", Record_value r);
                           ("version", json_u64 1)].
Proof. reflexivity. Qed.

Lemma every_next_wf r accepted n :
  record_wf r → every_next r accepted = Some (Some n) → record_wf n ∧ r_id n = r_id r.
Proof.
  intros [Hid Hp Ht Hs] Hn. unfold every_next in Hn.
  apply bind_Some in Hn as (i & _ & Hn). case_match; [done|].
  repeat (apply bind_Some in Hn as (? & _ & Hn)).
  case_match eqn:Hf; simplify_eq. done.
Qed.

Section fold_step.
Context (f : folding) (Hwf : folding_wf f).

Lemma folding_keyed : keyed (fg_active f).
Proof using Hwf. intros id r Hr. by apply (fw_active f Hwf) in Hr as (? & _). Qed.

Lemma folded_active : f_active (folded_of f) = actives (fg_active f) (fg_order f).
Proof using Hwf. simpl. apply take_active_omap, Hwf. Qed.

Lemma folded_find id : find_id id (f_active (folded_of f)) = fg_active f !! id.
Proof using Hwf.
  rewrite folded_active. apply find_actives; [apply folding_keyed|].
  intros r Hr. by apply (fw_active f Hwf) in Hr as (_ & _ & ?).
Qed.

Lemma folding_delete_wf id : folding_wf (mkFolding (delete id (fg_active f)) (fg_order f) (fg_seen f)).
Proof using Hwf.
  split; simpl; [apply Hwf|apply Hwf|]. intros id' r [_ Hr]%lookup_delete_Some. by apply Hwf.
Qed.

Lemma folded_delete id :
  folded_of (mkFolding (delete id (fg_active f)) (fg_order f) (fg_seen f)) =
    mkFolded (drop_id id (f_active (folded_of f))) (f_seen (folded_of f)).
Proof using Hwf.
  unfold folded_of at 1. simpl. f_equal. rewrite !take_active_omap by apply Hwf.
  apply actives_delete, folding_keyed.
Qed.

Lemma fold_create_step r now seq :
  record_wf r →
  match fold_event f (schedule_event (create_data r) now seq) with
  | Some f' => folding_wf f' ∧ apply_change (folded_of f) (Create r) = Some (folded_of f')
  | None => apply_change (folded_of f) (Create r) = None
  end.
Proof using Hwf.
  intros Hr. unfold fold_event. simpl. unfold fold_create. simpl.
  rewrite (decode_value r Hr). simpl.
  destruct (decide (r_id r ∈ fg_seen f)) as [Hs|Hs].
  { rewrite !bool_decide_eq_true_2 by done. done. }
  rewrite (bool_decide_eq_false_2 (r_id r ∈ fg_seen f)) by done.
  assert (fg_active f !! r_id r = None) as Hnone.
  { apply eq_None_not_Some. intros [x Hx]. apply (fw_active f Hwf) in Hx as (_ & _ & Hx).
    by apply Hs, (fw_seen f Hwf). }
  rewrite Hnone. rewrite bool_decide_eq_false_2 by (by intros [? ?]). simpl.
  rewrite record_id_value. simpl. split.
  - split; simpl.
    + apply NoDup_app. split_and!; [apply Hwf| |apply NoDup_singleton].
      intros x Hx ->%list_elem_of_singleton. by apply Hs, (fw_seen f Hwf).
    + intros id. rewrite elem_of_app, list_elem_of_singleton, elem_of_union, elem_of_singleton.
      rewrite (fw_seen f Hwf). tauto.
    + intros id x. rewrite lookup_insert. case_decide as Heq.
      * intros [= <-]. rewrite elem_of_app, list_elem_of_singleton. auto.
      * intros Hx. apply (fw_active f Hwf) in Hx as (? & ? & ?). rewrite elem_of_app. auto.
  - assert (NoDup (fg_order f ++ [r_id r])) as Hnd.
    { apply NoDup_app. split_and!; [apply Hwf| |apply NoDup_singleton].
      intros x Hx ->%list_elem_of_singleton. by apply Hs, (fw_seen f Hwf). }
    unfold folded_of. simpl. f_equal. f_equal.
    rewrite (take_active_omap (fg_order f ++ _)) by done.
    rewrite (take_active_omap (fg_order f)) by apply Hwf.
    rewrite actives_app. f_equal; [|by unfold actives; csimpl; rewrite lookup_insert_eq].
    apply actives_ext. intros id Hid. rewrite lookup_insert_ne; [done|].
    intros <-. by apply Hs, (fw_seen f Hwf).
Qed.

Lemma fold_delete_step id now seq :
  id_ok id →
  match fold_event f (schedule_event (delete_data id) now seq) with
  | Some f' => folding_wf f' ∧ apply_change (folded_of f) (Delete id) = Some (folded_of f')
  | None => apply_change (folded_of f) (Delete id) = None
  end.
Proof using Hwf.
  intros Hid. unfold fold_event. simpl. unfold fold_delete. simpl.
  rewrite (proj2 (valid_id_Some id id) (conj eq_refl Hid)). simpl.
  rewrite folded_find. destruct (fg_active f !! id) as [r|] eqn:Hr; simpl; [|done].
  split; [apply folding_delete_wf|]. by rewrite folded_delete.
Qed.

Lemma fold_dispatch_step id now seq :
  id_ok id →
  match fold_event f (schedule_event (dispatch_data id) now seq) with
  | Some f' => folding_wf f' ∧ apply_change (folded_of f) (Dispatch id) = Some (folded_of f')
  | None => apply_change (folded_of f) (Dispatch id) = None
  end.
Proof using Hwf.
  intros Hid. unfold fold_event. simpl. unfold fold_dispatch. simpl.
  rewrite (proj2 (valid_id_Some id id) (conj eq_refl Hid)). simpl.
  rewrite folded_find. destruct (fg_active f !! id) as [r|] eqn:Hr; simpl; [|done].
  unfold is_every. case_bool_decide; [done|]. split; [apply folding_delete_wf|].
  by rewrite folded_delete.
Qed.

Lemma fold_dispatch_every_step id at_ now seq :
  id_ok id →
  match fold_event f (schedule_event (dispatch_every_data id at_) now seq) with
  | Some f' => folding_wf f' ∧ apply_change (folded_of f) (DispatchEvery id at_) = Some (folded_of f')
  | None => apply_change (folded_of f) (DispatchEvery id at_) = None
  end.
Proof using Hwf.
  intros Hid. unfold fold_event. simpl. unfold fold_dispatch. simpl.
  rewrite (proj2 (valid_id_Some id id) (conj eq_refl Hid)). simpl.
  rewrite folded_find. destruct (fg_active f !! id) as [r|] eqn:Hr; simpl; [|done].
  unfold is_every. case_bool_decide; [|done].
  destruct (parse_instant at_) as [accepted|]; simpl; [|done].
  destruct (every_next r accepted) as [[n|]|] eqn:Hn; simpl; [| |done].
  - destruct (fw_active f Hwf _ _ Hr) as (Hrid & Hrwf & Hin).
    destruct (every_next_wf _ _ _ Hrwf Hn) as [Hnwf Hnid].
    rewrite insert_delete_eq. split.
    + split; simpl; [apply Hwf|apply Hwf|]. intros id' x. rewrite lookup_insert.
      case_decide as Heq; [intros [= <-]; subst id'; by rewrite Hnid|]. apply Hwf.
    + unfold folded_of. simpl. f_equal. f_equal. rewrite !take_active_omap by apply Hwf.
      symmetry. by apply (actives_insert _ _ _ r); [apply folding_keyed|].
  - split; [apply folding_delete_wf|]. by rewrite folded_delete.
Qed.

Lemma fold_change_step c now seq :
  change_ok c →
  match fold_event f (schedule_event (change_data c) now seq) with
  | Some f' => folding_wf f' ∧ apply_change (folded_of f) c = Some (folded_of f')
  | None => apply_change (folded_of f) c = None
  end.
Proof using Hwf.
  destruct c; [apply fold_create_step|apply fold_delete_step|apply fold_dispatch_step
    |apply fold_dispatch_every_step].
Qed.
End fold_step.
