(* ===== verification/ScheduleRunFacts.v ===== *)
(** * Schedules: handlers and the driver

    The folded log under appends to the session, the ids the allocator gives
    out, and the records the creation handler writes. *)

From S2P Require Import Prelude Json Protocol Session SessionFacts.
From S2P Require Import Calendar CalendarFacts Schedule ScheduleFacts.

#[local] Open Scope Z_scope.

(** ** Every folded log is well formed *)

Lemma empty_folding_wf : folding_wf empty_folding.
Proof. split; simpl; [constructor|set_solver|]. intros id r. by rewrite lookup_empty. Qed.

Lemma decode_id v r : decode_record v = Some r → get "id" v ≫= as_str = Some (r_id r).
Proof.
  unfold decode_record. intros (o & Ho & Hd)%bind_Some.
  destruct v; simplify_eq/=.
  repeat (apply bind_Some in Hd as (? & ? & Hd)). simplify_eq/=.
  by match goal with Hv : valid_id _ = Some _ |- _ => apply valid_id_Some in Hv as [-> _] end.
Qed.

Lemma fold_create_wf o f f' : folding_wf f → fold_create o f = Some f' → folding_wf f'.
Proof.
  intros Hwf. unfold fold_create. case_match; [done|].
  intros (v & _ & (r & Hr & Hf)%bind_Some)%bind_Some. case_match eqn:Hnew; [done|].
  rewrite (decode_id _ _ Hr) in Hf. simpl in Hf. simplify_eq.
  apply orb_false_iff in Hnew as [Hs _]. apply bool_decide_eq_false in Hs.
  split; simpl.
  - apply NoDup_app. split_and!; [apply Hwf| |apply NoDup_singleton].
    intros x Hx ->%list_elem_of_singleton. by apply Hs, (fw_seen f Hwf).
  - intros id. rewrite elem_of_app, list_elem_of_singleton, elem_of_union, elem_of_singleton.
    rewrite (fw_seen f Hwf). tauto.
  - intros id x. rewrite lookup_insert. case_decide as Heq.
    + intros [= <-]. rewrite elem_of_app, list_elem_of_singleton.
      split_and!; [done|by eapply decode_wf|auto].
    + intros Hx. apply (fw_active f Hwf) in Hx as (? & ? & ?). rewrite elem_of_app. auto.
Qed.

Lemma fold_delete_wf o f f' : folding_wf f → fold_delete o f = Some f' → folding_wf f'.
Proof.
  intros Hwf. unfold fold_delete. case_match; [done|].
  intros (? & _ & (? & _ & Hf)%bind_Some)%bind_Some. case_match; simplify_eq.
  by apply folding_delete_wf.
Qed.

Lemma fold_dispatch_wf o f f' : folding_wf f → fold_dispatch o f = Some f' → folding_wf f'.
Proof.
  intros Hwf. unfold fold_dispatch.
  intros (? & _ & (id & _ & (r & Hr & Hf)%bind_Some)%bind_Some)%bind_Some.
  case_bool_decide; case_match; try done; [|by simplify_eq; apply folding_delete_wf].
  repeat (apply bind_Some in Hf as (? & ? & Hf)). simplify_eq.
  match goal with Hn : every_next r _ = Some ?o |- _ => destruct o as [n|] end;
    [|by apply folding_delete_wf].
  destruct (fw_active f Hwf _ _ Hr) as (Hrid & Hrwf & Hin).
  match goal with Hn : every_next r _ = _ |- _ =>
    destruct (every_next_wf _ _ _ Hrwf Hn) as [Hnwf Hnid] end.
  rewrite insert_delete_eq. split; simpl; [apply Hwf|apply Hwf|].
  intros id' y. rewrite lookup_insert. case_decide; [|apply Hwf].
  intros [= <-]. subst id'. by rewrite Hnid.
Qed.

Lemma fold_event_wf e f f' : folding_wf f → fold_event f e = Some f' → folding_wf f'.
Proof.
  intros Hwf. unfold fold_event. case_match; [by intros [= <-]|].
  intros (o & _ & Hf)%bind_Some. repeat case_match; try done;
    eauto using fold_create_wf, fold_delete_wf, fold_dispatch_wf.
Qed.

Lemma fold_events_wf l f f' : folding_wf f → fold_events f l = Some f' → folding_wf f'.
Proof.
  revert f. induction l as [|e l IH]; intros f Hwf; simpl; [by intros [= <-]|].
  intros (f1 & H1 & H2)%bind_Some. eauto using fold_event_wf.
Qed.

Lemma fold_events_app l1 l2 f :
  fold_events f (l1 ++ l2) = (f' ← fold_events f l1; fold_events f' l2).
Proof.
  revert f. induction l1 as [|e l1 IH]; intros f; simpl; [done|].
  destruct (fold_event f e); simpl; [apply IH|done].
Qed.

(** What a successful fold is. *)
Lemma fold_Some s F :
  fold s = Some F →
  let k := N.to_nat (default 0%N (h_seed_length (s_header s))) in
  (k <= length (st_events (s_state s)))%nat ∧
  ∃ f, fold_events empty_folding (drop k (st_events (s_state s))) = Some f ∧
       folding_wf f ∧ F = folded_of f.
Proof.
  unfold fold. simpl. case_match eqn:Hk; [done|]. apply Nat.ltb_ge in Hk.
  intros (f & Hf & [= <-])%bind_Some. split; [done|]. exists f.
  eauto using fold_events_wf, empty_folding_wf.
Qed.

Lemma folded_seen f : folding_wf f → ∀ r, r ∈ f_active (folded_of f) → r_id r ∈ f_seen (folded_of f).
Proof.
  intros Hwf r. rewrite folded_active by done. unfold actives.
  rewrite list_elem_of_omap. intros (id & Hid & Hr).
  apply (fw_active f Hwf) in Hr as (<- & _ & _). by apply (fw_seen f Hwf).
Qed.

(** The promises of a fold: known, distinct ids and well-formed records. *)
Record folded_wf (F : Folded) : Prop := {
  fo_ids : NoDup (r_id <$> f_active F);
  fo_seen : ∀ r, r ∈ f_active F → r_id r ∈ f_seen F;
  fo_wf : Forall record_wf (f_active F);
}.

Lemma actives_ids m order : keyed m → NoDup order → NoDup (r_id <$> actives m order).
Proof.
  intros Hk Hnd. eapply sublist_NoDup; [done|]. unfold actives. clear Hnd.
  induction order as [|id order IH]; csimpl; [done|].
  destruct (m !! id) as [r|] eqn:Hr; csimpl; [|by apply sublist_cons].
  rewrite (Hk _ _ Hr). by apply sublist_skip.
Qed.

Lemma folded_of_wf f : folding_wf f → folded_wf (folded_of f).
Proof.
  intros Hwf. split; [|by apply folded_seen|]; rewrite folded_active by done.
  - apply actives_ids; [by apply folding_keyed|apply Hwf].
  - apply Forall_forall. unfold actives. intros r. rewrite list_elem_of_omap.
    intros (id & _ & Hr). by apply (fw_active f Hwf) in Hr as (_ & ? & _).
Qed.

Lemma fold_wf s F : fold s = Some F → folded_wf F.
Proof. intros (_ & f & _ & Hwf & ->)%fold_Some. by apply folded_of_wf. Qed.

(** ** Appends *)

(** A log extended by one event folds one step further. *)
Lemma fold_extend s s' F e :
  fold s = Some F → s_header s' = s_header s →
  st_events (s_state s') = st_events (s_state s) ++ [e] →
  ∃ f, folding_wf f ∧ F = folded_of f ∧
    fold s' = (f' ← fold_event f e; Some (folded_of f')).
Proof.
  intros (Hk & f & Hf & Hwf & ->)%fold_Some Hh He. exists f. split_and!; [done..|].
  unfold fold. rewrite Hh, He, length_app, drop_app_le by done. simpl.
  rewrite (proj2 (Nat.ltb_ge _ _)) by lia. rewrite fold_events_app, Hf. simpl.
  by destruct (fold_event f e).
Qed.

Lemma fold_extend_other s s' F e :
  fold s = Some F → s_header s' = s_header s →
  st_events (s_state s') = st_events (s_state s) ++ [e] →
  event_type e ≠ "schedule/change" → fold s' = Some F.
Proof.
  intros Hf Hh He Ht. destruct (fold_extend s s' F e Hf Hh He) as (f & _ & -> & ->).
  unfold fold_event. destruct (String.eqb_spec (event_type e) "schedule/change"); done.
Qed.

Lemma fold_extend_change s s' F c now seq :
  fold s = Some F → s_header s' = s_header s →
  st_events (s_state s') = st_events (s_state s) ++ [schedule_event (change_data c) now seq] →
  change_ok c → fold s' = apply_change F c.
Proof.
  intros Hf Hh He Hc. destruct (fold_extend s s' F _ Hf Hh He) as (f & Hwf & -> & ->).
  pose proof (fold_change_step f Hwf c now seq Hc) as Hs.
  destruct (fold_event f _) as [f'|]; simpl; [by destruct Hs as [_ ->]|done].
Qed.

Section sessions.
Context `{ProtocolWire} {S : Type} `{SessionPersistence S}.

Lemma append_change_inv t data now s (b : S) r s' b' :
  append_change t data now s b = (r, s', b') →
  (r = false ∧ s' = s) ∨
  (∃ seq, r = true ∧ s_header s' = s_header s ∧
     st_events (s_state s') = st_events (s_state s) ++ [schedule_event data now seq]).
Proof.
  unfold append_change. destruct (append_next _ _ _ _) as [[r1 s1] b1] eqn:Ha.
  intros [= <- <- <-]. apply append_next_inv in Ha as [[Hr ->]|(seq & -> & Hh & He)].
  - by left.
  - right. by exists seq.
Qed.

(** One change: the log as it was, or the abstract operation. *)
Lemma append_change_fold t c now s (b : S) r s' b' F :
  fold s = Some F → change_ok c →
  append_change t (change_data c) now s b = (r, s', b') →
  s_header s' = s_header s ∧
  if r then fold s' = apply_change F c else s' = s.
Proof.
  intros Hf Hc [[-> ->]|(seq & -> & Hh & He)]%append_change_inv; [done|].
  split; [done|]. by eapply fold_extend_change.
Qed.
End sessions.

(** ** Ids *)

Definition plain_byte (a : ascii) : bool := ((33 <=? byte a) && (byte a <=? 126))%N.

Lemma plain_lead t2 t3 a l :
  plain_byte a = true → (∀ b, t2 a b = false) → (∀ b c, t3 a b c = false) →
  lead_ws t2 t3 (a :: l) = None.
Proof.
  intros Ha H2 H3. simpl. replace (ws1 a) with false; cycle 1.
  { unfold plain_byte, ws1 in *. destruct (N.leb_spec 33 (byte a)); [|done].
    rewrite !(proj2 (N.leb_gt (byte a) 13)), (proj2 (N.eqb_neq (byte a) 32)) by lia.
    by rewrite andb_false_r. }
  destruct l as [|b [|c l]]; rewrite ?H2, ?H3; done.
Qed.

(** Every byte of a longer white-space character is above 127. *)
Lemma plain_low a k : plain_byte a = true → (127 <= k)%N →
  (byte a =? k)%N = false ∧ (k <=? byte a)%N = false.
Proof.
  unfold plain_byte. rewrite andb_true_iff, !N.leb_le. intros Ha Hk.
  split; [apply N.eqb_neq|apply N.leb_gt]; lia.
Qed.

Ltac plain_bytes :=
  match goal with Hp : plain_byte ?a = true |- _ =>
    intros; unfold ws2, ws3;
    repeat match goal with
    | |- context [(byte a =? ?k)%N] => rewrite (proj1 (plain_low a k Hp ltac:(done)))
    | |- context [(?k <=? byte a)%N] => rewrite (proj2 (plain_low a k Hp ltac:(done)))
    end; rewrite ?andb_false_r; done
  end.

(** A string that begins and ends with printable ASCII is its own trimming. *)
Lemma plain_trimmed s a l l' b :
  bytes_of s = a :: l → bytes_of s = l' ++ [b] →
  plain_byte a = true → plain_byte b = true → trimmed s = true.
Proof.
  intros Ha Hb Hpa Hpb. apply trimmed_eq. unfold trim, trim_start_bytes, trim_end_bytes.
  rewrite (strip_ws_fix ws2 ws3); [|rewrite Ha; clear Hpb; apply plain_lead; [done|plain_bytes|plain_bytes]].
  rewrite strip_ws_fix; [|rewrite Hb, rev_unit; clear Hpa; apply plain_lead; [done|plain_bytes|plain_bytes]].
  rewrite rev_involutive. apply String.string_of_list_ascii_of_string.
Qed.

Lemma pretty_go_prefix x s : ∃ p, pretty_N_go x s = p +:+ s.
Proof.
  revert s. induction (N.lt_wf_0 x) as [x _ IH]; intros s.
  destruct (decide (x = 0%N)) as [->|Hx]; [by exists ""|].
  rewrite pretty_N_go_step by lia.
  destruct (IH (x `div` 10)%N ltac:(apply N.div_lt; lia)
              (String (pretty_N_char (x `mod` 10)) s)) as [p ->].
  exists (p +:+ String (pretty_N_char (x `mod` 10)) "").
  generalize (pretty_N_char (x `mod` 10)). clear. intros a.
  induction p as [|c p IH]; [done|]. exact (f_equal (String c) IH).
Qed.

Lemma plain_digit n : plain_byte (pretty_N_char n) = true.
Proof. unfold pretty_N_char. by repeat case_match. Qed.

Lemma pretty_digits n : ∃ l b, bytes_of (fmt_N n) = l ++ [b] ∧ plain_byte b = true.
Proof.
  unfold fmt_N, pretty, pretty_N. case_decide as Hn; [by exists [], "0"%char|].
  rewrite pretty_N_go_step by lia.
  destruct (pretty_go_prefix (n `div` 10) (String (pretty_N_char (n `mod` 10)) "")) as [p ->].
  eexists (bytes_of p), _. rewrite bytes_of_app. split; [reflexivity|apply plain_digit].
Qed.

Lemma schedule_id_ok n : id_ok ("schedule-" +:+ fmt_N n).
Proof.
  split; [done|]. destruct (pretty_digits n) as (l & b & Hl & Hb).
  eapply (plain_trimmed _ "s" _ (bytes_of "schedule-" ++ l) b);
    [reflexivity| |reflexivity|done].
  by rewrite bytes_of_app, Hl, app_assoc.
Qed.

Definition schedule_id (n : N) : string := ("schedule-" +:+ fmt_N n)%string.

#[export] Instance schedule_id_inj : Inj (=) (=) schedule_id.
Proof. intros m n Hmn%String.app_inj. by apply pretty_N_inj. Qed.

Lemma allocate_from_Some fuel n seen id :
  allocate_from fuel n seen = Some id →
  ∃ m, id = schedule_id m ∧ (id ∉ seen) ∧ (n <= m)%N ∧
       ∀ i, (n <= i < m)%N → schedule_id i ∈ seen.
Proof.
  revert n. induction fuel as [|fuel IH]; intros n; simpl; [done|].
  case_bool_decide as Hn.
  - intros (m & -> & Hm & Hle & Hall)%IH. exists m. split_and!; [done..|lia|].
    intros i Hi. destruct (decide (i = n)) as [->|]; [done|]. apply Hall. lia.
  - intros [= <-]. exists n. split_and!; [done..|lia|]. intros. lia.
Qed.

Lemma allocate_from_None fuel n seen :
  allocate_from fuel n seen = None →
  ∀ i, (i < fuel)%nat → schedule_id (n + N.of_nat i) ∈ seen.
Proof.
  revert n. induction fuel as [|fuel IH]; intros n; simpl; [lia|].
  case_bool_decide as Hn; [|done]. intros Hf [|i] Hi.
  - by rewrite N.add_0_r.
  - replace (n + N.of_nat (S i))%N with (n + 1 + N.of_nat i)%N by lia. apply IH; [done|lia].
Qed.

(** A set of [k] ids does not contain [k + 1] consecutive numbers. *)
Lemma allocate_from_total n (seen : gset string) : is_Some (allocate_from (S (size seen)) n seen).
Proof.
  destruct (allocate_from _ _ _) as [id|] eqn:Ha; [by eexists|].
  pose proof (allocate_from_None _ _ _ Ha) as Hall. exfalso.
  set (l := (λ i, schedule_id (n + N.of_nat i)) <$> seq 0 (S (size seen))).
  assert (size (list_to_set l : gset string) = S (size seen)) as Hs.
  { rewrite size_list_to_set; [unfold l; by rewrite length_fmap, length_seq|].
    unfold l. apply NoDup_fmap_2; [|apply NoDup_seq]. intros i j Hij%schedule_id_inj. lia. }
  assert ((list_to_set l : gset string) ⊆ seen) as Hsub.
  { intros x. rewrite elem_of_list_to_set. unfold l. rewrite list_elem_of_fmap.
    intros (i & -> & Hi%elem_of_seq). apply Hall. lia. }
  apply subseteq_size in Hsub. lia.
Qed.

(** ** The record the creation handler writes *)

Lemma Record_new_Ok id kind prompt target af ev now r :
  Record_new id kind prompt target af ev now = Ok r →
  now < target ∧ ∃ at_, format_instant target = Some at_ ∧
    r = mkRecord id kind prompt at_ target af ev.
Proof.
  unfold Record_new. intros Hr. invert_ok.
  match goal with Hn : (_ <=? _) = false |- _ => apply Z.leb_gt in Hn end. eauto.
Qed.

Lemma seconds_after_Ok seconds now t :
  seconds_after seconds now = Ok t → t = now + seconds * 1000.
Proof.
  unfold seconds_after. intros Ht. invert_ok.
  repeat match goal with Hc : i64_checked_add _ _ = _ |- _ => apply i64_checked_Some in Hc as [-> _]
    | Hc : i64_checked_mul _ _ = _ |- _ => apply i64_checked_Some in Hc as [-> _] end. done.
Qed.

Lemma check_create_prompt arguments prompt :
  check_create arguments = Ok prompt →
  prompt = default "" (get_str "prompt" arguments) ∧ blank prompt = false.
Proof. unfold check_create. intros Hc. by invert_ok. Qed.

(** The record of each selector, when one is made. *)
Definition selector_target (sel : option Z * option Z * option Value) (now target : Z) (kind : Kind) : Prop :=
  match sel with
  | (Some s, None, None) => kind = After ∧ target = now + s * 1000
  | (None, Some s, None) => kind = Every ∧ target = now + s * 1000
  | (None, None, Some _) => kind = At
  | _ => False
  end.

Section creation.
Context (nd : list ascii → option nat) `{TimeZones}.

Lemma create_record_Ok id prompt sel now r :
  id_ok id → blank prompt = false →
  create_record nd id prompt sel now = Some (Ok r) →
  record_wf r ∧ r_id r = id ∧ r_prompt r = trim prompt ∧ now < r_scheduled_ms r ∧
  selector_target sel now (r_scheduled_ms r) (r_kind r).
Proof using Type.
  intros Hid Hp Hr.
  assert (is_empty (trim prompt) = false ∧ trimmed (trim prompt) = true) as Hp'.
  { split; [done|apply trimmed_trim]. }
  destruct sel as [[[a|] [e|]] [v|]]; try done; simpl in Hr.
  - case_match eqn:Hs; [done|]. injection Hr as Hr.
    apply orb_false_iff in Hs as [H1%Z.leb_gt H2%Z.ltb_ge].
    unfold Record_after in Hr. invert_ok.
    match goal with Hn : Record_new _ _ _ _ _ _ _ = _ |- _ =>
      apply Record_new_Ok in Hn as (Hn & at_ & Hat & ->) end.
    match goal with Hn : seconds_after _ _ = _ |- _ => apply seconds_after_Ok in Hn as -> end.
    split_and!; simpl; try done. split; simpl; try done. exists a. done.
  - case_match eqn:Hs; [done|]. case_match eqn:Hm; [done|]. injection Hr as Hr.
    apply orb_false_iff in Hs as [H1%Z.leb_gt H2%Z.ltb_ge]. apply Z.ltb_ge in Hm.
    unfold Record_every in Hr. invert_ok.
    match goal with Hn : Record_new _ _ _ _ _ _ _ = _ |- _ =>
      apply Record_new_Ok in Hn as (Hn & at_ & Hat & ->) end.
    match goal with Hn : seconds_after _ _ = _ |- _ => apply seconds_after_Ok in Hn as -> end.
    split_and!; simpl; try done. split; simpl; try done. split; [done|]. exists e. done.
  - unfold Record_at, and_then in Hr. repeat case_match; simplify_eq.
    all: match goal with Hn : Record_new _ _ _ _ _ _ _ = _ |- _ =>
      apply Record_new_Ok in Hn as (Hn & at_ & Hat & ->) end;
    split_and!; simpl; try done; by split; simpl.
Qed.

(** The texts of the [at] selector, as far as they are digits. *)
Definition ascii_at (arguments : Value) : Prop :=
  match get "at" arguments with
  | Some (VString text) => all_ascii (bytes_of text)
  | Some (VObject o) =>
      ∀ time, obj_get "time" o ≫= as_str = Some time → all_ascii (bytes_of time)
  | _ => True
  end.

Lemma check_create_one arguments prompt :
  check_create arguments = Ok prompt → count_selectors (parse_selectors arguments) = 1%nat.
Proof. unfold check_create. intros Hc. invert_ok. by apply Nat.eqb_eq. Qed.

Lemma create_record_total id prompt arguments now :
  (∀ a l, (byte a < 128)%N → nd (a :: l) = None) → ascii_at arguments →
  count_selectors (parse_selectors arguments) = 1%nat →
  is_Some (create_record nd id prompt (parse_selectors arguments) now).
Proof using Type.
  intros Hnd Hat. unfold parse_selectors, count_selectors, ascii_at in *.
  destruct (get "after_seconds" arguments ≫= safe_integer) as [a|],
    (get "every_seconds" arguments ≫= safe_integer) as [e|],
    (get "at" arguments) as [v|]; simpl; intros Hc; try done.
  - case_match; by eexists.
  - repeat (case_match; try by eexists).
  - unfold Record_at, and_then. destruct v as [| | |text| |o]; try by eexists.
    + destruct (parse_offset_ascii nd Hnd text Hat) as [[x|err] ->]; by eexists.
    + destruct (resolve_local_ascii nd Hnd o Hat) as [[x|err] ->]; by eexists.
Qed.
End creation.
