(* ===== verification/ScheduleDriveFacts.v ===== *)
(** * Schedules: occurrences, due reminders and dispatches *)

From S2P Require Import Prelude Json Protocol Session SessionFacts.
From S2P Require Import Calendar CalendarFacts Schedule ScheduleFacts ScheduleRunFacts.

#[local] Open Scope Z_scope.

(** ** Occurrences *)

Lemma interval_wf r :
  record_wf r → r_kind r = Every →
  ∃ i, interval_of r = Some i ∧ 300000 <= i <= Z.of_N MAX_SAFE_INTEGER * 1000.
Proof.
  intros Hr Hk. pose proof (wf_seconds r Hr) as Hs. unfold seconds_ok in Hs. rewrite Hk in Hs.
  destruct Hs as (_ & s & He & Hs). unfold interval_of. rewrite He. simpl.
  unfold MIN_EVERY_SECONDS in Hs. rewrite seconds_fit by lia. exists (s * 1000). split; [done|]. unfold MAX_SAFE_INTEGER in *. lia.
Qed.

Lemma scheduled_range r : record_wf r → MIN_INSTANT_MS <= r_scheduled_ms r <= MAX_INSTANT_MS.
Proof. intros Hr. eapply format_representable, (wf_time r Hr). Qed.

(** The multiple of the interval that ends at or before [accepted]. *)
Lemma floor_bounds d i : 0 < i → i * (d / i) <= d < i * (d / i) + i.
Proof. intros Hi. pose proof (Z.mul_div_le d i Hi). pose proof (Z.mul_succ_div_gt d i Hi). lia. Qed.

Section occurrence.
Context (r : Record_) (accepted i : Z).
Context (Hwf : record_wf r) (Hi : interval_of r = Some i).
Context (Hrange : 300000 <= i <= Z.of_N MAX_SAFE_INTEGER * 1000).
Context (Hdue : r_scheduled_ms r <= accepted) (Hacc : accepted <= MAX_INSTANT_MS).

Let past := (accepted - r_scheduled_ms r) / i.

Lemma past_bounds :
  0 <= past ∧ r_scheduled_ms r + past * i <= accepted < r_scheduled_ms r + (past + 1) * i.
Proof using Hrange Hdue.
  pose proof (floor_bounds (accepted - r_scheduled_ms r) i ltac:(lia)) as Hb.
  split; [apply Z.div_pos; lia|]. subst past. lia.
Qed.

Lemma past_is_i64 : is_i64 (past + 1) ∧ is_i64 (past * i) ∧ is_i64 ((past + 1) * i) ∧
  is_i64 (r_scheduled_ms r + past * i) ∧ is_i64 (r_scheduled_ms r + (past + 1) * i).
Proof using Hwf Hrange Hdue Hacc.
  destruct past_bounds as [Hp Hb]. pose proof (scheduled_range r Hwf) as Hs.
  assert (past <= past * i) as Hle.
  { replace past with (past * 1) at 1 by lia. apply Z.mul_le_mono_nonneg_l; lia. }
  unfold is_i64, I64_MIN, I64_MAX, MAX_SAFE_INTEGER, MIN_INSTANT_MS, MAX_INSTANT_MS in *.
  replace ((past + 1) * i) with (past * i + i) in * by lia. lia.
Qed.

Lemma every_occurrence_eq : every_occurrence r accepted = format_instant (r_scheduled_ms r + past * i).
Proof using Hwf Hi Hrange Hdue Hacc.
  destruct past_is_i64 as (_ & H1 & _ & H2 & _).
  unfold every_occurrence. rewrite Hi. simpl. rewrite (proj2 (Z.ltb_ge _ _)) by done.
  unfold i64_div_euclid, i64_checked_mul, i64_checked_add. fold past.
  rewrite (proj2 (i64_checked_Some (past * i) (past * i)) (conj eq_refl H1)). simpl.
  by rewrite (proj2 (i64_checked_Some _ _) (conj eq_refl H2)).
Qed.

Lemma every_next_eq :
  every_next r accepted =
    Some ((λ at_, mkRecord (r_id r) (r_kind r) (r_prompt r) at_
                    (r_scheduled_ms r + (past + 1) * i) (r_after_seconds r) (r_every_seconds r))
          <$> format_instant (r_scheduled_ms r + (past + 1) * i)).
Proof using Hwf Hi Hrange Hdue Hacc.
  destruct past_is_i64 as (H1 & _ & H2 & _ & H3).
  unfold every_next. rewrite Hi. simpl. rewrite (proj2 (Z.ltb_ge _ _)) by done.
  unfold i64_div_euclid, i64_checked_mul, i64_checked_add. fold past.
  rewrite (proj2 (i64_checked_Some _ _) (conj eq_refl H1)). simpl.
  rewrite (proj2 (i64_checked_Some _ _) (conj eq_refl H2)). simpl.
  rewrite (proj2 (i64_checked_Some _ _) (conj eq_refl H3)). simpl.
  by destruct (format_instant _).
Qed.
End occurrence.

(** ** Deciding *)

Lemma insert_by_time_perm r l : insert_by_time r l ≡ₚ r :: l.
Proof.
  induction l as [|x l IH]; simpl; [done|]. case_decide; [done|].
  rewrite IH. apply Permutation_swap.
Qed.

Lemma sort_by_time_perm l : sort_by_time l ≡ₚ l.
Proof. induction l as [|x l IH]; simpl; [done|]. by rewrite insert_by_time_perm, IH. Qed.

#[export] Instance by_time_trans : Transitive by_time.
Proof. unfold by_time. intros ???. lia. Qed.

Lemma insert_by_time_sorted r l : StronglySorted by_time l → StronglySorted by_time (insert_by_time r l).
Proof.
  induction 1 as [|x l Hs IH Hx]; simpl; [repeat constructor|]. case_decide as Hle.
  - constructor; [by constructor|]. constructor; [done|].
    eapply Forall_impl; [done|]. intros y Hy. by trans x.
  - constructor; [done|]. rewrite insert_by_time_perm. constructor; [|done].
    unfold by_time in *. lia.
Qed.

Lemma sort_by_time_sorted l : StronglySorted by_time (sort_by_time l).
Proof. induction l; simpl; [constructor|]. by apply insert_by_time_sorted. Qed.

Lemma elem_of_list_filter_bool {A} (f : A → bool) l x :
  x ∈ List.filter f l ↔ x ∈ l ∧ f x = true.
Proof. by rewrite !list_elem_of_In, filter_In. Qed.

(** Sorted lists of the reminders that satisfy a test. *)
Lemma sorted_in f r l k :
  sort_by_time (List.filter f k) = r :: l → r ∈ k ∧ f r = true.
Proof.
  intros Hs. rewrite <-elem_of_list_filter_bool, <-sort_by_time_perm, Hs. left.
Qed.
Lemma sorted_head f r l k :
  sort_by_time (List.filter f k) = r :: l →
  ∀ x, x ∈ k → f x = true → r_scheduled_ms r <= r_scheduled_ms x.
Proof.
  intros Hs x Hx Hf. assert (x ∈ r :: l) as [->|Hin]%elem_of_cons; [|done|].
  { by rewrite <-Hs, sort_by_time_perm, elem_of_list_filter_bool. }
  pose proof (sort_by_time_sorted (List.filter f k)) as Hsort. rewrite Hs in Hsort.
  inversion_clear Hsort as [|? ? _ Hall]. by apply (proj1 (Forall_forall _ _) Hall).
Qed.
Lemma sorted_nil f k :
  sort_by_time (List.filter f k) = [] → ∀ x, x ∈ k → f x = false.
Proof.
  intros Hs x Hx. destruct (f x) eqn:Hf; [|done].
  assert (x ∈ []) as []%not_elem_of_nil. 
  rewrite <-Hs, sort_by_time_perm, elem_of_list_filter_bool. done.
Qed.
Lemma filter_true {A} (f : A → bool) l : (∀ x, x ∈ l → f x = true) → List.filter f l = l.
Proof.
  induction l as [|x l IH]; intros Hf; simpl; [done|]. rewrite Hf by left.
  by rewrite IH by (intros y Hy; apply Hf; by right).
Qed.

Lemma filter_false {A} (f : A → bool) l : (∀ x, x ∈ l → f x = false) → List.filter f l = [].
Proof.
  induction l as [|x l IH]; intros Hf; simpl; [done|]. rewrite Hf by left.
  apply IH. intros y Hy. apply Hf. by right.
Qed.

Lemma min_time_spec l :
  match min_time l with
  | None => l = []
  | Some m => (∃ r, r ∈ l ∧ r_scheduled_ms r = m) ∧ Forall (λ r, m <= r_scheduled_ms r) l
  end.
Proof.
  induction l as [|r l IH]; simpl; [done|]. destruct (min_time l) as [m|].
  - destruct IH as [(x & Hx & <-) Hl]. split.
    + destruct (Z.min_spec (r_scheduled_ms r) (r_scheduled_ms x)) as [[_ ->]|[_ ->]].
      * exists r. split; [left|done].
      * exists x. split; [by right|done].
    + constructor; [lia|]. eapply Forall_impl; [done|]. simpl. lia.
  - subst l. split; [exists r; split; [left|done]|]. by repeat constructor.
Qed.

(** ** Dispatching one reminder *)

(** The reminders due at [now]. *)
Definition due_count (F : Folded) (now : Z) : nat :=
  length (List.filter (is_due now) (f_active F)).

(** The change the driver writes for a reminder. *)
Definition dispatch_change (r : Record_) (accepted_at : string) : change :=
  if is_every r then DispatchEvery (r_id r) accepted_at else Dispatch (r_id r).

Lemma split_active l r :
  NoDup (r_id <$> l) → r ∈ l →
  ∃ l1 l2, l = l1 ++ r :: l2 ∧ find_id (r_id r) l = Some r ∧
    drop_id (r_id r) l = l1 ++ l2 ∧ ∀ n, replace_id (r_id r) n l = l1 ++ n :: l2.
Proof.
  intros Hnd (l1 & l2 & ->)%list_elem_of_split. exists l1, l2. split; [done|].
  rewrite fmap_app, fmap_cons in Hnd. apply NoDup_app in Hnd as (Hnd1 & Hd & Hnd2).
  apply NoDup_cons in Hnd2 as [Hr _].
  assert (Forall (λ x, r_id x ≠ r_id r) l1) as H1.
  { apply Forall_forall. intros x Hx Heq. apply (Hd (r_id x)); [by apply list_elem_of_fmap_2|].
    rewrite Heq. left. }
  assert (Forall (λ x, r_id x ≠ r_id r) l2) as H2.
  { apply Forall_forall. intros x Hx Heq. apply Hr. rewrite <-Heq. by apply list_elem_of_fmap_2. }
  assert (∀ n l, Forall (λ x, r_id x ≠ r_id r) l → replace_id (r_id r) n l = l) as Hrep.
  { intros n l. unfold replace_id. induction 1 as [|x l Hx _ IH]; [done|]. csimpl. rewrite IH.
    by rewrite (proj2 (String.eqb_neq _ _) Hx). }
  split_and!.
  - unfold find_id. clear -H1. induction H1 as [|x l1 Hx _ IH]; simpl.
    + by rewrite String.eqb_refl.
    + by rewrite (proj2 (String.eqb_neq _ _) Hx).
  - unfold drop_id. rewrite filter_app, filter_cons_False by (intros Hn; by apply Hn).
    by rewrite !filter_Forall.
  - intros n. unfold replace_id. rewrite fmap_app, fmap_cons, String.eqb_refl.
    f_equal; [by apply Hrep|]. f_equal. by apply Hrep.
Qed.

(** What a dispatch at [now] does to the schedule: that reminder, and no other,
    stops being due. *)
Record dispatched (now : Z) (r : Record_) (F F' : Folded) : Prop := {
  di_wf : folded_wf F';
  di_seen : f_seen F' = f_seen F;
  di_keep : ∀ x, x ∈ f_active F → x ≠ r → x ∈ f_active F';
  di_new : ∀ x, x ∈ f_active F' → x ∈ f_active F ∧ x ≠ r ∨ is_due now x = false;
  di_due : (due_count F' now + 1 = due_count F now)%nat;
}.

Lemma dispatched_drop now r l1 l2 seen :
  folded_wf (mkFolded (l1 ++ r :: l2) seen) → is_due now r = true →
  dispatched now r (mkFolded (l1 ++ r :: l2) seen) (mkFolded (l1 ++ l2) seen).
Proof.
  intros [Hids Hseen Hwf] Hdue. simpl in *.
  rewrite fmap_app, fmap_cons in Hids. apply NoDup_app in Hids as (Hn1 & Hd & Hn2).
  apply NoDup_cons in Hn2 as [Hr Hn2].
  apply Forall_app in Hwf as [Hw1 Hw2]. apply Forall_cons in Hw2 as [_ Hw2].
  split; simpl; [|done|..].
  - split; simpl.
    + rewrite fmap_app. apply NoDup_app. split_and!; [done| |done]. intros x Hx Hx2.
      apply (Hd x Hx). by right.
    + intros x [Hx|Hx]%elem_of_app; apply Hseen, elem_of_app; [by left|right; by right].
    + by apply Forall_app.
  - intros x [Hx|[->|Hx]%elem_of_cons]%elem_of_app Hne; [|done|]; apply elem_of_app; auto.
  - intros x [Hx|Hx]%elem_of_app; left; (split; [apply elem_of_app|intros ->]).
    + by left. 
    + apply (Hd (r_id r)); [by apply list_elem_of_fmap_2|left].
    + right. by right.
    + apply Hr. by apply list_elem_of_fmap_2.
  - unfold due_count. simpl. rewrite !List.filter_app, !length_app. simpl. rewrite Hdue. simpl. lia.
Qed.

Lemma dispatched_replace now r n l1 l2 seen :
  folded_wf (mkFolded (l1 ++ r :: l2) seen) → is_due now r = true →
  record_wf n → r_id n = r_id r → is_due now n = false →
  dispatched now r (mkFolded (l1 ++ r :: l2) seen) (mkFolded (l1 ++ n :: l2) seen).
Proof.
  intros Hwf Hdue Hn Hid Hnd.
  destruct (dispatched_drop now r l1 l2 seen Hwf Hdue) as [_ _ Hkeep Hnew Hcount].
  destruct Hwf as [Hids Hseen Hwf]. unfold due_count in *. simpl in *.
  split; simpl; [|done|..].
  - split; simpl.
    + rewrite fmap_app, fmap_cons in *. by rewrite Hid.
    + intros x [Hx|[->|Hx]%elem_of_cons]%elem_of_app.
      * apply Hseen, elem_of_app. by left.
      * rewrite Hid. apply Hseen, elem_of_app. right. left.
      * apply Hseen, elem_of_app. right. by right.
    + apply Forall_app in Hwf as [Hw1 Hw2]. apply Forall_cons in Hw2 as [_ Hw2].
      apply Forall_app. split; [done|by constructor].
  - intros x Hx Hne. apply (Hkeep x Hx) in Hne as [?|?]%elem_of_app; apply elem_of_app; [by left|].
    right. by right.
  - intros x [Hx|[->|Hx]%elem_of_cons]%elem_of_app; [|by right|]; apply Hnew, elem_of_app; auto.
  - unfold due_count in *. simpl in *. rewrite !List.filter_app, !length_app in *. simpl in *. by rewrite Hnd.
Qed.

Lemma dispatch_step F r now at_ :
  folded_wf F → r ∈ f_active F → is_due now r = true → format_instant now = Some at_ →
  ∃ F', apply_change F (dispatch_change r at_) = Some F' ∧ dispatched now r F F'.
Proof.
  intros Hwf Hr Hdue Hat. destruct F as [l seen]. simpl in Hr.
  pose proof (fo_wf _ Hwf) as Hall. simpl in Hall.
  pose proof (proj1 (Forall_forall _ _) Hall r Hr) as Hrwf.
  destruct (split_active l r (fo_ids _ Hwf) Hr) as (l1 & l2 & -> & Hfind & Hdrop & Hrep).
  unfold dispatch_change. destruct (is_every r) eqn:He; unfold apply_change; simpl;
    rewrite Hfind; simpl; rewrite He; rewrite Hdrop; cycle 1.
  { eexists. split; [done|]. by apply dispatched_drop. }
  unfold is_every in He. apply bool_decide_eq_true in He.
  destruct (interval_wf r Hrwf He) as (i & Hi & Hrange).
  unfold is_due in Hdue. apply Z.leb_le in Hdue.
  pose proof (format_representable _ _ Hat) as [_ Hmax].
  rewrite (parse_of_format _ _ Hat). simpl.
  pose proof (every_next_eq r now i Hrwf Hi Hrange Hdue Hmax) as Hnext.
  destruct (past_bounds r now i Hrange Hdue) as [_ [_ Hfut]].
  rewrite Hnext. destruct (format_instant (_ + _)) as [s|] eqn:Hs; simpl; simpl in Hnext.
  - rewrite Hrep. eexists. split; [done|]. apply every_next_wf in Hnext as [Hn Hid]; [|done].
    apply dispatched_replace; try done; [by apply Z.leb_le|]. unfold is_due. simpl.
    by apply Z.leb_gt.
  - eexists. split; [done|]. apply dispatched_drop; [done|]. by apply Z.leb_le.
Qed.

(** ** Dispatching several *)

(** What any number of dispatches at [now] does: reminders that are not due
    stay, and none that was not due becomes so. *)
Record served (now : Z) (F F' : Folded) : Prop := {
  se_wf : folded_wf F';
  se_keep : ∀ x, x ∈ f_active F → is_due now x = false → x ∈ f_active F';
  se_new : ∀ x, x ∈ f_active F' → is_due now x = true → x ∈ f_active F;
  se_due : (due_count F' now <= due_count F now)%nat;
}.

Lemma served_refl now F : folded_wf F → served now F F.
Proof. by split. Qed.

Lemma served_trans now F1 F2 F3 : served now F1 F2 → served now F2 F3 → served now F1 F3.
Proof. intros [] []. split; eauto. lia. Qed.

Lemma dispatched_served now r F F' : is_due now r = true → dispatched now r F F' → served now F F'.
Proof.
  intros Hr [Hwf _ Hkeep Hnew Hdue]. split; [done|..|lia].
  - intros x Hx Hn. apply Hkeep; [done|congruence].
  - intros x Hx Hn. destruct (Hnew x Hx) as [[? _]|?]; [done|congruence].
Qed.

Lemma dispatch_change_ok r at_ : record_wf r → change_ok (dispatch_change r at_).
Proof. intros [Hid _ _ _]. unfold dispatch_change. by destruct (is_every r). Qed.

Section drive.
Context `{ProtocolWire} {S : Type} `{SessionPersistence S}.

(** One dispatch appended to the session. *)
Lemma append_dispatch t r at_ now time s (b : S) ok s' b' F :
  fold s = Some F → r ∈ f_active F → is_due now r = true → format_instant now = Some at_ →
  append_change t (change_data (dispatch_change r at_)) time s b = (ok, s', b') →
  ∃ F', fold s' = Some F' ∧ if ok then dispatched now r F F' else F' = F.
Proof.
  intros Hf Hr Hdue Hat Ha. pose proof (fold_wf _ _ Hf) as Hwf.
  destruct (dispatch_step F r now at_ Hwf Hr Hdue Hat) as (F' & Hc & Hd).
  apply (append_change_fold _ _ _ _ _ _ _ _ F Hf) in Ha as [_ Ha];
    [|apply dispatch_change_ok; exact (proj1 (Forall_forall _ _) (fo_wf _ Hwf) r Hr)].
  destruct ok; [exists F'|exists F]; by rewrite Ha.
Qed.

Lemma append_dispatches_spec t clock n at_ rs s (b : S) ok s' b' F now :
  fold s = Some F → NoDup rs → format_instant now = Some at_ →
  Forall (λ r, r ∈ f_active F ∧ is_due now r = true ∧ is_every r = true) rs →
  append_dispatches t clock n at_ rs s b = (ok, s', b') →
  ∃ F', fold s' = Some F' ∧ served now F F' ∧
    if ok then (due_count F' now + length rs = due_count F now)%nat
    else ∃ r, r ∈ rs ∧ r ∈ f_active F'.
Proof.
  intros Hf Hnd Hat. revert t n s b F Hf.
  induction rs as [|r rs IH]; intros t n s b F Hf Hall; simpl.
  { intros [= <- <- <-]. exists F. split_and!; [done|by apply served_refl; eapply fold_wf|simpl; lia]. }
  apply NoDup_cons in Hnd as [Hr Hnd]. apply Forall_cons in Hall as [(Hin & Hdue & He) Hall].
  destruct (append_change _ _ _ _ _) as [[ok1 s1] b1] eqn:Ha.
  assert (dispatch_every_data (r_id r) at_ = change_data (dispatch_change r at_)) as Hc.
  { unfold dispatch_change. by rewrite He. }
  rewrite Hc in Ha. eapply append_dispatch in Ha as (F1 & Hf1 & Hd); [|done..].
  destruct ok1; cycle 1.
  { intros [= <- <- <-]. subst F1. exists F. split_and!; [done|by apply served_refl; eapply fold_wf|].
    exists r. by split; [left|]. }
  intros Hrest. apply IH with (F := F1) in Hrest as (F2 & Hf2 & Hs & Hdone); [|done..|].
  - exists F2. split_and!; [done|by eapply served_trans; [eapply dispatched_served|]|].
    destruct ok; [pose proof (di_due _ _ _ _ Hd); simpl; lia|].
    destruct Hdone as (x & Hx & Hleft). exists x. by split; [right|].
  - apply Forall_forall. intros x Hxr.
    destruct (proj1 (Forall_forall _ _) Hall x Hxr) as (Hx & ? & ?). split_and!; [|done..].
    apply (di_keep _ _ _ _ Hd); [done|]. intros ->. by apply Hr.
Qed.

(** Handing a message over does not touch the schedule. *)
Lemma enqueue_fold t d text s (b : S) ok m s' b' F :
  fold s = Some F → enqueue_reminder t d text s b = (ok, m, s', b') →
  fold s' = Some F ∧ m = if ok then Some (reminder_message (d_id d) text) else None.
Proof.
  intros Hf. unfold enqueue_reminder. destruct (append_next _ _ _ _) as [[r s1] b1] eqn:Ha.
  apply append_next_inv in Ha as [[Hr ->]|(seq & -> & Hh & He)].
  - destruct r; [done|]. by intros [= <- <- <- <-].
  - assert (fold s1 = Some F) as Hf1 by by eapply fold_extend_other.
    destruct (d_followup d _); by intros [= <- <- <- <-].
Qed.

(** ** The driver *)

Record driven_ok (now : Z) (F : Folded) (n : Driven (S := S)) : Prop := {
  dr_served : ∃ F', fold (n_session n) = Some F' ∧ served now F F' ∧
    (n_message n = None → F' = F) ∧
    (n_next n = Some AtOnce → (due_count F' now < due_count F now)%nat);
}.

(** A dispatch that did not come to its end: one of its reminders is still there,
    or its last flush has failed. *)
Definition unfinished (t : token) (rs : list Record_) (n : Driven (S := S)) : Prop :=
  (∃ F' r, fold (n_session n) = Some F' ∧ r ∈ rs ∧ r ∈ f_active F') ∨
  (∃ b e, flush t (n_session n) b = (Err e, n_backend n)).

(** What a dispatch of [rs] leaves. *)
Record carried_out (t : token) (now : Z) (F : Folded) (rs : list Record_) (n : Driven (S := S))
    : Prop := {
  ca_ok : driven_ok now F n;
  ca_next : n_next n = Some AtOnce ∨ n_next n = None ∧ unfinished (sub 2 t) rs n;
}.

Lemma driven_idle now F s (b : S) m next :
  fold s = Some F → next ≠ Some AtOnce → driven_ok now F (mkDriven s b m next).
Proof. intros Hf Hn. split. exists F. split_and!; try done. apply served_refl. by eapply fold_wf. Qed.

Lemma carried_idle t now F r rs s (b : S) m :
  fold s = Some F → r ∈ rs → r ∈ f_active F → carried_out t now F rs (mkDriven s b m None).
Proof.
  intros Hf Hr Hin. split; [by apply driven_idle|]. right. split; [done|]. left. by exists F, r.
Qed.

(** The flush at the end of a dispatch. *)
Lemma carried_flush t now F F' rs s b b' m r :
  fold s = Some F' → served now F F' → m ≠ None →
  (due_count F' now < due_count F now)%nat → flush (sub 2 t) s b = (r, b') →
  carried_out t now F rs (mkDriven s b' m (if is_ok r then Some AtOnce else None)).
Proof.
  intros Hf Hs Hm Hdue Hfl. split; [split; by exists F'|].
  destruct r as [u|e]; [by left|]. right. split; [done|]. right. by exists b, e.
Qed.

Lemma dispatch_one_ok t d r s (b : S) F :
  fold s = Some F → r ∈ f_active F → is_due (d_now d) r = true → is_every r = false →
  (∃ at_, format_instant (d_now d) = Some at_) →
  carried_out t (d_now d) F [r] (dispatch_one t d r s b).
Proof.
  intros Hf Hr Hdue He [at_ Hat]. unfold dispatch_one.
  destruct (enqueue_reminder _ _ _ _ _) as [[[ok m] s1] b1] eqn:Hq.
  apply (enqueue_fold _ _ _ _ _ _ _ _ _ F Hf) in Hq as [Hf1 ->].
  destruct ok; [|by apply (carried_idle _ _ _ r); [|left|]].
  destruct (append_change _ _ _ _ _) as [[ok2 s2] b2] eqn:Ha.
  assert (dispatch_data (r_id r) = change_data (dispatch_change r at_)) as Hc.
  { unfold dispatch_change. by rewrite He. }
  rewrite Hc in Ha. eapply append_dispatch in Ha as (F2 & Hf2 & Hd); [|done..].
  destruct ok2; [|subst F2; by apply (carried_idle _ _ _ r); [|left|]].
  destruct (flush _ _ _) as [fr b3] eqn:Hfl. eapply carried_flush; [done|..|done].
  - by eapply dispatched_served.
  - done.
  - pose proof (di_due _ _ _ _ Hd). lia.
Qed.

Lemma dispatch_batch_ok t d rs s (b : S) F n :
  fold s = Some F → NoDup rs → rs ≠ [] →
  Forall (λ r, r ∈ f_active F ∧ is_due (d_now d) r = true ∧ is_every r = true) rs →
  dispatch_batch t d rs s b = Some n → carried_out t (d_now d) F rs n.
Proof.
  intros Hf Hnd Hne Hall. unfold dispatch_batch.
  intros (at_ & Hat & (vs & Hvs & [= <-])%bind_Some)%bind_Some.
  destruct rs as [|r rs]; [done|]. pose proof (Forall_inv Hall) as (Hr & _).
  destruct (enqueue_reminder _ _ _ _ _) as [[[ok m] s1] b1] eqn:Hq.
  apply (enqueue_fold _ _ _ _ _ _ _ _ _ F Hf) in Hq as [Hf1 ->].
  destruct ok; [|by apply (carried_idle _ _ _ r); [|left|]].
  destruct (append_dispatches _ _ _ _ _ _ _) as [[ok2 s2] b2] eqn:Ha.
  eapply append_dispatches_spec in Ha as (F2 & Hf2 & Hs & Hdone); [|done..].
  destruct ok2.
  - destruct (flush _ _ _) as [fr b3] eqn:Hfl. eapply carried_flush; [done..| |done]. simpl in Hdone. lia.
  - destruct Hdone as (x & Hx & Hin). split; [split; by exists F2|]. right. split; [done|]. left.
    by exists F2, x.
Qed.

(** What the decision says of the records it carries. *)
Lemma decide_one F now r :
  decide_due F now = OneShot r → r ∈ f_active F ∧ is_due now r = true ∧ is_every r = false.
Proof.
  unfold decide_due. destruct (sort_by_time _) as [|x l] eqn:Hs; [by case_match|].
  intros [= <-]. apply sorted_in in Hs as [Hx [He%negb_true_iff Hd]%andb_true_iff]. done.
Qed.
Lemma decide_batch F now rs :
  folded_wf F → decide_due F now = EveryBatch rs →
  NoDup rs ∧ rs ≠ [] ∧ Forall (λ r, r ∈ f_active F ∧ is_due now r = true ∧ is_every r = true) rs.
Proof.
  intros Hwf. unfold decide_due. destruct (sort_by_time _) as [|x l]; [|done].
  destruct (sort_by_time (List.filter (λ r, is_every r && _) _)) as [|x l] eqn:Hs; [done|].
  intros [= <-]. rewrite <-Hs. split_and!.
  - rewrite sort_by_time_perm. apply NoDup_ListNoDup, List.NoDup_filter, NoDup_ListNoDup.
    eapply NoDup_fmap_1, Hwf.
  - by rewrite Hs.
  - apply Forall_forall. intros y.
    rewrite sort_by_time_perm, elem_of_list_filter_bool, andb_true_iff. tauto.
Qed.

Lemma timer_delay_eq target now :
  MIN_INSTANT_MS <= target <= MAX_INSTANT_MS → MIN_INSTANT_MS <= now <= MAX_INSTANT_MS →
  now < target → timer_delay target now = Z.min (target - now) MAX_TIMER_DELAY_MS.
Proof.
  unfold timer_delay, i64_saturating_sub, MIN_INSTANT_MS, MAX_INSTANT_MS. intros. unfold I64_MIN, I64_MAX. lia.
Qed.

(** The reminder that a wait without a due reminder is for. *)
Lemma decide_wait F now target :
  decide_due F now = Wait target →
  due_count F now = 0%nat ∧
  match target with
  | None => f_active F = []
  | Some target => now < target ∧ (∃ r, r ∈ f_active F ∧ r_scheduled_ms r = target) ∧
      Forall (λ r, target <= r_scheduled_ms r) (f_active F)
  end.
Proof.
  unfold decide_due. destruct (sort_by_time _) as [|x l] eqn:H1; [|done].
  destruct (sort_by_time (List.filter (λ r, is_every r && _) _)) as [|x l] eqn:H2; [|done].
  intros [= <-].
  assert (∀ x, x ∈ f_active F → is_due now x = false) as Hd.
  { intros x Hx. pose proof (sorted_nil _ _ H1 x Hx) as Ho.
    pose proof (sorted_nil _ _ H2 x Hx) as He. simpl in Ho, He. by destruct (is_every x). }
  assert (∀ x, x ∈ f_active F → now < r_scheduled_ms x) as Hlt.
  { intros x Hx. by apply Z.leb_gt, Hd. }
  rewrite filter_true by (intros x Hx; by apply Z.ltb_lt, Hlt). split.
  { unfold due_count. by rewrite filter_false. }
  pose proof (min_time_spec (f_active F)) as Hm. destruct (min_time _) as [m|]; [|done].
  destruct Hm as [(r & Hr & <-) Hall]. split_and!; [by apply Hlt|by exists r|done].
Qed.

Lemma batch_reminders_total rs now :
  Forall (λ r, record_wf r ∧ is_due now r = true ∧ is_every r = true) rs →
  now <= MAX_INSTANT_MS → is_Some (batch_reminders rs now).
Proof.
  intros Hall Hmax. induction Hall as [|r rs (Hr & Hd%Z.leb_le & He%bool_decide_eq_true) _ [vs Hvs]];
    simpl; [by eexists|].
  destruct (interval_wf r Hr He) as (i & Hi & Hrange).
  rewrite (every_occurrence_eq r now i), Hvs by done.
  destruct (past_bounds r now i Hrange Hd) as [Hp Hb]. pose proof (scheduled_range r Hr).
  destruct (format_total (r_scheduled_ms r + (now - r_scheduled_ms r) / i * i)) as [at_ ->];
    [nia|by eexists].
Qed.
(** The stages of a drive. *)
Definition drive_outcome (t : token) (d : Driving) (F : Folded) (s : Session) (b : S)
    (n : Driven (S := S)) : Prop :=
  let untouched := n_session n = s ∧ n_message n = None in
  match n_next n with
  | Some AtOnce => d_agent d = Some true
  | Some WhenIdle => d_agent d = Some false ∧ untouched ∧ n_backend n = b
  | Some (OnTimer delay) => d_agent d = Some true ∧ untouched ∧
      ∃ target, decide_due F (d_now d) = Wait (Some target) ∧ delay = timer_delay target (d_now d)
  | None =>
      d_current d 0 = false ∨ d_current d 1 = false ∨ d_agent d = None ∨
      d_agent d = Some true ∧
        (is_ok (flush (sub 0 t) s b).1 = false ∨ d_current d 2 = false ∨
         match decide_due F (d_now d) with
         | Wait target => target = None
         | OneShot r => unfinished (sub 2 (sub 1 t)) [r] n
         | EveryBatch rs => unfinished (sub 2 (sub 1 t)) rs n
         end)
  end.

Lemma drive_ok t d s (b : S) F :
  fold s = Some F → MIN_INSTANT_MS <= d_now d <= MAX_INSTANT_MS →
  ∃ n, drive t d s b = Some n ∧ driven_ok (d_now d) F n ∧ drive_outcome t d F s b n.
Proof.
  intros Hf Hnow. pose proof (fold_wf _ _ Hf) as Hwf. unfold drive.
  assert (∀ b' next, next ≠ Some AtOnce → drive_outcome t d F s b (mkDriven s b' None next) →
    ∃ n, Some (mkDriven s b' None next) = Some n ∧ driven_ok (d_now d) F n ∧
      drive_outcome t d F s b n) as Hidle.
  { intros b' next Hn Ho. eexists. split_and!; [done|by apply driven_idle|done]. }
  destruct (d_current d 0) eqn:Hc0, (d_current d 1) eqn:Hc1; simpl;
    try (by apply Hidle; [done|unfold drive_outcome; cbn [n_next]; tauto]).
  destruct (d_agent d) as [[]|] eqn:Ha;
    try (by apply Hidle; [done|unfold drive_outcome; cbn [n_next]; tauto]).
  destruct (flush (sub 0 t) s b) as [[u|e] b1] eqn:Hfl; cycle 1.
  { apply Hidle; [done|]. unfold drive_outcome. cbn [n_next]. rewrite Hfl. tauto. }
  destruct (d_current d 2) eqn:Hc2; simpl; cycle 1.
  { apply Hidle; [done|]. unfold drive_outcome. cbn [n_next]. tauto. }
  rewrite Hf.
  destruct (decide_due F (d_now d)) as [[target|]|r|rs] eqn:Hd.
  - apply Hidle; [done|]. unfold drive_outcome. cbn. split_and!; eauto.
  - apply Hidle; [done|]. unfold drive_outcome. cbn [n_next]. rewrite Hd. tauto.
  - destruct (decide_one _ _ _ Hd) as (Hr & Hdue & He).
    destruct (dispatch_one_ok (sub 1 t) d r s b1 F Hf Hr Hdue He (format_total _ Hnow)) as [Hok Hnext].
    eexists. split_and!; [done|done|]. unfold drive_outcome.
    destruct Hnext as [->|[-> Hu]]; [done|]. rewrite Hd. tauto.
  - destruct (decide_batch _ _ _ Hwf Hd) as (Hnd & Hne & Hall).
    destruct (dispatch_batch (sub 1 t) d rs s b1) as [n|] eqn:Hn.
    + destruct (dispatch_batch_ok _ _ _ _ _ _ _ Hf Hnd Hne Hall Hn) as [Hok Hnext].
      exists n. split_and!; [done|done|]. unfold drive_outcome.
      destruct Hnext as [->|[-> Hu]]; [done|]. rewrite Hd. tauto.
    + exfalso. unfold dispatch_batch in Hn. destruct (format_total (d_now d) Hnow) as [at_ Hat].
      rewrite Hat in Hn. simpl in Hn.
      destruct (batch_reminders_total rs (d_now d)) as [vs Hvs]; [|lia|by rewrite Hvs in Hn].
      eapply Forall_impl; [done|]. simpl. intros x (Hx & ? & ?). split_and!; [|done..].
      exact (proj1 (Forall_forall _ _) (fo_wf _ Hwf) x Hx).
Qed.
End drive.

(** ** Waiting *)

(** Of the waits begun under one generation, one at most resumes. *)
Lemma resume_once o live g g' o' :
  resume o live g = (Some g', o') → ow_generation o = g ∧ ow_generation o' ≠ g.
Proof.
  unfold resume, current. destruct (_ && _ && _) eqn:Hc; [|done].
  apply andb_true_iff in Hc as [[Hs <-%N.eqb_eq]%andb_true_iff _].
  unfold request_drive. destruct (ow_stopped o); [done|]. intros [= _ <-]. split; [done|]. simpl.
  intros He. destruct (N.lt_ge_cases (ow_generation o + 1) (2 ^ 64)) as [Hl|Hl].
  - rewrite N.mod_small in He; lia.
  - pose proof (N.mod_lt (ow_generation o + 1) (2 ^ 64)) as Hm.
    destruct (N.eq_dec (ow_generation o + 1) (2 ^ 64)) as [Heq|]; [rewrite Heq in *|lia].
    rewrite N.Div0.mod_same in He. lia.
Qed.
