(* ===== verification/Goal.v ===== *)
(** * Goals (goal.rs): compare-and-swap goals of one agent

    The ledger is folded from the session's own log ([apply_goal_event]); the
    service validates a change, appends it to the log and updates its copy of
    the ledger in the same critical section.  A method is a computation over
    the ledger, the session and the back end; [None] means that the retry loop
    of a write ran out of fuel.  The derived serialisers of [GoalChange] are a
    parameter, as is what other tasks append between two steps of a write. *)

From S2P Require Import Prelude Json Protocol Session.

#[local] Open Scope N_scope.

Definition DEFAULT_MAX_GOAL_ROUNDS : N := 256.

(** ** Errors *)

Inductive GoalError :=
| GInvalid (message : string)
| GAlreadyExists
| GNotFound (id : string)
| GStale
| GTombstoned
| GInvalidTransition
| GInactive
| GInvalidRound
| GRoundCap
| GNotLive
| GCancelled
| GSession (e : SessionError).

Definition GoalError_code (e : GoalError) : string :=
  match e with
  | GInvalid _ => "INVALID_GOAL"
  | GAlreadyExists => "GOAL_ALREADY_EXISTS"
  | GNotFound _ => "GOAL_NOT_FOUND"
  | GStale => "GOAL_STALE_REVISION"
  | GTombstoned => "GOAL_NOT_FOUND"
  | GInvalidTransition => "GOAL_INVALID_TRANSITION"
  | GInactive => "INACTIVE_GOAL"
  | GInvalidRound => "INVALID_GOAL_ROUND"
  | GRoundCap => "GOAL_ROUND_CAP"
  | GNotLive => "GOAL_AGENT_NOT_LIVE"
  | GCancelled => "CANCELLED"
  | GSession _ => "GOAL_EVENT_APPEND_FAILED"
  end.

Definition goal_check_cancellation (cancelled : bool) : result GoalError unit :=
  if cancelled then Err GCancelled else Ok tt.

(** ** References, phases and reasons *)

Record GoalRef := mkGoalRef { gr_id : string; gr_revision : N }.
#[export] Instance GoalRef_eq_dec : EqDecision GoalRef.
Proof. solve_decision. Defined.

Definition GoalRef_validate (r : GoalRef) : result GoalError unit :=
  if blank (gr_id r) || (256 <? str_len (gr_id r)) then
    Err (GInvalid "goal id must be 1 through 256 non-whitespace bytes")
  else if gr_revision r =? 0 then Err (GInvalid "goal revision must be positive")
  else Ok tt.

Definition next_ref (r : GoalRef) : result GoalError GoalRef :=
  revision ← ok_or (u64_checked_add (gr_revision r) 1) (GInvalid "goal revision overflow");
  Ok (mkGoalRef (gr_id r) revision).

Inductive GoalPhase := Active | Paused | Blocked | Complete.
#[export] Instance GoalPhase_eq_dec : EqDecision GoalPhase.
Proof. solve_decision. Defined.

Definition permits (current next : GoalPhase) : bool :=
  negb (bool_decide (current = Complete)) || bool_decide (next = Complete).

Record GoalBlockReason := mkReason { br_code : string; br_message : string }.
#[export] Instance GoalBlockReason_eq_dec : EqDecision GoalBlockReason.
Proof. solve_decision. Defined.

(** [str::split('-')]: never empty. *)
Fixpoint split_on (c : ascii) (l : list ascii) : list (list ascii) :=
  match l with
  | [] => [[]]
  | a :: l' =>
      if bool_decide (a = c) then [] :: split_on c l'
      else match split_on c l' with
           | part :: parts => (a :: part) :: parts
           | [] => [[a]]
           end
  end.

Definition valid_code (code : string) : bool :=
  negb (is_empty code) &&
  forallb (λ part, match part with
                   | [] => false
                   | _ => forallb (λ a, is_ascii_lowercase a || is_ascii_digit a) part
                   end) (split_on "-" (bytes_of code)).

Definition GoalBlockReason_validate (r : GoalBlockReason) : result GoalError unit :=
  if negb (valid_code (br_code r)) || blank (br_message r) then
    Err (GInvalid "goal block reason requires a lower-kebab-case code and non-empty message")
  else Ok tt.

Definition normalized (r : GoalBlockReason) : result GoalError GoalBlockReason :=
  let r := mkReason (br_code r) (trim (br_message r)) in
  _ ← GoalBlockReason_validate r; Ok r.

(** ** Snapshots *)

Record GoalSnapshot := mkGoal {
  g_reference : GoalRef;
  g_phase : GoalPhase;
  g_title : string;
  g_max_goal_rounds : N;
  g_tombstone : bool;
}.
#[export] Instance GoalSnapshot_eq_dec : EqDecision GoalSnapshot.
Proof. solve_decision. Defined.

Definition safe_rounds (n : N) : bool := (1 <=? n) && (n <=? MAX_SAFE_INTEGER).

Definition GoalSnapshot_validate (g : GoalSnapshot) : result GoalError unit :=
  _ ← GoalRef_validate (g_reference g);
  if blank (g_title g) then Err (GInvalid "goal title must be non-whitespace")
  else if negb (safe_rounds (g_max_goal_rounds g)) then
    Err (GInvalid "goal round cap must be a positive safe integer")
  else Ok tt.

(** The [match] on phase and reason that three functions share. *)
Definition check_reason (phase : GoalPhase) (reason : option GoalBlockReason) :
    result GoalError unit :=
  match phase, reason with
  | Blocked, Some reason => GoalBlockReason_validate reason
  | Blocked, None => Err (GInvalid "blocked goal lacks blockedReason")
  | _, Some _ => Err (GInvalid "non-blocked goal has blockedReason")
  | _, None => Ok tt
  end.

Record GoalSnapshotWire := mkGoalWire {
  gw_id : string;
  gw_revision : N;
  gw_objective : string;
  gw_phase : GoalPhase;
  gw_blocked_reason : option GoalBlockReason;
  gw_max_goal_rounds : N;
}.

Definition from_snapshot (g : GoalSnapshot) (reason : option GoalBlockReason) :
    GoalSnapshotWire :=
  mkGoalWire (gr_id (g_reference g)) (gr_revision (g_reference g)) (g_title g) (g_phase g)
    reason (g_max_goal_rounds g).

Definition wire_snapshot (w : GoalSnapshotWire) :
    result GoalError (GoalSnapshot * option GoalBlockReason) :=
  _ ← check_reason (gw_phase w) (gw_blocked_reason w);
  let g := mkGoal (mkGoalRef (gw_id w) (gw_revision w)) (gw_phase w) (gw_objective w)
             (gw_max_goal_rounds w) false in
  _ ← GoalSnapshot_validate g;
  Ok (g, gw_blocked_reason w).

(** ** Changes *)

Inductive GoalOperation := OpCreate | OpEdit | OpPause | OpResume | OpComplete | OpBlock | OpClear.
#[export] Instance GoalOperation_eq_dec : EqDecision GoalOperation.
Proof. solve_decision. Defined.

Record GoalTimes := mkTimes { gt_created_at : N; gt_updated_at : N; gt_rounds_started : N }.
#[export] Instance GoalTimes_eq_dec : EqDecision GoalTimes.
Proof. solve_decision. Defined.

Record GoalChange := mkChange {
  gc_kind : string;
  gc_version : N;
  gc_operation : GoalOperation;
  gc_goal : option GoalSnapshotWire;
  gc_rounds_started : option N;
  gc_created_at : option N;
  gc_updated_at : option N;
  gc_cleared : option GoalRef;
  gc_cleared_at : option N;
}.

Definition GoalChange_snapshot (operation : GoalOperation) (g : GoalSnapshot)
    (times : GoalTimes) (reason : option GoalBlockReason) : GoalChange :=
  mkChange "goal/change" 1 operation (Some (from_snapshot g reason))
    (Some (gt_rounds_started times)) (Some (gt_created_at times)) (Some (gt_updated_at times))
    None None.

Definition GoalChange_clear (cleared : GoalRef) (cleared_at : N) : GoalChange :=
  mkChange "goal/change" 1 OpClear None None None None (Some cleared) (Some cleared_at).

Definition validate_clear_shape (c : GoalChange) : result GoalError unit :=
  match gc_cleared c with
  | None => Err (GInvalid "durable goal clear lacks ref")
  | Some cleared =>
      if bool_decide (is_Some (gc_goal c)) || bool_decide (is_Some (gc_rounds_started c))
         || bool_decide (is_Some (gc_created_at c)) || bool_decide (is_Some (gc_updated_at c))
         || match gc_cleared_at c with None => true | Some time => MAX_SAFE_INTEGER <? time end
      then Err (GInvalid "durable goal clear payload is invalid")
      else GoalRef_validate cleared
  end.

Definition validate_change_shape (c : GoalChange) : result GoalError unit :=
  match gc_rounds_started c, gc_created_at c, gc_updated_at c with
  | Some rounds, Some created, Some updated =>
      if negb (bool_decide (is_Some (gc_goal c))) || bool_decide (is_Some (gc_cleared c))
         || bool_decide (is_Some (gc_cleared_at c)) || (MAX_SAFE_INTEGER <? rounds)
         || (MAX_SAFE_INTEGER <? created) || (MAX_SAFE_INTEGER <? updated)
         || (updated <? created)
      then Err (GInvalid "durable goal change payload is invalid")
      else match gc_goal c with
           | Some g => check_reason (gw_phase g) (gw_blocked_reason g)
           | None => Ok tt
           end
  | _, _, _ => Err (GInvalid "durable goal change lacks counters or timestamps")
  end.

Definition validate_shape (c : GoalChange) : result GoalError unit :=
  if negb (String.eqb (gc_kind c) "goal/change") || negb (gc_version c =? 1) then
    Err (GInvalid "durable goal/change payload is invalid")
  else if bool_decide (gc_operation c = OpClear) then validate_clear_shape c
  else validate_change_shape c.

(** ** The ledger *)

Record Activation := mkActivation {
  ac_id : N;
  ac_reference : GoalRef;
  ac_max_rounds : N;
  ac_rounds : N;
  ac_first_event_seq : N;
  ac_last_user_event_seq : option N;
  ac_queued_round : option N;
}.

Record GoalState := mkGoalState {
  gs_goals : gmap string GoalSnapshot;
  gs_times : gmap string GoalTimes;
  gs_blocked_reasons : gmap string GoalBlockReason;
  gs_activation : option Activation;
  gs_next_activation : N;
  gs_observed_events : nat;
  gs_current : option string;
}.

Definition GoalState_default : GoalState := mkGoalState ∅ ∅ ∅ None 0 0 None.

Definition set_activation (a : option Activation) (s : GoalState) : GoalState :=
  mkGoalState (gs_goals s) (gs_times s) (gs_blocked_reasons s) a (gs_next_activation s)
    (gs_observed_events s) (gs_current s).
Definition set_observed (n : nat) (s : GoalState) : GoalState :=
  mkGoalState (gs_goals s) (gs_times s) (gs_blocked_reasons s) (gs_activation s)
    (gs_next_activation s) n (gs_current s).

Definition same_definition (a b : GoalSnapshot) : bool :=
  String.eqb (g_title a) (g_title b) && (g_max_goal_rounds a =? g_max_goal_rounds b).

(** The [match operation] of [validate_goal_operation]. *)
Definition operation_valid (operation : GoalOperation) (current next : GoalSnapshot) : bool :=
  let same := same_definition current next in
  match operation with
  | OpCreate => false
  | OpEdit => negb (g_tombstone next) && bool_decide (g_phase next = g_phase current)
  | OpPause => negb (g_tombstone next) && same && bool_decide (g_phase current = Active)
               && bool_decide (g_phase next = Paused)
  | OpResume => negb (g_tombstone next) && same && negb (bool_decide (g_phase current = Complete))
                && bool_decide (g_phase next = Active)
  | OpComplete => negb (g_tombstone next) && same && negb (bool_decide (g_phase current = Complete))
                  && bool_decide (g_phase next = Complete)
  | OpBlock => negb (g_tombstone next) && same && bool_decide (g_phase current = Active)
               && bool_decide (g_phase next = Blocked)
  | OpClear => g_tombstone next && same && bool_decide (g_phase next = g_phase current)
  end.

Definition validate_goal_operation (goals : gmap string GoalSnapshot) (operation : GoalOperation)
    (next : GoalSnapshot) : result GoalError unit :=
  if bool_decide (operation = OpCreate) then
    if negb (g_tombstone next) && (gr_revision (g_reference next) =? 1)
       && bool_decide (g_phase next = Active)
    then Ok tt else Err GInvalidTransition
  else
    let id := gr_id (g_reference next) in
    current ← ok_or (goals !! id) (GNotFound id);
    if g_tombstone current then Err GTombstoned
    else
      expected ← next_ref (g_reference current);
      if negb (bool_decide (g_reference next = expected)) then Err GStale
      else if operation_valid operation current next then Ok tt else Err GInvalidTransition.

Definition validate_goal_times (times : gmap string GoalTimes) (operation : GoalOperation)
    (g : GoalSnapshot) (next : GoalTimes) : result GoalError unit :=
  if bool_decide (operation = OpCreate) then
    if gt_rounds_started next =? 0 then Ok tt
    else Err (GInvalid "goal create roundsStarted must be zero")
  else
    current ← ok_or (times !! gr_id (g_reference g))
                (GInvalid "durable goal change lacks prior timestamps");
    if (gt_created_at next =? gt_created_at current)
       && (gt_updated_at current <=? gt_updated_at next)
       && (gt_rounds_started next =? gt_rounds_started current)
    then Ok tt else Err (GInvalid "goal change does not preserve counters or timestamps").

Definition apply_snapshot (goals : gmap string GoalSnapshot) (expected : option GoalRef)
    (g : GoalSnapshot) (replay : bool) : result GoalError (gmap string GoalSnapshot) :=
  _ ← GoalSnapshot_validate g;
  let id := gr_id (g_reference g) in
  _ ← (match goals !! id with
       | None =>
           if bool_decide (is_Some expected) || negb (gr_revision (g_reference g) =? 1)
              || g_tombstone g
           then Err GStale else Ok tt
       | Some current =>
           if g_tombstone current then Err GTombstoned
           else
             match match expected with
                   | Some e => Some e
                   | None => if replay then Some (g_reference current) else None
                   end with
             | None => Err GStale
             | Some expected =>
                 if negb (bool_decide (expected = g_reference current))
                    || negb (gr_revision (g_reference g) =?
                             u64_saturating_add (gr_revision (g_reference current)) 1)
                 then Err GStale
                 else if negb (permits (g_phase current) (g_phase g)) then Err GInvalidTransition
                 else Ok tt
             end
       end);
  Ok (<[id := g]> goals).

(** ** Replaying the log *)

(** The derived (de)serialisers of [GoalChange]. *)
Class GoalWire := { wire_change :: Wire GoalChange }.

Section replay.
Context `{ProtocolWire, GoalWire}.

(** [next_activation.checked_add(1).unwrap_or(1)]. *)
Definition next_activation (n : N) : N := default 1 (u64_checked_add n 1).

(** [state.goals.get(&id).filter(|goal| !goal.tombstone && goal.phase == Active)]. *)
Definition active_goal (goals : gmap string GoalSnapshot) (id : string) : option GoalSnapshot :=
  g ← goals !! id;
  if negb (g_tombstone g) && bool_decide (g_phase g = Active) then Some g else None.

(** The activation after an admitted round: a new one unless the goal is the
    activated one already. *)
Definition round_activation (g : GoalSnapshot) (round seq : N) (s : GoalState) : GoalState :=
  match gs_activation s with
  | Some a =>
      if String.eqb (gr_id (ac_reference a)) (gr_id (g_reference g)) then
        set_activation (Some (mkActivation (ac_id a) (g_reference g) (g_max_goal_rounds g) round
          (ac_first_event_seq a) (Some seq) None)) s
      else
        let n := next_activation (gs_next_activation s) in
        mkGoalState (gs_goals s) (gs_times s) (gs_blocked_reasons s)
          (Some (mkActivation n (g_reference g) (g_max_goal_rounds g) round seq (Some seq) None))
          n (gs_observed_events s) (gs_current s)
  | None =>
      let n := next_activation (gs_next_activation s) in
      mkGoalState (gs_goals s) (gs_times s) (gs_blocked_reasons s)
        (Some (mkActivation n (g_reference g) (g_max_goal_rounds g) round seq (Some seq) None))
        n (gs_observed_events s) (gs_current s)
  end.

Definition set_times (times : gmap string GoalTimes) (s : GoalState) : GoalState :=
  mkGoalState (gs_goals s) times (gs_blocked_reasons s) (gs_activation s)
    (gs_next_activation s) (gs_observed_events s) (gs_current s).

Definition apply_goal_round (s : GoalState) (event : SessionEvent) : result GoalError GoalState :=
  if negb (String.eqb (event_type event) "user/message") then Ok s
  else
    message ← map_err (λ _, GInvalid "durable goal round message is invalid")
                (from_value (A := Message) (ev_data event));
    match m_source message with
    | SourceGoal goal_id revision round =>
        if bool_decide (m_role message ≠ RoleUser) then
          Err (GInvalid "goal round must be a user message")
        else
          goal ← ok_or (active_goal (gs_goals s) goal_id) GInactive;
          if negb (gr_revision (g_reference goal) =? revision) then Err GStale
          else
            times ← ok_or (gs_times s !! goal_id) (GInvalid "goal lacks round counter");
            if negb (round =? u64_saturating_add (gt_rounds_started times) 1)
               || (g_max_goal_rounds goal <? round)
            then Err GRoundCap
            else
              let times := mkTimes (gt_created_at times) (gt_updated_at times) round in
              Ok (round_activation goal round (ev_seq event)
                    (set_times (<[goal_id := times]> (gs_times s)) s))
    | _ => Ok s
    end.

Definition apply_clear (s : GoalState) (c : GoalChange) : result GoalError GoalState :=
  reference ← ok_or (gc_cleared c) (GInvalid "durable goal clear lacks ref");
  let id := gr_id reference in
  current ← ok_or (gs_goals s !! id) (GNotFound id);
  let g := mkGoal reference (g_phase current) (g_title current) (g_max_goal_rounds current) true in
  _ ← validate_goal_operation (gs_goals s) OpClear g;
  goals ← apply_snapshot (gs_goals s) None g true;
  Ok (mkGoalState goals (delete id (gs_times s)) (delete id (gs_blocked_reasons s)) None
        (gs_next_activation s) (gs_observed_events s) None).

(** The activation after a replayed change: disarmed unless the goal is active,
    moved to the new revision by an edit. *)
Definition change_activation (operation : GoalOperation) (g : GoalSnapshot)
    (a : option Activation) : option Activation :=
  if negb (bool_decide (g_phase g = Active)) then None
  else if bool_decide (operation = OpEdit) then
    match a with
    | Some a =>
        if String.eqb (gr_id (ac_reference a)) (gr_id (g_reference g)) then
          Some (mkActivation (ac_id a) (g_reference g) (g_max_goal_rounds g) (ac_rounds a)
                  (ac_first_event_seq a) (ac_last_user_event_seq a) (ac_queued_round a))
        else Some a
    | None => None
    end
  else a.

(** [insert] when there is a reason, [remove] otherwise. *)
Definition put_reason (id : string) (reason : option GoalBlockReason)
    (reasons : gmap string GoalBlockReason) : gmap string GoalBlockReason :=
  match reason with Some r => <[id := r]> reasons | None => delete id reasons end.

Definition apply_change (s : GoalState) (c : GoalChange) : result GoalError GoalState :=
  wire ← ok_or (gc_goal c) (GInvalid "durable goal change lacks goal");
  gr ← wire_snapshot wire;
  let '(g, reason) := gr in
  let id := gr_id (g_reference g) in
  created ← ok_or (gc_created_at c) (GInvalid "goal change lacks createdAt");
  updated ← ok_or (gc_updated_at c) (GInvalid "goal change lacks updatedAt");
  rounds ← ok_or (gc_rounds_started c) (GInvalid "goal change lacks roundsStarted");
  let times := mkTimes created updated rounds in
  _ ← validate_goal_operation (gs_goals s) (gc_operation c) g;
  _ ← validate_goal_times (gs_times s) (gc_operation c) g times;
  goals ← apply_snapshot (gs_goals s) None g true;
  Ok (mkGoalState goals (<[id := times]> (gs_times s)) (put_reason id reason (gs_blocked_reasons s))
        (change_activation (gc_operation c) g (gs_activation s))
        (gs_next_activation s) (gs_observed_events s) (Some id)).

Definition apply_goal_event (s : GoalState) (event : SessionEvent) : result GoalError GoalState :=
  s ← (if String.eqb (event_type event) "goal/change" then
         change ← map_err (λ _, GInvalid "durable goal/change payload is invalid")
                    (from_value (A := GoalChange) (ev_data event));
         _ ← validate_shape change;
         if bool_decide (gc_operation change = OpClear) then apply_clear s change
         else apply_change s change
       else Ok s);
  apply_goal_round s event.

Definition current_from_state (s : GoalState) : option GoalSnapshot :=
  id ← gs_current s; g ← gs_goals s !! id;
  if g_tombstone g then None else Some g.

(** [GoalService::new]: the replay, and an activation for an active goal. *)
Definition GoalService_new (live : bool) (session : Session) : result GoalError GoalState :=
  if negb live then Err GNotLive
  else
    let events := st_events (s_state session) in
    s ← foldM apply_goal_event GoalState_default events;
    let s := set_observed (length events) s in
    Ok match id ← gs_current s; active_goal (gs_goals s) id with
       | Some g =>
           let rounds := match gs_times s !! gr_id (g_reference g) with
                         | Some t => gt_rounds_started t
                         | None => 0
                         end in
           mkGoalState (gs_goals s) (gs_times s) (gs_blocked_reasons s)
             (Some (mkActivation 1 (g_reference g) (g_max_goal_rounds g) rounds 1 None None))
             1 (gs_observed_events s) (gs_current s)
       | None => s
       end.

(** The candidate is discarded when an event is refused. *)
Definition sync (session : Session) (s : GoalState) : result GoalError GoalState :=
  let events := st_events (s_state session) in
  if (length events <? gs_observed_events s)%nat then
    Err (GInvalid "durable goal event cursor regressed")
  else if (gs_observed_events s =? length events)%nat then Ok s
  else
    candidate ← foldM apply_goal_event s (drop (gs_observed_events s) events);
    Ok (set_observed (length events) candidate).
End replay.

(** ** The service *)

(** What a method observes: whether the agent is live and owns the session, the
    successive clock readings, a fresh id, and what other tasks do to the
    session and the back end at the steps where a write yields to them. *)
Record World (S : Type) := mkWorld {
  w_goal : GoalState;
  w_session : Session;
  w_backend : S;
}.
Arguments mkWorld {S} _ _ _.
Arguments w_goal {S} _.
Arguments w_session {S} _.
Arguments w_backend {S} _.

Record Env (S : Type) := mkEnv {
  e_live : bool;
  e_clock : nat → N;
  e_uuid : string;
  e_others : nat → Session → S → Session * S;
}.
Arguments mkEnv {S} _ _ _ _.
Arguments e_live {S} _.
Arguments e_clock {S} _ _.
Arguments e_uuid {S} _.
Arguments e_others {S} _ _ _ _.

(** The computations: a state monad with errors; [None] is no result. *)
Definition Goals (S A : Type) : Type := World S → option (result GoalError A * World S).

#[export] Instance goals_ret S : MRet (Goals S) := λ A a w, Some (Ok a, w).
#[export] Instance goals_bind S : MBind (Goals S) := λ A B k m w,
  match m w with
  | Some (Ok a, w') => k a w'
  | Some (Err e, w') => Some (Err e, w')
  | None => None
  end.

Definition get_goal {S} : Goals S GoalState := λ w, Some (Ok (w_goal w), w).
Definition put_goal {S} (s : GoalState) : Goals S unit :=
  λ w, Some (Ok tt, mkWorld s (w_session w) (w_backend w)).
Definition get_session {S} : Goals S Session := λ w, Some (Ok (w_session w), w).
Definition lift {S A} (r : result GoalError A) : Goals S A := λ w, Some (r, w).
(** Other tasks run. *)
Definition yield_to {S} (env : Env S) (i : nat) : Goals S unit := λ w,
  let '(s, b) := e_others env i (w_session w) (w_backend w) in
  Some (Ok tt, mkWorld (w_goal w) s b).

(** [now]: milliseconds, capped at the largest safe integer. *)
Definition now {S} (env : Env S) (i : nat) : N := N.min (e_clock env i) MAX_SAFE_INTEGER.

Section service.
Context `{ProtocolWire, GoalWire} {S : Type} `{SessionPersistence S}.
Abbreviation M := (Goals S).

Definition require_live (env : Env S) : M unit := lift (if e_live env then Ok tt else Err GNotLive).
Definition check_cancelled (cancelled : bool) : M unit := lift (goal_check_cancellation cancelled).

(** [sync_locked]. *)
Definition sync_locked : M unit :=
  s ← get_goal; session ← get_session; s' ← lift (sync session s); put_goal s'.

Definition current_locked (s : GoalState) (reference : GoalRef) : result GoalError GoalSnapshot :=
  current ← ok_or (gs_goals s !! gr_id reference) (GNotFound (gr_id reference));
  if g_tombstone current then Err GTombstoned
  else if negb (bool_decide (g_reference current = reference)) then Err GStale
  else Ok current.

Definition goal_event (data : Value) (time seq : N) : SessionEvent :=
  mkEvent "goal/change" seq time data None None None.

(** The ledger after its own change was appended. *)
Definition record_write (operation : GoalOperation) (g : GoalSnapshot) (times : GoalTimes)
    (reason : option GoalBlockReason) (goals : gmap string GoalSnapshot) (s : GoalState) :
    GoalState :=
  let id := gr_id (g_reference g) in
  if bool_decide (operation = OpClear) then
    mkGoalState goals (delete id (gs_times s)) (delete id (gs_blocked_reasons s))
      (gs_activation s) (gs_next_activation s) (gs_observed_events s + 1) None
  else
    mkGoalState goals (<[id := times]> (gs_times s)) (put_reason id reason (gs_blocked_reasons s))
      (gs_activation s) (gs_next_activation s) (gs_observed_events s + 1) (Some id).

(** The times of a change: created when first written, never updated backwards. *)
Definition write_times (env : Env S) (i : nat) (old : option GoalTimes) : GoalTimes :=
  let updated := match old with
                 | Some t => N.max (now env i) (gt_updated_at t)
                 | None => now env i
                 end in
  mkTimes (match old with Some t => gt_created_at t | None => updated end) updated
    (match old with Some t => gt_rounds_started t | None => 0 end).

Definition write_change (operation : GoalOperation) (g : GoalSnapshot) (times : GoalTimes)
    (reason : option GoalBlockReason) : GoalChange :=
  if bool_decide (operation = OpClear) then GoalChange_clear (g_reference g) (gt_updated_at times)
  else GoalChange_snapshot operation g times reason.

(** [append]: one event at an explicit sequence number. *)
Definition append_goal (t : token) (event : SessionEvent) : M (result SessionError unit) := λ w,
  let '(r, s, b) := append t event (w_session w) (w_backend w) in
  Some (Ok r, mkWorld (w_goal w) s b).

(** The compare-and-swap loop.  Each round reads the clock twice and yields
    twice: before the append gets the session's gate and after it failed. *)
Fixpoint write_loop (fuel i : nat) (t : token) (env : Env S) (expected : option GoalRef)
    (g : GoalSnapshot) (operation : GoalOperation) (reason : option GoalBlockReason) :
    M GoalSnapshot :=
  match fuel with
  | O => λ _, None
  | Datatypes.S fuel' =>
      s ← get_goal;
      _ ← lift (validate_goal_operation (gs_goals s) operation g);
      candidate ← lift (apply_snapshot (gs_goals s) expected g false);
      let times := write_times env (2 * i) (gs_times s !! gr_id (g_reference g)) in
      let event := goal_event (to_value (write_change operation g times reason))
                     (now env (2 * i + 1)) (N.of_nat (gs_observed_events s)) in
      _ ← yield_to env (2 * i);
      r ← append_goal (sub (2 * i) t) event;
      match r with
      | Ok _ =>
          _ ← put_goal (record_write operation g times reason candidate s); mret g
      | Err (ESequenceGap exp act as e) =>
          if exp <=? act then lift (Err (GSession e))
          else
            _ ← yield_to env (2 * i + 1);
            session ← get_session;
            n ← lift (map_err GSession (next_seq (st_events (s_state session))));
            if negb (n =? exp) then lift (Err (GSession e))
            else
              _ ← check_cancelled (check (2 * i + 1) t);
              _ ← sync_locked;
              write_loop fuel' (i + 1) t env expected g operation reason
      | Err e => lift (Err (GSession e))
      end
  end.

Definition write_locked_with_reason (fuel : nat) (t : token) (env : Env S)
    (expected : option GoalRef) (g : GoalSnapshot) (operation : GoalOperation)
    (reason : option GoalBlockReason) : M GoalSnapshot :=
  _ ← check_cancelled (check 0 t);
  _ ← lift (GoalSnapshot_validate g);
  s ← get_goal;
  blocked ← lift
    (if bool_decide (g_phase g = Blocked) then
       r ← ok_or (match reason with
                  | Some r => Some r
                  | None => gs_blocked_reasons s !! gr_id (g_reference g)
                  end) (GInvalid "blocked goal lacks blockedReason");
       Some <$> normalized r
     else Ok None);
  write_loop fuel 0 (sub 1 t) env expected g operation blocked.

Definition write_locked (fuel : nat) (t : token) (env : Env S) (expected : option GoalRef)
    (g : GoalSnapshot) (operation : GoalOperation) : M GoalSnapshot :=
  write_locked_with_reason fuel t env expected g operation None.

(** [arm_locked]; the activation's id is what the caller gets. *)
Definition arm_locked (reference : GoalRef) (max_rounds : N) : M N :=
  s ← get_goal; session ← get_session;
  if negb (safe_rounds max_rounds) then
    lift (Err (GInvalid "goal round cap must be a positive safe integer"))
  else
    match gs_goals s !! gr_id reference with
    | None => lift (Err (GNotFound (gr_id reference)))
    | Some g =>
        if negb (bool_decide (g_reference g = reference)) then lift (Err GStale)
        else if g_tombstone g || negb (bool_decide (g_phase g = Active)) then lift (Err GInactive)
        else
          let id := next_activation (gs_next_activation s) in
          let s1 := mkGoalState (gs_goals s) (gs_times s) (gs_blocked_reasons s)
                      (gs_activation s) id (gs_observed_events s) (gs_current s) in
          _ ← put_goal s1;
          first ← lift (map_err GSession (next_seq (st_events (s_state session))));
          _ ← put_goal (set_activation
                (Some (mkActivation id reference max_rounds 0 first None None)) s1);
          mret id
    end.

(** What every method does first, under the lock. *)
Definition enter (t : token) (env : Env S) : M GoalState :=
  _ ← require_live env; _ ← check_cancelled (check 0 t); _ ← sync_locked; get_goal.

(** The operation a whole-snapshot write amounts to. *)
Definition write_operation (s : GoalState) (g : GoalSnapshot) : GoalOperation :=
  if g_tombstone g then OpClear
  else if gr_revision (g_reference g) =? 1 then OpCreate
  else
    match gs_goals s !! gr_id (g_reference g) with
    | Some current =>
        match g_phase current, g_phase g with
        | Active, Paused => OpPause
        | (Active | Paused | Blocked), Complete => OpComplete
        | Active, Blocked => OpBlock
        | (Paused | Blocked), Active => OpResume
        | _, _ => OpEdit
        end
    | None => OpEdit
    end.

Definition write (fuel : nat) (t : token) (env : Env S) (expected : option GoalRef)
    (g : GoalSnapshot) : M GoalSnapshot :=
  s ← enter t env;
  write_locked fuel (sub 1 t) env expected g (write_operation s g).

Definition normalize_objective (objective : string) : result GoalError string :=
  let objective := trim objective in
  if is_empty objective then Err (GInvalid "goal objective must be non-empty") else Ok objective.

(** [!goal.tombstone && goal.phase != Complete] for some goal. *)
Definition unfinished (g : GoalSnapshot) : bool :=
  negb (g_tombstone g) && negb (bool_decide (g_phase g = Complete)).

Definition create (fuel : nat) (t : token) (env : Env S) (objective : string)
    (max_goal_rounds : option N) : M GoalSnapshot :=
  _ ← require_live env;
  _ ← check_cancelled (check 0 t);
  title ← lift (normalize_objective objective);
  let g := mkGoal (mkGoalRef ("goal-" +:+ e_uuid env) 1) Active title
             (default DEFAULT_MAX_GOAL_ROUNDS max_goal_rounds) false in
  _ ← lift (GoalSnapshot_validate g);
  _ ← sync_locked;
  s ← get_goal;
  if existsb unfinished (btree_values (gs_goals s)) then lift (Err GAlreadyExists)
  else
    g ← write_locked fuel (sub 1 t) env None g OpCreate;
    _ ← check_cancelled (check 2 t);
    _ ← arm_locked (g_reference g) (g_max_goal_rounds g);
    mret g.

(** The next revision of a goal in another phase, or cleared. *)
Definition next_snapshot (current : GoalSnapshot) (phase : GoalPhase) (tombstone : bool) :
    result GoalError GoalSnapshot :=
  reference ← next_ref (g_reference current);
  Ok (mkGoal reference phase (g_title current) (g_max_goal_rounds current) tombstone).

Definition edit (fuel : nat) (t : token) (env : Env S) (reference : GoalRef)
    (objective : option string) (max_goal_rounds : option N) : M GoalSnapshot :=
  match objective, max_goal_rounds with
  | None, None => lift (Err (GInvalid "goal edit requires objective or maxGoalRounds"))
  | _, _ =>
      s ← enter t env;
      current ← lift (current_locked s reference);
      next ← lift (next_ref (g_reference current));
      title ← lift (match objective with
                    | Some o => normalize_objective o
                    | None => Ok (g_title current)
                    end);
      let g := mkGoal next (g_phase current) title
                 (default (g_max_goal_rounds current) max_goal_rounds) false in
      g ← write_locked fuel (sub 1 t) env (Some reference) g OpEdit;
      s ← get_goal;
      _ ← put_goal (match gs_activation s with
                    | Some a =>
                        if bool_decide (ac_reference a = reference) then
                          set_activation (Some (mkActivation (ac_id a) (g_reference g)
                            (g_max_goal_rounds g) (ac_rounds a) (ac_first_event_seq a)
                            (ac_last_user_event_seq a) (ac_queued_round a))) s
                        else s
                    | None => s
                    end);
      mret g
  end.

(** [transition]; every caller in the source disarms. *)
Definition transition (fuel : nat) (t : token) (env : Env S) (reference : GoalRef)
    (allowed : list GoalPhase) (phase : GoalPhase) (arm : bool) : M GoalSnapshot :=
  s ← enter t env;
  current ← lift (current_locked s reference);
  if negb (bool_decide (g_phase current ∈ allowed)) then lift (Err GInvalidTransition)
  else
    g ← lift (next_snapshot current phase false);
    let operation := match phase with
                     | Paused => OpPause | Active => OpResume
                     | Complete => OpComplete | Blocked => OpBlock
                     end in
    g ← write_locked fuel (sub 1 t) env (Some reference) g operation;
    _ ← (if arm then _ ← arm_locked (g_reference g) (g_max_goal_rounds g); mret tt
         else s ← get_goal; put_goal (set_activation None s));
    mret g.

Definition pause (fuel : nat) (t : token) (env : Env S) (reference : GoalRef) : M GoalSnapshot :=
  transition fuel t env reference [Active] Paused false.
Definition complete (fuel : nat) (t : token) (env : Env S) (reference : GoalRef) :
    M GoalSnapshot := transition fuel t env reference [Active; Paused; Blocked] Complete false.

Definition block (fuel : nat) (t : token) (env : Env S) (reference : GoalRef)
    (reason : GoalBlockReason) : M GoalSnapshot :=
  s ← enter t env;
  current ← lift (current_locked s reference);
  if negb (bool_decide (g_phase current = Active)) then lift (Err GInvalidTransition)
  else
    g ← lift (next_snapshot current Blocked false);
    g ← write_locked_with_reason fuel (sub 1 t) env (Some reference) g OpBlock (Some reason);
    s ← get_goal;
    _ ← put_goal (set_activation None s);
    mret g.

Definition resume (fuel : nat) (t : token) (env : Env S) (reference : GoalRef) : M GoalSnapshot :=
  s ← enter t env;
  current ← lift (current_locked s reference);
  if bool_decide (g_phase current = Complete)
     || bool_decide (g_phase current = Active) && bool_decide (is_Some (gs_activation s))
  then lift (Err GInvalidTransition)
  else if match gs_times s !! gr_id (g_reference current) with
          | Some times => g_max_goal_rounds current <=? gt_rounds_started times
          | None => false
          end
  then lift (Err GInvalidTransition)
  else
    g ← lift (next_snapshot current Active false);
    g ← write_locked fuel (sub 1 t) env (Some reference) g OpResume;
    _ ← arm_locked (g_reference g) (g_max_goal_rounds g);
    mret g.

Definition clear (fuel : nat) (t : token) (env : Env S) (reference : GoalRef) : M GoalSnapshot :=
  s ← enter t env;
  current ← lift (current_locked s reference);
  g ← lift (next_snapshot current (g_phase current) true);
  g ← write_locked fuel (sub 1 t) env (Some reference) g OpClear;
  s ← get_goal;
  _ ← put_goal (set_activation None s);
  mret g.

Definition activate (t : token) (env : Env S) (reference : GoalRef) (max_rounds : N) : M N :=
  _ ← enter t env; arm_locked reference max_rounds.

Definition snapshot (id : string) : M (option GoalSnapshot) :=
  _ ← sync_locked; s ← get_goal; mret (gs_goals s !! id).
Definition snapshots : M (list GoalSnapshot) :=
  _ ← sync_locked; s ← get_goal; mret (btree_values (gs_goals s)).
Definition current : M (option GoalSnapshot) :=
  _ ← sync_locked; s ← get_goal; mret (current_from_state s).

(** ** Automatic rounds *)

Definition goal_round_text (to_string : Value → string) (objective : string)
    (round max_rounds : N) : string :=
  "<goal_round>
Objective: " +:+ to_string (VString objective) +:+ "
Round: " +:+ fmt_N round +:+ "/" +:+ fmt_N max_rounds +:+ "

Continue working toward the objective in this same session. Treat the current workspace, tool results, and durable session state as authoritative; inspect them instead of assuming earlier narration is still current. Make concrete progress and verify the result. Before claiming completion, gather evidence that the whole objective is achieved, read the current goal, and mark it complete. If work remains, leave the goal active for the next round. Follow the configured goal-tool policy before reporting a blocker.
</goal_round>".

(** What a drive observes besides: the agent's status, whether its inbox takes
    the message, the message id and the serialiser. *)
Record GoalDriving := mkGoalDriving {
  gd_idle : bool;
  gd_followup : Message → bool;
  gd_id : MessageId;
  gd_text : Value → string;
}.

Inductive Next :=
| Queue (reference : GoalRef) (round : N) (objective : string) (max_rounds : N)
| BlockNext (reference : GoalRef) (max_rounds : N).

Definition set_queued (round : option N) (a : Activation) : Activation :=
  mkActivation (ac_id a) (ac_reference a) (ac_max_rounds a) (ac_rounds a) (ac_first_event_seq a)
    (ac_last_user_event_seq a) round.

(** The first critical section: what to do next, the round being reserved. *)
Definition next_round (s : GoalState) : result GoalError (option Next * GoalState) :=
  match gs_activation s with
  | None => Ok (None, s)
  | Some a =>
      if bool_decide (is_Some (ac_queued_round a)) then Ok (None, s)
      else
        let reference := ac_reference a in
        current ← ok_or (gs_goals s !! gr_id reference) (GNotFound (gr_id reference));
        if negb (bool_decide (g_reference current = reference)) || g_tombstone current
           || negb (bool_decide (g_phase current = Active))
        then Ok (None, s)
        else
          times ← ok_or (gs_times s !! gr_id (g_reference current))
                    (GInvalid "goal lacks round counter");
          let rounds := gt_rounds_started times in
          if g_max_goal_rounds current <=? rounds then
            Ok (Some (BlockNext (g_reference current) (g_max_goal_rounds current)), s)
          else
            Ok (Some (Queue (g_reference current) (rounds + 1) (g_title current)
                        (g_max_goal_rounds current)),
                set_activation (Some (set_queued (Some (rounds + 1)) a)) s)
  end.

Definition goal_message (d : GoalDriving) (reference : GoalRef) (round : N) (objective : string)
    (max_rounds : N) : Message :=
  mkMessage (gd_id d) RoleUser [Text (goal_round_text (gd_text d) objective round max_rounds)]
    (SourceGoal (gr_id reference) (gr_revision reference) round).

Definition clear_queued_round (reference : GoalRef) (round : N) : M unit :=
  s ← get_goal;
  put_goal (match gs_activation s with
            | Some a =>
                if bool_decide (ac_reference a = reference)
                   && bool_decide (ac_queued_round a = Some round)
                then set_activation (Some (set_queued None a)) s else s
            | None => s
            end).

(** The queue failed: the reservation is dropped and the goal blocked. *)
Definition queue_failed (fuel : nat) (t : token) (env : Env S) (reference : GoalRef) (round : N)
    (why : string) (error : GoalError) : M unit :=
  _ ← clear_queued_round reference round;
  _ ← block fuel t env reference
        (mkReason "queue-failed" ("Could not queue goal round " +:+ fmt_N round +:+ ": " +:+ why));
  lift (Err error).

(** The critical section of [drive]: the next round is reserved in the ledger. *)
Definition reserve (env : Env S) (d : GoalDriving) : M (option Next) :=
  _ ← require_live env;
  if negb (gd_idle d) then mret None
  else
    _ ← sync_locked;
    s ← get_goal;
    ns ← lift (next_round s);
    let '(next, s) := ns in
    _ ← put_goal s; mret next.

(** The queue event; other tasks may append between the reading of the
    sequence number and the append, which is not tried again. *)
Definition queue_round (t : token) (env : Env S) (message : Message) :
    M (result SessionError unit) :=
  session ← get_session;
  seq ← lift (map_err GSession (next_seq (st_events (s_state session))));
  _ ← yield_to env 0;
  append_goal t
    (mkEvent "agent/inbox/enqueued" seq (now env 0)
       (json_object [("target", VString "next-turn"); ("message", to_value message)])
       (Some true) None None).

(** [drive]; [t] is the agent's own token. *)
Definition drive (fuel : nat) (t : token) (env : Env S) (d : GoalDriving) : M unit :=
  next ← reserve env d;
  match next with
  | None => mret tt
  | Some (BlockNext reference max_rounds) =>
      _ ← block fuel (sub 0 t) env reference
            (mkReason "round-limit"
               ("Goal reached its configured limit of " +:+ fmt_N max_rounds +:+ " rounds."));
      mret tt
  | Some (Queue reference round objective max_rounds) =>
      let message := goal_message d reference round objective max_rounds in
      r ← queue_round (sub 1 t) env message;
      match r with
      | Err _ =>
          queue_failed fuel (sub 2 t) env reference round "durable queue append failed."
            (GInvalid "goal continuation queue append failed")
      | Ok _ =>
          if gd_followup d message then mret tt
          else queue_failed fuel (sub 2 t) env reference round "agent delivery failed."
                 (GInvalid "goal continuation queue delivery failed")
      end
  end.

(** ** Explicit activations *)

Definition attributed_user (event : SessionEvent) : bool :=
  String.eqb (event_type event) "user/message"
  && bool_decide (pointer ["source"; "kind"] (ev_data event) ≫= as_str = Some "user").

(** [admit_user_round] of the activation with the id [id]; [gone] when the
    service was dropped. *)
Definition admit_user_round (gone : bool) (id : N) (t : token) (env : Env S)
    (user_event_seq : N) : M N :=
  _ ← check_cancelled (check 0 t);
  if gone then lift (Err GInactive)
  else
    _ ← require_live env;
    s ← get_goal; session ← get_session;
    a ← lift (ok_or (gs_activation s) GInactive);
    if negb (ac_id a =? id) then lift (Err GInactive)
    else if ac_max_rounds a <=? ac_rounds a then lift (Err GRoundCap)
    else
      let reference := ac_reference a in
      current ← lift (ok_or (gs_goals s !! gr_id reference) (GNotFound (gr_id reference)));
      if negb (bool_decide (g_reference current = reference))
         || negb (bool_decide (g_phase current = Active)) || g_tombstone current
      then lift (Err GInactive)
      else
        let after := default (u64_saturating_sub (ac_first_event_seq a) 1)
                       (ac_last_user_event_seq a) in
        expected ← lift (ok_or
          (ev_seq <$> List.find (λ e, (ac_first_event_seq a <=? ev_seq e)
                                      && (after <? ev_seq e) && attributed_user e)
                        (st_events (s_state session))) GInvalidRound);
        if negb (expected =? user_event_seq) then lift (Err GInvalidRound)
        else
          _ ← put_goal (set_activation
                (Some (mkActivation (ac_id a) reference (ac_max_rounds a) (ac_rounds a + 1)
                   (ac_first_event_seq a) (Some user_event_seq) (ac_queued_round a))) s);
          mret (ac_rounds a + 1).

Definition disarm (gone : bool) (id : N) : M unit :=
  if gone then mret tt
  else
    s ← get_goal;
    put_goal (match gs_activation s with
              | Some a => if ac_id a =? id then set_activation None s else s
              | None => s
              end).

(** ** Views *)

Definition phase_name (p : GoalPhase) : string :=
  match p with
  | Active => "active" | Paused => "paused" | Blocked => "blocked" | Complete => "complete"
  end.
Definition reason_value (r : GoalBlockReason) : Value :=
  json_object [("code", VString (br_code r)); ("message", VString (br_message r))].

(** The model's view of the current goal. *)
Definition model_value_of (s : GoalState) : result GoalError Value :=
  match current_from_state s with
  | None => Ok (json_object [("goal", VNull)])
  | Some g =>
      let id := gr_id (g_reference g) in
      times ← ok_or (gs_times s !! id) (GInvalid "goal lacks round counter");
      let armed := match gs_activation s with
                   | Some a => bool_decide (ac_reference a = g_reference g)
                               && bool_decide (g_phase g = Active) && negb (g_tombstone g)
                   | None => false
                   end in
      Ok (json_object
        [("goal", json_object
            ([("id", VString id); ("revision", json_u64 (gr_revision (g_reference g)));
              ("objective", VString (g_title g)); ("phase", VString (phase_name (g_phase g)));
              ("roundsStarted", json_u64 (gt_rounds_started times));
              ("maxGoalRounds", json_u64 (g_max_goal_rounds g))]
             ++ match gs_blocked_reasons s !! id with
                | Some r => [("blockedReason", reason_value r)]
                | None => []
                end));
         ("activation", VString (if armed then "armed" else "disarmed"))])
  end.

Definition model_value : M Value := _ ← sync_locked; s ← get_goal; lift (model_value_of s).
End service.
