(* ===== verification/GoalFacts.v ===== *)
(** * Goals: the replay

    The durable part of a ledger, which the replay of an event neither reads
    nor writes anything else to decide; the invariant of replayed ledgers; and
    that what the service writes is what it replays. *)

From S2P Require Import Prelude Json Protocol Session SessionFacts Goal.

#[local] Open Scope N_scope.

(** ** The durable part *)

(** Two ledgers that differ in process-local state only: the activation, its
    counter and the cursor. *)
Record durable_eq (s r : GoalState) : Prop := {
  de_goals : gs_goals s = gs_goals r;
  de_times : gs_times s = gs_times r;
  de_reasons : gs_blocked_reasons s = gs_blocked_reasons r;
  de_current : gs_current s = gs_current r;
}.
#[export] Instance goal_state_equiv : Equiv GoalState := durable_eq.
#[export] Instance goal_state_equivalence : Equivalence (≡@{GoalState}).
Proof.
  split; [by split|by intros s r []; split|].
  intros s r u [] []. split; by etrans.
Qed.

(** Results are equivalent when they are the same error or equivalent ledgers. *)
Definition result_equiv (a b : result GoalError GoalState) : Prop :=
  match a, b with Ok s, Ok r => s ≡ r | Err e, Err e' => e = e' | _, _ => False end.

Lemma set_activation_equiv a s : set_activation a s ≡ s.
Proof. by split. Qed.
Lemma set_observed_equiv n s : set_observed n s ≡ s.
Proof. by split. Qed.

Section replay.
Context `{ProtocolWire, GoalWire}.

Lemma round_activation_equiv g round seq s : round_activation g round seq s ≡ s.
Proof. unfold round_activation. repeat case_match; by split. Qed.

#[export] Instance set_times_proper times : Proper ((≡) ==> (≡)) (set_times times).
Proof. intros s r []. by split. Qed.

Lemma apply_goal_round_equiv s r e :
  s ≡ r → result_equiv (apply_goal_round s e) (apply_goal_round r e).
Proof.
  intros Hs. unfold apply_goal_round. case_match; [done|].
  destruct (map_err _ _) as [m|]; [|done]. simpl. destruct (m_source m); try done.
  case_bool_decide; [done|]. rewrite (de_goals _ _ Hs), (de_times _ _ Hs).
  destruct (active_goal _ _) as [g|]; [|done]. simpl. case_match; [done|].
  destruct (gs_times r !! goal_id) as [t|]; [|done]. simpl. case_match; [done|]. simpl.
  rewrite !round_activation_equiv. by apply set_times_proper.
Qed.

Lemma apply_clear_equiv s r c : s ≡ r → result_equiv (apply_clear s c) (apply_clear r c).
Proof.
  intros Hs. unfold apply_clear. rewrite (de_goals _ _ Hs).
  destruct (ok_or _ _) as [ref|]; [|done]. simpl.
  destruct (ok_or _ _) as [g|]; [|done]. simpl.
  destruct (validate_goal_operation _ _ _) as [[]|]; [|done]. simpl.
  destruct (apply_snapshot _ _ _ _) as [goals|]; [|done]. destruct Hs as [_ Ht Hr _].
  split; simpl; congruence.
Qed.

Lemma apply_change_equiv s r c : s ≡ r → result_equiv (apply_change s c) (apply_change r c).
Proof.
  intros Hs. unfold apply_change. rewrite (de_goals _ _ Hs), (de_times _ _ Hs).
  destruct (ok_or (gc_goal c) _) as [w|]; [|done]. simpl.
  destruct (wire_snapshot w) as [[g reason]|]; [|done]. simpl.
  destruct (ok_or (gc_created_at c) _) as [created|]; [|done]. simpl.
  destruct (ok_or (gc_updated_at c) _) as [updated|]; [|done]. simpl.
  destruct (ok_or (gc_rounds_started c) _) as [rounds|]; [|done]. simpl.
  destruct (validate_goal_operation _ _ _) as [[]|]; [|done]. simpl.
  destruct (validate_goal_times _ _ _ _) as [[]|]; [|done]. simpl.
  destruct (apply_snapshot _ _ _ _) as [goals|]; [|done]. destruct Hs as [_ _ Hr _].
  split; simpl; congruence.
Qed.

(** Replay depends on the durable part only. *)
Lemma apply_goal_event_equiv s r e :
  s ≡ r → result_equiv (apply_goal_event s e) (apply_goal_event r e).
Proof.
  intros Hs. unfold apply_goal_event.
  destruct (String.eqb _ _); simpl; [|by apply apply_goal_round_equiv].
  destruct (map_err _ _) as [c|]; [|done]. simpl.
  destruct (validate_shape c) as [[]|]; [|done]. simpl.
  assert (result_equiv (if bool_decide (gc_operation c = OpClear) then apply_clear s c
    else apply_change s c) (if bool_decide (gc_operation c = OpClear) then apply_clear r c
    else apply_change r c)) as Hc.
  { case_bool_decide; [by apply apply_clear_equiv|by apply apply_change_equiv]. }
  destruct (if bool_decide _ then apply_clear s c else _) as [s1|],
    (if bool_decide _ then apply_clear r c else _) as [r1|]; try done.
  by apply apply_goal_round_equiv.
Qed.

Lemma replay_equiv events s r :
  s ≡ r → result_equiv (foldM apply_goal_event s events) (foldM apply_goal_event r events).
Proof.
  revert s r. induction events as [|e events IH]; intros s r Hs; simpl; [done|].
  pose proof (apply_goal_event_equiv s r e Hs) as He.
  destruct (apply_goal_event s e), (apply_goal_event r e); simpl in *; try done. by apply IH.
Qed.

Lemma replay_equiv_Ok events s r s' :
  s ≡ r → foldM apply_goal_event s events = Ok s' →
  ∃ r', foldM apply_goal_event r events = Ok r' ∧ s' ≡ r'.
Proof.
  intros Hs Hf. pose proof (replay_equiv events s r Hs) as Hr. rewrite Hf in Hr.
  destruct (foldM _ r events) as [r'|]; [by exists r'|done].
Qed.
End replay.

(** ** Snapshots in the ledger *)

Lemma apply_snapshot_Ok goals expected g replay goals' :
  apply_snapshot goals expected g replay = Ok goals' →
  GoalSnapshot_validate g = Ok tt ∧ goals' = <[gr_id (g_reference g) := g]> goals ∧
  match goals !! gr_id (g_reference g) with
  | None => expected = None ∧ gr_revision (g_reference g) = 1 ∧ g_tombstone g = false
  | Some current => g_tombstone current = false ∧
      (expected = Some (g_reference current) ∨ expected = None ∧ replay = true) ∧
      gr_revision (g_reference g) = u64_saturating_add (gr_revision (g_reference current)) 1 ∧
      permits (g_phase current) (g_phase g) = true
  end.
Proof.
  unfold apply_snapshot. intros Ha. invert_ok. split_and!; [done..|].
  destruct (goals !! _) as [current|].
  - destruct (g_tombstone current); [by invert_ok|].
    destruct expected as [e|]; [|destruct replay; [|done]]; invert_ok.
    all: repeat match goal with
      | Hb : bool_decide _ = true |- _ => apply bool_decide_eq_true in Hb
      | Hb : (_ =? _) = true |- _ => apply N.eqb_eq in Hb end; subst; auto 10.
  - invert_ok. destruct expected; [by rewrite bool_decide_eq_true_2 in * by eauto|].
    match goal with Hb : (_ =? _) = true |- _ => by apply N.eqb_eq in Hb end.
Qed.

(** A live write of the expected revision replays. *)
Lemma apply_snapshot_replay goals expected g goals' :
  apply_snapshot goals expected g false = Ok goals' → apply_snapshot goals None g true = Ok goals'.
Proof.
  intros Ha. pose proof (apply_snapshot_Ok _ _ _ _ _ Ha) as (Hv & -> & Hcase).
  unfold apply_snapshot. rewrite Hv. simpl. destruct (goals !! _) as [current|] eqn:Hc.
  - destruct Hcase as (-> & _ & Hrev & Hp).
    simpl. rewrite bool_decide_eq_true_2 by done. rewrite Hrev, N.eqb_refl, Hp. done.
  - destruct Hcase as (_ & Hrev & Ht). by rewrite Hrev, Ht.
Qed.

Lemma validate_goal_operation_Ok goals operation g :
  validate_goal_operation goals operation g = Ok tt →
  (operation = OpCreate ∧ g_tombstone g = false ∧ gr_revision (g_reference g) = 1 ∧
     g_phase g = Active) ∨
  (operation ≠ OpCreate ∧ ∃ current, goals !! gr_id (g_reference g) = Some current ∧
     g_tombstone current = false ∧ next_ref (g_reference current) = Ok (g_reference g) ∧
     operation_valid operation current g = true).
Proof.
  unfold validate_goal_operation. case_bool_decide as Hop.
  - case_match eqn:Hb; [|done]. intros _. left. rewrite !andb_true_iff, negb_true_iff in Hb.
    destruct Hb as [[? ?%N.eqb_eq] ?%bool_decide_eq_true]. done.
  - intros Hv. right. split; [done|]. apply bind_Ok in Hv as (current & Hc%ok_or_Ok & Hv).
    exists current. destruct (g_tombstone current); [done|].
    apply bind_Ok in Hv as (expected & He & Hv). rewrite He.
    case_bool_decide; [|done]. subst. simpl in Hv. by destruct (operation_valid _ _ _).
Qed.

(** ** The invariant of ledgers *)

Definition times_ok (t : GoalTimes) : Prop :=
  gt_created_at t ≤ gt_updated_at t ∧ gt_updated_at t ≤ MAX_SAFE_INTEGER ∧
  gt_rounds_started t ≤ MAX_SAFE_INTEGER.

(** Goals are filed under their id and valid; exactly the goals that are not
    cleared have times. *)
Record ledger_wf (s : GoalState) : Prop := {
  lw_goal : ∀ id g, gs_goals s !! id = Some g →
    gr_id (g_reference g) = id ∧ GoalSnapshot_validate g = Ok tt;
  lw_times : ∀ id, is_Some (gs_times s !! id) ↔
    ∃ g, gs_goals s !! id = Some g ∧ g_tombstone g = false;
  lw_bounds : ∀ id t, gs_times s !! id = Some t → times_ok t;
}.

#[export] Instance ledger_wf_proper : Proper ((≡) ==> iff) ledger_wf.
Proof.
  intros s r [Hg Ht _ _]. split; intros [Hk Hl Hb]; split; by rewrite ?Hg, ?Ht in *.
Qed.

Lemma default_wf : ledger_wf GoalState_default.
Proof.
  split; simpl.
  - intros id g. by rewrite lookup_empty.
  - intros id. rewrite lookup_empty. split; [by intros [? ?]|]. intros (g & Hg & _).
    by rewrite lookup_empty in Hg.
  - intros id t. by rewrite lookup_empty.
Qed.

Lemma GoalSnapshot_validate_Ok g :
  GoalSnapshot_validate g = Ok tt → GoalRef_validate (g_reference g) = Ok tt ∧
  blank (g_title g) = false ∧ 1 ≤ g_max_goal_rounds g ≤ MAX_SAFE_INTEGER.
Proof.
  unfold GoalSnapshot_validate. intros Hv. invert_ok. split_and!; [done|done|..];
    match goal with Hb : safe_rounds _ = true |- _ =>
      unfold safe_rounds in Hb; apply andb_true_iff in Hb as [?%N.leb_le ?%N.leb_le]; done end.
Qed.

(** Filing a valid goal with its times. *)
Lemma ledger_insert s g t s' :
  ledger_wf s → GoalSnapshot_validate g = Ok tt → g_tombstone g = false → times_ok t →
  gs_goals s' = <[gr_id (g_reference g) := g]> (gs_goals s) →
  gs_times s' = <[gr_id (g_reference g) := t]> (gs_times s) → ledger_wf s'.
Proof.
  intros [Hk Hl Hb] Hv Hg Ht Hgoals Htimes. split; rewrite ?Hgoals, ?Htimes.
  - intros id x. rewrite lookup_insert. case_decide; [intros [= <-]; done|apply Hk].
  - intros id. rewrite !lookup_insert. case_decide; [|apply Hl].
    split; [intros _; by exists g|by eexists].
  - intros id x. rewrite lookup_insert. case_decide; [by intros [= <-]|apply Hb].
Qed.

(** Clearing a goal. *)
Lemma ledger_clear s g s' :
  ledger_wf s → GoalSnapshot_validate g = Ok tt → g_tombstone g = true →
  gs_goals s' = <[gr_id (g_reference g) := g]> (gs_goals s) →
  gs_times s' = delete (gr_id (g_reference g)) (gs_times s) → ledger_wf s'.
Proof.
  intros [Hk Hl Hb] Hv Hg Hgoals Htimes. split; rewrite ?Hgoals, ?Htimes.
  - intros id x. rewrite lookup_insert. case_decide; [intros [= <-]; done|apply Hk].
  - intros id. rewrite lookup_insert, lookup_delete. case_decide; [|apply Hl].
    split; [by intros [? ?]|]. intros (x & [= <-] & ?). congruence.
  - intros id x. rewrite lookup_delete. case_decide; [done|apply Hb].
Qed.

Section preservation.
Context `{ProtocolWire, GoalWire}.

Lemma apply_goal_round_Ok s e s' :
  apply_goal_round s e = Ok s' →
  (s' = s ∧ ∀ m id revision round, event_type e = "user/message" →
     from_value (A := Message) (ev_data e) = Ok m → m_source m ≠ SourceGoal id revision round) ∨
  ∃ m id revision round g t, from_value (A := Message) (ev_data e) = Ok m ∧
    event_type e = "user/message" ∧
    m_source m = SourceGoal id revision round ∧ gs_goals s !! id = Some g ∧
    g_tombstone g = false ∧ g_phase g = Active ∧ gr_revision (g_reference g) = revision ∧
    gs_times s !! id = Some t ∧ round = u64_saturating_add (gt_rounds_started t) 1 ∧
    round ≤ g_max_goal_rounds g ∧
    s' = round_activation g round (ev_seq e)
           (set_times (<[id := mkTimes (gt_created_at t) (gt_updated_at t) round]> (gs_times s)) s).
Proof.
  unfold apply_goal_round. case_match eqn:Ht.
  { intros [= <-]. left. split; [done|]. intros m id rev round Hty.
    by rewrite Hty, String.eqb_refl in Ht. }
  apply negb_false_iff, String.eqb_eq in Ht.
  intros (m & Hm%map_err_Ok & Hs)%bind_Ok. destruct (m_source m) eqn:Hsrc;
    try (injection Hs as <-; left; split; [done|]; congruence).
  case_bool_decide; [done|]. apply bind_Ok in Hs as (g & Hg%ok_or_Ok & Hs).
  case_match eqn:Hrev; [done|]. apply negb_false_iff, N.eqb_eq in Hrev.
  apply bind_Ok in Hs as (t & Hti%ok_or_Ok & Hs). case_match eqn:Hr; [done|].
  apply orb_false_iff in Hr as [Hr%negb_false_iff%N.eqb_eq Hcap%N.ltb_ge]. injection Hs as <-.
  unfold active_goal in Hg. apply bind_Some in Hg as (g' & Hg & Hact).
  case_match eqn:Hb; simplify_eq. apply andb_true_iff in Hb as [Htomb%negb_true_iff Hph].
  apply bool_decide_eq_true in Hph. right. by eexists m, goal_id, _, _, g, t.
Qed.

Lemma round_wf s e s' : ledger_wf s → apply_goal_round s e = Ok s' → ledger_wf s'.
Proof.
  intros Hwf [[-> _]|(m & id & rev & round & g & t & _ & _ & _ & Hg & Htomb & _ & _ & Ht & _ & Hcap & ->)]%apply_goal_round_Ok;
    [done|]. rewrite round_activation_equiv.
  destruct (lw_goal s Hwf id g Hg) as [Hid Hv].
  apply (ledger_insert s g (mkTimes (gt_created_at t) (gt_updated_at t) round)); try done; simpl.
  - destruct (lw_bounds s Hwf id t Ht) as (? & ? & _).
    apply GoalSnapshot_validate_Ok in Hv as (_ & _ & Hm). split_and!; simpl; [done|done|lia].
  - rewrite Hid. by rewrite insert_id.
  - by rewrite Hid.
Qed.

Lemma apply_clear_Ok s c s' :
  apply_clear s c = Ok s' →
  ∃ reference current g, gc_cleared c = Some reference ∧
    gs_goals s !! gr_id reference = Some current ∧
    g = mkGoal reference (g_phase current) (g_title current) (g_max_goal_rounds current) true ∧
    validate_goal_operation (gs_goals s) OpClear g = Ok tt ∧
    apply_snapshot (gs_goals s) None g true = Ok (gs_goals s') ∧
    gs_times s' = delete (gr_id reference) (gs_times s).
Proof.
  unfold apply_clear. intros Hc. invert_ok. eexists _, _, _. by split_and!.
Qed.

Lemma apply_change_Ok s c s' :
  apply_change s c = Ok s' →
  ∃ w g reason times, gc_goal c = Some w ∧ wire_snapshot w = Ok (g, reason) ∧
    gc_created_at c = Some (gt_created_at times) ∧ gc_updated_at c = Some (gt_updated_at times) ∧
    gc_rounds_started c = Some (gt_rounds_started times) ∧
    validate_goal_operation (gs_goals s) (gc_operation c) g = Ok tt ∧
    validate_goal_times (gs_times s) (gc_operation c) g times = Ok tt ∧
    apply_snapshot (gs_goals s) None g true = Ok (gs_goals s') ∧
    gs_times s' = <[gr_id (g_reference g) := times]> (gs_times s).
Proof.
  unfold apply_change. intros (w & Hw%ok_or_Ok & ([g reason] & Hg & Hc)%bind_Ok)%bind_Ok.
  apply bind_Ok in Hc as (created & H1%ok_or_Ok & Hc).
  apply bind_Ok in Hc as (updated & H2%ok_or_Ok & Hc).
  apply bind_Ok in Hc as (rounds & H3%ok_or_Ok & Hc). invert_ok.
  by eexists w, g, reason, (mkTimes created updated rounds).
Qed.

(** The non-clear payload of an accepted shape is within bounds. *)
Lemma change_shape_bounds c t :
  validate_shape c = Ok tt → gc_operation c ≠ OpClear →
  gc_created_at c = Some (gt_created_at t) → gc_updated_at c = Some (gt_updated_at t) →
  gc_rounds_started c = Some (gt_rounds_started t) → times_ok t.
Proof.
  unfold validate_shape. intros Hv Hop H1 H2 H3. invert_ok.
  rewrite bool_decide_eq_false_2 in * by done.
  unfold validate_change_shape in *. rewrite H1, H2, H3 in *. invert_ok.
  repeat match goal with Hb : (_ <? _) = false |- _ => apply N.ltb_ge in Hb end.
  by split_and!.
Qed.

Lemma wire_snapshot_Ok w g reason :
  wire_snapshot w = Ok (g, reason) →
  GoalSnapshot_validate g = Ok tt ∧ g_tombstone g = false ∧ reason = gw_blocked_reason w ∧
  check_reason (g_phase g) reason = Ok tt.
Proof.
  unfold wire_snapshot. intros (u & H1 & (v & H2 & [= <- <-])%bind_Ok)%bind_Ok.
  by destruct u, v.
Qed.

(** The first half of [apply_goal_event]: the change an event carries. *)
Definition apply_change_event (s : GoalState) (e : SessionEvent) : result GoalError GoalState :=
  if String.eqb (event_type e) "goal/change" then
    change ← map_err (λ _, GInvalid "durable goal/change payload is invalid")
               (from_value (A := GoalChange) (ev_data e));
    _ ← validate_shape change;
    if bool_decide (gc_operation change = OpClear) then apply_clear s change
    else apply_change s change
  else Ok s.

Lemma apply_goal_event_split s e s' :
  apply_goal_event s e = Ok s' →
  ∃ s1, apply_change_event s e = Ok s1 ∧ apply_goal_round s1 e = Ok s'.
Proof. by intros (s1 & H1 & H2)%bind_Ok; exists s1. Qed.

Lemma change_event_wf s e s' : ledger_wf s → apply_change_event s e = Ok s' → ledger_wf s'.
Proof.
  intros Hwf. unfold apply_change_event. case_match; [|by intros [= <-]].
  intros (c & _ & (u & Hshape & Hc)%bind_Ok)%bind_Ok. destruct u.
  case_bool_decide as Hop.
  - apply apply_clear_Ok in Hc as (ref & current & g & _ & _ & -> & _ & Ha & Ht).
    apply apply_snapshot_Ok in Ha as (Hv & Hg & _).
    eapply ledger_clear; [exact Hwf|exact Hv|done|done|done].
  - apply apply_change_Ok in Hc as (w & g & reason & times & _ & Hw & Hc1 & Hc2 & Hc3 & _ & _ & Ha & Ht).
    apply apply_snapshot_Ok in Ha as (Hv & Hg & _). apply wire_snapshot_Ok in Hw as (_ & Htomb & _).
    eapply ledger_insert; [exact Hwf|exact Hv|done| |done|done].
    by apply (change_shape_bounds c).
Qed.

Lemma event_wf s e s' : ledger_wf s → apply_goal_event s e = Ok s' → ledger_wf s'.
Proof.
  intros Hwf (s1 & H1 & Hr)%apply_goal_event_split.
  apply (round_wf s1 e); [|done]. by eapply change_event_wf.
Qed.

Lemma replay_wf events s s' : ledger_wf s → foldM apply_goal_event s events = Ok s' → ledger_wf s'.
Proof.
  revert s. induction events as [|e events IH]; intros s Hwf; simpl; [by intros [= <-]|].
  intros (s1 & H1 & H2)%bind_Ok. eauto using event_wf.
Qed.
End preservation.
