(* ===== verification/GoalLedgerFacts.v ===== *)
(** * Goals: the abstract life of a goal, and its rounds

    An abstract state machine of one goal ([goal_move]), which the replay of an
    event refines, and the numbers of the rounds found in a log. *)

From S2P Require Import Prelude Json Protocol Session SessionFacts Goal GoalFacts.

#[local] Open Scope N_scope.

(** ** The life of one goal *)

(** [g'] is the next revision of [g]. *)
Definition succeeds (g g' : GoalSnapshot) : Prop :=
  g_tombstone g = false ∧ gr_id (g_reference g') = gr_id (g_reference g) ∧
  gr_revision (g_reference g') = gr_revision (g_reference g) + 1.
Definition same_goal (g g' : GoalSnapshot) : Prop :=
  g_title g' = g_title g ∧ g_max_goal_rounds g' = g_max_goal_rounds g.

(** What may happen to a goal, seen from outside. *)
Inductive goal_move : option GoalSnapshot → option GoalSnapshot → Prop :=
| move_create g :
    gr_revision (g_reference g) = 1 → g_phase g = Active → g_tombstone g = false →
    goal_move None (Some g)
| move_edit g g' :
    succeeds g g' → g_phase g' = g_phase g → g_tombstone g' = false →
    goal_move (Some g) (Some g')
| move_pause g g' :
    succeeds g g' → same_goal g g' → g_phase g = Active → g_phase g' = Paused →
    g_tombstone g' = false → goal_move (Some g) (Some g')
| move_block g g' :
    succeeds g g' → same_goal g g' → g_phase g = Active → g_phase g' = Blocked →
    g_tombstone g' = false → goal_move (Some g) (Some g')
| move_resume g g' :
    succeeds g g' → same_goal g g' → g_phase g ≠ Complete → g_phase g' = Active →
    g_tombstone g' = false → goal_move (Some g) (Some g')
| move_complete g g' :
    succeeds g g' → same_goal g g' → g_phase g ≠ Complete → g_phase g' = Complete →
    g_tombstone g' = false → goal_move (Some g) (Some g')
| move_clear g g' :
    succeeds g g' → same_goal g g' → g_phase g' = g_phase g → g_tombstone g' = true →
    goal_move (Some g) (Some g').

Lemma next_ref_Ok r r' :
  next_ref r = Ok r' → gr_id r' = gr_id r ∧ gr_revision r' = gr_revision r + 1.
Proof.
  unfold next_ref. intros (n & Hn%ok_or_Ok & [= <-])%bind_Ok. split; [done|]. simpl.
  unfold u64_checked_add in Hn. by case_match; simplify_eq.
Qed.

(** A validated operation is a move. *)
Lemma operation_moves goals op g expected replay goals' :
  validate_goal_operation goals op g = Ok tt →
  apply_snapshot goals expected g replay = Ok goals' →
  (∀ x, goals !! gr_id (g_reference g) = Some x → 1 ≤ gr_revision (g_reference x)) →
  (∀ x, goals !! gr_id (g_reference g) = Some x →
     gr_id (g_reference x) = gr_id (g_reference g)) →
  goal_move (goals !! gr_id (g_reference g)) (Some g).
Proof.
  intros [(-> & Htomb & Hrev & Hph)|(Hop & current & Hc & Htomb & Hnext & Hv)]%validate_goal_operation_Ok
    (_ & _ & Ha)%apply_snapshot_Ok Hpos Hid.
  - destruct (goals !! _) as [x|] eqn:Hx; [|by apply move_create].
    destruct Ha as (_ & _ & Hr & _). specialize (Hpos x eq_refl). rewrite Hrev in Hr.
    unfold u64_saturating_add in Hr. assert (1 < U64_MAX) by done. lia.
  - rewrite Hc. apply next_ref_Ok in Hnext as [Hi Hr].
    assert (succeeds current g) as Hs by done.
    unfold operation_valid, same_definition in Hv. destruct op; [done|..];
      rewrite ?andb_true_iff, ?negb_true_iff, ?String.eqb_eq, ?N.eqb_eq, ?bool_decide_eq_true,
        ?bool_decide_eq_false in Hv; destruct_and?.
    + by apply move_edit.
    + by apply move_pause.
    + by apply move_resume.
    + by apply move_complete.
    + by apply move_block.
    + by apply move_clear.
Qed.

(** What a finished goal cannot do any more. *)
Lemma move_revision g g' :
  goal_move (Some g) (Some g') → gr_revision (g_reference g') = gr_revision (g_reference g) + 1.
Proof. by inversion 1; match goal with Hs : succeeds _ _ |- _ => destruct Hs as (_ & _ & ?) end. Qed.
Lemma move_alive g x : goal_move (Some g) x → g_tombstone g = false.
Proof. by inversion 1; match goal with Hs : succeeds _ _ |- _ => destruct Hs as (? & _ & _) end. Qed.
Lemma move_complete_kept g g' :
  goal_move (Some g) (Some g') → g_phase g = Complete → g_phase g' = Complete.
Proof. by inversion 1; subst; congruence. Qed.
Lemma move_some x y : goal_move x y → is_Some y.
Proof. by inversion 1. Qed.
Lemma moves_some g y : rtc goal_move (Some g) y → is_Some y.
Proof.
  intros Hm. remember (Some g) as x eqn:Hx. assert (is_Some x) as Hs by by rewrite Hx. clear Hx.
  induction Hm as [|x y z Hxy _ IH]; [done|]. apply IH. by eapply move_some.
Qed.

(** A tombstone is final; completion and revisions only grow. *)
Definition later (g g' : GoalSnapshot) : Prop :=
  gr_revision (g_reference g) ≤ gr_revision (g_reference g') ∧
  (g_phase g = Complete → g_phase g' = Complete) ∧
  (g_tombstone g = true → g' = g) ∧
  (gr_revision (g_reference g) = gr_revision (g_reference g') → g' = g).

Lemma moves_later g g' : rtc goal_move (Some g) (Some g') → later g g'.
Proof.
  intros Hm. remember (Some g) as x eqn:Hx. remember (Some g') as y eqn:Hy.
  revert g Hx. induction Hm as [x|x y z Hxy Hyz IH]; intros g ->; [by simplify_eq|].
  destruct (move_some _ _ Hxy) as [g1 ->].
  destruct (IH Hy g1 eq_refl) as (Hr & Hc & Ht & He).
  pose proof (move_revision _ _ Hxy). pose proof (move_alive _ _ Hxy).
  split_and!; [lia|by eauto using move_complete_kept|congruence|lia].
Qed.

(** ** Events move goals *)

Section moves.
Context `{ProtocolWire, GoalWire}.

Lemma ledger_positive s id x :
  ledger_wf s → gs_goals s !! id = Some x → 1 ≤ gr_revision (g_reference x).
Proof.
  intros Hwf Hx. apply (lw_goal s Hwf) in Hx as [_ Hv].
  apply GoalSnapshot_validate_Ok in Hv as [Hv _]. revert Hv. unfold GoalRef_validate.
  repeat case_match; try done. intros _.
  match goal with Hb : (_ =? _) = false |- _ => apply N.eqb_neq in Hb; lia end.
Qed.

Lemma insert_moves s g goals' op expected replay id :
  ledger_wf s → validate_goal_operation (gs_goals s) op g = Ok tt →
  apply_snapshot (gs_goals s) expected g replay = Ok goals' →
  rtc goal_move (gs_goals s !! id) (goals' !! id).
Proof.
  intros Hwf Hv Ha. pose proof (apply_snapshot_Ok _ _ _ _ _ Ha) as (_ & -> & _).
  rewrite lookup_insert. case_decide as Hid; [|done]. subst id. apply rtc_once.
  eapply operation_moves; [done|done|..].
  - intros x Hx. by eapply ledger_positive.
  - intros x Hx. by apply (lw_goal s Hwf) in Hx as [? _].
Qed.

(** The goals of a ledger move, or stay. *)
Lemma event_moves s e s' id :
  ledger_wf s → apply_goal_event s e = Ok s' →
  rtc goal_move (gs_goals s !! id) (gs_goals s' !! id).
Proof.
  intros Hwf (s1 & H1 & Hr)%apply_goal_event_split.
  assert (gs_goals s' = gs_goals s1) as ->.
  { apply apply_goal_round_Ok in Hr as [[-> _]|(m & i & rev & round & g & t & _ & _ & _ & _ & _ & _ & _ & _ & _ & _ & ->)];
      [done|]. by rewrite (de_goals _ _ (round_activation_equiv _ _ _ _)). }
  clear Hr. unfold apply_change_event in H1. case_match; [|by injection H1 as <-].
  apply bind_Ok in H1 as (c & _ & (u & _ & Hc)%bind_Ok). case_bool_decide.
  - apply apply_clear_Ok in Hc as (ref & current & g & _ & _ & _ & Hv & Ha & _).
    by eapply insert_moves.
  - apply apply_change_Ok in Hc as (w & g & reason & times & _ & _ & _ & _ & _ & Hv & _ & Ha & _).
    by eapply insert_moves.
Qed.

Lemma replay_moves events s s' id :
  ledger_wf s → foldM apply_goal_event s events = Ok s' →
  rtc goal_move (gs_goals s !! id) (gs_goals s' !! id).
Proof.
  revert s. induction events as [|e events IH]; intros s Hwf; simpl; [by intros [= <-]|].
  intros (s1 & H1 & H2)%bind_Ok. etrans; [by eapply event_moves|].
  apply IH; [by eapply event_wf|done].
Qed.
End moves.

(** ** Rounds *)

Section rounds.
Context `{ProtocolWire, GoalWire}.

(** The round of the goal [id] that an event admits. *)
Definition round_of (id : string) (e : SessionEvent) : option N :=
  if String.eqb (event_type e) "user/message" then
    match from_value (A := Message) (ev_data e) with
    | Ok m => match m_source m with
              | SourceGoal i _ round => if String.eqb i id then Some round else None
              | _ => None
              end
    | Err _ => None
    end
  else None.
Definition rounds_of (id : string) (events : list SessionEvent) : list N :=
  omap (round_of id) events.

(** The rounds of a goal are numbered from one without gaps; the ledger counts
    them until the goal is cleared. *)
Definition rounds_counted (rounds : list N) (known : bool) (t : option GoalTimes) : Prop :=
  rounds = N.of_nat <$> seq 1 (length rounds) ∧
  N.of_nat (length rounds) ≤ MAX_SAFE_INTEGER ∧
  match t with Some t => gt_rounds_started t = N.of_nat (length rounds) | None => True end ∧
  (known = false → rounds = []).
Definition counted (s : GoalState) (rounds : string → list N) : Prop :=
  ∀ id, rounds_counted (rounds id) (bool_decide (is_Some (gs_goals s !! id))) (gs_times s !! id).

Lemma counted_default : counted GoalState_default (λ _, []).
Proof. intros id. split_and!; [done|simpl; lia|by simpl; rewrite lookup_empty|done]. Qed.

(** A change keeps the counter of a goal, starts it at zero or drops it. *)
Definition counter_kept (s s1 : GoalState) (id : string) : Prop :=
  match gs_times s1 !! id with
  | None => True
  | Some t1 => (∃ t, gs_times s !! id = Some t ∧ gt_rounds_started t1 = gt_rounds_started t) ∨
               (gs_goals s !! id = None ∧ gt_rounds_started t1 = 0)
  end ∧ (is_Some (gs_goals s !! id) → is_Some (gs_goals s1 !! id)).

Lemma change_counted s e s1 :
  apply_change_event s e = Ok s1 → ledger_wf s → ∀ id, counter_kept s s1 id.
Proof.
  unfold counter_kept, apply_change_event. intros H1 Hwf id.
  case_match; [|injection H1 as <-; split; [|done];
    destruct (gs_times s !! id) as [t|]; [left; by exists t|done]].
  apply bind_Ok in H1 as (c & _ & (u & _ & Hc)%bind_Ok). case_bool_decide as Hop.
  - apply apply_clear_Ok in Hc as (ref & current & g & _ & _ & _ & _ & Ha & ->).
    apply apply_snapshot_Ok in Ha as (_ & -> & _). rewrite lookup_delete, lookup_insert.
    split; [|by case_decide].
    case_decide; [done|]. destruct (gs_times s !! id) as [t|]; [left; by exists t|done].
  - apply apply_change_Ok in Hc as (w & g & reason & times & _ & _ & _ & _ & _ & Hv & Ht & Ha & ->).
    pose proof (apply_snapshot_Ok _ _ _ _ _ Ha) as (_ & -> & Hcase). rewrite !lookup_insert.
    case_decide as Hid; [subst id|split; [|done];
      destruct (gs_times s !! id) as [t|]; [left; by exists t|done]].
    split; [|done]. unfold validate_goal_times in Ht. case_bool_decide as Hcr.
    + right. destruct (N.eqb_spec (gt_rounds_started times) 0) as [Hz|]; [|done].
      split; [|done]. rewrite Hcr in Hv.
      apply validate_goal_operation_Ok in Hv as [(_ & _ & Hone & _)|[Hne _]]; [|done].
      destruct (gs_goals s !! _) as [x|] eqn:Hx; [|done]. exfalso.
      destruct Hcase as (_ & _ & Hr & _). apply (ledger_positive s _ _ Hwf) in Hx.
      rewrite Hone in Hr. unfold u64_saturating_add in Hr. assert (1 < U64_MAX) by done. lia.
    + left. apply bind_Ok in Ht as (t & Ht%ok_or_Ok & Hb). exists t. split; [done|].
      destruct (_ && _) eqn:Hz in Hb; [|done]. rewrite !andb_true_iff, !N.eqb_eq in Hz. tauto.
Qed.

Lemma counted_change s s1 rounds :
  counted s rounds → (∀ id, counter_kept s s1 id) → counted s1 rounds.
Proof.
  intros Hc Hs id. destruct (Hc id) as (Hn & Hmax & Ht & Hk). destruct (Hs id) as [Hs1 Hg].
  split_and!; [done|done|..].
  - destruct (gs_times s1 !! id) as [t1|]; [|done].
    destruct Hs1 as [(t & Hti & ->)|[Hnone ->]]; [by rewrite Hti in Ht|].
    rewrite Hk; [done|]. rewrite Hnone. by apply bool_decide_eq_false_2; intros [].
  - intros Hf%bool_decide_eq_false. apply Hk, bool_decide_eq_false. tauto.
Qed.

(** A refused round refuses the event; an admitted one is the next. *)
Lemma round_counted s e s' rounds :
  ledger_wf s → counted s rounds → apply_goal_round s e = Ok s' →
  counted s' (λ id, rounds id ++ option_list (round_of id e)).
Proof.
  intros Hwf Hc [[-> Hno]|(m & i & rev & round & g & t & Hm & Hty & Hsrc & Hg & _ & _ & _ & Ht & Hnext & Hcap & ->)]%apply_goal_round_Ok.
  - intros id. unfold round_of. destruct (String.eqb_spec (event_type e) "user/message") as [Hty|];
      [|by rewrite app_nil_r].
    destruct (from_value (ev_data e)) as [m|] eqn:Hm; [|by rewrite app_nil_r].
    specialize (Hno m). destruct (m_source m) as [i rev round| | | | |]; try by rewrite app_nil_r.
    by destruct (Hno i rev round Hty eq_refl).
  - destruct (lw_goal s Hwf i g Hg) as [Hid Hv].
    apply GoalSnapshot_validate_Ok in Hv as (_ & _ & Hmax).
    intros id. rewrite (de_goals _ _ (round_activation_equiv _ _ _ _)),
      (de_times _ _ (round_activation_equiv _ _ _ _)). simpl.
    destruct (Hc id) as (Hn & Hl & Hcount & Hk).
    unfold round_of. rewrite Hty, Hm, Hsrc, String.eqb_refl.
    rewrite lookup_insert. destruct (String.eqb_spec i id) as [->|Hne]; simpl.
    2:{ rewrite app_nil_r, decide_False by done. by split_and!. }
    rewrite decide_True by done. rewrite Ht in Hcount. rewrite Hcount in Hnext.
    assert (round = N.of_nat (length (rounds id)) + 1) as Hround.
    { rewrite Hnext. unfold u64_saturating_add.
      assert (MAX_SAFE_INTEGER < U64_MAX) by done. lia. }
    unfold rounds_counted. rewrite length_app. simpl. split_and!.
    + rewrite Nat.add_1_r, seq_S, fmap_app. simpl. f_equal; [exact Hn|]. f_equal. lia.
    + lia.
    + lia.
    + intros Hf%bool_decide_eq_false. destruct Hf. by exists g.
Qed.

Lemma event_counted s e s' rounds :
  ledger_wf s → counted s rounds → apply_goal_event s e = Ok s' →
  counted s' (λ id, rounds id ++ option_list (round_of id e)).
Proof.
  intros Hwf Hc (s1 & H1 & Hr)%apply_goal_event_split.
  apply (round_counted s1); [by eapply change_event_wf| |done].
  eapply counted_change; [done|]. by apply (change_counted s e).
Qed.

Lemma replay_counted events s s' rounds :
  ledger_wf s → counted s rounds → foldM apply_goal_event s events = Ok s' →
  counted s' (λ id, rounds id ++ rounds_of id events).
Proof.
  revert s rounds. induction events as [|e events IH]; intros s rounds Hwf Hc; simpl.
  - intros [= <-] id. rewrite app_nil_r. apply Hc.
  - intros (s1 & H1 & H2)%bind_Ok.
    eapply IH in H2; [|by eapply event_wf|by eapply event_counted].
    intros id. specialize (H2 id). simpl in H2. rewrite <-app_assoc in H2.
    unfold rounds_of in *. simpl. by destruct (round_of id e).
Qed.
End rounds.
