(* ===== verification/GoalWriteFacts.v ===== *)
(** * Facts about the goal service: writes and the retry loop

    What a write of the service leaves when other tasks append between its steps,
    and the bound of its retry loop. *)

From S2P Require Import Prelude Json Protocol Session SessionFacts Goal GoalFacts.

#[local] Open Scope N_scope.

Create HintDb goals.

(** ** The change of a write *)

(** Operations clear exactly when their snapshot is a tombstone. *)
Lemma operation_tombstone goals op g :
  validate_goal_operation goals op g = Ok tt → g_tombstone g = bool_decide (op = OpClear).
Proof.
  intros [(-> & -> & _)|(_ & current & _ & _ & _ & Hv)]%validate_goal_operation_Ok; [done|].
  unfold operation_valid in Hv. destruct op; simpl; rewrite ?andb_true_iff, ?negb_true_iff in Hv;
    destruct_and?; done.
Qed.

Lemma from_snapshot_wire g reason :
  GoalSnapshot_validate g = Ok tt → g_tombstone g = false → check_reason (g_phase g) reason = Ok tt →
  wire_snapshot (from_snapshot g reason) = Ok (g, reason).
Proof.
  destruct g as [[id rev] ph title cap tomb]. simpl. intros Hv -> Hr.
  unfold wire_snapshot, from_snapshot. simpl. rewrite Hr. simpl. by rewrite Hv.
Qed.

Lemma clear_snapshot current g :
  operation_valid OpClear current g = true →
  g = mkGoal (g_reference g) (g_phase current) (g_title current) (g_max_goal_rounds current) true.
Proof.
  destruct g as [ref ph title cap tomb]. simpl. unfold same_definition. simpl.
  rewrite !andb_true_iff, String.eqb_eq, N.eqb_eq, bool_decide_eq_true.
  by intros [[-> [-> ->]] ->].
Qed.

Lemma write_times_ok {S} (env : Env S) i old :
  (∀ t, old = Some t → times_ok t) → times_ok (write_times env i old).
Proof.
  intros Hold. unfold write_times, now. destruct old as [t|]; simpl.
  - destruct (Hold t eq_refl) as (H1 & H2 & H3). split_and!; simpl; [|lia|done]. lia.
  - split_and!; simpl; [done|lia|]. unfold MAX_SAFE_INTEGER. lia.
Qed.

Lemma write_times_valid {S} (env : Env S) i s op g :
  ledger_wf s → validate_goal_operation (gs_goals s) op g = Ok tt →
  (op = OpCreate → gs_goals s !! gr_id (g_reference g) = None) →
  validate_goal_times (gs_times s) op g (write_times env i (gs_times s !! gr_id (g_reference g)))
  = Ok tt.
Proof.
  intros Hwf Hv Hcreate. unfold validate_goal_times.
  apply validate_goal_operation_Ok in Hv as [(-> & _)|(Hop & current & Hc & Htomb & _)].
  - rewrite bool_decide_eq_true_2 by done.
    destruct (gs_times s !! _) as [t|] eqn:Ht; [|done].
    destruct (proj1 (lw_times s Hwf _) (ex_intro _ t Ht)) as (g' & Hg' & _).
    by rewrite Hcreate in Hg'.
  - rewrite bool_decide_eq_false_2 by done.
    destruct (proj2 (lw_times s Hwf (gr_id (g_reference g)))) as [t Ht]; [by exists current|].
    rewrite Ht. simpl. rewrite !N.eqb_refl. simpl. rewrite (proj2 (N.leb_le _ _)) by lia. done.
Qed.

Lemma GoalRef_validate_pos r : GoalRef_validate r = Ok tt → 1 ≤ gr_revision r.
Proof. unfold GoalRef_validate. intros Hv. invert_ok. 
  match goal with Hb : (_ =? _) = false |- _ => apply N.eqb_neq in Hb end. lia.
Qed.

Section write.
Context `{ProtocolWire, GoalWire}.
Context `{!WireLaw GoalChange (λ c, gc_version c ≤ 255)}.

(** A goal that may be created is new. *)
Lemma create_new s expected g replay goals :
  ledger_wf s → validate_goal_operation (gs_goals s) OpCreate g = Ok tt →
  apply_snapshot (gs_goals s) expected g replay = Ok goals →
  gs_goals s !! gr_id (g_reference g) = None.
Proof.
  intros Hwf Hv Ha.
  apply validate_goal_operation_Ok in Hv as [(_ & _ & Hone & _)|[Hne _]]; [|done].
  apply apply_snapshot_Ok in Ha as (_ & _ & Hcase).
  destruct (gs_goals s !! _) as [current|] eqn:Hcur; [|done]. exfalso.
  destruct Hcase as (_ & _ & Hrev & _). rewrite Hone in Hrev.
  apply (lw_goal s Hwf) in Hcur as [_ [Href%GoalRef_validate_pos _]%GoalSnapshot_validate_Ok].
  unfold u64_saturating_add in Hrev. pose proof (N.min_spec (gr_revision (g_reference current) + 1) U64_MAX).
  assert (1 < U64_MAX) by done. lia.
Qed.

(** A decoded change event is its change. *)
Lemma goal_event_apply s c time seq :
  gc_version c ≤ 255 → validate_shape c = Ok tt →
  apply_goal_event s (goal_event (to_value c) time seq) =
    if bool_decide (gc_operation c = OpClear) then apply_clear s c else apply_change s c.
Proof using All.
  intros Hv Hs. unfold apply_goal_event.
  change (String.eqb _ _) with true. cbv iota. change (ev_data _) with (to_value c).
  rewrite from_to_value by done. cbn [map_err mbind result_bind]. rewrite Hs.
  cbn [mbind result_bind].
  destruct (if bool_decide _ then _ else _) as [s'|]; [|done].
  unfold apply_goal_round. by change (String.eqb _ _) with false.
Qed.

Lemma clear_shape reference time :
  GoalRef_validate reference = Ok tt → time ≤ MAX_SAFE_INTEGER →
  validate_shape (GoalChange_clear reference time) = Ok tt.
Proof.
  intros Hr Ht. unfold validate_shape, validate_clear_shape. cbn.
  by rewrite (proj2 (N.ltb_ge _ _)).
Qed.

Lemma snapshot_shape op g times reason :
  op ≠ OpClear → times_ok times → check_reason (g_phase g) reason = Ok tt →
  validate_shape (GoalChange_snapshot op g times reason) = Ok tt.
Proof.
  intros Hop (Hcu & Hu & Hr) Hc. unfold validate_shape, validate_change_shape.
  change (gc_operation _) with op. rewrite bool_decide_eq_false_2 by done. cbn -[N.ltb].
  by rewrite !(proj2 (N.ltb_ge _ _)) by lia.
Qed.

Lemma clear_replays s g expected goals time :
  validate_goal_operation (gs_goals s) OpClear g = Ok tt →
  apply_snapshot (gs_goals s) expected g false = Ok goals →
  ∃ r, apply_clear s (GoalChange_clear (g_reference g) time) = Ok r ∧
    ∀ times reason, r ≡ record_write OpClear g times reason goals s.
Proof.
  intros Hv Ha%apply_snapshot_replay.
  pose proof Hv as [[[=] _]|(_ & current & Hc & _ & _ & Hop)]%validate_goal_operation_Ok.
  unfold apply_clear. cbn [gc_cleared GoalChange_clear ok_or mbind result_bind].
  rewrite Hc. cbn [ok_or mbind result_bind].
  rewrite <-(clear_snapshot current g Hop), Hv. cbn [mbind result_bind]. rewrite Ha.
  eexists. split; [reflexivity|]. by split.
Qed.

Lemma change_replays s op g times reason expected goals :
  op ≠ OpClear → validate_goal_operation (gs_goals s) op g = Ok tt →
  validate_goal_times (gs_times s) op g times = Ok tt →
  apply_snapshot (gs_goals s) expected g false = Ok goals →
  check_reason (g_phase g) reason = Ok tt → g_tombstone g = false →
  ∃ r, apply_change s (GoalChange_snapshot op g times reason) = Ok r ∧
    r ≡ record_write op g times reason goals s.
Proof.
  intros Hop Hv Ht Ha Hr Htomb. pose proof (apply_snapshot_Ok _ _ _ _ _ Ha) as (Hg & _).
  apply apply_snapshot_replay in Ha. destruct times as [created updated rounds].
  unfold apply_change. cbn [gc_goal GoalChange_snapshot ok_or mbind result_bind].
  rewrite (from_snapshot_wire g reason) by done.
  cbn [gc_created_at gc_updated_at gc_rounds_started gc_operation GoalChange_snapshot ok_or
       mbind result_bind gt_created_at gt_updated_at gt_rounds_started].
  rewrite Hv. cbn [mbind result_bind]. rewrite Ht. cbn [mbind result_bind]. rewrite Ha.
  eexists. split; [reflexivity|]. unfold record_write.
  by rewrite bool_decide_eq_false_2.
Qed.

(** The event a write appends replays to the ledger the write records. *)
Lemma written_replays {S} (env : Env S) i s op expected g reason goals time seq :
  ledger_wf s →
  validate_goal_operation (gs_goals s) op g = Ok tt →
  apply_snapshot (gs_goals s) expected g false = Ok goals →
  (op ≠ OpClear → check_reason (g_phase g) reason = Ok tt) →
  let times := write_times env i (gs_times s !! gr_id (g_reference g)) in
  ∃ r, apply_goal_event s (goal_event (to_value (write_change op g times reason)) time seq) = Ok r ∧
       r ≡ record_write op g times reason goals s.
Proof using All.
  intros Hwf Hv Ha Hreason times. pose proof (apply_snapshot_Ok _ _ _ _ _ Ha) as (Hg & _ & Hcase).
  pose proof (operation_tombstone _ _ _ Hv) as Htomb.
  assert (times_ok times) as Htimes.
  { apply write_times_ok. intros t Ht. by eapply lw_bounds. }
  assert (validate_goal_times (gs_times s) op g times = Ok tt) as Hvt.
  { apply write_times_valid; [done|done|]. intros ->.
    by eapply create_new. }
  clearbody times. unfold write_change. case_bool_decide as Hop.
  - subst op. rewrite goal_event_apply; [|done|].
    + destruct (clear_replays s g expected goals (gt_updated_at times) Hv Ha) as (r & Hr & He).
      exists r. split; [exact Hr|apply He].
    + apply clear_shape; [|apply Htimes]. by apply GoalSnapshot_validate_Ok in Hg as [? _].
  - rewrite goal_event_apply; [|done|by apply snapshot_shape; auto].
    change (gc_operation _) with op. rewrite bool_decide_eq_false_2 by done.
    eapply change_replays; eauto.
Qed.
End write.

(** ** In step with the log *)

Section sync.
Context `{ProtocolWire, GoalWire}.

(** The ledger is, in its durable part, the replay of the observed events. *)
Definition synced (session : Session) (s : GoalState) : Prop :=
  let events := st_events (s_state session) in
  (gs_observed_events s ≤ length events)%nat ∧
  ∃ r, foldM apply_goal_event GoalState_default (take (gs_observed_events s) events) = Ok r ∧ s ≡ r.

Lemma synced_ledger session s : synced session s → ledger_wf s.
Proof. intros (_ & r & Hr & ->). eapply replay_wf; [apply default_wf|done]. Qed.

Lemma synced_local session s s' :
  synced session s → s' ≡ s → gs_observed_events s' = gs_observed_events s → synced session s'.
Proof. intros (Hle & r & Hr & Hs) He Ho. unfold synced. rewrite Ho. split; [done|]. exists r. by rewrite He. Qed.

Lemma synced_extend session session' s more :
  synced session s → st_events (s_state session') = st_events (s_state session) ++ more →
  synced session' s.
Proof.
  intros (Hle & r & Hr & Hs) He. unfold synced. rewrite He, length_app. split; [lia|].
  exists r. by rewrite take_app_le.
Qed.

Lemma observed_kept events s s' :
  foldM apply_goal_event s events = Ok s' → gs_observed_events s' = gs_observed_events s.
Proof.
  revert s. induction events as [|e events IH]; intros s; simpl; [by intros [= <-]|].
  intros (s1 & H1 & ->%IH)%bind_Ok. clear IH. unfold apply_goal_event in H1.
  apply bind_Ok in H1 as (s2 & H2 & Hr). trans (gs_observed_events s2).
  - apply apply_goal_round_Ok in Hr as [[-> _]|(m & id & rev & round & g & t & _ & _ & _ & _ & _ & _ & _ & _ & _ & _ & ->)];
      [done|]. unfold round_activation. by repeat case_match.
  - case_match; [|by injection H2 as <-].
    apply bind_Ok in H2 as (c & _ & (u & _ & Hc)%bind_Ok). case_bool_decide.
    + unfold apply_clear in Hc. by invert_ok.
    + unfold apply_change in Hc.
      apply bind_Ok in Hc as (w & _ & ([g reason] & _ & Hc)%bind_Ok). by invert_ok.
Qed.

(** A successful synchronisation observes everything. *)
Lemma sync_synced session s s' :
  synced session s → sync session s = Ok s' →
  synced session s' ∧ gs_observed_events s' = length (st_events (s_state session)).
Proof.
  intros Hs. pose proof Hs as (Hle & r & Hr & He). unfold sync.
  case_match; [done|]. case_match eqn:Heq; [intros [= <-]; by apply Nat.eqb_eq in Heq|].
  intros (c & Hc & [= <-])%bind_Ok. split; [|done]. split; simpl; [lia|].
  rewrite firstn_all. apply (replay_equiv_Ok _ _ r) in Hc as (r' & Hr' & He'); [|done].
  exists r'. rewrite set_observed_equiv. split; [|done].
  rewrite <-(take_drop (gs_observed_events s) (st_events (s_state session))).
  by rewrite foldM_app, Hr.
Qed.

Lemma sync_of_default session s :
  foldM apply_goal_event GoalState_default (st_events (s_state session)) = Ok s →
  synced session (set_observed (length (st_events (s_state session))) s).
Proof.
  intros Hs. split; simpl; [done|]. rewrite firstn_all. exists s.
  split; [done|]. apply set_observed_equiv.
Qed.
End sync.

(** ** Triples *)

Section triples.
Context `{ProtocolWire, GoalWire} {S : Type} `{SessionPersistence S}.

(** What every method keeps: a session that replays, and a ledger in step. *)
Definition in_step (w : World S) : Prop :=
  session_wf (w_session w) ∧ synced (w_session w) (w_goal w).

(** [hoare P m Q]: from a world in step where [P] holds, [m] ends (if it ends)
    in a world in step, where [Q] holds of the value it returns. *)
Definition hoare {A} (P : World S → Prop) (m : Goals S A) (Q : A → World S → Prop) : Prop :=
  ∀ w, in_step w → P w →
    match m w with
    | Some (r, w') => in_step w' ∧ ∀ a, r = Ok a → Q a w'
    | None => True
    end.

(** Any method: it keeps the worlds in step. *)
Abbreviation keeps m := (hoare (λ _, True) m (λ _ _, True)).

Lemma hoare_bind {A B} P (m : Goals S A) R (k : A → Goals S B) Q :
  hoare P m R → (∀ a, hoare (R a) (k a) Q) → hoare P (m ≫= k) Q.
Proof.
  intros Hm Hk w Hi Hp. specialize (Hm w Hi Hp). unfold mbind, goals_bind.
  destruct (m w) as [[[a|e] w']|]; [|by destruct Hm|done].
  destruct Hm as [Hi' Hr]. apply Hk; [done|by apply Hr].
Qed.

Lemma hoare_conseq {A} (P P' : World S → Prop) (m : Goals S A) (Q Q' : A → World S → Prop) :
  hoare P' m Q' → (∀ w, P w → P' w) → (∀ a w, Q' a w → Q a w) → hoare P m Q.
Proof.
  intros Hm Hp Hq w Hi Hw. specialize (Hm w Hi (Hp w Hw)).
  destruct (m w) as [[r w']|]; [|done]. destruct Hm as [? Hr]. split; [done|]. eauto.
Qed.

Lemma hoare_any {A} P (m : Goals S A) : keeps m → hoare P m (λ _ _, True).
Proof. intros Hm. by eapply hoare_conseq. Qed.

Lemma hoare_lift {A} (P : World S → Prop) (r : result GoalError A) Q :
  (∀ a w, r = Ok a → in_step w → P w → Q a w) → hoare P (lift r) Q.
Proof. intros Hq w Hi Hp. split; [done|]. eauto. Qed.

Lemma hoare_fail {A} (P : World S → Prop) e (Q : A → World S → Prop) : hoare P (lift (Err e)) Q.
Proof. by apply hoare_lift. Qed.

Lemma hoare_ret {A} (P : World S → Prop) (a : A) Q :
  (∀ w, in_step w → P w → Q a w) → hoare P (mret a) Q.
Proof. intros Hq w Hi Hp. split; [done|]. intros ? [= <-]. eauto. Qed.

Lemma hoare_pure {A} (P : World S → Prop) (φ : Prop) (m : Goals S A) Q :
  (φ → hoare P m Q) → hoare (λ w, P w ∧ φ) m Q.
Proof. intros Hm w Hi [Hp Hφ]. by apply Hm. Qed.

Lemma hoare_get P : hoare P get_goal (λ s w, w_goal w = s ∧ P w).
Proof. intros w Hi Hp. split; [done|]. by intros ? [= <-]. Qed.

Lemma hoare_session P : hoare P get_session (λ s w, w_session w = s ∧ P w).
Proof. intros w Hi Hp. split; [done|]. by intros ? [= <-]. Qed.

Lemma hoare_put (P : World S → Prop) s :
  (∀ w, in_step w → P w → synced (w_session w) s) →
  hoare P (put_goal s) (λ _ w, w_goal w = s).
Proof. intros Hs w Hi Hp. split; [split; [apply Hi|by apply (Hs w)]|]. by intros ? [= <-]. Qed.

(** Storing a ledger that differs in local state only. *)
Lemma hoare_put_local (P : World S → Prop) s s' :
  (∀ w, P w → w_goal w = s) → s' ≡ s → gs_observed_events s' = gs_observed_events s →
  hoare P (put_goal s') (λ _ w, w_goal w = s').
Proof.
  intros Hp He Ho. apply hoare_put. intros w [_ Hs] Hw. rewrite <-(Hp w Hw) in *.
  by eapply synced_local.
Qed.

Lemma keeps_sync : hoare (λ _, True) sync_locked
  (λ _ w, gs_observed_events (w_goal w) = length (st_events (s_state (w_session w)))).
Proof.
  intros w [Hwf Hs] _. unfold sync_locked, mbind, goals_bind, get_goal, get_session, lift, put_goal.
  simpl. destruct (sync _ _) as [s'|e] eqn:Hsync; [|by split; [split|]].
  destruct (sync_synced _ _ _ Hs Hsync) as [Hs' Ho]. by split; [split|].
Qed.

(** What the other tasks may do: append to the session. *)
Definition others_append (env : Env S) : Prop :=
  ∀ i s b, session_wf s →
    let s' := (e_others env i s b).1 in
    session_wf s' ∧ ∃ more, st_events (s_state s') = st_events (s_state s) ++ more.

Lemma keeps_yield env i P :
  others_append env → (∀ w w', w_goal w' = w_goal w → P w → P w') →
  hoare P (yield_to env i) (λ _, P).
Proof.
  intros He Hstable w [Hwf Hs] Hp. unfold yield_to. specialize (He i (w_session w) (w_backend w) Hwf).
  destruct (e_others _ _ _ _) as [s' b']. simpl in He. destruct He as [Hwf' [more Hmore]].
  split; [split; simpl; [done|by eapply synced_extend]|]. intros _ _. by apply (Hstable w).
Qed.

Lemma keeps_append t event s :
  hoare (λ w, w_goal w = s) (append_goal t event)
    (λ r w, w_goal w = s ∧ (is_ok r = true → ∃ before,
       st_events (s_state (w_session w)) = before ++ [event] ∧ ev_seq event = N.of_nat (length before))).
Proof.
  intros w [Hwf Hs] <-. unfold append_goal.
  destruct (append _ _ _ _) as [[r s'] b'] eqn:Ha.
  pose proof (append_inner_wf _ _ _ _ _ _ _ _ Hwf Ha) as [Hwf' _].
  pose proof (append_events _ _ _ _ _ _ _ Ha) as He.
  split; [split; simpl; [done|by eapply synced_extend]|]. intros ? [= <-]. split; [done|].
  intros Hr. rewrite Hr in He. exists (st_events (s_state (w_session w))). split; [done|].
  pose proof (session_wf_contiguous s' Hwf') as Hc. apply (Hc _ event).
  by rewrite He, list_lookup_middle.
Qed.

(** ** Writes *)

Context `{!WireLaw GoalChange (λ c, gc_version c ≤ 255)}.

(** The ledger a write records is in step with the log it extended. *)
Lemma record_synced (env : Env S) i session s op expected g reason goals time :
  let times := write_times env i (gs_times s !! gr_id (g_reference g)) in
  let event := goal_event (to_value (write_change op g times reason)) time
                 (N.of_nat (gs_observed_events s)) in
  synced session s →
  validate_goal_operation (gs_goals s) op g = Ok tt →
  apply_snapshot (gs_goals s) expected g false = Ok goals →
  (op ≠ OpClear → check_reason (g_phase g) reason = Ok tt) →
  ∀ before, st_events (s_state session) = before ++ [event] → ev_seq event = N.of_nat (length before) →
  synced session (record_write op g times reason goals s) ∧
  gs_observed_events (record_write op g times reason goals s) = length (st_events (s_state session)).
Proof using All.
  intros times event Hs Hv Ha Hreason before He Hseq. simpl in Hseq. apply Nat2N.inj in Hseq.
  assert (gs_observed_events (record_write op g times reason goals s) =
    length (st_events (s_state session))) as Ho.
  { rewrite He, length_app. unfold record_write. case_match; simpl; lia. }
  split; [|done]. split; [lia|]. rewrite Ho, firstn_all, He.
  pose proof (synced_ledger _ _ Hs) as Hwf. destruct Hs as (_ & r & Hr & Hsr).
  rewrite He, Hseq, take_app_le, firstn_all in Hr by lia.
  destruct (written_replays env i s op expected g reason goals time
    (N.of_nat (gs_observed_events s)) Hwf Hv Ha Hreason) as (r' & Hr' & Hrec).
  pose proof (apply_goal_event_equiv s r event Hsr) as Hrr. unfold event at 1 in Hrr.
  change (apply_goal_event s event = Ok r') in Hr'. fold event in Hrr. rewrite Hr' in Hrr.
  destruct (apply_goal_event r event) as [r''|] eqn:Hr''; [|done]. simpl in Hrr.
  exists r''. split; [by rewrite foldM_snoc, Hr|].
  etrans; [symmetry; exact Hrec|exact Hrr].
Qed.

(** The world after a successful write of [g]. *)
Definition written (g : GoalSnapshot) (w : World S) : Prop :=
  gs_goals (w_goal w) !! gr_id (g_reference g) = Some g ∧
  gs_observed_events (w_goal w) = length (st_events (s_state (w_session w))).

Lemma keeps_write_loop fuel i t env expected g op reason :
  others_append env → (op ≠ OpClear → check_reason (g_phase g) reason = Ok tt) →
  hoare (λ _, True) (write_loop fuel i t env expected g op reason) (λ a w, a = g ∧ written g w).
Proof using All.
  intros He Hreason. revert i. induction fuel as [|fuel IH]; intros i; [by intros w|].
  cbn [write_loop]. eapply hoare_bind; [apply hoare_get|]. intros s.
  eapply (hoare_bind _ _ (λ _ w, w_goal w = s ∧ validate_goal_operation (gs_goals s) op g = Ok tt)).
  { apply hoare_lift. by intros [] w Hv _ [Hw _]. }
  intros _. eapply (hoare_bind _ _ (λ goals w, w_goal w = s ∧
    validate_goal_operation (gs_goals s) op g = Ok tt ∧
    apply_snapshot (gs_goals s) expected g false = Ok goals)).
  { apply hoare_lift. by intros goals w Ha _ [Hw Hv]. }
  intros goals. set (times := write_times env (2 * i) _). set (event := goal_event _ _ _).
  eapply hoare_bind; [apply (keeps_yield env); [done|by intros w w' Hww; rewrite Hww]|]. intros [].
  apply hoare_pure. intros [Hv Ha].
  eapply hoare_bind; [apply keeps_append|]. intros [u|e].
  - intros w Hi [Hw Hb]. destruct (Hb eq_refl) as (before & Hev & Hseq). subst s.
    destruct (record_synced env (2 * i) _ _ op expected g reason goals _ (proj2 Hi) Hv Ha Hreason
      before Hev Hseq) as [Hs Ho].
    split; [split; [apply Hi|exact Hs]|]. intros ? [= <-]. split; [done|]. split; [|exact Ho].
    apply apply_snapshot_Ok in Ha as (_ & -> & _). simpl. unfold record_write.
    case_match; simpl; apply lookup_insert_eq.
  - apply (hoare_conseq _ (λ _, True) _ _ (λ a w, a = g ∧ written g w)); [|done|done].
    destruct e; try apply hoare_fail. case_match; [apply hoare_fail|].
    eapply hoare_bind; [by apply (keeps_yield env _ (λ _, True))|]. intros [].
    eapply hoare_bind; [apply hoare_session|]. intros session.
    eapply (hoare_bind _ _ (λ _ _, True)); [by apply hoare_lift|]. intros n.
    case_match; [apply hoare_fail|].
    eapply (hoare_bind _ _ (λ _ _, True)); [by apply hoare_lift|]. intros _.
    eapply (hoare_bind _ _ (λ _ _, True)); [eapply hoare_conseq; [apply keeps_sync|done|done]|].
    intros _. apply IH.
Qed.

Lemma keeps_write_reason fuel t env expected g op reason :
  others_append env →
  hoare (λ _, True) (write_locked_with_reason fuel t env expected g op reason) (λ a w, a = g ∧ written g w).
Proof using All.
  intros He. unfold write_locked_with_reason.
  eapply (hoare_bind _ _ (λ _ _, True)); [by apply hoare_lift|]. intros _.
  eapply (hoare_bind _ _ (λ _ _, True)); [by apply hoare_lift|]. intros _.
  eapply (hoare_bind _ _ (λ _ _, True)).
  { eapply hoare_conseq; [apply (hoare_get (λ _, True))|done|done]. }
  intros s.
  eapply (hoare_bind _ _ (λ r _, check_reason (g_phase g) r = Ok tt)).
  { apply hoare_lift. intros r w Hr _ _. case_bool_decide as Hph.
    - rewrite Hph. apply bind_Ok in Hr as (x & _ & Hx). unfold normalized in Hx.
      destruct (GoalBlockReason_validate _) as [[]|] eqn:Hval; simpl in Hx; [|done].
      injection Hx as <-. done.
    - injection Hr as <-. by destruct (g_phase g). }
  intros r w Hi Hr. by apply keeps_write_loop.
Qed.

Lemma keeps_write_locked fuel t env expected g op :
  others_append env →
  hoare (λ _, True) (write_locked fuel t env expected g op) (λ a w, a = g ∧ written g w).
Proof using All. apply keeps_write_reason. Qed.

(** ** Methods *)

Lemma keeps_get : keeps get_goal.
Proof. by intros w Hi _. Qed.
Lemma keeps_session : keeps get_session.
Proof. by intros w Hi _. Qed.
Lemma keeps_lift {A} (r : result GoalError A) : keeps (lift r).
Proof. by apply hoare_lift. Qed.
Lemma keeps_ret {A} (a : A) : keeps (mret a).
Proof. by apply hoare_ret. Qed.
Lemma keeps_bind {A B} (m : Goals S A) (k : A → Goals S B) :
  keeps m → (∀ a, keeps (k a)) → keeps (m ≫= k).
Proof. intros Hm Hk. eapply hoare_bind; [exact Hm|]. exact Hk. Qed.
Lemma keeps_synced : keeps sync_locked.
Proof. eapply hoare_conseq; [apply keeps_sync|done|done]. Qed.
Lemma keeps_written fuel t env expected g op reason :
  others_append env → keeps (write_locked_with_reason fuel t env expected g op reason).
Proof using All. intros He. eapply hoare_conseq; [by apply keeps_write_reason|done|done]. Qed.

(** Changing the local state of the ledger just read. *)
Lemma keeps_local {B} (f : GoalState → GoalState) (k : unit → Goals S B) :
  (∀ s, f s ≡ s) → (∀ s, gs_observed_events (f s) = gs_observed_events s) → (∀ u, keeps (k u)) →
  keeps (s ← get_goal; u ← put_goal (f s); k u).
Proof.
  intros He Ho Hk. eapply hoare_bind; [apply hoare_get|]. intros s.
  eapply hoare_bind; [by eapply (hoare_put_local _ s); [intros w [Hw _]|apply He|apply Ho]|].
  intros u. by apply hoare_any.
Qed.
Lemma keeps_local_last (f : GoalState → GoalState) :
  (∀ s, f s ≡ s) → (∀ s, gs_observed_events (f s) = gs_observed_events s) →
  keeps (s ← get_goal; put_goal (f s)).
Proof.
  intros He Ho. eapply hoare_bind; [apply hoare_get|]. intros s.
  eapply hoare_conseq; [by eapply (hoare_put_local (λ w, w_goal w = s) s); [|apply He|apply Ho]| |done].
  by intros w [Hw _].
Qed.

Lemma keeps_arm reference max_rounds : keeps (arm_locked reference max_rounds).
Proof.
  unfold arm_locked. eapply hoare_bind; [apply hoare_get|]. intros s.
  eapply (hoare_bind _ _ (λ _ w, w_goal w = s)).
  { intros w Hi [Hw _]. split; [done|]. by intros ? _. }
  intros session. case_match; [apply hoare_fail|].
  destruct (gs_goals s !! _) as [g|]; [|apply hoare_fail].
  case_match; [apply hoare_fail|]. case_match; [apply hoare_fail|].
  eapply hoare_bind; [apply (hoare_put_local _ s); [done|by split|done]|]. intros u.
  eapply (hoare_bind _ _ (λ _ w, w_goal w = _)); [apply hoare_lift; intros a w _ _ Hw; exact Hw|].
  intros n. eapply hoare_bind; [eapply hoare_put_local; [intros w Hw; exact Hw|by split|done]|]. intros v.
  by apply hoare_ret.
Qed.
End triples.
Abbreviation keeps m := (hoare (λ _, True) m (λ _ _, True)).

#[export] Hint Resolve keeps_get keeps_session keeps_lift keeps_ret keeps_synced keeps_arm
  keeps_written : goals.

(** Decomposes a method into steps whose triples are known. *)
Ltac keeps_step :=
  match goal with
  | |- keeps (get_goal ≫= λ s, put_goal _) => apply keeps_local_last; intros ?; by repeat case_match
  | |- keeps (get_goal ≫= λ s, put_goal _ ≫= _) =>
      apply keeps_local; [intros ?; by repeat case_match|intros ?; by repeat case_match|intros ?]
  | |- keeps (_ ≫= _) => apply keeps_bind; [|intros ?]
  | |- keeps (match ?x with _ => _ end) => destruct x
  | |- keeps _ => solve [auto with goals]
  end.
Ltac keeps_all := repeat (cbv zeta; keeps_step).

Section methods.
Context `{ProtocolWire, GoalWire} {S : Type} `{SessionPersistence S}.
Context `{!WireLaw GoalChange (λ c, gc_version c ≤ 255)}.
Context (env : Env S) (Hothers : others_append env).

#[local] Hint Resolve Hothers : goals.

Lemma keeps_enter t : keeps (enter t env).
Proof using Type. unfold enter, require_live, check_cancelled. keeps_all. Qed.
#[local] Hint Resolve keeps_enter : goals.

Lemma keeps_transition fuel t reference allowed phase arm :
  keeps (transition fuel t env reference allowed phase arm).
Proof using All. unfold transition, write_locked. keeps_all. Qed.

Lemma keeps_block fuel t reference reason : keeps (block fuel t env reference reason).
Proof using All. unfold block. keeps_all. Qed.

Lemma keeps_create fuel t objective max_rounds : keeps (create fuel t env objective max_rounds).
Proof using All. unfold create, require_live, check_cancelled, write_locked. keeps_all. Qed.

Lemma keeps_edit fuel t reference objective max_rounds :
  keeps (edit fuel t env reference objective max_rounds).
Proof using All. unfold edit, write_locked. keeps_all. Qed.

Lemma keeps_resume fuel t reference : keeps (resume fuel t env reference).
Proof using All. unfold resume, write_locked. keeps_all. Qed.

Lemma keeps_clear fuel t reference : keeps (clear fuel t env reference).
Proof using All. unfold clear, write_locked. keeps_all. Qed.

Lemma keeps_write fuel t expected g : keeps (write fuel t env expected g).
Proof using All. unfold write, write_locked. keeps_all. Qed.

Lemma keeps_activate t reference max_rounds : keeps (activate t env reference max_rounds).
Proof using Type. unfold activate. keeps_all. Qed.

Lemma next_round_local s next s' :
  next_round s = Ok (next, s') → s' ≡ s ∧ gs_observed_events s' = gs_observed_events s.
Proof.
  unfold next_round. destruct (gs_activation s) as [a|]; [|by intros [= <- <-]].
  case_match; [by intros [= <- <-]|]. intros (g & _ & Hn)%bind_Ok.
  case_match; [by injection Hn as <- <-|]. apply bind_Ok in Hn as (times & _ & Hn).
  by case_match; injection Hn as <- <-.
Qed.

Lemma keeps_append_any t event : keeps (append_goal t event).
Proof.
  intros w Hi _. pose proof (keeps_append t event (w_goal w) w Hi eq_refl) as Ha.
  destruct (append_goal _ _ _) as [[r w']|]; [|done]. by destruct Ha.
Qed.
#[local] Hint Resolve keeps_append_any keeps_block : goals.

Lemma keeps_queue_failed fuel t reference round why error :
  keeps (queue_failed fuel t env reference round why error).
Proof using All. unfold queue_failed, clear_queued_round. keeps_all. Qed.
#[local] Hint Resolve keeps_queue_failed : goals.

Lemma keeps_reserve d : keeps (reserve env d).
Proof using Type.
  unfold reserve, require_live. apply keeps_bind; [apply keeps_lift|]. intros _.
  destruct (negb _); [apply keeps_ret|]. apply keeps_bind; [apply keeps_synced|]. intros _.
  eapply hoare_bind; [apply hoare_get|]. intros s.
  eapply (hoare_bind _ _ (λ ns w, ns.2 ≡ w_goal w ∧
    gs_observed_events ns.2 = gs_observed_events (w_goal w))).
  { apply hoare_lift. intros [next s'] w Hn _ [-> _]. by eapply next_round_local. }
  intros [next s'].
  eapply hoare_bind; [apply hoare_put|].
  { intros w [_ Hs] [He Ho]. by eapply synced_local. }
  intros []. apply hoare_any, keeps_ret.
Qed.

Lemma keeps_queue t message : keeps (queue_round t env message).
Proof using Hothers.
  unfold queue_round. keeps_step; [by auto with goals|]. keeps_step; [by auto with goals|].
  apply keeps_bind; [by apply (keeps_yield env _ (λ _, True))|]. intros []. apply keeps_append_any.
Qed.
#[local] Hint Resolve keeps_reserve keeps_queue : goals.

Lemma keeps_clear_queued reference round :
  keeps (clear_queued_round (S := S) reference round).
Proof using Type. unfold clear_queued_round. keeps_all. Qed.

Lemma keeps_drive fuel t d : keeps (drive fuel t env d).
Proof using All.
  unfold drive. apply keeps_bind; [apply keeps_reserve|]. intros [[reference round objective n|]|];
    [|keeps_all|apply keeps_ret].
  apply keeps_bind; [apply keeps_queue|]. intros r. keeps_all.
Qed.

Lemma keeps_admit gone id t seq : keeps (admit_user_round gone id t env seq).
Proof using Type.
  unfold admit_user_round, check_cancelled, require_live.
  apply keeps_bind; [apply keeps_lift|]. intros _. destruct gone; [apply hoare_fail|].
  apply keeps_bind; [apply keeps_lift|]. intros _.
  eapply hoare_bind; [apply hoare_get|]. intros s.
  eapply (hoare_bind _ _ (λ _ w, w_goal w = s)).
  { intros w Hi [Hw _]. split; [done|]. by intros ? _. }
  intros session.
  eapply (hoare_bind _ _ (λ _ w, w_goal w = s)); [by apply hoare_lift|]. intros act.
  case_match; [apply hoare_fail|]. case_match; [apply hoare_fail|].
  eapply (hoare_bind _ _ (λ _ w, w_goal w = s)); [by apply hoare_lift|]. intros current.
  case_match; [apply hoare_fail|].
  eapply (hoare_bind _ _ (λ _ w, w_goal w = s)); [by apply hoare_lift|]. intros expected.
  case_match; [apply hoare_fail|].
  eapply hoare_bind; [eapply hoare_put_local; [intros w Hw; exact Hw|by split|done]|]. intros v.
  by apply hoare_ret.
Qed.

Lemma keeps_disarm gone id : keeps (disarm (S := S) gone id).
Proof using Type. unfold disarm. keeps_all. Qed.

Lemma keeps_views id : keeps (snapshot (S := S) id) ∧ keeps (snapshots (S := S)) ∧ keeps (current (S := S)) ∧
  keeps (model_value (S := S)).
Proof using Type.
  unfold snapshot, snapshots, current, model_value. split_and!; keeps_all.
Qed.
End methods.

(** ** The service as a transition system *)

Section service.
Context `{ProtocolWire, GoalWire} {S : Type} `{SessionPersistence S}.

(** The public methods, under any token and any retry budget; and the parts of
    [drive], which takes the lock twice, as steps of their own. *)
Inductive method (env : Env S) : ∀ {A : Type}, Goals S A → Prop :=
| m_write fuel t expected g : method env (write fuel t env expected g)
| m_create fuel t objective max_rounds : method env (create fuel t env objective max_rounds)
| m_edit fuel t reference objective max_rounds :
    method env (edit fuel t env reference objective max_rounds)
| m_pause fuel t reference : method env (pause fuel t env reference)
| m_block fuel t reference reason : method env (block fuel t env reference reason)
| m_resume fuel t reference : method env (resume fuel t env reference)
| m_complete fuel t reference : method env (complete fuel t env reference)
| m_clear fuel t reference : method env (clear fuel t env reference)
| m_activate t reference max_rounds : method env (activate t env reference max_rounds)
| m_drive fuel t d : method env (drive fuel t env d)
| m_reserve d : method env (reserve env d)
| m_queue t message : method env (queue_round t env message)
| m_clear_queued reference round : method env (clear_queued_round reference round)
| m_admit gone id t seq : method env (admit_user_round gone id t env seq)
| m_disarm gone id : method env (disarm gone id)
| m_snapshot id : method env (snapshot id)
| m_snapshots : method env snapshots
| m_current : method env current
| m_model_value : method env model_value.

(** A step: a method ends, with a value or an error, or other tasks append. *)
Inductive goal_step : World S → World S → Prop :=
| step_method env {A} (m : Goals S A) w r w' :
    others_append env → method env m → m w = Some (r, w') → goal_step w w'
| step_others env i w s b :
    others_append env → e_others env i (w_session w) (w_backend w) = (s, b) →
    goal_step w (mkWorld (w_goal w) s b).

Context `{!WireLaw GoalChange (λ c, gc_version c ≤ 255)}.

Lemma method_keeps env {A} (m : Goals S A) : others_append env → method env m → keeps m.
Proof using All.
  intros He. pose proof (keeps_views (S := S)) as Hviews. destruct 1; first
    [ by apply keeps_write | by apply keeps_create | by apply keeps_edit
    | by apply keeps_transition | by apply keeps_block | by apply keeps_resume
    | by apply keeps_block | by apply keeps_clear | by apply keeps_activate | by apply keeps_drive | by apply keeps_reserve | by apply keeps_queue
    | by apply keeps_clear_queued
    | by apply keeps_admit | by apply keeps_disarm | by apply keeps_disarm | by apply (Hviews "") | by apply Hviews ].
Qed.

Lemma step_in_step w w' : in_step w → goal_step w w' → in_step w'.
Proof using All.
  intros Hi Hstep. destruct Hstep as [env A m w r w' He Hm Hw|env i w s b He Hw].
  - pose proof (method_keeps env m He Hm w Hi I) as Hk. rewrite Hw in Hk. by destruct Hk.
  - pose proof (keeps_yield env i (λ _, True) He (λ _ _ _ _, I) w Hi I) as Hk.
    unfold yield_to in Hk. rewrite Hw in Hk. by destruct Hk.
Qed.

Lemma new_in_step live session s (b : S) :
  session_wf session → GoalService_new live session = Ok s → in_step (mkWorld s session b).
Proof.
  intros Hwf Hs. split; [done|]. unfold GoalService_new in Hs. case_match; [done|].
  apply bind_Ok in Hs as (r & Hr & [= <-]). apply sync_of_default in Hr. simpl.
  case_match; [|done]. by eapply synced_local; [exact Hr|split|].
Qed.
End service.

(** ** Goals: the retry loop of a write ends *)

#[local] Open Scope N_scope.

Section loop.
Context `{ProtocolWire, GoalWire} {S : Type} `{SessionPersistence S}.

(** The ledger has observed the whole log. *)
Definition caught_up (w : World S) : Prop :=
  gs_observed_events (w_goal w) = length (st_events (s_state (w_session w))).

Lemma sync_locked_total (w : World S) : is_Some (sync_locked w).
Proof.
  unfold sync_locked, mbind, goals_bind, get_goal, get_session, lift, put_goal.
  by destruct (sync _ _).
Qed.

(** A gap the checks report is about the sequence number of the event. *)
Lemma goal_check_gap t data time seq expected s e a :
  check_append t (goal_event data time seq) expected s = Err (ESequenceGap e a) → a = seq.
Proof.
  unfold check_append, check_cancellation. destruct (check 0 t); [done|]. cbn [mbind result_bind].
  destruct (match expected with Some _ => _ | None => _ end) as [u|err] eqn:He;
    [|destruct expected; [case_bool_decide|]; by simplify_eq].
  cbn [mbind result_bind]. unfold check_admissible, protocol.
  destruct (SessionEvent_validate _); [|done]. cbn [map_err mbind result_bind].
  unfold next_seq. destruct (last _) as [x|]; [destruct (ok_or _ _) as [n|] eqn:Hn|];
    cbn [mbind result_bind]; [|by unfold ok_or in Hn; case_match; simplify_eq|].
  all: destruct (negb _); cbn [mbind result_bind]; [by intros [= _ <-]|].
  all: by destruct s as [h [] u'].
Qed.

(** What the back end answers when it refuses a sequence number. *)
Definition gaps_report_event : Prop :=
  ∀ t id event (b b' : S) e a,
    p_append t id event b = (Err (ESequenceGap e a), b') → a = ev_seq event.

Lemma goal_append_gap t data time seq s (b : S) e a s' b' :
  gaps_report_event →
  append t (goal_event data time seq) s b = (Err (ESequenceGap e a), s', b') → a = seq ∧ s' = s.
Proof.
  intros Hg. unfold append, append_inner, append_under_gate.
  destruct (check_cancellation _) as [u|err] eqn:Hc.
  2:{ unfold check_cancellation in Hc. by case_match; simplify_eq. }
  destruct (check_append _ _ _ _) as [p|err] eqn:Hca.
  - destruct (p_append _ _ _ b) as [[v|err] b1] eqn:Hp; [done|]. intros [= -> <- <-].
    by apply Hg in Hp.
  - intros [= -> <- <-]. by apply goal_check_gap in Hca.
Qed.

Context (t : token) (env : Env S) (expected : option GoalRef) (g : GoalSnapshot)
  (op : GoalOperation) (reason : option GoalBlockReason).
Context (Hothers : others_append env).

Abbreviation loop fuel i := (write_loop fuel i t env expected g op reason).

(** One round: it ends, or goes on caught up; a quiet round that starts caught
    up ends. *)
Lemma write_round fuel i w :
  in_step w →
  is_Some (loop (Datatypes.S fuel) i w) ∨
  ∃ w', in_step w' ∧ caught_up w' ∧ loop (Datatypes.S fuel) i w = loop fuel (i + 1) w' ∧
    (gaps_report_event → caught_up w →
     (∀ j s b, (2 * i ≤ j)%nat → e_others env j s b = (s, b)) → False).
Proof using Hothers.
  intros Hi. cbn [write_loop]. unfold mbind, goals_bind, get_goal, lift.
  destruct (validate_goal_operation _ _ _) as [[]|]; [|by left].
  destruct (apply_snapshot _ _ _ _) as [goals|]; [|by left].
  set (event := goal_event _ _ _). pose proof (keeps_yield env (2 * i) (λ _, True) Hothers
    (λ _ _ _ _, I) w Hi I) as Hy. unfold yield_to in *.
  destruct (e_others env (2 * i) _ _) as [s1 b1] eqn:Ho1. destruct Hy as [Hi1 _].
  pose proof (keeps_append (sub (2 * i) t) event (w_goal w) _ Hi1 eq_refl) as Ha.
  unfold append_goal in *. cbn [w_goal w_session w_backend] in *.
  destruct (append _ _ s1 b1) as [[[u|err] s2] b2] eqn:Happ; [by left|].
  destruct Ha as [Hi2 _]. destruct err; try by left. destruct (_ <=? _) eqn:Hle; [by left|].
  pose proof (keeps_yield env (2 * i + 1) (λ _, True) Hothers (λ _ _ _ _, I) _ Hi2 I) as Hy.
  unfold yield_to in Hy. cbn [w_goal w_session w_backend] in *.
  destruct (e_others env (2 * i + 1) s2 b2) as [s3 b3] eqn:Ho3. destruct Hy as [Hi3 _].
  unfold get_session. cbn [w_goal w_session w_backend].
  destruct (map_err _ _) as [n|] eqn:Hn; [|by left]. destruct (negb (n =? _)) eqn:Hne; [by left|].
  unfold check_cancelled, lift. destruct (goal_check_cancellation _) as [[]|]; [|by left].
  pose proof (keeps_sync _ Hi3 I) as Hs. pose proof (sync_locked_total (mkWorld (w_goal w) s3 b3)) as Ht.
  destruct (sync_locked _) as [[[[]|e] w4]|]; [|by left|by destruct Ht].
  destruct Hs as [Hi4 Hc4]. right. exists w4. split; [done|]. split; [exact (Hc4 tt eq_refl)|]. split; [done|].
  intros Hg Hcu Hq. apply N.leb_gt in Hle. apply negb_false_iff, N.eqb_eq in Hne. subst n.
  rewrite Hq in Ho1, Ho3 by lia. injection Ho1 as <- <-. injection Ho3 as <- <-.
  destruct (goal_append_gap _ _ _ _ _ _ _ _ _ _ Hg Happ) as [-> ->].
  apply map_err_Ok in Hn. apply contiguous_next_seq in Hn; [|apply session_wf_contiguous, Hi].
  unfold caught_up in Hcu. rewrite Hcu, Hn in Hle. lia.
Qed.

(** Enough fuel: the rounds the others may disturb, and two more. *)
Lemma write_loop_ends k fuel i w :
  gaps_report_event → in_step w →
  (∀ j s b, (2 * (i + k) ≤ j)%nat → e_others env j s b = (s, b)) →
  (k + 2 ≤ fuel)%nat → is_Some (loop fuel i w).
Proof using Hothers.
  intros Hg. assert (∀ k fuel i w, in_step w → caught_up w →
    (∀ j s b, (2 * (i + k) ≤ j)%nat → e_others env j s b = (s, b)) →
    (k + 1 ≤ fuel)%nat → is_Some (loop fuel i w)) as Hcu.
  { clear k fuel i w. induction k as [|k IH]; intros [|fuel] i w Hi Hc Hq Hf; try lia.
    - destruct (write_round fuel i w Hi) as [|(w' & _ & _ & _ & Hf')]; [done|].
      destruct Hf'; try done. intros j s b Hj. apply Hq. lia.
    - destruct (write_round fuel i w Hi) as [|(w' & Hi' & Hc' & -> & _)]; [done|].
      apply IH; [done|done| |lia]. intros j s b Hj. apply Hq. lia. }
  intros Hi Hq Hf. destruct fuel as [|fuel]; [lia|].
  destruct (write_round fuel i w Hi) as [|(w' & Hi' & Hc' & -> & _)]; [done|].
  apply (Hcu k); [done|done| |lia]. intros j s b Hj. apply Hq. lia.
Qed.
End loop.
