(* ===== verification/Approval.v ===== *)
(** * Approvals (approval.rs): the service of one agent

    A decision is asked for under a gate, answered with the gate released, and
    recorded under the gate again.  What runs while the gate is not held (other
    methods of this service, hooks and answerers that re-enter it, the agent)
    is an arbitrary change of the world, a field of the environment; so are
    the liveness of the agent at each inspection, the answers of the answerers
    and what other tasks append to the session. *)

From S2P Require Import Prelude Json Protocol Session.

#[local] Open Scope N_scope.

(** ** Requests, decisions and errors *)

Inductive ApprovalPolicy := Ask | Never.
#[export] Instance ApprovalPolicy_eq_dec : EqDecision ApprovalPolicy.
Proof. solve_decision. Defined.

Inductive ApprovalOutcome := AllowedOnce | Rejected | Cancelled | Unavailable.
#[export] Instance ApprovalOutcome_eq_dec : EqDecision ApprovalOutcome.
Proof. solve_decision. Defined.

Definition allows (o : ApprovalOutcome) : bool := bool_decide (o = AllowedOnce).

Definition ApprovalId : Type := string.

Inductive ApprovalError :=
| ANotLive
| ANoActiveTurn
| AInvalidRequest
| ACancelled
| AInvalidReplay
| ASession (e : SessionError).

Record ApprovalRequest := mkRequest { rq_action : string; rq_details : Value }.

Definition ApprovalRequest_validate (r : ApprovalRequest) : result ApprovalError unit :=
  if blank (rq_action r) || (256 <? str_len (rq_action r)) then Err AInvalidRequest else Ok tt.

Record ApprovalPolicyChange := mkPolicyChange { pc_policy : ApprovalPolicy }.

Record ApprovalAsked := mkAsked {
  ak_approval_id : ApprovalId;
  ak_session_id : SessionId;
  ak_turn : N;
  ak_policy : ApprovalPolicy;
  ak_request : ApprovalRequest;
  ak_tool_name : string;
  ak_call_id : option ToolCallId;
  ak_reason : option string;
}.

Record ApprovalDecision := mkDecision {
  dc_approval_id : ApprovalId;
  dc_turn : N;
  dc_outcome : ApprovalOutcome;
}.

(** The derived (de)serialisers. *)
Class ApprovalWire := {
  wire_policy :: Wire ApprovalPolicyChange;
  wire_asked :: Wire ApprovalAsked;
  wire_decision :: Wire ApprovalDecision;
}.

Definition approval_check_cancellation (cancelled : bool) : result ApprovalError unit :=
  if cancelled then Err ACancelled else Ok tt.

(** ** Authorities

    One exact generation of a live agent: its session, the generation and the
    identity of the agent object. *)

Record AgentAuthority := mkAuthority {
  au_id : SessionId;
  au_generation : N;
  au_inner : N;
}.
#[export] Instance AgentAuthority_eq_dec : EqDecision AgentAuthority.
Proof. solve_decision. Defined.

Definition same_authority (a b : AgentAuthority) : bool :=
  String.eqb (au_id a) (au_id b) && (au_generation a =? au_generation b)
  && (au_inner a =? au_inner b).

(** ** The state *)

(** A hook: [None] when it panics, else its veto. *)
Definition ApprovalHook : Type := ApprovalRequest → option (option string).

Record ApprovalState (A : Type) := mkApprovals {
  ap_policy : ApprovalPolicy;
  ap_next_id : N;
  ap_pending_decisions : gset N;
  ap_answerers : gmap N A;
  ap_host_answerers : gmap N A;
  ap_hooks : gmap N ApprovalHook;
}.
Arguments mkApprovals {A} _ _ _ _ _ _.
Arguments ap_policy {A} _.
Arguments ap_next_id {A} _.
Arguments ap_pending_decisions {A} _.
Arguments ap_answerers {A} _.
Arguments ap_host_answerers {A} _.
Arguments ap_hooks {A} _.

Definition ApprovalState_default {A} : ApprovalState A := mkApprovals Ask 0 ∅ ∅ ∅ ∅.

(** [values()] of a [BTreeMap<u64, _>]: in increasing key order. *)
Definition id_le {V} (p q : N * V) : Prop := p.1 ≤ q.1.
#[export] Instance id_le_dec {V} (p q : N * V) : Decision (id_le p q).
Proof. unfold id_le. apply _. Defined.
Definition values_by_id {V} (m : gmap N V) : list V := (merge_sort id_le (map_to_list m)).*2.

(** [checked_add(1).unwrap_or(1)]. *)
Definition next_id {A} (s : ApprovalState A) : N * ApprovalState A :=
  let id := default 1 (u64_checked_add (ap_next_id s) 1) in
  (id, mkApprovals (ap_policy s) id (ap_pending_decisions s) (ap_answerers s)
         (ap_host_answerers s) (ap_hooks s)).

Definition set_pending {A} (p : gset N) (s : ApprovalState A) : ApprovalState A :=
  mkApprovals (ap_policy s) (ap_next_id s) p (ap_answerers s) (ap_host_answerers s) (ap_hooks s).
Definition store_policy {A} (p : ApprovalPolicy) (s : ApprovalState A) : ApprovalState A :=
  mkApprovals p (ap_next_id s) (ap_pending_decisions s) (ap_answerers s) (ap_host_answerers s)
    (ap_hooks s).
Definition set_answerers {A} (m : gmap N A) (s : ApprovalState A) : ApprovalState A :=
  mkApprovals (ap_policy s) (ap_next_id s) (ap_pending_decisions s) m (ap_host_answerers s)
    (ap_hooks s).
Definition set_host_answerers {A} (m : gmap N A) (s : ApprovalState A) : ApprovalState A :=
  mkApprovals (ap_policy s) (ap_next_id s) (ap_pending_decisions s) (ap_answerers s) m
    (ap_hooks s).
Definition set_hooks {A} (m : gmap N ApprovalHook) (s : ApprovalState A) : ApprovalState A :=
  mkApprovals (ap_policy s) (ap_next_id s) (ap_pending_decisions s) (ap_answerers s)
    (ap_host_answerers s) m.

(** ** The turn in progress *)

Definition turn_after (active : option N) (event : SessionEvent) : option N :=
  if String.eqb (event_type event) "turn/start" then get_u64 "turn" (ev_data event)
  else if String.eqb (event_type event) "turn/end" then None
  else active.
Definition active_turn (session : Session) : option N :=
  foldl turn_after None (st_events (s_state session)).

(** ** The world and the environment *)

Record AWorld (A S : Type) := mkAWorld {
  aw_state : ApprovalState A;
  aw_session : Session;
  aw_backend : S;
}.
Arguments mkAWorld {A S} _ _ _.
Arguments aw_state {A S} _.
Arguments aw_session {A S} _.
Arguments aw_backend {A S} _.

(** [ae_live] and [ae_owner_live] are the successive answers of [is_live] of the
    service's own authority and of a given one; [ae_others] is what other
    tasks append between two steps that hold the gate; [ae_unlocked] whatever
    happens while the gate is not held; [ae_answer] is [None] for an answerer
    that fails or panics, [Some None] for one that declines. *)
Record AEnv (A S : Type) := mkAEnv {
  ae_live : nat → bool;
  ae_owner_live : bool;
  ae_others : nat → Session → S → Session * S;
  ae_unlocked : nat → AWorld A S → AWorld A S;
  ae_id : ApprovalId;
  ae_answer : A → ApprovalAsked → option (option bool);
  ae_answers_cancelled : bool;
}.
Arguments mkAEnv {A S} _ _ _ _ _ _ _.
Arguments ae_live {A S} _ _.
Arguments ae_owner_live {A S} _.
Arguments ae_others {A S} _ _ _ _.
Arguments ae_unlocked {A S} _ _ _.
Arguments ae_id {A S} _.
Arguments ae_answer {A S} _ _ _.
Arguments ae_answers_cancelled {A S} _.

Section service.
Context `{ProtocolWire, ApprovalWire} {A S : Type} `{SessionPersistence S}.
Context (authority : AgentAuthority).
Abbreviation W := (AWorld A S).
Abbreviation Env := (AEnv A S).

(** [new]: the policy is the last one of the log. *)
Definition replay_policy (s : ApprovalState A) (event : SessionEvent) :
    result ApprovalError (ApprovalState A) :=
  if String.eqb (event_type event) "approval/policy" then
    change ← map_err (λ _, AInvalidReplay) (from_value (A := ApprovalPolicyChange) (ev_data event));
    Ok (store_policy (pc_policy change) s)
  else Ok s.

Definition ApprovalService_new (live : bool) (session : Session) :
    result ApprovalError (ApprovalState A) :=
  if negb live || negb (String.eqb (au_id authority) (h_id (s_header session))) then Err ANotLive
  else foldM replay_policy ApprovalState_default (st_events (s_state session)).

Definition require_live (env : Env) (i : nat) : result ApprovalError unit :=
  if ae_live env i then Ok tt else Err ANotLive.

Definition require_owner (env : Env) (owner : AgentAuthority) : result ApprovalError unit :=
  _ ← require_live env 0;
  if ae_owner_live env && same_authority owner authority then Ok tt else Err ANotLive.

(** [append]: the sequence number is read, then the session's gate awaited. *)
Definition append_approval (t : token) (env : Env) (i : nat) (kind : string) (data : Value)
    (w : W) : result ApprovalError unit * W :=
  match next_seq (st_events (s_state (aw_session w))) with
  | Err e => (Err (ASession e), w)
  | Ok seq =>
      let '(s, b) := ae_others env i (aw_session w) (aw_backend w) in
      let '(r, s', b') := append t (mkEvent kind seq 0 data (Some true) None None) s b in
      (map_err ASession r, mkAWorld (aw_state w) s' b')
  end.

Definition update_state (f : ApprovalState A → ApprovalState A) (w : W) : W :=
  mkAWorld (f (aw_state w)) (aw_session w) (aw_backend w).

Definition set_policy (t : token) (env : Env) (policy : ApprovalPolicy) (w : W) :
    result ApprovalError unit * W :=
  match _ ← require_live env 0; approval_check_cancellation (check 0 t) with
  | Err e => (Err e, w)
  | Ok _ =>
      let w := ae_unlocked env 0 w in
      match _ ← approval_check_cancellation (check 1 t); require_live env 1 with
      | Err e => (Err e, w)
      | Ok _ =>
          match append_approval (sub 2 t) env 0 "approval/policy"
                  (to_value (mkPolicyChange policy)) w with
          | (Err e, w') => (Err e, w')
          | (Ok _, w') => (Ok tt, update_state (store_policy policy) w')
          end
      end
  end.

(** ** Registrations *)

Inductive RegistrationKind := RegAnswerer | RegHostAnswerer | RegHook.
Record ApprovalRegistration := mkRegistration {
  ar_id : N;
  ar_kind : RegistrationKind;
  ar_closed : bool;
}.

Definition register_answerer (env : Env) (owner : AgentAuthority) (answerer : A)
    (s : ApprovalState A) : result ApprovalError ApprovalRegistration * ApprovalState A :=
  match require_owner env owner with
  | Err e => (Err e, s)
  | Ok _ =>
      let '(id, s) := next_id s in
      (Ok (mkRegistration id RegAnswerer false),
       set_answerers (<[id := answerer]> (ap_answerers s)) s)
  end.

Definition register_host_answerer (env : Env) (owner : AgentAuthority) (answerer : A)
    (s : ApprovalState A) : result ApprovalError ApprovalRegistration * ApprovalState A :=
  match require_owner env owner with
  | Err e => (Err e, s)
  | Ok _ =>
      let '(id, s) := next_id s in
      (Ok (mkRegistration id RegHostAnswerer false),
       set_host_answerers (<[id := answerer]> (ap_host_answerers s)) s)
  end.

Definition register_hook (env : Env) (owner : AgentAuthority) (hook : ApprovalHook)
    (s : ApprovalState A) : result ApprovalError ApprovalRegistration * ApprovalState A :=
  match require_owner env owner with
  | Err e => (Err e, s)
  | Ok _ =>
      let '(id, s) := next_id s in
      (Ok (mkRegistration id RegHook false), set_hooks (<[id := hook]> (ap_hooks s)) s)
  end.

(** [close], also run by [Drop]. *)
Definition close (r : ApprovalRegistration) (s : ApprovalState A) :
    ApprovalRegistration * ApprovalState A :=
  let closed := mkRegistration (ar_id r) (ar_kind r) true in
  if ar_closed r then (r, s)
  else
    (closed,
     match ar_kind r with
     | RegAnswerer => set_answerers (delete (ar_id r) (ap_answerers s)) s
     | RegHostAnswerer => set_host_answerers (delete (ar_id r) (ap_host_answerers s)) s
     | RegHook => set_hooks (delete (ar_id r) (ap_hooks s)) s
     end).

(** ** Decisions *)

(** The first answerer that does not decline decides. *)
Fixpoint waterfall (env : Env) (answerers : list A) (asked : ApprovalAsked) : ApprovalOutcome :=
  match answerers with
  | [] => Unavailable
  | a :: rest =>
      match ae_answer env a asked with
      | Some (Some true) => AllowedOnce
      | Some (Some false) => Rejected
      | Some None => waterfall env rest asked
      | None => Unavailable
      end
  end.

(** What a request holds on to between its two critical sections. *)
Record Opened := mkOpened {
  op_generation : N;
  op_policy : ApprovalPolicy;
  op_hooks : list ApprovalHook;
  op_answerers : list A;
  op_asked : ApprovalAsked;
}.

(** The first critical section: the asked event is made durable. *)
Definition open_request (t : token) (env : Env) (request : ApprovalRequest) (tool_name : string)
    (call_id : option ToolCallId) (reason : option string) (turn : N) (w : W) :
    result ApprovalOutcome Opened * W :=
  if check 1 t then (Err Cancelled, w)
  else if negb (ae_live env 1)
          || negb (bool_decide (active_turn (aw_session w) = Some turn)) then (Err Rejected, w)
  else
    let '(generation, s) := next_id (aw_state w) in
    let asked := mkAsked (ae_id env) (au_id authority) turn (ap_policy s) request tool_name
                   call_id reason in
    let opened := mkOpened generation (ap_policy s) (values_by_id (ap_hooks s))
                    (values_by_id (ap_answerers s) ++ values_by_id (ap_host_answerers s)) asked in
    match append_approval (sub 2 t) env 0 "approval/asked" (to_value asked)
            (update_state (λ _, s) w) with
    | (Err _, w') => (Err Rejected, w')
    | (Ok _, w') =>
        (Ok opened,
         update_state (λ s, set_pending ({[generation]} ∪ ap_pending_decisions s) s) w')
    end.

(** [map_or(true, |denial| denial.is_some())]: a panicking hook vetoes. *)
Definition vetoes (request : ApprovalRequest) (hook : ApprovalHook) : bool :=
  match hook request with Some None => false | _ => true end.

(** The decision proper, with the gate released. *)
Definition decide_request (t : token) (env : Env) (o : Opened) : ApprovalOutcome :=
  if check 3 t then Cancelled
  else if existsb (vetoes (ak_request (op_asked o))) (op_hooks o) then Rejected
  else match op_policy o with
       | Never => Rejected
       | Ask => if ae_answers_cancelled env then Cancelled
                else waterfall env (op_answerers o) (op_asked o)
       end.

(** The second critical section: the decision is confirmed and made durable,
    under a token that nobody cancels. *)
Definition close_request (t : token) (env : Env) (o : Opened) (outcome : ApprovalOutcome) (w : W) :
    ApprovalOutcome * W :=
  let turn := ak_turn (op_asked o) in
  let reserved := bool_decide (op_generation o ∈ ap_pending_decisions (aw_state w)) in
  let w := update_state (λ s, set_pending (ap_pending_decisions s ∖ {[op_generation o]}) s) w in
  let outcome :=
    if negb reserved then Rejected
    else if allows outcome && check 4 t then Cancelled
    else if allows outcome
            && (negb (ae_live env 2)
                || negb (bool_decide (active_turn (aw_session w) = Some turn))) then Rejected
    else outcome in
  match append_approval live_token env 1 "approval/decided"
          (to_value (mkDecision (ak_approval_id (op_asked o)) turn outcome)) w with
  | (Err _, w') => (Rejected, w')
  | (Ok _, w') => (outcome, w')
  end.

Definition approve_with_audit (t : token) (env : Env) (request : ApprovalRequest)
    (tool_name : string) (call_id : option ToolCallId) (reason : option string) (w : W) :
    ApprovalOutcome * W :=
  if negb (ae_live env 0) || negb (is_ok (ApprovalRequest_validate request)) then (Unavailable, w)
  else if check 0 t then (Cancelled, w)
  else match active_turn (aw_session w) with
  | None => (Unavailable, w)
  | Some turn =>
      match open_request t env request tool_name call_id reason turn (ae_unlocked env 0 w) with
      | (Err outcome, w1) => (outcome, w1)
      | (Ok o, w1) => close_request t env o (decide_request t env o) (ae_unlocked env 1 w1)
      end
  end.

Definition approve (t : token) (env : Env) (request : ApprovalRequest) (w : W) :
    ApprovalOutcome * W :=
  approve_with_audit t env request (rq_action request) None None w.

(** [ApprovalToolGate::approve]: the veto of the tool runtime. *)
Definition tool_gate_approve (t : token) (env : Env) (session : SessionId) (call : ToolCallId)
    (tool_name : string) (arguments : Value) (w : W) : bool * W :=
  if negb (String.eqb session (au_id authority)) then (false, w)
  else
    let '(outcome, w') := approve_with_audit t env (mkRequest tool_name arguments) tool_name
                            (Some call) None w in
    (allows outcome, w').
End service.
Arguments Opened A : clear implicits.
Arguments mkOpened {A} _ _ _ _ _.
