(* ===== verification/ApprovalHost.v ===== *)
(** * Approvals (approval.rs): the host's registry of pending requests

    One slot per session, bound to one generation of its agent, and the table
    of requests that wait for a browser.  Locks are held over whole operations,
    so each is a function of the registry; the clock, fresh ids and what the
    other end of a channel does are arguments.  A oneshot channel is a number;
    [hr_sent] holds what was sent over it, [hr_cancelled] the tokens that were
    cancelled and [hr_notices] what was broadcast. *)

From S2P Require Import Prelude Json Protocol Session Approval.

#[local] Open Scope N_scope.

Inductive HostApprovalError :=
| HNotLive
| HOwnerMismatch
| HAlreadyInstalled
| HApproval (e : ApprovalError).

Definition DEFAULT_MAX_PENDING_APPROVALS : nat := 256.
(** In milliseconds. *)
Definition DEFAULT_APPROVAL_DEADLINE : N := 60000.

Record ApprovalRequested := mkRequested {
  rr_rpc_id : string;
  rr_session_id : SessionId;
  rr_approval_id : ApprovalId;
  rr_tool_name : string;
  rr_call_id : option ToolCallId;
  rr_reason : option string;
}.

Record ApprovalResolved := mkResolved {
  rs_rpc_id : string;
  rs_session_id : SessionId;
  rs_approval_id : ApprovalId;
  rs_outcome : ApprovalOutcome;
}.

Inductive ApprovalNotification :=
| Requested (r : ApprovalRequested)
| Resolved (r : ApprovalResolved).

Inductive RpcReceiptReason := NotPending | BadResponse.
Record RpcReceipt := mkReceipt { rc_accepted : bool; rc_reason : option RpcReceiptReason }.
Definition receipt_accepted : RpcReceipt := mkReceipt true None.
Definition receipt_not_pending : RpcReceipt := mkReceipt false (Some NotPending).
Definition receipt_bad_response : RpcReceipt := mkReceipt false (Some BadResponse).

(** The session and the approval id. *)
Definition PendingKey : Type := SessionId * ApprovalId.

Record PendingInteraction := mkPendingInteraction {
  pi_requested : ApprovalRequested;
  pi_generation : AgentAuthority;
  pi_turn : N;
  pi_cancellation : N;
  pi_sender : option N;
  pi_deadline : N;
  pi_claimed : bool;
}.

Record PendingState := mkPendingState {
  ps_entries : gmap string PendingInteraction;
  ps_relayed_asked : gset PendingKey;
  ps_relayed_order : list PendingKey;
}.

(** [H] is the type of the handles on approval services. *)
Record HostApprovalSlot (H : Type) := mkSlot {
  sl_authority : AgentAuthority;
  sl_approvals : H;
  sl_answerer : ApprovalRegistration;
}.
Arguments mkSlot {H} _ _ _.
Arguments sl_authority {H} _.
Arguments sl_approvals {H} _.
Arguments sl_answerer {H} _.

Record HostApprovalRegistry (H : Type) := mkHostRegistry {
  hr_slots : gmap SessionId (HostApprovalSlot H);
  hr_pending : PendingState;
  hr_notices : list ApprovalNotification;
  hr_sent : gmap N ApprovalOutcome;
  hr_cancelled : gset N;
  hr_max_pending : nat;
  hr_deadline : N;
}.
Arguments mkHostRegistry {H} _ _ _ _ _ _ _.
Arguments hr_slots {H} _.
Arguments hr_pending {H} _.
Arguments hr_notices {H} _.
Arguments hr_sent {H} _.
Arguments hr_cancelled {H} _.
Arguments hr_max_pending {H} _.
Arguments hr_deadline {H} _.

Definition claim (e : PendingInteraction) : PendingInteraction :=
  mkPendingInteraction (pi_requested e) (pi_generation e) (pi_turn e) (pi_cancellation e) None
    (pi_deadline e) true.

(** [remember_relayed_asked]. *)
Fixpoint forget_oldest (limit : nat) (asked : gset PendingKey) (order : list PendingKey) :
    gset PendingKey * list PendingKey :=
  if (length order <=? limit)%nat then (asked, order)
  else match order with
       | [] => (asked, order)
       | oldest :: rest => forget_oldest limit (asked ∖ {[oldest]}) rest
       end.
Definition remember_relayed_asked (p : PendingState) (key : PendingKey) (limit : nat) :
    PendingState :=
  if (limit =? 0)%nat || bool_decide (key ∈ ps_relayed_asked p) then p
  else
    let '(asked, order) := forget_oldest limit ({[key]} ∪ ps_relayed_asked p)
                             (ps_relayed_order p ++ [key]) in
    mkPendingState (ps_entries p) asked order.

Definition pending_key (a : ApprovalAsked) : PendingKey :=
  (ak_session_id a, ak_approval_id a).
Definition pending_key_from_requested (r : ApprovalRequested) : PendingKey :=
  (rr_session_id r, rr_approval_id r).

Section registry.
Context {H : Type}.
Abbreviation Registry := (HostApprovalRegistry H).

Definition set_slots (slots : gmap SessionId (HostApprovalSlot H)) (r : Registry) : Registry :=
  mkHostRegistry slots (hr_pending r) (hr_notices r) (hr_sent r) (hr_cancelled r)
    (hr_max_pending r) (hr_deadline r).
Definition set_pending_state (p : PendingState) (r : Registry) : Registry :=
  mkHostRegistry (hr_slots r) p (hr_notices r) (hr_sent r) (hr_cancelled r)
    (hr_max_pending r) (hr_deadline r).
Definition set_entries (m : gmap string PendingInteraction) (r : Registry) : Registry :=
  set_pending_state
    (mkPendingState m (ps_relayed_asked (hr_pending r)) (ps_relayed_order (hr_pending r))) r.
Definition notify (n : option ApprovalNotification) (r : Registry) : Registry :=
  mkHostRegistry (hr_slots r) (hr_pending r) (hr_notices r ++ option_list n) (hr_sent r)
    (hr_cancelled r) (hr_max_pending r) (hr_deadline r).

Abbreviation entries r := (ps_entries (hr_pending r)).

Definition with_limits (max_pending : nat) (deadline : N) : Registry :=
  mkHostRegistry ∅ (mkPendingState ∅ ∅ []) [] ∅ ∅ max_pending deadline.
Definition HostApprovalRegistry_new : Registry :=
  with_limits DEFAULT_MAX_PENDING_APPROVALS DEFAULT_APPROVAL_DEADLINE.

(** ** Slots *)

Record HostApprovalRegistration := mkHostRegistration {
  hg_session : SessionId;
  hg_authority : AgentAuthority;
  hg_closed : bool;
}.

(** [install]; [live] and [matches] are what [is_live] of the owner and
    [matches_owner] of the service answer, [registered] what
    [register_host_answerer] does. *)
Definition install (live matches : bool) (owner : AgentAuthority) (approvals : H)
    (registered : result ApprovalError ApprovalRegistration) (r : Registry) :
    result HostApprovalError HostApprovalRegistration * Registry :=
  if negb live then (Err HNotLive, r)
  else if negb matches then (Err HOwnerMismatch, r)
  else match registered with
  | Err e => (Err (HApproval e), r)
  | Ok answerer =>
      let session := au_id owner in
      match hr_slots r !! session with
      | Some _ => (Err HAlreadyInstalled, r)
      | None =>
          (Ok (mkHostRegistration session owner false),
           set_slots (<[session := mkSlot owner approvals answerer]> (hr_slots r)) r)
      end
  end.

(** [lookup]; [live] is what the slot's authority answers. *)
Definition lookup (live : AgentAuthority → bool) (session : SessionId) (r : Registry) : option H :=
  slot ← hr_slots r !! session;
  if live (sl_authority slot) then Some (sl_approvals slot) else None.

(** [register_answerer]: a trusted local answerer, at the slot's own service. *)
Definition host_register_answerer (live : AgentAuthority → bool) (session : SessionId)
    (register : H → AgentAuthority → result ApprovalError ApprovalRegistration) (r : Registry) :
    result HostApprovalError ApprovalRegistration :=
  match hr_slots r !! session with
  | None => Err HNotLive
  | Some slot =>
      if negb (live (sl_authority slot)) then Err HNotLive
      else map_err HApproval (register (sl_approvals slot) (sl_authority slot))
  end.

(** [ToolApproval] of the registry: a session without a live slot is refused;
    [run] is [approve_with_audit] at a service. *)
Definition host_tool_approve (live : AgentAuthority → bool) (session : SessionId)
    (run : H → ApprovalOutcome) (r : Registry) : bool :=
  match lookup live session r with
  | None => false
  | Some approvals => allows (run approvals)
  end.

(** ** Pending requests *)

Definition open_entry (now : N) (e : PendingInteraction) : bool :=
  negb (pi_claimed e) && (now <? pi_deadline e).

Definition snapshots (now : N) (r : Registry) : list ApprovalRequested :=
  pi_requested <$> filter (λ e, open_entry now e = true) (btree_values (entries r)).

Definition is_pending (now : N) (rpc_id : string) (r : Registry) : bool :=
  match entries r !! rpc_id with Some e => open_entry now e | None => false end.

(** [respond]; [received] tells whether the waiting end still exists. *)
Definition respond (now : N) (received : bool) (rpc_id : string) (session_id : SessionId)
    (approval_id : ApprovalId) (outcome : ApprovalOutcome) (r : Registry) :
    RpcReceipt * Registry :=
  if negb (bool_decide (outcome = AllowedOnce ∨ outcome = Rejected)) then
    (receipt_bad_response, r)
  else match entries r !! rpc_id with
  | None => (receipt_not_pending, r)
  | Some e =>
      if pi_claimed e || (pi_deadline e <=? now) then (receipt_not_pending, r)
      else if negb (String.eqb (rr_session_id (pi_requested e)) session_id)
              || negb (String.eqb (rr_approval_id (pi_requested e)) approval_id)
      then (receipt_bad_response, r)
      else
        let r := set_entries (<[rpc_id := claim e]> (entries r)) r in
        match pi_sender e with
        | None => (receipt_accepted, r)
        | Some c =>
            if received then
              (receipt_accepted,
               mkHostRegistry (hr_slots r) (hr_pending r) (hr_notices r)
                 (<[c := outcome]> (hr_sent r)) (hr_cancelled r) (hr_max_pending r) (hr_deadline r))
            else (receipt_not_pending, r)
        end
  end.

Definition observe_asked (asked : ApprovalAsked) (r : Registry) : Registry :=
  let key := pending_key asked in
  let pending := remember_relayed_asked (hr_pending r) key (hr_max_pending r) in
  let requested := pi_requested <$>
    List.find (λ e, bool_decide (pending_key_from_requested (pi_requested e) = key)
                    && negb (pi_claimed e)) (btree_values (ps_entries pending)) in
  notify (Requested <$> requested) (set_pending_state pending r).

Definition observe_decided (session_id : SessionId) (decision : ApprovalDecision) (r : Registry) :
    Registry :=
  let found := List.find (λ kv : string * PendingInteraction,
      bool_decide (pending_key_from_requested (pi_requested kv.2)
                   = (session_id, dc_approval_id decision))) (btree_list (entries r)) in
  match found with
  | None => r
  | Some (rpc_id, e) =>
      let q := pi_requested e in
      notify (Some (Resolved (mkResolved (rr_rpc_id q) (rr_session_id q) (rr_approval_id q)
                                (dc_outcome decision))))
        (set_entries (delete rpc_id (entries r)) r)
  end.

(** [cancel_pending]. *)
Definition cancel_pending (matches : PendingInteraction → bool) (r : Registry) : Registry :=
  let hit e := matches e && negb (pi_claimed e) in
  let tokens := pi_cancellation <$> filter (λ e, hit e = true) (btree_values (entries r)) in
  let r' := set_entries ((λ e, if hit e then claim e else e) <$> entries r) r in
  mkHostRegistry (hr_slots r') (hr_pending r') (hr_notices r') (hr_sent r')
    (list_to_set tokens ∪ hr_cancelled r') (hr_max_pending r') (hr_deadline r').

Definition cancel_session (session : SessionId) : Registry → Registry :=
  cancel_pending (λ e, String.eqb (rr_session_id (pi_requested e)) session).
Definition cancel_turn (session : SessionId) (turn : N) : Registry → Registry :=
  cancel_pending (λ e, String.eqb (rr_session_id (pi_requested e)) session && (pi_turn e =? turn)).
Definition cancel_all : Registry → Registry := cancel_pending (λ _, true).

(** [close] of a slot: returns whether the slot was removed. *)
Definition close_slot (g : HostApprovalRegistration) (r : Registry) :
    bool * HostApprovalRegistration * Registry :=
  let closed := mkHostRegistration (hg_session g) (hg_authority g) true in
  if hg_closed g then (false, g, r)
  else match hr_slots r !! hg_session g with
  | Some slot =>
      if same_authority (sl_authority slot) (hg_authority g) then
        (true, closed,
         cancel_pending (λ e, same_authority (pi_generation e) (hg_authority g))
           (set_slots (delete (hg_session g) (hr_slots r)) r))
      else (false, closed, r)
  | None => (false, closed, r)
  end.

(** [register_pending]; [rpc_id] and [channel] are fresh, [token] is the
    request's. *)
Definition register_pending (now : N) (live : bool) (rpc_id : string) (channel token : N)
    (session : SessionId) (authority : AgentAuthority) (asked : ApprovalAsked) (r : Registry) :
    option (N * N) * Registry :=
  if negb (String.eqb (ak_session_id asked) session) || is_empty (ak_approval_id asked) then
    (None, r)
  else match hr_slots r !! session with
  | None => (None, r)
  | Some slot =>
      if negb (same_authority (sl_authority slot) authority) || negb live then (None, r)
      else if (hr_max_pending r =? 0)%nat || (hr_max_pending r <=? size (entries r))%nat then
        (None, r)
      else
        let deadline := now + hr_deadline r in
        let requested := mkRequested rpc_id session (ak_approval_id asked) (ak_tool_name asked)
                           (ak_call_id asked) (ak_reason asked) in
        let emit := bool_decide (pending_key asked ∈ ps_relayed_asked (hr_pending r)) in
        let entry := mkPendingInteraction requested authority (ak_turn asked) token (Some channel)
                       deadline false in
        (Some (channel, deadline),
         notify (if emit then Some (Requested requested) else None)
           (set_entries (<[rpc_id := entry]> (entries r)) r))
  end.

Definition claim_timeout (approval_id : ApprovalId) (session : SessionId) (r : Registry) :
    Registry :=
  match List.find (λ kv : string * PendingInteraction,
      bool_decide (pending_key_from_requested (pi_requested kv.2) = (session, approval_id)))
      (btree_list (entries r)) with
  | None => r
  | Some (rpc_id, e) => set_entries (<[rpc_id := claim e]> (entries r)) r
  end.

(** How the wait for a browser ends: cancelled, a value or the loss of the
    sender, or the deadline. *)
Inductive AnswerEnd := EndCancelled | EndReceived (channel : N) | EndDeadline.

(** The second half of [answer], after [register_pending]. *)
Definition finish_answer (ended : AnswerEnd) (session : SessionId) (asked : ApprovalAsked)
    (r : Registry) : option bool * Registry :=
  match ended with
  | EndCancelled => (None, r)
  | EndReceived c =>
      (match hr_sent r !! c with
       | Some AllowedOnce => Some true
       | Some Rejected => Some false
       | _ => None
       end, r)
  | EndDeadline => (None, claim_timeout (ak_approval_id asked) session r)
  end.
End registry.
Arguments HostApprovalRegistration : clear implicits.
