(* ===== verification/ApprovalFacts.v ===== *)
(** * Facts about approvals: one decision, and the host's registry

    What a decision of one agent needs, and the registry of the host as a transition
    system: its invariant, that every operation keeps it, and what no operation can
    undo. *)

From S2P Require Import Prelude Json Protocol Session SessionFacts Approval ApprovalHost.

#[local] Open Scope N_scope.

Lemma elem_of_values {V} (m : gmap N V) v : v ∈ values_by_id m ↔ ∃ id, m !! id = Some v.
Proof.
  unfold values_by_id. rewrite merge_sort_Permutation, list_elem_of_fmap. split.
  - intros ([id v'] & -> & Hin). exists id. by apply elem_of_map_to_list in Hin.
  - intros [id Hid]. exists (id, v). split; [done|]. by apply elem_of_map_to_list.
Qed.

Section facts.
Context `{ProtocolWire, ApprovalWire} {A S : Type} `{SessionPersistence S}.
Context (authority : AgentAuthority).

Abbreviation log w := (st_events (s_state (aw_session w))).

(** An append of the service: the event comes last, nothing else of the world
    the others leave changes. *)
Lemma append_approval_inv t (env : AEnv A S) i kind data w r w' :
  append_approval t env i kind data w = (r, w') →
  aw_state w' = aw_state w ∧
  (r = Ok tt → ∃ seq before,
     log w' = before ++ [mkEvent kind seq 0 data (Some true) None None] ∧
     before = st_events (s_state (ae_others env i (aw_session w) (aw_backend w)).1)).
Proof.
  unfold append_approval. destruct (next_seq _) as [seq|e]; [|by intros [= <- <-]].
  destruct (ae_others _ _ _ _) as [s b].
  destruct (append _ _ s b) as [[r' s'] b'] eqn:Ha. intros [= <- <-]. split; [done|].
  apply append_events in Ha. simpl. destruct r' as [u|e]; [|done]. intros _.
  exists seq, (st_events (s_state s)). by rewrite Ha.
Qed.

Lemma waterfall_allows (env : AEnv A S) answerers asked :
  waterfall env answerers asked = AllowedOnce →
  ∃ before a after, answerers = before ++ a :: after ∧
    ae_answer env a asked = Some (Some true) ∧
    Forall (λ x, ae_answer env x asked = Some None) before.
Proof.
  induction answerers as [|a answerers IH]; simpl; [done|].
  destruct (ae_answer env a asked) as [[[]|]|] eqn:Ha; try done.
  - intros _. by exists [], a, answerers.
  - intros (before & x & after & -> & Hx & Hb)%IH. exists (a :: before), x, after.
    split_and!; [done|done|]. by constructor.
Qed.

(** What a request that was opened stands on. *)
Record open_facts (t : token) (env : AEnv A S) (request : ApprovalRequest) (turn : N)
    (w w' : AWorld A S) (o : Opened A) : Prop := {
  of_live : ae_live env 1 = true;
  of_active : active_turn (aw_session w) = Some turn;
  of_check : check 1 t = false;
  of_policy : op_policy o = ap_policy (aw_state w);
  of_hooks : op_hooks o = values_by_id (ap_hooks (aw_state w));
  of_answerers : op_answerers o =
    values_by_id (ap_answerers (aw_state w)) ++ values_by_id (ap_host_answerers (aw_state w));
  of_request : ak_request (op_asked o) = request;
  of_turn : ak_turn (op_asked o) = turn;
  of_id : ak_approval_id (op_asked o) = ae_id env;
  of_session : ak_session_id (op_asked o) = au_id authority;
  of_asked : ∃ seq before,
    log w' = before ++ [mkEvent "approval/asked" seq 0 (to_value (op_asked o)) (Some true) None None];
}.

Lemma open_request_Ok t (env : AEnv A S) request tool call reason turn w o w' :
  open_request authority t env request tool call reason turn w = (Ok o, w') →
  open_facts t env request turn w w' o.
Proof.
  unfold open_request. destruct (check 1 t) eqn:Hc; [done|]. destruct (_ || _) eqn:Hl; [done|].
  apply orb_false_iff in Hl as [Hl%negb_false_iff Ht%negb_false_iff%bool_decide_eq_true].
  destruct (next_id (aw_state w)) as [generation s] eqn:Hn.
  assert (ap_policy s = ap_policy (aw_state w) ∧ ap_hooks s = ap_hooks (aw_state w) ∧
    ap_answerers s = ap_answerers (aw_state w) ∧
    ap_host_answerers s = ap_host_answerers (aw_state w)) as (Hp & Hh & Has & Hhas).
  { by injection Hn as <- <-. }
  destruct (append_approval _ _ _ _ _ _) as [[u|e] w1] eqn:Ha; [|done].
  apply append_approval_inv in Ha as [_ Hlog]. destruct u.
  destruct (Hlog eq_refl) as (seq & before & Hw & _). intros [= <- <-].
  split; cbn; try congruence; try done. by exists seq, before.
Qed.

Lemma open_request_Err t (env : AEnv A S) request tool call reason turn w out w' :
  open_request authority t env request tool call reason turn w = (Err out, w') →
  out = Cancelled ∨ out = Rejected.
Proof.
  unfold open_request. destruct (check 1 t); [intros [= <- _]; by left|].
  destruct (_ || _); [intros [= <- _]; by right|]. destruct (next_id _) as [generation s].
  destruct (append_approval _ _ _ _ _ _) as [[u|e] w1]; [done|]. intros [= <- _]. by right.
Qed.

Lemma decide_request_allows t (env : AEnv A S) o :
  decide_request t env o = AllowedOnce →
  check 3 t = false ∧ op_policy o = Ask ∧ ae_answers_cancelled env = false ∧
  Forall (λ h, h (ak_request (op_asked o)) = Some None) (op_hooks o) ∧
  waterfall env (op_answerers o) (op_asked o) = AllowedOnce.
Proof.
  unfold decide_request. destruct (check 3 t); [done|]. destruct (existsb _ _) eqn:Hv; [done|].
  destruct (op_policy o); [|done]. destruct (ae_answers_cancelled env); [done|]. intros Hw.
  split_and!; try done. apply Forall_forall. intros h Hin.
  destruct (h _) as [[r|]|] eqn:Hh; [|done|]; exfalso; apply not_true_iff_false in Hv;
    apply Hv, existsb_exists; exists h; split; [by apply list_elem_of_In|by unfold vetoes; rewrite Hh
      |by apply list_elem_of_In|by unfold vetoes; rewrite Hh].
Qed.

(** The decided event is the last one, with the outcome that is returned; or
    the request is rejected. *)
Lemma close_request_inv t (env : AEnv A S) o outcome w out w' :
  close_request t env o outcome w = (out, w') →
  (out = Rejected ∨
   ∃ seq before, log w' = before ++ [mkEvent "approval/decided" seq 0
     (to_value (mkDecision (ak_approval_id (op_asked o)) (ak_turn (op_asked o)) out))
     (Some true) None None]) ∧
  (out = AllowedOnce →
   outcome = AllowedOnce ∧ check 4 t = false ∧ ae_live env 2 = true ∧
   active_turn (aw_session w) = Some (ak_turn (op_asked o)) ∧
   op_generation o ∈ ap_pending_decisions (aw_state w)) ∧
  op_generation o ∉ ap_pending_decisions (aw_state w').
Proof.
  unfold close_request. set (w1 := update_state _ w). set (final := if negb _ then _ else _).
  destruct (append_approval _ _ _ _ _ w1) as [r w2] eqn:Ha.
  apply append_approval_inv in Ha as [Hst Hlog].
  assert (op_generation o ∉ ap_pending_decisions (aw_state w2)) as Hgone by (rewrite Hst; set_solver).
  assert (final = AllowedOnce → outcome = AllowedOnce ∧ check 4 t = false ∧ ae_live env 2 = true ∧
    active_turn (aw_session w) = Some (ak_turn (op_asked o)) ∧
    op_generation o ∈ ap_pending_decisions (aw_state w)) as Hfinal.
  { subst final. case_bool_decide as Hp; [|done]. cbn [negb].
    destruct (allows outcome) eqn:Ho; cbn [andb].
    - destruct (check 4 t); [done|]. destruct (ae_live env 2); cbn [negb orb]; [|done].
      case_bool_decide as Ht; cbn [negb]; [|done].
      intros ?. split_and!; done.
    - intros ->. done. }
  destruct r as [[]|e]; intros [= <- <-].
  - split_and!; [|done|done]. right. destruct (Hlog eq_refl) as (seq & before & Hw & _).
    by exists seq, before.
  - split_and!; [by left|done|done].
Qed.
End facts.

(** ** Approvals: the registry as a transition system *)

#[local] Open Scope N_scope.

(** ** The relayed requests that are remembered *)

Definition relayed_wf (limit : nat) (asked : gset PendingKey) (order : list PendingKey) : Prop :=
  NoDup order ∧ asked = list_to_set order ∧ (length order ≤ limit)%nat.

Lemma forget_oldest_wf limit asked order asked' order' :
  NoDup order → asked = list_to_set order → forget_oldest limit asked order = (asked', order') →
  relayed_wf limit asked' order'.
Proof.
  revert asked. induction order as [|k order IH]; intros asked Hn Ha; cbn [forget_oldest length].
  { destruct (_ <=? _)%nat; intros [= <- <-]; split_and!; try done; simpl; lia. }
  destruct (Nat.leb_spec (S (length order)) limit) as [Hle|Hgt].
  { intros [= <- <-]. by split_and!. }
  apply NoDup_cons in Hn as [Hk Hn]. apply IH; [done|]. rewrite Ha. set_solver.
Qed.

Lemma remember_wf p key limit :
  relayed_wf limit (ps_relayed_asked p) (ps_relayed_order p) →
  let p' := remember_relayed_asked p key limit in
  relayed_wf limit (ps_relayed_asked p') (ps_relayed_order p') ∧ ps_entries p' = ps_entries p.
Proof.
  intros Hwf. pose proof Hwf as (Hn & Ha & Hl). unfold remember_relayed_asked.
  destruct (_ || _) eqn:Hb; [done|]. apply orb_false_iff in Hb as [_ Hk%bool_decide_eq_false].
  destruct (forget_oldest _ _ _) as [asked order] eqn:Hf. simpl. split; [|done].
  eapply forget_oldest_wf; [..|exact Hf].
  - apply NoDup_app. split_and!; [done| |apply NoDup_singleton].
    intros x Hx ->%list_elem_of_singleton. apply Hk. rewrite Ha. by apply elem_of_list_to_set.
  - rewrite Ha, list_to_set_app_L. simpl. set_solver.
Qed.

Section facts.
Context {H : Type}.
Abbreviation Registry := (HostApprovalRegistry H).
Abbreviation entries r := (ps_entries (hr_pending r)).

(** ** The invariant *)

(** Entries sit under their own id; a claimed entry has no sender left, an open
    one its own, over which nothing was sent; neither the entries nor the
    remembered requests exceed the limit. *)
Record registry_wf (r : Registry) : Prop := {
  rw_size : (size (entries r) ≤ hr_max_pending r)%nat;
  rw_key : ∀ id e, entries r !! id = Some e → rr_rpc_id (pi_requested e) = id;
  rw_sender : ∀ id e, entries r !! id = Some e → pi_claimed e = bool_decide (pi_sender e = None);
  rw_channel : ∀ i j e e' c, entries r !! i = Some e → entries r !! j = Some e' →
    pi_sender e = Some c → pi_sender e' = Some c → i = j;
  rw_unsent : ∀ id e c, entries r !! id = Some e → pi_sender e = Some c → hr_sent r !! c = None;
  rw_relayed : relayed_wf (hr_max_pending r) (ps_relayed_asked (hr_pending r))
                 (ps_relayed_order (hr_pending r));
  rw_slots : ∀ s slot, hr_slots r !! s = Some slot → au_id (sl_authority slot) = s;
}.

Lemma with_limits_wf n d : registry_wf (with_limits n d).
Proof.
  split; cbn; try (intros *; by rewrite lookup_empty); [rewrite map_size_empty; lia|].
  split_and!; [constructor|done|simpl; lia].
Qed.

(** Claiming or dropping entries. *)
Definition claims (m m' : gmap string PendingInteraction) : Prop :=
  (size m' ≤ size m)%nat ∧
  ∀ id e', m' !! id = Some e' → ∃ e, m !! id = Some e ∧ (e' = e ∨ e' = claim e).

Lemma claims_refl m : claims m m.
Proof. split; [done|]. intros id e He. exists e. auto. Qed.
Lemma claims_claim m id e : m !! id = Some e → claims m (<[id := claim e]> m).
Proof.
  intros He. split; [rewrite map_size_insert, He; simpl; lia|]. intros i x.
  rewrite lookup_insert. case_decide as Hi; [subst; intros [= <-]; eauto|]. intros Hx. eauto.
Qed.
Lemma claims_delete m id : claims m (delete id m).
Proof.
  split; [rewrite map_size_delete; destruct (m !! id); simpl; lia|]. intros i x [_ Hx]%lookup_delete_Some. eauto.
Qed.
Lemma claims_fmap m (hit : PendingInteraction → bool) :
  claims m ((λ e, if hit e then claim e else e) <$> m).
Proof.
  split; [by rewrite map_size_fmap|]. intros i x. rewrite lookup_fmap, fmap_Some.
  intros (e & He & ->). exists e. split; [done|]. destruct (hit e); auto.
Qed.

Lemma claims_wf r r' :
  registry_wf r → claims (entries r) (entries r') → hr_max_pending r' = hr_max_pending r →
  (∀ c o, hr_sent r' !! c = Some o → hr_sent r !! c = Some o ∨
     ∀ id e, entries r' !! id = Some e → pi_sender e ≠ Some c) →
  relayed_wf (hr_max_pending r) (ps_relayed_asked (hr_pending r'))
    (ps_relayed_order (hr_pending r')) →
  (∀ s slot, hr_slots r' !! s = Some slot → au_id (sl_authority slot) = s) → registry_wf r'.
Proof.
  intros [Hsz Hk Hs Hc Hu _ _] [Hle Hcl] Hmax Hsent Hrel Hslots.
  split; rewrite ?Hmax; [lia|..|done|done].
  - intros id e' (e & He & [->| ->])%Hcl; by apply Hk in He.
  - intros id e' (e & He & [->| ->])%Hcl; [by apply Hs in He|done].
  - intros i j x y c (e & He & [->| ->])%Hcl (e' & He' & [->| ->])%Hcl; try done. by eapply Hc.
  - intros id x c Hx Hsx. destruct (hr_sent r' !! c) as [o|] eqn:Ho; [exfalso|done].
    destruct (Hsent c o Ho) as [Ho'|Hno]; [|by eapply Hno].
    apply Hcl in Hx as (e & He & [->| ->]); [|done]. by rewrite (Hu id e c He Hsx) in Ho'.
Qed.

(** ** The steps *)

(** Any operation, with any clock and any behaviour of the other end; the
    request ids handed out satisfy [fresh] and, like channels, are new. *)
Inductive registry_step (fresh : string → Prop) : Registry → Registry → Prop :=
| rs_install live matches owner approvals registered r x r' :
    install live matches owner approvals registered r = (x, r') → registry_step fresh r r'
| rs_respond now received rpc_id session approval outcome r x r' :
    respond now received rpc_id session approval outcome r = (x, r') → registry_step fresh r r'
| rs_asked asked r : registry_step fresh r (observe_asked asked r)
| rs_decided session decision r : registry_step fresh r (observe_decided session decision r)
| rs_cancel matches r : registry_step fresh r (cancel_pending matches r)
| rs_close g r x g' r' : close_slot g r = (x, g', r') → registry_step fresh r r'
| rs_register now live rpc_id channel token session authority asked r x r' :
    fresh rpc_id → entries r !! rpc_id = None → hr_sent r !! channel = None →
    (∀ id e, entries r !! id = Some e → pi_sender e ≠ Some channel) →
    register_pending now live rpc_id channel token session authority asked r = (x, r') →
    registry_step fresh r r'
| rs_timeout approval session r : registry_step fresh r (claim_timeout approval session r).

Lemma respond_inv now received rpc_id session approval outcome (r : Registry) x r' :
  respond now received rpc_id session approval outcome r = (x, r') →
  (r' = r ∧ rc_accepted x = false) ∨
  ∃ e, entries r !! rpc_id = Some e ∧ open_entry now e = true ∧
    (outcome = AllowedOnce ∨ outcome = Rejected) ∧
    pending_key_from_requested (pi_requested e) = (session, approval) ∧
    entries r' = <[rpc_id := claim e]> (entries r) ∧ hr_slots r' = hr_slots r ∧
    hr_max_pending r' = hr_max_pending r ∧
    ps_relayed_asked (hr_pending r') = ps_relayed_asked (hr_pending r) ∧
    ps_relayed_order (hr_pending r') = ps_relayed_order (hr_pending r) ∧
    (hr_sent r' = hr_sent r ∧ (rc_accepted x = true → pi_sender e = None) ∨
     ∃ c, pi_sender e = Some c ∧ x = receipt_accepted ∧ hr_sent r' = <[c := outcome]> (hr_sent r)).
Proof.
  unfold respond. case_bool_decide as Ho; cbn [negb]; [|intros [= <- <-]; by left].
  destruct (entries r !! rpc_id) as [e|] eqn:He; [|intros [= <- <-]; by left].
  destruct (_ || _) eqn:Hopen; [intros [= <- <-]; by left|].
  apply orb_false_iff in Hopen as [Hcl Hd%N.leb_gt].
  destruct (_ || _) eqn:Hkey; [intros [= <- <-]; by left|].
  apply orb_false_iff in Hkey as [Hs%negb_false_iff%String.eqb_eq Ha%negb_false_iff%String.eqb_eq].
  intros Hr. right. exists e.
  assert (open_entry now e = true) as Hop.
  { unfold open_entry. rewrite Hcl. simpl. by apply N.ltb_lt. }
  assert (pending_key_from_requested (pi_requested e) = (session, approval)) as Hkey.
  { unfold pending_key_from_requested. congruence. }
  destruct (pi_sender e) as [c|] eqn:Hc; [destruct received|]; injection Hr as <- <-;
    (split; [done|]; split; [done|]; split; [done|]; split; [done|]; do 5 (split; [done|])).
  - right. by exists c.
  - by left.
  - by left.
Qed.

Lemma step_claims fresh r r' :
  registry_step fresh r r' →
  claims (entries r) (entries r') ∨
  ∃ now live rpc_id channel token session authority asked x,
    fresh rpc_id ∧ entries r !! rpc_id = None ∧
    register_pending now live rpc_id channel token session authority asked r = (x, r').
Proof.
  intros Hstep. destruct Hstep as
    [live matches owner approvals registered r x r' Hi|now received rpc session approval out r x r' Hr
    |asked r|session d r|matches r|g r x g' r' Hc|now live rpc ch tk session au asked r x r' Hf Hn Hs Hch Hr
    |approval session r].
  - left. unfold install in Hi. repeat case_match; simplify_eq; apply claims_refl.
  - left. apply respond_inv in Hr as [[-> _]|(e & He & _ & _ & _ & -> & _)];
      [apply claims_refl|by apply claims_claim].
  - left. unfold observe_asked. simpl. unfold remember_relayed_asked.
    destruct (_ || _); [apply claims_refl|]. destruct (forget_oldest _ _ _). apply claims_refl.
  - left. unfold observe_decided. destruct (List.find _ _) as [[id e]|]; [|apply claims_refl].
    apply claims_delete.
  - left. apply claims_fmap.
  - left. unfold close_slot in Hc. repeat case_match; simplify_eq; try apply claims_refl.
    apply claims_fmap.
  - right. by exists now, live, rpc, ch, tk, session, au, asked, x.
  - left. unfold claim_timeout. destruct (List.find _ _) as [[id e]|] eqn:Hfind; [|apply claims_refl].
    apply find_some in Hfind as [Hin%list_elem_of_In%elem_of_btree_list _].
    by apply claims_claim.
Qed.

Lemma register_pending_inv now live rpc_id channel token session authority asked (r : Registry) x r' :
  register_pending now live rpc_id channel token session authority asked r = (x, r') →
  (x = None ∧ r' = r) ∨
  ∃ requested, x = Some (channel, now + hr_deadline r) ∧ rr_rpc_id requested = rpc_id ∧
    ak_session_id asked = session ∧ (size (entries r) < hr_max_pending r)%nat ∧
    pending_key_from_requested requested = pending_key asked ∧
    (∃ slot, hr_slots r !! session = Some slot ∧ same_authority (sl_authority slot) authority = true) ∧
    entries r' = <[rpc_id := mkPendingInteraction requested authority (ak_turn asked) token
                     (Some channel) (now + hr_deadline r) false]> (entries r) ∧
    hr_sent r' = hr_sent r ∧ hr_slots r' = hr_slots r ∧ hr_max_pending r' = hr_max_pending r ∧
    ps_relayed_asked (hr_pending r') = ps_relayed_asked (hr_pending r) ∧
    ps_relayed_order (hr_pending r') = ps_relayed_order (hr_pending r).
Proof.
  unfold register_pending. destruct (_ || _) eqn:Hs; [intros [= <- <-]; by left|].
  apply orb_false_iff in Hs as [Hs%negb_false_iff%String.eqb_eq _].
  destruct (hr_slots r !! session) as [slot|] eqn:Hslot; [|intros [= <- <-]; by left].
  destruct (negb _ || _) eqn:Ha; [intros [= <- <-]; by left|].
  apply orb_false_iff in Ha as [Ha%negb_false_iff _].
  destruct (_ || _) eqn:Hsz; [intros [= <- <-]; by left|].
  apply orb_false_iff in Hsz as [_ Hsz%Nat.leb_gt]. intros [= <- <-]. right.
  exists (mkRequested rpc_id session (ak_approval_id asked) (ak_tool_name asked) (ak_call_id asked)
    (ak_reason asked)). split; [done|]. split; [done|]. split; [done|]. split; [done|].
  split; [unfold pending_key, pending_key_from_requested; simpl; congruence|].
  split; [by exists slot|]. done.
Qed.

Lemma register_wf now live rpc_id channel token session authority asked r x r' :
  registry_wf r → entries r !! rpc_id = None → hr_sent r !! channel = None →
  (∀ id e, entries r !! id = Some e → pi_sender e ≠ Some channel) →
  register_pending now live rpc_id channel token session authority asked r = (x, r') →
  registry_wf r'.
Proof.
  intros Hwf Hnew Hsent Hch [[_ ->]|(q & _ & Hid & _ & Hsz & _ & _ & He & Hsn & Hsl & Hm & Hr1 & Hr2)]%register_pending_inv;
    [done|]. destruct Hwf as [_ Hk Hs Hc Hu Hrel Hslots].
  split; rewrite ?He, ?Hsn, ?Hsl, ?Hm, ?Hr1, ?Hr2; try done.
  - rewrite map_size_insert, Hnew. lia.
  - intros i e. rewrite lookup_insert. case_decide; [intros [= <-]; by subst|apply Hk].
  - intros i e. rewrite lookup_insert. case_decide; [intros [= <-]; by subst|apply Hs].
  - intros i j e e' c. rewrite !lookup_insert. do 2 case_decide; subst; try done.
    + intros [= <-] He' [= <-] Hse'. by destruct (Hch j e' He').
    + intros He0 [= <-] Hse [= <-]. by destruct (Hch i e He0).
    + intros. by eapply Hc.
  - intros i e c. rewrite lookup_insert. case_decide; [by intros [= <-] [= <-]|apply Hu].
Qed.

Lemma observe_asked_kept asked (r : Registry) :
  let r' := observe_asked asked r in
  hr_sent r' = hr_sent r ∧ hr_slots r' = hr_slots r ∧ hr_max_pending r' = hr_max_pending r ∧
  hr_pending r' = remember_relayed_asked (hr_pending r) (pending_key asked) (hr_max_pending r).
Proof. done. Qed.

(** Steps other than registrations leave the limits and the relayed requests
    well formed, and send only over the channel of an entry they claim. *)
Lemma step_wf fresh r r' : registry_wf r → registry_step fresh r r' → registry_wf r'.
Proof.
  intros Hwf Hstep. revert Hwf. destruct Hstep as
    [live matches owner approvals registered r x r' Hi|now received rpc session approval out r x r' Hr
    |asked r|session d r|matches r|g r x g' r' Hc|now live rpc ch tk session au asked r x r' Hf Hn Hs Hch Hr
    |approval session r].
  all: intros Hwf; pose proof (rw_relayed r Hwf) as Hrel; pose proof (rw_slots r Hwf) as Hslots.
  all: assert (∀ (m : gmap string PendingInteraction) s, hr_sent r = s → ∀ c o, s !! c = Some o →
    hr_sent r !! c = Some o ∨ ∀ id e, m !! id = Some e → pi_sender e ≠ Some c) as Hsame
    by (intros m s <-; by left).
  - unfold install in Hi. repeat case_match; simplify_eq; try done.
    apply (claims_wf r); try done; [apply claims_refl|by apply Hsame|].
    intros s slot. cbn. rewrite lookup_insert. case_decide; [by intros [= <-]|apply Hslots].
  - apply respond_inv in Hr as [[-> _]|(e & He & _ & _ & _ & Hent & Hsl & Hm & Hr1 & Hr2 & Hsn)]; [done|].
    apply (claims_wf r); rewrite ?Hr1, ?Hr2, ?Hsl; try done; [by rewrite Hent; apply claims_claim|].
    destruct Hsn as [[-> _]|(c & Hce & _ & ->)]; [by apply Hsame|].
    intros c' o. rewrite lookup_insert. case_decide as Hcc; [subst c'; intros [= <-]|by left].
    right. intros id e'. rewrite Hent, lookup_insert. case_decide as Hid; [by intros [= <-]|].
    intros He' Hse'. by destruct Hid; eapply (rw_channel r Hwf).
  - destruct (remember_wf (hr_pending r) (pending_key asked) (hr_max_pending r) Hrel) as [Hrw Hre].
    apply (claims_wf r); try done; [|by apply Hsame]. cbn. rewrite Hre. apply claims_refl.
  - unfold observe_decided. destruct (List.find _ _) as [[id e]|]; [|done].
    apply (claims_wf r); try done; [apply claims_delete|by apply Hsame].
  - apply (claims_wf r); try done; [apply claims_fmap|by apply Hsame].
  - unfold close_slot in Hc. repeat case_match; simplify_eq; try done.
    apply (claims_wf r); try done; [apply claims_fmap|by apply Hsame|].
    intros s slot. cbn. intros [_ Hs]%lookup_delete_Some. by apply Hslots.
  - by eapply register_wf.
  - unfold claim_timeout. destruct (List.find _ _) as [[id e]|] eqn:Hfind; [|done].
    apply find_some in Hfind as [Hin%list_elem_of_In%elem_of_btree_list _].
    apply (claims_wf r); try done; [by apply claims_claim|by apply Hsame].
Qed.

Lemma steps_wf fresh r r' : registry_wf r → rtc (registry_step fresh) r r' → registry_wf r'.
Proof. intros Hwf Hs. induction Hs as [|x y z Hxy _ IH]; [done|]. by apply IH, (step_wf fresh x). Qed.

(** ** What cannot be undone *)

(** What was sent over a channel stays. *)
Lemma step_sent fresh r r' c o :
  registry_wf r → registry_step fresh r r' → hr_sent r !! c = Some o → hr_sent r' !! c = Some o.
Proof.
  intros Hwf Hstep. revert Hwf. destruct Hstep as
    [live matches owner approvals registered r x r' Hi|now received rpc session approval out r x r' Hr
    |asked r|session d r|matches r|g r x g' r' Hc|now live rpc ch tk session au asked r x r' Hf Hn Hs Hch Hr
    |approval session r].
  all: intros Hwf Ho.
  - unfold install in Hi. by repeat case_match; simplify_eq.
  - apply respond_inv in Hr as [[-> _]|(e & He & _ & _ & _ & _ & _ & _ & _ & _ & Hsn)]; [done|].
    destruct Hsn as [[-> _]|(c' & Hce & _ & ->)]; [done|].
    rewrite lookup_insert. case_decide; [subst|done]. by rewrite (rw_unsent r Hwf rpc e c He Hce) in Ho.
  - done.
  - unfold observe_decided. by destruct (List.find _ _) as [[id e]|].
  - done.
  - unfold close_slot in Hc. by repeat case_match; simplify_eq.
  - apply register_pending_inv in Hr as [[_ ->]|(q & _ & _ & _ & _ & _ & _ & _ & -> & _)]; done.
  - unfold claim_timeout. by destruct (List.find _ _) as [[id e]|].
Qed.

(** A request id that is spent: gone, or claimed. *)
Definition spent (rpc_id : string) (r : Registry) : Prop :=
  ∀ e, entries r !! rpc_id = Some e → pi_claimed e = true.

Lemma step_spent rpc_id r r' :
  registry_step (λ id, id ≠ rpc_id) r r' → spent rpc_id r → spent rpc_id r'.
Proof.
  intros Hstep Hsp e' He'.
  destruct (step_claims _ r r' Hstep) as [[_ Hcl]|(now & live & id & ch & tk & s & au & asked & x & Hf & _ & Hr)].
  - apply Hcl in He' as (e & He & [->| ->]); [by apply Hsp|done].
  - apply register_pending_inv in Hr as [[_ ->]|(q & _ & _ & _ & _ & _ & _ & Hent & _)]; [by apply Hsp|].
    rewrite Hent, lookup_insert_ne in He' by done. by apply Hsp.
Qed.

Lemma steps_kept rpc_id r r' c o :
  registry_wf r → spent rpc_id r → hr_sent r !! c = Some o →
  rtc (registry_step (λ id, id ≠ rpc_id)) r r' →
  registry_wf r' ∧ spent rpc_id r' ∧ hr_sent r' !! c = Some o.
Proof.
  intros Hwf Hsp Ho Hs. induction Hs as [|x y z Hxy _ IH]; [done|].
  apply IH; [by eapply step_wf|by eapply step_spent|by eapply step_sent].
Qed.

(** Nothing can be answered under a spent id. *)
Lemma respond_spent now received rpc_id session approval outcome r x r' :
  spent rpc_id r → respond now received rpc_id session approval outcome r = (x, r') →
  rc_accepted x = false ∧ r' = r.
Proof.
  intros Hsp [[-> Hx]|(e & He & Hop & _)]%respond_inv; [done|].
  unfold open_entry in Hop. by rewrite (Hsp e He) in Hop.
Qed.
End facts.
