(* ===== verification/Question.v ===== *)
(** * Questions to the user (question.rs)

    The registry of pending browser questions and the [ask] of one tool call:
    admission under the slot's lock, the durable question, the wait, and the
    durable resolution.  As for approvals, the locks make each operation of the
    registry a function; what other tasks do to the registry and the session
    between the steps of [ask] is a field of the environment. *)

From S2P Require Import Prelude Json Protocol Session Approval ApprovalHost.

#[local] Open Scope N_scope.

(** ** Questions and answers *)

Record AskUserQuestionOption := mkQOption {
  qo_label : string;
  qo_description : option string;
}.

Inductive AskUserQuestionIntent := PlanReview (approve : string).

Record AskUserQuestionItem := mkQItem {
  qi_id : string;
  qi_question : string;
  qi_detail : option string;
  qi_header : option string;
  qi_options : option (list AskUserQuestionOption);
  qi_multi_select : option bool;
  qi_intent : option AskUserQuestionIntent;
}.

Record AskUserQuestionAnswerItem := mkQAnswerItem {
  qa_id : string;
  qa_selected : list string;
  qa_custom : option string;
}.

Record AskUserQuestionAnswer := mkQAnswer { qa_answers : list AskUserQuestionAnswerItem }.

Record QuestionAsked := mkQAsked {
  qk_rpc_id : string;
  qk_session_id : SessionId;
  qk_turn : N;
  qk_call_id : ToolCallId;
  qk_questions : list AskUserQuestionItem;
}.

Inductive QuestionOutcome := QAnswered | QCancelled.

Record QuestionResolved := mkQResolved {
  qr_rpc_id : string;
  qr_turn : N;
  qr_outcome : QuestionOutcome;
  qr_answer : option AskUserQuestionAnswer;
}.

Record QuestionRequested := mkQRequested {
  qq_rpc_id : string;
  qq_session_id : SessionId;
  qq_questions : list AskUserQuestionItem;
}.

Record QuestionResolvedNotice := mkQNotice {
  qn_rpc_id : string;
  qn_session_id : SessionId;
  qn_outcome : QuestionOutcome;
}.

Inductive QuestionNotification :=
| QRequested (r : QuestionRequested)
| QResolved (r : QuestionResolvedNotice).

Inductive QuestionReply := ReplyAnswered (answer : AskUserQuestionAnswer) | ReplyCancelled.

(** The derived serialisers of the two durable records. *)
Class QuestionWire := {
  wire_question_asked :: Wire QuestionAsked;
  wire_question_resolved :: Wire QuestionResolved;
}.

Definition question_error (code message : string) (details : Value) : TessivumError :=
  TessivumError_new code message "question" details.

Definition options_of (q : AskUserQuestionItem) : list AskUserQuestionOption :=
  default [] (qi_options q).
Definition offers (q : AskUserQuestionItem) (label : string) : bool :=
  existsb (λ o, String.eqb (qo_label o) label) (options_of q).

Fixpoint validate_intents (questions : list AskUserQuestionItem) : option TessivumError :=
  match questions with
  | [] => None
  | q :: rest =>
      match qi_intent q with
      | None => validate_intents rest
      | Some (PlanReview approve) =>
          if negb (offers q approve) || bool_decide (qi_detail q = None) then
            Some (question_error "BAD_INTENT"
                    "question intent must name one of its options and include detail"
                    (json_object [("questionId", VString (qi_id q))]))
          else validate_intents rest
      end
  end.

(** The closure of [all] in [matches_answer]. *)
Definition matches_item (a : AskUserQuestionAnswerItem) (q : AskUserQuestionItem) : bool :=
  String.eqb (qa_id a) (qi_id q)
  && (size (list_to_set (C := gset string) (qa_selected a)) =? length (qa_selected a))%nat
  && match qa_custom a with None => true | Some custom => negb (blank custom) end
  && (bool_decide (qi_multi_select q = Some true)
      || ((length (qa_selected a) <=? 1)%nat
          && (bool_decide (qa_custom a = None) || (length (qa_selected a) =? 0)%nat)))
  && forallb (offers q) (qa_selected a).

Definition matches_answer (answer : AskUserQuestionAnswer) (questions : list AskUserQuestionItem) :
    bool :=
  (length (qa_answers answer) =? length questions)%nat
  && forallb (λ p, matches_item p.1 p.2) (zip (qa_answers answer) questions).

(** ** The registry *)

(** Slots hold the authority; the session it shares with its agent is the one
    of the asking world.  A oneshot channel is a number, [qs_sent] what was sent
    over it. *)
Record PendingQuestion := mkPendingQuestion {
  pq_requested : QuestionRequested;
  pq_authority : AgentAuthority;
  pq_turn : N;
  pq_sender : N;
}.

Record HostQuestionRegistry := mkQRegistry {
  qs_slots : gmap SessionId AgentAuthority;
  qs_entries : gmap string PendingQuestion;
  qs_order : list string;
  qs_sent : gmap N QuestionReply;
  qs_notices : list QuestionNotification;
}.
Definition HostQuestionRegistry_new : HostQuestionRegistry := mkQRegistry ∅ ∅ [] ∅ [].

(** Sending fails when the waiting end is gone. *)
Definition send (received : bool) (c : N) (reply : QuestionReply) (r : HostQuestionRegistry) :
    RpcReceipt * HostQuestionRegistry :=
  if received then
    (receipt_accepted, mkQRegistry (qs_slots r) (qs_entries r) (qs_order r)
                         (<[c := reply]> (qs_sent r)) (qs_notices r))
  else (receipt_not_pending, r).

Definition remove_pending (rpc_id : string) (r : HostQuestionRegistry) : HostQuestionRegistry :=
  mkQRegistry (qs_slots r) (delete rpc_id (qs_entries r)) (filter (λ id, id ≠ rpc_id) (qs_order r))
    (qs_sent r) (qs_notices r).

Definition notify_question (n : QuestionNotification) (r : HostQuestionRegistry) :
    HostQuestionRegistry :=
  mkQRegistry (qs_slots r) (qs_entries r) (qs_order r) (qs_sent r) (qs_notices r ++ [n]).

Record HostQuestionRegistration := mkQRegistration {
  qg_session : SessionId;
  qg_authority : AgentAuthority;
  qg_closed : bool;
}.

Definition install (live : bool) (authority : AgentAuthority) (session_id : SessionId)
    (r : HostQuestionRegistry) : result TessivumError HostQuestionRegistration * HostQuestionRegistry :=
  if negb live || negb (String.eqb (au_id authority) session_id) then
    (Err (question_error "CALLER_NOT_LIVE"
            "human interaction requires the exact live calling agent" VNull), r)
  else match qs_slots r !! session_id with
  | Some _ =>
      (Err (question_error "DUPLICATE_PROVIDER"
              "a user-questions provider is already registered for this session" VNull), r)
  | None =>
      (Ok (mkQRegistration session_id authority false),
       mkQRegistry (<[session_id := authority]> (qs_slots r)) (qs_entries r) (qs_order r)
         (qs_sent r) (qs_notices r))
  end.

(** In insertion order. *)
Definition snapshots (r : HostQuestionRegistry) : list QuestionRequested :=
  omap (λ id, pq_requested <$> qs_entries r !! id) (qs_order r).

Definition is_pending (rpc_id : string) (r : HostQuestionRegistry) : bool :=
  bool_decide (is_Some (qs_entries r !! rpc_id)).

Definition respond_answer (received : bool) (rpc_id : string) (session_id : SessionId)
    (answer : AskUserQuestionAnswer) (r : HostQuestionRegistry) :
    RpcReceipt * HostQuestionRegistry :=
  match qs_entries r !! rpc_id with
  | None => (receipt_not_pending, r)
  | Some e =>
      if negb (String.eqb (qq_session_id (pq_requested e)) session_id)
         || negb (matches_answer answer (qq_questions (pq_requested e)))
      then (receipt_bad_response, r)
      else send received (pq_sender e) (ReplyAnswered answer) (remove_pending rpc_id r)
  end.

Definition respond_cancelled (received : bool) (rpc_id : string) (r : HostQuestionRegistry) :
    RpcReceipt * HostQuestionRegistry :=
  match qs_entries r !! rpc_id with
  | None => (receipt_not_pending, r)
  | Some e => send received (pq_sender e) ReplyCancelled (remove_pending rpc_id r)
  end.

(** [cancel_where]; the sends fail when nobody waits, which changes nothing
    that anybody sees. *)
Definition cancel_where (matches : PendingQuestion → bool) (r : HostQuestionRegistry) :
    HostQuestionRegistry :=
  let hit id := match qs_entries r !! id with Some e => matches e | None => false end in
  let ids := filter (λ id, hit id = true) (qs_order r) in
  let senders := omap (λ id, pq_sender <$> qs_entries r !! id) ids in
  let entries := foldl (λ m id, delete id m) (qs_entries r) ids in
  mkQRegistry (qs_slots r) entries
    (filter (λ id, is_Some (entries !! id)) (qs_order r))
    (foldl (λ m c, <[c := ReplyCancelled]> m) (qs_sent r) senders) (qs_notices r).

Definition cancel_session (session_id : SessionId) : HostQuestionRegistry → HostQuestionRegistry :=
  cancel_where (λ e, String.eqb (qq_session_id (pq_requested e)) session_id).
Definition cancel_turn (session_id : SessionId) (turn : N) :
    HostQuestionRegistry → HostQuestionRegistry :=
  cancel_where (λ e, String.eqb (qq_session_id (pq_requested e)) session_id && (pq_turn e =? turn)).
Definition cancel_all : HostQuestionRegistry → HostQuestionRegistry := cancel_where (λ _, true).

Definition close_question_slot (g : HostQuestionRegistration) (r : HostQuestionRegistry) :
    bool * HostQuestionRegistration * HostQuestionRegistry :=
  let closed := mkQRegistration (qg_session g) (qg_authority g) true in
  if qg_closed g then (false, g, r)
  else match qs_slots r !! qg_session g with
  | Some authority =>
      if same_authority authority (qg_authority g) then
        (true, closed,
         cancel_where (λ e, same_authority (pq_authority e) (qg_authority g))
           (mkQRegistry (delete (qg_session g) (qs_slots r)) (qs_entries r) (qs_order r)
              (qs_sent r) (qs_notices r)))
      else (false, closed, r)
  | None => (false, closed, r)
  end.

(** ** Asking *)

Record QWorld (S : Type) := mkQWorld {
  qw_registry : HostQuestionRegistry;
  qw_session : Session;
  qw_backend : S;
}.
Arguments mkQWorld {S} _ _ _.
Arguments qw_registry {S} _.
Arguments qw_session {S} _.
Arguments qw_backend {S} _.

(** [qe_live] is what [is_live] of an authority answers at each inspection;
    [qe_cancelled] whether the wait ended by cancellation; [qe_others] and
    [qe_between] what others do at an append and between two steps. *)
Record QEnv (S : Type) := mkQEnv {
  qe_live : nat → AgentAuthority → bool;
  qe_rpc_id : string;
  qe_channel : N;
  qe_cancelled : bool;
  qe_others : nat → Session → S → Session * S;
  qe_between : nat → QWorld S → QWorld S;
}.
Arguments mkQEnv {S} _ _ _ _ _ _.
Arguments qe_live {S} _ _ _.
Arguments qe_rpc_id {S} _.
Arguments qe_channel {S} _.
Arguments qe_cancelled {S} _.
Arguments qe_others {S} _ _ _ _.
Arguments qe_between {S} _ _ _.

Section ask.
Context `{ProtocolWire, QuestionWire} {S : Type} `{SessionPersistence S}.
(** [SessionError] as text. *)
Context (error_text : SessionError → string).
Abbreviation W := (QWorld S).
Abbreviation Env := (QEnv S).

Definition update_registry (f : HostQuestionRegistry → HostQuestionRegistry) (w : W) : W :=
  mkQWorld (f (qw_registry w)) (qw_session w) (qw_backend w).

Definition append_question (t : token) (env : Env) (i : nat) (kind : string) (data : Value) (w : W) :
    result SessionError unit * W :=
  match next_seq (st_events (s_state (qw_session w))) with
  | Err e => (Err e, w)
  | Ok seq =>
      let '(s, b) := qe_others env i (qw_session w) (qw_backend w) in
      let '(r, s', b') := append t (mkEvent kind seq 0 data (Some true) None None) s b in
      (r, mkQWorld (qw_registry w) s' b')
  end.

Definition not_live : TessivumError :=
  question_error "CALLER_NOT_LIVE" "human interaction requires the exact live calling agent" VNull.
Definition missing_agent : TessivumError :=
  question_error "ASK_MISSING_AGENT" "web user interaction requires an agent-owned session" VNull.

(** The checks before anything is registered. *)
Definition check_ask (t : token) (env : Env) (session : SessionId)
    (questions : list AskUserQuestionItem) (w : W) : result TessivumError (AgentAuthority * N) :=
  if bool_decide (questions = []) then
    Err (question_error "EMPTY_QUESTIONS" "ask_user_question requires at least one question" VNull)
  else match validate_intents questions with
  | Some error => Err error
  | None =>
      if check 0 t then
        Err (question_error "ASK_ABORTED"
               "ask_user_question was aborted before the user answered" VNull)
      else match qs_slots (qw_registry w) !! session with
      | None => Err missing_agent
      | Some authority =>
          if negb (qe_live env 0 authority) then Err not_live
          else match active_turn (qw_session w) with
          | None => Err (question_error "NO_ACTIVE_TURN"
                           "ask_user_question requires an active turn" VNull)
          | Some turn => Ok (authority, turn)
          end
      end
  end.

(** The registration, under the lock of the slots. *)
Definition register_question (env : Env) (session : SessionId)
    (questions : list AskUserQuestionItem) (authority : AgentAuthority) (turn : N) (w : W) :
    result TessivumError W :=
  match qs_slots (qw_registry w) !! session with
  | None => Err missing_agent
  | Some slot =>
      if negb (same_authority slot authority) || negb (qe_live env 1 authority)
         || negb (bool_decide (active_turn (qw_session w) = Some turn))
      then Err not_live
      else
        let entry := mkPendingQuestion (mkQRequested (qe_rpc_id env) session questions) authority
                       turn (qe_channel env) in
        Ok (update_registry (λ r, mkQRegistry (qs_slots r) (<[qe_rpc_id env := entry]> (qs_entries r))
              (qs_order r ++ [qe_rpc_id env]) (qs_sent r) (qs_notices r)) w)
  end.

(** What the wait yields: cancellation first, then the channel. *)
Definition reply_of (env : Env) (w : W) : QuestionReply :=
  if qe_cancelled env then ReplyCancelled
  else default ReplyCancelled (qs_sent (qw_registry w) !! qe_channel env).

Definition is_live_owner (env : Env) (i : nat) (session : SessionId) (w : W) : bool :=
  match qs_slots (qw_registry w) !! session with
  | Some authority => qe_live env i authority
  | None => false
  end.

(** From the reply to the result: the resolution is made durable first. *)
Definition finish_ask (t : token) (env : Env) (session : SessionId) (turn : N) (w : W) :
    result TessivumError AskUserQuestionAnswer * W :=
  let answer := match reply_of env w with
                | ReplyAnswered answer =>
                    if negb (check 1 t) && bool_decide (active_turn (qw_session w) = Some turn)
                       && is_live_owner env 2 session w
                    then Some answer else None
                | ReplyCancelled => None
                end in
  let outcome := match answer with Some _ => QAnswered | None => QCancelled end in
  let id := qe_rpc_id env in
  match append_question live_token env 1 "question/resolved"
          (to_value (mkQResolved id turn outcome answer)) w with
  | (Err e, w') =>
      (Err (question_error "QUESTION_PERSISTENCE_FAILED"
              "could not persist ask_user_question resolution"
              (json_object [("cause", VString (error_text e))])),
       update_registry (remove_pending id) w')
  | (Ok _, w') =>
      (ok_or answer (question_error "ASK_CANCELLED" "the user cancelled ask_user_question" VNull),
       update_registry (λ r, notify_question (QResolved (mkQNotice id session outcome))
                               (remove_pending id r)) w')
  end.

Definition ask (t : token) (env : Env) (session : SessionId) (call : ToolCallId)
    (questions : list AskUserQuestionItem) (w : W) :
    result TessivumError AskUserQuestionAnswer * W :=
  match check_ask t env session questions w with
  | Err e => (Err e, w)
  | Ok (authority, turn) =>
      match register_question env session questions authority turn (qe_between env 0 w) with
      | Err e => (Err e, qe_between env 0 w)
      | Ok w1 =>
          match append_question (sub 2 t) env 0 "question/asked"
                  (to_value (mkQAsked (qe_rpc_id env) session turn call questions)) w1 with
          | (Err e, w2) =>
              (Err (question_error "QUESTION_PERSISTENCE_FAILED"
                      "could not persist ask_user_question"
                      (json_object [("cause", VString (error_text e))])),
               update_registry (remove_pending (qe_rpc_id env)) w2)
          | (Ok _, w2) =>
              let requested := mkQRequested (qe_rpc_id env) session questions in
              finish_ask t env session turn
                (qe_between env 1 (update_registry (notify_question (QRequested requested)) w2))
          end
      end
  end.
End ask.
