(* ===== verification/QuestionFacts.v ===== *)
(** * Questions: the pending table and what an answer stands on *)

From S2P Require Import Prelude Json Protocol Session SessionFacts Approval ApprovalHost Question.

#[local] Open Scope N_scope.

(** ** The pending table *)

(** The order lists the pending ids, each once. *)
Definition pending_wf (r : HostQuestionRegistry) : Prop :=
  NoDup (qs_order r) ∧ ∀ id, id ∈ qs_order r ↔ is_Some (qs_entries r !! id).

Lemma remove_pending_wf id r : pending_wf r → pending_wf (remove_pending id r).
Proof.
  intros [Hn Ho]. split; simpl; [by apply NoDup_filter|]. intros i.
  rewrite list_elem_of_filter, Ho, lookup_delete_is_Some. naive_solver.
Qed.

Lemma send_kept received c reply r x r' :
  send received c reply r = (x, r') →
  qs_entries r' = qs_entries r ∧ qs_order r' = qs_order r ∧ qs_slots r' = qs_slots r ∧
  rc_accepted x = received ∧
  qs_sent r' = if received then <[c := reply]> (qs_sent r) else qs_sent r.
Proof. unfold send. destruct received; by intros [= <- <-]. Qed.

Lemma pending_wf_eq r r' :
  pending_wf r → qs_entries r' = qs_entries r → qs_order r' = qs_order r → pending_wf r'.
Proof. unfold pending_wf. by intros Hwf -> ->. Qed.

Lemma deleted_lookup (ids : list string) (m : gmap string PendingQuestion) id :
  foldl (λ m id, delete id m) m ids !! id =
  if bool_decide (id ∈ ids) then None else m !! id.
Proof.
  revert m. induction ids as [|i ids IH]; intros m; simpl; [done|]. rewrite IH.
  destruct (decide (id = i)) as [->|Hne].
  - rewrite (bool_decide_eq_true_2 (i ∈ i :: ids)) by set_solver. case_bool_decide; [done|].
    apply lookup_delete_eq.
  - rewrite lookup_delete_ne by done. rewrite (bool_decide_ext (id ∈ i :: ids) (id ∈ ids)); [done|].
    set_solver.
Qed.

Lemma cancel_where_wf matches r : pending_wf r → pending_wf (cancel_where matches r).
Proof.
  intros [Hn Ho]. split; simpl; [by apply NoDup_filter|]. intros i.
  rewrite list_elem_of_filter. split; [tauto|]. intros Hi. split; [done|].
  rewrite deleted_lookup in Hi. case_bool_decide; [by destruct Hi|]. by apply Ho.
Qed.

(** Exactly the entries that match are gone. *)
Lemma cancel_where_lookup matches r id :
  pending_wf r →
  qs_entries (cancel_where matches r) !! id =
    match qs_entries r !! id with
    | Some e => if matches e then None else Some e
    | None => None
    end.
Proof.
  intros [_ Ho]. simpl. rewrite deleted_lookup. case_bool_decide as Hid.
  - apply list_elem_of_filter in Hid as [Hm Hid]. destruct (qs_entries r !! id) as [e|]; [|done].
    by rewrite Hm.
  - destruct (qs_entries r !! id) as [e|] eqn:He; [|done]. destruct (matches e) eqn:Hm; [|done].
    destruct Hid. apply list_elem_of_filter. rewrite He. split; [done|]. apply Ho. by exists e.
Qed.

Section ask.
Context `{ProtocolWire, QuestionWire} {S : Type} `{SessionPersistence S}.
Context (error_text : SessionError → string).
Abbreviation log w := (st_events (s_state (qw_session w))).

Lemma append_question_inv t (env : QEnv S) i kind data w r w' :
  append_question t env i kind data w = (r, w') →
  qw_registry w' = qw_registry w ∧
  (r = Ok tt → ∃ seq before, log w' = before ++ [mkEvent kind seq 0 data (Some true) None None]).
Proof.
  unfold append_question. destruct (next_seq _) as [seq|e]; [|by intros [= <- <-]].
  destruct (qe_others _ _ _ _) as [s b].
  destruct (append _ _ s b) as [[r' s'] b'] eqn:Ha. intros [= <- <-]. split; [done|].
  apply append_events in Ha. simpl. intros ->. exists seq, (st_events (s_state s)). by rewrite Ha.
Qed.

(** The checks that an opened question passed. *)
Lemma check_ask_Ok t (env : QEnv S) session questions w authority turn :
  check_ask t env session questions w = Ok (authority, turn) →
  questions ≠ [] ∧ validate_intents questions = None ∧ check 0 t = false ∧
  qs_slots (qw_registry w) !! session = Some authority ∧ qe_live env 0 authority = true ∧
  active_turn (qw_session w) = Some turn.
Proof.
  unfold check_ask. case_bool_decide; [done|]. destruct (validate_intents questions); [done|].
  destruct (check 0 t); [done|]. destruct (qs_slots _ !! session) as [a|]; [|done].
  destruct (qe_live env 0 a) eqn:Hl; cbn [negb]; [|done].
  destruct (active_turn _) as [n|]; [|done]. intros [= <- <-]. by split_and!.
Qed.

Lemma register_question_Ok (env : QEnv S) session questions authority turn w w' :
  register_question env session questions authority turn w = Ok w' →
  qs_entries (qw_registry w') !! qe_rpc_id env =
    Some (mkPendingQuestion (mkQRequested (qe_rpc_id env) session questions) authority turn
            (qe_channel env)) ∧
  qw_session w' = qw_session w ∧ active_turn (qw_session w) = Some turn ∧
  qe_live env 1 authority = true.
Proof.
  unfold register_question. destruct (qs_slots _ !! session); [|done].
  destruct (_ || _) eqn:Hb; [done|]. intros [= <-].
  apply orb_false_iff in Hb as [[_ Hl%negb_false_iff]%orb_false_iff
    Ht%negb_false_iff%bool_decide_eq_true].
  split_and!; try done. apply lookup_insert_eq.
Qed.

Lemma finish_ask_Ok t (env : QEnv S) session turn w answer w' :
  finish_ask error_text t env session turn w = (Ok answer, w') →
  qe_cancelled env = false ∧ qs_sent (qw_registry w) !! qe_channel env = Some (ReplyAnswered answer) ∧
  check 1 t = false ∧ active_turn (qw_session w) = Some turn ∧ is_live_owner env 2 session w = true ∧
  qs_entries (qw_registry w') !! qe_rpc_id env = None ∧
  ∃ seq before, log w' = before ++
    [mkEvent "question/resolved" seq 0
       (to_value (mkQResolved (qe_rpc_id env) turn QAnswered (Some answer))) (Some true) None None].
Proof.
  unfold finish_ask. set (given := match reply_of env w with ReplyAnswered _ => _ | _ => _ end).
  destruct (append_question _ _ _ _ _ w) as [[[]|e] w1] eqn:Ha; [|done].
  destruct given as [a|] eqn:Hg; [|done]. intros [= <- <-].
  apply append_question_inv in Ha as [Hr Hlog]. destruct (Hlog eq_refl) as (seq & before & Hw).
  unfold given, reply_of in Hg. destruct (qe_cancelled env); [done|].
  destruct (qs_sent _ !! _) as [[x|]|]; [|done|done]. cbn in Hg. case_match eqn:Hc; [|done].
  injection Hg as ->. apply andb_true_iff in Hc as [[Hck%negb_true_iff Hturn%bool_decide_eq_true]%andb_true_iff Howner].
  split_and!; try done; [cbn; apply lookup_delete_eq|]. by exists seq, before.
Qed.
End ask.

(** ** Answers *)

Lemma list_to_set_size (l : list string) :
  size (list_to_set (C := gset string) l) = length l ↔ NoDup l.
Proof.
  split; [|apply size_list_to_set].
  induction l as [|x l IH]; [constructor|]. intros Hs. simpl in Hs.
  assert (size (list_to_set (C := gset string) l) ≤ length l)%nat as Hle.
  { clear. induction l as [|x l IH]; cbn [list_to_set length]; [exact (Nat.eq_le_incl _ _ size_empty)|].
    rewrite size_union_alt, size_singleton.
    assert (size (list_to_set l ∖ {[x]} : gset string) ≤ size (list_to_set (C := gset string) l))%nat
      by (apply subseteq_size; set_solver). lia. }
  destruct (decide (x ∈ l)) as [Hin|Hin].
  - rewrite subseteq_union_1_L in Hs; [simpl in Hs; lia|]. set_solver.
  - rewrite size_union, size_singleton in Hs by set_solver. constructor; [done|]. apply IH. lia.
Qed.

(** What a valid answer to one question is. *)
Record answers (a : AskUserQuestionAnswerItem) (q : AskUserQuestionItem) : Prop := {
  an_id : qa_id a = qi_id q;
  an_distinct : NoDup (qa_selected a);
  an_custom : ∀ custom, qa_custom a = Some custom → blank custom = false;
  an_single : qi_multi_select q ≠ Some true →
    (length (qa_selected a) ≤ 1)%nat ∧ (qa_custom a = None ∨ qa_selected a = []);
  an_offered : ∀ s, s ∈ qa_selected a → ∃ o, o ∈ options_of q ∧ qo_label o = s;
}.

Lemma offers_iff q s : offers q s = true ↔ ∃ o, o ∈ options_of q ∧ qo_label o = s.
Proof.
  unfold offers. rewrite existsb_exists. split.
  - intros (o & Hin%list_elem_of_In & Ho%String.eqb_eq). by exists o.
  - intros (o & Hin%list_elem_of_In & Ho%String.eqb_eq). by exists o.
Qed.

Lemma matches_item_iff a q : matches_item a q = true ↔ answers a q.
Proof.
  unfold matches_item. rewrite !andb_true_iff, orb_true_iff, andb_true_iff, orb_true_iff,
    !bool_decide_eq_true, String.eqb_eq, !Nat.eqb_eq, Nat.leb_le, forallb_forall, list_to_set_size.
  split.
  - intros [[[[Hid Hn] Hc] Hs] Ho]. split; [done|done|..].
    + intros custom Hcu. rewrite Hcu in Hc. by apply negb_true_iff.
    + intros Hm. destruct Hs as [?|[? Hs]]; [done|]. split; [done|].
      destruct Hs as [?|?%nil_length_inv]; auto.
    + intros s Hin. apply offers_iff, Ho. by apply list_elem_of_In.
  - intros [Hid Hn Hc Hs Ho]. split_and!; [done|done|..].
    + destruct (qa_custom a) as [custom|]; [|done]. by rewrite (Hc custom eq_refl).
    + destruct (decide (qi_multi_select q = Some true)) as [?|Hm]; [by left|right].
      destruct (Hs Hm) as [? [?| ->]]; auto.
    + intros s Hin%list_elem_of_In. by apply offers_iff, Ho.
Qed.

Lemma matches_answer_iff answer questions :
  matches_answer answer questions = true ↔ Forall2 answers (qa_answers answer) questions.
Proof.
  unfold matches_answer. rewrite andb_true_iff, Nat.eqb_eq, forallb_forall.
  generalize (qa_answers answer). intros l. revert questions.
  induction l as [|a l IH]; intros [|q questions]; simpl.
  - split; [constructor|]. split; [done|]. intros ? [].
  - split; [by intros [??]|]. by intros Hf%Forall2_nil_cons_inv.
  - split; [by intros [??]|]. by intros Hf%Forall2_cons_nil_inv.
  - rewrite Forall2_cons, <-IH, <-matches_item_iff. split.
    + intros [[= Hl] Hall]. split; [apply (Hall (a, q)); by left|]. split; [done|].
      intros p Hp. apply Hall. by right.
    + intros (Hm & Hl & Hall). split; [congruence|]. intros p [<-|Hp]; [done|by apply Hall].
Qed.
