(* ===== verification/Permissions.v ===== *)
(** * Permission presets (permissions.rs)

    The canonical presets, the three durable facts of a session and their fold,
    the preset a session is currently in, the validator of the setting and the
    policy text shown to the model. *)

From S2P Require Import Prelude Json Protocol Session Approval.

#[local] Open Scope N_scope.

(** [sandbox.rs]: [SandboxMode]. *)
Inductive SandboxMode := ReadOnly | WorkspaceWrite | DangerFullAccess.
#[export] Instance SandboxMode_eq_dec : EqDecision SandboxMode.
Proof. solve_decision. Defined.

Definition PERMISSION_SETTINGS_NAMESPACE : string := "permission".
Definition DEFAULT_PERMISSION_PRESET : string := "workspace-write".
Definition CUSTOM_PERMISSION_PRESET : string := "custom".

Record PermissionPreset := mkPreset {
  pp_name : string;
  pp_sandbox : SandboxMode;
  pp_approval : ApprovalPolicy;
  pp_description : string;
}.

Definition PRESETS : list PermissionPreset :=
  [mkPreset "read-only" ReadOnly Ask
     "Keep sandbox-enforced writes read-only; supported workspace-write escalations require approval.";
   mkPreset "workspace-write" WorkspaceWrite Ask
     "Allow sandboxed commands to write in the workspace and permitted temporary directories; capability file tools stay workspace-confined.";
   mkPreset "danger-full-access" DangerFullAccess Never
     "Run commands without sandbox confinement or approval prompts; capability file tools stay workspace-confined."].

Definition preset (name : string) : option PermissionPreset :=
  List.find (λ p, String.eqb (pp_name p) name) PRESETS.
Definition preset_names : list string := pp_name <$> PRESETS.

(** ** The setting *)

(** The validator of [settings_registration]. *)
Definition valid_default_preset (value : Value) : bool :=
  match as_object value with
  | Some object =>
      (length object =? 1)%nat &&
      match obj_get "defaultPreset" object ≫= as_str with
      | Some candidate => bool_decide (candidate ∈ preset_names)
      | None => false
      end
  | None => false
  end.

Definition validate_setting (value : Value) : result TessivumError unit :=
  if valid_default_preset value then Ok tt
  else Err (TessivumError_new "INVALID_SETTINGS_VALUE"
              ("permission.defaultPreset must be one of " +:+ String.concat ", " preset_names)
              "settings"
              (json_object [("namespace", VString PERMISSION_SETTINGS_NAMESPACE);
                            ("field", VString "defaultPreset")])).

(** ** The durable facts *)

Record PermissionKnobs := mkKnobs {
  pk_preset : option string;
  pk_sandbox : option SandboxMode;
  pk_approval : option ApprovalPolicy;
}.
Definition PermissionKnobs_default : PermissionKnobs := mkKnobs None None None.

Definition select_preset (name : string) (k : PermissionKnobs) : PermissionKnobs :=
  mkKnobs (Some name) (pk_sandbox k) (pk_approval k).

(** [apply]: the new facts, and whether the event is a permission fact at all. *)
Definition apply (k : PermissionKnobs) (event : SessionEvent) : bool * PermissionKnobs :=
  if String.eqb (event_type event) "permission/preset" then
    (true, match get_str "preset" (ev_data event) with
           | Some name => mkKnobs (Some name) (pk_sandbox k) (pk_approval k)
           | None => k
           end)
  else if String.eqb (event_type event) "sandbox/mode" then
    (true, match get_str "mode" (ev_data event) with
           | Some mode =>
               if String.eqb mode "read-only" then
                 mkKnobs (pk_preset k) (Some ReadOnly) (pk_approval k)
               else if String.eqb mode "workspace-write" then
                 mkKnobs (pk_preset k) (Some WorkspaceWrite) (pk_approval k)
               else if String.eqb mode "danger-full-access" then
                 mkKnobs (pk_preset k) (Some DangerFullAccess) (pk_approval k)
               else k
           | None => k
           end)
  else if String.eqb (event_type event) "approval/policy" then
    (true, match get_str "policy" (ev_data event) with
           | Some policy =>
               if String.eqb policy "ask" then mkKnobs (pk_preset k) (pk_sandbox k) (Some Ask)
               else if String.eqb policy "never" then
                 mkKnobs (pk_preset k) (pk_sandbox k) (Some Never)
               else k
           | None => k
           end)
  else (false, k).

Definition fold (events : list SessionEvent) : PermissionKnobs :=
  foldl (λ k event, (apply k event).2) PermissionKnobs_default events.

(** ** The current preset *)

Definition effective_sandbox (k : PermissionKnobs) : SandboxMode :=
  default WorkspaceWrite (pk_sandbox k).
Definition effective_approval (k : PermissionKnobs) : ApprovalPolicy :=
  default Ask (pk_approval k).

Definition describes (k : PermissionKnobs) (p : PermissionPreset) : bool :=
  bool_decide (pp_sandbox p = effective_sandbox k)
  && bool_decide (pp_approval p = effective_approval k).

Definition current (k : PermissionKnobs) : string :=
  let first := match List.find (describes k) PRESETS with
               | Some p => pp_name p
               | None => CUSTOM_PERMISSION_PRESET
               end in
  match pk_preset k ≫= preset with
  | Some selected => if describes k selected then pp_name selected else first
  | None => first
  end.

Definition preset_option (value name description : string) : Value :=
  json_object [("value", VString value); ("name", VString name);
               ("description", VString description)].

Definition select (k : PermissionKnobs) : Value :=
  let current_value := current k in
  let options := (λ p, preset_option (pp_name p) (pp_name p) (pp_description p)) <$> PRESETS in
  let custom :=
    if String.eqb current_value CUSTOM_PERMISSION_PRESET then
      [preset_option CUSTOM_PERMISSION_PRESET "Custom"
         "Current sandbox and approval settings do not match a preset."]
    else [] in
  json_object [("options", VArray (options ++ custom)); ("currentValue", VString current_value)].

(** ** The text shown to the model *)

Definition sandbox_text (mode : SandboxMode) : string :=
  match mode with
  | ReadOnly => "Standing Tessivum sandbox policy: read-only. Sandbox-enforced operations cannot modify files without an approved workspace-write escalation. Do not refuse a required workspace modification from this policy alone: try an available tool normally and follow any denial and escalation guidance it returns."
  | WorkspaceWrite => "Standing Tessivum sandbox policy: workspace-write. Sandbox-enforced operations may modify files in the session workspace and permitted temporary directories."
  | DangerFullAccess => "Standing Tessivum sandbox policy: danger-full-access. Sandbox-enforced commands may access files outside the session workspace."
  end.
Definition approval_text (policy : ApprovalPolicy) : string :=
  match policy with
  | Ask => "Approval policy: ask. Operations that support escalation may ask through the configured answerers; without an available answerer, the request fails closed."
  | Never => "Approval policy: never. Actions that require approval are rejected automatically; do not request sandbox escalation (do not set `sandbox_permissions`)."
  end.
Definition file_tools_text : string :=
  "Tessivum's `read`, `write`, `edit`, `read_image`, `glob`, and `grep` file tools accept workspace-relative paths and validated absolute paths contained in the session workspace. These capability file tools remain workspace-confined in every sandbox mode, including danger-full-access.".

(** The zone of the last user message that names one. *)
Definition client_time_zone (event : SessionEvent) : option string :=
  if String.eqb (event_type event) "user/message" then
    source ← get "source" (ev_data event); zone ← get "clientTimeZone" source; as_str zone
  else None.

(** [to_string] is serde's rendering of a string. *)
Definition runtime_context (to_string : Value → string) (events : list SessionEvent)
    (workspace : option string) : string :=
  let k := fold events in
  let workspace := match workspace with
                   | None => "Session workspace: unavailable."
                   | Some w => "Session workspace: " +:+ to_string (VString w) +:+ "."
                   end in
  let browser_time := match head (omap client_time_zone (rev events)) with
                      | None => "Browser time zone for this request: unavailable. Ask the user to clarify otherwise-unqualified dates and times."
                      | Some zone => "Browser time zone for this request: " +:+ zone +:+ ". Interpret otherwise-unqualified dates and times in this zone."
                      end in
  "Current Tessivum runtime context. This authoritative snapshot supersedes earlier runtime-context snapshots.

" +:+ workspace +:+ "

" +:+ sandbox_text (effective_sandbox k) +:+ "

" +:+ file_tools_text +:+ "

" +:+ approval_text (effective_approval k) +:+ "

" +:+ browser_time.
