(* ===== verification/ToolSchema.v ===== *)
(** * The JSON schemas of tools (tools.rs)

    The dialect that registration accepts and the validation of arguments
    against an accepted schema.  A panic ([expect]) of [validate_instance] is
    [None].  Both functions recurse into the values stored under keywords of the
    schema, so the lookups take the recursive call as an argument. *)

From S2P Require Import Prelude Json Protocol.

#[local] Open Scope N_scope.

Definition tool_error (code message : string) (details : Value) : TessivumError :=
  TessivumError_new code message "tools" details.
Definition schema_error (path message : string) : TessivumError :=
  tool_error "INVALID_TOOL_SCHEMA" message (json_object [("path", VString path)]).
Definition argument_error (path message : string) : TessivumError :=
  tool_error "INVALID_TOOL_ARGUMENTS" message (json_object [("path", VString path)]).

Definition supported_types : list string :=
  ["object"; "array"; "string"; "number"; "integer"; "boolean"; "null"].
Definition is_supported_type (t : string) : bool := bool_decide (t ∈ supported_types).

Definition value_has_type (v : Value) (t : string) : bool :=
  if String.eqb t "object" then is_object v
  else if String.eqb t "array" then match v with VArray _ => true | _ => false end
  else if String.eqb t "string" then match v with VString _ => true | _ => false end
  else if String.eqb t "number" then match v with VNumber _ => true | _ => false end
  else if String.eqb t "integer" then
    bool_decide (is_Some (as_i64 v)) || bool_decide (is_Some (as_u64 v))
  else if String.eqb t "boolean" then match v with VBool _ => true | _ => false end
  else if String.eqb t "null" then is_null v
  else false.

(** [object.get(key)] with a continuation, and [enumerate]. *)
Definition obj_find {A} (f : Value → A) (k : string) : list (string * Value) → option A :=
  fix go m :=
    match m with
    | [] => None
    | (k', v) :: m' => if String.eqb k k' then Some (f v) else go m'
    end.
Definition mapi_from {A B} (f : nat → A → B) : nat → list A → list B :=
  fix go i l := match l with [] => [] | x :: l' => f i x :: go (S i) l' end.
Definition mapi {A B} (f : nat → A → B) : list A → list B := mapi_from f 0.

(** A loop over checks already written as results: the first error. *)
Definition first_error {E} (l : list (result E unit)) : result E unit := forM id l.

(** ** Schemas *)

Definition schema_keywords : list string :=
  ["type"; "properties"; "required"; "additionalProperties"; "items"; "enum"; "oneOf";
   "description"].

Definition index_path (path : string) (i : nat) : string :=
  path +:+ "[" +:+ fmt_N (N.of_nat i) +:+ "]".

Section schema.
(** The [Debug] text of a string. *)
Context (debug : string → string).

Definition check_keywords (object : list (string * Value)) (path : string) :
    result TessivumError unit :=
  forM (λ key, ensure (bool_decide (key ∈ schema_keywords))
                 (schema_error path ("unsupported keyword " +:+ debug key))) (object.*1).

Definition schema_type (object : list (string * Value)) (path : string) :
    result TessivumError (option string) :=
  match obj_get "type" object with
  | Some (VString t) =>
      if is_supported_type t then Ok (Some t) else Err (schema_error path "type is not supported")
  | Some _ => Err (schema_error path "type must be a string")
  | None => Ok None
  end.

Definition check_enum (object : list (string * Value)) (type_name : option string)
    (path : string) : result TessivumError unit :=
  match obj_get "enum" object with
  | None => Ok tt
  | Some (VArray values) =>
      if bool_decide (values = []) then Err (schema_error path "enum must not be empty")
      else forM (λ value, match type_name with
                          | Some t => ensure (value_has_type value t)
                                        (schema_error path "enum value does not match type")
                          | None => Ok tt
                          end) values
  | Some _ => Err (schema_error path "enum must be an array")
  end.

(** The loop over [required]; [names] are those seen. *)
Definition check_required_entry (properties : list (string * Value)) (path : string)
    (names : gset string) (name : Value) : result TessivumError (gset string) :=
  match name with
  | VString name =>
      if bool_decide (name ∈ names) then
        Err (schema_error path "required entries must be unique")
      else if bool_decide (obj_get name properties = None) then
        Err (schema_error path "required property is not declared")
      else Ok ({[name]} ∪ names)
  | _ => Err (schema_error path "required entries must be strings")
  end.
Definition check_required (object properties : list (string * Value)) (path : string) :
    result TessivumError unit :=
  match obj_get "required" object with
  | None => Ok tt
  | Some (VArray required) =>
      _ ← foldM (check_required_entry properties path) ∅ required; Ok tt
  | Some _ => Err (schema_error path "required must be an array")
  end.

Definition check_additional (object : list (string * Value)) (path : string) :
    result TessivumError unit :=
  match obj_get "additionalProperties" object with
  | None | Some (VBool _) => Ok tt
  | Some _ => Err (schema_error path "additionalProperties must be a boolean")
  end.

Definition check_scalar_keywords (object : list (string * Value)) (path : string) :
    result TessivumError unit :=
  forM (λ key, ensure (bool_decide (obj_get key object = None))
                 (schema_error path (key +:+ " is not valid here")))
    ["properties"; "required"; "additionalProperties"; "items"].

(** [validate_object_schema] and [validate_array_schema] are the last two
    branches; the recursive calls on the parts keep them in this fixpoint. *)
Fixpoint validate_schema (schema : Value) (path : string) : result TessivumError unit :=
  match schema with
  | VObject object =>
      _ ← check_keywords object path;
      _ ← match obj_get "description" object with
          | None | Some (VString _) => Ok tt
          | Some _ => Err (schema_error path "description must be a string")
          end;
      type_name ← schema_type object path;
      if bool_decide (type_name = None) && bool_decide (obj_get "oneOf" object = None) then
        Err (schema_error path "schema requires type or oneOf")
      else
        _ ← default (Ok tt) (obj_find (λ one_of,
              match one_of with
              | VArray options =>
                  if bool_decide (options = []) then
                    Err (schema_error path "oneOf must not be empty")
                  else first_error (mapi (λ i option,
                         validate_schema option (index_path (path +:+ ".oneOf") i)) options)
              | _ => Err (schema_error path "oneOf must be an array")
              end) "oneOf" object);
        _ ← check_enum object type_name path;
        if bool_decide (type_name = Some "object") then
          default (Err (schema_error path "object schemas require properties"))
            (obj_find (λ properties,
               match properties with
               | VObject properties =>
                   _ ← first_error (map (λ p,
                         validate_schema p.2 (path +:+ ".properties." +:+ p.1)) properties);
                   _ ← check_required object properties path;
                   check_additional object path
               | _ => Err (schema_error path "properties must be an object")
               end) "properties" object)
        else if bool_decide (type_name = Some "array") then
          default (Err (schema_error path "array schemas require items"))
            (obj_find (λ items, validate_schema items (path +:+ ".items")) "items" object)
        else check_scalar_keywords object path
  | _ => Err (schema_error path "schema must be an object")
  end.
End schema.

(** ** Arguments *)

(** A computation that may panic, return an error or succeed. *)
Abbreviation checked := (option (result TessivumError unit)).

(** [first?; second]. *)
Definition and_then (first second : checked) : checked :=
  match first with
  | None => None
  | Some (Err e) => Some (Err e)
  | Some (Ok _) => second
  end.
Definition all_checked (l : list checked) : checked := foldr and_then (Some (Ok tt)) l.

(** [filter(is_ok).count()]: every element is evaluated. *)
Definition count_ok (l : list checked) : option nat :=
  foldr (λ r n, r ← r; n ← n; Some ((if is_ok r then 1 else 0) + n)%nat) (Some 0%nat) l.

Definition check_type (object : list (string * Value)) (v : Value) (path : string) :
    result TessivumError unit :=
  match obj_get "type" object ≫= as_str with
  | Some t => ensure (value_has_type v t) (argument_error path ("expected " +:+ t))
  | None => Ok tt
  end.
Definition check_member (object : list (string * Value)) (v : Value) (path : string) :
    result TessivumError unit :=
  match obj_get "enum" object ≫= as_array with
  | Some values => ensure (existsb (λ c, value_eqb c v) values)
                     (argument_error path "value is not in enum")
  | None => Ok tt
  end.
(** The loop over the required names; an entry that is no string panics. *)
Definition check_present (object entries : list (string * Value)) (path : string) : checked :=
  all_checked ((λ required,
    name ← as_str required;
    Some (ensure (bool_decide (is_Some (obj_get name entries)))
            (argument_error (path +:+ "." +:+ name) "property is required")))
    <$> default [] (obj_get "required" object ≫= as_array)).
Definition additional_allowed (object : list (string * Value)) : bool :=
  default true (obj_get "additionalProperties" object ≫= as_bool).

Fixpoint validate_instance (schema v : Value) (path : string) : checked :=
  match schema with
  | VObject object =>
      and_then (default (Some (Ok tt)) (obj_find (λ one_of,
        match one_of with
        | VArray options =>
            matched ← count_ok (map (λ option, validate_instance option v path) options);
            Some (ensure (matched =? 1)%nat
                    (argument_error path "value must match exactly one oneOf option"))
        | _ => Some (Ok tt)
        end) "oneOf" object))
      (and_then (Some (check_type object v path))
      (and_then (Some (check_member object v path))
      (let type_name := obj_get "type" object ≫= as_str in
       if bool_decide (type_name = Some "object") then
         entries ← as_object v;
         mjoin (obj_find (λ properties,
           match properties with
           | VObject properties =>
               and_then (check_present object entries path)
                 (all_checked (map (λ entry,
                    let path := path +:+ "." +:+ entry.1 in
                    match obj_find (λ schema, validate_instance schema entry.2 path)
                            entry.1 properties with
                    | Some checked => checked
                    | None => Some (ensure (additional_allowed object)
                                (argument_error path "additional property is not allowed"))
                    end) entries))
           | _ => None
           end) "properties" object)
       else if bool_decide (type_name = Some "array") then
         mjoin (obj_find (λ items,
           values ← as_array v;
           all_checked (mapi (λ i value, validate_instance items value (index_path path i)) values))
           "items" object)
       else Some (Ok tt))))
  | _ => None
  end.
