(* ===== verification/Tools.v ===== *)
(** * The tool runtime (tools.rs)

    The scope of a runtime and its narrowing, the registry of tools and
    observers, and the execution of one call.  Handlers, approvals and
    observers are trait objects: their types are parameters, and what they
    answer is the environment's.  The lock makes each critical section a
    function of the state; [te_between] is what other tasks do to the state
    while a call does not hold it.  Every callback that a call makes is an
    [Effect] in its trace.  Handlers that panic or never return are not modelled;
    nor are closings after the runtime itself is gone. *)

From S2P Require Import Prelude Json Protocol Session Approval ToolSchema.

#[local] Open Scope N_scope.

(** ** Data *)

Record ToolRunContext := mkToolContext {
  tr_session : SessionId;
  tr_call : ToolCallId;
  tr_cancellation : token;
}.

Record ToolOutput := mkToolOutput {
  to_content : list ContentBlock;
  to_is_error : bool;
  to_meta : Value;
}.

Definition into_content_block (o : ToolOutput) (call : ToolCallId) : ContentBlock :=
  ToolResult call (to_content o) (Some (to_is_error o)).

Definition failure (code message : string) (details : Value) : ToolOutput :=
  mkToolOutput [Text message] true (json_object [("code", VString code); ("details", details)]).

Definition handler_failure (e : TessivumError) : ToolOutput :=
  mkToolOutput
    [Text (if starts_with "Error: " (err_message e) then err_message e
           else "Error: " +:+ err_message e)]
    true
    (json_object [("code", VString (err_code e)); ("phase", VString (err_phase e));
                  ("details", err_details e)]).

Inductive ToolAccess := Allow | Deny | AskAccess.
#[export] Instance ToolAccess_eq_dec : EqDecision ToolAccess.
Proof. solve_decision. Defined.
Definition rank (a : ToolAccess) : N :=
  match a with Deny => 0 | AskAccess => 1 | Allow => 2 end.

(** ** Restrictions and scopes *)

Record ToolRestrictions := mkRestrictions {
  tl_allow : option (gset string);
  tl_deny : gset string;
  tl_ask : gset string;
}.
Definition restrictions_new : ToolRestrictions := mkRestrictions None ∅ ∅.
Definition allow_only (names : list string) : ToolRestrictions :=
  mkRestrictions (Some (list_to_set names)) ∅ ∅.
Definition restrictions_allow (name : string) (r : ToolRestrictions) : ToolRestrictions :=
  mkRestrictions (Some ({[name]} ∪ default ∅ (tl_allow r))) (tl_deny r) (tl_ask r).
Definition restrictions_deny (name : string) (r : ToolRestrictions) : ToolRestrictions :=
  mkRestrictions (tl_allow r) ({[name]} ∪ tl_deny r) (tl_ask r).
Definition restrictions_ask (name : string) (r : ToolRestrictions) : ToolRestrictions :=
  mkRestrictions (tl_allow r) (tl_deny r) ({[name]} ∪ tl_ask r).

(** A [BTreeSet<String>] in its order. *)
Definition btree_set (s : gset string) : list string := btree_keys (gset_to_gmap tt s).

Definition validate_restrictions (r : ToolRestrictions) : result TessivumError unit :=
  let names := btree_set (default ∅ (tl_allow r)) ++ btree_set (tl_deny r) ++ btree_set (tl_ask r) in
  _ ← forM (λ name, ensure (negb (blank name))
        (tool_error "INVALID_TOOL_RESTRICTION" "tool restriction names must not be blank"
           (json_object [("name", VString name)]))) names;
  match btree_set (tl_deny r ∩ tl_ask r) with
  | [] => Ok tt
  | name :: _ =>
      Err (tool_error "INVALID_TOOL_RESTRICTION" "a tool cannot be both denied and approval-gated"
             (json_object [("name", VString name)]))
  end.

Record ToolScope := mkScope {
  sc_default : ToolAccess;
  sc_named : gmap string ToolAccess;
}.
Definition root_scope : ToolScope := mkScope Allow ∅.
Definition access (s : ToolScope) (name : string) : ToolAccess :=
  default (sc_default s) (sc_named s !! name).

Definition broadens (details : Value) : TessivumError :=
  tool_error "TOOL_RESTRICTION_BROADENS_SCOPE"
    "tool restrictions may only narrow parent visibility" details.

Definition requested_access (r : ToolRestrictions) (parent : ToolAccess) (name : string) : ToolAccess :=
  if bool_decide (name ∈ tl_deny r) then Deny
  else if bool_decide (name ∈ tl_ask r) then AskAccess
  else match tl_allow r with
  | Some allow => if bool_decide (name ∈ allow) then Allow else Deny
  | None => parent
  end.

Definition narrow_name (s : ToolScope) (r : ToolRestrictions) (default_access : ToolAccess)
    (named : gmap string ToolAccess) (name : string) :
    result TessivumError (gmap string ToolAccess) :=
  let parent := access s name in
  let requested := requested_access r parent name in
  if rank parent <? rank requested then
    Err (broadens (json_object [("name", VString name)]))
  else if bool_decide (requested = default_access) then Ok named
  else Ok (<[name := requested]> named).

Definition narrowed (s : ToolScope) (r : ToolRestrictions) : result TessivumError ToolScope :=
  _ ← validate_restrictions r;
  let default_access := match tl_allow r with Some _ => Deny | None => sc_default s end in
  if rank (sc_default s) <? rank default_access then Err (broadens VNull)
  else
    let names := dom (sc_named s) ∪ default ∅ (tl_allow r) ∪ tl_deny r ∪ tl_ask r in
    named ← foldM (narrow_name s r default_access) ∅ (btree_set names);
    Ok (mkScope default_access named).

(** ** The registry *)

Record ToolDefinition (H : Type) := mkToolDefinition {
  td_name : string;
  td_description : string;
  td_parameters : Value;
  td_handler : H;
}.
Arguments mkToolDefinition {H} _ _ _ _.
Arguments td_name {H} _.
Arguments td_description {H} _.
Arguments td_parameters {H} _.
Arguments td_handler {H} _.

Definition definition_schema {H} (d : ToolDefinition H) : ToolSchema :=
  mkToolSchema (td_name d) (td_description d) (td_parameters d).

Record RegisteredTool (H : Type) := mkRegisteredTool {
  rt_id : N;
  rt_definition : ToolDefinition H;
}.
Arguments mkRegisteredTool {H} _ _.
Arguments rt_id {H} _.
Arguments rt_definition {H} _.

Inductive ToolChange := Registered (schema : ToolSchema) | Removed (name : string).

(** [RuntimeState]: handlers, approvals, result and change observers. *)
Record RuntimeState (H A R C : Type) := mkRuntime {
  rs_next_id : N;
  rs_tools : gmap string (RegisteredTool H);
  rs_approval : option A;
  rs_result_observers : gmap N R;
  rs_change_observers : gmap N C;
}.
Arguments mkRuntime {H A R C} _ _ _ _ _.
Arguments rs_next_id {H A R C} _.
Arguments rs_tools {H A R C} _.
Arguments rs_approval {H A R C} _.
Arguments rs_result_observers {H A R C} _.
Arguments rs_change_observers {H A R C} _.

Record ToolRegistration := mkToolRegistration {
  tg_name : string;
  tg_id : N;
  tg_closed : bool;
}.

Inductive ObserverKind := ResultKind | ChangeKind.
Record ToolObserverRegistration := mkObserverRegistration {
  tor_id : N;
  tor_kind : ObserverKind;
  tor_closed : bool;
}.

(** The callbacks that an operation makes. *)
Inductive Effect (H A R C : Type) :=
| Asked (approval : A) (context : ToolRunContext) (schema : ToolSchema) (arguments : Value)
| Ran (handler : H) (context : ToolRunContext) (arguments : Value)
| Settled (observer : R) (context : ToolRunContext) (output : ToolOutput)
| Changed (observer : C) (change : ToolChange).
Arguments Asked {H A R C} _ _ _ _.
Arguments Ran {H A R C} _ _ _.
Arguments Settled {H A R C} _ _ _.
Arguments Changed {H A R C} _ _.

(** How a call ends: with a value, by a panic, or never, on a lock that its own
    task holds. *)
Inductive completion (X : Type) := Returns (x : X) | Panics | Blocks.
Arguments Returns {X} _.
Arguments Panics {X}.
Arguments Blocks {X}.

(** What the rest of the program does: other tasks between two critical
    sections, and the callbacks, which may call the runtime themselves. *)
Record TEnv (H A R C : Type) := mkTEnv {
  te_between : nat → RuntimeState H A R C → RuntimeState H A R C;
  te_approve : A → ToolRunContext → ToolSchema → Value → RuntimeState H A R C →
    result TessivumError (option bool) * RuntimeState H A R C;
  te_run : H → ToolRunContext → Value → RuntimeState H A R C →
    result TessivumError ToolOutput * RuntimeState H A R C;
}.
Arguments mkTEnv {H A R C} _ _ _.
Arguments te_between {H A R C} _ _ _.
Arguments te_approve {H A R C} _ _ _ _ _ _.
Arguments te_run {H A R C} _ _ _ _ _.

Section runtime.
Context {H A R C : Type}.
Context (debug : string → string) (json_text : Value → string).
Abbreviation State := (RuntimeState H A R C).
Abbreviation Env := (TEnv H A R C).
Abbreviation effect := (Effect H A R C).

Definition runtime_new : State := mkRuntime 1 ∅ None ∅ ∅.

Definition set_tools (next : N) (tools : gmap string (RegisteredTool H)) (s : State) : State :=
  mkRuntime next tools (rs_approval s) (rs_result_observers s) (rs_change_observers s).
Definition set_approval (approval : option A) (s : State) : State :=
  mkRuntime (rs_next_id s) (rs_tools s) approval (rs_result_observers s) (rs_change_observers s).

(** [checked_add(1).unwrap_or(1)]. *)
Definition following (id : N) : N := default 1 (u64_checked_add id 1).

Definition notify_change (change : ToolChange) (s : State) : list effect :=
  (λ o, Changed o change) <$> values_by_id (rs_change_observers s).
Definition notify_result (context : ToolRunContext) (output : ToolOutput) (s : State) : list effect :=
  (λ o, Settled o context output) <$> values_by_id (rs_result_observers s).

Definition validate_definition (d : ToolDefinition H) : result TessivumError unit :=
  if blank (td_name d) then Err (tool_error "INVALID_TOOL_NAME" "tool name must not be blank" VNull)
  else validate_schema debug (td_parameters d) "$".

Definition duplicate (message name : string) : TessivumError :=
  tool_error "DUPLICATE_TOOL_NAME" message (json_object [("name", VString name)]).

(** The insertion that [register] and [replace] share. *)
Definition insert_tool (d : ToolDefinition H) (s : State) : ToolRegistration * State :=
  let id := rs_next_id s in
  (mkToolRegistration (td_name d) id false,
   set_tools (following id) (<[td_name d := mkRegisteredTool id d]> (rs_tools s)) s).

Definition register (env : Env) (d : ToolDefinition H) (s : State) :
    result TessivumError ToolRegistration * list effect * State :=
  match validate_definition d with
  | Err e => (Err e, [], s)
  | Ok _ =>
      match rs_tools s !! td_name d with
      | Some _ =>
          (Err (duplicate "a tool with this name is already registered" (td_name d)), [], s)
      | None =>
          let '(registration, s) := insert_tool d s in
          let s := te_between env 0 s in
          (Ok registration, notify_change (Registered (definition_schema d)) s, s)
      end
  end.

(** ** Replacement *)

Definition name_le (a b : ToolDefinition H) : Prop := String.leb (td_name a) (td_name b) = true.
#[export] Instance name_le_dec a b : Decision (name_le a b).
Proof. unfold name_le. apply _. Defined.

Definition check_replacement (names : gset string) (d : ToolDefinition H) :
    result TessivumError (gset string) :=
  _ ← validate_definition d;
  if bool_decide (td_name d ∈ names) then
    Err (duplicate "replacement contains duplicate tool names" (td_name d))
  else Ok ({[td_name d]} ∪ names).

(** The registration is the one in force under its name. *)
Definition current_registration (s : State) (g : ToolRegistration) : bool :=
  match rs_tools s !! tg_name g with Some tool => rt_id tool =? tg_id g | None => false end.

Definition remove_names (names : gset string) (s : State) : State :=
  set_tools (rs_next_id s) (filter (λ p, p.1 ∉ names) (rs_tools s)) s.

Fixpoint insert_tools (ds : list (ToolDefinition H)) (s : State) : list ToolRegistration * State :=
  match ds with
  | [] => ([], s)
  | d :: rest =>
      let '(g, s) := insert_tool d s in
      let '(gs, s) := insert_tools rest s in (g :: gs, s)
  end.

(** The section under the lock; the removed names come in their order. *)
Definition replace_locked (prior : list ToolRegistration) (ds : list (ToolDefinition H)) (s : State) :
    result TessivumError (list ToolRegistration * list ToolChange) * State :=
  let removed : gset string :=
    list_to_set (tg_name <$> filter (λ g, current_registration s g = true) prior) in
  match find (λ d, bool_decide (is_Some (rs_tools s !! td_name d))
                   && negb (bool_decide (td_name d ∈ removed))) ds with
  | Some d =>
      (Err (duplicate "a replacement tool name is already registered outside the replaced set"
              (td_name d)), s)
  | None =>
      let '(registrations, s') := insert_tools ds (remove_names removed s) in
      (Ok (registrations,
           (Removed <$> btree_set removed) ++ ((λ d, Registered (definition_schema d)) <$> ds)), s')
  end.

(** The changes are notified one by one, each to the observers of that moment. *)
Fixpoint notify_changes (env : Env) (i : nat) (changes : list ToolChange) (s : State) :
    list effect * State :=
  match changes with
  | [] => ([], s)
  | change :: rest =>
      let s := te_between env i s in
      let '(effects, s') := notify_changes env (S i) rest s in
      (notify_change change s ++ effects, s')
  end.

Definition replace (env : Env) (prior : list ToolRegistration) (ds : list (ToolDefinition H))
    (s : State) : result TessivumError (list ToolRegistration) * list effect * State :=
  match foldM check_replacement ∅ ds with
  | Err e => (Err e, [], s)
  | Ok _ =>
      match replace_locked prior (merge_sort name_le ds) s with
      | (Err e, s') => (Err e, [], s')
      | (Ok (registrations, changes), s') =>
          let '(effects, s') := notify_changes env 0 changes s' in (Ok registrations, effects, s')
      end
  end.

(** [ToolRegistration::close]. *)
Definition close_registration (env : Env) (g : ToolRegistration) (s : State) :
    bool * ToolRegistration * list effect * State :=
  let closed := mkToolRegistration (tg_name g) (tg_id g) true in
  if tg_closed g then (false, g, [], s)
  else if current_registration s g then
    let s := te_between env 0 (set_tools (rs_next_id s) (delete (tg_name g) (rs_tools s)) s) in
    (true, closed, notify_change (Removed (tg_name g)) s, s)
  else (false, closed, [], s).

(** ** Views and observers *)

Definition schemas (scope : ToolScope) (s : State) : list ToolSchema :=
  (λ tool, definition_schema (rt_definition tool)) <$>
  filter (λ tool, access scope (td_name (rt_definition tool)) ≠ Deny) (btree_values (rs_tools s)).

Definition observe_results (observer : R) (s : State) : ToolObserverRegistration * State :=
  let id := rs_next_id s in
  (mkObserverRegistration id ResultKind false,
   mkRuntime (following id) (rs_tools s) (rs_approval s)
     (<[id := observer]> (rs_result_observers s)) (rs_change_observers s)).
Definition observe_changes (observer : C) (s : State) : ToolObserverRegistration * State :=
  let id := rs_next_id s in
  (mkObserverRegistration id ChangeKind false,
   mkRuntime (following id) (rs_tools s) (rs_approval s) (rs_result_observers s)
     (<[id := observer]> (rs_change_observers s))).
Definition close_observer (g : ToolObserverRegistration) (s : State) :
    bool * ToolObserverRegistration * State :=
  let closed := mkObserverRegistration (tor_id g) (tor_kind g) true in
  if tor_closed g then (false, g, s)
  else match tor_kind g with
  | ResultKind =>
      (bool_decide (is_Some (rs_result_observers s !! tor_id g)), closed,
       mkRuntime (rs_next_id s) (rs_tools s) (rs_approval s)
         (delete (tor_id g) (rs_result_observers s)) (rs_change_observers s))
  | ChangeKind =>
      (bool_decide (is_Some (rs_change_observers s !! tor_id g)), closed,
       mkRuntime (rs_next_id s) (rs_tools s) (rs_approval s) (rs_result_observers s)
         (delete (tor_id g) (rs_change_observers s)))
  end.

(** ** Execution *)

(** [settle]: the observers of that moment see the output.  [held] tells whether
    the task holds the guard of the state already: [notify_result] takes the
    lock, and a second lock of a held [std::sync::Mutex] does not return. *)
Definition settle (held : bool) (context : ToolRunContext) (output : ToolOutput)
    (before : list effect) (s : State) : completion (ToolOutput * list effect * State) :=
  if held then Blocks else Returns (output, before ++ notify_result context output s, s).

Definition cancelled_output : ToolOutput :=
  failure "CANCELLED" "tool call was cancelled" VNull.

(** The error of invalid arguments, with its text rewritten for the model. *)
Definition invalid_arguments (name : string) (parameters : Value) (e : TessivumError) : TessivumError :=
  mkError (err_code e)
    ("Invalid arguments for " +:+ debug name +:+ " at " +:+
     default "$" (get_str "path" (err_details e)) +:+ ": " +:+ err_message e +:+ "." +:+
     line_feed +:+ "Expected arguments (JSON Schema):" +:+ line_feed +:+ json_text parameters)
    (err_phase e) (err_details e).

(** The decision of a gated call: no approval, an error and no answer deny. *)
Definition decide_approval (env : Env) (approval : option A) (context : ToolRunContext)
    (schema : ToolSchema) (arguments : Value) (s : State) : bool * list effect * State :=
  match approval with
  | None => (false, [], s)
  | Some a =>
      let '(r, s) := te_approve env a context schema arguments s in
      (match r with Ok (Some b) => b | _ => false end, [Asked a context schema arguments], s)
  end.

(** The run of the handler and the last look at the token. *)
Definition run_handler (env : Env) (d : ToolDefinition H) (context : ToolRunContext)
    (arguments : Value) (before : list effect) (s : State) :
    completion (ToolOutput * list effect * State) :=
  let '(r, s) := te_run env (td_handler d) context arguments s in
  let output := match r with Ok output => output | Err e => handler_failure e end in
  settle false context
    (if check 2 (tr_cancellation context) then cancelled_output else output)
    (before ++ [Ran (td_handler d) context arguments]) s.

(** A missing tool is settled while the guard of the lookup is alive. *)
Definition execute (env : Env) (scope : ToolScope) (context : ToolRunContext) (name : string)
    (arguments : Value) (s : State) : completion (ToolOutput * list effect * State) :=
  let named := json_object [("name", VString name)] in
  if check 0 (tr_cancellation context) then settle false context cancelled_output [] s
  else match rs_tools s !! name with
  | None =>
      settle true context
        (failure "TOOL_NOT_FOUND" "requested tool is not registered" named) [] s
  | Some tool =>
      let d := rt_definition tool in
      let approval := rs_approval s in
      let s := te_between env 0 s in
      if bool_decide (access scope name = Deny) then
        settle false context (failure "TOOL_DENIED" "tool is not visible in this scope" named) [] s
      else match validate_instance (td_parameters d) arguments "$" with
      | None => Panics
      | Some (Err e) =>
          settle false context (handler_failure (invalid_arguments name (td_parameters d) e)) [] s
      | Some (Ok _) =>
          if bool_decide (access scope name = AskAccess) then
            let '(approved, effects, s) :=
              decide_approval env approval context (definition_schema d) arguments s in
            if check 1 (tr_cancellation context) then settle false context cancelled_output effects s
            else if approved then run_handler env d context arguments effects s
            else settle false context
                   (failure "TOOL_APPROVAL_DENIED" "tool call was not approved" named) effects s
          else run_handler env d context arguments [] s
      end
  end.
End runtime.
