(* ===== verification/Planning.v ===== *)
(** * Plan mode and todo lists (planning.rs)

    The durable mode and the standing todo list are folds of the log; the tools
    go through a router from sessions to services.  The review of a plan is an
    [ask] of [Question]. *)

From S2P Require Import Prelude Json Protocol Session Approval ApprovalHost Question ToolSchema Tools.

#[local] Open Scope N_scope.

Inductive PlanMode := Normal | Plan.
#[export] Instance PlanMode_eq_dec : EqDecision PlanMode.
Proof. solve_decision. Defined.
Definition plan_active (m : PlanMode) : bool := bool_decide (m = Plan).

Record PlanModeChange := mkPlanModeChange { pm_active : bool }.
Record TodoWrite := mkTodoWrite { tw_todos : list TodoItem }.
Class PlanningWire := {
  wire_plan_mode :: Wire PlanModeChange;
  wire_todo_write :: Wire TodoWrite;
}.

Inductive PlanningError :=
| PNotLive
| PCancelled
| PTooManyTodos
| PTodoTooLong
| PInvalidTodo
| PInvalidReplay
| PNotInPlanMode
| PInvalidPlan
| PSession (e : SessionError).

Definition PlanningError_code (e : PlanningError) : string :=
  match e with
  | PNotLive => "PLAN_NOT_LIVE"
  | PCancelled => "CANCELLED"
  | PTooManyTodos | PTodoTooLong | PInvalidTodo => "INVALID_TODO_SNAPSHOT"
  | PInvalidReplay => "INVALID_PLAN_REPLAY"
  | PNotInPlanMode => "PLAN_MODE_INACTIVE"
  | PInvalidPlan => "INVALID_PLAN"
  | PSession _ => "PLAN_EVENT_APPEND_FAILED"
  end.

(** ** Todo lists *)

(** One round of the loop of [normalize_todos]: the content is trimmed in
    place before it is checked. *)
Definition normalize_todo (todo : TodoItem) : TodoItem :=
  mkTodo (trim (todo_content todo)) (todo_status todo).

Fixpoint normalize_from (seen : gset string) (todos : list TodoItem) :
    result PlanningError (list TodoItem) :=
  match todos with
  | [] => Ok []
  | todo :: rest =>
      let todo := normalize_todo todo in
      let content := todo_content todo in
      if is_empty content || (4096 <? str_len content) || bool_decide (content ∈ seen) then
        Err (if 4096 <? str_len content then PTodoTooLong else PInvalidTodo)
      else
        _ ← map_err (λ _, PInvalidTodo) (TodoItem_validate todo);
        rest ← normalize_from ({[content]} ∪ seen) rest;
        Ok (todo :: rest)
  end.

Definition normalize_todos (todos : list TodoItem) : result PlanningError (list TodoItem) :=
  if (256 <? length todos)%nat then Err PTooManyTodos else normalize_from ∅ todos.

Record TodoCounts := mkCounts { tc_pending : nat; tc_in_progress : nat; tc_completed : nat }.
Definition count_todo (c : TodoCounts) (todo : TodoItem) : TodoCounts :=
  match todo_status todo with
  | Pending => mkCounts (tc_pending c + 1) (tc_in_progress c) (tc_completed c)
  | InProgress => mkCounts (tc_pending c) (tc_in_progress c + 1) (tc_completed c)
  | Completed => mkCounts (tc_pending c) (tc_in_progress c) (tc_completed c + 1)
  end.
Definition TodoCounts_from (todos : list TodoItem) : TodoCounts :=
  foldl count_todo (mkCounts 0 0 0) todos.

(** ** Plans *)

(** [strip_prefix(char::is_whitespace)]. *)
Definition strip_whitespace (l : list ascii) : option (list ascii) := lead_ws ws2 ws3 l.

Definition has_plan_heading (plan : string) : bool :=
  match bytes_of (trim plan) with
  | "#"%char :: line =>
      match strip_whitespace line with
      | Some title => negb (blank (string_of title))
      | None => false
      end
  | _ => false
  end.

Section service.
Context `{ProtocolWire, QuestionWire, PlanningWire} {S : Type} `{SessionPersistence S}.

(** ** The folds *)

Definition apply_plan_mode (mode : PlanMode) (event : SessionEvent) :
    result PlanningError PlanMode :=
  if String.eqb (event_type event) "plan/mode" then
    change ← map_err (λ _, PInvalidReplay) (from_value (A := PlanModeChange) (ev_data event));
    Ok (if pm_active change then Plan else Normal)
  else Ok mode.
Definition fold_plan_mode (events : list SessionEvent) : result PlanningError PlanMode :=
  foldM apply_plan_mode Normal events.

Definition apply_todos (todos : option (list TodoItem)) (event : SessionEvent) :
    result PlanningError (option (list TodoItem)) :=
  if String.eqb (event_type event) "todo/write" then
    write ← map_err (λ _, PInvalidReplay) (from_value (A := TodoWrite) (ev_data event));
    Some <$> normalize_todos (tw_todos write)
  else if String.eqb (event_type event) "turn/start" then Ok None
  else Ok todos.
Definition fold_todos (events : list SessionEvent) :
    result PlanningError (option (list TodoItem)) := foldM apply_todos None events.

(** ** The service

    [live]: the agent is not disposed and owns the session. *)

Definition PlanningService_new (live : bool) (session : Session) : result PlanningError unit :=
  if negb live then Err PNotLive
  else
    _ ← fold_plan_mode (st_events (s_state session));
    _ ← fold_todos (st_events (s_state session));
    Ok tt.

Definition mode (session : Session) : PlanMode :=
  match fold_plan_mode (st_events (s_state session)) with Ok m => m | Err _ => Normal end.

Definition todos (session : Session) : list TodoItem :=
  match fold_todos (st_events (s_state session)) with Ok o => default [] o | Err _ => [] end.

Definition check_planning (live : bool) (cancelled : bool) : result PlanningError unit :=
  if negb live then Err PNotLive else if cancelled then Err PCancelled else Ok tt.

(** [append]; [others] is what other tasks do before it gets the session. *)
Definition append_planning (t : token) (others : Session → S → Session * S) (kind : string)
    (data : Value) (s : Session) (b : S) : result PlanningError unit * Session * S :=
  match next_seq (st_events (s_state s)) with
  | Err e => (Err (PSession e), s, b)
  | Ok seq =>
      let '(s, b) := others s b in
      let '(r, s', b') := append t (mkEvent kind seq 0 data None None None) s b in
      (map_err PSession r, s', b')
  end.

Definition set_mode (t : token) (live : bool) (others : Session → S → Session * S) (m : PlanMode)
    (s : Session) (b : S) : result PlanningError unit * Session * S :=
  match check_planning live (check 0 t) with
  | Err e => (Err e, s, b)
  | Ok _ => append_planning (sub 1 t) others "plan/mode"
              (to_value (mkPlanModeChange (plan_active m))) s b
  end.

Definition write_todos (t : token) (live : bool) (others : Session → S → Session * S)
    (items : list TodoItem) (s : Session) (b : S) :
    result PlanningError (list TodoItem) * Session * S :=
  match _ ← check_planning live (check 0 t); normalize_todos items with
  | Err e => (Err e, s, b)
  | Ok items =>
      match append_planning (sub 1 t) others "todo/write" (to_value (mkTodoWrite items)) s b with
      | (Err e, s', b') => (Err e, s', b')
      | (Ok _, s', b') => (Ok items, s', b')
      end
  end.

Definition validate_exit_plan (live : bool) (plan : string) (s : Session) :
    result PlanningError unit :=
  if negb live then Err PNotLive
  else if negb (plan_active (mode s)) then Err PNotInPlanMode
  else if negb (has_plan_heading plan) then Err PInvalidPlan
  else Ok tt.

Definition exit_plan_mode (t : token) (live : bool) (others : Session → S → Session * S)
    (plan : string) (s : Session) (b : S) : result PlanningError unit * Session * S :=
  match validate_exit_plan live plan s with
  | Err e => (Err e, s, b)
  | Ok _ => set_mode t live others Normal s b
  end.

(** ** The tools *)

(** [error_text] and [session_text] are the [Display] texts of the errors. *)
Context (error_text : PlanningError → string) (session_text : SessionError → string).

Definition planning_tool_error (e : PlanningError) : TessivumError :=
  TessivumError_new (PlanningError_code e) (error_text e) "planning" VNull.

(** The question that reviews a plan. *)
Definition plan_review (plan : string) : AskUserQuestionItem :=
  mkQItem "plan-review" "Approve this plan and leave plan mode?" (Some plan) (Some "Plan review")
    (Some [mkQOption "Approve" (Some "Leave plan mode; carry out the plan from your next step.");
           mkQOption "Keep planning"
             (Some "Stay in plan mode; revise and present the plan again.")])
    None (Some (PlanReview "Approve")).

Definition review_error (e : TessivumError) : TessivumError :=
  if String.eqb (err_code e) "ASK_CANCELLED" then
    TessivumError_new "PLAN_REVIEW_DISMISSED"
      "The user dismissed the plan review to speak instead; stay in plan mode and wait for their message."
      "planning" VNull
  else e.

Definition plan_approved (answer : AskUserQuestionAnswer) : bool :=
  match qa_answers answer with
  | [a] => String.eqb (qa_id a) "plan-review"
           && match qa_selected a with [s] => String.eqb s "Approve" | _ => false end
           && bool_decide (qa_custom a = None)
  | _ => false
  end.

(** The output that asks the loop to leave plan mode once the step is over. *)
Definition exit_plan_output : ToolOutput :=
  mkToolOutput
    [Text "Plan approved — plan mode exited; carry out the plan starting with your next step."]
    false (json_object [("deferredPlanExit", VBool true)]).

(** [ExitPlanModeTool::run] on decoded arguments; [routed] tells whether the
    router has a service for the calling session, [live] whether its agent is. *)
Definition exit_plan_tool (t : token) (env : QEnv S) (routed live : bool) (session : SessionId)
    (call : ToolCallId) (plan : string) (w : QWorld S) :
    result TessivumError ToolOutput * QWorld S :=
  match (_ ← (if routed then Ok tt else Err PNotLive); validate_exit_plan live plan (qw_session w))
        : result PlanningError unit with
  | Err e => (Err (planning_tool_error e), w)
  | Ok _ =>
      match ask session_text t env session call [plan_review plan] w with
      | (Err e, w') => (Err (review_error e), w')
      | (Ok answer, w') =>
          if plan_approved answer then (Ok exit_plan_output, w')
          else (Err (TessivumError_new "PLAN_REVIEW_DECLINED"
                       "The user chose to keep planning; revise the plan and present it again."
                       "planning" VNull), w')
      end
  end.

(** [TodoWriteTool::run] on decoded arguments: the list and its counts, which
    are then serialised. *)
Definition todo_write_tool (t : token) (routed live : bool)
    (others : Session → S → Session * S) (items : list TodoItem) (s : Session) (b : S) :
    result TessivumError (list TodoItem * TodoCounts) * Session * S :=
  if negb routed then (Err (planning_tool_error PNotLive), s, b)
  else match write_todos t live others items s b with
  | (Err e, s', b') => (Err (planning_tool_error e), s', b')
  | (Ok items, s', b') => (Ok (items, TodoCounts_from items), s', b')
  end.
End service.
