(* ===== verification/ServiceCodec.v ===== *)
(** * Concrete codecs of goal changes, approvals and plans

    The JSON forms that the [serde] attributes of goal.rs, approval.rs, question.rs
    and planning.rs prescribe: camel case names, lower case variants, omitted
    options, unknown fields refused.  They instantiate the classes of derived
    serialisers for the witnesses and discharge their [WireLaw]s. *)

From S2P Require Import Prelude Json Protocol Codec Session Goal Approval Question Planning.

#[local] Open Scope N_scope.

Definition phase_names : list (string * GoalPhase) :=
  [("active", Active); ("paused", Paused); ("blocked", Blocked); ("complete", Complete)].
Definition operation_names : list (string * GoalOperation) :=
  [("create", OpCreate); ("edit", OpEdit); ("pause", OpPause); ("resume", OpResume);
   ("complete", OpComplete); ("block", OpBlock); ("clear", OpClear)].
Definition operation_str (o : GoalOperation) : Value :=
  VString match o with
  | OpCreate => "create" | OpEdit => "edit" | OpPause => "pause" | OpResume => "resume"
  | OpComplete => "complete" | OpBlock => "block" | OpClear => "clear" end.

Definition reason_of (v : Value) : result string GoalBlockReason :=
  m ← of_obj v; _ ← only m ["code"; "message"];
  c ← field m "code" of_str; t ← field m "message" of_str; Ok (mkReason c t).

Definition ref_value (r : GoalRef) : Value :=
  obj_of [("id", Some (VString (gr_id r))); ("revision", Some (json_u64 (gr_revision r)))].
Definition ref_of (v : Value) : result string GoalRef :=
  m ← of_obj v; _ ← only m ["id"; "revision"];
  i ← field m "id" of_str; r ← field m "revision" of_u64; Ok (mkGoalRef i r).

Definition snapshot_value (g : GoalSnapshotWire) : Value :=
  obj_of [("id", Some (VString (gw_id g))); ("revision", Some (json_u64 (gw_revision g)));
          ("objective", Some (VString (gw_objective g)));
          ("phase", Some (VString (phase_name (gw_phase g))));
          ("blockedReason", reason_value <$> gw_blocked_reason g);
          ("maxGoalRounds", Some (json_u64 (gw_max_goal_rounds g)))].
Definition snapshot_of (v : Value) : result string GoalSnapshotWire :=
  m ← of_obj v;
  _ ← only m ["id"; "revision"; "objective"; "phase"; "blockedReason"; "maxGoalRounds"];
  i ← field m "id" of_str; r ← field m "revision" of_u64;
  o ← field m "objective" of_str; p ← field m "phase" (of_enum phase_names);
  b ← opt_field m "blockedReason" reason_of;
  n ← field m "maxGoalRounds" of_u64; Ok (mkGoalWire i r o p b n).

Definition of_u8 (v : Value) : result string N :=
  n ← of_u64 v; if n <=? 255 then Ok n else Err "expected a u8".

Definition change_value (c : GoalChange) : Value :=
  obj_of [("kind", Some (VString (gc_kind c))); ("version", Some (json_u64 (gc_version c)));
          ("operation", Some (operation_str (gc_operation c)));
          ("goal", snapshot_value <$> gc_goal c);
          ("roundsStarted", json_u64 <$> gc_rounds_started c);
          ("createdAt", json_u64 <$> gc_created_at c);
          ("updatedAt", json_u64 <$> gc_updated_at c);
          ("cleared", ref_value <$> gc_cleared c);
          ("clearedAt", json_u64 <$> gc_cleared_at c)].
Definition change_of (v : Value) : result string GoalChange :=
  m ← of_obj v;
  _ ← only m ["kind"; "version"; "operation"; "goal"; "roundsStarted"; "createdAt"; "updatedAt";
              "cleared"; "clearedAt"];
  k ← field m "kind" of_str; n ← field m "version" of_u8;
  o ← field m "operation" (of_enum operation_names);
  g ← opt_field m "goal" snapshot_of; r ← opt_field m "roundsStarted" of_u64;
  a ← opt_field m "createdAt" of_u64; u ← opt_field m "updatedAt" of_u64;
  c ← opt_field m "cleared" ref_of; t ← opt_field m "clearedAt" of_u64;
  Ok (mkChange k n o g r a u c t).

#[export] Instance change_wire : GoalWire :=
  {| wire_change := {| to_value := change_value; from_value := change_of |} |}.

(** ** The round trip *)

Lemma snapshot_of_value g : ∃ m, snapshot_value g = VObject m ∧ snapshot_of (VObject m) = Ok g.
Proof. exists (default [] (as_object (snapshot_value g))). by destruct g as [i r o p [[c t]|] n], p. Qed.
Lemma ref_of_value r : ∃ m, ref_value r = VObject m ∧ ref_of (VObject m) = Ok r.
Proof. exists (default [] (as_object (ref_value r))). by destruct r. Qed.

#[export] Instance change_law : WireLaw GoalChange (λ c, gc_version c ≤ 255).
Proof.
  intros [k n o g r a u c t] Hn%N.leb_le. cbn [gc_version] in Hn.
  assert (Hu : of_u8 (VNumber (PosInt n)) = Ok n) by (unfold of_u8, of_u64; simpl; by rewrite Hn).
  change (change_of (change_value (mkChange k n o g r a u c t)) = Ok (mkChange k n o g r a u c t)).
  unfold change_value, change_of.
  destruct g as [g|], c as [c|]; cbn [fmap option_fmap option_map gc_goal gc_cleared];
    try (destruct (snapshot_of_value g) as (mg & -> & Hg));
    try (destruct (ref_of_value c) as (mc & -> & Hc)).
  all: destruct o, r, a, u, t; lazy -[of_u8 snapshot_of ref_of].
  all: rewrite Hu; try rewrite Hg; try rewrite Hc; reflexivity.
Qed.

(** ** A concrete codec of approval events *)

#[local] Open Scope N_scope.

Definition policy_names : list (string * ApprovalPolicy) := [("ask", Ask); ("never", Never)].
Definition policy_str (p : ApprovalPolicy) : Value :=
  VString match p with Ask => "ask" | Never => "never" end.
Definition approval_outcome_names : list (string * ApprovalOutcome) :=
  [("allowed-once", AllowedOnce); ("rejected", Rejected); ("cancelled", Cancelled);
   ("unavailable", Unavailable)].
Definition approval_outcome_str (o : ApprovalOutcome) : Value :=
  VString match o with
  | AllowedOnce => "allowed-once" | Rejected => "rejected" | Cancelled => "cancelled"
  | Unavailable => "unavailable" end.

(** A field that reads as a default when it is absent; a null is not absent. *)
Definition default_field {A} (m : list (string * Value)) (k : string) (d : A)
    (f : Value → result string A) : result string A :=
  match obj_get k m with None => Ok d | Some v => f v end.

Definition request_of (v : Value) : result string ApprovalRequest :=
  m ← of_obj v;
  a ← field m "action" of_str; d ← default_field m "details" VNull Ok; Ok (mkRequest a d).

Definition asked_value (a : ApprovalAsked) : Value :=
  obj_of [("approvalId", Some (VString (ak_approval_id a)));
          ("sessionId", Some (VString (ak_session_id a)));
          ("turn", Some (json_u64 (ak_turn a))); ("policy", Some (policy_str (ak_policy a)));
          ("request", Some (obj_of [("action", Some (VString (rq_action (ak_request a))))]));
          ("toolName", Some (VString (ak_tool_name a))); ("callId", VString <$> ak_call_id a);
          ("reason", VString <$> ak_reason a)].
Definition asked_of (v : Value) : result string ApprovalAsked :=
  m ← of_obj v;
  i ← default_field m "approvalId" "" of_str; s ← default_field m "sessionId" "" of_str;
  t ← field m "turn" of_u64; p ← field m "policy" (of_enum policy_names);
  r ← field m "request" request_of; n ← default_field m "toolName" "" of_str;
  c ← opt_field m "callId" of_str; w ← opt_field m "reason" of_str;
  Ok (mkAsked i s t p r n c w).

Definition decision_value (d : ApprovalDecision) : Value :=
  obj_of [("approvalId", Some (VString (dc_approval_id d))); ("turn", Some (json_u64 (dc_turn d)));
          ("outcome", Some (approval_outcome_str (dc_outcome d)))].
Definition decision_of (v : Value) : result string ApprovalDecision :=
  m ← of_obj v;
  i ← default_field m "approvalId" "" of_str; t ← field m "turn" of_u64;
  o ← field m "outcome" (of_enum approval_outcome_names); Ok (mkDecision i t o).

Definition policy_change_value (c : ApprovalPolicyChange) : Value :=
  obj_of [("policy", Some (policy_str (pc_policy c)))].
Definition policy_change_of (v : Value) : result string ApprovalPolicyChange :=
  m ← of_obj v; _ ← only m ["policy"];
  p ← field m "policy" (of_enum policy_names); Ok (mkPolicyChange p).

#[export] Instance approval_wire : ApprovalWire := {|
  wire_policy := {| to_value := policy_change_value; from_value := policy_change_of |};
  wire_asked := {| to_value := asked_value; from_value := asked_of |};
  wire_decision := {| to_value := decision_value; from_value := decision_of |};
|}.

#[export] Instance policy_change_law : WireLaw ApprovalPolicyChange (λ _, True).
Proof. by intros [[]] _. Qed.

(** The details of a request never reach the log. *)
Lemma asked_drops_details a :
  from_value (to_value a) = Ok (mkAsked (ak_approval_id a) (ak_session_id a) (ak_turn a)
    (ak_policy a) (mkRequest (rq_action (ak_request a)) VNull) (ak_tool_name a) (ak_call_id a)
    (ak_reason a)).
Proof. by destruct a as [i s t [] [x d] n [c|] [w|]]. Qed.

(** ** A concrete codec of questions, plan modes and todo lists *)

#[local] Open Scope N_scope.

(** ** Questions *)

Definition intent_value (i : AskUserQuestionIntent) : Value :=
  match i with
  | PlanReview a => obj_of [("kind", Some (VString "plan-review")); ("approve", Some (VString a))]
  end.
Definition intent_of (v : Value) : result string AskUserQuestionIntent :=
  m ← of_obj v; _ ← field m "kind" (of_enum [("plan-review", tt)]);
  PlanReview <$> field m "approve" of_str.

Definition qoption_value (o : AskUserQuestionOption) : Value :=
  obj_of [("label", Some (VString (qo_label o))); ("description", VString <$> qo_description o)].
Definition qoption_of (v : Value) : result string AskUserQuestionOption :=
  m ← of_obj v; l ← field m "label" of_str; d ← opt_field m "description" of_str;
  Ok (mkQOption l d).

Definition qitem_value (q : AskUserQuestionItem) : Value :=
  obj_of [("id", Some (VString (qi_id q))); ("question", Some (VString (qi_question q)));
          ("detail", VString <$> qi_detail q); ("header", VString <$> qi_header q);
          ("options", (λ l, VArray (qoption_value <$> l)) <$> qi_options q);
          ("multiSelect", VBool <$> qi_multi_select q); ("intent", intent_value <$> qi_intent q)].
Definition qitem_of (v : Value) : result string AskUserQuestionItem :=
  m ← of_obj v; i ← field m "id" of_str; q ← field m "question" of_str;
  d ← opt_field m "detail" of_str; h ← opt_field m "header" of_str;
  o ← opt_field m "options" (of_array qoption_of);
  s ← opt_field m (if bool_decide (is_Some (obj_get "multiSelect" m)) then "multiSelect" else "multi_select") of_bool;
  n ← opt_field m "intent" intent_of;
  Ok (mkQItem i q d h o s n).

Definition qasked_value (a : QuestionAsked) : Value :=
  obj_of [("rpcId", Some (VString (qk_rpc_id a))); ("sessionId", Some (VString (qk_session_id a)));
          ("turn", Some (json_u64 (qk_turn a))); ("callId", Some (VString (qk_call_id a)));
          ("questions", Some (VArray (qitem_value <$> qk_questions a)))].
Definition qasked_of (v : Value) : result string QuestionAsked :=
  m ← of_obj v; r ← field m "rpcId" of_str; s ← field m "sessionId" of_str;
  t ← field m "turn" of_u64; c ← field m "callId" of_str;
  q ← field m "questions" (of_array qitem_of); Ok (mkQAsked r s t c q).

Definition qanswer_value (a : AskUserQuestionAnswerItem) : Value :=
  obj_of [("id", Some (VString (qa_id a)));
          ("selected", Some (VArray (VString <$> qa_selected a)));
          ("custom", VString <$> qa_custom a)].
Definition qanswer_of (v : Value) : result string AskUserQuestionAnswerItem :=
  m ← of_obj v; i ← field m "id" of_str; s ← field m "selected" (of_array of_str);
  c ← opt_field m "custom" of_str; Ok (mkQAnswerItem i s c).
Definition qanswers_value (a : AskUserQuestionAnswer) : Value :=
  obj_of [("answers", Some (VArray (qanswer_value <$> qa_answers a)))].
Definition qanswers_of (v : Value) : result string AskUserQuestionAnswer :=
  m ← of_obj v; mkQAnswer <$> field m "answers" (of_array qanswer_of).

Definition qoutcome_value (o : QuestionOutcome) : Value :=
  VString match o with QAnswered => "answered" | QCancelled => "cancelled" end.
Definition qresolved_value (r : QuestionResolved) : Value :=
  obj_of [("rpcId", Some (VString (qr_rpc_id r))); ("turn", Some (json_u64 (qr_turn r)));
          ("outcome", Some (qoutcome_value (qr_outcome r)));
          ("answer", qanswers_value <$> qr_answer r)].
Definition qresolved_of (v : Value) : result string QuestionResolved :=
  m ← of_obj v; r ← field m "rpcId" of_str; t ← field m "turn" of_u64;
  o ← field m "outcome" (of_enum [("answered", QAnswered); ("cancelled", QCancelled)]);
  a ← opt_field m "answer" qanswers_of; Ok (mkQResolved r t o a).

#[export] Instance question_wire : QuestionWire := {|
  wire_question_asked := {| to_value := qasked_value; from_value := qasked_of |};
  wire_question_resolved := {| to_value := qresolved_value; from_value := qresolved_of |};
|}.

(** ** Plans and todo lists *)

Definition plan_mode_value (c : PlanModeChange) : Value :=
  obj_of [("active", Some (VBool (pm_active c)))].
Definition plan_mode_of (v : Value) : result string PlanModeChange :=
  m ← of_obj v; _ ← only m ["active"]; mkPlanModeChange <$> field m "active" of_bool.

Definition todo_status_names : list (string * TodoStatus) :=
  [("pending", Pending); ("in_progress", InProgress); ("completed", Completed)].
Definition todo_status_str (s : TodoStatus) : Value :=
  VString match s with
  | Pending => "pending" | InProgress => "in_progress" | Completed => "completed" end.
Definition todo_value (t : TodoItem) : Value :=
  obj_of [("content", Some (VString (todo_content t)));
          ("status", Some (todo_status_str (todo_status t)))].
Definition todo_of (v : Value) : result string TodoItem :=
  m ← of_obj v; c ← field m "content" of_str; s ← field m "status" (of_enum todo_status_names);
  Ok (mkTodo c s).
Definition todo_write_value (w : TodoWrite) : Value :=
  obj_of [("todos", Some (VArray (todo_value <$> tw_todos w)))].
Definition todo_write_of (v : Value) : result string TodoWrite :=
  m ← of_obj v; _ ← only m ["todos"]; mkTodoWrite <$> field m "todos" (of_array todo_of).

#[export] Instance planning_wire : PlanningWire := {|
  wire_plan_mode := {| to_value := plan_mode_value; from_value := plan_mode_of |};
  wire_todo_write := {| to_value := todo_write_value; from_value := todo_write_of |};
|}.

Lemma todo_of_value t : todo_of (todo_value t) = Ok t.
Proof. by destruct t as [c []]. Qed.

#[export] Instance todo_write_law : WireLaw TodoWrite (λ _, True).
Proof.
  intros [l] _. cbn. assert (collectM todo_of (todo_value <$> l) = Ok l) as ->; [|done].
  induction l as [|t l IH]; [done|]. rewrite fmap_cons. cbn [collectM].
  by rewrite todo_of_value, IH.
Qed.

#[export] Instance plan_mode_law : WireLaw PlanModeChange (λ _, True).
Proof. by intros [[]] _. Qed.
