(* ===== verification/ToolFacts.v ===== *)
(** * Facts about tool schemas, scopes and executions

    The meaning of the schema dialect and what the validators decide; the invariant
    of the registry and the execution of a call. *)

From S2P Require Import Prelude Json Protocol Session Approval ToolSchema Tools.

#[local] Open Scope N_scope.

(** ** The continuation style of the lookups *)

Lemma obj_find_get {A} (f : Value → A) k m : obj_find f k m = f <$> obj_get k m.
Proof. induction m as [|[k' v] m IH]; simpl; [done|]. by destruct (String.eqb k k'). Qed.

Lemma obj_get_elem k m v : obj_get k m = Some v → (k, v) ∈ m.
Proof.
  induction m as [|[k' v'] m IH]; simpl; [done|].
  destruct (String.eqb_spec k k') as [->|]; [intros [= ->]; left|right; auto].
Qed.

Lemma mapi_from_lookup {A B} (f : nat → A → B) i l j :
  mapi_from f i l !! j = f (i + j)%nat <$> l !! j.
Proof.
  revert i j. induction l as [|x l IH]; intros i [|j]; simpl; try done.
  - by rewrite Nat.add_0_r.
  - by rewrite IH, Nat.add_succ_comm.
Qed.

Lemma mapi_lookup {A B} (f : nat → A → B) l j : mapi f l !! j = f j <$> l !! j.
Proof. apply mapi_from_lookup. Qed.

Lemma first_error_Ok {E} (l : list (result E unit)) :
  first_error l = Ok tt ↔ ∀ i r, l !! i = Some r → r = Ok tt.
Proof.
  unfold first_error. rewrite forM_Ok, Forall_lookup. split; intros H i r Hi.
  - by destruct r as [[]|e]; [|specialize (H i _ Hi)]; naive_solver.
  - rewrite (H i r Hi). done.
Qed.

(** ** Checks that do not panic *)

Lemma append_empty_r (s : string) : s +:+ "" = s.
Proof. induction s as [|a s IH]; [done|]. change (String a (s +:+ "") = String a s). by rewrite IH. Qed.
Lemma append_assoc (s1 s2 s3 : string) : s1 +:+ (s2 +:+ s3) = (s1 +:+ s2) +:+ s3.
Proof.
  induction s1 as [|a s IH]; [done|].
  change (String a (s +:+ (s2 +:+ s3)) = String a ((s +:+ s2) +:+ s3)). by rewrite IH.
Qed.

(** The check terminates without a panic, and an error is one of [argument_error]
    at [path] or below. *)
Definition safe (path : string) (c : checked) : Prop :=
  c = Some (Ok tt) ∨ ∃ below message, c = Some (Err (argument_error (path +:+ below) message)).

Lemma safe_ok path : safe path (Some (Ok tt)).
Proof. by left. Qed.
Lemma safe_ensure path b message : safe path (Some (ensure b (argument_error path message))).
Proof.
  destruct b; [by left|right]. exists "", message. by rewrite append_empty_r.
Qed.
Lemma safe_below path below c : safe (path +:+ below) c → safe path c.
Proof.
  intros [->|(b & m & ->)]; [by left|right]. exists (below +:+ b), m. by rewrite append_assoc.
Qed.
Lemma safe_and_then path c1 c2 :
  safe path c1 → (c1 = Some (Ok tt) → safe path c2) → safe path (and_then c1 c2).
Proof. intros [->|(b & m & ->)] H2; [by apply H2|right]. by exists b, m. Qed.
Lemma safe_all path l : Forall (safe path) l → safe path (all_checked l).
Proof. induction 1; [apply safe_ok|]. by apply safe_and_then. Qed.

Lemma count_ok_total (l : list checked) :
  Forall (λ c, is_Some c) l → ∃ n, count_ok l = Some n.
Proof.
  induction 1 as [|c l [r ->] _ [n IH]]; [by exists 0%nat|]. simpl. rewrite IH. by eexists.
Qed.

Lemma safe_is_Some path c : safe path c → is_Some c.
Proof. intros [->|(b & m & ->)]; by eexists. Qed.

(** ** What makes a check succeed *)

Lemma and_then_Ok c1 c2 :
  and_then c1 c2 = Some (Ok tt) ↔ c1 = Some (Ok tt) ∧ c2 = Some (Ok tt).
Proof. destruct c1 as [[[]|]|]; simpl; naive_solver. Qed.
Lemma all_checked_Ok l : all_checked l = Some (Ok tt) ↔ Forall (λ c, c = Some (Ok tt)) l.
Proof.
  induction l as [|c l IH]; [by split|]. rewrite Forall_cons, <-IH. apply and_then_Ok.
Qed.
Lemma some_ensure_Ok {E} b (e : E) : Some (ensure b e) = Some (Ok tt) ↔ b = true.
Proof. destruct b; naive_solver. Qed.

(** Exactly one option matched. *)
Lemma count_ok_one (l : list checked) :
  Forall (λ c, is_Some c) l →
  count_ok l = Some 1%nat ↔
  ∃ i, l !! i = Some (Some (Ok tt)) ∧ ∀ j, l !! j = Some (Some (Ok tt)) → j = i.
Proof.
  intros Hl. assert (∀ n, count_ok l = Some n →
    (n = 0%nat ↔ ∀ j, l !! j ≠ Some (Some (Ok tt))) ∧
    (n = 1%nat ↔ ∃ i, l !! i = Some (Some (Ok tt)) ∧ ∀ j, l !! j = Some (Some (Ok tt)) → j = i))
    as Hn; [|destruct (count_ok_total l Hl) as [n Hc]; destruct (Hn n Hc) as [_ H1];
             rewrite Hc; rewrite <-H1; naive_solver].
  induction Hl as [|c l [r ->] _ IH]; intros n.
  { intros [= <-]. split; split; try done. by intros (i & Hi & _). }
  cbn [count_ok foldr mbind option_bind]. fold (count_ok l). destruct (count_ok l) as [k|]; [|done].
  intros [= <-]. destruct (IH k eq_refl) as [Hzero Hone]. clear IH. destruct r as [[]|e]; cbn [is_ok].
  - split; [split; [done|intros H0; by destruct (H0 0%nat)]|].
    transitivity (k = 0%nat); [lia|]. rewrite Hzero. split.
    + intros Hno. exists 0%nat. split; [done|]. intros [|j] Hj; [done|]. by destruct (Hno j).
    + intros (i & _ & Hu) j Hj. assert (0%nat = i) by by apply Hu. assert (S j = i) by by apply Hu. lia.
  - change (0 + k)%nat with k. rewrite Hzero, Hone. split; split.
    + intros Hno [|j]; [done|apply Hno].
    + intros Hno j. apply (Hno (S j)).
    + intros (i & Hi & Hu). exists (S i). split; [done|]. intros [|j] Hj; [done|]. f_equal. by apply Hu.
    + intros ([|i] & Hi & Hu); [done|]. exists i. split; [done|]. intros j Hj.
      specialize (Hu (S j) Hj). lia.
Qed.

(** ** What an accepted schema has *)

Section accepted.
Context (debug : string → string).

Definition schema_ok (schema : Value) : Prop := ∃ path, validate_schema debug schema path = Ok tt.

Definition type_of (object : list (string * Value)) : option string :=
  obj_get "type" object ≫= as_str.

(** The parts of an accepted schema that the validation of arguments reaches. *)
Record accepted (object : list (string * Value)) : Prop := {
  ac_options : ∀ options, obj_get "oneOf" object = Some (VArray options) → Forall schema_ok options;
  ac_object : type_of object = Some "object" → ∃ properties,
    obj_get "properties" object = Some (VObject properties) ∧
    Forall (λ p, schema_ok p.2) properties ∧
    ∀ required, obj_get "required" object = Some (VArray required) →
      Forall (λ name, is_Some (as_str name)) required;
  ac_array : type_of object = Some "array" → ∃ items,
    obj_get "items" object = Some items ∧ schema_ok items;
}.

Lemma required_strings properties path names required names' :
  foldM (check_required_entry properties path) names required = Ok names' →
  Forall (λ name, is_Some (as_str name)) required.
Proof.
  revert names. induction required as [|name required IH]; intros names; [constructor|].
  cbn [foldM]. intros (names1 & Hn & Hr)%bind_Ok. constructor; [|by eapply IH].
  destruct name; try done.
Qed.

Lemma schema_type_Ok object path t : schema_type object path = Ok t → type_of object = t.
Proof.
  unfold schema_type, type_of. destruct (obj_get "type" object) as [v|]; [|by intros [= <-]].
  destruct v; try done. by destruct (is_supported_type s); [intros [= <-]|].
Qed.

Lemma schema_ok_inv schema : schema_ok schema → ∃ object, schema = VObject object ∧ accepted object.
Proof.
  intros [path Hs]. destruct schema as [| | | | |object]; try done. exists object. split; [done|].
  cbn [validate_schema] in Hs. rewrite !obj_find_get in Hs.
  apply bind_Ok in Hs as (_ & _ & (_ & _ & (t & <-%schema_type_Ok & Hs)%bind_Ok)%bind_Ok).
  destruct (_ && _); [done|].
  apply bind_Ok in Hs as ([] & Hone & ([] & _ & Hs)%bind_Ok). constructor.
  - intros options Ho. rewrite Ho in Hone. cbn in Hone. destruct (bool_decide (options = [])); [done|].
    apply Forall_lookup. intros i o Hi. rewrite first_error_Ok in Hone. eexists.
    apply (Hone i). rewrite mapi_lookup, Hi. reflexivity.
  - intros Ht. rewrite bool_decide_eq_true_2 in Hs by done.
    destruct (obj_get "properties" object) as [[]|]; try done. cbn in Hs.
    apply bind_Ok in Hs as ([] & Hp & ([] & Hr & _)%bind_Ok). eexists. split; [done|]. split.
    + apply Forall_lookup. intros i p Hi. rewrite first_error_Ok in Hp. eexists.
      apply (Hp i). change (map ?f ?l) with (f <$> l). rewrite list_lookup_fmap, Hi. reflexivity.
    + intros required Hreq. unfold check_required in Hr. rewrite Hreq in Hr.
      apply bind_Ok in Hr as (names & Hn & _). by eapply required_strings.
  - intros Ht. rewrite bool_decide_eq_false_2, bool_decide_eq_true_2 in Hs by congruence.
    destruct (obj_get "items" object) as [items|]; [|done]. cbn in Hs. by eexists _; split; [|eexists].
Qed.

(** ** The equation of [validate_instance] *)

Lemma validate_instance_eq object v path :
  validate_instance (VObject object) v path =
  and_then (match obj_get "oneOf" object with
            | Some (VArray options) =>
                matched ← count_ok ((λ o, validate_instance o v path) <$> options);
                Some (ensure (matched =? 1)%nat
                        (argument_error path "value must match exactly one oneOf option"))
            | _ => Some (Ok tt)
            end)
  (and_then (Some (check_type object v path)) (and_then (Some (check_member object v path))
   (if bool_decide (type_of object = Some "object") then
      entries ← as_object v;
      match obj_get "properties" object with
      | Some (VObject properties) =>
          and_then (check_present object entries path)
            (all_checked ((λ entry, match obj_get entry.1 properties with
               | Some schema => validate_instance schema entry.2 (path +:+ "." +:+ entry.1)
               | None => Some (ensure (additional_allowed object)
                   (argument_error (path +:+ "." +:+ entry.1) "additional property is not allowed"))
               end) <$> entries))
      | _ => None
      end
    else if bool_decide (type_of object = Some "array") then
      match obj_get "items" object with
      | Some items =>
          values ← as_array v;
          all_checked (mapi (λ i value, validate_instance items value (index_path path i)) values)
      | None => None
      end
    else Some (Ok tt)))).
Proof.
  cbn [validate_instance]. fold (type_of object). rewrite !obj_find_get. f_equal.
  { by destruct (obj_get "oneOf" object) as [[]|]. }
  do 2 f_equal. destruct (bool_decide (type_of object = Some "object")).
  - destruct (as_object v) as [entries|]; [|done]. cbn [mbind option_bind]. rewrite obj_find_get.
    destruct (obj_get "properties" object) as [[]|]; try done. cbn. do 2 f_equal.
    apply list_fmap_ext. intros i [name w] _. cbn. rewrite obj_find_get.
    by destruct (obj_get name m).
  - destruct (bool_decide (type_of object = Some "array")); [|done]. rewrite ?obj_find_get.
    by destruct (obj_get "items" object).
Qed.

Lemma typed_object object v path :
  check_type object v path = Ok tt → type_of object = Some "object" → ∃ m, v = VObject m.
Proof.
  unfold check_type. fold (type_of object). intros Hc Ht. rewrite Ht in Hc. apply ensure_Ok in Hc.
  destruct v; try done. by eexists.
Qed.
Lemma typed_array object v path :
  check_type object v path = Ok tt → type_of object = Some "array" → ∃ l, v = VArray l.
Proof.
  unfold check_type. fold (type_of object). intros Hc Ht. rewrite Ht in Hc. apply ensure_Ok in Hc.
  destruct v; try done. by eexists.
Qed.
End accepted.

(** ** Validation does not panic *)

(** The parts that a schema refers to, for the induction. *)
Lemma in_parts (P : Value → Prop) k object v :
  Forall (λ kv, P kv.2) object → obj_get k object = Some v → P v.
Proof. rewrite Forall_forall. intros HP Hk. apply (HP (k, v)). by apply obj_get_elem. Qed.

(** An induction principle on schemas that reaches the elements of arrays and
    the entries of objects. *)
Definition inner (P : Value → Prop) (v : Value) : Prop :=
  match v with
  | VArray l => Forall P l
  | VObject m => Forall (λ kv, P kv.2) m
  | _ => True
  end.
Lemma value_ind_inner (P : Value → Prop) :
  (∀ v, inner P v → inner (inner P) v → P v) → ∀ v, P v.
Proof.
  intros Hstep. assert (∀ v, P v ∧ inner P v) as Hall; [|intros v; apply Hall].
  induction v as [| | | |l IH|m IH] using value_nested_ind;
    (assert (∀ v, inner P v → inner (inner P) v → P v ∧ inner P v) as Hs
       by (intros; split; auto)); apply Hs; simpl; try done.
  1,2: by eapply Forall_impl; [exact IH|]; intros ? [??].
  1,2: by eapply Forall_impl; [exact IH|]; intros ? [??].
Qed.

Section total.
Context (debug : string → string).

Definition always_safe (schema : Value) : Prop :=
  schema_ok debug schema → ∀ v path, safe path (validate_instance schema v path).

Lemma required_safe object entries path :
  (∀ required, obj_get "required" object = Some (VArray required) →
     Forall (λ name, is_Some (as_str name)) required) →
  safe path (check_present object entries path).
Proof.
  intros Hr. apply safe_all, Forall_forall. intros c (name & -> & Hin)%list_elem_of_fmap.
  destruct (obj_get "required" object) as [v|]; [|by apply elem_of_nil in Hin].
  destruct v as [| | | |required|]; cbn in Hin; try by apply elem_of_nil in Hin.
  specialize (Hr required eq_refl). rewrite Forall_forall in Hr. destruct (Hr name Hin) as [s Hs].
  rewrite Hs. cbn [mbind option_bind]. eapply safe_below, safe_ensure.
Qed.

Lemma schema_always_safe schema : always_safe schema.
Proof.
  induction schema as [schema IH IHH] using value_ind_inner.
  intros (object & -> & [Ho Hobj Harr])%schema_ok_inv v path. simpl in IH, IHH.
  rewrite validate_instance_eq. apply safe_and_then.
  { destruct (obj_get "oneOf" object) as [one_of|] eqn:Hone; [|apply safe_ok].
    destruct one_of as [| | | |options|]; try apply safe_ok. specialize (Ho options eq_refl).
    pose proof (in_parts _ _ _ _ IHH Hone) as IHo. simpl in IHo.
    destruct (count_ok_total ((λ o, validate_instance o v path) <$> options)) as [n ->];
      [|apply safe_ensure].
    apply Forall_fmap, Forall_forall. intros o Hin. rewrite Forall_forall in Ho, IHo.
    eapply safe_is_Some, IHo; auto. }
  intros _. apply safe_and_then.
  { unfold check_type. destruct (_ ≫= _); [apply safe_ensure|apply safe_ok]. }
  intros [= Ht]. apply safe_and_then.
  { unfold check_member. destruct (_ ≫= _); [apply safe_ensure|apply safe_ok]. }
  intros _. case_bool_decide as Hty; [|case_bool_decide as Hty2; [|apply safe_ok]].
  - destruct (typed_object _ _ _ Ht Hty) as [entries ->]. cbn [as_object mbind option_bind].
    destruct (Hobj Hty) as (properties & Hp & Hprops & Hreq). rewrite Hp.
    pose proof (in_parts _ _ _ _ IHH Hp) as IHp. simpl in IHp.
    apply safe_and_then; [by apply required_safe|]. intros _. apply safe_all, Forall_fmap, Forall_forall.
    intros [name w] _. cbn. apply (safe_below _ ("." +:+ name)).
    destruct (obj_get name properties) as [s|] eqn:Hs; [|apply safe_ensure].
    apply (in_parts _ _ _ _ IHp Hs). by apply (in_parts _ _ _ _ Hprops Hs).
  - destruct (typed_array _ _ _ Ht Hty2) as [values ->]. cbn [as_array mbind option_bind].
    destruct (Harr Hty2) as (items & Hi & Hok). rewrite Hi. apply safe_all, Forall_lookup.
    intros i c Hc. rewrite mapi_lookup in Hc. destruct (values !! i) as [w|]; [|done].
    injection Hc as <-. eapply safe_below. by apply (in_parts _ _ _ _ IH Hi).
Qed.
End total.

(** ** What acceptance means *)

Definition accepts (schema v : Value) : Prop := ∃ path, validate_instance schema v path = Some (Ok tt).

Definition one_matches (P : Value → Prop) (options : list Value) : Prop :=
  ∃ i o, options !! i = Some o ∧ P o ∧ ∀ j o', options !! j = Some o' → P o' → j = i.

(** The meaning of the keywords of one schema. *)
Record conforms (object : list (string * Value)) (v : Value) : Prop := {
  cf_one_of : ∀ options, obj_get "oneOf" object = Some (VArray options) →
    one_matches (λ o, accepts o v) options;
  cf_type : ∀ t, type_of object = Some t → value_has_type v t = true;
  cf_enum : ∀ values, obj_get "enum" object = Some (VArray values) →
    ∃ c, c ∈ values ∧ value_eqb c v = true;
  cf_required : ∀ required name, type_of object = Some "object" →
    obj_get "required" object = Some (VArray required) → VString name ∈ required →
    is_Some (get name v);
  cf_entries : ∀ properties entries name w, type_of object = Some "object" →
    obj_get "properties" object = Some (VObject properties) → v = VObject entries →
    (name, w) ∈ entries →
    match obj_get name properties with
    | Some schema => accepts schema w
    | None => additional_allowed object = true
    end;
  cf_items : ∀ items l w, type_of object = Some "array" →
    obj_get "items" object = Some items → v = VArray l → w ∈ l → accepts items w;
}.

(** The place in the arguments does not matter for the verdict. *)
Definition uniform (schema : Value) : Prop :=
  ∀ v path, accepts schema v → validate_instance schema v path = Some (Ok tt).

Definition verdict (c : checked) : option bool := is_ok <$> c.

Lemma verdict_Ok c c' : verdict c = verdict c' → c = Some (Ok tt) → c' = Some (Ok tt).
Proof. intros Hv ->. destruct c' as [[[]|]|]; naive_solver. Qed.
Lemma verdict_and_then a a' b b' :
  verdict a = verdict a' → verdict b = verdict b' → verdict (and_then a b) = verdict (and_then a' b').
Proof. destruct a as [[]|], a' as [[]|]; naive_solver. Qed.
Lemma verdict_all {A} (f g : A → checked) l :
  (∀ x, x ∈ l → verdict (f x) = verdict (g x)) →
  verdict (all_checked (f <$> l)) = verdict (all_checked (g <$> l)).
Proof.
  induction l as [|x l IH]; intros H; [done|]. rewrite !fmap_cons. apply verdict_and_then.
  - apply H. left.
  - apply IH. intros y Hy. apply H. by right.
Qed.
Lemma verdict_mapi {A} (f g : nat → A → checked) l i :
  (∀ x i, x ∈ l → verdict (f i x) = verdict (g i x)) →
  verdict (all_checked (mapi_from f i l)) = verdict (all_checked (mapi_from g i l)).
Proof.
  revert i. induction l as [|x l IH]; intros i H; [done|]. apply verdict_and_then.
  - apply H. left.
  - apply IH. intros y j Hy. apply H. by right.
Qed.
Lemma verdict_count {A} (f g : A → checked) l :
  (∀ x, x ∈ l → verdict (f x) = verdict (g x)) → count_ok (f <$> l) = count_ok (g <$> l).
Proof.
  induction l as [|x l IH]; intros H; [done|]. rewrite !fmap_cons. cbn [count_ok foldr].
  fold (count_ok (f <$> l)). fold (count_ok (g <$> l)).
  rewrite (IH (λ y Hy, H y (list_elem_of_further _ _ _ Hy))). specialize (H x (list_elem_of_here _ _)).
  unfold verdict in H. destruct (f x), (g x); cbn in *; try done. by injection H as ->.
Qed.

Definition same_verdict (schema : Value) : Prop :=
  ∀ v p q, verdict (validate_instance schema v p) = verdict (validate_instance schema v q).

Lemma schema_uniform schema : uniform schema.
Proof.
  assert (same_verdict schema) as Hv; [|intros v q [p Hp]; exact (verdict_Ok _ _ (Hv v p q) Hp)].
  induction schema as [schema IH IHH] using value_ind_inner. intros v p q.
  destruct schema as [| | | | |object]; try done. simpl in IH, IHH. rewrite !validate_instance_eq.
  apply verdict_and_then; [|apply verdict_and_then; [|apply verdict_and_then]].
  - destruct (obj_get "oneOf" object) as [o|] eqn:Hone; [|done].
    destruct o as [| | | |options|]; try done. pose proof (in_parts (inner same_verdict) _ _ _ IHH Hone) as IHo.
    simpl in IHo. rewrite Forall_forall in IHo.
    rewrite (verdict_count (λ o, validate_instance o v p) (λ o, validate_instance o v q))
      by (intros o Hin; by apply IHo).
    destruct (count_ok _) as [n|]; [|done]. cbn. by destruct (n =? 1)%nat.
  - unfold check_type. destruct (_ ≫= _); [|done]. by destruct (value_has_type _ _).
  - unfold check_member. destruct (_ ≫= _); [|done]. by destruct (existsb _ _).
  - case_bool_decide; [|case_bool_decide; [|done]].
    + destruct (as_object v) as [entries|]; [|done]. cbn [mbind option_bind].
      destruct (obj_get "properties" object) as [ps|] eqn:Hp; [|done].
      destruct ps as [| | | | |properties]; try done.
      pose proof (in_parts (inner same_verdict) _ _ _ IHH Hp) as IHp. apply verdict_and_then.
      * unfold check_present. apply verdict_all. intros name _. destruct (as_str name); [|done].
        cbn. by destruct (bool_decide _).
      * apply verdict_all. intros [name w] _. cbn.
        destruct (obj_get name properties) as [s|] eqn:Hs; [pose proof (in_parts same_verdict _ _ _ IHp Hs) as Hx; apply Hx|].
        by destruct (additional_allowed object).
    + destruct (obj_get "items" object) as [items|] eqn:Hi; [|done].
      destruct (as_array v) as [l|]; [|done]. apply verdict_mapi. intros w i _.
      pose proof (in_parts same_verdict _ _ _ IH Hi) as Hx. apply Hx.
Qed.

Lemma check_type_Ok object v path :
  check_type object v path = Ok tt ↔ ∀ t, type_of object = Some t → value_has_type v t = true.
Proof.
  unfold check_type. fold (type_of object). destruct (type_of object) as [t|]; [|naive_solver].
  rewrite ensure_Ok. naive_solver.
Qed.

Lemma check_member_Ok object v path :
  check_member object v path = Ok tt ↔
  ∀ values, obj_get "enum" object = Some (VArray values) → ∃ c, c ∈ values ∧ value_eqb c v = true.
Proof.
  unfold check_member. destruct (obj_get "enum" object) as [e|]; [|naive_solver].
  destruct e as [| | | |values|]; cbn; try naive_solver. rewrite ensure_Ok, existsb_exists. split.
  - intros (c & Hin%list_elem_of_In & Hc) ? [= <-]. by exists c.
  - intros H. destruct (H values eq_refl) as (c & Hin%list_elem_of_In & Hc). by exists c.
Qed.

Section meaning.
Context (debug : string → string).

Lemma options_Ok options v path :
  Forall (schema_ok debug) options →
  (matched ← count_ok ((λ o, validate_instance o v path) <$> options);
   Some (ensure (matched =? 1)%nat
           (argument_error path "value must match exactly one oneOf option"))) = Some (Ok tt) ↔
  one_matches (λ o, accepts o v) options.
Proof.
  intros Hok. rewrite Forall_lookup in Hok.
  assert (Forall (λ c : checked, is_Some c) ((λ o, validate_instance o v path) <$> options)) as Hs.
  { apply Forall_fmap, Forall_lookup. intros i o Hi. eapply safe_is_Some, schema_always_safe; eauto. }
  assert (∀ i o, options !! i = Some o →
    (validate_instance o v path = Some (Ok tt) ↔ accepts o v)) as Hacc.
  { intros i o Hi. split; [by intros; exists path|intros; by apply schema_uniform]. }
  transitivity (count_ok ((λ o, validate_instance o v path) <$> options) = Some 1%nat).
  { destruct (count_ok _) as [n|]; cbn [mbind option_bind]; [|done].
    rewrite some_ensure_Ok, Nat.eqb_eq. naive_solver. }
  rewrite count_ok_one by done. unfold one_matches. split.
  - intros (i & Hi & Huniq). rewrite list_lookup_fmap in Hi.
    destruct (options !! i) as [o|] eqn:Ho; [|done]. injection Hi as Hi. exists i, o.
    split; [done|]. split; [by eapply Hacc|]. intros j o' Hj Ha. apply Huniq.
    rewrite list_lookup_fmap, Hj. simpl. f_equal. by eapply Hacc.
  - intros (i & o & Ho & Ha & Huniq). exists i. rewrite list_lookup_fmap, Ho. simpl.
    split; [f_equal; by eapply Hacc|]. intros j Hj. rewrite list_lookup_fmap in Hj.
    destruct (options !! j) as [o'|] eqn:Ho'; [|done]. injection Hj as Hj.
    apply (Huniq j o' Ho'). by eapply Hacc.
Qed.

Lemma check_present_Ok object entries path :
  (∀ required, obj_get "required" object = Some (VArray required) →
     Forall (λ name, is_Some (as_str name)) required) →
  check_present object entries path = Some (Ok tt) ↔
  ∀ required name, obj_get "required" object = Some (VArray required) → VString name ∈ required →
    is_Some (obj_get name entries).
Proof.
  intros Hr. unfold check_present. rewrite all_checked_Ok, Forall_fmap, Forall_forall. split.
  - intros H required name Hreq Hin. rewrite Hreq in H. specialize (H _ Hin). cbn in H.
    apply some_ensure_Ok in H. by apply bool_decide_eq_true in H.
  - intros H name Hin. destruct (obj_get "required" object) as [r|] eqn:Hreq;
      [|by apply elem_of_nil in Hin].
    destruct r as [| | | |required|]; cbn in Hin; try by apply elem_of_nil in Hin.
    specialize (Hr _ eq_refl). rewrite Forall_forall in Hr. destruct (Hr name Hin) as [s Hs].
    destruct name as [| | |n| |]; try done. cbn. apply some_ensure_Ok, bool_decide_eq_true.
    by eapply H.
Qed.

(** The conditions of [conforms] on the body of an object. *)
Lemma entries_Ok object properties entries path :
  all_checked ((λ entry : string * Value, match obj_get entry.1 properties with
    | Some schema => validate_instance schema entry.2 (path +:+ "." +:+ entry.1)
    | None => Some (ensure (additional_allowed object)
        (argument_error (path +:+ "." +:+ entry.1) "additional property is not allowed"))
    end) <$> entries) = Some (Ok tt) ↔
  ∀ name w, (name, w) ∈ entries →
    match obj_get name properties with
    | Some schema => accepts schema w
    | None => additional_allowed object = true
    end.
Proof.
  rewrite all_checked_Ok, Forall_fmap, Forall_forall. split.
  - intros H name w Hin. specialize (H _ Hin). cbn in H.
    destruct (obj_get name properties) as [s|]; [by eexists|]. by apply some_ensure_Ok in H.
  - intros H [name w] Hin. cbn. specialize (H name w Hin).
    destruct (obj_get name properties) as [s|] eqn:Hs; [|by apply some_ensure_Ok].
    by apply schema_uniform.
Qed.

Lemma items_Ok items l path :
  all_checked (mapi (λ i w, validate_instance items w (index_path path i)) l) = Some (Ok tt) ↔
  ∀ w, w ∈ l → accepts items w.
Proof.
  rewrite all_checked_Ok, Forall_lookup. split.
  - intros H w [i Hi]%list_elem_of_lookup. eexists. apply (H i). rewrite mapi_lookup, Hi. done.
  - intros H i c Hc. rewrite mapi_lookup in Hc. destruct (l !! i) as [w|] eqn:Hi; [|done].
    injection Hc as <-. apply schema_uniform, H. by eapply list_elem_of_lookup_2.
Qed.

(** An accepted schema against its meaning. *)
Lemma instance_conforms object v path :
  accepted debug object →
  validate_instance (VObject object) v path = Some (Ok tt) ↔ conforms object v.
Proof.
  intros [Ho Hobj Harr]. rewrite validate_instance_eq, !and_then_Ok.
  assert (∀ A (x y : A), Some x = Some y ↔ x = y) as Hsome by naive_solver.
  rewrite (Hsome _ (check_type _ _ _)), (Hsome _ (check_member _ _ _)). clear Hsome.
  split.
  - intros (Hone & Ht & Hm & Hbody). pose proof (proj1 (check_type_Ok _ _ _) Ht) as Hty.
    split; [|done|by apply (check_member_Ok _ _ path)|..].
    + intros options Hopt. rewrite Hopt in Hone. by apply (options_Ok options v path); [apply Ho|].
    + intros required name Htn Hreq Hin. destruct (typed_object _ _ _ Ht Htn) as [entries ->].
      destruct (Hobj Htn) as (properties & Hp & _ & Hr).
      rewrite bool_decide_eq_true_2 in Hbody by done. cbn in Hbody. rewrite Hp in Hbody.
      apply and_then_Ok in Hbody as [Hpres _]. eapply check_present_Ok in Hpres; eauto.
    + intros properties entries name w Htn Hp -> Hin.
      rewrite bool_decide_eq_true_2 in Hbody by done. cbn in Hbody. rewrite Hp in Hbody.
      apply and_then_Ok in Hbody as [_ Hent]. by eapply entries_Ok in Hent.
    + intros items l w Htn Hi -> Hin.
      rewrite bool_decide_eq_false_2, bool_decide_eq_true_2 in Hbody by congruence.
      rewrite Hi in Hbody. cbn in Hbody. by eapply items_Ok in Hbody.
  - intros [H1 H2 H3 H4 H5 H6].
    assert (check_type object v path = Ok tt) as Ht by by apply check_type_Ok.
    split_and!; [|done|by apply check_member_Ok|].
    + destruct (obj_get "oneOf" object) as [o|] eqn:Hone; [|done].
      destruct o as [| | | |options|]; try done. apply options_Ok; auto.
    + case_bool_decide as Htn; [|case_bool_decide as Htn2; [|done]].
      * destruct (typed_object _ _ _ Ht Htn) as [entries ->]. cbn [as_object mbind option_bind].
        destruct (Hobj Htn) as (properties & Hp & _ & Hr). rewrite Hp. apply and_then_Ok. split.
        -- apply check_present_Ok; [done|]. intros required name Hreq Hin. by eapply H4.
        -- apply entries_Ok. intros name w Hin. by eapply H5.
      * destruct (typed_array _ _ _ Ht Htn2) as [l ->]. cbn [as_array mbind option_bind].
        destruct (Harr Htn2) as (items & Hi & _). rewrite Hi. apply items_Ok.
        intros w Hin. by eapply H6.
Qed.
End meaning.

(** ** Facts about tool scopes and the registry of tools *)

#[local] Open Scope N_scope.

(** ** Scopes *)

Lemma elem_of_btree_set (s : gset string) x : x ∈ btree_set s ↔ x ∈ s.
Proof.
  unfold btree_set, btree_keys. rewrite list_elem_of_fmap. split.
  - intros ([k []] & -> & Hk%elem_of_btree_list). by apply lookup_gset_to_gmap_Some in Hk as [? _].
  - intros Hx. exists (x, tt). split; [done|]. by apply elem_of_btree_list, lookup_gset_to_gmap_Some.
Qed.

Lemma NoDup_btree_set (s : gset string) : NoDup (btree_set s).
Proof. apply NoDup_btree_keys. Qed.

(** The loop over names: what it has put into the map. *)
Lemma narrow_fold s r d (names : list string) named :
  NoDup names → foldM (narrow_name s r d) ∅ names = Ok named →
  ∀ name, if bool_decide (name ∈ names)
          then rank (requested_access r (access s name) name) ≤ rank (access s name) ∧
               default d (named !! name) = requested_access r (access s name) name
          else named !! name = None.
Proof.
  revert named. induction names as [|x names IH] using rev_ind; intros named Hd Hf name.
  { injection Hf as <-. by rewrite bool_decide_eq_false_2 by set_solver. }
  rewrite foldM_snoc in Hf. apply bind_Ok in Hf as (m & Hm & Hx).
  apply NoDup_app in Hd as (Hd & Hnx & _). specialize (IH m Hd Hm name).
  unfold narrow_name in Hx. destruct (N.ltb_spec (rank (access s x))
    (rank (requested_access r (access s x) x))) as [|Hle]; [done|].
  destruct (decide (name = x)) as [->|Hne].
  - rewrite bool_decide_eq_true_2 by set_solver.
    rewrite bool_decide_eq_false_2 in IH by (intros Hin; by apply (Hnx x Hin), list_elem_of_singleton).
    split; [done|]. case_bool_decide as Heq; injection Hx as <-; [by rewrite IH|].
    by rewrite lookup_insert_eq.
  - assert (named !! name = m !! name) as ->.
    { case_bool_decide; injection Hx as <-; [done|]. by rewrite lookup_insert_ne. }
    rewrite (bool_decide_ext (name ∈ names ++ [x]) (name ∈ names)); [done|]. set_solver.
Qed.

(** The access that a narrowed scope gives. *)
Lemma narrowed_access s r s' name :
  narrowed s r = Ok s' →
  validate_restrictions r = Ok tt ∧ rank (access s' name) ≤ rank (access s name) ∧
  access s' name =
    if bool_decide (name ∈ dom (sc_named s) ∪ default ∅ (tl_allow r) ∪ tl_deny r ∪ tl_ask r)
    then requested_access r (access s name) name
    else match tl_allow r with Some _ => Deny | None => access s name end.
Proof.
  unfold narrowed. intros ([] & Hv & Hn)%bind_Ok. split; [done|].
  set (d := match tl_allow r with Some _ => Deny | None => sc_default s end) in *.
  destruct (N.ltb_spec (rank (sc_default s)) (rank d)) as [|Hd]; [done|].
  apply bind_Ok in Hn as (named & Hf & [= <-]).
  pose proof (narrow_fold _ _ _ _ _ (NoDup_btree_set _) Hf name) as Hname.
  unfold access at 1 3. cbn [sc_default sc_named]. revert Hname.
  rewrite (bool_decide_ext _ _ (elem_of_btree_set _ name)). case_bool_decide as Hin.
  - intros [Hle ->]. done.
  - intros ->. assert (access s name = sc_default s) as Ha.
    { unfold access. rewrite (not_elem_of_dom_1 (sc_named s) name) by set_solver. done. }
    rewrite Ha. split; [done|]. cbn. unfold d. by destruct (tl_allow r).
Qed.

Lemma requested_le r parent name :
  tl_allow r = None → rank (requested_access r parent name) ≤ rank parent →
  requested_access r parent name = if bool_decide (name ∈ tl_deny r) then Deny
    else if bool_decide (name ∈ tl_ask r) then AskAccess else parent.
Proof. unfold requested_access. by intros ->. Qed.

(** ** The registry *)

Section runtime.
Context {H A R C : Type}.
Context (debug : string → string).
Abbreviation State := (RuntimeState H A R C).

(** Each tool is registered under its own name with an accepted definition. *)
Definition registry_ok (s : State) : Prop :=
  map_Forall (λ name tool, td_name (rt_definition tool) = name ∧
    validate_definition debug (rt_definition tool) = Ok tt) (rs_tools s).

(** The ids in use were handed out. *)
Definition ids_ok (s : State) : Prop := map_Forall (λ _ tool, rt_id tool < rs_next_id s) (rs_tools s).

Lemma following_next id : id < U64_MAX → following id = id + 1.
Proof. intros Hi. unfold following. rewrite u64_checked_add_fits by lia. done. Qed.

Lemma definition_schema_ok d :
  validate_definition debug (H := H) d = Ok tt → schema_ok debug (td_parameters d) ∧ blank (td_name d) = false.
Proof.
  unfold validate_definition. destruct (blank _); [done|]. intros Hs. split; [by eexists|done].
Qed.

Lemma registry_ok_tools (s s' : State) : rs_tools s' = rs_tools s → registry_ok s → registry_ok s'.
Proof. unfold registry_ok. by intros ->. Qed.

Lemma insert_tool_ok d (s : State) g s' :
  validate_definition debug d = Ok tt → insert_tool d s = (g, s') → registry_ok s → registry_ok s'.
Proof.
  intros Hv [= <- <-] Hok. unfold registry_ok. cbn. by apply map_Forall_insert_2.
Qed.

Lemma insert_tools_ok ds (s : State) gs s' :
  Forall (λ d, validate_definition debug d = Ok tt) ds → insert_tools ds s = (gs, s') →
  registry_ok s → registry_ok s'.
Proof.
  intros Hf. revert s gs s'. induction Hf as [|d ds Hd _ IH]; intros s gs s'; cbn [insert_tools].
  { by intros [= <- <-]. }
  destruct (insert_tool d s) as [g s1] eqn:Hi. destruct (insert_tools ds s1) as [gs1 s2] eqn:Hr.
  intros [= <- <-] Hok. eapply IH; [done|]. by eapply insert_tool_ok.
Qed.

Lemma remove_names_ok names (s : State) : registry_ok s → registry_ok (remove_names names s).
Proof. intros Hok name tool (Ht & _)%map_lookup_filter_Some. by apply Hok. Qed.

(** What the insertions of distinct names have done. *)
Lemma insert_tools_spec ds (s : State) gs s' :
  NoDup (td_name <$> ds) → rs_next_id s + N.of_nat (length ds) ≤ U64_MAX →
  insert_tools ds s = (gs, s') →
  rs_next_id s' = rs_next_id s + N.of_nat (length ds) ∧ length gs = length ds ∧
  (∀ name, name ∉ td_name <$> ds → rs_tools s' !! name = rs_tools s !! name) ∧
  (∀ i d, ds !! i = Some d →
     rs_tools s' !! td_name d = Some (mkRegisteredTool (rs_next_id s + N.of_nat i) d) ∧
     gs !! i = Some (mkToolRegistration (td_name d) (rs_next_id s + N.of_nat i) false)).
Proof.
  revert s gs s'. induction ds as [|d ds IH]; intros s gs s' Hd Hn; cbn [insert_tools].
  { intros [= <- <-]. split_and!; try done. cbn. lia. }
  rewrite fmap_cons in Hd. apply NoDup_cons in Hd as [Hnd Hd]. cbn [length] in Hn.
  unfold insert_tool. destruct (insert_tools ds (set_tools _ _ s)) as [gs1 s2] eqn:Hr.
  intros [= <- <-]. rewrite following_next in Hr by lia.
  apply IH in Hr as (Hnx & Hl & Hother & Hin); [|done|cbn; lia]. cbn [rs_next_id set_tools] in *.
  split_and!; [cbn [length]; lia|cbn; by rewrite Hl|..].
  - intros name Hname. rewrite fmap_cons, not_elem_of_cons in Hname. destruct Hname.
    rewrite Hother by done. cbn. by apply lookup_insert_ne.
  - intros [|i] d' Hi; cbn in Hi.
    + injection Hi as ->. rewrite Hother by done. cbn. rewrite lookup_insert_eq, N.add_0_r. done.
    + destruct (Hin i d' Hi) as [Ht Hg].
      replace (rs_next_id s + N.of_nat (S i)) with (rs_next_id s + 1 + N.of_nat i) by lia. done.
Qed.

Lemma check_replacement_fold ds names :
  foldM (check_replacement (H := H) debug) ∅ ds = Ok names →
  NoDup (td_name <$> ds) ∧ Forall (λ d, validate_definition debug d = Ok tt) ds.
Proof.
  intros Hf. assert (NoDup (td_name <$> ds) ∧ Forall (λ d, validate_definition debug d = Ok tt) ds ∧
    names = list_to_set (td_name <$> ds)) as (? & ? & _); [|done].
  revert names Hf. induction ds as [|d ds IH] using rev_ind; intros names.
  { intros [= <-]. split_and!; [constructor|constructor|done]. }
  rewrite foldM_snoc. intros (m & (Hd & Hv & ->)%IH & Hx)%bind_Ok.
  unfold check_replacement in Hx. apply bind_Ok in Hx as ([] & Hval & Hx).
  case_bool_decide as Hin; [done|]. injection Hx as <-. rewrite fmap_app. cbn.
  split_and!.
  - apply NoDup_app. split; [done|]. split; [|by apply NoDup_singleton].
    intros y Hy ->%list_elem_of_singleton. by rewrite elem_of_list_to_set in Hin.
  - apply Forall_app. split; [done|]. by constructor.
  - apply set_eq. intros y. rewrite list_to_set_app. set_solver.
Qed.

(** ** Reachable registries *)

(** One critical section of any task; what runs between two sections of an
    operation is made of such steps as well. *)
Inductive tool_step : State → State → Prop :=
| ts_insert d s g s' :
    validate_definition debug d = Ok tt → rs_tools s !! td_name d = None →
    insert_tool d s = (g, s') → tool_step s s'
| ts_replace prior ds names s r s' :
    foldM (check_replacement debug) ∅ ds = Ok names →
    replace_locked prior (merge_sort name_le ds) s = (r, s') → tool_step s s'
(* A closed registration, a superset of what [close_registration] deletes. *)
| ts_delete name s : tool_step s (set_tools (rs_next_id s) (delete name (rs_tools s)) s)
| ts_approval a s : tool_step s (set_approval a s)
| ts_results o s g s' : observe_results o s = (g, s') → tool_step s s'
| ts_changes o s g s' : observe_changes o s = (g, s') → tool_step s s'
| ts_close_observer g s r g' s' : close_observer g s = (r, g', s') → tool_step s s'.

Lemma replace_locked_ok prior ds (s : State) r s' :
  Forall (λ d, validate_definition debug d = Ok tt) ds →
  replace_locked prior ds s = (r, s') → registry_ok s → registry_ok s'.
Proof.
  intros Hd. unfold replace_locked. destruct (find _ ds); [by intros [= _ <-]|].
  destruct (insert_tools ds _) as [gs s1] eqn:Hi. intros [= _ <-] Hok.
  eapply insert_tools_ok; [done..|]. by apply remove_names_ok.
Qed.

Lemma tool_step_ok s s' : tool_step s s' → registry_ok s → registry_ok s'.
Proof.
  intros [d s0 g s0' Hv _ Hi|prior ds names s0 r s0' Hc Hr|name s0|a s0|o s0 g s0' Ho|o s0 g s0' Ho
    |g s0 r g' s0' Hc] Hok.
  - by eapply insert_tool_ok.
  - apply check_replacement_fold in Hc as [_ Hd]. eapply replace_locked_ok; [|done|done].
    by rewrite merge_sort_Permutation.
  - unfold registry_ok. cbn. by apply map_Forall_delete.
  - done.
  - by injection Ho as <- <-.
  - by injection Ho as <- <-.
  - unfold close_observer in Hc. destruct (tor_closed g); [by simplify_eq|].
    destruct (tor_kind g); by simplify_eq.
Qed.

Lemma reachable_ok s : rtc tool_step runtime_new s → registry_ok s.
Proof.
  intros Hs. assert (registry_ok runtime_new) as H0 by apply map_Forall_empty. revert H0.
  induction Hs; [done|]. intros Hok. by eapply IHHs, tool_step_ok.
Qed.
End runtime.
