(* ===== verification/Jsonl.v ===== *)
(** * The JSONL back end (persistence_jsonl.rs)

    Log files as byte strings: one JSON text per line, or one compressed and
    checksummed frame per record.  The third-party codecs (serde_json's text
    forms, zstd, crc32) are the parameters [JsonText] and [Zstd]; the disk is the
    parameter [Disk], which says for each input or output step of a call
    whether it fails, and how many bytes a failing write has left in the file.
    The gate of a session makes its writes atomic with respect to each other. *)

From S2P Require Import Prelude Json Protocol Session.

#[local] Open Scope N_scope.

Abbreviation bytes := (list ascii).
Definition newline : ascii := ascii_of_nat 10.

Inductive JsonlStorageFormat := Raw | Zstd.
#[export] Instance JsonlStorageFormat_eq_dec : EqDecision JsonlStorageFormat.
Proof. solve_decision. Defined.

(** serde_json on the types of the log. *)
Class JsonText := {
  value_of_text : bytes → result string Value;
  event_of_text : bytes → result string SessionEvent;
  event_text : SessionEvent → bytes;
  header_text : SessionHeader → bytes;
  header_of_value : Value → result string SessionHeaderWire;
}.
(** zstd and crc32fast. *)
Class Compression := {
  crc32 : bytes → N;
  encode_all : bytes → result string bytes;
  decode_all : bytes → result string bytes;
}.
(** The answer of the disk to the [i]-th step of the call with a token: [None], or
    the text of an error and the number of bytes written before it. *)
Class Disk := io_fault : token → nat → option (string * nat).

(** ** Names of files *)

Definition RAW_SUFFIX : string := ".jsonl".
Definition ZSTD_SUFFIX : string := ".jsonl.zst".
Definition FILE_PREFIX : string := "session-".
Definition FRAME_HEADER_LEN : nat := 8.

(** [{byte:02x}]. *)
Definition hex_char (n : N) : ascii :=
  if n <? 10 then ascii_of_N (48 + n) else ascii_of_N (87 + n).
Definition hex_byte (a : ascii) : bytes := [hex_char (byte a / 16); hex_char (byte a mod 16)].
Definition encode_id (id : SessionId) : string := string_of (mjoin (hex_byte <$> bytes_of id)).

Definition raw_path (id : SessionId) : string := FILE_PREFIX +:+ encode_id id +:+ RAW_SUFFIX.
Definition compressed_path (id : SessionId) : string := FILE_PREFIX +:+ encode_id id +:+ ZSTD_SUFFIX.
Definition new_path (format : JsonlStorageFormat) (id : SessionId) : string :=
  match format with Raw => raw_path id | Zstd => compressed_path id end.

Definition hex_digit (a : ascii) : option N :=
  let n := byte a in
  if (48 <=? n) && (n <=? 57) then Some (n - 48)
  else if (97 <=? n) && (n <=? 102) then Some (n - 97 + 10)
  else if (65 <=? n) && (n <=? 70) then Some (n - 65 + 10)
  else None.

(** [String::from_utf8]: the well-formed byte sequences of the Unicode standard. *)
Definition continuation (a : ascii) : bool := (128 <=? byte a) && (byte a <=? 191).
Definition in_range (lo hi : N) (a : ascii) : bool := (lo <=? byte a) && (byte a <=? hi).
Fixpoint utf8 (l : bytes) : bool :=
  match l with
  | [] => true
  | a :: l =>
      if byte a <? 128 then utf8 l
      else match l with
      | b :: l =>
          if in_range 194 223 a then continuation b && utf8 l
          else match l with
          | c :: l =>
              if byte a =? 224 then in_range 160 191 b && continuation c && utf8 l
              else if byte a =? 237 then in_range 128 159 b && continuation c && utf8 l
              else if in_range 225 239 a then continuation b && continuation c && utf8 l
              else match l with
              | d :: l =>
                  (if byte a =? 240 then in_range 144 191 b
                   else if byte a =? 244 then in_range 128 143 b
                   else in_range 241 243 a && continuation b)
                  && continuation c && continuation d && utf8 l
              | [] => false
              end
          | [] => false
          end
      | [] => false
      end
  end.

(** The loop over pairs of digits. *)
Fixpoint decode_pairs (l : bytes) : option bytes :=
  match l with
  | a :: b :: l =>
      high ← hex_digit a; low ← hex_digit b; rest ← decode_pairs l;
      Some (ascii_of_N (high * 16 + low) :: rest)
  | _ => Some []
  end.
Definition decode_id (encoded : string) : option string :=
  if is_empty encoded || negb (str_len encoded mod 2 =? 0) then None
  else
    l ← decode_pairs (bytes_of encoded);
    if utf8 l then Some (string_of l) else None.

Definition strip_prefix (p l : bytes) : option bytes :=
  if bool_decide (take (length p) l = p) then Some (drop (length p) l) else None.
Definition strip_suffix (p l : bytes) : option bytes :=
  let n := (length l - length p)%nat in
  if bool_decide (drop n l = p) then Some (take n l) else None.

(** [id_from_path] on a file name. *)
Definition id_from_path (name : string) : option (SessionId * JsonlStorageFormat) :=
  name ← strip_prefix (bytes_of FILE_PREFIX) (bytes_of name);
  '(encoded, format) ←
    match strip_suffix (bytes_of ZSTD_SUFFIX) name with
    | Some encoded => Some (encoded, Zstd)
    | None => (λ encoded, (encoded, Raw)) <$> strip_suffix (bytes_of RAW_SUFFIX) name
    end;
  (λ id, (id, format)) <$> decode_id (string_of encoded).

(** ** Errors *)

Inductive SessionParseError :=
| Corrupt (message : string)
| ParseProtocol (e : TessivumError).

Record StoredSession := mkStored { sd_header : SessionHeader; sd_events : list SessionEvent }.

Record SessionRawArtifact := mkArtifact { ra_filename : string; ra_bytes : bytes }.

Definition persistence_error (operation message : string) : SessionError :=
  EProtocol (TessivumError_new "SESSION_PERSISTENCE_IO" (operation +:+ ": " +:+ message)
               "persistence" VNull).

(** ** Records *)

Section records.
Context `{ProtocolWire, JsonText, Compression}.
(** The environment of the mode migration, [Debug] of a string, and [Display] of
    the errors. *)
Context (root : string) (debug : string → string).
Context (error_text : TessivumError → string) (session_text : SessionError → string).

Definition in_quotes (s : string) : bytes := [ascii_of_nat 34] ++ bytes_of s ++ [ascii_of_nat 34].
Definition header_line (header : SessionHeader) : bytes :=
  bytes_of "{" ++ in_quotes "type" ++ bytes_of ":" ++ in_quotes "session" ++ bytes_of "," ++
  drop 1 (header_text header).
Definition header_record (header : SessionHeader) : bytes := header_line header ++ [newline].

Definition event_record (event : SessionEvent) : bytes := event_text event ++ [newline].

(** [u32::to_be_bytes] and [u32::from_be_bytes]. *)
Definition be32 (n : N) : bytes :=
  ascii_of_N <$> [n / 2 ^ 24 mod 256; n / 2 ^ 16 mod 256; n / 2 ^ 8 mod 256; n mod 256].
Definition from_be32 (l : bytes) : N := foldl (λ n a, n * 256 + byte a) 0 l.

Definition encode_frame (record : bytes) : result SessionError bytes :=
  compressed ← map_err (persistence_error "encode compressed frame") (encode_all record);
  let n := N.of_nat (length compressed) in
  if n <=? 2 ^ 32 - 1 then Ok (be32 (crc32 compressed) ++ be32 n ++ compressed)
  else Err (persistence_error "encode compressed frame" "frame exceeds u32 length").

Definition encode_record (format : JsonlStorageFormat) (record : bytes) : result SessionError bytes :=
  match format with Raw => Ok record | Zstd => encode_frame record end.

(** [serde_json::from_slice::<Value>(record).is_err()]. *)
Definition malformed (record : bytes) : bool := negb (is_ok (value_of_text record)).

(** The scan over the bytes; [line] is what follows the last newline. *)
Fixpoint raw_records (line l : bytes) : result string (list bytes) :=
  match l with
  | [] => Ok (if bool_decide (line = []) || malformed line then [] else [line])
  | a :: l =>
      if bool_decide (a = newline) then
        if bool_decide (line = []) then Err "empty JSONL record in committed prefix"
        else if malformed line then Err "malformed JSONL record in committed prefix"
        else rest ← raw_records [] l; Ok (line :: rest)
      else raw_records (line ++ [a]) l
  end.
Definition parse_raw_records (l : bytes) : result string (list bytes) := raw_records [] l.

(** One frame off the front: [None] at a torn tail. *)
Definition next_frame (l : bytes) : option (N * bytes * bytes) :=
  if (length l <? FRAME_HEADER_LEN)%nat then None
  else
    let checksum := from_be32 (take 4 l) in
    let n := N.to_nat (from_be32 (take 4 (drop 4 l))) in
    let rest := drop FRAME_HEADER_LEN l in
    if (length rest <? n)%nat then None else Some (checksum, take n rest, drop n rest).

(** The JSONL line in a frame, its newline included. *)
Definition frame_line (checksum : N) (compressed : bytes) : result string bytes :=
  if negb (crc32 compressed =? checksum) then Err "compressed frame checksum mismatch"
  else
    record ← map_err (λ e, "invalid compressed frame: " +:+ e) (decode_all compressed);
    if negb (bool_decide (last record = Some newline))
       || bool_decide (newline ∈ take (length record - 1) record)
    then Err "compressed frame does not contain exactly one JSONL record"
    else Ok record.

(** Each frame takes at least its header off, so the number of bytes is fuel
    enough. *)
Fixpoint zstd_records (fuel : nat) (l : bytes) : result string (list bytes) :=
  match fuel with
  | O => Ok []
  | S fuel =>
      match next_frame l with
      | None => Ok []
      | Some (checksum, compressed, l) =>
          line ← frame_line checksum compressed;
          let record := take (length line - 1) line in
          if bool_decide (record = []) || malformed record then
            Err "malformed JSONL record in compressed frame"
          else rest ← zstd_records fuel l; Ok (record :: rest)
      end
  end.
Definition parse_zstd_records (l : bytes) : result string (list bytes) := zstd_records (length l) l.

Fixpoint zstd_raw (fuel : nat) (l : bytes) : result string bytes :=
  match fuel with
  | O => Ok []
  | S fuel =>
      match next_frame l with
      | None => Ok []
      | Some (checksum, compressed, l) =>
          line ← frame_line checksum compressed;
          rest ← zstd_raw fuel l; Ok (line ++ rest)
      end
  end.
Definition decode_zstd_raw (l : bytes) : result string bytes := zstd_raw (length l) l.

(** The bytes after the last newline are dropped unless they are a record. *)
Definition after_newline (l : bytes) : nat :=
  match list_find (eq newline) (reverse l) with
  | Some (i, _) => length l - i
  | None => 0
  end.
Definition committed_raw_bytes (l : bytes) : bytes :=
  let start := after_newline l in
  if (start <? length l)%nat && malformed (drop start l) then take start l else l.

(** ** Sessions *)

Definition parse_header (record : bytes) : result SessionParseError SessionHeader :=
  value ← map_err (λ e, Corrupt ("invalid session header: " +:+ e)) (value_of_text record);
  object ← ok_or (as_object value) (Corrupt "session header must be a JSON object");
  _ ← match obj_get "type" object with
      | Some (VString kind) =>
          ensure (String.eqb kind "session") (Corrupt "first JSONL record must have type=session")
      | _ => Err (Corrupt "first JSONL record must have type=session")
      end;
  map_err (λ e, if String.eqb (err_code e) "MODE_MIGRATION_REQUIRED" then ParseProtocol e
                else Corrupt ("invalid session header: " +:+ error_text e))
    (wire ← map_err (λ reason, invalid "INVALID_SESSION_HEADER" "session header is invalid"
                       (json_object [("reason", VString reason)]))
              (header_of_value (VObject (obj_remove "type" object)));
     from_wire root debug wire).

(** One round of the loop over the event records. *)
Definition parse_event (events : list SessionEvent) (record : bytes) :
    result SessionParseError (list SessionEvent) :=
  event ← map_err (λ e, Corrupt ("invalid session event: " +:+ e)) (event_of_text record);
  '(t, data) ← map_err ParseProtocol
                 (migrate_legacy_agent_preset_selection root debug (event_type event) (ev_data event));
  let event := mkEvent t (ev_seq event) (ev_time event) data (ev_ignorable event)
                 (ev_source_event_seqs event) (ev_surface_op event) in
  _ ← map_err (λ e, Corrupt (error_text e)) (SessionEvent_validate event);
  expected ← map_err (λ e, Corrupt (session_text e)) (next_seq events);
  if negb (ev_seq event =? expected) then
    Err (Corrupt ("session event sequence is not contiguous: expected " +:+ fmt_N expected +:+
                  ", got " +:+ fmt_N (ev_seq event)))
  else Ok (events ++ [event]).

Definition parse_records (format : JsonlStorageFormat) (l : bytes) : result string (list bytes) :=
  match format with Raw => parse_raw_records l | Zstd => parse_zstd_records l end.

Definition parse_session (format : JsonlStorageFormat) (expected_id : SessionId) (l : bytes) :
    result SessionParseError StoredSession :=
  records ← map_err Corrupt (parse_records format l);
  match records with
  | [] => Err (Corrupt "session log has no header record")
  | header_record :: event_records =>
      header ← parse_header header_record;
      if is_empty (h_id header) then Err (Corrupt "session header ID is empty")
      else
        _ ← map_err (λ e, Corrupt (error_text e)) (SessionHeader_validate header);
        if negb (String.eqb expected_id (h_id header)) then
          Err (Corrupt "session header ID does not match its log path")
        else
          events ← foldM parse_event [] event_records;
          Ok (mkStored header events)
  end.
End records.

(** ** The store *)

(** The files under the root, by name; temporary files have names that no
    operation looks at. *)
Record JsonlSessionPersistence := mkJsonl {
  js_format : JsonlStorageFormat;
  js_files : gmap string bytes;
  js_flush_counts : gmap SessionId N;
}.
Definition with_format (format : JsonlStorageFormat) : JsonlSessionPersistence := mkJsonl format ∅ ∅.

Section store.
Context `{ProtocolWire, JsonText, Compression, Disk}.
Context (root : string) (debug : string → string).
Context (error_text : TessivumError → string) (session_text : SessionError → string).
(** The text of a path under the root directory of the logs, and the order in
    which the directory gives its entries. *)
Context (display : string → string) (read_dir : list string → list string).
Abbreviation store := JsonlSessionPersistence.

Definition put_file (path : string) (content : bytes) (s : store) : store :=
  mkJsonl (js_format s) (<[path := content]> (js_files s)) (js_flush_counts s).

Definition io_error (operation path error : string) : SessionError :=
  persistence_error operation (display path +:+ ": " +:+ error).
Definition log_error (path message : string) : SessionError :=
  EProtocol (TessivumError_new "SESSION_LOG_CORRUPT" message "persistence"
               (json_object [("path", VString (display path))])).
Definition session_parse_error (path : string) (e : SessionParseError) : SessionError :=
  match e with Corrupt message => log_error path message | ParseProtocol e => EProtocol e end.

(** A step that does not write. *)
Definition io (t : token) (i : nat) (operation path : string) : result SessionError unit :=
  match io_fault t i with
  | Some (error, _) => Err (io_error operation path error)
  | None => Ok tt
  end.

(** [existing_path]; it takes the steps [i] and [i + 1]. *)
Definition existing_path (t : token) (i : nat) (id : SessionId) (s : store) :
    result SessionError (option (string * JsonlStorageFormat)) :=
  _ ← io t i "inspect log path" (raw_path id);
  if bool_decide (is_Some (js_files s !! raw_path id)) then Ok (Some (raw_path id, Raw))
  else
    _ ← io t (i + 1) "inspect log path" (compressed_path id);
    if bool_decide (is_Some (js_files s !! compressed_path id)) then
      Ok (Some (compressed_path id, Zstd))
    else Ok None.

(** [parse_session] of a file, with the path in its errors. *)
Definition parse_file (path : string) (format : JsonlStorageFormat) (id : SessionId) (s : store) :
    result SessionError StoredSession :=
  map_err (session_parse_error path)
    (parse_session root debug error_text session_text format id (default [] (js_files s !! path))).

Definition read_session (t : token) (i : nat) (id : SessionId) (s : store) :
    result SessionError (option StoredSession) :=
  o ← existing_path t i id s;
  match o with
  | None => Ok None
  | Some (path, format) =>
      _ ← io t (i + 2) "read" path;
      Some <$> parse_file path format id s
  end.

(** [write_new]: the steps before the rename touch only a temporary file. *)
Definition write_new (t : token) (i : nat) (path : string) (record : bytes) (s : store) :
    result SessionError unit * store :=
  match _ ← io t i "create root" "";
        _ ← io t (i + 1) "create temporary log" path;
        _ ← io t (i + 2) "write temporary log" path;
        _ ← io t (i + 3) "sync temporary log" path;
        io t (i + 4) "rename temporary log" path with
  | Err e => (Err e, s)
  | Ok _ =>
      (_ ← io t (i + 5) "open log directory" ""; io t (i + 6) "sync log directory" "",
       put_file path record s)
  end.

(** The checks of both creations under the gate. *)
Definition check_absent (t : token) (id : SessionId) (s : store) : result SessionError unit :=
  _ ← check_cancellation (check 1 t);
  o ← existing_path t 0 id s;
  match o with Some _ => Err (EAlreadyExists id) | None => Ok tt end.

Definition jsonl_create (t : token) (header : SessionHeader) (s : store) :
    result SessionError unit * store :=
  match _ ← check_cancellation (check 0 t); _ ← validate_header header;
        _ ← check_absent t (h_id header) s;
        encode_record (js_format s) (header_record header) with
  | Err e => (Err e, s)
  | Ok record => write_new t 2 (new_path (js_format s) (h_id header)) record s
  end.

(** The records of the events, with a look at the token before each. *)
Fixpoint seed_records (t : token) (i : nat) (format : JsonlStorageFormat)
    (events : list SessionEvent) : result SessionError bytes :=
  match events with
  | [] => Ok []
  | event :: events =>
      _ ← check_cancellation (check i t);
      record ← encode_record format (event_record event);
      rest ← seed_records t (S i) format events;
      Ok (record ++ rest)
  end.

Definition jsonl_create_seeded (t : token) (header : SessionHeader) (events : list SessionEvent)
    (s : store) : result SessionError unit * store :=
  match _ ← check_cancellation (check 0 t); _ ← validate_header header;
        _ ← check_seed_events 0 events;
        _ ← check_absent t (h_id header) s;
        record ← encode_record (js_format s) (header_record header);
        rest ← seed_records t 2 (js_format s) events;
        Ok (record ++ rest) with
  | Err e => (Err e, s)
  | Ok records => write_new t 2 (new_path (js_format s) (h_id header)) records s
  end.

(** The checks of an append: the log it goes to and the bytes to write.  The
    second look for the log finds what the first did ([expect]). *)
Definition jsonl_check_append (t : token) (id : SessionId) (event : SessionEvent) (s : store) :
    result SessionError (string * bytes) :=
  _ ← check_cancellation (check 0 t);
  _ ← protocol (SessionEvent_validate event);
  _ ← check_cancellation (check 1 t);
  o ← read_session t 0 id s;
  session ← ok_or o (ENotFound id);
  expected ← next_seq (sd_events session);
  if negb (ev_seq event =? expected) then Err (ESequenceGap expected (ev_seq event))
  else
    o ← existing_path t 3 id s;
    '(path, format) ← ok_or o (ENotFound id);
    record ← encode_record format (event_record event);
    _ ← io t 5 "open log for append" path;
    Ok (path, record).

(** [write_all] on a file opened for appending: what a failure has written stays. *)
Definition append_bytes (t : token) (path : string) (record : bytes) (s : store) :
    result SessionError unit * store :=
  let content := default [] (js_files s !! path) in
  match io_fault t 6 with
  | Some (error, n) =>
      (Err (io_error "append log" path error), put_file path (content ++ take n record) s)
  | None => (io t 7 "sync appended log" path, put_file path (content ++ record) s)
  end.

Definition jsonl_append (t : token) (id : SessionId) (event : SessionEvent) (s : store) :
    result SessionError unit * store :=
  match jsonl_check_append t id event s with
  | Err e => (Err e, s)
  | Ok (path, record) => append_bytes t path record s
  end.

Definition jsonl_read_raw (t : token) (id : SessionId) (s : store) :
    result SessionError (option SessionRawArtifact) :=
  _ ← check_cancellation (check 0 t);
  _ ← check_cancellation (check 1 t);
  o ← existing_path t 0 id s;
  match o with
  | None => Ok None
  | Some (path, format) =>
      _ ← io t 2 "read" path;
      _ ← check_cancellation (check 2 t);
      _ ← parse_file path format id s;
      let stored := default [] (js_files s !! path) in
      content ← match format with
                | Raw => Ok (committed_raw_bytes stored)
                | Zstd => map_err (log_error path) (decode_zstd_raw stored)
                end;
      _ ← check_cancellation (check 3 t);
      Ok (Some (mkArtifact "session.jsonl" content))
  end.

Definition jsonl_load (t : token) (id : SessionId) (s : store) :
    result SessionError (option SessionHeader) :=
  _ ← check_cancellation (check 0 t);
  o ← read_session t 0 id s; Ok (option_map sd_header o).

Definition inspect_stored (id : SessionId) (session : StoredSession) (s : store) :
    result SessionError SessionInspection :=
  next ← next_seq (sd_events session);
  Ok (mkInspection (sd_header session) (N.of_nat (length (sd_events session))) next
        (default 0 (js_flush_counts s !! id))).

Definition jsonl_inspect (t : token) (id : SessionId) (s : store) :
    result SessionError (option SessionInspection) :=
  _ ← check_cancellation (check 0 t);
  o ← read_session t 0 id s;
  match o with
  | None => Ok None
  | Some session => Some <$> inspect_stored id session s
  end.

Definition jsonl_read_from (t : token) (id : SessionId) (from_seq : N) (s : store) :
    result SessionError (list SessionEvent) :=
  _ ← check_cancellation (check 0 t);
  o ← read_session t 0 id s;
  session ← ok_or o (ENotFound id);
  Ok (filter (λ e, from_seq ≤ ev_seq e) (sd_events session)).

(** The step [2] opens the file, which an empty write does not change. *)
Definition jsonl_flush (t : token) (id : SessionId) (s : store) : result SessionError unit * store :=
  match _ ← check_cancellation (check 0 t); _ ← check_cancellation (check 1 t);
        o ← existing_path t 0 id s;
        '(path, _) ← ok_or o (ENotFound id);
        _ ← io t 2 "open log for flush" path;
        _ ← io t 3 "flush log" path;
        ok_or (u64_checked_add (default 0 (js_flush_counts s !! id)) 1) ESequenceExhausted with
  | Err e => (Err e, s)
  | Ok count => (Ok tt, mkJsonl (js_format s) (js_files s) (<[id := count]> (js_flush_counts s)))
  end.

(** Removes one of the two logs; a missing file is skipped. *)
Definition remove_log (t : token) (i : nat) (path : string) (s : store) :
    result SessionError bool * store :=
  match js_files s !! path with
  | None => (Ok false, s)
  | Some _ =>
      match io t i "delete session log" path with
      | Err e => (Err e, s)
      | Ok _ => (Ok true, mkJsonl (js_format s) (delete path (js_files s)) (js_flush_counts s))
      end
  end.

Definition jsonl_delete (t : token) (id : SessionId) (s : store) : result SessionError unit * store :=
  match _ ← check_cancellation (check 0 t); check_cancellation (check 1 t) with
  | Err e => (Err e, s)
  | Ok _ =>
      match remove_log t 0 (raw_path id) s with
      | (Err e, s) => (Err e, s)
      | (Ok raw, s) =>
          match remove_log t 1 (compressed_path id) s with
          | (Err e, s) => (Err e, s)
          | (Ok compressed, s) =>
              if negb (raw || compressed) then (Err (ENotFound id), s)
              else match _ ← io t 2 "open log directory" ""; io t 3 "sync log directory" "" with
              | Err e => (Err e, s)
              | Ok _ => (Ok tt, mkJsonl (js_format s) (js_files s) (delete id (js_flush_counts s)))
              end
          end
      end
  end.

(** [list]; a directory that cannot be read is not modelled. *)
Fixpoint list_logs (t : token) (i : nat) (names : list string) (s : store) :
    result SessionError (list SessionInspection) :=
  match names with
  | [] => Ok []
  | name :: names =>
      _ ← check_cancellation (check (S i) t);
      match id_from_path name with
      | None => list_logs t (S i) names s
      | Some (id, format) =>
          _ ← io t i "read" name;
          session ← parse_file name format id s;
          inspection ← inspect_stored id session s;
          rest ← list_logs t (S i) names s;
          Ok (inspection :: rest)
      end
  end.

Definition inspection_le (a b : SessionInspection) : Prop :=
  String.leb (h_id (si_header a)) (h_id (si_header b)) = true.
#[export] Instance inspection_le_dec a b : Decision (inspection_le a b).
Proof. unfold inspection_le. apply _. Defined.

(** [dedup_by]: an element equal to its predecessor that was kept goes. *)
Fixpoint dedup_inspections (kept : option SessionId) (l : list SessionInspection) :
    list SessionInspection :=
  match l with
  | [] => []
  | x :: l =>
      let id := h_id (si_header x) in
      if bool_decide (kept = Some id) then dedup_inspections kept l
      else x :: dedup_inspections (Some id) l
  end.

Definition jsonl_list (t : token) (s : store) :
    result SessionError (list SessionInspection) :=
  _ ← check_cancellation (check 0 t);
  l ← list_logs t 0 (read_dir (btree_keys (js_files s))) s;
  Ok (dedup_inspections None (merge_sort inspection_le l)).

#[export] Instance jsonl_persistence : SessionPersistence store := {|
  p_create := jsonl_create;
  p_append := jsonl_append;
  p_create_seeded := jsonl_create_seeded;
  p_load := jsonl_load;
  p_inspect := jsonl_inspect;
  p_read_from := jsonl_read_from;
  p_flush := jsonl_flush;
  p_delete := jsonl_delete;
  p_list := jsonl_list;
|}.
End store.
