(* ===== verification/JsonlFacts.v ===== *)
(** * Facts about JSONL logs

    The identifiers in file names, records and frames and how they concatenate,
    and what a file reads as. *)

From S2P Require Import Prelude Json Protocol Session SessionFacts RestoreFacts Jsonl.

#[local] Open Scope N_scope.

(** ** Big-endian words *)

Lemma byte_ascii n : n < 256 → byte (ascii_of_N n) = n.
Proof. intros Hn. unfold byte. by apply N_ascii_embedding. Qed.

Lemma be32_length n : length (be32 n) = 4%nat.
Proof. done. Qed.

Lemma from_be32_be32 n : n < 2 ^ 32 → from_be32 (be32 n) = n.
Proof.
  intros Hn. unfold from_be32, be32. cbn [fmap list_fmap foldl].
  rewrite !byte_ascii by (apply N.mod_lt; lia).
  assert (n / 2 ^ 24 < 256) by (apply N.Div0.div_lt_upper_bound; lia).
  rewrite (N.mod_small (n / 2 ^ 24)) by done.
  pose proof (N.div_mod n 256). pose proof (N.div_mod (n / 2 ^ 8) 256).
  pose proof (N.div_mod (n / 2 ^ 16) 256).
  rewrite N.Div0.div_div in *.
  change (2 ^ 8 * 256) with (2 ^ 16) in *. change (2 ^ 16 * 256) with (2 ^ 24) in *.
  change (2 ^ 8) with 256 in *. lia.
Qed.

(** ** Lines *)

Section laws.
Context `{JsonText, Compression}.

(** What serde_json documents of its text forms, on the events and headers
    whose numbers it prints exactly: they are read back, the text of an object
    has no raw newline, none of its proper prefixes is a JSON text, and a member
    put at its front is one more member of the object; and the empty text is none. *)
Definition header_wire (h : SessionHeader) : SessionHeaderWire :=
  mkHeaderWire (h_version h) (h_id h) (h_created_at h) (h_cwd h) (h_parent_session h)
    (h_seed_length h) (h_origin h) (h_delegation_depth h) (h_agent_mode h) None.

Class JsonTextLaws (exact : SessionEvent → Prop) (exact_header : SessionHeader → Prop) : Prop := {
  empty_text : malformed [] = true;
  event_text_exact e : exact e → event_of_text (event_text e) = Ok e;
  event_text_value e : exact e → malformed (event_text e) = false;
  event_text_line e : exact e → newline ∉ event_text e;
  event_text_torn e p : exact e → prefix p (event_text e) → p ≠ event_text e → malformed p = true;
  header_line_line h : exact_header h → newline ∉ header_line h;
  header_line_value h : exact_header h → ∃ m,
    value_of_text (header_line h) = Ok (VObject m) ∧ obj_get "type" m = Some (VString "session") ∧
    header_of_value (VObject (obj_remove "type" m)) = Ok (header_wire h);
}.

(** zstd's and crc32fast's. *)
Class CompressionLaws : Prop := {
  decode_encode r c : encode_all r = Ok c → decode_all c = Ok r;
  crc32_word c : crc32 c < 2 ^ 32;
}.

(** A record without its newline. *)
Definition line_ok (line : bytes) : Prop :=
  line ≠ [] ∧ (newline ∉ line) ∧ malformed line = false.

Lemma raw_records_line acc line l :
  newline ∉ line →
  raw_records acc (line ++ newline :: l) =
    if bool_decide (acc ++ line = []) then Err "empty JSONL record in committed prefix"
    else if malformed (acc ++ line) then Err "malformed JSONL record in committed prefix"
    else rest ← raw_records [] l; Ok ((acc ++ line) :: rest).
Proof.
  revert acc. induction line as [|a line IH]; intros acc Hn; cbn [raw_records app].
  - rewrite bool_decide_eq_true_2 by done. by rewrite app_nil_r.
  - apply not_elem_of_cons in Hn as [Ha Hn]. rewrite bool_decide_eq_false_2 by congruence.
    rewrite IH by done. by rewrite <-app_assoc.
Qed.

Lemma raw_records_tail acc tail :
  newline ∉ tail →
  raw_records acc tail =
    Ok (if bool_decide (acc ++ tail = []) || malformed (acc ++ tail) then [] else [acc ++ tail]).
Proof.
  revert acc. induction tail as [|a tail IH]; intros acc Hn; cbn [raw_records].
  - by rewrite app_nil_r.
  - apply not_elem_of_cons in Hn as [Ha Hn]. rewrite bool_decide_eq_false_2 by congruence.
    rewrite IH by done. by rewrite <-app_assoc.
Qed.

(** ** Frames *)

Lemma encode_frame_inv record frame :
  encode_frame record = Ok frame → ∃ c, encode_all record = Ok c ∧
    N.of_nat (length c) < 2 ^ 32 ∧
    frame = be32 (crc32 c) ++ be32 (N.of_nat (length c)) ++ c.
Proof.
  unfold encode_frame. intros (c & Hc & Hf)%bind_Ok. apply map_err_Ok in Hc.
  destruct (N.leb_spec (N.of_nat (length c)) (2 ^ 32 - 1)); [|done]. injection Hf as <-.
  exists c. split_and!; [done|lia|done].
Qed.

Context `{!CompressionLaws}.

Lemma next_frame_frame record frame l :
  encode_frame record = Ok frame → ∃ c, decode_all c = Ok record ∧
    next_frame (frame ++ l) = Some (crc32 c, c, l).
Proof using All.
  intros (c & Hc & Hn & ->)%encode_frame_inv. exists c. split; [by apply decode_encode|].
  unfold next_frame. rewrite !length_app, !be32_length.
  rewrite (proj2 (Nat.ltb_ge _ _)) by (unfold FRAME_HEADER_LEN; lia).
  rewrite <-!app_assoc. set (n := N.of_nat (length c)) in *.
  change (take 4 (be32 (crc32 c) ++ be32 n ++ c ++ l)) with (be32 (crc32 c)).
  change (take 4 (drop 4 (be32 (crc32 c) ++ be32 n ++ c ++ l))) with (be32 n).
  rewrite !from_be32_be32 by (done || apply crc32_word). unfold n in *. rewrite Nat2N.id.
  assert (drop FRAME_HEADER_LEN (be32 (crc32 c) ++ be32 (N.of_nat (length c)) ++ c ++ l) = c ++ l) as ->.
  { rewrite app_assoc. apply drop_app_length'. by rewrite length_app, !be32_length. }
  rewrite length_app, (proj2 (Nat.ltb_ge _ _)) by lia.
  by rewrite take_app_length, drop_app_length.
Qed.

(** A proper prefix of a frame is a torn tail. *)
Lemma next_frame_torn record frame p :
  encode_frame record = Ok frame → p `prefix_of` frame → p ≠ frame → next_frame p = None.
Proof.
  intros (c & _ & Hn & Hf)%encode_frame_inv [q Hq] Hne. unfold next_frame.
  destruct (Nat.ltb_spec (length p) FRAME_HEADER_LEN) as [|Hl]; [done|]. unfold FRAME_HEADER_LEN in *.
  assert (take 4 (drop 4 p) = be32 (N.of_nat (length c))) as ->.
  { transitivity (take 4 (drop 4 frame)).
    - rewrite Hq, drop_app_le, take_app_le by (rewrite ?length_drop; lia). done.
    - rewrite Hf, (drop_app_length' (be32 (crc32 c)) _ 4 eq_refl). by apply take_app_length'. }
  rewrite from_be32_be32, Nat2N.id by done. rewrite length_drop.
  assert (length p < length frame)%nat as Hlt.
  { rewrite Hq, length_app. destruct q; [|cbn; lia]. rewrite app_nil_r in Hq. by subst. }
  rewrite Hf, !length_app, !be32_length in Hlt. by rewrite (proj2 (Nat.ltb_lt _ _)) by lia.
Qed.

Lemma frame_line_ok c line :
  newline ∉ line → decode_all c = Ok (line ++ [newline]) → frame_line (crc32 c) c = Ok (line ++ [newline]).
Proof.
  intros Hn Hd. unfold frame_line. rewrite N.eqb_refl, Hd. cbn [map_err mbind result_bind negb].
  rewrite last_snoc, bool_decide_eq_true_2 by done. cbn [negb orb].
  rewrite length_app, Nat.add_sub, take_app_length. by rewrite bool_decide_eq_false_2.
Qed.

(** ** Files *)

(** The bytes of records in a format. *)
Definition encodes (format : JsonlStorageFormat) (records : list bytes) (content : bytes) : Prop :=
  ∃ chunks, Forall2 (λ r c, encode_record format r = Ok c) records chunks ∧ content = mjoin chunks.

Lemma encodes_nil format : encodes format [] [].
Proof. by exists []. Qed.
Lemma encodes_snoc format records content r c :
  encodes format records content → encode_record format r = Ok c →
  encodes format (records ++ [r]) (content ++ c).
Proof.
  intros (chunks & Hf & ->) Hr. exists (chunks ++ [c]). split.
  - apply Forall2_app; [done|]. by constructor.
  - by rewrite join_app; cbn; rewrite app_nil_r.
Qed.
Lemma encodes_cons_inv format r records content :
  encodes format (r :: records) content → ∃ c rest, encode_record format r = Ok c ∧
    encodes format records rest ∧ content = c ++ rest.
Proof.
  intros (chunks & Hf & ->). apply Forall2_cons_inv_l in Hf as (c & cs & Hc & Hf & ->).
  exists c, (mjoin cs). split_and!; [done|by exists cs|done].
Qed.

(** What may follow the records: nothing, a torn record, or a whole line whose
    newline is missing, which is read as a record. *)
Definition tail_of (format : JsonlStorageFormat) (tail : bytes) (lines : list bytes) : Prop :=
  match format with
  | Raw => (newline ∉ tail) ∧
      lines = if bool_decide (tail = []) || malformed tail then [] else [tail]
  | Zstd => next_frame tail = None ∧ lines = []
  end.

Lemma raw_records_log lines content l :
  Forall line_ok lines → encodes Raw ((λ l, l ++ [newline]) <$> lines) content →
  raw_records [] (content ++ l) = (rest ← raw_records [] l; Ok (lines ++ rest)).
Proof.
  intros Hok. revert content. induction Hok as [|line lines (Hne & Hn & Hm) _ IH]; intros content He.
  - destruct He as (chunks & ->%Forall2_nil_inv_l & ->). cbn. by destruct (raw_records [] l).
  - apply encodes_cons_inv in He as (c & rest & [= <-] & Hrest & ->).
    rewrite <-!app_assoc. cbn [app]. rewrite raw_records_line by done.
    cbn [app]. rewrite bool_decide_eq_false_2, Hm, (IH rest) by done. by destruct (raw_records [] l).
Qed.

Lemma raw_log_records lines content tail more :
  Forall line_ok lines → encodes Raw ((λ l, l ++ [newline]) <$> lines) content →
  tail_of Raw tail more → parse_raw_records (content ++ tail) = Ok (lines ++ more).
Proof.
  intros Hok He [Ht ->]. unfold parse_raw_records. rewrite (raw_records_log lines) by done.
  by rewrite raw_records_tail.
Qed.

Lemma zstd_log_records fuel lines content tail more :
  Forall line_ok lines → encodes Zstd ((λ l, l ++ [newline]) <$> lines) content →
  tail_of Zstd tail more → (length lines < fuel)%nat →
  zstd_records fuel (content ++ tail) = Ok (lines ++ more).
Proof using All.
  intros Hok. revert content fuel.
  induction Hok as [|line lines (Hne & Hn & Hm) _ IH]; intros content fuel He [Ht ->] Hf;
    (destruct fuel as [|fuel]; [cbn in Hf; lia|]); cbn [zstd_records].
  - destruct He as (chunks & ->%Forall2_nil_inv_l & ->). cbn. by rewrite Ht.
  - apply encodes_cons_inv in He as (c & rest & Hc & Hrest & ->).
    rewrite <-app_assoc. destruct (next_frame_frame _ _ (rest ++ tail) Hc) as (z & Hz & ->).
    rewrite (frame_line_ok z line) by done. cbn [mbind result_bind].
    rewrite length_app, Nat.add_sub, take_app_length, bool_decide_eq_false_2, Hm by done.
    cbn [orb length] in *. by rewrite (IH rest) by (done || lia).
Qed.

(** At least two bytes for a record, so the fuel is enough. *)
Lemma encodes_length format lines content :
  Forall line_ok lines → encodes format ((λ l, l ++ [newline]) <$> lines) content →
  (2 * length lines ≤ length content)%nat.
Proof.
  intros Hok. revert content. induction Hok as [|line lines (Hne & _) _ IH]; intros content He; [cbn; lia|].
  apply encodes_cons_inv in He as (c & rest & Hc & Hrest & ->).
  apply IH in Hrest. rewrite length_app. cbn [length]. assert (2 ≤ length c)%nat; [|lia].
  destruct format; cbn [encode_record] in Hc.
  - injection Hc as <-. rewrite length_app. destruct line; [done|cbn; lia].
  - apply encode_frame_inv in Hc as (z & _ & _ & ->). rewrite length_app, be32_length. lia.
Qed.

Lemma log_records format lines content tail more :
  Forall line_ok lines → encodes format ((λ l, l ++ [newline]) <$> lines) content →
  tail_of format tail more → parse_records format (content ++ tail) = Ok (lines ++ more).
Proof using All.
  intros Hok He Ht. destruct format; [by apply raw_log_records|]. unfold parse_records, parse_zstd_records.
  pose proof (encodes_length _ _ _ Hok He) as Hl. rewrite length_app.
  destruct lines as [|line lines]; [|eapply zstd_log_records; [done..|cbn [length] in *; lia]].
  destruct He as (chunks & ->%Forall2_nil_inv_l & ->). destruct Ht as [Ht ->].
  destruct tail as [|a tail]; [done|]. cbn [length mjoin list_join app Nat.add zstd_records]. by rewrite Ht.
Qed.

(** What a prefix of the next record makes of the tail. *)
Context (exact : SessionEvent → Prop) (exact_header : SessionHeader → Prop).
Context `{!JsonTextLaws exact exact_header}.

Lemma event_line_ok e : exact e → line_ok (event_text e).
Proof using All.
  intros He. split_and!; [|by apply event_text_line|by apply event_text_value].
  intros Hnil. pose proof (event_text_value e He) as Hv. rewrite Hnil, empty_text in Hv. done.
Qed.

Lemma prefix_tail format e r p :
  exact e → encode_record format (event_record e) = Ok r → prefix p r → p ≠ r →
  tail_of format p [] ∨ (tail_of format p [event_text e] ∧ format = Raw ∧ p = event_text e).
Proof using All.
  intros He Hr Hp Hne. pose proof (event_line_ok e He) as (Hnil & Hn & Hm). destruct format.
  2:{ left. split; [|done]. by eapply next_frame_torn. }
  injection Hr as <-. assert (prefix p (event_text e)) as Hpe.
  { destruct Hp as [k Hk]. unfold event_record in *. destruct k as [|b k _] using rev_ind.
    - rewrite app_nil_r in Hk. by subst.
    - rewrite app_assoc in Hk. apply app_inj_tail in Hk as [-> _]. by eexists. }
  assert (newline ∉ p) as Hnp by (destruct Hpe as [k Hk]; rewrite Hk in Hn; set_solver).
  destruct (decide (p = event_text e)) as [->|Hpne].
  - right. split; [|done]. split; [done|]. by rewrite bool_decide_eq_false_2, Hm.
  - left. split; [done|]. rewrite (event_text_torn e p He Hpe Hpne). by rewrite orb_true_r.
Qed.
End laws.

(** ** Files that hold a log *)

Section files.
Context `{ProtocolWire, JsonText, Compression, !CompressionLaws}.
Context (exact : SessionEvent → Prop) (exact_header : SessionHeader → Prop).
Context `{!JsonTextLaws exact exact_header}.

(** Events and headers that the log holds: valid, printed exactly, and not of
    the legacy type that reading migrates. *)
Record storable (e : SessionEvent) : Prop := {
  so_exact : exact e;
  so_valid : SessionEvent_validate e = Ok tt;
  so_type : event_type e ≠ "agent-preset/selected";
}.
Record storable_log (h : SessionHeader) (evs : list SessionEvent) : Prop := {
  sl_exact : exact_header h;
  sl_valid : SessionHeader_validate h = Ok tt;
  sl_id : is_empty (h_id h) = false;
  sl_events : Forall storable evs;
  sl_contiguous : contiguous evs;
  sl_length : N.of_nat (length evs) ≤ U64_MAX + 1;
}.

(** A file that holds a log: the encoded records and a tail, which is empty in a
    clean file. *)
Record log_file (format : JsonlStorageFormat) (h : SessionHeader) (evs : list SessionEvent)
    (clean : Prop) (content : bytes) : Prop := {
  lf_log : storable_log h evs;
  lf_parts : ∃ whole extra body tail, evs = whole ++ extra ∧ content = body ++ tail ∧
    encodes format (header_record h :: (event_record <$> whole)) body ∧
    tail_of format tail (event_text <$> extra) ∧ (clean ↔ tail = []);
}.

Lemma header_line_ok h : exact_header h → line_ok (header_line h).
Proof using All.
  intros Hx. split_and!; [by unfold header_line|by apply header_line_line|].
  destruct (header_line_value h Hx) as (m & Hv & _). unfold malformed. by rewrite Hv.
Qed.

Lemma storable_lines h evs :
  storable_log h evs → Forall line_ok (header_line h :: (event_text <$> evs)).
Proof using All.
  intros [Hx _ _ He _ _]. constructor; [by apply header_line_ok|]. apply Forall_fmap.
  eapply Forall_impl; [exact He|]. intros e [Hex _ _]. by apply (event_line_ok exact exact_header).
Qed.

Lemma storable_log_app_l h evs more : storable_log h (evs ++ more) → storable_log h evs.
Proof.
  intros [Hx Hv Hi He Hc Hl]. split; try done.
  - by apply Forall_app in He as [? _].
  - intros i e Hie. apply Hc. by apply lookup_app_l_Some.
  - rewrite length_app in Hl. lia.
Qed.

(** A log file with the next event appended, wholly or up to some byte. *)
Lemma append_log_file format h evs content e r n :
  log_file format h evs True content → storable_log h (evs ++ [e]) →
  encode_record format (event_record e) = Ok r →
  (log_file format h (evs ++ [e]) True (content ++ r)) ∧
  ∃ evs' clean, (evs' = evs ∨ evs' = evs ++ [e]) ∧ log_file format h evs' clean (content ++ take n r).
Proof using All.
  intros [Hlog (whole & extra & body & tail & -> & -> & He & Ht & Hcl)] Hlog' Hr.
  assert (tail = []) as -> by by apply Hcl. rewrite !app_nil_r.
  assert (extra = []) as ->.
  { destruct format; [|by destruct Ht as [_ Ht%fmap_nil_inv]].
    destruct Ht as [_ Ht]. rewrite bool_decide_eq_true_2 in Ht by done. by apply fmap_nil_inv in Ht. }
  rewrite app_nil_r in *.
  assert (tail_of format [] []) as Hnil by (destruct format; split; [set_solver|done|done|done]).
  assert (log_file format h (whole ++ [e]) True (body ++ r)) as Hfull.
  { split; [done|]. exists (whole ++ [e]), [], (body ++ r), []. rewrite !app_nil_r.
    split_and!; try done. rewrite fmap_app, app_comm_cons. by apply encodes_snoc. }
  split; [done|]. destruct (decide (take n r = r)) as [Heq|Hne].
  { rewrite Heq. exists (whole ++ [e]), True. split; [by right|done]. }
  assert (exact e) as Hx.
  { destruct Hlog' as [_ _ _ Hst _ _]. apply Forall_app in Hst as [_ Hst]. rewrite Forall_singleton in Hst. apply so_exact, Hst. }
  destruct (prefix_tail exact exact_header format e r (take n r) Hx Hr (prefix_take r n) Hne) as [Ht'|(Ht' & _)].
  - exists whole, (take n r = []). split; [by left|]. split; [done|].
    exists whole, [], body, (take n r). by rewrite app_nil_r.
  - exists (whole ++ [e]), (take n r = []). split; [by right|]. split; [done|].
    by exists whole, [e], body, (take n r).
Qed.
End files.

(** ** What a log reads as *)

Section logs.
Context `{ProtocolWire, JsonText, Compression, !CompressionLaws}.
Context (root : string) (debug : string → string).
Context (error_text : TessivumError → string) (session_text : SessionError → string).
Context (exact : SessionEvent → Prop) (exact_header : SessionHeader → Prop).
Context `{!JsonTextLaws exact exact_header}.
Abbreviation parse_event' := (parse_event root debug error_text session_text).
Abbreviation parse_session' := (parse_session root debug error_text session_text).
Abbreviation storable' := (storable exact).

Lemma parse_event_ok evs e :
  storable' e → next_seq evs = Ok (ev_seq e) → parse_event' evs (event_text e) = Ok (evs ++ [e]).
Proof using All.
  intros [Hx Hv Ht] Hn. unfold parse_event. rewrite (event_text_exact e Hx).
  cbn [map_err mbind result_bind]. unfold migrate_legacy_agent_preset_selection.
  rewrite (proj2 (String.eqb_neq _ _) Ht). cbn [negb map_err mbind result_bind].
  assert (mkEvent (event_type e) (ev_seq e) (ev_time e) (ev_data e) (ev_ignorable e)
    (ev_source_event_seqs e) (ev_surface_op e) = e) as -> by by destruct e.
  rewrite Hv, Hn. cbn. by rewrite N.eqb_refl.
Qed.

Lemma parse_events_ok evs more :
  contiguous (evs ++ more) → N.of_nat (length (evs ++ more)) ≤ U64_MAX + 1 → Forall storable' more →
  foldM parse_event' evs (event_text <$> more) = Ok (evs ++ more).
Proof using All.
  intros Hc Hl Hs. revert evs Hc Hl. induction Hs as [|e more He _ IH]; intros evs Hc Hl.
  - cbn. by rewrite app_nil_r.
  - rewrite fmap_cons. cbn [foldM]. rewrite parse_event_ok; [|done|].
    + cbn [mbind result_bind]. rewrite (IH (evs ++ [e])); rewrite <-?app_assoc; done.
    + rewrite (Hc (length evs) e) by by rewrite list_lookup_middle.
      apply next_seq_contiguous.
      * intros i x Hx. apply Hc. by apply lookup_app_l_Some.
      * rewrite length_app in Hl. cbn [length] in Hl. lia.
Qed.

Lemma parse_header_ok h :
  exact_header h → parse_header root debug error_text (header_line h) = Ok h.
Proof using All.
  intros Hx. destruct (header_line_value h Hx) as (m & Hv & Ht & Hw). unfold parse_header.
  rewrite Hv. cbn [map_err mbind result_bind as_object ok_or]. rewrite Ht. unfold ensure.
  rewrite String.eqb_refl. cbn [mbind result_bind]. rewrite Hw. by destruct h as [v i c w p' l o d [am|]].
Qed.

(** A file that holds a log is read as that log. *)
Lemma parse_log_file format h evs clean content :
  log_file exact exact_header format h evs clean content →
  parse_session' format (h_id h) content = Ok (mkStored h evs).
Proof using All.
  intros [Hlog (whole & extra & body & tail & Hevs & -> & He & Ht & _)].
  pose proof Hlog as [Hx Hv Hi Hst Hc Hl]. rewrite Hevs in Hlog.
  pose proof (storable_lines exact exact_header h whole (storable_log_app_l _ _ _ _ _ Hlog)) as Hok.
  assert (header_record h :: (event_record <$> whole) =
    (λ l, l ++ [newline]) <$> (header_line h :: (event_text <$> whole))) as Hr.
  { rewrite fmap_cons, <-list_fmap_compose. done. }
  rewrite Hr in He. unfold parse_session. rewrite (log_records format _ _ _ _ Hok He Ht).
  cbn [map_err mbind result_bind app]. rewrite parse_header_ok by done. cbn [mbind result_bind].
  rewrite Hi, Hv, String.eqb_refl. cbn [map_err mbind result_bind negb].
  rewrite <-fmap_app, <-Hevs. rewrite (parse_events_ok [] evs) by done. done.
Qed.

End logs.

(** ** The text of a log *)

Section text.
Context `{ProtocolWire, JsonText}.

(** A log as uncompressed text. *)
Definition raw_text (h : SessionHeader) (evs : list SessionEvent) : bytes :=
  mjoin (header_record h :: (event_record <$> evs)).

Lemma after_newline_app body tail : newline ∉ tail → after_newline (body ++ newline :: tail) = S (length body).
Proof.
  intros Ht. unfold after_newline.
  assert (list_find (eq newline) (reverse (body ++ newline :: tail)) = Some (length tail, newline)) as ->.
  { apply list_find_Some. rewrite reverse_app, reverse_cons, <-app_assoc. split_and!.
    - rewrite lookup_app_r by by rewrite length_reverse. by rewrite length_reverse, Nat.sub_diag.
    - done.
    - intros j y Hj Hlt <-. rewrite lookup_app_l in Hj by by rewrite length_reverse.
      apply Ht. rewrite <-(reverse_involutive tail). apply elem_of_reverse. by eapply list_elem_of_lookup_2. }
  rewrite length_app. cbn [length]. lia.
Qed.

Lemma committed_text body tail lines :
  tail_of Raw tail lines →
  committed_raw_bytes (body ++ [newline] ++ tail) = body ++ [newline] ++ mjoin lines.
Proof.
  intros [Ht ->]. unfold committed_raw_bytes. cbn [app]. rewrite after_newline_app by done.
  assert (drop (S (length body)) (body ++ newline :: tail) = tail) as ->.
  { rewrite cons_middle, app_assoc. apply drop_app_length'. rewrite length_app. cbn [length]. lia. }
  assert (take (S (length body)) (body ++ newline :: tail) = body ++ [newline]) as ->.
  { rewrite cons_middle, app_assoc. apply take_app_length'. rewrite length_app. cbn [length]. lia. }
  rewrite length_app. cbn [length]. destruct tail as [|a tail].
  - rewrite (proj2 (Nat.ltb_ge _ _)) by (cbn [length]; lia). by rewrite bool_decide_eq_true_2.
  - rewrite (proj2 (Nat.ltb_lt _ _)) by (cbn [length]; lia). rewrite bool_decide_eq_false_2 by done.
    cbn [andb orb]. destruct (malformed (a :: tail)); [done|]. cbn. by rewrite app_nil_r.
Qed.

Lemma encodes_raw `{Compression} records content : encodes Raw records content → content = mjoin records.
Proof.
  intros (chunks & Hf & ->). f_equal. induction Hf as [|r c records chunks Hrc _ IH]; [done|].
  injection Hrc as ->. by f_equal.
Qed.
End text.

Section texts.
Context `{ProtocolWire, JsonText, Compression, !CompressionLaws}.
Context (exact : SessionEvent → Prop) (exact_header : SessionHeader → Prop).
Context `{!JsonTextLaws exact exact_header}.
#[local] Set Default Proof Using "Type*".

Lemma zstd_raw_log fuel lines content tail more :
  Forall line_ok lines → encodes Zstd ((λ l, l ++ [newline]) <$> lines) content →
  tail_of Zstd tail more → (length lines < fuel)%nat →
  zstd_raw fuel (content ++ tail) = Ok (mjoin ((λ l, l ++ [newline]) <$> lines)).
Proof.
  intros Hok. revert content fuel.
  induction Hok as [|line lines (Hne & Hn & Hm) _ IH]; intros content fuel He [Ht ->] Hf;
    (destruct fuel as [|fuel]; [cbn in Hf; lia|]); cbn [zstd_raw].
  - destruct He as (chunks & ->%Forall2_nil_inv_l & ->). cbn. by rewrite Ht.
  - apply encodes_cons_inv in He as (c & rest & Hc & Hrest & ->).
    rewrite <-app_assoc. destruct (next_frame_frame _ _ (rest ++ tail) Hc) as (z & Hz & ->).
    rewrite (frame_line_ok z line) by done. cbn [mbind result_bind length] in *.
    by rewrite (IH rest) by (done || lia).
Qed.

(** The lines of a log, from its file; the newline of its last one may be missing. *)
Definition text_of (format : JsonlStorageFormat) (content : bytes) : result string bytes :=
  match format with
  | Raw => Ok (committed_raw_bytes content)
  | Zstd => decode_zstd_raw content
  end.
Lemma text_of_log format h evs clean content :
  log_file exact exact_header format h evs clean content →
  ∃ text, text_of format content = Ok text ∧
    (text = raw_text h evs ∨ text ++ [newline] = raw_text h evs).
Proof.
  intros [Hlog (whole & extra & body & tail & -> & -> & He & Ht & _)].
  pose proof (storable_lines exact exact_header h whole (storable_log_app_l _ _ _ _ _ Hlog)) as Hok.
  assert (header_record h :: (event_record <$> whole) =
    (λ l, l ++ [newline]) <$> (header_line h :: (event_text <$> whole))) as Hr
    by (by rewrite fmap_cons, <-list_fmap_compose).
  assert (raw_text h (whole ++ extra) = raw_text h whole ++ mjoin (event_record <$> extra)) as Hsplit.
  { unfold raw_text. by rewrite fmap_app, app_comm_cons, join_app. }
  rewrite Hsplit. unfold raw_text. destruct format; cbn [text_of].
  - apply encodes_raw in He. rewrite Hr in He. eexists. split; [done|].
    assert (∃ start, mjoin (header_record h :: (event_record <$> whole)) = start ++ [newline]) as [start Hs].
    { rewrite Hr. destruct (header_line h :: (event_text <$> whole)) as [|x l _] using rev_ind; [done|].
      rewrite fmap_app, join_app. cbn. rewrite app_nil_r, app_assoc. by eexists. }
    rewrite <-Hr in He. rewrite Hs in *. rewrite He, <-app_assoc, (committed_text _ _ _ Ht).
    rewrite <-!app_assoc. destruct Ht as [_ Hx]. destruct extra as [|e [|e' extra]].
    + left. done.
    + right. cbn. by rewrite !app_nil_r.
    + by destruct (_ || _).
  - destruct Ht as [Ht Hx]. apply fmap_nil_inv in Hx as ->. rewrite app_nil_r, Hr. rewrite Hr in He.
    exists (mjoin ((λ l, l ++ [newline]) <$> (header_line h :: (event_text <$> whole)))). split; [|by left].
    unfold decode_zstd_raw. pose proof (encodes_length _ _ _ Hok He) as Hl. rewrite length_app.
    eapply zstd_raw_log; [done..|]. cbn [length] in *. lia.
Qed.
End texts.

(** ** Names of files *)

Lemma hex_char_inj m n : m < 16 → n < 16 → hex_char m = hex_char n → m = n.
Proof.
  intros Hm Hn. unfold hex_char. intros Heq. apply (f_equal byte) in Heq.
  destruct (N.ltb_spec m 10), (N.ltb_spec n 10); rewrite !byte_ascii in Heq by lia; lia.
Qed.

Lemma byte_inj a b : byte a = byte b → a = b.
Proof. unfold byte. intros H. by rewrite <-(ascii_N_embedding a), H, ascii_N_embedding. Qed.
Lemma byte_lt a : byte a < 256.
Proof. unfold byte. apply N_ascii_bounded. Qed.

Lemma hex_byte_inj a b : hex_byte a = hex_byte b → a = b.
Proof.
  unfold hex_byte. intros [= Hh Hl]. pose proof (byte_lt a). pose proof (byte_lt b).
  apply hex_char_inj in Hh; [|apply N.Div0.div_lt_upper_bound; lia..].
  apply hex_char_inj in Hl; [|apply N.mod_lt; lia..].
  apply byte_inj. rewrite (N.div_mod (byte a) 16), (N.div_mod (byte b) 16) by done. lia.
Qed.

Lemma string_of_inj l l' : string_of l = string_of l' → l = l'.
Proof.
  intros H. apply (f_equal bytes_of) in H. unfold bytes_of, string_of in H.
  by rewrite !String.list_ascii_of_string_of_list_ascii in H.
Qed.
Lemma bytes_of_inj s s' : bytes_of s = bytes_of s' → s = s'.
Proof.
  intros H. apply (f_equal string_of) in H. unfold bytes_of, string_of in H.
  by rewrite !String.string_of_list_ascii_of_string in H.
Qed.
Lemma bytes_of_string_of l : bytes_of (string_of l) = l.
Proof. apply String.list_ascii_of_string_of_list_ascii. Qed.

Lemma hex_bytes_inj l l' : mjoin (hex_byte <$> l) = mjoin (hex_byte <$> l') → l = l'.
Proof.
  revert l'. induction l as [|a l IH]; intros [|b l'] H; try done.
  change (hex_byte a ++ mjoin (hex_byte <$> l) = hex_byte b ++ mjoin (hex_byte <$> l')) in H.
  apply app_inj_1 in H as [?%hex_byte_inj ?%IH]; [|done]. by subst.
Qed.

(** Ids of sessions never share a file. *)
Lemma encode_id_inj id id' : encode_id id = encode_id id' → id = id'.
Proof. unfold encode_id. intros ?%string_of_inj%hex_bytes_inj. by apply bytes_of_inj. Qed.

Lemma path_inj suffix id id' :
  FILE_PREFIX +:+ encode_id id +:+ suffix = FILE_PREFIX +:+ encode_id id' +:+ suffix → id = id'.
Proof.
  intros H. apply (f_equal bytes_of) in H. rewrite !bytes_of_app in H.
  apply app_inv_head, app_inv_tail in H. by apply encode_id_inj, bytes_of_inj.
Qed.
Lemma raw_path_inj id id' : raw_path id = raw_path id' → id = id'.
Proof. apply path_inj. Qed.
Lemma compressed_path_inj id id' : compressed_path id = compressed_path id' → id = id'.
Proof. apply path_inj. Qed.
Lemma raw_compressed id id' : raw_path id ≠ compressed_path id'.
Proof.
  intros H. apply (f_equal (λ s, last (bytes_of s))) in H. unfold raw_path, compressed_path in H.
  rewrite !bytes_of_app, !last_app in H. done.
Qed.

(** The names of log files are decoded to their ids. *)
Lemma hex_digit_char n : n < 16 → hex_digit (hex_char n) = Some n.
Proof.
  intros Hn. assert (n ∈ N.of_nat <$> seq 0 16) as Hin.
  { apply list_elem_of_fmap. exists (N.to_nat n). rewrite N2Nat.id. split; [done|].
    apply elem_of_seq. lia. }
  assert (Forall (λ n, hex_digit (hex_char n) = Some n) (N.of_nat <$> seq 0 16)) as Hall
    by (vm_compute; repeat constructor).
  rewrite Forall_forall in Hall. by apply Hall.
Qed.

Lemma decode_pairs_hex l : decode_pairs (mjoin (hex_byte <$> l)) = Some l.
Proof.
  induction l as [|a l IH]; [done|]. cbn -[N.div N.modulo]. pose proof (byte_lt a).
  rewrite !hex_digit_char by first [by apply N.mod_lt | apply N.Div0.div_lt_upper_bound; lia].
  change (list_fmap _ _ hex_byte l) with (hex_byte <$> l).
  cbn [mbind option_bind]. setoid_rewrite IH. cbn. do 2 f_equal.
  rewrite (N.mul_comm (byte a / 16)), <-N.div_mod by done. unfold byte. apply ascii_N_embedding.
Qed.

Lemma strip_prefix_app p l : strip_prefix p (p ++ l) = Some l.
Proof.
  unfold strip_prefix. by rewrite take_app_length, bool_decide_eq_true_2, drop_app_length.
Qed.
Lemma strip_suffix_app p l : strip_suffix p (l ++ p) = Some l.
Proof.
  unfold strip_suffix. rewrite length_app, Nat.add_sub, drop_app_length, take_app_length.
  by rewrite bool_decide_eq_true_2.
Qed.
Lemma strip_suffix_Some p l x : strip_suffix p l = Some x → l = x ++ p.
Proof.
  unfold strip_suffix. case_bool_decide as Hd; [|done]. intros [= <-].
  rewrite <-Hd at 2. by rewrite take_drop.
Qed.

Lemma hex_bytes_length l : length (mjoin (hex_byte <$> l)) = (2 * length l)%nat.
Proof.
  induction l as [|a l IH]; [done|].
  change (length (hex_byte a ++ mjoin (hex_byte <$> l)) = 2 * S (length l))%nat.
  rewrite length_app, IH. cbn. lia.
Qed.

Lemma str_len_string_of l : str_len (string_of l) = N.of_nat (length l).
Proof.
  unfold str_len. f_equal. induction l as [|a l IH]; [done|].
  change (S (String.length (string_of l)) = S (length l)). by f_equal.
Qed.

Lemma decode_encode_id id :
  is_empty id = false → utf8 (bytes_of id) = true → decode_id (encode_id id) = Some id.
Proof.
  intros He Hu. unfold decode_id, encode_id. rewrite bytes_of_string_of, str_len_string_of.
  rewrite hex_bytes_length, decode_pairs_hex. cbn [mbind option_bind]. rewrite Hu.
  unfold bytes_of, string_of. rewrite String.string_of_list_ascii_of_string.
  rewrite Nat2N.inj_mul, N.mul_comm, N.Div0.mod_mul. cbn [negb N.eqb orb]. rewrite orb_false_r.
  assert (is_empty (String.string_of_list_ascii (mjoin (hex_byte <$> String.list_ascii_of_string id)))
    = false) as ->; [|done].
  destruct id as [|a id]; [by vm_compute in He|]. apply String.eqb_neq. intros Hn.
  apply (f_equal String.list_ascii_of_string) in Hn.
  rewrite String.list_ascii_of_string_of_list_ascii in Hn.
  apply (f_equal length) in Hn. rewrite hex_bytes_length in Hn. cbn in Hn. lia.
Qed.

Lemma id_from_raw_path id :
  is_empty id = false → utf8 (bytes_of id) = true → id_from_path (raw_path id) = Some (id, Raw).
Proof.
  intros He Hu. unfold id_from_path, raw_path. rewrite !bytes_of_app, strip_prefix_app.
  cbn [mbind option_bind]. destruct (strip_suffix (bytes_of ZSTD_SUFFIX) _) as [x|] eqn:Hz.
  { apply strip_suffix_Some, (f_equal last) in Hz. rewrite !last_app in Hz. done. }
  rewrite strip_suffix_app. cbn [fmap option_fmap option_map mbind option_bind].
  assert (string_of (bytes_of (encode_id id)) = encode_id id) as ->
    by apply String.string_of_list_ascii_of_string.
  by rewrite decode_encode_id.
Qed.

Lemma id_from_compressed_path id :
  is_empty id = false → utf8 (bytes_of id) = true →
  id_from_path (compressed_path id) = Some (id, Zstd).
Proof.
  intros He Hu. unfold id_from_path, compressed_path. rewrite !bytes_of_app, strip_prefix_app.
  cbn [mbind option_bind]. rewrite strip_suffix_app. cbn [mbind option_bind].
  assert (string_of (bytes_of (encode_id id)) = encode_id id) as ->
    by apply String.string_of_list_ascii_of_string.
  by rewrite decode_encode_id.
Qed.

(** ** Inspections in the order of their ids *)

Definition str_le (a b : string) : Prop := String.leb a b = true.

Lemma str_le_spec a b : str_le a b ↔ a = b ∨ String.compare a b = Lt.
Proof.
  unfold str_le, String.leb. rewrite <-compare_Eq. destruct (String.compare a b); intuition congruence.
Qed.
#[export] Instance str_le_trans : Transitive str_le.
Proof.
  intros a b c. rewrite !str_le_spec. intros [->|Hab] [->|Hbc]; auto. right. by eapply compare_lt_trans.
Qed.
#[export] Instance str_le_total : Total str_le.
Proof. intros a b. apply String.leb_total. Qed.
#[export] Instance str_le_antisym : AntiSymm (=) str_le.
Proof. intros a b. apply String.leb_antisym. Qed.

Definition inspected (x : SessionInspection) : SessionId := h_id (si_header x).
#[export] Instance inspection_le_trans : Transitive inspection_le.
Proof. intros x y z. apply str_le_trans. Qed.
#[export] Instance inspection_le_total : Total inspection_le.
Proof. intros x y. apply str_le_total. Qed.

Lemma sorted_keys {A} (R : relation A) (key : A → string) l :
  (∀ x y, R x y → str_le (key x) (key y)) → StronglySorted R l → StronglySorted str_le (key <$> l).
Proof.
  intros Hk. induction 1 as [|x l _ IH Hx]; [constructor|]. rewrite fmap_cons. constructor; [done|].
  apply Forall_fmap. eapply Forall_impl; [exact Hx|]. intros y. apply Hk.
Qed.

Lemma btree_keys_sorted {V} (m : gmap string V) : StronglySorted str_le (btree_keys m).
Proof.
  unfold btree_keys, btree_list. apply (sorted_keys key_le fst); [done|].
  apply StronglySorted_merge_sort.
  - intros x y z. apply str_le_trans.
  - intros x y. apply str_le_total.
Qed.

(** The order and the ids decide the list of ids. *)
Lemma sorted_inspections {V} (l : list SessionInspection) (m : gmap string V) :
  (inspected <$> l) ≡ₚ btree_keys m → inspected <$> merge_sort inspection_le l = btree_keys m.
Proof.
  intros Hp. apply (StronglySorted_unique str_le).
  - apply (sorted_keys inspection_le inspected); [done|]. apply StronglySorted_merge_sort; apply _.
  - apply btree_keys_sorted.
  - by rewrite (merge_sort_Permutation inspection_le l).
Qed.

Lemma dedup_distinct kept l :
  NoDup (inspected <$> l) → (∀ id, kept = Some id → id ∉ inspected <$> l) →
  dedup_inspections kept l = l.
Proof.
  revert kept. induction l as [|x l IH]; intros kept Hn Hk; [done|].
  rewrite fmap_cons in *. apply NoDup_cons in Hn as [Hx Hn]. cbn [dedup_inspections].
  rewrite bool_decide_eq_false_2 by (intros He; apply (Hk _ He); left).
  f_equal. apply IH; [done|]. by intros id [= <-].
Qed.
