(* ===== verification/JsonTextCodec.v ===== *)
(** * A concrete JSON text codec

    A printer and a parser of JSON texts without fractions and exponents, and the
    text forms of events and headers over it.  It instantiates [JsonText] for
    the witnesses, together with a compression that stores its input. *)

From S2P Require Import Prelude Json Protocol Codec Session Jsonl.

#[local] Open Scope N_scope.

(** ** Printing *)

Definition chr (n : nat) : ascii := ascii_of_nat n.
Definition quote_char : ascii := chr 34.
Definition backslash : ascii := chr 92.

Definition escape_char (a : ascii) : bytes :=
  if bool_decide (a = quote_char) || bool_decide (a = backslash) then [backslash; a]
  else if byte a <? 32 then [backslash; "u"; "0"; "0"]%char ++ hex_byte a
  else [a].
Definition print_string (s : string) : bytes :=
  [quote_char] ++ mjoin (escape_char <$> bytes_of s) ++ [quote_char].

Fixpoint comma_separated (l : list bytes) : bytes :=
  match l with
  | [] => []
  | [x] => x
  | x :: l => x ++ bytes_of "," ++ comma_separated l
  end.

Definition print_number (n : number) : bytes :=
  match n with
  | PosInt n => bytes_of (fmt_N n)
  | NegInt z => bytes_of "-" ++ bytes_of (fmt_N (Z.abs_N z))
  | Float _ => bytes_of "0"
  end.

Fixpoint print_value (v : Value) : bytes :=
  match v with
  | VNull => bytes_of "null"
  | VBool true => bytes_of "true"
  | VBool false => bytes_of "false"
  | VNumber n => print_number n
  | VString s => print_string s
  | VArray l => bytes_of "[" ++ comma_separated (map print_value l) ++ bytes_of "]"
  | VObject m =>
      bytes_of "{" ++
      comma_separated (map (λ kv, print_string kv.1 ++ bytes_of ":" ++ print_value kv.2) m) ++
      bytes_of "}"
  end.

(** ** Parsing *)

Definition is_space (a : ascii) : bool :=
  bool_decide (byte a ∈ [32; 9; 10; 13]).
Fixpoint skip (l : bytes) : bytes :=
  match l with a :: l' => if is_space a then skip l' else l | [] => [] end.

Definition expect_char (a : ascii) (l : bytes) : option bytes :=
  match skip l with b :: l' => if bool_decide (a = b) then Some l' else None | [] => None end.
Definition expect_word (w : string) (l : bytes) : option bytes := strip_prefix (bytes_of w) l.

Definition unescape (a : ascii) : option ascii :=
  if bool_decide (a = "n"%char) then Some (chr 10)
  else if bool_decide (a = "t"%char) then Some (chr 9)
  else if bool_decide (a = "r"%char) then Some (chr 13)
  else if bool_decide (a = "b"%char) then Some (chr 8)
  else if bool_decide (a = "f"%char) then Some (chr 12)
  else if bool_decide (a ∈ [quote_char; backslash; "/"%char]) then Some a
  else None.

(** The contents of a string up to its closing quote. *)
Fixpoint parse_chars (l : bytes) : option (bytes * bytes) :=
  match l with
  | [] => None
  | a :: l =>
      if bool_decide (a = quote_char) then Some ([], l)
      else if bool_decide (a = backslash) then
        match l with
        | "u"%char :: "0"%char :: "0"%char :: high :: low :: l =>
            h ← hex_digit high; d ← hex_digit low;
            if (h <? 8) then
              '(s, l) ← parse_chars l; Some (ascii_of_N (h * 16 + d) :: s, l)
            else None
        | b :: l => c ← unescape b; '(s, l) ← parse_chars l; Some (c :: s, l)
        | [] => None
        end
      else if byte a <? 32 then None
      else '(s, l) ← parse_chars l; Some (a :: s, l)
  end.
Definition parse_string (l : bytes) : option (string * bytes) :=
  l ← expect_char quote_char l; '(s, l) ← parse_chars l; Some (string_of s, l).

Fixpoint parse_digits (acc : N) (l : bytes) : N * bytes :=
  match l with
  | a :: l' => if is_ascii_digit a then parse_digits (acc * 10 + (byte a - 48)) l' else (acc, l)
  | [] => (acc, [])
  end.
Definition parse_number (l : bytes) : option (number * bytes) :=
  match l with
  | "-"%char :: a :: l' =>
      if is_ascii_digit a then let '(n, l) := parse_digits 0 (a :: l') in Some (NegInt (- Z.of_N n), l)
      else None
  | a :: _ => if is_ascii_digit a then let '(n, l) := parse_digits 0 l in Some (PosInt n, l) else None
  | [] => None
  end.

(** [fuel] bounds the number of values; a text has no more than it has bytes. *)
Fixpoint parse_value (fuel : nat) (l : bytes) : option (Value * bytes) :=
  match fuel with
  | O => None
  | S fuel =>
      let items := fix items n l :=
        match n with
        | O => None
        | S n =>
            '(v, l) ← parse_value fuel l;
            match skip l with
            | ","%char :: l => '(vs, l) ← items n l; Some (v :: vs, l)
            | "]"%char :: l => Some ([v], l)
            | _ => None
            end
        end in
      let members := fix members n l :=
        match n with
        | O => None
        | S n =>
            '(k, l) ← parse_string l;
            l ← expect_char ":"%char l;
            '(v, l) ← parse_value fuel l;
            match skip l with
            | ","%char :: l => '(kvs, l) ← members n l; Some ((k, v) :: kvs, l)
            | "}"%char :: l => Some ([(k, v)], l)
            | _ => None
            end
        end in
      match skip l with
      | "n"%char :: _ => (λ l, (VNull, l)) <$> expect_word "null" (skip l)
      | "t"%char :: _ => (λ l, (VBool true, l)) <$> expect_word "true" (skip l)
      | "f"%char :: _ => (λ l, (VBool false, l)) <$> expect_word "false" (skip l)
      | "["%char :: l =>
          match skip l with
          | "]"%char :: l => Some (VArray [], l)
          | _ => '(vs, l) ← items fuel l; Some (VArray vs, l)
          end
      | "{"%char :: l =>
          match skip l with
          | "}"%char :: l => Some (VObject [], l)
          | _ => '(kvs, l) ← members fuel l; Some (json_object kvs, l)
          end
      | a :: _ =>
          if bool_decide (a = quote_char) then '(s, l) ← parse_string l; Some (VString s, l)
          else '(n, l) ← parse_number (skip l); Some (VNumber n, l)
      | [] => None
      end
  end.
Definition parse_text (l : bytes) : result string Value :=
  match parse_value (S (length l)) l with
  | Some (v, l) => if bool_decide (skip l = []) then Ok v else Err "trailing characters"
  | None => Err "expected value"
  end.

(** ** Events and headers *)

Definition event_value (e : SessionEvent) : Value :=
  obj_of [("type", Some (VString (event_type e))); ("seq", Some (json_u64 (ev_seq e)));
          ("time", Some (json_u64 (ev_time e))); ("data", Some (ev_data e));
          ("ignorable", VBool <$> ev_ignorable e);
          ("sourceEventSeqs", (λ l, VArray (json_u64 <$> l)) <$> ev_source_event_seqs e);
          ("surfaceOp", SurfaceOp_serialize <$> ev_surface_op e)].
Definition surface_op_of (v : Value) : result string SurfaceOp :=
  match v with
  | VString op => SurfaceOp_of_wire (WireAppend op)
  | _ =>
      m ← of_obj v; op ← field m "op" of_str; a ← field m "start" of_u64; b ← field m "end" of_u64;
      SurfaceOp_of_wire (WireReplace op a b)
  end.
Definition event_of_value (v : Value) : result string SessionEvent :=
  m ← of_obj v;
  t ← field m "type" of_str; n ← field m "seq" of_u64; w ← field m "time" of_u64;
  d ← field m "data" Ok; i ← opt_field m "ignorable" of_bool;
  s ← opt_field m "sourceEventSeqs" (of_array of_u64); o ← opt_field m "surfaceOp" surface_op_of;
  Ok (mkEvent t n w d i s o).

Definition header_value (h : SessionHeader) : Value :=
  obj_of [("version", Some (json_u64 (h_version h))); ("id", Some (VString (h_id h)));
          ("createdAt", Some (json_u64 (h_created_at h))); ("cwd", VString <$> h_cwd h);
          ("parentSession", VString <$> h_parent_session h);
          ("seedLength", json_u64 <$> h_seed_length h);
          ("origin", (λ _, VString "subagent") <$> h_origin h);
          ("delegationDepth", json_u64 <$> h_delegation_depth h);
          ("agentMode", VString <$> h_agent_mode h)].
Definition header_wire_of (v : Value) : result string SessionHeaderWire :=
  m ← of_obj v;
  n ← field m "version" of_u64; i ← field m "id" of_str; c ← field m "createdAt" of_u64;
  w ← opt_field m "cwd" of_str; p ← opt_field m "parentSession" of_str;
  l ← opt_field m "seedLength" of_u64; o ← opt_field m "origin" (of_enum [("subagent", Subagent)]);
  d ← opt_field m "delegationDepth" of_u64; a ← opt_field m "agentMode" of_str;
  q ← opt_field m "agentPreset" of_str;
  Ok (mkHeaderWire n i c w p l o d a q).

#[export] Instance json_text : JsonText := {|
  value_of_text := parse_text;
  event_of_text l := v ← parse_text l; event_of_value v;
  event_text e := print_value (event_value e);
  header_text h := print_value (header_value h);
  header_of_value := header_wire_of;
|}.

(** A compression that stores its input, under a checksum that adds it up. *)
#[export] Instance stored : Compression := {|
  crc32 l := foldl (λ n a, (n * 31 + byte a) mod 2 ^ 32) 0 l;
  encode_all := Ok;
  decode_all := Ok;
|}.

Lemma stored_word l : crc32 l < 2 ^ 32.
Proof.
  cbn. assert (∀ n, n < 2 ^ 32 → foldl (λ n a, (n * 31 + byte a) mod 2 ^ 32) n l < 2 ^ 32) as Hf;
    [|by apply Hf].
  induction l as [|a l IH]; intros n Hn; [done|]. apply IH, N.mod_lt. done.
Qed.
