(* ===== verification/AgentInbox.v ===== *)
(** * The live inbox of an agent (agent.rs)

    Three queues under one lock, with the order in which next-step messages
    arrived, and reservations: a claim or an update is reserved first, its event
    is appended to the session's log with the lock released, and then committed
    or dropped.  Every method holds the lock throughout, so each is a function of
    the state; a [VecDeque] is a list.  The outer [option] of an operation is
    [None] when an [expect] or [unreachable!] would panic.  The notifications
    carry no data: their effect is the two revision counters. *)

From S2P Require Import Prelude Json Protocol Session.

#[local] Open Scope N_scope.

Inductive InboxTarget := Followup | Steer | Inject.
#[export] Instance InboxTarget_eq_dec : EqDecision InboxTarget.
Proof. solve_decision. Defined.

Inductive InboxUpdate :=
| Edit (content : list ContentBlock)
| Remove
| UpdateSteer.

Inductive InboxUpdateResult :=
| Updated (target : InboxTarget) (message : Message)
| NotPending
| SteerUnavailable.

Inductive AgentError :=
| ADuplicateFactory
| AFactoryNotRegistered
| ANotFound (id : SessionId)
| ADuplicateInboxMessage (id : MessageId)
| ACancelled
| ADisposed
| AInvalidOptions (message : string)
| ASetupReservationLost
| ARuntime (message : string)
| ASession (e : SessionError)
| AMessage (e : TessivumError).

Record AgentOptions := mkOptions {
  ao_provider : string;
  ao_model : string;
  ao_reasoning_effort : option string;
  ao_max_tokens : option N;
}.

Definition AgentOptions_validate (o : AgentOptions) : result AgentError unit :=
  if blank (ao_provider o) then Err (AInvalidOptions "provider must not be empty")
  else if blank (ao_model o) then Err (AInvalidOptions "model must not be empty")
  else if from_option blank false (ao_reasoning_effort o) then
    Err (AInvalidOptions "reasoning_effort must not be blank when present")
  else if bool_decide (ao_max_tokens o = Some 0) then
    Err (AInvalidOptions "max_tokens must be positive when present")
  else Ok tt.

Module Inbox.

Abbreviation is_some := Session.Inbox.is_some.

Record InboxState := mkInboxState {
  followups : list Message;
  steers : list Message;
  injections : list Message;
  reservations : gset MessageId;
  step_order : list (InboxTarget * MessageId);
  changes : N;
  wakes : N;
}.

(** An accepted mutation: the two counters move, the rest is given. *)
Definition bump (value : N) : N := default 1 (u64_checked_add value 1).

Definition new : InboxState := mkInboxState [] [] [] ∅ [] 0 0.

Definition queue (t : InboxTarget) (s : InboxState) : list Message :=
  match t with Followup => followups s | Steer => steers s | Inject => injections s end.

Definition set_queue (t : InboxTarget) (q : list Message) (s : InboxState) : InboxState :=
  match t with
  | Followup => mkInboxState q (steers s) (injections s) (reservations s) (step_order s)
                  (changes s) (wakes s)
  | Steer => mkInboxState (followups s) q (injections s) (reservations s) (step_order s)
               (changes s) (wakes s)
  | Inject => mkInboxState (followups s) (steers s) q (reservations s) (step_order s)
                (changes s) (wakes s)
  end.

Definition set_step_order (o : list (InboxTarget * MessageId)) (s : InboxState) : InboxState :=
  mkInboxState (followups s) (steers s) (injections s) (reservations s) o (changes s) (wakes s).

Definition set_reservations (r : gset MessageId) (s : InboxState) : InboxState :=
  mkInboxState (followups s) (steers s) (injections s) r (step_order s) (changes s) (wakes s).

Definition notify (changed woke : bool) (s : InboxState) : InboxState :=
  mkInboxState (followups s) (steers s) (injections s) (reservations s) (step_order s)
    (if changed then bump (changes s) else changes s) (if woke then bump (wakes s) else wakes s).

Definition pending_index (q : list Message) (item_id : MessageId) : option nat :=
  fst <$> list_find (λ m, m_id m = item_id) q.

Definition pending_contains (s : InboxState) (item_id : MessageId) : bool :=
  is_some (pending_index (followups s) item_id)
  || is_some (pending_index (steers s) item_id)
  || is_some (pending_index (injections s) item_id).

Section inbox.
Context `{ProtocolWire}.

Definition send (message : Message) (target : InboxTarget) (wakeup : bool) (s : InboxState) :
    result AgentError unit * InboxState :=
  match Message_validate message with
  | Err e => (Err (AMessage e), s)
  | Ok _ =>
      if pending_contains s (m_id message) then
        (Err (ADuplicateInboxMessage (m_id message)), s)
      else
        let s := match target with
                 | Followup => s
                 | _ => set_step_order (step_order s ++ [(target, m_id message)]) s
                 end in
        (Ok tt, notify true wakeup (set_queue target (queue target s ++ [message]) s))
  end.

Definition take (target : InboxTarget) (s : InboxState) : option Message * InboxState :=
  match queue target s with
  | [] => (None, s)
  | message :: rest =>
      if bool_decide (m_id message ∈ reservations s) then (None, s)
      else
        let s := set_queue target rest s in
        let s := if bool_decide (target = Followup) then s
                 else set_step_order
                        (filter (λ e, e.1 ≠ target ∨ e.2 ≠ m_id message) (step_order s)) s in
        (Some message, notify true false s)
  end.

Definition has_next_step (s : InboxState) : bool := negb (bool_decide (step_order s = [])).

(** The loop of [take_step_batch] over the popped entries. *)
Fixpoint pop_steps (order : list (InboxTarget * MessageId)) (s : InboxState) :
    list Message * InboxState :=
  match order with
  | [] => ([], s)
  | (Followup, _) :: order => pop_steps order s
  | (target, id) :: order =>
      match list_find (λ m, m_id m = id) (queue target s) with
      | Some (index, message) =>
          let r := pop_steps order (set_queue target (delete index (queue target s)) s) in
          (message :: r.1, r.2)
      | None => pop_steps order s
      end
  end.

Definition take_step_batch (s : InboxState) : list Message * InboxState :=
  let '(messages, s) := pop_steps (step_order s) (set_step_order [] s) in
  (messages, match messages with [] => s | _ => notify true false s end).

(** ** Claims *)

(** The target is the name written to the log. *)
Record InboxClaimReservation := mkClaim {
  cr_target : string;
  cr_entries : list (InboxTarget * MessageId);
  cr_messages : list Message;
}.

Definition reserve_next_turn_claim (s : InboxState) : option InboxClaimReservation * InboxState :=
  match followups s with
  | [] => (None, s)
  | message :: _ =>
      if bool_decide (m_id message ∈ reservations s) then (None, s)
      else (Some (mkClaim "next-turn" [(Followup, m_id message)] [message]),
            set_reservations ({[ m_id message ]} ∪ reservations s) s)
  end.

Definition step_message (s : InboxState) (e : InboxTarget * MessageId) : option Message :=
  match e.1 with
  | Followup => None
  | target => snd <$> list_find (λ m, m_id m = e.2) (queue target s)
  end.

Definition reserve_step_batch_claim (s : InboxState) : option InboxClaimReservation * InboxState :=
  if bool_decide (step_order s = [])
     || existsb (λ e, bool_decide (e.2 ∈ reservations s)) (step_order s) then (None, s)
  else
    match mapM (step_message s) (step_order s) with
    | None => (None, s)
    | Some messages =>
        (Some (mkClaim "next-step" (step_order s) messages),
         set_reservations (list_to_set (step_order s).*2 ∪ reservations s) s)
    end.

(** [None]: the [expect] on a claimed message that is not in its queue. *)
Fixpoint remove_claimed (entries : list (InboxTarget * MessageId)) (s : InboxState) :
    option InboxState :=
  match entries with
  | [] => Some s
  | (target, id) :: entries =>
      index ← pending_index (queue target s) id;
      let s := set_queue target (delete index (queue target s)) s in
      remove_claimed entries (set_reservations (reservations s ∖ {[ id ]}) s)
  end.

Definition commit_claim (r : InboxClaimReservation) (s : InboxState) : option (bool * InboxState) :=
  if negb (forallb (λ e, bool_decide (e.2 ∈ reservations s)) (cr_entries r)) then Some (false, s)
  else if negb (forallb (λ e, is_some (pending_index (queue e.1 s) e.2)) (cr_entries r)) then
    Some (false, s)
  else
    s ← remove_claimed (cr_entries r) s;
    let s := if String.eqb (cr_target r) "next-step" then
               set_step_order (filter (λ e, e.2 ∉ (cr_entries r).*2) (step_order s)) s
             else s in
    Some (true, notify true false s).

Definition abort_claim (entries : list (InboxTarget * MessageId)) (s : InboxState) : InboxState :=
  set_reservations (reservations s ∖ list_to_set entries.*2) s.

(** [InboxClaimReservation::commit]: a claim that was lost is dropped. *)
Definition claim_commit (r : InboxClaimReservation) (s : InboxState) :
    option (option (list Message) * InboxState) :=
  '(committed, s) ← commit_claim r s;
  Some (if (committed : bool) then (Some (cr_messages r), s)
        else (None, abort_claim (cr_entries r) s)).

(** What is pending, next-step messages in the order of their arrival. *)
Definition pending (s : InboxState) : list (InboxTarget * Message) :=
  ((λ m, (Followup, m)) <$> followups s) ++
  omap (λ e, (λ m, (e.1, m)) <$> step_message s e) (step_order s).

(** ** Updates *)

Record InboxUpdateReservation := mkUpdate {
  ur_item_id : MessageId;
  ur_update : InboxUpdate;
  ur_target : InboxTarget;
  ur_message : Message;
  ur_source_target : InboxTarget;
  ur_start : nat;
  ur_destination_start : option nat;
  ur_wakes : bool;
}.

Inductive InboxReservationResult :=
| Reserved (r : InboxUpdateReservation)
| ReservedNotPending
| ReservedSteerUnavailable.

Definition with_content (content : list ContentBlock) (m : Message) : Message :=
  mkMessage (m_id m) (m_role m) content (m_source m).

(** Where a pending message of the user is: its queue, the position reported in
    the log, and the message; the inner [None] is the [expect] on [step_order]. *)
Definition find_pending (item_id : MessageId) (s : InboxState) :
    option (option (InboxTarget * nat * Message)) :=
  match list_find (λ m, m_id m = item_id) (followups s) with
  | Some (index, message) => Some (Some (Followup, index, message))
  | None =>
      match list_find (λ m, m_id m = item_id) (steers s) with
      | Some (_, message) =>
          Some ((λ p, (Steer, p.1, message)) <$> list_find (λ e, e.2 = item_id) (step_order s))
      | None => None
      end
  end.

Definition reserve_update (item_id : MessageId) (update : InboxUpdate) (steer_enabled : bool)
    (s : InboxState) : option (InboxReservationResult * InboxState) :=
  if bool_decide (item_id ∈ reservations s) then Some (ReservedNotPending, s)
  else match find_pending item_id s with
  | None => Some (ReservedNotPending, s)
  | Some None => None
  | Some (Some (source_target, start, original)) =>
      let reserve target message wakes :=
        (Reserved (mkUpdate item_id update target message source_target start
           (match update with UpdateSteer => Some (length (step_order s)) | _ => None end) wakes),
         set_reservations ({[ item_id ]} ∪ reservations s) s) in
      Some match update with
      | Edit content =>
          let message := with_content content original in
          if is_ok (Message_validate message) then reserve source_target message false
          else (ReservedNotPending, s)
      | Remove => reserve source_target original false
      | UpdateSteer =>
          if bool_decide (source_target = Followup) && steer_enabled then
            reserve Steer original true
          else (ReservedSteerUnavailable, s)
      end
  end.

Definition remove_step (id : MessageId) (s : InboxState) : InboxState :=
  set_step_order (filter (λ e, e.2 ≠ id) (step_order s)) s.

Definition commit_reservation (r : InboxUpdateReservation) (s : InboxState) :
    option (bool * InboxState) :=
  let id := ur_item_id r in
  if negb (bool_decide (id ∈ reservations s)) then Some (false, s)
  else
    let s := set_reservations (reservations s ∖ {[ id ]}) s in
    let from := match ur_update r with UpdateSteer => Followup | _ => ur_target r end in
    match (match from with Inject => None | _ => pending_index (queue from s) id end) with
    | None => Some (false, s)
    | Some index =>
        let q := queue from s in
        message ← q !! index;
        let s := match ur_update r with
                 | Edit _ => set_queue from (<[index := ur_message r]> q) s
                 | Remove =>
                     let s := set_queue from (delete index q) s in
                     match from with Followup => s | _ => remove_step (m_id message) s end
                 | UpdateSteer =>
                     let s := set_queue Followup (delete index q) s in
                     let s := set_step_order (step_order s ++ [(Steer, m_id message)]) s in
                     set_queue Steer (steers s ++ [message]) s
                 end in
        Some (true, notify true (ur_wakes r) s)
    end.

Definition abort_reservation (item_id : MessageId) (s : InboxState) : InboxState :=
  if negb (bool_decide (item_id ∈ reservations s)) then s
  else
    let s := set_reservations (reservations s ∖ {[ item_id ]}) s in
    if pending_contains s item_id then notify false true s else s.

(** [update]: the same mutations without a reservation. *)
Definition update (item_id : MessageId) (update : InboxUpdate) (s : InboxState) :
    InboxUpdateResult * InboxState :=
  if bool_decide (item_id ∈ reservations s) then (NotPending, s)
  else
    match (match list_find (λ m, m_id m = item_id) (followups s) with
           | Some p => Some (Followup, p)
           | None => (λ p, (Steer, p)) <$> list_find (λ m, m_id m = item_id) (steers s)
           end) with
    | None => (NotPending, s)
    | Some (target, (index, message)) =>
        let q := queue target s in
        match update with
        | Edit content =>
            let updated := with_content content message in
            if is_ok (Message_validate updated) then
              (Updated target updated, notify true false (set_queue target (<[index := updated]> q) s))
            else (NotPending, s)
        | Remove =>
            let s := set_queue target (delete index q) s in
            let s := if bool_decide (target = Followup) then s
                     else set_step_order
                            (filter (λ e, e.1 ≠ target ∨ e.2 ≠ m_id message) (step_order s)) s in
            (Updated target message, notify true false s)
        | UpdateSteer =>
            if bool_decide (target ≠ Followup) then (SteerUnavailable, s)
            else
              let s := set_queue target (delete index q) s in
              let s := set_step_order (step_order s ++ [(Steer, m_id message)]) s in
              (Updated Steer message,
               notify true true (set_queue Steer (steers s ++ [message]) s))
        end
    end.

Definition len (s : InboxState) : nat :=
  length (followups s) + length (steers s) + length (injections s).
Definition is_empty (s : InboxState) : bool := (len s =? 0)%nat.

Definition clear (s : InboxState) : InboxState :=
  if is_empty s then s else notify true false (mkInboxState [] [] [] ∅ [] (changes s) (wakes s)).
End inbox.
End Inbox.

(** ** The agent around its inbox

    [ag_cancellation] and [ag_disposed] are the fields of [AgentState]; what the
    runtime answers ([status], [execution.try_lock]) is an argument.  The flag of
    an answer says whether [runtime.wake] is called. *)

Record AgentCancelOptions := mkCancelOptions {
  co_cause : AgentCancelCause;
  co_keep_inbox : bool;
}.

Record AgentInner := mkAgentInner {
  ag_inbox : Inbox.InboxState;
  ag_cancellation : option AgentCancelOptions;
  ag_disposed : bool;
}.

Definition set_inbox (i : Inbox.InboxState) (a : AgentInner) : AgentInner :=
  mkAgentInner i (ag_cancellation a) (ag_disposed a).

Definition check_agent (a : AgentInner) : result AgentError unit :=
  if ag_disposed a then Err ADisposed
  else match ag_cancellation a with Some _ => Err ACancelled | None => Ok tt end.

Definition cancel_including_idle (options : AgentCancelOptions) (a : AgentInner) :
    bool * AgentInner :=
  match ag_disposed a, ag_cancellation a with
  | false, None =>
      let i := if co_keep_inbox options then ag_inbox a else Inbox.clear (ag_inbox a) in
      (true, mkAgentInner i (Some options) (ag_disposed a))
  | _, _ => (false, a)
  end.

(** [idle]: the runtime is idle and no execution holds the session. *)
Definition cancel (idle : bool) (options : AgentCancelOptions) (a : AgentInner) :
    bool * AgentInner :=
  if idle then (false, a) else cancel_including_idle options a.

Definition dispose (a : AgentInner) : AgentInner :=
  if ag_disposed a then a
  else match ag_cancellation a with
       | Some _ => mkAgentInner (ag_inbox a) (ag_cancellation a) true
       | None => mkAgentInner (Inbox.clear (ag_inbox a))
                   (Some (mkCancelOptions CancelDisposed false)) true
       end.

Section agent.
Context `{ProtocolWire}.

Definition agent_send (message : Message) (target : InboxTarget) (wakeup : bool)
    (a : AgentInner) : result AgentError bool * AgentInner :=
  match check_agent a with
  | Err e => (Err e, a)
  | Ok _ =>
      match Inbox.send message target wakeup (ag_inbox a) with
      | (Err e, i) => (Err e, set_inbox i a)
      | (Ok _, i) => (Ok wakeup, set_inbox i a)
      end
  end.

Definition update_inbox (item_id : MessageId) (update : InboxUpdate) (running : bool)
    (a : AgentInner) : result AgentError (InboxUpdateResult * bool) * AgentInner :=
  match check_agent a with
  | Err e => (Err e, a)
  | Ok _ =>
      let wakes := match update with UpdateSteer => true | _ => false end in
      if wakes && negb running then (Ok (SteerUnavailable, false), a)
      else
        let '(r, i) := Inbox.update item_id update (ag_inbox a) in
        (Ok (r, wakes && match r with Updated _ _ => true | _ => false end), set_inbox i a)
  end.

Definition reserve_inbox_update (item_id : MessageId) (update : InboxUpdate) (running : bool)
    (a : AgentInner) : option (result AgentError Inbox.InboxReservationResult * AgentInner) :=
  match check_agent a with
  | Err e => Some (Err e, a)
  | Ok _ =>
      '(r, i) ← Inbox.reserve_update item_id update running (ag_inbox a);
      Some (Ok r, set_inbox i a)
  end.

Definition commit_inbox_update (r : Inbox.InboxUpdateReservation) (a : AgentInner) :
    option (bool * bool * AgentInner) :=
  '(committed, i) ← Inbox.commit_reservation r (ag_inbox a);
  Some (committed, committed && Inbox.ur_wakes r, set_inbox i a).
End agent.

(** ** The inbox among its users

    The agent's callers and its loop, as a sequence of operations; between a
    reservation and its end any other operation may come.  [sy_claims] and
    [sy_updates] are the reservations that were handed out and not yet committed
    or dropped.  An operation answers with the messages it delivers to the loop. *)

Record InboxSystem := mkSystem {
  sy_agent : AgentInner;
  sy_claims : list Inbox.InboxClaimReservation;
  sy_updates : list Inbox.InboxUpdateReservation;
}.

Definition started (a : AgentInner) : InboxSystem := mkSystem a [] [].

Inductive inbox_op :=
| OpSend (message : Message) (target : InboxTarget) (wakeup : bool)
| OpUpdate (item_id : MessageId) (update : InboxUpdate) (running : bool)
| OpReserveUpdate (item_id : MessageId) (update : InboxUpdate) (running : bool)
| OpCommitUpdate (i : nat)
| OpDropUpdate (i : nat)
| OpClaimTurn
| OpClaimSteps
| OpCommitClaim (i : nat)
| OpDropClaim (i : nat)
| OpCancel (options : AgentCancelOptions)
| OpDispose.

Definition add_claim (c : option Inbox.InboxClaimReservation * Inbox.InboxState)
    (y : InboxSystem) : InboxSystem :=
  mkSystem (set_inbox c.2 (sy_agent y)) (sy_claims y ++ option_list c.1) (sy_updates y).

Section system.
Context `{ProtocolWire}.

Definition run_op (op : inbox_op) (y : InboxSystem) : option (list Message * InboxSystem) :=
  let a := sy_agent y in
  let with_agent a' := Some ([], mkSystem a' (sy_claims y) (sy_updates y)) in
  match op with
  | OpSend m t w => with_agent (agent_send m t w a).2
  | OpUpdate id u running => with_agent (update_inbox id u running a).2
  | OpReserveUpdate id u running =>
      '(r, a') ← reserve_inbox_update id u running a;
      Some ([], mkSystem a' (sy_claims y)
                  (sy_updates y ++ match r with Ok (Inbox.Reserved u) => [u] | _ => [] end))
  | OpCommitUpdate i =>
      match sy_updates y !! i with
      | None => Some ([], y)
      | Some u =>
          '(_, _, a') ← commit_inbox_update u a;
          Some ([], mkSystem a' (sy_claims y) (delete i (sy_updates y)))
      end
  | OpDropUpdate i =>
      match sy_updates y !! i with
      | None => Some ([], y)
      | Some u =>
          Some ([], mkSystem (set_inbox (Inbox.abort_reservation (Inbox.ur_item_id u) (ag_inbox a)) a)
                      (sy_claims y) (delete i (sy_updates y)))
      end
  | OpClaimTurn => Some ([], add_claim (Inbox.reserve_next_turn_claim (ag_inbox a)) y)
  | OpClaimSteps => Some ([], add_claim (Inbox.reserve_step_batch_claim (ag_inbox a)) y)
  | OpCommitClaim i =>
      match sy_claims y !! i with
      | None => Some ([], y)
      | Some c =>
          '(delivered, i') ← Inbox.claim_commit c (ag_inbox a);
          Some (default [] delivered,
                mkSystem (set_inbox i' a) (delete i (sy_claims y)) (sy_updates y))
      end
  | OpDropClaim i =>
      match sy_claims y !! i with
      | None => Some ([], y)
      | Some c =>
          Some ([], mkSystem (set_inbox (Inbox.abort_claim (Inbox.cr_entries c) (ag_inbox a)) a)
                      (delete i (sy_claims y)) (sy_updates y))
      end
  | OpCancel options => with_agent (cancel_including_idle options a).2
  | OpDispose => with_agent (dispose a)
  end.

Inductive inbox_reachable : InboxSystem → Prop :=
| inbox_start : inbox_reachable (started (mkAgentInner Inbox.new None false))
| inbox_next y op delivered y' :
    inbox_reachable y → run_op op y = Some (delivered, y') → inbox_reachable y'.
End system.

(** ** The specification: two queues in arrival order *)

Record TwoQueues := mkQueues {
  tq_turns : list Message;
  tq_steps : list (InboxTarget * Message);
}.

Definition tq_ids (q : TwoQueues) : list MessageId :=
  (m_id <$> tq_turns q) ++ ((λ e, m_id e.2) <$> tq_steps q).

Definition tq_push (t : InboxTarget) (m : Message) (q : TwoQueues) : TwoQueues :=
  match t with
  | Followup => mkQueues (tq_turns q ++ [m]) (tq_steps q)
  | _ => mkQueues (tq_turns q) (tq_steps q ++ [(t, m)])
  end.

Definition tq_update (id : MessageId) (u : InboxUpdate) (q : TwoQueues) : TwoQueues :=
  match u with
  | Edit content =>
      let edit m := if bool_decide (m_id m = id) then Inbox.with_content content m else m in
      mkQueues (edit <$> tq_turns q) (prod_map (λ t, t) edit <$> tq_steps q)
  | Remove => mkQueues (filter (λ m, m_id m ≠ id) (tq_turns q))
                (filter (λ e, m_id e.2 ≠ id) (tq_steps q))
  | UpdateSteer =>
      mkQueues (filter (λ m, m_id m ≠ id) (tq_turns q))
        (tq_steps q ++ ((λ m, (Steer, m)) <$> filter (λ m, m_id m = id) (tq_turns q)))
  end.

(** The queues of a state. *)
Definition step_messages (i : Inbox.InboxState) : list (InboxTarget * Message) :=
  omap (λ e, (λ m, (e.1, m)) <$> Inbox.step_message i e) (Inbox.step_order i).
Definition queues_of (i : Inbox.InboxState) : TwoQueues :=
  mkQueues (Inbox.followups i) (step_messages i).

(** What each operation does to the queues, given its answer. *)
Section spec.
Context `{ProtocolWire}.

Definition op_spec (op : inbox_op) (y : InboxSystem) (delivered : list Message)
    (q' : TwoQueues) : Prop :=
  let a := sy_agent y in
  let q := queues_of (ag_inbox a) in
  match op with
  | OpSend m t w =>
      delivered = [] ∧
      q' = if is_ok (check_agent a) && is_ok (Message_validate m) && negb (bool_decide (m_id m ∈ tq_ids q))
           then tq_push t m q else q
  | OpUpdate id u running =>
      delivered = [] ∧
      q' = match (update_inbox id u running a).1 with
           | Ok (Updated _ _, _) => tq_update id u q
           | _ => q
           end
  | OpCommitUpdate i =>
      delivered = [] ∧
      q' = match sy_updates y !! i with
           | Some u => tq_update (Inbox.ur_item_id u) (Inbox.ur_update u) q
           | None => q
           end
  | OpCommitClaim i =>
      match sy_claims y !! i with
      | Some c =>
          (delivered = Inbox.cr_messages c ∧
           if String.eqb (Inbox.cr_target c) "next-turn" then
             tq_turns q = delivered ++ tq_turns q' ∧ length delivered = 1%nat ∧
             tq_steps q' = tq_steps q
           else tq_turns q' = tq_turns q ∧
             ∃ batch, delivered = batch.*2 ∧ tq_steps q = batch ++ tq_steps q') ∨
          q = mkQueues [] [] ∧ q' = q ∧ delivered = []
      | None => delivered = [] ∧ q' = q
      end
  | OpCancel options =>
      delivered = [] ∧
      q' = if (cancel_including_idle options a).1 && negb (co_keep_inbox options)
           then mkQueues [] [] else q
  | OpDispose =>
      delivered = [] ∧ q' = if bool_decide (ag_cancellation a = None) && negb (ag_disposed a)
                            then mkQueues [] [] else q
  | OpReserveUpdate _ _ _ | OpDropUpdate _ | OpClaimTurn | OpClaimSteps | OpDropClaim _ =>
      delivered = [] ∧ q' = q
  end.
End spec.
