(* ===== verification/AgentInboxFacts.v ===== *)
(** * Facts about the live inbox

    A state of the inbox represents two queues; each operation on the state is
    the corresponding operation on the queues, and what is reserved stays where
    it was until the reservation ends. *)

From S2P Require Import Prelude Json Protocol Session AgentInbox.

Import Inbox.

(** ** Lists with distinct keys *)

Section keyed.
Context {A K : Type} `{EqDecision K} (f : A → K).
Implicit Types (l : list A) (x y : A) (k : K) (i : nat).

Lemma find_key_Some l k i x :
  list_find (λ y, f y = k) l = Some (i, x) → l !! i = Some x ∧ f x = k.
Proof. intros Hf%list_find_Some. tauto. Qed.

Lemma find_key_None l k : list_find (λ y, f y = k) l = None ↔ k ∉ (f <$> l).
Proof.
  rewrite list_find_None, Forall_forall. split.
  - intros Hn (x & -> & Hx)%list_elem_of_fmap. by apply (Hn x).
  - intros Hn x Hx Heq. apply Hn. rewrite <-Heq. by apply list_elem_of_fmap_2.
Qed.

Lemma filter_key_notin l k : k ∉ f <$> l → filter (λ y, f y ≠ k) l = l.
Proof.
  induction l as [|x l IH]; intros Hn; [done|]. rewrite fmap_cons, not_elem_of_cons in Hn.
  rewrite filter_cons_True by naive_solver. by rewrite IH by naive_solver.
Qed.

Lemma fmap_key_notin (g : A → A) l k :
  k ∉ f <$> l → (λ y, if bool_decide (f y = k) then g y else y) <$> l = l.
Proof.
  induction l as [|x l IH]; intros Hn; [done|]. rewrite fmap_cons, not_elem_of_cons in Hn.
  rewrite fmap_cons, IH by naive_solver. by rewrite bool_decide_eq_false_2 by naive_solver.
Qed.

Lemma key_split l i x :
  NoDup (f <$> l) → l !! i = Some x →
  ∃ l1 l2, l = l1 ++ x :: l2 ∧ i = length l1 ∧ (f x ∉ f <$> l1) ∧ (f x ∉ f <$> l2).
Proof.
  intros Hnd Hi. apply list_elem_of_split_length in Hi as (l1 & l2 & -> & ->).
  exists l1, l2. rewrite fmap_app, fmap_cons in Hnd.
  apply NoDup_app in Hnd as (_ & Hd & [Hn _]%NoDup_cons).
  split_and!; [done|done| |done]. intros Hin. by apply (Hd _ Hin), list_elem_of_here.
Qed.

Lemma delete_key l i x :
  NoDup (f <$> l) → l !! i = Some x → delete i l = filter (λ y, f y ≠ f x) l.
Proof.
  intros Hnd (l1 & l2 & -> & -> & H1' & H2')%(key_split _ _ _ Hnd).
  by rewrite delete_middle, filter_app, filter_cons_False, !filter_key_notin by auto.
Qed.

Lemma insert_key (g : A → A) l i x :
  NoDup (f <$> l) → l !! i = Some x →
  <[i := g x]> l = (λ y, if bool_decide (f y = f x) then g y else y) <$> l.
Proof.
  intros Hnd (l1 & l2 & -> & -> & H1' & H2')%(key_split _ _ _ Hnd).
  rewrite fmap_app, fmap_cons, bool_decide_eq_true_2, !(fmap_key_notin g) by done.
  replace (length l1) with (length l1 + 0)%nat by lia. by rewrite insert_app_r.
Qed.

Lemma filter_key_is l i x :
  NoDup (f <$> l) → l !! i = Some x → filter (λ y, f y = f x) l = [x].
Proof.
  intros Hnd (l1 & l2 & -> & -> & H1' & H2')%(key_split _ _ _ Hnd).
  assert (∀ l', f x ∉ f <$> l' → filter (λ y, f y = f x) l' = []) as Hnil.
  { induction l' as [|y l' IH]; intros Hn; [done|]. rewrite fmap_cons, not_elem_of_cons in Hn.
    rewrite filter_cons_False by naive_solver. naive_solver. }
  by rewrite filter_app, filter_cons_True, !Hnil by done.
Qed.
End keyed.

(** Keys of a filtered list of tagged messages. *)
Abbreviation eid := (λ e : InboxTarget * Message, m_id e.2).

Lemma filter_ext_in {A} (P Q : A → Prop) `{∀ x, Decision (P x), ∀ x, Decision (Q x)} (l : list A) :
  (∀ x, x ∈ l → P x ↔ Q x) → filter P l = filter Q l.
Proof.
  induction l as [|x l IH]; intros Hi; [done|].
  assert (P x ↔ Q x) as Hx by (apply Hi, list_elem_of_here).
  assert (filter P l = filter Q l) as Hl by (apply IH; intros y Hy; by apply Hi, list_elem_of_further).
  destruct (decide (P x)); [rewrite !filter_cons_True by tauto|rewrite !filter_cons_False by tauto];
    by rewrite Hl.
Qed.


Lemma filter_map {A B} (f : A → B) (P : B → Prop) `{∀ x, Decision (P x)} (l : list A) :
  filter P (f <$> l) = f <$> filter (λ x, P (f x)) l.
Proof.
  induction l as [|x l IH]; [done|]. rewrite fmap_cons.
  destruct (decide (P (f x))); [rewrite !filter_cons_True|rewrite !filter_cons_False]; try done.
  by rewrite IH.
Qed.

(** ** What a state represents *)

Definition of_target (t : InboxTarget) (q : TwoQueues) : list Message :=
  match t with
  | Followup => tq_turns q
  | _ => (filter (λ e, e.1 = t) (tq_steps q)).*2
  end.

Definition entry_of (e : InboxTarget * Message) : InboxTarget * MessageId := (e.1, m_id e.2).

Record rep (i : InboxState) (q : TwoQueues) : Prop := mkRep {
  rep_queue : ∀ t, queue t i = of_target t q;
  rep_order : step_order i = entry_of <$> tq_steps q;
  rep_tags : ∀ e, e ∈ tq_steps q → e.1 ≠ Followup;
  rep_ids : NoDup (tq_ids q);
}.

Lemma rep_turns_ids i q : rep i q → NoDup (m_id <$> tq_turns q).
Proof. intros [_ _ _ Hn]. by apply NoDup_app in Hn as (? & _). Qed.

Lemma rep_steps_ids i q : rep i q → NoDup (eid <$> tq_steps q).
Proof. intros [_ _ _ Hn]. by apply NoDup_app in Hn as (_ & _ & ?). Qed.

Lemma of_target_sublist t q : m_id <$> of_target t q `sublist_of` tq_ids q.
Proof.
  unfold tq_ids. destruct t; cbn; [by apply sublist_inserts_r|..];
    apply sublist_inserts_l; rewrite <-list_fmap_compose; by apply fmap_sublist, sublist_filter.
Qed.

Lemma of_target_ids i q t : rep i q → NoDup (m_id <$> of_target t q).
Proof. intros [_ _ _ Hn]. by apply (sublist_NoDup _ _ Hn), of_target_sublist. Qed.

Lemma elem_of_target t m q : t ≠ Followup → m ∈ of_target t q ↔ (t, m) ∈ tq_steps q.
Proof.
  intros Ht. assert (of_target t q = (filter (λ e, e.1 = t) (tq_steps q)).*2) as -> by by destruct t.
  rewrite list_elem_of_fmap. split.
  - intros ([t' m'] & -> & [Heq He]%list_elem_of_filter). cbn in *. by subst.
  - intros He. exists (t, m). by rewrite list_elem_of_filter.
Qed.

Lemma tq_ids_target id q :
  (∀ e, e ∈ tq_steps q → e.1 ≠ Followup) →
  id ∈ tq_ids q ↔ ∃ t m, m ∈ of_target t q ∧ m_id m = id.
Proof.
  intros Htags. unfold tq_ids. rewrite elem_of_app, !list_elem_of_fmap. split.
  - intros [(m & -> & Hm)|([t m] & -> & Hm)]; [by exists Followup, m|]. exists t, m. split; [|done].
    apply elem_of_target; [by apply (Htags _ Hm)|done].
  - intros (t & m & Hm & <-). destruct (decide (t = Followup)) as [->|Ht]; [left; by exists m|].
    right. exists (t, m). split; [done|]. by apply elem_of_target.
Qed.

Lemma rep_notify i q a b : rep i q → rep (notify a b i) q.
Proof. intros [? ? ? ?]. by split. Qed.

Lemma rep_reservations i q r : rep i q → rep (set_reservations r i) q.
Proof. intros [? ? ? ?]. by split. Qed.

Lemma rep_pending i q id : rep i q → pending_contains i id = bool_decide (id ∈ tq_ids q).
Proof.
  intros Hr. pose proof Hr as [Hq _ Htags _].
  assert (∀ t, is_some (pending_index (queue t i) id) = bool_decide (id ∈ m_id <$> of_target t q)) as Ht.
  { intros t. unfold pending_index. rewrite Hq. destruct (list_find _ _) as [p|] eqn:Hf; cbn.
    - destruct p as [k m]. apply find_key_Some in Hf as [Hk <-]. symmetry. apply bool_decide_eq_true_2.
      by apply list_elem_of_fmap_2, list_elem_of_lookup_2 with k.
    - apply find_key_None in Hf. symmetry. by apply bool_decide_eq_false_2. }
  unfold pending_contains. change (followups i) with (queue Followup i).
  change (steers i) with (queue Steer i). change (injections i) with (queue Inject i).
  rewrite !Ht, <-!bool_decide_or. apply bool_decide_ext. rewrite (tq_ids_target id q Htags). split.
  - intros [[Hm|Hm]|Hm]; apply list_elem_of_fmap in Hm as (m & -> & Hm); eauto.
  - intros (t & m & Hm & <-). apply (list_elem_of_fmap_2 m_id) in Hm. destruct t; tauto.
Qed.

Lemma rep_queues i q : rep i q → queues_of i = q.
Proof.
  intros [Hq Ho Ht Hn]. unfold queues_of. destruct q as [turns steps]. f_equal.
  { apply (Hq Followup). }
  unfold step_messages. rewrite Ho. cbn in *. clear Ho.
  assert (∀ e, e ∈ steps → step_message i (entry_of e) = Some e.2) as Hs.
  { intros [t m] He. specialize (Ht _ He). cbn in Ht.
    assert (step_message i (entry_of (t, m)) = snd <$> list_find (λ m', m_id m' = m_id m) (queue t i))
      as -> by by destruct t.
    assert (list_find (λ m', m_id m' = m_id m) (queue t i) = None → False) as Hnone.
    { rewrite find_key_None, Hq. intros Hnin. by apply Hnin, list_elem_of_fmap_2, elem_of_target. }
    assert (∀ k m', list_find (λ m', m_id m' = m_id m) (queue t i) = Some (k, m') → m' = m) as Hsome.
    { intros k m' [Hk Hid]%find_key_Some. rewrite Hq in Hk. apply list_elem_of_lookup_2 in Hk.
      apply elem_of_target in Hk; [|done]. cbn in Hk. apply NoDup_app in Hn as (_ & _ & Hn).
      apply list_elem_of_lookup in He as [a Ha]. apply list_elem_of_lookup in Hk as [b Hb].
      assert (a = b) as -> by (apply (NoDup_lookup _ a b (m_id m) Hn); rewrite list_lookup_fmap;
        [by rewrite Ha|by rewrite Hb; cbn; rewrite Hid]). congruence. }
    destruct (list_find _ _) as [[k m']|] eqn:Hf; [|by destruct Hnone].
    cbn. by rewrite (Hsome k m').  }
  clear Hn Hq Ht. induction steps as [|[t m] steps IH]; [done|]. rewrite fmap_cons. cbn [omap list_omap].
  rewrite Hs by apply list_elem_of_here. cbn. f_equal. apply IH. intros. by apply Hs, list_elem_of_further.
Qed.

(** ** Operations on represented states *)

Lemma tq_ids_push t m q : tq_ids (tq_push t m q) ≡ₚ m_id m :: tq_ids q.
Proof.
  unfold tq_ids. destruct t; cbn; rewrite fmap_app; cbn;
    [rewrite <-app_assoc; symmetry; apply Permutation_middle
    |by rewrite app_assoc, <-Permutation_cons_append..].
Qed.

Lemma rep_push i q t m :
  rep i q → m_id m ∉ tq_ids q →
  rep (set_queue t (queue t i ++ [m])
         (match t with
          | Followup => i
          | _ => set_step_order (step_order i ++ [(t, m_id m)]) i
          end)) (tq_push t m q).
Proof.
  intros [Hq Ho Ht Hn] Hm. split.
  - intros t'. specialize (Hq t').
    destruct t, t'; cbn in *; rewrite ?Hq; try done;
      rewrite filter_app, fmap_app; cbn; by rewrite ?app_nil_r.
  - destruct t; cbn; rewrite Ho; [done|..]; by rewrite fmap_app.
  - destruct t; cbn; [done|..]; intros e [He| ->%list_elem_of_singleton]%elem_of_app; auto.
  - rewrite tq_ids_push. by constructor.
Qed.

Lemma of_target_remove t id q :
  of_target t (tq_update id Remove q) = filter (λ m, m_id m ≠ id) (of_target t q).
Proof.
  destruct t; cbn; [done|..]; rewrite (filter_map snd); f_equal;
    rewrite !list_filter_filter; apply list_filter_iff; tauto.
Qed.

Lemma tq_ids_remove id q : tq_ids (tq_update id Remove q) = filter (λ x, x ≠ id) (tq_ids q).
Proof. unfold tq_ids. by rewrite filter_app, (filter_map m_id), (filter_map eid). Qed.

Lemma of_target_other i q t t' m :
  rep i q → m ∈ of_target t q → t ≠ t' → m_id m ∉ m_id <$> of_target t' q.
Proof.
  intros [_ _ Ht Hn] Hm Hne (m' & Heq & Hm')%list_elem_of_fmap. unfold tq_ids in Hn.
  assert (∀ x a y b, x ≠ Followup → (x, a) ∈ tq_steps q → (y, b) ∈ tq_steps q → m_id a = m_id b → x = y)
    as Hs.
  { intros x a y b Hx Ha Hb Hab. apply NoDup_app in Hn as (_ & _ & Hn).
    apply list_elem_of_lookup in Ha as [u Hu]. apply list_elem_of_lookup in Hb as [v Hv].
    assert (u = v) as -> by (apply (NoDup_lookup _ u v (m_id a) Hn); rewrite list_lookup_fmap;
      [by rewrite Hu|by rewrite Hv; cbn; rewrite Hab]). congruence. }
  assert (∀ x a b, x ≠ Followup → a ∈ tq_turns q → (x, b) ∈ tq_steps q → m_id a ≠ m_id b) as Ht'.
  { intros x a b Hx Ha Hb Hab. apply NoDup_app in Hn as (_ & Hd & _).
    apply (Hd (m_id a)); [by apply list_elem_of_fmap_2|].
    apply list_elem_of_fmap. by exists (x, b). }
  destruct (decide (t = Followup)) as [->|Ht1].
  - apply elem_of_target in Hm'; [|done]. by apply (Ht' t' m m').
  - apply elem_of_target in Hm; [|done]. destruct (decide (t' = Followup)) as [->|Ht2].
    + by apply (Ht' t m' m).
    + apply elem_of_target in Hm'; [|done]. by apply Hne, (Hs t m t' m').
Qed.

Lemma set_step_order_id i : set_step_order (step_order i) i = i.
Proof. by destruct i. Qed.

Lemma rep_remove i q t k m :
  rep i q → of_target t q !! k = Some m →
  rep (set_queue t (delete k (queue t i))
         (set_step_order (filter (λ e, e.2 ≠ m_id m) (step_order i)) i))
    (tq_update (m_id m) Remove q).
Proof.
  intros Hr Hk. pose proof Hr as [Hq Ho Ht Hn].
  pose proof (list_elem_of_lookup_2 _ _ _ Hk) as Hm. split.
  - intros t'. rewrite of_target_remove. destruct (decide (t = t')) as [<-|Hne].
    + rewrite <-(delete_key m_id _ k m (of_target_ids i q t Hr) Hk), <-Hq. by destruct t.
    + rewrite (filter_key_notin m_id (of_target t' q)) by (by apply (of_target_other i q t t')). rewrite <-Hq.
      by destruct t, t'.
  - destruct t; cbn; by rewrite Ho, filter_map.
  - intros e [_ He]%list_elem_of_filter. auto.
  - rewrite tq_ids_remove. by apply NoDup_filter.
Qed.

(** The order is filtered by id alone: nothing else has the id. *)
Lemma rep_order_tag i q t m :
  rep i q → m ∈ of_target t q →
  filter (λ e, e.1 ≠ t ∨ e.2 ≠ m_id m) (step_order i) = filter (λ e, e.2 ≠ m_id m) (step_order i).
Proof.
  intros Hr Hm. pose proof Hr as [Hq Ho Ht Hn]. apply filter_ext_in. intros e He.
  split; [|tauto]. intros [Hne|]; [|done]. intros Heq. rewrite Ho in He.
  apply list_elem_of_fmap in He as ([t' m'] & -> & He). cbn in *.
  apply (of_target_other i q t t' m Hr Hm (not_eq_sym Hne)). rewrite <-Heq.
  apply list_elem_of_fmap_2, elem_of_target; [by apply (Ht _ He)|done].
Qed.

Lemma rep_order_turn i q m :
  rep i q → m ∈ of_target Followup q → filter (λ e, e.2 ≠ m_id m) (step_order i) = step_order i.
Proof.
  intros Hr Hm. rewrite <-(rep_order_tag i q Followup m Hr Hm).
  apply filter_Forall, Forall_forall. intros e He. left. rewrite (rep_order i q Hr) in He.
  apply list_elem_of_fmap in He as (e' & -> & He'). by apply (rep_tags i q Hr).
Qed.

Lemma of_target_edit t id c q :
  of_target t (tq_update id (Edit c) q) =
  (λ m, if bool_decide (m_id m = id) then with_content c m else m) <$> of_target t q.
Proof.
  destruct t; cbn; [done|..]; rewrite (filter_map (prod_map _ _)), <-!list_fmap_compose; done.
Qed.

Lemma edit_id id c m :
  m_id (if bool_decide (m_id m = id) then with_content c m else m) = m_id m.
Proof. by destruct (bool_decide (m_id m = id)). Qed.

Lemma tq_ids_edit id c q : tq_ids (tq_update id (Edit c) q) = tq_ids q.
Proof.
  unfold tq_ids. cbn. rewrite <-!list_fmap_compose. f_equal; apply list_fmap_ext; intros k x _; apply edit_id.
Qed.

Lemma rep_edit i q t k m c :
  rep i q → of_target t q !! k = Some m →
  rep (set_queue t (<[k := with_content c m]> (queue t i)) i) (tq_update (m_id m) (Edit c) q).
Proof.
  intros Hr Hk. pose proof Hr as [Hq Ho Ht Hn].
  pose proof (list_elem_of_lookup_2 _ _ _ Hk) as Hm. split.
  - intros t'. rewrite of_target_edit. destruct (decide (t = t')) as [<-|Hne].
    + rewrite <-(insert_key m_id _ _ k m (of_target_ids i q t Hr) Hk), <-Hq. by destruct t.
    + rewrite (fmap_key_notin m_id _ (of_target t' q)) by (by apply (of_target_other i q t t')). rewrite <-Hq.
      by destruct t, t'.
  - assert (step_order (set_queue t (<[k := with_content c m]> (queue t i)) i) = step_order i) as ->
      by by destruct t.
    rewrite Ho. cbn. rewrite <-list_fmap_compose. apply list_fmap_ext. intros j [t' m'] _.
    unfold entry_of. cbn. by rewrite edit_id.
  - intros e (e' & -> & He)%list_elem_of_fmap. by apply (Ht e').
  - by rewrite tq_ids_edit.
Qed.

Lemma tq_ids_steer k m q :
  NoDup (tq_ids q) → tq_turns q !! k = Some m → tq_ids (tq_update (m_id m) UpdateSteer q) ≡ₚ tq_ids q.
Proof.
  intros Hn Hk. unfold tq_ids in *. cbn. apply NoDup_app in Hn as (Hn & _ & _).
  rewrite (filter_key_is m_id _ k m Hn Hk). rewrite fmap_app. cbn.
  rewrite <-(delete_key m_id _ k m Hn Hk).
  apply list_elem_of_split_length in Hk as (l1 & l2 & -> & ->).
  rewrite delete_middle, !fmap_app, fmap_cons. cbn.
  rewrite app_assoc, <-Permutation_cons_append. by rewrite <-Permutation_middle.
Qed.

Lemma rep_steer i q k m :
  rep i q → tq_turns q !! k = Some m →
  rep (set_queue Steer (steers i ++ [m])
         (set_step_order (step_order i ++ [(Steer, m_id m)])
            (set_queue Followup (delete k (followups i)) i)))
    (tq_update (m_id m) UpdateSteer q).
Proof.
  intros Hr Hk. pose proof Hr as [Hq Ho Ht Hn]. pose proof (rep_turns_ids i q Hr) as Hturns. split.
  - intros t'. specialize (Hq t'). cbn. rewrite (filter_key_is m_id _ k m Hturns Hk).
    destruct t'; cbn in *; rewrite ?filter_app, ?fmap_app; cbn; rewrite ?app_nil_r, Hq;
      [by apply delete_key|done..].
  - cbn. by rewrite Ho, fmap_app, (filter_key_is m_id _ k m Hturns Hk).
  - intros e [He|He]%elem_of_app; [by apply Ht|]. by apply list_elem_of_fmap in He as (? & -> & _).
  - by rewrite (tq_ids_steer k).
Qed.

(** ** What a reservation stands on *)

Definition claim_ok (q : TwoQueues) (c : InboxClaimReservation) : Prop :=
  (∃ m rest, tq_turns q = m :: rest ∧ c = mkClaim "next-turn" [(Followup, m_id m)] [m]) ∨
  (∃ batch rest, batch ≠ [] ∧ tq_steps q = batch ++ rest ∧
     c = mkClaim "next-step" (entry_of <$> batch) batch.*2).

Definition update_ok (q : TwoQueues) (u : InboxUpdateReservation) : Prop :=
  ∃ m, m_id m = ur_item_id u ∧
  match ur_update u with
  | Edit content =>
      ur_message u = with_content content m ∧ ur_target u ≠ Inject ∧ m ∈ of_target (ur_target u) q
  | Remove => ur_target u ≠ Inject ∧ m ∈ of_target (ur_target u) q
  | UpdateSteer => m ∈ tq_turns q
  end.

Definition claim_ids (c : InboxClaimReservation) : list MessageId := (cr_entries c).*2.

Lemma claim_ok_entries q c : claim_ok q c → cr_entries c ≠ [].
Proof.
  intros [(m & rest & _ & ->)|(batch & rest & Hne & _ & ->)]; [done|].
  cbn. by destruct batch.
Qed.

Lemma claim_ok_push q c t m : claim_ok q c → claim_ok (tq_push t m q) c.
Proof.
  intros [(m0 & rest & Hq & ->)|(batch & rest & Hne & Hq & ->)]; destruct t; cbn; rewrite ?Hq;
    [left|left|left|right|right|right]; cbn; rewrite ?Hq; eauto;
    eexists batch, _; by rewrite <-?app_assoc.
Qed.

Lemma update_ok_push q u t m : update_ok q u → update_ok (tq_push t m q) u.
Proof.
  intros (m0 & Hid & Hu). exists m0. split; [done|].
  assert (∀ t', m0 ∈ of_target t' q → m0 ∈ of_target t' (tq_push t m q)) as Hmono.
  { intros t' Hm0. destruct (decide (t' = Followup)) as [->|Ht'].
    - destruct t; cbn; rewrite ?elem_of_app; auto.
    - rewrite elem_of_target in Hm0 |- * by done. destruct t; cbn; rewrite ?elem_of_app; auto. }
  destruct (ur_update u); [destruct Hu as (? & ? & ?); eauto|destruct Hu; eauto|by apply (Hmono Followup)].
Qed.

(** An update of another message moves nothing that is reserved. *)
Lemma filter_keep {A} (P : A → Prop) `{∀ x, Decision (P x)} (l k : list A) :
  Forall P l → filter P (l ++ k) = l ++ filter P k.
Proof. intros Hl. by rewrite filter_app, filter_Forall. Qed.

Lemma claim_ok_update q c id u :
  claim_ok q c → id ∉ claim_ids c → claim_ok (tq_update id u q) c.
Proof.
  intros [(m0 & rest & Hq & ->)|(batch & rest & Hne & Hq & ->)] Hid; unfold claim_ids in Hid; cbn in Hid.
  - left. assert (m_id m0 ≠ id) as Hne by set_solver.
    destruct u; cbn; rewrite Hq; [rewrite fmap_cons, bool_decide_eq_false_2 by done|
      rewrite filter_cons_True by done|rewrite filter_cons_True by done]; by eexists m0, _.
  - right. rewrite <-list_fmap_compose in Hid. change (snd ∘ entry_of) with eid in Hid.
    assert (Forall (λ e, m_id e.2 ≠ id) batch) as Hb.
    { apply Forall_forall. intros e He <-. by apply Hid, (list_elem_of_fmap_2 eid). }
    exists batch. destruct u; cbn; rewrite Hq; [|rewrite filter_keep by done|rewrite <-app_assoc]; [|by eexists..].
    rewrite fmap_app. eexists. split; [done|]. split; [|done]. f_equal.
    rewrite <-(list_fmap_id batch) at 2. apply list_fmap_ext. intros k [t m] Hk. cbn.
    rewrite Forall_forall in Hb. apply list_elem_of_lookup_2, Hb in Hk. cbn in Hk.
    by rewrite bool_decide_eq_false_2.
Qed.

Lemma update_ok_update q u id v :
  update_ok q u → id ≠ ur_item_id u → update_ok (tq_update id v q) u.
Proof.
  intros (m0 & Hid & Hu) Hne. exists m0. split; [done|].
  assert (∀ t, m0 ∈ of_target t q → m0 ∈ of_target t (tq_update id v q)) as Hmono.
  { intros t Hm. destruct v as [content| |].
    - rewrite of_target_edit. apply list_elem_of_fmap. exists m0. split; [|done].
      rewrite bool_decide_eq_false_2; congruence.
    - rewrite of_target_remove. apply list_elem_of_filter. split; [congruence|done].
    - destruct (decide (t = Followup)) as [->|Ht].
      + cbn. apply list_elem_of_filter. split; [congruence|done].
      + rewrite elem_of_target in Hm |- * by done. cbn. apply elem_of_app. by left. }
  destruct (ur_update u); [destruct Hu as (? & ? & ?); eauto|destruct Hu; eauto|by apply (Hmono Followup)].
Qed.

(** ** Each operation on a represented state *)

Lemma send_rep m t w i q :
  rep i q →
  if is_ok (Message_validate m) && negb (bool_decide (m_id m ∈ tq_ids q)) then
    ∃ i', send m t w i = (Ok tt, i') ∧ rep i' (tq_push t m q) ∧ reservations i' = reservations i
  else ∃ e, send m t w i = (Err e, i).
Proof.
  intros Hr. unfold send. destruct (Message_validate m) as [[]|e]; [|by eexists].
  rewrite (rep_pending i q _ Hr). cbn [is_ok andb]. case_bool_decide as Hin; [by eexists|].
  pose proof (rep_push i q t m Hr Hin) as Hp.
  destruct t; eexists; (split; [reflexivity|]); (split; [apply rep_notify, Hp|done]).
Qed.

Lemma rep_find i q t id k m :
  rep i q → list_find (λ m, m_id m = id) (queue t i) = Some (k, m) →
  of_target t q !! k = Some m ∧ m_id m = id.
Proof. intros Hr Hf%find_key_Some. by rewrite <-(rep_queue i q Hr). Qed.

(** The position [index] that a scan of the pending messages finds. *)
Lemma update_rep id u i q r i' :
  rep i q → update id u i = (r, i') →
  reservations i' = reservations i ∧
  match r with
  | Updated _ _ => (id ∉ reservations i) ∧ rep i' (tq_update id u q)
  | _ => i' = i
  end.
Proof.
  intros Hr. unfold update. destruct (decide (id ∈ reservations i)) as [Hin|Hin].
  { rewrite bool_decide_eq_true_2 by done. by intros [= <- <-]. }
  rewrite bool_decide_eq_false_2 by done.
  set (found := match list_find (λ m, m_id m = id) (followups i) with Some _ => _ | None => _ end).
  assert (match found with
          | Some (t, (k, m)) => of_target t q !! k = Some m ∧ m_id m = id ∧ t ≠ Inject
          | None => True
          end) as Hfound.
  { subst found. destruct (list_find _ (followups i)) as [[k m]|] eqn:Hf.
    { destruct (rep_find i q Followup id k m Hr Hf) as [??]. by split_and!. }
    destruct (list_find _ (steers i)) as [[k m]|] eqn:Hs; [|done].
    destruct (rep_find i q Steer id k m Hr Hs) as [??]. by split_and!. }
  destruct found as [[t [k m]]|]; [|by intros [= <- <-]].
  destruct Hfound as (Hk & <- & Ht). destruct u as [content| |].
  - destruct (is_ok _); intros [= <- <-]; [|done]. split; [by destruct t|]. split; [done|].
    apply rep_notify, rep_edit; done.
  - pose proof (rep_remove i q t k m Hr Hk) as Hrem.
    pose proof (list_elem_of_lookup_2 _ _ _ Hk) as Hm.
    assert (step_order (set_queue t (delete k (queue t i)) i) = step_order i) as Ho by by destruct t.
    assert (∀ o, set_step_order o (set_queue t (delete k (queue t i)) i) =
                 set_queue t (delete k (queue t i)) (set_step_order o i)) as Hc by by destruct t.
    rewrite Ho, (rep_order_tag i q t m Hr Hm), Hc. intros [= <- <-].
    case_bool_decide as Hf.
    + subst t. rewrite (rep_order_turn i q m Hr Hm), set_step_order_id in Hrem.
      split; [done|]. split; [done|]. by apply rep_notify.
    + split; [by destruct t|]. split; [done|]. by apply rep_notify.
  - case_bool_decide as Hf; [by intros [= <- <-]|].
    assert (t = Followup) as -> by by destruct (decide (t = Followup)).
    intros [= <- <-]. split; [done|]. split; [done|]. apply rep_notify. by apply rep_steer.
Qed.

Lemma find_pending_rep i q id :
  rep i q →
  (find_pending id i = None) ∨
  (∃ t k m, find_pending id i = Some (Some (t, k, m)) ∧
     m ∈ of_target t q ∧ m_id m = id ∧ t ≠ Inject).
Proof.
  intros Hr. unfold find_pending. destruct (list_find _ (followups i)) as [[k m]|] eqn:Hf.
  { right. destruct (rep_find i q Followup id k m Hr Hf) as [Hk ?].
    exists Followup, k, m. split_and!; [done|by apply list_elem_of_lookup_2 with k|done|done]. }
  destruct (list_find _ (steers i)) as [[k m]|] eqn:Hs; [|by left].
  destruct (rep_find i q Steer id k m Hr Hs) as [Hk Hid].
  pose proof (list_elem_of_lookup_2 _ _ _ Hk) as Hm. right.
  destruct (list_find (λ e, e.2 = id) (step_order i)) as [[k' e]|] eqn:Ho.
  { exists Steer, k', m. by split_and!. }
  apply list_find_None in Ho. rewrite Forall_forall in Ho. destruct (Ho (Steer, id)); [|done].
  rewrite (rep_order i q Hr). apply list_elem_of_fmap. exists (Steer, m). split.
  - unfold entry_of. by rewrite <-Hid.
  - by apply elem_of_target in Hm.
Qed.

Lemma reserve_update_rep id u b i q :
  rep i q →
  ∃ r i', reserve_update id u b i = Some (r, i') ∧ rep i' q ∧
  match r with
  | Reserved v => ur_item_id v = id ∧ (id ∉ reservations i) ∧ id ∈ tq_ids q ∧
      reservations i' = {[ id ]} ∪ reservations i ∧ update_ok q v
  | _ => i' = i
  end.
Proof.
  intros Hr. unfold reserve_update. destruct (decide (id ∈ reservations i)) as [Hin|Hin].
  { rewrite bool_decide_eq_true_2 by done. by eexists _, _. }
  rewrite bool_decide_eq_false_2 by done.
  destruct (find_pending_rep i q id Hr) as [->|(t & k & m & -> & Hm & <- & Ht)]; [by eexists _, _|].
  assert (m_id m ∈ tq_ids q) as Hid.
  { apply (sublist_subseteq _ _ (of_target_sublist t q)). by apply list_elem_of_fmap_2. }
  destruct u as [content| |].
  - destruct (is_ok _); [|by eexists _, _]. eexists _, _. split; [reflexivity|].
    split; [by apply rep_reservations|]. split_and!; [done..|]. exists m. by split_and!.
  - eexists _, _. split; [reflexivity|].
    split; [by apply rep_reservations|]. split_and!; [done..|]. exists m. by split_and!.
  - case_bool_decide as Hf; [|by eexists _, _]. destruct b; [|by eexists _, _]. subst t.
    eexists _, _. split; [reflexivity|].
    split; [by apply rep_reservations|]. split_and!; [done..|]. by exists m.
Qed.

Lemma pending_index_rep i q t m :
  rep i q → m ∈ of_target t q →
  ∃ k, pending_index (queue t i) (m_id m) = Some k ∧ of_target t q !! k = Some m.
Proof.
  intros Hr Hm. unfold pending_index. destruct (list_find _ (queue t i)) as [[k m']|] eqn:Hf.
  - exists k. split; [done|]. destruct (rep_find i q t _ k m' Hr Hf) as [Hk Hid].
    apply list_elem_of_lookup in Hm as [k' Hk'].
    assert (k = k') as -> by (apply (NoDup_lookup _ k k' (m_id m) (of_target_ids i q t Hr));
      rewrite list_lookup_fmap; [by rewrite Hk, <-Hid|by rewrite Hk']). congruence.
  - apply find_key_None in Hf. destruct Hf. rewrite (rep_queue i q Hr). by apply list_elem_of_fmap_2.
Qed.

Lemma commit_update_rep u i q :
  rep i q → update_ok q u → ur_item_id u ∈ reservations i →
  ∃ i', commit_reservation u i = Some (true, i') ∧
    rep i' (tq_update (ur_item_id u) (ur_update u) q) ∧
    reservations i' = reservations i ∖ {[ ur_item_id u ]}.
Proof.
  intros Hr (m & Hid & Hu) Hin. unfold commit_reservation.
  rewrite bool_decide_eq_true_2 by done. cbn [negb].
  set (i1 := set_reservations (reservations i ∖ {[ ur_item_id u ]}) i).
  assert (rep i1 q) as Hr1 by by apply rep_reservations.
  assert (∀ t, t ≠ Inject → m ∈ of_target t q → ∃ k,
    match t with Inject => None | _ => pending_index (queue t i1) (ur_item_id u) end = Some k ∧
    queue t i1 !! k = Some m ∧ of_target t q !! k = Some m) as Hfind.
  { intros t Ht Hm. destruct (pending_index_rep i1 q t m Hr1 Hm) as (k & Hk & Hl).
    exists k. split_and!; [rewrite <-Hid; by destruct t|by rewrite (rep_queue i1 q Hr1)|done]. }
  destruct (ur_update u) as [content| |].
  - destruct Hu as (Hmsg & Ht & Hm). destruct (Hfind _ Ht Hm) as (k & -> & Hk & Hl).
    rewrite Hk. cbn [mbind option_bind]. eexists. split; [reflexivity|].
    rewrite Hmsg. split; [rewrite <-Hid; by apply rep_notify, rep_edit|by destruct (ur_target u)].
  - destruct Hu as (Ht & Hm). destruct (Hfind _ Ht Hm) as (k & -> & Hk & Hl).
    rewrite Hk. cbn [mbind option_bind]. eexists. split; [reflexivity|].
    pose proof (rep_remove i1 q _ k m Hr1 Hl) as Hrem.
    pose proof (rep_order_turn i1 q m Hr1) as Hturn. rewrite Hid in Hrem, Hturn.
    destruct (ur_target u); [rewrite Hturn, set_step_order_id in Hrem by done| |done].
    + split; [by apply rep_notify|done].
    + unfold remove_step. rewrite Hid. split; [by apply rep_notify|done].
  - destruct (Hfind Followup) as (k & -> & Hk & Hl); [done|done|].
    rewrite Hk. cbn [mbind option_bind]. eexists. split; [reflexivity|].
    split; [|done]. rewrite <-Hid. apply rep_notify. by apply (rep_steer i1 q k m).
Qed.

Lemma abort_reservation_rep id i q :
  rep i q → rep (abort_reservation id i) q ∧
  reservations (abort_reservation id i) = reservations i ∖ {[ id ]}.
Proof.
  intros Hr. unfold abort_reservation. destruct (decide (id ∈ reservations i)) as [Hin|Hin].
  - rewrite bool_decide_eq_true_2 by done. cbn [negb].
    destruct (pending_contains _ id); (split; [|done]); [apply rep_notify|]; by apply rep_reservations.
  - rewrite bool_decide_eq_false_2 by done. cbn [negb]. split; [done|]. set_solver.
Qed.

(** ** Claims *)

Lemma claim_turn_rep i q c i' :
  rep i q → reserve_next_turn_claim i = (c, i') → rep i' q ∧
  match c with
  | Some c => claim_ok q c ∧ NoDup (claim_ids c) ∧ (∀ id, id ∈ claim_ids c → id ∉ reservations i) ∧
      reservations i' = list_to_set (claim_ids c) ∪ reservations i
  | None => i' = i
  end.
Proof.
  intros Hr. unfold reserve_next_turn_claim. pose proof (rep_queue i q Hr Followup) as Hq. cbn in Hq.
  rewrite Hq. destruct (tq_turns q) as [|m rest] eqn:Ht; [by intros [= <- <-]|].
  case_bool_decide as Hin; intros [= <- <-]; [done|]. split; [by apply rep_reservations|].
  unfold claim_ids. cbn. split_and!; [by left; exists m, rest|apply NoDup_singleton|set_solver|set_solver].
Qed.

Lemma step_message_rep i q e :
  rep i q → e ∈ tq_steps q → step_message i (entry_of e) = Some e.2.
Proof.
  intros Hr He. destruct e as [t m]. pose proof (rep_tags i q Hr _ He) as Ht. cbn in Ht.
  assert (m ∈ of_target t q) as Hm by by apply elem_of_target.
  destruct (pending_index_rep i q t m Hr Hm) as (k & Hk & Hl). unfold pending_index in Hk.
  assert (step_message i (entry_of (t, m)) = snd <$> list_find (λ m', m_id m' = m_id m) (queue t i))
    as -> by by destruct t.
  destruct (list_find _ _) as [[k' m']|] eqn:Hf; [|done]. cbn in Hk. injection Hk as ->. cbn.
  destruct (rep_find i q t _ k m' Hr Hf) as [Hk _]. congruence.
Qed.

Lemma claim_steps_rep i q c i' :
  rep i q → reserve_step_batch_claim i = (c, i') → rep i' q ∧
  match c with
  | Some c => claim_ok q c ∧ NoDup (claim_ids c) ∧ (∀ id, id ∈ claim_ids c → id ∉ reservations i) ∧
      reservations i' = list_to_set (claim_ids c) ∪ reservations i
  | None => i' = i
  end.
Proof.
  intros Hr. unfold reserve_step_batch_claim. pose proof (rep_order i q Hr) as Ho.
  destruct (bool_decide (step_order i = []) || _) eqn:Hb; [by intros [= <- <-]|].
  apply orb_false_iff in Hb as [Hne%bool_decide_eq_false Hres].
  assert (mapM (step_message i) (step_order i) = Some (tq_steps q).*2) as ->.
  { rewrite Ho. apply mapM_Some. clear Ho Hne Hres.
    assert (∀ e, e ∈ tq_steps q → step_message i (entry_of e) = Some e.2) as Hs
      by (intros; by apply (step_message_rep i q)).
    induction (tq_steps q) as [|e l IH]; [constructor|]. cbn. constructor.
    - apply Hs, list_elem_of_here.
    - apply IH. intros. by apply Hs, list_elem_of_further. }
  intros [= <- <-]. split; [by apply rep_reservations|]. unfold claim_ids. cbn.
  split_and!; [|rewrite Ho, <-list_fmap_compose; by apply rep_steps_ids with i| |done].
  - right. exists (tq_steps q), []. rewrite app_nil_r, Ho. split_and!; [|done|done].
    intros Heq. by rewrite Ho, Heq in Hne.
  - intros id Hid Hin. apply list_elem_of_fmap in Hid as (e & -> & He).
    assert (existsb (λ e, bool_decide (e.2 ∈ reservations i)) (step_order i) = true) as Ht; [|congruence].
    apply existsb_exists. exists e. split; [by apply list_elem_of_In|]. by apply bool_decide_eq_true_2.
Qed.

Lemma remove_claimed_rep batch : ∀ i turns rest,
  rep i (mkQueues turns (batch ++ rest)) → ∃ i', remove_claimed (entry_of <$> batch) i = Some i' ∧
  (∀ t, queue t i' = of_target t (mkQueues turns rest)) ∧ step_order i' = step_order i ∧
  reservations i' = reservations i ∖ list_to_set (eid <$> batch).
Proof.
  intros i turns rest [Hq _ Ht _]. cbn in Ht. revert i Hq.
  induction batch as [|[t m] batch IH]; intros i Hq.
  { exists i. split_and!; [done|done|done|]. cbn. set_solver. }
  assert (t ≠ Followup) as Hf by apply (Ht (t, m)), list_elem_of_here.
  rewrite fmap_cons. unfold entry_of at 1. cbn [remove_claimed fst snd].
  assert (queue t i = m :: of_target t (mkQueues turns (batch ++ rest))) as Hqt.
  { rewrite Hq. destruct t; [done|reflexivity|reflexivity]. }
  unfold pending_index. rewrite Hqt. cbn [list_find]. rewrite decide_True by done. cbn [fmap option_fmap option_map fst mbind option_bind].
  destruct (IH ltac:(intros e He; by apply Ht, list_elem_of_further)
    (set_reservations (reservations i ∖ {[ m_id m ]})
       (set_queue t (of_target t (mkQueues turns (batch ++ rest))) i))) as (i' & Hi & Hq' & Ho & Hr).
  - intros t'. specialize (Hq t'). destruct t, t'; try done; cbn in *; by rewrite ?Hq.
  - exists i'. assert (delete 0%nat (m :: of_target t (mkQueues turns (batch ++ rest))) =
      of_target t (mkQueues turns (batch ++ rest))) as -> by done.
    assert (∀ r q', reservations (set_queue t q' i) ∖ r = reservations i ∖ r) as -> by by destruct t.
    split; [done|]. split; [done|]. split; [by destruct t|]. rewrite Hr. cbn. set_solver.
Qed.

Definition claim_spec (c : InboxClaimReservation) (q q' : TwoQueues) : Prop :=
  if String.eqb (cr_target c) "next-turn" then
    tq_turns q = cr_messages c ++ tq_turns q' ∧ length (cr_messages c) = 1%nat ∧
    tq_steps q' = tq_steps q
  else
    tq_turns q' = tq_turns q ∧
    ∃ batch, cr_messages c = batch.*2 ∧ tq_steps q = batch ++ tq_steps q'.

Lemma claim_spec_keep c q q' :
  claim_spec c q q' → claim_ok q c → NoDup (tq_ids q) →
  (∀ d, claim_ok q d → (∀ id, id ∈ claim_ids d → id ∉ claim_ids c) → claim_ok q' d) ∧
  (∀ u, update_ok q u → ur_item_id u ∉ claim_ids c → update_ok q' u).
Proof.
  intros Hs Hc Hn. destruct Hc as [(m & rest & Hq & ->)|(batch & rest & Hne & Hq & ->)];
    unfold claim_spec in Hs; cbn in Hs.
  - destruct Hs as (Ht & _ & Hst). rewrite Ht in Hq. injection Hq as Hq. split.
    + intros d [(m' & r' & Hq' & ->)|(b & r & Hb & Hq' & ->)] Hd.
      * rewrite Ht in Hq'. injection Hq' as -> _. unfold claim_ids in Hd. cbn in Hd. set_solver.
      * right. exists b, r. by rewrite Hst.
    + intros u (m' & Hid & Hu) Hni. unfold claim_ids in Hni. cbn in Hni. exists m'. split; [done|].
      assert (m' ≠ m) as Hmm by (intros ->; set_solver).
      assert (∀ t, m' ∈ of_target t q → m' ∈ of_target t q') as Hmono.
      { intros t Hm'. destruct (decide (t = Followup)) as [->|Hf].
        - cbn in *. rewrite Ht in Hm'. by apply elem_of_cons in Hm' as [->|].
        - rewrite elem_of_target in Hm' |- * by done. by rewrite Hst. }
      destruct (ur_update u);
        [destruct Hu as (? & ? & ?); eauto|destruct Hu; eauto|by apply (Hmono Followup)].
  - destruct Hs as (Ht & b' & Hb' & Hst). rewrite Hst in Hq.
    assert (b' = batch) as ->.
    { assert (length b' = length batch) as Hl by (rewrite <-(length_fmap snd b'), <-Hb'; apply length_fmap).
      apply (app_inj_1 _ _ _ _ Hl) in Hq. by destruct Hq. }
    apply app_inv_head in Hq. unfold claim_ids. cbn.
    rewrite <-list_fmap_compose. change (snd ∘ entry_of) with eid. split.
    + intros d [(m' & r' & Hq' & ->)|(b & r & Hb & Hq' & ->)] Hd.
      * left. exists m', r'. by rewrite Ht.
      * rewrite Hst in Hq'. destruct batch as [|e batch]; [done|]. destruct b as [|e' b]; [done|].
        injection Hq' as -> _. destruct (Hd (m_id e'.2)); apply list_elem_of_here.
    + intros u (m' & Hid & Hu) Hni. exists m'. split; [done|].
      assert (∀ t, m' ∈ of_target t q → m' ∈ of_target t q') as Hmono.
      { intros t Hm'. destruct (decide (t = Followup)) as [->|Hf]; [cbn in *; by rewrite Ht|].
        rewrite elem_of_target in Hm' |- * by done. rewrite Hst in Hm'.
        apply elem_of_app in Hm' as [Hm'|]; [|done]. destruct Hni. rewrite <-Hid.
        by apply (list_elem_of_fmap_2 eid) in Hm'. }
      destruct (ur_update u);
        [destruct Hu as (? & ? & ?); eauto|destruct Hu; eauto|by apply (Hmono Followup)].
Qed.

(** A claim whose messages are still reserved is delivered whole. *)
Lemma commit_claim_rep c i q :
  rep i q → claim_ok q c → (∀ id, id ∈ claim_ids c → id ∈ reservations i) →
  ∃ i' q', claim_commit c i = Some (Some (cr_messages c), i') ∧ rep i' q' ∧
    claim_spec c q q' ∧ reservations i' = reservations i ∖ list_to_set (claim_ids c).
Proof.
  intros Hr Hc Hres. unfold claim_commit, commit_claim.
  assert (forallb (λ e, bool_decide (e.2 ∈ reservations i)) (cr_entries c) = true) as ->.
  { apply forallb_forall. intros e He%list_elem_of_In. apply bool_decide_eq_true_2, Hres.
    by apply list_elem_of_fmap_2. }
  assert (∀ e, e ∈ cr_entries c → is_some (pending_index (queue e.1 i) e.2) = true) as Hpend.
  { intros e He. destruct Hc as [(m & rest & Hq & ->)|(batch & rest & Hne & Hq & ->)]; cbn in He.
    - apply list_elem_of_singleton in He as ->.
      destruct (pending_index_rep i q Followup m Hr) as (k & Hk & _); [cbn; rewrite Hq; apply list_elem_of_here|].
      cbn in *. by rewrite Hk.
    - apply list_elem_of_fmap in He as ([t m] & -> & He).
      assert ((t, m) ∈ tq_steps q) as Hin by (rewrite Hq; apply elem_of_app; by left).
      destruct (pending_index_rep i q t m Hr) as (k & Hk & _).
      { apply elem_of_target; [by apply (rep_tags i q Hr _ Hin)|done]. }
      cbn. by rewrite Hk. }
  assert (forallb (λ e, is_some (pending_index (queue e.1 i) e.2)) (cr_entries c) = true) as ->
    by (apply forallb_forall; intros e He%list_elem_of_In; by apply Hpend).
  cbn [negb]. pose proof Hr as [Hqs Ho Htags Hn].
  destruct Hc as [(m & rest & Hq & ->)|(batch & rest & Hne & Hq & ->)].
  - cbn [cr_entries cr_target cr_messages remove_claimed].
    destruct (rep_remove i q Followup 0 m Hr) as [Hq' Ho' Ht' Hn']; [cbn; by rewrite Hq|].
    assert (pending_index (queue Followup i) (m_id m) = Some 0%nat) as ->.
    { rewrite Hqs. cbn. rewrite Hq. unfold pending_index. cbn [list_find]. by rewrite decide_True. }
    cbn. eexists _, (mkQueues rest (tq_steps q)). split; [reflexivity|]. split; [|split].
    + apply rep_notify. split.
      * intros t. specialize (Hqs t). destruct t; cbn in *; rewrite Hqs; [by rewrite Hq|done|done].
      * done.
      * done.
      * unfold tq_ids in *. cbn. rewrite Hq in Hn. by apply NoDup_cons in Hn as [_ Hn].
    + unfold claim_spec. by rewrite Hq.
    + unfold claim_ids. cbn. set_solver.
  - destruct q as [turns steps]. cbn in Hq. subst steps. cbn [cr_entries cr_target cr_messages].
    destruct (remove_claimed_rep batch i turns rest Hr) as (i' & -> & Hq' & Ho' & Hr').
    cbn [mbind option_bind]. rewrite String.eqb_refl.
    eexists _, (mkQueues turns rest). split; [reflexivity|]. split; [|split].
    + apply rep_notify. split; [intros t; rewrite <-Hq'; by destruct t| | |].
      * cbn. rewrite Ho', Ho. cbn. rewrite fmap_app, filter_app, filter_none, filter_Forall; [done|..].
        -- apply Forall_forall. intros e (e' & -> & He)%list_elem_of_fmap. cbn.
           rewrite <-list_fmap_compose. intros Hin. unfold tq_ids in Hn. cbn in Hn.
           rewrite fmap_app in Hn. apply NoDup_app in Hn as (_ & _ & (_ & Hd & _)%NoDup_app).
           apply (Hd _ Hin). by apply (list_elem_of_fmap_2 eid).
        -- intros e He Hni. by apply Hni, list_elem_of_fmap_2.
      * intros e He. apply Htags. cbn. apply elem_of_app. by right.
      * unfold tq_ids in *. cbn in *. rewrite fmap_app in Hn.
        eapply sublist_NoDup; [apply Hn|]. apply sublist_app; [done|by apply sublist_inserts_l].
    + unfold claim_spec. cbn. split; [done|]. by exists batch.
    + unfold claim_ids. cbn. rewrite Hr', <-list_fmap_compose. done.
Qed.

(** ** The inbox among its users *)

Lemma elem_of_delete {A} (x : A) (l : list A) i : x ∈ delete i l → x ∈ l.
Proof. apply sublist_subseteq, sublist_delete. Qed.

Definition reserved (y : InboxSystem) : list MessageId :=
  (sy_claims y ≫= claim_ids) ++ (ur_item_id <$> sy_updates y).

Record live (y : InboxSystem) (q : TwoQueues) : Prop := mkLive {
  live_rep : rep (ag_inbox (sy_agent y)) q;
  live_reserved : ∀ id, id ∈ reservations (ag_inbox (sy_agent y)) ↔ id ∈ reserved y;
  live_ids : NoDup (reserved y);
  live_claims : ∀ c, c ∈ sy_claims y → claim_ok q c;
  live_updates : ∀ u, u ∈ sy_updates y → update_ok q u;
}.

(** After the inbox was cleared no message comes in any more. *)
Record cleared (y : InboxSystem) : Prop := mkCleared {
  cleared_rep : rep (ag_inbox (sy_agent y)) (mkQueues [] []);
  cleared_reserved : reservations (ag_inbox (sy_agent y)) = ∅;
  cleared_cancelled : ag_cancellation (sy_agent y) ≠ None;
  cleared_claims : ∀ c, c ∈ sy_claims y → cr_entries c ≠ [];
}.

Definition inv (y : InboxSystem) : Prop := (∃ q, live y q) ∨ cleared y.

Lemma reserved_claim y i c :
  sy_claims y !! i = Some c →
  reserved y ≡ₚ claim_ids c ++ reserved (mkSystem (sy_agent y) (delete i (sy_claims y)) (sy_updates y)).
Proof.
  intros Hi. unfold reserved. cbn. apply delete_Permutation in Hi. rewrite Hi at 1. cbn.
  by rewrite <-app_assoc.
Qed.

Lemma reserved_update y i u :
  sy_updates y !! i = Some u →
  reserved y ≡ₚ ur_item_id u :: reserved (mkSystem (sy_agent y) (sy_claims y) (delete i (sy_updates y))).
Proof.
  intros Hi. unfold reserved. cbn. apply delete_Permutation in Hi. rewrite Hi at 1. cbn.
  by rewrite Permutation_middle.
Qed.

(** Two different reservations hold different ids. *)
Lemma live_other y q i c :
  live y q → sy_claims y !! i = Some c →
  (∀ d, d ∈ delete i (sy_claims y) → ∀ id, id ∈ claim_ids d → id ∉ claim_ids c) ∧
  (∀ u, u ∈ sy_updates y → ur_item_id u ∉ claim_ids c).
Proof.
  intros [_ _ Hn _ _] Hi. rewrite (reserved_claim y i c Hi) in Hn.
  apply NoDup_app in Hn as (_ & Hd & _). unfold reserved in Hd. cbn in Hd. split.
  - intros d Hdel id Hid Hin. apply (Hd id Hin), elem_of_app. left. apply list_elem_of_bind. eauto.
  - intros u Hu Hin. apply (Hd _ Hin), elem_of_app. right. by apply list_elem_of_fmap_2.
Qed.

Lemma live_other_update y q i u :
  live y q → sy_updates y !! i = Some u →
  (∀ c, c ∈ sy_claims y → ur_item_id u ∉ claim_ids c) ∧
  (∀ v, v ∈ delete i (sy_updates y) → ur_item_id u ≠ ur_item_id v).
Proof.
  intros [_ _ Hn _ _] Hi. rewrite (reserved_update y i u Hi) in Hn.
  apply NoDup_cons in Hn as [Hd _]. unfold reserved in Hd. cbn in Hd. split.
  - intros c Hc Hin. apply Hd, elem_of_app. left. apply list_elem_of_bind. eauto.
  - intros v Hv Heq. apply Hd, elem_of_app. right. rewrite Heq. by apply list_elem_of_fmap_2.
Qed.

(** The end of a reservation, with its ids released. *)
Lemma live_end_claim y q q' i c i' :
  live y q → sy_claims y !! i = Some c → rep i' q' →
  reservations i' = reservations (ag_inbox (sy_agent y)) ∖ list_to_set (claim_ids c) →
  (∀ d, claim_ok q d → (∀ id, id ∈ claim_ids d → id ∉ claim_ids c) → claim_ok q' d) →
  (∀ u, update_ok q u → ur_item_id u ∉ claim_ids c → update_ok q' u) →
  live (mkSystem (set_inbox i' (sy_agent y)) (delete i (sy_claims y)) (sy_updates y)) q'.
Proof.
  intros Hl Hi Hr Hres Hc Hu. pose proof (live_other y q i c Hl Hi) as [Ho1 Ho2].
  pose proof Hl as [_ Hrs Hn Hcs Hus]. pose proof (reserved_claim y i c Hi) as Hp.
  split; cbn.
  - done.
  - intros id. rewrite Hres, elem_of_difference, elem_of_list_to_set, Hrs, Hp, elem_of_app.
    rewrite Hp in Hn. apply NoDup_app in Hn as (_ & Hd & _). specialize (Hd id).
    change (reserved (mkSystem (set_inbox i' (sy_agent y)) (delete i (sy_claims y)) (sy_updates y)))
      with (reserved (mkSystem (sy_agent y) (delete i (sy_claims y)) (sy_updates y))). tauto.
  - rewrite Hp in Hn. by apply NoDup_app in Hn as (_ & _ & Hn).
  - intros d Hd. apply Hc; [|by apply Ho1]. by apply Hcs, (elem_of_delete _ _ i).
  - intros u Hin. apply Hu; [by apply Hus|by apply Ho2].
Qed.

Lemma live_end_update y q q' i u i' :
  live y q → sy_updates y !! i = Some u → rep i' q' →
  reservations i' = reservations (ag_inbox (sy_agent y)) ∖ {[ ur_item_id u ]} →
  (∀ d, claim_ok q d → ur_item_id u ∉ claim_ids d → claim_ok q' d) →
  (∀ v, update_ok q v → ur_item_id u ≠ ur_item_id v → update_ok q' v) →
  live (mkSystem (set_inbox i' (sy_agent y)) (sy_claims y) (delete i (sy_updates y))) q'.
Proof.
  intros Hl Hi Hr Hres Hc Hu. pose proof (live_other_update y q i u Hl Hi) as [Ho1 Ho2].
  pose proof Hl as [_ Hrs Hn Hcs Hus]. pose proof (reserved_update y i u Hi) as Hp.
  rewrite Hp in Hn. apply NoDup_cons in Hn as [Hd Hn]. split; cbn.
  - done.
  - intros id. rewrite Hres, elem_of_difference, elem_of_singleton, Hrs, Hp, elem_of_cons.
    change (reserved (mkSystem (set_inbox i' (sy_agent y)) (sy_claims y) (delete i (sy_updates y))))
      with (reserved (mkSystem (sy_agent y) (sy_claims y) (delete i (sy_updates y)))).
    split; [tauto|]. intros Hin. split; [by right|]. by intros ->.
  - done.
  - intros d Hin. apply Hc; [by apply Hcs|by apply Ho1].
  - intros v Hin. apply Hu; [by apply Hus, (elem_of_delete _ _ i)|by apply Ho2].
Qed.

(** The same reservations over other queues. *)
Lemma live_same y q q' a :
  live y q → rep (ag_inbox a) q' → reservations (ag_inbox a) = reservations (ag_inbox (sy_agent y)) →
  (∀ c, c ∈ sy_claims y → claim_ok q' c) → (∀ u, u ∈ sy_updates y → update_ok q' u) →
  live (mkSystem a (sy_claims y) (sy_updates y)) q'.
Proof.
  intros [_ Hrs Hn _ _] Hr Hres Hc Hu. split; cbn; try done. intros id. by rewrite Hres, Hrs.
Qed.

Lemma live_add_claim y q c i' :
  live y q → rep i' q →
  match c with
  | Some c => claim_ok q c ∧ NoDup (claim_ids c) ∧
      (∀ id, id ∈ claim_ids c → id ∉ reservations (ag_inbox (sy_agent y))) ∧
      reservations i' = list_to_set (claim_ids c) ∪ reservations (ag_inbox (sy_agent y))
  | None => i' = ag_inbox (sy_agent y)
  end → live (add_claim (c, i') y) q.
Proof.
  intros Hl Hr Hc. pose proof Hl as [_ Hrs Hn Hcs Hus]. unfold add_claim. cbn. destruct c as [c|]; cbn.
  - destruct Hc as (Hok & Hnd & Hnew & Hres).
    assert (∀ a, reserved (mkSystem a (sy_claims y ++ [c]) (sy_updates y)) ≡ₚ claim_ids c ++ reserved y) as Hp.
    { intros a. unfold reserved. cbn. rewrite bind_app. cbn. rewrite app_nil_r, <-app_assoc.
      rewrite (app_assoc (sy_claims y ≫= claim_ids)), (Permutation_app_comm (sy_claims y ≫= claim_ids)).
      by rewrite <-app_assoc. }
    specialize (Hp (set_inbox i' (sy_agent y))). split; cbn.
    + done.
    + intros id. rewrite Hres, elem_of_union, elem_of_list_to_set, Hrs, Hp, elem_of_app. done.
    + rewrite Hp. apply NoDup_app. split_and!; [done| |done]. intros id Hid Hin. apply (Hnew id Hid).
      by apply Hrs.
    + intros d [Hd| ->%list_elem_of_singleton]%elem_of_app; auto.
    + done.
  - subst i'. rewrite app_nil_r. apply live_same with q; done.
Qed.

Lemma live_add_update y q u i' :
  live y q → rep i' q → ur_item_id u ∉ reservations (ag_inbox (sy_agent y)) →
  reservations i' = {[ ur_item_id u ]} ∪ reservations (ag_inbox (sy_agent y)) → update_ok q u →
  live (mkSystem (set_inbox i' (sy_agent y)) (sy_claims y) (sy_updates y ++ [u])) q.
Proof.
  intros Hl Hr Hnew Hres Hok. pose proof Hl as [_ Hrs Hn Hcs Hus].
  assert (∀ a, reserved (mkSystem a (sy_claims y) (sy_updates y ++ [u])) ≡ₚ ur_item_id u :: reserved y) as Hp.
  { intros a. unfold reserved. cbn. rewrite fmap_app, app_assoc. cbn. by rewrite <-Permutation_cons_append. }
  specialize (Hp (set_inbox i' (sy_agent y))). split; cbn.
  - done.
  - intros id. by rewrite Hres, elem_of_union, elem_of_singleton, Hrs, Hp, elem_of_cons.
  - rewrite Hp. constructor; [|done]. by rewrite <-Hrs.
  - done.
  - intros v [Hv| ->%list_elem_of_singleton]%elem_of_app; auto.
Qed.

Section steps.
Context `{ProtocolWire}.

Definition step_ok (op : inbox_op) (y : InboxSystem) : Prop :=
  ∃ delivered y', run_op op y = Some (delivered, y') ∧ inv y' ∧
    op_spec op y delivered (queues_of (ag_inbox (sy_agent y'))).

Lemma live_inv y q : live y q → inv y.
Proof. intros Hl. left. by exists q. Qed.

Lemma live_id y q : live y q → mkSystem (sy_agent y) (sy_claims y) (sy_updates y) = y.
Proof. by destruct y. Qed.

Lemma live_push y q t m a :
  live y q → rep (ag_inbox a) (tq_push t m q) →
  reservations (ag_inbox a) = reservations (ag_inbox (sy_agent y)) →
  live (mkSystem a (sy_claims y) (sy_updates y)) (tq_push t m q).
Proof.
  intros Hl Hr Hres. apply live_same with q; [done|done|done|..].
  - intros c Hc. by apply claim_ok_push, (live_claims y q Hl).
  - intros u Hu. by apply update_ok_push, (live_updates y q Hl).
Qed.

Lemma live_flags y q a :
  live y q → ag_inbox a = ag_inbox (sy_agent y) →
  inv (mkSystem a (sy_claims y) (sy_updates y)) ∧ queues_of (ag_inbox a) = q.
Proof.
  intros Hl Ha. pose proof (live_rep y q Hl) as Hr. rewrite Ha. split; [|by apply rep_queues].
  eapply live_inv, live_same; [done|by rewrite Ha|by rewrite Ha|apply Hl|apply Hl].
Qed.

Lemma step_send y q m t w : live y q → step_ok (OpSend m t w) y.
Proof.
  intros Hl. pose proof (live_rep y q Hl) as Hr. unfold step_ok, op_spec. cbn [run_op].
  rewrite (rep_queues _ q Hr). unfold agent_send.
  destruct (live_flags y q (sy_agent y) Hl eq_refl) as [Hi Hq].
  destruct (check_agent (sy_agent y)) as [[]|e]; cbn [is_ok andb];
    [|eexists _, _; by split_and!; [reflexivity|apply Hi| |]].
  pose proof (send_rep m t w _ q Hr) as Hs. destruct (is_ok (Message_validate m) && _).
  - destruct Hs as (i' & -> & Hr' & Hres). eexists _, _. split; [reflexivity|]. cbn.
    rewrite (rep_queues _ _ Hr'). split; [|done]. by eapply live_inv, live_push.
  - destruct Hs as (e & ->). eexists _, _. split; [reflexivity|]. cbn. rewrite (rep_queues _ q Hr).
    split; [|done]. eapply live_inv, live_same; [done..|apply Hl|apply Hl].
Qed.

(** An update of a message that is not reserved. *)
Lemma live_updated y q id u i' :
  live y q → rep i' (tq_update id u q) → id ∉ reservations (ag_inbox (sy_agent y)) →
  reservations i' = reservations (ag_inbox (sy_agent y)) →
  live (mkSystem (set_inbox i' (sy_agent y)) (sy_claims y) (sy_updates y)) (tq_update id u q).
Proof.
  intros Hl Hr Hni Hres. rewrite (live_reserved y q Hl) in Hni. unfold reserved in Hni.
  apply not_elem_of_app in Hni as [Hnc Hnu]. apply live_same with q; [done|done|done|..].
  - intros c Hc. apply claim_ok_update; [by apply (live_claims y q Hl)|]. intros Hin.
    apply Hnc, list_elem_of_bind. eauto.
  - intros v Hv. apply update_ok_update; [by apply (live_updates y q Hl)|]. intros ->.
    by apply Hnu, list_elem_of_fmap_2.
Qed.

Lemma step_update y q id u b : live y q → step_ok (OpUpdate id u b) y.
Proof.
  intros Hl. pose proof (live_rep y q Hl) as Hr. unfold step_ok, op_spec. cbn [run_op].
  rewrite (rep_queues _ q Hr). unfold update_inbox.
  assert (∃ delivered y', Some ([] : list Message, mkSystem (sy_agent y) (sy_claims y) (sy_updates y)) =
    Some (delivered, y') ∧ inv y' ∧ delivered = [] ∧ queues_of (ag_inbox (sy_agent y')) = q) as Hsame.
  { eexists _, _. split; [reflexivity|]. rewrite (live_id y q Hl), (rep_queues _ q Hr).
    split; [by eapply live_inv|done]. }
  destruct (check_agent (sy_agent y)) as [[]|e]; [|exact Hsame].
  destruct (_ && negb b); [exact Hsame|].
  destruct (update id u (ag_inbox (sy_agent y))) as [r i'] eqn:Hu.
  destruct (update_rep id u _ q r i' Hr Hu) as [Hres Hm]. cbn.
  eexists _, _. split; [reflexivity|]. cbn. destruct r as [t m| |]; [|subst i'..].
  - destruct Hm as [Hni Hr']. rewrite (rep_queues _ _ Hr'). split; [|done].
    by eapply live_inv, live_updated.
  - rewrite (rep_queues _ q Hr). split; [|done]. eapply live_inv, live_same; [done..|apply Hl|apply Hl].
  - rewrite (rep_queues _ q Hr). split; [|done]. eapply live_inv, live_same; [done..|apply Hl|apply Hl].
Qed.

Lemma step_reserve_update y q id u b : live y q → step_ok (OpReserveUpdate id u b) y.
Proof.
  intros Hl. pose proof (live_rep y q Hl) as Hr. unfold step_ok, op_spec. cbn [run_op].
  rewrite (rep_queues _ q Hr). unfold reserve_inbox_update.
  destruct (check_agent (sy_agent y)) as [[]|e].
  - destruct (reserve_update_rep id u b _ q Hr) as (r & i' & -> & Hr' & Hm).
    cbn [mbind option_bind]. eexists _, _. split; [reflexivity|]. cbn.
    rewrite (rep_queues _ q Hr'). split; [|done]. destruct r as [v| |].
    + destruct Hm as (<- & Hni & _ & Hres & Hok). by eapply live_inv, live_add_update.
    + subst i'. rewrite app_nil_r. eapply live_inv, live_same; [done..|apply Hl|apply Hl].
    + subst i'. rewrite app_nil_r. eapply live_inv, live_same; [done..|apply Hl|apply Hl].
  - cbn [mbind option_bind]. eexists _, _. split; [reflexivity|]. cbn.
    rewrite app_nil_r, (live_id y q Hl), (rep_queues _ q Hr). split; [by eapply live_inv|done].
Qed.

Lemma step_commit_update y q i : live y q → step_ok (OpCommitUpdate i) y.
Proof.
  intros Hl. pose proof (live_rep y q Hl) as Hr. unfold step_ok, op_spec. cbn [run_op].
  rewrite (rep_queues _ q Hr). destruct (sy_updates y !! i) as [u|] eqn:Hi.
  - pose proof (list_elem_of_lookup_2 _ _ _ Hi) as Hu.
    destruct (commit_update_rep u _ q Hr) as (i' & Hc & Hr' & Hres).
    { by apply (live_updates y q Hl). }
    { apply (live_reserved y q Hl). unfold reserved. apply elem_of_app. right.
      by apply list_elem_of_fmap_2. }
    unfold commit_inbox_update. rewrite Hc. cbn [mbind option_bind].
    eexists _, _. split; [reflexivity|]. cbn. rewrite (rep_queues _ _ Hr'). split; [|done].
    eapply live_inv, live_end_update; [done|done|done|done|..].
    + intros d Hd Hni. by apply claim_ok_update.
    + intros v Hv Hne. by apply update_ok_update.
  - eexists _, _. split; [reflexivity|]. rewrite (rep_queues _ q Hr).
    split; [by eapply live_inv|done].
Qed.

Lemma step_drop_update y q i : live y q → step_ok (OpDropUpdate i) y.
Proof.
  intros Hl. pose proof (live_rep y q Hl) as Hr. unfold step_ok, op_spec. cbn [run_op].
  rewrite (rep_queues _ q Hr). destruct (sy_updates y !! i) as [u|] eqn:Hi.
  - destruct (abort_reservation_rep (ur_item_id u) _ q Hr) as [Hr' Hres].
    eexists _, _. split; [reflexivity|]. cbn. rewrite (rep_queues _ _ Hr'). split; [|done].
    by eapply live_inv, live_end_update.
  - eexists _, _. split; [reflexivity|]. rewrite (rep_queues _ q Hr).
    split; [by eapply live_inv|done].
Qed.

Lemma step_claim_turn y q : live y q → step_ok OpClaimTurn y.
Proof.
  intros Hl. pose proof (live_rep y q Hl) as Hr. unfold step_ok, op_spec. cbn [run_op].
  rewrite (rep_queues _ q Hr).
  destruct (reserve_next_turn_claim _) as [c i'] eqn:Hc.
  destruct (claim_turn_rep _ q c i' Hr Hc) as [Hr' Hm]. eexists _, _. split; [reflexivity|].
  cbn. rewrite (rep_queues _ q Hr'). split; [|done]. eapply live_inv, live_add_claim; [done|done|].
  by destruct c.
Qed.

Lemma step_claim_steps y q : live y q → step_ok OpClaimSteps y.
Proof.
  intros Hl. pose proof (live_rep y q Hl) as Hr. unfold step_ok, op_spec. cbn [run_op].
  rewrite (rep_queues _ q Hr).
  destruct (reserve_step_batch_claim _) as [c i'] eqn:Hc.
  destruct (claim_steps_rep _ q c i' Hr Hc) as [Hr' Hm]. eexists _, _. split; [reflexivity|].
  cbn. rewrite (rep_queues _ q Hr'). split; [|done]. eapply live_inv, live_add_claim; [done|done|].
  by destruct c.
Qed.

Lemma live_claim_reserved y q i c id :
  live y q → sy_claims y !! i = Some c → id ∈ claim_ids c →
  id ∈ reservations (ag_inbox (sy_agent y)).
Proof.
  intros Hl Hi Hid. rewrite (live_reserved y q Hl), (reserved_claim y i c Hi).
  apply elem_of_app. by left.
Qed.

Lemma step_commit_claim y q i : live y q → step_ok (OpCommitClaim i) y.
Proof.
  intros Hl. pose proof (live_rep y q Hl) as Hr. unfold step_ok, op_spec. cbn [run_op].
  rewrite (rep_queues _ q Hr). destruct (sy_claims y !! i) as [c|] eqn:Hi.
  - pose proof (list_elem_of_lookup_2 _ _ _ Hi) as Hin.
    pose proof (live_claims y q Hl c Hin) as Hok.
    destruct (commit_claim_rep c _ q Hr Hok) as (i' & q' & -> & Hr' & Hs & Hres).
    { intros id Hid. by apply (live_claim_reserved y q i c). }
    cbn [mbind option_bind]. eexists _, _. split; [reflexivity|]. cbn.
    rewrite (rep_queues _ _ Hr').
    destruct (claim_spec_keep c q q' Hs Hok (rep_ids _ q Hr)) as [Hk1 Hk2]. split.
    + by eapply live_inv, live_end_claim.
    + left. split; [done|]. unfold claim_spec in Hs. by rewrite <-(rep_queues _ _ Hr') in Hs.
  - eexists _, _. split; [reflexivity|]. rewrite (rep_queues _ q Hr).
    split; [by eapply live_inv|done].
Qed.

Lemma step_drop_claim y q i : live y q → step_ok (OpDropClaim i) y.
Proof.
  intros Hl. pose proof (live_rep y q Hl) as Hr. unfold step_ok, op_spec. cbn [run_op].
  rewrite (rep_queues _ q Hr). destruct (sy_claims y !! i) as [c|] eqn:Hi.
  - assert (rep (abort_claim (cr_entries c) (ag_inbox (sy_agent y))) q) as Hr' by by apply rep_reservations.
    eexists _, _. split; [reflexivity|]. cbn. rewrite (rep_queues _ _ Hr'). split; [|done].
    by eapply live_inv, live_end_claim.
  - eexists _, _. split; [reflexivity|]. rewrite (rep_queues _ q Hr).
    split; [by eapply live_inv|done].
Qed.

(** ** Cancellation and disposal *)

Lemma rep_empty i q : rep i q → is_empty i = true → q = mkQueues [] [].
Proof.
  intros [Hq _ Ht _] He. unfold is_empty, len in He. apply Nat.eqb_eq in He.
  assert (∀ t, of_target t q = []) as Hnil.
  { intros t. rewrite <-Hq. apply nil_length_inv. destruct t; cbn; lia. }
  destruct q as [turns steps]. f_equal; [apply (Hnil Followup)|].
  destruct steps as [|[t m] steps]; [done|]. exfalso. cbn in Ht.
  assert (t ≠ Followup) as Hf by apply (Ht (t, m)), list_elem_of_here.
  assert (m ∈ of_target t (mkQueues turns ((t, m) :: steps))) as Hm
    by (apply elem_of_target; [done|apply list_elem_of_here]).
  rewrite Hnil in Hm. by apply not_elem_of_nil in Hm.
Qed.

Lemma rep_new i : rep (notify true false (mkInboxState [] [] [] ∅ [] (changes i) (wakes i))) (mkQueues [] []).
Proof. apply rep_notify. split; [by intros []|done|by intros e ?%not_elem_of_nil|constructor]. Qed.

Lemma clear_rep y q :
  live y q → rep (clear (ag_inbox (sy_agent y))) (mkQueues [] []) ∧
  reservations (clear (ag_inbox (sy_agent y))) = ∅.
Proof.
  intros Hl. unfold clear. pose proof (live_rep y q Hl) as Hr.
  destruct (is_empty _) eqn:He; [|split; [apply rep_new|done]].
  pose proof (rep_empty _ q Hr He) as ->. split; [done|]. apply set_eq. intros id.
  rewrite (live_reserved y _ Hl). unfold reserved. rewrite elem_of_app, list_elem_of_bind. split; [|set_solver].
  intros [(c & Hid & Hc)|(u & -> & Hu)%list_elem_of_fmap].
  - destruct (live_claims y _ Hl c Hc) as [(m & rest & ? & _)|(b & rest & Hne & Hb & _)]; [done|].
    by destruct b.
  - destruct (live_updates y _ Hl u Hu) as (m & _ & Hm).
    destruct (ur_update u) as [content| |]; [destruct Hm as (_ & _ & Hm)|destruct Hm as (_ & Hm)|];
      [destruct (ur_target u)..|]; by apply not_elem_of_nil in Hm.
Qed.

Lemma clear_inv y q a :
  live y q → ag_inbox a = clear (ag_inbox (sy_agent y)) → ag_cancellation a ≠ None →
  inv (mkSystem a (sy_claims y) (sy_updates y)) ∧ queues_of (ag_inbox a) = mkQueues [] [].
Proof.
  intros Hl Ha Hc. destruct (clear_rep y q Hl) as [Hr Hres]. rewrite <-Ha in Hr, Hres.
  split; [|by apply rep_queues]. right. split; [done|done|done|]. intros c Hin.
  by apply (claim_ok_entries q), (live_claims y q Hl).
Qed.

Lemma step_cancel y q options : live y q → step_ok (OpCancel options) y.
Proof.
  intros Hl. unfold step_ok, op_spec. cbn [run_op].
  rewrite (rep_queues _ q (live_rep y q Hl)).
  destruct (live_flags y q (sy_agent y) Hl eq_refl) as [Hi Hq].
  unfold cancel_including_idle. destruct (ag_disposed (sy_agent y)).
  { eexists _, _. by split_and!; [reflexivity|apply Hi| |]. }
  destruct (ag_cancellation (sy_agent y)).
  { eexists _, _. by split_and!; [reflexivity|apply Hi| |]. }
  cbn [fst snd andb]. destruct (co_keep_inbox options); cbn [negb].
  - destruct (live_flags y q (mkAgentInner (ag_inbox (sy_agent y)) (Some options) false) Hl) as [Hi' Hq'];
      [done|]. eexists _, _. by split_and!; [reflexivity|apply Hi'| |].
  - destruct (clear_inv y q (mkAgentInner (clear (ag_inbox (sy_agent y))) (Some options) false) Hl)
      as [Hi' Hq']; [done|done|]. eexists _, _. by split_and!; [reflexivity|apply Hi'| |].
Qed.

Lemma step_dispose y q : live y q → step_ok OpDispose y.
Proof.
  intros Hl. unfold step_ok, op_spec. cbn [run_op].
  rewrite (rep_queues _ q (live_rep y q Hl)).
  destruct (live_flags y q (sy_agent y) Hl eq_refl) as [Hi Hq]. unfold dispose.
  destruct (ag_disposed (sy_agent y)); cbn [negb].
  { rewrite andb_false_r. eexists _, _. by split_and!; [reflexivity|apply Hi| |]. }
  rewrite andb_true_r. destruct (ag_cancellation (sy_agent y)) as [o|] eqn:Hc.
  - rewrite bool_decide_eq_false_2 by done.
    destruct (live_flags y q (mkAgentInner (ag_inbox (sy_agent y)) (Some o) true) Hl)
      as [Hi' Hq']; [done|]. eexists _, _. by split_and!; [reflexivity|apply Hi'| |].
  - rewrite bool_decide_eq_true_2 by done.
    destruct (clear_inv y q (mkAgentInner (clear (ag_inbox (sy_agent y)))
      (Some (mkCancelOptions CancelDisposed false)) true) Hl) as [Hi' Hq']; [done|done|].
    eexists _, _. by split_and!; [reflexivity|apply Hi'| |].
Qed.

(** ** After the inbox was cleared *)

Lemma cleared_claim y q : cleared y → rep (ag_inbox (sy_agent y)) q → q = mkQueues [] [].
Proof.
  intros [Hr _ _ _] Hq. by rewrite <-(rep_queues _ _ Hr), (rep_queues _ _ Hq).
Qed.

Lemma check_cleared y : cleared y → ∃ e, check_agent (sy_agent y) = Err e.
Proof.
  intros [_ _ Hc _]. unfold check_agent. destruct (ag_disposed _); [by eexists|].
  destruct (ag_cancellation _); [by eexists|done].
Qed.

Lemma cleared_end y a claims updates :
  cleared y → rep (ag_inbox a) (mkQueues [] []) → reservations (ag_inbox a) = ∅ →
  ag_cancellation a ≠ None → (∀ c, c ∈ claims → c ∈ sy_claims y) →
  inv (mkSystem a claims updates) ∧ queues_of (ag_inbox a) = mkQueues [] [].
Proof.
  intros [_ _ _ Hc] Hr Hres Hcan Hin. split; [|by apply rep_queues]. right.
  split; [done|done|done|]. intros c ?%Hin. by apply Hc.
Qed.

Lemma step_cleared op y : cleared y → step_ok op y.
Proof.
  intros Hcl. pose proof Hcl as [Hr Hres Hcan Hne]. destruct (check_cleared y Hcl) as [e He].
  pose proof (cleared_end y (sy_agent y) (sy_claims y) (sy_updates y) Hcl Hr Hres Hcan
    (λ _ Hc, Hc)) as [Hi Hq].
  assert (mkSystem (sy_agent y) (sy_claims y) (sy_updates y) = y) as Hy by by destruct y.
  assert (set_inbox (ag_inbox (sy_agent y)) (sy_agent y) = sy_agent y) as Hset
    by by destruct (sy_agent y).
  pose proof (rep_queue _ _ Hr Followup) as Hf. cbn in Hf.
  pose proof (rep_order _ _ Hr) as Ho. cbn in Ho.
  unfold step_ok, op_spec. rewrite !Hq. destruct op as [m t w|id u b|id u b|i|i| | |i|i|options| ]; cbn [run_op].
  - unfold agent_send. rewrite He. cbn [is_ok andb]. eexists _, _. by split_and!; [reflexivity|apply Hi| |].
  - unfold update_inbox. rewrite He. eexists _, _. by split_and!; [reflexivity|apply Hi| |].
  - unfold reserve_inbox_update. rewrite He. cbn [mbind option_bind]. rewrite app_nil_r.
    eexists _, _. by split_and!; [reflexivity|apply Hi| |].
  - destruct (sy_updates y !! i) as [u|]; [|rewrite Hy in Hi; eexists _, _; by split_and!; [reflexivity|..]].
    unfold commit_inbox_update, commit_reservation. rewrite Hres.
    rewrite bool_decide_eq_false_2 by set_solver. cbn [negb mbind option_bind].
    destruct (cleared_end y (set_inbox (ag_inbox (sy_agent y)) (sy_agent y)) (sy_claims y)
      (delete i (sy_updates y)) Hcl Hr Hres Hcan (λ _ Hc, Hc)) as [Hi' Hq'].
    eexists _, _. split_and!; [reflexivity|apply Hi'|done|]. cbn in Hq' |- *. rewrite Hq'.
    by destruct (ur_update u).
  - destruct (sy_updates y !! i) as [u|]; [|rewrite Hy in Hi; eexists _, _; by split_and!; [reflexivity|..]].
    destruct (abort_reservation_rep (ur_item_id u) _ _ Hr) as [Hr' Hres'].
    rewrite Hres in Hres'.
    destruct (cleared_end y (set_inbox (abort_reservation (ur_item_id u) (ag_inbox (sy_agent y)))
      (sy_agent y)) (sy_claims y) (delete i (sy_updates y)) Hcl Hr') as [Hi' Hq'];
      [cbn; rewrite Hres'; set_solver|done|done|].
    eexists _, _. by split_and!; [reflexivity|apply Hi'| |].
  - unfold reserve_next_turn_claim. rewrite Hf. unfold add_claim. cbn [fst snd option_list].
    rewrite app_nil_r, Hset. eexists _, _. by split_and!; [reflexivity|apply Hi| |].
  - unfold reserve_step_batch_claim. rewrite Ho, bool_decide_eq_true_2 by done. unfold add_claim.
    cbn [orb fst snd option_list]. rewrite app_nil_r, Hset. eexists _, _. by split_and!; [reflexivity|apply Hi| |].
  - destruct (sy_claims y !! i) as [c|] eqn:Hc; [|rewrite Hy in Hi; eexists _, _; by split_and!; [reflexivity|..]].
    pose proof (Hne c (list_elem_of_lookup_2 _ _ _ Hc)) as Hc'.
    unfold claim_commit, commit_claim. rewrite Hres.
    destruct (cr_entries c) as [|entry entries] eqn:Hent; [done|]. cbn [forallb].
    rewrite bool_decide_eq_false_2 by set_solver. cbn [andb negb mbind option_bind].
    assert (rep (abort_claim (entry :: entries) (ag_inbox (sy_agent y))) (mkQueues [] [])) as Hr'
      by by apply rep_reservations.
    destruct (cleared_end y (set_inbox (abort_claim (entry :: entries) (ag_inbox (sy_agent y)))
      (sy_agent y)) (delete i (sy_claims y)) (sy_updates y) Hcl Hr') as [Hi' Hq'];
      [cbn; rewrite Hres; set_solver|done|by intros d ?%elem_of_delete|].
    eexists _, _. split_and!; [reflexivity|apply Hi'|]. right. by split_and!.
  - destruct (sy_claims y !! i) as [c|] eqn:Hc; [|rewrite Hy in Hi; eexists _, _; by split_and!; [reflexivity|..]].
    assert (rep (abort_claim (cr_entries c) (ag_inbox (sy_agent y))) (mkQueues [] [])) as Hr'
      by by apply rep_reservations.
    destruct (cleared_end y (set_inbox (abort_claim (cr_entries c) (ag_inbox (sy_agent y)))
      (sy_agent y)) (delete i (sy_claims y)) (sy_updates y) Hcl Hr') as [Hi' Hq'];
      [cbn; rewrite Hres; set_solver|done|by intros d ?%elem_of_delete|].
    eexists _, _. by split_and!; [reflexivity|apply Hi'| |].
  - unfold cancel_including_idle. destruct (ag_disposed _); [|destruct (ag_cancellation _); [|done]];
      eexists _, _; by split_and!; [reflexivity|apply Hi| |].
  - unfold dispose. destruct (ag_disposed (sy_agent y)) eqn:Hd.
    { rewrite andb_false_r. eexists _, _. by split_and!; [reflexivity|apply Hi| |]. }
    destruct (ag_cancellation (sy_agent y)) as [o|] eqn:Ho'; [|done].
    rewrite bool_decide_eq_false_2 by done. cbn [andb].
    destruct (cleared_end y (mkAgentInner (ag_inbox (sy_agent y)) (Some o) true) (sy_claims y)
      (sy_updates y) Hcl Hr Hres) as [Hi' Hq']; [done|done|].
    eexists _, _. by split_and!; [reflexivity|apply Hi'| |].
Qed.

Lemma step_total op y : inv y → step_ok op y.
Proof.
  intros [[q Hl]|Hc]; [|by apply step_cleared].
  destruct op; eauto using step_send, step_update, step_reserve_update, step_commit_update,
    step_drop_update, step_claim_turn, step_claim_steps, step_commit_claim, step_drop_claim,
    step_cancel, step_dispose.
Qed.

Lemma inbox_reachable_inv y : inbox_reachable y → inv y.
Proof.
  induction 1 as [|y op delivered y' Hy IH Hrun].
  - left. exists (mkQueues [] []).
    split; [|intros id; cbn; set_solver|constructor|by intros c ?%not_elem_of_nil|by intros c ?%not_elem_of_nil].
    split; [by intros []|done|by intros e ?%not_elem_of_nil|constructor].
  - destruct (step_total op y IH) as (d & y'' & Hrun' & Hi & _). congruence.
Qed.

Lemma inv_ids y : inv y → NoDup (tq_ids (queues_of (ag_inbox (sy_agent y)))).
Proof.
  intros [[q Hl]|Hc].
  - rewrite (rep_queues _ q (live_rep y q Hl)). apply (rep_ids _ q (live_rep y q Hl)).
  - rewrite (rep_queues _ _ (cleared_rep y Hc)). constructor.
Qed.
End steps.
