(* ===== verification/Llm.v ===== *)
(** * Model providers (llm.rs): routes, streams, retries

    The registry of adapters, the stream of one generation as the loop sees it
    (cancellable, closed by exactly one finish), the assembly of its chunks into
    a message, and the retry policies.  An adapter is a client's code: what it
    streams is an argument.  [f64] arithmetic is IEEE double precision, computed
    by the Standard Library's [SpecFloat]. *)

From Stdlib Require Import SpecFloat.
From S2P Require Import Prelude Json Protocol.

#[local] Open Scope N_scope.

Definition llm_error (code message : string) (details : Value) : TessivumError :=
  TessivumError_new code message "llm" details.
Definition stream_error (message : string) (index : N) : TessivumError :=
  llm_error "INVALID_LLM_STREAM" message (json_object [("index", json_u64 index)]).
Definition cancelled_error : TessivumError :=
  llm_error "LLM_CANCELLED" "the LLM generation was cancelled" VNull.
Definition ended_early : TessivumError :=
  llm_error "LLM_STREAM_ENDED_EARLY" "the LLM stream ended before a finish chunk" VNull.

(** ** Floating point *)

Definition f64_spec (x : f64) : spec_float :=
  match x with
  | Finite (Dyadic neg mant e) =>
      match mant with
      | N0 => S754_zero neg
      | Npos p => binary_normalize 53 1024 (if neg then Zneg p else Zpos p) e neg
      end
  | Infinite neg => S754_infinity neg
  | NaN => S754_nan
  end.
Definition spec_f64 (x : spec_float) : f64 :=
  match x with
  | S754_zero neg => Finite (Dyadic neg 0 0)
  | S754_infinity neg => Infinite neg
  | S754_nan => NaN
  | S754_finite neg m e => Finite (Dyadic neg (Npos m) e)
  end.

Definition f64_op (op : spec_float → spec_float → spec_float) (a b : f64) : f64 :=
  spec_f64 (op (f64_spec a) (f64_spec b)).
Definition f64_mul : f64 → f64 → f64 := f64_op (SFmul 53 1024).
Definition f64_add : f64 → f64 → f64 := f64_op (SFadd 53 1024).
Definition f64_sub : f64 → f64 → f64 := f64_op (SFsub 53 1024).
Definition f64_div : f64 → f64 → f64 := f64_op (SFdiv 53 1024).
Definition f64_lt (a b : f64) : bool := SFltb (f64_spec a) (f64_spec b).
Definition f64_le (a b : f64) : bool := SFleb (f64_spec a) (f64_spec b).

(** [f64::min]: the other operand of a NaN. *)
Definition f64_min (a b : f64) : f64 :=
  match a, b with
  | NaN, _ => b
  | _, NaN => a
  | _, _ => if f64_lt b a then b else a
  end.

Definition f64_int (z : Z) : f64 := spec_f64 (binary_normalize 53 1024 z 0 (z <? 0)%Z).
(** [2_f64.powi(n)], exact up to the overflow. *)
Definition f64_pow2 (n : N) : f64 := f64_int (2 ^ Z.of_N n).

(** [json!(x)] of an [f64]. *)
Definition json_f64 (x : f64) : Value :=
  match x with Finite d => VNumber (Float d) | _ => VNull end.

(** ** Retry policies *)

Record LlmRetryBackoffConfig := mkBackoffConfig {
  bc_initial_delay_ms : option f64;
  bc_max_delay_ms : option f64;
  bc_jitter_ratio : option f64;
}.

Inductive LlmRetryPolicyConfig :=
| ConfigNormal (max_retries : option N) (retryable_codes : option (list string))
    (backoff : LlmRetryBackoffConfig)
| ConfigAlways (backoff : LlmRetryBackoffConfig).

Inductive LlmRetryPolicy :=
| Normal (max_retries : N) (retryable_codes : list string)
    (initial_delay_ms max_delay_ms jitter_ratio : f64)
| Always (initial_delay_ms max_delay_ms jitter_ratio : f64).

Definition MAX_TIMER_DELAY_MS : f64 := f64_int 2147483647.
Definition DEFAULT_CODES : list string :=
  ["EMPTY_RESPONSE"; "RATE_LIMIT"; "SERVER"; "TIMEOUT"; "TRANSPORT"].
Definition f64_zero : f64 := f64_int 0.
Definition f64_one : f64 := f64_int 1.
(** [0.1]. *)
Definition default_jitter : f64 := Finite (Dyadic false 7205759403792794 (-56)).

Definition resolve_backoff (b : LlmRetryBackoffConfig) :
    result TessivumError (f64 * f64 * f64) :=
  let initial := default (f64_int 500) (bc_initial_delay_ms b) in
  let max := default (f64_int 10000) (bc_max_delay_ms b) in
  let jitter := default default_jitter (bc_jitter_ratio b) in
  if negb (is_finite initial) || f64_le initial f64_zero || f64_lt MAX_TIMER_DELAY_MS initial
     || negb (is_finite max) || f64_le max f64_zero || f64_lt MAX_TIMER_DELAY_MS max
     || f64_lt max initial
     || negb (is_finite jitter) || negb (f64_le f64_zero jitter && f64_le jitter f64_one) then
    Err (llm_error "INVALID_RETRY_POLICY" "retryPolicy backoff values are invalid" VNull)
  else Ok (initial, max, jitter).

Definition resolve (config : option LlmRetryPolicyConfig) : result TessivumError LlmRetryPolicy :=
  match config with
  | None => Ok (Normal 2 DEFAULT_CODES (f64_int 500) (f64_int 10000) default_jitter)
  | Some (ConfigNormal max_retries retryable_codes backoff) =>
      let max_retries := default 2 max_retries in
      let codes := default DEFAULT_CODES retryable_codes in
      if (MAX_SAFE_INTEGER <? max_retries) || bool_decide (codes = [])
         || existsb is_empty codes || negb (bool_decide (NoDup codes)) then
        Err (llm_error "INVALID_RETRY_POLICY"
               "retryPolicy must have a safe retry count and unique non-empty codes" VNull)
      else
        '(initial, max, jitter) ← resolve_backoff backoff;
        Ok (Normal max_retries codes initial max jitter)
  | Some (ConfigAlways backoff) =>
      '(initial, max, jitter) ← resolve_backoff backoff;
      Ok (Always initial max jitter)
  end.

(** [to_string] is serde's rendering. *)
Definition policy_key (to_string : Value → string) (p : LlmRetryPolicy) : string :=
  match p with
  | Normal max_retries codes initial max jitter =>
      to_string (VArray [VString "normal"; json_u64 max_retries;
        VArray (VString <$> merge_sort (λ a b, String.leb a b) codes);
        json_f64 initial; json_f64 max; json_f64 jitter])
  | Always initial max jitter =>
      to_string (VArray [VString "always"; json_f64 initial; json_f64 max; json_f64 jitter])
  end.

Definition backoff (p : LlmRetryPolicy) : f64 * f64 * f64 :=
  match p with
  | Normal _ _ initial max jitter | Always initial max jitter => (initial, max, jitter)
  end.

Definition max_delay_ms (p : LlmRetryPolicy) : f64 := (backoff p).1.2.

Definition local_delay_ms (p : LlmRetryPolicy) (retry : N) (random : f64) : f64 :=
  let '(initial, max, jitter) := backoff p in
  let exponent := N.min (u64_saturating_sub retry 1) 1024 in
  let exponential := f64_min (f64_mul initial (f64_pow2 exponent)) max in
  f64_min
    (f64_mul exponential
       (f64_add (f64_sub f64_one jitter) (f64_mul (f64_mul (f64_int 2) jitter) random)))
    max.

Definition mode (p : LlmRetryPolicy) : string :=
  match p with Normal _ _ _ _ _ => "normal" | Always _ _ _ => "always" end.

Definition permits_failure (p : LlmRetryPolicy) (code : string) : bool :=
  match p with
  | Normal _ codes _ _ _ => existsb (String.eqb code) codes
  | Always _ _ _ => true
  end.

Definition max_retries (p : LlmRetryPolicy) : option N :=
  match p with Normal n _ _ _ _ => Some n | Always _ _ _ => None end.

Example default_delays :
  (λ n, local_delay_ms (Normal 2 [] (f64_int 500) (f64_int 10000) default_jitter) n (f64_int 0))
    <$> [1; 2; 1000] =
  [Finite (Dyadic false 7916483719987200 (-44)); Finite (Dyadic false 7916483719987200 (-43));
   Finite (Dyadic false 4947802324992000 (-39))].
Proof. reflexivity. Qed.

(** ** Streams *)

(** [Option::filter]. *)
Definition keep_if {A} (p : A → bool) (a : A) : option A := if p a then Some a else None.

(** A cancellation token observed along a stream: at the [i]-th poll. *)
Definition failure_chunk (error : TessivumError) (cancelled : bool) : StreamChunk :=
  let failure := {|
    lf_message := err_message error;
    lf_code := err_code error;
    lf_status := (get "status" (err_details error) ≫= as_u64)
                   ≫= keep_if (λ n, (100 <=? n) && (n <=? 599));
    lf_provider_retry_after_ms := (get "providerRetryAfterMs" (err_details error) ≫= as_u64)
                   ≫= keep_if (λ n, 0 <? n);
    lf_request_id := (get "requestId" (err_details error) ≫= as_str)
                   ≫= keep_if (λ s, negb (blank s)) |} in
  Finish (if cancelled then FinishAborted failure else FinishError failure) None.

Definition cancelled_finish : StreamChunk :=
  Finish (FinishAborted (mkFailure "the LLM generation was cancelled" "LLM_CANCELLED" None None None))
    None.

Definition is_finish (c : StreamChunk) : bool := match c with Finish _ _ => true | _ => false end.

(** [l] is what the adapter's stream yields before it ends. *)
Fixpoint cancellable_stream (cancelled : nat → bool) (i : nat)
    (l : list (result TessivumError StreamChunk)) : list StreamChunk :=
  if cancelled i then [cancelled_finish]
  else match l with
  | [] => [failure_chunk ended_early (cancelled (S i))]
  | Err e :: _ => [failure_chunk e (cancelled (S i))]
  | Ok c :: l => c :: if is_finish c then [] else cancellable_stream cancelled (S i) l
  end.

Definition terminal_failure_stream (error : TessivumError) (cancelled : bool) : list StreamChunk :=
  [failure_chunk error cancelled].

(** ** Assembly *)

Record LlmGeneration := mkGeneration {
  gen_message : Message;
  gen_usage : option TokenUsage;
  gen_finish_reason : FinishReason;
  gen_chunks : list StreamChunk;
}.

Inductive OpenBlock :=
| OpenText (text : string)
| OpenReasoning (text : string)
| OpenToolCall (id : option ToolCallId) (name : option string)
| OpenDirect (block_type : string).

Inductive BlockStatus :=
| Open (block : OpenBlock)
| Closed (block : ContentBlock)
| Omitted.

Record BlockAssembler := mkAssembler {
  ba_provider : string;
  ba_model : string;
  ba_message_id : MessageId;
  ba_blocks : gmap N BlockStatus;
  ba_usage : option TokenUsage;
  ba_chunks : list StreamChunk;
  ba_finished : bool;
  ba_finish_reason : option FinishReason;
  ba_replay_state : option Value;
}.

Definition with_message_id (provider model : string) (id : MessageId) : BlockAssembler :=
  mkAssembler provider model id ∅ None [] false None None.

Definition set_blocks (blocks : gmap N BlockStatus) (a : BlockAssembler) : BlockAssembler :=
  mkAssembler (ba_provider a) (ba_model a) (ba_message_id a) blocks (ba_usage a) (ba_chunks a)
    (ba_finished a) (ba_finish_reason a) (ba_replay_state a).

Definition open_block (block_type : string) : OpenBlock :=
  if String.eqb block_type "text" then OpenText ""
  else if String.eqb block_type "reasoning" then OpenReasoning ""
  else if String.eqb block_type "tool-call" then OpenToolCall None None
  else OpenDirect block_type.

(** A delta to a block that is no longer open is inert. *)
Definition with_open (index : N) (action : string)
    (operation : OpenBlock → result TessivumError OpenBlock) (a : BlockAssembler) :
    result TessivumError BlockAssembler :=
  match ba_blocks a !! index with
  | None => Err (stream_error (action +:+ " requires an open block") index)
  | Some (Open block) =>
      block ← operation block; Ok (set_blocks (<[index := Open block]> (ba_blocks a)) a)
  | Some _ => Ok a
  end.

Definition text_delta (index : N) (text : string) (b : OpenBlock) : result TessivumError OpenBlock :=
  match b with
  | OpenText assembled => Ok (OpenText (assembled +:+ text))
  | _ => Err (stream_error "text delta does not match its block type" index)
  end.

Definition reasoning_delta (index : N) (text : string) (b : OpenBlock) :
    result TessivumError OpenBlock :=
  match b with
  | OpenReasoning assembled => Ok (OpenReasoning (assembled +:+ text))
  | _ => Err (stream_error "reasoning delta does not match its block type" index)
  end.

(** [seen.as_ref().is_some_and(|seen| seen != incoming)]. *)
Definition differs (seen : option string) (incoming : string) : bool :=
  match seen with Some seen => negb (String.eqb seen incoming) | None => false end.

Definition tool_call_delta (index : N) (id : ToolCallId) (name : option string) (b : OpenBlock) :
    result TessivumError OpenBlock :=
  match b with
  | OpenToolCall seen_id seen_name =>
      if differs seen_id id then
        Err (stream_error "tool-call deltas must retain one call id" index)
      else if from_option (differs seen_name) false name then
        Err (stream_error "tool-call deltas must retain one tool name" index)
      else Ok (OpenToolCall (Some id) (match name with Some _ => name | None => seen_name end))
  | _ => Err (stream_error "tool-call delta does not match its block type" index)
  end.

Definition close_block (o : OpenBlock) (terminal : ContentBlock) (index : N) :
    result TessivumError ContentBlock :=
  match o, terminal with
  | OpenText _, Text _ | OpenReasoning _, Reasoning _ => Ok terminal
  | OpenToolCall id name, ToolCall terminal_id terminal_name _ =>
      if differs id terminal_id then
        Err (stream_error "tool-call block end must retain the delta call id" index)
      else if differs name terminal_name then
        Err (stream_error "tool-call block end must retain the delta tool name" index)
      else Ok terminal
  | OpenDirect block_type, block =>
      if String.eqb block_type (type_tag block) then Ok block
      else Err (stream_error "block end does not match its started block type" index)
  | _, _ => Err (stream_error "block end does not match its started block type" index)
  end.

(** The fate of an open block at the finish. *)
Definition cut_open (s : BlockStatus) : BlockStatus :=
  match s with
  | Open (OpenText text) => Closed (Text text)
  | Open (OpenReasoning text) => Closed (Reasoning text)
  | Open _ => Omitted
  | _ => s
  end.
Definition omit_open (s : BlockStatus) : BlockStatus :=
  match s with Open _ => Omitted | _ => s end.
Definition is_open (s : BlockStatus) : bool := match s with Open _ => true | _ => false end.

Definition finish_blocks (reason : FinishReason) (blocks : gmap N BlockStatus) :
    result TessivumError (gmap N BlockStatus) :=
  match reason with
  | FinishMaxTokens => Ok (cut_open <$> blocks)
  | FinishError _ | FinishAborted _ => Ok (omit_open <$> blocks)
  | FinishStop | FinishToolCalls =>
      if existsb (λ e, is_open e.2) (map_to_list blocks) then
        Err (llm_error "LLM_FINISH_WITH_OPEN_BLOCK"
               "only max-tokens, error, or aborted may finish with an open LLM block" VNull)
      else Ok blocks
  end.

Definition finish (reason : FinishReason) (replay_state : option Value) (a : BlockAssembler) :
    result TessivumError BlockAssembler :=
  blocks ← finish_blocks reason (ba_blocks a);
  Ok (mkAssembler (ba_provider a) (ba_model a) (ba_message_id a) blocks (ba_usage a) (ba_chunks a)
        true (Some reason) replay_state).

(** [BTreeMap::values]. *)
Definition index_le (a b : N * BlockStatus) : Prop := a.1 ≤ b.1.
#[export] Instance index_le_dec a b : Decision (index_le a b).
Proof. unfold index_le. apply _. Defined.
Definition values (blocks : gmap N BlockStatus) : list BlockStatus :=
  (merge_sort index_le (map_to_list blocks)).*2.

Definition closed (s : BlockStatus) : option ContentBlock :=
  match s with Closed block => Some block | _ => None end.

(** The chunk's effect on the blocks and the usage. *)
Definition accept (chunk : StreamChunk) (a : BlockAssembler) : result TessivumError BlockAssembler :=
  match chunk with
  | BlockStart index block_type =>
      match ba_blocks a !! index with
      | Some _ => Err (stream_error "block indexes must be unique" index)
      | None => Ok (set_blocks (<[index := Open (open_block block_type)]> (ba_blocks a)) a)
      end
  | TextDelta index text => with_open index "text delta" (text_delta index text) a
  | ReasoningDelta index text => with_open index "reasoning delta" (reasoning_delta index text) a
  | ToolCallDelta index id name _ =>
      with_open index "tool-call delta" (tool_call_delta index id name) a
  | BlockEnd index block =>
      match ba_blocks a !! index with
      | None => Err (stream_error "block end requires a prior block start" index)
      | Some (Open o) =>
          block ← close_block o block index;
          Ok (set_blocks (<[index := Closed block]> (ba_blocks a)) a)
      | Some _ => Err (stream_error "blocks may only close once" index)
      end
  | ChunkUsage usage =>
      match ba_usage a with
      | Some _ => Err (llm_error "DUPLICATE_LLM_USAGE"
                         "LLM streams may contain at most one usage chunk" VNull)
      | None => Ok (mkAssembler (ba_provider a) (ba_model a) (ba_message_id a) (ba_blocks a)
                      (Some usage) (ba_chunks a) (ba_finished a) (ba_finish_reason a)
                      (ba_replay_state a))
      end
  | Finish reason replay_state => finish reason replay_state a
  end.

Definition push_chunk (chunk : StreamChunk) (a : BlockAssembler) : BlockAssembler :=
  mkAssembler (ba_provider a) (ba_model a) (ba_message_id a) (ba_blocks a) (ba_usage a)
    (ba_chunks a ++ [chunk]) (ba_finished a) (ba_finish_reason a) (ba_replay_state a).

Definition generation (reason : FinishReason) (a : BlockAssembler) : LlmGeneration :=
  mkGeneration
    (mkMessage (ba_message_id a) RoleAssistant (omap closed (values (ba_blocks a)))
       (SourceModel (ba_provider a) (ba_model a) (ba_replay_state a)))
    (ba_usage a) reason (ba_chunks a).

(** A failed push leaves the assembler as it was, except for what callers cannot
    see: they drop it. *)
Definition push (chunk : StreamChunk) (a : BlockAssembler) :
    result TessivumError (option LlmGeneration * BlockAssembler) :=
  if ba_finished a then
    Err (llm_error "LLM_STREAM_AFTER_FINISH" "LLM streams must not contain chunks after finish" VNull)
  else
    _ ← StreamChunk_validate chunk;
    a ← accept chunk a;
    let a := push_chunk chunk a in
    match ba_finished a, ba_finish_reason a with
    | true, Some reason => Ok (Some (generation reason a), a)
    | _, _ => Ok (None, a)
    end.

(** Consuming a stream up to its finish, as [complete] does; [early] is the error
    of a stream without one. *)
Fixpoint assemble (early : TessivumError) (l : list StreamChunk) (a : BlockAssembler) :
    result TessivumError LlmGeneration :=
  match l with
  | [] => Err early
  | chunk :: l =>
      p ← push chunk a;
      match p.1 with Some g => Ok g | None => assemble early l p.2 end
  end.

(** ** Routes *)

Record ProviderSlot (A : Type) := mkSlot {
  ps_id : N;
  ps_adapter : A;
  ps_retry_policy : option LlmRetryPolicy;
}.
Arguments mkSlot {A}.
Arguments ps_id {A}.
Arguments ps_adapter {A}.
Arguments ps_retry_policy {A}.

Record LlmRuntime (A : Type) := mkRuntime {
  lr_next_id : N;
  lr_providers : gmap string (ProviderSlot A);
}.
Arguments mkRuntime {A}.
Arguments lr_next_id {A}.
Arguments lr_providers {A}.

Record LlmProviderRegistration := mkRegistration { pr_provider : string; pr_id : N }.

Section runtime.
Context {A : Type}.

Definition register_with_retry_policy (provider : string) (adapter : A)
    (policy : option LlmRetryPolicy) (r : LlmRuntime A) :
    result TessivumError LlmProviderRegistration * LlmRuntime A :=
  if blank provider then
    (Err (llm_error "INVALID_LLM_PROVIDER" "LLM provider names must not be empty" VNull), r)
  else match lr_providers r !! provider with
  | Some _ =>
      (Err (llm_error "DUPLICATE_LLM_PROVIDER" "an LLM provider is already registered for this route"
              (json_object [("provider", VString provider)])), r)
  | None =>
      let id := (lr_next_id r + 1) mod 2 ^ 64 in
      (Ok (mkRegistration provider id),
       mkRuntime id (<[provider := mkSlot id adapter policy]> (lr_providers r)))
  end.

(** [LlmRetryPolicy::resolve(None).expect(..)]: the default is valid. *)
Definition register (provider : string) (adapter : A) (r : LlmRuntime A) :
    result TessivumError LlmProviderRegistration * LlmRuntime A :=
  register_with_retry_policy provider adapter
    (match resolve None with Ok p => Some p | Err _ => None end) r.

Definition is_active (g : LlmProviderRegistration) (r : LlmRuntime A) : bool :=
  match lr_providers r !! pr_provider g with
  | Some slot => ps_id slot =? pr_id g
  | None => false
  end.

Definition unregister (g : LlmProviderRegistration) (r : LlmRuntime A) : bool * LlmRuntime A :=
  if is_active g r then (true, mkRuntime (lr_next_id r) (delete (pr_provider g) (lr_providers r)))
  else (false, r).

Definition provider_retry_policy (provider : string) (r : LlmRuntime A) : option LlmRetryPolicy :=
  lr_providers r !! provider ≫= ps_retry_policy.

Definition validate_request (request : GenerateRequest) : result TessivumError unit :=
  _ ← GenerateRequest_validate request;
  if blank (gr_provider request) || blank (gr_model request) then
    Err (llm_error "INVALID_LLM_ROUTE" "LLM requests require non-empty provider and model values" VNull)
  else Ok tt.

(** [answer] is what the adapter does with the request; the cancellation token is
    polled from its reading 1 on. *)
Definition generate (answer : A → GenerateRequest →
      result TessivumError (list (result TessivumError StreamChunk)))
    (request : GenerateRequest) (cancelled : nat → bool) (r : LlmRuntime A) :
    result TessivumError (list StreamChunk) :=
  _ ← validate_request request;
  if cancelled 0%nat then Err cancelled_error
  else match lr_providers r !! gr_provider request with
  | None =>
      Ok (terminal_failure_stream
            (llm_error "LLM_PROVIDER_NOT_FOUND"
               "no LLM adapter is registered for the requested provider"
               (json_object [("provider", VString (gr_provider request))])) (cancelled 1%nat))
  | Some slot =>
      match answer (ps_adapter slot) request with
      | Ok l => Ok (cancellable_stream cancelled 1 l)
      | Err e => Ok (terminal_failure_stream e (cancelled 1%nat))
      end
  end.

Definition complete (answer : A → GenerateRequest →
      result TessivumError (list (result TessivumError StreamChunk)))
    (request : GenerateRequest) (message_id : MessageId) (cancelled : nat → bool)
    (r : LlmRuntime A) : result TessivumError LlmGeneration :=
  l ← generate answer request cancelled r;
  assemble (if cancelled (length l + 1)%nat then cancelled_error else ended_early) l
    (with_message_id (gr_provider request) (gr_model request) message_id).
End runtime.
