(* ===== verification/LlmFacts.v ===== *)
(** * Facts about provider streams, their assembly, and the delays of retries

    A guarded stream ends with its only finish, and the state of the assembler
    represents the blocks that its chunks opened and closed.  For the delays: what
    rounding cannot change (the sign of a result, that it is not a NaN, and that a
    mantissa fits 53 bits), from which the bounds of a delay follow; no claim is
    made about its exact value. *)

From Stdlib Require Import SpecFloat.
From S2P Require Import Prelude Json Protocol Llm.

#[local] Open Scope N_scope.

(** ** Streams end once *)

Lemma failure_chunk_finish e c : is_finish (failure_chunk e c) = true.
Proof. by destruct c. Qed.

Lemma cancellable_stream_closed cancelled l : ∀ i, ∃ body last,
  cancellable_stream cancelled i l = body ++ [last] ∧ is_finish last = true ∧
  Forall (λ c, is_finish c = false) body.
Proof.
  induction l as [|[c|e] l IH]; intros i; cbn; destruct (cancelled i);
    try (by eexists [], _; split_and!; [reflexivity|..]);
    try (by eexists [], _; split_and!; [reflexivity|apply failure_chunk_finish|]).
  destruct (is_finish c) eqn:Hc; [by exists [], c|].
  destruct (IH (S i)) as (body & last & -> & Hl & Hb). exists (c :: body), last.
  split_and!; [done|done|by constructor].
Qed.

(** ** What a stream of chunks says of one block *)

Definition start_of (i : N) (c : StreamChunk) : option string :=
  match c with BlockStart j t => if bool_decide (j = i) then Some t else None | _ => None end.
Definition end_of (i : N) (c : StreamChunk) : option ContentBlock :=
  match c with BlockEnd j b => if bool_decide (j = i) then Some b else None | _ => None end.
Definition text_of (i : N) (c : StreamChunk) : option string :=
  match c with
  | TextDelta j t | ReasoningDelta j t => if bool_decide (j = i) then Some t else None
  | _ => None
  end.

Definition started (l : list StreamChunk) : list N :=
  omap (λ c, match c with BlockStart i _ => Some i | _ => None end) l.

Definition block_text (l : list StreamChunk) (i : N) : string :=
  foldr String.append "" (omap (text_of i) l).

(** The block of index [i] in the message of a finished stream. *)
Definition block_of (l : list StreamChunk) (reason : FinishReason) (i : N) : option ContentBlock :=
  match head (omap (end_of i) l), reason with
  | Some block, _ => Some block
  | None, FinishMaxTokens =>
      match head (omap (start_of i) l) with
      | Some t => if String.eqb t "text" then Some (Text (block_text l i))
                  else if String.eqb t "reasoning" then Some (Reasoning (block_text l i))
                  else None
      | None => None
      end
  | None, _ => None
  end.

Definition content_of (l : list StreamChunk) (reason : FinishReason) : list ContentBlock :=
  omap (block_of l reason) (merge_sort N.le (started l)).

(** ** The assembler's table against the chunks pushed so far *)

(** The part of an open block that the chunks determine. *)
Definition opened (t text : string) (o : OpenBlock) : Prop :=
  match o with
  | OpenText s => t = "text" ∧ s = text
  | OpenReasoning s => t = "reasoning" ∧ s = text
  | OpenToolCall _ _ => t = "tool-call"
  | OpenDirect s => s = t ∧ t ≠ "text" ∧ t ≠ "reasoning" ∧ t ≠ "tool-call"
  end.

Definition status_of (l : list StreamChunk) (i : N) (s : option BlockStatus) : Prop :=
  match head (omap (start_of i) l), head (omap (end_of i) l), s with
  | None, None, None => omap (text_of i) l = []
  | Some t, None, Some (Open o) => opened t (block_text l i) o
  | Some _, Some block, Some (Closed b) => b = block
  | _, _, _ => False
  end.

Record pushed (l : list StreamChunk) (a : BlockAssembler) : Prop := mkPushed {
  pu_chunks : ba_chunks a = l;
  pu_open : ba_finished a = false;
  pu_status : ∀ i, status_of l i (ba_blocks a !! i);
  pu_started : NoDup (started l);
  pu_dom : ∀ i, i ∈ started l ↔ is_Some (ba_blocks a !! i);
}.

Lemma foldr_append_snoc (l : list string) (t : string) :
  foldr String.append "" (l ++ [t]) = foldr String.append "" l +:+ t.
Proof.
  assert (∀ a b c : string, (a +:+ b) +:+ c = a +:+ (b +:+ c)) as Hassoc.
  { intros a b c. induction a as [|x a IH]; [done|].
    change (String x ((a +:+ b) +:+ c) = String x (a +:+ (b +:+ c))). by rewrite IH. }
  assert (∀ a : string, a +:+ "" = a) as Hnil.
  { intros a. induction a as [|x a IH]; [done|]. change (String x (a +:+ "") = String x a). by rewrite IH. }
  induction l as [|s l IH].
  - change (t +:+ "" = "" +:+ t). by rewrite Hnil.
  - change (s +:+ foldr String.append "" (l ++ [t]) = (s +:+ foldr String.append "" l) +:+ t).
    by rewrite IH, Hassoc.
Qed.

Lemma omap_snoc {A B} (f : A → option B) (l : list A) x :
  omap f (l ++ [x]) = omap f l ++ option_list (f x).
Proof. rewrite omap_app. cbn. by destruct (f x). Qed.

Lemma head_snoc {A} (l : list A) (o : option A) :
  head (l ++ option_list o) = match head l with Some x => Some x | None => o end.
Proof. destruct l, o; done. Qed.

(** A chunk that says nothing about a block leaves what is known about it. *)
Lemma status_of_other l c i s :
  start_of i c = None → end_of i c = None → text_of i c = None →
  status_of l i s → status_of (l ++ [c]) i s.
Proof.
  intros Hs He Ht. unfold status_of, block_text. rewrite !omap_snoc, !head_snoc, Hs, He, Ht. cbn.
  rewrite app_nil_r. by destruct (head (omap (start_of i) l)), (head (omap (end_of i) l)).
Qed.

Lemma status_of_snoc l c i s s' :
  status_of l i s →
  (match head (omap (start_of i) (l ++ [c])), head (omap (end_of i) (l ++ [c])), s' with
   | None, None, None => omap (text_of i) (l ++ [c]) = []
   | Some t, None, Some (Open o) => opened t (block_text (l ++ [c]) i) o
   | Some _, Some block, Some (Closed b) => b = block
   | _, _, _ => False
   end) → status_of (l ++ [c]) i s'.
Proof. done. Qed.

Lemma opened_open_block t : opened t "" (open_block t).
Proof.
  unfold open_block. destruct (String.eqb_spec t "text"); [done|].
  destruct (String.eqb_spec t "reasoning"); [done|]. by destruct (String.eqb_spec t "tool-call").
Qed.

(** What [with_open] does to the table. *)
Lemma with_open_Ok i action op a a' :
  with_open i action op a = Ok a' →
  (∃ o o', ba_blocks a !! i = Some (Open o) ∧ op o = Ok o' ∧
     a' = set_blocks (<[i := Open o']> (ba_blocks a)) a) ∨
  (∃ s, ba_blocks a !! i = Some s ∧ is_open s = false ∧ a' = a).
Proof.
  unfold with_open. destruct (ba_blocks a !! i) as [[o|b|]|]; [..|done].
  - destruct (op o) as [o'|] eqn:Ho; [|done]. intros [= <-]. left. eauto.
  - intros [= <-]. right. eauto.
  - intros [= <-]. right. eauto.
Qed.

(** One delta to the block [i]. *)
Lemma pushed_delta l a a' i action op c :
  pushed l a → with_open i action op a = Ok a' →
  (∀ j, start_of j c = None ∧ end_of j c = None ∧ (j ≠ i → text_of j c = None)) →
  (match c with BlockStart _ _ => False | _ => True end) →
  (∀ o o' t, op o = Ok o' → opened t (block_text l i) o → opened t (block_text (l ++ [c]) i) o') →
  pushed (l ++ [c]) (push_chunk c a').
Proof.
  intros [Hch Hop Hst Hnd Hdom] Hw Hother Hc Hopened.
  assert (started (l ++ [c]) = started l) as Hs.
  { unfold started. rewrite omap_snoc. destruct c; cbn; rewrite ?app_nil_r; done. }
  apply with_open_Ok in Hw as [(o & o' & Ho & Hopo & ->)|(s & Ho & Hsop & ->)]; split; cbn;
    rewrite ?Hs, ?Hch; try done.
  - intros j. destruct (decide (j = i)) as [->|Hne].
    + rewrite lookup_insert_eq. specialize (Hst i). rewrite Ho in Hst.
      apply status_of_snoc with (Some (Open o)); [done|].
      destruct (Hother i) as (H1' & H2' & _). unfold status_of in Hst.
      rewrite !omap_snoc, !head_snoc, H1', H2'.
      destruct (head (omap (start_of i) l)) as [t|], (head (omap (end_of i) l)); try done. eauto.
    + rewrite lookup_insert_ne by done. destruct (Hother j) as (? & ? & ?).
      apply status_of_other; auto.
  - intros j. rewrite Hdom. destruct (decide (j = i)) as [->|Hne].
    + rewrite lookup_insert_eq, Ho. split; by eexists.
    + by rewrite lookup_insert_ne.
  - intros j. specialize (Hst j). destruct (decide (j = i)) as [->|Hne].
    + apply status_of_snoc with (ba_blocks a !! i); [done|]. rewrite Ho in Hst |- *.
      destruct (Hother i) as (H1' & H2' & _). unfold status_of in Hst.
      rewrite !omap_snoc, !head_snoc, H1', H2'.
      by destruct (head (omap (start_of i) l)), (head (omap (end_of i) l)), s.
    + destruct (Hother j) as (? & ? & ?). apply status_of_other; auto.
Qed.

Lemma push_inv c a r a' :
  push c a = Ok (r, a') →
  ba_finished a = false ∧ StreamChunk_validate c = Ok tt ∧
  ∃ a1, accept c a = Ok a1 ∧ a' = push_chunk c a1 ∧
    r = match ba_finished a1, ba_finish_reason a1 with
        | true, Some reason => Some (generation reason a')
        | _, _ => None
        end.
Proof.
  unfold push. destruct (ba_finished a); [done|]. cbn [mbind result_bind].
  destruct (StreamChunk_validate c) as [[]|]; [|done]. cbn [mbind result_bind].
  destruct (accept c a) as [a1|]; [|done]. cbn [mbind result_bind]. intros Hp.
  split; [done|]. split; [done|]. exists a1. split; [done|]. cbn in Hp.
  destruct (ba_finished a1), (ba_finish_reason a1); by injection Hp as <- <-.
Qed.

Lemma bd_ne (i j : N) {A} (x y : A) : i ≠ j → (if bool_decide (i = j) then x else y) = y.
Proof. intros. by rewrite bool_decide_eq_false_2. Qed.
Lemma bd_eq (i : N) {A} (x y : A) : (if bool_decide (i = i) then x else y) = x.
Proof. by rewrite bool_decide_eq_true_2. Qed.

(** Every chunk but the finish keeps the invariant. *)
Lemma accept_pushed l c a a1 :
  pushed l a → accept c a = Ok a1 → is_finish c = false → pushed (l ++ [c]) (push_chunk c a1).
Proof.
  intros Hp Ha Hf. pose proof Hp as [Hch Hop Hst Hnd Hdom].
  destruct c as [i t|i t|i t|i id name args|i b|u|r rs]; cbn [accept] in Ha; [..|done].
  - destruct (ba_blocks a !! i) as [s|] eqn:Hi; [done|]. injection Ha as <-.
    assert (started (l ++ [BlockStart i t]) = started l ++ [i]) as Hs by (unfold started; by rewrite omap_snoc).
    assert (i ∉ started l) as Hni by (rewrite Hdom, Hi; by intros [? ?]).
    split; cbn; rewrite ?Hs, ?Hch; try done.
    + intros j. destruct (decide (j = i)) as [->|Hne].
      * rewrite lookup_insert_eq. apply status_of_snoc with (ba_blocks a !! i); [done|].
        specialize (Hst i). rewrite Hi in Hst. unfold status_of in Hst.
        rewrite !omap_snoc, !head_snoc. cbn. rewrite bd_eq.
        destruct (head (omap (start_of i) l)), (head (omap (end_of i) l)); try done.
        unfold block_text. rewrite omap_snoc, Hst. apply opened_open_block.
      * rewrite lookup_insert_ne by done. apply status_of_other; cbn; rewrite ?bd_ne; done.
    + apply NoDup_app. split_and!; [done|set_solver|apply NoDup_singleton].
    + intros j. rewrite elem_of_app, list_elem_of_singleton, Hdom. destruct (decide (j = i)) as [->|Hne].
      * rewrite lookup_insert_eq. split; [by eexists|by right].
      * rewrite lookup_insert_ne by done. split; [intros [?|?]; done|by left].
  - eapply pushed_delta; [done|done| |done|].
    + intros j. cbn. split_and!; [done|done|]. intros. by rewrite bd_ne.
    + intros o o' ty Ho Hopen. destruct o; try done. injection Ho as <-. destruct Hopen as [-> ->].
      split; [done|]. unfold block_text. rewrite omap_snoc. cbn [text_of]. rewrite bd_eq. symmetry. apply foldr_append_snoc.
  - eapply pushed_delta; [done|done| |done|].
    + intros j. cbn. split_and!; [done|done|]. intros. by rewrite bd_ne.
    + intros o o' ty Ho Hopen. destruct o; try done. injection Ho as <-. destruct Hopen as [-> ->].
      split; [done|]. unfold block_text. rewrite omap_snoc. cbn [text_of]. rewrite bd_eq. symmetry. apply foldr_append_snoc.
  - eapply pushed_delta; [done|done| |done|].
    + intros j. by cbn.
    + intros o o' ty Ho Hopen. destruct o as [| |id' name'|]; try done. cbn in Ho.
      destruct (differs id' id); [done|]. destruct (from_option (differs name') false name); [done|].
      by injection Ho as <-.
  - destruct (ba_blocks a !! i) as [[o|b'|]|] eqn:Hi; try done.
    destruct (close_block o b i) as [b'|] eqn:Hc; [|done]. injection Ha as <-.
    assert (b' = b) as ->.
    { destruct o, b; cbn in Hc; try done; try (by injection Hc);
        repeat match type of Hc with context[if ?x then _ else _] => destruct x end;
        try done; by injection Hc. }
    assert (started (l ++ [BlockEnd i b]) = started l) as Hs by (unfold started; by rewrite omap_snoc, app_nil_r).
    split; cbn; rewrite ?Hs, ?Hch; try done.
    + intros j. destruct (decide (j = i)) as [->|Hne].
      * rewrite lookup_insert_eq. apply status_of_snoc with (ba_blocks a !! i); [done|].
        specialize (Hst i). rewrite Hi in Hst. unfold status_of in Hst.
        rewrite !omap_snoc, !head_snoc. cbn. rewrite bd_eq.
        by destruct (head (omap (start_of i) l)), (head (omap (end_of i) l)).
      * rewrite lookup_insert_ne by done. apply status_of_other; cbn; rewrite ?bd_ne; done.
    + intros j. rewrite Hdom. destruct (decide (j = i)) as [->|Hne].
      * rewrite lookup_insert_eq, Hi. split; by eexists.
      * by rewrite lookup_insert_ne.
  - destruct (ba_usage a); [done|]. injection Ha as <-.
    assert (started (l ++ [ChunkUsage u]) = started l) as Hs by (unfold started; by rewrite omap_snoc, app_nil_r).
    split; cbn; rewrite ?Hs, ?Hch; try done. intros j. by apply status_of_other.
Qed.

(** ** The finish *)

Lemma index_le_total : Total index_le.
Proof. intros a b. unfold index_le. lia. Qed.
Lemma index_le_trans : Transitive index_le.
Proof. intros a b c. unfold index_le. lia. Qed.

Lemma sorted_entries (m : gmap N BlockStatus) (ks : list N) :
  NoDup ks → (∀ i, i ∈ ks ↔ is_Some (m !! i)) →
  merge_sort index_le (map_to_list m) =
  omap (λ i, pair i <$> m !! i) (merge_sort N.le ks).
Proof.
  intros Hnd Hks. pose proof index_le_total. pose proof index_le_trans.
  assert (∀ l, NoDup l → NoDup (omap (λ i, pair i <$> m !! i) l)) as Hndo.
  { induction 1 as [|i l Hi Hl IH]; [constructor|]. cbn. destruct (m !! i) as [s|]; cbn; [|done].
    constructor; [|done]. intros (j & Hj & Heq)%list_elem_of_omap.
    destruct (m !! j); [|done]. cbn in Heq. injection Heq as -> ->. done. }
  apply (StronglySorted_unique_strong index_le).
  - intros [i s] [j s'] Hi Hj Hij Hji. unfold index_le in *. cbn in *.
    assert (i = j) as -> by lia. rewrite merge_sort_Permutation in Hi.
    apply elem_of_map_to_list in Hi. apply list_elem_of_omap in Hj as (k & Hk & Heq).
    destruct (m !! k) eqn:Hmk; [|done]. injection Heq as -> ->. congruence.
  - by apply StronglySorted_merge_sort.
  - assert (StronglySorted N.le (merge_sort N.le ks)) as Hs by (apply StronglySorted_merge_sort; apply _).
    induction Hs as [|i l Hl IH Hi]; [constructor|]. cbn. destruct (m !! i) as [s|]; cbn; [|done].
    constructor; [done|]. apply Forall_forall. intros [j s'] (k & Hk & Heq)%list_elem_of_omap.
    destruct (m !! k); [|done]. injection Heq as -> ->. unfold index_le. cbn.
    by apply (proj1 (Forall_forall _ _) Hi).
  - rewrite !merge_sort_Permutation. apply NoDup_Permutation; [apply NoDup_map_to_list|by apply Hndo|].
    intros [i s]. rewrite elem_of_map_to_list, list_elem_of_omap. split.
    + intros Hi. exists i. split; [apply Hks; by eexists|by rewrite Hi].
    + intros (k & Hk & Heq). destruct (m !! k) eqn:Hmk; [|done]. by injection Heq as -> ->.
Qed.

Lemma values_content (m : gmap N BlockStatus) ks (f : N → option ContentBlock) :
  NoDup ks → (∀ i, i ∈ ks ↔ is_Some (m !! i)) → (∀ i s, m !! i = Some s → closed s = f i) →
  omap closed (values m) = omap f (merge_sort N.le ks).
Proof.
  intros Hnd Hks Hf. unfold values. rewrite (sorted_entries m ks) by done.
  assert (∀ i, i ∈ merge_sort N.le ks → is_Some (m !! i)) as Hin
    by (intros i Hi; apply Hks; by rewrite <-(merge_sort_Permutation N.le)).
  clear Hks Hnd. induction (merge_sort N.le ks) as [|i l IH]; [done|]. cbn.
  destruct (Hin i (list_elem_of_here _ _)) as [s Hs]. rewrite Hs. cbn. rewrite (Hf i s Hs).
  rewrite IH; [by destruct (f i)|]. intros j Hj. by apply Hin, list_elem_of_further.
Qed.

Lemma none_open (m : gmap N BlockStatus) i s :
  existsb (λ e, is_open e.2) (map_to_list m) = false → m !! i = Some s → is_open s = false.
Proof.
  intros He Hi. destruct (is_open s) eqn:Ho; [|done]. rewrite <-He. symmetry.
  apply existsb_exists. exists (i, s). split; [|done]. by apply list_elem_of_In, elem_of_map_to_list.
Qed.

(** A finish that requires closed blocks. *)
Lemma strict_finish reason m blocks :
  finish_blocks reason m = Ok blocks → reason = FinishStop ∨ reason = FinishToolCalls →
  blocks = m ∧ ∀ i s, m !! i = Some s → is_open s = false.
Proof.
  intros Hf [->| ->]; cbn in Hf; destruct (existsb _ _) eqn:He; try done; injection Hf as <-;
    (split; [done|]); intros i s; by apply none_open.
Qed.

Lemma finish_content l a reason blocks :
  pushed l a → finish_blocks reason (ba_blocks a) = Ok blocks →
  omap closed (values blocks) = content_of l reason ∧
  (match reason with
   | FinishStop | FinishToolCalls => ∀ i, i ∈ started l → is_Some (head (omap (end_of i) l))
   | _ => True
   end).
Proof.
  intros [Hch Hop Hst Hnd Hdom] Hf.
  assert (∃ g : BlockStatus → BlockStatus, blocks = g <$> ba_blocks a ∧
    ∀ i s, ba_blocks a !! i = Some s → closed (g s) = block_of l reason i) as (g & -> & Hg).
  { assert (∀ i s, ba_blocks a !! i = Some s → ∃ t, head (omap (start_of i) l) = Some t ∧
      match s with
      | Open o => head (omap (end_of i) l) = None ∧ opened t (block_text l i) o
      | Closed b => head (omap (end_of i) l) = Some b
      | Omitted => False
      end) as Hs.
    { intros i s Hi. specialize (Hst i). rewrite Hi in Hst. unfold status_of in Hst.
      destruct (head (omap (start_of i) l)) as [t|], (head (omap (end_of i) l)) as [b|], s;
        try done; exists t; by subst. }
    assert (reason = FinishStop ∨ reason = FinishToolCalls → ∃ g : BlockStatus → BlockStatus,
      blocks = g <$> ba_blocks a ∧
      ∀ i s, ba_blocks a !! i = Some s → closed (g s) = block_of l reason i) as Hstrict.
    { intros Hr. destruct (strict_finish _ _ _ Hf Hr) as [-> Hno]. exists id.
      split; [by rewrite map_fmap_id|]. intros i s Hi. destruct (Hs i s Hi) as (t & Ht & Hm).
      specialize (Hno i s Hi). unfold block_of. destruct s as [o|b|]; [done|by rewrite Hm|done]. }
    unfold block_of in *. destruct reason as [| | |fl|fl]; [by apply Hstrict; left|by apply Hstrict; right|..]; cbn in Hf.
    - injection Hf as <-. exists cut_open. split; [done|]. intros i s Hi.
      destruct (Hs i s Hi) as (t & Ht & Hm). destruct s as [o|b|]; [|by rewrite Hm|done].
      destruct Hm as [-> Ho]. rewrite Ht. destruct o; cbn in *.
      + by destruct Ho as [-> ->].
      + by destruct Ho as [-> ->].
      + by subst t.
      + destruct Ho as (-> & Hn1 & Hn2 & _). by rewrite !(proj2 (String.eqb_neq _ _)).
    - injection Hf as <-. exists omit_open. split; [done|]. intros i s Hi.
      destruct (Hs i s Hi) as (t & Ht & Hm). destruct s as [o|b|]; [|by rewrite Hm|done].
      by destruct Hm as [-> _].
    - injection Hf as <-. exists omit_open. split; [done|]. intros i s Hi.
      destruct (Hs i s Hi) as (t & Ht & Hm). destruct s as [o|b|]; [|by rewrite Hm|done].
      by destruct Hm as [-> _]. }
  split.
  - apply values_content; [done|..].
    + intros i. by rewrite Hdom, lookup_fmap, fmap_is_Some.
    + intros i s. rewrite lookup_fmap. intros Hi.
      destruct (ba_blocks a !! i) as [s'|] eqn:Hs; [|done]. injection Hi as <-. by apply Hg.
  - assert (reason = FinishStop ∨ reason = FinishToolCalls →
      ∀ i, i ∈ started l → is_Some (head (omap (end_of i) l))) as Hstrict.
    { intros Hr i [s Hi]%Hdom. destruct (strict_finish _ _ _ Hf Hr) as [_ Hno].
      specialize (Hno i s Hi). specialize (Hst i). rewrite Hi in Hst. unfold status_of in Hst.
      destruct (head (omap (start_of i) l)), (head (omap (end_of i) l)), s; done. }
    destruct reason; [by apply Hstrict; left|by apply Hstrict; right|done..].
Qed.

(** ** A whole stream *)

Lemma pushed_start provider model id : pushed [] (with_message_id provider model id).
Proof.
  split; cbn; [done|done| |constructor|].
  - intros i. by rewrite lookup_empty.
  - intros i. rewrite lookup_empty, elem_of_nil. split; [done|by intros [? ?]].
Qed.

(** The fields that no chunk changes. *)
Definition route (a : BlockAssembler) : string * string * MessageId :=
  (ba_provider a, ba_model a, ba_message_id a).

Lemma accept_route c a a1 : accept c a = Ok a1 → route a1 = route a.
Proof.
  destruct c as [i t|i t|i t|i id name args|i b|u|r rs]; cbn [accept].
  - destruct (ba_blocks a !! i); [done|]. by intros [= <-].
  - by intros [(o & o' & _ & _ & ->)|(s & _ & _ & ->)]%with_open_Ok.
  - by intros [(o & o' & _ & _ & ->)|(s & _ & _ & ->)]%with_open_Ok.
  - by intros [(o & o' & _ & _ & ->)|(s & _ & _ & ->)]%with_open_Ok.
  - destruct (ba_blocks a !! i) as [[o|b'|]|]; try done.
    destruct (close_block o b i); [|done]. by intros [= <-].
  - destruct (ba_usage a); [done|]. by intros [= <-].
  - unfold finish. destruct (finish_blocks r (ba_blocks a)); [|done]. by intros [= <-].
Qed.

Lemma accept_open c a a1 :
  accept c a = Ok a1 → is_finish c = false →
  ba_finished a1 = ba_finished a.
Proof.
  destruct c as [i t|i t|i t|i id name args|i b|u|r rs]; cbn [accept]; intros Ha Hc; [..|done].
  - destruct (ba_blocks a !! i); [done|]. by injection Ha as <-.
  - by apply with_open_Ok in Ha as [(o & o' & _ & _ & ->)|(s & _ & _ & ->)].
  - by apply with_open_Ok in Ha as [(o & o' & _ & _ & ->)|(s & _ & _ & ->)].
  - by apply with_open_Ok in Ha as [(o & o' & _ & _ & ->)|(s & _ & _ & ->)].
  - destruct (ba_blocks a !! i) as [[o|b'|]|]; try done.
    destruct (close_block o b i); [|done]. by injection Ha as <-.
  - destruct (ba_usage a); [done|]. by injection Ha as <-.
Qed.

(** One push: the chunk is recorded, or it is the finish and the message is made. *)
Lemma push_cases l c a r a' :
  pushed l a → push c a = Ok (r, a') →
  (r = None ∧ is_finish c = false ∧ pushed (l ++ [c]) a' ∧ route a' = route a) ∨
  (∃ reason rs, c = Finish reason rs ∧
     r = Some (mkGeneration
       (mkMessage (ba_message_id a) RoleAssistant (content_of l reason)
          (SourceModel (ba_provider a) (ba_model a) rs))
       (ba_usage a) reason (l ++ [c])) ∧
     (match reason with
      | FinishStop | FinishToolCalls => ∀ i, i ∈ started l → is_Some (head (omap (end_of i) l))
      | _ => True
      end)).
Proof.
  intros Hp (Hop & Hv & a1 & Ha & -> & Hr)%push_inv. destruct (is_finish c) eqn:Hc.
  - right. destruct c as [| | | | | |reason rs]; try done. exists reason, rs. split; [done|].
    cbn [accept] in Ha. unfold finish in Ha.
    destruct (finish_blocks reason (ba_blocks a)) as [blocks|] eqn:Hf; [|done].
    injection Ha as <-. cbn in Hr. destruct (finish_content l a reason blocks Hp Hf) as [Hcont Hend].
    split; [|done]. rewrite Hr. unfold generation. cbn. by rewrite Hcont, (pu_chunks l a Hp).
  - left. pose proof (accept_open c a a1 Ha Hc) as Ho. rewrite Hop in Ho. rewrite Ho in Hr.
    split; [done|]. split; [done|]. split; [by apply (accept_pushed l c a)|]. exact (accept_route c a a1 Ha).
Qed.

(** A stream that was assembled: its chunks up to the first finish. *)
Lemma assemble_inv early l : ∀ pre a g,
  pushed pre a → assemble early l a = Ok g →
  ∃ body reason rs rest usage, l = body ++ Finish reason rs :: rest ∧
    Forall (λ c, is_finish c = false) body ∧
    g = mkGeneration
      (mkMessage (ba_message_id a) RoleAssistant (content_of (pre ++ body) reason)
         (SourceModel (ba_provider a) (ba_model a) rs))
      usage reason (pre ++ body ++ [Finish reason rs]) ∧
    (match reason with
     | FinishStop | FinishToolCalls =>
         ∀ i, i ∈ started (pre ++ body) → is_Some (head (omap (end_of i) (pre ++ body)))
     | _ => True
     end).
Proof.
  induction l as [|c l IH]; intros pre a g Hp Ha; [done|]. cbn in Ha.
  destruct (push c a) as [[r a']|] eqn:Hpush; [|done]. cbn in Ha.
  destruct (push_cases pre c a r a' Hp Hpush) as
    [(-> & Hc & Hp' & Hroute)|(reason & rs & -> & -> & Hend)].
  - destruct (IH _ _ _ Hp' Ha) as (body & reason & rs & rest & usage & -> & Hb & -> & Hend).
    exists (c :: body), reason, rs, rest, usage. rewrite <-!app_assoc in *. cbn [app] in *.
    unfold route in Hroute. injection Hroute as -> -> ->. split_and!; [done|by constructor|done|done].
  - injection Ha as <-. exists [], reason, rs, l, (ba_usage a). cbn. rewrite app_nil_r.
    by split_and!.
Qed.

(** ** The delays of retries: signs and bounds of doubles *)

#[local] Open Scope Z_scope.

(** ** Rounding *)

Lemma shr_1_m r : 0 ≤ shr_m r → shr_m (shr_1 r) = shr_m r / 2.
Proof.
  destruct r as [[|[p|p|]|p] b s]; cbn [shr_1 shr_m]; intros Hm; try done; try lia.
  - apply Z.div_unique with 1; lia.
  - apply Z.div_unique with 0; lia.
Qed.

Lemma iter_shr p r : 0 ≤ shr_m r → shr_m (SpecFloat.iter_pos shr_1 p r) = shr_m r / 2 ^ Zpos p.
Proof.
  revert r. induction p as [p IH|p IH|]; intros r Hm; cbn [SpecFloat.iter_pos].
  - assert (0 ≤ shr_m (shr_1 r)) as H1 by (rewrite shr_1_m by done; apply Z.div_pos; lia).
    assert (0 ≤ shr_m (SpecFloat.iter_pos shr_1 p (shr_1 r))) as H2
      by (rewrite IH by done; apply Z.div_pos; lia).
    rewrite !IH, shr_1_m by done. rewrite !Z.div_div by lia. f_equal.
    replace (Zpos p~1) with (1 + (Zpos p + Zpos p)) by lia. rewrite !Z.pow_add_r by lia. lia.
  - assert (0 ≤ shr_m (SpecFloat.iter_pos shr_1 p r)) as H2 by (rewrite IH by done; apply Z.div_pos; lia).
    rewrite !IH by done. rewrite Z.div_div by lia. f_equal.
    replace (Zpos p~0) with (Zpos p + Zpos p) by lia. by rewrite Z.pow_add_r by lia.
  - rewrite shr_1_m by done. done.
Qed.

Lemma digits2_bound p : Zpos p < 2 ^ Zpos (digits2_pos p).
Proof.
  induction p as [p IH|p IH|]; cbn [digits2_pos]; [..|done];
    rewrite Pos2Z.inj_succ, Z.pow_succ_r by lia; lia.
Qed.
Lemma Zdigits2_bound m : 0 ≤ m → m < 2 ^ Zdigits2 m.
Proof. destruct m as [|p|p]; intros Hm; simpl; [done|apply digits2_bound|lia]. Qed.

Lemma record_of_loc_m m l : shr_m (shr_record_of_loc m l) = m.
Proof. by destruct l as [|[]]. Qed.

(** A shift keeps a mantissa nonnegative, and makes it fit. *)
Lemma shr_fexp_m m e l r e' :
  0 ≤ m → shr_fexp 53 1024 m e l = (r, e') → 0 ≤ shr_m r < 2 ^ 53.
Proof.
  unfold shr_fexp, shr. intros Hm. pose proof (Zdigits2_bound m Hm) as Hd.
  set (n := _ - e). assert (Zdigits2 m - 53 ≤ n) as Hn by (unfold n, fexp; lia).
  assert (0 ≤ Zdigits2 m) by (destruct m; simpl; lia).
  pose proof (record_of_loc_m m l) as Hl.
  destruct n as [|p|p] eqn:He; intros [= <- _].
  - rewrite Hl. split; [done|]. eapply Z.lt_le_trans; [exact Hd|]. apply Z.pow_le_mono_r; lia.
  - rewrite iter_shr by lia. rewrite Hl. split; [apply Z.div_pos; lia|].
    apply Z.div_lt_upper_bound; [lia|]. rewrite <- Z.pow_add_r by lia.
    eapply Z.lt_le_trans; [exact Hd|]. apply Z.pow_le_mono_r; lia.
  - rewrite Hl. split; [done|]. eapply Z.lt_le_trans; [exact Hd|]. apply Z.pow_le_mono_r; lia.
Qed.

(** ** Signs *)

Definition nonneg (x : spec_float) : Prop :=
  match x with S754_zero _ | S754_infinity false | S754_finite false _ _ => True | _ => False end.
Definition nonneg_nan (x : spec_float) : Prop := x = S754_nan ∨ nonneg x.
Definition fits (x : spec_float) : Prop :=
  match x with S754_finite _ m _ => Zpos m < 2 ^ 53 | S754_nan => False | _ => True end.

Lemma round_even_nonneg m l : 0 ≤ m → 0 ≤ round_nearest_even m l.
Proof. destruct l as [|[]]; simpl; repeat case_match; lia. Qed.

Lemma round_aux sx m e l :
  0 ≤ m → fits (binary_round_aux 53 1024 sx m e l) ∧
  (sx = false → nonneg (binary_round_aux 53 1024 sx m e l)).
Proof.
  intros Hm. unfold binary_round_aux.
  destruct (shr_fexp 53 1024 m e l) as [r1 e1] eqn:H1. apply shr_fexp_m in H1; [|done].
  destruct (shr_fexp 53 1024 _ e1 loc_Exact) as [r2 e2] eqn:H2.
  apply shr_fexp_m in H2; [|apply round_even_nonneg; lia].
  destruct (shr_m r2) as [|p|p] eqn:Hr; [done| |lia].
  destruct (e2 <=? _); simpl; split; try done; try lia; by intros ->.
Qed.

Lemma normalize m e z :
  fits (binary_normalize 53 1024 m e z) ∧ (0 ≤ m → nonneg (binary_normalize 53 1024 m e z)).
Proof.
  unfold binary_normalize, binary_round. destruct m as [|p|p]; [done|..];
    destruct (shl_align _ _ _) as [mz ez]; destruct (round_aux) with (sx := false) (m := Zpos mz) (e := ez) (l := loc_Exact);
    destruct (round_aux) with (sx := true) (m := Zpos mz) (e := ez) (l := loc_Exact); try lia; split; auto; lia.
Qed.

Lemma spec_fits x : x = NaN ∨ fits (f64_spec x).
Proof.
  destruct x as [[neg [|p] e]|neg|]; [by right|right|by right|by left]. simpl. apply normalize.
Qed.

Lemma respec_nonneg y : nonneg_nan y → nonneg_nan (f64_spec (spec_f64 y)).
Proof.
  intros [->|Hy]; [by left|right]. destruct y as [s|[]| |[] m e]; simpl in *; try done.
  change (nonneg (binary_normalize 53 1024 (Zpos m) e false)). apply normalize. lia.
Qed.

Definition good (x : f64) : Prop := nonneg_nan (f64_spec x).

Lemma mul_nonneg x y : nonneg_nan x → nonneg_nan y → nonneg_nan (SFmul 53 1024 x y).
Proof.
  intros [->|Hx] [->|Hy]; try (by left); [by left; destruct x as [|[]| |[]]|].
  destruct x as [[]|[]| |[] mx ex], y as [[]|[]| |[] my ey]; simpl in *; try done; try (by left); try (by right).
  right. by apply round_aux.
Qed.

Lemma add_nonneg x y : nonneg_nan x → nonneg_nan y → nonneg_nan (SFadd 53 1024 x y).
Proof.
  intros [->|Hx] [->|Hy]; try (by left); [by left; destruct x as [|[]| |[]]|].
  destruct x as [[]|[]| |[] mx ex], y as [[]|[]| |[] my ey]; cbn [SFadd nonneg] in *; try done; try (by right).
  right. apply normalize. cbn [cond_Zopp]. lia.
Qed.

Lemma good_mul x y : good x → good y → good (f64_mul x y).
Proof. intros Hx Hy. by apply respec_nonneg, mul_nonneg. Qed.
Lemma good_add x y : good x → good y → good (f64_add x y).
Proof. intros Hx Hy. by apply respec_nonneg, add_nonneg. Qed.
Lemma good_int z : 0 ≤ z → good (f64_int z).
Proof. intros Hz. apply respec_nonneg. right. by apply normalize. Qed.

Lemma int_not_nan z : f64_int z ≠ NaN.
Proof.
  unfold f64_int. destruct (normalize z 0 (z <? 0)) as [Hf _].
  by destruct (binary_normalize _ _ _ _ _).
Qed.

(** ** Comparisons *)

Lemma compare_refl x : x ≠ S754_nan → SFcompare x x = Some Eq.
Proof.
  destruct x as [|[]| |[] m e]; simpl; try done; intros _; rewrite Z.compare_refl;
    change (Pos.compare_cont Eq m m) with (Pos.compare m m); by rewrite Pos.compare_refl.
Qed.

Lemma compare_swap x y c : SFcompare x y = Some c → SFcompare y x = Some (CompOpp c).
Proof.
  destruct x as [|[]| |[] m e], y as [|[]| |[] m' e']; simpl; intros [= <-]; try done;
    rewrite (Z.compare_antisym e e'); destruct (e ?= e') eqn:He; simpl; try done;
    change (Pos.compare_cont Eq m' m) with (Pos.compare m' m);
    change (Pos.compare_cont Eq m m') with (Pos.compare m m');
    rewrite (Pos.compare_antisym m m'); by destruct (Pos.compare m m').
Qed.

Lemma compare_some x y : x ≠ S754_nan → y ≠ S754_nan → ∃ c, SFcompare x y = Some c.
Proof. destruct x as [|[]| |[] m e], y as [|[]| |[] m' e']; simpl; intros; try done; eauto. Qed.

Lemma spec_not_nan x : x ≠ NaN → f64_spec x ≠ S754_nan.
Proof. intros Hx Hs. destruct (spec_fits x) as [|Hf]; [done|]. by rewrite Hs in Hf. Qed.

Lemma le_of_not_lt x y : x ≠ NaN → y ≠ NaN → f64_lt y x = false → f64_le x y = true.
Proof.
  intros Hx%spec_not_nan Hy%spec_not_nan. unfold f64_lt, f64_le, SFltb, SFleb.
  destruct (compare_some _ _ Hy Hx) as [c Hc]. rewrite Hc.
  apply compare_swap in Hc. rewrite Hc. by destruct c.
Qed.

Lemma lt_of_not_le x y : x ≠ NaN → y ≠ NaN → f64_le y x = false → f64_lt x y = true.
Proof.
  intros Hx%spec_not_nan Hy%spec_not_nan. unfold f64_lt, f64_le, SFltb, SFleb.
  destruct (compare_some _ _ Hy Hx) as [c Hc]. rewrite Hc.
  apply compare_swap in Hc. rewrite Hc. by destruct c.
Qed.

Lemma le_refl x : x ≠ NaN → f64_le x x = true.
Proof. intros Hx%spec_not_nan. unfold f64_le, SFleb. by rewrite compare_refl. Qed.

Lemma zero_le x : f64_le f64_zero x = true ↔ nonneg (f64_spec x).
Proof. unfold f64_le, SFleb. simpl. by destruct (f64_spec x) as [|[]| |[]]. Qed.

Lemma good_cases x : good x → x = NaN ∨ nonneg (f64_spec x).
Proof. intros [Hn|Hp]; [|by right]. left. destruct x; [exfalso|done|done]; by apply (spec_not_nan (Finite f)). Qed.

Lemma min_good a b : good a → nonneg (f64_spec b) → nonneg (f64_spec (f64_min a b)).
Proof.
  intros [->|Ha]%good_cases Hb; [done|]. unfold f64_min.
  destruct a, b; try done; by case_match.
Qed.

Lemma min_le a b : b ≠ NaN → f64_le (f64_min a b) b = true.
Proof.
  intros Hb. unfold f64_min. destruct a, b; try done; try (by apply le_refl);
    destruct (f64_lt _ _) eqn:Hl; try (by apply le_refl); by apply le_of_not_lt.
Qed.

(** ** One minus the jitter *)

Lemma shl_align_m m e e' : e' ≤ e → Zpos (shl_align m e e').1 = Zpos m * 2 ^ (e - e').
Proof.
  intros He. unfold shl_align. destruct (e' - e) as [|d|d] eqn:Hd; [|lia|].
  - replace (e - e') with 0 by lia. simpl. lia.
  - replace (e - e') with (Zpos d) by lia. simpl.
    clear. induction d as [|d IH] using Pos.peano_ind; [simpl; lia|].
    rewrite Pos.iter_succ, Pos2Z.inj_xO, IH, Pos2Z.inj_succ, Z.pow_succ_r by lia. lia.
Qed.

(** [k * 2 ^ e'] with a full mantissa, less what is not greater. *)
Lemma sub_full k e' y :
  2 ^ 53 ≤ 2 * Zpos k → fits y → nonneg y → SFleb y (S754_finite false k e') = true →
  nonneg (SFsub 53 1024 (S754_finite false k e') y).
Proof.
  intros Hk. destruct y as [s|[]| |[] m e]; try done. intros Hf _ Hle.
  cbn [SFsub]. apply normalize. cbn [cond_Zopp].
  rewrite !shl_align_m by lia. unfold SFleb, SFcompare in Hle. simpl in Hf.
  destruct (Z.compare_spec e e') as [->|Hlt|Hgt]; [| |done].
  - rewrite Z.min_id, Z.sub_diag. change (Pos.compare_cont Eq m k) with (Pos.compare m k) in Hle.
    destruct (Pos.compare_spec m k); [lia|lia|done].
  - rewrite Z.min_r, Z.sub_diag by lia.
    assert (2 ^ 1 ≤ 2 ^ (e' - e)) as Hp by (apply Z.pow_le_mono_r; lia).
    change (2 ^ 1) with 2 in Hp. change (2 ^ 0) with 1. nia.
Qed.

Lemma one_spec : f64_spec f64_one = S754_finite false 4503599627370496 (-52).
Proof. vm_compute. reflexivity. Qed.

Lemma good_one_minus x :
  f64_le f64_zero x = true → f64_le x f64_one = true → good (f64_sub f64_one x).
Proof.
  intros H0%zero_le H1. apply respec_nonneg. right. unfold f64_le in H1. rewrite one_spec in *.
  apply sub_full; [by vm_compute| |done|done]. destruct (spec_fits x) as [->|]; done.
Qed.

(** ** The delay *)

Record backoff_ok (p : LlmRetryPolicy) : Prop := {
  bo_initial : nonneg (f64_spec (backoff p).1.1);
  bo_max : nonneg (f64_spec (max_delay_ms p));
  bo_max_timer : f64_le (max_delay_ms p) MAX_TIMER_DELAY_MS = true;
  bo_jitter : f64_le f64_zero (backoff p).2 = true ∧ f64_le (backoff p).2 f64_one = true;
}.

Lemma finite_not_nan x : is_finite x = true → x ≠ NaN.
Proof. by destruct x. Qed.
Lemma lt_le x y : f64_lt x y = true → f64_le x y = true.
Proof. unfold f64_lt, f64_le, SFltb, SFleb. destruct (SFcompare _ _) as [[]|]; done. Qed.

Lemma resolve_backoff_ok b initial max jitter :
  resolve_backoff b = Ok (initial, max, jitter) →
  nonneg (f64_spec initial) ∧ nonneg (f64_spec max) ∧ f64_le max MAX_TIMER_DELAY_MS = true ∧
  f64_le f64_zero jitter = true ∧ f64_le jitter f64_one = true.
Proof.
  unfold resolve_backoff. destruct (_ || _) eqn:Hg; [done|]. intros [= <- <- <-].
  repeat match goal with H : _ || _ = false |- _ => apply orb_false_iff in H as [? ?] end.
  repeat match goal with H : negb _ = false |- _ => apply negb_false_iff in H end.
  repeat match goal with H : is_finite _ = true |- _ => apply finite_not_nan in H end.
  repeat match goal with H : _ && _ = true |- _ => apply andb_true_iff in H as [? ?] end.
  split_and!; try done; try (by apply le_of_not_lt);
    apply zero_le, lt_le, lt_of_not_le; done.
Qed.

Lemma resolve_ok config p : resolve config = Ok p → backoff_ok p.
Proof.
  unfold resolve. destruct config as [[m codes b|b]|].
  - destruct (_ || _); [done|]. intros Hr.
    destruct (resolve_backoff b) as [[[i x] j]|] eqn:Hb; [|done]. injection Hr as <-.
    apply resolve_backoff_ok in Hb as (? & ? & ? & ? & ?). by split.
  - intros Hr. destruct (resolve_backoff b) as [[[i x] j]|] eqn:Hb; [|done]. injection Hr as <-.
    apply resolve_backoff_ok in Hb as (? & ? & ? & ? & ?). by split.
  - intros [= <-]. by split; vm_compute.
Qed.

Lemma local_delay_bounds p n random :
  backoff_ok p → f64_le f64_zero random = true →
  nonneg (f64_spec (local_delay_ms p n random)) ∧ f64_le (local_delay_ms p n random) (max_delay_ms p) = true.
Proof.
  intros [Hi Hm _ [Hj Hj']] Hr%zero_le. unfold local_delay_ms, max_delay_ms in *.
  destruct (backoff p) as [[initial max] jitter]. simpl in *.
  assert (max ≠ NaN) as Hn by (intros ->; done).
  split; [|by apply min_le].
  apply min_good; [|done]. apply good_mul.
  - right. apply min_good; [|done]. apply good_mul; [by right|]. apply good_int. lia.
  - apply good_add; [by apply good_one_minus|].
    apply good_mul; [|by right]. apply good_mul; [by apply good_int|]. right. by apply zero_le.
Qed.
