(* ===== verification/SkillText.v ===== *)
(** * Skills in a prompt (skills.rs, agent_loop.rs)

    The catalog text shown to the model, the text of a loaded skill, and the
    [/name] gestures of a user's message.  Discovery and loading of skills (files
    and providers) is the environment's. *)

From S2P Require Import Prelude Json Protocol.

#[local] Open Scope N_scope.

Record SkillInvocation := mkInvocation { model_invocable : bool; user_invocable : bool }.

Record SkillListing := mkListing {
  sl_name : string;
  sl_description : string;
  sl_invocation : SkillInvocation;
}.

(** A [SkillCatalogEntry] is its listing: the provider is not shown. *)
Record SkillCatalog := mkCatalog {
  sc_complete : bool;
  sc_skills : list SkillListing;
}.

Record LoadedSkill := mkLoaded {
  ls_name : string;
  ls_resource_base : string;
  ls_body : string;
}.

Definition MODEL_CATALOG_DESCRIPTION_MAX : nat := 500.
Definition newline_string : string := String "010" "".
Definition lines (l : list string) : string := String.concat newline_string l.

(** [str::replace] of one character. *)
Definition replace_char (c : ascii) (by_ : string) (s : string) : string :=
  string_of (mjoin ((λ a, if bool_decide (a = c) then bytes_of by_ else [a]) <$> bytes_of s)).

Definition escape_text (s : string) : string :=
  replace_char ">" "&gt;" (replace_char "<" "&lt;" (replace_char "&" "&amp;" s)).
Definition escape_attr (s : string) : string :=
  replace_char "<" "&lt;" (replace_char "034" "&quot;" (replace_char "&" "&amp;" s)).

(** [str::split_whitespace]: [word] holds the bytes of the current word, reversed;
    a white-space character has one, two or three bytes. *)
Definition flush_word (word : list ascii) : list string :=
  match word with [] => [] | _ => [string_of (rev word)] end.
Fixpoint split_ws (word l : list ascii) : list string :=
  match l with
  | [] => flush_word word
  | a :: l1 =>
      if ws1 a then flush_word word ++ split_ws [] l1
      else match l1 with
      | b :: l2 =>
          if ws2 a b then flush_word word ++ split_ws [] l2
          else match l2 with
          | c :: l3 =>
              if ws3 a b c then flush_word word ++ split_ws [] l3 else split_ws (a :: word) l1
          | [] => split_ws (a :: word) l1
          end
      | [] => split_ws (a :: word) l1
      end
  end.
Definition split_whitespace (s : string) : list string := split_ws [] (bytes_of s).

(** Characters start at the bytes that are not UTF-8 continuations. *)
Definition char_start (a : ascii) : bool := negb ((128 <=? byte a) && (byte a <? 192)).
Definition char_count (s : string) : nat := length (filter (λ a, char_start a = true) (bytes_of s)).
(** The first [n] characters. *)
Fixpoint take_chars (n : nat) (l : list ascii) : list ascii :=
  match l with
  | [] => []
  | a :: l =>
      if char_start a then match n with O => [] | S n => a :: take_chars n l end
      else a :: take_chars n l
  end.

Definition catalog_description (value : string) : string :=
  let normalized := String.concat " " (split_whitespace value) in
  if (char_count normalized <=? MODEL_CATALOG_DESCRIPTION_MAX)%nat then normalized
  else string_of (take_chars (MODEL_CATALOG_DESCRIPTION_MAX - 3) (bytes_of normalized)) +:+ "...".

Definition listing_le (a b : SkillListing) : Prop := String.leb (sl_name a) (sl_name b) = true.
#[export] Instance listing_le_dec a b : Decision (listing_le a b).
Proof. unfold listing_le. apply _. Defined.

Definition model_catalog (c : SkillCatalog) : string :=
  lines
    (["<system-reminder>";
      "A skill is a reusable set of task-specific instructions. The following skills are available in this session:";
      ""; "<available_skills>"] ++
     ((λ s, "- `" +:+ sl_name s +:+ "`: " +:+ escape_text (catalog_description (sl_description s)))
        <$> filter (λ s, model_invocable (sl_invocation s) = true)
              (merge_sort listing_le (sc_skills c))) ++
     ["</available_skills>"; "";
      "If the user names a skill, or the task clearly matches a skill's description, call the `skill` tool with the exact skill name before taking task actions. Load all applicable skills, then follow their full instructions. This catalog contains summaries only; do not infer or follow a skill's instructions until it has been loaded.";
      "A user may also invoke a skill directly; its <skill_content> block then appears in this conversation. Follow it, and do not call the `skill` tool again for that skill.";
      "</system-reminder>"]).

Definition quote : string := String "034" "".
Definition skill_result_tag (s : LoadedSkill) : string :=
  lines ["<skill_content name=" +:+ quote +:+ escape_attr (ls_name s) +:+ quote +:+ ">";
         "<skill_resources>";
         "Resources for this skill: " +:+ escape_text (ls_resource_base s);
         "Load referenced resources only as needed.";
         "</skill_resources>"; ""; "<skill_instructions>"; ls_body s;
         "</skill_instructions>"; "</skill_content>"].

(** ** Gestures *)

Definition name_byte (a : ascii) : bool := is_ascii_lowercase a || is_ascii_digit a.

(** The two [while] loops over name bytes: the longest prefix and the rest. *)
Fixpoint span_name (l : list ascii) : list ascii * list ascii :=
  match l with
  | a :: l' => if name_byte a then let p := span_name l' in (a :: p.1, p.2) else ([], l)
  | [] => ([], [])
  end.

(** [-segment] as long as there is one; the fuel is the number of bytes. *)
Fixpoint span_segments (fuel : nat) (l : list ascii) : list ascii * list ascii :=
  match fuel, l with
  | S fuel, a :: (b :: _) as l' =>
      if bool_decide (a = "-"%char) && name_byte b then
        let p := span_name (tail l) in
        let r := span_segments fuel p.2 in
        ((a :: p.1) ++ r.1, r.2)
      else ([], l)
  | _, _ => ([], l)
  end.

Definition span_gesture (l : list ascii) : list ascii * list ascii :=
  let p := span_name l in
  match p.1 with
  | [] => ([], l)
  | _ => let r := span_segments (length l) p.2 in (p.1 ++ r.1, r.2)
  end.

(** White space at the front of what follows, and at the end of what precedes
    (given reversed). *)
Definition ws_front (l : list ascii) : bool :=
  match l with
  | a :: l1 => ws1 a || match l1 with
                        | b :: l2 => ws2 a b || match l2 with c :: _ => ws3 a b c | [] => false end
                        | [] => false
                        end
  | [] => false
  end.
Definition ws_back (l : list ascii) : bool :=
  match l with
  | a :: l1 => ws1 a || match l1 with
                        | b :: l2 => ws2 b a || match l2 with c :: _ => ws3 c b a | [] => false end
                        | [] => false
                        end
  | [] => false
  end.

(** [before] is the text before the current byte, reversed. *)
Fixpoint gestures (before l : list ascii) : list string :=
  match l with
  | [] => []
  | a :: l' =>
      (if bool_decide (a = "/"%char) && (bool_decide (before = []) || ws_back before) then
         let p := span_gesture l' in
         if negb (bool_decide (p.1 = [])) && (bool_decide (p.2 = []) || ws_front p.2)
         then [string_of p.1] else []
       else []) ++ gestures (a :: before) l'
  end.
Definition skill_gestures (text : string) : list string := gestures [] (bytes_of text).

Definition user_texts (m : Message) : list string :=
  match m_source m with
  | SourceUser _ => omap (λ b, match b with Text text => Some text | _ => None end) (m_content m)
  | _ => []
  end.

Definition invoked_skill_names (messages : list Message) (available : list string) : list string :=
  foldl (λ names name,
           if bool_decide (name ∈ available) && negb (bool_decide (name ∈ names))
           then names ++ [name] else names)
    [] (mjoin (skill_gestures <$> mjoin (user_texts <$> messages))).

Example gesture_sample :
  skill_gestures "/review-pr now, not a/b nor /x- but /deep--no /k8s" = ["review-pr"; "k8s"].
Proof. reflexivity. Qed.
