(* ===== verification/SystemPrompt.v ===== *)
(** * System prompts (system_prompt.rs)

    A registry of owned prompt sections and its assembly with the sections of one
    caller.  The lock makes each operation a function of the registry; an
    operation answers with the observers it notifies, in order.  What an observer
    does is contained by the source and not modelled. *)

From S2P Require Import Prelude Json Protocol.

#[local] Open Scope N_scope.

Module Prompt.

Record PromptSection := mkPromptSection {
  sn_id : string;
  sn_order : Z;
  sn_text : string;
}.

Record PromptAssembly := mkAssembly { as_text : string; as_tools : list ToolSchema }.

Record RegisteredSection := mkRegistered { rg_token : N; rg_section : PromptSection }.

Record State := mkState {
  next_token : N;
  sections : gmap string RegisteredSection;
  observers : gset N;
}.

Definition new : State := mkState 0 ∅ ∅.

Record PromptRegistration := mkPromptRegistration { reg_id : string; reg_token : N; reg_removed : bool }.
Record PromptSubscription := mkSubscription { sub_token : N; sub_removed : bool }.

Definition validate_section_id (id source : string) : result TessivumError unit :=
  if blank id then
    Err (TessivumError_new "INVALID_PROMPT_SECTION_ID" "prompt section ID must not be blank"
           "system-prompt" (json_object [("source", VString source)]))
  else Ok tt.

Definition duplicate_section_id (source id : string) : TessivumError :=
  TessivumError_new "DUPLICATE_PROMPT_SECTION_ID" "prompt section ID is already registered"
    "system-prompt" (json_object [("source", VString source); ("id", VString id)]).

(** [next_token]: [None] when the counter is exhausted and the source panics. *)
Definition take_token (s : State) : option (N * State) :=
  n ← u64_checked_add (next_token s) 1;
  Some (next_token s, mkState n (sections s) (observers s)).

(** The observers in the order of their tokens. *)
Definition notified (s : State) : list N := merge_sort N.le (elements (observers s)).

Definition register (section : PromptSection) (s : State) :
    option (result TessivumError PromptRegistration * list N * State) :=
  match validate_section_id (sn_id section) "registered" with
  | Err e => Some (Err e, [], s)
  | Ok _ =>
      match sections s !! sn_id section with
      | Some _ => Some (Err (duplicate_section_id "registered" (sn_id section)), [], s)
      | None =>
          '(token, s) ← take_token s;
          let s := mkState (next_token s)
                     (<[sn_id section := mkRegistered token section]> (sections s)) (observers s) in
          Some (Ok (mkPromptRegistration (sn_id section) token false), notified s, s)
      end
  end.

Definition remove_registration (id : string) (token : N) (s : State) : bool * list N * State :=
  if bool_decide (rg_token <$> sections s !! id = Some token) then
    let s := mkState (next_token s) (delete id (sections s)) (observers s) in (true, notified s, s)
  else (false, [], s).

Definition remove (r : PromptRegistration) (s : State) :
    bool * list N * PromptRegistration * State :=
  if reg_removed r then (false, [], r, s)
  else
    let r := mkPromptRegistration (reg_id r) (reg_token r) true in
    let '(removed, l, s) := remove_registration (reg_id r) (reg_token r) s in (removed, l, r, s).

Definition subscribe (s : State) : option (PromptSubscription * State) :=
  '(token, s) ← take_token s;
  Some (mkSubscription token false, mkState (next_token s) (sections s) ({[ token ]} ∪ observers s)).

Definition unsubscribe (b : PromptSubscription) (s : State) : bool * PromptSubscription * State :=
  if sub_removed b then (false, b, s)
  else (bool_decide (sub_token b ∈ observers s), mkSubscription (sub_token b) true,
        mkState (next_token s) (sections s) (observers s ∖ {[ sub_token b ]})).

(** ** Assembly *)

Inductive Source := Registered | Runtime.
Definition source_rank (s : Source) : N := match s with Registered => 0 | Runtime => 1 end.

Record OrderedSection := mkOrdered { os_section : PromptSection; os_source : Source; os_position : nat }.

(** The comparison of [sort_by]: order, then id, then source, then position. *)
Definition ordered_le (a b : OrderedSection) : bool :=
  match (sn_order (os_section a) ?= sn_order (os_section b))%Z with
  | Lt => true
  | Gt => false
  | Eq =>
      match String.compare (sn_id (os_section a)) (sn_id (os_section b)) with
      | Lt => true
      | Gt => false
      | Eq =>
          match source_rank (os_source a) ?= source_rank (os_source b) with
          | Lt => true
          | Gt => false
          | Eq => (os_position a <=? os_position b)%nat
          end
      end
  end.

Definition ordered (source : Source) (l : list PromptSection) : list OrderedSection :=
  imap (λ position section, mkOrdered section source position) l.

(** The runtime sections are checked one after the other. *)
Fixpoint check_runtime (seen : list string) (l : list PromptSection) : result TessivumError unit :=
  match l with
  | [] => Ok tt
  | section :: l =>
      _ ← validate_section_id (sn_id section) "runtime";
      if bool_decide (sn_id section ∈ seen) then Err (duplicate_section_id "runtime" (sn_id section))
      else check_runtime (sn_id section :: seen) l
  end.

Definition assembled (runtime_sections : list PromptSection) (s : State) : list OrderedSection :=
  merge_sort ordered_le
    (ordered Runtime runtime_sections ++ ordered Registered (rg_section <$> btree_values (sections s))).

Definition join (separator : string) (l : list string) : string := String.concat separator l.

Definition assemble (runtime_sections : list PromptSection) (tools : list ToolSchema) (s : State) :
    result TessivumError PromptAssembly :=
  _ ← check_runtime [] runtime_sections;
  let texts := filter (λ t, is_empty t = false)
                 ((λ o, sn_text (os_section o)) <$> assembled runtime_sections s) in
  Ok (mkAssembly (join (String "010" (String "010" "")) texts) tools).
End Prompt.
