(* ===== verification/Compaction.v ===== *)
(** * Compaction of a conversation (compaction.rs)

    A compaction shortens what the model is shown: it asks a model for a summary
    of a region of the surface and replaces the region by the summary, with one
    event; a pruning replaces one long tool result by its beginning.  A recovery
    ([compact_for_request]) repeats these until the request fits.  The pure part
    (bounds, tool pairs, what is protected, which region is next) comes first, the
    service second: a computation over the session, its back end and the set of
    sessions that are being compacted, in which other tasks run before each
    reading of the state ([ce_others]).  Sizes are those of the serialised
    messages, whose text is a parameter. *)

From S2P Require Import Prelude Json Protocol Session Llm SkillText.

#[local] Open Scope N_scope.

(** What serde derives, and [thiserror]'s text of a session's errors. *)
Class CompactionWire := {
  usage_value : TokenUsage → Value;
  failure_value : LlmFailure → Value;
  finish_value : FinishReason → Value;
  tools_value : list ToolSchema → Value;
  content_value : list ContentBlock → Value;
  purpose_value : GeneratePurpose → Value;
  json_text : Value → string;
  message_text : Message → string;
  session_error_text : SessionError → string;
}.

Definition DEFAULT_MAX_SURFACE_MESSAGES : N := 512.
Definition DEFAULT_MAX_INPUT_CODEPOINTS : N := 65536.
Definition DEFAULT_MAX_SUMMARY_CODEPOINTS : N := 16384.
Definition COMPACTION_PLUGIN : string := "compact".
Definition DEFAULT_SYSTEM_PROMPT : string :=
  "Summarize the supplied conversation faithfully. Return only the summary as plain text; do not call tools.".

Inductive CompactionTrigger := Manual | Pressure | ContextOverflow.
#[export] Instance CompactionTrigger_eq_dec : EqDecision CompactionTrigger.
Proof. solve_decision. Defined.

(** Positions on the surface, both included. *)
Record CompactionRange := mkRange { rg_start : N; rg_end : N }.

Record CompactionConfig := mkCompactionConfig {
  cf_provider : string;
  cf_model : string;
  cf_max_tokens : option N;
  cf_system : option string;
  cf_max_surface_messages : N;
  cf_max_input_codepoints : N;
  cf_max_summary_codepoints : N;
}.

Inductive CompactionError :=
| CBusy (session : SessionId)
| CCancelled
| CInvalid (error : TessivumError)
| CLlm (error : TessivumError)
| CSession (error : SessionError).

Definition compaction_error (code message : string) (details : Value) : CompactionError :=
  CInvalid (TessivumError_new code message "compaction" details).

Definition CompactionError_code (e : CompactionError) : string :=
  match e with
  | CBusy _ => "COMPACTION_BUSY"
  | CCancelled => "CANCELLED"
  | CInvalid error | CLlm error => err_code error
  | CSession error => SessionError_code error
  end.

Definition CompactionError_text `{CompactionWire} (e : CompactionError) : string :=
  match e with
  | CBusy session => "compaction is already running for session " +:+ session
  | CCancelled => "compaction was cancelled"
  | CInvalid error => error_text error
  | CLlm error => "LLM summarization failed: " +:+ error_text error
  | CSession error => session_error_text error
  end.

Definition CompactionConfig_validate (c : CompactionConfig) : result CompactionError unit :=
  if blank (cf_provider c) then
    Err (compaction_error "INVALID_COMPACTION_PROVIDER" "compaction provider must not be empty" VNull)
  else if blank (cf_model c) then
    Err (compaction_error "INVALID_COMPACTION_MODEL" "compaction model must not be empty" VNull)
  else if bool_decide (cf_max_tokens c = Some 0) then
    Err (compaction_error "INVALID_COMPACTION_MAX_TOKENS"
           "compaction maxTokens must be positive when present" VNull)
  else
    forM (λ fv : string * N,
      if fv.2 =? 0 then
        Err (compaction_error "INVALID_COMPACTION_BOUND" "compaction bounds must be positive"
               (json_object [("field", VString fv.1)]))
      else Ok tt)
      [("maxSurfaceMessages", cf_max_surface_messages c);
       ("maxInputCodepoints", cf_max_input_codepoints c);
       ("maxSummaryCodepoints", cf_max_summary_codepoints c)].

Record CompactionEventSeqs := mkSeqs {
  es_start : N; es_summary : N; es_replacement : N; es_end : N;
}.

Record CompactionResult := mkCompactionResult {
  co_compaction_id : string;
  co_trigger : CompactionTrigger;
  co_range : CompactionRange;
  co_shadowed_event_seqs : list N;
  co_token_estimate : N;
  co_event_seqs : CompactionEventSeqs;
}.

Record ToolResultPruneResult := mkPruneResult {
  tp_range : CompactionRange;
  tp_source_event_seq : N;
  tp_replacement_event_seq : N;
  tp_original_codepoints : N;
  tp_retained_codepoints : N;
}.

Inductive CompactionOutcome :=
| Noop (trigger : CompactionTrigger) (token_estimate : N)
| Compacted (r : CompactionResult)
| Pruned (r : ToolResultPruneResult).

Inductive ToolResultPruneOutcome :=
| PruneNoop (source_event_seq codepoints : N)
| ResultPruned (r : ToolResultPruneResult).

Record Plan := mkPlan {
  pl_range : CompactionRange;
  pl_expected_surface_event_seqs : list N;
  pl_shadowed_event_seqs : list N;
  pl_messages : list Message;
  pl_token_estimate : N;
}.

(** ** Measures *)

Definition sum_N (l : list N) : N := foldr N.add 0 l.
(** [sum::<u64>()], which wraps around in a release build: the numbers of a
    usage come from the log, and are any [u64]s. *)
Definition u64_sum (l : list N) : N := sum_N l mod 2 ^ 64.
Definition codepoints (s : string) : N := N.of_nat (char_count s).
Definition tokens_for (n : N) : N := u64_saturating_add n 3 / 4.
Definition soft_limit (limit : N) : N := u64_saturating_sub limit (limit / 4).
Definition u64_saturating_mul (a b : N) : N := N.min (a * b) U64_MAX.
Definition byte_len (s : string) : N := N.of_nat (String.length s).

Fixpoint media (b : ContentBlock) : N :=
  match b with
  | Image _ => 16384
  | ToolResult _ content _ => sum_N (media <$> content)
  | _ => 0
  end.

Section measures.
Context `{CompactionWire}.

(** Serialising a message does not fail. *)
Definition serialized_codepoints (m : Message) : N := codepoints (message_text m).

Definition message_token_estimate (m : Message) : N :=
  u64_saturating_add (byte_len (message_text m) + 1) (sum_N (media <$> m_content m)).

Definition serialized_request_without_messages (r : GenerateRequest) : N :=
  byte_len (json_text (json_object
    [("provider", VString (gr_provider r)); ("model", VString (gr_model r));
     ("system", json_option VString (gr_system r)); ("tools", json_option tools_value (gr_tools r));
     ("reasoningEffort", json_option VString (gr_reasoning_effort r));
     ("maxTokens", json_option json_u64 (gr_max_tokens r));
     ("temperature", json_option json_f64 (gr_temperature r));
     ("stop", json_option json_strings (gr_stop r));
     ("sessionId", json_option VString (gr_session_id r));
     ("purpose", json_option purpose_value (gr_purpose r)); ("messages", VArray [])])).
End measures.

(** ** Tool pairs *)

Definition in_range (index : nat) (r : CompactionRange) : bool :=
  (rg_start r <=? N.of_nat index) && (N.of_nat index <=? rg_end r).

Definition tool_calls (m : Message) : list string :=
  omap (λ b, match b with ToolCall id _ _ => Some id | _ => None end) (m_content m).

Fixpoint collect_tool_results (b : ContentBlock) : list string :=
  match b with
  | ToolResult id content _ => id :: flat_map collect_tool_results content
  | _ => []
  end.
Definition tool_results (m : Message) : list string := flat_map collect_tool_results (m_content m).

Definition call_details (id : string) : Value := json_object [("toolCallId", VString id)].

(** [pending] maps a call that has no result yet to its position. *)
Definition open_call (r : CompactionRange) (index : nat) (pending : gmap string nat) (call : string) :
    result CompactionError (gmap string nat) :=
  match pending !! call with
  | Some previous =>
      if in_range index r || in_range previous r then
        Err (compaction_error "INVALID_TOOL_PAIR_ORDER" "a tool call id is active more than once"
               (call_details call))
      else Ok (<[call := index]> pending)
  | None => Ok (<[call := index]> pending)
  end.

Definition close_call (r : CompactionRange) (index : nat) (pending : gmap string nat) (id : string) :
    result CompactionError (gmap string nat) :=
  let inside := in_range index r in
  match pending !! id with
  | Some call_index =>
      if xorb inside (in_range call_index r) then
        Err (compaction_error "UNBALANCED_TOOL_PAIR"
               "compaction region must contain both sides of every tool pair" (call_details id))
      else Ok (delete id pending)
  | None =>
      if inside then
        Err (compaction_error "INVALID_TOOL_PAIR_ORDER"
               "a selected tool result has no earlier active tool call" (call_details id))
      else Ok pending
  end.

Definition pair_entry (r : CompactionRange) (pending : gmap string nat)
    (e : nat * SurfaceMessage) : result CompactionError (gmap string nat) :=
  pending ← foldM (open_call r e.1) pending (tool_calls (sm_message e.2));
  foldM (close_call r e.1) pending (tool_results (sm_message e.2)).

Definition validate_tool_pairs (surface : list SurfaceMessage) (r : CompactionRange) :
    result CompactionError unit :=
  pending ← foldM (pair_entry r) ∅ (imap pair surface);
  match List.find (λ ci : string * nat, in_range ci.2 r) (btree_list pending) with
  | Some (call, _) =>
      Err (compaction_error "UNBALANCED_TOOL_PAIR"
             "a selected tool call has no matching tool result" (call_details call))
  | None => Ok tt
  end.

(** The ids that wait for a result behind an entry, and the positions at which
    none does. *)
Definition pending_after (pending : gset string) (e : SurfaceMessage) : gset string :=
  foldl (λ p id, p ∖ {[ id ]}) (pending ∪ list_to_set (tool_calls (sm_message e)))
    (tool_results (sm_message e)).

Fixpoint boundaries_from (pending : gset string) (index : nat) (surface : list SurfaceMessage) :
    list nat :=
  match surface with
  | [] => []
  | e :: surface =>
      let pending := pending_after pending e in
      (if bool_decide (pending = ∅) then [S index] else [])
      ++ boundaries_from pending (S index) surface
  end.
Definition complete_boundaries (surface : list SurfaceMessage) : list nat :=
  0%nat :: boundaries_from ∅ 0 surface.

(** [&surface[start..=end]], within its bounds. *)
Definition range_slice (surface : list SurfaceMessage) (r : CompactionRange) :
    result CompactionError (list SurfaceMessage) :=
  let len := N.of_nat (length surface) in
  if (rg_end r <? rg_start r) || (len <=? rg_end r) then
    Err (compaction_error "INVALID_COMPACTION_REGION"
           "compaction range must be ordered and inside the current surface"
           (json_object [("start", json_u64 (rg_start r)); ("end", json_u64 (rg_end r));
                         ("surfaceLength", json_u64 len)]))
  else Ok (take (N.to_nat (rg_end r - rg_start r + 1)) (drop (N.to_nat (rg_start r)) surface)).

(** [current[begin..end]]. *)
Definition slice {A} (l : list A) (start fin : nat) : list A := take (fin - start) (drop start l).

Definition is_summary (m : Message) : bool :=
  match m_source m with
  | SourcePlugin plugin _ _ _ _ => String.eqb plugin COMPACTION_PLUGIN
  | _ => false
  end.
Definition is_user (m : Message) : bool :=
  match m_source m with SourceUser _ => true | _ => false end.
Definition is_tool (m : Message) : bool :=
  match m_source m with SourceTool _ => true | _ => false end.

(** [iter().rposition(f)]. *)
Definition rposition {A} (f : A → bool) (l : list A) : option nat :=
  (λ i, length l - 1 - i)%nat <$> position f (rev l).

(** [iter().take_while(f)]. *)
Fixpoint take_while {A} (f : A → bool) (l : list A) : list A :=
  match l with
  | [] => []
  | x :: l => if f x then x :: take_while f l else []
  end.

(** [iter().max_by_key(f)]: the last of the greatest. *)
Definition max_by_key {A} (f : A → N) (l : list A) : option A :=
  foldl (λ best x, match best with
                   | Some y => if f y <=? f x then Some x else best
                   | None => Some x
                   end) None l.

(** ** Plans *)

Section planning.
Context `{CompactionWire}.
Context (cfg : CompactionConfig).

Definition checked_sum (l : list N) : option N :=
  foldl (λ total n, total ← total; u64_checked_add total n) (Some 0) l.

Definition plan_from_surface (surface : list SurfaceMessage) (r : CompactionRange)
    (input_codepoint_limit : N) : result CompactionError Plan :=
  selected ← range_slice surface r;
  let count := N.of_nat (length selected) in
  if cf_max_surface_messages cfg <? count then
    Err (compaction_error "COMPACTION_REGION_TOO_LARGE"
           "compaction region exceeds the configured message bound"
           (json_object [("messages", json_u64 count);
                         ("maximum", json_u64 (cf_max_surface_messages cfg))]))
  else
    _ ← validate_tool_pairs surface r;
    let messages := sm_message <$> selected in
    input_codepoints ← ok_or (checked_sum (serialized_codepoints <$> messages))
      (compaction_error "COMPACTION_INPUT_TOO_LARGE"
         "compaction input is too large to count safely" VNull);
    if input_codepoint_limit <? input_codepoints then
      Err (compaction_error "COMPACTION_INPUT_TOO_LARGE"
             "compaction input exceeds the configured codepoint bound"
             (json_object [("codepoints", json_u64 input_codepoints);
                           ("maximum", json_u64 input_codepoint_limit)]))
    else
      Ok (mkPlan r (sm_event_seq <$> surface) (sm_event_seq <$> selected) messages
            (tokens_for input_codepoints)).

(** The bounds of one recovery; [li_request] is unknown without a context window
    of the model, [li_summary] without one of the summary's model. *)
Record Limits := mkLimits {
  li_request : option N;
  li_summary : option N;
  li_input : N;
  li_target_cp : N;
  li_target_count : N;
  li_keep : N;
  li_minimum_summary : N;
}.

Context (seeds : list N) (li : Limits) (current : list SurfaceMessage).

Definition sizes : list N := (λ e, serialized_codepoints (sm_message e)) <$> current.
Definition estimates : list N := (λ e, message_token_estimate (sm_message e)) <$> current.
Definition total_cp : N := sum_N sizes.

Definition pressured (total_tokens : N) : bool :=
  match li_request li with
  | Some limit => limit <? total_tokens
  | None => (li_target_count li <? N.of_nat (length current)) || (li_target_cp li <? total_cp)
  end.

Definition latest_user : option nat := rposition (λ e, is_user (sm_message e)) current.
Definition of_plugin (name : string) (m : Message) : bool :=
  match m_source m with SourcePlugin plugin _ _ _ _ => String.eqb plugin name | _ => false end.
Definition latest_context : list (option nat) :=
  (λ name, rposition (λ e, of_plugin name (sm_message e)) current)
    <$> ["tessivum/runtime-context"; "tessivum-workspace-instructions"].

(** The [while] loop that walks back over the recent messages. *)
Fixpoint walk_back (recent_start : nat) (recent_cp : N) : nat :=
  match recent_start with
  | O => O
  | S previous =>
      let size := default 0 (sizes !! previous) in
      if (recent_cp <? li_keep li)
         && (N.of_nat (length current - recent_start) <? N.max (li_target_count li / 4) 1)
         && ((recent_start =? length current)%nat || (recent_cp + size <=? li_keep li)) then
        walk_back previous (recent_cp + size)
      else recent_start
  end.

Definition recent_start : nat :=
  default 0%nat
    (last (take_while (λ i, i <=? walk_back (length current) 0)%nat (complete_boundaries current))).

Definition is_seed (index : nat) : bool :=
  from_option (λ e, bool_decide (sm_event_seq e ∈ seeds)) false (current !! index).

Definition protected (index : nat) : bool :=
  is_seed index || bool_decide (Some index = latest_user)
  || bool_decide (Some index ∈ latest_context) || (recent_start <=? index)%nat.

Definition group_protected (start fin : nat) : bool := existsb protected (seq start (fin - start)).

Record Batch := mkBatch {
  b_selected : option CompactionRange;
  b_start : option nat;
  b_cp : N;
  b_tokens : N;
  b_fresh : bool;
}.

Definition oversize (begin_batch fin : nat) (cp tokens : N) : bool :=
  (cf_max_surface_messages cfg <? N.of_nat (fin - begin_batch))
  || (li_input li <? cp)
  || from_option (λ limit, limit <? tokens) false (li_summary li).

Definition grow (b : Batch) (begin_batch start fin : nat) (cp tokens : N) : Batch :=
  let fresh := b_fresh b || existsb (λ e, negb (is_summary (sm_message e))) (slice current start fin) in
  mkBatch
    (if fresh && (li_minimum_summary li <? cp)
     then Some (mkRange (N.of_nat begin_batch) (N.of_nat (fin - 1))) else b_selected b)
    (Some begin_batch) cp tokens fresh.

(** The loop over the groups between boundaries: the region of the next summary,
    and the group that is too large for one. *)
Fixpoint select (groups : list (nat * nat)) (b : Batch) :
    option CompactionRange * option (nat * nat) :=
  match groups with
  | [] => (b_selected b, None)
  | (start, fin) :: groups =>
      if group_protected start fin then
        match b_selected b with
        | Some r => (Some r, None)
        | None => select groups (mkBatch None None 0 0 false)
        end
      else
        let cp := b_cp b + sum_N (slice sizes start fin) in
        let tokens := b_tokens b + sum_N (slice estimates start fin) in
        let begin_batch := default start (b_start b) in
        if oversize begin_batch fin cp tokens then
          match b_selected b with
          | Some r => (Some r, None)
          | None => (None, Some (start, fin))
          end
        else select groups (grow b begin_batch start fin cp tokens)
  end.

(** [boundaries.windows(2)]. *)
Definition groups : list (nat * nat) :=
  let boundaries := complete_boundaries current in zip boundaries (tail boundaries).

Definition selection : option CompactionRange * option (nat * nat) :=
  select groups (mkBatch None None 0 0 false).

Definition blocking_group : option (nat * nat) :=
  match selection.2 with
  | Some group => Some group
  | None =>
      List.find (λ g, (li_target_cp li / 2 <? sum_N (slice sizes g.1 g.2))
                      && negb (existsb is_seed (seq g.1 (g.2 - g.1)))) groups
  end.

Definition prune_cap : N :=
  N.min (N.min (cf_max_input_codepoints cfg / 4) (li_target_cp li / 2))
    (default U64_MAX (li_summary li) / 4).

(** The tool result to prune, when it exceeds the cap. *)
Definition prunable : option SurfaceMessage :=
  g ← blocking_group;
  e ← max_by_key (λ e, serialized_codepoints (sm_message e))
        (filter (λ e, is_tool (sm_message e) = true) (slice current g.1 g.2));
  if prune_cap <? serialized_codepoints (sm_message e) then Some e else None.
End planning.

(** ** Tool results and summaries *)

Definition event_details (seq : N) : Value := json_object [("eventSeq", json_u64 seq)].

Definition tool_result (e : SurfaceMessage) :
    result CompactionError (ToolCallId * list ContentBlock * option bool) :=
  match m_source (sm_message e) with
  | SourceTool call_id =>
      match m_content (sm_message e) with
      | [ToolResult tool_call_id content is_error] =>
          if String.eqb call_id tool_call_id then Ok (tool_call_id, content, is_error)
          else Err (compaction_error "INVALID_TOOL_RESULT"
                      "tool result source does not match its content block"
                      (event_details (sm_event_seq e)))
      | _ => Err (compaction_error "INVALID_TOOL_RESULT"
                    "selected tool result must contain exactly one tool-result block"
                    (event_details (sm_event_seq e)))
      end
  | _ => Err (compaction_error "INVALID_TOOL_RESULT"
                "selected surface entry is not a tool result" (event_details (sm_event_seq e)))
  end.

Definition is_text (b : ContentBlock) : bool := match b with Text _ => true | _ => false end.

Definition concat_all (l : list string) : string := foldr String.append "" l.

Fixpoint block_text `{CompactionWire} (b : ContentBlock) : string :=
  match b with
  | Text text | Reasoning text => text
  | Image attachment => json_text attachment
  | ToolCall _ name arguments => name +:+ arguments
  | ToolResult _ content _ => concat_all (block_text <$> content)
  end.
Definition tool_output_text `{CompactionWire} (content : list ContentBlock) : string :=
  concat_all (block_text <$> content).

(** The code points of a character in a JSON string. *)
Definition escape_cost (a : ascii) : N :=
  if existsb (N.eqb (byte a)) [34; 92; 10; 13; 9; 8; 12] then 2
  else if byte a <? 32 then 6
  else 1.

(** The characters that fit; a character's first byte carries its cost. *)
Fixpoint fitting_prefix (available : N) (l : list ascii) : list ascii :=
  match l with
  | [] => []
  | a :: l =>
      if char_start a then
        if available <? escape_cost a then [] else a :: fitting_prefix (available - escape_cost a) l
      else a :: fitting_prefix available l
  end.

Definition prune_marker (seq : N) : string :=
  line_feed +:+ "[Truncated tool output; original event " +:+ fmt_N seq
  +:+ ". Export session history to inspect the full result.]".

Definition pruned_message (seq : N) (call_id : ToolCallId) (text : string) (is_error : option bool) :
    Message :=
  mkMessage ("tool-prune-" +:+ fmt_N seq) RoleUser [ToolResult call_id [Text text] is_error]
    (SourceTool call_id).

Definition summary_message (start_seq : N) (compaction_id : string) (content : list ContentBlock) :
    Message :=
  mkMessage ("compaction-" +:+ fmt_N start_seq) RoleUser content
    (SourcePlugin COMPACTION_PLUGIN (Some compaction_id) None None None).

Fixpoint summary_texts (l : list ContentBlock) : result CompactionError (list string) :=
  match l with
  | [] => Ok []
  | Text text :: l => texts ← summary_texts l; Ok (text :: texts)
  | Reasoning _ :: l => summary_texts l
  | _ => Err (compaction_error "INVALID_COMPACTION_SUMMARY"
                "compaction summary may contain only text and reasoning blocks" VNull)
  end.

Definition summary_blocks (m : Message) (max_codepoints : N) :
    result CompactionError (list ContentBlock) :=
  texts ← summary_texts (m_content m);
  if forallb blank texts then
    Err (compaction_error "INVALID_COMPACTION_SUMMARY" "compaction summary must contain text" VNull)
  else if max_codepoints <? foldl (λ n t, u64_saturating_add n (codepoints t)) 0 texts then
    Err (compaction_error "COMPACTION_SUMMARY_TOO_LARGE"
           "compaction summary exceeds the configured codepoint bound"
           (json_object [("maximum", json_u64 max_codepoints)]))
  else Ok (Text <$> texts).

(** The turn that the log leaves open. *)
Definition open_turn_of (events : list SessionEvent) : option N :=
  foldl (λ turn e,
    if String.eqb (event_type e) "turn/start" then get_u64 "turn" (ev_data e)
    else if String.eqb (event_type e) "turn/end"
            && bool_decide (get_u64 "turn" (ev_data e) = turn) then None
    else turn) None events.

(** ** What the provider said of the last request *)

Section usage.
Context `{CompactionWire}.

Definition same_request (header : Value) (r : GenerateRequest) : bool :=
  bool_decide (pointer ["config"; "provider"] header ≫= as_str = Some (gr_provider r))
  && bool_decide (pointer ["config"; "model"] header ≫= as_str = Some (gr_model r))
  && value_eqb (default VNull (get "system" header)) (json_option VString (gr_system r))
  && value_eqb (default VNull (get "tools" header)) (json_option tools_value (gr_tools r)).

Definition same_model (e : SessionEvent) (r : GenerateRequest) : bool :=
  bool_decide (pointer ["message"; "source"; "provider"] (ev_data e) ≫= as_str
               = Some (gr_provider r))
  && bool_decide (pointer ["message"; "source"; "model"] (ev_data e) ≫= as_str
                  = Some (gr_model r)).

(** Over the events, the latest first. *)
Fixpoint latest_usage (r : GenerateRequest) (surface : list SurfaceMessage)
    (events : list SessionEvent) : N :=
  match events with
  | [] => 0
  | e :: events =>
      match ev_surface_op e with
      | Some (Replace _ _) => 0
      | _ =>
          if String.eqb (event_type e) "assistant/message" then
            match get "usage" (ev_data e) with
            | None => latest_usage r surface events
            | Some usage =>
                if same_model e r then
                  u64_saturating_add
                    (u64_sum ((λ key, default 0 (get_u64 key usage))
                                <$> ["inputTokens"; "cacheReadTokens"; "cacheWriteTokens"]))
                    (u64_sum ((λ entry, message_token_estimate (sm_message entry))
                                <$> filter (λ entry, ev_seq e <= sm_event_seq entry) surface))
                else 0
            end
          else latest_usage r surface events
      end
  end.

Definition recent_usage_estimate (events : list SessionEvent) (r : GenerateRequest)
    (surface : list SurfaceMessage) : N :=
  match e ← List.find (λ e, String.eqb (event_type e) "request/header") (rev events);
        get "header" (ev_data e) with
  | Some header => if same_request header r then latest_usage r surface (rev events) else 0
  | None => 0
  end.
End usage.

(** ** The service *)

(** [context_window_resolver] asks the catalog of models. *)
Record CompactionService := mkService {
  cs_config : CompactionConfig;
  cs_context_window_resolver : option (string → string → option N);
  cs_session_model : bool;
}.

Definition new (c : CompactionConfig) : result CompactionError CompactionService :=
  _ ← CompactionConfig_validate c; Ok (mkService c None false).

Definition with_context_window_resolver (resolver : string → string → option N)
    (s : CompactionService) : CompactionService :=
  mkService (cs_config s) (Some resolver) (cs_session_model s).

Definition with_session_model (enabled : bool) (s : CompactionService) : CompactionService :=
  mkService (cs_config s) (cs_context_window_resolver s) enabled.

Definition for_session_model (provider model : string) (s : CompactionService) :
    CompactionService :=
  if cs_session_model s then
    let c := cs_config s in
    mkService
      (mkCompactionConfig provider model (cf_max_tokens c) (cf_system c)
         (cf_max_surface_messages c) (cf_max_input_codepoints c) (cf_max_summary_codepoints c))
      (cs_context_window_resolver s) (cs_session_model s)
  else s.

Definition summary_token_limit (svc : CompactionService) (id : SessionId) : option N :=
  let c := cs_config svc in
  resolver ← cs_context_window_resolver svc;
  window ← resolver (cf_provider c) (cf_model c);
  let reserve := default (N.max (window / 4) 1) (cf_max_tokens c) in
  let overhead := byte_len (default DEFAULT_SYSTEM_PROMPT (cf_system c)) + byte_len (cf_provider c)
                  + byte_len (cf_model c) + byte_len id + 256 in
  Some (u64_saturating_sub (u64_saturating_sub window reserve) overhead).

(** An append of the service that the session refused. *)
Record Refusal := mkRefusal {
  rf_event_type : string;
  rf_data : Value;
  rf_error : SessionError;
}.

(** [cw_active] is the set of the sessions with a lease, shared by the clones of
    the service.  [cw_refused] is a history variable, which no operation reads:
    the appends that the session refused, the latest last. *)
Record CompactWorld (S : Type) := mkCompactWorld {
  cw_session : Session;
  cw_backend : S;
  cw_active : gset SessionId;
  cw_tick : nat;
  cw_refused : list Refusal;
}.
Arguments mkCompactWorld {S}.
Arguments cw_session {S}.
Arguments cw_backend {S}.
Arguments cw_active {S}.
Arguments cw_tick {S}.
Arguments cw_refused {S}.

(** Readings of the environment are numbered by [cw_tick]. *)
Record CompactEnv (S A : Type) := mkCompactEnv {
  ce_others : nat → Session → S → gset SessionId → Session * S * gset SessionId;
  ce_cancelled : nat → bool;
  ce_token : nat → token;
  ce_uuid : nat → string;
  ce_llm : nat → LlmRuntime A;
  ce_answer : nat → A → GenerateRequest →
    result TessivumError (list (result TessivumError StreamChunk));
  ce_poll : nat → nat → bool;
}.
Arguments ce_others {S A}.
Arguments ce_cancelled {S A}.
Arguments ce_token {S A}.
Arguments ce_uuid {S A}.
Arguments ce_llm {S A}.
Arguments ce_answer {S A}.
Arguments ce_poll {S A}.

Definition Compact (S R : Type) : Type := CompactWorld S → result CompactionError R * CompactWorld S.
#[export] Instance compact_ret S : MRet (Compact S) := λ R r w, (Ok r, w).
#[export] Instance compact_bind S : MBind (Compact S) := λ R T k m w,
  match m w with
  | (Ok r, w) => k r w
  | (Err e, w) => (Err e, w)
  end.

Module Service.

Definition fail {S R} (e : CompactionError) : Compact S R := λ w, (Err e, w).
Definition lift {S R} (r : result CompactionError R) : Compact S R := λ w, (r, w).
Definition attempt {S R} (m : Compact S R) : Compact S (result CompactionError R) := λ w,
  let '(r, w) := m w in (Ok r, w).
Definition the_world {S} : Compact S (CompactWorld S) := λ w, (Ok w, w).
Definition set_active {S} (active : gset SessionId) (w : CompactWorld S) : CompactWorld S :=
  mkCompactWorld (cw_session w) (cw_backend w) active (cw_tick w) (cw_refused w).

Section service.
Context `{ProtocolWire} `{CompactionWire} {S A : Type} `{SessionPersistence S}.
Context (env : CompactEnv S A) (svc : CompactionService).
#[local] Abbreviation cfg := (cs_config svc).

(** Other tasks run, then the environment is read. *)
Definition observe : Compact S nat := λ w,
  let '(s, b, a) := ce_others env (cw_tick w) (cw_session w) (cw_backend w) (cw_active w) in
  (Ok (cw_tick w), mkCompactWorld s b a (Datatypes.S (cw_tick w)) (cw_refused w)).

Definition is_cancelled : Compact S bool := n ← observe; mret (ce_cancelled env n).
Definition the_session : Compact S Session := _ ← observe; w ← the_world; mret (cw_session w).
Definition the_events : Compact S (list SessionEvent) :=
  s ← the_session; mret (st_events (s_state s)).
Definition the_surface : Compact S (list SurfaceMessage) :=
  s ← the_session; mret (st_surface (s_state s)).

Definition check_cancellation : Compact S unit :=
  cancelled ← is_cancelled; if (cancelled : bool) then fail CCancelled else mret tt.

Record AppendSpec := mkAppendSpec {
  as_event_type : string;
  as_data : Value;
  as_source_event_seqs : option (list N);
  as_surface_op : option SurfaceOp;
  as_expected_surface_event_seqs : option (list N);
  as_ignorable : option bool;
}.

Definition append_now (t : token) (spec : AppendSpec) : Compact S (result SessionError N) := λ w,
  let '(r, s, b) :=
    append_next_if_surface t
      (λ seq, mkEvent (as_event_type spec) seq 0 (as_data spec) (as_ignorable spec)
                (as_source_event_seqs spec) (as_surface_op spec))
      (as_expected_surface_event_seqs spec) (cw_session w) (cw_backend w) in
  (Ok r, mkCompactWorld s b (cw_active w) (cw_tick w)
           (cw_refused w ++ match r with
                            | Ok _ => []
                            | Err e => [mkRefusal (as_event_type spec) (as_data spec) e]
                            end)).

Definition append (spec : AppendSpec) : Compact S (result SessionError N) :=
  n ← observe; append_now (ce_token env n) spec.

(** [?] on a session's result. *)
Definition session {R} (r : result SessionError R) : Compact S R := lift (map_err CSession r).

Definition compaction_session_error (e : SessionError) : Compact S CompactionError :=
  cancelled ← is_cancelled;
  mret (if (cancelled : bool) then CCancelled
        else match e with ECancelled => CCancelled | e => CSession e end).

Definition open_turn : Compact S (option N) := events ← the_events; mret (open_turn_of events).

(** The token of the end is never cancelled. *)
Definition append_end (id : string) (turn : option N) (error : option CompactionError) :
    Compact S N :=
  let data := json_object [("compactionId", VString id); ("turn", json_option json_u64 turn)] in
  let data := match error with
              | Some e => set_key "error" (VString (CompactionError_text e)) data
              | None => data
              end in
  _ ← observe;
  r ← append_now live_token (mkAppendSpec "compaction/end" data None None None (Some true));
  session r.

Definition finish_error {R} (id : string) (e : CompactionError) : Compact S R :=
  turn ← open_turn; _ ← append_end id turn (Some e); fail e.

(** The exits through [finish_error] behind the start of a compaction. *)
Definition closing {R} (id : string) (m : Compact S R) : Compact S R :=
  r ← attempt m;
  match r with Ok x => mret x | Err e => finish_error id e end.

(** ** A summary *)

Definition summary_request (messages : list Message) (id : SessionId) : GenerateRequest :=
  mkGenerateRequest (cf_provider cfg) (cf_model cfg) None messages
    (Some (default DEFAULT_SYSTEM_PROMPT (cf_system cfg))) None None (cf_max_tokens cfg) None
    (Some id) (Some PurposeCompaction).

Definition complete (r : GenerateRequest) : Compact S (result TessivumError LlmGeneration) :=
  n ← observe;
  mret (Llm.complete (ce_answer env n) r (ce_uuid env n) (ce_poll env n) (ce_llm env n)).

Definition check_finish (reason : FinishReason) : result CompactionError unit :=
  match reason with
  | FinishStop => Ok tt
  | FinishAborted _ => Err CCancelled
  | FinishError failure =>
      Err (CLlm (TessivumError_new (lf_code failure) (lf_message failure) "llm"
                   (failure_value failure)))
  | FinishToolCalls | FinishMaxTokens =>
      Err (compaction_error "INVALID_COMPACTION_SUMMARY"
             "compaction summary must finish normally without tool calls"
             (json_object [("finishReason", finish_value reason)]))
  end.

Definition generate (plan : Plan) : Compact S (LlmGeneration * list ContentBlock) :=
  s ← the_session;
  generation ← complete (summary_request (pl_messages plan) (h_id (s_header s)));
  cancelled ← is_cancelled;
  if (cancelled : bool) then fail CCancelled
  else
    generation ← lift (map_err CLlm generation);
    _ ← lift (check_finish (gen_finish_reason generation));
    summary ← lift (summary_blocks (gen_message generation) (cf_max_summary_codepoints cfg));
    mret (generation, summary).

Definition summary_data (id : string) (plan : Plan) (g : LlmGeneration)
    (summary : list ContentBlock) : Value :=
  let shadowed := pl_shadowed_event_seqs plan in
  json_object
    [("compactionId", VString id); ("summary", content_value summary);
     ("rawOutput", content_value (m_content (gen_message g)));
     ("provider", VString (cf_provider cfg)); ("model", VString (cf_model cfg));
     ("llmStreamCall", VBool true);
     ("shadowedRange",
        json_object [("start", json_option json_u64 (head shadowed));
                     ("end", json_option json_u64 (last shadowed))]);
     ("shadowedSeqs", VArray (json_u64 <$> shadowed));
     ("shadowedTokenCount", json_u64 (pl_token_estimate plan));
     ("usage", json_option usage_value (gen_usage g))].

(** An append whose failure ends the attempt. *)
Definition append_or_close (spec : AppendSpec) : Compact S N :=
  r ← append spec;
  match r with
  | Ok seq => mret seq
  | Err e => e ← compaction_session_error e; fail e
  end.

Definition record_summary (id : string) (plan : Plan) (g : LlmGeneration)
    (summary : list ContentBlock) : Compact S N :=
  seq ← append_or_close
          (mkAppendSpec "compaction/summary" (summary_data id plan g summary) None None None
             (Some true));
  _ ← check_cancellation;
  mret seq.

Definition shrinks (plan : Plan) (replacement : Message) : result CompactionError unit :=
  let selected := sum_N (serialized_codepoints <$> pl_messages plan) in
  let size := serialized_codepoints replacement in
  if selected <=? size then
    Err (compaction_error "COMPACTION_NO_PROGRESS"
           "compaction summary does not reduce serialized input"
           (json_object [("selectedCodepoints", json_u64 selected);
                         ("replacementCodepoints", json_u64 size)]))
  else Ok tt.

Definition replace_region (plan : Plan) (fin start_seq summary_seq : N) (replacement : Message) :
    Compact S N :=
  append_or_close
    (mkAppendSpec "user/message" (to_value replacement)
       (Some (start_seq :: summary_seq :: pl_shadowed_event_seqs plan))
       (Some (Replace (rg_start (pl_range plan)) fin))
       (Some (pl_expected_surface_event_seqs plan)) None).

(** This failure leaves the attempt open; a planned region has no such bound. *)
Definition exclusive_end (r : CompactionRange) : result CompactionError N :=
  ok_or (u64_checked_add (rg_end r) 1)
    (compaction_error "INVALID_COMPACTION_REGION"
       "compaction range end cannot be represented as an exclusive bound"
       (json_object [("end", json_u64 (rg_end r))])).

Definition fits_summary_model (plan : Plan) (id : SessionId) : result CompactionError unit :=
  if from_option (λ limit, limit <? sum_N (message_token_estimate <$> pl_messages plan)) false
       (summary_token_limit svc id) then
    Err (compaction_error "COMPACTION_INPUT_TOO_LARGE"
           "Selected history exceeds the summary model's available input budget." VNull)
  else Ok tt.

Definition execute (trigger : CompactionTrigger) (plan : Plan) : Compact S CompactionResult :=
  _ ← check_cancellation;
  s ← the_session;
  _ ← lift (fits_summary_model plan (h_id (s_header s)));
  n ← observe;
  let id := ce_uuid env n in
  turn ← open_turn;
  started ← append
    (mkAppendSpec "compaction/start"
       (json_object [("compactionId", VString id); ("turn", json_option json_u64 turn)])
       None None None (Some true));
  start_seq ← session started;
  '(summary_seq, replacement) ← closing id
    (g ← generate plan;
     summary_seq ← record_summary id plan g.1 g.2;
     let replacement := summary_message start_seq id g.2 in
     _ ← lift (shrinks plan replacement);
     mret (summary_seq, replacement));
  fin ← lift (exclusive_end (pl_range plan));
  replacement_seq ← closing id (replace_region plan fin start_seq summary_seq replacement);
  end_seq ← append_end id turn None;
  mret (mkCompactionResult id trigger (pl_range plan) (pl_shadowed_event_seqs plan)
          (pl_token_estimate plan) (mkSeqs start_seq summary_seq replacement_seq end_seq)).

(** ** Pruning *)

Definition source_details (seq : N) : Value := json_object [("sourceEventSeq", json_u64 seq)].

(** The message that replaces a tool result, with the code points of the result
    and of what it keeps; [None] when the result is within its bound. *)
Definition pruned (e : SurfaceMessage) (max_codepoints : N) :
    result CompactionError (N * option (N * Message)) :=
  let seq := sm_event_seq e in
  '(call_id, content, is_error) ← tool_result e;
  if negb (forallb is_text content) then
    Err (compaction_error "COMPACTION_UNSHRINKABLE_TOOL_RESULT"
           "only text tool results may be pruned automatically" (source_details seq))
  else
    let original := tool_output_text content in
    let size := serialized_codepoints (sm_message e) in
    if size <=? max_codepoints then Ok (codepoints original, None)
    else
      let marker := prune_marker seq in
      let overhead := serialized_codepoints (pruned_message seq call_id marker is_error) in
      if max_codepoints <? overhead then
        Err (compaction_error "COMPACTION_UNSHRINKABLE_TOOL_RESULT"
               "Tool call metadata and truncation notice alone exceed the available serialized budget; shorten tool arguments or output."
               (json_object [("sourceEventSeq", json_u64 seq); ("minimum", json_u64 overhead);
                             ("maximum", json_u64 max_codepoints)]))
      else
        let text := string_of (fitting_prefix (max_codepoints - overhead) (bytes_of original))
                    +:+ marker in
        let replacement := pruned_message seq call_id text is_error in
        if (max_codepoints <? serialized_codepoints replacement)
           || (size <=? serialized_codepoints replacement) then
          Err (compaction_error "COMPACTION_NO_PROGRESS"
                 "Tool-result pruning cannot reduce serialized input within its budget."
                 (source_details seq))
        else Ok (codepoints original, Some (codepoints text, replacement)).

Definition prune_tool_result_locked (source_event_seq max_codepoints : N) :
    Compact S ToolResultPruneOutcome :=
  _ ← check_cancellation;
  if max_codepoints =? 0 then
    fail (compaction_error "INVALID_TOOL_RESULT_PRUNE_BOUND"
            "tool-result prune bound must be positive" VNull)
  else
    surface ← the_surface;
    '(position, e) ← lift (ok_or
       (List.find (λ ie : nat * SurfaceMessage, sm_event_seq ie.2 =? source_event_seq)
          (imap pair surface))
       (compaction_error "INACTIVE_TOOL_RESULT" "tool-result source is not on the current surface"
          (source_details source_event_seq)));
    '(original, replacement) ← lift (pruned e max_codepoints);
    match replacement with
    | None => mret (PruneNoop source_event_seq original)
    | Some (retained, replacement) =>
        let r := mkRange (N.of_nat position) (N.of_nat position) in
        appended ← append
          (mkAppendSpec "tool/result"
             (json_object
                [("message", to_value replacement);
                 ("pruned", json_object [("sourceEventSeq", json_u64 source_event_seq);
                                         ("originalCodepoints", json_u64 original);
                                         ("retainedCodepoints", json_u64 retained)])])
             (Some [source_event_seq]) (Some (Replace (rg_start r) (rg_end r + 1)))
             (Some (sm_event_seq <$> surface)) None);
        seq ← session appended;
        mret (ResultPruned (mkPruneResult r source_event_seq seq original retained))
    end.

(** ** Recovery *)

Definition request_limit (r : GenerateRequest) (context_window : option N) : option N :=
  let window := match context_window with
                | Some window => Some window
                | None => resolver ← cs_context_window_resolver svc;
                          resolver (gr_provider r) (gr_model r)
                end in
  (λ window, soft_limit (u64_saturating_sub window
               (default (N.max (window / 4) 1) (gr_max_tokens r)))) <$> window.

Definition minimum_summary (next_seq : N) : N :=
  serialized_codepoints
    (summary_message next_seq "00000000-0000-0000-0000-000000000000" [Text "."]).

Definition limits (r : GenerateRequest) (context_window : option N) (id : SessionId)
    (initial : list SurfaceMessage) (next_seq : N) : Limits :=
  let summary_limit := summary_token_limit svc id in
  let target_cp := soft_limit (cf_max_input_codepoints cfg) in
  {| li_request := request_limit r context_window;
     li_summary := summary_limit;
     li_input := from_option (λ limit, u64_saturating_mul limit 4) (cf_max_input_codepoints cfg)
                   summary_limit;
     li_target_cp := target_cp;
     li_target_count := soft_limit (cf_max_surface_messages cfg);
     li_keep := N.max (N.min (target_cp / 4) (sum_N (sizes initial) / 4)) 1;
     li_minimum_summary := minimum_summary next_seq |}.

(** The tokens of the request beside the surface. *)
Definition request_overhead (r : GenerateRequest) (initial : list SurfaceMessage) : N :=
  u64_saturating_add (serialized_request_without_messages r)
    (sum_N (message_token_estimate <$>
       filter (λ m, m_id m ∉ ((λ e, m_id (sm_message e)) <$> initial)) (gr_messages r))).

Definition too_large (completed : N) (li : Limits) (current : list SurfaceMessage)
    (total_tokens : N) : CompactionError :=
  let cp := total_cp current in
  compaction_error "COMPACTION_PROTECTED_INPUT_TOO_LARGE"
    ("Recovery stopped after " +:+ fmt_N completed +:+ " committed summaries: " +:+ fmt_N cp
     +:+ " codepoints / " +:+ fmt_N (li_target_cp li) +:+ ", "
     +:+ fmt_N (N.of_nat (length current)) +:+ " messages / " +:+ fmt_N (li_target_count li)
     +:+ ", estimated " +:+ fmt_N total_tokens
     +:+ " tokens. Seed/current input, pending tools, recent context, or one indivisible tool group cannot fit. Shorten the protected input or tool output; committed recovery is retained.")
    (json_object [("completed", json_u64 completed); ("codepoints", json_u64 cp);
                  ("maximum", json_u64 (li_target_cp li))]).

Definition no_progress (completed : N) : CompactionError :=
  compaction_error "COMPACTION_NO_PROGRESS"
    "Recovery exhausted its finite progress bound; committed history is retained."
    (json_object [("completed", json_u64 completed)]).

(** The estimate of a step; before the first change the provider's count of the
    last request is a lower bound. *)
Definition total_tokens (r : GenerateRequest) (overhead : N) (outcome : option CompactionOutcome)
    (current : list SurfaceMessage) : Compact S N :=
  let total := u64_saturating_add overhead (sum_N (estimates current)) in
  match outcome with
  | None => events ← the_events; mret (N.max total (recent_usage_estimate events r current))
  | Some _ => mret total
  end.

Section recovery.
Context (trigger : CompactionTrigger) (r : GenerateRequest) (seeds : list N) (li : Limits).
Context (overhead : N).

Definition settled (outcome : option CompactionOutcome) (total : N) : CompactionOutcome :=
  default (Noop trigger total) outcome.

Inductive Step :=
| Return (outcome : CompactionOutcome)
| Continue (outcome : CompactionOutcome) (completed : N).

(** The body of the loop behind the choice of a region; [None]: nothing was
    pruned. *)
Definition try_prune (current : list SurfaceMessage) : Compact S (option ToolResultPruneResult) :=
  match prunable cfg seeds li current with
  | None => mret None
  | Some e =>
      outcome ← prune_tool_result_locked (sm_event_seq e) (prune_cap cfg li);
      match outcome with
      | ResultPruned p => mret (Some p)
      | PruneNoop _ _ => mret None
      end
  end.

Definition recovery_step (outcome : option CompactionOutcome) (completed : N) : Compact S Step :=
  _ ← check_cancellation;
  current ← the_surface;
  total ← total_tokens r overhead outcome current;
  let pressured := pressured li current total in
  if negb pressured && (bool_decide (trigger = Pressure) || bool_decide (is_Some outcome)) then
    mret (Return (settled outcome total))
  else
    match (selection cfg seeds li current).1 with
    | Some range =>
        plan ← lift (plan_from_surface cfg current range (li_input li));
        result ← execute trigger plan;
        mret (Continue (Compacted result) (completed + 1))
    | None =>
        p ← try_prune current;
        match p with
        | Some p => mret (Continue (Pruned p) completed)
        | None =>
            if negb pressured && bool_decide (trigger = Manual) then
              mret (Return (settled outcome total))
            else fail (too_large completed li current total)
        end
    end.

(** [for _ in 0..max_steps]. *)
Fixpoint recover (steps : nat) (outcome : option CompactionOutcome) (completed : N) :
    Compact S CompactionOutcome :=
  match steps with
  | O => fail (no_progress completed)
  | Datatypes.S steps =>
      step ← recovery_step outcome completed;
      match step with
      | Return outcome => mret outcome
      | Continue outcome completed => recover steps (Some outcome) completed
      end
  end.
End recovery.

(** ** Leases and entry points *)

Definition acquire (id : SessionId) : Compact S unit := λ w,
  if bool_decide (id ∈ cw_active w) then (Err (CBusy id), w)
  else (Ok tt, set_active ({[ id ]} ∪ cw_active w) w).

(** [Drop] of the lease. *)
Definition release (id : SessionId) : Compact S unit := λ w,
  (Ok tt, set_active (cw_active w ∖ {[ id ]}) w).

Definition leased {R} (m : Compact S R) : Compact S R :=
  s ← the_session;
  let id := h_id (s_header s) in
  _ ← acquire id;
  r ← attempt m;
  _ ← observe;
  _ ← release id;
  lift r.

Definition compact_for_request (trigger : CompactionTrigger) (r : GenerateRequest)
    (context_window : option N) : Compact S CompactionOutcome :=
  _ ← check_cancellation;
  leased
    (initial ← the_surface;
     s ← the_session;
     let seeds := ev_seq <$> seed_events s in
     s ← the_session;
     next ← session (next_seq (st_events (s_state s)));
     let li := limits r context_window (h_id (s_header s)) initial next in
     recover trigger r seeds li (request_overhead r initial) (length initial * 2 + 1) None 0).

Definition compact_automatic (trigger : CompactionTrigger) : Compact S CompactionOutcome :=
  s ← the_session;
  compact_for_request trigger
    (mkGenerateRequest (cf_provider cfg) (cf_model cfg) None (derive_messages s) None None None
       None None (Some (h_id (s_header s))) None) None.

Definition compact_now : Compact S CompactionOutcome := compact_automatic Manual.

Definition compact_for_trigger (trigger : CompactionTrigger) : Compact S CompactionOutcome :=
  if bool_decide (trigger = Manual) then
    fail (compaction_error "INVALID_COMPACTION_TRIGGER"
            "automatic compaction requires pressure or context-overflow" VNull)
  else compact_automatic trigger.

Definition compact_region (range : CompactionRange) : Compact S CompactionResult :=
  _ ← check_cancellation;
  leased
    (surface ← the_surface;
     plan ← lift (plan_from_surface cfg surface range (cf_max_input_codepoints cfg));
     execute Manual plan).

Definition prune_tool_result (source_event_seq max_codepoints : N) :
    Compact S ToolResultPruneOutcome :=
  _ ← check_cancellation;
  leased (prune_tool_result_locked source_event_seq max_codepoints).
End service.
End Service.
