(* ===== verification/AgentLoop.v ===== *)
(** * The agent loop (agent_loop.rs): turns and steps of one agent

    A turn is a sequence of steps; a step shows the log to the model, records
    what it streams, runs the tools it calls and records their results.  The
    loop is a computation over the session, its back end, the live inbox and the
    loop's own memory of the last request header.  Everything it observes is the
    environment's: the clock, the cancellation token at each reading, the streams
    of the providers, the outputs of the tools, the answers of the compaction and
    of the skills, and, before each append and after each call, what other tasks
    have done to the session and the inbox ([le_others]).  Readings are numbered
    by [w_tick].  The concurrency of the tool calls of one step is not visible:
    their outputs are arbitrary and are recorded in the order of the calls.
    Derived serialisers and the text form of JSON are parameters. *)

From S2P Require Import Prelude Json Protocol Compaction Session AgentInbox Permissions Tools Llm.
From S2P Require Import SystemPrompt SkillText.

#[local] Open Scope N_scope.

Class LoopWire := {
  loop_compaction :: CompactionWire;
  chunk_value : StreamChunk → Value;
  reason_value : TurnEndReason → Value;
  header_value : EpochHeader → Value;
  parse_json : string → result string Value;
  agent_error_text : AgentError → string;
}.

Definition RUNTIME_CONTEXT_SOURCE : string := "tessivum/runtime-context".
Definition INSTRUCTIONS_SOURCE : string := "tessivum-workspace-instructions".
Definition SKILL_SOURCE : string := "@deepseek-ai/dsh-tool-skill".

(** The immutable fields of [Inner]. *)
Record LoopConfig := mkConfig {
  lc_options : AgentOptions;
  lc_prompt_complete : bool;
  lc_prompt_section : Prompt.PromptSection;
  lc_context_window : string → string → option N;
  lc_max_steps : N;
}.

(** [w_header] and [w_header_reason] are [last_request_header] and
    [next_request_header_reason]. *)
Record World (S : Type) := mkWorld {
  w_session : Session;
  w_backend : S;
  w_inbox : Inbox.InboxState;
  w_header : option Value;
  w_header_reason : option string;
  w_tick : nat;
}.
Arguments mkWorld {S}.
Arguments w_session {S}.
Arguments w_backend {S}.
Arguments w_inbox {S}.
Arguments w_header {S}.
Arguments w_header_reason {S}.
Arguments w_tick {S}.

(** [A] is the type of provider adapters.  [le_compact] is [None] when the mode
    has no compaction. *)
Record LoopEnv (S A : Type) := mkLoopEnv {
  le_others : nat → Session → S → Inbox.InboxState → Session * S * Inbox.InboxState;
  le_cancelled : nat → bool;
  le_cause : nat → option AgentCancelCause;
  le_token : nat → token;
  le_clock : nat → N;
  le_uuid : nat → string;
  le_random : nat → f64;
  le_llm : nat → LlmRuntime A;
  le_answer : nat → A → GenerateRequest →
    result TessivumError (list (result TessivumError StreamChunk));
  le_poll : nat → nat → bool;
  le_schemas : nat → list ToolSchema;
  le_code_description : nat → option string;
  le_prompt : nat → Prompt.State;
  le_execute : nat → nat → ToolCallId → string → Value → ToolOutput;
  le_compact : option (nat → CompactionTrigger → GenerateRequest → option N → Session → S →
    result CompactionError CompactionOutcome * Session * S);
  le_catalog : nat → option (result TessivumError SkillCatalog);
  le_skill : nat → string → result TessivumError LoadedSkill;
  le_instructions : nat → string → option string;
}.
Arguments le_others {S A}.
Arguments le_cancelled {S A}.
Arguments le_cause {S A}.
Arguments le_token {S A}.
Arguments le_clock {S A}.
Arguments le_uuid {S A}.
Arguments le_random {S A}.
Arguments le_llm {S A}.
Arguments le_answer {S A}.
Arguments le_poll {S A}.
Arguments le_schemas {S A}.
Arguments le_code_description {S A}.
Arguments le_prompt {S A}.
Arguments le_execute {S A}.
Arguments le_compact {S A}.
Arguments le_catalog {S A}.
Arguments le_skill {S A}.
Arguments le_instructions {S A}.

(** An early end of a computation: an error, a panic, or the end of the fuel
    given to the attempts of one generation. *)
Inductive stop := Failed (e : AgentError) | Panicked | OutOfFuel.

Definition Loop (S R : Type) : Type := World S → result stop R * World S.
#[export] Instance loop_ret S : MRet (Loop S) := λ R r w, (Ok r, w).
#[export] Instance loop_bind S : MBind (Loop S) := λ R T k m w,
  match m w with
  | (Ok r, w) => k r w
  | (Err e, w) => (Err e, w)
  end.

Definition fail {S R} (e : stop) : Loop S R := λ w, (Err e, w).
Definition lift {S R} (r : result AgentError R) : Loop S R :=
  match r with Ok x => mret x | Err e => fail (Failed e) end.

(** A call whose error the caller looks at. *)
Definition attempt {S R} (m : Loop S R) : Loop S (result AgentError R) := λ w,
  match m w with
  | (Ok x, w) => (Ok (Ok x), w)
  | (Err (Failed e), w) => (Ok (Err e), w)
  | (Err e, w) => (Err e, w)
  end.

(** [for x in l { f(x)?; }]. *)
Fixpoint each {S T} (f : T → Loop S unit) (l : list T) : Loop S unit :=
  match l with
  | [] => mret tt
  | x :: l => _ ← f x; each f l
  end.

Definition events_of {S} (w : World S) : list SessionEvent := st_events (s_state (w_session w)).
Definition the_world {S} : Loop S (World S) := λ w, (Ok w, w).
Definition put_inbox {S} (i : Inbox.InboxState) (w : World S) : World S :=
  mkWorld (w_session w) (w_backend w) i (w_header w) (w_header_reason w) (w_tick w).
Definition put_session {S} (s : Session) (b : S) (w : World S) : World S :=
  mkWorld s b (w_inbox w) (w_header w) (w_header_reason w) (w_tick w).

Section loop.
Context `{ProtocolWire} `{LoopWire} {S A : Type} `{SessionPersistence S}.
Context (env : LoopEnv S A) (cfg : LoopConfig).

(** Other tasks run, then the environment is read. *)
Definition observe : Loop S nat := λ w,
  let '(s, b, i) := le_others env (w_tick w) (w_session w) (w_backend w) (w_inbox w) in
  (Ok (w_tick w), mkWorld s b i (w_header w) (w_header_reason w) (Datatypes.S (w_tick w))).

Definition is_cancelled : Loop S bool := n ← observe; mret (le_cancelled env n).
Definition the_session : Loop S Session := _ ← observe; w ← the_world; mret (w_session w).
Definition the_events : Loop S (list SessionEvent) :=
  s ← the_session; mret (st_events (s_state s)).

Definition append_now (t : token) (build : N → SessionEvent) : Loop S N := λ w,
  let '(r, s, b) := append_next t build (w_session w) (w_backend w) in
  (map_err (λ e, Failed (ASession e)) r, put_session s b w).

(** The finalization token is never cancelled. *)
Definition append (type : string) (data : Value) (sources : option (list N))
    (op : option SurfaceOp) : Loop S N :=
  cancelled ← is_cancelled;
  n ← observe;
  append_now (if (cancelled : bool) then live_token else le_token env n)
    (λ seq, mkEvent type seq (le_clock env n) data None sources op).

(** ** Turns and steps in the log *)

Definition next_turn (events : list SessionEvent) : N :=
  u64_saturating_add
    (foldr N.max 0 (omap (λ e, get_u64 "turn" (ev_data e))
                      (filter (λ e, event_type e = "turn/start") events))) 1.

Definition aborted : Loop S TurnEndReason :=
  n ← observe;
  mret (TurnAborted (from_option TurnEndCancelCause_from EndLegacy (le_cause env n))).

Definition end_turn (turn : N) (reason : TurnEndReason) : Loop S unit :=
  cancelled ← is_cancelled;
  reason ← (if (cancelled : bool) then aborted else mret reason);
  _ ← append "turn/end" (json_object [("turn", json_u64 turn); ("reason", reason_value reason)])
        None None;
  mret tt.

Definition close_step (turn step : N) : Loop S unit :=
  _ ← append "step/end" (json_object [("turn", json_u64 turn); ("step", json_u64 step)]) None None;
  mret tt.

Definition close_cancelled_step (turn step : N) : Loop S unit :=
  _ ← close_step turn step; reason ← aborted; end_turn turn reason.

Definition append_message (type : string) (turn step : N) (message : Message)
    (sources : option (list N)) (meta : option Value) : Loop S unit :=
  let data := if String.eqb type "user/message" then to_value message
              else json_object [("turn", json_u64 turn); ("step", json_u64 step);
                                ("message", to_value message)] in
  let data := match meta with Some meta => set_key "meta" meta data | None => data end in
  _ ← append type data sources (Some Append); mret tt.

Definition append_assistant (turn step : N) (message : Message) (usage : option TokenUsage)
    (sources : list N) : Loop S unit :=
  let data := json_object [("turn", json_u64 turn); ("step", json_u64 step);
                           ("message", to_value message)] in
  let data := match usage with
              | Some usage => set_key "usage" (usage_value usage) data
              | None => data
              end in
  _ ← append "assistant/message" data (Some sources) (Some Append); mret tt.

(** ** Claims from the inbox *)

(** Dropping an unfinished reservation releases it. *)
Definition release_on_error {R} (r : Inbox.InboxClaimReservation) (m : Loop S R) : Loop S R := λ w,
  match m w with
  | (Ok x, w) => (Ok x, w)
  | (Err e, w) => (Err e, put_inbox (Inbox.abort_claim (Inbox.cr_entries r) (w_inbox w)) w)
  end.

Definition durable_inbox_claim (events : list SessionEvent) (messages : list Message) : bool :=
  negb (bool_decide (messages = [])) &&
  forallb (λ m, existsb (λ e, String.eqb (event_type e) "agent/inbox/enqueued" &&
                  bool_decide (pointer ["message"; "id"] (ev_data e) ≫= as_str = Some (m_id m)))
                events) messages.

(** [InboxClaimReservation::commit] under the inbox's lock. *)
Definition commit_reserved (r : Inbox.InboxClaimReservation) : Loop S (list Message) := λ w,
  match Inbox.claim_commit r (w_inbox w) with
  | None => (Err Panicked, w)
  | Some (Some messages, i) => (Ok messages, put_inbox i w)
  | Some (None, i) =>
      (Err (Failed (ARuntime "inbox claim reservation was lost")), put_inbox i w)
  end.

Definition commit_inbox_claim (r : Inbox.InboxClaimReservation) : Loop S (list Message) :=
  events ← the_events;
  _ ← (if durable_inbox_claim events (Inbox.cr_messages r) then
         release_on_error r
           (append "agent/inbox/spliced"
              (json_object
                 [("target", VString (Inbox.cr_target r)); ("start", json_u64 0);
                  ("removedCount", json_u64 (N.of_nat (length (Inbox.cr_messages r))));
                  ("inserted", VArray [])]) None None)
       else mret 0);
  _ ← observe;
  commit_reserved r.

Definition at_inbox {R} (f : Inbox.InboxState → R * Inbox.InboxState) : Loop S R := λ w,
  let '(r, i) := f (w_inbox w) in (Ok r, put_inbox i w).
Definition reserve {R} (f : Inbox.InboxState → R * Inbox.InboxState) : Loop S R :=
  _ ← observe; at_inbox f.

Definition claim_next_turn : Loop S (option Message) :=
  r ← reserve Inbox.reserve_next_turn_claim;
  match r with
  | None => mret None
  | Some r => messages ← commit_inbox_claim r; mret (last messages)
  end.

Definition claim_step_batch : Loop S (list Message) :=
  r ← reserve Inbox.reserve_step_batch_claim;
  match r with
  | None => mret []
  | Some r => commit_inbox_claim r
  end.

(** ** Context messages *)

Definition skill_message (id : string) (text : string) (source : MessageSource) : Message :=
  mkMessage id RoleUser [Text text] source.

Definition catalog_message (turn step : N) (c : SkillCatalog) : Message :=
  skill_message ("skill-catalog-" +:+ fmt_N turn +:+ "-" +:+ fmt_N step) (model_catalog c)
    (SourcePlugin SKILL_SOURCE None (Some Catalog) None None).

Definition is_catalog (m : Message) : bool :=
  match m_source m with
  | SourcePlugin plugin _ (Some Catalog) _ _ => String.eqb plugin SKILL_SOURCE
  | _ => false
  end.

Definition append_skill (turn step : N) (e : nat * string) : Loop S unit :=
  n ← observe;
  skill ← lift (map_err AMessage (le_skill env n e.2));
  append_message "user/message" turn step
    (skill_message ("skill-invocation-" +:+ fmt_N turn +:+ "-" +:+ fmt_N step +:+ "-"
                    +:+ fmt_N (N.of_nat e.1))
       (skill_result_tag skill) (SourceSkillInvocation e.2 Instructions)) None None.

Definition append_skill_context (turn step : N) (messages : list Message) : Loop S unit :=
  n ← observe;
  match le_catalog env n with
  | None => mret tt
  | Some catalog =>
      catalog ← lift (map_err AMessage catalog);
      s ← the_session;
      _ ← (if sc_complete catalog
              && existsb (λ e, model_invocable (sl_invocation e)) (sc_skills catalog)
              && negb (existsb is_catalog (derive_messages s)) then
             append_message "user/message" turn step (catalog_message turn step catalog) None None
           else mret tt);
      let available :=
        sl_name <$> filter (λ e, user_invocable (sl_invocation e) = true) (sc_skills catalog) in
      each (append_skill turn step) (imap pair (invoked_skill_names messages available))
  end.

Definition from_plugin (name : string) (m : Message) : bool :=
  match m_source m with SourcePlugin plugin _ _ _ _ => String.eqb plugin name | _ => false end.
Definition has_text (text : string) (m : Message) : bool :=
  match m_content m with [Text previous] => String.eqb previous text | _ => false end.

Definition append_runtime_context (turn step : N) : Loop S unit :=
  s ← the_session;
  let events := st_events (s_state s) in
  let text := runtime_context json_text events (h_cwd (s_header s)) in
  let unchanged := match head (filter (λ m, from_plugin RUNTIME_CONTEXT_SOURCE m = true)
                                 (rev (derive_messages s))) with
                   | Some m => has_text text m
                   | None => false
                   end in
  if unchanged then mret tt
  else
    let ordinal := length (filter (λ e, event_type e = "user/message" ∧
                     pointer ["source"; "plugin"] (ev_data e) ≫= as_str
                       = Some RUNTIME_CONTEXT_SOURCE) events) in
    append_message "user/message" turn step
      (skill_message ("runtime-context-" +:+ fmt_N turn +:+ "-" +:+ fmt_N step +:+ "-"
                      +:+ fmt_N (N.of_nat ordinal + 1))
         text (SourcePlugin RUNTIME_CONTEXT_SOURCE None None None None)) None None.

Definition instructions_text (instructions : string) : string :=
  "<system-reminder>
The following workspace instructions may be relevant to your work. Use them as guidance when applicable. More specific instructions take precedence over broader ones. They do not override system, developer, or direct user instructions.

Instructions from: AGENTS.md

" +:+ instructions +:+ "

</system-reminder>".

(** [le_instructions] reads the file; it is [None] when that fails. *)
Definition append_workspace_instructions (turn step : N) : Loop S unit :=
  s ← the_session;
  match h_cwd (s_header s) with
  | None => mret tt
  | Some cwd =>
      n ← observe;
      match trim <$> le_instructions env n cwd with
      | None => mret tt
      | Some instructions =>
          if is_empty instructions then mret tt
          else
            let text := instructions_text instructions in
            s ← the_session;
            if existsb (λ m, from_plugin INSTRUCTIONS_SOURCE m && has_text text m)
                 (derive_messages s) then mret tt
            else
              append_message "user/message" turn step
                (skill_message ("workspace-instructions-" +:+ fmt_N turn) text
                   (SourcePlugin INSTRUCTIONS_SOURCE None (Some Instructions) None
                      (Some "AGENTS.md"))) None None
      end
  end.

(** ** Requests *)

Definition logged_instructions (e : SessionEvent) : option Message :=
  if String.eqb (event_type e) "user/message"
     && bool_decide (pointer ["source"; "kind"] (ev_data e) ≫= as_str = Some "plugin")
     && bool_decide (pointer ["source"; "plugin"] (ev_data e) ≫= as_str = Some INSTRUCTIONS_SOURCE)
  then match from_value (A := Message) (ev_data e) with Ok m => Some m | Err _ => None end
  else None.

Definition request_messages (s : Session) : list Message :=
  let messages := derive_messages s in
  match head (omap logged_instructions (rev (st_events (s_state s)))) with
  | Some instructions =>
      if existsb (λ m, String.eqb (m_id m) (m_id instructions)) messages then messages
      else messages ++ [instructions]
  | None => messages
  end.

Definition with_messages (messages : list Message) (r : GenerateRequest) : GenerateRequest :=
  mkGenerateRequest (gr_provider r) (gr_model r) (gr_reasoning_effort r) messages (gr_system r)
    (gr_tools r) (gr_temperature r) (gr_max_tokens r) (gr_stop r) (gr_session_id r) (gr_purpose r).

(** The first schema of that name gets the description. *)
Fixpoint describe_code (description : string) (l : list ToolSchema) : list ToolSchema :=
  match l with
  | [] => []
  | s :: l =>
      if String.eqb (ts_name s) "run_code" then
        mkToolSchema (ts_name s) description (ts_parameters s) :: l
      else s :: describe_code description l
  end.

Definition filter_empty (s : string) : option string := if is_empty s then None else Some s.
Definition nonempty {T} (l : list T) : option (list T) := match l with [] => None | _ => Some l end.

(** [Display] of a [TessivumError] is [code: message]. *)
Definition build_request : Loop S GenerateRequest :=
  n ← observe;
  let schemas := match le_code_description env n with
                 | Some description => describe_code description (le_schemas env n)
                 | None => le_schemas env n
                 end in
  '(system, tools) ←
    (if lc_prompt_complete cfg then
       mret (Some (Prompt.sn_text (lc_prompt_section cfg)), schemas)
     else
       assembly ← lift (map_err (λ e, ARuntime (error_text e))
                    (Prompt.assemble [lc_prompt_section cfg] schemas (le_prompt env n)));
       mret (filter_empty (Prompt.as_text assembly), Prompt.as_tools assembly));
  s ← the_session;
  let o := lc_options cfg in
  mret (mkGenerateRequest (ao_provider o) (ao_model o) (ao_reasoning_effort o) (request_messages s)
          system (nonempty tools) None (ao_max_tokens o) None (Some (h_id (s_header s))) None).

Definition context_window (r : GenerateRequest) : option N :=
  lc_context_window cfg (gr_provider r) (gr_model r).

Definition compacted {R} (f : Session → S → R * Session * S) : Loop S (option R) := λ w,
  let '(outcome, s, b) := f (w_session w) (w_backend w) in (Ok (Some outcome), put_session s b w).

Definition changed (o : CompactionOutcome) : bool :=
  match o with Noop _ _ => false | Compacted _ | Pruned _ => true end.

(** Whether the log was compacted or pruned; [None]: the mode has no compaction. *)
Definition compact (trigger : CompactionTrigger) (r : GenerateRequest) :
    Loop S (option (result CompactionError bool)) :=
  match le_compact env with
  | None => mret None
  | Some f =>
      n ← observe;
      outcome ← compacted (f n trigger r (context_window r));
      mret ((λ o : result CompactionError CompactionOutcome, changed <$> o) <$> outcome)
  end.

Definition is_context_overflow (code : string) : bool :=
  existsb (String.eqb code)
    ["CONTEXT_OVERFLOW"; "CONTEXT_WINDOW_EXCEEDED"; "CONTEXT_LENGTH_EXCEEDED"].

Definition compact_context_overflow (r : GenerateRequest) : Loop S (result CompactionError bool) :=
  outcome ← compact ContextOverflow r; mret (default (Ok false) outcome).

Definition compaction_failure (e : CompactionError) : LlmFailure :=
  mkFailure (CompactionError_text e) (CompactionError_code e) None None None.

Definition end_with_failure (turn step : N) (error : LlmFailure) : Loop S unit :=
  _ ← close_step turn step; end_turn turn (TurnError error).

Definition effective_header (r : GenerateRequest) : Value :=
  header_value
    (mkEpochHeader
       (mkCallConfig (gr_provider r) (gr_model r) (gr_reasoning_effort r) (gr_temperature r)
          (gr_max_tokens r) (gr_stop r)) None (gr_system r) (gr_tools r)).

(** Values are compared as [serde_json] compares them. *)
Definition request_header_reason (header : Value) (w : World S) : option string :=
  match w_header_reason w with
  | Some reason => Some reason
  | None => if from_option (λ previous, value_eqb previous header) false (w_header w) then None
            else Some "change"
  end.

Definition record_request_header (header : Value) : Loop S unit := λ w,
  (Ok tt, mkWorld (w_session w) (w_backend w) (w_inbox w) (Some header) None (w_tick w)).

Definition append_header (r : GenerateRequest) : Loop S unit :=
  let header := effective_header r in
  w ← the_world;
  match request_header_reason header w with
  | None => mret tt
  | Some reason =>
      _ ← append "request/header" (json_object [("header", header); ("reason", VString reason)])
            None None;
      record_request_header header
  end.

Definition request_context (r : GenerateRequest) : Value :=
  let context := json_object [("provider", VString (gr_provider r)); ("model", VString (gr_model r))] in
  match context_window r with
  | Some window => set_key "contextWindow" (json_u64 window) context
  | None => context
  end.

Definition append_context (r : GenerateRequest) : Loop S unit :=
  let context := request_context r in
  events ← the_events;
  let previous := ev_data <$> head (filter (λ e, event_type e = "request/context") (rev events)) in
  if from_option (λ p, value_eqb p context) false previous then mret tt
  else _ ← append "request/context" context None None; mret tt.
End loop.
