(* ===== verification/AgentTurn.v ===== *)
(** * Turns of the agent loop (agent_loop.rs)

    One generation with its attempts and retries, the tool calls of a step, the
    steps of a turn and the turn itself, over the computations of [AgentLoop].
    The attempts of one generation are a loop without a bound of its own: they
    take fuel.  The steps are bounded by [lc_max_steps]. *)

From S2P Require Import Prelude Json Protocol Compaction Session AgentInbox Tools Llm AgentLoop.

#[local] Open Scope N_scope.

Section turn.
Context `{ProtocolWire} `{LoopWire} {S A : Type} `{SessionPersistence S}.
Context (env : LoopEnv S A) (cfg : LoopConfig).

#[local] Abbreviation observe := (AgentLoop.observe env).
#[local] Abbreviation is_cancelled := (AgentLoop.is_cancelled env).
#[local] Abbreviation the_session := (AgentLoop.the_session env).
#[local] Abbreviation the_events := (AgentLoop.the_events env).
#[local] Abbreviation append := (AgentLoop.append env).
#[local] Abbreviation aborted := (AgentLoop.aborted env).
#[local] Abbreviation end_turn := (AgentLoop.end_turn env).
#[local] Abbreviation close_step := (AgentLoop.close_step env).
#[local] Abbreviation close_cancelled_step := (AgentLoop.close_cancelled_step env).
#[local] Abbreviation append_message := (AgentLoop.append_message env).
#[local] Abbreviation append_assistant := (AgentLoop.append_assistant env).
#[local] Abbreviation claim_step_batch := (AgentLoop.claim_step_batch env).
#[local] Abbreviation append_skill_context := (AgentLoop.append_skill_context env).
#[local] Abbreviation append_runtime_context := (AgentLoop.append_runtime_context env).
#[local] Abbreviation append_workspace_instructions := (AgentLoop.append_workspace_instructions env).
#[local] Abbreviation end_with_failure := (AgentLoop.end_with_failure env).
#[local] Abbreviation append_header := (AgentLoop.append_header env).
#[local] Abbreviation reserve := (AgentLoop.reserve env).
#[local] Abbreviation build_request := (AgentLoop.build_request env cfg).
#[local] Abbreviation compact := (AgentLoop.compact env cfg).
#[local] Abbreviation compact_context_overflow := (AgentLoop.compact_context_overflow env cfg).
#[local] Abbreviation append_context := (AgentLoop.append_context env cfg).

(** ** One generation *)

Definition append_failed (e : AgentError) : TessivumError :=
  mkError "SESSION_APPEND_FAILED" (agent_error_text e) "agent-loop" VNull.

Fixpoint consume (turn step : N) (l : list StreamChunk) (a : BlockAssembler) (seqs : list N)
    (generation : option LlmGeneration) : Loop S (result TessivumError (LlmGeneration * list N)) :=
  match l with
  | [] => mret (generation ← ok_or generation ended_early; Ok (generation, seqs))
  | chunk :: l =>
      match push chunk a with
      | Err e => mret (Err e)
      | Ok (completed, a) =>
          r ← attempt (append "assistant/chunk"
                (json_object [("turn", json_u64 turn); ("step", json_u64 step);
                              ("chunk", chunk_value chunk)]) None None);
          match r with
          | Err e => mret (Err (append_failed e))
          | Ok seq =>
              consume turn step l a (seqs ++ [seq])
                (match completed with Some g => Some g | None => generation end)
          end
      end
  end.

Definition consume_generation_attempt (turn step : N) (r : GenerateRequest) :
    Loop S (result TessivumError (LlmGeneration * list N)) :=
  n ← observe;
  match generate (le_answer env n) r (le_poll env n) (le_llm env n) with
  | Err e => mret (Err e)
  | Ok l => consume turn step l (with_message_id (gr_provider r) (gr_model r) (le_uuid env n)) [] None
  end.

(** ** Retries *)

Definition prior_retry_event (turn step : N) (provider key : string) (e : SessionEvent) : bool :=
  String.eqb (event_type e) "llm/retry"
  && bool_decide (get_u64 "turn" (ev_data e) = Some turn)
  && bool_decide (get_u64 "step" (ev_data e) = Some step)
  && bool_decide (get_str "provider" (ev_data e) = Some provider)
  && bool_decide (get_str "policyKey" (ev_data e) = Some key).

Definition prior_retry (turn step : N) (provider key : string) (events : list SessionEvent) :
    option SessionEvent :=
  head (filter (λ e, prior_retry_event turn step provider key e = true) (rev events)).

Definition retries_done (prior : option SessionEvent) : N :=
  default 0 (prior ≫= λ e, get_u64 "retry" (ev_data e)).

(** [None]: the provider asks for more patience than a bounded policy has. *)
Definition retry_delay (p : LlmRetryPolicy) (retry : N) (random : f64) (f : LlmFailure) : option f64 :=
  let local := local_delay_ms p retry random in
  match lf_provider_retry_after_ms f with
  | None => Some local
  | Some delay =>
      let asked := f64_int (Z.of_N delay) in
      if f64_lt (max_delay_ms p) asked then
        match max_retries p with Some _ => None | None => Some local end
      else if 0 <? delay then Some asked else Some local
  end.

Definition retry_data (p : LlmRetryPolicy) (id : string) (turn step : N) (provider key : string)
    (retry : N) (delay : f64) (f : LlmFailure) : Value :=
  let data := json_object
    [("retryId", VString id); ("turn", json_u64 turn); ("step", json_u64 step);
     ("provider", VString provider); ("mode", VString (mode p)); ("policyKey", VString key);
     ("retry", json_u64 retry); ("delayMs", json_f64 delay); ("failure", failure_value f)] in
  match max_retries p with
  | Some n => set_key "maxRetries" (json_u64 n) data
  | None => data
  end.

(** [Duration::from_secs_f64] panics on a negative or too large number of
    seconds, and on one that is not finite; then the task waits. *)
Definition sleep (delay : f64) : Loop S unit :=
  let seconds := f64_div delay (f64_int 1000) in
  if is_finite seconds && f64_le f64_zero seconds && f64_lt seconds (f64_pow2 64) then
    _ ← observe; mret tt
  else fail Panicked.

(** The sum [prior_retry + 1] is checked: its overflow is a panic. *)
Definition next_retry (done : N) : Loop S N :=
  match u64_checked_add done 1 with Some n => mret n | None => fail Panicked end.

Definition schedule_retry (turn step : N) (provider : string) (f : LlmFailure) : Loop S bool :=
  n ← observe;
  match provider_retry_policy provider (le_llm env n) with
  | None => mret false
  | Some policy =>
      cancelled ← is_cancelled;
      if (cancelled : bool) || negb (permits_failure policy (lf_code f)) then mret false
      else
        let key := policy_key json_text policy in
        events ← the_events;
        let prior := prior_retry turn step provider key events in
        let done := retries_done prior in
        if from_option (λ max, max <=? done) false (max_retries policy) then mret false
        else
          retry ← next_retry done;
          n ← observe;
          let id := default (le_uuid env n) (prior ≫= λ e, get_str "retryId" (ev_data e)) in
          match retry_delay policy retry (le_random env n) f with
          | None => mret false
          | Some delay =>
              _ ← append "llm/retry" (retry_data policy id turn step provider key retry delay f)
                    None None;
              cancelled ← is_cancelled;
              if (cancelled : bool) then mret false
              else
                _ ← sleep delay;
                cancelled ← is_cancelled;
                if (cancelled : bool) then mret false
                else
                  _ ← append "llm/retry-started"
                        (json_object [("retryId", VString id); ("turn", json_u64 turn);
                                      ("step", json_u64 step); ("retry", json_u64 retry)])
                        None None;
                  cancelled ← is_cancelled;
                  mret (negb cancelled)
          end
  end.

(** What follows a failed attempt: another one ([Some], with whether the context
    was compacted), or the end of the turn. *)
Definition recover (turn step : N) (r : GenerateRequest) (recovered : bool) (f : LlmFailure) :
    Loop S (option bool) :=
  compaction ← (if negb recovered && is_context_overflow (lf_code f)
                then compact_context_overflow r else mret (Ok false));
  match compaction with
  | Ok true => mret (Some true)
  | Err e => _ ← end_with_failure turn step (compaction_failure e); mret None
  | Ok false =>
      again ← schedule_retry turn step (gr_provider r) f;
      if (again : bool) then mret (Some recovered)
      else
        cancelled ← is_cancelled;
        _ ← (if (cancelled : bool) then close_cancelled_step turn step
             else end_with_failure turn step f);
        mret None
  end.

Definition failure (e : TessivumError) : LlmFailure :=
  mkFailure (err_message e) (err_code e) None None None.

Definition refresh (first : bool) (turn step : N) (r : GenerateRequest) : Loop S GenerateRequest :=
  if first then mret r
  else
    _ ← append_runtime_context turn step;
    s ← the_session;
    mret (with_messages (request_messages s) r).

(** The loop of attempts; [None] when it has ended the turn. *)
Fixpoint generation_loop (fuel : nat) (first recovered : bool) (turn step : N)
    (r : GenerateRequest) : Loop S (option (LlmGeneration * list N)) :=
  match fuel with
  | O => fail OutOfFuel
  | Datatypes.S fuel =>
      r ← refresh first turn step r;
      outcome ← consume_generation_attempt turn step r;
      let again f :=
        next ← recover turn step r recovered f;
        match next with
        | Some recovered => generation_loop fuel false recovered turn step r
        | None => mret None
        end in
      match outcome with
      | Ok (generation, seqs) =>
          match gen_finish_reason generation with
          | FinishError f => again f
          | FinishAborted _ => _ ← close_cancelled_step turn step; mret None
          | FinishStop | FinishToolCalls | FinishMaxTokens => mret (Some (generation, seqs))
          end
      | Err e =>
          cancelled ← is_cancelled;
          if (cancelled : bool) then _ ← close_cancelled_step turn step; mret None
          else again (failure e)
      end
  end.

(** ** Tools *)

Definition tool_calls (m : Message) : list (ToolCallId * string * string) :=
  omap (λ b, match b with ToolCall id name arguments => Some (id, name, arguments) | _ => None end)
    (m_content m).

Fixpoint append_calls (turn step : N) (calls : list (ToolCallId * string * string)) :
    Loop S (list N) :=
  match calls with
  | [] => mret []
  | (id, name, arguments) :: calls =>
      seq ← append "tool/call"
              (json_object [("turn", json_u64 turn); ("step", json_u64 step);
                            ("callId", VString id); ("name", VString name);
                            ("arguments", VString arguments)]) None None;
      seqs ← append_calls turn step calls;
      mret (seq :: seqs)
  end.

(** The [index]-th call of the step, all of them started at tick [n]. *)
Definition call_output (n index : nat) (call : ToolCallId * string * string) : ToolOutput :=
  match parse_json call.2 with
  | Ok arguments => le_execute env n index call.1.1 call.1.2 arguments
  | Err e =>
      mkToolOutput [Text "tool arguments are not valid JSON"] true
        (json_object [("code", VString "INVALID_TOOL_ARGUMENTS"); ("details", VString e)])
  end.

Definition append_dispatch (dispatch : Value) : Loop S unit :=
  match get_str "type" dispatch, get "data" dispatch with
  | Some type, Some data => _ ← append type data None None; mret tt
  | _, _ => mret tt
  end.

Definition dispatches (meta : Value) : list Value :=
  default [] (get "codeDispatches" meta ≫= as_array).
Definition plan_exit (meta : Value) : bool :=
  default false (get "deferredPlanExit" meta ≫= as_bool).
Definition deferred_context (meta : Value) : option Value := as_object meta ≫= obj_get "deferredContext".
Definition public_meta (meta : Value) : Value :=
  match meta with
  | VObject m => VObject (obj_remove "deferredContext" (obj_remove "deferredPlanExit" m))
  | _ => meta
  end.

Definition append_tool_context (turn step source_seq : N) (context : option Value) : Loop S unit :=
  match context ≫= get_str "plugin", context ≫= get_str "summary", context ≫= get_str "text" with
  | Some plugin, Some summary, Some text =>
      append_message "user/message" turn step
        (skill_message ("tool-context-" +:+ fmt_N turn +:+ "-" +:+ fmt_N step +:+ "-" +:+ fmt_N source_seq)
           text (SourcePlugin plugin None (Some Notice) None (Some summary))) None None
  | _, _, _ => mret tt
  end.

Definition append_output (turn step : N) (call : ToolCallId) (output : ToolOutput) (source_seq : N) :
    Loop S unit :=
  let meta := to_meta output in
  _ ← each append_dispatch (dispatches meta);
  n ← observe;
  _ ← append_message "tool/result" turn step
        (mkMessage (le_uuid env n) RoleUser [into_content_block output call] (SourceTool call))
        (Some [source_seq]) (Some (public_meta meta));
  append_tool_context turn step source_seq (deferred_context meta).

(** The results in the order of the calls; the answer is whether one of them
    leaves the plan mode. *)
Fixpoint append_outputs (turn step : N) (l : list (ToolCallId * ToolOutput * N)) : Loop S bool :=
  match l with
  | [] => mret false
  | (call, output, source_seq) :: l =>
      _ ← append_output turn step call output source_seq;
      exits ← append_outputs turn step l;
      mret (plan_exit (to_meta output) || exits)
  end.

Definition run_tools (turn step : N) (assistant : Message) : Loop S bool :=
  let calls := tool_calls assistant in
  seqs ← append_calls turn step calls;
  n ← observe;
  let outputs := imap (λ index call, (call.1.1, call_output n index call)) calls in
  append_outputs turn step (zip outputs seqs).

(** ** Turns *)

Inductive step_outcome := TurnOver | NextStep.

Definition over (m : Loop S unit) : Loop S step_outcome := _ ← m; mret TurnOver.

(** After an assistant message that was recorded. *)
Definition finish_step (turn step : N) (g : LlmGeneration) : Loop S step_outcome :=
  match gen_finish_reason g with
  | FinishToolCalls =>
      exits ← run_tools turn step (gen_message g);
      _ ← close_step turn step;
      _ ← (if (exits : bool) then append "plan/mode" (json_object [("active", VBool false)]) None None
           else mret 0);
      cancelled ← is_cancelled;
      if (cancelled : bool) then over (reason ← aborted; end_turn turn reason)
      else if step =? lc_max_steps cfg then over (end_turn turn TurnBlocked)
      else mret NextStep
  | FinishStop =>
      _ ← close_step turn step;
      cancelled ← is_cancelled;
      if (cancelled : bool) then over (reason ← aborted; end_turn turn reason)
      else
        more ← reserve (λ i, (Inbox.has_next_step i, i));
        if (more : bool) then
          if step =? lc_max_steps cfg then over (end_turn turn TurnBlocked) else mret NextStep
        else over (end_turn turn TurnCompleted)
  | FinishMaxTokens => over (_ ← close_step turn step; end_turn turn TurnMaxTokens)
  | FinishError f => over (end_with_failure turn step f)
  | FinishAborted _ => over (close_cancelled_step turn step)
  end.

Definition append_messages (turn step : N) (messages : list Message) : Loop S unit :=
  each (λ m, append_message "user/message" turn step m None None) messages.

(** The request of a step, [None] when its compaction failed. *)
Definition prepare_request (turn step : N) : Loop S (option GenerateRequest) :=
  r ← build_request;
  outcome ← compact Pressure r;
  match outcome with
  | Some (Ok true) => s ← the_session; mret (Some (with_messages (request_messages s) r))
  | Some (Err e) => _ ← end_with_failure turn step (compaction_failure e); mret None
  | _ => mret (Some r)
  end.

Definition generate_step (fuel : nat) (turn step : N) (r : GenerateRequest) : Loop S step_outcome :=
  _ ← append_header r;
  _ ← append_context r;
  outcome ← generation_loop fuel true false turn step r;
  match outcome with
  | None => mret TurnOver
  | Some (g, seqs) =>
      cancelled ← is_cancelled;
      if (cancelled : bool) then over (close_cancelled_step turn step)
      else
        _ ← append_assistant turn step (gen_message g) (gen_usage g) seqs;
        finish_step turn step g
  end.

Definition run_step (fuel : nat) (turn step : N) (initial : option Message) : Loop S step_outcome :=
  cancelled ← is_cancelled;
  if (cancelled : bool) then over (reason ← aborted; end_turn turn reason)
  else
    _ ← append "step/start" (json_object [("turn", json_u64 turn); ("step", json_u64 step)]) None None;
    batch ← claim_step_batch;
    let messages := batch ++ option_list initial in
    _ ← append_messages turn step messages;
    _ ← append_skill_context turn step messages;
    _ ← (if step =? 1 then append_workspace_instructions turn step else mret tt);
    cancelled ← is_cancelled;
    if (cancelled : bool) then over (close_cancelled_step turn step)
    else
      _ ← append_runtime_context turn step;
      r ← prepare_request turn step;
      match r with
      | None => mret TurnOver
      | Some r => generate_step fuel turn step r
      end.

(** [remaining] steps are left, the next one is [step]. *)
Fixpoint run_steps (fuel remaining : nat) (turn step : N) (initial : option Message) : Loop S unit :=
  match remaining with
  | O => end_turn turn TurnBlocked
  | Datatypes.S remaining =>
      outcome ← run_step fuel turn step initial;
      match outcome with
      | TurnOver => mret tt
      | NextStep => run_steps fuel remaining turn (step + 1) None
      end
  end.

Definition run_turn (fuel : nat) (initial : Message) : Loop S unit :=
  cancelled ← is_cancelled;
  if (cancelled : bool) then mret tt
  else
    events ← the_events;
    let turn := next_turn events in
    _ ← append "turn/start" (json_object [("turn", json_u64 turn)]) None None;
    run_steps fuel (N.to_nat (lc_max_steps cfg)) turn 1 (Some initial).
End turn.
