(* ===== verification/AgentTurnFacts.v ===== *)
(** * Turns in the log: the protocol of a turn's events

    A finite automaton that reads a log and accepts well-bracketed turns
    ([turn_step]), and, for each computation of the loop, the move of the
    automaton over the events it appends. *)

From S2P Require Import Prelude Json Protocol Compaction Session SessionFacts AgentInbox Tools Llm.
From S2P Require Import AgentLoop AgentTurn.

#[local] Open Scope N_scope.

(** ** The automaton *)

(** Between turns, the number of the last one; in a turn, the number of steps
    that are over; in a step, the calls that still wait for their result, by the
    sequence numbers of their events. *)
Inductive phase :=
| Between (last : N)
| InTurn (turn done : N)
| InStep (turn step : N) (calls : list N).

Definition in_turn (turn : N) (e : SessionEvent) : bool :=
  bool_decide (get_u64 "turn" (ev_data e) = Some turn).
Definition in_step (turn step : N) (e : SessionEvent) : bool :=
  in_turn turn e && bool_decide (get_u64 "step" (ev_data e) = Some step).

(** The events of a step before its tool calls. *)
Definition generation_types : list string :=
  ["assistant/chunk"; "assistant/message"; "llm/retry"; "llm/retry-started"].

(** [None]: the event is out of place.  A result that replaces another one on the
    surface (a pruned one) is not the answer to a call. *)
Definition turn_step (p : phase) (e : SessionEvent) : option phase :=
  let t := event_type e in
  if String.eqb t "turn/start" then
    match p with
    | Between last =>
        let turn := u64_saturating_add last 1 in
        if in_turn turn e then Some (InTurn turn 0) else None
    | _ => None
    end
  else if String.eqb t "turn/end" then
    match p with
    | InTurn turn _ => if in_turn turn e then Some (Between turn) else None
    | _ => None
    end
  else if String.eqb t "step/start" then
    match p with
    | InTurn turn done => if in_step turn (done + 1) e then Some (InStep turn (done + 1) []) else None
    | _ => None
    end
  else if String.eqb t "step/end" then
    match p with
    | InStep turn step [] => if in_step turn step e then Some (InTurn turn step) else None
    | _ => None
    end
  else if existsb (String.eqb t) generation_types then
    match p with
    | InStep turn step [] => if in_step turn step e then Some p else None
    | _ => None
    end
  else if String.eqb t "tool/call" then
    match p with
    | InStep turn step calls =>
        if in_step turn step e then Some (InStep turn step (calls ++ [ev_seq e])) else None
    | _ => None
    end
  else if String.eqb t "tool/result" && bool_decide (ev_surface_op e = Some Append) then
    match p with
    | InStep turn step (call :: calls) =>
        if in_step turn step e && bool_decide (ev_source_event_seqs e = Some [call])
        then Some (InStep turn step calls) else None
    | _ => None
    end
  else Some p.

Definition turn_run (p : phase) (l : list SessionEvent) : option phase :=
  foldl (λ p e, p ≫= λ p, turn_step p e) (Some p) l.
Definition phase_of (events : list SessionEvent) : option phase := turn_run (Between 0) events.

(** The number of the open turn, or of the last one. *)
Definition turn_of (p : phase) : N :=
  match p with Between t | InTurn t _ | InStep t _ _ => t end.

Lemma turn_run_app p l l' :
  turn_run p (l ++ l') = (p ← turn_run p l; turn_run p l').
Proof.
  unfold turn_run. rewrite foldl_app. destruct (foldl _ (Some p) l) as [q|]; [done|].
  simpl. induction l' as [|e l' IH]; [done|exact IH].
Qed.

Lemma turn_run_snoc p l e : turn_run p (l ++ [e]) = (p ← turn_run p l; turn_step p e).
Proof. rewrite turn_run_app. by destruct (turn_run p l). Qed.

(** Events that the automaton does not look at. *)
Definition quiet (e : SessionEvent) : Prop := ∀ p, turn_step p e = Some p.

Definition turn_types : list string :=
  ["turn/start"; "turn/end"; "step/start"; "step/end"] ++ generation_types ++ ["tool/call"; "tool/result"].

Lemma quiet_type e : event_type e ∉ turn_types → quiet e.
Proof.
  unfold quiet, turn_types, turn_step, generation_types. simpl. intros Hn p.
  repeat match goal with
  | |- context [String.eqb (event_type e) ?s] =>
      destruct (String.eqb_spec (event_type e) s) as [Heq|_];
        [exfalso; apply Hn; rewrite Heq; set_solver|]
  end. reflexivity. 
Qed.

Lemma quiet_run p l : Forall quiet l → turn_run p l = Some p.
Proof. induction 1 as [|e l He _ IH]; [done|]. unfold turn_run in *. simpl. by rewrite He. Qed.

Definition turns_in (events : list SessionEvent) : list N :=
  omap (λ e, get_u64 "turn" (ev_data e)) (filter (λ e, event_type e = "turn/start") events).

Lemma foldr_max_snoc l x : foldr N.max 0 (l ++ [x]) = N.max (foldr N.max 0 l) x.
Proof. induction l as [|y l IH]; simpl; [lia|]. rewrite IH. lia. Qed.

Lemma turn_step_turn p e q :
  turn_step p e = Some q →
  if String.eqb (event_type e) "turn/start" then
    get_u64 "turn" (ev_data e) = Some (turn_of q) ∧ turn_of q = u64_saturating_add (turn_of p) 1
  else turn_of q = turn_of p.
Proof.
  unfold turn_step, in_step, in_turn. intros Hs.
  repeat (case_match; simplify_eq; try done).
  all: repeat match goal with H : bool_decide _ = true |- _ => apply bool_decide_eq_true in H end.
  all: done.
Qed.

Lemma u64_saturating_le n : n ≤ U64_MAX → n ≤ u64_saturating_add n 1 ≤ U64_MAX.
Proof. unfold u64_saturating_add. lia. Qed.

(** The last turn is the greatest one. *)
Lemma phase_turn events p :
  phase_of events = Some p → turn_of p ≤ U64_MAX ∧ foldr N.max 0 (turns_in events) = turn_of p.
Proof.
  revert p. induction events as [|e events IH] using rev_ind; intros q.
  { intros [= <-]. simpl. unfold U64_MAX. lia. }
  unfold phase_of. rewrite turn_run_snoc. destruct (turn_run _ events) as [p|] eqn:Hp; [|done].
  simpl. intros Hs%turn_step_turn. destruct (IH p Hp) as [Hle Hm].
  unfold turns_in. rewrite filter_app, filter_cons. rewrite omap_app.
  destruct (String.eqb_spec (event_type e) "turn/start") as [Heq|Hne].
  - rewrite decide_True by done. destruct Hs as [Hg Hq]. simpl. rewrite Hg.
    fold (turns_in events). rewrite foldr_max_snoc, Hm, Hq.
    pose proof (u64_saturating_le _ Hle). lia.
  - rewrite decide_False by done. simpl. rewrite app_nil_r. fold (turns_in events).
    by rewrite Hs.
Qed.

Lemma phase_next_turn events p :
  phase_of events = Some p → next_turn events = u64_saturating_add (turn_of p) 1.
Proof. intros [_ Hm]%phase_turn. unfold next_turn. fold (turns_in events). by rewrite Hm. Qed.

(** ** Moves of the automaton over a computation *)

(** What other tasks append to a session. *)
Definition extends_quietly (s s' : Session) : Prop :=
  ∃ l, st_events (s_state s') = st_events (s_state s) ++ l ∧ Forall quiet l.

(** No other task, no compaction and no tool writes the events of a turn. *)
Record quiet_env {S A} (env : LoopEnv S A) : Prop := {
  qe_others : ∀ n s b i, extends_quietly s (le_others env n s b i).1.1;
  qe_compact : ∀ f, le_compact env = Some f →
    ∀ n t r window s b, extends_quietly s (f n t r window s b).1.2;
  qe_dispatches : ∀ n i call name arguments,
    Forall (λ d, from_option (λ t, t ∉ turn_types) True (get_str "type" d))
      (dispatches (to_meta (le_execute env n i call name arguments)));
}.

Definition at_phase {S} (p : phase) (w : World S) : Prop := phase_of (events_of w) = Some p.

(** From phase [p], [m] leads to [q x] when it returns [x], and to some phase when
    it ends early. *)
Definition runs {S R} (p : phase) (m : Loop S R) (q : R → phase) : Prop := ∀ w,
  at_phase p w →
  match m w with
  | (Ok x, w') => at_phase (q x) w'
  | (Err _, w') => ∃ p', at_phase p' w'
  end.

Section rules.
Context {S : Type}.

Lemma runs_ret {R} p (x : R) q : q x = p → runs (S := S) p (mret x) q.
Proof. by intros <- w Hw. Qed.

Lemma runs_fail {R} p e q : runs (S := S) (R := R) p (fail e) q.
Proof. intros w Hw. by exists p. Qed.

Lemma runs_bind {R T} p (m : Loop S R) (k : R → Loop S T) q q' :
  runs p m q' → (∀ x, runs (q' x) (k x) q) → runs p (m ≫= k) q.
Proof.
  intros Hm Hk w Hw. specialize (Hm w Hw). unfold mbind, loop_bind.
  destruct (m w) as [[x|e] w']; [by apply Hk|done].
Qed.

Lemma runs_lift {R} p (r : result AgentError R) : runs (S := S) p (lift r) (λ _, p).
Proof. destruct r; [by apply runs_ret|apply runs_fail]. Qed.

Lemma runs_world p : runs (S := S) p the_world (λ _, p).
Proof. by intros w Hw. Qed.

Lemma runs_each {T} p (f : T → Loop S unit) l :
  Forall (λ x, runs p (f x) (λ _, p)) l → runs p (each f l) (λ _, p).
Proof.
  induction 1 as [|x l Hx _ IH]; [by apply runs_ret|].
  eapply runs_bind; [done|]. by intros [].
Qed.

Lemma runs_inbox {R} p (f : Inbox.InboxState → R * Inbox.InboxState) :
  runs (S := S) p (at_inbox f) (λ _, p).
Proof. intros w Hw. unfold at_inbox. by destruct (f _). Qed.

Lemma runs_commit_reserved p r : runs (S := S) p (commit_reserved r) (λ _, p).
Proof.
  intros w Hw. unfold commit_reserved. destruct (Inbox.claim_commit _ _) as [[[l|] i]|]; [done|..];
    by exists p.
Qed.

Lemma runs_record_header p h : runs (S := S) p (record_request_header h) (λ _, p).
Proof. by intros w Hw. Qed.

Lemma runs_release {R} p (m : Loop S R) r q :
  runs p m q → runs p (release_on_error r m) q.
Proof.
  intros Hm w Hw. specialize (Hm w Hw). unfold release_on_error.
  by destruct (m w) as [[x|e] w'].
Qed.
End rules.

Create HintDb runs.
#[export] Hint Resolve runs_fail runs_lift runs_world runs_inbox runs_commit_reserved
  runs_record_header : runs.

Section turns.
Context `{ProtocolWire} `{LoopWire} {S A : Type} `{SessionPersistence S}.
Context (env : LoopEnv S A) (Hq : quiet_env env).
#[local] Set Default Proof Using "Type*".

Lemma extended_phase p (s s' : Session) :
  extends_quietly s s' → phase_of (st_events (s_state s)) = Some p →
  phase_of (st_events (s_state s')) = Some p.
Proof.
  intros (l & -> & Hl) Hp. unfold phase_of in *. rewrite turn_run_app, Hp. simpl.
  by apply quiet_run.
Qed.

Lemma runs_observe p : runs p (observe env) (λ _, p).
Proof.
  intros w Hw. unfold observe.
  pose proof (qe_others _ Hq (w_tick w) (w_session w) (w_backend w) (w_inbox w)) as Ho.
  destruct (le_others _ _ _ _ _) as [[s b] i]. simpl in Ho. by eapply extended_phase.
Qed.

(** One round of proof: the next computation by a lemma, then what follows it. *)
Ltac next := first
  [ solve [eauto with runs]
  | eapply runs_bind; [solve [eauto with runs]|intros ?; cbv beta]
  | apply runs_ret; reflexivity ].
#[local] Hint Resolve runs_observe : runs.

Lemma runs_cancelled p : runs p (is_cancelled env) (λ _, p).
Proof. unfold is_cancelled. repeat next. Qed.
Lemma runs_session p : runs p (the_session env) (λ _, p).
Proof. unfold the_session. repeat next. Qed.
#[local] Hint Resolve runs_cancelled runs_session : runs.
Lemma runs_events p : runs p (the_events env) (λ _, p).
Proof. unfold the_events. repeat next. Qed.
Lemma runs_aborted p : runs p (aborted env) (λ _, p).
Proof. unfold aborted. repeat next. Qed.
#[local] Hint Resolve runs_events runs_aborted : runs.

Lemma observed p w :
  at_phase p w → ∃ n w', observe env w = (Ok n, w') ∧ at_phase p w'.
Proof.
  intros Hw. pose proof (runs_observe p w Hw) as Ho. unfold observe in *.
  destruct (le_others _ _ _ _ _) as [[s b] i]. by eexists _, _.
Qed.

(** An append that fails leaves the phase. *)
Lemma append_phase p q type data sources op w :
  (∀ seq time, turn_step p (mkEvent type seq time data None sources op) = Some (q seq)) →
  at_phase p w →
  match append env type data sources op w with
  | (Ok seq, w') => at_phase (q seq) w'
  | (Err (Failed _), w') => at_phase p w'
  | (Err _, _) => False
  end.
Proof.
  intros Hs Hw. unfold append, is_cancelled, mbind, loop_bind, mret, loop_ret.
  destruct (observed p w Hw) as (n & w1 & -> & Hw1). destruct (observed p w1 Hw1) as (m & w2 & -> & Hw2).
  unfold append_now. destruct (append_next _ _ _ _) as [[r s] b] eqn:Ha.
  apply append_next_inv in Ha as [[Hr ->]|(seq & -> & _ & He)]; [by destruct r|].
  unfold at_phase, events_of, phase_of in *. simpl. rewrite He, turn_run_snoc, Hw2. apply Hs.
Qed.

Lemma runs_append p q type data sources op :
  (∀ seq time, turn_step p (mkEvent type seq time data None sources op) = Some (q seq)) →
  runs p (append env type data sources op) q.
Proof.
  intros Hs w Hw. pose proof (append_phase p q type data sources op w Hs Hw) as Ha.
  destruct (append _ _ _ _ _ w) as [[seq|[]] w']; try done. by exists p.
Qed.

(** The events of the loop that the automaton does not look at. *)
Lemma runs_append_quiet p type data sources op :
  type ∉ turn_types → runs p (append env type data sources op) (λ _, p).
Proof. intros Ht. apply runs_append. intros. by apply quiet_type. Qed.

Lemma runs_user p turn step m sources meta :
  runs p (append_message env "user/message" turn step m sources meta) (λ _, p).
Proof.
  unfold append_message. eapply runs_bind; [apply runs_append_quiet; set_solver|]. intros. repeat next.
Qed.
#[local] Hint Resolve runs_user : runs.

(** *** Claims and contexts: any phase *)

Lemma runs_reserve {R} p (f : Inbox.InboxState → R * Inbox.InboxState) :
  runs p (reserve env f) (λ _, p).
Proof. unfold reserve. repeat next. Qed.
#[local] Hint Resolve runs_reserve : runs.

Lemma runs_commit_claim p r : runs p (commit_inbox_claim env r) (λ _, p).
Proof.
  unfold commit_inbox_claim. next. eapply runs_bind with (q' := λ _, p); [|intros; repeat next].
  destruct (durable_inbox_claim _ _); [|by apply runs_ret].
  apply runs_release, runs_append_quiet. set_solver.
Qed.
#[local] Hint Resolve runs_commit_claim : runs.

Lemma runs_next_turn_claim p : runs p (claim_next_turn env) (λ _, p).
Proof. unfold claim_next_turn. next. case_match; repeat next. Qed.
Lemma runs_step_batch p : runs p (claim_step_batch env) (λ _, p).
Proof. unfold claim_step_batch. next. case_match; repeat next. Qed.

Lemma runs_skill p turn step e : runs p (append_skill env turn step e) (λ _, p).
Proof. unfold append_skill. repeat next. Qed.

Lemma runs_skill_context p turn step l : runs p (append_skill_context env turn step l) (λ _, p).
Proof.
  unfold append_skill_context. next. destruct (le_catalog env _) as [catalog|]; [|next].
  do 2 next. eapply runs_bind with (q' := λ _, p); [case_match; next|]. intros _.
  apply runs_each, Forall_forall. intros e _. apply runs_skill.
Qed.

Lemma runs_runtime_context p turn step : runs p (append_runtime_context env turn step) (λ _, p).
Proof. unfold append_runtime_context. next. case_match; [next|apply runs_user]. Qed.

Lemma runs_instructions p turn step :
  runs p (append_workspace_instructions env turn step) (λ _, p).
Proof.
  unfold append_workspace_instructions. next. case_match; [|next]. next. case_match; [|next].
  case_match; [next|]. next. case_match; [next|apply runs_user].
Qed.
#[local] Hint Resolve runs_next_turn_claim runs_step_batch runs_skill_context
  runs_runtime_context runs_instructions : runs.

(** *** Requests: any phase *)

Lemma runs_request cfg p : runs p (build_request env cfg) (λ _, p).
Proof.
  unfold build_request. next. eapply runs_bind with (q' := λ _, p).
  { destruct (lc_prompt_complete cfg); repeat next. }
  intros [system tools]. repeat next.
Qed.

Lemma runs_compact cfg p trigger r : runs p (compact env cfg trigger r) (λ _, p).
Proof.
  unfold compact. destruct (le_compact env) as [f|] eqn:Hf; [|next]. next.
  apply (runs_bind _ _ _ _ (λ _, p)); [|intros o; next]. intros w Hw. unfold compacted.
  pose proof (qe_compact _ Hq f Hf x trigger r (context_window cfg r) (w_session w) (w_backend w)) as Hc.
  destruct (f _ _ _ _ _ _) as [[o s] b]. by eapply extended_phase.
Qed.
#[local] Hint Resolve runs_request runs_compact : runs.

Lemma runs_compact_overflow cfg p r : runs p (compact_context_overflow env cfg r) (λ _, p).
Proof. unfold compact_context_overflow. repeat next. Qed.

Lemma runs_header p r : runs p (append_header env r) (λ _, p).
Proof.
  unfold append_header. next. case_match; [|next].
  eapply runs_bind; [apply runs_append_quiet; set_solver|intros; next].
Qed.

Lemma runs_context cfg p r : runs p (append_context env cfg r) (λ _, p).
Proof.
  unfold append_context. next. case_match; [next|].
  eapply runs_bind; [apply runs_append_quiet; set_solver|intros; next].
Qed.
#[local] Hint Resolve runs_compact_overflow runs_header runs_context : runs.

(** *** The moves of a turn *)

Ltac steps := intros ??; cbn; unfold in_step, in_turn; cbn; rewrite ?bool_decide_true by done.

Lemma runs_end_turn turn done reason :
  runs (InTurn turn done) (end_turn env turn reason) (λ _, Between turn).
Proof.
  unfold end_turn. next. eapply runs_bind with (q' := λ _, InTurn turn done); [case_match; next|].
  intros r. eapply runs_bind; [apply runs_append|intros; next]. by steps.
Qed.

Lemma runs_close_step turn step :
  runs (InStep turn step []) (close_step env turn step) (λ _, InTurn turn step).
Proof. unfold close_step. eapply runs_bind; [apply runs_append; by steps|intros; next]. Qed.
#[local] Hint Resolve runs_end_turn runs_close_step : runs.

Lemma runs_close_cancelled turn step :
  runs (InStep turn step []) (close_cancelled_step env turn step) (λ _, Between turn).
Proof. unfold close_cancelled_step. repeat next. Qed.

Lemma runs_end_failed turn step f :
  runs (InStep turn step []) (end_with_failure env turn step f) (λ _, Between turn).
Proof. unfold end_with_failure. repeat next. Qed.
#[local] Hint Resolve runs_close_cancelled runs_end_failed : runs.

Lemma runs_assistant turn step m usage seqs :
  runs (InStep turn step []) (append_assistant env turn step m usage seqs) (λ _, InStep turn step []).
Proof.
  unfold append_assistant. eapply runs_bind; [apply runs_append|intros; next].
  destruct usage; by steps.
Qed.
#[local] Hint Resolve runs_assistant : runs.

(** *** Generations *)

Lemma attempt_append p type data sources op :
  (∀ seq time, turn_step p (mkEvent type seq time data None sources op) = Some p) →
  runs p (attempt (append env type data sources op)) (λ _, p).
Proof.
  intros Hs w Hw. unfold attempt. pose proof (append_phase p (λ _, p) type data sources op w Hs Hw) as Ha.
  by destruct (append _ _ _ _ _ w) as [[seq|[]] w'].
Qed.

Lemma runs_consume turn step l a seqs g :
  runs (InStep turn step []) (consume env turn step l a seqs g) (λ _, InStep turn step []).
Proof.
  revert a seqs g. induction l as [|chunk l IH]; intros a seqs g; simpl; [next|].
  destruct (push chunk a) as [[completed a']|e]; [|next].
  eapply runs_bind; [apply attempt_append; by steps|]. intros [seq|e]; [apply IH|next].
Qed.

Lemma runs_attempt turn step r :
  runs (InStep turn step []) (consume_generation_attempt env turn step r) (λ _, InStep turn step []).
Proof.
  unfold consume_generation_attempt. next. destruct (generate _ _ _ _) as [l|e]; [|next].
  apply runs_consume.
Qed.
#[local] Hint Resolve runs_attempt : runs.

Lemma runs_sleep p delay : runs p (sleep env delay) (λ _, p).
Proof. unfold sleep. case_match; repeat next. Qed.
Lemma runs_next_retry p n : runs (S := S) p (next_retry n) (λ _, p).
Proof. unfold next_retry. case_match; next. Qed.
#[local] Hint Resolve runs_sleep runs_next_retry : runs.

Lemma runs_retry turn step provider f :
  runs (InStep turn step []) (schedule_retry env turn step provider f) (λ _, InStep turn step []).
Proof.
  unfold schedule_retry. next. case_match; [|next]. next. case_match; [next|]. next.
  case_match; [next|]. do 2 next. case_match; [|next].
  eapply runs_bind with (q' := λ _, InStep turn step []); [apply runs_append; unfold retry_data; case_match; by steps|]. intros _. cbv beta.
  next. case_match; [next|]. next. next. case_match; [next|].
  eapply runs_bind with (q' := λ _, InStep turn step []); [apply runs_append; by steps|]. intros _. cbv beta. repeat next.
Qed.
#[local] Hint Resolve runs_retry : runs.

(** A turn that is over, or a step that goes on. *)
Definition goes_on {R} (turn step : N) (o : option R) : phase :=
  match o with Some _ => InStep turn step [] | None => Between turn end.

Lemma runs_recover cfg turn step r recovered f :
  runs (InStep turn step []) (recover env cfg turn step r recovered f) (goes_on turn step).
Proof.
  unfold recover. eapply runs_bind with (q' := λ _, InStep turn step []); [case_match; repeat next|].
  intros [[]|e]; [next| |repeat next]. next. case_match; [next|]. next.
  eapply runs_bind with (q' := λ _, Between turn); [case_match; next|]. intros. next.
Qed.

Lemma runs_refresh first turn step r p : runs p (refresh env first turn step r) (λ _, p).
Proof. unfold refresh. destruct first; repeat next. Qed.
#[local] Hint Resolve runs_recover runs_refresh : runs.

Lemma runs_generations cfg fuel first recovered turn step r :
  runs (InStep turn step []) (generation_loop env cfg fuel first recovered turn step r) (goes_on turn step).
Proof.
  revert first recovered r. induction fuel as [|fuel IH]; intros first recovered r; simpl; [next|].
  assert (∀ r f, runs (InStep turn step [])
    (o ← recover env cfg turn step r recovered f;
     match o with
     | Some recovered => generation_loop env cfg fuel false recovered turn step r
     | None => mret None
     end) (goes_on turn step)) as Hagain.
  { intros r' f. next. destruct x; [apply IH|next]. }
  do 2 next. destruct x0 as [[g seqs]|e].
  - destruct (gen_finish_reason g); [next..| |]; first [apply Hagain|repeat next].
  - next. case_match; [repeat next|apply Hagain].
Qed.
#[local] Hint Resolve runs_generations : runs.

(** *** Tools *)

Lemma runs_calls turn step pending calls :
  runs (InStep turn step pending) (append_calls env turn step calls)
    (λ seqs, InStep turn step (pending ++ seqs)).
Proof.
  revert pending. induction calls as [|[[id name] arguments] calls IH]; intros pending; simpl.
  { apply runs_ret. by rewrite app_nil_r. }
  eapply runs_bind with (q' := λ seq, InStep turn step (pending ++ [seq])); [apply runs_append; by steps|].
  intros seq. eapply runs_bind; [apply IH|]. intros seqs. apply runs_ret. cbv beta. by rewrite <- app_assoc.
Qed.

Lemma calls_length turn step calls w :
  match append_calls env turn step calls w with
  | (Ok seqs, _) => length seqs = length calls
  | _ => True
  end.
Proof.
  revert w. induction calls as [|[[id name] arguments] calls IH]; intros w; simpl; [done|].
  unfold mbind, loop_bind. destruct (append _ _ _ _ _ w) as [[seq|] w1]; [|done].
  specialize (IH w1). destruct (append_calls _ _ _ _ _) as [[seqs|] w2]; [|done]. simpl. by rewrite IH.
Qed.

(** An output whose dispatches are not events of a turn. *)
Definition tame (output : ToolOutput) : Prop :=
  Forall (λ d, from_option (λ t, t ∉ turn_types) True (get_str "type" d)) (dispatches (to_meta output)).

Lemma runs_dispatches p output :
  tame output → runs p (each (append_dispatch env) (dispatches (to_meta output))) (λ _, p).
Proof.
  intros Hd. apply runs_each. eapply Forall_impl; [exact Hd|]. intros d Ht. cbv beta in Ht. unfold append_dispatch.
  destruct (get_str "type" d) as [t|]; [|next]. destruct (get "data" d); [|next].
  eapply runs_bind with (q' := λ _, p); [apply runs_append_quiet, Ht|]. intros. next.
Qed.

Lemma call_output_tame n index call : tame (call_output env n index call).
Proof.
  unfold call_output, tame. destruct (parse_json _); [|by apply Forall_nil].
  apply (qe_dispatches _ Hq).
Qed.

Lemma runs_output turn step call output seq pending :
  tame output →
  runs (InStep turn step (seq :: pending)) (append_output env turn step call output seq)
    (λ _, InStep turn step pending).
Proof.
  intros Ht. unfold append_output. eapply runs_bind; [by apply runs_dispatches|]. intros ?. cbv beta.
  next. eapply runs_bind with (q' := λ _, InStep turn step pending).
  { unfold append_message. eapply runs_bind; [apply runs_append|intros; next]. by steps. }
  intros _. unfold append_tool_context. repeat (case_match; [|next]). apply runs_user.
Qed.

Lemma runs_outputs turn step l :
  Forall (λ x, tame x.1.2) l →
  runs (InStep turn step l.*2) (append_outputs env turn step l) (λ _, InStep turn step []).
Proof.
  induction 1 as [|[[call output] seq] l Ht _ IH]; simpl; [next|].
  eapply runs_bind; [by apply runs_output|]. intros ?. cbv beta.
  eapply runs_bind; [exact IH|]. intros. next.
Qed.

Lemma runs_tools turn step m :
  runs (InStep turn step []) (run_tools env turn step m) (λ _, InStep turn step []).
Proof.
  intros w Hw. unfold run_tools. unfold mbind at 1, loop_bind at 1.
  pose proof (runs_calls turn step [] (tool_calls m) w Hw) as Hc.
  pose proof (calls_length turn step (tool_calls m) w) as Hl.
  destruct (append_calls _ _ _ _ w) as [[seqs|e] w1]; [|done].
  revert w1 Hc. change (runs (InStep turn step ([] ++ seqs))
    (n ← observe env; append_outputs env turn step
       (zip (imap (λ index call, (call.1.1, call_output env n index call)) (tool_calls m)) seqs))
    (λ _, InStep turn step [])).
  simpl. next.
  set (outputs := imap _ _). assert (seqs = (zip outputs seqs).*2) as Hz.
  { symmetry. apply snd_zip. unfold outputs. rewrite length_imap. lia. }
  rewrite Hz at 1. apply runs_outputs. apply Forall_forall. intros [[call output] seq] Hin.
  apply elem_of_zip_l in Hin. unfold outputs in Hin.
  apply list_elem_of_lookup in Hin as [i (c & _ & [= -> ->])%list_lookup_imap_Some].
  apply call_output_tame.
Qed.
#[local] Hint Resolve runs_tools : runs.

(** *** Steps and turns *)

Definition stepped (turn step : N) (o : step_outcome) : phase :=
  match o with TurnOver => Between turn | NextStep => InTurn turn step end.

Lemma runs_over p turn step (m : Loop S unit) :
  runs p m (λ _, Between turn) → runs p (over m) (stepped turn step).
Proof. intros Hm. unfold over. eapply runs_bind; [exact Hm|]. intros. next. Qed.

(** The end of a turn whose step is closed. *)
Lemma runs_over_end turn step reason :
  runs (InTurn turn step) (over (end_turn env turn reason)) (stepped turn step).
Proof. apply runs_over. next. Qed.
Lemma runs_over_aborted turn step :
  runs (InTurn turn step) (over (reason ← aborted env; end_turn env turn reason)) (stepped turn step).
Proof. apply runs_over. repeat next. Qed.
Lemma runs_over_cancelled turn step :
  runs (InStep turn step []) (over (close_cancelled_step env turn step)) (stepped turn step).
Proof. apply runs_over. next. Qed.
Lemma runs_over_failed turn step f :
  runs (InStep turn step []) (over (end_with_failure env turn step f)) (stepped turn step).
Proof. apply runs_over. next. Qed.
#[local] Hint Resolve runs_over_end runs_over_aborted runs_over_cancelled runs_over_failed : runs.

Lemma runs_finish cfg turn step g :
  runs (InStep turn step []) (finish_step env cfg turn step g) (stepped turn step).
Proof.
  unfold finish_step. destruct (gen_finish_reason g); [| | |next|next].
  - do 2 next. case_match; [next|]. next. repeat (case_match; try next).
  - do 2 next. eapply runs_bind with (q' := λ _, InTurn turn step).
    { case_match; [apply runs_append_quiet; set_solver|next]. }
    intros ?. next. repeat (case_match; try next).
  - apply runs_over. repeat next.
Qed.
#[local] Hint Resolve runs_finish : runs.

Lemma runs_messages p turn step l : runs p (append_messages env turn step l) (λ _, p).
Proof. apply runs_each, Forall_forall. intros m _. next. Qed.
#[local] Hint Resolve runs_messages : runs.

Lemma runs_prepare cfg turn step :
  runs (InStep turn step []) (prepare_request env cfg turn step) (goes_on turn step).
Proof. unfold prepare_request. do 2 next. repeat (case_match; try next). all: repeat next. Qed.
#[local] Hint Resolve runs_prepare : runs.

Lemma runs_generate cfg fuel turn step r :
  runs (InStep turn step []) (generate_step env cfg fuel turn step r) (stepped turn step).
Proof.
  unfold generate_step. do 3 next. destruct x1 as [[g seqs]|]; [|next].
  simpl. next. case_match; [next|]. next. next.
Qed.
#[local] Hint Resolve runs_generate : runs.

Lemma runs_step cfg fuel turn done initial :
  runs (InTurn turn done) (run_step env cfg fuel turn (done + 1) initial) (stepped turn (done + 1)).
Proof.
  unfold run_step. next. case_match; [apply runs_over; repeat next|].
  eapply runs_bind with (q' := λ _, InStep turn (done + 1) []); [apply runs_append; by steps|].
  intros ?. do 3 next. eapply runs_bind with (q' := λ _, InStep turn (done + 1) []); [case_match; next|].
  intros ?. next. case_match; [next|]. do 2 next. case_match; next.
Qed.

Lemma runs_steps cfg fuel remaining turn done initial :
  runs (InTurn turn done) (run_steps env cfg fuel remaining turn (done + 1) initial)
    (λ _, Between turn).
Proof.
  revert done initial. induction remaining as [|n IH]; intros done initial; simpl; [next|].
  eapply runs_bind; [apply runs_step|]. intros []; [next|apply IH].
Qed.

(** A turn that returns was not started, or is the next one and complete; a turn
    that ends early leaves a log that the automaton still accepts. *)
Lemma turn_phases cfg fuel initial last w :
  at_phase (Between last) w →
  match run_turn env cfg fuel initial w with
  | (Ok _, w') =>
      at_phase (Between last) w' ∨ at_phase (Between (u64_saturating_add last 1)) w'
  | (Err _, w') => ∃ p, at_phase p w'
  end.
Proof.
  intros Hw. unfold run_turn, is_cancelled, the_events, the_session, the_world, mbind, loop_bind, mret, loop_ret.
  destruct (observed _ w Hw) as (n & w1 & -> & Hw1). destruct (le_cancelled env n); [by left|].
  unfold mbind, loop_bind, mret, loop_ret.
  destruct (observed _ w1 Hw1) as (m & w2 & -> & Hw2).
  pose proof (phase_next_turn _ _ Hw2) as Hn. fold (events_of w2) in *. rewrite Hn. simpl.
  set (turn := u64_saturating_add last 1).
  assert (runs (Between last)
    (_ ← append env "turn/start" (json_object [("turn", json_u64 turn)]) None None;
     run_steps env cfg fuel (N.to_nat (lc_max_steps cfg)) turn 1 (Some initial))
    (λ _, Between turn)) as Hr.
  { eapply runs_bind with (q' := λ _, InTurn turn 0); [apply runs_append; by steps|].
    intros ?. apply (runs_steps cfg fuel _ turn 0). }
  specialize (Hr w2 Hw2). unfold mbind, loop_bind in Hr.
  destruct (append env "turn/start" _ None None w2) as [[seq|e] w3]; [|done].
  destruct (run_steps _ _ _ _ _ _ _ w3) as [[[]|e] w4]; [by right|done].
Qed.
End turns.
