(* ===== verification/CompactionFacts.v ===== *)
(** * Lemmas on compaction plans

    Tool pairs: what a valid region guarantees, and that the regions between
    complete boundaries of an orderly surface are valid ([orderly]: no call id is
    opened twice, no result comes without its call).  Selection: which groups the
    batch of a recovery consists of. *)

From S2P Require Import Prelude Json Protocol Compaction Session.

(** ** The signals of a surface *)

(** A call or a result, at its position. *)
Inductive signal := Opens (i : nat) (id : string) | Closes (i : nat) (id : string).
#[export] Instance signal_eq_dec : EqDecision signal.
Proof. solve_decision. Defined.

Definition signal_id (s : signal) : string := match s with Opens _ id | Closes _ id => id end.

Definition entry_signals (e : nat * SurfaceMessage) : list signal :=
  (Opens e.1 <$> tool_calls (sm_message e.2)) ++ (Closes e.1 <$> tool_results (sm_message e.2)).
Definition signals (surface : list SurfaceMessage) : list signal :=
  flat_map entry_signals (imap pair surface).

Definition signal_step (r : CompactionRange) (pending : gmap string nat) (s : signal) :
    result CompactionError (gmap string nat) :=
  match s with
  | Opens i id => open_call r i pending id
  | Closes i id => close_call r i pending id
  end.

Lemma foldM_fmap {E X Y S} (f : S → Y → result E S) (g : X → Y) s l :
  foldM f s (g <$> l) = foldM (λ s x, f s (g x)) s l.
Proof. revert s. induction l as [|x l IH]; intros s; [done|]. simpl. destruct (f s (g x)); [apply IH|done]. Qed.

Lemma pair_entry_signals r pending e :
  pair_entry r pending e = foldM (signal_step r) pending (entry_signals e).
Proof.
  unfold pair_entry, entry_signals. rewrite foldM_app, foldM_fmap.
  change (λ s x, signal_step r s (Opens e.1 x)) with (open_call r e.1).
  destruct (foldM (open_call r e.1) _ _) as [p|]; simpl; [|done]. by rewrite foldM_fmap.
Qed.

Lemma foldM_flat_map {E X Y S} (f : S → Y → result E S) (g : X → list Y) s l :
  foldM f s (flat_map g l) = foldM (λ s x, foldM f s (g x)) s l.
Proof.
  revert s. induction l as [|x l IH]; intros s; [done|]. simpl. rewrite foldM_app.
  destruct (foldM f s (g x)); [apply IH|done].
Qed.

Lemma foldM_ext {E X S} (f g : S → X → result E S) s l :
  (∀ s x, f s x = g s x) → foldM f s l = foldM g s l.
Proof.
  intros Hfg. revert s. induction l as [|x l IH]; intros s; [done|]. simpl. rewrite Hfg.
  destruct (g s x); [apply IH|done].
Qed.

Lemma pairs_signals r surface :
  foldM (pair_entry r) ∅ (imap pair surface) = foldM (signal_step r) ∅ (signals surface).
Proof.
  unfold signals. rewrite foldM_flat_map. apply foldM_ext. apply pair_entry_signals.
Qed.

(** ** What validation guarantees *)

(** [Closes j id] answers [Opens i id]. *)
Definition answers_call (l : list signal) (i j : nat) (id : string) : Prop :=
  ∃ l1 l2 l3, l = l1 ++ Opens i id :: l2 ++ Closes j id :: l3
              ∧ Forall (λ s, signal_id s ≠ id) l2.

Section validated.
Context (r : CompactionRange).

Lemma signal_step_other pending pending' s id :
  signal_step r pending s = Ok pending' → signal_id s ≠ id → pending' !! id = pending !! id.
Proof.
  destruct s as [i c|i c]; simpl; unfold open_call, close_call; intros Hs Hid.
  - assert (pending' = <[c := i]> pending) as ->.
    { destruct (pending !! c); [destruct (_ || _); [done|]|]; congruence. }
    by apply lookup_insert_ne.
  - destruct (pending !! c) as [k|] eqn:Hc.
    + destruct (xorb _ _); [done|]. injection Hs as <-. by apply lookup_delete_ne.
    + destruct (in_range i r); congruence.
Qed.

Lemma signals_other pending pending' l id :
  foldM (signal_step r) pending l = Ok pending' → Forall (λ s, signal_id s ≠ id) l →
  pending' !! id = pending !! id.
Proof.
  revert pending. induction l as [|s l IH]; intros pending Hl Hf; simpl in Hl; [by injection Hl as <-|].
  apply bind_Ok in Hl as (p & Hs & Hl). apply Forall_cons in Hf as [Hid Hf].
  by rewrite (IH _ Hl Hf), (signal_step_other _ _ _ _ Hs Hid).
Qed.

Lemma opened pending pending' i id :
  signal_step r pending (Opens i id) = Ok pending' → pending' !! id = Some i.
Proof.
  simpl. unfold open_call. intros Hs.
  assert (pending' = <[id := i]> pending) as ->.
  { destruct (pending !! id); [destruct (_ || _); [done|]|]; congruence. }
  apply lookup_insert_eq.
Qed.

Lemma validate_signals surface :
  validate_tool_pairs surface r = Ok tt ↔
  ∃ pending, foldM (signal_step r) ∅ (signals surface) = Ok pending
             ∧ ∀ id i, pending !! id = Some i → in_range i r = false.
Proof.
  unfold validate_tool_pairs. rewrite pairs_signals, bind_Ok.
  apply exist_proper. intros pending. apply and_iff_compat_l.
  destruct (List.find _ _) as [[id i]|] eqn:Hf.
  - split; [done|]. intros Hall. apply find_some in Hf as [Hin Hr]. simpl in Hr.
    apply list_elem_of_In, elem_of_btree_list in Hin. by rewrite (Hall _ _ Hin) in Hr.
  - split; [|done]. intros _ id i Hi. apply elem_of_btree_list, list_elem_of_In in Hi.
    exact (find_none _ _ Hf _ Hi).
Qed.

(** Both sides of a pair are on the same side of the region's bounds. *)
Lemma validated_pair surface i j id :
  validate_tool_pairs surface r = Ok tt → answers_call (signals surface) i j id →
  in_range i r = in_range j r.
Proof.
  intros (pending & Hp & _)%validate_signals (l1 & l2 & l3 & Hl & Hf). rewrite Hl in Hp.
  rewrite foldM_app in Hp. apply bind_Ok in Hp as (p1 & _ & Hp). simpl in Hp.
  apply bind_Ok in Hp as (p2 & Ho & Hp). apply (opened _ _ i id) in Ho.
  rewrite foldM_app in Hp. apply bind_Ok in Hp as (p3 & H2 & Hp).
  apply signals_other with (id := id) in H2; [|done]. rewrite Ho in H2.
  simpl in Hp. apply bind_Ok in Hp as (p4 & Hc & _). unfold close_call in Hc. rewrite H2 in Hc.
  destruct (xorb _ _) eqn:Hx; [done|]. symmetry. by apply xorb_eq.
Qed.

(** A call inside the region is answered. *)
Lemma validated_call surface i id :
  validate_tool_pairs surface r = Ok tt → Opens i id ∈ signals surface → in_range i r = true →
  ∃ j, answers_call (signals surface) i j id.
Proof.
  intros (pending & Hp & Hout)%validate_signals (l1 & l2 & Hl)%list_elem_of_split Hi.
  rewrite Hl, foldM_app in Hp. apply bind_Ok in Hp as (p1 & _ & Hp). simpl in Hp.
  apply bind_Ok in Hp as (p2 & Ho & Hp). apply (opened _ _ i id) in Ho.
  assert (∃ j l3 l4, l2 = l3 ++ Closes j id :: l4 ∧ Forall (λ s, signal_id s ≠ id) l3) as
    (j & l3 & l4 & -> & Hf); [|exists j, l1, l3, l4; by rewrite Hl].
  clear l1 p1 Hl. revert p2 Ho Hp. induction l2 as [|s l2 IH]; intros p Ho Hp; simpl in Hp.
  - injection Hp as ->. by rewrite (Hout _ _ Ho) in Hi.
  - apply bind_Ok in Hp as (p' & Hs & Hp). destruct (decide (signal_id s = id)) as [He|He].
    + destruct s as [k c|k c]; simpl in He, Hs; subst c.
      * unfold open_call in Hs. rewrite Ho, Hi, orb_true_r in Hs. done.
      * by exists k, [], l2.
    + destruct (IH p') as (j & l3 & l4 & -> & Hf); [|done|].
      { by rewrite (signal_step_other _ _ _ _ Hs He). }
      exists j, (s :: l3), l4. split; [done|]. by constructor.
Qed.

(** A result inside the region answers a call. *)
Lemma validated_result surface j id :
  validate_tool_pairs surface r = Ok tt → Closes j id ∈ signals surface → in_range j r = true →
  ∃ i, answers_call (signals surface) i j id.
Proof.
  intros (pending & Hp & _)%validate_signals (l1 & l2 & Hl)%list_elem_of_split Hj.
  rewrite Hl, foldM_app in Hp. apply bind_Ok in Hp as (p1 & Hp1 & Hp). simpl in Hp.
  apply bind_Ok in Hp as (p2 & Hc & _). unfold close_call in Hc.
  destruct (p1 !! id) as [i|] eqn:Hi; [|by rewrite Hj in Hc].
  assert (∃ i l3 l4, l1 = l3 ++ Opens i id :: l4 ∧ Forall (λ s, signal_id s ≠ id) l4) as
    (k & l3 & l4 & -> & Hf).
  { clear Hl Hc. revert p1 i Hp1 Hi. induction l1 as [|s l1 IH] using rev_ind; intros p1 i Hp1 Hi.
    { simpl in Hp1. injection Hp1 as <-. by rewrite lookup_empty in Hi. }
    rewrite foldM_app in Hp1. apply bind_Ok in Hp1 as (p0 & Hp0 & Hs). simpl in Hs.
    apply bind_Ok in Hs as (p1' & Hs & [= ->]).
    destruct (decide (signal_id s = id)) as [He|He].
    - destruct s as [k c|k c]; simpl in He; subst c; [by exists k, l1, []|].
      exfalso. simpl in Hs. unfold close_call in Hs. destruct (p0 !! id) eqn:H0.
      + destruct (xorb _ _); [done|]. injection Hs as <-. by rewrite lookup_delete_eq in Hi.
      + destruct (in_range k r); [done|]. injection Hs as ->. congruence.
    - rewrite (signal_step_other _ _ _ _ Hs He) in Hi.
      destruct (IH p0 i Hp0 Hi) as (k & l3 & l4 & -> & Hf). exists k, l3, (l4 ++ [s]).
      rewrite <-app_assoc. split; [done|]. apply Forall_app. split; [done|]. by constructor. }
  exists k, l3, l4, l2. rewrite Hl, <-app_assoc. done.
Qed.
End validated.

(** ** Orderly surfaces *)

Definition orderly_signal (pending : gset string) (s : signal) : result unit (gset string) :=
  match s with
  | Opens _ id => if bool_decide (id ∈ pending) then Err tt else Ok (pending ∪ {[ id ]})
  | Closes _ id => if bool_decide (id ∈ pending) then Ok (pending ∖ {[ id ]}) else Err tt
  end.
Definition orderly_entry (pending : gset string) (e : SurfaceMessage) : result unit (gset string) :=
  foldM orderly_signal pending (entry_signals (0%nat, e)).
Definition orderly (surface : list SurfaceMessage) : Prop :=
  is_ok (foldM orderly_entry ∅ surface) = true.

Lemma foldM_sim {E F X S T} (R : S → T → Prop) (f : S → X → result E S) (g : T → X → result F T) l :
  (∀ s t x s', x ∈ l → R s t → f s x = Ok s' → ∃ t', g t x = Ok t' ∧ R s' t') →
  ∀ s t s', R s t → foldM f s l = Ok s' → ∃ t', foldM g t l = Ok t' ∧ R s' t'.
Proof.
  induction l as [|x l IH]; intros Hfg s t s' Hr Hf; simpl in Hf.
  { injection Hf as <-. by exists t. }
  apply bind_Ok in Hf as (s1 & Hs1 & Hf).
  destruct (Hfg s t x s1) as (t1 & Ht1 & Hr1); [apply list_elem_of_here|done..|].
  destruct (IH (λ s t x s' Hx, Hfg s t x s' (list_elem_of_further _ _ _ Hx)) s1 t1 s') as (t' & Ht' & Hr');
    [done..|].
  exists t'. simpl. by rewrite Ht1.
Qed.

Lemma orderly_index pending i e :
  foldM orderly_signal pending (entry_signals (i, e)) = orderly_entry pending e.
Proof.
  unfold orderly_entry, entry_signals. rewrite !foldM_app, !foldM_fmap. simpl.
  destruct (foldM _ _ (tool_calls _)) as [p|]; simpl; [|done]. by rewrite !foldM_fmap.
Qed.

Lemma orderly_calls calls pending pending' :
  foldM orderly_signal pending (Opens 0 <$> calls) = Ok pending' →
  pending' = pending ∪ list_to_set calls.
Proof.
  rewrite foldM_fmap. revert pending. induction calls as [|c calls IH]; intros pending; simpl.
  { intros [= <-]. set_solver. }
  destruct (bool_decide _); [done|]. simpl. intros ->%IH. set_solver.
Qed.

Lemma orderly_results ids pending pending' :
  foldM orderly_signal pending (Closes 0 <$> ids) = Ok pending' →
  pending' = foldl (λ p id, p ∖ {[ id ]}) pending ids.
Proof.
  rewrite foldM_fmap. revert pending. induction ids as [|c ids IH]; intros pending; simpl.
  { by intros [= <-]. }
  destruct (bool_decide _); [|done]. simpl. apply IH.
Qed.

Lemma orderly_after pending e pending' :
  orderly_entry pending e = Ok pending' → pending_after pending e = pending'.
Proof.
  unfold orderly_entry, entry_signals. rewrite foldM_app. intros (p & Hc & Hr)%bind_Ok.
  apply orderly_calls in Hc as ->. by apply orderly_results in Hr as ->.
Qed.

Lemma orderly_surface surface pending pending' :
  foldM orderly_entry pending surface = Ok pending' → foldl pending_after pending surface = pending'.
Proof.
  revert pending. induction surface as [|e l IH]; intros pending; simpl; [by intros [= <-]|].
  intros (p & Hp & Hl)%bind_Ok. apply orderly_after in Hp as ->. by apply IH.
Qed.

Lemma boundaries_from_elem surface pending k b :
  b ∈ boundaries_from pending k surface ↔
  ∃ n, b = (k + S n)%nat ∧ (n < length surface)%nat ∧ foldl pending_after pending (take (S n) surface) = ∅.
Proof.
  revert pending k. induction surface as [|e l IH]; intros pending k; simpl.
  { split; [by intros ?%elem_of_nil|]. intros (n & _ & Hn & _). lia. }
  rewrite elem_of_app, IH. split.
  - intros [Hb|(n & -> & Hn & Hf)].
    + case_bool_decide as He; [|by apply elem_of_nil in Hb]. apply list_elem_of_singleton in Hb as ->.
      exists 0%nat. split; [lia|]. split; [lia|]. by rewrite take_0.
    + exists (S n). split; [lia|]. split; [lia|]. done.
  - intros ([|n] & -> & Hn & Hf).
    + left. rewrite take_0 in Hf. simpl in Hf. rewrite bool_decide_true by done.
      apply list_elem_of_singleton. lia.
    + right. exists n. split; [lia|]. split; [lia|]. done.
Qed.

Lemma complete_boundary surface b :
  b ∈ complete_boundaries surface ↔
  (b ≤ length surface)%nat ∧ foldl pending_after ∅ (take b surface) = ∅.
Proof.
  unfold complete_boundaries. rewrite elem_of_cons, boundaries_from_elem. split.
  - intros [->|(n & -> & Hn & Hf)]; [rewrite take_0; split; [lia|done]|]. split; [lia|done].
  - intros [Hb Hf]. destruct b as [|b]; [by left|]. right. exists b. split; [lia|]. split; [lia|done].
Qed.

Lemma boundaries_from_sorted surface pending k :
  StronglySorted lt (k :: boundaries_from pending k surface).
Proof.
  revert pending k. induction surface as [|e l IH]; intros pending k; simpl.
  { repeat constructor. }
  specialize (IH (pending_after pending e) (S k)).
  destruct (bool_decide _); simpl.
  - constructor; [done|]. apply Forall_forall. intros b [->|Hb]%elem_of_cons; [lia|].
    apply StronglySorted_inv in IH as [_ IH]. rewrite Forall_forall in IH. specialize (IH b Hb). lia.
  - apply StronglySorted_inv in IH as [IH1 IH2]. constructor; [done|].
    eapply Forall_impl; [done|]. simpl. lia.
Qed.
Lemma boundaries_sorted surface : StronglySorted lt (complete_boundaries surface).
Proof. apply boundaries_from_sorted. Qed.

(** ** Regions between boundaries *)

Section region.
Context (r : CompactionRange).

(** The calls that wait are on side [c] of the region's bounds. *)
Definition tracks (c : bool) (p : gset string) (P : gmap string nat) : Prop :=
  dom P = p ∧ ∀ id i, P !! id = Some i → in_range i r = c.

Lemma tracks_empty c c' P : tracks c ∅ P → tracks c' ∅ P.
Proof. intros [Hd%dom_empty_inv_L _]. subst P. by split. Qed.

Lemma tracked_signal c p P s p' :
  tracks c p P → match s with Opens i _ | Closes i _ => in_range i r = c end →
  orderly_signal p s = Ok p' → ∃ P', signal_step r P s = Ok P' ∧ tracks c p' P'.
Proof.
  intros [Hd Hc] Hi Ho. destruct s as [i id|i id]; simpl in *; case_bool_decide as Hin; try done;
    injection Ho as <-.
  - exists (<[id := i]> P). unfold open_call.
    assert (P !! id = None) as -> by (apply not_elem_of_dom; by rewrite Hd).
    split; [done|]. split; [rewrite dom_insert_L; set_solver|].
    intros id' j. destruct (decide (id = id')) as [->|].
    + rewrite lookup_insert_eq. by intros [= <-].
    + rewrite lookup_insert_ne by done. apply Hc.
  - rewrite <-Hd in Hin. apply elem_of_dom in Hin as [j Hj]. exists (delete id P).
    unfold close_call. rewrite Hj, Hi, (Hc _ _ Hj), xorb_nilpotent.
    split; [done|]. split; [rewrite dom_delete_L; set_solver|].
    intros id' k. destruct (decide (id = id')) as [->|].
    + by rewrite lookup_delete_eq.
    + rewrite lookup_delete_ne by done. apply Hc.
Qed.

Lemma tracked_entries c k surface p P p' :
  (∀ i, (k ≤ i < k + length surface)%nat → in_range i r = c) → tracks c p P →
  foldM orderly_entry p surface = Ok p' →
  ∃ P', foldM (pair_entry r) P (imap (λ i e, ((k + i)%nat, e)) surface) = Ok P' ∧ tracks c p' P'.
Proof.
  revert k p P. induction surface as [|e l IH]; intros k p P Hk Ht Ho; simpl in *.
  { injection Ho as <-. by exists P. }
  apply bind_Ok in Ho as (p1 & He & Ho).
  rewrite pair_entry_signals. rewrite <-(orderly_index p k) in He.
  replace (k + 0)%nat with k by lia.
  destruct (foldM_sim (tracks c) orderly_signal (signal_step r) (entry_signals (k, e))) with
    (s := p) (t := P) (s' := p1) as (P1 & HP1 & Ht1); [|done..|].
  { intros q Q s q' Hs Hq Hq'. apply (tracked_signal c q); [done| |done].
    unfold entry_signals in Hs. apply elem_of_app in Hs as [Hs|Hs];
      apply list_elem_of_fmap in Hs as (id & -> & _); apply Hk; simpl; lia. }
  rewrite HP1. simpl. destruct (IH (S k) p1 P1) as (P' & HP' & Ht'); [|done..|].
  { intros i Hi. apply Hk. lia. }
  exists P'. split; [|done]. rewrite <-HP'. f_equal. apply imap_ext. intros i x _. simpl. f_equal. lia.
Qed.
End region.

Lemma orderly_app l1 l2 p :
  is_ok (foldM orderly_entry p (l1 ++ l2)) = true →
  ∃ q, foldM orderly_entry p l1 = Ok q ∧ is_ok (foldM orderly_entry q l2) = true.
Proof. rewrite foldM_app. destruct (foldM orderly_entry p l1) as [q|]; [|done]. by exists q. Qed.

(** An orderly surface runs from boundary to boundary without pending calls. *)
Lemma orderly_between surface b1 b2 :
  orderly surface → b1 ∈ complete_boundaries surface → b2 ∈ complete_boundaries surface →
  (b1 ≤ b2)%nat →
  foldM orderly_entry ∅ (take b1 surface) = Ok ∅ ∧
  foldM orderly_entry ∅ (slice surface b1 b2) = Ok ∅ ∧
  is_ok (foldM orderly_entry ∅ (drop b2 surface)) = true.
Proof.
  intros Ho [Hl1 H1]%complete_boundary [Hl2 H2]%complete_boundary Hle.
  rewrite <-(take_drop b1 surface) in Ho. apply orderly_app in Ho as (q & Hq & Ho).
  pose proof (orderly_surface _ _ _ Hq) as Hq'. rewrite H1 in Hq'. subst q.
  assert (drop b1 surface = slice surface b1 b2 ++ drop b2 surface) as Hd.
  { unfold slice. rewrite <-(take_drop (b2 - b1) (drop b1 surface)) at 1.
    rewrite drop_drop. do 2 f_equal. lia. }
  rewrite Hd in Ho. apply orderly_app in Ho as (q & Hs & Ho).
  pose proof (orderly_surface _ _ _ Hs) as Hs'.
  assert (take b2 surface = take b1 surface ++ slice surface b1 b2) as Ht.
  { unfold slice. rewrite <-(take_drop b1 (take b2 surface)). rewrite take_take, skipn_firstn_comm.
    do 2 f_equal. lia. }
  rewrite Ht, foldl_app, H1 in H2. rewrite Hs' in H2. by subst q.
Qed.

Lemma boundary_region_valid surface b1 b2 :
  orderly surface → b1 ∈ complete_boundaries surface → b2 ∈ complete_boundaries surface →
  (b1 < b2)%nat →
  validate_tool_pairs surface (mkRange (N.of_nat b1) (N.of_nat (b2 - 1))) = Ok tt.
Proof.
  intros Ho Hb1 Hb2 Hlt. set (r := mkRange _ _).
  destruct (orderly_between _ _ _ Ho Hb1 Hb2) as (H1 & H2 & H3); [lia|].
  apply complete_boundary in Hb1 as [Hl1 _], Hb2 as [Hl2 _].
  assert (∀ i, in_range i r = true ↔ (b1 ≤ i < b2)%nat) as Hr.
  { intros i. unfold in_range, r. simpl. rewrite andb_true_iff, !N.leb_le. lia. }
  assert (∀ i, (i < b1 ∨ b2 ≤ i)%nat → in_range i r = false) as Hout.
  { intros i Hi. destruct (in_range i r) eqn:E; [|done]. apply Hr in E. lia. }
  destruct (foldM orderly_entry ∅ (drop b2 surface)) as [p3|] eqn:Hp3; [|done].
  destruct (tracked_entries r false 0 (take b1 surface) ∅ ∅ ∅) as (P1 & HP1 & T1); [|by split|done|].
  { intros i Hi. apply Hout. rewrite length_take in Hi. lia. }
  destruct (tracked_entries r true b1 (slice surface b1 b2) ∅ P1 ∅) as (P2 & HP2 & T2); [| |done|].
  { intros i Hi. apply Hr. unfold slice in Hi. rewrite length_take, length_drop in Hi. lia. }
  { by apply (tracks_empty r false). }
  destruct (tracked_entries r false b2 (drop b2 surface) ∅ P2 p3) as (P3 & HP3 & T3); [| |done|].
  { intros i Hi. apply Hout. lia. }
  { by apply (tracks_empty r true). }
  apply validate_signals. exists P3. split; [|apply T3].
  rewrite <-pairs_signals.
  assert (surface = take b1 surface ++ slice surface b1 b2 ++ drop b2 surface) as Hs.
  { rewrite <-(take_drop b1 surface) at 1. f_equal. unfold slice.
    rewrite <-(take_drop (b2 - b1) (drop b1 surface)) at 1. rewrite drop_drop. do 2 f_equal. lia. }
  rewrite Hs at 1. rewrite !imap_app, !foldM_app.
  change (imap pair (take b1 surface)) with (imap (λ i e, ((0 + i)%nat, e)) (take b1 surface)).
  rewrite HP1. simpl.
  replace (length (take b1 surface)) with b1 by (rewrite length_take; lia).
  rewrite foldM_app.
  rewrite (HP2 : foldM (pair_entry r) P1 (imap (λ n, pair (b1 + n)%nat) (slice surface b1 b2)) = Ok P2).
  simpl. rewrite <-HP3. f_equal. apply imap_ext. intros i e _. simpl. f_equal.
  unfold slice. rewrite length_take, length_drop. lia.
Qed.

(** ** Slices *)

Lemma slice_app {X} (l : list X) a b c :
  (a ≤ b ≤ c)%nat → slice l a b ++ slice l b c = slice l a c.
Proof.
  intros [Hab Hbc]. unfold slice. replace (c - a)%nat with ((b - a) + (c - b))%nat by lia.
  rewrite <-take_take_drop, drop_drop. do 3 f_equal. lia.
Qed.

Lemma slice_nil {X} (l : list X) a : slice l a a = [].
Proof. unfold slice. by rewrite Nat.sub_diag. Qed.

Lemma slice_fmap {X Y} (f : X → Y) l a b : slice (f <$> l) a b = f <$> slice l a b.
Proof. unfold slice. by rewrite <-fmap_drop, <-fmap_take. Qed.

Lemma elem_of_slice {X} (l : list X) a b x :
  x ∈ slice l a b ↔ ∃ i, (a ≤ i < b)%nat ∧ l !! i = Some x.
Proof.
  unfold slice. rewrite list_elem_of_lookup. split.
  - intros [i Hi]. apply lookup_take_Some in Hi as [Hi Hlt]. rewrite lookup_drop in Hi.
    exists (a + i)%nat. split; [lia|done].
  - intros (i & Hi & Hx). exists (i - a)%nat. apply lookup_take_Some. rewrite lookup_drop.
    replace (a + (i - a))%nat with i by lia. split; [done|lia].
Qed.

Lemma sum_N_app l1 l2 : sum_N (l1 ++ l2) = (sum_N l1 + sum_N l2)%N.
Proof. induction l1 as [|n l1 IH]; [done|]. simpl. rewrite IH. lia. Qed.

(** ** The batch of a recovery *)

Section selection.
Context `{CompactionWire}.
Context (cfg : CompactionConfig) (seeds : list N) (li : Limits) (current : list SurfaceMessage).
#[local] Abbreviation boundaries := (complete_boundaries current).
#[local] Abbreviation protected := (protected seeds li current).

(** Groups that follow each other from [p] on. *)
Fixpoint chain (p : nat) (gs : list (nat * nat)) : Prop :=
  match gs with
  | [] => True
  | g :: gs => g.1 = p ∧ (p < g.2)%nat ∧ p ∈ boundaries ∧ g.2 ∈ boundaries ∧ chain g.2 gs
  end.

Lemma chain_zip p l :
  StronglySorted lt (p :: l) → (∀ b, b ∈ p :: l → b ∈ boundaries) → chain p (zip (p :: l) l).
Proof.
  revert p. induction l as [|q l IH]; intros p Hs Hb; [done|]. simpl.
  apply StronglySorted_inv in Hs as [Hs Hp]. apply Forall_cons in Hp as [Hp _].
  repeat split; [done|apply Hb; set_solver..|]. apply IH; [done|]. intros b Hin. apply Hb. set_solver.
Qed.

Lemma groups_chain : chain 0 (groups current).
Proof.
  unfold groups. pose proof (boundaries_sorted current) as Hs. unfold complete_boundaries in *.
  by apply chain_zip.
Qed.

(** What the code promises of a region that it selects. *)
Record region (s q : nat) : Prop := {
  rg_starts : s ∈ boundaries;
  rg_stops : q ∈ boundaries;
  rg_nonempty : (s < q)%nat;
  rg_unprotected : ∀ i, (s ≤ i < q)%nat → protected i = false;
  rg_count : (N.of_nat (q - s) ≤ cf_max_surface_messages cfg)%N;
  rg_input : (sum_N (slice (sizes current) s q) ≤ li_input li)%N;
  rg_tokens : ∀ limit, li_summary li = Some limit →
    (sum_N (slice (estimates current) s q) ≤ limit)%N;
}.

Definition worth (s q : nat) : Prop :=
  (∃ e, e ∈ slice current s q ∧ is_summary (sm_message e) = false) ∧
  (li_minimum_summary li < sum_N (slice (sizes current) s q))%N.

Definition selectable (r : CompactionRange) : Prop :=
  ∃ s q, r = mkRange (N.of_nat s) (N.of_nat (q - 1)) ∧ region s q ∧ worth s q.

Definition batched (p : nat) (b : Batch) : Prop :=
  match b_start b with
  | None => b = mkBatch None None 0 0 false
  | Some s =>
      region s p ∧ b_cp b = sum_N (slice (sizes current) s p)
      ∧ b_tokens b = sum_N (slice (estimates current) s p)
      ∧ b_fresh b = existsb (λ e, negb (is_summary (sm_message e))) (slice current s p)
      ∧ ∀ r, b_selected b = Some r → selectable r
  end.

Lemma group_protected_false s q :
  group_protected seeds li current s q = false → ∀ i, (s ≤ i < q)%nat → protected i = false.
Proof.
  unfold group_protected. intros Hg i Hi.
  destruct (protected i) eqn:Hp; [|done]. rewrite <-Hg. symmetry. apply existsb_exists.
  exists i. split; [apply in_seq; lia|done].
Qed.

Lemma oversize_false s q cp tokens :
  oversize cfg li s q cp tokens = false →
  (N.of_nat (q - s) ≤ cf_max_surface_messages cfg)%N ∧ (cp ≤ li_input li)%N ∧
  ∀ limit, li_summary li = Some limit → (tokens ≤ limit)%N.
Proof.
  unfold oversize. rewrite !orb_false_iff, !N.ltb_ge. intros [[? ?] Ht]. repeat split; [done..|].
  intros limit Hl. rewrite Hl in Ht. by apply N.ltb_ge.
Qed.

Lemma grow_batched p q b :
  batched p b → p ∈ boundaries → q ∈ boundaries → (p < q)%nat →
  (∀ i, (p ≤ i < q)%nat → protected i = false) →
  let s := default p (b_start b) in
  let cp := (b_cp b + sum_N (slice (sizes current) p q))%N in
  let tokens := (b_tokens b + sum_N (slice (estimates current) p q))%N in
  oversize cfg li s q cp tokens = false →
  batched q (grow li current b s p q cp tokens).
Proof.
  intros Hb Hp Hq Hlt Hu s cp tokens (Hc & Hi & Ht)%oversize_false.
  assert (s ∈ boundaries ∧ (s ≤ p)%nat ∧ (∀ i, (s ≤ i < p)%nat → protected i = false) ∧
    b_cp b = sum_N (slice (sizes current) s p) ∧ b_tokens b = sum_N (slice (estimates current) s p) ∧
    b_fresh b = existsb (λ e, negb (is_summary (sm_message e))) (slice current s p) ∧
    ∀ r, b_selected b = Some r → selectable r) as (Hs & Hsp & Hus & Hcp & Htk & Hf & Hsel).
  { subst s. unfold batched in Hb. destruct (b_start b) as [s|] eqn:Es; simpl.
    - destruct Hb as ([] & ? & ? & ? & ?). repeat split; [done|lia|done..].
    - subst b. simpl. rewrite !slice_nil. repeat split; try done. intros i. lia. }
  assert (cp = sum_N (slice (sizes current) s q)) as Ecp.
  { subst cp. rewrite Hcp, <-sum_N_app, slice_app by lia. done. }
  assert (tokens = sum_N (slice (estimates current) s q)) as Etk.
  { subst tokens. rewrite Htk, <-sum_N_app, slice_app by lia. done. }
  assert (region s q) as Hr.
  { split; [done|done|lia| |done|by rewrite <-Ecp|by rewrite <-Etk].
    intros i Hx. destruct (decide (i < p)%nat); [apply Hus; lia|apply Hu; lia]. }
  assert (b_fresh b || existsb (λ e, negb (is_summary (sm_message e))) (slice current p q)
          = existsb (λ e, negb (is_summary (sm_message e))) (slice current s q)) as Hfr.
  { by rewrite Hf, <-existsb_app, slice_app by lia. }
  unfold batched, grow. cbn [b_start b_cp b_tokens b_fresh b_selected]. rewrite Hfr.
  refine (conj Hr (conj Ecp (conj Etk (conj eq_refl _)))).
  intros r. destruct (existsb _ _ && _) eqn:Hw; [|apply Hsel].
  intros [= <-]. apply andb_true_iff in Hw as [Hx Hw].
  exists s, q. split; [done|]. split; [done|]. split; [|rewrite <-Ecp; by apply N.ltb_lt].
  apply existsb_exists in Hx as (e & He & Hn). exists e. split; [by apply list_elem_of_In|].
  by destruct (is_summary _).
Qed.

Lemma select_spec gs p b :
  chain p gs → batched p b →
  match select cfg seeds li current gs b with
  | (Some r, None) => selectable r
  | (Some _, Some _) => False
  | (None, Some (s, q)) => (s, q) ∈ gs ∧ ∀ i, (s ≤ i < q)%nat → protected i = false
  | (None, None) => True
  end.
Proof.
  revert p b. induction gs as [|[s q] gs IH]; intros p b Hc Hb; simpl.
  { destruct (b_selected b) eqn:Hs; [|done]. unfold batched in Hb.
    destruct (b_start b); [by apply Hb|]. by subst b. }
  destruct Hc as (Hp & Hlt & Hp' & Hq & Hc). simpl in *. subst s.
  assert (∀ r, b_selected b = Some r → selectable r) as Hsel.
  { intros r Hr. unfold batched in Hb. destruct (b_start b); [by apply Hb|]. by subst b. }
  destruct (group_protected _ _ _ _ _) eqn:Hg.
  - destruct (b_selected b) eqn:Hs; [by apply Hsel|].
    specialize (IH q (mkBatch None None 0 0 false) Hc eq_refl).
    destruct (select _ _ _ _ _ _) as [[r|] [[s' q']|]]; try done. split; [|apply IH].
    apply list_elem_of_further, IH.
  - pose proof (group_protected_false _ _ Hg) as Hu.
    destruct (oversize _ _ _ _ _ _) eqn:Ho.
    + destruct (b_selected b) eqn:Hs; [by apply Hsel|]. split; [apply list_elem_of_here|done].
    + specialize (IH q _ Hc (grow_batched p q b Hb Hp' Hq Hlt Hu Ho)).
      destruct (select _ _ _ _ _ _) as [[r|] [[s' q']|]]; try done. split; [|apply IH].
      apply list_elem_of_further, IH.
Qed.

Lemma selected_region r :
  (selection cfg seeds li current).1 = Some r → selectable r.
Proof.
  intros Hs. pose proof (select_spec (groups current) 0 (mkBatch None None 0 0 false) groups_chain eq_refl)
    as Hspec. fold (selection cfg seeds li current) in Hspec.
  destruct (selection cfg seeds li current) as [o [[]|]]; simpl in Hs; by subst o.
Qed.

(** ** The plan of a selected region *)

Lemma checked_sum_fits l n : (n + sum_N l ≤ U64_MAX)%N →
  foldl (λ total k, total ← total; u64_checked_add total k) (Some n) l = Some (n + sum_N l)%N.
Proof.
  revert n. induction l as [|k l IH]; intros n Hn; simpl in *; [f_equal; lia|].
  rewrite u64_checked_add_fits by lia. rewrite IH by lia. f_equal. lia.
Qed.

Lemma checked_sum_inv l n m :
  foldl (λ total k, total ← total; u64_checked_add total k) (Some n) l = Some m → m = (n + sum_N l)%N.
Proof.
  revert n. induction l as [|k l IH]; intros n; simpl; [intros [= <-]; lia|].
  destruct (u64_checked_add n k) as [n'|] eqn:Hn.
  - apply u64_checked_add_Some in Hn as [-> _]. intros ->%IH. lia.
  - assert (∀ l, foldl (λ total k, total ← total; u64_checked_add total k) None l = None) as ->; [|done].
    intros l'. by induction l'.
Qed.

Lemma range_slice_region s q :
  (s < q ≤ length current)%nat →
  range_slice current (mkRange (N.of_nat s) (N.of_nat (q - 1))) = Ok (slice current s q).
Proof.
  intros Hs. unfold range_slice, slice. cbn [rg_start rg_end].
  replace (N.of_nat (q - 1) <? N.of_nat s)%N with false by (symmetry; apply N.ltb_ge; lia).
  replace (N.of_nat (length current) <=? N.of_nat (q - 1))%N with false
    by (symmetry; apply N.leb_gt; lia).
  simpl. rewrite !Nat2N.id. do 3 f_equal. lia.
Qed.

Definition region_plan (s q : nat) (r : CompactionRange) : Plan :=
  mkPlan r (sm_event_seq <$> current) (sm_event_seq <$> slice current s q)
    (sm_message <$> slice current s q) (tokens_for (sum_N (slice (sizes current) s q))).

Lemma region_plan_inv s q plan :
  region s q → let r := mkRange (N.of_nat s) (N.of_nat (q - 1)) in
  plan_from_surface cfg current r (li_input li) = Ok plan → plan = region_plan s q r.
Proof.
  intros [Hs [Hq _]%complete_boundary Hlt _ _ _ _]. cbv zeta. unfold plan_from_surface.
  rewrite (range_slice_region s q) by lia. simpl. destruct (_ <? _)%N; [done|].
  intros ([] & _ & Hp)%bind_Ok. apply bind_Ok in Hp as (n & Hn%ok_or_Ok & Hp).
  assert (n = sum_N (slice (sizes current) s q)) as ->.
  { unfold checked_sum in Hn. unfold sizes. rewrite slice_fmap. rewrite <-list_fmap_compose in Hn.
    change (serialized_codepoints ∘ sm_message <$> slice current s q) with
      ((λ e, serialized_codepoints (sm_message e)) <$> slice current s q) in Hn.
    by apply checked_sum_inv in Hn. }
  destruct (_ <? _)%N; [done|]. by injection Hp as <-.
Qed.

Lemma region_planned s q :
  orderly current → (li_input li ≤ U64_MAX)%N → region s q →
  let r := mkRange (N.of_nat s) (N.of_nat (q - 1)) in
  plan_from_surface cfg current r (li_input li) = Ok (region_plan s q r).
Proof.
  intros Ho Hu [Hs Hq Hlt Hun Hc Hi Ht]. cbv zeta.
  pose proof (boundary_region_valid current s q Ho Hs Hq Hlt) as Hv.
  apply complete_boundary in Hq as [Hq _].
  unfold plan_from_surface. rewrite (range_slice_region s q) by lia. simpl.
  assert (length (slice current s q) = q - s)%nat as Hl.
  { unfold slice. rewrite length_take, length_drop. lia. }
  rewrite Hl. destruct (N.ltb_spec (cf_max_surface_messages cfg) (N.of_nat (q - s))); [lia|].
  rewrite Hv. simpl.
  assert (serialized_codepoints <$> (sm_message <$> slice current s q) = slice (sizes current) s q) as ->.
  { unfold sizes. rewrite slice_fmap, <-list_fmap_compose. reflexivity. }
  assert (checked_sum (slice (sizes current) s q) = Some (sum_N (slice (sizes current) s q))) as ->
    by (unfold checked_sum; rewrite checked_sum_fits by lia; done).
  simpl. destruct (N.ltb_spec (li_input li) (sum_N (slice (sizes current) s q))); [lia|]. done.
Qed.

(** ** The tool result to prune *)

Lemma max_by_key_elem {X} (f : X → N) l x : max_by_key f l = Some x → x ∈ l.
Proof.
  unfold max_by_key. intros Hx.
  assert (∀ l o, foldl (λ best x, match best with
    | Some y => if (f y <=? f x)%N then Some x else best | None => Some x end) o l = Some x →
    x ∈ l ∨ o = Some x) as Hg.
  { clear l Hx. induction l as [|y l IH]; intros o Hx; simpl in Hx; [by right|].
    destruct (IH _ Hx) as [Hin|Ho]; [left; by apply list_elem_of_further|].
    destruct o as [z|]; [destruct (_ <=? _)%N; [|by right]|]; left; injection Ho as <-;
      apply list_elem_of_here. }
  destruct (Hg _ _ Hx) as [|[=]]; done.
Qed.

Lemma chain_within p gs g : chain p gs → g ∈ gs → (g.1 < g.2 ≤ length current)%nat.
Proof.
  revert p. induction gs as [|h gs IH]; intros p Hc Hg; [by apply elem_of_nil in Hg|].
  simpl in Hc. destruct Hc as (Hp & Hlt & _ & [Hq _]%complete_boundary & Hc).
  apply elem_of_cons in Hg as [->|Hg]; [lia|by apply (IH h.2)].
Qed.

Lemma find_group g :
  List.find (λ g, (li_target_cp li / 2 <? sum_N (slice (sizes current) g.1 g.2))%N
                  && negb (existsb (is_seed seeds current) (seq g.1 (g.2 - g.1)))) (groups current)
    = Some g →
  g ∈ groups current ∧ ∀ i, (g.1 ≤ i < g.2)%nat → is_seed seeds current i = false.
Proof.
  intros [Hin [_ Hf]%andb_true_iff]%find_some. split; [by apply list_elem_of_In|]. intros i Hi.
  destruct (is_seed _ _ i) eqn:He; [|done]. apply negb_true_iff in Hf. rewrite <-Hf.
  symmetry. apply existsb_exists. exists i. split; [apply in_seq; lia|done].
Qed.

Lemma blocking_no_seed g :
  blocking_group cfg seeds li current = Some g →
  g ∈ groups current ∧ ∀ i, (g.1 ≤ i < g.2)%nat → is_seed seeds current i = false.
Proof.
  intros Hb. unfold blocking_group in Hb.
  pose proof (select_spec (groups current) 0 (mkBatch None None 0 0 false) groups_chain eq_refl) as Hspec.
  fold (selection cfg seeds li current) in Hspec.
  destruct (selection cfg seeds li current) as [[r|] [[s q]|]]; simpl in Hb, Hspec.
  - done.
  - by apply find_group.
  - injection Hb as <-. destruct Hspec as [Hin Hu]. split; [done|]. intros i Hi.
    specialize (Hu i Hi). unfold Compaction.protected in Hu. by apply orb_false_iff in Hu as [[[? _]%orb_false_iff _]%orb_false_iff _].
  - by apply find_group.
Qed.

Lemma prunable_spec e :
  prunable cfg seeds li current = Some e →
  e ∈ current ∧ is_tool (sm_message e) = true ∧ (sm_event_seq e ∉ seeds)
  ∧ (prune_cap cfg li < serialized_codepoints (sm_message e))%N.
Proof.
  unfold prunable. intros (g & Hg & Hp)%bind_Some. apply bind_Some in Hp as (e' & Hm & Hp).
  destruct (N.ltb_spec (prune_cap cfg li) (serialized_codepoints (sm_message e'))); [|done].
  injection Hp as ->. apply max_by_key_elem, list_elem_of_filter in Hm as [Ht Hin].
  apply elem_of_slice in Hin as (i & Hi & Hin). apply blocking_no_seed in Hg as [_ Hs].
  specialize (Hs i Hi). unfold is_seed in Hs. rewrite Hin in Hs. simpl in Hs.
  apply bool_decide_eq_false in Hs. repeat split; try done. by eapply list_elem_of_lookup_2.
Qed.

(** ** What an unanswered call does *)

(** Behind a call that is never answered no boundary follows, so no history. *)
Lemma pending_kept id pending e :
  id ∈ pending ∨ id ∈ tool_calls (sm_message e) → id ∉ tool_results (sm_message e) →
  id ∈ pending_after pending e.
Proof.
  intros Hid He. unfold pending_after.
  assert (id ∈ pending ∪ list_to_set (tool_calls (sm_message e))) as Hu by set_solver.
  revert Hu. generalize (pending ∪ list_to_set (tool_calls (sm_message e))).
  induction (tool_results (sm_message e)) as [|x ids IH]; intros p Hp; [done|]. simpl.
  apply IH; set_solver.
Qed.

Lemma pending_sticks id surface pending :
  id ∈ pending → (∀ e, e ∈ surface → id ∉ tool_results (sm_message e)) →
  id ∈ foldl pending_after pending surface.
Proof.
  revert pending. induction surface as [|e l IH]; intros pending Hid Hn; [done|]. simpl. apply IH.
  - apply pending_kept; [by left|apply Hn; set_solver].
  - intros x Hx. apply Hn. set_solver.
Qed.

Lemma unanswered_last i e id b :
  current !! i = Some e → id ∈ tool_calls (sm_message e) →
  (∀ j e', (i ≤ j)%nat → current !! j = Some e' → id ∉ tool_results (sm_message e')) →
  b ∈ boundaries → (b ≤ i)%nat.
Proof.
  intros Hi Hid Hn [Hb Hp]%complete_boundary. destruct (decide (b ≤ i)%nat) as [|Hlt]; [done|].
  exfalso. rewrite <-(take_drop i (take b current)), foldl_app, skipn_firstn_comm in Hp.
  rewrite (drop_S _ e) in Hp by done.
  replace (b - i)%nat with (S (b - S i)) in Hp by lia. simpl in Hp.
  assert (id ∈ foldl pending_after
    (pending_after (foldl pending_after ∅ (take i (take b current))) e) (take (b - S i) (drop (S i) current)))
    as Hin; [|rewrite Hp in Hin; set_solver].
  apply pending_sticks.
  - apply pending_kept; [by right|]. eapply Hn; [|done]. lia.
  - intros x Hx. apply list_elem_of_lookup in Hx as [k Hk]. apply lookup_take_Some in Hk as [Hk _].
    rewrite lookup_drop in Hk. eapply Hn; [|done]. lia.
Qed.
End selection.
