(* ===== verification/CompactionLogic.v ===== *)
(** * Runs of the compaction service, seen through an observation

    [spec obs v m Q]: from a world that [obs] sees as [v], [m] ends with a result
    and a world whose observation satisfy [Q].  The observation is the surface,
    the surface with the seeds, or the state of an automaton over the log. *)

From S2P Require Import Prelude Json Protocol Compaction Session Llm.
Import Service.

Section logic.
Context {S X : Type} (obs : CompactWorld S → X).

Definition spec {R} (v : X) (m : Compact S R) (Q : result CompactionError R → X → Prop) : Prop :=
  ∀ w, obs w = v → Q (m w).1 (obs (m w).2).

(** The observation stays, and what is returned satisfies [P]. *)
Definition kept {R} (v : X) (P : R → Prop) (r : result CompactionError R) (v' : X) : Prop :=
  v' = v ∧ ∀ x, r = Ok x → P x.
Definition any {R} : R → Prop := λ _, True.

Lemma spec_bind {R T} v (m : Compact S R) (k : R → Compact S T) Q Q1 :
  spec v m Q1 → (∀ x v', Q1 (Ok x) v' → spec v' (k x) Q) →
  (∀ e v', Q1 (Err e) v' → Q (Err e) v') → spec v (m ≫= k) Q.
Proof.
  intros Hm Hk He w Hw. specialize (Hm w Hw). unfold mbind, compact_bind.
  destruct (m w) as [[x|e] w1]; simpl in *; [by apply (Hk x _ Hm)|by apply He].
Qed.

Lemma spec_keep {R T} v (m : Compact S R) (k : R → Compact S T) P Q :
  spec v m (kept v P) → (∀ x, P x → spec v (k x) Q) → (∀ e, Q (Err e) v) →
  spec v (m ≫= k) Q.
Proof.
  intros Hm Hk He. eapply spec_bind; [done| |]; simpl.
  - intros x v' [-> HP]. by apply Hk, HP.
  - intros e v' [-> _]. apply He.
Qed.

Lemma spec_weaken {R} v (m : Compact S R) (Q Q' : _ → _ → Prop) :
  spec v m Q → (∀ r v', Q r v' → Q' r v') → spec v m Q'.
Proof. intros Hm HQ w Hw. by apply HQ, Hm. Qed.

Lemma spec_attempt {R} v (m : Compact S R) Q :
  spec v m (λ r, Q (Ok r)) → spec v (attempt m) Q.
Proof. intros Hm w Hw. specialize (Hm w Hw). unfold attempt. by destruct (m w). Qed.

Lemma spec_ret {R} v (x : R) (Q : _ → _ → Prop) : Q (Ok x) v → spec v (mret x) Q.
Proof. intros HQ w Hw. unfold mret, compact_ret. simpl. by rewrite Hw. Qed.
Lemma spec_fail {R} v e (Q : result CompactionError R → _ → Prop) : Q (Err e) v → spec v (fail e) Q.
Proof. intros HQ w Hw. unfold fail. simpl. by rewrite Hw. Qed.
Lemma spec_lift {R} v (r : result CompactionError R) (Q : _ → _ → Prop) : Q r v → spec v (lift r) Q.
Proof. intros HQ w Hw. unfold lift. simpl. by rewrite Hw. Qed.

Lemma spec_lift_bind {R T} v (r : result CompactionError R) (k : R → Compact S T) (Q : _ → _ → Prop) :
  match r with Ok x => spec v (k x) Q | Err e => Q (Err e) v end → spec v (lift r ≫= k) Q.
Proof.
  intros Hr w Hw. unfold mbind, compact_bind, lift. destruct r as [x|e]; [by apply Hr|].
  simpl. by rewrite Hw.
Qed.

Lemma kept_ret {R} v (x : R) (P : R → Prop) : P x → spec v (mret x) (kept v P).
Proof. intros HP. apply spec_ret. split; [done|]. by intros ? [= <-]. Qed.
Lemma kept_fail {R} v e (P : R → Prop) : spec v (fail e) (kept v P).
Proof. apply spec_fail. by split. Qed.
Lemma kept_lift {R} v (r : result CompactionError R) (P : R → Prop) :
  (∀ x, r = Ok x → P x) → spec v (lift r) (kept v P).
Proof. intros HP. by apply spec_lift. Qed.
Lemma kept_bind {R T} v (m : Compact S R) (k : R → Compact S T) P P1 :
  spec v m (kept v P1) → (∀ x, P1 x → spec v (k x) (kept v P)) →
  spec v (m ≫= k) (kept v P).
Proof. intros Hm Hk. eapply spec_keep; [done..|]. intros e. by split. Qed.
Lemma kept_attempt {R} v (m : Compact S R) P :
  spec v m (kept v P) → spec v (attempt m) (kept v any).
Proof.
  intros Hm. apply spec_attempt. eapply spec_weaken; [done|]. intros r v' [-> _]. by split.
Qed.
(** A part that cannot fail. *)
Definition sure {R} (v : X) (r : result CompactionError R) (v' : X) : Prop :=
  v' = v ∧ is_ok r = true.

Lemma spec_sure {R T} v (m : Compact S R) (k : R → Compact S T) Q :
  spec v m (sure v) → (∀ x, spec v (k x) Q) → spec v (m ≫= k) Q.
Proof.
  intros Hm Hk. eapply spec_bind; [done|..].
  - intros x v' [-> _]. apply Hk.
  - by intros e v' [_ [=]].
Qed.

Lemma sure_bind {R T} v (m : Compact S R) (k : R → Compact S T) :
  spec v m (sure v) → (∀ x, spec v (k x) (sure v)) → spec v (m ≫= k) (sure v).
Proof. apply spec_sure. Qed.
Lemma sure_ret {R} v (x : R) : spec v (mret x) (sure v).
Proof. by apply spec_ret. Qed.

Lemma kept_any {R} v (m : Compact S R) P : spec v m (kept v P) → spec v m (kept v any).
Proof. intros Hm. eapply spec_weaken; [done|]. intros r v' [-> _]. by split. Qed.
End logic.

(** ** Readings

    An observation that the other tasks do not change, and that is not of the
    leases. *)

Class Undisturbed {S A X} (env : CompactEnv S A) (obs : CompactWorld S → X) : Prop := {
  und_others : ∀ w, obs (observe env w).2 = obs w;
  und_active : ∀ active w, obs (set_active active w) = obs w;
}.

Create HintDb keep.
#[export] Hint Extern 1 (spec _ _ (mret _) _) => apply kept_ret; done : keep.
#[export] Hint Extern 1 (spec _ _ (fail _) _) => apply kept_fail : keep.
#[export] Hint Extern 1 (spec _ _ (lift _) _) => apply (kept_lift _ _ _ any); done : keep.
#[export] Hint Extern 1 (spec _ _ (session _) _) => apply (kept_lift _ _ _ any); done : keep.

#[export] Hint Extern 1 (Undisturbed _ _) => apply _ : keep.

(** Goes through a computation whose parts keep the observation. *)
Ltac keep :=
  repeat (first
    [ solve [eauto with keep]
    | eapply kept_bind; [solve [eauto with keep]|intros ? ?]
    | case_match ]).

(** Past a part that keeps the observation. *)
Tactic Notation "past" simple_intropattern(x) :=
  eapply spec_keep; [solve [eauto with keep]|intros x _|].

Lemma summary_texts_only m max l : summary_blocks m max = Ok l → ∃ texts, l = Text <$> texts.
Proof.
  unfold summary_blocks. intros (texts & _ & Hl)%bind_Ok. exists texts.
  destruct (forallb blank texts); [done|]. destruct (_ <? _)%N; congruence.
Qed.

Section readings.
Context `{ProtocolWire} `{CompactionWire} {S A X : Type} `{SessionPersistence S}.
Context (env : CompactEnv S A) (svc : CompactionService) (obs : CompactWorld S → X).
Context {Hund : Undisturbed env obs}.
#[local] Set Default Proof Using "Type*".
#[local] Abbreviation spec := (spec obs).

Lemma kept_observe v : spec v (observe env) (kept v any).
Proof. intros w Hw. split; [by rewrite und_others|done]. Qed.

Lemma sure_observe v : spec v (observe env) (sure v).
Proof.
  intros w Hw. split; [by rewrite und_others|]. unfold observe.
  by destruct (ce_others _ _ _ _ _) as [[s b] a].
Qed.
Lemma sure_open_turn v : spec v (open_turn env) (sure v).
Proof.
  unfold open_turn, the_events, the_session.
  repeat (apply sure_bind; [|intros ?]); try apply sure_ret; [apply sure_observe|by intros w Hw].
Qed.

Lemma kept_session v : spec v (the_session env) (kept v (λ s, ∃ w, obs w = v ∧ cw_session w = s)).
Proof.
  unfold the_session. eapply kept_bind; [apply kept_observe|]. intros _ _ w Hw. split; [done|].
  intros x [= <-]. by exists w.
Qed.
#[local] Hint Resolve kept_observe kept_session : keep.

Lemma kept_surface v :
  spec v (the_surface env) (kept v (λ l, ∃ w, obs w = v ∧ st_surface (s_state (cw_session w)) = l)).
Proof.
  unfold the_surface. eapply kept_bind; [apply kept_session|]. intros s (w & Hw & Hs).
  apply kept_ret. exists w. by rewrite Hs.
Qed.

Lemma kept_events v : spec v (the_events env) (kept v any).
Proof. unfold the_events. keep. Qed.
Lemma kept_cancelled v : spec v (is_cancelled env) (kept v any).
Proof. unfold is_cancelled. keep. Qed.
#[local] Hint Resolve kept_surface kept_events kept_cancelled : keep.
Lemma kept_check v : spec v (check_cancellation env) (kept v any).
Proof. unfold check_cancellation. keep. Qed.
Lemma kept_open_turn v : spec v (open_turn env) (kept v any).
Proof. unfold open_turn. keep. Qed.
Lemma kept_complete v r : spec v (complete env r) (kept v any).
Proof. unfold complete. keep. Qed.
Lemma kept_session_error v e : spec v (compaction_session_error env e) (kept v any).
Proof. unfold compaction_session_error. keep. Qed.
Lemma kept_total v r overhead outcome current :
  spec v (total_tokens env r overhead outcome current) (kept v any).
Proof. unfold total_tokens. keep. Qed.
#[local] Hint Resolve kept_check kept_complete : keep.

Lemma kept_generate v plan :
  spec v (generate env svc plan) (kept v (λ g, ∃ texts, g.2 = Text <$> texts)).
Proof.
  unfold generate. do 2 (eapply kept_bind; [solve [eauto with keep]|intros ? _]).
  eapply kept_bind; [solve [eauto with keep]|]. intros [] _; [apply kept_fail|].
  do 2 (eapply kept_bind; [solve [eauto with keep]|intros ? _]).
  eapply (kept_bind _ _ _ _ _ (λ l, ∃ texts, l = Text <$> texts)).
  - apply kept_lift. intros l. apply summary_texts_only.
  - intros l Hl. by apply kept_ret.
Qed.

Lemma kept_acquire v id : spec v (acquire id) (kept v any).
Proof.
  intros w Hw. unfold acquire. destruct (bool_decide _); [by split|]. simpl. split; [|done].
  by rewrite und_active.
Qed.
Lemma kept_release v id : spec v (release id) (kept v any).
Proof. intros w Hw. simpl. split; [|done]. by rewrite und_active. Qed.
#[local] Hint Resolve kept_acquire kept_release : keep.

(** A lease is given back behind what it protects. *)
Lemma spec_leased {R} v (m : Compact S R) Q :
  spec v m Q → (∀ e, Q (Err e) v) → spec v (leased env m) Q.
Proof.
  intros Hm He. unfold leased. past s; [|done]. cbv zeta. past x; [|done].
  intros w Hw. specialize (Hm w Hw). unfold mbind, compact_bind, attempt. cbv beta.
  destruct (m w) as [r w1]. cbn [fst snd] in Hm. pose proof (und_others w1) as Ho.
  unfold observe in *. destruct (ce_others _ _ _ _ _) as [[s' b] a].
  unfold release, lift. cbn [fst snd] in *. by rewrite und_active, Ho.
Qed.
End readings.

#[export] Hint Resolve kept_observe kept_session kept_surface kept_events kept_cancelled kept_check
  kept_open_turn kept_complete kept_session_error kept_total kept_generate kept_acquire
  kept_release : keep.
