(* ===== verification/CompactionRunFacts.v ===== *)
(** * Lemmas on runs of the compaction service

    When no other task changes the surface ([calm]), each operation of the
    service leaves it as it is or makes one move of the relation [shrink]: a
    worthy unprotected region becomes one smaller summary, or a tool result that
    exceeds the cap becomes a prefix of itself.  [spec cur m Q]: from surface
    [cur], [m] ends with a result and a surface that satisfy [Q]. *)

From S2P Require Import Prelude Json Protocol Compaction Session SessionFacts Llm.
From S2P Require Import CompactionFacts CompactionLogic.
Import Service.

#[local] Open Scope N_scope.

(** ** Moves *)

Section moves.
Context `{CompactionWire}.
Context (cfg : CompactionConfig) (seeds : list N) (li : Limits).

#[local] Abbreviation size e := (serialized_codepoints (sm_message e)).

(** [shrink cur cur']: one step of a recovery. *)
Inductive shrink (cur : list SurfaceMessage) : list SurfaceMessage → Prop :=
| shrink_region s q e :
    region cfg seeds li cur s q → worth li cur s q →
    (∃ start id texts, sm_message e = summary_message start id (Text <$> texts)) →
    size e < sum_N (slice (sizes cur) s q) →
    shrink cur (take s cur ++ [e] ++ drop q cur)
| shrink_result i e e' :
    cur !! i = Some e → is_tool (sm_message e) = true → sm_event_seq e ∉ seeds →
    is_tool (sm_message e') = true → tool_calls (sm_message e) = [] →
    tool_calls (sm_message e') = [] →
    tool_results (sm_message e') = tool_results (sm_message e) →
    prune_cap cfg li < size e → size e' <= prune_cap cfg li →
    shrink cur (take i cur ++ [e'] ++ drop (S i) cur).

(** ** Progress *)

Definition count {X} (f : X → bool) (l : list X) : nat := length (filter (λ x, f x = true) l).

Lemma count_app {X} (f : X → bool) l1 l2 : count f (l1 ++ l2) = (count f l1 + count f l2)%nat.
Proof. unfold count. by rewrite filter_app, length_app. Qed.
Lemma count_le {X} (f : X → bool) l : (count f l ≤ length l)%nat.
Proof. apply length_filter. Qed.
Lemma count_elem {X} (f : X → bool) x l : x ∈ l → f x = true → (1 ≤ count f l)%nat.
Proof.
  intros Hx Hf. unfold count. destruct (filter _ _) as [|y k] eqn:He; [|simpl; lia].
  assert (x ∈ filter (λ x, f x = true) l) as Hin by by apply list_elem_of_filter.
  rewrite He in Hin. by apply elem_of_nil in Hin.
Qed.

Lemma count_single {X} (f : X → bool) x : count f [x] = if f x then 1%nat else 0%nat.
Proof. unfold count. rewrite filter_cons. by destruct (f x). Qed.

(** History that is no summary yet, and tool results over the cap. *)
Definition fresh (e : SurfaceMessage) : bool := negb (is_summary (sm_message e)).
Definition big (e : SurfaceMessage) : bool := is_tool (sm_message e) && (prune_cap cfg li <? size e).
Definition work (cur : list SurfaceMessage) : nat := (count fresh cur + count big cur)%nat.

Lemma work_le cur : (work cur ≤ length cur * 2)%nat.
Proof. unfold work. pose proof (count_le fresh cur). pose proof (count_le big cur). lia. Qed.

Lemma work_app l1 l2 : work (l1 ++ l2) = (work l1 + work l2)%nat.
Proof. unfold work. rewrite !count_app. lia. Qed.

Lemma region_split (cur : list SurfaceMessage) s q :
  (s ≤ q)%nat → cur = take s cur ++ slice cur s q ++ drop q cur.
Proof.
  intros Hs. rewrite <-(take_drop s cur) at 1. f_equal. unfold slice.
  rewrite <-(take_drop (q - s) (drop s cur)) at 1. rewrite drop_drop. do 2 f_equal. lia.
Qed.

Lemma tool_fresh e : is_tool (sm_message e) = true → fresh e = true.
Proof. unfold is_tool, fresh, is_summary. by destruct (m_source _). Qed.

Lemma shrink_work cur cur' : shrink cur cur' → (work cur' < work cur)%nat.
Proof.
  intros [s q e [] [(x & Hx & Hf) _] (start & id & texts & He) _|i e e' Hi Ht Hs Ht' _ _ _ Hb Hb'].
  - assert (work cur = work (take s cur ++ slice cur s q ++ drop q cur)) as ->
      by (f_equal; apply region_split; lia).
    rewrite !work_app. unfold work at 2 5. rewrite !count_single.
    assert (fresh e = false) as -> by (unfold fresh; by rewrite He).
    assert (big e = false) as -> by (unfold big; by rewrite He).
    assert (1 ≤ count fresh (slice cur s q))%nat; [|lia].
    apply (count_elem _ x); [done|]. unfold fresh. by rewrite Hf.
  - assert (work cur = work (take i cur ++ [e] ++ drop (S i) cur)) as ->
      by (f_equal; symmetry; by apply take_drop_middle).
    rewrite !work_app. unfold work at 2 5. rewrite !count_single, (tool_fresh e Ht), (tool_fresh e' Ht').
    unfold big. rewrite Ht, Ht', (proj2 (N.ltb_ge _ _) Hb'), (proj2 (N.ltb_lt _ _) Hb). simpl. lia.
Qed.

(** The serialised surface only gets smaller. *)
Lemma total_app l1 l2 : total_cp (l1 ++ l2) = total_cp l1 + total_cp l2.
Proof. unfold total_cp, sizes. by rewrite fmap_app, sum_N_app. Qed.

Lemma shrink_total cur cur' : shrink cur cur' → total_cp cur' < total_cp cur.
Proof.
  intros [s q e [] _ _ Hlt|i e e' Hi _ _ _ _ _ _ Hb Hb'].
  - assert (total_cp cur = total_cp (take s cur ++ slice cur s q ++ drop q cur)) as ->
      by (f_equal; apply region_split; lia).
    rewrite !total_app.
    assert (total_cp (slice cur s q) = sum_N (slice (sizes cur) s q)) as ->.
    { unfold total_cp, sizes. by rewrite slice_fmap. }
    unfold total_cp at 2. simpl. lia.
  - assert (total_cp cur = total_cp (take i cur ++ [e] ++ drop (S i) cur)) as ->
      by (f_equal; symmetry; by apply take_drop_middle).
    rewrite !total_app.
    unfold total_cp at 2 5. simpl. lia.
Qed.

Lemma shrink_length cur cur' : shrink cur cur' → (length cur' ≤ length cur)%nat.
Proof.
  intros [s q e [] _ _ _|i e e' Hi _ _ _ _ _ _ _ _].
  - assert (length cur = length (take s cur ++ slice cur s q ++ drop q cur)) as ->
      by (f_equal; apply region_split; lia).
    rewrite !length_app.
    assert (1 ≤ length (slice cur s q))%nat; [|simpl; lia].
    apply complete_boundary in rg_stops as [Hq _]. unfold slice. rewrite length_take, length_drop. lia.
  - assert (length cur = length (take i cur ++ [e] ++ drop (S i) cur)) as ->
      by (f_equal; symmetry; by apply take_drop_middle).
    by rewrite !length_app.
Qed.

(** ** Order *)

Lemma summary_signals start id texts :
  tool_calls (summary_message start id (Text <$> texts)) = []
  ∧ tool_results (summary_message start id (Text <$> texts)) = [].
Proof. unfold tool_calls, tool_results. simpl. by induction texts. Qed.

Lemma orderly_entry_eq p e :
  orderly_entry p e
  = foldM orderly_signal p ((Opens 0 <$> tool_calls (sm_message e)) ++ (Closes 0 <$> tool_results (sm_message e))).
Proof. reflexivity. Qed.

Lemma orderly_replaced e cur s q :
  foldM orderly_entry ∅ (take s cur) = Ok ∅ → tool_calls (sm_message e) = [] →
  tool_results (sm_message e) = [] → is_ok (foldM orderly_entry ∅ (drop q cur)) = true →
  orderly (take s cur ++ [e] ++ drop q cur).
Proof.
  intros H1 Hc Hr H2. unfold orderly. rewrite !foldM_app, H1. simpl.
  by rewrite orderly_entry_eq, Hc, Hr.
Qed.

Lemma shrink_orderly cur cur' : shrink cur cur' → orderly cur → orderly cur'.
Proof.
  intros [s q e [] _ (start & id & texts & He) _|i e e' Hi _ _ _ Hc Hc' Hr _ _] Ho.
  - destruct (orderly_between cur s q Ho) as (H1 & _ & H3); [done..|lia|].
    destruct (summary_signals start id texts) as [H1' H2']. by apply orderly_replaced; rewrite ?He.
  - unfold orderly in *. rewrite <-(take_drop_middle cur i e Hi) in Ho at 1.
    rewrite foldM_app in *. destruct (foldM _ _ (take i cur)); [|done]. simpl in *.
    rewrite orderly_entry_eq in *. by rewrite Hc', Hr, <-Hc.
Qed.

(** ** What is protected stays *)

Lemma shrink_seeds cur cur' e0 :
  shrink cur cur' → e0 ∈ cur → sm_event_seq e0 ∈ seeds → e0 ∈ cur'.
Proof.
  intros Hs Hin Hseed. apply list_elem_of_lookup in Hin as [k Hk].
  destruct Hs as [s q e [] _ _ _|i e e' Hi _ Hns _ _ _ _ _ _].
  - destruct (decide (k < s)%nat) as [Hlt|Hge].
    { apply elem_of_app. left. apply list_elem_of_lookup. exists k. by rewrite lookup_take_lt. }
    destruct (decide (q ≤ k)%nat) as [Hle|Hgt].
    { apply elem_of_app. right. apply elem_of_app. right. apply list_elem_of_lookup.
      exists (k - q)%nat. rewrite lookup_drop. by replace (q + (k - q))%nat with k by lia. }
    exfalso. specialize (rg_unprotected k ltac:(lia)). unfold protected, is_seed in rg_unprotected.
    rewrite Hk in rg_unprotected. simpl in rg_unprotected.
    by rewrite bool_decide_true in rg_unprotected.
  - destruct (decide (k = i)) as [->|Hne]; [congruence|].
    destruct (decide (k < i)%nat) as [Hlt|Hge].
    { apply elem_of_app. left. apply list_elem_of_lookup. exists k. by rewrite lookup_take_lt. }
    apply elem_of_app. right. apply elem_of_app. right. apply list_elem_of_lookup.
    exists (k - S i)%nat. rewrite lookup_drop. by replace (S i + (k - S i))%nat with k by lia.
Qed.

(** The latest entry of a kind. *)
Definition latest (f : Message → bool) (cur : list SurfaceMessage) : option SurfaceMessage :=
  last (filter (λ e, f (sm_message e) = true) cur).

Lemma position_app {X} (f : X → bool) l1 l2 :
  position f (l1 ++ l2)
  = match position f l1 with
    | Some i => Some i
    | None => (λ i, length l1 + i)%nat <$> position f l2
    end.
Proof.
  induction l1 as [|x l1 IH]; simpl; [by destruct (position f l2)|].
  destruct (f x); [done|]. rewrite IH. destruct (position f l1); [done|].
  by destruct (position f l2).
Qed.

Lemma rposition_middle {X} (f : X → bool) (a b c : list X) :
  filter (λ x, f x = true) c = [] → filter (λ x, f x = true) b ≠ [] →
  ∃ i, rposition f (a ++ b ++ c) = Some i ∧ (length a ≤ i < length a + length b)%nat.
Proof.
  intros Hc Hb. unfold rposition. rewrite !rev_app_distr, <-app_assoc, !position_app.
  assert (position f (rev c) = None) as ->.
  { apply position_None, Forall_forall. intros x Hx%list_elem_of_In%in_rev%list_elem_of_In.
    destruct (f x) eqn:Hf; [|done].
    assert (x ∈ filter (λ x, f x = true) c) as Hin by by apply list_elem_of_filter.
    rewrite Hc in Hin. by apply elem_of_nil in Hin. }
  destruct (position f (rev b)) as [i|] eqn:Hi.
  - simpl. eexists. split; [done|].
    apply position_Some in Hi as (x & Hx & _). apply lookup_lt_Some in Hx.
    rewrite length_rev in Hx. rewrite !length_app, length_rev. lia.
  - exfalso. apply Hb, filter_none. intros x Hx Hf. apply position_None in Hi.
    rewrite Forall_forall in Hi. rewrite Hi in Hf; [done|].
    by apply list_elem_of_In, in_rev; rewrite rev_involutive; apply list_elem_of_In.
Qed.

Lemma last_filter_middle {X} (f : X → bool) (a b b' c : list X) :
  filter (λ x, f x = true) b' = [] →
  (∀ i, rposition f (a ++ b ++ c) = Some i → ¬ (length a ≤ i < length a + length b)%nat) →
  last (filter (λ x, f x = true) (a ++ b' ++ c)) = last (filter (λ x, f x = true) (a ++ b ++ c)).
Proof.
  intros Hb' Hr. rewrite !filter_app, Hb'.
  destruct (filter (λ x, f x = true) c) as [|y c'] eqn:Hc.
  - destruct (filter (λ x, f x = true) b) as [|z b''] eqn:Hb; [done|].
    destruct (rposition_middle f a b c Hc) as (i & Hi & Hlt); [by rewrite Hb|].
    by destruct (Hr i Hi).
  - by rewrite app_nil_l, app_assoc, !last_app_cons.
Qed.

Definition guarded (f : Message → bool) : Prop :=
  f = is_user ∨ f = of_plugin "tessivum/runtime-context"
  ∨ f = of_plugin "tessivum-workspace-instructions".

Lemma guarded_tool f m : guarded f → is_tool m = true → f m = false.
Proof.
  unfold is_tool, guarded, is_user, of_plugin. by intros [->|[->| ->]]; destruct (m_source m).
Qed.

Lemma guarded_summary f start id content :
  guarded f → f (summary_message start id content) = false.
Proof. by intros [->|[->| ->]]. Qed.

Lemma guarded_protected f cur i :
  guarded f → rposition (λ e, f (sm_message e)) cur = Some i → protected seeds li cur i = true.
Proof.
  intros Hf Hi. unfold protected, latest_user, latest_context. rewrite !orb_true_iff.
  destruct Hf as [->|Hf]; [left; left; right; by rewrite bool_decide_true|].
  left. right. rewrite bool_decide_true; [done|]. simpl.
  destruct Hf as [->| ->]; rewrite Hi; set_solver.
Qed.

Lemma shrink_latest f cur cur' : guarded f → shrink cur cur' → latest f cur' = latest f cur.
Proof.
  intros Hf [s q e [] _ (start & id & texts & He) _|i e e' Hi Ht _ Ht' _ _ _ _ _]; unfold latest.
  - rewrite (region_split cur s q) at 3 by lia.
    apply (last_filter_middle (λ e, f (sm_message e))).
    + rewrite filter_cons_False; [done|]. by rewrite He, guarded_summary.
    + rewrite <-(region_split cur s q) by lia. intros i Hi Hr.
      apply complete_boundary in rg_stops as [Hq _].
      unfold slice in Hr. rewrite !length_take, length_drop in Hr.
      specialize (rg_unprotected i ltac:(lia)). by rewrite (guarded_protected f) in rg_unprotected.
  - rewrite <-(take_drop_middle cur i e Hi) at 3. rewrite !filter_app, filter_cons_False.
    + by rewrite filter_cons_False by by rewrite (guarded_tool f).
    + by rewrite (guarded_tool f).
Qed.

Lemma shrinks_protected cur cur' :
  rtc shrink cur cur' →
  (∀ e, e ∈ cur → sm_event_seq e ∈ seeds → e ∈ cur') ∧ (∀ f, guarded f → latest f cur' = latest f cur).
Proof.
  induction 1 as [cur|cur c1 c2 Hs _ [IH1 IH2]]; [done|]. split.
  - intros e He Hseed. apply IH1; [|done]. by eapply shrink_seeds.
  - intros f Hf. rewrite IH2 by done. by apply shrink_latest.
Qed.

Lemma shrinks_total cur cur' : rtc shrink cur cur' → total_cp cur' ≤ total_cp cur.
Proof. induction 1 as [cur|cur c1 c2 Hs%shrink_total _ IH]; lia. Qed.
Lemma shrinks_orderly cur cur' : rtc shrink cur cur' → orderly cur → orderly cur'.
Proof. induction 1; [done|]. intros. eauto using shrink_orderly. Qed.
End moves.

(** ** Runs *)

Section runs.
Context `{ProtocolWire} `{CompactionWire} {S A : Type} `{SessionPersistence S}.

Definition surface_of (w : CompactWorld S) : list SurfaceMessage :=
  st_surface (s_state (cw_session w)).
Definition seeds_of (s : Session) : list N := ev_seq <$> seed_events s.

(** The other tasks leave the surface alone, and the seed, which is at the start
    of the log. *)
Definition calm (env : CompactEnv S A) : Prop := ∀ n s b a,
  st_surface (s_state (ce_others env n s b a).1.1) = st_surface (s_state s)
  ∧ seeds_of (ce_others env n s b a).1.1 = seeds_of s.

Definition view (w : CompactWorld S) : list SurfaceMessage * list N :=
  (surface_of w, seeds_of (cw_session w)).

#[local] Abbreviation spec := (CompactionLogic.spec surface_of).

Section calm_env.
Context (env : CompactEnv S A) (svc : CompactionService) (Hcalm : calm env).
#[local] Abbreviation cfg := (cs_config svc).
#[local] Set Default Proof Using "Hcalm".

#[local] Instance view_undisturbed : Undisturbed env view.
Proof.
  split; [|done]. intros w. unfold observe, view.
  pose proof (Hcalm (cw_tick w) (cw_session w) (cw_backend w) (cw_active w)) as [Hc Hs].
  destruct (ce_others _ _ _ _ _) as [[s b] a]. unfold surface_of. simpl in *. congruence.
Qed.
#[local] Instance surface_undisturbed : Undisturbed env surface_of.
Proof.
  split; [|done]. intros w. pose proof (und_others (env := env) (obs := view) w) as Hv.
  unfold view in Hv. congruence.
Qed.

(** An append moves the surface by its event, or fails. *)
Definition spec_event (a : AppendSpec) (seq : N) : SessionEvent :=
  mkEvent (as_event_type a) seq 0 (as_data a) (as_ignorable a)
    (as_source_event_seqs a) (as_surface_op a).

Definition appended (a : AppendSpec) (cur : list SurfaceMessage)
    (r : result CompactionError (result SessionError N)) (cur' : list SurfaceMessage) : Prop :=
  match r with
  | Ok (Ok seq) => ∃ p, decode_surface_event (spec_event a seq) = Ok p
      ∧ validate_surface_operation (spec_event a seq) p cur = Ok tt
      ∧ (∀ l, as_expected_surface_event_seqs a = Some l → sm_event_seq <$> cur = l)
      ∧ cur' = apply_surface_operation (spec_event a seq) p cur
  | _ => cur' = cur
  end.

Lemma spec_append_now cur t a : spec cur (append_now t a) (appended a cur).
Proof.
  intros w Hw. unfold append_now. fold (spec_event a).
  destruct (append_next_if_surface _ _ _ _ _) as [[r s] b] eqn:Ha.
  apply append_next_if_surface_inv in Ha as [(e & -> & ->)|(seq & t' & p & -> & Hc & ->)]; [done|].
  apply check_append_Ok in Hc as (Hc & _ & Hx). simpl. unfold surface_of in *. simpl. rewrite Hw.
  exists p. rewrite <-Hw. split; [by eapply check_admissible_decode|].
  split; [by eapply check_admissible_surface|]. by split.
Qed.

Lemma spec_append cur a : spec cur (append env a) (appended a cur).
Proof. unfold append. past n; [apply spec_append_now|done]. Qed.

Lemma appended_aside a cur r cur' :
  expected_role (as_event_type a) = None → appended a cur r cur' → cur' = cur.
Proof.
  intros Hr. unfold appended. destruct r as [[seq|]|]; [|done..]. intros (p & Hd & _ & _ & ->).
  unfold decode_surface_event, spec_event in Hd. simpl in Hd. rewrite Hr in Hd. by injection Hd as <-.
Qed.

Lemma kept_append cur a :
  expected_role (as_event_type a) = None → spec cur (append env a) (kept cur any).
Proof.
  intros Hr. eapply spec_weaken; [apply spec_append|]. intros r cur' Ha.
  apply appended_aside in Ha as ->; [|done]. by split.
Qed.
Lemma kept_append_now cur t a :
  expected_role (as_event_type a) = None → spec cur (append_now t a) (kept cur any).
Proof.
  intros Hr. eapply spec_weaken; [apply spec_append_now|]. intros r cur' Ha.
  apply appended_aside in Ha as ->; [|done]. by split.
Qed.
#[local] Hint Extern 1 (CompactionLogic.spec _ _ (append _ _) _) => apply kept_append; reflexivity : keep.
#[local] Hint Extern 1 (CompactionLogic.spec _ _ (append_now _ _) _) => apply kept_append_now; reflexivity : keep.

Lemma kept_append_end cur id turn e : spec cur (append_end env id turn e) (kept cur any).
Proof. unfold append_end. keep. Qed.
#[local] Hint Resolve kept_append_end : keep.

Lemma kept_finish {R} cur id e P : spec cur (finish_error (R := R) env id e) (kept cur P).
Proof.
  unfold finish_error.
  eapply kept_bind; [solve [eauto with keep]|intros ? _].
  eapply kept_bind; [solve [eauto with keep]|intros ? _]. apply kept_fail.
Qed.

(** An attempt that is closed on its errors ends on the same surface. *)
Lemma spec_closing {R} cur id (m : Compact S R) (Q Q' : _ → _ → Prop) :
  spec cur m Q → (∀ x cur', Q (Ok x) cur' → Q' (Ok x) cur') →
  (∀ e cur', Q (Err e) cur' → ∀ e', Q' (Err e') cur') →
  spec cur (closing env id m) Q'.
Proof.
  intros Hm Hok Herr. unfold closing.
  apply (spec_bind _ _ _ _ _ (λ r cur', match r with Ok r => Q r cur' | Err _ => False end)); [| |done].
  - by apply spec_attempt.
  - intros [x|e] cur' HQ; [by apply spec_ret, Hok|].
    eapply spec_weaken; [apply (kept_finish cur' id e (λ _, False))|].
    intros [x|e'] c [-> HP]; [by destruct (HP x eq_refl)|]. by eapply Herr.
Qed.

Lemma kept_closing {R} cur id (m : Compact S R) P :
  spec cur m (kept cur P) → spec cur (closing env id m) (kept cur P).
Proof.
  intros Hm. eapply spec_closing; [done|done|]. intros e cur' [-> _] e'. by split.
Qed.

Lemma spec_append_or_close cur a :
  spec cur (append_or_close env a)
    (λ r cur', match r with Ok seq => appended a cur (Ok (Ok seq)) cur' | Err _ => cur' = cur end).
Proof.
  unfold append_or_close. eapply spec_bind; [apply spec_append| |].
  - intros [seq|e] cur' Ha; [by apply spec_ret|]. simpl in Ha. subst cur'.
    past x; [|done]. by apply spec_fail.
  - by intros e cur' ->.
Qed.

Lemma kept_record_summary cur id plan g summary :
  spec cur (record_summary env svc id plan g summary) (kept cur any).
Proof.
  unfold record_summary. eapply (kept_bind _ _ _ _ _ any); [|intros; keep].
  eapply spec_weaken; [apply spec_append_or_close|]. intros [seq|e] cur'; [|by intros ->].
  intros Ha. apply appended_aside in Ha as ->; [|done]. by split.
Qed.
#[local] Hint Resolve kept_record_summary : keep.

(** ** One step *)

Section steps.
Context (seeds : list N) (li : Limits).
Hypothesis summary_read : ∀ start id texts,
  let m := summary_message start id (Text <$> texts) in from_value (to_value m) = Ok m.
Hypothesis pruned_read : ∀ seq call text is_error,
  let m := pruned_message seq call text is_error in from_value (to_value m) = Ok m.
#[local] Set Default Proof Using "Type*".
#[local] Abbreviation shrink := (shrink cfg seeds li).

(** At the end of a part that may change the surface: it is as before, or it shrank. *)
Definition moved {R} (cur : list SurfaceMessage) (r : result CompactionError R)
    (cur' : list SurfaceMessage) : Prop :=
  shrink cur cur' ∨ (cur' = cur ∧ is_ok r = false).

Lemma replaced cur (r : CompactionRange) start id texts sources seq fin cur' exp :
  let m := summary_message start id (Text <$> texts) in
  appended (mkAppendSpec "user/message" (to_value m) (Some sources)
              (Some (Replace (rg_start r) fin)) exp None) cur (Ok (Ok seq)) cur' →
  cur' = take (N.to_nat (rg_start r)) cur
         ++ [mkSurface seq m (Some sources)] ++ drop (N.to_nat fin) cur.
Proof.
  intros m (p & Hd & _ & _ & ->). unfold decode_surface_event, spec_event in Hd. simpl in Hd.
  fold m in Hd. rewrite (summary_read start id texts : from_value (to_value m) = Ok m) in Hd.
  simpl in Hd. destruct (Message_validate m); [|done]. simpl in Hd. by injection Hd as <-.
Qed.

(** The part of [execute] up to the replacement. *)
Lemma kept_summary cur plan id start :
  spec cur (closing env id
    (g ← generate env svc plan;
     summary_seq ← record_summary env svc id plan g.1 g.2;
     let replacement := summary_message start id g.2 in
     _ ← lift (shrinks plan replacement);
     mret (summary_seq, replacement)))
    (kept cur (λ x, ∃ texts, x.2 = summary_message start id (Text <$> texts)
       ∧ serialized_codepoints x.2 < sum_N (serialized_codepoints <$> pl_messages plan))).
Proof.
  apply kept_closing. eapply kept_bind; [apply kept_generate; apply _|]. intros g [texts Hg].
  eapply kept_bind; [solve [eauto with keep]|]. intros sq _. cbv zeta.
  eapply (kept_bind _ _ _ _ _ (λ _, serialized_codepoints (summary_message start id g.2)
    < sum_N (serialized_codepoints <$> pl_messages plan))).
  - apply kept_lift. intros [] Hs. unfold shrinks in Hs.
    by destruct (N.leb_spec (sum_N (serialized_codepoints <$> pl_messages plan))
      (serialized_codepoints (summary_message start id g.2))).
  - intros _ Hlt. apply kept_ret. exists texts. simpl. by rewrite <-Hg.
Qed.

Lemma spec_execute cur trigger s q :
  region cfg seeds li cur s q → worth li cur s q → (N.of_nat q ≤ U64_MAX) →
  let r := mkRange (N.of_nat s) (N.of_nat (q - 1)) in
  spec cur (execute env svc trigger (region_plan cur s q r)) (moved cur).
Proof.
  intros Hr Hw Hq r. assert (∀ R e, moved cur (Err e : result CompactionError R) cur) as Herr by (by right).
  set (plan := region_plan cur s q r). unfold execute.
  past x; [|apply Herr]. past ss; [|apply Herr]. past x'; [|apply Herr].
  past n; [cbv zeta|apply Herr]. past turn; [|apply Herr]. past started; [|apply Herr].
  past start; [|apply Herr]. set (id := ce_uuid env n).
  eapply spec_keep; [apply kept_summary|intros [sq m] (texts & Hm & Hlt)|apply Herr].
  simpl in Hm, Hlt. subst m. rewrite <-list_fmap_compose in Hlt.
  assert (exclusive_end (pl_range plan) = Ok (N.of_nat q)) as Hend.
  { destruct Hr as [_ _ Hne _ _ _ _]. unfold exclusive_end. simpl. rewrite u64_checked_add_fits by lia.
    simpl. f_equal. lia. }
  eapply (spec_keep _ _ _ _ (λ fin, fin = N.of_nat q)); [|intros fin ->|apply Herr].
  { apply kept_lift. intros fin. simpl in Hend |- *. rewrite Hend. by intros [= <-]. }
  set (a := mkAppendSpec "user/message" (to_value (summary_message start id (Text <$> texts)))
    (Some (start :: sq :: pl_shadowed_event_seqs plan))
    (Some (Replace (rg_start (pl_range plan)) (N.of_nat q)))
    (Some (pl_expected_surface_event_seqs plan)) None).
  assert (∀ seq cur', appended a cur (Ok (Ok seq)) cur' → shrink cur cur') as Hsh.
  { intros seq cur' Ha. apply (replaced _ (pl_range plan)) in Ha as ->. simpl. rewrite !Nat2N.id.
    apply shrink_region; [done|done| |]; [by eexists _, _, _|]. unfold sizes. by rewrite slice_fmap. }
  eapply (spec_bind _ _ _ _ _ (moved cur)).
  - apply (spec_closing _ _ _ (moved cur)).
    + eapply spec_weaken; [apply spec_append_or_close|]. intros [seq|e] cur' Ha; [|by right].
      left. by eapply Hsh.
    + by intros z cur' [Hs|[_ [=]]]; left.
    + intros e cur' [Hs|[-> _]] e'; [by left|by right].
  - intros y cur' [Hs|[_ [=]]]. past n'; [apply spec_ret|intros e]; by left.
  - by intros e cur' [Hs|[-> _]]; [left|right].
Qed.

(** What a pruning makes of a result. *)
Lemma pruned_inv e cap n retained m :
  pruned e cap = Ok (n, Some (retained, m)) →
  ∃ call text is_error, m = pruned_message (sm_event_seq e) call text is_error
    ∧ is_tool (sm_message e) = true ∧ tool_calls (sm_message e) = []
    ∧ tool_results (sm_message e) = [call]
    ∧ cap < serialized_codepoints (sm_message e) ∧ serialized_codepoints m <= cap.
Proof.
  unfold pruned, tool_result. intros ([[call content] is_error] & Ht & Hp)%bind_Ok.
  unfold is_tool, tool_calls, tool_results.
  destruct (m_source (sm_message e)) as [| | | | |id]; try done.
  destruct (m_content (sm_message e)) as [|[| | | |c k x] [|]]; try done.
  destruct (String.eqb_spec id c); [|done]. injection Ht as -> -> ->.
  destruct (forallb is_text content) eqn:Hc; [|done]. simpl in Hp.
  destruct (N.leb_spec (serialized_codepoints (sm_message e)) cap) as [|Hlt]; [done|].
  destruct (_ <? _); [done|]. destruct (_ || _) eqn:Hb; [done|].
  injection Hp as _ _ <-. apply orb_false_iff in Hb as [Hb%N.ltb_ge _].
  eexists call, _, is_error. split; [done|]. split_and!; try done. simpl. f_equal.
  clear -Hc. induction content as [|[] content IH]; simpl in *; try done. by apply IH.
Qed.

Lemma spec_prune cur seq :
  seq ∉ seeds → spec cur (prune_tool_result_locked env seq (prune_cap cfg li))
    (λ r cur', match r with Ok (ResultPruned _) => shrink cur cur' | _ => cur' = cur end).
Proof.
  intros Hseq. unfold prune_tool_result_locked.
  past u; [|done]. destruct (_ =? 0); [by apply spec_fail|].
  eapply spec_keep; [apply kept_surface; apply _|intros ? (w & <- & <-)|done].
  change (st_surface (s_state (cw_session w))) with (surface_of w). set (cur := surface_of w).
  eapply (spec_keep _ _ _ _ (λ ie, cur !! ie.1 = Some ie.2 ∧ sm_event_seq ie.2 = seq)).
  { apply kept_lift. intros [i e] Hf%ok_or_Ok. apply find_some in Hf as [Hin He%N.eqb_eq].
    apply list_elem_of_In, elem_of_lookup_imap in Hin as (k & x & [= -> ->] & Hk). done. }
  2: done. intros [i e] [Hi He]. simpl in Hi, He.
  eapply (spec_keep _ _ _ _ (λ x, pruned e (prune_cap cfg li) = Ok x)); [by apply kept_lift| |done].
  intros [n [[retained m]|]] Hp; [|by apply spec_ret].
  apply pruned_inv in Hp as (call & text & is_error & -> & Ht & Hc & Hr & Hb & Hb').
  set (m := pruned_message _ _ _ _) in *. cbv zeta.
  eapply spec_bind; [apply spec_append| |by intros e' cur' ->].
  intros [seq'|e'] cur' Ha; [|by apply spec_lift]. apply spec_ret. simpl in Ha.
  destruct Ha as (p & Hd & _ & _ & ->).
  unfold decode_surface_event, spec_event in Hd. simpl in Hd.
  rewrite (pruned_read (sm_event_seq e) call text is_error : from_value (to_value m) = Ok m) in Hd.
  simpl in Hd. destruct (Message_validate m); [|done]. simpl in Hd. injection Hd as <-.
  unfold apply_surface_operation. simpl. rewrite Nat2N.id.
  replace (N.to_nat (N.of_nat i + 1)) with (Datatypes.S i) by lia.
  eapply shrink_result; try done; by rewrite ?He, ?Hr.
Qed.

Context (trigger : CompactionTrigger) (r : GenerateRequest) (overhead : N).

Definition stepped (cur : list SurfaceMessage) (x : result CompactionError Step)
    (cur' : list SurfaceMessage) : Prop :=
  match x with
  | Ok (Return _) => cur' = cur
  | Ok (Continue _ _) => shrink cur cur'
  | Err _ => cur' = cur ∨ shrink cur cur'
  end.

Lemma spec_try_prune cur :
  spec cur (try_prune env svc seeds li cur)
    (λ x cur', match x with Ok (Some _) => shrink cur cur' | _ => cur' = cur end).
Proof.
  unfold try_prune. destruct (prunable cfg seeds li cur) as [e|] eqn:Hp; [|by apply spec_ret].
  apply prunable_spec in Hp as (_ & _ & Hs & _).
  eapply spec_bind; [by apply spec_prune| |by intros e' cur' ->].
  intros [|] cur' Ho; by apply spec_ret.
Qed.

Lemma spec_step cur outcome completed :
  N.of_nat (length cur) <= U64_MAX →
  spec cur (recovery_step env svc trigger r seeds li overhead outcome completed) (stepped cur).
Proof.
  intros Hlen. assert (∀ e, stepped cur (Err e) cur) as Herr by (by left).
  unfold recovery_step.
  past u; [|apply Herr].
  eapply spec_keep; [apply kept_surface; apply _|intros ? (w & <- & <-)|apply Herr].
  change (st_surface (s_state (cw_session w))) with (surface_of w). set (cur := surface_of w) in *.
  past total; [cbv zeta|apply Herr].
  destruct (_ && _); [by apply spec_ret|].
  destruct (selection cfg seeds li cur).1 as [range|] eqn:Hsel.
  - apply selected_region in Hsel as (s & q & -> & Hr & Hw).
    eapply (spec_keep _ _ _ _ (λ plan, plan = region_plan cur s q _)); [| |apply Herr].
    { apply kept_lift. intros plan. by apply (region_plan_inv _ seeds). }
    intros plan ->. eapply spec_bind; [apply spec_execute; [done..|]| |].
    + destruct Hr as [_ [Hq _]%complete_boundary _ _ _ _ _]. lia.
    + intros x cur' [Hs|[_ [=]]]. by apply spec_ret.
    + intros e cur' [Hs|[-> _]]; [by right|by left].
  - eapply spec_bind; [apply spec_try_prune| |].
    + intros [p|] cur' Hp; [by apply spec_ret|]. simpl in Hp. subst cur'.
      destruct (_ && _); [by apply spec_ret|by apply spec_fail].
    + by intros e cur' ->.
Qed.

#[local] Abbreviation recover := (recover env svc trigger r seeds li overhead).

Lemma spec_recover steps cur outcome completed :
  N.of_nat (length cur) <= U64_MAX →
  spec cur (recover steps outcome completed) (λ _ cur', rtc shrink cur cur').
Proof.
  revert cur outcome completed. induction steps as [|steps IH]; intros cur outcome completed Hlen.
  { by apply spec_fail. }
  simpl. eapply spec_bind; [by apply spec_step| |].
  - intros [o|o c] cur' Hs; simpl in Hs; [subst cur'; by apply spec_ret|].
    eapply spec_weaken; [apply IH|].
    + pose proof (shrink_length _ _ _ _ _ Hs). lia.
    + intros x c' Hx. by eapply rtc_l.
  - intros e cur' [->|Hs]; [done|by apply rtc_once].
Qed.

(** More rounds than there is work change nothing. *)
Lemma recover_rounds steps steps' outcome completed w :
  N.of_nat (length (surface_of w)) <= U64_MAX →
  (work cfg li (surface_of w) < steps)%nat → (work cfg li (surface_of w) < steps')%nat →
  recover steps outcome completed w = recover steps' outcome completed w.
Proof.
  revert steps' outcome completed w. induction steps as [|steps IH]; intros [|steps'] outcome completed w Hlen Hs Hs';
    [lia..|]. simpl. unfold mbind, compact_bind.
  pose proof (spec_step (surface_of w) outcome completed Hlen w eq_refl) as Hst.
  destruct (recovery_step _ _ _ _ _ _ _ _ _ w) as [[[o|o c]|e] w1]; simpl in Hst; [done| |done].
  pose proof (shrink_work _ _ _ _ _ Hst). pose proof (shrink_length _ _ _ _ _ Hst).
  apply IH; lia.
Qed.
End steps.

(** ** Whole requests *)

Section request.
Hypothesis summary_read : ∀ start id texts,
  let m := summary_message start id (Text <$> texts) in from_value (to_value m) = Ok m.
Hypothesis pruned_read : ∀ seq call text is_error,
  let m := pruned_message seq call text is_error in from_value (to_value m) = Ok m.
#[local] Set Default Proof Using "Type*".

Lemma spec_view {R} cur seeds (m : Compact S R) (Q : _ → _ → Prop) :
  spec cur m Q → CompactionLogic.spec view (cur, seeds) m (λ r v, Q r v.1).
Proof using Type. intros Hm w [= Hw _]. by apply Hm. Qed.

Lemma request_shrinks trigger r window cur seeds :
  N.of_nat (length cur) <= U64_MAX →
  CompactionLogic.spec view (cur, seeds) (compact_for_request env svc trigger r window)
    (λ _ v, ∃ li, rtc (shrink cfg seeds li) cur v.1).
Proof.
  intros Hlen. unfold compact_for_request.
  set (Q := λ (_ : result CompactionError CompactionOutcome) (v : list SurfaceMessage * list N),
    ∃ li, rtc (shrink cfg seeds li) cur v.1).
  assert (∀ e, Q (Err e) (cur, seeds)) as Hu.
  { intros e. exists (limits svc r window "" cur 0). apply rtc_refl. }
  past x; [|done]. apply spec_leased; [apply _| |done].
  eapply spec_keep; [apply kept_surface; apply _|intros ? (w1 & [= Hw1 _] & <-)|done].
  eapply spec_keep; [apply kept_session; apply _|intros ? (w2 & [= _ Hw2] & <-)|done]. cbv zeta.
  fold (seeds_of (cw_session w2)). rewrite Hw2.
  past s'; [|done]. past next; [|done].
  apply (spec_view _ _ _ (λ _ cur', ∃ li, rtc (shrink cfg seeds li) cur cur')).
  eapply spec_weaken; [by apply spec_recover|]. intros y cur' Hx. eexists. exact Hx.
Qed.
End request.
End calm_env.
End runs.
