(* ===== verification/CompactionLogFacts.v ===== *)
(** * What compactions write to the log

    An automaton over the log that accepts well-bracketed compactions
    ([bracket_step]), and its runs over the operations of the service, next to the
    ends that the session refused; and that nothing the service writes is an event
    of a turn's protocol ([quiet]). *)

From S2P Require Import Prelude Json Protocol Compaction Session SessionFacts Llm.
From S2P Require Import CompactionFacts CompactionLogic AgentTurnFacts.
Import Service.

#[local] Open Scope N_scope.

(** ** Brackets *)

Definition compaction_types : list string :=
  ["compaction/start"; "compaction/summary"; "compaction/end"].

(** The state is the id of the compaction that is under way; the outer [None] is
    an event out of place. *)
Definition bracket_step (p : option string) (e : SessionEvent) : option (option string) :=
  let id := get_str "compactionId" (ev_data e) in
  if String.eqb (event_type e) "compaction/start" then
    match p, id with None, Some id => Some (Some id) | _, _ => None end
  else if String.eqb (event_type e) "compaction/summary" then
    if bool_decide (is_Some p ∧ id = p) then Some p else None
  else if String.eqb (event_type e) "compaction/end" then
    if bool_decide (is_Some p ∧ id = p) then Some None else None
  else Some p.

Definition bracket (events : list SessionEvent) : option (option string) :=
  foldl (λ p e, p ≫= λ p, bracket_step p e) (Some None) events.

Lemma bracket_snoc events e : bracket (events ++ [e]) = p ← bracket events; bracket_step p e.
Proof. unfold bracket. by rewrite foldl_app. Qed.

Lemma bracket_aside p e : event_type e ∉ compaction_types → bracket_step p e = Some p.
Proof.
  unfold bracket_step, compaction_types. intros Hn.
  repeat match goal with
  | |- context [String.eqb (event_type e) ?s] =>
      destruct (String.eqb_spec (event_type e) s) as [Heq|_]; [exfalso; apply Hn; rewrite Heq; set_solver|]
  end. done.
Qed.

Lemma bracket_others events l :
  Forall (λ e, event_type e ∉ compaction_types) l → bracket (events ++ l) = bracket events.
Proof.
  intros Hl. induction l as [|e l IH] using rev_ind; [by rewrite app_nil_r|].
  apply Forall_app in Hl as [Hl [He _]%Forall_cons].
  rewrite app_assoc, bracket_snoc, (IH Hl). destruct (bracket events); [|done]. simpl. exact (bracket_aside _ _ He).
Qed.

Section bracketed.
Context `{ProtocolWire} `{CompactionWire} {S A : Type} `{SessionPersistence S}.

Definition log_of (w : CompactWorld S) : list SessionEvent := st_events (s_state (cw_session w)).

(** The other tasks do not write the events of compactions of this session: they
    would need its lease. *)
Definition private (env : CompactEnv S A) : Prop := ∀ n s b a,
  ∃ l, st_events (s_state (ce_others env n s b a).1.1) = st_events (s_state s) ++ l
    ∧ Forall (λ e, event_type e ∉ compaction_types) l.

Context (env : CompactEnv S A) (svc : CompactionService) (Hpriv : private env).
#[local] Abbreviation cfg := (cs_config svc).
#[local] Set Default Proof Using "Hpriv".

(** The ends of compactions that the session refused. *)
Definition refused_ends (w : CompactWorld S) : list Refusal :=
  List.filter (λ x, String.eqb (rf_event_type x) "compaction/end") (cw_refused w).

Definition Seen : Type := option (option string) * list Refusal.
Definition running (w : CompactWorld S) : Seen := (bracket (log_of w), refused_ends w).
#[local] Abbreviation spec := (CompactionLogic.spec running).

#[local] Instance running_undisturbed : Undisturbed env running.
Proof.
  split; [|done]. intros w. unfold observe, running, log_of, refused_ends.
  destruct (Hpriv (cw_tick w) (cw_session w) (cw_backend w) (cw_active w)) as (l & Hl & Hf).
  destruct (ce_others _ _ _ _ _) as [[s b] a]. simpl in *. rewrite Hl. f_equal. by apply bracket_others.
Qed.

Definition event_of (a : AppendSpec) (seq : N) : SessionEvent :=
  mkEvent (as_event_type a) seq 0 (as_data a) (as_ignorable a)
    (as_source_event_seqs a) (as_surface_op a).

Definition after (a : AppendSpec) (v : Seen) : Seen :=
  (p ← v.1; bracket_step p (event_of a 0), v.2).
#[global] Arguments after : simpl never.

Definition refused (a : AppendSpec) (e : SessionError) (v : Seen) : Seen :=
  (v.1, v.2 ++ if String.eqb (as_event_type a) "compaction/end"
               then [mkRefusal (as_event_type a) (as_data a) e] else []).
#[global] Arguments refused : simpl never.

Definition wrote (a : AppendSpec) (v : Seen)
    (r : result CompactionError (result SessionError N)) (v' : Seen) : Prop :=
  match r with
  | Ok (Ok _) => v' = after a v
  | Ok (Err e) => v' = refused a e v
  | Err _ => False
  end.

Lemma wrote_append_now v t a : spec v (append_now t a) (wrote a v).
Proof.
  intros w <-. unfold append_now.
  destruct (append_next_if_surface _ _ _ _ _) as [[r s] b] eqn:Ha.
  apply append_next_if_surface_inv in Ha as [(e & -> & ->)|(seq & t' & p & -> & Hc & ->)]; simpl.
  - unfold running, refused, refused_ends, log_of. simpl. rewrite List.filter_app. simpl.
    by case_match.
  - unfold running, after, refused_ends, log_of. simpl. by rewrite app_nil_r, bracket_snoc.
Qed.

Lemma wrote_append v a : spec v (append env a) (wrote a v).
Proof. unfold append. intros w Hw. pose proof (und_others (env := env) (obs := running) w) as Ho.
  unfold mbind, compact_bind, observe in *. destruct (ce_others _ _ _ _ _) as [[s b] l].
  apply wrote_append_now. simpl in *. congruence.
Qed.

(** An append that is no end of a compaction leaves no trace when refused. *)
Lemma refused_aside a e v : as_event_type a ≠ "compaction/end" → refused a e v = v.
Proof.
  intros Ha. unfold refused. rewrite (proj2 (String.eqb_neq _ _) Ha), app_nil_r. by destruct v.
Qed.

Lemma kept_aside v a :
  as_event_type a ≠ "compaction/end" → (∀ p, bracket_step p (event_of a 0) = Some p) →
  spec v (append env a) (kept v any).
Proof.
  intros Ht Ha. eapply spec_weaken; [apply wrote_append|].
  intros [[seq|e]|e] v' Hv; simpl in Hv; [| |done]; (split; [|done]); subst v'.
  - unfold after. destruct v as [[p|] l]; [|done]. simpl. by rewrite Ha.
  - by apply refused_aside.
Qed.

(** A compaction under way, and the refusals before it. *)
Context (before : list Refusal).
#[local] Abbreviation at_rest := (Some None, before).
#[local] Abbreviation opened id := (Some (Some id), before).

(** The outcomes of an attempt.  Its compaction is closed and no end was refused;
    or the session refused that end, and its error is what the attempt returns;
    or the region ends at [u64::MAX], which is more than a memory holds. *)
Definition unended (id : string) (error : CompactionError) (v : Seen) : Prop :=
  ∃ data err, v = (Some (Some id), before ++ [mkRefusal "compaction/end" data err]) ∧
    get_str "compactionId" data = Some id ∧ error = CSession err.
Definition endless (id : string) (error : CompactionError) (v : Seen) : Prop :=
  ∃ range, v = opened id ∧ U64_MAX <= rg_end range ∧ exclusive_end range = Err error.
Definition closed {R} (r : result CompactionError R) (v : Seen) : Prop :=
  v = at_rest ∨ ∃ id e, r = Err e ∧ (unended id e v ∨ endless id e v).

Lemma closed_error {R T} e v :
  closed (Err e : result CompactionError R) v → closed (Err e : result CompactionError T) v.
Proof. intros [->|(i & x & [= ->] & Hu)]; [by left|right; by exists i, x]. Qed.
Lemma closed_ok {R T} (x : R) (y : T) v :
  closed (Ok x : result CompactionError R) v → v = at_rest.
Proof. by intros [->|(i & e & [=] & _)]. Qed.

Lemma started_event id data : get_str "compactionId" data = Some id →
  after (mkAppendSpec "compaction/start" data None None None (Some true)) at_rest = opened id.
Proof. intros Hid. unfold after, bracket_step. simpl. by rewrite Hid. Qed.
Lemma summary_event id data : get_str "compactionId" data = Some id →
  after (mkAppendSpec "compaction/summary" data None None None (Some true)) (opened id) = opened id.
Proof. intros Hid. unfold after, bracket_step. simpl. rewrite Hid. by rewrite bool_decide_true. Qed.
Lemma ended_event id data : get_str "compactionId" data = Some id →
  after (mkAppendSpec "compaction/end" data None None None (Some true)) (opened id) = at_rest.
Proof. intros Hid. unfold after, bracket_step. simpl. rewrite Hid. by rewrite bool_decide_true. Qed.

Lemma closed_end id turn e : spec (opened id) (append_end env id turn e) closed.
Proof.
  unfold append_end. apply spec_sure; [apply sure_observe, _|]. intros n. cbv zeta.
  set (data := match e with Some e => _ | None => _ end).
  assert (get_str "compactionId" data = Some id) as Hid by by destruct e.
  eapply spec_bind; [apply wrote_append_now| |by intros ? ? []].
  intros [seq|x] v' Hv; simpl in Hv; apply spec_lift; subst v'.
  - left. by apply ended_event.
  - right. exists id, (CSession x). split; [done|]. left. by exists data, x.
Qed.

Definition failed {R} (r : result CompactionError R) (v : Seen) : Prop :=
  is_ok r = false ∧ closed r v.

Lemma closed_finish {R} id e : spec (opened id) (finish_error (R := R) env id e) failed.
Proof.
  unfold finish_error. apply spec_sure; [apply sure_open_turn, _|]. intros turn.
  eapply spec_bind; [apply closed_end|..].
  - intros seq v' ->%(closed_ok seq tt). apply spec_fail. split; [done|by left].
  - intros x v' Hc. split; [done|]. revert Hc. apply closed_error.
Qed.

(** Behind [closing] an attempt goes on with its result, or it is closed. *)
Lemma closed_closing {R} id (m : Compact S R) P :
  spec (opened id) m (kept (opened id) P) →
  spec (opened id) (closing env id m)
    (λ r v, match r with Ok x => v = opened id ∧ P x | Err _ => closed r v end).
Proof.
  intros Hm. unfold closing.
  apply (spec_bind _ _ _ _ _ (λ r v, match r with Ok r => kept (opened id) P r v | Err _ => False end));
    [by apply spec_attempt| |done].
  intros [x|e] v' [-> HP].
  - apply spec_ret. split; [done|by apply HP].
  - eapply spec_weaken; [apply closed_finish|]. by intros [y|e'] v' [Hf Hc].
Qed.

#[local] Hint Extern 1 (CompactionLogic.spec _ _ (append _ _) _) =>
  apply kept_aside; [discriminate|intros ?; reflexivity] : keep.

Lemma kept_record id plan g summary :
  spec (opened id) (record_summary env svc id plan g summary) (kept (opened id) any).
Proof.
  unfold record_summary. eapply (kept_bind _ _ _ _ _ any); [|intros; keep].
  unfold append_or_close. eapply spec_bind; [apply wrote_append| |by intros ? ? []].
  intros [seq|e] v' Hv; simpl in Hv; subst v'.
  - rewrite summary_event by done. by apply kept_ret.
  - rewrite refused_aside by done. eapply kept_bind; [solve [eauto with keep]|intros e' _]. apply kept_fail.
Qed.
#[local] Hint Resolve kept_record : keep.

Lemma kept_replace v plan fin start seq m : spec v (replace_region env plan fin start seq m) (kept v any).
Proof. unfold replace_region, append_or_close. keep. Qed.

Lemma bracketed_execute trigger plan :
  spec at_rest (execute env svc trigger plan) closed.
Proof.
  assert (∀ R (r : result CompactionError R), closed r at_rest) as Hc by (by left).
  unfold execute. past u; [|done]. past s; [|done]. past u'; [|done]. past n; [cbv zeta|done].
  past turn; [|done]. set (id := ce_uuid env n).
  eapply spec_bind; [apply wrote_append| |by intros ? ? []].
  intros [start|e] v' Hv; simpl in Hv; subst v'; apply spec_lift_bind; simpl;
    [|rewrite refused_aside by done; apply Hc].
  rewrite started_event with (id := id) by done.
  eapply spec_bind; [apply (closed_closing _ _ any)| |intros e c; apply closed_error].
  { eapply kept_bind; [apply kept_generate; apply _|intros g _].
    eapply kept_bind; [solve [eauto with keep]|intros seq _]. cbv zeta. keep. }
  intros [seq m] v' [-> _].
  apply spec_lift_bind. destruct (exclusive_end (pl_range plan)) as [fin|e] eqn:Hend.
  2: { right. exists id, e. split; [done|]. right. exists (pl_range plan). split_and!; [done| |done].
       unfold exclusive_end, u64_checked_add in Hend.
       destruct (N.leb_spec (rg_end (pl_range plan) + 1) U64_MAX); [done|lia]. }
  eapply spec_bind; [apply (closed_closing _ _ any), kept_replace| |intros e c; apply closed_error].
  intros rep v' [-> _].
  eapply spec_bind; [apply closed_end| |].
  - intros e v' ->%(closed_ok e tt). by apply spec_ret.
  - intros e v'; apply closed_error.
Qed.

Lemma kept_prune v seq cap :
  spec v (prune_tool_result_locked env seq cap) (kept v any).
Proof.
  unfold prune_tool_result_locked. eapply kept_bind; [solve [eauto with keep]|intros u _].
  destruct (_ =? 0); [apply kept_fail|].
  eapply kept_bind; [solve [eauto with keep]|intros surface _].
  eapply kept_bind; [solve [eauto with keep]|intros [i e] _].
  eapply kept_bind; [solve [eauto with keep]|intros [n [[k m]|]] _]; [|by apply kept_ret]. keep.
Qed.
#[local] Hint Resolve kept_prune : keep.

Section recovery.
Context (trigger : CompactionTrigger) (r : GenerateRequest) (seeds : list N) (li : Limits).
Context (overhead : N).

Lemma bracketed_step outcome completed :
  spec at_rest (recovery_step env svc trigger r seeds li overhead outcome completed) closed.
Proof.
  assert (∀ R (x : result CompactionError R), closed x at_rest) as Hc by (by left).
  unfold recovery_step. past u; [|done].
  past current; [|done]. past total; [cbv zeta|done]. destruct (_ && _); [by apply spec_ret|].
  destruct (selection _ _ _ _).1 as [range|].
  - past plan; [|done]. eapply spec_bind; [by apply bracketed_execute|..].
    + intros x v' ->%(closed_ok x tt). by apply spec_ret.
    + intros e v'; apply closed_error.
  - assert (spec at_rest (try_prune env svc seeds li current) (kept at_rest any)) as Hp.
    { unfold try_prune. keep. }
    eapply spec_keep; [exact Hp|intros p _|done]. destruct p; [by apply spec_ret|].
    destruct (_ && _); [by apply spec_ret|by apply spec_fail].
Qed.

Lemma bracketed_recover steps outcome completed :
  spec at_rest (recover env svc trigger r seeds li overhead steps outcome completed) closed.
Proof.
  revert outcome completed. induction steps as [|steps IH]; intros outcome completed.
  { apply spec_fail. by left. }
  simpl. eapply spec_bind; [apply bracketed_step|..].
  - intros [o|o c] v' ->%(closed_ok _ tt); [apply spec_ret; by left|apply IH].
  - intros e v'; apply closed_error.
Qed.
End recovery.

Lemma bracketed_request trigger r window :
  spec at_rest (compact_for_request env svc trigger r window) closed.
Proof.
  assert (∀ R (x : result CompactionError R), closed x at_rest) as Hc by (by left).
  unfold compact_for_request. past u; [|done]. apply spec_leased; [apply _| |done].
  past initial; [|done]. past s; [|done]. cbv zeta. past s'; [|done]. past next; [|done].
  apply bracketed_recover.
Qed.

Lemma bracketed_region range :
  spec at_rest (compact_region env svc range) closed.
Proof.
  assert (∀ R (x : result CompactionError R), closed x at_rest) as Hc by (by left).
  unfold compact_region. past u; [|done]. apply spec_leased; [apply _| |done].
  past current; [|done]. past plan; [|done]. apply bracketed_execute.
Qed.
End bracketed.

(** ** Turns do not see compactions *)

Section quiet.
Context `{ProtocolWire} `{CompactionWire} {S A : Type} `{SessionPersistence S}.

Definition others_quiet (env : CompactEnv S A) : Prop :=
  ∀ n s b a, extends_quietly s (ce_others env n s b a).1.1.

Context (env : CompactEnv S A) (svc : CompactionService) (Hquiet : others_quiet env).
#[local] Set Default Proof Using "Hquiet".

Definition whispers {R} (m : Compact S R) : Prop :=
  ∀ w, extends_quietly (cw_session w) (cw_session (m w).2).

Lemma extends_refl s : extends_quietly s s.
Proof using Type. exists []. by rewrite app_nil_r. Qed.
Lemma extends_trans s1 s2 s3 :
  extends_quietly s1 s2 → extends_quietly s2 s3 → extends_quietly s1 s3.
Proof using Type.
  intros (l1 & Hl1 & Hq1) (l2 & Hl2 & Hq2). exists (l1 ++ l2). rewrite Hl2, Hl1, app_assoc.
  split; [done|by apply Forall_app].
Qed.

Lemma whispers_bind {R T} (m : Compact S R) (k : R → Compact S T) :
  whispers m → (∀ x, whispers (k x)) → whispers (m ≫= k).
Proof using Type.
  intros Hm Hk w. specialize (Hm w). unfold mbind, compact_bind.
  destruct (m w) as [[x|e] w1]; simpl in *; [|done]. eapply extends_trans; [done|]. apply Hk.
Qed.
Lemma whispers_still {R} (m : Compact S R) :
  (∀ w, cw_session (m w).2 = cw_session w) → whispers m.
Proof using Type. intros Hm w. rewrite Hm. apply extends_refl. Qed.

Lemma whispers_attempt {R} (m : Compact S R) : whispers m → whispers (attempt m).
Proof using Type. intros Hm w. specialize (Hm w). unfold attempt. by destruct (m w). Qed.

Lemma whispers_observe : whispers (observe env).
Proof.
  intros w. unfold observe.
  pose proof (Hquiet (cw_tick w) (cw_session w) (cw_backend w) (cw_active w)) as Hq.
  by destruct (ce_others _ _ _ _ _) as [[s b] a].
Qed.

Lemma whispers_append_now t a :
  (∀ seq, quiet (event_of a seq)) → whispers (append_now t a).
Proof using Type.
  intros Ha w. unfold append_now.
  destruct (append_next_if_surface _ _ _ _ _) as [[r s] b] eqn:Hn. simpl.
  apply append_next_if_surface_inv in Hn as [(e & -> & ->)|(seq & t' & p & -> & _ & ->)].
  - apply extends_refl.
  - exists [event_of a seq]. split; [done|]. constructor; [apply Ha|constructor].
Qed.

Lemma whispers_append a : (∀ seq, quiet (event_of a seq)) → whispers (append env a).
Proof.
  intros Ha. unfold append. apply whispers_bind; [apply whispers_observe|]. intros n.
  by apply whispers_append_now.
Qed.

(** A result that replaces another one answers no call. *)
Lemma quiet_replaced data sources start fin exp ignorable seq :
  quiet (event_of (mkAppendSpec "tool/result" data sources (Some (Replace start fin)) exp ignorable) seq).
Proof using Type. by intros p. Qed.

Create HintDb whispers.
#[local] Hint Extern 1 (whispers (append _ _)) =>
  apply whispers_append; intros; apply quiet_replaced : whispers.
#[local] Hint Extern 1 (whispers (append_now _ _)) =>
  apply whispers_append_now; intros; apply quiet_replaced : whispers.
#[local] Hint Resolve whispers_observe whispers_attempt : whispers.
#[local] Hint Extern 1 (whispers (append _ _)) => apply whispers_append; intros seq p; reflexivity : whispers.
#[local] Hint Extern 1 (whispers (append_now _ _)) =>
  apply whispers_append_now; intros seq p; reflexivity : whispers.
#[local] Hint Extern 2 (whispers _) => apply whispers_still; reflexivity : whispers.
#[local] Ltac whisper :=
  repeat (first [ solve [eauto with whispers] | apply whispers_bind; [|intros ?] | case_match
                | apply whispers_attempt ]).

Lemma whispers_cancelled : whispers (is_cancelled env).
Proof. unfold is_cancelled. whisper. Qed.
Lemma whispers_session : whispers (the_session env).
Proof. unfold the_session. whisper. Qed.
#[local] Hint Resolve whispers_cancelled whispers_session : whispers.
Lemma whispers_check : whispers (check_cancellation env).
Proof. unfold check_cancellation. whisper. Qed.
Lemma whispers_surface : whispers (the_surface env).
Proof. unfold the_surface. whisper. Qed.
Lemma whispers_turn : whispers (open_turn env).
Proof. unfold open_turn, the_events. whisper. Qed.
#[local] Hint Resolve whispers_check whispers_surface whispers_turn : whispers.

Lemma whispers_end id turn e : whispers (append_end env id turn e).
Proof. unfold append_end. whisper. Qed.
#[local] Hint Resolve whispers_end : whispers.
Lemma whispers_closing {R} id (m : Compact S R) : whispers m → whispers (closing env id m).
Proof. intros Hm. unfold closing, finish_error. whisper. Qed.
Lemma whispers_append_or_close a : (∀ seq, quiet (event_of a seq)) → whispers (append_or_close env a).
Proof.
  intros Ha. unfold append_or_close, compaction_session_error. apply whispers_bind; [by apply whispers_append|].
  intros r. whisper.
Qed.

Lemma whispers_execute trigger plan : whispers (execute env svc trigger plan).
Proof.
  unfold execute. do 7 (apply whispers_bind; [solve [eauto with whispers]|intros ?]).
  apply whispers_bind.
  { apply whispers_closing. unfold generate, complete, record_summary. whisper. }
  intros [seq m]. apply whispers_bind; [whisper|intros fin].
  apply whispers_bind; [|intros ?; whisper].
  apply whispers_closing. apply whispers_append_or_close. by intros k p.
Qed.
#[local] Hint Resolve whispers_execute : whispers.

Lemma whispers_prune seq cap : whispers (prune_tool_result_locked env seq cap).
Proof. unfold prune_tool_result_locked. whisper. Qed.
#[local] Hint Resolve whispers_prune : whispers.

Lemma whispers_step trigger r seeds li overhead outcome completed :
  whispers (recovery_step env svc trigger r seeds li overhead outcome completed).
Proof. unfold recovery_step, total_tokens, the_events, try_prune. whisper. Qed.

Lemma whispers_recover trigger r seeds li overhead steps outcome completed :
  whispers (recover env svc trigger r seeds li overhead steps outcome completed).
Proof.
  revert outcome completed. induction steps as [|steps IH]; intros outcome completed; [whisper|].
  simpl. apply whispers_bind; [apply whispers_step|]. intros [o|o c]; [whisper|apply IH].
Qed.

Lemma whispers_request trigger r window : whispers (compact_for_request env svc trigger r window).
Proof.
  unfold compact_for_request, leased, acquire. whisper.
  all: try apply whispers_recover.
  intros w. simpl. case_match; apply extends_refl.
Qed.
End quiet.
