(* ===== verification/AgentCompaction.v ===== *)
(** * The loop with the compaction service

    [with_compaction]: the environment of a loop whose mode has a compaction
    policy, with the service of compaction.rs bound to the agent's model. *)

From S2P Require Import Prelude Json Protocol Compaction Session SessionFacts AgentInbox Tools Llm.
From S2P Require Import AgentLoop AgentTurn AgentTurnFacts CompactionLogic CompactionLogFacts.

Section bound.
Context `{ProtocolWire} `{LoopWire} {S A : Type} `{SessionPersistence S}.

(** A request at tick [n] of the loop; [active] are the leases of the moment. *)
Definition service_compaction (cenv : nat → CompactEnv S A) (active : nat → gset SessionId)
    (svc : CompactionService) (n : nat) (trigger : CompactionTrigger) (r : GenerateRequest)
    (window : option N) (s : Session) (b : S) : result CompactionError CompactionOutcome * Session * S :=
  let '(outcome, w) :=
    Service.compact_for_request (cenv n) svc trigger r window (mkCompactWorld s b (active n) 0 []) in
  (outcome, cw_session w, cw_backend w).

Definition with_compaction (cenv : nat → CompactEnv S A) (active : nat → gset SessionId)
    (svc : CompactionService) (o : AgentOptions) (env : LoopEnv S A) : LoopEnv S A := {|
  le_others := le_others env;
  le_cancelled := le_cancelled env;
  le_cause := le_cause env;
  le_token := le_token env;
  le_clock := le_clock env;
  le_uuid := le_uuid env;
  le_random := le_random env;
  le_llm := le_llm env;
  le_answer := le_answer env;
  le_poll := le_poll env;
  le_schemas := le_schemas env;
  le_code_description := le_code_description env;
  le_prompt := le_prompt env;
  le_execute := le_execute env;
  le_compact :=
    Some (service_compaction cenv active (for_session_model (ao_provider o) (ao_model o) svc));
  le_catalog := le_catalog env;
  le_skill := le_skill env;
  le_instructions := le_instructions env;
|}.

(** The service meets what the lemmas on turns assume of a compaction. *)
Lemma with_compaction_quiet cenv active svc o env :
  quiet_env env → (∀ n, others_quiet (cenv n)) → quiet_env (with_compaction cenv active svc o env).
Proof.
  intros [Ho _ Hd] Hc. split; [exact Ho| |exact Hd].
  intros f [= <-] n t r window s b. unfold service_compaction.
  pose proof (whispers_request (cenv n) (for_session_model (ao_provider o) (ao_model o) svc) (Hc n) t r
    window (mkCompactWorld s b (active n) 0 [])) as Hq.
  by destruct (Service.compact_for_request _ _ _ _ _ _) as [outcome w].
Qed.
End bound.
