(* ===== verification/AgentRetryFacts.v ===== *)
(** * The attempts of a generation end

    A computation that returns before its fuel is used, and that logs no retry of
    its own ([logs]); each retry is counted in the log, so the attempts of one
    generation are bounded by the policy. *)

From S2P Require Import Prelude Json Protocol Compaction Session SessionFacts AgentInbox Tools Llm.
From S2P Require Import AgentLoop AgentTurn AgentTurnFacts.

#[local] Open Scope N_scope.

(** [m] never runs out of fuel and only appends; with [b], no retries. *)
Definition logs {S R} (b : bool) (m : Loop S R) : Prop := ∀ w,
  (m w).1 ≠ Err OutOfFuel ∧
  ∃ l, events_of (m w).2 = events_of w ++ l ∧ Forall (λ e, b = true → event_type e ≠ "llm/retry") l.

Section rules.
Context {S : Type}.

Lemma logs_still {R} b (m : Loop S R) :
  (∀ w, (m w).1 ≠ Err OutOfFuel ∧ events_of (m w).2 = events_of w) → logs b m.
Proof. intros Hm w. destruct (Hm w) as [Ho He]. split; [done|]. exists []. by rewrite app_nil_r. Qed.

Lemma logs_ret {R} b (x : R) : logs (S := S) b (mret x).
Proof. by apply logs_still. Qed.
Lemma logs_failed {R} b e : logs (S := S) (R := R) b (fail (Failed e)).
Proof. by apply logs_still. Qed.
Lemma logs_panicked {R} b : logs (S := S) (R := R) b (fail Panicked).
Proof. by apply logs_still. Qed.
Lemma logs_lift {R} b (r : result AgentError R) : logs (S := S) b (lift r).
Proof. destruct r; [apply logs_ret|apply logs_failed]. Qed.
Lemma logs_world b : logs (S := S) b the_world.
Proof. by apply logs_still. Qed.
Lemma logs_inbox {R} b (f : Inbox.InboxState → R * Inbox.InboxState) : logs (S := S) b (at_inbox f).
Proof. apply logs_still. intros w. unfold at_inbox. by destruct (f _). Qed.
Lemma logs_commit b r : logs (S := S) b (commit_reserved r).
Proof. apply logs_still. intros w. unfold commit_reserved. by destruct (Inbox.claim_commit _ _) as [[[l|] i]|]. Qed.
Lemma logs_record b h : logs (S := S) b (record_request_header h).
Proof. by apply logs_still. Qed.

Lemma logs_bind {R T} b (m : Loop S R) (k : R → Loop S T) :
  logs b m → (∀ x, logs b (k x)) → logs b (m ≫= k).
Proof.
  intros Hm Hk w. specialize (Hm w) as [Ho (l & He & Hl)]. unfold mbind, loop_bind.
  destruct (m w) as [[x|e] w1]; simpl in *.
  - destruct (Hk x w1) as [Ho' (l' & He' & Hl')]. split; [done|].
    exists (l ++ l'). rewrite He', He, app_assoc. split; [done|]. by apply Forall_app.
  - split; [by intros [= ->]|]. by exists l.
Qed.

Lemma logs_each {T} b (f : T → Loop S unit) l : (∀ x, logs b (f x)) → logs b (each f l).
Proof.
  intros Hf. induction l as [|x l IH]; simpl; [apply logs_ret|]. by apply logs_bind.
Qed.

Lemma logs_attempt {R} b (m : Loop S R) : logs b m → logs b (attempt m).
Proof.
  intros Hm w. specialize (Hm w) as [Ho Hl]. unfold attempt.
  by destruct (m w) as [[x|[e| |]] w1].
Qed.

Lemma logs_release {R} b r (m : Loop S R) : logs b m → logs b (release_on_error r m).
Proof.
  intros Hm w. specialize (Hm w) as [Ho Hl]. unfold release_on_error.
  by destruct (m w) as [[x|[e| |]] w1].
Qed.
End rules.

Create HintDb logs.
#[export] Hint Resolve logs_ret logs_failed logs_panicked logs_lift logs_world logs_inbox logs_commit
  logs_record : logs.

Lemma quiet_no_retry e : quiet e → event_type e ≠ "llm/retry".
Proof. intros Hq Ht. specialize (Hq (Between 0)). unfold turn_step in Hq. by rewrite Ht in Hq. Qed.

Section loop.
Context `{ProtocolWire} `{LoopWire} {S A : Type} `{SessionPersistence S}.
Context (env : LoopEnv S A) (Hq : quiet_env env).
#[local] Set Default Proof Using "Type*".

Lemma extends_logged b s s' : extends_quietly s s' →
  ∃ l, st_events (s_state s') = st_events (s_state s) ++ l ∧
    Forall (λ e, b = true → event_type e ≠ "llm/retry") l.
Proof.
  intros (l & He & Hl). exists l. split; [done|]. eapply Forall_impl; [exact Hl|].
  intros e He' _. by apply quiet_no_retry.
Qed.

Lemma logs_observe b : logs b (observe env).
Proof.
  intros w. unfold observe.
  pose proof (qe_others _ Hq (w_tick w) (w_session w) (w_backend w) (w_inbox w)) as Ho.
  destruct (le_others _ _ _ _ _) as [[s k] i]. split; [done|]. by apply extends_logged.
Qed.

Lemma logs_append_now b t build :
  (∀ seq, b = true → event_type (build seq) ≠ "llm/retry") → logs (S := S) b (append_now t build).
Proof.
  intros Hb w. unfold append_now. destruct (append_next _ _ _ _) as [[r s] k] eqn:Ha.
  unfold events_of. apply append_next_inv in Ha as [[Hr ->]|(seq & -> & _ & He)].
  - split; [by destruct r|]. exists []. by rewrite app_nil_r.
  - split; [done|]. exists [build seq]. simpl. rewrite He. split; [done|]. apply Forall_singleton, Hb.
Qed.

(** A computation is taken apart by the rules, then by what it is made of. *)
Ltac logged := repeat first
  [ solve [eauto with logs]
  | apply logs_bind; [|intros ?; cbv beta]
  | case_match ].
#[local] Hint Resolve logs_observe : logs.

Lemma logs_cancelled b : logs b (is_cancelled env).
Proof. unfold is_cancelled. logged. Qed.
Lemma logs_session b : logs b (the_session env).
Proof. unfold the_session. logged. Qed.
#[local] Hint Resolve logs_cancelled logs_session : logs.
Lemma logs_events b : logs b (the_events env).
Proof. unfold the_events. logged. Qed.
Lemma logs_aborted b : logs b (aborted env).
Proof. unfold aborted. logged. Qed.
Lemma logs_append b type data sources op :
  (b = true → type ≠ "llm/retry") → logs b (append env type data sources op).
Proof. intros Hb. unfold append. logged. all: by apply logs_append_now. Qed.
#[local] Hint Resolve logs_events logs_aborted : logs.
#[local] Hint Extern 1 (logs _ (append _ _ _ _ _)) => apply logs_append; discriminate : logs.
#[local] Hint Extern 1 (logs false (append _ _ _ _ _)) => apply logs_append; discriminate : logs.

Lemma logs_message b turn step m sources meta type :
  (b = true → type ≠ "llm/retry") → logs b (append_message env type turn step m sources meta).
Proof. intros Ht. unfold append_message. apply logs_bind; [by apply logs_append|logged]. Qed.
#[local] Hint Extern 1 (logs _ (append_message _ _ _ _ _ _ _)) => apply logs_message; discriminate : logs.
Lemma logs_assistant b turn step m usage seqs : logs b (append_assistant env turn step m usage seqs).
Proof. unfold append_assistant. logged. Qed.
Lemma logs_close b turn step : logs b (close_step env turn step).
Proof. unfold close_step. logged. Qed.
Lemma logs_end b turn reason : logs b (end_turn env turn reason).
Proof. unfold end_turn. logged. Qed.
#[local] Hint Resolve logs_assistant logs_close logs_end : logs.
Lemma logs_close_cancelled b turn step : logs b (close_cancelled_step env turn step).
Proof. unfold close_cancelled_step. logged. Qed.
Lemma logs_end_failed b turn step f : logs b (end_with_failure env turn step f).
Proof. unfold end_with_failure. logged. Qed.
#[local] Hint Resolve logs_close_cancelled logs_end_failed : logs.

Lemma logs_reserve {R} b (f : Inbox.InboxState → R * Inbox.InboxState) : logs b (reserve env f).
Proof. unfold reserve. logged. Qed.
#[local] Hint Resolve logs_reserve : logs.
Lemma logs_claim b r : logs b (commit_inbox_claim env r).
Proof. unfold commit_inbox_claim. logged. apply logs_release. logged. Qed.
#[local] Hint Resolve logs_claim : logs.
Lemma logs_batch b : logs b (claim_step_batch env).
Proof. unfold claim_step_batch. logged. Qed.
Lemma logs_skill b turn step e : logs b (append_skill env turn step e).
Proof. unfold append_skill. logged. Qed.
Lemma logs_skills b turn step l : logs b (append_skill_context env turn step l).
Proof. unfold append_skill_context. logged. apply logs_each. intros ?. apply logs_skill. Qed.
Lemma logs_runtime b turn step : logs b (append_runtime_context env turn step).
Proof. unfold append_runtime_context. logged. Qed.
Lemma logs_instructions b turn step : logs b (append_workspace_instructions env turn step).
Proof. unfold append_workspace_instructions. logged. Qed.
#[local] Hint Resolve logs_batch logs_skills logs_runtime logs_instructions : logs.

Lemma logs_request cfg b : logs b (build_request env cfg).
Proof. unfold build_request. logged. Qed.
Lemma logs_compact cfg b trigger r : logs b (compact env cfg trigger r).
Proof.
  unfold compact. destruct (le_compact env) as [f|] eqn:Hf; [|logged].
  apply logs_bind; [logged|]. intros x. apply logs_bind; [|intros o; logged].
  intros w. unfold compacted.
  pose proof (qe_compact _ Hq f Hf x trigger r (context_window cfg r) (w_session w) (w_backend w)) as Hc.
  destruct (f _ _ _ _ _ _) as [[o s] k]. split; [done|]. by apply extends_logged.
Qed.
#[local] Hint Resolve logs_request logs_compact : logs.
Lemma logs_overflow cfg b r : logs b (compact_context_overflow env cfg r).
Proof. unfold compact_context_overflow. logged. Qed.
Lemma logs_header b r : logs b (append_header env r).
Proof. unfold append_header. logged. Qed.
Lemma logs_context cfg b r : logs b (append_context env cfg r).
Proof. unfold append_context. logged. Qed.
#[local] Hint Resolve logs_overflow logs_header logs_context : logs.

Lemma logs_consume b turn step l a seqs g : logs b (consume env turn step l a seqs g).
Proof.
  revert a seqs g. induction l as [|chunk l IH]; intros a seqs g; simpl; [logged|].
  destruct (push chunk a) as [[completed a']|e]; [|logged].
  apply logs_bind; [apply logs_attempt; logged|]. intros [seq|e]; [apply IH|logged].
Qed.
#[local] Hint Resolve logs_consume : logs.
Lemma logs_generation b turn step r : logs b (consume_generation_attempt env turn step r).
Proof. unfold consume_generation_attempt. logged. Qed.
Lemma logs_sleep b delay : logs b (sleep env delay).
Proof. unfold sleep. logged. Qed.
Lemma logs_next_retry b n : logs (S := S) b (next_retry n).
Proof. unfold next_retry. logged. Qed.
#[local] Hint Resolve logs_generation logs_sleep logs_next_retry : logs.
Lemma logs_schedule turn step provider f : logs false (schedule_retry env turn step provider f).
Proof. unfold schedule_retry. logged. Qed.
Lemma logs_refresh b first turn step r : logs b (refresh env first turn step r).
Proof. unfold refresh. logged. Qed.
#[local] Hint Resolve logs_schedule logs_refresh : logs.

Lemma logs_calls b turn step calls : logs b (append_calls env turn step calls).
Proof. induction calls as [|[[id name] arguments] calls IH]; simpl; logged. Qed.
Lemma logs_output turn step call output seq : logs false (append_output env turn step call output seq).
Proof.
  unfold append_output. apply logs_bind.
  { apply logs_each. intros d. unfold append_dispatch. logged. }
  intros ?. unfold append_tool_context. logged.
Qed.
#[local] Hint Resolve logs_calls logs_output : logs.
Lemma logs_outputs turn step l : logs false (append_outputs env turn step l).
Proof. induction l as [|[[call output] seq] l IH]; simpl; logged. Qed.
#[local] Hint Resolve logs_outputs : logs.
Lemma logs_tools turn step m : logs false (run_tools env turn step m).
Proof. unfold run_tools. logged. Qed.
#[local] Hint Resolve logs_tools : logs.

Lemma logs_over b (m : Loop S unit) : logs b m → logs b (over m).
Proof. intros Hm. unfold over. logged. Qed.
Lemma logs_finish cfg turn step g : logs false (finish_step env cfg turn step g).
Proof. unfold finish_step. logged; try (apply logs_over; logged). Qed.
Lemma logs_prepare cfg turn step : logs false (prepare_request env cfg turn step).
Proof. unfold prepare_request. logged. Qed.
Lemma logs_messages b turn step l : logs b (append_messages env turn step l).
Proof. apply logs_each. intros m. logged. Qed.
#[local] Hint Resolve logs_over logs_finish logs_prepare logs_messages : logs.

(** ** Retries are counted in the log *)

Section retries.
Context (cfg : LoopConfig) (turn step : N) (provider key : string) (max : N).

Definition counted (w : World S) : N :=
  retries_done (prior_retry turn step provider key (events_of w)).

(** At every reading the provider's policy, when it has one, is bounded by [max]. *)
Definition steady : Prop := ∀ n p,
  provider_retry_policy provider (le_llm env n) = Some p →
  policy_key json_text p = key ∧ max_retries p = Some max.
Context (Hs : steady).

Lemma prior_retry_app events l :
  Forall (λ e, event_type e ≠ "llm/retry") l →
  prior_retry turn step provider key (events ++ l) = prior_retry turn step provider key events.
Proof using Type.
  intros Hl. unfold prior_retry. rewrite rev_app_distr, filter_app. f_equal.
  rewrite (filter_none _ (rev l)); [done|]. intros e He%list_elem_of_In%in_rev%list_elem_of_In.
  rewrite Forall_forall in Hl. specialize (Hl e He). unfold prior_retry_event.
  by destruct (String.eqb_spec (event_type e) "llm/retry").
Qed.

Lemma counted_kept {R} (m : Loop S R) w : logs true m → counted (m w).2 = counted w.
Proof using Type.
  intros Hm. destruct (Hm w) as [_ (l & He & Hl)]. unfold counted. rewrite He, prior_retry_app; [done|].
  eapply Forall_impl; [exact Hl|]. auto.
Qed.

Lemma counted_step {R} (m : Loop S R) w r w' : logs true m → m w = (r, w') → counted w' = counted w.
Proof using Type. intros Hm He. rewrite <- (counted_kept m w Hm). by rewrite He. Qed.

Lemma bind_inv {R T} (m : Loop S R) (k : R → Loop S T) w y w' :
  (m ≫= k) w = (Ok y, w') → ∃ x w1, m w = (Ok x, w1) ∧ k x w1 = (Ok y, w').
Proof using Type.
  unfold mbind, loop_bind. destruct (m w) as [[x|e] w1]; [|done]. intros Hk. by exists x, w1.
Qed.

(** The next computation of a run that returned, when it logs no retry. *)
Ltac took Hr x := let w := fresh "w" in let E := fresh "E" in
  apply bind_inv in Hr as (x & w & E & Hr); apply counted_step in E; [|solve [eauto with logs]].

Lemma retry_event policy id retry delay f seq time :
  prior_retry_event turn step provider key
    (mkEvent "llm/retry" seq time (retry_data policy id turn step provider key retry delay f) None None None)
    = true ∧
  get_u64 "retry" (retry_data policy id turn step provider key retry delay f) = Some retry.
Proof using Type.
  unfold prior_retry_event, retry_data.
  destruct (max_retries policy); cbn; by rewrite !bool_decide_true by done.
Qed.

Lemma append_retry policy id retry delay f w seq w' :
  append env "llm/retry" (retry_data policy id turn step provider key retry delay f) None None w
    = (Ok seq, w') → counted w' = retry.
Proof using Hq.
  unfold append. intros (c & w1 & _ & Ha)%bind_inv. apply bind_inv in Ha as (n & w2 & _ & Ha).
  unfold append_now in Ha. destruct (append_next _ _ _ _) as [[r s] k] eqn:Hn.
  apply append_next_inv in Hn as [[Hr ->]|(seq' & -> & _ & He)]; [by destruct r|].
  injection Ha as _ <-. unfold counted, events_of, prior_retry. simpl. rewrite He, rev_unit.
  destruct (retry_event policy id retry delay f seq' (le_clock env n)) as [Hp Hg].
  rewrite filter_cons_True by done. unfold retries_done. simpl. by rewrite Hg.
Qed.

(** A retry that is granted is below the bound, and counted. *)
Lemma retry_counts f w w' :
  schedule_retry env turn step provider f w = (Ok true, w') →
  counted w' = counted w + 1 ∧ counted w < max.
Proof using Hs Hq.
  unfold schedule_retry. intros Hr. took Hr n.
  destruct (provider_retry_policy provider _) as [policy|] eqn:Hp; [|done].
  destruct (Hs n policy Hp) as [Hk Hm]. rewrite Hk, Hm in Hr.
  took Hr c. destruct (_ || _); [done|].
  apply bind_inv in Hr as (events & w2 & Ee & Hr).
  assert (events = events_of w2) as ->.
  { unfold the_events, the_session in Ee. apply bind_inv in Ee as (s & ? & Es & [= <- <-]).
    apply bind_inv in Es as (? & ? & _ & Es). apply bind_inv in Es as (? & ? & [= <- <-] & [= <- <-]). done. }
  apply counted_step in Ee; [|eauto with logs]. fold (counted w2) in Hr. simpl in Hr.
  destruct (N.leb_spec max (counted w2)) as [|Hlt]; [done|].
  apply bind_inv in Hr as (retry & w3 & En & Hr).
  assert (retry = counted w2 + 1 ∧ w3 = w2) as [-> ->].
  { unfold next_retry in En. destruct (u64_checked_add _ _) as [m|] eqn:Hm'; [|done].
    injection En as <- <-. apply u64_checked_add_Some in Hm' as [Hm' _]. by split. }
  took Hr m. destruct (retry_delay _ _ _ _) as [delay|]; [|done].
  apply bind_inv in Hr as (seq & w4 & Ea & Hr). apply append_retry in Ea.
  took Hr c1. destruct c1; [done|]. took Hr u. took Hr c2. destruct c2; [done|].
  took Hr seq'. took Hr c3. injection Hr as _ <-. lia.
Qed.

(** ** The fuel of the attempts *)

Lemma bind_fueled {R T} (m : Loop S R) (k : R → Loop S T) w :
  (m w).1 ≠ Err OutOfFuel → (∀ x w1, m w = (Ok x, w1) → (k x w1).1 ≠ Err OutOfFuel) →
  ((m ≫= k) w).1 ≠ Err OutOfFuel.
Proof using Type.
  intros Hm Hk. unfold mbind, loop_bind. destruct (m w) as [[x|e] w1]; [by apply Hk|].
  intros [= ->]. by apply Hm.
Qed.

Lemma logs_fueled {R} b (m : Loop S R) w : logs b m → (m w).1 ≠ Err OutOfFuel.
Proof using Type. intros Hm. apply Hm. Qed.

(** The attempts that are left: one for each retry, one for a compaction. *)
Definition attempts_left (recovered : bool) (w : World S) : nat :=
  N.to_nat max - N.to_nat (counted w) + (if recovered then 0 else 1).

Lemma recover_fueled r recovered f w :
  (recover env cfg turn step r recovered f w).1 ≠ Err OutOfFuel.
Proof using Hq.
  apply (logs_fueled false). unfold recover. logged.
Qed.

Lemma recover_measure r recovered f w recovered' w' :
  gr_provider r = provider →
  recover env cfg turn step r recovered f w = (Ok (Some recovered'), w') →
  (attempts_left recovered' w' < attempts_left recovered w)%nat.
Proof using Hs Hq.
  intros Hp Hr. unfold recover in Hr. rewrite Hp in Hr.
  apply bind_inv in Hr as (c & w1 & Ec & Hr).
  assert (counted w1 = counted w ∧ (c = Ok true → recovered = false)) as [Hc Hrec].
  { destruct recovered; simpl in Ec; [by injection Ec as <- <-|].
    destruct (is_context_overflow _); [|by injection Ec as <- <-].
    split; [|done]. eapply counted_step; [|exact Ec]. eauto with logs. }
  unfold attempts_left. destruct c as [[]|e].
  - injection Hr as <- <-. rewrite Hrec by done. lia.
  - apply bind_inv in Hr as (again & w2 & Ea & Hr). destruct again.
    + injection Hr as <- <-. apply retry_counts in Ea. destruct recovered; lia.
    + took Hr c. by apply bind_inv in Hr as (? & ? & _ & ?).
  - by apply bind_inv in Hr as (? & ? & _ & ?).
Qed.

Lemma refresh_provider first r w r' w' :
  refresh env first turn step r w = (Ok r', w') → gr_provider r' = gr_provider r.
Proof using Type.
  unfold refresh. destruct first; [by intros [= <- _]|].
  intros (? & ? & _ & Hr)%bind_inv. by apply bind_inv in Hr as (? & ? & _ & [= <- _]).
Qed.

(** With an attempt of fuel for each one that is left, the loop ends. *)
Lemma generations_fueled fuel first recovered r w :
  gr_provider r = provider → (attempts_left recovered w < fuel)%nat →
  (generation_loop env cfg fuel first recovered turn step r w).1 ≠ Err OutOfFuel.
Proof using Hs Hq.
  revert first recovered r w. induction fuel as [|fuel IH]; intros first recovered r w Hp Hf; [lia|].
  simpl. apply bind_fueled; [apply (logs_fueled true); eauto with logs|]. intros r' w1 Er.
  pose proof (refresh_provider _ _ _ _ _ Er) as Hp'. rewrite Hp in Hp'.
  apply counted_step in Er; [|eauto with logs].
  apply bind_fueled; [apply (logs_fueled true); eauto with logs|]. intros o w2 Eo.
  apply counted_step in Eo; [|eauto with logs].
  assert (∀ f w3, counted w3 = counted w2 →
    ((next ← recover env cfg turn step r' recovered f;
      match next with
      | Some recovered => generation_loop env cfg fuel false recovered turn step r'
      | None => mret None
      end) w3).1 ≠ Err OutOfFuel) as Hagain.
  { intros f w3 Hc. apply bind_fueled; [apply recover_fueled|]. intros [recovered'|] w4 Ew; [|done].
    apply recover_measure in Ew; [|done]. apply IH; [done|].
    unfold attempts_left in *. rewrite Hc, Eo, Er in Ew. lia. }
  destruct o as [[g seqs]|e].
  - destruct (gen_finish_reason g); try done.
    + apply (logs_fueled true). logged.
    + by apply Hagain.
  - apply bind_fueled; [apply (logs_fueled true); eauto with logs|]. intros c w3 Ec.
    apply counted_step in Ec; [|eauto with logs]. destruct c.
    + apply (logs_fueled true). logged.
    + by apply Hagain.
Qed.
End retries.

(** ** The fuel of a turn *)

Section fuel.
Context (cfg : LoopConfig) (key : string) (max : N).
Context (Hs : steady (ao_provider (lc_options cfg)) key max).

Lemma request_provider w r w' :
  build_request env cfg w = (Ok r, w') → gr_provider r = ao_provider (lc_options cfg).
Proof using Type.
  unfold build_request. intros (n & w1 & _ & Hr)%bind_inv.
  apply bind_inv in Hr as ([system tools] & w2 & _ & Hr).
  by apply bind_inv in Hr as (? & ? & _ & [= <- _]).
Qed.

Lemma prepared_provider turn step w r w' :
  prepare_request env cfg turn step w = (Ok (Some r), w') →
  gr_provider r = ao_provider (lc_options cfg).
Proof using Type.
  unfold prepare_request. intros (r0 & w1 & Hr & Hk)%bind_inv. apply request_provider in Hr.
  apply bind_inv in Hk as (o & w2 & _ & Hk). destruct o as [[[]|e]|].
  - by apply bind_inv in Hk as (? & ? & _ & [= <- _]).
  - by injection Hk as <- _.
  - by apply bind_inv in Hk as (? & ? & _ & ?).
  - by injection Hk as <- _.
Qed.

Definition enough (fuel : nat) : Prop := (N.to_nat max + 2 ≤ fuel)%nat.

Lemma generate_fueled fuel turn step r w :
  enough fuel → gr_provider r = ao_provider (lc_options cfg) →
  (generate_step env cfg fuel turn step r w).1 ≠ Err OutOfFuel.
Proof using Hs Hq.
  intros Hf Hp. unfold generate_step.
  do 2 (apply bind_fueled; [apply (logs_fueled false); eauto with logs|]; intros ? ? _).
  apply bind_fueled.
  { eapply generations_fueled; [done..|]. unfold attempts_left, enough in *. lia. }
  intros o ? _. apply (logs_fueled false). destruct o as [[g seqs]|]; logged.
Qed.

Lemma step_fueled fuel turn step initial w :
  enough fuel → (run_step env cfg fuel turn step initial w).1 ≠ Err OutOfFuel.
Proof using Hs Hq.
  intros Hf. unfold run_step.
  apply bind_fueled; [apply (logs_fueled false); eauto with logs|]. intros c ? _.
  destruct c; [apply (logs_fueled false), logs_over; logged|].
  do 4 (apply bind_fueled; [apply (logs_fueled false); eauto with logs|]; intros ? ? _).
  apply bind_fueled; [apply (logs_fueled false); logged|]. intros ? ? _.
  apply bind_fueled; [apply (logs_fueled false); eauto with logs|]. intros c ? _.
  destruct c; [apply (logs_fueled false), logs_over; logged|].
  apply bind_fueled; [apply (logs_fueled false); eauto with logs|]. intros ? ? _.
  apply bind_fueled; [apply (logs_fueled false); eauto with logs|]. intros [r|] ? Er; [|done].
  apply prepared_provider in Er. by apply generate_fueled.
Qed.

Lemma steps_fueled fuel remaining turn step initial w :
  enough fuel → (run_steps env cfg fuel remaining turn step initial w).1 ≠ Err OutOfFuel.
Proof using Hs Hq.
  intros Hf. revert step initial w. induction remaining as [|n IH]; intros step initial w; simpl.
  { apply (logs_fueled false). eauto with logs. }
  apply bind_fueled; [by apply step_fueled|]. intros [] ? _; [done|apply IH].
Qed.

Lemma turn_fueled fuel initial w :
  enough fuel → (run_turn env cfg fuel initial w).1 ≠ Err OutOfFuel.
Proof using Hs Hq.
  intros Hf. unfold run_turn.
  apply bind_fueled; [apply (logs_fueled false); eauto with logs|]. intros c ? _. destruct c; [done|].
  do 2 (apply bind_fueled; [apply (logs_fueled false); eauto with logs|]; intros ? ? _).
  by apply steps_fueled.
Qed.
End fuel.
End loop.
