(* ===== verification/AgentDrive.v ===== *)
(** * The worker of an agent (agent_loop.rs): wake-ups, draining, idleness

    One worker sleeps until it is woken, takes the session's execution lock, runs
    turns until nothing is queued, and settles.  Its clients queue a message and
    wake it, and wait until it is idle.  The worker and its clients share [State]
    under a mutex, the flag [running], and the inbox.  Each section that holds the
    mutex, and each access to the flag, is one step; the steps of the worker and of
    its clients interleave freely ([driver_step]).  A turn is one step of the
    worker, with its outcome given; its computation is [AgentTurn].  [None] is a
    step that cannot be taken.  The second half holds the facts about runs. *)

From S2P Require Import Prelude Json Protocol AgentInbox.

#[local] Open Scope N_scope.

(** Where the worker is: the sleeping loop, the wait for the execution lock, the
    claim of the next message, the turn, the look at the revision after an empty or
    failed claim, the settling and the clearing of [running], and the end. *)
Inductive place :=
| Waiting
| Locking
| Draining
| Turning
| Looking
| Failing (e : AgentError)
| Settling (revision : N) (e : option AgentError)
| Idling
| Leaving
| Closing
| Gone.

(** [dr_seen] is the worker's local [seen_wake].  Of the inbox the worker sees the
    messages for the next turn: those whose sender has woken the worker since
    ([dr_announced]) and those sent later ([dr_sent]), oldest first, and which
    message an update holds in reserve.  [dr_wakes] counts the wake-ups; it is not
    part of the program. *)
Record Driver := mkDriver {
  dr_place : place;
  dr_seen : N;
  dr_running : bool;
  dr_cancelled : bool;
  dr_disposed : bool;
  dr_wake_revision : N;
  dr_settled_revision : N;
  dr_last_error : option AgentError;
  dr_announced : list MessageId;
  dr_sent : list MessageId;
  dr_reserved : option MessageId;
  dr_wakes : N;
}.

Definition driver_new : Driver :=
  mkDriver Waiting 0 false false false 0 0 None [] [] None 0.

Definition go (p : place) (d : Driver) : Driver :=
  mkDriver p (dr_seen d) (dr_running d) (dr_cancelled d) (dr_disposed d) (dr_wake_revision d)
    (dr_settled_revision d) (dr_last_error d) (dr_announced d) (dr_sent d) (dr_reserved d) (dr_wakes d).
Definition see (seen : N) (d : Driver) : Driver :=
  mkDriver (dr_place d) seen (dr_running d) (dr_cancelled d) (dr_disposed d) (dr_wake_revision d)
    (dr_settled_revision d) (dr_last_error d) (dr_announced d) (dr_sent d) (dr_reserved d) (dr_wakes d).
Definition set_running (b : bool) (d : Driver) : Driver :=
  mkDriver (dr_place d) (dr_seen d) b (dr_cancelled d) (dr_disposed d) (dr_wake_revision d)
    (dr_settled_revision d) (dr_last_error d) (dr_announced d) (dr_sent d) (dr_reserved d) (dr_wakes d).
Definition set_settled (revision : N) (e : option AgentError) (d : Driver) : Driver :=
  mkDriver (dr_place d) (dr_seen d) (dr_running d) (dr_cancelled d) (dr_disposed d) (dr_wake_revision d)
    revision (match e with Some _ => e | None => dr_last_error d end) (dr_announced d) (dr_sent d)
    (dr_reserved d) (dr_wakes d).
Definition set_queue (announced sent : list MessageId) (reserved : option MessageId) (d : Driver) : Driver :=
  mkDriver (dr_place d) (dr_seen d) (dr_running d) (dr_cancelled d) (dr_disposed d) (dr_wake_revision d)
    (dr_settled_revision d) (dr_last_error d) announced sent reserved (dr_wakes d).

(** [claim_next_turn]: the oldest message, unless an update holds it. *)
Definition claim (d : Driver) : option MessageId :=
  match head (dr_announced d ++ dr_sent d) with
  | Some m => if bool_decide (dr_reserved d = Some m) then None else Some m
  | None => None
  end.
Definition claimed (d : Driver) : Driver :=
  match dr_announced d with
  | _ :: announced => set_queue announced (dr_sent d) (dr_reserved d) d
  | [] => set_queue [] (tail (dr_sent d)) (dr_reserved d) d
  end.

(** What the worker does not decide: which of the two it takes when both the
    execution lock and the cancellation are ready, whether the append of a claim
    fails, and the outcome of the turn. *)
Record chance := mkChance {
  ch_lock : bool;
  ch_claim : option AgentError;
  ch_turn : option AgentError;
}.

(** [drive]. *)
Definition worker_step (c : chance) (d : Driver) : option Driver :=
  match dr_place d with
  | Waiting =>
      if dr_cancelled d then Some (go Leaving d)
      else if dr_wake_revision d =? dr_seen d then None
      else Some (go (if dr_disposed d then Leaving else Locking) (see (dr_wake_revision d) d))
  | Locking =>
      if dr_cancelled d && negb (ch_lock c) then Some (go Leaving d)
      else Some (go Draining (set_running true d))
  | Draining =>
      if dr_cancelled d then Some (go Leaving d)
      else match ch_claim c, claim d with
      | Some e, Some _ => Some (go (Failing e) d)
      | None, Some _ => Some (go Turning (claimed d))
      | _, None => Some (go Looking d)
      end
  | Turning =>
      Some (go Draining
        (match ch_turn c with Some _ => set_settled (dr_settled_revision d) (ch_turn c) d | None => d end))
  | Looking =>
      if dr_wake_revision d =? dr_seen d then Some (go (Settling (dr_wake_revision d) None) d)
      else Some (go Draining (see (dr_wake_revision d) d))
  | Failing e => Some (go (Settling (dr_wake_revision d) (Some e)) d)
  | Settling revision e => Some (go Idling (set_settled revision e d))
  | Idling => Some (go Waiting (set_running false d))
  | Leaving => Some (go Closing (set_running false d))
  | Closing => Some (go Gone (set_settled (dr_wake_revision d) None d))
  | Gone => None
  end.

(** [AgentLoop::wake]. *)
Definition wake (d : Driver) : result AgentError Driver :=
  if dr_disposed d then Err ADisposed
  else if dr_cancelled d then Err ACancelled
  else Ok (mkDriver (dr_place d) (dr_seen d) (dr_running d) (dr_cancelled d) (dr_disposed d)
             ((dr_wake_revision d + 1) mod 2 ^ 64) (dr_settled_revision d) None
             (dr_announced d ++ dr_sent d) [] (dr_reserved d) (dr_wakes d + 1)).

(** One look of [AgentLoop::when_idle]: [None] is to wait on. *)
Definition poll_idle (d : Driver) : option (result AgentError unit) :=
  if negb (dr_running d) && (dr_wake_revision d =? dr_settled_revision d)
  then Some (match dr_last_error d with Some e => Err e | None => Ok tt end)
  else None.

(** [AgentLoop::dispose] up to the wait for the worker: the flag is set, then the
    cancellation is requested. *)
Definition mark_disposed (d : Driver) : Driver :=
  mkDriver (dr_place d) (dr_seen d) (dr_running d) (dr_cancelled d) true (dr_wake_revision d)
    (dr_settled_revision d) (dr_last_error d) (dr_announced d) (dr_sent d) (dr_reserved d) (dr_wakes d).
Definition driver_cancel (d : Driver) : Driver :=
  mkDriver (dr_place d) (dr_seen d) (dr_running d) true (dr_disposed d) (dr_wake_revision d)
    (dr_settled_revision d) (dr_last_error d) (dr_announced d) (dr_sent d) (dr_reserved d) (dr_wakes d).

Inductive driver_op :=
| Work (c : chance)
| Send (m : MessageId)
| Wake
| BeginUpdate (m : MessageId)
| EndUpdate
| CancelDriver
| MarkDisposed.

Definition driver_step (op : driver_op) (d : Driver) : option Driver :=
  match op with
  | Work c => worker_step c d
  | Send m => Some (set_queue (dr_announced d) (dr_sent d ++ [m]) (dr_reserved d) d)
  | Wake => match wake d with Ok d => Some d | Err _ => None end
  | BeginUpdate m =>
      if bool_decide (m ∈ dr_announced d ++ dr_sent d) then
        Some (set_queue (dr_announced d) (dr_sent d) (Some m) d)
      else None
  | EndUpdate => Some (set_queue (dr_announced d) (dr_sent d) None d)
  | CancelDriver => Some (driver_cancel d)
  | MarkDisposed => Some (mark_disposed d)
  end.

Fixpoint driver_run (ops : list driver_op) (d : Driver) : option Driver :=
  match ops with
  | [] => Some d
  | op :: ops => d ← driver_step op d; driver_run ops d
  end.

(** ** The worker of an agent: idleness and progress *)

#[local] Open Scope N_scope.

(** ** What [when_idle] promises *)

(** A run in which no update holds a message and no claim fails to be logged. *)
Definition smooth (op : driver_op) : Prop :=
  match op with
  | Work c => ch_claim c = None
  | BeginUpdate _ => False
  | _ => True
  end.

(** The worker has yet to look at what was announced. *)
Definition will_look (d : Driver) : Prop :=
  match dr_place d with
  | Waiting | Looking => dr_wake_revision d ≠ dr_seen d
  | Locking | Draining | Turning => True
  | Settling revision _ => dr_wake_revision d ≠ revision
  | Idling => dr_wake_revision d ≠ dr_settled_revision d
  | Failing _ | Leaving | Closing | Gone => False
  end.

Definition stopped (d : Driver) : Prop := dr_cancelled d = true ∨ dr_disposed d = true.

Record driver_inv (d : Driver) : Prop := {
  di_wakes : dr_wake_revision d = dr_wakes d;
  di_seen : dr_seen d ≤ dr_wake_revision d;
  di_settled : match dr_place d with Gone => True | _ => dr_settled_revision d ≤ dr_seen d end;
  di_reserved : dr_reserved d = None;
  di_place : match dr_place d with
             | Waiting => dr_settled_revision d = dr_seen d ∧ dr_running d = false
             | Locking => dr_settled_revision d < dr_seen d ∧ dr_running d = false
             | Draining | Turning | Looking => dr_running d = true
             | Settling revision e => revision = dr_seen d ∧ e = None ∧ dr_running d = true
             | Idling => dr_settled_revision d = dr_seen d ∧ dr_running d = true
             | Failing _ => False
             | Leaving | Closing | Gone => stopped d
             end;
  di_look : dr_announced d ≠ [] → stopped d ∨ will_look d;
}.

Lemma driver_new_inv : driver_inv driver_new.
Proof. split; simpl; try done; lia. Qed.

Lemma claim_none d : dr_reserved d = None → claim d = None → dr_announced d = [].
Proof.
  unfold claim. intros Hr. destruct (dr_announced d) as [|m l]; [done|]. simpl.
  rewrite Hr. by case_bool_decide.
Qed.

(** The fields of the invariant of a state given by its fields. *)
Ltac by_fields :=
  split; simpl in *; unfold stopped, will_look in *; simpl in *;
  repeat match goal with H : _ && _ = true |- _ => apply andb_true_iff in H as [? ?] end;
  try done; try lia; try tauto; try (split_and?; (done || lia || tauto)).

Lemma worker_step_inv c d d' :
  ch_claim c = None → driver_inv d → worker_step c d = Some d' → driver_inv d'.
Proof.
  intros Hs [Hw Hse Hst Hr Hp Hl] Hstep. pose proof (claim_none d Hr) as Hn.
  unfold worker_step in Hstep. rewrite Hs in Hstep.
  destruct d as [p seen run can dis rev set err ann sent res wakes]. simpl in *. subst.
  unfold stopped, will_look in *. simpl in *.
  destruct p; try done.
  - destruct can; [injection Hstep as <-; by_fields|].
    destruct (N.eqb_spec wakes seen) as [|Hne]; [done|]. injection Hstep as <-.
    destruct dis; by_fields.
  - destruct (can && _) eqn:Hc; injection Hstep as <-; by_fields.
  - destruct can; [injection Hstep as <-; by_fields|].
    destruct (claim _) as [m|] eqn:Hc; injection Hstep as <-.
    + unfold claimed. simpl. destruct ann as [|a ann]; by_fields.
    + by_fields.
  - injection Hstep as <-. destruct (ch_turn c); by_fields.
  - destruct (N.eqb_spec wakes seen) as [->|Hne]; injection Hstep as <-; by_fields.
  - injection Hstep as <-. destruct Hp as (-> & -> & ->). by_fields.
  - injection Hstep as <-. destruct Hp as [-> ->]. by_fields.
  - injection Hstep as <-. by_fields.
  - injection Hstep as <-. by_fields.
Qed.

Lemma driver_step_inv op d d' :
  smooth op → driver_inv d → driver_step op d = Some d' → dr_wakes d' < 2 ^ 64 → driver_inv d'.
Proof.
  intros Hs Hi Hstep Hb. destruct op as [c|m| |m| | |]; [by eapply worker_step_inv|..]; try done.
  all: destruct Hi as [Hw Hse Hst Hr Hp Hl].
  all: destruct d as [p seen run can dis rev set err ann sent res wakes]; simpl in *; subst.
  all: unfold stopped, will_look in *; simpl in *.
  - injection Hstep as <-. by_fields.
  - unfold wake in Hstep. simpl in Hstep. destruct dis; [done|]. destruct can; [done|].
    injection Hstep as <-. simpl in Hb. split; simpl; try done.
    + apply N.mod_small. lia.
    + rewrite N.mod_small by lia. lia.
    + intros _. right. unfold will_look. simpl. rewrite N.mod_small by lia.
      destruct p; simpl in *; try done; try lia; by destruct Hp.
  - injection Hstep as <-. by_fields.
  - injection Hstep as <-. split; simpl; try done; [destruct p; unfold stopped; simpl; tauto|]. intros _. left. by left.
  - injection Hstep as <-. split; simpl; try done; [destruct p; unfold stopped; simpl; tauto|]. intros _. left. by right.
Qed.

(** The states of smooth runs, with fewer wake-ups than a revision can count. *)
Inductive smooth_reachable : Driver → Prop :=
| smooth_start : smooth_reachable driver_new
| smooth_next d op d' :
    smooth_reachable d → smooth op → driver_step op d = Some d' → dr_wakes d' < 2 ^ 64 →
    smooth_reachable d'.

Lemma smooth_inv d : smooth_reachable d → driver_inv d.
Proof. induction 1; [apply driver_new_inv|by eapply driver_step_inv]. Qed.

Lemma idle_done d : driver_inv d → is_Some (poll_idle d) → stopped d ∨ dr_announced d = [].
Proof.
  intros [Hw Hse Hst Hr Hp Hl] [r Hpoll]. unfold poll_idle in Hpoll.
  destruct (negb _ && _) eqn:Hc; [|done]. apply andb_true_iff in Hc as [Hrun%negb_true_iff Heq%N.eqb_eq].
  destruct (dr_announced d) as [|m l] eqn:Ha; [by right|left].
  destruct Hl as [|Hlook]; [done..|]. unfold will_look in Hlook.
  destruct (dr_place d); try done; try (destruct Hp; congruence); try congruence.
  - destruct Hp; lia.
  - by destruct Hp as (_ & _ & ?); congruence.
Qed.

(** ** The worker, left alone, falls asleep *)

Definition awake (d : Driver) : bool := negb (dr_wake_revision d =? dr_seen d).
Definition queued_messages (d : Driver) : nat := length (dr_announced d ++ dr_sent d).

(** The steps from a claim that finds nothing, with or without a wake-up since. *)
Definition look_steps (w : bool) (q : nat) : nat := if w then 2 * q + 8 else 6.
Definition wait_steps (w : bool) (q : nat) : nat := if w then 2 * q + 9 else 3.

Definition steps_left (d : Driver) : nat :=
  let w := awake d in
  let q := queued_messages d in
  match dr_place d with
  | Waiting => wait_steps w q
  | Locking => 2 * q + look_steps w q + 2
  | Draining => 2 * q + look_steps w q + 1
  | Turning => 2 * q + look_steps w q + 2
  | Looking => look_steps w q
  | Failing _ => wait_steps w q + 3
  | Settling _ _ => wait_steps w q + 2
  | Idling => wait_steps w q + 1
  | Leaving => 2
  | Closing => 1
  | Gone => 0
  end.

Lemma steps_bound d : (steps_left d ≤ 4 * queued_messages d + 12)%nat.
Proof. unfold steps_left, look_steps, wait_steps. destruct (dr_place d), (awake d); lia. Qed.

Lemma worker_decreases c d d' :
  ch_claim c = None → worker_step c d = Some d' → (steps_left d' < steps_left d)%nat.
Proof.
  intros Hs Hstep. unfold worker_step in Hstep. rewrite Hs in Hstep.
  unfold steps_left, awake, queued_messages, look_steps, wait_steps.
  destruct d as [p seen run can dis rev set err ann sent res wakes]. simpl in Hstep.
  destruct p; try done; try (injection Hstep as <-; simpl; try destruct (negb _); lia).
  - destruct can; [injection Hstep as <-; simpl; try destruct (negb _); lia|].
    cbn [dr_place dr_wake_revision dr_seen dr_announced dr_sent].
    destruct (N.eqb_spec rev seen) as [|Hne]; [done|]. injection Hstep as <-.
    destruct dis; simpl; rewrite ?N.eqb_refl; simpl; lia.
  - destruct (_ && _); injection Hstep as <-; simpl; try destruct (negb _); lia.
  - destruct can; [injection Hstep as <-; simpl; try destruct (negb _); lia|].
    destruct (claim _) as [m|] eqn:Hc; injection Hstep as <-; [|simpl; try destruct (negb _); lia].
    unfold claim in Hc. simpl in Hc. unfold claimed. simpl.
    destruct ann as [|a ann]; [destruct sent as [|a sent]; [done|]|]; simpl; try destruct (negb _); lia.
  - injection Hstep as <-. destruct (ch_turn c); simpl; try destruct (negb _); lia.
  - cbn [dr_place dr_wake_revision dr_seen dr_announced dr_sent].
    destruct (N.eqb_spec rev seen) as [->|Hne]; injection Hstep as <-; simpl; rewrite ?N.eqb_refl; simpl; lia.
Qed.

(** The worker sleeps: no step of it can be taken. *)
Definition asleep (d : Driver) : Prop := ∀ c, worker_step c d = None.

Lemma asleep_or c d : worker_step c d = None → asleep d.
Proof.
  unfold asleep, worker_step. intros Hn c'. destruct (dr_place d); try done.
  - destruct (_ && _); done.
  - destruct (dr_cancelled d); [done|]. destruct (ch_claim c), (claim d); done.
Qed.

Lemma falls_asleep cs d :
  Forall (λ c, ch_claim c = None) cs → (steps_left d ≤ length cs)%nat →
  ∃ k d', driver_run (Work <$> take k cs) d = Some d' ∧ asleep d'.
Proof.
  revert d. induction cs as [|c cs IH]; intros d Hcs Hl.
  - exists 0%nat, d. split; [done|]. apply (asleep_or (mkChance true None None)).
    destruct (worker_step _ d) as [d'|] eqn:Hw; [|done].
    apply worker_decreases in Hw; [|done]. simpl in Hl. lia.
  - apply Forall_cons in Hcs as [Hc Hcs]. destruct (worker_step c d) as [d'|] eqn:Hw.
    + pose proof (worker_decreases c d d' Hc Hw) as Hd. simpl in Hl.
      destruct (IH d') as (k & d'' & Hr & Ha); [done|lia|].
      exists (S k), d''. split; [|done]. simpl. by rewrite Hw.
    + exists 0%nat, d. split; [done|by eapply asleep_or].
Qed.

Lemma run_smooth cs d d' :
  Forall (λ c, ch_claim c = None) cs → driver_inv d → driver_run (Work <$> cs) d = Some d' → driver_inv d'.
Proof.
  intros Hcs. revert d. induction Hcs as [|c cs Hc _ IH]; intros d Hi Hr; simpl in Hr; [by injection Hr as <-|].
  destruct (worker_step c d) as [d1|] eqn:Hw; [|done]. eapply IH; [|exact Hr]. by eapply worker_step_inv.
Qed.

Lemma asleep_place d : asleep d →
  dr_place d = Gone ∨ dr_place d = Waiting ∧ dr_wake_revision d = dr_seen d.
Proof.
  intros Ha. specialize (Ha (mkChance true None None)). unfold worker_step in Ha.
  destruct (dr_place d); try done; simpl in Ha; try (by left); repeat case_match; try done.
  right. split; [done|]. by apply N.eqb_eq.
Qed.

Lemma asleep_settled d :
  driver_inv d → asleep d → stopped d ∨ is_Some (poll_idle d) ∧ dr_announced d = [].
Proof.
  intros [Hw Hse Hst Hr Hp Hl] [Hg|[Hg He]]%asleep_place.
  - left. by rewrite Hg in Hp.
  - destruct (dr_announced d) as [|m l] eqn:Ha.
    + right. split; [|done]. rewrite Hg in Hp. destruct Hp as [Hs Hrun]. unfold poll_idle.
      rewrite Hrun, He, Hs, N.eqb_refl. simpl. eauto.
    + left. destruct Hl as [|Hlook]; [done..|]. unfold will_look in Hlook. by rewrite Hg in Hlook.
Qed.

Lemma driver_step_wakes op d d' : driver_step op d = Some d' → dr_wakes d' ≤ dr_wakes d + 1.
Proof.
  destruct op; simpl; intros Hs.
  - unfold worker_step in Hs. repeat (case_match; simplify_eq); simpl; try lia.
    all: unfold claimed; repeat case_match; simpl; lia.
  - injection Hs as <-. simpl. lia.
  - unfold wake in Hs. repeat (case_match; simplify_eq). simpl. lia.
  - repeat (case_match; simplify_eq). simpl. lia.
  - injection Hs as <-. simpl. lia.
  - injection Hs as <-. simpl. lia.
  - injection Hs as <-. simpl. lia.
Qed.
