(* ===== verification/Storage.v ===== *)
(** * Key/value storage domains (storage.rs)

    Documents of named tables behind named back ends.  A [KvDomain] is the
    authoritative view of one document; the registry hands out one domain for each
    back end and name.  Commits, closings, openings and the shutdown await locks and
    the back end, so each is a task whose sections between two awaits are the steps
    of one transition system ([storage_step]).  An [Arc] is the number of the object
    it points to. *)

From S2P Require Import Prelude Json.

#[local] Open Scope N_scope.

Inductive StorageError :=
| UnsafeName (name : string)
| DuplicateBackend (name : string)
| BackendNotFound (name : string)
| VersionConflict (expected actual : N)
| StorageClosed
| StoragePersistence (message : string)
| InvalidValue.

Definition StorageError_code (e : StorageError) : string :=
  match e with
  | UnsafeName _ => "INVALID_STORAGE_NAME"
  | DuplicateBackend _ => "DUPLICATE_STORAGE_BACKEND"
  | BackendNotFound _ => "STORAGE_BACKEND_NOT_FOUND"
  | VersionConflict _ _ => "STORAGE_VERSION_CONFLICT"
  | StorageClosed => "STORAGE_CLOSED"
  | StoragePersistence _ => "STORAGE_PERSISTENCE_FAILED"
  | InvalidValue => "INVALID_STORAGE_VALUE"
  end.

Abbreviation Tables := (gmap string (gmap string Value)).
Record StorageDocument := mkDocument { sd_version : N; sd_tables : Tables }.

(** ** Validation *)

Fixpoint name_rest (separator : bool) (l : list ascii) : bool :=
  match l with
  | [] => negb separator
  | a :: l =>
      if is_ascii_lowercase a || is_ascii_digit a then name_rest false l
      else if Ascii.eqb a "-" && negb separator then name_rest true l
      else false
  end.

Definition ensure_name (name : string) : result StorageError unit :=
  match bytes_of name with
  | [] => Err (UnsafeName name)
  | first :: rest =>
      if negb (is_ascii_lowercase first) then Err (UnsafeName name)
      else if name_rest false rest then Ok tt else Err (UnsafeName name)
  end.

(** [serde_json] numbers are finite, so the guard on numbers never fires. *)
Fixpoint validate_value (v : Value) : result StorageError unit :=
  match v with
  | VArray values => forM validate_value values
  | VObject values => forM (λ kv, match kv with (_, value) => validate_value value end) values
  | VNumber _ =>
      match as_f64 v with
      | Some f => if negb (is_finite (Finite f)) then Err InvalidValue else Ok tt
      | None => Ok tt
      end
  | VNull | VBool _ | VString _ => Ok tt
  end.

Definition validate_unit (uv : string * Value) : result StorageError unit :=
  _ ← ensure_name uv.1; validate_value uv.2.
Definition validate_table (tu : string * gmap string Value) : result StorageError unit :=
  _ ← ensure_name tu.1; forM validate_unit (btree_list tu.2).
Definition validate_document (d : StorageDocument) : result StorageError unit :=
  if sd_version d =? 0 then Err InvalidValue
  else forM validate_table (btree_list (sd_tables d)).

(** [==] on tables: the same keys with equal values. *)
Definition units_eqb (a b : gmap string Value) : bool :=
  list_eqb (λ p q : string * Value, (p.1 =? q.1)%string && value_eqb p.2 q.2)
    (btree_list a) (btree_list b).
Definition tables_eqb (a b : Tables) : bool :=
  list_eqb (λ p q : string * gmap string Value, (p.1 =? q.1)%string && units_eqb p.2 q.2)
    (btree_list a) (btree_list b).

(** ** Back ends *)

Class StorageBackend (B : Type) := {
  b_load : string → B → result StorageError (option StorageDocument);
  b_persist : string → StorageDocument → B → result StorageError unit * B;
  b_shutdown : B → result StorageError unit * B;
}.

(** The documented contract: [persist] atomically replaces the complete document
    of its domain.  When it fails, it has done so or it has done nothing. *)
Class StorageBackendLaws (B : Type) `{StorageBackend B} := {
  stored : B → gmap string StorageDocument;
  load_reads domain b o : b_load domain b = Ok o → o = stored b !! domain;
  persist_replaces domain d b r b' : b_persist domain d b = (r, b') →
    stored b' = <[domain := d]> (stored b) ∨ (∃ e, r = Err e) ∧ stored b' = stored b;
  shutdown_keeps b r b' : b_shutdown b = (r, b') → stored b' = stored b;
}.

Record MemoryStorageBackend := mkMemoryBackend {
  mb_documents : gmap string StorageDocument;
  mb_writable : bool;
}.

Module MemoryBackend.

Definition new : MemoryStorageBackend := mkMemoryBackend ∅ true.
Definition set_writable (writable : bool) (b : MemoryStorageBackend) : MemoryStorageBackend :=
  mkMemoryBackend (mb_documents b) writable.
Definition load (domain : string) (b : MemoryStorageBackend) :
    result StorageError (option StorageDocument) := Ok (mb_documents b !! domain).
Definition persist (domain : string) (d : StorageDocument) (b : MemoryStorageBackend) :
    result StorageError unit * MemoryStorageBackend :=
  if negb (mb_writable b) then (Err (StoragePersistence "memory backend is read-only"), b)
  else (Ok tt, mkMemoryBackend (<[domain := d]> (mb_documents b)) (mb_writable b)).
Definition shutdown (b : MemoryStorageBackend) : result StorageError unit * MemoryStorageBackend :=
  (Ok tt, b).

End MemoryBackend.

#[export] Instance memory_storage_backend : StorageBackend MemoryStorageBackend := {|
  b_load := MemoryBackend.load;
  b_persist := MemoryBackend.persist;
  b_shutdown := MemoryBackend.shutdown;
|}.

#[export] Instance memory_storage_backend_laws : StorageBackendLaws MemoryStorageBackend.
Proof.
  refine {| stored := mb_documents |}.
  - intros domain b o. simpl. unfold MemoryBackend.load. congruence.
  - intros domain d b r b'. simpl. unfold MemoryBackend.persist.
    destruct (mb_writable b); simpl; intros [= <- <-]; [by left|right; split; [eauto|done]].
  - intros b r b'. simpl. unfold MemoryBackend.shutdown. congruence.
Defined.

(** ** Domains *)

Inductive StorageOperation := Put | Remove.
Record StorageEvent := mkStorageEvent {
  se_domain : string;
  se_table : string;
  se_unit : string;
  se_revision : N;
  se_operation : StorageOperation;
}.
Record StorageSnapshot := mkSnapshot {
  ss_version : N;
  ss_revision : N;
  ss_tables : Tables;
}.

(** [kd_gate] is the task that holds the write gate, [kd_updates] what was
    broadcast. *)
Record KvDomain := mkDomain {
  kd_name : string;
  kd_backend : nat;
  kd_document : StorageDocument;
  kd_revision : N;
  kd_gate : option nat;
  kd_updates : list StorageEvent;
  kd_accepting : bool;
}.

Definition KvDomain_new (name : string) (document : StorageDocument) (backend : nat) : KvDomain :=
  mkDomain name backend document 0 None [] true.

Definition kd_version (d : KvDomain) : N := sd_version (kd_document d).
Definition kd_get (table unit : string) (d : KvDomain) : result StorageError (option Value) :=
  _ ← ensure_name table;
  _ ← ensure_name unit;
  Ok (sd_tables (kd_document d) !! table ≫= lookup unit).
Definition kd_snapshot (d : KvDomain) : StorageSnapshot :=
  mkSnapshot (kd_version d) (kd_revision d) (sd_tables (kd_document d)).

Definition put_change (table unit : string) (value : Value) (d : StorageDocument) : StorageDocument :=
  mkDocument (sd_version d)
    (<[table := <[unit := value]> (default ∅ (sd_tables d !! table))]> (sd_tables d)).

Definition remove_change (table unit : string) (d : StorageDocument) : StorageDocument :=
  match sd_tables d !! table with
  | Some units =>
      let units := delete unit units in
      mkDocument (sd_version d)
        (if bool_decide (units = ∅) then delete table (sd_tables d)
         else <[table := units]> (sd_tables d))
  | None => d
  end.

(** What [put] ([Some] value) or [remove] hands to [commit], with its change. *)
Record Commit := mkCommit {
  cm_table : string;
  cm_unit : string;
  cm_operation : StorageOperation;
  cm_value : option Value;
}.
Definition cm_change (c : Commit) (d : StorageDocument) : StorageDocument :=
  match cm_value c with
  | Some value => put_change (cm_table c) (cm_unit c) value d
  | None => remove_change (cm_table c) (cm_unit c) d
  end.

Definition put (table unit : string) (value : Value) : result StorageError Commit :=
  _ ← ensure_name table;
  _ ← ensure_name unit;
  _ ← validate_value value;
  Ok (mkCommit table unit Put (Some value)).
Definition remove (table unit : string) : result StorageError Commit :=
  _ ← ensure_name table;
  _ ← ensure_name unit;
  Ok (mkCommit table unit Remove None).

(** [commit] behind the write gate, up to the write: the new document with its
    revision, or [None] when nothing changes. *)
Definition prepare (c : Commit) (d : KvDomain) : result StorageError (option (StorageDocument * N)) :=
  if negb (kd_accepting d) then Err StorageClosed
  else
    let document := cm_change c (kd_document d) in
    _ ← validate_document document;
    if tables_eqb (sd_tables document) (sd_tables (kd_document d)) then Ok None
    else
      next_revision ← ok_or (u64_checked_add (kd_revision d) 1)
                        (StoragePersistence "revision exhausted");
      Ok (Some (document, next_revision)).

(** [commit] behind the write. *)
Definition publish (c : Commit) (document : StorageDocument) (revision : N) (d : KvDomain) : KvDomain :=
  mkDomain (kd_name d) (kd_backend d) document revision (kd_gate d)
    (kd_updates d ++ [mkStorageEvent (kd_name d) (cm_table c) (cm_unit c) revision (cm_operation c)])
    (kd_accepting d).

Definition set_gate (holder : option nat) (d : KvDomain) : KvDomain :=
  mkDomain (kd_name d) (kd_backend d) (kd_document d) (kd_revision d) holder (kd_updates d)
    (kd_accepting d).
Definition refuse (d : KvDomain) : KvDomain :=
  mkDomain (kd_name d) (kd_backend d) (kd_document d) (kd_revision d) (kd_gate d) (kd_updates d) false.

(** ** The registry and its tasks *)

(** Where a task is: an opening before the open gate and at the back end's [load];
    a commit before the write gate, before its write and behind it; a closing that
    waits for the write gate; the shutdown before it lists the domains, with the
    domains left to close, waiting for the first of them, and with the back ends
    left to shut down. *)
Inductive StorageTask :=
| Opening (backend_name domain : string) (version : N)
| Loading (backend_name domain : string) (version : N) (backend : nat)
| Committing (id : nat) (c : Commit)
| Persisting (id : nat) (c : Commit) (document : StorageDocument) (revision : N)
| Publishing (id : nat) (c : Commit) (document : StorageDocument) (revision : N)
| Closing (id : nat)
| Listing
| ClosingAll (todo : list nat)
| WaitingAll (id : nat) (todo : list nat)
| Stopping (backends : list nat)
| Done (r : result StorageError (option nat)).

Definition named_le (p q : string * string * nat) : Prop :=
  match String.compare p.1.1 q.1.1 with
  | Lt => True
  | Eq => String.leb p.1.2 q.1.2 = true
  | Gt => False
  end.
#[export] Instance named_le_dec p q : Decision (named_le p q).
Proof. unfold named_le. destruct (String.compare _ _); apply _. Defined.

Record StorageRegistry (B : Type) := mkRegistry {
  sr_backends : gmap string nat;
  sr_domains : gmap (string * string) nat;
  sr_open_gate : option nat;
  sr_closed : bool;
  sr_heap : gmap nat KvDomain;
  sr_stores : gmap nat B;
  sr_tasks : gmap nat StorageTask;
}.
Arguments mkRegistry {B}.
Arguments sr_backends {B}.
Arguments sr_domains {B}.
Arguments sr_open_gate {B}.
Arguments sr_closed {B}.
Arguments sr_heap {B}.
Arguments sr_stores {B}.
Arguments sr_tasks {B}.

Module Registry.

Section registry.
Context {B : Type} `{StorageBackend B}.
Implicit Type r : StorageRegistry B.

Definition new : StorageRegistry B := mkRegistry ∅ ∅ None false ∅ ∅ ∅.

Definition at_task (t : nat) (task : StorageTask) r : StorageRegistry B :=
  mkRegistry (sr_backends r) (sr_domains r) (sr_open_gate r) (sr_closed r) (sr_heap r) (sr_stores r)
    (<[t := task]> (sr_tasks r)).
Definition open_gate (holder : option nat) r : StorageRegistry B :=
  mkRegistry (sr_backends r) (sr_domains r) holder (sr_closed r) (sr_heap r) (sr_stores r) (sr_tasks r).
Definition at_domain (id : nat) (f : KvDomain → KvDomain) r : StorageRegistry B :=
  mkRegistry (sr_backends r) (sr_domains r) (sr_open_gate r) (sr_closed r) (alter f id (sr_heap r))
    (sr_stores r) (sr_tasks r).
Definition at_store (backend : nat) (b : B) r : StorageRegistry B :=
  mkRegistry (sr_backends r) (sr_domains r) (sr_open_gate r) (sr_closed r) (sr_heap r)
    (<[backend := b]> (sr_stores r)) (sr_tasks r).
Definition close_registry r : StorageRegistry B :=
  mkRegistry (sr_backends r) (sr_domains r) (sr_open_gate r) true (sr_heap r) (sr_stores r) (sr_tasks r).
Definition returns (t : nat) (res : result StorageError (option nat)) : StorageRegistry B → StorageRegistry B :=
  at_task t (Done res).

Definition register_backend (name : string) (backend : nat) r :
    result StorageError unit * StorageRegistry B :=
  match ensure_name name with
  | Err e => (Err e, r)
  | Ok _ =>
      if sr_closed r then (Err StorageClosed, r)
      else match sr_backends r !! name with
      | Some _ => (Err (DuplicateBackend name), r)
      | None =>
          (Ok tt, mkRegistry (<[name := backend]> (sr_backends r)) (sr_domains r) (sr_open_gate r)
                    (sr_closed r) (sr_heap r) (sr_stores r) (sr_tasks r))
      end
  end.

(** [open] up to the open gate. *)
Definition open (backend_name domain : string) (version : N) r : result StorageError StorageTask :=
  _ ← ensure_name backend_name;
  _ ← ensure_name domain;
  if version =? 0 then Err (VersionConflict 1 0)
  else if sr_closed r then Err StorageClosed
  else Ok (Opening backend_name domain version).

Definition named_domain (backend_name domain : string) r : option (nat * KvDomain) :=
  id ← sr_domains r !! (backend_name, domain); d ← sr_heap r !! id; Some (id, d).

(** [open] behind the open gate: a domain that is there, or the back end to load
    from. *)
Definition find_domain (backend_name domain : string) (version : N) r :
    result StorageError (nat + nat) :=
  if sr_closed r then Err StorageClosed
  else match named_domain backend_name domain r with
  | Some (id, d) =>
      if negb (kd_version d =? version) then Err (VersionConflict version (kd_version d))
      else Ok (inl id)
  | None => inr <$> ok_or (sr_backends r !! backend_name) (BackendNotFound backend_name)
  end.

(** [open] behind the back end's [load]. *)
Definition loaded (domain : string) (version : N) (backend : nat) (b : B) : result StorageError KvDomain :=
  document ← b_load domain b;
  let document := default (mkDocument version ∅) document in
  _ ← validate_document document;
  if negb (sd_version document =? version)
  then Err (VersionConflict version (sd_version document))
  else Ok (KvDomain_new domain document backend).

Definition insert_domain (backend_name domain : string) (d : KvDomain) r : nat * StorageRegistry B :=
  let id := fresh (dom (sr_heap r)) in
  (id, mkRegistry (sr_backends r) (<[(backend_name, domain) := id]> (sr_domains r)) (sr_open_gate r)
         (sr_closed r) (<[id := d]> (sr_heap r)) (sr_stores r) (sr_tasks r)).

(** [commit] up to the write gate. *)
Definition commit (id : nat) (d : KvDomain) (c : Commit) : result StorageError StorageTask :=
  if negb (kd_accepting d) then Err StorageClosed else Ok (Committing id c).

(** [domains.values()] and the distinct back ends in the order of their addresses. *)
Definition domain_values r : list nat := (merge_sort named_le (map_to_list (sr_domains r))).*2.
Definition unique_backends r : list nat :=
  merge_sort le (elements (list_to_set (btree_values (sr_backends r)) : gset nat)).

Definition gate_of (id : nat) r : option nat := sr_heap r !! id ≫= kd_gate.

(** One section of task [t]; [None]: it waits for a lock, or is done. *)
Definition advance (t : nat) r : option (StorageRegistry B) :=
  match sr_tasks r !! t with
  | Some (Opening backend_name domain version) =>
      if sr_open_gate r is Some _ then None
      else match find_domain backend_name domain version r with
      | Err e => Some (returns t (Err e) r)
      | Ok (inl id) => Some (returns t (Ok (Some id)) r)
      | Ok (inr backend) =>
          Some (open_gate (Some t) (at_task t (Loading backend_name domain version backend) r))
      end
  | Some (Loading backend_name domain version backend) =>
      b ← sr_stores r !! backend;
      match loaded domain version backend b with
      | Err e => Some (open_gate None (returns t (Err e) r))
      | Ok d =>
          let '(id, r) := insert_domain backend_name domain d r in
          Some (open_gate None (returns t (Ok (Some id)) r))
      end
  | Some (Committing id c) =>
      d ← sr_heap r !! id;
      if kd_gate d is Some _ then None
      else match prepare c d with
      | Err e => Some (returns t (Err e) r)
      | Ok None => Some (returns t (Ok None) r)
      | Ok (Some (document, revision)) =>
          Some (at_task t (Persisting id c document revision) (at_domain id (set_gate (Some t)) r))
      end
  | Some (Persisting id c document revision) =>
      d ← sr_heap r !! id;
      b ← sr_stores r !! kd_backend d;
      let '(result, b) := b_persist (kd_name d) document b in
      let r := at_store (kd_backend d) b r in
      match result with
      | Err e => Some (returns t (Err e) (at_domain id (set_gate None) r))
      | Ok _ => Some (at_task t (Publishing id c document revision) r)
      end
  | Some (Publishing id c document revision) =>
      Some (returns t (Ok None)
              (at_domain id (λ d, set_gate None (publish c document revision d)) r))
  | Some (Closing id) => if gate_of id r is Some _ then None else Some (returns t (Ok None) r)
  | Some Listing => Some (at_task t (ClosingAll (domain_values r)) r)
  | Some (ClosingAll (id :: todo)) => Some (at_task t (WaitingAll id todo) (at_domain id refuse r))
  | Some (ClosingAll []) => Some (at_task t (Stopping (unique_backends r)) r)
  | Some (WaitingAll id todo) =>
      if gate_of id r is Some _ then None else Some (at_task t (ClosingAll todo) r)
  | Some (Stopping (backend :: backends)) =>
      b ← sr_stores r !! backend;
      let '(result, b) := b_shutdown b in
      let r := at_store backend b r in
      match result with
      | Err e => Some (returns t (Err e) r)
      | Ok _ => Some (at_task t (Stopping backends) r)
      end
  | Some (Stopping []) => Some (returns t (Ok None) r)
  | Some (Done _) | None => None
  end.

(** ** Clients *)

Inductive Call :=
| CallOpen (backend_name domain : string) (version : N)
| CallPut (id : nat) (table unit : string) (value : Value)
| CallRemove (id : nat) (table unit : string)
| CallClose (id : nat)
| CallShutdown.

Definition enter (t : nat) (res : result StorageError StorageTask) r : StorageRegistry B :=
  match res with Ok task => at_task t task r | Err e => returns t (Err e) r end.

(** A call up to its first await; [None]: there is no such domain. *)
Definition begin (t : nat) (c : Call) r : option (StorageRegistry B) :=
  match c with
  | CallOpen backend_name domain version => Some (enter t (open backend_name domain version r) r)
  | CallPut id table unit value =>
      d ← sr_heap r !! id; Some (enter t (put table unit value ≫= commit id d) r)
  | CallRemove id table unit =>
      d ← sr_heap r !! id; Some (enter t (remove table unit ≫= commit id d) r)
  | CallClose id => _ ← sr_heap r !! id; Some (at_task t (Closing id) (at_domain id refuse r))
  | CallShutdown => Some (at_task t Listing (close_registry r))
  end.

End registry.
End Registry.

(** What can happen: a call, a section of a task, the registration of a back end,
    a new back end, and whatever happens inside one that keeps its documents. *)
Inductive storage_step {B} `{StorageBackendLaws B} : relation (StorageRegistry B) :=
| step_begin r t c r' :
    sr_tasks r !! t = None → Registry.begin t c r = Some r' → storage_step r r'
| step_advance r t r' :
    Registry.advance t r = Some r' → storage_step r r'
| step_register r name backend res r' :
    is_Some (sr_stores r !! backend) → Registry.register_backend name backend r = (res, r') →
    storage_step r r'
| step_backend r backend b :
    sr_stores r !! backend = None → storage_step r (Registry.at_store backend b r)
| step_outside r backend b b' :
    sr_stores r !! backend = Some b → stored b' = stored b →
    storage_step r (Registry.at_store backend b' r).
