(* ===== verification/StorageFacts.v ===== *)
(** * Lemmas on storage: names, tables, and the invariant of the registry *)

From S2P Require Import Prelude Json Storage.

#[local] Open Scope N_scope.

(** ** Names: words of lower-case letters and digits joined by hyphens, the first
    of which starts with a letter *)

Definition name_char (a : ascii) : Prop := is_ascii_lowercase a || is_ascii_digit a = true.
Definition word (w : list ascii) : Prop := w ≠ [] ∧ Forall name_char w.
Fixpoint join_dash (words : list (list ascii)) : list ascii :=
  match words with
  | [] => []
  | [w] => w
  | w :: words => w ++ "-"%char :: join_dash words
  end.

Lemma join_dash_cons a w words : join_dash ((a :: w) :: words) = a :: join_dash (w :: words).
Proof. by destruct words. Qed.

#[global] Arguments join_dash : simpl never.

Lemma join_dash_nil words : join_dash ([] :: words) = [] ∧ words = [] ∨
  ∃ w words', words = w :: words' ∧ join_dash ([] :: words) = "-"%char :: join_dash (w :: words').
Proof. destruct words as [|w words]; [by left|right; eauto]. Qed.

Lemma name_rest_spec l :
  (name_rest false l = true ↔
     ∃ w words, Forall name_char w ∧ Forall word words ∧ l = join_dash (w :: words)) ∧
  (name_rest true l = true ↔
     ∃ w words, word w ∧ Forall word words ∧ l = join_dash (w :: words)).
Proof.
  induction l as [|a l [IHf IHt]]; simpl; split.
  - split; [|done]. intros _. by exists [], [].
  - split; [done|]. intros ([|a w] & words & [? _] & _ & Hl); [done|]. by destruct words.
  - destruct (is_ascii_lowercase a || is_ascii_digit a) eqn:Ha.
    + rewrite IHf. split.
      * intros (w & words & Hw & Hws & ->). exists (a :: w), words.
        rewrite join_dash_cons. split_and!; [by constructor|done..].
      * intros ([|b w] & words & Hw & Hws & Hl).
        -- destruct (join_dash_nil words) as [[Hj _]|(? & ? & _ & Hj)]; rewrite Hj in Hl; [done|].
           injection Hl as -> ->. done.
        -- rewrite join_dash_cons in Hl. injection Hl as <- ->. inversion Hw; subst. eauto.
    + destruct (Ascii.eqb_spec a "-"%char) as [->|Hne]; simpl.
      * rewrite IHt. split.
        -- intros (w & words & Hw & Hws & ->). exists [], (w :: words).
           split_and!; [constructor|by constructor|done].
        -- intros ([|b w] & words & Hw & Hws & Hl).
           ++ destruct (join_dash_nil words) as [[Hj _]|(w & words' & -> & Hj)]; rewrite Hj in Hl; [done|].
              injection Hl as ->. inversion Hws; subst. eauto.
           ++ rewrite join_dash_cons in Hl. injection Hl as <- _. inversion Hw; subst. done.
      * split; [done|]. intros ([|b w] & words & Hw & Hws & Hl).
        -- destruct (join_dash_nil words) as [[Hj _]|(? & ? & _ & Hj)]; rewrite Hj in Hl; [done|].
           by injection Hl as -> ->.
        -- rewrite join_dash_cons in Hl. injection Hl as <- _. inversion Hw as [|? ? Hc]; subst.
           unfold name_char in Hc. congruence.
  - destruct (is_ascii_lowercase a || is_ascii_digit a) eqn:Ha.
    + rewrite IHf. split.
      * intros (w & words & Hw & Hws & ->). exists (a :: w), words.
        rewrite join_dash_cons. split_and!; [split; [done|by constructor]|done..].
      * intros ([|b w] & words & [Hn Hw] & Hws & Hl); [done|].
        rewrite join_dash_cons in Hl. injection Hl as <- ->. inversion Hw; subst. eauto.
    + rewrite andb_false_r. split; [done|]. intros ([|b w] & words & [Hn Hw] & Hws & Hl); [done|].
      rewrite join_dash_cons in Hl. injection Hl as <- _. inversion Hw as [|? ? Hc]; subst.
      unfold name_char in Hc. congruence.
Qed.

Lemma ensure_name_spec name :
  ensure_name name = Ok tt ↔
  ∃ a w words, is_ascii_lowercase a = true ∧ Forall name_char w ∧ Forall word words ∧
    bytes_of name = join_dash ((a :: w) :: words).
Proof.
  unfold ensure_name. destruct (bytes_of name) as [|a l].
  { split; [done|]. intros (a & w & words & _ & _ & _ & Hj). by rewrite join_dash_cons in Hj. }
  destruct (name_rest_spec l) as [Hs _].
  split.
  - destruct (is_ascii_lowercase a) eqn:Ha; simpl; [|done].
    destruct (name_rest false l); [|done]. intros _.
    destruct (proj1 Hs eq_refl) as (w & words & Hw & Hws & ->).
    exists a, w, words. by rewrite join_dash_cons.
  - intros (b & w & words & Hb & Hw & Hws & Hj). rewrite join_dash_cons in Hj.
    injection Hj as -> ->. rewrite Hb. simpl. by rewrite (proj2 Hs); [|eauto].
Qed.

Lemma validate_value_ok v : validate_value v = Ok tt.
Proof.
  induction v as [| |[]| |l IH|m IH] using value_nested_ind; simpl; try done.
  - apply forM_Ok. done.
  - apply forM_Ok. eapply Forall_impl; [done|]. by intros [k w].
Qed.

(** ** Tables *)

Definition tables_get (table unit : string) (ts : Tables) : option Value := ts !! table ≫= lookup unit.

Section keyed.
Context {V : Type} (f : V → V → bool).

Lemma keyed_eqb_lookup (m m' : gmap string V) :
  list_eqb (λ p q : string * V, (p.1 =? q.1)%string && f p.2 q.2) (btree_list m) (btree_list m') = true →
  ∀ k, match m !! k, m' !! k with
       | Some v, Some v' => f v v' = true
       | None, None => True
       | _, _ => False
       end.
Proof.
  assert (∀ l l' : list (string * V),
    list_eqb (λ p q : string * V, (p.1 =? q.1)%string && f p.2 q.2) l l' = true →
    (∀ k v, (k, v) ∈ l → ∃ v', (k, v') ∈ l' ∧ f v v' = true) ∧
    (∀ k v', (k, v') ∈ l' → ∃ v, (k, v) ∈ l)) as Hgen.
  { induction l as [|[k v] l IH]; intros [|[k' v'] l']; simpl; try done.
    - intros _. split; intros ? ? Hin; by apply not_elem_of_nil in Hin.
    - rewrite !andb_true_iff, String.eqb_eq. intros [[-> Hf] [H1 H2]%IH]. split.
      + intros k v1 [[= -> ->]|Hin]%elem_of_cons.
        * exists v'. split; [left|done].
        * destruct (H1 _ _ Hin) as (v2 & ? & ?). exists v2. split; [by right|done].
      + intros k v1 [[= -> ->]|Hin]%elem_of_cons.
        * exists v. left.
        * destruct (H2 _ _ Hin) as (v2 & ?). exists v2. by right. }
  intros [H1 H2]%Hgen k.
  destruct (m !! k) as [v|] eqn:Hk.
  - destruct (H1 k v) as (v' & Hin & Hf); [by apply elem_of_btree_list|].
    apply elem_of_btree_list in Hin. by rewrite Hin.
  - destruct (m' !! k) as [v'|] eqn:Hk'; [|done].
    destruct (H2 k v') as (v & Hin); [by apply elem_of_btree_list|].
    apply elem_of_btree_list in Hin. congruence.
Qed.
End keyed.

(** Equal tables have equal values, up to [==] on numbers, or none. *)
Lemma tables_eqb_get ts ts' table unit :
  tables_eqb ts ts' = true → option_Forall2 (≡) (tables_get table unit ts) (tables_get table unit ts').
Proof.
  intros Ht. pose proof (keyed_eqb_lookup units_eqb ts ts' Ht table) as Hk. unfold tables_get.
  destruct (ts !! table) as [u|], (ts' !! table) as [u'|]; simpl; try done.
  pose proof (keyed_eqb_lookup value_eqb u u' Hk unit) as Hv.
  destruct (u !! unit), (u' !! unit); try done; by constructor.
Qed.

Lemma put_get table unit v d table' unit' :
  tables_get table' unit' (sd_tables (put_change table unit v d)) =
  if decide (table' = table ∧ unit' = unit) then Some v else tables_get table' unit' (sd_tables d).
Proof.
  unfold tables_get, put_change. simpl.
  destruct (decide (table' = table)) as [->|Ht].
  - rewrite lookup_insert_eq. simpl. case_decide as Hd.
    + destruct Hd as [_ ->]. by rewrite lookup_insert_eq.
    + rewrite lookup_insert_ne by naive_solver. by destruct (sd_tables d !! table).
  - rewrite lookup_insert_ne by done. rewrite decide_False; naive_solver.
Qed.

Lemma remove_get table unit d table' unit' :
  tables_get table' unit' (sd_tables (remove_change table unit d)) =
  if decide (table' = table ∧ unit' = unit) then None else tables_get table' unit' (sd_tables d).
Proof.
  unfold tables_get, remove_change.
  destruct (sd_tables d !! table) as [units|] eqn:Hu; simpl.
  - destruct (decide (table' = table)) as [->|Ht].
    + rewrite Hu. simpl. assert (delete unit units !! unit' =
        if decide (table = table ∧ unit' = unit) then None else units !! unit') as Hdel.
      { case_decide as Hd; [destruct Hd as [_ ->]; apply lookup_delete_eq|].
        apply lookup_delete_ne. naive_solver. }
      rewrite <- Hdel. case_bool_decide as He.
      * rewrite lookup_delete_eq, He. by rewrite lookup_empty.
      * by rewrite lookup_insert_eq.
    + rewrite decide_False by naive_solver.
      case_bool_decide; [by rewrite lookup_delete_ne|by rewrite lookup_insert_ne].
  - case_decide as Hd; [|done]. destruct Hd as [-> ->]. by rewrite Hu.
Qed.

(** ** The invariant of the registry *)

Section invariant.
Context {B : Type} `{StorageBackendLaws B}.
Implicit Type r : StorageRegistry B.

(** A document that task [t], which holds the gate of domain [id], is about to make
    the next one of the domain. *)
Definition pending r (t id : nat) (c : Commit) (document : StorageDocument) (revision : N) : Prop :=
  ∃ d, sr_heap r !! id = Some d ∧ kd_gate d = Some t ∧ document = cm_change c (kd_document d) ∧
    u64_checked_add (kd_revision d) 1 = Some revision ∧ validate_document document = Ok tt.

(** No other domain stands over the same document of the same back end. *)
Definition sole r (id : nat) : Prop :=
  ∀ d id' d', sr_heap r !! id = Some d → sr_heap r !! id' = Some d' →
    kd_backend d' = kd_backend d → kd_name d' = kd_name d → id' = id.

Definition stored_of r (d : KvDomain) : option StorageDocument :=
  b ← sr_stores r !! kd_backend d; stored b !! kd_name d.

Definition task_ok r (t : nat) (task : StorageTask) : Prop :=
  match task with
  | Loading backend_name domain _ backend =>
      sr_open_gate r = Some t ∧ sr_domains r !! (backend_name, domain) = None ∧
      sr_backends r !! backend_name = Some backend
  | Persisting id c document revision => pending r t id c document revision
  | Publishing id c document revision =>
      pending r t id c document revision ∧
      (sole r id → ∀ d, sr_heap r !! id = Some d → stored_of r d = Some document)
  | _ => True
  end.

(** The broadcast events carry the revisions 1, 2, ..., up to the current one. *)
Definition counted (d : KvDomain) : Prop :=
  kd_revision d = N.of_nat (length (kd_updates d)) ∧
  ∀ i e, kd_updates d !! i = Some e → se_revision e = N.of_nat i + 1 ∧ se_domain e = kd_name d.

Record registry_ok r : Prop := {
  ok_tasks t task : sr_tasks r !! t = Some task → task_ok r t task;
  ok_gate id d t : sr_heap r !! id = Some d → kd_gate d = Some t →
    ∃ c document revision, sr_tasks r !! t = Some (Persisting id c document revision) ∨
                           sr_tasks r !! t = Some (Publishing id c document revision);
  ok_open t : sr_open_gate r = Some t →
    ∃ backend_name domain version backend,
      sr_tasks r !! t = Some (Loading backend_name domain version backend);
  ok_named k id : sr_domains r !! k = Some id →
    ∃ d, sr_heap r !! id = Some d ∧ kd_name d = k.2 ∧ sr_backends r !! k.1 = Some (kd_backend d);
  ok_distinct k k' id : sr_domains r !! k = Some id → sr_domains r !! k' = Some id → k = k';
  ok_listed id d : sr_heap r !! id = Some d → ∃ k, sr_domains r !! k = Some id;
  ok_stores name backend : sr_backends r !! name = Some backend → is_Some (sr_stores r !! backend);
  ok_counted id d : sr_heap r !! id = Some d → counted d;
  ok_valid id d : sr_heap r !! id = Some d → validate_document (kd_document d) = Ok tt;
}.

Definition idle (task : StorageTask) : bool :=
  match task with Loading _ _ _ _ | Persisting _ _ _ _ | Publishing _ _ _ _ => false | _ => true end.
Definition free r (t : nat) : Prop := ∀ task, sr_tasks r !! t = Some task → idle task = true.

Lemma idle_ok r t task : idle task = true → task_ok r t task.
Proof. by destruct task. Qed.

(** A task that holds nothing takes a section that touches nothing. *)
Lemma ok_at_task r t task : registry_ok r → free r t → idle task = true →
  registry_ok (Registry.at_task t task r).
Proof.
  intros Hr Hf Hi. destruct Hr. constructor; simpl; try assumption.
  - intros t' task' [[<- <-]|[_ Hl]]%lookup_insert_Some; [by apply idle_ok|]. by apply ok_tasks0 in Hl.
  - intros id d t' Hd Hg. destruct (ok_gate0 _ _ _ Hd Hg) as (c & doc & rev & Ht).
    exists c, doc, rev. assert (t ≠ t') as Hne by (intros <-; destruct Ht as [Ht|Ht]; by apply Hf in Ht).
    by rewrite lookup_insert_ne.
  - intros t' Hg. destruct (ok_open0 _ Hg) as (bn & dn & v & b & Ht). exists bn, dn, v, b.
    assert (t ≠ t') as Hne by (intros <-; by apply Hf in Ht). by rewrite lookup_insert_ne.
Qed.

Lemma ok_close_registry r : registry_ok r → registry_ok (Registry.close_registry r).
Proof. intros []. by constructor. Qed.

(** Whether a domain accepts commits does not matter to the invariant. *)
Definition alike r r' : Prop := ∀ id, refuse <$> sr_heap r !! id = refuse <$> sr_heap r' !! id.

Lemma alike_lookup r r' id d' : alike r r' → sr_heap r' !! id = Some d' →
  ∃ d, sr_heap r !! id = Some d ∧ refuse d = refuse d'.
Proof.
  intros Ha Hd. specialize (Ha id). rewrite Hd in Ha. destruct (sr_heap r !! id) as [d|]; [|done].
  exists d. split; [done|]. change (Some (refuse d) = Some (refuse d')) in Ha. congruence.
Qed.

Lemma alike_refuse r id : alike r (Registry.at_domain id refuse r).
Proof.
  intros id'. simpl. destruct (decide (id = id')) as [->|]; [|by rewrite lookup_alter_ne].
  rewrite lookup_alter_eq. by destruct (sr_heap r !! id').
Qed.

Lemma alike_sym r r' : alike r r' → alike r' r.
Proof. intros Ha id. by rewrite Ha. Qed.

Lemma alike_pending r r' t id c doc rev : alike r r' → pending r t id c doc rev → pending r' t id c doc rev.
Proof.
  intros Ha (d & Hd & Hg & -> & Hr & Hv).
  destruct (alike_lookup r' r id d (alike_sym _ _ Ha) Hd) as (d' & Hd' & Hs). exists d'.
  injection Hs as Hn Hb Hdoc Hrev Hgate _. rewrite Hdoc, Hrev, Hgate. done.
Qed.

Lemma alike_sole r r' id : alike r r' → sole r' id → sole r id.
Proof.
  intros Ha Hs d id' d' Hd Hd' Hb Hn.
  destruct (alike_lookup r' r _ _ (alike_sym _ _ Ha) Hd) as (d1 & Hd1 & Hs1).
  destruct (alike_lookup r' r _ _ (alike_sym _ _ Ha) Hd') as (d2 & Hd2 & Hs2).
  injection Hs1 as ? ? _ _ _ _. injection Hs2 as ? ? _ _ _ _.
  apply (Hs d1 id' d2 Hd1 Hd2); congruence.
Qed.

Lemma ok_refuse r id : registry_ok r → registry_ok (Registry.at_domain id refuse r).
Proof.
  intros Hr. pose proof (alike_refuse r id) as Ha.
  set (r' := Registry.at_domain id refuse r) in *. destruct Hr. constructor; try assumption.
  - intros t [] Ht; pose proof (ok_tasks0 _ _ Ht) as Hk; simpl in *; try done; eauto using alike_pending.
    destruct Hk as [Hk Hst]. split; [eauto using alike_pending|].
    intros Hs d' Hd'. destruct (alike_lookup _ _ _ _ Ha Hd') as (d & Hd & Hsame).
    specialize (Hst (alike_sole _ _ _ Ha Hs) d Hd). injection Hsame as Hn Hb _ _ _ _.
    unfold stored_of in *. by rewrite <- Hn, <- Hb.
  - intros id' d' t Hd' Hg. destruct (alike_lookup _ _ _ _ Ha Hd') as (d & Hd & Hs).
    injection Hs as _ _ _ _ Hgate _. apply (ok_gate0 id' d t); congruence.
  - intros k id' Hk. destruct (ok_named0 k id' Hk) as (d & Hd & Hn & Hb).
    destruct (alike_lookup _ _ _ _ (alike_sym _ _ Ha) Hd) as (d' & Hd' & Hs).
    injection Hs as Hn' Hb' _ _ _ _. exists d'. split_and!; [done|congruence|]. by rewrite Hb'.
  - intros id' d' Hd'. destruct (alike_lookup _ _ _ _ Ha Hd') as (d & Hd & _). eauto.
  - intros id' d' Hd'. destruct (alike_lookup _ _ _ _ Ha Hd') as (d & Hd & Hs).
    pose proof (ok_counted0 _ _ Hd) as Hc. injection Hs as Hn _ _ Hrev _ Hup.
    unfold counted in *. by rewrite <- Hn, <- Hrev, <- Hup.
  - intros id' d' Hd'. destruct (alike_lookup _ _ _ _ Ha Hd') as (d & Hd & Hs).
    pose proof (ok_valid0 _ _ Hd). injection Hs as _ _ Hdoc _ _ _. by rewrite <- Hdoc.
Qed.

(** A back end appears, or changes without its documents. *)
Lemma ok_store r backend b' : registry_ok r →
  (∀ b, sr_stores r !! backend = Some b → stored b' = stored b) →
  registry_ok (Registry.at_store backend b' r).
Proof.
  intros Hr Hb. destruct Hr. constructor; simpl; try assumption.
  - intros t [] Ht; pose proof (ok_tasks0 _ _ Ht) as Hk; simpl in *; try done.
    destruct Hk as [Hk Hst]. split; [done|]. intros Hs d Hd. specialize (Hst Hs d Hd).
    unfold stored_of in *. simpl. destruct (decide (backend = kd_backend d)) as [->|].
    + rewrite lookup_insert_eq. destruct (sr_stores r !! kd_backend d) as [b|]; [|done].
      simpl in *. by rewrite (Hb b).
    + by rewrite lookup_insert_ne.
  - intros name backend' Hn. destruct (decide (backend = backend')) as [->|].
    + by rewrite lookup_insert_eq.
    + rewrite lookup_insert_ne by done. eauto.
Qed.

Lemma ok_register r name backend res r' : registry_ok r → is_Some (sr_stores r !! backend) →
  Registry.register_backend name backend r = (res, r') → registry_ok r'.
Proof.
  intros Hr Hs. unfold Registry.register_backend.
  destruct (ensure_name name); [|by intros [= <- <-]].
  destruct (sr_closed r); [by intros [= <- <-]|].
  destruct (sr_backends r !! name) eqn:Hn; [by intros [= <- <-]|]. intros [= <- <-].
  destruct Hr. constructor; simpl; try assumption.
  - intros t [] Ht; pose proof (ok_tasks0 _ _ Ht) as Hk; simpl in *; try done.
    rewrite lookup_insert_ne; [done|]. intros ->. destruct Hk as (_ & _ & Hk). congruence.
  - intros k id Hk. destruct (ok_named0 k id Hk) as (d & Hd & Hkn & Hb). exists d.
    rewrite lookup_insert_ne; [done|]. congruence.
  - intros name' b [[<- <-]|[_ Hl]]%lookup_insert_Some; eauto.
Qed.

(** What holds the gate of a domain. *)
Definition works (id : nat) (task : StorageTask) : Prop :=
  match task with Persisting id' _ _ _ | Publishing id' _ _ _ => id' = id | _ => False end.
Definition loading (task : StorageTask) : Prop :=
  match task with Loading _ _ _ _ => True | _ => False end.

Lemma ok_works r t task id d : registry_ok r → sr_tasks r !! t = Some task → works id task →
  sr_heap r !! id = Some d → kd_gate d = Some t.
Proof.
  intros Hr Ht Hw Hd. pose proof (ok_tasks _ Hr _ _ Ht) as Hk.
  destruct task; simpl in *; try done; subst;
    [destruct Hk as (d' & Hd' & Hg & _)|destruct Hk as [(d' & Hd' & Hg & _) _]]; congruence.
Qed.

Lemma ok_holder r t id d : registry_ok r → sr_heap r !! id = Some d → kd_gate d = Some t →
  ∃ task, sr_tasks r !! t = Some task ∧ works id task.
Proof. intros Hr Hd Hg. destruct (ok_gate _ Hr _ _ _ Hd Hg) as (c & doc & rev & [Ht|Ht]); by eexists. Qed.

(** Task [t] takes the domain [id], or has it and keeps it or gives it back. *)
Lemma ok_swap r r' t id d d' task0 task :
  registry_ok r → sr_tasks r !! t = Some task0 → sr_heap r !! id = Some d →
  (kd_gate d = None ∧ idle task0 = true ∨ kd_gate d = Some t) → ¬ loading task →
  kd_name d' = kd_name d → kd_backend d' = kd_backend d → counted d' →
  validate_document (kd_document d') = Ok tt →
  (kd_gate d' = None ∧ idle task = true ∨ kd_gate d' = Some t ∧ works id task) →
  sr_backends r' = sr_backends r → sr_domains r' = sr_domains r → sr_open_gate r' = sr_open_gate r →
  sr_tasks r' = <[t := task]> (sr_tasks r) → sr_heap r' = <[id := d']> (sr_heap r) →
  (∀ backend b, sr_stores r !! backend = Some b → ∃ b', sr_stores r' !! backend = Some b' ∧
     ∀ name, ¬ (backend = kd_backend d ∧ name = kd_name d) → stored b' !! name = stored b !! name) →
  task_ok r' t task → registry_ok r'.
Proof.
  intros Hr Ht Hd Hold Hload Hn Hb Hcount Hvalid Hnew Hbe Hdo Hop Hta Hhe Hst Hok.
  assert (∀ t' task', sr_tasks r !! t' = Some task' → works id task' → t' = t) as Hmine.
  { intros t' task' Ht' Hw. pose proof (ok_works _ _ _ _ _ Hr Ht' Hw Hd). destruct Hold as [[]|]; congruence. }
  assert (¬ loading task0) as Hl0.
  { destruct Hold as [[_ Hi]|Hg]; [intros ?; by destruct task0|].
    destruct (ok_holder _ _ _ _ Hr Hd Hg) as (task' & Ht' & Hw). intros Hl.
    assert (task' = task0) as -> by congruence. by destruct task0. }
  destruct Hr. constructor; rewrite ?Hbe, ?Hdo, ?Hop, ?Hta, ?Hhe.
  - intros t' task' [[<- <-]|[Hne Ht']]%lookup_insert_Some; [done|].
    pose proof (ok_tasks0 _ _ Ht') as Hk.
    assert (∀ id' c doc rev, works id' task' → pending r t' id' c doc rev → pending r' t' id' c doc rev) as Hpend.
    { intros id' c doc rev Hw (d1 & Hd1 & Hrest). exists d1. split; [|done]. rewrite Hhe.
      rewrite lookup_insert_ne; [done|]. intros <-. by apply Hne; symmetry; apply (Hmine _ _ Ht'). }
    destruct task'; simpl in *; rewrite ?Hbe, ?Hdo, ?Hop; try done; eauto.
    destruct Hk as [Hk Hs']. split; [eauto|]. intros Hsole d1. rewrite Hhe.
    assert (id0 ≠ id) as Hid by (intros ->; by apply Hne; symmetry; apply (Hmine _ _ Ht')).
    rewrite lookup_insert_ne by done. intros Hd1.
    assert (sole r id0) as Hsole'.
    { intros d2 id2 d3 Hd2 Hd3 Hb2 Hn2. destruct (decide (id2 = id)) as [->|Hi2].
      - apply (Hsole d2 id d'); rewrite ?Hhe, ?lookup_insert_eq, ?lookup_insert_ne by done; try done;
          congruence.
      - apply (Hsole d2 id2 d3); rewrite ?Hhe, ?lookup_insert_ne by done; done. }
    specialize (Hs' Hsole' d1 Hd1). unfold stored_of in *.
    destruct (sr_stores r !! kd_backend d1) as [b|] eqn:Hsb; [|done].
    destruct (Hst _ _ Hsb) as (b' & -> & Hsame). simpl in *. rewrite Hsame; [done|].
    intros [? ?]. apply Hid. symmetry. by apply (Hsole' d1 id d).
  - intros id' d1 t' [[<- <-]|[Hne Hd1]]%lookup_insert_Some Hg.
    + destruct Hnew as [[]|[Hg' Hw]]; [congruence|]. assert (t' = t) as -> by congruence.
      rewrite lookup_insert_eq. destruct task; simpl in Hw; try done; subst; eauto.
    + destruct (ok_gate0 _ _ _ Hd1 Hg) as (c & doc & rev & Hc). exists c, doc, rev.
      rewrite lookup_insert_ne; [done|]. intros <-.
      destruct Hold as [[_ Hi]|Hg'].
      * destruct Hc as [Hc|Hc]; rewrite Ht in Hc; by injection Hc as ->.
      * destruct (ok_gate0 _ _ _ Hd Hg') as (? & ? & ? & Hc'). destruct Hc, Hc'; congruence.
  - intros t' Ho. destruct (ok_open0 _ Ho) as (bn & dn & v & be & Hl). exists bn, dn, v, be.
    rewrite lookup_insert_ne; [done|]. intros <-. apply Hl0. rewrite Ht in Hl. by injection Hl as ->.
  - intros k id' Hk. destruct (ok_named0 k id' Hk) as (d1 & Hd1 & Hn1 & Hb1).
    destruct (decide (id' = id)) as [->|].
    + exists d'. rewrite lookup_insert_eq. split_and!; congruence.
    + exists d1. by rewrite lookup_insert_ne.
  - done.
  - intros id' d1 [[<- <-]|[_ Hd1]]%lookup_insert_Some; eauto.
  - intros name backend Hname. destruct (ok_stores0 _ _ Hname) as [b Hbs].
    destruct (Hst _ _ Hbs) as (b' & Hb' & _). eauto.
  - intros id' d1 [[<- <-]|[_ Hd1]]%lookup_insert_Some; eauto.
  - intros id' d1 [[<- <-]|[_ Hd1]]%lookup_insert_Some; eauto.
Qed.

Lemma named_domain_None r bn dn : registry_ok r →
  Registry.named_domain bn dn r = None → sr_domains r !! (bn, dn) = None.
Proof.
  intros Hr Hn. unfold Registry.named_domain in Hn.
  destruct (sr_domains r !! (bn, dn)) as [id|] eqn:Hk; [|done].
  destruct (ok_named _ Hr _ _ Hk) as (d & Hd & _). simpl in Hn. by rewrite Hd in Hn.
Qed.

Lemma find_domain_new r bn dn v backend : registry_ok r →
  Registry.find_domain bn dn v r = Ok (inr backend) →
  sr_closed r = false ∧ sr_domains r !! (bn, dn) = None ∧ sr_backends r !! bn = Some backend.
Proof.
  intros Hr. unfold Registry.find_domain. destruct (sr_closed r); [done|].
  destruct (Registry.named_domain bn dn r) as [[id d]|] eqn:Hn; [by destruct (negb _)|].
  destruct (sr_backends r !! bn); simpl; [|done]. intros [= ->].
  split_and!; [done|by apply named_domain_None|done].
Qed.

(** An opening takes the open gate, and gives it back. *)
Lemma ok_load r t bn dn v backend : registry_ok r → free r t → sr_open_gate r = None →
  sr_domains r !! (bn, dn) = None → sr_backends r !! bn = Some backend →
  registry_ok (Registry.open_gate (Some t) (Registry.at_task t (Loading bn dn v backend) r)).
Proof.
  intros Hr Hf Hg Hn Hb. destruct Hr. constructor; simpl; try assumption.
  - intros t' task [[<- <-]|[_ Ht]]%lookup_insert_Some; [done|].
    apply ok_tasks0 in Ht. destruct task; simpl in *; try done. destruct Ht as [Ht _]. congruence.
  - intros id d t' Hd Hg'. destruct (ok_gate0 _ _ _ Hd Hg') as (c & doc & rev & Hc).
    exists c, doc, rev. rewrite lookup_insert_ne; [done|]. intros <-.
    by destruct Hc as [Hc|Hc]; apply Hf in Hc.
  - intros t' [= <-]. exists bn, dn, v, backend. by rewrite lookup_insert_eq.
Qed.

Lemma ok_unload r t bn dn v backend res : registry_ok r →
  sr_tasks r !! t = Some (Loading bn dn v backend) →
  registry_ok (Registry.open_gate None (Registry.returns t res r)).
Proof.
  intros Hr Ht. pose proof (ok_tasks _ Hr _ _ Ht) as (Hg & _). destruct Hr. constructor; simpl; try assumption.
  - intros t' task [[<- <-]|[Hne Ht']]%lookup_insert_Some; [done|].
    apply ok_tasks0 in Ht'. destruct task; simpl in *; try done. destruct Ht' as [Ht' _]. congruence.
  - intros id d t' Hd Hg'. destruct (ok_gate0 _ _ _ Hd Hg') as (c & doc & rev & Hc).
    exists c, doc, rev. rewrite lookup_insert_ne; [done|]. intros <-. destruct Hc; congruence.
  - done.
Qed.

Lemma heap_fresh r : sr_heap r !! fresh (dom (sr_heap r)) = None.
Proof. apply not_elem_of_dom, is_fresh. Qed.

Lemma ok_loaded r t bn dn v backend d res : registry_ok r →
  sr_tasks r !! t = Some (Loading bn dn v backend) →
  kd_name d = dn → kd_backend d = backend → kd_gate d = None → counted d →
  validate_document (kd_document d) = Ok tt →
  registry_ok (Registry.open_gate None (Registry.returns t res (Registry.insert_domain bn dn d r).2)).
Proof.
  intros Hr Ht Hn Hb Hg Hc Hv. pose proof (ok_tasks _ Hr _ _ Ht) as (Hog & Hnone & Hbe).
  pose proof (heap_fresh r) as Hf. unfold Registry.insert_domain.
  set (id := fresh (dom (sr_heap r))) in *. set (r' := Registry.open_gate _ _).
  destruct Hr. constructor; simpl; try assumption.
  - intros t' task [[<- <-]|[Hne Ht']]%lookup_insert_Some; [done|]. pose proof (ok_tasks0 _ _ Ht') as Hk.
    assert (∀ id' c doc rev, pending r t' id' c doc rev → pending r' t' id' c doc rev) as Hp.
    { intros id' c doc rev (d1 & Hd1 & Hrest). exists d1. split; [|done]. simpl.
      rewrite lookup_insert_ne; [done|]. congruence. }
    destruct task as [| |? ?|? ? ? ?|id0 ? ? ?| | | | | |]; simpl in Hk |- *; try done; eauto.
    + destruct Hk as (? & ? & ?). congruence.
    + destruct Hk as [Hk Hst]. split; [eauto|]. intros Hs d1 Hd1. apply Hst.
      * intros d2 id2 d3 Hd2 Hd3. apply Hs; simpl; rewrite lookup_insert_ne; congruence.
      * rewrite lookup_insert_ne in Hd1; [done|]. destruct Hk as (d2 & Hd2 & _). congruence.
  - intros id' d1 t' [[<- <-]|[_ Hd1]]%lookup_insert_Some Hg'; [congruence|].
    destruct (ok_gate0 _ _ _ Hd1 Hg') as (c & doc & rev & Hw). exists c, doc, rev.
    rewrite lookup_insert_ne; [done|]. intros <-. destruct Hw; congruence.
  - done.
  - intros k id' [[<- <-]|[_ Hk]]%lookup_insert_Some.
    + exists d. rewrite lookup_insert_eq. split_and!; [done|done|by rewrite Hb].
    + destruct (ok_named0 _ _ Hk) as (d1 & Hd1 & Hrest). exists d1.
      rewrite lookup_insert_ne; [done|]. congruence.
  - assert (∀ k, sr_domains r !! k ≠ Some id) as Hnew.
    { intros k Hk. destruct (ok_named0 _ _ Hk) as (d1 & Hd1 & _). congruence. }
    intros k k' id' [[<- <-]|[_ Hk]]%lookup_insert_Some [[<- Hi]|[_ Hk']]%lookup_insert_Some; try done.
    + by apply Hnew in Hk'.
    + subst id'. by apply Hnew in Hk.
    + eauto.
  - intros id' d1 [[<- <-]|[_ Hd1]]%lookup_insert_Some.
    + exists (bn, dn). by rewrite lookup_insert_eq.
    + destruct (ok_listed0 _ _ Hd1) as [k Hk]. exists k. rewrite lookup_insert_ne; [done|]. congruence.
  - intros id' d1 [[<- <-]|[_ Hd1]]%lookup_insert_Some; eauto.
  - intros id' d1 [[<- <-]|[_ Hd1]]%lookup_insert_Some; eauto.
Qed.

(** A written document is the stored one; a failed write may have happened. *)
Lemma persist_others domain doc (b b' : B) res name : b_persist domain doc b = (res, b') →
  name ≠ domain → stored b' !! name = stored b !! name.
Proof.
  intros [->|[_ ->]]%persist_replaces Hne; [|done]. by rewrite lookup_insert_ne.
Qed.

Lemma prepare_spec c d doc rev : prepare c d = Ok (Some (doc, rev)) →
  kd_accepting d = true ∧ doc = cm_change c (kd_document d) ∧ validate_document doc = Ok tt ∧
  tables_eqb (sd_tables doc) (sd_tables (kd_document d)) = false ∧
  u64_checked_add (kd_revision d) 1 = Some rev.
Proof.
  unfold prepare. destruct (kd_accepting d); simpl; [|done].
  destruct (validate_document _) as [[]|] eqn:Hv; simpl; [|done].
  destruct (tables_eqb _ _) eqn:Ht; [done|].
  destruct (u64_checked_add _ _); simpl; [|done]. by intros [= <- <-].
Qed.

Lemma alter_lookup {V} (f : V → V) (m : gmap nat V) id d :
  m !! id = Some d → alter f id m = <[id := f d]> m.
Proof.
  intros Hd. apply map_eq. intros id'. destruct (decide (id = id')) as [->|].
  - by rewrite lookup_alter_eq, Hd, lookup_insert_eq.
  - by rewrite lookup_alter_ne, lookup_insert_ne.
Qed.

Lemma counted_publish c doc rev d : counted d → u64_checked_add (kd_revision d) 1 = Some rev →
  counted (set_gate None (publish c doc rev d)).
Proof.
  intros [Hc He] [Hrev _]%u64_checked_add_Some. split; simpl.
  - rewrite length_app. simpl. lia.
  - intros i e [Hi|[Hi Hx]]%lookup_app_Some; [by apply He|].
    apply list_lookup_singleton_Some in Hx as [Hx <-]. simpl. split; [lia|done].
Qed.

Lemma ok_enter_commit r t id c d doc rev : registry_ok r → sr_tasks r !! t = Some (Committing id c) →
  sr_heap r !! id = Some d → kd_gate d = None → prepare c d = Ok (Some (doc, rev)) →
  registry_ok (Registry.at_task t (Persisting id c doc rev) (Registry.at_domain id (set_gate (Some t)) r)).
Proof.
  intros Hr Ht Hd Hg (_ & Hdoc & Hv & _ & Hrev)%prepare_spec.
  eapply (ok_swap r _ t id d (set_gate (Some t) d)); try done; simpl; eauto.
  - apply (ok_counted _ Hr _ _ Hd).
  - apply (ok_valid _ Hr _ _ Hd).
  - by apply alter_lookup.
  - exists (set_gate (Some t) d). simpl. by rewrite (alter_lookup _ _ _ _ Hd), lookup_insert_eq.
Qed.

Lemma ok_written r t id c doc rev d b b' : registry_ok r →
  sr_tasks r !! t = Some (Persisting id c doc rev) → sr_heap r !! id = Some d →
  sr_stores r !! kd_backend d = Some b → b_persist (kd_name d) doc b = (Ok tt, b') →
  registry_ok (Registry.at_task t (Publishing id c doc rev) (Registry.at_store (kd_backend d) b' r)).
Proof.
  intros Hr Ht Hd Hb Hp. pose proof (ok_tasks _ Hr _ _ Ht) as (d1 & Hd1 & Hg & Hrest).
  assert (d1 = d) as -> by congruence.
  eapply (ok_swap r _ t id d d); try done; simpl; eauto.
  - apply (ok_counted _ Hr _ _ Hd).
  - apply (ok_valid _ Hr _ _ Hd).
  - by rewrite insert_id.
  - intros backend b1 Hb1. destruct (decide (backend = kd_backend d)) as [->|].
    + exists b'. rewrite lookup_insert_eq. split; [done|]. intros name Hn.
      assert (b1 = b) as -> by congruence. eapply persist_others; [done|]. naive_solver.
    + exists b1. by rewrite lookup_insert_ne.
  - split; [by exists d|]. intros _ d2 Hd2. assert (d2 = d) as -> by congruence.
    unfold stored_of. simpl. rewrite lookup_insert_eq. simpl.
    destruct (persist_replaces _ _ _ _ _ Hp) as [->|[[e He] _]]; [|done]. by rewrite lookup_insert_eq.
Qed.

Lemma ok_unwritten r t id c doc rev d b b' e : registry_ok r →
  sr_tasks r !! t = Some (Persisting id c doc rev) → sr_heap r !! id = Some d →
  sr_stores r !! kd_backend d = Some b → b_persist (kd_name d) doc b = (Err e, b') →
  registry_ok (Registry.returns t (Err e)
    (Registry.at_domain id (set_gate None) (Registry.at_store (kd_backend d) b' r))).
Proof.
  intros Hr Ht Hd Hb Hp. pose proof (ok_tasks _ Hr _ _ Ht) as (d1 & Hd1 & Hg & Hrest).
  assert (d1 = d) as -> by congruence.
  eapply (ok_swap r _ t id d (set_gate None d)); try done; simpl; eauto.
  - apply (ok_counted _ Hr _ _ Hd).
  - apply (ok_valid _ Hr _ _ Hd).
  - by apply alter_lookup.
  - intros backend b1 Hb1. destruct (decide (backend = kd_backend d)) as [->|].
    + exists b'. rewrite lookup_insert_eq. split; [done|]. intros name Hn.
      assert (b1 = b) as -> by congruence. eapply persist_others; [done|]. naive_solver.
    + exists b1. by rewrite lookup_insert_ne.
Qed.

Lemma ok_published r t id c doc rev : registry_ok r →
  sr_tasks r !! t = Some (Publishing id c doc rev) →
  registry_ok (Registry.returns t (Ok None)
    (Registry.at_domain id (λ d, set_gate None (publish c doc rev d)) r)).
Proof.
  intros Hr Ht. pose proof (ok_tasks _ Hr _ _ Ht) as [(d & Hd & Hg & Hdoc & Hrev & Hv) _].
  eapply (ok_swap r _ t id d (set_gate None (publish c doc rev d))); try done; simpl; eauto.
  - apply counted_publish; [apply (ok_counted _ Hr _ _ Hd)|done].
  - by rewrite (alter_lookup _ _ _ _ Hd).
Qed.

Lemma loaded_spec dn v backend (b : B) d : Registry.loaded dn v backend b = Ok d →
  kd_name d = dn ∧ kd_backend d = backend ∧ kd_gate d = None ∧ counted d ∧
  validate_document (kd_document d) = Ok tt ∧ kd_revision d = 0 ∧ kd_accepting d = true ∧
  kd_document d = default (mkDocument v ∅) (stored b !! dn).
Proof.
  unfold Registry.loaded. destruct (b_load dn b) as [o|] eqn:Hl; [|done]. simpl.
  apply load_reads in Hl as ->. destruct (validate_document _) as [[]|] eqn:Hv; simpl; [|done].
  destruct (negb _); [done|]. intros [= <-]. split_and!; try done.
Qed.

Lemma ok_advance r t r' : registry_ok r → Registry.advance t r = Some r' → registry_ok r'.
Proof.
  intros Hr. unfold Registry.advance. destruct (sr_tasks r !! t) as [task|] eqn:Ht; [|done].
  assert (idle task = true → free r t) as Hf by (intros Hi task' Ht'; congruence).
  destruct task as [bn dn v|bn dn v be|id c|id c doc rev|id c doc rev|id| |[|id todo]|id todo|[|be bes]|res];
    simpl in Hf; try specialize (Hf eq_refl).
  - destruct (sr_open_gate r) eqn:Hg; [done|].
    destruct (Registry.find_domain _ _ _ _) as [[id|be]|e] eqn:Hfd; intros [= <-];
      try (by apply ok_at_task).
    apply find_domain_new in Hfd as (_ & ? & ?); [|done]. by apply ok_load.
  - destruct (sr_stores r !! be) as [b|]; simpl; [|done].
    destruct (Registry.loaded dn v be b) as [d|e] eqn:Hl; intros [= <-].
    + apply loaded_spec in Hl as (? & ? & ? & ? & ? & _). by eapply (ok_loaded r t bn dn v be d).
    + by eapply ok_unload.
  - destruct (sr_heap r !! id) as [d|] eqn:Hd; simpl; [|done]. destruct (kd_gate d) eqn:Hg; [done|].
    destruct (prepare c d) as [[[doc rev]|]|e] eqn:Hp; intros [= <-]; try (by apply ok_at_task).
    by eapply ok_enter_commit.
  - destruct (sr_heap r !! id) as [d|] eqn:Hd; simpl; [|done].
    destruct (sr_stores r !! kd_backend d) as [b|] eqn:Hb; simpl; [|done].
    destruct (b_persist _ _ _) as [[[]|e] b'] eqn:Hp; intros [= <-]; [by eapply ok_written|by eapply ok_unwritten].
  - intros [= <-]. by apply ok_published.
  - destruct (Registry.gate_of id r); [done|]. intros [= <-]. by apply ok_at_task.
  - intros [= <-]. by apply ok_at_task.
  - intros [= <-]. by apply ok_at_task.
  - intros [= <-]. apply ok_at_task; [by apply ok_refuse|done|done].
  - destruct (Registry.gate_of id r); [done|]. intros [= <-]. by apply ok_at_task.
  - intros [= <-]. by apply ok_at_task.
  - destruct (sr_stores r !! be) as [b|] eqn:Hb; simpl; [|done].
    destruct (b_shutdown b) as [res b'] eqn:Hs.
    assert (registry_ok (Registry.at_store be b' r)) as Hr'.
    { apply ok_store; [done|]. intros b1 Hb1. assert (b1 = b) as -> by congruence.
      by eapply shutdown_keeps. }
    destruct res; intros [= <-]; by apply ok_at_task.
  - done.
Qed.

Lemma ok_begin r t c r' : registry_ok r → sr_tasks r !! t = None →
  Registry.begin t c r = Some r' → registry_ok r'.
Proof.
  intros Hr Ht. assert (free r t) as Hf by (intros task ?; congruence).
  assert (∀ res, (∀ task, res = Ok task → idle task = true) → registry_ok (Registry.enter t res r)) as He.
  { intros [task|e] Hi; simpl; apply ok_at_task; auto. }
  destruct c as [bn dn v|id table unit v|id table unit|id|]; simpl.
  - intros [= <-]. apply He. intros task. unfold Registry.open.
    destruct (ensure_name bn) as [[]|]; [|done]. destruct (ensure_name dn) as [[]|]; [|done]. simpl.
    destruct (v =? 0); [done|]. destruct (sr_closed r); [done|]. by intros [= <-].
  - destruct (sr_heap r !! id) as [d|]; simpl; [|done]. intros [= <-]. apply He. intros task.
    destruct (put _ _ _); simpl; [|done]. unfold Registry.commit. destruct (negb _); [done|]. by intros [= <-].
  - destruct (sr_heap r !! id) as [d|]; simpl; [|done]. intros [= <-]. apply He. intros task.
    destruct (remove _ _); simpl; [|done]. unfold Registry.commit. destruct (negb _); [done|]. by intros [= <-].
  - destruct (sr_heap r !! id) as [d|]; simpl; [|done]. intros [= <-].
    apply ok_at_task; [by apply ok_refuse|done|done].
  - intros [= <-]. apply ok_at_task; [by apply ok_close_registry|done|done].
Qed.

Lemma ok_step r r' : registry_ok r → storage_step r r' → registry_ok r'.
Proof.
  intros Hr Hstep. revert Hr.
  destruct Hstep as [? ? ? ?|?|? ? ? ? ?|? ? ? Hn|? ? b ? Hb Hs]; eauto using ok_begin, ok_advance, ok_register.
  - intros Hr. apply ok_store; [done|]. intros; congruence.
  - intros Hr. apply ok_store; [done|]. intros; congruence.
Qed.

Lemma ok_new : registry_ok Registry.new.
Proof. constructor; simpl; intros *; try rewrite lookup_empty; try done. Qed.

Definition reachable r : Prop := rtc storage_step Registry.new r.

Lemma st_reachable_ok r : reachable r → registry_ok r.
Proof.
  intros Hr. unfold reachable in Hr. remember Registry.new as r0 eqn:Heq.
  assert (registry_ok r0) as Hnew by (subst; apply ok_new). clear Heq.
  induction Hr; eauto using ok_step.
Qed.
End invariant.
