(* ===== verification/StorageRunFacts.v ===== *)
(** * Lemmas on the steps of the storage registry: what a step changes, and what a
    shutdown leaves *)

From S2P Require Import Prelude Json Storage StorageFacts.

#[local] Open Scope N_scope.

Section steps.
Context {B : Type} `{StorageBackendLaws B}.
Implicit Type r : StorageRegistry B.

(** ** One step on one domain *)

(** What readers see of a domain. *)
Definition unseen (d d' : KvDomain) : Prop :=
  kd_document d' = kd_document d ∧ kd_revision d' = kd_revision d ∧ kd_updates d' = kd_updates d.

(** Task [t] makes the domain's next document. *)
Definition published r r' (id : nat) (d d' : KvDomain) : Prop :=
  ∃ t c, sr_tasks r !! t = Some (Publishing id c (kd_document d') (kd_revision d')) ∧
    sr_tasks r' !! t = Some (Done (Ok None)) ∧
    kd_document d' = cm_change c (kd_document d) ∧ kd_revision d' = kd_revision d + 1 ∧
    kd_updates d' = kd_updates d ++
      [mkStorageEvent (kd_name d) (cm_table c) (cm_unit c) (kd_revision d') (cm_operation c)] ∧
    (sole r id → stored_of r' d' = Some (kd_document d')).

Definition domain_step r r' : Prop :=
  ∀ id d, sr_heap r !! id = Some d → ∃ d', sr_heap r' !! id = Some d' ∧
    kd_name d' = kd_name d ∧ kd_backend d' = kd_backend d ∧
    (unseen d d' ∨ published r r' id d d').

Lemma domain_step_heap r r' : sr_heap r' = sr_heap r → domain_step r r'.
Proof. intros Hh id d Hd. exists d. rewrite Hh. split_and!; try done. by left. Qed.

Lemma domain_step_at r r' id0 f : sr_heap r' = alter f id0 (sr_heap r) →
  (∀ d, unseen d (f d) ∧ kd_name (f d) = kd_name d ∧ kd_backend (f d) = kd_backend d) → domain_step r r'.
Proof.
  intros Hh Hf id d Hd. rewrite Hh. destruct (decide (id0 = id)) as [->|].
  - rewrite lookup_alter_eq, Hd. destruct (Hf d) as (? & ? & ?). exists (f d). split_and!; eauto.
  - rewrite lookup_alter_ne by done. exists d. split_and!; try done. by left.
Qed.

Lemma advance_domains r t r' : registry_ok r → Registry.advance t r = Some r' → domain_step r r'.
Proof.
  intros Hr. unfold Registry.advance. destruct (sr_tasks r !! t) as [task|] eqn:Ht; [|done].
  destruct task as [bn dn v|bn dn v be|id c|id c doc rev|id c doc rev|id| |[|id todo]|id todo|[|be bes]|res].
  - destruct (sr_open_gate r); [done|].
    by destruct (Registry.find_domain _ _ _ _) as [[id|be]|e]; intros [= <-]; apply domain_step_heap.
  - destruct (sr_stores r !! be) as [b|]; simpl; [|done].
    destruct (Registry.loaded dn v be b) as [d|e]; intros [= <-]; [|by apply domain_step_heap].
    intros id d1 Hd1. exists d1. simpl. rewrite lookup_insert_ne.
    { split_and!; try done. by left. }
    intros <-. by rewrite heap_fresh in Hd1.
  - destruct (sr_heap r !! id) as [d|]; simpl; [|done]. destruct (kd_gate d); [done|].
    by destruct (prepare c d) as [[[doc rev]|]|e]; intros [= <-];
      [apply (domain_step_at _ _ id (set_gate (Some t)))|apply domain_step_heap..].
  - destruct (sr_heap r !! id) as [d|]; simpl; [|done].
    destruct (sr_stores r !! kd_backend d) as [b|]; simpl; [|done].
    by destruct (b_persist _ _ _) as [[[]|e] b']; intros [= <-];
      [apply domain_step_heap|apply (domain_step_at _ _ id (set_gate None))].
  - intros [= <-]. pose proof (ok_tasks _ Hr _ _ Ht) as [(d & Hd & Hg & Hdoc & Hrev & Hv) Hst].
    apply u64_checked_add_Some in Hrev as [Hrev _].
    intros id' d1 Hd1. simpl. destruct (decide (id' = id)) as [->|].
    + assert (d1 = d) as -> by congruence. rewrite lookup_alter_eq, Hd.
      exists (set_gate None (publish c doc rev d)). simpl. split_and!; try done. right.
      exists t, c. simpl. rewrite lookup_insert_eq. subst rev. split_and!; try done.
      intros Hs. specialize (Hst Hs d Hd). unfold stored_of in *. simpl. exact Hst.
    + rewrite lookup_alter_ne by done. exists d1. split_and!; try done. by left.
  - destruct (Registry.gate_of id r); [done|]. intros [= <-]. by apply domain_step_heap.
  - intros [= <-]. by apply domain_step_heap.
  - intros [= <-]. by apply domain_step_heap.
  - intros [= <-]. by apply (domain_step_at _ _ id refuse).
  - destruct (Registry.gate_of id r); [done|]. intros [= <-]. by apply domain_step_heap.
  - intros [= <-]. by apply domain_step_heap.
  - destruct (sr_stores r !! be) as [b|]; simpl; [|done].
    by destruct (b_shutdown b) as [[|] b']; intros [= <-]; apply domain_step_heap.
  - done.
Qed.

Lemma enter_heap t res r : sr_heap (Registry.enter t res r) = sr_heap r.
Proof. by destruct res. Qed.

Lemma begin_domains r t c r' : Registry.begin t c r = Some r' → domain_step r r'.
Proof.
  destruct c as [bn dn v|id table unit v|id table unit|id|]; simpl;
    try (destruct (sr_heap r !! id); simpl; [|done]); intros [= <-];
    try (by apply (domain_step_at _ _ id refuse)); apply domain_step_heap; rewrite ?enter_heap; done.
Qed.

Lemma step_domains r r' : registry_ok r → storage_step r r' → domain_step r r'.
Proof.
  intros Hr Hstep. destruct Hstep as [? ? ? ? ? Hb|? ? ? Ha|r name be res r' _ Hn| |].
  - by eapply begin_domains.
  - by eapply advance_domains.
  - apply domain_step_heap. unfold Registry.register_backend in Hn.
    destruct (ensure_name name); [|by injection Hn as <- <-].
    destruct (sr_closed r); [by injection Hn as <- <-|].
    destruct (sr_backends r !! name); by injection Hn as <- <-.
  - by apply domain_step_heap.
  - by apply domain_step_heap.
Qed.

(** ** One step on the stored documents *)

(** A stored document changes only to the next document of a domain that stands over
    it, written by the task that holds the domain's gate. *)
Definition written r be name (o : option StorageDocument) : Prop :=
  ∃ t id c doc rev d, sr_tasks r !! t = Some (Persisting id c doc rev) ∧
    sr_heap r !! id = Some d ∧ kd_gate d = Some t ∧ kd_backend d = be ∧ kd_name d = name ∧
    doc = cm_change c (kd_document d) ∧ validate_document doc = Ok tt ∧ o = Some doc.

Definition store_step r r' : Prop :=
  ∀ be b, sr_stores r !! be = Some b → ∃ b', sr_stores r' !! be = Some b' ∧
    ∀ name, stored b' !! name = stored b !! name ∨ written r be name (stored b' !! name).

Lemma store_step_same r r' : sr_stores r' = sr_stores r → store_step r r'.
Proof. intros Hs be b Hb. rewrite Hs. eauto. Qed.

Lemma store_step_at r r' be0 b0 b1 : sr_stores r !! be0 = Some b0 →
  sr_stores r' = <[be0 := b1]> (sr_stores r) →
  (∀ name, stored b1 !! name = stored b0 !! name ∨ written r be0 name (stored b1 !! name)) →
  store_step r r'.
Proof.
  intros Hb0 Hs Hn be b Hb. rewrite Hs. destruct (decide (be0 = be)) as [->|].
  - rewrite lookup_insert_eq. assert (b = b0) as -> by congruence. eauto.
  - rewrite lookup_insert_ne by done. eauto.
Qed.

Lemma advance_stores r t r' : registry_ok r → Registry.advance t r = Some r' → store_step r r'.
Proof.
  intros Hr. unfold Registry.advance. destruct (sr_tasks r !! t) as [task|] eqn:Ht; [|done].
  destruct task as [bn dn v|bn dn v be|id c|id c doc rev|id c doc rev|id| |[|id todo]|id todo|[|be bes]|res];
    try (intros [= <-]; by apply store_step_same); try done.
  - destruct (sr_open_gate r); [done|].
    by destruct (Registry.find_domain _ _ _ _) as [[id|be]|e]; intros [= <-]; apply store_step_same.
  - destruct (sr_stores r !! be) as [b|]; simpl; [|done].
    by destruct (Registry.loaded dn v be b) as [d|e]; intros [= <-]; apply store_step_same.
  - destruct (sr_heap r !! id) as [d|]; simpl; [|done]. destruct (kd_gate d); [done|].
    by destruct (prepare c d) as [[[doc rev]|]|e]; intros [= <-]; apply store_step_same.
  - destruct (sr_heap r !! id) as [d|] eqn:Hd; simpl; [|done].
    destruct (sr_stores r !! kd_backend d) as [b|] eqn:Hb; simpl; [|done].
    destruct (b_persist _ _ _) as [res b'] eqn:Hp.
    pose proof (ok_tasks _ Hr _ _ Ht) as (d1 & Hd1 & Hg & Hdoc & _ & Hv).
    assert (d1 = d) as -> by congruence.
    assert (∀ name, stored b' !! name = stored b !! name ∨ written r (kd_backend d) name (stored b' !! name)) as Hw.
    { intros name. destruct (decide (name = kd_name d)) as [->|]; [|by left; eapply persist_others].
      destruct (persist_replaces _ _ _ _ _ Hp) as [->|[_ ->]]; [right|by left].
      exists t, id, c, doc, rev, d. rewrite lookup_insert_eq. done. }
    destruct res; intros [= <-]; by eapply store_step_at.
  - destruct (Registry.gate_of id r); [done|]. intros [= <-]. by apply store_step_same.
  - destruct (Registry.gate_of id r); [done|]. intros [= <-]. by apply store_step_same.
  - destruct (sr_stores r !! be) as [b|] eqn:Hb; simpl; [|done].
    destruct (b_shutdown b) as [res b'] eqn:Hs. apply shutdown_keeps in Hs.
    destruct res; intros [= <-]; (eapply store_step_at; [done..|]); intros name; left; by rewrite Hs.
Qed.

Lemma step_stores r r' : registry_ok r → storage_step r r' → store_step r r'.
Proof.
  intros Hr Hstep. destruct Hstep as [? ? c ? _ Hb|? ? ? Ha|r name be res r' _ Hn|r be b Hb|r be b b' Hb Hs].
  - apply store_step_same.
    destruct c as [bn dn v|id table unit v|id table unit|id|]; simpl in Hb;
      try (destruct (sr_heap r !! id); simpl in Hb; [|done]); injection Hb as <-; try done;
      unfold Registry.enter; by break_match.
  - by eapply advance_stores.
  - apply store_step_same. unfold Registry.register_backend in Hn.
    destruct (ensure_name name); [|by injection Hn as <- <-].
    destruct (sr_closed r); [by injection Hn as <- <-|].
    destruct (sr_backends r !! name); by injection Hn as <- <-.
  - intros be' b1 Hb1. exists b1. simpl. rewrite lookup_insert_ne by congruence. eauto.
  - eapply store_step_at; [done..|]. intros name. left. by rewrite Hs.
Qed.

(** ** A commit that returns *)

(** Behind a successful return of a commit, the domain shows its change: published
    with the next revision, or already there up to [==]. *)
Lemma commit_returns r t id c r' :
  registry_ok r → Registry.advance t r = Some r' →
  (sr_tasks r !! t = Some (Committing id c) ∨
   ∃ doc rev, sr_tasks r !! t = Some (Publishing id c doc rev)) →
  sr_tasks r' !! t = Some (Done (Ok None)) →
  ∃ d d', sr_heap r !! id = Some d ∧ sr_heap r' !! id = Some d' ∧
    (d' = d ∧ tables_eqb (sd_tables (cm_change c (kd_document d))) (sd_tables (kd_document d)) = true ∨
     kd_document d' = cm_change c (kd_document d) ∧ kd_revision d' = kd_revision d + 1 ∧
     kd_gate d' = None ∧ (sole r id → stored_of r' d' = Some (kd_document d'))).
Proof.
  intros Hr Ha Ht Hdone. unfold Registry.advance in Ha.
  destruct Ht as [Ht|(doc & rev & Ht)]; rewrite Ht in Ha; simpl in Ha.
  - destruct (sr_heap r !! id) as [d|] eqn:Hd; simpl in Ha; [|done]. destruct (kd_gate d); [done|].
    unfold prepare in Ha. destruct (kd_accepting d); simpl in Ha.
    2:{ injection Ha as <-. simpl in Hdone. by rewrite lookup_insert_eq in Hdone. }
    destruct (validate_document _) as [[]|]; simpl in Ha.
    2:{ injection Ha as <-. simpl in Hdone. by rewrite lookup_insert_eq in Hdone. }
    destruct (tables_eqb _ _) eqn:Heq; simpl in Ha.
    + injection Ha as <-. exists d, d. split_and!; [done|done|]. by left.
    + destruct (ok_or _ _); simpl in Ha; injection Ha as <-; simpl in Hdone;
        by rewrite lookup_insert_eq in Hdone.
  - injection Ha as <-. pose proof (ok_tasks _ Hr _ _ Ht) as [(d & Hd & _ & Hdoc & Hrev & _) Hst].
    apply u64_checked_add_Some in Hrev as [Hrev _].
    exists d, (set_gate None (publish c doc rev d)). simpl. rewrite lookup_alter_eq, Hd.
    split_and!; try done. right. subst rev. split_and!; try done.
    intros Hs. specialize (Hst Hs d Hd). exact Hst.
Qed.

(** ** The shutdown *)

Definition quiet (d : KvDomain) : Prop := kd_accepting d = false ∧ kd_gate d = None.

(** Task [t] is a shutdown, nobody is opening a domain, and the domains behind it
    are quiet. *)
Definition closing_down (t : nat) r : Prop :=
  sr_closed r = true ∧ sr_open_gate r = None ∧
  match sr_tasks r !! t with
  | Some Listing => True
  | Some (ClosingAll todo) => ∀ id d, sr_heap r !! id = Some d → id ∈ todo ∨ quiet d
  | Some (WaitingAll id0 todo) => ∀ id d, sr_heap r !! id = Some d →
      id ∈ todo ∨ (id = id0 ∧ kd_accepting d = false) ∨ quiet d
  | Some (Stopping _) | Some (Done _) => ∀ id d, sr_heap r !! id = Some d → quiet d
  | _ => False
  end.

(** What every step keeps once the registry is closed and no opening is on its way. *)
Record settles r r' : Prop := {
  settles_closed : sr_closed r' = true;
  settles_open : sr_open_gate r' = None;
  settles_back id d' : sr_heap r' !! id = Some d' → ∃ d, sr_heap r !! id = Some d ∧
    (kd_accepting d = false → kd_accepting d' = false) ∧ (quiet d → quiet d');
}.

Lemma settles_heap r r' : sr_closed r' = true → sr_open_gate r' = None → sr_heap r' = sr_heap r → settles r r'.
Proof. intros ? ? Hh. constructor; [done..|]. rewrite Hh. eauto. Qed.

Lemma settles_at r r' id0 f : sr_closed r' = true → sr_open_gate r' = None →
  sr_heap r' = alter f id0 (sr_heap r) →
  (∀ d, sr_heap r !! id0 = Some d → (kd_accepting d = false → kd_accepting (f d) = false) ∧ (quiet d → quiet (f d))) →
  settles r r'.
Proof.
  intros ? ? Hh Hf. constructor; [done..|]. rewrite Hh.
  intros id d' [(<- & d & Hd & ->)|[_ Hd]]%lookup_alter_Some; eauto.
Qed.

Lemma advance_settles r t r' : registry_ok r → sr_closed r = true → sr_open_gate r = None →
  Registry.advance t r = Some r' → settles r r'.
Proof.
  intros Hr Hc Hg. unfold Registry.advance. destruct (sr_tasks r !! t) as [task|] eqn:Ht; [|done].
  destruct task as [bn dn v|bn dn v be|id c|id c doc rev|id c doc rev|id| |[|id todo]|id todo|[|be bes]|res];
    try (intros [= <-]; by apply settles_heap); try done.
  - rewrite Hg. unfold Registry.find_domain. rewrite Hc. intros [= <-]. by apply settles_heap.
  - pose proof (ok_tasks _ Hr _ _ Ht) as (Ho & _). congruence.
  - destruct (sr_heap r !! id) as [d|] eqn:Hd; simpl; [|done]. destruct (kd_gate d) eqn:Hgd; [done|].
    destruct (prepare c d) as [[[doc rev]|]|e] eqn:Hp; intros [= <-]; try (by apply settles_heap).
    apply prepare_spec in Hp as (Hacc & _). apply (settles_at _ _ id (set_gate (Some t))); try done.
    intros d1 Hd1. unfold quiet. split; [done|]. intros [? _]. congruence.
  - destruct (sr_heap r !! id) as [d|]; simpl; [|done].
    destruct (sr_stores r !! kd_backend d) as [b|]; simpl; [|done].
    destruct (b_persist _ _ _) as [[[]|e] b']; intros [= <-]; [by apply settles_heap|].
    apply (settles_at _ _ id (set_gate None)); try done. unfold quiet. naive_solver.
  - intros [= <-]. apply (settles_at _ _ id (λ d, set_gate None (publish c doc rev d))); try done.
    unfold quiet. naive_solver.
  - destruct (Registry.gate_of id r); [done|]. intros [= <-]. by apply settles_heap.
  - intros [= <-]. apply (settles_at _ _ id refuse); try done. unfold quiet. naive_solver.
  - destruct (Registry.gate_of id r); [done|]. intros [= <-]. by apply settles_heap.
  - destruct (sr_stores r !! be) as [b|]; simpl; [|done].
    destruct (b_shutdown b) as [[|] b']; intros [= <-]; by apply settles_heap.
Qed.

Lemma step_settles r r' : registry_ok r → sr_closed r = true → sr_open_gate r = None →
  storage_step r r' → settles r r'.
Proof.
  intros Hr Hc Hg Hstep. revert Hr Hc Hg.
  destruct Hstep as [r t c r' _ Hb|? ? ? Ha|r name be res r' _ Hn|r be b Hb|r be b b' Hb Hs]; intros Hr Hc Hg.
  - destruct c as [bn dn v|id table unit v|id table unit|id|]; simpl in Hb;
      try (destruct (sr_heap r !! id) as [d|]; simpl in Hb; [|done]); injection Hb as <-;
      try (apply settles_heap; [..|apply enter_heap]; unfold Registry.enter; by break_match).
    + apply (settles_at _ _ id refuse); try done. unfold quiet. naive_solver.
    + by apply settles_heap.
  - by eapply advance_settles.
  - unfold Registry.register_backend in Hn. rewrite Hc in Hn.
    destruct (ensure_name name); injection Hn as <- <-; by apply settles_heap.
  - by apply settles_heap.
  - by apply settles_heap.
Qed.

Lemma domain_values_all r id d : registry_ok r → sr_heap r !! id = Some d → id ∈ Registry.domain_values r.
Proof.
  intros Hr Hd. destruct (ok_listed _ Hr _ _ Hd) as [k Hk]. unfold Registry.domain_values.
  apply list_elem_of_fmap. exists (k, id). split; [done|].
  rewrite merge_sort_Permutation. by apply elem_of_map_to_list.
Qed.

Lemma advance_other r t t' r' : Registry.advance t' r = Some r' → t ≠ t' →
  sr_tasks r' !! t = sr_tasks r !! t.
Proof.
  intros Ha Hne. unfold Registry.advance in Ha. destruct (sr_tasks r !! t') as [task|]; [|done].
  assert (∀ task' r1 r2, sr_tasks r2 = <[t' := task']> (sr_tasks r1) → sr_tasks r1 = sr_tasks r →
    sr_tasks r2 !! t = sr_tasks r !! t) as Hput.
  { intros task' r1 r2 -> ->. by rewrite lookup_insert_ne. }
  destruct task as [bn dn v|bn dn v be|id c|id c doc rev|id c doc rev|id| |[|id todo]|id todo|[|be bes]|res];
    try (injection Ha as <-; by eapply Hput); try done.
  - destruct (sr_open_gate r); [done|].
    by destruct (Registry.find_domain _ _ _ _) as [[id|be]|e]; injection Ha as <-; eapply Hput.
  - destruct (sr_stores r !! be) as [b|]; simpl in Ha; [|done].
    by destruct (Registry.loaded dn v be b) as [d|e]; injection Ha as <-; eapply Hput.
  - destruct (sr_heap r !! id) as [d|]; simpl in Ha; [|done]. destruct (kd_gate d); [done|].
    by destruct (prepare c d) as [[[doc rev]|]|e]; injection Ha as <-; eapply Hput.
  - destruct (sr_heap r !! id) as [d|]; simpl in Ha; [|done].
    destruct (sr_stores r !! kd_backend d) as [b|]; simpl in Ha; [|done].
    by destruct (b_persist _ _ _) as [[[]|e] b']; injection Ha as <-; eapply Hput.
  - destruct (Registry.gate_of id r); [done|]. injection Ha as <-. by eapply Hput.
  - destruct (Registry.gate_of id r); [done|]. injection Ha as <-. by eapply Hput.
  - destruct (sr_stores r !! be) as [b|]; simpl in Ha; [|done].
    by destruct (b_shutdown b) as [[|] b']; injection Ha as <-; eapply Hput.
Qed.

(** Another task leaves the shutdown where it is. *)
Lemma step_task r r' t : storage_step r r' → is_Some (sr_tasks r !! t) →
  sr_tasks r' !! t = sr_tasks r !! t ∨ Registry.advance t r = Some r'.
Proof.
  intros Hstep [task Ht].
  destruct Hstep as [r t' c r' Hn Hb|r t' r' Ha|r name be res r' _ Hn|r be b Hb|r be b b' Hb Hs]; try (by left).
  - assert (t ≠ t') by congruence. left.
    destruct c as [bn dn v|id table unit v|id table unit|id|]; simpl in Hb;
      try (destruct (sr_heap r !! id) as [d|]; simpl in Hb; [|done]); injection Hb as <-;
      try (unfold Registry.enter; break_match); simpl; by rewrite lookup_insert_ne.
  - destruct (decide (t = t')) as [->|Hne]; [by right|]. left. by eapply advance_other.
  - left. unfold Registry.register_backend in Hn. repeat break_match_in Hn; by injection Hn as <- <-.
Qed.

Lemma closing_down_step t r r' : registry_ok r → closing_down t r → storage_step r r' → closing_down t r'.
Proof.
  intros Hr (Hc & Hg & Hs) Hstep.
  pose proof (step_settles _ _ Hr Hc Hg Hstep) as [Hc' Hg' Hback].
  assert (is_Some (sr_tasks r !! t)) as Hsome by (destruct (sr_tasks r !! t); eauto; done).
  split_and!; [done..|].
  destruct (step_task _ _ t Hstep Hsome) as [Heq|Ha].
  - rewrite Heq. destruct (sr_tasks r !! t) as [[]|]; try done.
    + intros i d' (d & Hd & Ha & Hq)%Hback. destruct (Hs _ _ Hd); eauto.
    + intros i d' (d & Hd & Ha & Hq)%Hback. destruct (Hs _ _ Hd) as [|[[]|]]; eauto.
    + intros i d' (d & Hd & Ha & Hq)%Hback. eauto.
    + intros i d' (d & Hd & Ha & Hq)%Hback. eauto.
  - unfold Registry.advance in Ha. destruct (sr_tasks r !! t) as [task|] eqn:Ht; [|done].
    destruct task as [bn dn v|bn dn v be|id c|id c doc rev|id c doc rev|id| |[|id todo]|id todo|[|be bes]|res];
      try done.
    + injection Ha as <-. simpl. rewrite lookup_insert_eq. intros i d Hd. left. by eapply domain_values_all.
    + injection Ha as <-. simpl. rewrite lookup_insert_eq. intros i d Hd.
      destruct (Hs _ _ Hd) as [Hin|]; [by apply not_elem_of_nil in Hin|done].
    + injection Ha as <-. simpl. rewrite lookup_insert_eq. intros i d Hd.
      destruct (decide (i = id)) as [->|Hne].
      * apply lookup_alter_Some in Hd as [(_ & d0 & Hd0 & ->)|[]]; [|done]. right; left. done.
      * rewrite lookup_alter_ne in Hd by done.
        destruct (Hs _ _ Hd) as [[?|?]%elem_of_cons|]; [done|by left|by right; right].
    + destruct (Registry.gate_of id r) eqn:Hgate; [done|]. injection Ha as <-. simpl.
      rewrite lookup_insert_eq. intros i d Hd.
      destruct (Hs _ _ Hd) as [|[[-> Hacc]|]]; [by left| |by right].
      right. split; [done|]. unfold Registry.gate_of in Hgate. by rewrite Hd in Hgate.
    + injection Ha as <-. simpl. by rewrite lookup_insert_eq.
    + destruct (sr_stores r !! be) as [b|]; simpl in Ha; [|done].
      destruct (b_shutdown b) as [[|] b']; injection Ha as <-; simpl; by rewrite lookup_insert_eq.
Qed.

Lemma closing_down_steps t r r' : registry_ok r → closing_down t r → rtc storage_step r r' →
  registry_ok r' ∧ closing_down t r'.
Proof. intros Hr Hc Hs. induction Hs; eauto using ok_step, closing_down_step. Qed.
End steps.
