(* ===== verification/RemoteAccess.v ===== *)
(** * Remote access (remote_access.rs): pairing, device sessions, revocation

    A token pairs one device, which gets a secret; the store keeps hashes only.  The
    mutex of the state is held from the first look at it to the end of the write,
    so an operation is a function of the state, the files of the store's directory
    and what the moment provides ([RemoteEnv]): the clock, which is read before the
    lock, random identifiers, and the failure of any input or output step.  SHA-256
    and the JSON text of the document are parameters. *)

From S2P Require Import Prelude.

#[local] Open Scope N_scope.

Definition STORE_VERSION : N := 1.
Definition MAX_DEVICES : nat := 256.
Definition MAX_STORE_BYTES : N := 1024 * 1024.
Definition ACTIVITY_PERSIST_INTERVAL : N := 60000.

(** A [Duration] is its number of nanoseconds. *)
Record RemoteAccessConfig := mkRemoteConfig {
  rc_enabled : bool;
  rc_trusted_tunnel : bool;
  rc_pairing_ttl : N;
  rc_session_ttl : N;
}.
Definition RemoteAccessConfig_default : RemoteAccessConfig :=
  mkRemoteConfig false false (5 * 60 * 10 ^ 9) (30 * 24 * 60 * 60 * 10 ^ 9).

Inductive RemoteDeviceStatus := DeviceActive | DeviceExpired | DeviceRevoked.
#[export] Instance RemoteDeviceStatus_eq_dec : EqDecision RemoteDeviceStatus.
Proof. solve_decision. Defined.

Record RemoteDeviceDescriptor := mkDeviceDescriptor {
  dd_device_id : string;
  dd_name : string;
  dd_created_at : N;
  dd_last_activity_at : N;
  dd_expires_at : N;
  dd_status : RemoteDeviceStatus;
}.
Record RemoteAccessDescription := mkAccessDescription {
  da_enabled : bool;
  da_trusted_tunnel : bool;
  da_revision : N;
  da_devices : list RemoteDeviceDescriptor;
}.
Record PairingToken := mkPairingToken { pt_token : string; pt_expires_at : N }.
Record IssuedRemoteSession := mkIssuedSession {
  is_device : RemoteDeviceDescriptor;
  is_session_secret : string;
}.
Record RemoteDeviceContext := mkDeviceContext { dc_device_id : string; dc_expires_at : N }.

Inductive RemoteAccessError :=
| RemoteDisabled
| TlsRequired
| AuthRequired
| SessionExpired
| SessionRevoked
| DeviceNotFound
| RemoteInvalid (message : string)
| RemotePersistence (message : string)
| RemoteCorrupt (message : string).

Definition RemoteAccessError_code (e : RemoteAccessError) : string :=
  match e with
  | RemoteDisabled => "REMOTE_ACCESS_DISABLED"
  | TlsRequired => "REMOTE_TLS_REQUIRED"
  | AuthRequired => "REMOTE_AUTH_REQUIRED"
  | SessionExpired => "REMOTE_SESSION_EXPIRED"
  | SessionRevoked => "REMOTE_SESSION_REVOKED"
  | DeviceNotFound => "REMOTE_DEVICE_NOT_FOUND"
  | RemoteInvalid _ => "INVALID_REMOTE_ACCESS_REQUEST"
  | RemotePersistence _ | RemoteCorrupt _ => "REMOTE_STATE_UNAVAILABLE"
  end.

Definition RemoteAccessError_text (e : RemoteAccessError) : string :=
  match e with
  | RemoteDisabled => "remote access is disabled"
  | TlsRequired => "remote access requires a trusted TLS tunnel"
  | AuthRequired => "remote authentication is required"
  | SessionExpired => "remote device session expired"
  | SessionRevoked => "remote device session was revoked"
  | DeviceNotFound => "remote device was not found"
  | RemoteInvalid m => "invalid remote access request: " +:+ m
  | RemotePersistence m => "remote access persistence failed: " +:+ m
  | RemoteCorrupt m => "remote access state is corrupt: " +:+ m
  end.

(** ** The state *)

Abbreviation hash := (list ascii).
Record StoredPairing := mkPairing { sp_token_hash : hash; sp_expires_at : N }.
Record StoredDevice := mkDevice {
  dv_device_id : string;
  dv_name : string;
  dv_secret_hash : string;
  dv_created_at : N;
  dv_last_activity_at : N;
  dv_expires_at : N;
  dv_revoked_at : option N;
}.
Record RemoteState := mkRemoteState {
  rs_revision : N;
  rs_devices : gmap string StoredDevice;
  rs_pairing : option StoredPairing;
}.
Definition RemoteState_default : RemoteState := mkRemoteState 0 ∅ None.
Record StoredDocument := mkStoredDocument {
  st_version : N;
  st_revision : N;
  st_devices : list StoredDevice;
}.

(** SHA-256 and serde_json on the document. *)
Class RemoteCodec := {
  sha256 : list ascii → hash;
  store_text : StoredDocument → result string (list ascii);
  store_of_text : list ascii → result string StoredDocument;
}.

(** The names in the store's directory. *)
Inductive StoreNode :=
| StoreLink
| StoreDirectory
| StoreFile (owner : bool) (mode : N) (bytes : list ascii).

(** The store: its files, and what was sent and scheduled.  [rw_disconnects] counts
    the broadcasts to the live streams, [rw_timers] holds the times at which one was
    scheduled. *)
Record RemoteWorld := mkRemoteWorld {
  rw_config : RemoteAccessConfig;
  rw_state : RemoteState;
  rw_files : gmap string StoreNode;
  rw_attached : bool;
  rw_disconnects : nat;
  rw_timers : list N;
}.

(** One call: its reading of the clock, the random identifiers it draws, the steps
    of input and output that fail, and how much a failing write has written. *)
Record RemoteEnv := mkRemoteEnv {
  re_now : N;
  re_uuid : nat → string;
  re_fault : nat → option string;
  re_written : nat;
}.

(** ** Checks and codes *)

(** [char::is_control] on some character: the bytes below 32, 127, and the two-byte
    characters from U+0080 to U+009F. *)
Fixpoint has_control (l : list ascii) : bool :=
  match l with
  | [] => false
  | a :: l =>
      (byte a <? 32) || (byte a =? 127)
      || match l with
         | b :: _ => (byte a =? 194) && (128 <=? byte b) && (byte b <=? 159)
         | [] => false
         end
      || has_control l
  end.

Definition validate_device_name (name : string) : result RemoteAccessError unit :=
  if negb (trimmed name) || is_empty name || (128 <? str_len name) || has_control (bytes_of name)
  then Err (RemoteInvalid
              "deviceName must be 1-128 printable characters without surrounding whitespace")
  else Ok tt.

Definition validate_secret (secret : string) : result RemoteAccessError unit :=
  if (str_len secret <? 16) || (256 <? str_len secret) || has_control (bytes_of secret)
  then Err AuthRequired else Ok tt.

Definition HEX : list ascii := bytes_of "0123456789abcdef".
Definition hex_of (n : N) : ascii := nth (N.to_nat n) HEX "0"%char.
Definition hex_hash (h : hash) : string :=
  string_of (mjoin ((λ a, [hex_of (N.shiftr (byte a) 4); hex_of (N.land (byte a) 15)]) <$> h)).

Definition hex_digit (a : ascii) : option N :=
  let n := byte a in
  if (48 <=? n) && (n <=? 57) then Some (n - 48)
  else if (97 <=? n) && (n <=? 102) then Some (n - 97 + 10)
  else None.

Fixpoint decode_pairs (l : list ascii) : option hash :=
  match l with
  | a :: b :: l =>
      high ← hex_digit a;
      low ← hex_digit b;
      rest ← decode_pairs l;
      Some (ascii_of_N (N.lor (N.shiftl high 4) low) :: rest)
  | _ => Some []
  end.
Definition decode_hash (value : string) : option hash :=
  if negb (str_len value =? 64) then None else decode_pairs (bytes_of value).

Definition constant_time_eq (left right : hash) : bool :=
  foldl (λ difference (p : ascii * ascii), N.lor difference (N.lxor (byte p.1) (byte p.2))) 0
    (zip left right) =? 0.

(** [duration.as_millis()], then the checked sum. *)
Definition add_duration (now duration : N) : result RemoteAccessError N :=
  ok_or (u64_checked_add now (N.min (duration / 10 ^ 6) U64_MAX))
    (RemoteInvalid "TTL exceeds the supported clock range").

Definition random_secret (prefix : string) (env : RemoteEnv) : string :=
  prefix +:+ "_" +:+ re_uuid env 0 +:+ re_uuid env 1.

Definition descriptor (d : StoredDevice) (now : N) : RemoteDeviceDescriptor :=
  mkDeviceDescriptor (dv_device_id d) (dv_name d) (dv_created_at d) (dv_last_activity_at d)
    (dv_expires_at d)
    (match dv_revoked_at d with
     | Some _ => DeviceRevoked
     | None => if dv_expires_at d <=? now then DeviceExpired else DeviceActive
     end).

(** ** The oldest inactive devices make room for a new one *)

Definition inactive (now : N) (d : StoredDevice) : bool :=
  match dv_revoked_at d with Some _ => true | None => dv_expires_at d <=? now end.
Definition older (p q : N * string) : Prop := p.1 < q.1 ∨ p.1 = q.1 ∧ String.leb p.2 q.2 = true.
#[export] Instance older_dec p q : Decision (older p q).
Proof. unfold older. apply _. Defined.

Definition to_prune (s : RemoteState) (now : N) : list (N * string) :=
  take (S (size (rs_devices s)) - MAX_DEVICES)
    (merge_sort older
       ((λ d, (dv_created_at d, dv_device_id d)) <$>
          filter (λ d, inactive now d = true) (btree_values (rs_devices s)))).
Definition prune_inactive_devices (s : RemoteState) (now : N) : RemoteState :=
  mkRemoteState (rs_revision s)
    (foldl (λ devices p, delete p.2 devices) (rs_devices s) (to_prune s now)) (rs_pairing s).

Module Remote.

Section access.
Context `{RemoteCodec}.
(** The store's file name, its paths in messages, and the operating system's texts
    for a name that is taken and for a symbolic link. *)
Context (name : string) (display : string → string) (already_exists link_loop : string).

Definition hash_secret (secret : string) : hash := sha256 (bytes_of secret).

(** ** The file of the store *)

Definition io_failed (what path e : string) : RemoteAccessError :=
  RemotePersistence (what +:+ " " +:+ display path +:+ ": " +:+ e).

(** A step of input or output: whether it fails. *)
Definition io (env : RemoteEnv) (i : nat) (what path : string) : result RemoteAccessError unit :=
  match re_fault env i with Some e => Err (io_failed what path e) | None => Ok tt end.

Definition load_device (devices : gmap string StoredDevice) (d : StoredDevice) :
    result RemoteAccessError (gmap string StoredDevice) :=
  _ ← map_err (λ e, RemoteCorrupt ("invalid remote device name: " +:+ RemoteAccessError_text e))
        (validate_device_name (dv_name d));
  if bool_decide (decode_hash (dv_secret_hash d) = None)
     || (dv_last_activity_at d <? dv_created_at d) || (dv_expires_at d <? dv_last_activity_at d)
     || bool_decide (is_Some (devices !! dv_device_id d))
  then Err (RemoteCorrupt "invalid or duplicate remote device record")
  else Ok (<[dv_device_id d := d]> devices).

Definition load_document (d : StoredDocument) : result RemoteAccessError RemoteState :=
  if negb (st_version d =? STORE_VERSION) || (N.of_nat MAX_DEVICES <? N.of_nat (length (st_devices d)))
  then Err (RemoteCorrupt "unsupported store version or device count")
  else
    devices ← foldM load_device ∅ (st_devices d);
    Ok (mkRemoteState (st_revision d) devices None).

Definition load_state (env : RemoteEnv) (files : gmap string StoreNode) :
    result RemoteAccessError RemoteState :=
  match files !! name with
  | None => _ ← io env 0 "open" name; Ok RemoteState_default
  | Some StoreLink => Err (io_failed "open" name link_loop)
  | Some node =>
      _ ← io env 0 "open" name;
      _ ← io env 1 "inspect" name;
      match node with
      | StoreFile owner mode bytes =>
          if MAX_STORE_BYTES <? N.of_nat (length bytes) then
            Err (RemoteCorrupt "remote access store must be a bounded regular file")
          else if negb owner || negb (mode =? 384) then
            Err (RemoteCorrupt "remote access store must be effective-user-owned mode 0600")
          else
            _ ← io env 2 "read" name;
            document ← map_err (λ e, RemoteCorrupt ("decode store: " +:+ e)) (store_of_text bytes);
            load_document document
      | _ => Err (RemoteCorrupt "remote access store must be a bounded regular file")
      end
  end.

Definition document (s : RemoteState) : StoredDocument :=
  mkStoredDocument STORE_VERSION (rs_revision s) (btree_values (rs_devices s)).

Definition temporary (env : RemoteEnv) : string := "." +:+ name +:+ "-" +:+ re_uuid env 2 +:+ ".tmp".

(** The part of [persist] that works on the temporary file: the files it leaves.
    Mode 384 is 0600. *)
Definition write_store (env : RemoteEnv) (bytes : list ascii) (files : gmap string StoreNode) :
    result RemoteAccessError unit * gmap string StoreNode :=
  let temp := temporary env in
  match io env 4 "create" temp, files !! temp with
  | Err e, _ => (Err e, files)
  | Ok _, Some _ => (Err (io_failed "create" temp already_exists), files)
  | Ok _, None =>
      match io env 5 "write" temp with
      | Err e => (Err e, <[temp := StoreFile true 384 (take (re_written env) bytes)]> files)
      | Ok _ =>
          let written := <[temp := StoreFile true 384 bytes]> files in
          match io env 6 "sync" temp with
          | Err e => (Err e, written)
          | Ok _ =>
              match io env 7 "replace" name with
              | Err e => (Err e, written)
              | Ok _ =>
                  (_ ← io env 8 "open" ""; io env 9 "sync" "",
                   <[name := StoreFile true 384 bytes]> (delete temp files))
              end
          end
      end
  end.

Definition persist (env : RemoteEnv) (s : RemoteState) (files : gmap string StoreNode) :
    result RemoteAccessError unit * gmap string StoreNode :=
  match io env 3 "create" "" with
  | Err e => (Err e, files)
  | Ok _ =>
      match store_text (document s) with
      | Err e => (Err (RemotePersistence ("encode store: " +:+ e)), files)
      | Ok bytes =>
          match write_store env bytes files with
          | (Ok _, files) => (Ok tt, files)
          | (Err e, files) =>
              (Err e, match re_fault env 10 with
                      | Some _ => files
                      | None => delete (temporary env) files
                      end)
          end
      end
  end.

(** ** Operations *)

Definition with_state (s : RemoteState) (w : RemoteWorld) : RemoteWorld :=
  mkRemoteWorld (rw_config w) s (rw_files w) (rw_attached w) (rw_disconnects w) (rw_timers w).
Definition with_files (files : gmap string StoreNode) (w : RemoteWorld) : RemoteWorld :=
  mkRemoteWorld (rw_config w) (rw_state w) files (rw_attached w) (rw_disconnects w) (rw_timers w).
Definition disconnect_live (w : RemoteWorld) : RemoteWorld :=
  mkRemoteWorld (rw_config w) (rw_state w) (rw_files w) (rw_attached w)
    (rw_disconnects w + if rw_attached w then 1 else 0) (rw_timers w).
Definition schedule_expiry (expires_at : N) (w : RemoteWorld) : RemoteWorld :=
  mkRemoteWorld (rw_config w) (rw_state w) (rw_files w) (rw_attached w) (rw_disconnects w)
    (rw_timers w ++ [expires_at]).

Definition enabled (w : RemoteWorld) : bool := rc_enabled (rw_config w).
Definition require_enabled (w : RemoteWorld) : result RemoteAccessError unit :=
  if enabled w then Ok tt else Err RemoteDisabled.

(** [persist], and the candidate becomes the state if that succeeds. *)
Definition save (env : RemoteEnv) (candidate : RemoteState) (w : RemoteWorld) :
    result RemoteAccessError unit * RemoteWorld :=
  match persist env candidate (rw_files w) with
  | (Ok _, files) => (Ok tt, with_state candidate (with_files files w))
  | (Err e, files) => (Err e, with_files files w)
  end.

Definition open (env : RemoteEnv) (config : RemoteAccessConfig) (files : gmap string StoreNode) :
    result RemoteAccessError RemoteWorld :=
  if rc_enabled config && negb (rc_trusted_tunnel config) then Err TlsRequired
  else if (rc_pairing_ttl config =? 0) || (rc_session_ttl config =? 0) then
    Err (RemoteInvalid "pairing and session TTLs must be positive")
  else
    s ← load_state env files;
    Ok (mkRemoteWorld config s files false 0
          (if rc_enabled config then
             dv_expires_at <$> filter (λ d, dv_revoked_at d = None) (btree_values (rs_devices s))
           else [])).

Definition attach_disconnects (w : RemoteWorld) : RemoteWorld :=
  mkRemoteWorld (rw_config w) (rw_state w) (rw_files w) true (rw_disconnects w) (rw_timers w).

Definition describe (env : RemoteEnv) (only : option string) (w : RemoteWorld) : RemoteAccessDescription :=
  mkAccessDescription (enabled w) (rc_trusted_tunnel (rw_config w)) (rs_revision (rw_state w))
    ((λ d, descriptor d (re_now env)) <$>
       filter (λ d, match only with Some id => (dv_device_id d =? id)%string | None => true end = true)
         (btree_values (rs_devices (rw_state w)))).

Definition set_pairing (p : option StoredPairing) (s : RemoteState) : RemoteState :=
  mkRemoteState (rs_revision s) (rs_devices s) p.

Definition issue_pairing (env : RemoteEnv) (w : RemoteWorld) :
    result RemoteAccessError PairingToken * RemoteWorld :=
  match (_ ← require_enabled w; add_duration (re_now env) (rc_pairing_ttl (rw_config w))) with
  | Err e => (Err e, w)
  | Ok expires_at =>
      let token := random_secret "tvp" env in
      (Ok (mkPairingToken token expires_at),
       with_state (set_pairing (Some (mkPairing (hash_secret token) expires_at)) (rw_state w)) w)
  end.

(** The state with one more device, the pairing used up. *)
Definition add_device (d : StoredDevice) (s : RemoteState) : RemoteState :=
  mkRemoteState (u64_saturating_add (rs_revision s) 1) (<[dv_device_id d := d]> (rs_devices s)) None.

Definition exchange_pairing (env : RemoteEnv) (token device_name : string) (w : RemoteWorld) :
    result RemoteAccessError IssuedRemoteSession * RemoteWorld :=
  let now := re_now env in
  match (_ ← require_enabled w; _ ← validate_secret token; validate_device_name device_name) with
  | Err e => (Err e, w)
  | Ok _ =>
      let s := rw_state w in
      match rs_pairing s with
      | None => (Err AuthRequired, w)
      | Some pairing =>
          if sp_expires_at pairing <=? now then (Err AuthRequired, with_state (set_pairing None s) w)
          else if negb (constant_time_eq (sp_token_hash pairing) (hash_secret token)) then
            (Err AuthRequired, w)
          else
            let candidate := prune_inactive_devices s now in
            if (MAX_DEVICES <=? size (rs_devices candidate))%nat then
              (Err (RemoteInvalid "remote device limit is reached"), w)
            else
              let session_secret := random_secret "tvs" env in
              match add_duration now (rc_session_ttl (rw_config w)) with
              | Err e => (Err e, w)
              | Ok expires_at =>
                  let stored := mkDevice (re_uuid env 3) device_name
                                  (hex_hash (hash_secret session_secret)) now now expires_at None in
                  match save env (add_device stored candidate) w with
                  | (Err e, w) => (Err e, w)
                  | (Ok _, w) =>
                      (Ok (mkIssuedSession (descriptor stored now) session_secret),
                       schedule_expiry expires_at w)
                  end
              end
      end
  end.

Definition has_secret (supplied : hash) (d : StoredDevice) : bool :=
  match decode_hash (dv_secret_hash d) with
  | Some stored => constant_time_eq stored supplied
  | None => false
  end.

Definition change_device (f : StoredDevice → StoredDevice) (id : string) (s : RemoteState) : RemoteState :=
  mkRemoteState (u64_saturating_add (rs_revision s) 1) (alter f id (rs_devices s)) (rs_pairing s).
Definition touch (now : N) (d : StoredDevice) : StoredDevice :=
  mkDevice (dv_device_id d) (dv_name d) (dv_secret_hash d) (dv_created_at d) now (dv_expires_at d)
    (dv_revoked_at d).
Definition revoke_device (now : N) (d : StoredDevice) : StoredDevice :=
  mkDevice (dv_device_id d) (dv_name d) (dv_secret_hash d) (dv_created_at d) (dv_last_activity_at d)
    (dv_expires_at d) (Some now).

(** [None]: the selected device is not in the map. *)
Definition authenticate (env : RemoteEnv) (session_secret : string) (w : RemoteWorld) :
    option (result RemoteAccessError RemoteDeviceContext * RemoteWorld) :=
  let now := re_now env in
  match (_ ← require_enabled w; validate_secret session_secret) with
  | Err e => Some (Err e, w)
  | Ok _ =>
      let supplied := hash_secret session_secret in
      let s := rw_state w in
      match dv_device_id <$> List.find (has_secret supplied) (btree_values (rs_devices s)) with
      | None => Some (Err AuthRequired, w)
      | Some device_id =>
          device ← rs_devices s !! device_id;
          if bool_decide (is_Some (dv_revoked_at device)) then Some (Err SessionRevoked, w)
          else if dv_expires_at device <=? now then Some (Err SessionExpired, w)
          else
            let context := mkDeviceContext device_id (dv_expires_at device) in
            if ACTIVITY_PERSIST_INTERVAL <=? u64_saturating_sub now (dv_last_activity_at device) then
              match save env (change_device (touch now) device_id s) w with
              | (Err e, w) => Some (Err e, w)
              | (Ok _, w) => Some (Ok context, w)
              end
            else Some (Ok context, w)
      end
  end.

Definition check_device (env : RemoteEnv) (device_id : string) (w : RemoteWorld) :
    result RemoteAccessError unit :=
  _ ← require_enabled w;
  device ← ok_or (rs_devices (rw_state w) !! device_id) AuthRequired;
  if bool_decide (is_Some (dv_revoked_at device)) then Err SessionRevoked
  else if dv_expires_at device <=? re_now env then Err SessionExpired
  else Ok tt.

Definition revoke (env : RemoteEnv) (device_id : string) (w : RemoteWorld) :
    result RemoteAccessError RemoteDeviceDescriptor * RemoteWorld :=
  let now := re_now env in
  match (_ ← require_enabled w; ok_or (rs_devices (rw_state w) !! device_id) DeviceNotFound) with
  | Err e => (Err e, w)
  | Ok device =>
      if bool_decide (is_Some (dv_revoked_at device)) then (Ok (descriptor device now), w)
      else
        match save env (change_device (revoke_device now) device_id (rw_state w)) w with
        | (Err e, w) => (Err e, w)
        | (Ok _, w) => (Ok (descriptor (revoke_device now device) now), disconnect_live w)
        end
  end.

Definition live (d : StoredDevice) : bool := bool_decide (dv_revoked_at d = None).
Definition revoke_all (env : RemoteEnv) (w : RemoteWorld) : result RemoteAccessError N * RemoteWorld :=
  let now := re_now env in
  match require_enabled w with
  | Err e => (Err e, w)
  | Ok _ =>
      let s := rw_state w in
      let revoked := N.of_nat (length (filter (λ d, live d = true) (btree_values (rs_devices s)))) in
      if revoked =? 0 then (Ok 0, w)
      else
        let candidate :=
          mkRemoteState (u64_saturating_add (rs_revision s) 1)
            ((λ d, if live d then revoke_device now d else d) <$> rs_devices s) (rs_pairing s) in
        match save env candidate w with
        | (Err e, w) => (Err e, w)
        | (Ok _, w) => (Ok revoked, disconnect_live w)
        end
  end.

End access.
End Remote.
