(* ===== verification/RemoteFacts.v ===== *)
(** * Lemmas on remote access: codes of hashes, pruning, the document and its file *)

From S2P Require Import Prelude RemoteAccess.

#[local] Open Scope N_scope.

(** ** Hashes *)

Lemma hex_digit_of n : n < 16 → hex_digit (hex_of n) = Some n.
Proof.
  intros Hn. assert (n ∈ (N.of_nat <$> seq 0 16)) as Hin.
  { apply list_elem_of_fmap. exists (N.to_nat n). rewrite N2Nat.id, elem_of_seq. lia. }
  revert Hin. simpl. rewrite !elem_of_cons, elem_of_nil.
  intros Hc; repeat (destruct Hc as [->|Hc]; [done|]). done.
Qed.

Lemma ra_byte_lt a : byte a < 256.
Proof. apply N_ascii_bounded. Qed.

Lemma nibbles a : ascii_of_N (N.lor (N.shiftl (N.shiftr (byte a) 4) 4) (N.land (byte a) 15)) = a.
Proof. destruct a as [[] [] [] [] [] [] [] []]; reflexivity. Qed.

#[local] Abbreviation hex_pairs h :=
  (mjoin ((λ a, [hex_of (N.shiftr (byte a) 4); hex_of (N.land (byte a) 15)]) <$> h)).

Lemma hex_pairs_cons a h :
  hex_pairs (a :: h) = hex_of (N.shiftr (byte a) 4) :: hex_of (N.land (byte a) 15) :: hex_pairs h.
Proof. done. Qed.

Lemma ra_decode_pairs_hex h : decode_pairs (hex_pairs h) = Some h.
Proof.
  induction h as [|a h IH]; [done|].
  rewrite hex_pairs_cons. cbn [decode_pairs]. rewrite IH. clear IH.
  assert (N.shiftr (byte a) 4 < 16) as Hhi.
  { rewrite N.shiftr_div_pow2. apply N.Div0.div_lt_upper_bound. pose proof (ra_byte_lt a). lia. }
  assert (N.land (byte a) 15 < 16) as Hlo.
  { change 15 with (N.ones 4). rewrite N.land_ones. apply N.mod_lt. done. }
  rewrite (hex_digit_of _ Hhi), (hex_digit_of _ Hlo). simpl. by rewrite nibbles.
Qed.

Lemma bytes_string_of l : bytes_of (string_of l) = l.
Proof. apply String.list_ascii_of_string_of_list_ascii. Qed.

Lemma ra_str_len_string_of l : str_len (string_of l) = N.of_nat (length l).
Proof. unfold str_len, string_of. f_equal. induction l; simpl; congruence. Qed.

Lemma decode_hex_hash h : length h = 32%nat → decode_hash (hex_hash h) = Some h.
Proof.
  intros Hl. unfold decode_hash, hex_hash. rewrite ra_str_len_string_of, bytes_string_of, ra_decode_pairs_hex.
  assert (length (hex_pairs h) = (2 * length h)%nat) as ->.
  { clear Hl. induction h as [|a h IH]; [done|]. rewrite hex_pairs_cons. cbn [length]. lia. }
  by rewrite Hl.
Qed.

Lemma decode_pairs_length l h : decode_pairs l = Some h → (2 * length h ≤ length l)%nat ∧ (length l ≤ 2 * length h + 1)%nat.
Proof.
  revert h. induction l as [l IH] using (induction_ltof1 _ length).
  destruct l as [|a [|b l]]; intros h; simpl; [intros [= <-]; simpl; lia..|].
  destruct (hex_digit a); simpl; [|done]. destruct (hex_digit b); simpl; [|done].
  destruct (decode_pairs l) as [h'|] eqn:Hd; simpl; [|done]. intros [= <-].
  apply IH in Hd; [|unfold ltof; simpl; lia]. simpl. lia.
Qed.

Lemma decode_hash_length s h : decode_hash s = Some h → length h = 32%nat.
Proof.
  unfold decode_hash. destruct (str_len s =? 64) eqn:Hl; simpl; [|done].
  apply N.eqb_eq in Hl. unfold str_len in Hl. intros Hd%decode_pairs_length.
  assert (length (bytes_of s) = String.length s) as Hb by (clear; induction s; simpl; congruence). lia.
Qed.

(** The comparison in constant time is equality. *)
Lemma constant_time_fold acc l :
  foldl (λ d (p : ascii * ascii), N.lor d (N.lxor (byte p.1) (byte p.2))) acc l = 0 ↔
  acc = 0 ∧ Forall (λ p, p.1 = p.2) l.
Proof.
  revert acc. induction l as [|[a b] l IH]; intros acc; simpl; [naive_solver|].
  rewrite IH, N.lor_eq_0_iff, N.lxor_eq_0_iff, Forall_cons. simpl.
  assert (byte a = byte b ↔ a = b) as ->; [|tauto].
  split; [|by intros ->]. intros Hb. rewrite <- (ascii_N_embedding a), <- (ascii_N_embedding b). by f_equal.
Qed.

Lemma constant_time_eq_spec l r : length l = length r → constant_time_eq l r = true ↔ l = r.
Proof.
  intros Hl. unfold constant_time_eq. rewrite N.eqb_eq, constant_time_fold. split.
  - intros [_ Hf]. revert r Hl Hf. induction l as [|a l IH]; intros [|b r]; try done.
    simpl. intros [= Hl] Hf. inversion Hf as [|? ? He Hf']; subst. simpl in He. subst. f_equal. by apply IH.
  - intros <-. split; [done|]. clear. induction l; constructor; done.
Qed.

(** ** Well-formed states *)

(** A [Uuid] is its text of 36 characters. *)
Definition uuid_text (id : string) : Prop := str_len id = 36.

Definition device_ok (d : StoredDevice) : Prop :=
  uuid_text (dv_device_id d) ∧ validate_device_name (dv_name d) = Ok tt ∧
  is_Some (decode_hash (dv_secret_hash d)) ∧
  dv_created_at d <= dv_last_activity_at d <= dv_expires_at d ∧ is_u64 (dv_expires_at d) ∧
  from_option is_u64 True (dv_revoked_at d).

Record state_ok (s : RemoteState) : Prop := {
  state_size : (size (rs_devices s) ≤ MAX_DEVICES)%nat;
  state_revision : is_u64 (rs_revision s);
  state_device id d : rs_devices s !! id = Some d → dv_device_id d = id ∧ device_ok d;
}.

Lemma state_ok_default : state_ok RemoteState_default.
Proof. split; simpl; [rewrite map_size_empty; unfold MAX_DEVICES; lia|done|]. intros id d. by rewrite lookup_empty. Qed.

Lemma state_ok_pairing s p : state_ok s → state_ok (Remote.set_pairing p s).
Proof. intros []. by split. Qed.

Lemma elem_of_btree_values {V} (m : gmap string V) v : v ∈ btree_values m ↔ ∃ k, m !! k = Some v.
Proof.
  unfold btree_values. rewrite list_elem_of_fmap. split.
  - intros ([k v'] & -> & Hin%elem_of_btree_list). eauto.
  - intros [k Hk]. exists (k, v). split; [done|]. by apply elem_of_btree_list.
Qed.

Lemma length_btree_values {V} (m : gmap string V) : length (btree_values m) = size m.
Proof. unfold btree_values. by rewrite length_fmap, btree_list_perm, length_map_to_list. Qed.

Lemma ids_NoDup s : state_ok s → NoDup (dv_device_id <$> btree_values (rs_devices s)).
Proof.
  intros Hs. assert (dv_device_id <$> btree_values (rs_devices s) = btree_keys (rs_devices s)) as ->;
    [|apply NoDup_btree_keys].
  unfold btree_values, btree_keys. rewrite <- list_fmap_compose. apply list_fmap_ext.
  intros i [k d] Hi. simpl. assert ((k, d) ∈ btree_list (rs_devices s)) as Hin by (by eapply list_elem_of_lookup_2).
  apply elem_of_btree_list in Hin. by apply (state_device _ Hs) in Hin as [-> _].
Qed.

(** ** The document *)

Lemma load_devices l (m0 : gmap string StoredDevice) :
  Forall device_ok l → NoDup (dv_device_id <$> l) →
  (∀ d, d ∈ l → m0 !! dv_device_id d = None) →
  foldM Remote.load_device m0 l = Ok (foldl (λ m d, <[dv_device_id d := d]> m) m0 l).
Proof.
  revert m0. induction l as [|d l IH]; intros m0 Hf Hnd Hnone; [done|]. simpl.
  inversion Hf as [|? ? Hd Hf']; subst. inversion Hnd as [|? ? Hni Hnd']; subst.
  assert (Remote.load_device m0 d = Ok (<[dv_device_id d := d]> m0)) as ->.
  { destruct Hd as (_ & Hn & [h Hh] & Ht & _). unfold Remote.load_device. rewrite Hn. simpl.
    rewrite Hnone by left. rewrite Hh. repeat (case_bool_decide; [naive_solver|]); simpl.
    destruct (N.ltb_spec (dv_last_activity_at d) (dv_created_at d)); [lia|].
    destruct (N.ltb_spec (dv_expires_at d) (dv_last_activity_at d)); [lia|].
    done. }
  simpl. apply IH; [done|done|]. intros d' Hd'. rewrite lookup_insert_ne; [apply Hnone; by right|].
  intros He. apply Hni. rewrite He. apply list_elem_of_fmap. eauto.
Qed.

Lemma foldl_insert_lookup (l : list StoredDevice) (m0 : gmap string StoredDevice) id :
  NoDup (dv_device_id <$> l) →
  foldl (λ m d, <[dv_device_id d := d]> m) m0 l !! id =
  match List.find (λ d, (dv_device_id d =? id)%string) l with Some d => Some d | None => m0 !! id end.
Proof.
  revert m0. induction l as [|d l IH]; intros m0 Hnd; [done|]. simpl.
  inversion Hnd as [|? ? Hni Hnd']; subst. rewrite IH by done.
  destruct (String.eqb_spec (dv_device_id d) id) as [<-|Hne].
  - destruct (List.find _ l) as [d'|] eqn:Hf; [|by rewrite lookup_insert_eq].
    apply List.find_some in Hf as [Hin He%String.eqb_eq]. exfalso. apply Hni.
    apply list_elem_of_fmap. exists d'. split; [done|]. by apply list_elem_of_In.
  - destruct (List.find _ l); [done|]. by rewrite lookup_insert_ne.
Qed.

Lemma load_document_ok s : state_ok s →
  Remote.load_document (Remote.document s) = Ok (Remote.set_pairing None s).
Proof.
  intros Hs. unfold Remote.load_document, Remote.document. simpl st_version. simpl st_devices. simpl st_revision.
  rewrite length_btree_values. pose proof (state_size _ Hs) as Hsize.
  destruct (N.ltb_spec (N.of_nat MAX_DEVICES) (N.of_nat (size (rs_devices s)))) as [|_]; [lia|]. simpl negb. cbn [orb].
  rewrite load_devices.
  - simpl. unfold Remote.set_pairing. do 2 f_equal. apply map_eq. intros id.
    rewrite foldl_insert_lookup by (by apply ids_NoDup). rewrite lookup_empty.
    destruct (List.find _ _) as [d|] eqn:Hf.
    + apply List.find_some in Hf as [Hin He%String.eqb_eq].
      apply list_elem_of_In, elem_of_btree_values in Hin as [k Hk].
      destruct (state_device _ Hs _ _ Hk) as [Hid _]. congruence.
    + destruct (rs_devices s !! id) as [d|] eqn:Hd; [|done]. exfalso.
      pose proof (List.find_none _ _ Hf d) as Hn. simpl in Hn.
      destruct (state_device _ Hs _ _ Hd) as [Hid _]. rewrite Hid, String.eqb_refl in Hn.
      assert (List.In d (btree_values (rs_devices s))) as Hin; [|by apply Hn in Hin].
      apply list_elem_of_In, elem_of_btree_values. eauto.
  - apply Forall_forall. intros d [k Hk]%elem_of_btree_values. by apply (state_device _ Hs) in Hk as [_ ?].
  - by apply ids_NoDup.
  - intros d _. apply lookup_empty.
Qed.

(** ** Pruning *)

Lemma to_prune_inactive s now c id : state_ok s → (c, id) ∈ to_prune s now →
  ∃ d, rs_devices s !! id = Some d ∧ inactive now d = true.
Proof.
  intros Hs Hin. unfold to_prune in Hin. apply elem_of_take in Hin as (i & Hi & _).
  apply list_elem_of_lookup_2 in Hi. rewrite merge_sort_Permutation in Hi.
  apply list_elem_of_fmap in Hi as (d & [= -> ->] & Hd).
  apply list_elem_of_filter in Hd as [Ha [k Hk]%elem_of_btree_values].
  exists d. destruct (state_device _ Hs _ _ Hk) as [-> _]. done.
Qed.

Lemma foldl_delete_lookup {V} (l : list (N * string)) (m : gmap string V) id :
  foldl (λ m p, delete p.2 m) m l !! id = if decide (id ∈ l.*2) then None else m !! id.
Proof.
  revert m. induction l as [|[c k] l IH]; intros m.
  - destruct (decide _) as [Hi|]; [by apply not_elem_of_nil in Hi|done].
  - cbn [foldl]. rewrite IH. rewrite fmap_cons. cbn [snd].
    destruct (decide (id ∈ l.*2)) as [Hi|Hi], (decide (id ∈ k :: l.*2)) as [Hi'|Hi']; try done.
    + exfalso. apply Hi'. by right.
    + apply elem_of_cons in Hi' as [->|]; [apply lookup_delete_eq|done].
    + apply lookup_delete_ne. intros ->. apply Hi'. left.
Qed.

Lemma prune_lookup s now id :
  rs_devices (prune_inactive_devices s now) !! id =
  if decide (id ∈ (to_prune s now).*2) then None else rs_devices s !! id.
Proof. unfold prune_inactive_devices. simpl. apply foldl_delete_lookup. Qed.

(** What is pruned is inactive, and the state stays well-formed. *)
Lemma prune_keeps s now id d : state_ok s → rs_devices s !! id = Some d → inactive now d = false →
  rs_devices (prune_inactive_devices s now) !! id = Some d.
Proof.
  intros Hs Hd Ha. rewrite prune_lookup. rewrite decide_False; [done|].
  intros ([c id'] & -> & Hin)%list_elem_of_fmap. simpl in *.
  destruct (to_prune_inactive _ _ _ _ Hs Hin) as (d' & Hd' & Ha'). congruence.
Qed.

Lemma prune_from s now id d : rs_devices (prune_inactive_devices s now) !! id = Some d →
  rs_devices s !! id = Some d.
Proof. rewrite prune_lookup. by case_decide. Qed.

Lemma state_ok_prune s now : state_ok s → state_ok (prune_inactive_devices s now).
Proof.
  intros Hs. split.
  - etransitivity; [|apply (state_size _ Hs)]. apply map_subseteq_size, map_subseteq_spec.
    intros id d. apply prune_from.
  - apply (state_revision _ Hs).
  - intros id d Hd%prune_from. by apply (state_device _ Hs).
Qed.

Lemma merge_sort_nil_inv {A} (R : relation A) `{∀ x y, Decision (R x y)} l : merge_sort R l = [] → l = [].
Proof. intros Hm. apply Permutation_nil_r. rewrite <- Hm. symmetry. apply merge_sort_Permutation. Qed.

(** No room is left only when all of the [MAX_DEVICES] devices are active. *)
Lemma prune_full s now : state_ok s →
  (MAX_DEVICES ≤ size (rs_devices (prune_inactive_devices s now)))%nat ↔
  size (rs_devices s) = MAX_DEVICES ∧ ∀ id d, rs_devices s !! id = Some d → inactive now d = false.
Proof.
  intros Hs. pose proof (state_size _ Hs) as Hsize. split.
  - intros Hfull. assert (size (rs_devices (prune_inactive_devices s now)) ≤ size (rs_devices s))%nat as Hle.
    { apply map_subseteq_size, map_subseteq_spec. intros id d. apply prune_from. }
    split; [lia|]. intros id d Hd. destruct (inactive now d) eqn:Ha; [|done]. exfalso.
    assert (size (rs_devices s) = MAX_DEVICES) as Heq by lia.
    assert ((dv_created_at d, dv_device_id d) ∈ merge_sort older
      ((λ d, (dv_created_at d, dv_device_id d)) <$>
        filter (λ d, inactive now d = true) (btree_values (rs_devices s)))) as Hin.
    { rewrite merge_sort_Permutation. apply list_elem_of_fmap. exists d. split; [done|].
      apply list_elem_of_filter. split; [done|]. apply elem_of_btree_values. eauto. }
    destruct (to_prune s now) as [|[c id'] rest] eqn:Htp.
    + unfold to_prune in Htp. rewrite Heq in Htp. replace (S MAX_DEVICES - MAX_DEVICES)%nat with 1%nat in Htp by lia.
      destruct (merge_sort _ _); [by apply not_elem_of_nil in Hin|done].
    + assert ((c, id') ∈ to_prune s now) as Hp by (rewrite Htp; left).
      destruct (to_prune_inactive _ _ _ _ Hs Hp) as (d' & Hd' & _).
      assert (rs_devices (prune_inactive_devices s now) ⊆ delete id' (rs_devices s)) as Hsub.
      { apply map_subseteq_spec. intros k dk. rewrite prune_lookup. case_decide as Hk; [done|].
        intros Hdk. rewrite lookup_delete_ne; [done|]. intros <-. apply Hk. rewrite Htp. left. }
      apply map_subseteq_size in Hsub. rewrite map_size_delete_Some in Hsub by eauto.
      unfold MAX_DEVICES in *. lia.
  - intros [Heq Hall]. rewrite <- Heq. apply map_subseteq_size, map_subseteq_spec.
    intros id d Hd. apply prune_keeps; eauto.
Qed.
