(* ===== verification/RemoteRunFacts.v ===== *)
(** * Facts about runs of remote access, and the codec of its witnesses

    What the exchanges of a run may have given away, what a restart reads back, and
    a concrete codec of the store with its laws: numbers take eight bytes, strings a
    length byte before their bytes, and the hash keeps the last 32 bytes of its
    input. *)

From S2P Require Import Prelude RemoteAccess RemoteFacts.

#[local] Open Scope N_scope.

#[export] Instance StoreNode_eq_dec : EqDecision StoreNode.
Proof. solve_decision. Defined.

(** SHA-256 gives 32 bytes; serde_json reads back the document of a well-formed
    state, and writes at most a mebibyte for 256 devices with short names. *)
Class RemoteCodecLaws `{RemoteCodec} : Prop := {
  sha256_length l : length (sha256 l) = 32%nat;
  store_reads s : state_ok s → ∃ bytes, store_text (Remote.document s) = Ok bytes ∧
    store_of_text bytes = Ok (Remote.document s) ∧ N.of_nat (length bytes) <= MAX_STORE_BYTES;
}.

Section store.
Context `{RemoteCodecLaws}.
Context (name : string) (display : string → string) (already_exists link_loop : string).
#[local] Set Default Proof Using "Type*".

Abbreviation load_state := (Remote.load_state name display link_loop).
Abbreviation save := (Remote.save name display already_exists).
Abbreviation persist := (Remote.persist name display already_exists).

(** The file of the store holds the document of [s]. *)
Definition on_disk (files : gmap string StoreNode) (s : RemoteState) : Prop :=
  files !! name = None ∧ rs_devices s = ∅ ∧ rs_revision s = 0 ∨
  ∃ bytes, files !! name = Some (StoreFile true 384 bytes) ∧ store_text (Remote.document s) = Ok bytes.

Lemma temporary_ne env : Remote.temporary name env ≠ name.
Proof.
  unfold Remote.temporary. intros Heq. apply (f_equal String.length) in Heq. revert Heq.
  generalize (re_uuid env 2). intros u. simpl.
  assert (∀ a b, String.length (a +:+ b) = (String.length a + String.length b)%nat) as Ha.
  { intros a b. induction a as [|x a IH]; [done|]. 
    change (S (String.length (a +:+ b)) = S (String.length a + String.length b))%nat. by rewrite IH. }
  rewrite !Ha. simpl. lia.
Qed.

Lemma persist_spec env s files : state_ok s →
  let '(r, files') := persist env s files in
  match r with
  | Ok _ => on_disk files' s
  | Err _ => files' !! name = files !! name ∨ on_disk files' s
  end.
Proof.
  intros Hs. unfold Remote.persist. destruct (Remote.io _ env 3 _ _) as [|e]; [|by left].
  destruct (store_reads s Hs) as (bytes & Ht & _). rewrite Ht.
  pose proof (temporary_ne env) as Hne. unfold Remote.write_store.
  assert (∀ files', files' !! name = files !! name →
    let f := match re_fault env 10 with Some _ => files' | None => delete (Remote.temporary name env) files' end in
    f !! name = files !! name ∨ on_disk f s) as Hfail.
  { intros files' Hf. left. destruct (re_fault env 10); [done|]. by rewrite lookup_delete_ne. }
  destruct (Remote.io _ env 4 _ _) as [|e]; [|by apply Hfail].
  destruct (files !! Remote.temporary name env) eqn:Hex; [by apply Hfail|].
  destruct (Remote.io _ env 5 _ _) as [|e]; [|by apply Hfail; rewrite lookup_insert_ne].
  destruct (Remote.io _ env 6 _ _) as [|e]; [|by apply Hfail; rewrite lookup_insert_ne].
  destruct (Remote.io _ env 7 _ _) as [|e]; [|by apply Hfail; rewrite lookup_insert_ne].
  assert (on_disk (<[name:=StoreFile true 384 bytes]> (delete (Remote.temporary name env) files)) s) as Hd.
  { right. exists bytes. by rewrite lookup_insert_eq. }
  destruct (_ ← _; _) as [[]|e]; [done|]. right. destruct (re_fault env 10); [done|].
  destruct Hd as [(Hn & _)|Hd]; [by rewrite lookup_insert_eq in Hn|].
  right. rewrite lookup_delete_ne by done. exact Hd.
Qed.

(** Without a fault, opening reads what is on the disk. *)
Lemma load_on_disk env files s : state_ok s → on_disk files s →
  (∀ i, (i < 3)%nat → re_fault env i = None) → load_state env files = Ok (Remote.set_pairing None s).
Proof.
  intros Hs Hd Hf. unfold Remote.load_state, Remote.io. rewrite !Hf by lia. simpl.
  destruct Hd as [(Hn & Hdev & Hrev)|(bytes & Hn & Ht)]; rewrite Hn.
  - destruct s as [rev dev p]. simpl in *. by subst.
  - destruct (store_reads s Hs) as (bytes' & Ht' & Hr & Hl). assert (bytes' = bytes) as -> by congruence.
    destruct (N.ltb_spec MAX_STORE_BYTES (N.of_nat (length bytes))); [lia|]. simpl.
    rewrite Hr. simpl. by apply load_document_ok.
Qed.

(** And with one, it reads that or fails. *)
Lemma load_reads env files s s' : state_ok s → on_disk files s → load_state env files = Ok s' →
  s' = Remote.set_pairing None s.
Proof.
  intros Hs Hd. unfold Remote.load_state.
  destruct Hd as [(Hn & Hdev & Hrev)|(bytes & Hn & Ht)]; rewrite Hn.
  - destruct (Remote.io _ env 0 _ _); simpl; [|done]. intros [= <-].
    destruct s as [rev dev p]. simpl in *. by subst.
  - destruct (Remote.io _ env 0 _ _); simpl; [|done]. destruct (Remote.io _ env 1 _ _); simpl; [|done].
    destruct (store_reads s Hs) as (bytes' & Ht' & Hr & Hl). assert (bytes' = bytes) as -> by congruence.
    destruct (N.ltb_spec MAX_STORE_BYTES (N.of_nat (length bytes))); [lia|]. simpl.
    destruct (Remote.io _ env 2 _ _); simpl; [|done]. rewrite Hr. simpl. rewrite (load_document_ok s Hs). congruence.
Qed.

Lemma save_spec env c w : state_ok c →
  let '(r, w') := save env c w in
  rw_config w' = rw_config w ∧
  match r with
  | Ok _ => rw_state w' = c ∧ on_disk (rw_files w') c
  | Err _ => rw_state w' = rw_state w ∧
             (rw_files w' !! name = rw_files w !! name ∨ on_disk (rw_files w') c)
  end.
Proof.
  intros Hc. unfold Remote.save. pose proof (persist_spec env c (rw_files w) Hc) as Hp.
  destruct (persist env c (rw_files w)) as [[[]|e] files]; simpl in *; auto.
Qed.
End store.

(** ** Candidates *)

Lemma u64_saturating_add_u64 a b : is_u64 (u64_saturating_add a b).
Proof. unfold is_u64, u64_saturating_add. lia. Qed.

Lemma state_ok_change f id s d : state_ok s → rs_devices s !! id = Some d →
  dv_device_id (f d) = id → device_ok (f d) → state_ok (Remote.change_device f id s).
Proof.
  intros [Hz Hr Hs] Hd Hi Hf. split; simpl.
  - by rewrite <- size_dom, dom_alter_L, size_dom.
  - apply u64_saturating_add_u64.
  - intros id' d' [(<- & d1 & Hd1 & ->)|[_ Hd']]%lookup_alter_Some; [|by apply Hs].
    assert (d1 = d) as -> by congruence. done.
Qed.

Lemma revoked_ok now d : is_u64 now → device_ok d → device_ok (Remote.revoke_device now d).
Proof. intros Hn (? & ? & ? & [? ?] & ? & ?). split_and!; simpl; done. Qed.

Lemma touched_ok now d : device_ok d → dv_last_activity_at d <= now < dv_expires_at d →
  device_ok (Remote.touch now d).
Proof. intros (? & ? & ? & [? ?] & ? & ?) Hn. split_and!; simpl; try done; lia. Qed.
(** ** Runs *)

(** What happened in one step.  [LExchanged true]: a device was paired;
    [LExchanged false]: the exchange failed while it replaced the file.
    [LUnsynced]: another write did. *)
Inductive remote_label :=
| LIssued (token : string) (expires_at : N)
| LExchanged (ok : bool) (id token secret : string) (expires_at : N)
| LAuthenticated (id secret : string) (now : N)
| LRevoked (id : string)
| LRevokedAll
| LRestarted
| LUnsynced
| LOther.

Definition env_ok (env : RemoteEnv) : Prop := is_u64 (re_now env) ∧ uuid_text (re_uuid env 3).

Section runs.
Context `{RemoteCodec}.
Context (name : string) (display : string → string) (already_exists link_loop : string).

Definition exchanged (env : RemoteEnv) (token : string) (w w' : RemoteWorld)
    (r : result RemoteAccessError IssuedRemoteSession) : remote_label :=
  match r with
  | Ok s => LExchanged true (dd_device_id (is_device s)) token (is_session_secret s) (dd_expires_at (is_device s))
  | Err _ =>
      match add_duration (re_now env) (rc_session_ttl (rw_config w)) with
      | Ok expires_at =>
          if decide (rw_files w' !! name = rw_files w !! name) then LOther
          else LExchanged false (re_uuid env 3) token (random_secret "tvs" env) expires_at
      | Err _ => LOther
      end
  end.

(** A call that fails, perhaps after it has replaced the file. *)
Definition unsaved (w w' : RemoteWorld) : remote_label :=
  if decide (rw_files w' !! name = rw_files w !! name) then LOther else LUnsynced.

(** The operations, and the end of the process with a new start over the files. *)
Inductive remote_step : RemoteWorld → remote_label → RemoteWorld → Prop :=
| step_issue env w r w' : env_ok env → Remote.issue_pairing env w = (r, w') →
    remote_step w (match r with Ok p => LIssued (pt_token p) (pt_expires_at p) | Err _ => LOther end) w'
| step_exchange env token device_name w r w' : env_ok env →
    Remote.exchange_pairing name display already_exists env token device_name w = (r, w') →
    remote_step w (exchanged env token w w' r) w'
| step_authenticate env secret w r w' : env_ok env →
    Remote.authenticate name display already_exists env secret w = Some (r, w') →
    remote_step w (match r with Ok c => LAuthenticated (dc_device_id c) secret (re_now env) | Err _ => unsaved w w' end) w'
| step_revoke env id w r w' : env_ok env →
    Remote.revoke name display already_exists env id w = (r, w') →
    remote_step w (match r with Ok _ => LRevoked id | Err _ => unsaved w w' end) w'
| step_revoke_all env w r w' : env_ok env →
    Remote.revoke_all name display already_exists env w = (r, w') →
    remote_step w (match r with Ok _ => LRevokedAll | Err _ => unsaved w w' end) w'
| step_attach w : remote_step w LOther (Remote.attach_disconnects w)
| step_restart env config w w' : env_ok env →
    Remote.open name display link_loop env config (rw_files w) = Ok w' → remote_step w LRestarted w'.

(** A run from the first start, without a file. *)
Inductive remote_run : list remote_label → RemoteWorld → Prop :=
| run_start env config files w : files !! name = None →
    Remote.open name display link_loop env config files = Ok w → remote_run [] w
| run_step labels w l w' : remote_run labels w → remote_step w l w' → remote_run (labels ++ [l]) w'.

(** ** What a run says about a device, and about the pairing *)

Definition revokes (id : string) (l : remote_label) : Prop :=
  match l with LRevoked id' => id' = id | LRevokedAll => True | _ => False end.

(** Device [id] got its secret in an exchange, and when that had succeeded it was not
    revoked since. *)
Definition paired (labels : list remote_label) (id secret_hash : string) (expires_at : N) : Prop :=
  ∃ ok token secret before after,
    labels = before ++ LExchanged ok id token secret expires_at :: after ∧
    secret_hash = hex_hash (Remote.hash_secret secret) ∧
    (ok = true → Forall (λ l, ¬ revokes id l) after).
Definition lost (labels : list remote_label) (id secret_hash : string) (expires_at : N) : Prop :=
  ∃ token secret, LExchanged false id token secret expires_at ∈ labels ∧
    secret_hash = hex_hash (Remote.hash_secret secret).

(** Whoever could use the pairing up. *)
Definition spends (l : remote_label) : Prop :=
  match l with LIssued _ _ | LExchanged true _ _ _ _ | LRestarted => True | _ => False end.
Definition issued (labels : list remote_label) (token_hash : hash) (expires_at : N) : Prop :=
  ∃ token before after, labels = before ++ LIssued token expires_at :: after ∧
    token_hash = Remote.hash_secret token ∧ Forall (λ l, ¬ spends l) after.

Lemma paired_snoc labels l id h e : paired labels id h e → ¬ revokes id l → paired (labels ++ [l]) id h e.
Proof.
  intros (ok & token & secret & before & after & -> & Hh & Ha) Hl.
  exists ok, token, secret, before, (after ++ [l]). split; [by rewrite <- app_assoc|]. split; [done|].
  intros Hok. apply Forall_app. split; [by apply Ha|]. by repeat constructor.
Qed.

Lemma lost_snoc labels l id h e : lost labels id h e → lost (labels ++ [l]) id h e.
Proof.
  intros (token & secret & Hin & Hh). exists token, secret. split; [|done]. apply elem_of_app. by left.
Qed.

Lemma lost_paired labels id h e : lost labels id h e → paired labels id h e.
Proof.
  intros (token & secret & (before & after & ->)%list_elem_of_split & Hh).
  by exists false, token, secret, before, after.
Qed.

Lemma issued_snoc labels l h e : issued labels h e → ¬ spends l → issued (labels ++ [l]) h e.
Proof.
  intros (token & before & after & -> & Hh & Ha) Hl. exists token, before, (after ++ [l]).
  split; [by rewrite <- app_assoc|]. split; [done|]. apply Forall_app. split; [done|]. by repeat constructor.
Qed.

Definition unrevoked (d : StoredDevice) : Prop := dv_revoked_at d = None.
Definition same_session (d d' : StoredDevice) : Prop :=
  dv_secret_hash d' = dv_secret_hash d ∧ dv_expires_at d' = dv_expires_at d ∧ dv_revoked_at d' = dv_revoked_at d.

(** Every unrevoked device of [s] is one of [s0], or was lost. *)
Definition from_memory (labels : list remote_label) (s s0 : RemoteState) : Prop :=
  ∀ id d, rs_devices s !! id = Some d → unrevoked d →
    (∃ d0, rs_devices s0 !! id = Some d0 ∧ same_session d0 d) ∨
    lost labels id (dv_secret_hash d) (dv_expires_at d).

(** The device that an exchange adds. *)
Definition new_device (env : RemoteEnv) (device_name : string) (expires_at : N) : StoredDevice :=
  mkDevice (re_uuid env 3) device_name (hex_hash (Remote.hash_secret (random_secret "tvs" env)))
    (re_now env) (re_now env) expires_at None.

(** What a write from [s] may have been about. *)
Inductive attempted (s : RemoteState) : RemoteState → Prop :=
| tried_exchange env dn expires_at : attempted s
    (Remote.add_device (new_device env dn expires_at) (prune_inactive_devices s (re_now env)))
| tried_authenticate now id : attempted s (Remote.change_device (Remote.touch now) id s)
| tried_revoke now id : attempted s (Remote.change_device (Remote.revoke_device now) id s)
| tried_revoke_all now : attempted s
    (mkRemoteState (u64_saturating_add (rs_revision s) 1)
       ((λ d, if Remote.live d then Remote.revoke_device now d else d) <$> rs_devices s) (rs_pairing s)).

(** A write failed after it had replaced the file, and since then no exchange
    succeeded and the process was not restarted. *)
Definition unsynced (l : remote_label) : Prop :=
  match l with LUnsynced | LExchanged false _ _ _ _ => True | _ => False end.
Definition resyncs (l : remote_label) : Prop :=
  match l with LExchanged true _ _ _ _ | LRestarted => True | _ => False end.
Definition behind (labels : list remote_label) : Prop :=
  ∃ before l after, labels = before ++ l :: after ∧ unsynced l ∧ Forall (λ l, ¬ resyncs l) after.

(** The state [s] of the file is that of the memory, or one write ahead of it. *)
Definition in_step (labels : list remote_label) (s0 s : RemoteState) : Prop :=
  Remote.set_pairing None s = Remote.set_pairing None s0 ∨
  attempted (Remote.set_pairing None s0) (Remote.set_pairing None s) ∧ behind labels.

Lemma attempted_unpaired s c :
  attempted s c → attempted (Remote.set_pairing None s) (Remote.set_pairing None c).
Proof.
  destruct 1 as [env dn e|now id|now id|now].
  - exact (tried_exchange (Remote.set_pairing None s) env dn e).
  - exact (tried_authenticate (Remote.set_pairing None s) now id).
  - exact (tried_revoke (Remote.set_pairing None s) now id).
  - exact (tried_revoke_all (Remote.set_pairing None s) now).
Qed.

Lemma behind_last labels l : unsynced l → behind (labels ++ [l]).
Proof. intros Hl. by exists labels, l, []. Qed.

Lemma in_step_snoc labels l s0 s : in_step labels s0 s → ¬ resyncs l → in_step (labels ++ [l]) s0 s.
Proof.
  intros [He|[Ha (before & x & after & -> & Hx & Hafter)]] Hl; [by left|right]. split; [done|].
  exists before, x, (after ++ [l]). split; [by rewrite <- app_assoc|]. split; [done|].
  apply Forall_app. split; [done|]. by repeat constructor.
Qed.

Lemma spends_resyncs l : ¬ spends l → ¬ resyncs l.
Proof. by destruct l as [| []| | | | | |]. Qed.

Record run_ok (labels : list remote_label) (w : RemoteWorld) : Prop := {
  run_state : state_ok (rw_state w);
  run_devices id d : rs_devices (rw_state w) !! id = Some d → unrevoked d →
    paired labels id (dv_secret_hash d) (dv_expires_at d);
  run_pairing p : rs_pairing (rw_state w) = Some p → issued labels (sp_token_hash p) (sp_expires_at p);
  run_disk : ∃ s, on_disk name (rw_files w) s ∧ state_ok s ∧ from_memory labels s (rw_state w) ∧
    in_step labels (rw_state w) s;
}.

Lemma on_disk_same files files' s : files' !! name = files !! name → on_disk name files s → on_disk name files' s.
Proof. unfold on_disk. by intros ->. Qed.

Lemma from_memory_refl labels s : from_memory labels s s.
Proof. intros id d Hd _. left. by exists d. Qed.

Lemma from_memory_snoc labels l s s0 : from_memory labels s s0 → from_memory (labels ++ [l]) s s0.
Proof. intros Hf id d Hd Hu. destruct (Hf id d Hd Hu); eauto using lost_snoc. Qed.

(** A step that leaves the state and the file. *)
Lemma ok_idle labels w w' l : run_ok labels w → rw_state w' = rw_state w →
  rw_files w' !! name = rw_files w !! name → ¬ spends l →
  (∀ id d, rs_devices (rw_state w) !! id = Some d → unrevoked d → ¬ revokes id l) →
  run_ok (labels ++ [l]) w'.
Proof.
  intros [Hs Hd Hp Hk] He Hf Hn Hr. constructor; rewrite ?He.
  - done.
  - intros id d Hid Hu. apply paired_snoc; eauto.
  - intros p Hpp. apply issued_snoc; eauto.
  - destruct Hk as (s & Hs1 & Hs2 & Hs3 & Hs4). exists s.
    split_and!; [by eapply on_disk_same|done|by apply from_memory_snoc|].
    apply in_step_snoc; [done|by apply spends_resyncs].
Qed.

Lemma ok_other labels w w' : run_ok labels w → rw_state w' = rw_state w →
  rw_files w' !! name = rw_files w !! name → run_ok (labels ++ [LOther]) w'.
Proof. intros Hr He Hf. apply (ok_idle labels w); auto. Qed.

(** A save that succeeds. *)
Lemma ok_saved labels w' l c : rw_state w' = c → on_disk name (rw_files w') c → state_ok c →
  (∀ id d, rs_devices c !! id = Some d → unrevoked d →
     paired (labels ++ [l]) id (dv_secret_hash d) (dv_expires_at d)) →
  (∀ p, rs_pairing c = Some p → issued (labels ++ [l]) (sp_token_hash p) (sp_expires_at p)) →
  run_ok (labels ++ [l]) w'.
Proof.
  intros He Hf Hs Hd Hp. constructor; rewrite ?He; try done.
  exists c. split_and!; [done|done|apply from_memory_refl|by left].
Qed.

(** A save that fails: the file is the old one or the candidate. *)
Lemma ok_unsaved labels w w' l c : run_ok labels w → state_ok c → rw_state w' = rw_state w →
  (rw_files w' !! name = rw_files w !! name ∨ on_disk name (rw_files w') c) →
  unsynced l → attempted (rw_state w) c → from_memory (labels ++ [l]) c (rw_state w) →
  run_ok (labels ++ [l]) w'.
Proof.
  intros Hr Hc He Hf Hl Ha Hfrom.
  assert (¬ spends l ∧ ∀ id, ¬ revokes id l) as [Hn Hv] by (by destruct l as [|[]| | | | | |]; split; auto).
  destruct Hf as [Hf|Hf].
  - by apply (ok_idle labels w).
  - destruct Hr as [Hs Hd Hp Hk]. constructor; rewrite ?He.
    + done.
    + intros id d Hid Hu. apply paired_snoc; eauto.
    + intros p Hpp. apply issued_snoc; eauto.
    + exists c. split_and!; [done..|]. right. split; [by apply attempted_unpaired|by apply behind_last].
Qed.

(** A call that fails without a write. *)
Lemma ok_failed labels w : run_ok labels w → run_ok (labels ++ [unsaved w w]) w.
Proof. intros Hr. unfold unsaved. rewrite decide_True by done. by apply (ok_other labels w). Qed.


Context {Hlaws : RemoteCodecLaws}.
#[local] Set Default Proof Using "Type*".

(** ** Each operation keeps the invariant *)

Lemma hash_secret_length secret : length (Remote.hash_secret secret) = 32%nat.
Proof. apply sha256_length. Qed.

Lemma issue_ok labels env w r w' : run_ok labels w → Remote.issue_pairing env w = (r, w') →
  run_ok (labels ++ [match r with Ok p => LIssued (pt_token p) (pt_expires_at p) | Err _ => LOther end]) w'.
Proof.
  intros Hr. unfold Remote.issue_pairing. destruct (_ ← _; _) as [e|]; intros [= <- <-]; simpl.
  - destruct Hr as [Hs Hd Hp (s & Hk1 & Hk2 & Hk3 & Hk4)]. constructor; simpl.
    + by apply state_ok_pairing.
    + intros id d Hid Hu. apply paired_snoc; eauto.
    + intros p [= <-]. by exists (random_secret "tvp" env), labels, [].
    + exists s. split_and!; [done|done|by apply from_memory_snoc|]. by apply in_step_snoc; [|intros []].
  - by apply (ok_other labels w).
Qed.

(** What a save leaves that succeeds, and one that fails. *)
Lemma save_cases labels env w c r w' l : run_ok labels w → state_ok c →
  Remote.save name display already_exists env c w = (r, w') →
  rw_config w' = rw_config w ∧
  match r with
  | Ok _ => rw_state w' = c ∧ on_disk name (rw_files w') c
  | Err _ => (unsynced l → attempted (rw_state w) c → from_memory (labels ++ [l]) c (rw_state w) →
              run_ok (labels ++ [l]) w') ∧ rw_state w' = rw_state w
  end.
Proof.
  intros Hr Hc Hs. pose proof (save_spec name display already_exists env c w Hc) as Hsp. rewrite Hs in Hsp.
  destruct Hsp as [Hcfg Hsp]. split; [done|]. destruct r; [done|]. destruct Hsp as [He Hf].
  split; [|done]. intros. by apply (ok_unsaved labels w w' l c).
Qed.

Lemma save_failed labels env w c e w' : run_ok labels w → state_ok c →
  Remote.save name display already_exists env c w = (Err e, w') → attempted (rw_state w) c →
  (∀ labels, from_memory labels c (rw_state w)) → run_ok (labels ++ [unsaved w w']) w'.
Proof.
  intros Hr Hc Hs Ha Hfrom. destruct (save_cases _ _ _ _ _ _ LUnsynced Hr Hc Hs) as (_ & Hgo & He).
  unfold unsaved. case_decide as Hf; [by apply (ok_other labels w)|]. by apply Hgo.
Qed.

Lemma state_ok_add env w token dn s expires : state_ok s → env_ok env →
  validate_device_name dn = Ok tt → u64_checked_add (re_now env) token = Some expires →
  (size (rs_devices s) < MAX_DEVICES)%nat →
  state_ok (Remote.add_device (mkDevice (re_uuid env 3) dn
     (hex_hash (Remote.hash_secret w)) (re_now env) (re_now env) expires None) s).
Proof.
  intros [Hz Hr Hs] [Hn Hu] Hv [-> He]%u64_checked_add_Some Hlt. split; simpl.
  - rewrite map_size_insert. destruct (rs_devices s !! _); simpl; lia.
  - apply u64_saturating_add_u64.
  - intros id d [[<- <-]|[_ Hd]]%lookup_insert_Some; [|by apply Hs]. split; [done|].
    unfold device_ok. simpl. rewrite decode_hex_hash by apply hash_secret_length.
    split_and!; try done; lia.
Qed.

Lemma exchange_ok labels env token dn w r w' : run_ok labels w → env_ok env →
  Remote.exchange_pairing name display already_exists env token dn w = (r, w') →
  run_ok (labels ++ [exchanged env token w w' r]) w'.
Proof.
  intros Hr Henv. unfold Remote.exchange_pairing.
  assert (∀ e, run_ok (labels ++ [exchanged env token w w (Err e)]) w) as Hsame.
  { intros e. unfold exchanged. destruct (add_duration _ _); [rewrite decide_True by done|];
      by apply (ok_other labels w). }
  destruct (_ ← _; _) as [[]|e] eqn:Hchecks; [|by intros [= <- <-]].
  assert (validate_device_name dn = Ok tt) as Hdn.
  { apply bind_Ok in Hchecks as (? & _ & Hc). by apply bind_Ok in Hc as (? & _ & Hc). }
  destruct (rs_pairing (rw_state w)) as [p|] eqn:Hp; [|by intros [= <- <-]].
  destruct (sp_expires_at p <=? re_now env).
  { intros [= <- <-]. unfold exchanged.
    pose proof Hr as [Hs Hd _ (s & Hk1 & Hk2 & Hk3 & Hk4)].
    assert (∀ l, l = LOther → run_ok (labels ++ [l])
      (Remote.with_state (Remote.set_pairing None (rw_state w)) w)) as Hgo.
    { intros l ->. constructor; simpl; [by apply state_ok_pairing| |done|].
      - intros id d Hid Hu. apply paired_snoc; eauto.
      - exists s. split_and!; [done|done|by apply from_memory_snoc|]. by apply in_step_snoc; [|intros []]. }
    destruct (add_duration _ _); [rewrite decide_True by done|]; by apply Hgo. }
  destruct (negb (constant_time_eq _ _)); [by intros [= <- <-]|].
  destruct (MAX_DEVICES <=? _)%nat eqn:Hfull; [by intros [= <- <-]|].
  destruct (add_duration _ _) as [expires|e] eqn:Hdur; [|by intros [= <- <-]; apply Hsame].
  assert (u64_checked_add (re_now env) (N.min (rc_session_ttl (rw_config w) / 10 ^ 6) U64_MAX) = Some expires) as Hadd.
  { unfold add_duration in Hdur. by apply ok_or_Ok in Hdur. }
  apply Nat.leb_gt in Hfull.
  set (stored := mkDevice _ _ _ _ _ _ _).
  set (c := Remote.add_device stored (prune_inactive_devices (rw_state w) (re_now env))).
  assert (state_ok c) as Hc.
  { eapply state_ok_add; try done. by apply state_ok_prune, (run_state _ _ Hr). }
  destruct (Remote.save _ _ _ env c w) as [[[]|e] w1] eqn:Hsave; intros [= <- <-].
  - destruct (save_cases _ _ _ _ _ _ LOther Hr Hc Hsave) as (_ & He & Hf).
    unfold exchanged. cbn [is_device dd_device_id descriptor dv_device_id stored is_session_secret dd_expires_at dv_expires_at].
    apply (ok_saved labels _ _ c); [exact He|exact Hf|done| |done].
    intros id d Hd Hu. unfold c, Remote.add_device in Hd. cbn [rs_devices] in Hd.
    apply lookup_insert_Some in Hd as [[<- <-]|[Hne Hd]].
    + by exists true, token, (random_secret "tvs" env), labels, [].
    + apply paired_snoc; [|intros []]. apply (run_devices _ _ Hr); [|done]. by eapply prune_from.
  - unfold exchanged. rewrite Hdur. case_decide as Hsamefile.
    + pose proof (save_spec name display already_exists env c w Hc) as Hsp. rewrite Hsave in Hsp.
      destruct Hsp as [_ [He _]]. by apply (ok_other labels w).
    + destruct (save_cases _ _ _ _ _ _ (LExchanged false (re_uuid env 3) token (random_secret "tvs" env) expires)
        Hr Hc Hsave) as (_ & Hgo & _).
      apply Hgo; [done|exact (tried_exchange _ env dn expires)|].
      intros id d Hd Hu. unfold c, Remote.add_device in Hd. cbn [rs_devices] in Hd.
      apply lookup_insert_Some in Hd as [[<- <-]|[Hne Hd]].
      * right. exists token, (random_secret "tvs" env). split; [|done]. apply elem_of_app. right. left.
      * left. exists d. split; [by eapply prune_from|done].
Qed.

Lemma change_lookup f id0 s id d : rs_devices (Remote.change_device f id0 s) !! id = Some d →
  (id0 = id ∧ ∃ d0, rs_devices s !! id = Some d0 ∧ d = f d0) ∨ (id0 ≠ id ∧ rs_devices s !! id = Some d).
Proof. cbn. intros [(-> & ? & ? & ?)|[]]%lookup_alter_Some; eauto. Qed.

Lemma authenticate_ok labels env secret w r w' : run_ok labels w → env_ok env →
  Remote.authenticate name display already_exists env secret w = Some (r, w') →
  run_ok (labels ++ [match r with Ok c => LAuthenticated (dc_device_id c) secret (re_now env) | Err _ => unsaved w w' end]) w'.
Proof.
  intros Hr [Hnow _]. unfold Remote.authenticate.
  destruct (_ ← _; _); [|by intros [= <- <-]; apply ok_failed].
  destruct (dv_device_id <$> _) as [id|]; [|by intros [= <- <-]; apply ok_failed].
  destruct (rs_devices (rw_state w) !! id) as [d|] eqn:Hd; simpl; [|done].
  case_bool_decide; [by intros [= <- <-]; apply ok_failed|].
  destruct (N.leb_spec (dv_expires_at d) (re_now env)) as [|Hlt]; [by intros [= <- <-]; apply ok_failed|].
  destruct (N.leb_spec ACTIVITY_PERSIST_INTERVAL (u64_saturating_sub (re_now env) (dv_last_activity_at d))) as [Hle|_];
    [|intros [= <- <-]; apply (ok_idle labels w); [done|done|done|intros []|intros ? ? _ _ []]].
  set (c := Remote.change_device (Remote.touch (re_now env)) id (rw_state w)).
  pose proof (run_state _ _ Hr) as Hs. pose proof (state_device _ Hs _ _ Hd) as [Hid Hok].
  assert (state_ok c) as Hc.
  { eapply state_ok_change; try done. apply touched_ok; [done|].
    unfold u64_saturating_sub, ACTIVITY_PERSIST_INTERVAL in Hle. lia. }
  assert (∀ labels, from_memory labels c (rw_state w)) as Hfrom.
  { intros ls id' d' [(<- & d0 & Hd0 & ->)|[_ Hd']]%change_lookup Hu; left; [by exists d0|by exists d']. }
  destruct (Remote.save _ _ _ env c w) as [[[]|e] w1] eqn:Hsave; intros [= <- <-].
  - destruct (save_cases _ _ _ _ _ _ LOther Hr Hc Hsave) as (_ & He & Hf).
    apply (ok_saved labels _ _ c); [exact He|exact Hf|done| |].
    + intros id' d' [(<- & d0 & Hd0 & ->)|[_ Hd']]%change_lookup Hu; (apply paired_snoc; [|intros []]);
        [by apply (run_devices _ _ Hr id d0)|by apply (run_devices _ _ Hr)].
    + intros p Hp. apply issued_snoc; [|intros []]. by apply (run_pairing _ _ Hr).
  - apply (save_failed _ _ _ _ _ _ Hr Hc Hsave); [constructor|done].
Qed.

Lemma revoke_ok labels env id w r w' : run_ok labels w → env_ok env →
  Remote.revoke name display already_exists env id w = (r, w') →
  run_ok (labels ++ [match r with Ok _ => LRevoked id | Err _ => unsaved w w' end]) w'.
Proof.
  intros Hr [Hnow _]. unfold Remote.revoke.
  destruct (_ ← _; _) as [d|e] eqn:Hd; [|by intros [= <- <-]; apply ok_failed].
  apply bind_Ok in Hd as (? & _ & Hd%ok_or_Ok).
  case_bool_decide as Hrev.
  { intros [= <- <-]. apply (ok_idle labels w); [done..|intros []|].
    intros id' d' Hd' Hu He. simpl in He. subst id'.
    assert (d' = d) as -> by congruence. destruct Hrev as [t Ht]. unfold unrevoked in Hu. congruence. }
  set (c := Remote.change_device (Remote.revoke_device (re_now env)) id (rw_state w)).
  pose proof (run_state _ _ Hr) as Hs. pose proof (state_device _ Hs _ _ Hd) as [Hid Hok].
  assert (state_ok c) as Hc by (eapply state_ok_change; try done; by apply revoked_ok).
  assert (∀ id' d', rs_devices c !! id' = Some d' → unrevoked d' → id ≠ id' ∧ rs_devices (rw_state w) !! id' = Some d') as Hback.
  { intros id' d' [(<- & d0 & Hd0 & ->)|[Hne Hd']]%change_lookup Hu; [done|done]. }
  destruct (Remote.save _ _ _ env c w) as [[[]|e] w1] eqn:Hsave; intros [= <- <-].
  - destruct (save_cases _ _ _ _ _ _ LOther Hr Hc Hsave) as (_ & He & Hf).
    apply (ok_saved labels _ _ c); [exact He|exact Hf|done| |].
    + intros id' d' Hd' Hu. destruct (Hback _ _ Hd' Hu) as [Hne Hd0].
      apply paired_snoc; [by apply (run_devices _ _ Hr)|exact Hne].
    + intros p Hp. apply issued_snoc; [|intros []]. by apply (run_pairing _ _ Hr).
  - apply (save_failed _ _ _ _ _ _ Hr Hc Hsave); [constructor|]. intros ls id' d' Hd' Hu.
    destruct (Hback _ _ Hd' Hu) as [_ Hd0]. left. by exists d'.
Qed.

Lemma revoke_all_ok labels env w r w' : run_ok labels w → env_ok env →
  Remote.revoke_all name display already_exists env w = (r, w') →
  run_ok (labels ++ [match r with Ok _ => LRevokedAll | Err _ => unsaved w w' end]) w'.
Proof.
  intros Hr [Hnow _]. unfold Remote.revoke_all.
  destruct (Remote.require_enabled w); [|by intros [= <- <-]; apply ok_failed].
  destruct (N.of_nat _ =? 0) eqn:Hz.
  { intros [= <- <-]. apply (ok_idle labels w); [done..|intros []|].
    intros id d Hd Hu _. apply N.eqb_eq in Hz.
    assert (d ∈ filter (λ d, Remote.live d = true) (btree_values (rs_devices (rw_state w)))) as Hin.
    { apply list_elem_of_filter. split; [by apply bool_decide_eq_true|]. apply elem_of_btree_values. eauto. }
    destruct (filter _ _); [by apply not_elem_of_nil in Hin|done]. }
  set (c := mkRemoteState _ _ _). pose proof (run_state _ _ Hr) as Hs.
  assert (∀ id d', rs_devices c !! id = Some d' → ∃ d, rs_devices (rw_state w) !! id = Some d ∧
    d' = if Remote.live d then Remote.revoke_device (re_now env) d else d) as Hlook.
  { intros id d' Hd'. unfold c in Hd'. cbn [rs_devices] in Hd'. rewrite lookup_fmap in Hd'.
    destruct (rs_devices (rw_state w) !! id) as [d|]; [|done]. injection Hd' as <-. eauto. }
  assert (∀ id d', rs_devices c !! id = Some d' → ¬ unrevoked d') as Hnone.
  { intros id d' (d & Hd & ->)%Hlook Hu. unfold Remote.live in Hu. case_bool_decide as Hl; [done|by apply Hl]. }
  assert (state_ok c) as Hc.
  { split; simpl.
    - rewrite map_size_fmap. apply (state_size _ Hs).
    - apply u64_saturating_add_u64.
    - intros id d' (d & Hd & ->)%Hlook. destruct (state_device _ Hs _ _ Hd) as [Hid Hok].
      destruct (Remote.live d); [|done]. split; [done|by apply revoked_ok]. }
  destruct (Remote.save _ _ _ env c w) as [[[]|e] w1] eqn:Hsave; intros [= <- <-].
  - destruct (save_cases _ _ _ _ _ _ LOther Hr Hc Hsave) as (_ & He & Hf).
    apply (ok_saved labels _ _ c); [exact He|exact Hf|done| |].
    + intros id d Hd Hu. by apply Hnone in Hd.
    + intros p Hp. apply issued_snoc; [|intros []]. by apply (run_pairing _ _ Hr).
  - apply (save_failed _ _ _ _ _ _ Hr Hc Hsave); [constructor|]. intros ls id d Hd Hu. by apply Hnone in Hd.
Qed.

Lemma open_state env config files w : Remote.open name display link_loop env config files = Ok w →
  ∃ s, Remote.load_state name display link_loop env files = Ok s ∧ rw_state w = s ∧ rw_files w = files.
Proof.
  unfold Remote.open. destruct (_ && _); [done|]. destruct (_ || _); [done|].
  intros (s & Hl & [= <-])%bind_Ok. eauto.
Qed.

Lemma restart_ok labels env config w w' : run_ok labels w →
  Remote.open name display link_loop env config (rw_files w) = Ok w' → run_ok (labels ++ [LRestarted]) w'.
Proof.
  intros [Hs Hd Hp (s & Hk1 & Hk2 & Hk3 & _)] (s' & Hl & He & Hf)%open_state.
  pose proof (load_reads name display link_loop _ _ _ _ Hk2 Hk1 Hl) as ->.
  constructor; rewrite ?He, ?Hf.
  - by apply state_ok_pairing.
  - intros id d Hid Hu. apply paired_snoc; [|intros []].
    destruct (Hk3 id d Hid Hu) as [(d0 & Hd0 & Hh & Hx & Hr)|Hlost]; [|by apply lost_paired].
    rewrite Hh, Hx. apply Hd; [done|]. unfold unrevoked in *. congruence.
  - done.
  - exists (Remote.set_pairing None s). split_and!; [|by apply state_ok_pairing|apply from_memory_refl|by left].
    destruct Hk1 as [(? & ? & ?)|(bytes & ? & ?)]; [by left|right]. by exists bytes.
Qed.

Lemma start_ok env config files w : files !! name = None →
  Remote.open name display link_loop env config files = Ok w → run_ok [] w.
Proof.
  intros Hn (s & Hl & He & Hf)%open_state. unfold Remote.load_state in Hl. rewrite Hn in Hl.
  apply bind_Ok in Hl as (? & _ & [= <-]). constructor; rewrite ?He, ?Hf.
  - apply state_ok_default.
  - intros id d. simpl. by rewrite lookup_empty.
  - done.
  - exists RemoteState_default. split_and!; [by left|apply state_ok_default|apply from_memory_refl|by left].
Qed.

Lemma step_ok labels w l w' : run_ok labels w → remote_step w l w' → run_ok (labels ++ [l]) w'.
Proof.
  intros Hr Hstep. revert Hr. destruct Hstep; intros Hr;
    eauto using issue_ok, exchange_ok, authenticate_ok, revoke_ok, revoke_all_ok, restart_ok.
  by apply (ok_other labels w).
Qed.

Lemma run_ok_all labels w : remote_run labels w → run_ok labels w.
Proof. induction 1; eauto using start_ok, step_ok. Qed.

(** ** What the operations return *)

Lemma authenticate_returns labels env secret w : run_ok labels w →
  is_Some (Remote.authenticate name display already_exists env secret w).
Proof.
  intros Hr. unfold Remote.authenticate. destruct (_ ← _; _); [|by eexists].
  destruct (List.find _ _) as [d|] eqn:Hf; simpl; [|by eexists].
  apply List.find_some in Hf as [Hin%list_elem_of_In%elem_of_btree_values _]. destruct Hin as [k Hk].
  destruct (state_device _ (run_state _ _ Hr) _ _ Hk) as [-> _]. rewrite Hk. simpl.
  case_bool_decide; [by eexists|]. destruct (_ <=? _); [by eexists|]. destruct (_ <=? _); [|by eexists].
  destruct (Remote.save _ _ _ _ _ _) as [[|] ?]; by eexists.
Qed.

Lemma authenticate_spec labels env secret w c w' : run_ok labels w →
  Remote.authenticate name display already_exists env secret w = Some (Ok c, w') →
  ∃ d, rs_devices (rw_state w) !! dc_device_id c = Some d ∧ unrevoked d ∧
    re_now env < dv_expires_at d ∧ dc_expires_at c = dv_expires_at d ∧
    decode_hash (dv_secret_hash d) = Some (Remote.hash_secret secret).
Proof.
  intros Hr. unfold Remote.authenticate. destruct (_ ← _; _); [|done].
  destruct (List.find _ _) as [d|] eqn:Hf; simpl; [|done].
  apply List.find_some in Hf as [Hin%list_elem_of_In%elem_of_btree_values Hsec]. destruct Hin as [k Hk].
  destruct (state_device _ (run_state _ _ Hr) _ _ Hk) as [-> _]. rewrite Hk. simpl.
  case_bool_decide as Hrev; [done|]. destruct (N.leb_spec (dv_expires_at d) (re_now env)); [done|].
  assert (decode_hash (dv_secret_hash d) = Some (Remote.hash_secret secret)) as Hh.
  { unfold Remote.has_secret in Hsec. destruct (decode_hash (dv_secret_hash d)) as [h|] eqn:Hd; [|done].
    apply constant_time_eq_spec in Hsec; [by subst|]. rewrite hash_secret_length. by eapply decode_hash_length. }
  assert (unrevoked d) as Hu by (unfold unrevoked; destruct (dv_revoked_at d); [destruct Hrev; eauto|done]).
  destruct (_ <=? _); [destruct (Remote.save _ _ _ _ _ _) as [[|] ?]; [|done]|]; intros [= <- <-]; by exists d.
Qed.

Lemma exchange_spec labels env token dn w r w' : run_ok labels w → env_ok env →
  Remote.exchange_pairing name display already_exists env token dn w = (r, w') →
  (is_ok r = true ∨ rw_files w' !! name ≠ rw_files w !! name) →
  ∃ p expires c, rs_pairing (rw_state w) = Some p ∧ re_now env < sp_expires_at p ∧
    sp_token_hash p = Remote.hash_secret token ∧
    add_duration (re_now env) (rc_session_ttl (rw_config w)) = Ok expires ∧
    c = Remote.add_device (new_device env dn expires) (prune_inactive_devices (rw_state w) (re_now env)) ∧
    (size (rs_devices (prune_inactive_devices (rw_state w) (re_now env))) < MAX_DEVICES)%nat ∧
    match r with
    | Ok s => rw_state w' = c ∧ is_session_secret s = random_secret "tvs" env ∧
              dd_device_id (is_device s) = re_uuid env 3 ∧ dd_expires_at (is_device s) = expires ∧
              on_disk name (rw_files w') c
    | Err _ => rw_state w' = rw_state w
    end.
Proof.
  intros Hr Henv He Hcase. unfold Remote.exchange_pairing in He.
  destruct (_ ← _; _) as [[]|e] eqn:Hchecks; [|injection He as <- <-; by destruct Hcase].
  assert (validate_device_name dn = Ok tt) as Hdn.
  { apply bind_Ok in Hchecks as (? & _ & Hc). by apply bind_Ok in Hc as (? & _ & Hc). }
  destruct (rs_pairing (rw_state w)) as [p|] eqn:Hp; [|injection He as <- <-; by destruct Hcase].
  destruct (N.leb_spec (sp_expires_at p) (re_now env)) as [|Hlt]; [injection He as <- <-; by destruct Hcase|].
  destruct (constant_time_eq _ _) eqn:Hct; cbn [negb] in He; [|injection He as <- <-; by destruct Hcase].
  destruct (MAX_DEVICES <=? _)%nat eqn:Hfull; [injection He as <- <-; by destruct Hcase|].
  destruct (add_duration _ _) as [expires|e] eqn:Hdur; [|injection He as <- <-; by destruct Hcase].
  apply Nat.leb_gt in Hfull.
  assert (sp_token_hash p = Remote.hash_secret token) as Hhash.
  { apply constant_time_eq_spec in Hct; [done|]. rewrite hash_secret_length.
    destruct (run_pairing _ _ Hr _ Hp) as (t & ? & ? & _ & -> & _). apply hash_secret_length. }
  pose proof Hdur as Hadd. unfold add_duration in Hadd. apply ok_or_Ok in Hadd.
  change (mkDevice _ _ _ _ _ _ _) with (new_device env dn expires) in He.
  set (c := Remote.add_device (new_device env dn expires) (prune_inactive_devices (rw_state w) (re_now env))) in *.
  assert (state_ok c) as Hc.
  { eapply state_ok_add; try done. by apply state_ok_prune, (run_state _ _ Hr). }
  pose proof (save_spec name display already_exists env c w Hc) as Hsp.
  destruct (Remote.save _ _ _ env c w) as [[[]|e] w1] eqn:Hsave; injection He as <- <-;
    exists p, expires, c; destruct Hsp as [_ [Hst Hdk]]; split_and!; try done.
Qed.

(** ** Success without faults *)

Definition printable (a : ascii) : Prop := has_control [a] = false ∧ byte a ≠ 194.

Lemma printable_no_control l : Forall printable l → has_control l = false.
Proof.
  induction 1 as [|a l [Ha Hb] _ IH]; [done|]. simpl in Ha |- *. rewrite orb_false_r in Ha.
  rewrite !orb_false_iff in *. destruct Ha as [Ha _]. split; [|done]. split; [done|].
  destruct l; [done|]. destruct (N.eqb_spec (byte a) 194); [done|]. done.
Qed.

Lemma random_secret_valid prefix env : Forall printable (bytes_of prefix) → str_len prefix = 3 →
  (∀ i, (i < 2)%nat → str_len (re_uuid env i) = 32 ∧ Forall printable (bytes_of (re_uuid env i))) →
  validate_secret (random_secret prefix env) = Ok tt.
Proof.
  intros Hp Hl Hu. unfold validate_secret, random_secret.
  destruct (Hu 0%nat) as [Hl0 Hp0]; [lia|]. destruct (Hu 1%nat) as [Hl1 Hp1]; [lia|].
  assert (∀ a b, str_len (a +:+ b) = str_len a + str_len b) as Happ.
  { intros a b. unfold str_len. rewrite <- Nat2N.inj_add. f_equal. induction a as [|x a IH]; [done|].
    change (S (String.length (a +:+ b)) = S (String.length a + String.length b))%nat. by rewrite IH. }
  assert (str_len (prefix +:+ "_" +:+ re_uuid env 0 +:+ re_uuid env 1) = 68) as ->.
  { rewrite !Happ, Hl, Hl0, Hl1. done. }
  rewrite printable_no_control; [done|]. rewrite !bytes_of_app, !Forall_app. split_and!; try done.
  repeat constructor. done.
Qed.

Lemma save_succeeds env c w : state_ok c → (∀ i, re_fault env i = None) →
  rw_files w !! Remote.temporary name env = None →
  ∃ bytes, Remote.save name display already_exists env c w =
    (Ok tt, Remote.with_state c (Remote.with_files
       (<[name := StoreFile true 384 bytes]> (delete (Remote.temporary name env) (rw_files w))) w)).
Proof.
  intros Hc Hf Ht. destruct (store_reads c Hc) as (bytes & Hb & _). exists bytes.
  unfold Remote.save, Remote.persist, Remote.write_store, Remote.io. rewrite !Hf, Hb, Ht. done.
Qed.

Lemma issue_succeeds env w e : rc_enabled (rw_config w) = true →
  add_duration (re_now env) (rc_pairing_ttl (rw_config w)) = Ok e →
  Remote.issue_pairing env w =
    (Ok (mkPairingToken (random_secret "tvp" env) e),
     Remote.with_state (Remote.set_pairing
       (Some (mkPairing (Remote.hash_secret (random_secret "tvp" env)) e)) (rw_state w)) w).
Proof.
  intros He Ha. unfold Remote.issue_pairing, Remote.require_enabled, Remote.enabled. rewrite He. simpl. by rewrite Ha.
Qed.

Lemma exchange_succeeds env token dn w p e : state_ok (rw_state w) → env_ok env →
  rc_enabled (rw_config w) = true → validate_secret token = Ok tt → validate_device_name dn = Ok tt →
  rs_pairing (rw_state w) = Some p → sp_token_hash p = Remote.hash_secret token → re_now env < sp_expires_at p →
  add_duration (re_now env) (rc_session_ttl (rw_config w)) = Ok e →
  ¬ (size (rs_devices (rw_state w)) = MAX_DEVICES ∧
     ∀ id d, rs_devices (rw_state w) !! id = Some d → inactive (re_now env) d = false) →
  (∀ i, re_fault env i = None) → rw_files w !! Remote.temporary name env = None →
  ∃ s w' bytes, Remote.exchange_pairing name display already_exists env token dn w = (Ok s, w') ∧
    is_session_secret s = random_secret "tvs" env ∧ rw_config w' = rw_config w ∧
    rw_state w' = Remote.add_device (new_device env dn e) (prune_inactive_devices (rw_state w) (re_now env)) ∧
    rw_files w' = <[name := StoreFile true 384 bytes]> (delete (Remote.temporary name env) (rw_files w)).
Proof.
  intros Hs Henv Hen Ht Hdn Hp Hh Hlt He Hroom Hf Hfree. unfold Remote.exchange_pairing, Remote.require_enabled, Remote.enabled.
  rewrite Hen, Ht, Hdn, Hp, He. cbn [mbind result_bind].
  destruct (N.leb_spec (sp_expires_at p) (re_now env)); [lia|].
  assert (constant_time_eq (sp_token_hash p) (Remote.hash_secret token) = true) as ->
    by (apply constant_time_eq_spec; [by rewrite Hh|done]). cbn [negb].
  destruct (MAX_DEVICES <=? _)%nat eqn:Hfull.
  { apply Nat.leb_le in Hfull. by apply prune_full in Hfull. }
  apply Nat.leb_gt in Hfull. change (mkDevice _ _ _ _ _ _ _) with (new_device env dn e).
  assert (state_ok (Remote.add_device (new_device env dn e) (prune_inactive_devices (rw_state w) (re_now env)))) as Hc.
  { unfold add_duration in He. apply ok_or_Ok in He. eapply state_ok_add; try done. by apply state_ok_prune. }
  destruct (save_succeeds env _ w Hc Hf Hfree) as (bytes & ->). by eexists _, _, bytes.
Qed.

Lemma authenticate_succeeds env secret w id d : state_ok (rw_state w) → rc_enabled (rw_config w) = true →
  validate_secret secret = Ok tt → rs_devices (rw_state w) !! id = Some d → unrevoked d →
  re_now env < dv_expires_at d → decode_hash (dv_secret_hash d) = Some (Remote.hash_secret secret) →
  (∀ id' d', rs_devices (rw_state w) !! id' = Some d' →
     decode_hash (dv_secret_hash d') = Some (Remote.hash_secret secret) → id' = id) →
  (∀ i, re_fault env i = None) → rw_files w !! Remote.temporary name env = None →
  ∃ w', Remote.authenticate name display already_exists env secret w
    = Some (Ok (mkDeviceContext id (dv_expires_at d)), w').
Proof.
  intros Hs Hen Hv Hd Hu Hlt Hh Huniq Hf Hfree.
  unfold Remote.authenticate, Remote.require_enabled, Remote.enabled. rewrite Hen, Hv. cbn [mbind result_bind].
  destruct (List.find _ _) as [d'|] eqn:Hfind.
  2:{ exfalso. pose proof (List.find_none _ _ Hfind d) as Hn. simpl in Hn. unfold Remote.has_secret in Hn.
      rewrite Hh in Hn. rewrite (proj2 (constant_time_eq_spec (Remote.hash_secret secret) _ eq_refl) eq_refl) in Hn.
      assert (List.In d (btree_values (rs_devices (rw_state w)))) as Hin; [|by apply Hn in Hin].
      apply list_elem_of_In, elem_of_btree_values. eauto. }
  apply List.find_some in Hfind as [Hin%list_elem_of_In%elem_of_btree_values Hsec]. destruct Hin as [k Hk].
  unfold Remote.has_secret in Hsec. destruct (decode_hash (dv_secret_hash d')) as [h|] eqn:Hd'; [|done].
  apply constant_time_eq_spec in Hsec; [|rewrite hash_secret_length; by eapply decode_hash_length]. subst h.
  pose proof (Huniq _ _ Hk Hd') as ->. assert (d' = d) as -> by congruence.
  destruct (state_device _ Hs _ _ Hd) as [Hid Hok]. cbn [fmap option_fmap option_map]. rewrite Hid, Hd. cbn [mbind option_bind].
  unfold unrevoked in Hu. rewrite Hu. case_bool_decide as Hb; [by destruct Hb|].
  destruct (N.leb_spec (dv_expires_at d) (re_now env)); [lia|].
  destruct (N.leb_spec ACTIVITY_PERSIST_INTERVAL (u64_saturating_sub (re_now env) (dv_last_activity_at d))) as [Hle|_];
    [|by eexists].
  assert (state_ok (Remote.change_device (Remote.touch (re_now env)) id (rw_state w))) as Hc.
  { eapply state_ok_change; try done. apply touched_ok; [done|].
    unfold u64_saturating_sub, ACTIVITY_PERSIST_INTERVAL in Hle. lia. }
  destruct (save_succeeds env _ w Hc Hf Hfree) as (bytes & ->). by eexists.
Qed.
End runs.

(** ** A concrete codec of the remote-access store, for the witnesses *)

#[local] Open Scope N_scope.

Fixpoint put_digits (n : nat) (x : N) : list ascii :=
  match n with O => [] | S n => ascii_of_N (x mod 256) :: put_digits n (x / 256) end.
Definition put_N : N → list ascii := put_digits 8.
Definition put_string (s : string) : list ascii := ascii_of_N (str_len s) :: bytes_of s.
Definition put_option (o : option N) : list ascii :=
  match o with Some n => "1"%char :: put_N n | None => ["0"%char] end.
Definition put_device (d : StoredDevice) : list ascii :=
  put_string (dv_device_id d) ++ put_string (dv_name d) ++ put_string (dv_secret_hash d) ++
  put_N (dv_created_at d) ++ put_N (dv_last_activity_at d) ++ put_N (dv_expires_at d) ++
  put_option (dv_revoked_at d).
Definition put_document (d : StoredDocument) : list ascii :=
  put_N (st_version d) ++ put_N (st_revision d) ++ put_N (N.of_nat (length (st_devices d))) ++
  mjoin (put_device <$> st_devices d).

(** ** Reading *)

Abbreviation reader A := (list ascii → option (A * list ascii)).
Fixpoint get_digits (n : nat) : reader N := λ l,
  match n with
  | O => Some (0, l)
  | S n =>
      match l with
      | a :: l => '(x, l) ← get_digits n l; Some (byte a + 256 * x, l)
      | [] => None
      end
  end.
Definition get_N : reader N := get_digits 8.
Definition get_string : reader string := λ l,
  match l with
  | a :: l => Some (string_of (take (N.to_nat (byte a)) l), drop (N.to_nat (byte a)) l)
  | [] => None
  end.
Definition get_option : reader (option N) := λ l,
  match l with
  | a :: l => if Ascii.eqb a "1" then '(n, l) ← get_N l; Some (Some n, l) else Some (None, l)
  | [] => None
  end.
Definition get_device : reader StoredDevice := λ l,
  '(id, l) ← get_string l; '(name, l) ← get_string l; '(h, l) ← get_string l;
  '(created, l) ← get_N l; '(last, l) ← get_N l; '(expires, l) ← get_N l; '(revoked, l) ← get_option l;
  Some (mkDevice id name h created last expires revoked, l).
Fixpoint get_devices (n : nat) : reader (list StoredDevice) := λ l,
  match n with
  | O => Some ([], l)
  | S n => '(d, l) ← get_device l; '(ds, l) ← get_devices n l; Some (d :: ds, l)
  end.
Definition get_document : reader StoredDocument := λ l,
  '(version, l) ← get_N l; '(revision, l) ← get_N l; '(n, l) ← get_N l;
  '(ds, l) ← get_devices (N.to_nat n) l; Some (mkStoredDocument version revision ds, l).

(** ** Round trip and size *)

Lemma get_put_digits n x l : x < 256 ^ N.of_nat n → get_digits n (put_digits n x ++ l) = Some (x, l).
Proof.
  revert x. induction n as [|n IH]; intros x Hx; [simpl in *; do 2 f_equal; lia|].
  cbn [put_digits get_digits app]. rewrite IH.
  - simpl. unfold byte. rewrite N_ascii_embedding by (apply N.mod_lt; done).
    do 2 f_equal. pose proof (N.Div0.div_mod x 256). lia.
  - rewrite Nat2N.inj_succ, N.pow_succ_r' in Hx. apply N.Div0.div_lt_upper_bound. lia.
Qed.

Lemma get_put_N x l : is_u64 x → get_N (put_N x ++ l) = Some (x, l).
Proof. intros Hx. apply get_put_digits. unfold is_u64, U64_MAX in Hx. simpl. lia. Qed.

Lemma string_of_bytes s : string_of (bytes_of s) = s.
Proof. apply String.string_of_list_ascii_of_string. Qed.
Lemma length_bytes_of s : N.of_nat (length (bytes_of s)) = str_len s.
Proof. unfold str_len. f_equal. induction s; simpl; congruence. Qed.

Lemma get_put_string s l : str_len s < 256 → get_string (put_string s ++ l) = Some (s, l).
Proof.
  intros Hs. unfold get_string, put_string. cbn [app]. unfold byte. rewrite N_ascii_embedding by done.
  rewrite <- length_bytes_of, Nat2N.id.
  by rewrite take_app_length, drop_app_length, string_of_bytes.
Qed.

Lemma get_put_option o l : from_option is_u64 True o → get_option (put_option o ++ l) = Some (o, l).
Proof. destruct o; intros Ho; [|done]. unfold get_option, put_option. cbn [app Ascii.eqb]. by rewrite get_put_N. Qed.

Lemma device_ok_short d : device_ok d →
  str_len (dv_device_id d) = 36 ∧ str_len (dv_name d) <= 128 ∧ str_len (dv_secret_hash d) = 64.
Proof.
  intros (Hi & Hn & [h Hh] & _). split; [done|]. split.
  - unfold validate_device_name in Hn. destruct (_ || _) eqn:Hb; [done|].
    rewrite !orb_false_iff in Hb. destruct Hb as [[_ Hl%N.ltb_ge] _]. done.
  - unfold decode_hash in Hh. destruct (str_len _ =? 64) eqn:Hl; [|done]. by apply N.eqb_eq.
Qed.

Lemma get_put_device d l : device_ok d → get_device (put_device d ++ l) = Some (d, l).
Proof.
  intros Hd. destruct (device_ok_short d Hd) as (Hi & Hn & Hh).
  destruct Hd as (_ & _ & _ & [Ht1 Ht2] & He & Hr).
  assert (is_u64 (dv_created_at d) ∧ is_u64 (dv_last_activity_at d)) as [Hc Hl] by (unfold is_u64 in *; lia).
  unfold get_device, put_device. rewrite <- !app_assoc.
  rewrite get_put_string by lia. cbn [mbind option_bind]. rewrite get_put_string by lia. cbn [mbind option_bind].
  rewrite get_put_string by lia. cbn [mbind option_bind].
  rewrite get_put_N by done. cbn [mbind option_bind]. rewrite get_put_N by done. cbn [mbind option_bind].
  rewrite get_put_N by done. cbn [mbind option_bind]. rewrite get_put_option by done. by destruct d.
Qed.

Lemma get_put_devices ds l : Forall device_ok ds →
  get_devices (length ds) (mjoin (put_device <$> ds) ++ l) = Some (ds, l).
Proof.
  induction 1 as [|d ds Hd _ IH]; [done|]. change (mjoin (put_device <$> d :: ds)) with
    (put_device d ++ mjoin (put_device <$> ds)).
  cbn [length get_devices]. rewrite <- app_assoc, get_put_device by done. cbn [mbind option_bind]. by rewrite IH.
Qed.

Lemma length_put_digits n x : length (put_digits n x) = n.
Proof. revert x. induction n; intros x; simpl; auto. Qed.

Lemma length_put_device d : device_ok d → (length (put_device d) ≤ 264)%nat.
Proof.
  intros Hd. destruct (device_ok_short d Hd) as (Hi & Hn & Hh).
  unfold put_device, put_string, put_N. rewrite !length_app, !length_cons, !length_put_digits.
  pose proof (length_bytes_of (dv_device_id d)). pose proof (length_bytes_of (dv_name d)).
  pose proof (length_bytes_of (dv_secret_hash d)).
  assert (length (put_option (dv_revoked_at d)) ≤ 9)%nat.
  { destruct (dv_revoked_at d); unfold put_option, put_N; rewrite ?length_cons, ?length_put_digits; simpl; lia. }
  lia.
Qed.

Lemma length_put_devices ds : Forall device_ok ds → (length (mjoin (put_device <$> ds)) ≤ 264 * length ds)%nat.
Proof.
  induction 1 as [|d ds Hd _ IH]; [done|]. change (mjoin (put_device <$> d :: ds)) with
    (put_device d ++ mjoin (put_device <$> ds)).
  rewrite length_app. cbn [length]. pose proof (length_put_device d Hd). lia.
Qed.

#[export] Instance sample_codec : RemoteCodec := {|
  sha256 l := take 32 (rev l ++ repeat "0"%char 32);
  store_text d := Ok (put_document d);
  store_of_text l := ok_or (fst <$> get_document l) "end of input";
|}.

#[export] Instance sample_codec_laws : RemoteCodecLaws.
Proof.
  split.
  - intros l. simpl. rewrite length_take, length_app. cbn [length]. lia.
  - intros s Hs. exists (put_document (Remote.document s)). split; [done|].
    assert (Forall device_ok (btree_values (rs_devices s))) as Hd.
    { apply Forall_forall. intros d [k Hk]%elem_of_btree_values. by apply (state_device _ Hs) in Hk as [_ ?]. }
    pose proof (state_size _ Hs) as Hz. pose proof (length_btree_values (rs_devices s)) as Hl.
    unfold MAX_DEVICES in Hz. unfold put_document, Remote.document. cbn [st_version st_revision st_devices]. split.
    + cbn [store_of_text sample_codec]. unfold get_document.
      rewrite <- (app_nil_r (mjoin _)).
      rewrite get_put_N by done. cbn [mbind option_bind].
      rewrite get_put_N by apply (state_revision _ Hs). cbn [mbind option_bind].
      rewrite get_put_N by (unfold is_u64, U64_MAX; lia). cbn [mbind option_bind].
      rewrite Nat2N.id, get_put_devices by done. done.
    + unfold put_N. rewrite !length_app, !length_put_digits.
      pose proof (length_put_devices _ Hd). unfold MAX_STORE_BYTES. lia.
Qed.
