(* ===== verification/Attachments.v ===== *)
(** * Image attachments (attachments.rs): formats, limits, the content-addressed store

    The bytes of an image are stored under the SHA-256 digest of the bytes.  This
    file models the base64 of inline images, the headers of the four formats (down
    to each access of a byte, so that a panic would show as [None]), the limits, and
    the store's operations over one directory, with a fault and the moves of other
    tasks at every input or output step.  SHA-256 and the disk are parameters. *)

From S2P Require Import Prelude Json Protocol Jsonl.

#[local] Open Scope N_scope.

Definition U32_MAX : N := 4294967295.

(** ** Types *)

Inductive ImageMediaType := Png | Jpeg | Webp | Gif.
#[export] Instance ImageMediaType_eq_dec : EqDecision ImageMediaType.
Proof. solve_decision. Defined.

Definition media_str (m : ImageMediaType) : string :=
  match m with
  | Png => "image/png" | Jpeg => "image/jpeg" | Webp => "image/webp" | Gif => "image/gif"
  end.
Definition data_url_prefix (m : ImageMediaType) : string :=
  match m with
  | Png => "data:image/png;base64," | Jpeg => "data:image/jpeg;base64,"
  | Webp => "data:image/webp;base64," | Gif => "data:image/gif;base64,"
  end.
Definition media_of_str (s : string) : option ImageMediaType :=
  List.find (λ m, String.eqb (media_str m) s) [Png; Jpeg; Webp; Gif].

Abbreviation AttachmentId := string.

Record AttachmentRef := mkRef {
  ar_attachment_id : AttachmentId;
  ar_media_type : ImageMediaType;
  ar_bytes : N;
  ar_width : N;
  ar_height : N;
  ar_name : option string;
}.
#[export] Instance AttachmentRef_eq_dec : EqDecision AttachmentRef.
Proof. solve_decision. Defined.

Record AttachmentInput := mkInput { ai_data : bytes; ai_name : option string }.
Record AttachmentData := mkData { ad_reference : AttachmentRef; ad_data : bytes }.

(** A set of media types is a list of those admitted. *)
Record AttachmentLimits := mkLimits {
  al_max_image_bytes : N;
  al_max_images_per_message : N;
  al_max_message_image_bytes : N;
  al_max_image_pixels : N;
  al_media_types : list ImageMediaType;
}.
Definition AttachmentLimits_default : AttachmentLimits :=
  mkLimits (5 * 1024 * 1024) 20 (100 * 1024 * 1024) 40000000 [Png; Jpeg; Webp; Gif].

Inductive AttachmentError :=
| InvalidId
| InvalidReference
| UnsupportedMediaType
| InvalidImage
| ByteLimit
| PixelLimit
| BatchCountLimit
| BatchByteLimit
| AttachmentStorage (text : string)
| DigestMismatch
| MetadataMismatch.
#[export] Instance AttachmentError_eq_dec : EqDecision AttachmentError.
Proof. solve_decision. Defined.

Definition AttachmentError_code (e : AttachmentError) : string :=
  match e with
  | InvalidId => "INVALID_ATTACHMENT_ID"
  | InvalidReference => "INVALID_ATTACHMENT_REFERENCE"
  | UnsupportedMediaType => "UNSUPPORTED_ATTACHMENT_MEDIA_TYPE"
  | InvalidImage => "INVALID_ATTACHMENT_IMAGE"
  | ByteLimit => "ATTACHMENT_BYTE_LIMIT"
  | PixelLimit => "ATTACHMENT_PIXEL_LIMIT"
  | BatchCountLimit => "ATTACHMENT_BATCH_COUNT_LIMIT"
  | BatchByteLimit => "ATTACHMENT_BATCH_BYTE_LIMIT"
  | AttachmentStorage _ => "ATTACHMENT_STORAGE_FAILED"
  | DigestMismatch => "ATTACHMENT_DIGEST_MISMATCH"
  | MetadataMismatch => "ATTACHMENT_METADATA_MISMATCH"
  end.
Definition AttachmentError_text (e : AttachmentError) : string :=
  match e with
  | InvalidId => "attachment id is invalid"
  | InvalidReference => "attachment reference is invalid"
  | UnsupportedMediaType => "attachment is not an admitted image type"
  | InvalidImage => "attachment image header is invalid"
  | ByteLimit => "attachment image exceeds configured byte limit"
  | PixelLimit => "attachment image exceeds configured pixel limit"
  | BatchCountLimit => "attachment batch exceeds configured image count"
  | BatchByteLimit => "attachment batch exceeds configured byte limit"
  | AttachmentStorage text => "attachment storage failed: " +:+ text
  | DigestMismatch => "attachment digest verification failed"
  | MetadataMismatch => "attachment metadata verification failed"
  end.

(** ** Identifiers and names *)

Definition from_digest (digest : bytes) : AttachmentId := "sha256:" +:+ encode_id (string_of digest).

(** A lower-case hexadecimal digit. *)
Definition digest_char (a : ascii) : bool :=
  is_ascii_digit a || ((97 <=? byte a) && (byte a <=? 102)).
Definition digest_hex (id : AttachmentId) : result AttachmentError string :=
  digest ← ok_or (strip_prefix (bytes_of "sha256:") (bytes_of id)) InvalidId;
  if negb (N.of_nat (length digest) =? 64) || negb (forallb digest_char digest) then Err InvalidId
  else Ok (string_of digest).

Definition name_char (a : ascii) : bool :=
  is_ascii_alphanumeric a || bool_decide (a ∈ ["."; "-"; "_"]%char).
Definition sanitize_name (name : option string) : option string :=
  name ← name;
  let name := trim name in
  if is_empty name || (128 <? str_len name) || starts_with "." name
     || negb (forallb name_char (bytes_of name))
  then None else Some name.

(** ** References on the wire *)

Definition AttachmentRef_to_value (r : AttachmentRef) : Value :=
  json_object
    ([("attachmentId", VString (ar_attachment_id r)); ("mediaType", VString (media_str (ar_media_type r)));
      ("bytes", json_u64 (ar_bytes r)); ("width", json_u64 (ar_width r));
      ("height", json_u64 (ar_height r))]
     ++ match ar_name r with Some name => [("name", VString name)] | None => [] end).

Definition reference_fields : list string :=
  ["attachmentId"; "mediaType"; "bytes"; "width"; "height"; "name"].

(** The derived deserialiser: unknown fields are refused, a missing or null name is
    none, and the identifier is checked. *)
Definition AttachmentRef_of_value (v : Value) : option AttachmentRef :=
  fields ← as_object v;
  if negb (forallb (λ kv, bool_decide (kv.1 ∈ reference_fields)) fields) then None
  else
    id ← get_str "attachmentId" v;
    if negb (is_ok (digest_hex id)) then None
    else
      media ← get_str "mediaType" v ≫= media_of_str;
      bytes ← get_u64 "bytes" v;
      width ← get_u64 "width" v;
      height ← get_u64 "height" v;
      if (U32_MAX <? width) || (U32_MAX <? height) then None
      else
        name ← match get "name" v with
               | None | Some VNull => Some None
               | Some (VString s) => Some (Some s)
               | Some _ => None
               end;
        Some (mkRef id media bytes width height name).

Definition AttachmentRef_from_value (value : Value) : result AttachmentError AttachmentRef :=
  reference ← ok_or (AttachmentRef_of_value value) InvalidReference;
  if negb (value_eqb (AttachmentRef_to_value reference) value) then Err InvalidReference
  else if match ar_name reference with
          | Some name => negb (bool_decide (sanitize_name (Some name) = Some name))
          | None => false
          end then Err InvalidReference
  else Ok reference.

Definition safe_metadata (r : AttachmentRef) : Value :=
  match ar_name r, AttachmentRef_to_value r with
  | Some name, VObject m =>
      if bool_decide (sanitize_name (Some name) = None) then VObject (obj_remove "name" m)
      else VObject m
  | _, v => v
  end.

(** ** Base64 of inline images *)

Definition sextet (a : ascii) : option N :=
  let b := byte a in
  if (65 <=? b) && (b <=? 90) then Some (b - 65)
  else if (97 <=? b) && (b <=? 122) then Some (b - 97 + 26)
  else if (48 <=? b) && (b <=? 57) then Some (b - 48 + 52)
  else if b =? 43 then Some 62
  else if b =? 47 then Some 63
  else None.

Definition equals_sign : ascii := "="%char.

(** The loop over the slots of a chunk; [values] and [padding] so far. *)
Fixpoint decode_slots (last : bool) (slot padding : nat) (values : list N) (chunk : bytes) :
    option (nat * list N) :=
  match chunk with
  | [] => Some (padding, values)
  | a :: chunk =>
      if bool_decide (a = equals_sign) then
        if negb last || (slot <? 2)%nat then None
        else decode_slots last (S slot) (S padding) (values ++ [0]) chunk
      else if negb (padding =? 0)%nat then None
      else v ← sextet a; decode_slots last (S slot) padding (values ++ [v]) chunk
  end.

(** [u8] arithmetic: a shift to the left drops the high bits. *)
Definition u8_shl (x k : N) : N := N.land (N.shiftl x k) 255.
Definition merge_bits (x k y j : N) : ascii := ascii_of_N (N.lor (u8_shl x k) (N.shiftr y j)).

Definition decode_chunk (last : bool) (chunk : bytes) : option bytes :=
  p ← decode_slots last 0 0 [] chunk;
  let padding := p.1 in
  let v (i : nat) := nth i p.2 0 in
  let at_ (i : nat) := nth i chunk equals_sign in
  if (2 <? padding)%nat
     || ((padding =? 1)%nat && negb (bool_decide (at_ 3%nat = equals_sign)))
     || ((padding =? 2)%nat && negb (bool_decide (at_ 2%nat = equals_sign))) then None
  else
    Some ([merge_bits (v 0%nat) 2 (v 1%nat) 4]
          ++ (if (padding <? 2)%nat then [merge_bits (v 1%nat) 4 (v 2%nat) 2] else [])
          ++ (if (padding =? 0)%nat then [merge_bits (v 2%nat) 6 (v 3%nat) 0] else [])).

(** [chunks_exact(4)]; a remainder cannot occur, the length is checked. *)
Fixpoint decode_chunks (l : bytes) : option bytes :=
  match l with
  | a :: b :: c :: d :: rest =>
      bytes ← decode_chunk (bool_decide (rest = [])) [a; b; c; d];
      more ← decode_chunks rest;
      Some (bytes ++ more)
  | _ => Some []
  end.
Definition decode_base64 (encoded : bytes) : option bytes :=
  if bool_decide (encoded = []) || negb (N.of_nat (length encoded) mod 4 =? 0) then None
  else decode_chunks encoded.

(** [split_once(',')]. *)
Fixpoint split_once (sep : ascii) (l : bytes) : option (bytes * bytes) :=
  match l with
  | [] => None
  | a :: l =>
      if bool_decide (a = sep) then Some ([], l)
      else p ← split_once sep l; Some (a :: p.1, p.2)
  end.

(** [trim_end_matches(c)]. *)
Fixpoint trim_start_matches (c : ascii) (l : bytes) : bytes :=
  match l with
  | a :: l' => if bool_decide (a = c) then trim_start_matches c l' else l
  | [] => []
  end.
Definition trim_end_matches (c : ascii) (l : bytes) : bytes := rev (trim_start_matches c (rev l)).

Definition inline_prefix (m : ImageMediaType) : bytes :=
  trim_end_matches "," (bytes_of (data_url_prefix m)) ++ bytes_of ";base64".

Definition decode_inline_image (value : Value) : result AttachmentError AttachmentInput :=
  object ← ok_or (as_object value) InvalidReference;
  if negb (forallb (λ kv, bool_decide (kv.1 ∈ ["mediaType"; "data"; "name"])) object) then
    Err InvalidReference
  else
    media_type ← ok_or (get "mediaType" value) InvalidReference;
    media_type ← ok_or (as_str media_type ≫= media_of_str) UnsupportedMediaType;
    encoded ← ok_or (get_str "data" value) InvalidReference;
    encoded ← match split_once "," (bytes_of encoded) with
              | Some (prefix, data) =>
                  if bool_decide (prefix = inline_prefix media_type) then Ok data
                  else Err InvalidReference
              | None => Ok (bytes_of encoded)
              end;
    data ← ok_or (decode_base64 encoded) InvalidImage;
    Ok (mkInput data (get_str "name" value)).

(** ** The headers of the formats

    Every access of a byte or a slice is explicit: [None] is a panic. *)

Abbreviation ImageHeader := (result AttachmentError (ImageMediaType * N * N)).

Definition index (data : bytes) (i : nat) : option N := byte <$> data !! i.
Definition slice (data : bytes) (i j : nat) : option bytes :=
  if (i <=? j)%nat && (j <=? length data)%nat then Some (take (j - i) (drop i data)) else None.

Definition be16 (l : bytes) : option N :=
  a ← index l 0; b ← index l 1; Some (a * 256 + b).
Definition be32 (l : bytes) : option N :=
  a ← index l 0; b ← index l 1; c ← index l 2; d ← index l 3;
  Some (((a * 256 + b) * 256 + c) * 256 + d).
Definition le16 (l : bytes) : option N :=
  a ← index l 0; b ← index l 1; Some (b * 256 + a).
Definition le24 (l : bytes) : option N :=
  a ← index l 0; b ← index l 1; c ← index l 2;
  Some (N.lor (N.lor a (N.shiftl b 8)) (N.shiftl c 16)).
Definition le32 (a b c d : N) : N := ((d * 256 + c) * 256 + b) * 256 + a.

Definition chars (l : list N) : bytes := ascii_of_N <$> l.
Definition PNG_MAGIC : bytes := chars [137; 80; 78; 71; 13; 10; 26; 10].
Definition begins (p l : bytes) : bool := bool_decide (take (length p) l = p).

(** [while offset < data.len() && data[offset] == 0xff]. *)
Fixpoint skip_fill (l : bytes) : nat :=
  match l with
  | a :: l => if byte a =? 255 then S (skip_fill l) else O
  | [] => O
  end.

(** The start-of-frame markers. *)
Definition is_frame (marker : N) : bool :=
  ((192 <=? marker) && (marker <=? 195)) || ((197 <=? marker) && (marker <=? 199))
  || ((201 <=? marker) && (marker <=? 203)) || ((205 <=? marker) && (marker <=? 207)).

(** The loop over the segments; it runs dry with [None] as well. *)
Fixpoint parse_jpeg_from (fuel offset : nat) (data : bytes) : option ImageHeader :=
  match fuel with
  | O => None
  | S fuel =>
      if (length data <? offset + 4)%nat then Some (Err InvalidImage)
      else
        first ← index data offset;
        if negb (first =? 255) then Some (Err InvalidImage)
        else
          let offset := (offset + skip_fill (drop offset data))%nat in
          if (length data <=? offset)%nat then Some (Err InvalidImage)
          else
            marker ← index data offset;
            let offset := S offset in
            if (marker =? 216) || (marker =? 217) then parse_jpeg_from fuel offset data
            else if (length data <? offset + 2)%nat then Some (Err InvalidImage)
            else
              size ← slice data offset (offset + 2) ≫= be16;
              let size := N.to_nat size in
              if (size <? 2)%nat || (length data <? offset + size)%nat then Some (Err InvalidImage)
              else if is_frame marker then
                if (size <? 8)%nat then Some (Err InvalidImage)
                else
                  width ← slice data (offset + 5) (offset + 7) ≫= be16;
                  height ← slice data (offset + 3) (offset + 5) ≫= be16;
                  Some (Ok (Jpeg, width, height))
              else parse_jpeg_from fuel (offset + size) data
  end.
Definition parse_jpeg (data : bytes) : option ImageHeader :=
  parse_jpeg_from (S (length data)) 2 data.

Definition parse_webp (data : bytes) : option ImageHeader :=
  if (length data <? 30)%nat then Some (Err InvalidImage)
  else
    tag ← slice data 12 16;
    if bool_decide (tag = bytes_of "VP8X") then
      width ← slice data 24 27 ≫= le24; height ← slice data 27 30 ≫= le24;
      Some (Ok (Webp, width + 1, height + 1))
    else
      key ← slice data 23 26;
      lossless ← index data 20;
      if bool_decide (tag = bytes_of "VP8 ") && bool_decide (key = chars [157; 1; 42]) then
        width ← slice data 26 28 ≫= le16; height ← slice data 28 30 ≫= le16;
        Some (Ok (Webp, N.land width 16383, N.land height 16383))
      else if bool_decide (tag = bytes_of "VP8L") && (lossless =? 47) then
        a ← index data 21; b ← index data 22; c ← index data 23; d ← index data 24;
        let bits := le32 a b c d in
        Some (Ok (Webp, N.land bits 16383 + 1, N.land (N.shiftr bits 14) 16383 + 1))
      else Some (Err InvalidImage).

Definition parse_image (data : bytes) : option ImageHeader :=
  if begins PNG_MAGIC data then
    if (length data <? 24)%nat then Some (Err InvalidImage)
    else
      tag ← slice data 12 16; size ← slice data 8 12 ≫= be32;
      if negb (bool_decide (tag = bytes_of "IHDR")) || negb (size =? 13) then Some (Err InvalidImage)
      else
        width ← slice data 16 20 ≫= be32; height ← slice data 20 24 ≫= be32;
        Some (Ok (Png, width, height))
  else if begins (bytes_of "GIF87a") data || begins (bytes_of "GIF89a") data then
    if (length data <? 10)%nat then Some (Err InvalidImage)
    else
      width ← slice data 6 8 ≫= le16; height ← slice data 8 10 ≫= le16;
      Some (Ok (Gif, width, height))
  else if (12 <=? length data)%nat && begins (bytes_of "RIFF") data
          && bool_decide (slice data 8 12 = Some (bytes_of "WEBP")) then parse_webp data
  else if begins (chars [255; 216]) data then parse_jpeg data
  else Some (Err UnsupportedMediaType).

(** ** Validation *)

(** SHA-256 (the sha2 crate). *)
Class Sha256 := digest_of : bytes → bytes.

Record ValidatedImage := mkValidated {
  vi_media_type : ImageMediaType;
  vi_bytes : N;
  vi_width : N;
  vi_height : N;
  vi_id : AttachmentId;
  vi_name : option string;
}.
Definition reference (v : ValidatedImage) : AttachmentRef :=
  mkRef (vi_id v) (vi_media_type v) (vi_bytes v) (vi_width v) (vi_height v) (vi_name v).

(** [AttachmentStore::new]; the store is its limits and, below, its directory. *)
Definition AttachmentStore_new (limits : AttachmentLimits) : result AttachmentError AttachmentLimits :=
  if (al_max_image_bytes limits =? 0) || (al_max_images_per_message limits =? 0)
     || (al_max_message_image_bytes limits =? 0) || (al_max_image_pixels limits =? 0)
     || bool_decide (al_media_types limits = []) then
    Err (AttachmentStorage "attachment limits must be positive and admit a media type")
  else Ok limits.

Section validation.
Context `{Sha256}.
Context (limits : AttachmentLimits).

(** The product of two [u32]s fits a [u64]. *)
Definition validate_bytes (data : bytes) (name : option string) :
    option (result AttachmentError ValidatedImage) :=
  let n := N.of_nat (length data) in
  if al_max_image_bytes limits <? n then Some (Err ByteLimit)
  else
    header ← parse_image data;
    Some (h ← header;
          let '(media_type, width, height) := h in
          if negb (bool_decide (media_type ∈ al_media_types limits)) then Err UnsupportedMediaType
          else if (width =? 0) || (height =? 0) || (al_max_image_pixels limits <? width * height) then
            Err PixelLimit
          else
            Ok (mkValidated media_type n width height (from_digest (digest_of data))
                  (sanitize_name name))).

Definition validate (input : AttachmentInput) : option (result AttachmentError AttachmentRef) :=
  image ← validate_bytes (ai_data input) (ai_name input);
  Some (image ← image; Ok (reference image)).
End validation.

(** ** The directory

    What the directory [v1] holds under a name: a file, or a link that leads out of
    the directory (with what is there). *)
Inductive AttachmentNode :=
| NodeFile (data : bytes)
| NodeOutside (data : bytes).
Abbreviation Nodes := (gmap string AttachmentNode).

Definition node_data (n : AttachmentNode) : bytes :=
  match n with NodeFile data | NodeOutside data => data end.

(** At its [i]-th input or output step the store finds the directory as the other
    tasks left it, and the step may fail with the text of an error; [at_written] is
    how much a failing write has written, [at_uuid] the random part of a name. *)
Class AttachmentDisk := {
  at_others : nat → Nodes → Nodes;
  at_fault : nat → option string;
  at_written : nat → nat;
  at_uuid : nat → string;
}.

Record AttachmentDir := mkDir { dir_nodes : Nodes; dir_step : nat }.

(** [None] is a panic. *)
Definition Att (A : Type) : Type :=
  AttachmentDir → option (result AttachmentError A * AttachmentDir).
#[export] Instance Att_ret : MRet Att := λ A a s, Some (Ok a, s).
#[export] Instance Att_bind : MBind Att := λ A B k m s,
  match m s with
  | Some (Ok a, s) => k a s
  | Some (Err e, s) => Some (Err e, s)
  | None => None
  end.
Definition att_lift {A} (r : result AttachmentError A) : Att A := λ s, Some (r, s).
Definition att_check {A} (r : option (result AttachmentError A)) : Att A := λ s,
  r ← r; Some (r, s).
(** [Result] as a value: the rest looks at the error. *)
Definition att_try {A} (m : Att A) : Att (result AttachmentError A) := λ s,
  p ← m s; Some (Ok p.1, p.2).

Definition NOT_FOUND : string := "No such file or directory (os error 2)".
Definition FILE_EXISTS : string := "File exists (os error 17)".

(** What [canonicalize] of a name finds. *)
Inductive found := Absent | Inside | Escapes | Unreadable (e : string).

Section store.
Context `{Sha256, AttachmentDisk}.
Context (limits : AttachmentLimits).

(** One step: the others first. *)
Definition att_step {A} (op : nat → Nodes → result AttachmentError A * Nodes) : Att A := λ s,
  let i := dir_step s in
  let p := op i (at_others i (dir_nodes s)) in
  Some (p.1, mkDir p.2 (S i)).
Definition failing (what : string) (i : nat) : result AttachmentError unit :=
  match at_fault i with
  | Some e => Err (AttachmentStorage (what +:+ ": " +:+ e))
  | None => Ok tt
  end.
(** A step that can only fail. *)
Definition att_io (what : string) : Att unit := att_step (λ i nodes, (failing what i, nodes)).

Definition directory : Att unit :=
  _ ← att_io "create attachment root"; att_io "canonicalize attachment root".

Definition canonicalize (name : string) : Att found :=
  att_step (λ i nodes,
    (Ok match at_fault i, nodes !! name with
        | Some e, _ => Unreadable e
        | None, None => Absent
        | None, Some (NodeFile _) => Inside
        | None, Some (NodeOutside _) => Escapes
        end, nodes)).

Definition escapes {A} : result AttachmentError A :=
  Err (AttachmentStorage "attachment path escapes configured root").

Definition read_node (what name : string) : Att bytes :=
  att_step (λ i nodes,
    (_ ← failing what i;
     match nodes !! name with
     | Some n => Ok (node_data n)
     | None => Err (AttachmentStorage (what +:+ ": " +:+ NOT_FOUND))
     end, nodes)).

(** The target of an identifier, found inside the directory. *)
Definition open_target (id : AttachmentId) : Att string :=
  _ ← directory;
  digest ← att_lift (digest_hex id);
  f ← canonicalize digest;
  match f with
  | Inside => mret digest
  | Escapes => att_lift escapes
  | Absent => att_lift (Err (AttachmentStorage ("open attachment: " +:+ NOT_FOUND)))
  | Unreadable e => att_lift (Err (AttachmentStorage ("open attachment: " +:+ e)))
  end.

Definition read (id : AttachmentId) : Att AttachmentData :=
  digest ← open_target id;
  data ← read_node "read attachment" digest;
  image ← att_check (validate_bytes limits data None);
  if negb (bool_decide (vi_id image = id)) then att_lift (Err DigestMismatch)
  else mret (mkData (reference image) data).

(** What a reference claims about bytes, besides their digest. *)
Definition same_metadata (a b : AttachmentRef) : bool :=
  bool_decide (ar_media_type a = ar_media_type b) && (ar_bytes a =? ar_bytes b)
  && (ar_width a =? ar_width b) && (ar_height a =? ar_height b).

Definition read_ref (r : AttachmentRef) : Att bytes :=
  read ← read (ar_attachment_id r);
  if same_metadata (ad_reference read) r then mret (ad_data read)
  else att_lift (Err MetadataMismatch).

(** [fs::metadata(..).len()], the opening (which pins the file), the reading of at
    most one byte more than allowed. *)
Definition read_ref_bounded (r : AttachmentRef) (max_bytes : N) : Att AttachmentData :=
  if max_bytes <? ar_bytes r then att_lift (Err ByteLimit)
  else
    digest ← open_target (ar_attachment_id r);
    data ← read_node "inspect attachment" digest;
    if max_bytes <? N.of_nat (length data) then att_lift (Err ByteLimit)
    else
      file ← read_node "read attachment" digest;
      _ ← att_io "read attachment";
      let data := if max_bytes <? U64_MAX then take (N.to_nat (max_bytes + 1)) file else file in
      if max_bytes <? N.of_nat (length data) then att_lift (Err ByteLimit)
      else
        image ← att_check (validate_bytes limits data None);
        if negb (bool_decide (vi_id image = ar_attachment_id r)) then att_lift (Err DigestMismatch)
        else if negb (same_metadata (reference image) r) then att_lift (Err MetadataMismatch)
        else mret (mkData r data).

Definition temporary_name (digest : string) (i : nat) : string :=
  "." +:+ digest +:+ "-" +:+ at_uuid i +:+ ".tmp".

(** The part of [persist] that works on the temporary file. *)
Definition write_new (temporary digest : string) (data : bytes) : Att unit :=
  _ ← att_step (λ i nodes,
        match failing "create attachment temporary" i, nodes !! temporary with
        | Err e, _ => (Err e, nodes)
        | Ok _, Some _ =>
            (Err (AttachmentStorage ("create attachment temporary: " +:+ FILE_EXISTS)), nodes)
        | Ok _, None => (Ok tt, <[temporary := NodeFile []]> nodes)
        end);
  _ ← att_step (λ i nodes,
        match failing "write attachment temporary" i with
        | Err e => (Err e, alter (λ _, NodeFile (take (at_written i) data)) temporary nodes)
        | Ok _ => (Ok tt, alter (λ _, NodeFile data) temporary nodes)
        end);
  _ ← att_io "sync attachment temporary";
  att_step (λ i nodes,
    match failing "rename attachment temporary" i, nodes !! temporary with
    | Err e, _ => (Err e, nodes)
    | Ok _, Some n => (Ok tt, <[digest := n]> (delete temporary nodes))
    | Ok _, None =>
        (Err (AttachmentStorage ("rename attachment temporary: " +:+ NOT_FOUND)), nodes)
    end).

(** [let _ = fs::remove_file(..)]. *)
Definition remove_quietly (name : string) : Att unit :=
  att_step (λ i nodes,
    (Ok tt, match at_fault i with Some _ => nodes | None => delete name nodes end)).

Definition persist (data : bytes) (image : ValidatedImage) : Att (AttachmentRef * bool) :=
  _ ← directory;
  digest ← att_lift (digest_hex (vi_id image));
  f ← canonicalize digest;
  match f with
  | Inside =>
      existing ← read_node "read existing attachment" digest;
      verified ← att_check (validate_bytes limits existing (vi_name image));
      if negb (bool_decide (vi_id verified = vi_id image)) then att_lift (Err DigestMismatch)
      else mret (reference image, false)
  | Escapes => att_lift escapes
  | Unreadable e => att_lift (Err (AttachmentStorage ("inspect attachment: " +:+ e)))
  | Absent =>
      i ← (λ s, Some (Ok (dir_step s), s)) : Att nat;
      let temporary := temporary_name digest i in
      r ← att_try (write_new temporary digest data);
      match r with
      | Ok _ => mret (reference image, true)
      | Err e => _ ← remove_quietly temporary; att_lift (Err e)
      end
  end.

Definition save (input : AttachmentInput) : Att AttachmentRef :=
  image ← att_check (validate_bytes limits (ai_data input) (ai_name input));
  p ← persist (ai_data input) image;
  mret p.1.

Definition remove_if_confined (id : AttachmentId) : Att unit :=
  _ ← directory;
  digest ← att_lift (digest_hex id);
  f ← canonicalize digest;
  match f with
  | Inside =>
      att_step (λ i nodes,
        match failing "remove attachment" i, nodes !! digest with
        | Err e, _ => (Err e, nodes)
        | Ok _, Some _ => (Ok tt, delete digest nodes)
        | Ok _, None => (Err (AttachmentStorage ("remove attachment: " +:+ NOT_FOUND)), nodes)
        end)
  | Escapes => att_lift escapes
  | Absent => mret tt
  | Unreadable e => att_lift (Err (AttachmentStorage ("inspect attachment: " +:+ e)))
  end.

(** The checks of a batch: no step of the disk. *)
Fixpoint validate_batch (total : N) (inputs : list AttachmentInput) :
    option (result AttachmentError (list ValidatedImage)) :=
  match inputs with
  | [] => Some (Ok [])
  | input :: inputs =>
      image ← validate_bytes limits (ai_data input) (ai_name input);
      match image with
      | Err e => Some (Err e)
      | Ok image =>
          match u64_checked_add total (vi_bytes image) with
          | None => Some (Err BatchByteLimit)
          | Some total =>
              if al_max_message_image_bytes limits <? total then Some (Err BatchByteLimit)
              else
                rest ← validate_batch total inputs;
                Some (match rest with Ok images => Ok (image :: images) | Err e => Err e end)
          end
      end
  end.

(** [let _ = self.remove_if_confined(..)] for each file that the batch made. *)
Fixpoint remove_created (created : list AttachmentId) : Att unit :=
  match created with
  | [] => mret tt
  | id :: created => _ ← att_try (remove_if_confined id); remove_created created
  end.

Fixpoint persist_batch (created : list AttachmentId) (batch : list (AttachmentInput * ValidatedImage)) :
    Att (list AttachmentRef) :=
  match batch with
  | [] => mret []
  | (input, image) :: batch =>
      r ← att_try (persist (ai_data input) image);
      match r with
      | Ok p =>
          let created := if (p.2 : bool) then created ++ [ar_attachment_id p.1] else created in
          saved ← persist_batch created batch;
          mret (p.1 :: saved)
      | Err error => _ ← remove_created created; att_lift (Err error)
      end
  end.

Definition save_batch (inputs : list AttachmentInput) : Att (list AttachmentRef) :=
  if al_max_images_per_message limits <? N.of_nat (length inputs) then att_lift (Err BatchCountLimit)
  else
    validated ← att_check (validate_batch 0 inputs);
    persist_batch [] (zip inputs validated).
End store.
