(* ===== verification/AttachmentFacts.v ===== *)
(** * Facts about attachments: headers, references, and the steps of the store

    The header parsers never read out of range and their loop ends; identifiers are
    well-formed; triples for the operations of the store over its directory. *)

From S2P Require Import Prelude Json Protocol Jsonl JsonlFacts Attachments.

#[local] Open Scope N_scope.

(** ** Accesses in range *)

Lemma index_Some data i : (i < length data)%nat → ∃ n, index data i = Some n ∧ n < 256.
Proof.
  intros Hi. unfold index. destruct (lookup_lt_is_Some_2 data i Hi) as [a ->].
  exists (byte a). split; [done|]. apply byte_lt.
Qed.
Lemma slice_Some data i j :
  (i ≤ j)%nat → (j ≤ length data)%nat → ∃ l, slice data i j = Some l ∧ length l = (j - i)%nat.
Proof.
  intros Hij Hj. unfold slice. rewrite (proj2 (Nat.leb_le i j)), (proj2 (Nat.leb_le j _)) by done.
  eexists. split; [done|]. rewrite length_take, length_drop. lia.
Qed.

(** Reads a number of [k] bytes at a slice in range. *)
Ltac read_bytes :=
  repeat match goal with
  | |- context [slice ?d ?i ?j] =>
      let l := fresh "l" in let Hl := fresh "Hl" in
      destruct (slice_Some d i j) as (l & -> & Hl); [lia|lia|cbn [mbind option_bind]]
  | |- context [index ?d ?i] =>
      let n := fresh "n" in let Hn := fresh "Hn" in
      destruct (index_Some d i) as (n & -> & Hn); [lia|cbn [mbind option_bind]]
  end.

Lemma be16_Some l : length l = 2%nat → ∃ n, be16 l = Some n ∧ n < 65536.
Proof.
  intros Hl. unfold be16. destruct (index_Some l 0) as (a & -> & Ha); [lia|].
  destruct (index_Some l 1) as (b & -> & Hb); [lia|]. eexists. split; [reflexivity|]. lia.
Qed.
Lemma be32_Some l : length l = 4%nat → ∃ n, be32 l = Some n ∧ n ≤ U32_MAX.
Proof.
  intros Hl. unfold be32. destruct (index_Some l 0) as (a & -> & Ha); [lia|].
  destruct (index_Some l 1) as (b & -> & Hb); [lia|]. destruct (index_Some l 2) as (c & -> & Hc); [lia|].
  destruct (index_Some l 3) as (d & -> & Hd); [lia|]. eexists. split; [reflexivity|].
  unfold U32_MAX. lia.
Qed.
Lemma le16_Some l : length l = 2%nat → ∃ n, le16 l = Some n ∧ n < 65536.
Proof.
  intros Hl. unfold le16. destruct (index_Some l 0) as (a & -> & Ha); [lia|].
  destruct (index_Some l 1) as (b & -> & Hb); [lia|]. eexists. split; [reflexivity|]. lia.
Qed.

Lemma lor_bound a b k : a < 2 ^ k → b < 2 ^ k → N.lor a b < 2 ^ k.
Proof.
  intros Ha Hb. destruct (decide (N.lor a b = 0)) as [->|Hne]; [lia|].
  apply N.log2_lt_pow2; [lia|]. rewrite N.log2_lor.
  destruct (decide (a = 0)) as [->|]; destruct (decide (b = 0)) as [->|]; try done.
  - rewrite N.max_r by (rewrite N.log2_nonpos; lia). apply N.log2_lt_pow2; lia.
  - rewrite N.max_l by (rewrite (N.log2_nonpos 0); lia). apply N.log2_lt_pow2; lia.
  - apply N.max_lub_lt; apply N.log2_lt_pow2; lia.
Qed.
Lemma shl_bound a k j : a < 2 ^ k → N.shiftl a j < 2 ^ (k + j).
Proof. intros Ha. rewrite N.shiftl_mul_pow2, N.pow_add_r. apply N.mul_lt_mono_pos_r; [|done]. lia. Qed.

Lemma le24_Some l : length l = 3%nat → ∃ n, le24 l = Some n ∧ n < 2 ^ 24.
Proof.
  intros Hl. unfold le24. destruct (index_Some l 0) as (a & -> & Ha); [lia|].
  destruct (index_Some l 1) as (b & -> & Hb); [lia|]. destruct (index_Some l 2) as (c & -> & Hc); [lia|].
  eexists. split; [reflexivity|]. pose proof (shl_bound b 8 8 Hb). pose proof (shl_bound c 8 16 Hc).
  repeat apply lor_bound; cbn in *; lia.
Qed.

(** A mask of 14 bits. *)
Lemma land_14 a : N.land a 16383 < 16384.
Proof. change 16383 with (N.ones 14). rewrite N.land_ones. by apply N.mod_lt. Qed.

(** ** The headers *)

(** A header is an error, or dimensions of 32 bits. *)
Definition header_fits (h : option ImageHeader) : Prop :=
  ∃ r, h = Some r ∧ ∀ m w h, r = Ok (m, w, h) → w ≤ U32_MAX ∧ h ≤ U32_MAX.

Lemma header_err e : header_fits (Some (Err e)).
Proof. eexists. split; [done|]. intros ??? [=]. Qed.
Lemma header_ok m w h : w ≤ U32_MAX → h ≤ U32_MAX → header_fits (Some (Ok (m, w, h))).
Proof. intros Hw Hh. eexists. split; [done|]. by intros ??? [= -> -> ->]. Qed.
#[local] Hint Resolve header_err header_ok : core.

Lemma skip_fill_pos a l : (byte a =? 255) = true → (0 < skip_fill (a :: l))%nat.
Proof. cbn [skip_fill]. intros ->. lia. Qed.

Lemma parse_jpeg_from_fits fuel data : ∀ offset,
  (length data < offset + fuel)%nat → (offset ≤ length data)%nat →
  header_fits (parse_jpeg_from fuel offset data).
Proof.
  induction fuel as [|fuel IH]; intros offset Hf Ho; [lia|]. cbn [parse_jpeg_from].
  destruct (Nat.ltb_spec (length data) (offset + 4)); [done|].
  destruct (lookup_lt_is_Some_2 data offset) as [a Ha]; [lia|].
  assert (index data offset = Some (byte a)) as -> by (unfold index; by rewrite Ha).
  cbn [mbind option_bind].
  destruct (byte a =? 255) eqn:Hff; cbn [negb]; [|done].
  assert (0 < skip_fill (drop offset data))%nat as Hs.
  { rewrite (drop_S data a) by done. by apply skip_fill_pos. }
  set (k := skip_fill _) in *. destruct (Nat.leb_spec (length data) (offset + k)); [done|].
  destruct (index_Some data (offset + k)) as (marker & -> & Hm); [lia|]. cbn [mbind option_bind].
  destruct (_ || _); [apply IH; lia|].
  destruct (Nat.ltb_spec (length data) (S (offset + k) + 2)); [done|].
  destruct (slice_Some data (S (offset + k)) (S (offset + k) + 2)) as (l & -> & Hl); [lia..|].
  cbn [mbind option_bind]. destruct (be16_Some l) as (size & -> & Hsize); [lia|].
  cbn [mbind option_bind]. generalize (N.to_nat size). intros n.
  destruct (Nat.ltb_spec n 2); cbn [orb]; [done|].
  destruct (Nat.ltb_spec (length data) (S (offset + k) + n)); [done|].
  destruct (is_frame marker); [|apply IH; lia]. destruct (Nat.ltb_spec n 8); [done|].
  destruct (slice_Some data (S (offset + k) + 5) (S (offset + k) + 7)) as (l0 & -> & Hl0); [lia..|].
  cbn [mbind option_bind]. destruct (be16_Some l0) as (w & -> & Hw); [lia|]. cbn [mbind option_bind].
  destruct (slice_Some data (S (offset + k) + 3) (S (offset + k) + 5)) as (l1 & -> & Hl1); [lia..|].
  cbn [mbind option_bind]. destruct (be16_Some l1) as (h & -> & Hh); [lia|].
  apply header_ok; unfold U32_MAX; lia.
Qed.

Lemma parse_webp_fits data : header_fits (parse_webp data).
Proof.
  unfold parse_webp. destruct (Nat.ltb_spec (length data) 30); [done|].
  destruct (slice_Some data 12 16) as (tag & -> & _); [lia..|]. cbn [mbind option_bind].
  case_bool_decide.
  { destruct (slice_Some data 24 27) as (l1 & -> & Hl1); [lia..|]. cbn [mbind option_bind].
    destruct (le24_Some l1) as (w & -> & Hw); [lia|]. cbn [mbind option_bind].
    destruct (slice_Some data 27 30) as (l2 & -> & Hl2); [lia..|]. cbn [mbind option_bind].
    destruct (le24_Some l2) as (h & -> & Hh); [lia|].
    apply header_ok; unfold U32_MAX; cbn in Hw, Hh; lia. }
  destruct (slice_Some data 23 26) as (key & -> & _); [lia..|]. cbn [mbind option_bind].
  destruct (index_Some data 20) as (b & -> & Hb); [lia|]. cbn [mbind option_bind].
  destruct (_ && _).
  { destruct (slice_Some data 26 28) as (l1 & -> & Hl1); [lia..|]. cbn [mbind option_bind].
    destruct (le16_Some l1) as (w & -> & Hw); [lia|]. cbn [mbind option_bind].
    destruct (slice_Some data 28 30) as (l2 & -> & Hl2); [lia..|]. cbn [mbind option_bind].
    destruct (le16_Some l2) as (h & -> & Hh); [lia|].
    pose proof (land_14 w). pose proof (land_14 h). apply header_ok; unfold U32_MAX; lia. }
  destruct (_ && _); [|done]. read_bytes.
  pose proof (land_14 (le32 n2 n1 n0 n)). pose proof (land_14 (N.shiftr (le32 n2 n1 n0 n) 14)).
  apply header_ok; unfold U32_MAX; lia.
Qed.

Lemma parse_image_fits data : header_fits (parse_image data).
Proof.
  unfold parse_image. destruct (begins PNG_MAGIC data).
  { destruct (Nat.ltb_spec (length data) 24); [done|].
    destruct (slice_Some data 12 16) as (tag & -> & _); [lia..|]. cbn [mbind option_bind].
    destruct (slice_Some data 8 12) as (l0 & -> & Hl0); [lia..|]. cbn [mbind option_bind].
    destruct (be32_Some l0) as (z & -> & _); [lia|]. cbn [mbind option_bind].
    destruct (_ || _); [done|].
    destruct (slice_Some data 16 20) as (l1 & -> & Hl1); [lia..|]. cbn [mbind option_bind].
    destruct (be32_Some l1) as (w & -> & Hw); [lia|]. cbn [mbind option_bind].
    destruct (slice_Some data 20 24) as (l2 & -> & Hl2); [lia..|]. cbn [mbind option_bind].
    destruct (be32_Some l2) as (h & -> & Hh); [lia|]. by apply header_ok. }
  destruct (_ || _).
  { destruct (Nat.ltb_spec (length data) 10); [done|].
    destruct (slice_Some data 6 8) as (l1 & -> & Hl1); [lia..|]. cbn [mbind option_bind].
    destruct (le16_Some l1) as (w & -> & Hw); [lia|]. cbn [mbind option_bind].
    destruct (slice_Some data 8 10) as (l2 & -> & Hl2); [lia..|]. cbn [mbind option_bind].
    destruct (le16_Some l2) as (h & -> & Hh); [lia|]. apply header_ok; unfold U32_MAX; lia. }
  destruct (_ && _); [apply parse_webp_fits|].
  destruct (begins (chars [255; 216]) data) eqn:Hb; [|done].
  apply parse_jpeg_from_fits; [lia|]. unfold begins in Hb. apply bool_decide_eq_true in Hb.
  apply (f_equal length) in Hb. rewrite length_take in Hb.
  change (length (chars [255; 216])) with 2%nat in Hb. lia.
Qed.

(** ** Identifiers and references *)

Lemma ascii_forall (f : ascii → bool) :
  forallb (λ n, f (ascii_of_N (N.of_nat n))) (seq 0 256) = true → ∀ a, f a = true.
Proof.
  intros Hf a. rewrite forallb_forall in Hf. rewrite <-(ascii_N_embedding a).
  rewrite <-(N2Nat.id (N_of_ascii a)). apply Hf, in_seq. pose proof (byte_lt a) as Ha.
  unfold byte in Ha. lia.
Qed.

Lemma hex_byte_digits a : forallb digest_char (hex_byte a) = true.
Proof. revert a. apply ascii_forall. vm_compute. reflexivity. Qed.
Lemma hex_bytes_digits l : forallb digest_char (mjoin (hex_byte <$> l)) = true.
Proof.
  induction l as [|a l IH]; [done|].
  change (forallb digest_char (hex_byte a ++ mjoin (hex_byte <$> l)) = true).
  by rewrite forallb_app, hex_byte_digits, IH.
Qed.

(** The name of the file of some bytes. *)
Definition hex_of_digest (digest : bytes) : string := string_of (mjoin (hex_byte <$> digest)).

Lemma digest_hex_from digest :
  length digest = 32%nat → digest_hex (from_digest digest) = Ok (hex_of_digest digest).
Proof.
  intros Hl. unfold digest_hex, from_digest, encode_id. rewrite bytes_of_app, !bytes_of_string_of.
  rewrite strip_prefix_app. cbn [ok_or mbind result_bind].
  by rewrite hex_bytes_length, Hl, hex_bytes_digits.
Qed.
Lemma hex_of_digest_inj d d' : hex_of_digest d = hex_of_digest d' → d = d'.
Proof. unfold hex_of_digest. intros ?%string_of_inj%hex_bytes_inj. done. Qed.
Lemma from_digest_inj d d' : from_digest d = from_digest d' → d = d'.
Proof.
  unfold from_digest. intros H. apply (f_equal bytes_of) in H. rewrite !bytes_of_app in H.
  apply app_inv_head, bytes_of_inj, encode_id_inj, string_of_inj in H. done.
Qed.

(** No digest starts with a dot, so no file is named like a temporary one. *)
Lemma hex_of_digest_dot d s : hex_of_digest d ≠ "." +:+ s.
Proof.
  intros H. apply (f_equal bytes_of) in H. unfold hex_of_digest in H.
  rewrite bytes_of_string_of, bytes_of_app in H. pose proof (hex_bytes_digits d) as Hd.
  by rewrite H in Hd.
Qed.

Lemma media_of_media m : media_of_str (media_str m) = Some m.
Proof. by destruct m. Qed.

(** The object of a reference, its keys in their order. *)
Lemma ref_to_value_eq r :
  AttachmentRef_to_value r = VObject
    ([("attachmentId", VString (ar_attachment_id r)); ("bytes", json_u64 (ar_bytes r));
      ("height", json_u64 (ar_height r)); ("mediaType", VString (media_str (ar_media_type r)))]
     ++ match ar_name r with Some name => [("name", VString name)] | None => [] end
     ++ [("width", json_u64 (ar_width r))]).
Proof. destruct r as [id m b w h [name|]]; vm_compute; reflexivity. Qed.

Lemma ref_of_to_value r :
  is_ok (digest_hex (ar_attachment_id r)) = true → ar_width r ≤ U32_MAX → ar_height r ≤ U32_MAX →
  AttachmentRef_of_value (AttachmentRef_to_value r) = Some r.
Proof.
  intros Hid Hw Hh. rewrite ref_to_value_eq. unfold AttachmentRef_of_value. cbn [as_object mbind option_bind].
  match goal with |- context [forallb ?f ?l] =>
    assert (forallb f l = true) as -> by (destruct (ar_name r); vm_compute; reflexivity) end.
  cbn [negb].
  match goal with |- context [VObject ?l] => set (v := VObject l) end.
  assert (get_str "attachmentId" v = Some (ar_attachment_id r)) as -> by reflexivity.
  assert (get_str "mediaType" v = Some (media_str (ar_media_type r))) as -> by reflexivity.
  assert (get_u64 "bytes" v = Some (ar_bytes r)) as -> by reflexivity.
  assert (get_u64 "width" v = Some (ar_width r)) as -> by (unfold v; by destruct (ar_name r)).
  assert (get_u64 "height" v = Some (ar_height r)) as -> by reflexivity.
  assert (get "name" v = VString <$> ar_name r) as -> by (unfold v; by destruct (ar_name r)).
  cbn [mbind option_bind]. rewrite Hid, media_of_media. cbn [negb mbind option_bind].
  rewrite !(proj2 (N.ltb_ge _ _)) by done. by destruct r as [id m b w h [name|]].
Qed.
Lemma ref_of_value_proper v r :
  AttachmentRef_of_value v = Some r →
  is_ok (digest_hex (ar_attachment_id r)) = true ∧ ar_width r ≤ U32_MAX ∧ ar_height r ≤ U32_MAX.
Proof.
  unfold AttachmentRef_of_value. destruct (as_object v) as [m|]; [|done]. cbn [mbind option_bind].
  destruct (negb _); [done|]. destruct (get_str "attachmentId" v) as [id|]; [|done].
  cbn [mbind option_bind]. destruct (is_ok (digest_hex id)) eqn:Hid; cbn [negb]; [|done].
  destruct (_ ≫= media_of_str) as [media|]; [|done]. cbn [mbind option_bind].
  destruct (get_u64 "bytes" v) as [b|]; [|done]. cbn [mbind option_bind].
  destruct (get_u64 "width" v) as [w|]; [|done]. cbn [mbind option_bind].
  destruct (get_u64 "height" v) as [h|]; [|done]. cbn [mbind option_bind].
  destruct (_ || _) eqn:Hb; [done|]. apply orb_false_iff in Hb as [Hw%N.ltb_ge Hh%N.ltb_ge].
  intros Hr. apply bind_Some in Hr as (name & _ & [= <-]). done.
Qed.

(** ** Validation *)

Section validated.
Context `{Sha256}.
Context (limits : AttachmentLimits).

(** What an accepted image is. *)
Definition describes (data : bytes) (v : ValidatedImage) : Prop :=
  vi_id v = from_digest (digest_of data) ∧ vi_bytes v = N.of_nat (length data) ∧
  vi_bytes v ≤ al_max_image_bytes limits ∧ vi_media_type v ∈ al_media_types limits ∧
  parse_image data = Some (Ok (vi_media_type v, vi_width v, vi_height v)) ∧
  0 < vi_width v ∧ 0 < vi_height v ∧ vi_width v * vi_height v ≤ al_max_image_pixels limits.

Lemma validate_bytes_total data name : ∃ r, validate_bytes limits data name = Some r.
Proof.
  unfold validate_bytes. destruct (_ <? _); [by eexists|].
  destruct (parse_image_fits data) as (r & -> & _). by eexists.
Qed.

Lemma validate_bytes_Ok data name v :
  validate_bytes limits data name = Some (Ok v) ↔ describes data v ∧ vi_name v = sanitize_name name.
Proof.
  unfold validate_bytes, describes. destruct (N.ltb_spec (al_max_image_bytes limits) (N.of_nat (length data))).
  { split; [done|]. intros [(?&?&?&?) ?]. lia. }
  destruct (parse_image_fits data) as (r & -> & _). cbn [mbind option_bind].
  destruct r as [[[m w] h]|e]; cbn [mbind result_bind]; [|split; [done|naive_solver]].
  case_bool_decide; cbn [negb]; [|split; [done|naive_solver]].
  destruct (_ || _) eqn:Hp.
  { split; [done|]. intros [(?&?&?&?&[= -> -> ->]&?&?&?) ?].
    rewrite !orb_true_iff, !N.eqb_eq, N.ltb_lt in Hp. lia. }
  rewrite !orb_false_iff, !N.eqb_neq, N.ltb_ge in Hp. destruct Hp as [[??]?]. split.
  - intros [= <-]. cbn. split_and!; try done; lia.
  - intros [(Hi & Hs & ? & ? & [= -> -> ->] & ? & ? & ?) Hn]. destruct v. cbn in *. by subst.
Qed.
End validated.

(** ** Triples of the store

    A computation of the store ends without a panic in an outcome that [Q] allows. *)

Definition att_ends {A} (m : Att A) (s : AttachmentDir)
    (Q : result AttachmentError A → AttachmentDir → Prop) : Prop :=
  ∃ r s', m s = Some (r, s') ∧ Q r s'.

Lemma att_ends_mono {A} (m : Att A) s (Q Q' : result AttachmentError A → AttachmentDir → Prop) :
  att_ends m s Q → (∀ r s', Q r s' → Q' r s') → att_ends m s Q'.
Proof. intros (r & s' & Hm & Hq) HQ. exists r, s'. auto. Qed.
Lemma att_ends_ret {A} (a : A) s (Q : result AttachmentError A → AttachmentDir → Prop) :
  Q (Ok a) s → att_ends (mret a) s Q.
Proof. intros Hq. by exists (Ok a), s. Qed.
Lemma att_ends_lift {A} (r : result AttachmentError A) s Q : Q r s → att_ends (att_lift r) s Q.
Proof. intros Hq. by exists r, s. Qed.
Lemma att_ends_bind {A B} (m : Att A) (k : A → Att B) s Q :
  att_ends m s (λ r s', match r with Ok a => att_ends (k a) s' Q | Err e => Q (Err e) s' end) →
  att_ends (m ≫= k) s Q.
Proof.
  intros ([a|e] & s' & Hm & Hq); unfold mbind, Att_bind, att_ends; rewrite Hm; [exact Hq|].
  by exists (Err e), s'.
Qed.
Lemma att_ends_try {A} (m : Att A) s Q :
  att_ends m s (λ r s', Q (Ok r) s') → att_ends (att_try m) s Q.
Proof. intros (r & s' & Hm & Hq). exists (Ok r), s'. unfold att_try. by rewrite Hm. Qed.
Lemma att_ends_check {A} (r : option (result AttachmentError A)) s Q a :
  r = Some a → Q a s → att_ends (att_check r) s Q.
Proof. intros -> Hq. by exists a, s. Qed.
Lemma att_ends_at {A} (m : Att A) s r s' (Q : result AttachmentError A → AttachmentDir → Prop) :
  att_ends m s Q → m s = Some (r, s') → Q r s'.
Proof. intros (r' & s'' & Hm & Hq) Hs. rewrite Hm in Hs. by injection Hs as -> ->. Qed.

(** A successful computation is one successful part after another. *)
Lemma att_bind_Ok {A B} (m : Att A) (k : A → Att B) s b s' :
  (m ≫= k) s = Some (Ok b, s') → ∃ a s1, m s = Some (Ok a, s1) ∧ k a s1 = Some (Ok b, s').
Proof. unfold mbind, Att_bind. destruct (m s) as [[[a|e] s1]|]; [|done..]. eauto. Qed.

Ltac invert_att :=
  repeat match goal with
  | H : (_ ≫= _) _ = Some (Ok _, _) |- _ =>
      let a := fresh "a" in let s := fresh "s" in let Hm := fresh "Hm" in
      apply att_bind_Ok in H as (a & s & Hm & H)
  | H : att_lift _ _ = Some (Ok _, _) |- _ => unfold att_lift in H
  | H : mret _ _ = Some (Ok _, _) |- _ => unfold mret, Att_ret in H
  | H : Some (Ok _, _) = Some (Ok _, _) |- _ => injection H as H; subst
  | H : Some (Err _, _) = Some (Ok _, _) |- _ => discriminate H
  end.

Section store_facts.
Context `{Sha256, AttachmentDisk}.
Context (limits : AttachmentLimits).

Lemma att_check_Ok {A} (r : option (result AttachmentError A)) s a s' :
  att_check r s = Some (Ok a, s') → r = Some (Ok a) ∧ s' = s.
Proof. unfold att_check. destruct r as [r|]; [|done]. by intros [= -> ->]. Qed.

(** What a successful read has checked. *)
Lemma read_Ok id s d s' :
  read limits id s = Some (Ok d, s') →
  ∃ v, describes limits (ad_data d) v ∧ vi_id v = id ∧ ad_reference d = reference v.
Proof.
  unfold read. intros Hr. invert_att. apply att_check_Ok in Hm1 as [Hv ->].
  case_bool_decide; cbn [negb] in Hr; invert_att. apply validate_bytes_Ok in Hv as [Hd _].
  exists a1. done.
Qed.

Lemma same_metadata_eq a b :
  same_metadata a b = true → ar_media_type a = ar_media_type b ∧ ar_bytes a = ar_bytes b ∧
    ar_width a = ar_width b ∧ ar_height a = ar_height b.
Proof.
  unfold same_metadata. rewrite !andb_true_iff, bool_decide_eq_true, !N.eqb_eq. tauto.
Qed.

Lemma read_ref_bounded_Ok r max s d s' :
  read_ref_bounded limits r max s = Some (Ok d, s') →
  ad_reference d = r ∧ N.of_nat (length (ad_data d)) ≤ max ∧
  ∃ v, describes limits (ad_data d) v ∧ vi_id v = ar_attachment_id r ∧
    same_metadata (reference v) r = true.
Proof.
  unfold read_ref_bounded. intros Hr. destruct (_ <? _); [done|]. invert_att.
  destruct (max <? N.of_nat (length a0)); [done|]. invert_att.
  set (data := if max <? U64_MAX then _ else _) in Hr.
  destruct (N.ltb_spec max (N.of_nat (length data))); [done|]. invert_att.
  apply att_check_Ok in Hm3 as [Hv ->]. case_bool_decide; cbn [negb] in Hr; [|invert_att].
  destruct (same_metadata _ _) eqn:Hs; cbn [negb] in Hr; invert_att.
  apply validate_bytes_Ok in Hv as [Hd _]. cbn. split_and!; [done..|]. by exists a3.
Qed.
End store_facts.

(** ** A saved image stays readable *)

(** SHA-256 has 32 bytes. *)
Class Sha256Law `{Sha256} : Prop := digest_length data : length (digest_of data) = 32%nat.

(** The name of the file of some bytes. *)
Definition stored_name `{Sha256} (data : bytes) : string := hex_of_digest (digest_of data).

Lemma stored_digest_hex `{Sha256Law} limits data v :
  describes limits data v → digest_hex (vi_id v) = Ok (stored_name data).
Proof. intros (-> & _). apply digest_hex_from, digest_length. Qed.

Section kept.
#[local] Set Default Proof Using "Type*".
Context `{Sha256Law, AttachmentDisk}.
Context (limits : AttachmentLimits).
(** The other tasks only add. *)
Hypothesis others_add : ∀ i nodes, nodes ⊆ at_others i nodes.

Lemma others_keep i nodes name n : nodes !! name = Some n → at_others i nodes !! name = Some n.
Proof. apply lookup_weaken_with || intros Hn; by eapply lookup_weaken. Qed.

Lemma failing_Ok what i u : failing what i = Ok u ↔ at_fault i = None.
Proof. unfold failing. destruct (at_fault i), u; naive_solver. Qed.

Lemma att_io_nodes what s a s' name n :
  att_io what s = Some (Ok a, s') → dir_nodes s !! name = Some n → dir_nodes s' !! name = Some n.
Proof. intros [= _ <-] Hn. by apply others_keep. Qed.

Lemma canonicalize_Ok name s f s' :
  canonicalize name s = Some (Ok f, s') →
  dir_nodes s' = at_others (dir_step s) (dir_nodes s) ∧
  (f = Inside → ∃ data, dir_nodes s' !! name = Some (NodeFile data)).
Proof.
  intros [= <- <-]. cbn. split; [done|]. destruct (at_fault _); [done|].
  destruct (_ !! name) as [[data|data]|]; [eauto|done..].
Qed.

Lemma read_node_Ok what name s data s' n :
  read_node what name s = Some (Ok data, s') → dir_nodes s !! name = Some n →
  data = node_data n ∧ dir_nodes s' !! name = Some n.
Proof.
  intros [= Hd <-] Hn. cbn in *. pose proof (others_keep (dir_step s) _ _ _ Hn) as Ho.
  rewrite Ho in *. invert_ok. done.
Qed.

Lemma write_new_Ok temporary digest data s u s' :
  write_new temporary digest data s = Some (Ok u, s') → dir_nodes s' !! digest = Some (NodeFile data).
Proof.
  unfold write_new. intros Hw. invert_att.
  assert (∃ n, dir_nodes s0 !! temporary = Some n) as [n0 Hn0].
  { unfold att_step in Hm. destruct (failing _ _); [|done]. destruct (_ !! temporary); [done|].
    injection Hm as _ <-. cbn. rewrite lookup_insert_eq. by eexists. }
  assert (dir_nodes s1 !! temporary = Some (NodeFile data)) as Hn1.
  { unfold att_step in Hm0. destruct (failing _ _); [|done]. injection Hm0 as _ <-. cbn.
    rewrite lookup_alter_eq. by rewrite (others_keep _ _ _ _ Hn0). }
  pose proof (att_io_nodes _ _ _ _ _ _ Hm1 Hn1) as Hn2. unfold att_step in Hw.
  destruct (failing _ _); [|done]. rewrite (others_keep _ _ _ _ Hn2) in Hw.
  injection Hw as _ <-. cbn. by rewrite lookup_insert_eq.
Qed.

Lemma persist_stored data image s p s' :
  (∀ data', digest_of data' = digest_of data → data' = data) → describes limits data image →
  persist limits data image s = Some (Ok p, s') →
  p.1 = reference image ∧ dir_nodes s' !! stored_name data = Some (NodeFile data).
Proof.
  intros Hinj Hd. unfold persist. intros Hp. invert_att.
  rewrite (stored_digest_hex _ _ _ Hd) in Hm0. unfold att_lift in Hm0. injection Hm0 as <- <-.
  apply canonicalize_Ok in Hm1 as [_ Hin]. destruct a1; invert_att.
  - unfold att_try in Hm1. destruct (write_new _ _ _ _) as [[[u|e] s4]|] eqn:Hw; cbn in Hm1;
      [| |done]; injection Hm1 as <- <-; invert_att.
    split; [done|]. by eapply write_new_Ok.
  - destruct (Hin eq_refl) as [existing He]. destruct (read_node_Ok _ _ _ _ _ _ Hm0 He) as [-> He3].
    apply att_check_Ok in Hm1 as [Hv ->]. case_bool_decide as Hid; cbn [negb] in Hp; invert_att.
    split; [done|]. rewrite He3. do 2 f_equal. apply Hinj. apply validate_bytes_Ok in Hv as [[Hv _] _].
    destruct Hd as [Hd _]. apply from_digest_inj. cbn in *. congruence.
  - done.
Qed.

(** ** Reading it back *)

Lemma quiet_io what s : at_fault (dir_step s) = None →
  att_io what s = Some (Ok tt, mkDir (at_others (dir_step s) (dir_nodes s)) (S (dir_step s))).
Proof. intros Hf. unfold att_io, att_step, failing. by rewrite Hf. Qed.

Lemma quiet_read what name s n : at_fault (dir_step s) = None → dir_nodes s !! name = Some n →
  read_node what name s
  = Some (Ok (node_data n), mkDir (at_others (dir_step s) (dir_nodes s)) (S (dir_step s))).
Proof.
  intros Hf Hn. unfold read_node, att_step, failing.
  by rewrite Hf, (others_keep (dir_step s) _ _ _ Hn).
Qed.

Lemma quiet_canonicalize name s data :
  at_fault (dir_step s) = None → dir_nodes s !! name = Some (NodeFile data) →
  canonicalize name s = Some (Ok Inside, mkDir (at_others (dir_step s) (dir_nodes s)) (S (dir_step s))).
Proof.
  intros Hf Hn. unfold canonicalize, att_step. by rewrite Hf, (others_keep (dir_step s) _ _ _ Hn).
Qed.

Lemma reads_back s r data v max :
  (∀ i, (dir_step s ≤ i)%nat → at_fault i = None) →
  dir_nodes s !! stored_name data = Some (NodeFile data) → describes limits data v →
  ar_attachment_id r = vi_id v → same_metadata (reference v) r = true →
  N.of_nat (length data) ≤ max →
  ∃ s', read_ref_bounded limits r max s = Some (Ok (mkData r data), s').
Proof.
  intros Hf Hn Hd Hid Hsame Hmax. destruct (same_metadata_eq _ _ Hsame) as (_ & Hb & _).
  pose proof (stored_digest_hex _ _ _ Hd) as Hname. destruct Hd as (Hvi & Hvb & Hd).
  cbn in Hb. unfold read_ref_bounded, open_target, directory, mbind, Att_bind.
  rewrite <-Hb, Hvb, (proj2 (N.ltb_ge _ _)) by done.
  rewrite quiet_io by (apply Hf; lia). cbn [dir_step dir_nodes].
  rewrite quiet_io by (apply Hf; cbn; lia). cbn [dir_step dir_nodes].
  unfold att_lift at 1. rewrite Hid, Hname.
  rewrite (quiet_canonicalize _ _ data); cycle 1; [apply Hf; cbn; lia|cbn; by do 2 apply others_keep|].
  cbn [dir_step dir_nodes]. unfold mret, Att_ret.
  rewrite (quiet_read _ _ _ (NodeFile data)); cycle 1;
    [apply Hf; cbn; lia|cbn; by do 3 apply others_keep|]. cbn [dir_step dir_nodes node_data].
  rewrite (proj2 (N.ltb_ge _ _)) by done.
  rewrite (quiet_read _ _ _ (NodeFile data)); cycle 1;
    [apply Hf; cbn; lia|cbn; by do 4 apply others_keep|]. cbn [dir_step dir_nodes node_data].
  rewrite quiet_io by (apply Hf; cbn; lia). cbn [dir_step dir_nodes].
  assert ((if max <? U64_MAX then take (N.to_nat (max + 1)) data else data) = data) as ->.
  { destruct (_ <? _); [|done]. apply take_ge. lia. }
  rewrite (proj2 (N.ltb_ge _ _)) by done.
  destruct (validate_bytes_total limits data None) as [x Hx].
  assert (∃ v', validate_bytes limits data None = Some (Ok v') ∧ describes limits data v') as (v' & Hv' & Hd').
  { destruct v as [m b w h id nm]. exists (mkValidated m b w h id None).
    split; [|by split]. apply validate_bytes_Ok. split; [by split|done]. }
  unfold att_check. rewrite Hv'. cbn [mbind option_bind].
  destruct Hd' as (Hvi' & Hvb' & _ & _ & Hp' & _). destruct Hd as (_ & _ & Hp & _).
  rewrite Hp' in Hp. injection Hp as Hm Hw Hh.
  rewrite bool_decide_eq_true_2 by congruence. cbn [negb].
  assert (same_metadata (reference v') r = true) as ->; [|by eexists].
  unfold same_metadata in *. cbn in *. by rewrite Hm, Hw, Hh, Hvb', <-Hvb.
Qed.
End kept.

(** ** Batches, alone *)

Section alone.
#[local] Set Default Proof Using "Type*".
Context `{Sha256Law, AttachmentDisk}.
Context (limits : AttachmentLimits).
(** No other task touches the directory, at most one step fails, and the names of
    temporary files are fresh. *)
Hypothesis alone : ∀ i nodes, at_others i nodes = nodes.
Hypothesis one_fault : ∀ i j, is_Some (at_fault i) → is_Some (at_fault j) → i = j.

(** Every file with the name of a digest holds an admitted image of that digest. *)
Definition sound (nodes : Nodes) : Prop :=
  (∀ d n, length d = 32%nat → nodes !! hex_of_digest d = Some n →
     ∃ data v, n = NodeFile data ∧ describes limits data v ∧ digest_of data = d) ∧
  (∀ digest i, nodes !! temporary_name digest i = None).

(** A failure has had its fault: nothing fails afterwards. *)
Definition spent (s : AttachmentDir) : Prop := ∀ i, (dir_step s ≤ i)%nat → at_fault i = None.

Lemma fault_spent i e s : at_fault i = Some e → (i < dir_step s)%nat → spent s.
Proof.
  intros Hi Hlt j Hj. destruct (at_fault j) eqn:Hf; [|done].
  assert (i = j) by (apply one_fault; by eexists). lia.
Qed.

Lemma failing_fault what i e : failing what i = Err e → is_Some (at_fault i).
Proof. unfold failing. destruct (at_fault i); [by eexists|done]. Qed.

(** One step that changes the files by [f] unless it fails; then it fails for good. *)
Lemma step_ends {A} (op : nat → Nodes → result AttachmentError A * Nodes) s Q :
  (∀ r nodes, op (dir_step s) (dir_nodes s) = (r, nodes) → Q r (mkDir nodes (S (dir_step s)))) →
  att_ends (att_step op) s Q.
Proof.
  intros Hq. unfold att_ends, att_step. rewrite alone. destruct (op _ _) as [r nodes] eqn:Ho.
  exists r, (mkDir nodes (S (dir_step s))). split; [done|]. by apply Hq.
Qed.

Lemma io_ends what s (Q : result AttachmentError unit → AttachmentDir → Prop) :
  (∀ r s', dir_nodes s' = dir_nodes s → (dir_step s < dir_step s')%nat → (∀ e, r = Err e → spent s') →
     Q r s') → att_ends (att_io what) s Q.
Proof.
  intros Hq. apply step_ends. intros r nodes [= <- <-]. apply Hq; [done|cbn; lia|].
  intros e [x Hx]%failing_fault. eapply fault_spent; [exact Hx|]. cbn. lia.
Qed.

Lemma directory_ends s (Q : result AttachmentError unit → AttachmentDir → Prop) :
  (∀ r s', dir_nodes s' = dir_nodes s → (dir_step s < dir_step s')%nat → (∀ e, r = Err e → spent s') →
     Q r s') → att_ends directory s Q.
Proof.
  intros Hq. apply att_ends_bind, io_ends. intros [[]|e] s1 Hn1 Hs1 He1; [|by apply Hq].
  apply io_ends. intros r s2 Hn2 Hs2 He2. apply Hq; [congruence|lia|done].
Qed.

Lemma spent_mono s s' : spent s → (dir_step s ≤ dir_step s')%nat → spent s'.
Proof. intros Hs Hle i Hi. apply Hs. lia. Qed.

(** A new file, or, if that fails, at most the temporary one is left. *)
Lemma write_new_ends temporary digest data s (Q : result AttachmentError unit → AttachmentDir → Prop) :
  dir_nodes s !! temporary = None → temporary ≠ digest →
  (∀ r s', (dir_step s < dir_step s')%nat →
     (r = Ok tt → dir_nodes s' = <[digest := NodeFile data]> (dir_nodes s)) →
     (∀ e, r = Err e → spent s' ∧ delete temporary (dir_nodes s') = dir_nodes s) → Q r s') →
  att_ends (write_new temporary digest data) s Q.
Proof.
  intros Ht Hne Hq. unfold write_new. apply att_ends_bind, step_ends. intros r1 n1 Ho1.
  destruct (failing _ (dir_step s)) as [u|e] eqn:Hf1.
  2: { injection Ho1 as <- <-. destruct (failing_fault _ _ _ Hf1) as [x Hx].
       apply Hq; [cbn; lia|done|]. intros _ _. split; [eapply fault_spent; [exact Hx|cbn; lia]|].
       cbn. by apply delete_id. }
  rewrite Ht in Ho1. injection Ho1 as <- <-. apply att_ends_bind, step_ends. intros r2 n2 Ho2.
  cbn [dir_step dir_nodes] in *.
  destruct (failing _ (S (dir_step s))) as [u2|e] eqn:Hf2; injection Ho2 as <- <-.
  2: { destruct (failing_fault _ _ _ Hf2) as [x Hx]. apply Hq; [cbn; lia|done|]. intros _ _.
       split; [eapply fault_spent; [exact Hx|cbn; lia]|]. cbn.
       rewrite alter_insert_eq, delete_insert_id by done. done. }
  apply att_ends_bind, io_ends. cbn [dir_step dir_nodes]. intros r3 s3 Hn3 Hs3 He3.
  rewrite alter_insert_eq in Hn3. destruct r3 as [[]|e].
  2: { apply Hq; [lia|done|]. intros _ _. split; [by eapply He3|].
       rewrite Hn3. by rewrite delete_insert_id. }
  apply step_ends. intros r4 n4 Ho4. rewrite Hn3, lookup_insert_eq in Ho4.
  destruct (failing _ (dir_step s3)) as [u4|e] eqn:Hf4; injection Ho4 as <- <-.
  2: { destruct (failing_fault _ _ _ Hf4) as [x Hx]. apply Hq; [cbn; lia|done|]. intros _ _.
       split; [eapply fault_spent; [exact Hx|cbn; lia]|]. cbn. by rewrite delete_insert_id. }
  apply Hq; [cbn; lia|intros _; cbn|done]. by rewrite delete_insert_id.
Qed.

Lemma canonicalize_ends name s (Q : result AttachmentError found → AttachmentDir → Prop) :
  (∀ f s', dir_nodes s' = dir_nodes s → (dir_step s < dir_step s')%nat →
     match f with
     | Absent => dir_nodes s !! name = None
     | Inside => ∃ data, dir_nodes s !! name = Some (NodeFile data)
     | Escapes => ∃ data, dir_nodes s !! name = Some (NodeOutside data)
     | Unreadable _ => spent s'
     end → Q (Ok f) s') →
  att_ends (canonicalize name) s Q.
Proof.
  intros Hq. apply step_ends. intros r nodes [= <- <-]. apply Hq; [done|cbn; lia|].
  destruct (at_fault (dir_step s)) eqn:Hf.
  { eapply fault_spent; [exact Hf|cbn; lia]. }
  destruct (_ !! name) as [[d|d]|]; eauto.
Qed.

Lemma read_node_ends what name s n Q :
  dir_nodes s !! name = Some n →
  (∀ r s', dir_nodes s' = dir_nodes s → (dir_step s < dir_step s')%nat →
     (∀ d, r = Ok d → d = node_data n) → (∀ e, r = Err e → spent s') → Q r s') →
  att_ends (read_node what name) s Q.
Proof.
  intros Hn Hq. apply step_ends. intros r nodes Ho. rewrite Hn in Ho. injection Ho as <- <-.
  destruct (failing what (dir_step s)) eqn:Hf; cbn; apply Hq; try done; try (cbn; lia).
  - by intros d [= <-].
  - intros e' [= <-]. destruct (failing_fault _ _ _ Hf) as [x Hx].
    eapply fault_spent; [exact Hx|cbn; lia].
Qed.

Lemma name_of_digest d : hex_of_digest (digest_of d) = stored_name d.
Proof. done. Qed.

Lemma image_temporary_ne digest d i : temporary_name digest i ≠ hex_of_digest d.
Proof. intros H'. symmetry in H'. by apply hex_of_digest_dot in H'. Qed.

(** What one image of a batch does to the files. *)
Definition stored (data : bytes) (image : ValidatedImage) (s : AttachmentDir)
    (r : result AttachmentError (AttachmentRef * bool)) (s' : AttachmentDir) : Prop :=
  (dir_step s < dir_step s')%nat ∧
  match r with
  | Ok (ref, true) => ref = reference image ∧ dir_nodes s !! stored_name data = None ∧
      dir_nodes s' = <[stored_name data := NodeFile data]> (dir_nodes s)
  | Ok (ref, false) => ref = reference image ∧ dir_nodes s' = dir_nodes s ∧
      is_Some (dir_nodes s !! stored_name data)
  | Err _ => spent s' ∧ dir_nodes s' = dir_nodes s
  end.

Lemma remove_quietly_ends name s (Q : result AttachmentError unit → AttachmentDir → Prop) :
  spent s →
  (∀ s', (dir_step s < dir_step s')%nat → dir_nodes s' = delete name (dir_nodes s) → Q (Ok tt) s') →
  att_ends (remove_quietly name) s Q.
Proof.
  intros Hs Hq. apply step_ends. rewrite (Hs (dir_step s)) by lia. intros r nodes [= <- <-].
  apply Hq; [cbn; lia|done].
Qed.

Lemma persist_ends data image s :
  sound (dir_nodes s) → describes limits data image →
  att_ends (persist limits data image) s (stored data image s).
Proof.
  intros [Hsound Hfresh] Hd. unfold persist, stored. apply att_ends_bind, directory_ends.
  intros [[]|e] s1 Hn1 Hs1 He1; [|by split; [|split; [eapply He1|]]].
  apply att_ends_bind, att_ends_lift. rewrite (stored_digest_hex _ _ _ Hd). cbn.
  apply att_ends_bind, canonicalize_ends. intros f s2 Hn2 Hs2 Hf. rewrite Hn1 in Hn2, Hf.
  destruct f as [| | |e].
  - apply att_ends_bind, att_ends_ret, att_ends_bind, att_ends_try, write_new_ends.
    { rewrite Hn2. apply Hfresh. } { apply image_temporary_ne. }
    intros r s3 Hs3 Hok Herr. destruct r as [[]|e].
    { apply att_ends_ret. split; [lia|]. split_and!; [done..|]. by rewrite Hok, Hn2. }
    destruct (Herr e eq_refl) as [Hsp Hdel].
    apply att_ends_bind, remove_quietly_ends; [done|]. intros s4 Hs4 Hn4. apply att_ends_lift.
    split; [lia|]. split; [eapply spent_mono; [done|lia]|]. congruence.
  - destruct Hf as [existing He]. apply att_ends_bind. rewrite <-Hn2 in He.
    apply (read_node_ends _ _ _ _ _ He). intros r s3 Hn3 Hs3 Hok Herr. destruct r as [d|e].
    2: { split; [lia|]. split; [by eapply Herr|congruence]. }
    rewrite (Hok d eq_refl). cbn [node_data]. rewrite Hn2 in He.
    destruct (Hsound _ _ (digest_length data) He) as (x & v & [= <-] & Hv & Hdig).
    apply att_ends_bind. eapply att_ends_check.
    { apply (validate_bytes_Ok limits _ _ (mkValidated (vi_media_type v) (vi_bytes v) (vi_width v)
        (vi_height v) (vi_id v) (sanitize_name (vi_name image)))). by split. }
    cbn [vi_id]. rewrite bool_decide_eq_true_2.
    2: { destruct Hd as [-> _], Hv as [-> _]. by rewrite Hdig. }
    cbn [negb]. apply att_ends_ret. split; [lia|]. split_and!; [done|congruence|by eexists].
  - destruct Hf as [data' He]. by destruct (Hsound _ _ (digest_length data) He) as (x & v & [=] & _).
  - apply att_ends_lift. split; [lia|]. split; [done|congruence].
Qed.

Lemma sound_insert nodes data v :
  sound nodes → describes limits data v → sound (<[stored_name data := NodeFile data]> nodes).
Proof.
  intros [Hs Hf] Hd. split.
  - intros d n Hl. destruct (decide (stored_name data = hex_of_digest d)) as [He|Hne].
    + apply hex_of_digest_inj in He. rewrite <-He, name_of_digest, lookup_insert_eq.
      intros [= <-]. by exists data, v.
    + rewrite lookup_insert_ne by done. by apply Hs.
  - intros digest i. rewrite lookup_insert_ne; [done|]. intros He. by eapply image_temporary_ne.
Qed.

(** The files without those a batch has made. *)
Definition without (created : list AttachmentId) (nodes : Nodes) : Nodes :=
  foldr (λ id nodes, match digest_hex id with Ok name => delete name nodes | Err _ => nodes end)
    nodes created.

(** What is known of the files that a batch has made. *)
Definition made (created : list AttachmentId) (nodes : Nodes) : Prop :=
  NoDup created ∧
  Forall (λ id, ∃ data, id = from_digest (digest_of data) ∧
                  nodes !! stored_name data = Some (NodeFile data)) created.

Lemma without_delete created nodes name :
  without created (delete name nodes) = delete name (without created nodes).
Proof.
  unfold without. induction created as [|id created IH]; cbn [foldr]; [done|]. rewrite IH.
  destruct (digest_hex id); [apply delete_delete|done].
Qed.

Lemma adds i (nodes : Nodes) : nodes ⊆ at_others i nodes.
Proof. by rewrite alone. Qed.

Lemma spent_remove s data :
  spent s → dir_nodes s !! stored_name data = Some (NodeFile data) →
  ∃ s', remove_if_confined (from_digest (digest_of data)) s = Some (Ok tt, s') ∧
    (dir_step s < dir_step s')%nat ∧ dir_nodes s' = delete (stored_name data) (dir_nodes s).
Proof.
  intros Hsp Hn. unfold remove_if_confined, directory, mbind, Att_bind.
  rewrite !(quiet_io adds) by (apply Hsp; cbn; lia). cbn [dir_nodes dir_step].
  unfold att_lift at 1. rewrite digest_hex_from by apply digest_length. rewrite !alone.
  rewrite name_of_digest. rewrite (quiet_canonicalize adds _ _ data); [|apply Hsp; cbn; lia|done].
  cbn [dir_nodes dir_step]. unfold att_step, failing. cbn [dir_nodes dir_step]. rewrite !alone.
  rewrite (Hsp (S (S (S (dir_step s))))) by (cbn; lia). rewrite Hn. cbn.
  eexists. split; [done|]. cbn. split; [lia|done].
Qed.

Lemma remove_created_ends created s :
  spent s → made created (dir_nodes s) →
  att_ends (remove_created created) s (λ _ s', dir_nodes s' = without created (dir_nodes s)).
Proof.
  revert s. induction created as [|id created IH]; intros s Hsp [Hnd Hm]; [by apply att_ends_ret|].
  apply NoDup_cons in Hnd as [Hnin Hnd]. apply Forall_cons in Hm as [(data & -> & Hn) Hm].
  cbn [remove_created]. apply att_ends_bind, att_ends_try.
  destruct (spent_remove s data Hsp Hn) as (s1 & Hr & Hs1 & Hn1). eexists _, s1. split; [exact Hr|].
  cbn. eapply att_ends_mono; [apply IH; [eapply spent_mono; [done|lia]|split; [done|]]|].
  - rewrite Forall_forall in Hm |- *. intros id Hid. destruct (Hm id Hid) as (d & -> & Hd).
    exists d. split; [done|]. rewrite Hn1, lookup_delete_ne; [done|].
    intros He. apply Hnin. apply hex_of_digest_inj in He. by rewrite He.
  - intros r s2 ->. rewrite Hn1, without_delete. cbn.
    by rewrite digest_hex_from by apply digest_length.
Qed.

Lemma persist_batch_ends batch : ∀ created s,
  sound (dir_nodes s) → made created (dir_nodes s) →
  Forall (λ p, describes limits (ai_data p.1) p.2) batch →
  att_ends (persist_batch limits created batch) s (λ r s',
    match r with
    | Ok refs => refs = reference <$> batch.*2 ∧ dir_nodes s ⊆ dir_nodes s' ∧
        Forall (λ p, is_Some (dir_nodes s' !! stored_name (ai_data p.1))) batch
    | Err _ => dir_nodes s' = without created (dir_nodes s)
    end).
Proof.
  induction batch as [|[input image] batch IH]; intros created s Hs Hm Hb.
  { apply att_ends_ret. by split_and!. }
  apply Forall_cons in Hb as [Hd Hb]. cbn [fst snd] in Hd. cbn [persist_batch].
  apply att_ends_bind, att_ends_try. eapply att_ends_mono; [by apply (persist_ends _ image)|].
  intros r s1 [Hs1 Hr]. destruct r as [[ref []]|e]; cbn [fst snd].
  - destruct Hr as (-> & Hnone & Hn1). apply att_ends_bind.
    assert (vi_id image = from_digest (digest_of (ai_data input))) as Hid by apply Hd.
    eapply att_ends_mono; [apply IH; [|split|done]|].
    + rewrite Hn1. by eapply sound_insert.
    + destruct Hm as [Hnd Hm]. apply NoDup_app. split_and!; [done| |apply NoDup_singleton].
      intros id Hin ->%list_elem_of_singleton. rewrite Forall_forall in Hm.
      destruct (Hm _ Hin) as (d & He & Hd'). cbn in He. rewrite Hid in He.
      apply from_digest_inj in He. unfold stored_name in *. congruence.
    + destruct Hm as [Hnd Hm]. apply Forall_app. split.
      * eapply Forall_impl; [exact Hm|]. intros id (d & -> & Hd'). exists d. split; [done|].
        rewrite Hn1, lookup_insert_ne; [done|]. congruence.
      * apply Forall_singleton. exists (ai_data input). cbn. by rewrite Hn1, lookup_insert_eq.
    + intros [refs|e] s2; cbn beta iota.
      * intros (-> & Hsub & Hall). apply att_ends_ret. split; [done|].
        rewrite Hn1 in Hsub. split.
        { etrans; [by apply insert_subseteq|exact Hsub]. }
        constructor; [|done]. cbn [fst]. eexists. eapply lookup_weaken; [|exact Hsub].
        by rewrite lookup_insert_eq.
      * intros ->. rewrite Hn1. unfold without. rewrite foldr_app. cbn [foldr reference ar_attachment_id].
        rewrite Hid, digest_hex_from by apply digest_length. rewrite name_of_digest.
        by rewrite delete_insert_id.
  - destruct Hr as (-> & Hn1 & Hsome). apply att_ends_bind. rewrite <-Hn1.
    eapply att_ends_mono; [apply IH; by rewrite ?Hn1|]. intros [refs|e] s2; cbn beta iota; [|done].
    intros (-> & Hsub & Hall). apply att_ends_ret. split_and!; [done..|]. constructor; [|done].
    cbn [fst]. rewrite Hn1 in Hsub. destruct Hsome as [n Hn]. eexists. by eapply lookup_weaken.
  - destruct Hr as (Hsp & Hn1). apply att_ends_bind.
    eapply att_ends_mono; [apply remove_created_ends; [done|by rewrite Hn1]|].
    intros r s2 Hs2. rewrite Hn1 in Hs2. destruct r; [|done]. by apply att_ends_lift.
Qed.
End alone.

(** The checks of a batch never panic, and describe every image. *)
Lemma validate_batch_total `{Sha256} limits inputs total :
  ∃ r, validate_batch limits total inputs = Some r ∧
    ∀ images, r = Ok images → length images = length inputs ∧
      Forall (λ p, describes limits (ai_data p.1) p.2) (zip inputs images).
Proof.
  revert total. induction inputs as [|input inputs IH]; intros total; cbn [validate_batch].
  { eexists. split; [done|]. intros images [= <-]. by split. }
  destruct (validate_bytes_total limits (ai_data input) (ai_name input)) as [r Hr]. rewrite Hr.
  cbn [mbind option_bind]. destruct r as [v|e]; [|eexists; split; [done|intros ? [=]]].
  destruct (u64_checked_add total (vi_bytes v)) as [t|]; [|eexists; split; [done|intros ? [=]]].
  destruct (_ <? t); [eexists; split; [done|intros ? [=]]|].
  destruct (IH t) as (rest & -> & Hrest). cbn [mbind option_bind]. eexists. split; [done|].
  destruct rest as [images|e]; [|intros ? [=]]. destruct (Hrest images eq_refl) as [Hl Hf].
  intros ? [= <-]. split; [cbn; lia|]. constructor; [|done]. by apply validate_bytes_Ok in Hr as [Hd _].
Qed.
