(* ===== verification/Responses.v ===== *)
(** * The Responses API (openai_responses.rs): routes, names, bodies, streams

    The adapter of the OpenAI Responses protocol: the checks of a route and its
    model, the names of tools on the wire, the body of a request, the decoder of
    server-sent events and the state that turns events into chunks.  URLs, JSON text
    and HTTP are third-party code and parameters; the attachment store is
    [Attachments].  A panic is the outcome [Crashed] or [Panicked]. *)

From S2P Require Import Prelude Json Protocol Jsonl Attachments.

#[local] Open Scope N_scope.

Definition MAX_SSE_EVENT_BYTES : N := 4 * 1024 * 1024.
Definition MAX_ERROR_BODY_BYTES : N := 64 * 1024.
Definition REPLAY_TYPE : string := "openai-responses".
Definition REPLAY_VERSION : N := 1.
Definition DEFAULT_ROUTE_ID : string := "openai-responses".
Definition RESPONSES_TEXT_MODALITY : string := "text".
Definition RESPONSES_IMAGE_MODALITY : string := "image".

Definition adapter_error (code message : string) (details : Value) : TessivumError :=
  TessivumError_new code message "llm-adapter" details.
Definition responses_cancelled : TessivumError :=
  adapter_error "CANCELLED" "OpenAI Responses request was cancelled" VNull.

(** ** Models and routes *)

Record ResponsesReasoningEffort := mkEffort { re_id : string; re_wire : option string }.
#[export] Instance ResponsesReasoningEffort_eq_dec : EqDecision ResponsesReasoningEffort.
Proof. solve_decision. Defined.

Record ResponsesModel := mkModel {
  rm_id : string;
  rm_name : option string;
  rm_description : option string;
  rm_input : list string;
  rm_context_window : option N;
  rm_max_tokens : option N;
  rm_reasoning_efforts : list ResponsesReasoningEffort;
  rm_default_reasoning_effort : option string;
}.
#[export] Instance ResponsesModel_eq_dec : EqDecision ResponsesModel.
Proof. solve_decision. Defined.

Definition ResponsesModel_new (id : string) : ResponsesModel :=
  mkModel id None None [RESPONSES_TEXT_MODALITY] None None [] None.

Fixpoint check_modalities (input : list string) : result TessivumError unit :=
  match input with
  | [] => Ok tt
  | modality :: input =>
      if negb (bool_decide (modality ∈ [RESPONSES_TEXT_MODALITY; RESPONSES_IMAGE_MODALITY])) then
        Err (adapter_error "INVALID_OPENAI_MODALITY"
               "OpenAI Responses models support only text and image input"
               (json_object [("modality", VString modality)]))
      else check_modalities input
  end.

Definition ResponsesModel_validate (m : ResponsesModel) : result TessivumError unit :=
  if is_empty (trim (rm_id m)) then
    Err (adapter_error "INVALID_OPENAI_MODEL" "OpenAI Responses model ids must not be empty" VNull)
  else
    _ ← check_modalities (rm_input m);
    if bool_decide (rm_context_window m = Some 0) || bool_decide (rm_max_tokens m = Some 0) then
      Err (adapter_error "INVALID_OPENAI_MODEL"
             "OpenAI Responses model limits must be positive when present" VNull)
    else if match rm_default_reasoning_effort m with
            | Some effort => negb (existsb (λ c, String.eqb (re_id c) effort) (rm_reasoning_efforts m))
            | None => false
            end then
      Err (adapter_error "INVALID_OPENAI_MODEL"
             "defaultReasoningEffort must be declared by reasoningEfforts" VNull)
    else Ok tt.

Definition supports (m : ResponsesModel) (modality : string) : bool :=
  let input := if bool_decide (rm_input m = []) then [RESPONSES_TEXT_MODALITY] else rm_input m in
  existsb (String.eqb modality) input.

Record ResponsesRoute := mkRoute {
  rr_id : string;
  rr_api : string;
  rr_display_name : string;
  rr_base_url : string;
  rr_credential_ref : string;
  rr_models : list ResponsesModel;
  rr_generation : N;
}.
#[export] Instance ResponsesRoute_eq_dec : EqDecision ResponsesRoute.
Proof. solve_decision. Defined.

Definition default_responses_api : string := "openai-responses".
Definition ResponsesRoute_new (id display_name base_url credential_ref : string)
    (models : list ResponsesModel) : ResponsesRoute :=
  mkRoute id default_responses_api display_name base_url credential_ref models 0.

(** What the url crate says about a URL. *)
Record Url := mkUrl {
  url_scheme : string;
  url_cannot_be_a_base : bool;
  url_username : string;
  url_password : option string;
  url_query : option string;
  url_fragment : option string;
  url_text : string;
}.
Class UrlParser := url_parse : string → result string Url.

Section routes.
Context `{UrlParser}.

Fixpoint check_models (ids : gset string) (models : list ResponsesModel) : result TessivumError unit :=
  match models with
  | [] => Ok tt
  | model :: models =>
      _ ← ResponsesModel_validate model;
      if bool_decide (rm_id model ∈ ids) then
        Err (adapter_error "INVALID_OPENAI_MODEL"
               "OpenAI Responses routes must not contain duplicate model ids"
               (json_object [("model", VString (rm_id model))]))
      else check_models ({[rm_id model]} ∪ ids) models
  end.

Definition ResponsesRoute_validate (r : ResponsesRoute) : result TessivumError Url :=
  if negb (bool_decide (rr_api r ∈ ["openai-completions"; "openai-responses"; "anthropic-messages"])) then
    Err (adapter_error "INVALID_LLM_PROTOCOL" "provider route uses an unsupported API protocol"
           (json_object [("api", VString (rr_api r))]))
  else if is_empty (trim (rr_id r)) || is_empty (trim (rr_display_name r)) then
    Err (adapter_error "INVALID_OPENAI_ROUTE"
           "OpenAI Responses route id and display name must not be empty" VNull)
  else
    base ← map_err (λ e, adapter_error "INVALID_OPENAI_BASE_URL" "OPENAI_BASE_URL is not a valid URL"
                           (json_object [("error", VString e)]))
             (url_parse (trim (rr_base_url r)));
    if negb (bool_decide (url_scheme base ∈ ["http"; "https"])) || url_cannot_be_a_base base
       || negb (is_empty (url_username base)) || bool_decide (is_Some (url_password base))
       || bool_decide (is_Some (url_query base)) || bool_decide (is_Some (url_fragment base)) then
      Err (adapter_error "INVALID_OPENAI_BASE_URL"
             "OPENAI_BASE_URL must be an HTTP(S) URL without userinfo, query, or fragment" VNull)
    else _ ← check_models ∅ (rr_models r); Ok base.

(** The key is trimmed. *)
Record ProviderSnapshot := mkSnapshot {
  ps_route : ResponsesRoute;
  ps_model : ResponsesModel;
  ps_api_key : option string;
}.

Definition with_optional_key (route : ResponsesRoute) (model : ResponsesModel) (key : option string) :
    result TessivumError ProviderSnapshot :=
  _ ← ResponsesRoute_validate route;
  _ ← ResponsesModel_validate model;
  if negb (bool_decide (rr_models route = []))
     && negb (bool_decide (List.find (λ c, String.eqb (rm_id c) (rm_id model)) (rr_models route) = Some model))
  then
    Err (adapter_error "INVALID_OPENAI_MODEL"
           "the selected model is not the route's declared model descriptor"
           (json_object [("model", VString (rm_id model))]))
  else Ok (mkSnapshot route model (trim <$> key)).
Definition ProviderSnapshot_new route model (key : string) := with_optional_key route model (Some key).
Definition ProviderSnapshot_without_key route model := with_optional_key route model None.

(** [as_str().trim_end_matches('/')] and a suffix. *)
Definition endpoint_text (base : Url) (suffix : string) : string :=
  string_of (trim_end_matches "/" (bytes_of (url_text base))) +:+ "/" +:+ suffix.
Definition snapshot_endpoint (s : ProviderSnapshot) : result TessivumError Url :=
  base ← ResponsesRoute_validate (ps_route s);
  map_err (λ _, adapter_error "INVALID_OPENAI_BASE_URL"
                  "OPENAI_BASE_URL cannot address the Responses endpoint" VNull)
    (url_parse (endpoint_text base "responses")).

Definition api_key (s : ProviderSnapshot) : option string :=
  key ← ps_api_key s; if is_empty key then None else Some key.

Definition snapshot_validate_request (s : ProviderSnapshot) (provider model : string) :
    result TessivumError unit :=
  if negb (String.eqb (rr_id (ps_route s)) provider) then
    Err (adapter_error "INVALID_OPENAI_ROUTE"
           "the resolved OpenAI Responses route does not match the request provider"
           (json_object [("provider", VString provider)]))
  else if negb (String.eqb (rm_id (ps_model s)) model) then
    Err (adapter_error "INVALID_OPENAI_MODEL"
           "the resolved OpenAI Responses model does not match the request model"
           (json_object [("model", VString model)]))
  else if negb (bool_decide (rr_models (ps_route s) = []))
          && forallb (λ c, negb (String.eqb (rm_id c) model)) (rr_models (ps_route s)) then
    Err (adapter_error "INVALID_OPENAI_MODEL"
           "the requested model is not declared by the OpenAI Responses route"
           (json_object [("model", VString model)]))
  else Ok tt.

(** [ResponsesRouteResolver]: a client's code, or the route of the environment. *)
Definition ResponsesRouteResolver : Type := string → string → result TessivumError ProviderSnapshot.

Definition static_resolve (route : ResponsesRoute) (key : string) : ResponsesRouteResolver :=
  λ provider model,
    if negb (String.eqb provider (rr_id route)) then
      Err (adapter_error "INVALID_OPENAI_ROUTE"
             "the request provider is not the configured OpenAI Responses route"
             (json_object [("provider", VString provider)]))
    else ProviderSnapshot_new route (ResponsesModel_new model) key.

(** [OpenAiResponsesAdapter::new]: the resolver of an adapter over one URL. *)
Definition adapter_new (base_url key : string) : result TessivumError ResponsesRouteResolver :=
  if is_empty (trim key) then
    Err (adapter_error "MISSING_CREDENTIAL" "OPENAI_API_KEY must not be empty" VNull)
  else
    let route := ResponsesRoute_new DEFAULT_ROUTE_ID DEFAULT_ROUTE_ID (trim base_url) "OPENAI_API_KEY" [] in
    _ ← ResponsesRoute_validate route; Ok (static_resolve route (trim key)).
Definition adapter_new_without_key (base_url : string) : result TessivumError ResponsesRouteResolver :=
  let route := ResponsesRoute_new DEFAULT_ROUTE_ID DEFAULT_ROUTE_ID (trim base_url) "" [] in
  _ ← ResponsesRoute_validate route;
  Ok (λ provider model,
    snapshot ← ProviderSnapshot_without_key route (ResponsesModel_new model);
    _ ← snapshot_validate_request snapshot provider model; Ok snapshot).

(** [validate_modalities]. *)
Fixpoint validate_block (model : ResponsesModel) (block : ContentBlock) : result TessivumError unit :=
  let unsupported modality :=
    Err (adapter_error "UNSUPPORTED_MODALITY"
           "the selected OpenAI Responses model does not support this input modality"
           (json_object [("modality", VString modality); ("model", VString (rm_id model))])) in
  match block with
  | Image _ => if negb (supports model RESPONSES_IMAGE_MODALITY) then unsupported RESPONSES_IMAGE_MODALITY else Ok tt
  | Text _ => if negb (supports model RESPONSES_TEXT_MODALITY) then unsupported RESPONSES_TEXT_MODALITY else Ok tt
  | ToolResult _ content _ =>
      (fix go content := match content with
         | [] => Ok tt
         | block :: content => _ ← validate_block model block; go content
         end) content
  | Reasoning _ | ToolCall _ _ _ => Ok tt
  end.
Definition validate_modalities (request : GenerateRequest) (model : ResponsesModel) :
    result TessivumError unit :=
  forM (λ message, forM (validate_block model) (m_content message)) (gr_messages request).

(** [OpenAiResponsesAdapter::snapshot]. *)
Definition adapter_snapshot (resolver : ResponsesRouteResolver) (request : GenerateRequest) :
    result TessivumError ProviderSnapshot :=
  snapshot ← resolver (gr_provider request) (gr_model request);
  _ ← ResponsesRoute_validate (ps_route snapshot);
  _ ← ResponsesModel_validate (ps_model snapshot);
  _ ← snapshot_validate_request snapshot (gr_provider request) (gr_model request);
  _ ← validate_modalities request (ps_model snapshot);
  Ok snapshot.
End routes.

(** ** Tool names on the wire *)

Record ToolNames := mkToolNames {
  wire_by_logical : gmap string string;
  logical_by_wire : gmap string string;
}.
Definition ToolNames_default : ToolNames := mkToolNames ∅ ∅.

(** A character that is not ASCII becomes one underscore: its first byte does, the
    continuation bytes go. *)
Definition wire_char (a : ascii) : option ascii :=
  if is_ascii_alphanumeric a || bool_decide (a ∈ ["_"; "-"]%char) then Some a
  else if continuation a then None
  else Some "_"%char.
Definition wire_of (logical : string) : string := string_of (omap wire_char (bytes_of logical)).

Definition names_insert (logical : string) (n : ToolNames) : result TessivumError ToolNames :=
  if bool_decide (is_Some (wire_by_logical n !! logical)) then Ok n
  else
    let wire := wire_of logical in
    match logical_by_wire n !! wire with
    | Some existing =>
        Err (adapter_error "OPENAI_TOOL_NAME_COLLISION"
               "distinct tool names map to the same OpenAI Responses name"
               (json_object [("first", VString existing); ("second", VString logical);
                             ("wire", VString wire)]))
    | None => Ok (mkToolNames (<[logical := wire]> (wire_by_logical n)) (<[wire := logical]> (logical_by_wire n)))
    end.

Definition names_wire (n : ToolNames) (logical : string) : string := default logical (wire_by_logical n !! logical).
Definition names_logical (n : ToolNames) (wire : string) : string := default wire (logical_by_wire n !! wire).

(** ** Replayed items *)

Definition get_array (k : string) (v : Value) : option (list Value) := get k v ≫= as_array.

Definition valid_replay_item (item : Value) : bool :=
  is_object item &&
  match get_str "type" item with
  | Some t =>
      if String.eqb t "reasoning" then bool_decide (is_Some (get_str "id" item))
      else if String.eqb t "message" then
        bool_decide (get_str "role" item = Some "assistant")
        && match get_array "content" item with Some _ => true | None => false end
      else if String.eqb t "function_call" then
        forallb (λ field, bool_decide (is_Some (get_str field item))) ["call_id"; "name"; "arguments"]
      else false
  | None => false
  end.

Definition native_replay_output (message : Message) (request : GenerateRequest) : option (list Value) :=
  match m_source message with
  | SourceModel provider model (Some replay) =>
      if negb (String.eqb provider (gr_provider request)) || negb (String.eqb model (gr_model request)) then None
      else
        _ ← as_object replay;
        kind ← get "type" replay; kind ← as_str kind;
        if negb (String.eqb kind REPLAY_TYPE) then None
        else
          version ← get "version" replay; version ← as_u64 version;
          if negb (version =? REPLAY_VERSION) then None
          else
            output ← get_array "output" replay;
            if forallb valid_replay_item output then Some output else None
  | _ => None
  end.

(** The names of the calls of a message that is not replayed. *)
Definition call_names (message : Message) : list string :=
  omap (λ b, match b with ToolCall _ name _ => Some name | _ => None end) (m_content message).
Definition request_names (request : GenerateRequest) : list string :=
  match gr_tools request with Some tools => ts_name <$> tools | None => [] end
  ++ mjoin ((λ m, if native_replay_output m request is Some _ then [] else call_names m)
            <$> gr_messages request).
Definition names_from_request (request : GenerateRequest) : result TessivumError ToolNames :=
  foldM (λ n name, names_insert name n) ToolNames_default (request_names request).

(** ** Images and outputs *)

Definition B64 : bytes := bytes_of "ABCDEFGHIJKLMNOPQRSTUVWXYZabcdefghijklmnopqrstuvwxyz0123456789+/".
Definition b64 (n : N) : ascii := nth (N.to_nat n) B64 "="%char.

(** [u8] arithmetic; the chunks of three. *)
Definition encode_chunk (first : ascii) (second third : option ascii) : bytes :=
  let x := byte first in
  let y := from_option byte 0 second in
  [b64 (N.shiftr x 2); b64 (N.lor (u8_shl (N.land x 3) 4) (N.shiftr y 4));
   match second with
   | Some second => b64 (N.lor (u8_shl (N.land (byte second) 15) 2) (N.shiftr (from_option byte 0 third) 6))
   | None => "="%char
   end;
   match third with Some third => b64 (N.land (byte third) 63) | None => "="%char end].
Fixpoint base64_encode (l : bytes) : bytes :=
  match l with
  | a :: b :: c :: l => encode_chunk a (Some b) (Some c) ++ base64_encode l
  | [a; b] => encode_chunk a (Some b) None
  | [a] => encode_chunk a None None
  | [] => []
  end.

Definition attachment_error (message : string) (e : AttachmentError) : TessivumError :=
  adapter_error (AttachmentError_code e) message (json_object [("error", VString (AttachmentError_text e))]).

(** [mcp::decode_mcp_image]. *)
Definition decode_mcp_image (value : Value) : result AttachmentError AttachmentInput :=
  object ← ok_or (as_object value) InvalidReference;
  if negb (forallb (λ kv, bool_decide (kv.1 ∈ ["type"; "data"; "mimeType"; "mediaType"; "name"])) object) then
    Err InvalidReference
  else
    media_type ← ok_or (match get "mediaType" value with Some m => Some m | None => get "mimeType" value end)
                   InvalidReference;
    data ← ok_or (get "data" value) InvalidReference;
    decode_inline_image
      (json_object ([("mediaType", media_type); ("data", data)]
                    ++ match get "name" value with Some name => [("name", name)] | None => [] end)).

(** An error of the adapter or of the store below it, over the directory of the store;
    [None] is a panic. *)
Definition Body (A : Type) : Type := AttachmentDir → option (result TessivumError A * AttachmentDir).
#[export] Instance Body_ret : MRet Body := λ A a s, Some (Ok a, s).
#[export] Instance Body_bind : MBind Body := λ A B k m s,
  match m s with
  | Some (Ok a, s) => k a s
  | Some (Err e, s) => Some (Err e, s)
  | None => None
  end.
Definition body_lift {A} (r : result TessivumError A) : Body A := λ s, Some (r, s).
Definition body_att {A} (message : string) (m : Att A) : Body A := λ s,
  p ← m s; Some (map_err (attachment_error message) p.1, p.2).

(** A [for] loop that collects what its body pushes. *)
Fixpoint concatM {A B} (f : A → Body (list B)) (l : list A) : Body (list B) :=
  match l with
  | [] => mret []
  | a :: l => b ← f a; rest ← concatM f l; mret (b ++ rest)
  end.

Section bodies.
Context `{Sha256, AttachmentDisk}.

(** The reference of an image: the block itself, or an image of a server, which is saved. *)
Definition image_reference (attachment : Value) (limits : AttachmentLimits) : Body AttachmentRef :=
  match AttachmentRef_from_value attachment with
  | Ok reference => mret reference
  | Err _ =>
      input ← body_lift (map_err (attachment_error "image attachment is invalid") (decode_mcp_image attachment));
      body_att "could not save image attachment" (save limits input)
  end.

(** The limits are those of the store, if there is one. *)
Definition image_input (attachment : Value) (model : ResponsesModel) (store : option AttachmentLimits) :
    Body Value :=
  if negb (supports model RESPONSES_IMAGE_MODALITY) then
    body_lift (Err (adapter_error "UNSUPPORTED_MODALITY"
      "the selected OpenAI Responses model does not support image input"
      (json_object [("modality", VString RESPONSES_IMAGE_MODALITY); ("model", VString (rm_id model))])))
  else
    limits ← body_lift (ok_or store
      (adapter_error "INVALID_ATTACHMENT_REFERENCE" "durable image input requires an attachment store" VNull));
    reference ← image_reference attachment limits;
    data ← body_att "could not read image attachment"
             (read_ref_bounded limits reference (al_max_image_bytes limits));
    mret (json_object
      [("type", VString "input_image");
       ("image_url", VString (data_url_prefix (ar_media_type reference) +:+ string_of (base64_encode (ad_data data))));
       ("detail", VString "auto")]).

Definition is_image (b : ContentBlock) : bool := match b with Image _ => true | _ => false end.

Definition tool_output_text (blocks : list ContentBlock) : string :=
  let text := String.concat line_feed (omap (λ b, match b with Text t => Some t | _ => None end) blocks) in
  if is_empty text then "(no tool output)" else text.

Definition tool_output_content (blocks : list ContentBlock) (model : ResponsesModel)
    (store : option AttachmentLimits) : Body Value :=
  if negb (existsb is_image blocks) then mret (VString (tool_output_text blocks))
  else
    content ← concatM (λ block,
      match block with
      | Text text => mret [json_object [("type", VString "input_text"); ("text", VString text)]]
      | Image attachment => v ← image_input attachment model store; mret [v]
      | _ => mret []
      end) blocks;
    mret (VArray content).

(** [flush_message_content]: what it pushes. *)
Definition flush_message_content (role : string) (content : list Value) : list Value :=
  if bool_decide (length content = O) then []
  else [json_object [("role", VString role); ("content", VArray content)]].

Definition role_str (r : MessageRole) : string :=
  match r with RoleSystem => "developer" | RoleUser => "user" | RoleAssistant => "assistant" end.

(** The loop over the blocks of a message; [content] is what is not flushed yet. *)
Fixpoint append_blocks (role : MessageRole) (model : ResponsesModel) (names : ToolNames)
    (store : option AttachmentLimits) (content : list Value) (blocks : list ContentBlock) :
    Body (list Value) :=
  match blocks with
  | [] => mret (flush_message_content (role_str role) content)
  | block :: blocks =>
      let go := append_blocks role model names store in
      match block with
      | Text text =>
          go (content ++
                [json_object [("type", VString (match role with RoleAssistant => "output_text" | _ => "input_text" end));
                              ("text", VString text)]]) blocks
      | Reasoning _ => go content blocks
      | Image attachment => v ← image_input attachment model store; go (content ++ [v]) blocks
      | ToolCall id name arguments =>
          rest ← go [] blocks;
          mret (flush_message_content (role_str role) content
                ++ json_object [("type", VString "function_call"); ("call_id", VString id);
                                ("name", VString (names_wire names name)); ("arguments", VString arguments)]
                :: rest)
      | ToolResult tool_call_id output _ =>
          output ← tool_output_content output model store;
          rest ← go [] blocks;
          mret (flush_message_content (role_str role) content
                ++ json_object [("type", VString "function_call_output"); ("call_id", VString tool_call_id);
                                ("output", output)]
                :: rest)
      end
  end.
Definition append_message_input (message : Message) (model : ResponsesModel) (names : ToolNames)
    (store : option AttachmentLimits) : Body (list Value) :=
  append_blocks (m_role message) model names store [] (m_content message).

Definition response_input (request : GenerateRequest) (snapshot : ProviderSnapshot) (names : ToolNames)
    (store : option AttachmentLimits) : Body (list Value) :=
  concatM (λ message,
    match native_replay_output message request with
    | Some output => mret output
    | None => append_message_input message (ps_model snapshot) names store
    end) (gr_messages request).

Definition tool_value (names : ToolNames) (tool : ToolSchema) : Value :=
  json_object [("type", VString "function"); ("name", VString (names_wire names (ts_name tool)));
               ("description", VString (ts_description tool)); ("parameters", ts_parameters tool);
               ("strict", VBool false)].

(** A list or a text that is there and not empty. *)
Definition present {A} (o : option (list A)) : option (list A) :=
  l ← o; match l with [] => None | _ => Some l end.
Definition present_str (o : option string) : option string := s ← o; if is_empty s then None else Some s.
Definition field {A} (key : string) (f : A → Value) (o : option A) : list (string * Value) :=
  match o with Some a => [(key, f a)] | None => [] end.

Definition f64_value (x : f64) : Value :=
  match x with Finite d => VNumber (Float d) | _ => VNull end.

Definition request_body (request : GenerateRequest) (snapshot : ProviderSnapshot) (names : ToolNames)
    (store : option AttachmentLimits) : Body Value :=
  if bool_decide (is_Some (present (gr_stop request))) then
    body_lift (Err (adapter_error "UNSUPPORTED_OPTION" "OpenAI Responses does not support stop sequences"
                      (json_object [("field", VString "stop")])))
  else
    input ← response_input request snapshot names store;
    reasoning ←
      match present_str (gr_reasoning_effort request) with
      | None => mret []
      | Some effort =>
          match List.find (λ c, String.eqb (re_id c) effort) (rm_reasoning_efforts (ps_model snapshot)) with
          | None =>
              body_lift (Err (adapter_error "INVALID_REASONING_EFFORT"
                "reasoning effort is not declared by the selected model"
                (json_object [("provider", VString (gr_provider request)); ("model", VString (gr_model request));
                              ("reasoningEffort", VString effort)])))
          | Some candidate =>
              mret (field "reasoning" (λ wire, json_object [("effort", VString wire); ("summary", VString "auto")])
                      (re_wire candidate))
          end
      end;
    mret (json_object
      ([("model", VString (gr_model request)); ("input", VArray input); ("stream", VBool true);
        ("store", VBool false); ("include", json_strings ["reasoning.encrypted_content"])]
       ++ field "instructions" VString (present_str (gr_system request))
       ++ field "tools" (λ tools, VArray (tool_value names <$> tools)) (present (gr_tools request))
       ++ field "temperature" f64_value (gr_temperature request)
       ++ field "max_output_tokens" (λ n, json_u64 (N.max n 16)) (gr_max_tokens request)
       ++ reasoning)).
End bodies.

(** ** Text

    [str::from_utf8] and its error: how the first character of some bytes ends. *)
Inductive utf8_head :=
| Whole (n : nat)
| Broken (n : nat)
| Unfinished.

Definition utf8_first (l : bytes) : utf8_head :=
  match l with
  | [] => Whole 0
  | a :: l =>
      let cont (n : nat) (k : bytes → utf8_head) (l : bytes) : utf8_head :=
        match l with
        | [] => Unfinished
        | b :: l => if continuation b then k l else Broken n
        end in
      let second (ok : ascii → bool) (k : bytes → utf8_head) : utf8_head :=
        match l with [] => Unfinished | b :: l => if ok b then k l else Broken 1 end in
      if byte a <? 128 then Whole 1
      else if in_range 194 223 a then second continuation (λ _, Whole 2)
      else if byte a =? 224 then second (in_range 160 191) (cont 2%nat (λ _, Whole 3))
      else if byte a =? 237 then second (in_range 128 159) (cont 2%nat (λ _, Whole 3))
      else if in_range 225 239 a then second continuation (cont 2%nat (λ _, Whole 3))
      else if byte a =? 240 then second (in_range 144 191) (cont 2%nat (cont 3%nat (λ _, Whole 4)))
      else if in_range 241 243 a then second continuation (cont 2%nat (cont 3%nat (λ _, Whole 4)))
      else if byte a =? 244 then second (in_range 128 143) (cont 2%nat (cont 3%nat (λ _, Whole 4)))
      else Broken 1
  end.

(** The text of a [Utf8Error]; the fuel is the number of bytes. *)
Fixpoint utf8_error_text (fuel index : nat) (l : bytes) : string :=
  match fuel, l with
  | S fuel, _ :: _ =>
      match utf8_first l with
      | Whole n => utf8_error_text fuel (index + n) (drop n l)
      | Broken n =>
          "invalid utf-8 sequence of " +:+ fmt_N (N.of_nat n) +:+ " bytes from index " +:+ fmt_N (N.of_nat index)
      | Unfinished => "incomplete utf-8 byte sequence from index " +:+ fmt_N (N.of_nat index)
      end
  | _, _ => ""
  end.

(** [String::from_utf8_lossy]: U+FFFD for each broken sequence. *)
Definition REPLACEMENT : bytes := chars [239; 191; 189].
Fixpoint utf8_lossy (fuel : nat) (l : bytes) : bytes :=
  match fuel, l with
  | S fuel, _ :: _ =>
      match utf8_first l with
      | Whole n => take n l ++ utf8_lossy fuel (drop n l)
      | Broken n => REPLACEMENT ++ utf8_lossy fuel (drop n l)
      | Unfinished => REPLACEMENT
      end
  | _, _ => []
  end.
Definition from_utf8_lossy (l : bytes) : string := string_of (utf8_lossy (length l) l).

Definition carriage_return : ascii := ascii_of_nat 13.

(** [str::lines]; [line] is the line so far. *)
Definition end_line (line : bytes) : bytes := default line (strip_suffix [carriage_return] line).
Fixpoint lines_from (line l : bytes) : list bytes :=
  match l with
  | [] => if bool_decide (line = []) then [] else [line]
  | a :: l => if bool_decide (a = newline) then end_line line :: lines_from [] l else lines_from (line ++ [a]) l
  end.
Definition str_lines (l : bytes) : list bytes := lines_from [] l.

(** ** Server-sent events *)

Record SseDecoder := mkDecoder { sd_buffer : bytes }.
Definition SseDecoder_default : SseDecoder := mkDecoder [].

Definition LF2 : bytes := [newline; newline].
Definition CRLF2 : bytes := [carriage_return; newline; carriage_return; newline].

Fixpoint event_boundary_from (index : nat) (l : bytes) : option (nat * nat) :=
  match l with
  | [] => None
  | _ :: rest =>
      if begins LF2 l then Some (index, 2%nat)
      else if begins CRLF2 l then Some (index, 4%nat)
      else event_boundary_from (S index) rest
  end.
Definition event_boundary (buffer : bytes) : option (nat * nat) := event_boundary_from 0 buffer.

Definition data_of_line (line : bytes) : option bytes :=
  data ← strip_prefix (bytes_of "data:") (default line (strip_suffix [carriage_return] line));
  Some (default data (strip_prefix [" "%char] data)).

(** [join("\n")] on bytes. *)
Fixpoint join_lines (l : list bytes) : bytes :=
  match l with
  | [] => []
  | [x] => x
  | x :: l => x ++ newline :: join_lines l
  end.

Definition event_data (frame : bytes) : result TessivumError (option string) :=
  if negb (utf8 frame) then
    Err (adapter_error "OPENAI_PROTOCOL" "OpenAI Responses SSE event was not UTF-8"
           (json_object [("error", VString (utf8_error_text (length frame) 0 frame))]))
  else
    let data := omap data_of_line (str_lines frame) in
    Ok (if bool_decide (length data = O) then None else Some (string_of (join_lines data))).

Definition event_too_large : TessivumError :=
  adapter_error "OPENAI_SSE_EVENT_TOO_LARGE" "OpenAI Responses SSE event exceeded the byte limit"
    (json_object [("limit", json_u64 MAX_SSE_EVENT_BYTES)]).

(** The loop of [push]: the events, and what stays in the buffer.  A frame and its
    delimiter have bytes, so the length of the buffer is fuel enough. *)
Fixpoint drain (fuel : nat) (buffer : bytes) : result TessivumError (list string * bytes) :=
  match fuel with
  | O => Ok ([], buffer)
  | S fuel =>
      match event_boundary buffer with
      | None => Ok ([], buffer)
      | Some (at_, delimiter) =>
          if MAX_SSE_EVENT_BYTES <? N.of_nat at_ then Err event_too_large
          else
            data ← event_data (take at_ buffer);
            rest ← drain fuel (drop (at_ + delimiter) buffer);
            Ok (match data with Some data => [data] | None => [] end ++ rest.1, rest.2)
      end
  end.

Definition sse_push (data : bytes) (d : SseDecoder) : result TessivumError (list string * SseDecoder) :=
  let buffer := sd_buffer d ++ data in
  p ← drain (length buffer) buffer;
  if MAX_SSE_EVENT_BYTES <? N.of_nat (length p.2) then Err event_too_large
  else Ok (p.1, mkDecoder p.2).

(** Space, tab, line feed, form feed, carriage return. *)
Definition is_ascii_whitespace (a : ascii) : bool :=
  bool_decide (byte a ∈ [32; 9; 10; 12; 13]).
Definition sse_finish (d : SseDecoder) : result TessivumError unit :=
  if forallb is_ascii_whitespace (sd_buffer d) then Ok tt
  else Err (adapter_error "TRANSPORT" "OpenAI Responses SSE stream ended inside an event" VNull).

(** ** Events *)

Inductive OpenKind :=
| KindText (text : string)
| KindReasoning (text : string) (separator_pending : bool)
| KindToolCall (id : ToolCallId) (name arguments : string).

(** [response_blocks] maps an output index to the block's own index and its kind. *)
Record ResponseState := mkResponse {
  rs_blocks : gmap N (N * OpenKind);
  rs_closed : gset N;
  rs_next_index : N;
  rs_tool_calls : bool;
  rs_items : gmap N Value;
  rs_terminal : bool;
  rs_tool_names : ToolNames;
}.
Definition ResponseState_new (names : ToolNames) : ResponseState := mkResponse ∅ ∅ 0 false ∅ false names.

(** What ends a step besides its result: an error, or a panic. *)
Inductive fault := Thrown (e : TessivumError) | Panicked.
Definition throwing {A} (r : result TessivumError A) : result fault A := map_err Thrown r.
Definition throw {A} (e : TessivumError) : result fault A := Err (Thrown e).

Definition openai_error {A} (message : string) : result fault A :=
  throw (adapter_error "OPENAI_PROTOCOL" message VNull).
Definition openai_error_at {A} (message : string) (output_index : N) : result fault A :=
  throw (adapter_error "OPENAI_PROTOCOL" message (json_object [("outputIndex", json_u64 output_index)])).

Definition with_block (i : N) (b : N * OpenKind) (s : ResponseState) : ResponseState :=
  mkResponse (<[i := b]> (rs_blocks s)) (rs_closed s) (rs_next_index s) (rs_tool_calls s) (rs_items s)
    (rs_terminal s) (rs_tool_names s).
Definition without_block (i : N) (s : ResponseState) : ResponseState :=
  mkResponse (delete i (rs_blocks s)) (rs_closed s) (rs_next_index s) (rs_tool_calls s) (rs_items s)
    (rs_terminal s) (rs_tool_names s).
Definition with_closed (i : N) (s : ResponseState) : ResponseState :=
  mkResponse (rs_blocks s) ({[i]} ∪ rs_closed s) (rs_next_index s) (rs_tool_calls s) (rs_items s)
    (rs_terminal s) (rs_tool_names s).
Definition with_next (n : N) (s : ResponseState) : ResponseState :=
  mkResponse (rs_blocks s) (rs_closed s) n (rs_tool_calls s) (rs_items s) (rs_terminal s) (rs_tool_names s).
Definition with_tool_calls (s : ResponseState) : ResponseState :=
  mkResponse (rs_blocks s) (rs_closed s) (rs_next_index s) true (rs_items s) (rs_terminal s) (rs_tool_names s).
Definition with_item (i : N) (v : Value) (s : ResponseState) : ResponseState :=
  mkResponse (rs_blocks s) (rs_closed s) (rs_next_index s) (rs_tool_calls s) (<[i := v]> (rs_items s))
    (rs_terminal s) (rs_tool_names s).
Definition set_terminal (s : ResponseState) : ResponseState :=
  mkResponse (rs_blocks s) (rs_closed s) (rs_next_index s) (rs_tool_calls s) (rs_items s) true (rs_tool_names s).

Definition output_index (event : Value) : result fault N :=
  match get_u64 "output_index" event with
  | Some i => Ok i
  | None => openai_error "OpenAI Responses event has no output_index"
  end.
Definition required_string (item : Value) (field : string) : result fault string :=
  match get_str field item with
  | Some s => if is_empty s then openai_error ("OpenAI response item has no " +:+ field) else Ok s
  | None => openai_error ("OpenAI response item has no " +:+ field)
  end.

(** The strings of a field of each element. *)
Definition array_items (k : string) (v : Value) : list Value := default [] (get_array k v).
Definition message_text (item : Value) : string :=
  String.concat "" (omap (λ part, (match get "text" part with Some t => Some t | None => get "refusal" part end) ≫= as_str)
                      (array_items "content" item)).
Definition field_text (field : string) (item : Value) : string :=
  String.concat (line_feed +:+ line_feed) (omap (get_str "text") (array_items field item)).
Definition reasoning_text (item : Value) : string :=
  let summary := field_text "summary" item in
  if is_empty summary then field_text "content" item else summary.

Definition token_usage (usage : Value) : TokenUsage :=
  let at_ path := default 0 (pointer path usage ≫= as_u64) in
  let cached := at_ ["input_tokens_details"; "cached_tokens"] in
  let cache_write := at_ ["input_tokens_details"; "cache_write_tokens"] in
  let positive n := if 0 <? n then Some n else None in
  mkUsage
    (u64_saturating_sub (u64_saturating_sub (default 0 (get_u64 "input_tokens" usage)) cached) cache_write)
    (default 0 (get_u64 "output_tokens" usage)) (positive cached) (positive cache_write)
    (positive (at_ ["output_tokens_details"; "reasoning_tokens"])).

Definition event_error (event : option Value) : TessivumError :=
  let error := default VNull (event ≫= get "error") in
  adapter_error (default "OPENAI_RESPONSE_FAILED" (get_str "code" error))
    (default "OpenAI Responses request failed"
       (match get_str "message" error with Some m => Some m | None => event ≫= get_str "message" end)) VNull.

(** The methods of [ResponseState]: the chunks and the new state.  After an error the
    state is not used again. *)
Module ResponseEvents.

Definition append_arguments (output_index : N) (delta : string) (s : ResponseState) :
    result fault (list StreamChunk * ResponseState) :=
  match rs_blocks s !! output_index with
  | None => openai_error_at "function arguments have no tool-call block" output_index
  | Some (index, KindToolCall id name arguments) =>
      Ok ([ToolCallDelta index id (Some name) delta],
          with_block output_index (index, KindToolCall id name (arguments +:+ delta)) s)
  | Some _ => openai_error_at "function arguments changed block type" output_index
  end.

(** What an item opens: the type of the block, its kind, and whether it is a call. *)
Definition item_kind (names : ToolNames) (item : Value) :
    result fault (option (string * OpenKind * bool)) :=
  let item_type := default "" (get_str "type" item) in
  if String.eqb item_type "message" then Ok (Some ("text", KindText "", false))
  else if String.eqb item_type "reasoning" then Ok (Some ("reasoning", KindReasoning "" false, false))
  else if String.eqb item_type "function_call" then
    id ← required_string item "call_id";
    wire_name ← required_string item "name";
    Ok (Some ("tool-call", KindToolCall id (names_logical names wire_name) "", true))
  else Ok None.

Definition open_item (output_index : N) (item : Value) (s : ResponseState) :
    result fault (list StreamChunk * ResponseState) :=
  if bool_decide (is_Some (rs_blocks s !! output_index)) || bool_decide (output_index ∈ rs_closed s) then Ok ([], s)
  else
    k ← item_kind (rs_tool_names s) item;
    match k with
    | None => Ok ([], s)
    | Some (block_type, kind, call) =>
        let s := if (call : bool) then with_tool_calls s else s in
        let index := rs_next_index s in
        match u64_checked_add index 1 with
        | None => openai_error "too many OpenAI response blocks"
        | Some next =>
            let s := with_block output_index (index, kind) (with_next next s) in
            if call then
              p ← append_arguments output_index (default "" (get_str "arguments" item)) s;
              Ok (BlockStart index block_type :: p.1, p.2)
            else Ok ([BlockStart index block_type], s)
        end
    end.

Definition append_text (output_index : N) (delta : string) (reasoning : bool) (s : ResponseState) :
    result fault (list StreamChunk * ResponseState) :=
  p ← (if bool_decide (is_Some (rs_blocks s !! output_index)) then Ok ([], s)
       else open_item output_index
              (json_object [("type", VString (if reasoning then "reasoning" else "message"))]) s);
  let '(chunks, s) := p in
  match rs_blocks s !! output_index with
  | None => openai_error_at "text delta has no response block" output_index
  | Some (index, kind) =>
      match kind, reasoning with
      | KindText text, false =>
          Ok (chunks ++ [TextDelta index delta],
              with_block output_index (index, KindText (text +:+ delta)) s)
      | KindReasoning text pending, true =>
          let separate := pending && negb (is_empty text) && negb (is_empty delta) in
          let emitted := (if separate then line_feed +:+ line_feed else "") +:+ delta in
          Ok (chunks ++ [ReasoningDelta index emitted],
              with_block output_index
                (index, KindReasoning (text +:+ emitted) (if separate then false else pending)) s)
      | _, _ => openai_error_at "response delta changed block type" output_index
      end
  end.

Definition finish_reasoning_part (output_index : N) (s : ResponseState) :
    result fault (list StreamChunk * ResponseState) :=
  match rs_blocks s !! output_index with
  | None => openai_error_at "reasoning part has no response block" output_index
  | Some (index, KindReasoning text _) =>
      Ok ([], with_block output_index (index, KindReasoning text true) s)
  | Some _ => openai_error_at "reasoning part changed block type" output_index
  end.

(** [str::strip_prefix]. *)
Definition str_strip_prefix (p s : string) : option string :=
  string_of <$> strip_prefix (bytes_of p) (bytes_of s).

Definition finish_arguments (output_index : N) (final_arguments : string) (s : ResponseState) :
    result fault (list StreamChunk * ResponseState) :=
  match rs_blocks s !! output_index with
  | None => openai_error_at "completed function arguments have no tool-call block" output_index
  | Some (_, KindToolCall _ _ arguments) =>
      if String.eqb final_arguments arguments then Ok ([], s)
      else match str_strip_prefix arguments final_arguments with
      | Some delta => append_arguments output_index delta s
      | None => openai_error_at "completed function arguments do not extend streamed arguments" output_index
      end
  | Some _ => openai_error_at "completed function arguments changed block type" output_index
  end.

Definition reconcile_text (output_index : N) (current final_text : string) (reasoning : bool)
    (s : ResponseState) : result fault (list StreamChunk * ResponseState) :=
  if String.eqb final_text current then Ok ([], s)
  else match str_strip_prefix current final_text with
  | Some delta => append_text output_index delta reasoning s
  | None => openai_error_at "completed response text does not extend streamed text" output_index
  end.

Definition terminal_block (kind : OpenKind) : ContentBlock :=
  match kind with
  | KindText text => Text text
  | KindReasoning text _ => Reasoning text
  | KindToolCall id name arguments => ToolCall id name arguments
  end.

(** What the finished item still adds to its block. *)
Definition reconcile_item (output_index : N) (item : Value) (kind : OpenKind) (s : ResponseState) :
    result fault (list StreamChunk * ResponseState) :=
  match kind with
  | KindText current => reconcile_text output_index current (message_text item) false s
  | KindReasoning text _ => reconcile_text output_index text (reasoning_text item) true s
  | KindToolCall _ _ arguments =>
      finish_arguments output_index (default arguments (get_str "arguments" item)) s
  end.

Definition close_item (output_index : N) (item : Value) (s : ResponseState) :
    result fault (list StreamChunk * ResponseState) :=
  if bool_decide (output_index ∈ rs_closed s) then Ok ([], s)
  else
    let s := if valid_replay_item item then with_item output_index item s else s in
    p ← open_item output_index item s;
    let '(chunks, s) := p in
    match rs_blocks s !! output_index with
    | None => Ok (chunks, with_closed output_index s)
    | Some (_, kind) =>
        q ← reconcile_item output_index item kind s;
        let '(more, s) := q in
        match rs_blocks s !! output_index with
        | None => Err Panicked
        | Some (index, kind) =>
            Ok (chunks ++ more ++ [BlockEnd index (terminal_block kind)],
                with_closed output_index (without_block output_index s))
        end
    end.

(** [BTreeMap::values]. *)
Definition item_le (p q : N * Value) : Prop := p.1 ≤ q.1.
#[export] Instance item_le_dec p q : Decision (item_le p q).
Proof. unfold item_le. apply _. Defined.
Definition item_values (m : gmap N Value) : list Value := (merge_sort item_le (map_to_list m)).*2.

(** [insert("encrypted_content", ..)] where the item of that position has it. *)
Definition with_encrypted (items : gmap N Value) (i : N) (item : Value) : Value :=
  if negb (bool_decide (get_str "type" item = Some "reasoning"))
     || match get "encrypted_content" item with Some _ => true | None => false end then item
  else match items !! i ≫= get "encrypted_content" with
  | Some encrypted => set_key "encrypted_content" encrypted item
  | None => item
  end.

(** [enumerate()] with a step per element. *)
Fixpoint close_items (i : N) (items : list Value) (s : ResponseState) :
    result fault (list StreamChunk * ResponseState) :=
  match items with
  | [] => Ok ([], s)
  | item :: items =>
      p ← close_item i item s;
      q ← close_items (i + 1) items p.2;
      Ok (p.1 ++ q.1, q.2)
  end.

Definition indexed {A B} (f : N → A → B) : N → list A → list B :=
  fix go i l := match l with [] => [] | a :: l => f i a :: go (i + 1) l end.

Definition final_output (response : Value) (s : ResponseState) : list Value :=
  indexed (with_encrypted (rs_items s)) 0
    (match get_array "output" response with
     | Some (v :: output) => v :: output
     | _ => item_values (rs_items s)
     end).

Definition finish_response (response : Value) (s : ResponseState) :
    result fault (list StreamChunk * ResponseState) :=
  if rs_terminal s then openai_error "OpenAI Responses stream has more than one terminal event"
  else
    let output := final_output response s in
    p ← close_items 0 output s;
    let '(chunks, s) := p in
    if negb (bool_decide (rs_blocks s = ∅)) then
      openai_error "terminal OpenAI response left output blocks open"
    else
      let usage := match get "usage" response with Some usage => [ChunkUsage (token_usage usage)] | None => [] end in
      let status := default "completed" (get_str "status" response) in
      reason ← (if String.eqb status "incomplete" then Ok FinishMaxTokens
                else if negb (String.eqb status "completed") then throw (event_error (Some response))
                else if rs_tool_calls s then Ok FinishToolCalls
                else Ok FinishStop);
      Ok (chunks ++ usage
            ++ [Finish reason (Some (json_object [("type", VString REPLAY_TYPE); ("version", json_u64 REPLAY_VERSION);
                                                  ("output", VArray output)]))],
          set_terminal s).

Definition accept (event : Value) (s : ResponseState) : result fault (list StreamChunk * ResponseState) :=
  match get_str "type" event with
  | None => openai_error "OpenAI Responses event has no type"
  | Some kind =>
      let named k := String.eqb kind k in
      let delta := default "" (get_str "delta" event) in
      let item := default VNull (get "item" event) in
      if named "response.created" || named "response.queued" || named "response.in_progress" then Ok ([], s)
      else if named "response.output_item.added" then i ← output_index event; open_item i item s
      else if named "response.output_text.delta" || named "response.refusal.delta" then
        i ← output_index event; append_text i delta false s
      else if named "response.reasoning_summary_text.delta" || named "response.reasoning_text.delta" then
        i ← output_index event; append_text i delta true s
      else if named "response.reasoning_summary_part.done" then i ← output_index event; finish_reasoning_part i s
      else if named "response.function_call_arguments.delta" then i ← output_index event; append_arguments i delta s
      else if named "response.function_call_arguments.done" then
        i ← output_index event; finish_arguments i (default "" (get_str "arguments" event)) s
      else if named "response.output_item.done" then i ← output_index event; close_item i item s
      else if named "response.completed" || named "response.incomplete" then
        finish_response (default VNull (get "response" event)) s
      else if named "response.failed" then throw (event_error (get "response" event))
      else if named "error" then throw (event_error (Some event))
      else Ok ([], s)
  end.
End ResponseEvents.

(** ** The stream of an adapter *)

(** What reading the body of the answer yields: bytes, an error, the cancellation
    first.  The end of the list is the end of the body. *)
Inductive Incoming := Received (data : bytes) | ReadFailed (e : string) | ReadCancelled.

(** How a stream ends behind the chunks it yields. *)
Inductive ending := Ended | Failed (e : TessivumError) | Crashed.

Definition ending_of (f : fault) : ending :=
  match f with Thrown e => Failed e | Panicked => Crashed end.

(** The results that the consumer of a stream sees; a panic is not one. *)
Definition stream_items (s : list StreamChunk * ending) : list (result TessivumError StreamChunk) :=
  (Ok <$> s.1) ++ match s.2 with Failed e => [Err e] | _ => [] end.

(** The loop that the three protocols share: [step] on each event's data, the texts of
    the errors of the transport, and what the end of the body means. *)
Section stream.
Context {S : Type} (step : string → S → result fault (list StreamChunk * S)).
Context (cancelled : TessivumError) (read_failed : string → TessivumError).
Context (at_end : S → result TessivumError unit).

Fixpoint run_events (events : list string) (s : S) : list StreamChunk * result fault S :=
  match events with
  | [] => ([], Ok s)
  | event :: events =>
      match step event s with
      | Err f => ([], Err f)
      | Ok (chunks, s) => let p := run_events events s in (chunks ++ p.1, p.2)
      end
  end.

Fixpoint run_stream (incoming : list Incoming) (d : SseDecoder) (s : S) : list StreamChunk * ending :=
  match incoming with
  | [] =>
      ([], match (_ ← sse_finish d; at_end s) with Ok _ => Ended | Err e => Failed e end)
  | ReadCancelled :: _ => ([], Failed cancelled)
  | ReadFailed e :: _ => ([], Failed (read_failed e))
  | Received data :: incoming =>
      match sse_push data d with
      | Err e => ([], Failed e)
      | Ok (events, d) =>
          match run_events events s with
          | (chunks, Err f) => (chunks, ending_of f)
          | (chunks, Ok s) => let p := run_stream incoming d s in (chunks ++ p.1, p.2)
          end
      end
  end.
End stream.

Section responses_stream.
Context `{JsonText}.

Definition responses_step (data : string) (s : ResponseState) : result fault (list StreamChunk * ResponseState) :=
  if String.eqb data "[DONE]" then Ok ([], s)
  else
    event ← throwing (map_err (λ e, adapter_error "OPENAI_PROTOCOL"
                        "OpenAI Responses stream contained invalid JSON" (json_object [("error", VString e)]))
              (value_of_text (bytes_of data)));
    ResponseEvents.accept event s.

Definition responses_stream (names : ToolNames) (incoming : list Incoming) : list StreamChunk * ending :=
  run_stream responses_step responses_cancelled
    (λ e, adapter_error "TRANSPORT" "OpenAI Responses stream read failed" (json_object [("error", VString e)]))
    (λ s, if rs_terminal s then Ok tt
          else Err (adapter_error "TRANSPORT"
                      "OpenAI Responses stream ended before a terminal response event" VNull))
    incoming SseDecoder_default (ResponseState_new names).
End responses_stream.

(** ** Sending *)

(** The credential of a request: whether a text can be a header's value is up to the
    http crate. *)
Definition responses_authorization (header_ok : string → bool) (s : ProviderSnapshot) :
    result TessivumError (option string) :=
  if is_empty (rr_credential_ref (ps_route s)) then
    match api_key s with
    | Some _ =>
        Err (adapter_error "INVALID_CREDENTIAL"
               "an unauthenticated OpenAI Responses route must not resolve a credential"
               (json_object [("route", VString (rr_id (ps_route s)))]))
    | None => Ok None
    end
  else
    key ← ok_or (api_key s)
            (adapter_error "MISSING_CREDENTIAL" "the OpenAI Responses route credential is not configured"
               (json_object [("route", VString (rr_id (ps_route s)))]));
    if header_ok ("Bearer " +:+ key) then Ok (Some ("Bearer " +:+ key))
    else Err (adapter_error "INVALID_CREDENTIAL"
                "the OpenAI Responses route credential cannot be sent in an HTTP header" VNull).

(** [str::contains] of a lower-case word in a text in any case. *)
Definition ascii_lower (a : ascii) : ascii :=
  if (65 <=? byte a) && (byte a <=? 90) then ascii_of_N (byte a + 32) else a.
Definition to_ascii_lowercase (s : string) : string := string_of (ascii_lower <$> bytes_of s).

(** The body of an error, read up to the limit; the chunks that the reading took. *)
Fixpoint error_body (bytes_ : bytes) (incoming : list Incoming) : option bytes * nat :=
  if negb (N.of_nat (length bytes_) <? MAX_ERROR_BODY_BYTES) then (Some bytes_, O)
  else match incoming with
  | Received next :: incoming =>
      let p := error_body (bytes_ ++ take (N.to_nat MAX_ERROR_BODY_BYTES - length bytes_) next) incoming in
      (p.1, S p.2)
  | ReadCancelled :: _ => (None, 1%nat)
  | ReadFailed _ :: _ => (Some bytes_, 1%nat)
  | [] => (Some bytes_, O)
  end.

Definition http_error (status : N) (request_id : option string) (incoming : list Incoming) : TessivumError :=
  match (error_body [] incoming).1 with
  | None => responses_cancelled
  | Some data =>
      let body := from_utf8_lossy data in
      let has word := contains word (to_ascii_lowercase body) in
      let code :=
        if (status =? 401) || (status =? 403) then "AUTH"
        else if status =? 429 then if has "quota" then "QUOTA" else "RATE_LIMIT"
        else if status =? 400 then if has "context" then "CONTEXT_WINDOW_EXCEEDED" else "INVALID_REQUEST"
        else if (500 <=? status) && (status <? 600) then "SERVER"
        else "OPENAI_HTTP_ERROR" in
      adapter_error code ("OpenAI Responses endpoint returned HTTP " +:+ fmt_N status)
        (json_object [("status", json_u64 status); ("requestId", json_option VString request_id);
                      ("body", VString body)])
  end.

(** What the transport answers: nothing yet when cancelled, an error, or a status with
    the identifier of the request and the body. *)
Inductive Answer :=
| AnswerCancelled
| AnswerFailed (e : string)
| Answered (status : N) (request_id : option string) (body : list Incoming).

(** A request over the wire: the URL, the value of the authorization, the body. *)
Record WireRequest := mkWire { wq_endpoint : Url; wq_authorization : option string; wq_body : Value }.

Section generate.
Context `{UrlParser, JsonText, Sha256, AttachmentDisk}.
Context (header_ok : string → bool) (transport : WireRequest → Answer).

Definition responses_send (request : GenerateRequest) (snapshot : ProviderSnapshot) (names : ToolNames)
    (store : option AttachmentLimits) : Body (list Incoming) :=
  endpoint ← body_lift (snapshot_endpoint snapshot);
  body ← request_body request snapshot names store;
  authorization ← body_lift (responses_authorization header_ok snapshot);
  match transport (mkWire endpoint authorization body) with
  | AnswerCancelled => body_lift (Err responses_cancelled)
  | AnswerFailed e =>
      body_lift (Err (adapter_error "TRANSPORT" "OpenAI Responses request failed before a response was received"
        (json_object [("endpoint", VString (url_text endpoint)); ("error", VString e)])))
  | Answered status request_id incoming =>
      if (200 <=? status) && (status <? 300) then mret incoming
      else body_lift (Err (http_error status request_id incoming))
  end.

(** [OpenAiResponsesAdapter::generate]. *)
Definition responses_generate (resolver : ResponsesRouteResolver) (store : option AttachmentLimits)
    (request : GenerateRequest) : Body (list StreamChunk * ending) :=
  snapshot ← body_lift (adapter_snapshot resolver request);
  names ← body_lift (names_from_request request);
  incoming ← responses_send request snapshot names store;
  mret (responses_stream names incoming).
End generate.
