(* ===== verification/CompatibleApi.v ===== *)
(** * Other provider protocols (compatible_api.rs): chat completions and Anthropic

    The bodies of requests, and the states that turn the events of a stream into
    chunks.  The decoder of events, the names of tools and the images are those of
    [Responses].  The overflow of an index is a panic, as in a build that checks
    arithmetic. *)

From S2P Require Import Prelude Json Protocol Jsonl Attachments Responses.

#[local] Open Scope N_scope.

Definition protocol_error (code message : string) (details : Value) : TessivumError :=
  TessivumError_new code message "llm-compatible" details.
Definition compatible_cancelled : TessivumError :=
  protocol_error "CANCELLED" "LLM request was cancelled" VNull.
Definition compatible_event_error (code : string) (error : Value) : TessivumError :=
  protocol_error code (default "provider stream reported an error" (get_str "message" error)) error.

(** ** Requests *)

Inductive Auth := AuthBearer | AuthAnthropic.

(** The headers of a request with a credential, or without. *)
Definition auth_headers (header_ok : string → bool) (auth : Auth) (s : ProviderSnapshot) :
    result TessivumError (list (string * string)) :=
  let version := [("anthropic-version", "2023-06-01")] in
  match api_key s with
  | Some key =>
      let value := match auth with AuthBearer => "Bearer " +:+ key | AuthAnthropic => key end in
      if header_ok value then
        Ok (match auth with
            | AuthBearer => [("authorization", value)]
            | AuthAnthropic => ("x-api-key", value) :: version
            end)
      else Err (protocol_error "INVALID_CREDENTIAL" "provider credential cannot be sent in an HTTP header" VNull)
  | None => Ok (match auth with AuthBearer => [] | AuthAnthropic => version end)
  end.

Definition compatible_endpoint `{UrlParser} (s : ProviderSnapshot) (suffix : string) : result TessivumError Url :=
  base ← ResponsesRoute_validate (ps_route s);
  map_err (λ _, protocol_error "INVALID_LLM_BASE_URL"
                  "provider base URL cannot address the selected API protocol"
                  (json_object [("api", VString (rr_api (ps_route s)))]))
    (url_parse (endpoint_text base suffix)).

Definition text_part (text : string) : Value := json_object [("type", VString "text"); ("text", VString text)].
Definition no_output : Value := text_part "(no tool output)".

Section bodies.
Context `{Sha256, AttachmentDisk}.

(** [image_url] of the image of the Responses protocol. *)
Definition image_data_url (attachment : Value) (snapshot : ProviderSnapshot) (store : AttachmentLimits) :
    Body string :=
  image ← image_input attachment (ps_model snapshot) (Some store);
  body_lift (ok_or (get_str "image_url" image)
    (protocol_error "INVALID_ATTACHMENT_REFERENCE" "image conversion returned no data URL" VNull)).

Definition chat_image (attachment : Value) (snapshot : ProviderSnapshot) (store : AttachmentLimits) :
    Body Value :=
  url ← image_data_url attachment snapshot store;
  mret (json_object [("type", VString "image_url"); ("image_url", json_object [("url", VString url)])]).

(** The parts of a tool's output. *)
Definition output_parts (image : Value → Body Value) (content : list ContentBlock) : Body (list Value) :=
  parts ← concatM (λ block,
    match block with
    | Text text => mret [text_part text]
    | Image attachment => v ← image attachment; mret [v]
    | _ => mret []
    end) content;
  mret (match parts with [] => [no_output] | _ => parts end).

(** The content, the calls and the results of a message, in three lists. *)
Fixpoint chat_blocks (names : ToolNames) (image : Value → Body Value) (blocks : list ContentBlock) :
    Body (list Value * list Value * list Value) :=
  match blocks with
  | [] => mret ([], [], [])
  | block :: blocks =>
      head ← match block with
             | Text text => mret ([text_part text], [], [])
             | Image attachment => v ← image attachment; mret ([v], [], [])
             | Reasoning _ => mret ([], [], [])
             | ToolCall id name arguments =>
                 mret ([], [json_object
                   [("id", VString id); ("type", VString "function");
                    ("function", json_object [("name", VString (names_wire names name));
                                              ("arguments", VString arguments)])]], [])
             | ToolResult tool_call_id content _ =>
                 parts ← output_parts image content;
                 mret ([], [], [json_object
                   [("role", VString "tool"); ("tool_call_id", VString tool_call_id); ("content", VArray parts)]])
             end;
      rest ← chat_blocks names image blocks;
      mret (head.1.1 ++ rest.1.1, head.1.2 ++ rest.1.2, head.2 ++ rest.2)
  end.

Definition chat_role (r : MessageRole) : string :=
  match r with RoleSystem => "system" | RoleUser => "user" | RoleAssistant => "assistant" end.

Definition is_nil {A} (l : list A) : bool := match l with [] => true | _ => false end.

Definition chat_message (names : ToolNames) (image : Value → Body Value) (message : Message) :
    Body (list Value) :=
  p ← chat_blocks names image (m_content message);
  let '(content, tool_calls, tool_results) := p in
  mret ((if is_nil content && is_nil tool_calls then []
         else [json_object ([("role", VString (chat_role (m_role message))); ("content", VArray content)]
                            ++ field "tool_calls" VArray (present (Some tool_calls)))])
        ++ tool_results).

Definition chat_tool (names : ToolNames) (tool : ToolSchema) : Value :=
  json_object
    [("type", VString "function");
     ("function", json_object [("name", VString (names_wire names (ts_name tool)));
                               ("description", VString (ts_description tool));
                               ("parameters", ts_parameters tool)])].

Definition chat_body (request : GenerateRequest) (snapshot : ProviderSnapshot) (names : ToolNames)
    (store : AttachmentLimits) : Body Value :=
  let system := match present_str (gr_system request) with
                | Some system => [json_object [("role", VString "system"); ("content", VString system)]]
                | None => []
                end in
  messages ← concatM (chat_message names (λ attachment, chat_image attachment snapshot store)) (gr_messages request);
  mret (json_object
    ([("model", VString (gr_model request)); ("messages", VArray (system ++ messages));
      ("stream", VBool true); ("stream_options", json_object [("include_usage", VBool true)])]
     ++ field "tools" (λ tools, VArray (chat_tool names <$> tools)) (present (gr_tools request))
     ++ field "temperature" f64_value (gr_temperature request)
     ++ field "max_tokens" json_u64 (gr_max_tokens request)
     ++ field "stop" json_strings (present (gr_stop request))
     ++ field "reasoning_effort" VString (present_str (gr_reasoning_effort request)))).

(** ** Requests of the Anthropic protocol *)

Definition anthropic_image (attachment : Value) (snapshot : ProviderSnapshot) (store : AttachmentLimits) :
    Body Value :=
  url ← image_data_url attachment snapshot store;
  p ← body_lift (ok_or (split_once "," (bytes_of url))
        (protocol_error "INVALID_ATTACHMENT_REFERENCE" "image conversion returned an invalid data URL" VNull));
  media_type ← body_lift (ok_or (strip_prefix (bytes_of "data:") p.1 ≫= strip_suffix (bytes_of ";base64"))
        (protocol_error "INVALID_ATTACHMENT_REFERENCE" "image conversion returned an invalid media type" VNull));
  mret (json_object
    [("type", VString "image");
     ("source", json_object [("type", VString "base64"); ("media_type", VString (string_of media_type));
                             ("data", VString (string_of p.2))])]).

Context `{JsonText}.

(** The arguments of a call, as a value. *)
Definition call_input (name arguments : string) : result TessivumError Value :=
  map_err (λ e, protocol_error "INVALID_TOOL_ARGUMENTS" "Anthropic tool-call arguments are not valid JSON"
                  (json_object [("tool", VString name); ("error", VString e)]))
    (value_of_text (bytes_of arguments)).

(** The ordinary blocks and the results of a message. *)
Fixpoint anthropic_blocks (image : Value → Body Value) (blocks : list ContentBlock) :
    Body (list Value * list Value) :=
  match blocks with
  | [] => mret ([], [])
  | block :: blocks =>
      head ← match block with
             | Text text => mret ([text_part text], [])
             | Image attachment => v ← image attachment; mret ([v], [])
             | Reasoning _ => mret ([], [])
             | ToolCall id name arguments =>
                 input ← body_lift (call_input name arguments);
                 mret ([json_object [("type", VString "tool_use"); ("id", VString id);
                                     ("name", VString name); ("input", input)]], [])
             | ToolResult tool_call_id content is_error =>
                 output ← output_parts image content;
                 mret ([], [json_object [("type", VString "tool_result"); ("tool_use_id", VString tool_call_id);
                                         ("content", VArray output);
                                         ("is_error", VBool (default false is_error))]])
             end;
      rest ← anthropic_blocks image blocks;
      mret (head.1 ++ rest.1, head.2 ++ rest.2)
  end.

Definition anthropic_message (image : Value → Body Value) (message : Message) : Body (list Value) :=
  match m_role message with
  | RoleSystem => mret []
  | role =>
      p ← anthropic_blocks image (m_content message);
      let '(normal, tool_results) := p in
      mret ((if is_nil normal then []
             else [json_object [("role", VString (match role with RoleAssistant => "assistant" | _ => "user" end));
                                ("content", VArray normal)]])
            ++ (if is_nil tool_results then []
                else [json_object [("role", VString "user"); ("content", VArray tool_results)]]))
  end.

(** The texts of the system messages, behind the system prompt. *)
Definition add_system (system text : string) : string :=
  (if is_empty system then "" else system +:+ line_feed +:+ line_feed) +:+ text.
Definition anthropic_system (request : GenerateRequest) : string :=
  foldl add_system (default "" (gr_system request))
    (mjoin ((λ m, match m_role m with
                  | RoleSystem => omap (λ b, match b with Text t => Some t | _ => None end) (m_content m)
                  | _ => []
                  end) <$> gr_messages request)).

Definition anthropic_tool (tool : ToolSchema) : Value :=
  json_object [("name", VString (ts_name tool)); ("description", VString (ts_description tool));
               ("input_schema", ts_parameters tool)].

Definition anthropic_body (request : GenerateRequest) (snapshot : ProviderSnapshot) (store : AttachmentLimits) :
    Body Value :=
  messages ← concatM (anthropic_message (λ attachment, anthropic_image attachment snapshot store)) (gr_messages request);
  let max_tokens := match gr_max_tokens request with
                    | Some n => n
                    | None => default 8192 (rm_max_tokens (ps_model snapshot))
                    end in
  mret (json_object
    ([("model", VString (gr_model request)); ("messages", VArray messages); ("stream", VBool true);
      ("max_tokens", json_u64 max_tokens)]
     ++ field "system" VString (present_str (Some (anthropic_system request)))
     ++ field "tools" (λ tools, VArray (anthropic_tool <$> tools)) (present (gr_tools request))
     ++ field "temperature" f64_value (gr_temperature request)
     ++ field "stop_sequences" json_strings (present (gr_stop request)))).
End bodies.

(** ** Chat completions: the state of a stream *)

Inductive ChatBlock :=
| ChatText (index : N) (text : string)
| ChatReasoning (index : N) (text : string)
| ChatTool (index : N) (id : ToolCallId) (name arguments : string).

Record ChatState := mkChat {
  ch_blocks : gmap N ChatBlock;
  ch_wire_to_logical : ToolNames;
  ch_next_index : N;
  ch_finish_reason : option FinishReason;
  ch_terminal : bool;
}.

Definition openai_usage (value : Value) : TokenUsage :=
  mkUsage (default 0 (get_u64 "prompt_tokens" value)) (default 0 (get_u64 "completion_tokens" value))
    (pointer ["prompt_tokens_details"; "cached_tokens"] value ≫= as_u64) None
    (pointer ["completion_tokens_details"; "reasoning_tokens"] value ≫= as_u64).

(** [+ 1] and [+ 2] on [u64]. *)
Definition u64_add (a b : N) : result fault N :=
  match u64_checked_add a b with Some n => Ok n | None => Err Panicked end.

Definition chat_error {A} (message : string) (details : Value) : result fault A :=
  throw (protocol_error "OPENAI_PROTOCOL" message details).

Module Chat.

Definition new (names : ToolNames) : ChatState := mkChat ∅ names 0 None false.

Definition put_block (key : N) (b : ChatBlock) (s : ChatState) : ChatState :=
  mkChat (<[key := b]> (ch_blocks s)) (ch_wire_to_logical s) (ch_next_index s) (ch_finish_reason s) (ch_terminal s).
Definition put_next (n : N) (s : ChatState) : ChatState :=
  mkChat (ch_blocks s) (ch_wire_to_logical s) n (ch_finish_reason s) (ch_terminal s).
Definition put_reason (r : FinishReason) (s : ChatState) : ChatState :=
  mkChat (ch_blocks s) (ch_wire_to_logical s) (ch_next_index s) (Some r) (ch_terminal s).

(** The insertion of a block under its key, with the next index. *)
Definition insert_block (key : N) (block : N → ChatBlock) (block_type : string) (s : ChatState) :
    result fault (list StreamChunk * ChatState) :=
  let index := ch_next_index s in
  next ← u64_add index 1;
  Ok ([BlockStart index block_type], put_block key (block index) (put_next next s)).

Definition append_text (key : N) (delta : string) (reasoning : bool) (s : ChatState) :
    result fault (list StreamChunk * ChatState) :=
  if is_empty delta then Ok ([], s)
  else
    p ← match ch_blocks s !! key with
        | Some _ => Ok ([], s)
        | None =>
            insert_block key (λ index, if reasoning then ChatReasoning index "" else ChatText index "")
              (if reasoning then "reasoning" else "text") s
        end;
    let '(chunks, s) := p in
    match ch_blocks s !! key, reasoning with
    | None, _ => Err Panicked
    | Some (ChatText index text), false =>
        Ok (chunks ++ [TextDelta index delta], put_block key (ChatText index (text +:+ delta)) s)
    | Some (ChatReasoning index text), true =>
        Ok (chunks ++ [ReasoningDelta index delta], put_block key (ChatReasoning index (text +:+ delta)) s)
    | Some _, _ => chat_error "stream changed content block type" (json_object [("index", json_u64 key)])
    end.

Definition append_tool (key : N) (delta : Value) (s : ChatState) :
    result fault (list StreamChunk * ChatState) :=
  let function := default VNull (get "function" delta) in
  let id := get_str "id" delta in
  let name := get_str "name" function in
  let arguments := default "" (get_str "arguments" function) in
  let at_key := json_object [("index", json_u64 (key - 2))] in
  p ← match ch_blocks s !! key with
      | Some _ => Ok ([], s)
      | None =>
          match id, name with
          | None, _ => chat_error "first tool-call delta has no id" at_key
          | Some _, None => chat_error "first tool-call delta has no name" at_key
          | Some id, Some name =>
              insert_block key (λ index, ChatTool index id (names_logical (ch_wire_to_logical s) name) "")
                "tool-call" s
          end
      end;
  let '(chunks, s) := p in
  match ch_blocks s !! key with
  | None => Err Panicked
  | Some (ChatTool index id name all) =>
      Ok (chunks ++ [ToolCallDelta index id (Some name) arguments],
          put_block key (ChatTool index id name (all +:+ arguments)) s)
  | Some _ => chat_error "stream changed tool-call block type" at_key
  end.

(** A loop whose steps emit chunks. *)
Fixpoint emitM {A S} (f : A → S → result fault (list StreamChunk * S)) (l : list A) (s : S) :
    result fault (list StreamChunk * S) :=
  match l with
  | [] => Ok ([], s)
  | a :: l => p ← f a s; q ← emitM f l p.2; Ok (p.1 ++ q.1, q.2)
  end.

Definition append_call (call : Value) (s : ChatState) : result fault (list StreamChunk * ChatState) :=
  match get_u64 "index" call with
  | None => chat_error "tool-call delta has no index" VNull
  | Some wire_index => key ← u64_add wire_index 2; append_tool key call s
  end.

Definition reason_of (reason : string) : FinishReason :=
  if String.eqb reason "tool_calls" || String.eqb reason "function_call" then FinishToolCalls
  else if String.eqb reason "length" then FinishMaxTokens
  else FinishStop.

Definition accept_choice (choice : Value) (s : ChatState) : result fault (list StreamChunk * ChatState) :=
  let delta := default VNull (get "delta" choice) in
  let reasoning := match get "reasoning_content" delta with Some v => Some v | None => get "reasoning" delta end in
  p ← match reasoning ≫= as_str with Some text => append_text 0 text true s | None => Ok ([], s) end;
  q ← match get_str "content" delta with Some text => append_text 1 text false p.2 | None => Ok ([], p.2) end;
  r ← emitM append_call (array_items "tool_calls" delta) q.2;
  Ok (p.1 ++ q.1 ++ r.1,
      match get_str "finish_reason" choice with Some reason => put_reason (reason_of reason) r.2 | None => r.2 end).

Definition accept (event : Value) (s : ChatState) : result fault (list StreamChunk * ChatState) :=
  match get "error" event with
  | Some error => throw (compatible_event_error "OPENAI_PROTOCOL" error)
  | None =>
      let usage := match get "usage" event with
                   | Some usage => if is_object usage then [ChunkUsage (openai_usage usage)] else []
                   | None => []
                   end in
      p ← emitM accept_choice (array_items "choices" event) s;
      Ok (usage ++ p.1, p.2)
  end.

Definition block_index (b : ChatBlock) : N :=
  match b with ChatText i _ | ChatReasoning i _ | ChatTool i _ _ _ => i end.
Definition block_content (b : ChatBlock) : ContentBlock :=
  match b with
  | ChatText _ text => Text text
  | ChatReasoning _ text => Reasoning text
  | ChatTool _ id name arguments => ToolCall id name arguments
  end.
Definition finish_block (b : ChatBlock) : StreamChunk := BlockEnd (block_index b) (block_content b).

(** [sort_by_key]; the indexes are distinct. *)
Definition index_le (a b : ChatBlock) : Prop := block_index a ≤ block_index b.
#[export] Instance index_le_dec a b : Decision (index_le a b).
Proof. unfold index_le. apply _. Defined.

Definition finish (s : ChatState) : list StreamChunk * ChatState :=
  if ch_terminal s then ([], s)
  else
    ((finish_block <$> merge_sort index_le ((map_to_list (ch_blocks s)).*2))
       ++ [Finish (default FinishStop (ch_finish_reason s)) None],
     mkChat ∅ (ch_wire_to_logical s) (ch_next_index s) None true).
End Chat.

(** ** Anthropic: the state of a stream *)

Inductive AnthropicBlock :=
| AnthropicText (text : string)
| AnthropicReasoning (text : string)
| AnthropicTool (id : ToolCallId) (name arguments : string).

Record AnthropicState := mkAnthropic {
  an_blocks : gmap N AnthropicBlock;
  an_input_tokens : N;
  an_output_tokens : N;
  an_cache_read_tokens : option N;
  an_cache_write_tokens : option N;
  an_finish_reason : option FinishReason;
  an_terminal : bool;
}.

Definition anthropic_error {A} (message : string) (details : Value) : result fault A :=
  throw (protocol_error "ANTHROPIC_PROTOCOL" message details).
Definition at_index (index : N) : Value := json_object [("index", json_u64 index)].

Definition required_index (event : Value) : result fault N :=
  match get_u64 "index" event with
  | Some i => Ok i
  | None => anthropic_error "Anthropic content event has no index" VNull
  end.

Module Anthropic.

Definition new : AnthropicState := mkAnthropic ∅ 0 0 None None None false.

Definition put_blocks (blocks : gmap N AnthropicBlock) (s : AnthropicState) : AnthropicState :=
  mkAnthropic blocks (an_input_tokens s) (an_output_tokens s) (an_cache_read_tokens s)
    (an_cache_write_tokens s) (an_finish_reason s) (an_terminal s).
Definition put_reason (r : option FinishReason) (s : AnthropicState) : AnthropicState :=
  mkAnthropic (an_blocks s) (an_input_tokens s) (an_output_tokens s) (an_cache_read_tokens s)
    (an_cache_write_tokens s) r (an_terminal s).

(** [new.or(old)]. *)
Definition or_else {A} (new old : option A) : option A := match new with Some _ => new | None => old end.

Definition record_usage (usage : Value) (s : AnthropicState) : AnthropicState :=
  mkAnthropic (an_blocks s) (default (an_input_tokens s) (get_u64 "input_tokens" usage))
    (default (an_output_tokens s) (get_u64 "output_tokens" usage))
    (or_else (get_u64 "cache_read_input_tokens" usage) (an_cache_read_tokens s))
    (or_else (get_u64 "cache_creation_input_tokens" usage) (an_cache_write_tokens s))
    (an_finish_reason s) (an_terminal s).

(** The type, the state and the first delta of a block that starts; none for a type
    that is not known. *)
Definition starting (index : N) (block : Value) :
    result fault (option (string * AnthropicBlock * list StreamChunk)) :=
  match get_str "type" block with
  | Some kind =>
      if String.eqb kind "text" then
        let text := default "" (get_str "text" block) in
        Ok (Some ("text", AnthropicText text, if is_empty text then [] else [TextDelta index text]))
      else if String.eqb kind "thinking" then
        let text := default "" (get_str "thinking" block) in
        Ok (Some ("reasoning", AnthropicReasoning text, if is_empty text then [] else [ReasoningDelta index text]))
      else if String.eqb kind "tool_use" then
        match get_str "id" block, get_str "name" block with
        | None, _ => anthropic_error "tool_use block has no id" (at_index index)
        | Some _, None => anthropic_error "tool_use block has no name" (at_index index)
        | Some id, Some name =>
            Ok (Some ("tool-call", AnthropicTool id name "", [ToolCallDelta index id (Some name) ""]))
        end
      else Ok None
  | None => Ok None
  end.

Definition start_block (event : Value) (s : AnthropicState) : result fault (list StreamChunk * AnthropicState) :=
  index ← required_index event;
  match an_blocks s !! index with
  | Some _ => Ok ([], s)
  | None =>
      k ← starting index (default VNull (get "content_block" event));
      match k with
      | None => Ok ([], s)
      | Some (block_type, state, first) =>
          Ok (BlockStart index block_type :: first, put_blocks (<[index := state]> (an_blocks s)) s)
      end
  end.

Definition delta (event : Value) (s : AnthropicState) : result fault (list StreamChunk * AnthropicState) :=
  index ← required_index event;
  let delta := default VNull (get "delta" event) in
  let put b := put_blocks (<[index := b]> (an_blocks s)) s in
  match an_blocks s !! index with
  | None => anthropic_error "content delta has no open block" (at_index index)
  | Some state =>
      let changed := anthropic_error "content delta changed block type" (at_index index) in
      match get_str "type" delta, state with
      | Some kind, AnthropicText all =>
          if String.eqb kind "text_delta" then
            let text := default "" (get_str "text" delta) in
            Ok ([TextDelta index text], put (AnthropicText (all +:+ text)))
          else changed
      | Some kind, AnthropicReasoning all =>
          if String.eqb kind "thinking_delta" then
            let text := default "" (get_str "thinking" delta) in
            Ok ([ReasoningDelta index text], put (AnthropicReasoning (all +:+ text)))
          else if String.eqb kind "signature_delta" then Ok ([], s)
          else changed
      | Some kind, AnthropicTool id name arguments =>
          if String.eqb kind "input_json_delta" then
            let part := default "" (get_str "partial_json" delta) in
            Ok ([ToolCallDelta index id (Some name) part], put (AnthropicTool id name (arguments +:+ part)))
          else changed
      | None, _ => changed
      end
  end.

Definition block_content (b : AnthropicBlock) : ContentBlock :=
  match b with
  | AnthropicText text => Text text
  | AnthropicReasoning text => Reasoning text
  | AnthropicTool id name arguments => ToolCall id name arguments
  end.

Definition stop_block (index : N) (s : AnthropicState) : result fault (list StreamChunk * AnthropicState) :=
  match an_blocks s !! index with
  | None => anthropic_error "content block stop has no open block" (at_index index)
  | Some b => Ok ([BlockEnd index (block_content b)], put_blocks (delete index (an_blocks s)) s)
  end.

Definition finish (s : AnthropicState) : result fault (list StreamChunk * AnthropicState) :=
  if an_terminal s then Ok ([], s)
  else if negb (bool_decide (an_blocks s = ∅)) then
    anthropic_error "message stopped with open content blocks" VNull
  else
    Ok ([ChunkUsage (mkUsage (an_input_tokens s) (an_output_tokens s) (an_cache_read_tokens s)
                       (an_cache_write_tokens s) None);
         Finish (default FinishStop (an_finish_reason s)) None],
        mkAnthropic (an_blocks s) (an_input_tokens s) (an_output_tokens s) (an_cache_read_tokens s)
          (an_cache_write_tokens s) None true).

Definition reason_of (reason : string) : FinishReason :=
  if String.eqb reason "tool_use" then FinishToolCalls
  else if String.eqb reason "max_tokens" then FinishMaxTokens
  else FinishStop.

Definition accept (event : Value) (s : AnthropicState) : result fault (list StreamChunk * AnthropicState) :=
  match get_str "type" event with
  | None => anthropic_error "Anthropic event has no type" VNull
  | Some kind =>
      let named k := String.eqb kind k in
      if named "ping" then Ok ([], s)
      else if named "error" then
        throw (compatible_event_error "ANTHROPIC_PROTOCOL" (default event (get "error" event)))
      else if named "message_start" then
        Ok ([], match pointer ["message"; "usage"] event with Some usage => record_usage usage s | None => s end)
      else if named "content_block_start" then start_block event s
      else if named "content_block_delta" then delta event s
      else if named "content_block_stop" then index ← required_index event; stop_block index s
      else if named "message_delta" then
        let s := match get "usage" event with Some usage => record_usage usage s | None => s end in
        Ok ([], put_reason (reason_of <$> (pointer ["delta"; "stop_reason"] event ≫= as_str)) s)
      else if named "message_stop" then finish s
      else Ok ([], s)
  end.
End Anthropic.

(** ** The streams *)

Section streams.
Context `{JsonText}.

Definition parse_event (code message data : string) : result fault Value :=
  throwing (map_err (λ e, protocol_error code message (json_object [("error", VString e)]))
              (value_of_text (bytes_of data))).

Definition chat_step (data : string) (s : ChatState) : result fault (list StreamChunk * ChatState) :=
  if String.eqb data "[DONE]" then Ok (Chat.finish s)
  else
    event ← parse_event "OPENAI_PROTOCOL" "OpenAI Completions stream contained invalid JSON" data;
    Chat.accept event s.

Definition read_error (message e : string) : TessivumError :=
  protocol_error "TRANSPORT" message (json_object [("error", VString e)]).

Definition chat_stream (names : ToolNames) (incoming : list Incoming) : list StreamChunk * ending :=
  run_stream chat_step compatible_cancelled (read_error "OpenAI Completions stream read failed")
    (λ s, if ch_terminal s then Ok tt
          else Err (protocol_error "TRANSPORT" "OpenAI Completions stream ended before [DONE]" VNull))
    incoming SseDecoder_default (Chat.new names).

Definition anthropic_step (data : string) (s : AnthropicState) :
    result fault (list StreamChunk * AnthropicState) :=
  event ← parse_event "ANTHROPIC_PROTOCOL" "Anthropic Messages stream contained invalid JSON" data;
  Anthropic.accept event s.

Definition anthropic_stream (incoming : list Incoming) : list StreamChunk * ending :=
  run_stream anthropic_step compatible_cancelled (read_error "Anthropic Messages stream read failed")
    (λ s, if an_terminal s then Ok tt
          else Err (protocol_error "TRANSPORT" "Anthropic Messages stream ended before message_stop" VNull))
    incoming SseDecoder_default Anthropic.new.
End streams.

(** ** Sending *)

(** The body of an error.  The loop goes on while there are at most [MAX] bytes, and
    there never are more: it reads to the end. *)
Fixpoint compatible_error_body (body : bytes) (incoming : list Incoming) : option bytes * nat :=
  if MAX_ERROR_BODY_BYTES <? N.of_nat (length body) then (Some body, O)
  else match incoming with
  | Received next :: incoming =>
      let p := compatible_error_body (body ++ take (N.to_nat MAX_ERROR_BODY_BYTES - length body) next) incoming in
      (p.1, S p.2)
  | ReadCancelled :: _ => (None, 1%nat)
  | ReadFailed _ :: _ => (Some body, 1%nat)
  | [] => (Some body, O)
  end.

Definition compatible_http_error `{JsonText} (status : N) (request_id : option string)
    (incoming : list Incoming) : TessivumError :=
  match (compatible_error_body [] incoming).1 with
  | None => compatible_cancelled
  | Some body =>
      let value := match value_of_text body with
                   | Ok v => v
                   | Err _ => json_object [("body", VString (from_utf8_lossy body))]
                   end in
      let message := match pointer ["error"; "message"] value with
                     | Some m => Some m
                     | None => get "message" value
                     end in
      protocol_error "PROVIDER_HTTP_ERROR"
        (default "provider rejected the request" (message ≫= as_str))
        (json_object [("status", json_u64 status); ("requestId", json_option VString request_id); ("error", value)])
  end.

(** A request of these protocols. *)
Record CompatibleRequest := mkCompatible {
  cq_endpoint : Url;
  cq_headers : list (string * string);
  cq_body : Value;
}.

Section generate.
Context `{UrlParser, JsonText, Sha256, AttachmentDisk}.
Context (header_ok : string → bool).
Context (transport : CompatibleRequest → Answer) (responses_transport : WireRequest → Answer).

Definition compatible_send (snapshot : ProviderSnapshot) (suffix : string) (auth : Auth) (body : Value) :
    Body (list Incoming) :=
  endpoint ← body_lift (compatible_endpoint snapshot suffix);
  headers ← body_lift (auth_headers header_ok auth snapshot);
  match transport (mkCompatible endpoint headers body) with
  | AnswerCancelled => body_lift (Err compatible_cancelled)
  | AnswerFailed e =>
      body_lift (Err (protocol_error "TRANSPORT" "provider request failed before a response was received"
        (json_object [("endpoint", VString (url_text endpoint)); ("error", VString e)])))
  | Answered status request_id incoming =>
      if (200 <=? status) && (status <? 300) then mret incoming
      else body_lift (Err (compatible_http_error status request_id incoming))
  end.

Definition generate_chat (request : GenerateRequest) (snapshot : ProviderSnapshot) (store : AttachmentLimits) :
    Body (list StreamChunk * ending) :=
  names ← body_lift (names_from_request request);
  body ← chat_body request snapshot names store;
  incoming ← compatible_send snapshot "chat/completions" AuthBearer body;
  mret (chat_stream names incoming).

Definition generate_anthropic (request : GenerateRequest) (snapshot : ProviderSnapshot)
    (store : AttachmentLimits) : Body (list StreamChunk * ending) :=
  body ← anthropic_body request snapshot store;
  incoming ← compatible_send snapshot "messages" AuthAnthropic body;
  mret (anthropic_stream incoming).

Definition compatible_snapshot (resolver : ResponsesRouteResolver) (request : GenerateRequest) :
    result TessivumError ProviderSnapshot :=
  snapshot ← resolver (gr_provider request) (gr_model request);
  _ ← ResponsesRoute_validate (ps_route snapshot);
  _ ← ResponsesModel_validate (ps_model snapshot);
  _ ← snapshot_validate_request snapshot (gr_provider request) (gr_model request);
  Ok snapshot.

(** [CompatibleApiAdapter::generate]. *)
Definition compatible_generate (resolver : ResponsesRouteResolver) (store : AttachmentLimits)
    (request : GenerateRequest) : Body (list StreamChunk * ending) :=
  snapshot ← body_lift (compatible_snapshot resolver request);
  let api := rr_api (ps_route snapshot) in
  if String.eqb api "openai-responses" then
    responses_generate header_ok responses_transport resolver (Some store) request
  else if String.eqb api "openai-completions" then generate_chat request snapshot store
  else if String.eqb api "anthropic-messages" then generate_anthropic request snapshot store
  else body_lift (Err (protocol_error "INVALID_LLM_PROTOCOL" "provider route uses an unsupported API protocol"
                         (json_object [("api", VString api)]))).
End generate.
