(* ===== verification/ProviderFacts.v ===== *)
(** * Facts about provider protocols: the decoder of events, names, images

    What the decoder finds does not depend on how its bytes arrive; what an encoder
    of events writes is found; the names of tools translate back; base64 decodes. *)

From S2P Require Import Prelude Json Protocol Jsonl JsonlFacts Attachments AttachmentFacts Responses CompatibleApi.

#[local] Open Scope N_scope.

(** ** The boundary of an event *)

Lemma begins_app p l m : (length p ≤ length l)%nat → begins p (l ++ m) = begins p l.
Proof. intros Hl. unfold begins. by rewrite take_app_le. Qed.

Lemma begins_split p l : begins p l = true ↔ ∃ r, l = p ++ r.
Proof.
  unfold begins. rewrite bool_decide_eq_true. split.
  - intros Ht. exists (drop (length p) l). by rewrite <-Ht at 1; rewrite take_drop.
  - intros [r ->]. apply take_app_length.
Qed.

Lemma boundary_shift l : ∀ i, event_boundary_from i l = (λ p, (i + p.1, p.2)%nat) <$> event_boundary_from 0 l.
Proof.
  induction l as [|a l IH]; intros i; cbn [event_boundary_from]; [done|].
  destruct (begins LF2 (a :: l)); [cbn; by rewrite Nat.add_0_r|].
  destruct (begins CRLF2 (a :: l)); [cbn; by rewrite Nat.add_0_r|].
  rewrite (IH (S i)), (IH 1%nat). destruct (event_boundary_from 0 l) as [[j d]|]; [|done].
  cbn. do 2 f_equal. lia.
Qed.

Lemma boundary_cons a l :
  event_boundary (a :: l) =
    if begins LF2 (a :: l) then Some (0, 2)%nat
    else if begins CRLF2 (a :: l) then Some (0, 4)%nat
    else (λ p, (S p.1, p.2)) <$> event_boundary l.
Proof. unfold event_boundary. cbn [event_boundary_from]. by rewrite (boundary_shift l 1). Qed.

(** The delimiter lies inside the buffer. *)
Lemma boundary_fits l i d : event_boundary l = Some (i, d) → (2 ≤ d ∧ i + d ≤ length l)%nat.
Proof.
  revert i. induction l as [|a l IH]; intros i; [done|]. rewrite boundary_cons.
  destruct (begins LF2 _) eqn:H2.
  { apply begins_split in H2 as [r ->]. intros [= <- <-]. rewrite length_app. cbn. lia. }
  destruct (begins CRLF2 _) eqn:H4.
  { apply begins_split in H4 as [r ->]. intros [= <- <-]. rewrite length_app. cbn. lia. }
  destruct (event_boundary l) as [[j e]|]; [|done]. intros [= <- <-]. cbn.
  destruct (IH j eq_refl). lia.
Qed.

(** A boundary is found where it is, whatever arrives behind it. *)
Lemma boundary_app l m p : event_boundary l = Some p → event_boundary (l ++ m) = Some p.
Proof.
  revert p. induction l as [|a l IH]; intros p; [done|].
  change ((a :: l) ++ m) with (a :: (l ++ m)). rewrite !boundary_cons.
  destruct (begins LF2 (a :: l)) eqn:H2.
  { intros [= <-]. change (a :: l ++ m) with ((a :: l) ++ m).
    apply begins_split in H2 as [r ->]. rewrite <-app_assoc.
    assert (begins LF2 (LF2 ++ r ++ m) = true) as -> by (apply begins_split; eauto). done. }
  destruct (begins CRLF2 (a :: l)) eqn:H4.
  { intros [= <-]. change (a :: l ++ m) with ((a :: l) ++ m).
    apply begins_split in H4 as [r ->]. rewrite <-app_assoc.
    assert (begins CRLF2 (CRLF2 ++ r ++ m) = true) as -> by (apply begins_split; eauto). done. }
  destruct (event_boundary l) as [[i d]|] eqn:Hl; [|done]. intros [= <-].
  pose proof (boundary_fits _ _ _ Hl) as [Hd Hlen]. rewrite (IH _ eq_refl).
  change (a :: l ++ m) with ((a :: l) ++ m).
  rewrite begins_app by (cbn; lia). rewrite H2.
  assert (begins CRLF2 ((a :: l) ++ m) = false) as ->; [|done].
  destruct (begins CRLF2 ((a :: l) ++ m)) eqn:Hx; [exfalso|done].
  destruct (decide (4 ≤ length (a :: l))%nat) as [Hge|Hlt].
  { rewrite begins_app in Hx by done. congruence. }
  apply begins_split in Hx as [r Hr].
  destruct l as [|b [|c [|e l]]]; cbn in Hlt, Hlen, Hr; try lia; simplify_eq.
Qed.

(** ** Draining a buffer *)

Lemma drain_fuel f : ∀ g l, (length l ≤ f)%nat → (length l ≤ g)%nat → drain f l = drain g l.
Proof.
  induction f as [|f IH]; intros [|g] l Hf Hg; try done.
  - destruct l; [done|cbn in Hf; lia].
  - destruct l; [done|cbn in Hg; lia].
  - cbn [drain]. destruct (event_boundary l) as [[i d]|] eqn:Hb; [|done].
    destruct (_ <? _); [done|]. destruct (event_data _); [|done]. cbn [mbind result_bind].
    apply boundary_fits in Hb as [Hd Hl].
    rewrite (IH g); [done|rewrite length_drop; lia..].
Qed.

Definition drain_all (l : bytes) : result TessivumError (list string * bytes) := drain (length l) l.

Lemma drain_all_eq l :
  drain_all l = match event_boundary l with
                | None => Ok ([], l)
                | Some (i, d) =>
                    if MAX_SSE_EVENT_BYTES <? N.of_nat i then Err event_too_large
                    else
                      data ← event_data (take i l);
                      rest ← drain_all (drop (i + d) l);
                      Ok (match data with Some data => [data] | None => [] end ++ rest.1, rest.2)
                end.
Proof.
  unfold drain_all. destruct l as [|a l]; [done|]. cbn [length drain].
  destruct (event_boundary (a :: l)) as [[i d]|] eqn:Hb; [|done].
  destruct (_ <? _); [done|]. destruct (event_data _); [|done]. cbn [mbind result_bind].
  apply boundary_fits in Hb as [Hd Hl]. cbn [length] in Hl.
  by rewrite (drain_fuel (length l) (length (drop (i + d) (a :: l)))) by (rewrite length_drop; cbn; lia).
Qed.

(** Induction over the frames of a buffer. *)
Lemma frames_ind (P : bytes → Prop) :
  (∀ l, (∀ i d, event_boundary l = Some (i, d) → P (drop (i + d) l)) → P l) → ∀ l, P l.
Proof.
  intros HP l.
  remember (length l) as n eqn:Hn. revert l Hn. induction (lt_wf n) as [n _ IH]. intros l ->.
  apply HP. intros i d Hb. apply boundary_fits in Hb as [Hd Hl].
  apply (IH (length (drop (i + d) l))); [rewrite length_drop; lia|done].
Qed.

(** What was found stays found, and what was left is all that matters. *)
Lemma drain_app l : ∀ m events rest,
  drain_all l = Ok (events, rest) →
  drain_all (l ++ m) = p ← drain_all (rest ++ m); Ok (events ++ p.1, p.2).
Proof.
  induction l as [l IH] using frames_ind. intros m events rest. rewrite drain_all_eq.
  destruct (event_boundary l) as [[i d]|] eqn:Hb.
  2: { intros [= <- <-]. destruct (drain_all (l ++ m)) as [[e r]|]; done. }
  rewrite (drain_all_eq (l ++ m)), (boundary_app _ _ _ Hb). pose proof (boundary_fits _ _ _ Hb) as [Hd Hl].
  destruct (_ <? _); [done|]. rewrite take_app_le by lia. destruct (event_data (take i l)) as [data|]; [|done].
  cbn [mbind result_bind]. rewrite drop_app_le by lia.
  destruct (drain_all (drop (i + d) l)) as [[e r]|] eqn:He; [|done]. cbn [mbind result_bind fst snd].
  intros [= <- <-]. rewrite (IH i d eq_refl m e r He). destruct (drain_all (r ++ m)) as [[e2 r2]|]; [|done].
  cbn. by rewrite app_assoc.
Qed.

(** A part of a buffer that drains, drains. *)
Lemma drain_prefix l : ∀ m events rest,
  drain_all (l ++ m) = Ok (events, rest) → ∃ e r, drain_all l = Ok (e, r).
Proof.
  induction l as [l IH] using frames_ind. intros m events rest. rewrite (drain_all_eq l).
  destruct (event_boundary l) as [[i d]|] eqn:Hb; [|eauto].
  rewrite drain_all_eq, (boundary_app _ _ _ Hb). pose proof (boundary_fits _ _ _ Hb) as [Hd Hl].
  destruct (_ <? _); [done|]. rewrite take_app_le by lia. destruct (event_data (take i l)) as [data|]; [|done].
  cbn [mbind result_bind]. rewrite drop_app_le by lia.
  destruct (drain_all (drop (i + d) l ++ m)) as [[e r]|] eqn:He; [|done]. intros _.
  destruct (IH i d eq_refl m e r He) as (e' & r' & ->). cbn. eauto.
Qed.

(** What is left has no event. *)
Lemma drain_rest l : ∀ events rest, drain_all l = Ok (events, rest) → event_boundary rest = None.
Proof.
  induction l as [l IH] using frames_ind. intros events rest. rewrite drain_all_eq.
  destruct (event_boundary l) as [[i d]|] eqn:Hb; [|by intros [= <- <-]].
  destruct (_ <? _); [done|]. destruct (event_data _); [|done]. cbn [mbind result_bind].
  destruct (drain_all (drop (i + d) l)) as [[e r]|] eqn:He; [|done]. intros [= <- <-].
  by eapply (IH i d).
Qed.

(** ** Pieces *)

(** All that arrives, piece by piece. *)
Fixpoint sse_feed (pieces : list bytes) (d : SseDecoder) : result TessivumError (list string * SseDecoder) :=
  match pieces with
  | [] => Ok ([], d)
  | piece :: pieces =>
      p ← sse_push piece d;
      q ← sse_feed pieces p.2;
      Ok (p.1 ++ q.1, q.2)
  end.

Lemma sse_push_eq data d :
  sse_push data d = (p ← drain_all (sd_buffer d ++ data);
                     if MAX_SSE_EVENT_BYTES <? N.of_nat (length p.2) then Err event_too_large
                     else Ok (p.1, mkDecoder p.2)).
Proof. done. Qed.

Lemma feed_drains pieces : ∀ d events d',
  event_boundary (sd_buffer d) = None → sse_feed pieces d = Ok (events, d') →
  drain_all (sd_buffer d ++ mjoin pieces) = Ok (events, sd_buffer d').
Proof.
  induction pieces as [|piece pieces IH]; intros d events d' Hd.
  { intros [= <- <-]. cbn. rewrite app_nil_r, drain_all_eq. by rewrite Hd. }
  cbn [sse_feed]. rewrite sse_push_eq.
  destruct (drain_all (sd_buffer d ++ piece)) as [[e r]|] eqn:He; [|done]. cbn [mbind result_bind fst snd].
  destruct (_ <? _); [done|]. cbn [mbind result_bind fst snd].
  destruct (sse_feed pieces (mkDecoder r)) as [[e2 d2]|] eqn:Hf; [|done]. intros [= <- <-].
  pose proof (drain_rest _ _ _ He) as Hr. specialize (IH (mkDecoder r) e2 d2 Hr Hf). cbn [sd_buffer] in IH.
  change (mjoin (piece :: pieces)) with (piece ++ mjoin pieces). rewrite app_assoc.
  rewrite (drain_app _ _ _ _ He), IH. done.
Qed.

(** ** What an encoder writes

    An event of some lines, each behind "data: ", and a blank line. *)
Definition data_prefix : bytes := bytes_of "data: ".
Definition encode_line (line : bytes) : bytes := data_prefix ++ line ++ [newline].
Definition encode_event (lines : list bytes) : bytes := mjoin (encode_line <$> lines) ++ [newline].

Definition good_line (line : bytes) : Prop :=
  Forall (λ a, a ≠ newline ∧ a ≠ carriage_return) line ∧ utf8 line = true.
(** One line at least, and room for the delimiter within the limit. *)
Definition good_event (lines : list bytes) : Prop :=
  lines ≠ [] ∧ Forall good_line lines ∧ N.of_nat (length (encode_event lines)) ≤ MAX_SSE_EVENT_BYTES.

Lemma utf8_app b : ∀ n a, (length a ≤ n)%nat → utf8 a = true → utf8 (a ++ b) = utf8 b.
Proof.
  induction n as [|n IH]; intros [|x a] Hn Ha; cbn [length] in Hn; try done; try lia.
  cbn [utf8 app] in *. destruct (byte x <? 128); [apply IH; [lia|done]|].
  destruct a as [|y a]; [done|]. cbn [app length] in *.
  destruct (in_range 194 223 x).
  { apply andb_true_iff in Ha as [-> Ha]. apply IH; [lia|done]. }
  destruct a as [|z a]; [done|]. cbn [app length] in *.
  destruct (byte x =? 224).
  { apply andb_true_iff in Ha as [-> Ha]. apply IH; [lia|done]. }
  destruct (byte x =? 237).
  { apply andb_true_iff in Ha as [-> Ha]. apply IH; [lia|done]. }
  destruct (in_range 225 239 x).
  { apply andb_true_iff in Ha as [-> Ha]. apply IH; [lia|done]. }
  destruct a as [|w a]; [done|]. cbn [app length] in *.
  apply andb_true_iff in Ha as [-> Ha]. apply IH; [lia|done].
Qed.
Lemma utf8_concat l : Forall (λ a, utf8 a = true) l → utf8 (mjoin l) = true.
Proof.
  induction 1 as [|a l Ha _ IH]; [done|]. change (mjoin (a :: l)) with (a ++ mjoin l).
  by rewrite (utf8_app _ (length a)).
Qed.

(** A byte that starts no delimiter. *)
Lemma boundary_skip a l : a ≠ newline → a ≠ carriage_return → event_boundary (a :: l) = (λ p, (S p.1, p.2)) <$> event_boundary l.
Proof.
  intros Hn Hc. rewrite boundary_cons.
  destruct (begins LF2 (a :: l)) eqn:H2; [apply begins_split in H2 as [r [= -> _]]; done|].
  destruct (begins CRLF2 (a :: l)) eqn:H4; [apply begins_split in H4 as [r [= -> _]]; done|]. done.
Qed.
Lemma boundary_plain x l :
  Forall (λ a, a ≠ newline ∧ a ≠ carriage_return) x →
  event_boundary (x ++ l) = (λ p, (length x + p.1, p.2)%nat) <$> event_boundary l.
Proof.
  induction 1 as [|a x [Hn Hc] _ IH]; cbn [app length].
  { by destruct (event_boundary l) as [[i d]|]. }
  rewrite boundary_skip, IH by done. by destruct (event_boundary l) as [[i d]|].
Qed.

Lemma data_prefix_plain : Forall (λ a, a ≠ newline ∧ a ≠ carriage_return) data_prefix.
Proof. unfold data_prefix. cbn. repeat constructor; done. Qed.

(** The frame of an event, without its delimiter. *)
Definition frame_of (lines : list bytes) : bytes := join_lines ((λ l, data_prefix ++ l) <$> lines).

Lemma encode_event_cons line lines :
  encode_event (line :: lines) = (data_prefix ++ line) ++ newline :: encode_event lines.
Proof.
  unfold encode_event. change (encode_line <$> line :: lines) with (encode_line line :: (encode_line <$> lines)).
  change (mjoin (encode_line line :: (encode_line <$> lines))) with (encode_line line ++ mjoin (encode_line <$> lines)).
  unfold encode_line. by rewrite <-!app_assoc.
Qed.
Lemma encode_event_frame lines : lines ≠ [] → encode_event lines = frame_of lines ++ LF2.
Proof.
  induction lines as [|line [|line' lines] IH]; intros Hne; [done| |].
  - rewrite encode_event_cons. done.
  - rewrite encode_event_cons, IH by done. unfold frame_of.
    change ((data_prefix ++ line) ++ newline :: frame_of (line' :: lines) ++ LF2
      = ((data_prefix ++ line) ++ newline :: frame_of (line' :: lines)) ++ LF2). by rewrite <-(app_assoc (data_prefix ++ line)).
Qed.

Lemma boundary_event lines rest :
  lines ≠ [] → Forall good_line lines →
  event_boundary (encode_event lines ++ rest) = Some (length (frame_of lines), 2%nat).
Proof.
  intros Hne Hg. revert Hne. induction Hg as [|line lines [Hl _] Hg IH]; intros Hne; [done|].
  rewrite encode_event_cons, <-app_assoc.
  rewrite boundary_plain by (apply Forall_app; split; [apply data_prefix_plain|exact Hl]).
  cbn [app]. rewrite boundary_cons. destruct lines as [|line' lines].
  { assert (begins LF2 (newline :: encode_event [] ++ rest) = true) as -> by (apply begins_split; by exists rest).
    cbn [fmap option_fmap option_map fst snd]. rewrite Nat.add_0_r. done. }
  rewrite IH by done.
  assert (∃ r, encode_event (line' :: lines) ++ rest = "d"%char :: r) as [r Hr].
  { rewrite encode_event_cons. eexists. unfold data_prefix. reflexivity. }
  rewrite Hr. cbn [begins]. assert (begins LF2 (newline :: "d"%char :: r) = false) as -> by done.
  assert (begins CRLF2 (newline :: "d"%char :: r) = false) as -> by done.
  cbn. unfold frame_of. cbn [fmap list_fmap join_lines]. rewrite length_app. cbn. done.
Qed.

(** ** Reading a frame *)

Lemma lines_from_plain x l : ∀ line,
  Forall (λ a, a ≠ newline ∧ a ≠ carriage_return) x → lines_from line (x ++ l) = lines_from (line ++ x) l.
Proof.
  induction x as [|a x IH]; intros line Hx; [by rewrite app_nil_r|].
  apply Forall_cons in Hx as [[Hn _] Hx]. cbn [app lines_from]. rewrite bool_decide_eq_false_2 by done.
  rewrite IH by done. by rewrite <-app_assoc.
Qed.

Lemma no_carriage_return x :
  Forall (λ a, a ≠ newline ∧ a ≠ carriage_return) x → strip_suffix [carriage_return] x = None.
Proof.
  intros Hx. destruct (strip_suffix _ x) as [y|] eqn:Hs; [|done].
  apply strip_suffix_Some in Hs as ->. apply Forall_app in Hx as [_ Hx]. apply Forall_cons in Hx as [[_ Hx] _]. done.
Qed.

Lemma str_lines_frame lines :
  lines ≠ [] → Forall good_line lines → str_lines (frame_of lines) = (λ l, data_prefix ++ l) <$> lines.
Proof.
  intros Hne Hg. unfold str_lines. revert Hne. induction Hg as [|line lines [Hl _] Hg IH]; intros Hne; [done|].
  assert (Forall (λ a, a ≠ newline ∧ a ≠ carriage_return) (data_prefix ++ line)) as Hp
    by (apply Forall_app; split; [apply data_prefix_plain|exact Hl]).
  destruct lines as [|line' lines].
  - unfold frame_of. cbn [fmap list_fmap join_lines].
    rewrite <-(app_nil_r (data_prefix ++ line)) at 1. rewrite lines_from_plain by done.
    rewrite app_nil_l. done.
  - change (frame_of (line :: line' :: lines))
      with ((data_prefix ++ line) ++ newline :: frame_of (line' :: lines)).
    rewrite lines_from_plain, app_nil_l by done. cbn [lines_from].
    rewrite bool_decide_eq_true_2, IH by done. unfold end_line. by rewrite no_carriage_return.
Qed.

Lemma data_of_encoded line : good_line line → data_of_line (data_prefix ++ line) = Some line.
Proof.
  intros [Hl _]. unfold data_of_line.
  rewrite no_carriage_return by (apply Forall_app; split; [apply data_prefix_plain|exact Hl]).
  cbn [default]. change (data_prefix ++ line) with (bytes_of "data:" ++ [" "%char] ++ line).
  rewrite strip_prefix_app. cbn [mbind option_bind]. by rewrite strip_prefix_app.
Qed.

Lemma utf8_frame lines : Forall good_line lines → utf8 (frame_of lines) = true.
Proof.
  induction 1 as [|line lines [_ Hl] Hg IH]; [done|].
  assert (utf8 (data_prefix ++ line) = true) as Hp by (by rewrite (utf8_app _ (length data_prefix))).
  destruct lines as [|line' lines]; [done|].
  change (frame_of (line :: line' :: lines)) with ((data_prefix ++ line) ++ newline :: frame_of (line' :: lines)).
  by rewrite (utf8_app _ (length (data_prefix ++ line))).
Qed.

Lemma event_data_frame lines :
  lines ≠ [] → Forall good_line lines → event_data (frame_of lines) = Ok (Some (string_of (join_lines lines))).
Proof.
  intros Hne Hg. unfold event_data. rewrite utf8_frame by done. cbn [negb].
  rewrite str_lines_frame by done.
  assert (omap data_of_line ((λ l, data_prefix ++ l) <$> lines) = lines) as ->.
  { clear Hne. induction Hg as [|line lines Hl Hg IH]; [done|].
    cbn [fmap list_fmap omap list_omap]. rewrite data_of_encoded by done. by f_equal. }
  by destruct lines.
Qed.

Definition event_string (e : list bytes) : string := string_of (join_lines e).
Definition encode_events (es : list (list bytes)) : bytes := mjoin (encode_event <$> es).

Lemma drain_encoded events :
  Forall good_event events →
  drain_all (encode_events events) = Ok (event_string <$> events, []).
Proof.
  induction 1 as [|lines events (Hne & Hg & Hmax) Hes IH]; [done|].
  change (encode_events (lines :: events)) with (encode_event lines ++ encode_events events).
  rewrite drain_all_eq, boundary_event by done. rewrite encode_event_frame in Hmax |- * by done.
  rewrite length_app in Hmax. cbn [length LF2] in Hmax.
  rewrite (proj2 (N.ltb_ge _ _)) by lia. rewrite <-app_assoc, take_app_length.
  rewrite event_data_frame by done. cbn [mbind result_bind].
  rewrite app_assoc, drop_app_le by (rewrite length_app; cbn; lia).
  rewrite (drop_ge (frame_of lines ++ LF2)) by (rewrite length_app; cbn; lia). rewrite app_nil_l, IH. done.
Qed.


Lemma drain_event lines l :
  good_event lines →
  drain_all (encode_event lines ++ l) = p ← drain_all l; Ok (event_string lines :: p.1, p.2).
Proof.
  intros Hg. pose proof (drain_encoded [lines]) as Hd. cbn [fmap list_fmap] in Hd.
  change (encode_events [lines]) with (encode_event lines ++ []) in Hd. rewrite app_nil_r in Hd.
  by rewrite (drain_app _ l _ _ (Hd (proj2 (Forall_singleton _ _) Hg))).
Qed.

(** A first part of an encoded stream: whole events, and the beginning of one. *)
Lemma encoded_prefix events : ∀ l m,
  Forall good_event events → l ++ m = encode_events events →
  ∃ done todo rest, events = done ++ todo ∧ drain_all l = Ok (event_string <$> done, rest) ∧
    rest ++ m = encode_events todo ∧ event_boundary rest = None ∧
    N.of_nat (length rest) ≤ MAX_SSE_EVENT_BYTES.
Proof.
  induction events as [|lines events IH]; intros l m Hg Hl.
  { apply app_eq_nil in Hl as [-> ->]. by exists [], [], []. }
  apply Forall_cons in Hg as [Hlines Hg]. destruct Hlines as (Hne & Hgood & Hmax) eqn:Hd.
  change (encode_events (lines :: events)) with (encode_event lines ++ encode_events events) in Hl.
  destruct (decide (length (encode_event lines) ≤ length l)%nat) as [Hle|Hlt].
  - assert (l = encode_event lines ++ drop (length (encode_event lines)) l) as Hsplit.
    { rewrite <-(take_drop (length (encode_event lines)) l) at 1. f_equal.
      apply (f_equal (take (length (encode_event lines)))) in Hl.
      rewrite (take_app_le l m) in Hl by done. rewrite Hl. apply take_app_length. }
    set (l' := drop _ l) in Hsplit. rewrite Hsplit in Hl |- *. rewrite <-app_assoc in Hl.
    apply app_inv_head in Hl. destruct (IH l' m Hg Hl) as (es & todo & rest & -> & Hr & Hm & Hb & Hx).
    exists (lines :: es), todo, rest. split_and!; try done. rewrite drain_event by done. by rewrite Hr.
  - exists [], (lines :: events), l. split_and!; [done| |done| |lia].
    + rewrite drain_all_eq. destruct (event_boundary l) as [p|] eqn:Hb; [exfalso|done].
      pose proof (boundary_app l m _ Hb) as Hb'. rewrite Hl, boundary_event in Hb' by done.
      injection Hb' as <-. apply boundary_fits in Hb as [_ Hf].
      rewrite encode_event_frame, length_app in Hlt by done. cbn in Hlt. lia.
    + destruct (event_boundary l) as [p|] eqn:Hb; [exfalso|done].
      pose proof (boundary_app l m _ Hb) as Hb'. rewrite Hl, boundary_event in Hb' by done.
      injection Hb' as <-. apply boundary_fits in Hb as [_ Hf].
      rewrite encode_event_frame, length_app in Hlt by done. cbn in Hlt. lia.
Qed.

Lemma feed_encoded pieces : ∀ d events,
  Forall good_event events → event_boundary (sd_buffer d) = None →
  sd_buffer d ++ mjoin pieces = encode_events events →
  sse_feed pieces d = Ok (event_string <$> events, mkDecoder []).
Proof.
  induction pieces as [|piece pieces IH]; intros d events Hg Hb Hl.
  - change (mjoin []) with (@nil ascii) in Hl. rewrite app_nil_r in Hl. destruct events as [|lines events].
    { destruct d as [buffer]. cbn in Hl. by subst. }
    apply Forall_cons in Hg as [(Hne & Hgood & _) Hg].
    change (encode_events (lines :: events)) with (encode_event lines ++ encode_events events) in Hl.
    by rewrite Hl, boundary_event in Hb.
  - change (mjoin (piece :: pieces)) with (piece ++ mjoin pieces) in Hl. rewrite app_assoc in Hl.
    destruct (encoded_prefix events _ _ Hg Hl) as (es & todo & rest & -> & Hd & Hr & Hrb & Hmax).
    cbn [sse_feed]. rewrite sse_push_eq, Hd. cbn [mbind result_bind fst snd].
    rewrite (proj2 (N.ltb_ge _ _)) by done. cbn [mbind result_bind fst snd].
    apply Forall_app in Hg as [_ Hg]. rewrite (IH (mkDecoder rest) todo Hg Hrb Hr).
    cbn [mbind result_bind fst snd]. by rewrite fmap_app.
Qed.

(** ** Base64: what is sent is what was stored *)

Definition octets : list N := N.of_nat <$> seq 0 256.
Lemma octets_complete n : n < 256 → n ∈ octets.
Proof. intros Hn. apply list_elem_of_fmap. exists (N.to_nat n). split; [lia|]. apply elem_of_seq. lia. Qed.

Definition sextet1 (a : N) : N := N.shiftr a 2.
Definition sextet2 (a b : N) : N := N.lor (u8_shl (N.land a 3) 4) (N.shiftr b 4).
Definition sextet3 (b c : N) : N := N.lor (u8_shl (N.land b 15) 2) (N.shiftr c 6).
Definition sextet4 (c : N) : N := N.land c 63.
Definition merge (x k y j : N) : N := N.lor (u8_shl x k) (N.shiftr y j).

(** The bits of two bytes, checked one by one. *)
Definition pair_ok (a b : N) : Prop :=
  merge (sextet1 a) 2 (sextet2 a b) 4 = a ∧ sextet2 a b < 64 ∧ sextet3 a b < 64 ∧
  u8_shl (sextet2 a b) 4 = u8_shl (N.shiftr b 4) 4 ∧ N.shiftr (sextet3 a b) 2 = N.land a 15 ∧
  u8_shl (sextet3 a b) 6 = u8_shl (N.shiftr b 6) 6.
Definition octet_ok (a : N) : Prop :=
  N.lor (u8_shl (N.shiftr a 4) 4) (N.land a 15) = a ∧ merge (N.shiftr a 6) 6 (sextet4 a) 0 = a ∧
  sextet1 a < 64 ∧ sextet4 a < 64.
#[local] Instance pair_ok_dec a b : Decision (pair_ok a b).
Proof. unfold pair_ok. apply _. Defined.
#[local] Instance octet_ok_dec a : Decision (octet_ok a).
Proof. unfold octet_ok. apply _. Defined.

(** A property of bytes that holds of each. *)
Lemma all_octets (P : N → Prop) `{∀ n, Decision (P n)} :
  forallb (λ n, bool_decide (P n)) octets = true → ∀ n, n < 256 → P n.
Proof.
  intros Hall n Hn%octets_complete%list_elem_of_In.
  by apply (bool_decide_eq_true_1 _), (proj1 (forallb_forall _ _) Hall).
Qed.
Lemma pairs_ok a b : a < 256 → b < 256 → pair_ok a b.
Proof.
  intros Ha Hb. assert (forallb (λ a, forallb (λ b, bool_decide (pair_ok a b)) octets) octets = true) as H
    by (vm_compute; reflexivity).
  apply octets_complete, list_elem_of_In in Ha. apply (all_octets (pair_ok a)); [|done].
  exact (proj1 (forallb_forall _ _) H a Ha).
Qed.
Lemma octets_ok a : a < 256 → octet_ok a.
Proof. apply (all_octets octet_ok). vm_compute. reflexivity. Qed.

Lemma sextet_b64 n : n < 64 → sextet (b64 n) = Some n ∧ b64 n ≠ equals_sign ∧ b64 n ≠ ","%char.
Proof.
  intros Hn. assert (n < 256) as Hn' by lia. revert n Hn' Hn.
  apply (all_octets (λ n, n < 64 → sextet (b64 n) = Some n ∧ b64 n ≠ equals_sign ∧ b64 n ≠ ","%char)).
  vm_compute. reflexivity.
Qed.

Lemma decode_slots_sextet last slot values n chunk :
  n < 64 →
  decode_slots last slot 0 values (b64 n :: chunk) = decode_slots last (S slot) 0 (values ++ [n]) chunk.
Proof.
  intros Hn. destruct (sextet_b64 n Hn) as (Hs & He & _). cbn [decode_slots].
  rewrite bool_decide_eq_false_2 by done. cbn [negb Nat.eqb]. by rewrite Hs.
Qed.

Lemma decode_slots_equals slot padding values chunk :
  (2 ≤ slot)%nat →
  decode_slots true slot padding values ("="%char :: chunk) =
  decode_slots true (S slot) (S padding) (values ++ [0]) chunk.
Proof.
  intros Hs. cbn [decode_slots]. rewrite bool_decide_eq_true_2 by done.
  by rewrite (proj2 (Nat.ltb_ge _ _) Hs).
Qed.

(** The bytes of a chunk. *)
Definition chunk_bytes (a : ascii) (b c : option ascii) : bytes :=
  a :: match b, c with Some b, Some c => [b; c] | Some b, None => [b] | None, _ => [] end.

(** What the bits of the chunk are, and that they fit. *)
Lemma merged a y z :
  y < 256 → z < 256 →
  merge_bits (sextet1 (byte a)) 2 (sextet2 (byte a) y) 4 = a ∧
  merge_bits (sextet2 (byte a) y) 4 (sextet3 y z) 2 = ascii_of_N y ∧
  merge_bits (sextet3 y z) 6 (sextet4 z) 0 = ascii_of_N z ∧
  sextet1 (byte a) < 64 ∧ sextet2 (byte a) y < 64 ∧ sextet3 y z < 64 ∧ sextet4 z < 64.
Proof.
  intros Hy Hz. pose proof (byte_lt a) as Ha.
  destruct (pairs_ok _ _ Ha Hy) as (Hm1 & Hs2 & _ & Hshl & _ & _).
  destruct (pairs_ok _ _ Hy Hz) as (_ & _ & Hs3 & _ & Hshr & Hshl3).
  destruct (octets_ok _ Ha) as (_ & _ & Hs1 & _), (octets_ok _ Hy) as (Hy1 & _), (octets_ok _ Hz) as (_ & Hm3 & _ & Hs4).
  unfold merge_bits. unfold merge in Hm1, Hm3. rewrite Hm1, Hshl, Hshr, Hy1, Hshl3, Hm3.
  split_and!; try done. apply ascii_N_embedding.
Qed.

Lemma decode_encode_chunk last a b c :
  match b, c with None, Some _ => False | Some _, Some _ => True | _, None => last = true end →
  decode_chunk last (encode_chunk a b c) = Some (chunk_bytes a b c).
Proof.
  intros Hlast. unfold decode_chunk, encode_chunk. fold (sextet1 (byte a)).
  destruct b as [b|], c as [c|]; try done; cbn [from_option].
  - destruct (merged a (byte b) (byte c) (byte_lt b) (byte_lt c)) as (H1 & H2 & H3 & S1 & S2 & S3 & S4).
    fold (sextet2 (byte a) (byte b)) (sextet3 (byte b) (byte c)) (sextet4 (byte c)).
    rewrite !decode_slots_sextet by done. rewrite ?decode_slots_equals by lia.
    cbn -[merge_bits sextet1 sextet2 sextet3 sextet4 byte b64].
    rewrite H1, H2, H3. unfold byte. by rewrite !ascii_N_embedding.
  - subst last. destruct (merged a (byte b) 0 (byte_lt b) eq_refl) as (H1 & H2 & _ & S1 & S2 & S3 & _).
    fold (sextet2 (byte a) (byte b)) (sextet3 (byte b) 0).
    rewrite !decode_slots_sextet by done. rewrite ?decode_slots_equals by lia.
    cbn -[merge_bits sextet1 sextet2 sextet3 sextet4 byte b64].
    rewrite H1, H2. unfold byte. by rewrite !ascii_N_embedding.
  - subst last. destruct (merged a 0 0 eq_refl eq_refl) as (H1 & _ & _ & S1 & S2 & _).
    fold (sextet2 (byte a) 0).
    rewrite !decode_slots_sextet by done. rewrite ?decode_slots_equals by lia.
    cbn -[merge_bits sextet1 sextet2 sextet3 sextet4 byte b64].
    by rewrite H1.
Qed.

Lemma triples_ind (P : bytes → Prop) :
  P [] → (∀ a, P [a]) → (∀ a b, P [a; b]) → (∀ a b c l, P l → P (a :: b :: c :: l)) → ∀ l, P l.
Proof.
  intros H0 H1 H2 H3. fix IH 1. intros [|a [|b [|c l]]]; [done|apply H1|apply H2|apply H3, IH].
Qed.

Lemma base64_length l : N.of_nat (length (base64_encode l)) mod 4 = 0.
Proof.
  induction l as [|a|a b|a b c l IH] using triples_ind; try done.
  cbn [base64_encode]. rewrite length_app. cbn [encode_chunk length].
  replace (N.of_nat (4 + length (base64_encode l))) with (N.of_nat (length (base64_encode l)) + 1 * 4) by lia.
  by rewrite N.Div0.mod_add.
Qed.
Lemma base64_empty l : base64_encode l = [] ↔ l = [].
Proof. by destruct l as [|a [|b [|c l]]]. Qed.

Lemma decode_chunks_encode l : l ≠ [] → decode_chunks (base64_encode l) = Some l.
Proof.
  induction l as [|a|a b|a b c l IH] using triples_ind; intros Hl; [done|..]; cbn [base64_encode].
  - pose proof (decode_encode_chunk true a None None eq_refl) as Hd.
    unfold encode_chunk in *. cbn [decode_chunks]. by rewrite bool_decide_eq_true_2, Hd.
  - pose proof (decode_encode_chunk true a (Some b) None eq_refl) as Hd.
    unfold encode_chunk in *. cbn [decode_chunks]. by rewrite bool_decide_eq_true_2, Hd.
  - pose proof (λ last, decode_encode_chunk last a (Some b) (Some c) I) as Hd.
    unfold encode_chunk in *. cbn [app decode_chunks]. rewrite Hd. cbn [mbind option_bind].
    destruct l as [|d l]; [done|]. by rewrite IH.
Qed.

Lemma decode_base64_encode l : l ≠ [] → decode_base64 (base64_encode l) = Some l.
Proof.
  intros Hl. unfold decode_base64. rewrite bool_decide_eq_false_2 by (by rewrite base64_empty).
  rewrite base64_length. by apply decode_chunks_encode.
Qed.

Lemma encode_chunk_plain a b c : Forall (λ x, x ≠ ","%char) (encode_chunk a b c).
Proof.
  assert (∀ n, n < 64 → b64 n ≠ ","%char) as Hb by (intros n Hn; by apply sextet_b64).
  assert (∀ o : option ascii, from_option byte 0 o < 256) as Ho by (intros [d|]; [apply byte_lt|done]).
  pose proof (pairs_ok _ _ (byte_lt a) (Ho b)) as (_ & H2 & _).
  pose proof (octets_ok _ (byte_lt a)) as (_ & _ & H1 & _).
  unfold encode_chunk. repeat constructor; try by apply Hb.
  - destruct b as [b|]; [|done]. pose proof (pairs_ok _ _ (byte_lt b) (Ho c)) as (_ & _ & H3 & _). by apply Hb.
  - destruct c as [c|]; [|done]. pose proof (octets_ok _ (byte_lt c)) as (_ & _ & _ & H3). by apply Hb.
Qed.
Lemma base64_plain l : Forall (λ x, x ≠ ","%char) (base64_encode l).
Proof.
  induction l as [|a|a b|a b c l IH] using triples_ind; cbn [base64_encode];
    [done|apply encode_chunk_plain..|]. apply Forall_app. split; [apply encode_chunk_plain|done].
Qed.
Lemma split_once_none c l : Forall (λ x, x ≠ c) l → split_once c l = None.
Proof.
  induction 1 as [|a l Ha _ IH]; [done|]. cbn [split_once]. rewrite bool_decide_eq_false_2 by done. by rewrite IH.
Qed.

(** ** Names of tools *)

(** Both directions of the table agree, and what is sent is made of the logical name. *)
Definition names_ok (n : ToolNames) : Prop :=
  (∀ logical wire, wire_by_logical n !! logical = Some wire ↔ logical_by_wire n !! wire = Some logical) ∧
  (∀ logical wire, wire_by_logical n !! logical = Some wire → wire = wire_of logical).

Lemma names_ok_default : names_ok ToolNames_default.
Proof. split; [|done]. intros logical wire. cbn. by rewrite !lookup_empty. Qed.

Lemma names_insert_ok logical n n' :
  names_ok n → names_insert logical n = Ok n' →
  names_ok n' ∧ is_Some (wire_by_logical n' !! logical) ∧ wire_by_logical n ⊆ wire_by_logical n'.
Proof.
  intros [Hn Hw]. unfold names_insert. case_bool_decide as Hl; [by intros [= <-]|].
  apply eq_None_not_Some in Hl.
  destruct (logical_by_wire n !! wire_of logical) as [other|] eqn:Ho; [done|]. intros [= <-]. cbn. split_and!.
  - split; cbn.
    + intros l w. rewrite !lookup_insert_Some, Hn. split.
      * intros [[-> ->]|[Hne Hlw]]; [by left|]. right. split; [|done]. intros <-. congruence.
      * intros [[-> ->]|[Hne Hlw]]; [by left|]. right. split; [|done]. intros <-. apply Hn in Hlw. congruence.
    + intros l w [[-> <-]|[_ Hlw]]%lookup_insert_Some; [done|by apply Hw].
  - rewrite lookup_insert_eq. by eexists.
  - by apply insert_subseteq.
Qed.

Lemma names_fold_ok names : ∀ n n',
  names_ok n → foldM (λ n name, names_insert name n) n names = Ok n' →
  names_ok n' ∧ (∀ name, name ∈ names → is_Some (wire_by_logical n' !! name)) ∧
  wire_by_logical n ⊆ wire_by_logical n'.
Proof.
  induction names as [|name names IH]; intros n n' Hn; cbn [foldM].
  { intros [= <-]. split_and!; [done| |done]. intros name Hin. by apply elem_of_nil in Hin. }
  destruct (names_insert name n) as [n1|] eqn:H1; cbn [mbind result_bind]; [|done]. intros Hf.
  destruct (names_insert_ok _ _ _ Hn H1) as (Hn1 & Hin & Hsub).
  destruct (IH _ _ Hn1 Hf) as (Hn' & Hall & Hsub'). split_and!; [done| |by etrans].
  intros x [->|Hx]%elem_of_cons; [|by apply Hall]. destruct Hin as [w Hw]. exists w.
  by eapply lookup_weaken.
Qed.

(** A table is refused only for two names with one wire name. *)
Lemma names_fold_total names : ∀ n,
  names_ok n → (∀ l, l ∈ names ∨ is_Some (wire_by_logical n !! l) → ∀ l', l' ∈ names → wire_of l = wire_of l' → l = l') →
  ∃ n', foldM (λ n name, names_insert name n) n names = Ok n'.
Proof.
  induction names as [|name names IH]; intros n Hn Hinj; cbn [foldM]; [by eexists|].
  destruct (names_insert name n) as [n1|e] eqn:H1; cbn [mbind result_bind].
  - apply IH; [by eapply names_insert_ok|]. intros l Hl l' Hl' Heq. apply Hinj; [|by right|done].
    destruct Hl as [Hl|Hl]; [left; by right|]. unfold names_insert in H1. case_bool_decide.
    + injection H1 as <-. by right.
    + destruct (logical_by_wire n !! _); [done|]. injection H1 as <-. cbn in Hl.
      destruct Hl as [w [[<- _]|[_ Hl]]%lookup_insert_Some]; [left; by left|right; by exists w].
  - exfalso. unfold names_insert in H1. case_bool_decide as Hnew; [done|].
    destruct (logical_by_wire n !! wire_of name) as [other|] eqn:Ho; [|done].
    apply Hn in Ho. assert (other = name) as ->.
    { apply Hinj; [right; by eexists|by left|]. symmetry. by apply Hn. }
    apply Hnew. by eexists.
Qed.

(** The alphabet of the provider. *)
Definition wire_alphabet (a : ascii) : Prop :=
  is_ascii_alphanumeric a = true ∨ a = "_"%char ∨ a = "-"%char.
Lemma wire_of_alphabet logical : Forall wire_alphabet (bytes_of (wire_of logical)).
Proof.
  unfold wire_of. rewrite bytes_of_string_of. apply Forall_forall. intros a Ha.
  apply list_elem_of_omap in Ha as (b & _ & Hb). unfold wire_char in Hb.
  destruct (is_ascii_alphanumeric b || _) eqn:Hg.
  - injection Hb as <-. apply orb_true_iff in Hg as [Hg|Hg%bool_decide_eq_true]; [by left|].
    right. set_solver.
  - destruct (continuation b); [done|]. injection Hb as <-. right. by left.
Qed.

(** ** Bodies of requests *)

Lemma concatM_app {A B} (f : A → Body (list B)) l1 l2 s b s1 :
  concatM f l1 s = Some (Ok b, s1) →
  concatM f (l1 ++ l2) s = (rest ← concatM f l2; mret (b ++ rest)) s1.
Proof.
  revert s b. induction l1 as [|a l1 IH]; intros s b; unfold mbind, Body_bind in *; cbn [concatM app].
  { intros [= <- <-]. by destruct (concatM f l2 s) as [[[]]|]. }
  unfold mbind, Body_bind. destruct (f a s) as [[[ba|e] sa]|]; [|done..].
  destruct (concatM f l1 sa) as [[[br|e] sr]|] eqn:Hr; [|done..].
  intros [= <- <-]. rewrite (IH _ _ Hr).
  destruct (concatM f l2 sr) as [[[]]|]; [|done..]. cbn. by rewrite app_assoc.
Qed.

(** A call whose arguments are no text, behind texts. *)
Lemma call_blocked `{Sha256, AttachmentDisk, JsonText} image e :
  value_of_text [] = Err e → ∀ texts id name blocks s,
  anthropic_blocks image ((Text <$> texts) ++ ToolCall id name "" :: blocks) s =
  Some (Err (protocol_error "INVALID_TOOL_ARGUMENTS" "Anthropic tool-call arguments are not valid JSON"
               (json_object [("tool", VString name); ("error", VString e)])), s).
Proof.
  intros He texts id name blocks s. induction texts as [|t texts IH]; cbn [fmap list_fmap app anthropic_blocks].
  - unfold call_input. change (bytes_of "") with (@nil ascii). rewrite He. done.
  - unfold mbind at 1, Body_bind at 1. cbn [mret Body_ret]. unfold mbind, Body_bind in *.
    change (Text <$> texts) with (Text <$> texts) in *. rewrite IH. done.
Qed.
Lemma message_blocked `{Sha256, AttachmentDisk, JsonText} image e :
  value_of_text [] = Err e → ∀ mid texts id name blocks source s,
  anthropic_message image (mkMessage mid RoleAssistant ((Text <$> texts) ++ ToolCall id name "" :: blocks) source) s =
  Some (Err (protocol_error "INVALID_TOOL_ARGUMENTS" "Anthropic tool-call arguments are not valid JSON"
               (json_object [("tool", VString name); ("error", VString e)])), s).
Proof.
  intros He mid texts id name blocks source s. unfold anthropic_message. cbn [m_role m_content].
  unfold mbind, Body_bind. by rewrite (call_blocked image e He).
Qed.
