(* ===== verification/ProviderStreamFacts.v ===== *)
(** * Facts about provider streams: what the adapters emit, the assembler accepts

    The protocol of a well-formed stream as a relation ([emits]): a block is started
    once under an index of its own, its deltas have its type, and its end carries
    what they add up to.  Streams that follow it are assembled; the three adapters
    follow it. *)

From S2P Require Import Prelude Json Protocol Jsonl Attachments Responses CompatibleApi Llm LlmFacts.

#[local] Open Scope N_scope.

(** ** Well-formed streams *)

(** The blocks that are open, with what has arrived; those that have ended; and the
    number of reports of usage. *)
Record Emitter := mkEmitter {
  em_open : gmap N ContentBlock;
  em_ended : gmap N ContentBlock;
  em_usages : nat;
}.
Definition Emitter_new : Emitter := mkEmitter ∅ ∅ 0.
Definition open_at (i : N) (b : ContentBlock) (e : Emitter) : Emitter :=
  mkEmitter (<[i := b]> (em_open e)) (em_ended e) (em_usages e).
Definition end_at (i : N) (b : ContentBlock) (e : Emitter) : Emitter :=
  mkEmitter (delete i (em_open e)) (<[i := b]> (em_ended e)) (em_usages e).
Definition count_usage (e : Emitter) : Emitter := mkEmitter (em_open e) (em_ended e) (S (em_usages e)).
Definition unused (i : N) (e : Emitter) : Prop := em_open e !! i = None ∧ em_ended e !! i = None.

Inductive emit : Emitter → list StreamChunk → Emitter → Prop :=
| emit_text e i : unused i e → emit e [BlockStart i "text"] (open_at i (Text "") e)
| emit_reasoning e i : unused i e → emit e [BlockStart i "reasoning"] (open_at i (Reasoning "") e)
| emit_call e i id name arguments : unused i e →
    emit e [BlockStart i "tool-call"; ToolCallDelta i id (Some name) arguments]
      (open_at i (ToolCall id name arguments) e)
| emit_text_delta e i text delta : em_open e !! i = Some (Text text) →
    emit e [TextDelta i delta] (open_at i (Text (text +:+ delta)) e)
| emit_reasoning_delta e i text delta : em_open e !! i = Some (Reasoning text) →
    emit e [ReasoningDelta i delta] (open_at i (Reasoning (text +:+ delta)) e)
| emit_call_delta e i id name arguments delta : em_open e !! i = Some (ToolCall id name arguments) →
    emit e [ToolCallDelta i id (Some name) delta] (open_at i (ToolCall id name (arguments +:+ delta)) e)
| emit_end e i b : em_open e !! i = Some b → emit e [BlockEnd i b] (end_at i b e)
| emit_usage e u : emit e [ChunkUsage u] (count_usage e).

Inductive emits : Emitter → list StreamChunk → Emitter → Prop :=
| emits_nil e : emits e [] e
| emits_cons e e1 e2 l1 l2 : emit e l1 e1 → emits e1 l2 e2 → emits e (l1 ++ l2) e2.

Lemma emits_one e l e' : emit e l e' → emits e l e'.
Proof. intros He. rewrite <-(app_nil_r l). econstructor; [done|constructor]. Qed.
Lemma emits_app e e1 e2 l1 l2 : emits e l1 e1 → emits e1 l2 e2 → emits e (l1 ++ l2) e2.
Proof. induction 1 as [|e e1' e2' la lb Hl _ IH]; [done|]. intros H2. rewrite <-app_assoc. econstructor; eauto. Qed.
#[local] Hint Resolve emits_one emits_nil emits_app : core.

Lemma emit_usages_le e l e' : emit e l e' → (em_usages e ≤ em_usages e')%nat.
Proof. destruct 1; cbn; lia. Qed.
Lemma emits_usages_le e l e' : emits e l e' → (em_usages e ≤ em_usages e')%nat.
Proof. induction 1 as [|e e1 e2 l1 l2 H1 _ IH]; [done|]. apply emit_usages_le in H1. lia. Qed.

(** ** Their assembly *)

Definition open_as (b : ContentBlock) : OpenBlock :=
  match b with
  | Text t => OpenText t
  | Reasoning t => OpenReasoning t
  | ToolCall id name _ => OpenToolCall (Some id) (Some name)
  | b => OpenDirect (type_tag b)
  end.
Definition status_in (e : Emitter) (i : N) : option BlockStatus :=
  match em_open e !! i with
  | Some b => Some (Open (open_as b))
  | None => Closed <$> em_ended e !! i
  end.

Definition represents (e : Emitter) (a : BlockAssembler) : Prop :=
  ba_finished a = false ∧ (∀ i, ba_blocks a !! i = status_in e i) ∧
  (em_usages e = O → ba_usage a = None) ∧ (∀ i, is_Some (em_open e !! i) → em_ended e !! i = None).

Definition valid_chunk (c : StreamChunk) : Prop := StreamChunk_validate c = Ok tt.
Lemma valid_chunks_check l : forallb (λ c, is_ok (StreamChunk_validate c)) l = true → Forall valid_chunk l.
Proof.
  intros Hl. apply Forall_forall. intros c Hc%list_elem_of_In. unfold valid_chunk.
  pose proof (proj1 (forallb_forall _ _) Hl c Hc) as Hv. cbv beta in Hv.
  revert Hv. by destruct (StreamChunk_validate c) as [[]|].
Qed.

Lemma status_open_at e i j b : status_in (open_at i b e) j = if decide (i = j) then Some (Open (open_as b)) else status_in e j.
Proof.
  unfold status_in, open_at. cbn. destruct (decide (i = j)) as [->|Hne]; [by rewrite lookup_insert_eq|].
  by rewrite lookup_insert_ne.
Qed.
Lemma status_end_at e i j b : status_in (end_at i b e) j = if decide (i = j) then Some (Closed b) else status_in e j.
Proof.
  unfold status_in, end_at. cbn. destruct (decide (i = j)) as [->|Hne].
  - by rewrite lookup_delete_eq, lookup_insert_eq.
  - by rewrite lookup_delete_ne, lookup_insert_ne.
Qed.
Lemma status_unused e i : unused i e → status_in e i = None.
Proof. intros [Ho He]. unfold status_in. by rewrite Ho, He. Qed.

(** One chunk that the assembler accepts and that does not finish. *)
Lemma assemble_step early c l a a' :
  ba_finished a = false → valid_chunk c → accept c a = Ok a' → ba_finished a' = false →
  assemble early (c :: l) a = assemble early l (push_chunk c a').
Proof.
  intros Hf Hv Ha Hf'. cbn [assemble]. unfold push. rewrite Hf, Hv. cbn [mbind result_bind]. rewrite Ha.
  cbn [mbind result_bind ba_finished push_chunk]. by rewrite Hf'.
Qed.

Lemma represents_blocks e a blocks b i c :
  represents e a → blocks = <[i := Open (open_as b)]> (ba_blocks a) → em_ended e !! i = None →
  represents (open_at i b e) (push_chunk c (set_blocks blocks a)).
Proof.
  intros (Hf & Hb & Hu & Hd) -> Hi. unfold represents. cbn. split_and!; try done.
  - intros j. rewrite status_open_at. destruct (decide (i = j)) as [->|Hne]; [by rewrite lookup_insert_eq|].
    by rewrite lookup_insert_ne.
  - intros j. destruct (decide (i = j)) as [->|Hne]; [done|]. rewrite lookup_insert_ne by done. apply Hd.
Qed.

Ltac take_chunk :=
  match goal with
  | Hr : represents ?e ?a, Hv : Forall valid_chunk (_ :: _) |- _ =>
      let Hc := fresh "Hc" in apply Forall_cons in Hv as [Hc Hv]
  end.

Lemma emit_assembles early rest e l e' a :
  emit e l e' → represents e a → Forall valid_chunk l → (em_usages e' ≤ 1)%nat →
  ∃ a', assemble early (l ++ rest) a = assemble early rest a' ∧ represents e' a' ∧ route a' = route a.
Proof.
  intros He Hr Hv Hu. pose proof Hr as (Hf & Hb & Hus & Hd).
  destruct He as [e i Hi|e i Hi|e i id name arguments Hi|e i text delta Hi|e i text delta Hi
                 |e i id name arguments delta Hi|e i b Hi|e u]; repeat take_chunk; cbn [app].
  - eexists. split; [eapply assemble_step; [exact Hf|exact Hc| |]|].
    + cbn [accept]. by rewrite Hb, status_unused.
    + done.
    + split; [|done]. eapply represents_blocks; [done|done|apply Hi].
  - eexists. split; [eapply assemble_step; [exact Hf|exact Hc| |]|].
    + cbn [accept]. by rewrite Hb, status_unused.
    + done.
    + split; [|done]. eapply represents_blocks; [done|done|apply Hi].
  - rewrite (assemble_step early _ _ a (set_blocks (<[i := Open (OpenToolCall None None)]> (ba_blocks a)) a) Hf Hc);
      [|cbn [accept]; by rewrite Hb, status_unused|done].
    eexists. split; [eapply assemble_step; [exact Hf|exact Hc0| |]|].
    + cbn [accept]. unfold with_open. cbn [ba_blocks push_chunk set_blocks]. rewrite lookup_insert_eq.
      reflexivity.
    + done.
    + split; [|done]. unfold represents. cbn. split_and!; try done.
      * intros j. rewrite status_open_at. destruct (decide (i = j)) as [->|Hne]; [by rewrite lookup_insert_eq|].
        by rewrite !lookup_insert_ne.
      * intros j. destruct (decide (i = j)) as [->|Hne]; [intros _; apply Hi|].
        rewrite lookup_insert_ne by done. apply Hd.
  - eexists. split; [eapply assemble_step; [exact Hf|exact Hc| |]|].
    + cbn [accept]. unfold with_open. rewrite Hb. unfold status_in. rewrite Hi. reflexivity.
    + done.
    + split; [|done]. eapply represents_blocks; [done|done|by apply Hd].
  - eexists. split; [eapply assemble_step; [exact Hf|exact Hc| |]|].
    + cbn [accept]. unfold with_open. rewrite Hb. unfold status_in. rewrite Hi. reflexivity.
    + done.
    + split; [|done]. eapply represents_blocks; [done|done|by apply Hd].
  - eexists. split; [eapply assemble_step; [exact Hf|exact Hc| |]|].
    + cbn [accept]. unfold with_open. rewrite Hb. unfold status_in. rewrite Hi.
      cbn [open_as tool_call_delta differs from_option]. rewrite !String.eqb_refl. reflexivity.
    + done.
    + split; [|done]. eapply represents_blocks; [done|done|by apply Hd].
  - eexists. split; [eapply assemble_step; [exact Hf|exact Hc| |]|].
    + cbn [accept]. rewrite Hb. unfold status_in. rewrite Hi.
      assert (close_block (open_as b) b i = Ok b) as ->; [|reflexivity].
      destruct b; cbn; rewrite ?String.eqb_refl; done.
    + done.
    + split; [|done]. unfold represents. cbn. split_and!; try done.
      * intros j. rewrite status_end_at. destruct (decide (i = j)) as [->|Hne]; [by rewrite lookup_insert_eq|].
        by rewrite lookup_insert_ne.
      * intros j. destruct (decide (i = j)) as [->|Hne]; [rewrite lookup_delete_eq; by intros [? [=]]|].
        rewrite lookup_delete_ne, lookup_insert_ne by done. apply Hd.
  - cbn in Hu. eexists. split; [eapply assemble_step; [exact Hf|exact Hc| |]|].
    + cbn [accept]. rewrite Hus by lia. reflexivity.
    + done.
    + split; [|done]. unfold represents. cbn. split_and!; done.
Qed.

Lemma emits_assembles early rest e l e' : emits e l e' → ∀ a,
  represents e a → Forall valid_chunk l → (em_usages e' ≤ 1)%nat →
  ∃ a', assemble early (l ++ rest) a = assemble early rest a' ∧ represents e' a' ∧ route a' = route a.
Proof.
  induction 1 as [e|e e1 e2 l1 l2 H1 H2 IH]; intros a Hr Hv Hu; [by exists a|].
  apply Forall_app in Hv as [Hv1 Hv2]. pose proof (emits_usages_le _ _ _ H2).
  destruct (emit_assembles early (l2 ++ rest) _ _ _ _ H1 Hr Hv1) as (a1 & Ha1 & Hr1 & Hro1); [lia|].
  destruct (IH a1 Hr1 Hv2 Hu) as (a2 & Ha2 & Hr2 & Hro2). exists a2. rewrite <-app_assoc, Ha1.
  split_and!; [done..|congruence].
Qed.

Lemma represents_start provider model id : represents Emitter_new (with_message_id provider model id).
Proof. by repeat split; try (intros ? [? [=]]). Qed.

Definition proper_finish (r : FinishReason) : Prop := r = FinishStop ∨ r = FinishToolCalls ∨ r = FinishMaxTokens.

(** The finish of a stream whose blocks have all ended. *)
Lemma finish_assembles early rest e a reason rs ks :
  represents e a → em_open e = ∅ → proper_finish reason →
  NoDup ks → (∀ i, i ∈ ks ↔ is_Some (em_ended e !! i)) →
  ∃ g, assemble early (Finish reason rs :: rest) a = Ok g ∧ gen_finish_reason g = reason ∧
    m_content (gen_message g) = omap (λ i, em_ended e !! i) (merge_sort N.le ks).
Proof.
  intros (Hf & Hb & _ & _) Ho Hp Hnd Hks. cbn [assemble]. unfold push. rewrite Hf.
  assert (StreamChunk_validate (Finish reason rs) = Ok tt) as -> by (by destruct Hp as [->|[->| ->]]).
  cbn [mbind result_bind accept]. unfold finish.
  assert (∀ i s, ba_blocks a !! i = Some s → ∃ b, s = Closed b ∧ em_ended e !! i = Some b) as Hclosed.
  { intros i s. rewrite Hb. unfold status_in. rewrite Ho, lookup_empty.
    destruct (em_ended e !! i) as [b|] eqn:He; [|done]. intros [= <-]. by exists b. }
  assert (∃ m, finish_blocks reason (ba_blocks a) = Ok m ∧ ∀ i, m !! i = Closed <$> em_ended e !! i) as (m & -> & Hm).
  { assert (∀ i, ba_blocks a !! i = Closed <$> em_ended e !! i) as Hall.
    { intros i. rewrite Hb. unfold status_in. by rewrite Ho, lookup_empty. }
    assert (existsb (λ e, is_open e.2) (map_to_list (ba_blocks a)) = false) as Hno.
    { apply not_true_is_false. intros ([i s] & Hin & Hs)%existsb_exists.
      apply list_elem_of_In, elem_of_map_to_list in Hin. destruct (Hclosed _ _ Hin) as (b & -> & _). done. }
    destruct Hp as [->|[->| ->]]; cbn [finish_blocks]; rewrite ?Hno; eexists; (split; [done|]); try done.
    intros i. rewrite lookup_fmap, Hall. by destruct (em_ended e !! i). }
  cbn [mbind result_bind ba_finished push_chunk ba_finish_reason fst].
  eexists. split; [reflexivity|]. split; [done|]. cbn.
  apply values_content; [done| |].
  - intros i. rewrite Hks, Hm. by destruct (em_ended e !! i); split; intros [? [=]]; eexists.
  - intros i s. rewrite Hm. destruct (em_ended e !! i); [|done]. by intros [= <-].
Qed.

Lemma str_app_nil_r (s : string) : s +:+ "" = s.
Proof. induction s as [|a s IH]; [done|]. change (String a (s +:+ "") = String a s). by rewrite IH. Qed.
Lemma str_app_assoc (a b c : string) : a +:+ (b +:+ c) = (a +:+ b) +:+ c.
Proof. induction a as [|x a IH]; [done|]. change (String x (a +:+ (b +:+ c)) = String x ((a +:+ b) +:+ c)). by rewrite IH. Qed.

(** ** What is streamed under an index *)

Definition text_in_block (b : ContentBlock) : string :=
  match b with
  | Text t | Reasoning t => t
  | ToolCall _ _ arguments => arguments
  | _ => ""
  end.

(** The deltas of a block, joined. *)
Definition delta_under (i : N) (c : StreamChunk) : string :=
  match c with
  | TextDelta j d | ReasoningDelta j d | ToolCallDelta j _ _ d => if decide (i = j) then d else ""
  | _ => ""
  end.
Definition streamed (l : list StreamChunk) (i : N) : string := foldr (λ c s, delta_under i c +:+ s) "" l.

(** The chunks before the finish. *)
Fixpoint before_finish (l : list StreamChunk) : list StreamChunk :=
  match l with
  | [] => []
  | c :: l => if is_finish c then [] else c :: before_finish l
  end.

Lemma streamed_app l m i : streamed (l ++ m) i = streamed l i +:+ streamed m i.
Proof.
  induction l as [|c l IH]; [done|]. change (streamed ((c :: l) ++ m) i) with (delta_under i c +:+ streamed (l ++ m) i).
  rewrite IH. change (streamed (c :: l) i) with (delta_under i c +:+ streamed l i). by rewrite str_app_assoc.
Qed.

Definition content_at (e : Emitter) (i : N) : string :=
  match em_open e !! i with
  | Some b => text_in_block b
  | None => from_option text_in_block "" (em_ended e !! i)
  end.

Lemma content_open_at e i j b : content_at (open_at i b e) j = if decide (i = j) then text_in_block b else content_at e j.
Proof.
  unfold content_at, open_at. cbn. destruct (decide (i = j)) as [->|Hne]; [by rewrite lookup_insert_eq|].
  by rewrite lookup_insert_ne.
Qed.

Lemma emit_content e l e' j : emit e l e' → content_at e' j = content_at e j +:+ streamed l j.
Proof.
  assert (∀ s, s +:+ "" = s) as Hnil by (intros s; apply str_app_nil_r).
  destruct 1 as [e i Hi|e i Hi|e i id name arguments Hi|e i text delta Hi|e i text delta Hi
                 |e i id name arguments delta Hi|e i b Hi|e u]; unfold streamed; cbn [foldr delta_under].
  all: rewrite ?content_open_at, ?Hnil; try done.
  1-3: destruct (decide (i = j)) as [->|Hne]; [|rewrite ?decide_False, ?Hnil by done; done];
    unfold content_at; destruct Hi as [-> ->]; rewrite ?decide_True by done; done.
  1-3: destruct (decide (i = j)) as [->|Hne]; [|rewrite decide_False, Hnil by done; done];
    unfold content_at; rewrite Hi, decide_True by done; done.
  unfold content_at, end_at. cbn. destruct (decide (i = j)) as [->|Hne].
  - by rewrite lookup_delete_eq, lookup_insert_eq, Hi.
  - by rewrite lookup_delete_ne, lookup_insert_ne.
Qed.
Lemma emits_content e l e' j : emits e l e' → content_at e' j = content_at e j +:+ streamed l j.
Proof.
  induction 1 as [e|e e1 e2 l1 l2 H1 _ IH]; [cbn; by rewrite str_app_nil_r|].
  by rewrite IH, (emit_content _ _ _ _ H1), streamed_app, str_app_assoc.
Qed.

(** The blocks that are started: under indexes that are new, and once each. *)
Lemma emits_started e l e' :
  emits e l e' → NoDup (started l) ∧ (∀ i, ¬ unused i e' ↔ ¬ unused i e ∨ i ∈ started l) ∧
    (∀ i, i ∈ started l → unused i e).
Proof.
  induction 1 as [e|e e1 e2 l1 l2 H1 _ (IHn & IHd & IHu)].
  { split_and!; [constructor| |]; [set_solver|]. intros i. by intros ?%elem_of_nil. }
  assert (∀ e i b, is_Some (em_open e !! i) → ∀ j, unused j (open_at i b e) ↔ unused j e) as Hsame.
  { intros e3 i b [b' Hb] j. unfold unused, open_at. cbn. rewrite lookup_insert_None. split; [naive_solver|].
    intros [Hj ?]. split_and!; try done. intros ->. congruence. }
  assert (∀ e i b j, ¬ unused j (open_at i b e) ↔ ¬ unused j e ∨ j = i) as Hnew.
  { intros e3 i b j. unfold unused, open_at. cbn. rewrite lookup_insert_None.
    destruct (decide (j = i)), (em_open e3 !! j), (em_ended e3 !! j); naive_solver. }
  unfold started. rewrite omap_app. fold (started l2).
  destruct H1 as [e i Hi|e i Hi|e i id name arguments Hi|e i text delta Hi|e i text delta Hi
                 |e i id name arguments delta Hi|e i b Hi|e u].
  1-3: change (omap _ _ ++ started l2) with (i :: started l2); split_and!;
    [constructor; [|done]; intros Hin%IHu; eapply Hnew; [by right|done]
    |intros j; rewrite IHd, Hnew, elem_of_cons; tauto
    |intros j [->|Hj]%elem_of_cons; [done|]; apply IHu in Hj; apply dec_stable;
     intros Hu; eapply Hnew; [by left|done]].
  4: { change (omap _ _ ++ started l2) with (started l2).
    assert (∀ j, unused j (end_at i b e) ↔ unused j e) as He.
    { intros j. unfold unused, end_at. cbn. rewrite lookup_delete_None, lookup_insert_None.
      destruct (decide (i = j)); naive_solver. }
    split_and!; [done|intros j; rewrite IHd, He; done|intros j Hj; by apply He, IHu]. }
  1-3: change (omap _ _ ++ started l2) with (started l2); split_and!;
    [done|intros j; rewrite IHd, Hsame; [done|by eexists]|intros j Hj%IHu; by eapply Hsame].
  change (omap _ _ ++ started l2) with (started l2). by split_and!.
Qed.

(** The texts of the ended blocks, in the order of their indexes. *)
Lemma ended_texts e l :
  emits Emitter_new l e → em_open e = ∅ →
  NoDup (started l) ∧ (∀ i, i ∈ started l ↔ is_Some (em_ended e !! i)) ∧
  ∀ ks : list N, (∀ i, i ∈ ks → i ∈ started l) →
    text_in_block <$> omap (λ i, em_ended e !! i) ks = streamed l <$> ks.
Proof.
  intros He Ho. destruct (emits_started _ _ _ He) as (Hnd & Hd & _).
  assert (∀ i, i ∈ started l ↔ is_Some (em_ended e !! i)) as Hs.
  { intros i. specialize (Hd i). unfold unused in Hd. rewrite Ho, lookup_empty in Hd. cbn in Hd.
    rewrite !lookup_empty in Hd. destruct (em_ended e !! i); split; try naive_solver. }
  split_and!; [done|done|]. induction ks as [|k ks IH]; intros Hks; [done|].
  destruct (proj1 (Hs k)) as [b Hb]; [apply Hks; by left|].
  cbn [omap list_omap fmap list_fmap]. rewrite Hb. cbn [fmap list_fmap].
  rewrite IH by (intros; apply Hks; by right). f_equal.
  pose proof (emits_content _ _ _ k He) as Hc. unfold content_at in Hc. rewrite Ho, lookup_empty, Hb in Hc.
  exact Hc.
Qed.

(** ** Runs of an adapter *)

Definition not_finish (c : StreamChunk) : Prop := is_finish c = false.

Lemma emits_not_finish e l e' : emits e l e' → Forall not_finish l.
Proof.
  induction 1 as [e|e e1 e2 l1 l2 H1 H2 IH]; [done|]. apply Forall_app. split; [|done].
  destruct H1; repeat constructor.
Qed.

Section runs.
#[local] Set Default Proof Using "Type*".
Context {S : Type} (step : string → S → result fault (list StreamChunk * S)).
Context (cancelled : TessivumError) (read_failed : string → TessivumError).
Context (at_end : S → result TessivumError unit).
Context (I : list StreamChunk → S → Prop).
Hypothesis step_keeps : ∀ data h s l s', I h s → step data s = Ok (l, s') → I (h ++ l) s'.

Lemma run_events_keeps events : ∀ h s l s', I h s → run_events step events s = (l, Ok s') → I (h ++ l) s'.
Proof.
  induction events as [|data events IH]; intros h s l s' Hi; cbn [run_events].
  { intros [= <- <-]. by rewrite app_nil_r. }
  destruct (step data s) as [[l1 s1]|f] eqn:Hs; [|done].
  destruct (run_events step events s1) as [l2 r] eqn:Hr. cbn. intros [= <- ->].
  rewrite app_assoc. eapply IH; [|exact Hr]. by eapply step_keeps.
Qed.

Lemma run_stream_keeps incoming : ∀ d h s l, I h s →
  run_stream step cancelled read_failed at_end incoming d s = (l, Ended) →
  ∃ s', I (h ++ l) s' ∧ at_end s' = Ok tt.
Proof.
  induction incoming as [|[data|e|] incoming IH]; intros d h s l Hi; cbn [run_stream]; try done.
  { destruct (sse_finish d) as [[]|e]; cbn; [|done]. destruct (at_end s) as [[]|e] eqn:Ha; [|done].
    intros [= <-]. exists s. by rewrite app_nil_r. }
  destruct (sse_push data d) as [[events d']|e]; [|done].
  destruct (run_events step events s) as [l1 [s1|f]] eqn:Hr; [|by destruct f].
  destruct (run_stream step cancelled read_failed at_end incoming d' s1) as [l2 e2] eqn:Hs.
  cbn. intros [= <- ->]. rewrite app_assoc. eapply IH; [|exact Hs]. by eapply run_events_keeps.
Qed.
End runs.

(** What an adapter has emitted so far: well-formed chunks whose blocks are related to
    its state, or, when it has finished, a whole message ([once]: with one report of
    usage at most). *)
Definition emitted (once : bool) (l : list StreamChunk) (terminal : bool) (rel : Emitter → Prop) : Prop :=
  if terminal then
    ∃ body reason rs rest e, l = body ++ Finish reason rs :: rest ∧ emits Emitter_new body e ∧
      em_open e = ∅ ∧ proper_finish reason ∧ (once = true → (em_usages e ≤ 1)%nat)
  else ∃ e, emits Emitter_new l e ∧ rel e.

Lemma emitted_more once l m rel rel' : emitted once l true rel → emitted once (l ++ m) true rel'.
Proof.
  intros (body & reason & rs & rest & e & -> & He & Ho & Hp).
  exists body, reason, rs, (rest ++ m), e. by rewrite <-app_assoc.
Qed.

Definition usages (l : list StreamChunk) : list TokenUsage :=
  omap (λ c, match c with ChunkUsage u => Some u | _ => None end) l.
Definition usages_of (l : list StreamChunk) : nat := length (usages l).

Lemma emits_usages e l e' : emits e l e' → em_usages e' = (em_usages e + usages_of l)%nat.
Proof.
  induction 1 as [e|e e1 e2 l1 l2 H1 H2 IH]; [cbn; lia|]. unfold usages_of, usages in *. rewrite omap_app, length_app, IH.
  destruct H1; cbn; lia.
Qed.

Lemma before_finish_app l reason rs m : Forall not_finish l → before_finish (l ++ Finish reason rs :: m) = l.
Proof. induction 1 as [|c l Hc _ IH]; [done|]. cbn [app before_finish]. rewrite Hc. by f_equal. Qed.

(** The message of a stream, as it was streamed: a text per block that was started. *)
Definition streamed_texts (l : list StreamChunk) : list string :=
  streamed (before_finish l) <$> merge_sort N.le (started (before_finish l)).

(** The assembled message of an adapter that has finished. *)
Lemma emitted_assembles early once l rel provider model id :
  emitted once l true rel → Forall valid_chunk l → once = true ∨ (usages_of l ≤ 1)%nat →
  ∃ g, assemble early l (with_message_id provider model id) = Ok g ∧ proper_finish (gen_finish_reason g) ∧
    text_in_block <$> m_content (gen_message g) = streamed_texts l.
Proof.
  intros (body & reason & rs & rest & e & -> & He & Ho & Hp & Hone) Hv Hu.
  apply Forall_app in Hv as [Hv _].
  assert (em_usages e ≤ 1)%nat as Hle.
  { destruct Hu as [Hu|Hu]; [by apply Hone|]. unfold usages_of, usages in Hu.
    rewrite omap_app, length_app in Hu. pose proof (emits_usages _ _ _ He) as Hus.
    unfold usages_of, usages in Hus. cbn in Hus. lia. }
  destruct (emits_assembles early (Finish reason rs :: rest) _ _ _ He _ (represents_start provider model id) Hv Hle)
    as (a & Ha & Hr & _).
  destruct (ended_texts _ _ He Ho) as (Hnd & Hs & Ht).
  destruct (finish_assembles early rest e a reason rs (started body) Hr Ho Hp Hnd Hs) as (g & Hg & Hreason & Hc).
  exists g. rewrite Ha, Hg. split_and!; [done|by rewrite Hreason|].
  unfold streamed_texts. rewrite before_finish_app by (by eapply emits_not_finish).
  rewrite Hc. apply Ht. intros i. by rewrite merge_sort_Permutation.
Qed.

(** ** The blocks of an adapter

    Blocks under keys of the adapter's own, each with its index and what has arrived:
    they are those that are open, and no index from the next one on is in use. *)
Definition tracks (m : gmap N (N * ContentBlock)) (next : N) (e : Emitter) : Prop :=
  (∀ k i b, m !! k = Some (i, b) → em_open e !! i = Some b) ∧
  (∀ i, is_Some (em_open e !! i) → ∃ k b, m !! k = Some (i, b)) ∧
  (∀ k k' i b b', m !! k = Some (i, b) → m !! k' = Some (i, b') → k = k') ∧
  (∀ i, ¬ unused i e → i < next).

Lemma tracks_new next : tracks ∅ next Emitter_new.
Proof.
  split_and!; [done|intros i [b Hb]; done|done|].
  intros i Hi. exfalso. apply Hi. split; apply lookup_empty.
Qed.

(** A block changes its contents. *)
Lemma tracks_update m next e k i b b' :
  tracks m next e → m !! k = Some (i, b) → tracks (<[k := (i, b')]> m) next (open_at i b' e).
Proof.
  intros (Ho & Hs & Hi & Hn) Hk. unfold tracks. cbn. split_and!.
  - intros k' i' bd Hk'. destruct (decide (k = k')) as [<-|Hne].
    { rewrite lookup_insert_eq in Hk'. injection Hk' as <- <-. by rewrite lookup_insert_eq. }
    rewrite lookup_insert_ne in Hk' by done. rewrite lookup_insert_ne; [by eapply Ho|].
    intros ->. apply Hne. by eapply Hi.
  - intros j Hj. destruct (decide (i = j)) as [<-|Hne].
    { exists k, b'. by rewrite lookup_insert_eq. }
    rewrite lookup_insert_ne in Hj by done. destruct (Hs j Hj) as (k' & bd & Hk').
    exists k', bd. rewrite lookup_insert_ne; [done|]. intros ->. congruence.
  - intros k1 k2 j b1 b2 H1 H2. rewrite lookup_insert in H1, H2.
    destruct (decide (k = k1)), (decide (k = k2)); simplify_eq; eauto.
  - intros j Hj. apply Hn. intros [Hj1 Hj2]. apply Hj. split; [|done]. cbn.
    rewrite lookup_insert_ne; [done|]. intros ->. by rewrite (Ho _ _ _ Hk) in Hj1.
Qed.

Lemma tracks_next m next e : tracks m next e → unused next e.
Proof.
  intros (_ & _ & _ & Hn). unfold unused.
  destruct (em_open e !! next) eqn:Ho; [|destruct (em_ended e !! next) eqn:He; [|done]].
  all: exfalso; assert (next < next) as Hlt; [|by apply N.lt_irrefl in Hlt].
  all: apply Hn; intros [Hx Hy]; congruence.
Qed.

(** A new block, under the next index. *)
Lemma tracks_insert m next e k b :
  tracks m next e → m !! k = None → tracks (<[k := (next, b)]> m) (next + 1) (open_at next b e).
Proof.
  intros Ht Hk. pose proof (tracks_next _ _ _ Ht) as [Hfree _]. destruct Ht as (Ho & Hs & Hi & Hn).
  assert (∀ k i bd, m !! k = Some (i, bd) → i ≠ next) as Hfresh by (intros k' i bd Hk' ->; apply Ho in Hk'; congruence).
  unfold tracks. cbn. split_and!.
  - intros k' i' bd Hk'. destruct (decide (k = k')) as [<-|Hne].
    { rewrite lookup_insert_eq in Hk'. injection Hk' as <- <-. by rewrite lookup_insert_eq. }
    rewrite lookup_insert_ne in Hk' by done. rewrite lookup_insert_ne; [by eapply Ho|].
    intros Heq. by eapply Hfresh.
  - intros j Hj. destruct (decide (next = j)) as [<-|Hne].
    { exists k, b. by rewrite lookup_insert_eq. }
    rewrite lookup_insert_ne in Hj by done. destruct (Hs j Hj) as (k' & bd & Hk').
    exists k', bd. rewrite lookup_insert_ne; [done|]. intros ->. congruence.
  - intros k1 k2 j b1 b2 H1 H2. rewrite lookup_insert in H1, H2.
    destruct (decide (k = k1)), (decide (k = k2)); simplify_eq; eauto; exfalso; by eapply Hfresh.
  - intros j Hj. destruct (decide (j = next)) as [->|Hne]; [lia|].
    enough (j < next) by lia. apply Hn. intros [Hj1 Hj2]. apply Hj. split; [|done]. cbn.
    by rewrite lookup_insert_ne.
Qed.

(** A block ends. *)
Lemma tracks_remove m next e k i b :
  tracks m next e → m !! k = Some (i, b) → tracks (delete k m) next (end_at i b e).
Proof.
  intros (Ho & Hs & Hi & Hn) Hk. unfold tracks. cbn. split_and!.
  - intros k' i' bd [Hne Hk']%lookup_delete_Some. rewrite lookup_delete_ne; [by eapply Ho|].
    intros ->. apply Hne. by eapply Hi.
  - intros j Hj. destruct (decide (i = j)) as [<-|Hne]; [rewrite lookup_delete_eq in Hj; by destruct Hj|].
    rewrite lookup_delete_ne in Hj by done. destruct (Hs j Hj) as (k' & bd & Hk').
    exists k', bd. rewrite lookup_delete_ne; [done|]. intros ->. congruence.
  - intros k1 k2 j b1 b2 [_ H1]%lookup_delete_Some [_ H2]%lookup_delete_Some. eauto.
  - intros j Hj. apply Hn. intros [Hj1 Hj2]. apply Hj. split; cbn.
    + by apply lookup_delete_None; right.
    + rewrite lookup_insert_ne; [done|]. intros ->. by rewrite (Ho _ _ _ Hk) in Hj1.
Qed.

Lemma tracks_all_ended next e : tracks ∅ next e → em_open e = ∅.
Proof.
  intros (_ & Hs & _). apply map_eq. intros i. rewrite lookup_empty. apply eq_None_not_Some. intros Hi.
  destruct (Hs i Hi) as (k & b & Hk). by rewrite lookup_empty in Hk.
Qed.

(** A step of an adapter that goes on: what it emits is well-formed. *)
Definition adapts {S} (rel : S → Emitter → Prop) (e : Emitter) (r : result fault (list StreamChunk * S)) : Prop :=
  match r with
  | Ok (l, s') => ∃ e', emits e l e' ∧ rel s' e'
  | Err _ => True
  end.
Lemma adapts_stay {S} (rel : S → Emitter → Prop) e s : rel s e → adapts rel e (Ok ([], s)).
Proof. intros Hr. exists e. split; [constructor|done]. Qed.
(** What follows a step, behind its chunks. *)
Lemma adapts_then {S} (rel : S → Emitter → Prop) e (m : result fault (list StreamChunk * S))
    (k : list StreamChunk * S → result fault (list StreamChunk * S)) (finish : S → S) :
  adapts rel e m →
  (∀ l s' e', m = Ok (l, s') → rel s' e' → adapts rel e' (k (l, s'))) → (∀ s e, rel s e → rel (finish s) e) →
  adapts rel e (p ← m; q ← k p; Ok (p.1 ++ q.1, finish q.2)).
Proof.
  intros Hm Hk Hf. destruct m as [[l s']|]; cbn [mbind result_bind]; [|done]. destruct Hm as (e' & Hl & Hr).
  specialize (Hk l s' e' eq_refl Hr). destruct (k (l, s')) as [[l2 s2]|]; cbn; [|done].
  destruct Hk as (e2 & Hl2 & Hr2). exists e2. split; [by eapply emits_app|by apply Hf].
Qed.

(** ** The Responses protocol *)

Import ResponseEvents.

Definition tracked (p : N * OpenKind) : N * ContentBlock := (p.1, terminal_block p.2).

Definition responses_rel (s : ResponseState) (e : Emitter) : Prop :=
  tracks (tracked <$> rs_blocks s) (rs_next_index s) e ∧ em_usages e = O ∧ rs_terminal s = false.

Abbreviation responses_ok := (adapts responses_rel).

Lemma tracked_lookup (m : gmap N (N * OpenKind)) k i kind :
  m !! k = Some (i, kind) → (tracked <$> m) !! k = Some (i, terminal_block kind).
Proof. intros Hk. by rewrite lookup_fmap, Hk. Qed.

Lemma responses_open s e k i kind :
  responses_rel s e → rs_blocks s !! k = Some (i, kind) → em_open e !! i = Some (terminal_block kind).
Proof. intros [Ht _] Hk. by eapply Ht, tracked_lookup. Qed.

Lemma responses_update s e k i kind kind' :
  responses_rel s e → rs_blocks s !! k = Some (i, kind) →
  responses_rel (with_block k (i, kind') s) (open_at i (terminal_block kind') e).
Proof.
  intros (Hr & Hu & Ht) Hk. split; [|done]. cbn [with_block rs_blocks rs_next_index]. rewrite fmap_insert.
  eapply tracks_update; [done|by apply tracked_lookup].
Qed.

Lemma responses_insert s e k kind next :
  responses_rel s e → rs_blocks s !! k = None → next = rs_next_index s + 1 →
  responses_rel (with_block k (rs_next_index s, kind) (with_next next s))
    (open_at (rs_next_index s) (terminal_block kind) e).
Proof.
  intros (Hr & Hu & Ht) Hk ->. split; [|done]. cbn [with_block with_next rs_blocks rs_next_index]. rewrite fmap_insert.
  apply tracks_insert; [done|]. by rewrite lookup_fmap, Hk.
Qed.

Lemma responses_remove s e k i kind :
  responses_rel s e → rs_blocks s !! k = Some (i, kind) →
  responses_rel (with_closed k (without_block k s)) (end_at i (terminal_block kind) e).
Proof.
  intros (Hr & Hu & Ht) Hk. split; [|done]. cbn [with_closed without_block rs_blocks rs_next_index].
  rewrite fmap_delete. eapply tracks_remove; [done|by apply tracked_lookup].
Qed.

(** What the relation does not look at. *)
Lemma responses_rel_ext s s' e :
  rs_blocks s' = rs_blocks s → rs_next_index s' = rs_next_index s → rs_terminal s' = rs_terminal s →
  responses_rel s e → responses_rel s' e.
Proof. intros Hb Hn Ht. unfold responses_rel. by rewrite Hb, Hn, Ht. Qed.

Lemma responses_next s e : responses_rel s e → unused (rs_next_index s) e.
Proof. intros [Hr _]. by eapply tracks_next. Qed.

Lemma append_arguments_ok k delta s e :
  responses_rel s e → responses_ok e (append_arguments k delta s).
Proof.
  intros Hr. unfold append_arguments. destruct (rs_blocks s !! k) as [[i [|t p|id name arguments]]|] eqn:Hk; try done.
  eexists. split; [apply emits_one, emit_call_delta; by eapply (responses_open _ _ _ _ _ Hr) in Hk|].
  by apply (responses_update _ _ _ _ _ (KindToolCall id name (arguments +:+ delta)) Hr Hk).
Qed.

Lemma open_item_ok k item s e : responses_rel s e → responses_ok e (open_item k item s).
Proof.
  intros Hr. unfold open_item. destruct (_ || _) eqn:Hg; [by apply adapts_stay|].
  apply orb_false_iff in Hg as [Hk _]. apply bool_decide_eq_false in Hk.
  apply eq_None_not_Some in Hk. unfold item_kind.
  set (s1 := with_tool_calls s).
  assert (responses_rel s1 e) as Hr1 by (by eapply responses_rel_ext; [..|exact Hr]).
  pose proof (responses_next _ _ Hr) as Hnext.
  destruct (String.eqb _ "message"); [|destruct (String.eqb _ "reasoning"); [|destruct (String.eqb _ "function_call")]].
  - cbn [mbind result_bind]. destruct (u64_checked_add _ 1) as [n|] eqn:Hn; [|done].
    apply u64_checked_add_Some in Hn as [-> _]. eexists. split; [apply emits_one, emit_text, Hnext|].
    by apply (responses_insert s e k (KindText "")).
  - cbn [mbind result_bind]. destruct (u64_checked_add _ 1) as [n|] eqn:Hn; [|done].
    apply u64_checked_add_Some in Hn as [-> _]. eexists. split; [apply emits_one, emit_reasoning, Hnext|].
    by apply (responses_insert s e k (KindReasoning "" false)).
  - destruct (required_string item "call_id") as [id|]; cbn [mbind result_bind]; [|done].
    destruct (required_string item "name") as [wire|]; cbn [mbind result_bind]; [|done].
    fold s1. destruct (u64_checked_add _ 1) as [n|] eqn:Hn; [|done].
    apply u64_checked_add_Some in Hn as [-> _]. unfold append_arguments. cbn [with_block rs_blocks].
    rewrite lookup_insert_eq. cbn [mbind result_bind fst snd].
    eexists. split; [apply emits_one, (emit_call e (rs_next_index s1) id), Hnext|].
    pose proof (responses_insert s1 e k (KindToolCall id (names_logical (rs_tool_names s) wire)
      (default "" (get_str "arguments" item))) _ Hr1 Hk eq_refl) as Hi.
    eapply responses_rel_ext; [| | |exact Hi]; [|done..]. cbn. by rewrite insert_insert_eq.
  - by apply adapts_stay.
Qed.

Lemma append_text_ok k delta reasoning s e :
  responses_rel s e → responses_ok e (append_text k delta reasoning s).
Proof.
  intros Hr. unfold append_text.
  set (m := if bool_decide _ then _ else _).
  assert (responses_ok e m) as Hm.
  { unfold m. case_bool_decide; [by apply adapts_stay|by apply open_item_ok]. }
  destruct m as [[l s1]|]; cbn [mbind result_bind]; [|done]. destruct Hm as (e1 & Hl & Hr1).
  destruct (rs_blocks s1 !! k) as [[i [t|t p|id name arguments]]|] eqn:Hk; [..|done]; destruct reasoning; try done.
  - pose proof (responses_open _ _ _ _ _ Hr1 Hk) as Ho. eexists. split.
    + eapply emits_app; [exact Hl|]. apply emits_one, emit_text_delta. exact Ho.
    + by apply (responses_update _ _ _ _ _ (KindText (t +:+ delta)) Hr1 Hk).
  - pose proof (responses_open _ _ _ _ _ Hr1 Hk) as Ho. eexists. split.
    + eapply emits_app; [exact Hl|]. apply emits_one, emit_reasoning_delta. exact Ho.
    + by apply (responses_update _ _ _ _ _ (KindReasoning _ _) Hr1 Hk).
Qed.

Lemma finish_reasoning_part_ok k s e : responses_rel s e → responses_ok e (finish_reasoning_part k s).
Proof.
  intros Hr. unfold finish_reasoning_part.
  destruct (rs_blocks s !! k) as [[i [t|t p|id name arguments]]|] eqn:Hk; try done.
  pose proof (responses_open _ _ _ _ _ Hr Hk) as Ho. pose proof (responses_update _ _ _ _ _ (KindReasoning t true) Hr Hk) as Hu.
  exists (open_at i (Reasoning t) e). split; [|exact Hu].
  assert (open_at i (Reasoning t) e = e) as ->; [|constructor].
  destruct e as [o en u]. unfold open_at. cbn in *. f_equal. by apply insert_id.
Qed.

Lemma finish_arguments_ok k text s e : responses_rel s e → responses_ok e (finish_arguments k text s).
Proof.
  intros Hr. unfold finish_arguments.
  destruct (rs_blocks s !! k) as [[i [t|t p|id name arguments]]|] eqn:Hk; try done.
  destruct (String.eqb text arguments); [by apply adapts_stay|].
  destruct (str_strip_prefix arguments text); [by apply append_arguments_ok|done].
Qed.

Lemma reconcile_item_ok k item kind s e : responses_rel s e → responses_ok e (reconcile_item k item kind s).
Proof.
  intros Hr. destruct kind as [t|t p|id name arguments]; cbn [reconcile_item];
    [unfold reconcile_text| unfold reconcile_text|by apply finish_arguments_ok].
  all: destruct (String.eqb _ t); [by apply adapts_stay|].
  all: destruct (str_strip_prefix _ _); [by apply append_text_ok|done].
Qed.

Lemma responses_bind e m (k : list StreamChunk * ResponseState → result fault (list StreamChunk * ResponseState)) :
  responses_ok e m →
  (∀ l s' e', m = Ok (l, s') → emits e l e' → responses_rel s' e' →
     match k (l, s') with
     | Ok (l2, s2) => ∃ l3 e2, l2 = l ++ l3 ∧ emits e' l3 e2 ∧ responses_rel s2 e2
     | Err _ => True
     end) →
  responses_ok e (m ≫= k).
Proof.
  intros Hm Hk. destruct m as [[l s']|]; cbn [mbind result_bind]; [|done]. destruct Hm as (e' & Hl & Hr).
  specialize (Hk l s' e' eq_refl Hl Hr). destruct (k (l, s')) as [[l2 s2]|]; [|done].
  destruct Hk as (l3 & e2 & -> & H3 & Hr2). exists e2. split; [by eapply emits_app|done].
Qed.

Lemma close_item_ok k item s e : responses_rel s e → responses_ok e (close_item k item s).
Proof.
  intros Hr. unfold close_item. case_bool_decide; [by apply adapts_stay|].
  set (s0 := if valid_replay_item item then _ else s).
  assert (responses_rel s0 e) as Hr0.
  { unfold s0. destruct (valid_replay_item item); [|done]. by eapply responses_rel_ext; [..|exact Hr]. }
  apply responses_bind; [by apply open_item_ok|]. intros l s1 e1 _ Hl Hr1.
  destruct (rs_blocks s1 !! k) as [[i kind]|] eqn:Hk.
  2: { exists [], e1. rewrite app_nil_r. split_and!; [done|constructor|].
       by eapply responses_rel_ext; [..|exact Hr1]. }
  pose proof (reconcile_item_ok k item kind s1 e1 Hr1) as Hq.
  destruct (reconcile_item k item kind s1) as [[more s2]|]; cbn [mbind result_bind]; [|done].
  destruct Hq as (e2 & Hmore & Hr2). destruct (rs_blocks s2 !! k) as [[j kind2]|] eqn:Hk2; [|done].
  exists (more ++ [BlockEnd j (terminal_block kind2)]), (end_at j (terminal_block kind2) e2).
  split_and!; [done| |by apply responses_remove].
  eapply emits_app; [exact Hmore|]. apply emits_one, emit_end. by eapply responses_open.
Qed.

Lemma close_items_ok items : ∀ k s e, responses_rel s e → responses_ok e (close_items k items s).
Proof.
  induction items as [|item items IH]; intros k s e Hr; cbn [close_items]; [by apply adapts_stay|].
  apply responses_bind; [by apply close_item_ok|]. intros l s1 e1 _ Hl Hr1. cbn [fst snd].
  pose proof (IH (k + 1) s1 e1 Hr1) as Hq. destruct (close_items (k + 1) items s1) as [[l2 s2]|]; cbn; [|done].
  destruct Hq as (e2 & Hl2 & Hr2). by exists l2, e2.
Qed.

Definition responses_inv (h : list StreamChunk) (s : ResponseState) : Prop :=
  emitted true h (rs_terminal s) (responses_rel s).

Lemma responses_ok_inv h l s' e :
  emits Emitter_new h e → responses_ok e (Ok (l, s')) → responses_inv (h ++ l) s'.
Proof.
  intros Hh (e' & Hl & Hr). unfold responses_inv, emitted. rewrite (proj2 (proj2 Hr)).
  exists e'. split; [by eapply emits_app|done].
Qed.

Lemma finish_response_inv h s l s' e response :
  emits Emitter_new h e → responses_rel s e → finish_response response s = Ok (l, s') → responses_inv (h ++ l) s'.
Proof.
  intros Hh Hr. unfold finish_response. destruct (rs_terminal s); [done|].
  pose proof (close_items_ok (final_output response s) 0 s e Hr) as Hc.
  destruct (close_items 0 _ s) as [[l1 s1]|]; cbn [mbind result_bind]; [|done].
  destruct Hc as (e1 & Hl1 & Hr1). case_bool_decide as Hb; cbn [negb]; [|done].
  set (usage := match get "usage" response with Some _ => _ | None => _ end).
  set (reason := if String.eqb _ "incomplete" then _ else _).
  destruct reason as [r|] eqn:Hreason; cbn [mbind result_bind]; [|done]. intros [= <- <-].
  assert (proper_finish r) as Hp.
  { unfold reason in Hreason. destruct (String.eqb _ "incomplete"); [injection Hreason as <-; by right; right|].
    destruct (negb _); [done|]. destruct (rs_tool_calls s1); injection Hreason as <-; [by right; left|by left]. }
  assert (∃ e2, emits e1 usage e2 ∧ em_open e2 = em_open e1 ∧ (em_usages e2 ≤ 1)%nat) as (e2 & He2 & Ho2 & Hu2).
  { destruct Hr1 as (_ & Hu & _). unfold usage. destruct (get "usage" response).
    - exists (count_usage e1). split_and!; [apply emits_one, emit_usage|done|cbn; lia].
    - exists e1. split_and!; [constructor|done|lia]. }
  unfold responses_inv, emitted. cbn [set_terminal rs_terminal].
  exists (h ++ l1 ++ usage), r. do 2 eexists. exists e2. split_and!; [by rewrite <-!app_assoc| |  |done|done].
  - eapply emits_app; [exact Hh|]. by eapply emits_app.
  - rewrite Ho2. destruct Hr1 as [Hr1 _]. rewrite Hb, fmap_empty in Hr1. by eapply tracks_all_ended.
Qed.

(** Only the end of the response makes the state terminal. *)
Definition same_terminal (s : ResponseState) (r : result fault (list StreamChunk * ResponseState)) : Prop :=
  match r with Ok (_, s') => rs_terminal s' = rs_terminal s | Err _ => True end.

Lemma append_arguments_terminal k d s : same_terminal s (append_arguments k d s).
Proof. unfold append_arguments. by destruct (rs_blocks s !! k) as [[i [| |]]|]. Qed.
Lemma open_item_terminal k item s : same_terminal s (open_item k item s).
Proof.
  unfold open_item. destruct (_ || _); [done|]. destruct (item_kind _ item) as [[[[bt kind] []]|]|]; cbn; try done.
  - destruct (u64_checked_add _ 1); [|done]. unfold append_arguments. cbn [with_block rs_blocks].
    rewrite lookup_insert_eq. by destruct kind.
  - by destruct (u64_checked_add _ 1).
Qed.
Lemma append_text_terminal k d r s : same_terminal s (append_text k d r s).
Proof.
  unfold append_text. set (m := if bool_decide _ then _ else _).
  assert (same_terminal s m) as Hm by (unfold m; case_bool_decide; [done|apply open_item_terminal]).
  destruct m as [[l s1]|]; cbn [mbind result_bind]; [|done]. cbn in Hm.
  destruct (rs_blocks s1 !! k) as [[i [| |]]|], r; done.
Qed.
Lemma finish_reasoning_part_terminal k s : same_terminal s (finish_reasoning_part k s).
Proof. unfold finish_reasoning_part. by destruct (rs_blocks s !! k) as [[i [| |]]|]. Qed.
Lemma finish_arguments_terminal k t s : same_terminal s (finish_arguments k t s).
Proof.
  unfold finish_arguments. destruct (rs_blocks s !! k) as [[i [| |]]|]; try done.
  destruct (String.eqb _ _); [done|]. destruct (str_strip_prefix _ _); [apply append_arguments_terminal|done].
Qed.
Lemma close_item_terminal k item s : same_terminal s (close_item k item s).
Proof.
  unfold close_item. case_bool_decide; [done|]. set (s0 := if valid_replay_item item then _ else s).
  assert (rs_terminal s0 = rs_terminal s) as H0 by (unfold s0; by destruct (valid_replay_item item)).
  pose proof (open_item_terminal k item s0) as H1. destruct (open_item k item s0) as [[l s1]|]; cbn; [|done].
  cbn in H1. destruct (rs_blocks s1 !! k) as [[i kind]|] eqn:Hk; [|cbn; congruence].
  assert (same_terminal s1 (reconcile_item k item kind s1)) as H2.
  { destruct kind; cbn; [unfold reconcile_text..|apply finish_arguments_terminal];
      (destruct (String.eqb _ _); [done|]); (destruct (str_strip_prefix _ _); [apply append_text_terminal|done]). }
  destruct (reconcile_item k item kind s1) as [[more s2]|]; cbn; [|done]. cbn in H2.
  destruct (rs_blocks s2 !! k) as [[j kind2]|]; [cbn; congruence|done].
Qed.

Lemma accept_terminal event s : rs_terminal s = true → same_terminal s (ResponseEvents.accept event s).
Proof.
  intros Ht. unfold ResponseEvents.accept. destruct (get_str "type" event) as [kind|]; [|done].
  destruct (output_index event) as [i|]; cbn [mbind result_bind];
    repeat (match goal with |- same_terminal _ (if ?b then _ else _) => destruct b end; try done);
    auto using open_item_terminal, append_text_terminal, finish_reasoning_part_terminal,
      append_arguments_terminal, finish_arguments_terminal, close_item_terminal.
  all: unfold finish_response; by rewrite Ht.
Qed.

Lemma responses_accept_inv event h s l s' :
  responses_inv h s → ResponseEvents.accept event s = Ok (l, s') → responses_inv (h ++ l) s'.
Proof.
  intros Hi Ha. unfold responses_inv in Hi. destruct (rs_terminal s) eqn:Ht.
  { pose proof (accept_terminal event s Ht) as Hs. rewrite Ha in Hs. cbn in Hs.
    unfold responses_inv. rewrite Hs, Ht. by eapply emitted_more. }
  destruct Hi as (e & He & Hr).
  assert (responses_ok e (ResponseEvents.accept event s) ∨
          ∃ r, ResponseEvents.accept event s = finish_response r s) as [Hok|[r Hf]].
  { unfold ResponseEvents.accept. destruct (get_str "type" event) as [kind|]; [|by left].
    destruct (output_index event) as [i|]; cbn [mbind result_bind];
      repeat (match goal with |- responses_ok _ (if ?b then _ else _) ∨ _ => destruct b end;
              try (left; by apply adapts_stay)); try by left.
    all: try (right; by eexists).
    all: left; auto using open_item_ok, append_text_ok, finish_reasoning_part_ok, append_arguments_ok,
      finish_arguments_ok, close_item_ok. }
  - rewrite Ha in Hok. by eapply responses_ok_inv.
  - rewrite Hf in Ha. by eapply finish_response_inv.
Qed.

Lemma responses_step_inv `{JsonText} data h s l s' :
  responses_inv h s → responses_step data s = Ok (l, s') → responses_inv (h ++ l) s'.
Proof.
  unfold responses_step. intros Hi. destruct (String.eqb data "[DONE]").
  { intros [= <- <-]. by rewrite app_nil_r. }
  destruct (throwing _) as [event|]; cbn [mbind result_bind]; [|done]. by apply responses_accept_inv.
Qed.

Lemma responses_stream_emitted `{JsonText} names incoming l :
  responses_stream names incoming = (l, Ended) → ∃ s, emitted true l true (responses_rel s).
Proof.
  intros Hs. apply (run_stream_keeps _ _ _ _ responses_inv responses_step_inv incoming _ []) in Hs
    as (s & Hi & Ht).
  - exists s. unfold responses_inv in Hi. destruct (rs_terminal s); [exact Hi|done].
  - exists Emitter_new. split; [constructor|]. split; [|done]. cbn [rs_blocks]. apply tracks_new.
Qed.

(** ** Chat completions *)

#[local] Existing Instance Chat.index_le_dec.

Definition chat_tracked (b : ChatBlock) : N * ContentBlock := (Chat.block_index b, Chat.block_content b).

(** All the blocks stay open until the end. *)
Definition chat_rel (s : ChatState) (e : Emitter) : Prop :=
  tracks (chat_tracked <$> ch_blocks s) (ch_next_index s) e ∧ ch_terminal s = false.

Lemma chat_tracked_lookup (m : gmap N ChatBlock) k b :
  m !! k = Some b → (chat_tracked <$> m) !! k = Some (Chat.block_index b, Chat.block_content b).
Proof. intros Hk. by rewrite lookup_fmap, Hk. Qed.

Lemma chat_open s e k b :
  chat_rel s e → ch_blocks s !! k = Some b → em_open e !! Chat.block_index b = Some (Chat.block_content b).
Proof. intros [Ht _] Hk. by eapply Ht, chat_tracked_lookup. Qed.

Lemma chat_update s e k b b' :
  chat_rel s e → ch_blocks s !! k = Some b → Chat.block_index b' = Chat.block_index b →
  chat_rel (Chat.put_block k b' s) (open_at (Chat.block_index b) (Chat.block_content b') e).
Proof.
  intros (Hr & Ht) Hk Hi. split; [|done]. cbn [Chat.put_block ch_blocks ch_next_index].
  rewrite fmap_insert. unfold chat_tracked at 1. rewrite Hi.
  eapply tracks_update; [done|by apply chat_tracked_lookup].
Qed.

Lemma chat_insert s e k b :
  chat_rel s e → ch_blocks s !! k = None → Chat.block_index b = ch_next_index s →
  chat_rel (Chat.put_block k b (Chat.put_next (ch_next_index s + 1) s))
    (open_at (ch_next_index s) (Chat.block_content b) e).
Proof.
  intros (Hr & Ht) Hk Hi. split; [|done]. cbn [Chat.put_block Chat.put_next ch_blocks ch_next_index].
  rewrite fmap_insert. unfold chat_tracked at 1. rewrite Hi. apply tracks_insert; [done|].
  by rewrite lookup_fmap, Hk.
Qed.

Lemma u64_add_Ok a b n : u64_add a b = Ok n → n = a + b.
Proof. unfold u64_add. destruct (u64_checked_add a b) eqn:Ha; [|done]. apply u64_checked_add_Some in Ha as [-> _]. by intros [= <-]. Qed.

Abbreviation chat_ok := (adapts chat_rel).

Lemma chat_append_text_ok k delta reasoning s e :
  chat_rel s e → chat_ok e (Chat.append_text k delta reasoning s).
Proof.
  intros Hr. unfold Chat.append_text. destruct (is_empty delta); [by apply adapts_stay|].
  set (m := match ch_blocks s !! k with Some _ => _ | None => _ end).
  assert (chat_ok e m) as Hm.
  { unfold m. destruct (ch_blocks s !! k) as [b|] eqn:Hk; [by apply adapts_stay|].
    unfold Chat.insert_block. destruct (u64_add _ 1) as [n|] eqn:Hn; cbn [mbind result_bind]; [|done].
    apply u64_add_Ok in Hn as ->. pose proof (tracks_next _ _ _ (proj1 Hr)) as Hn.
    destruct reasoning; eexists; (split; [apply emits_one; by constructor|by apply chat_insert]). }
  destruct m as [[l s1]|]; cbn [mbind result_bind]; [|done]. destruct Hm as (e1 & Hl & Hr1).
  destruct (ch_blocks s1 !! k) as [[i t|i t|i id name arguments]|] eqn:Hk; [..|done]; destruct reasoning; try done.
  - eexists. split.
    + eapply emits_app; [exact Hl|]. apply emits_one, emit_text_delta. exact (chat_open _ _ _ _ Hr1 Hk).
    + by apply (chat_update _ _ _ _ (ChatText i (t +:+ delta)) Hr1 Hk).
  - eexists. split.
    + eapply emits_app; [exact Hl|]. apply emits_one, emit_reasoning_delta. exact (chat_open _ _ _ _ Hr1 Hk).
    + by apply (chat_update _ _ _ _ (ChatReasoning i (t +:+ delta)) Hr1 Hk).
Qed.

Lemma put_block_twice k b b' s : Chat.put_block k b (Chat.put_block k b' s) = Chat.put_block k b s.
Proof. unfold Chat.put_block. cbn. by rewrite insert_insert_eq. Qed.

Lemma append_tool_ok k delta s e : chat_rel s e → chat_ok e (Chat.append_tool k delta s).
Proof.
  intros Hr. unfold Chat.append_tool. destruct (ch_blocks s !! k) as [b|] eqn:Hk.
  - cbn [mbind result_bind]. rewrite Hk. destruct b as [i t|i t|i id name all]; try done.
    eexists. split; [apply emits_one, emit_call_delta; exact (chat_open _ _ _ _ Hr Hk)|].
    by apply (chat_update _ _ _ _ (ChatTool i id name (all +:+ _)) Hr Hk).
  - destruct (get_str "id" delta) as [id|]; [|done]. destruct (get_str "name" _) as [name|]; [|done].
    unfold Chat.insert_block. destruct (u64_add _ 1) as [n|] eqn:Hn; cbn [mbind result_bind]; [|done].
    apply u64_add_Ok in Hn as ->. cbn [Chat.put_block ch_blocks]. rewrite lookup_insert_eq.
    eexists. split; [apply emits_one, (emit_call _ (ch_next_index s) id); eapply tracks_next, Hr|].
    rewrite put_block_twice. by apply (chat_insert s e k (ChatTool (ch_next_index s) id _ _)).
Qed.

Lemma emitM_ok {A} (f : A → ChatState → result fault (list StreamChunk * ChatState)) l :
  (∀ a s e, chat_rel s e → chat_ok e (f a s)) → ∀ s e, chat_rel s e → chat_ok e (Chat.emitM f l s).
Proof.
  intros Hf. induction l as [|a l IH]; intros s e Hr; cbn [Chat.emitM]; [by apply adapts_stay|].
  apply (adapts_then chat_rel e _ (λ p, Chat.emitM f l p.2) id); [by apply Hf| |done].
  intros l1 s1 e1 _ Hr1. by apply IH.
Qed.

Lemma append_call_ok call s e : chat_rel s e → chat_ok e (Chat.append_call call s).
Proof.
  intros Hr. unfold Chat.append_call. destruct (get_u64 "index" call); [|done].
  destruct (u64_add _ 2); [|done]. by apply append_tool_ok.
Qed.

Lemma accept_choice_ok choice s e : chat_rel s e → chat_ok e (Chat.accept_choice choice s).
Proof.
  intros Hr. unfold Chat.accept_choice. set (delta := default VNull (get "delta" choice)).
  set (reasoning := match get "reasoning_content" delta with Some v => _ | None => _ end).
  set (m1 := match reasoning ≫= as_str with Some text => _ | None => _ end).
  assert (chat_ok e m1) as H1.
  { unfold m1. destruct (reasoning ≫= as_str); [by apply chat_append_text_ok|by apply adapts_stay]. }
  destruct m1 as [[l1 s1]|]; cbn [mbind result_bind fst snd]; [|done]. destruct H1 as (e1 & Hl1 & Hr1).
  set (m2 := match get_str "content" delta with Some text => _ | None => _ end).
  assert (chat_ok e1 m2) as H2.
  { unfold m2. destruct (get_str "content" delta); [by apply chat_append_text_ok|by apply adapts_stay]. }
  destruct m2 as [[l2 s2]|]; cbn [mbind result_bind fst snd]; [|done]. destruct H2 as (e2 & Hl2 & Hr2).
  pose proof (emitM_ok Chat.append_call (array_items "tool_calls" delta) append_call_ok s2 e2 Hr2) as H3.
  destruct (Chat.emitM _ _ s2) as [[l3 s3]|]; cbn [mbind result_bind fst snd]; [|done].
  destruct H3 as (e3 & Hl3 & Hr3). exists e3. split.
  - do 2 (eapply emits_app; [done|]). done.
  - by destruct (get_str "finish_reason" choice).
Qed.

Lemma chat_rel_usage s e : chat_rel s e → chat_rel s (count_usage e).
Proof. done. Qed.

Lemma chat_accept_ok event s e : chat_rel s e → chat_ok e (Chat.accept event s).
Proof.
  intros Hr. unfold Chat.accept. destruct (get "error" event); [done|].
  set (usage := match get "usage" event with Some _ => _ | None => _ end).
  assert (∃ e1, emits e usage e1 ∧ chat_rel s e1) as (e1 & He1 & Hr1).
  { unfold usage. destruct (get "usage" event) as [u|]; [destruct (is_object u)|].
    - exists (count_usage e). split; [apply emits_one, emit_usage|done].
    - exists e. by split; [constructor|].
    - exists e. by split; [constructor|]. }
  pose proof (emitM_ok _ (array_items "choices" event) accept_choice_ok s e1 Hr1) as H2.
  destruct (Chat.emitM _ _ s) as [[l2 s2]|]; cbn; [|done]. destruct H2 as (e2 & Hl2 & Hr2).
  exists e2. split; [by eapply emits_app|done].
Qed.

(** The blocks that are left end in one go. *)
Lemma ends_all bs : ∀ e,
  NoDup (Chat.block_index <$> bs) →
  (∀ b, b ∈ bs → em_open e !! Chat.block_index b = Some (Chat.block_content b)) →
  (∀ i, is_Some (em_open e !! i) → i ∈ Chat.block_index <$> bs) →
  ∃ e', emits e (Chat.finish_block <$> bs) e' ∧ em_open e' = ∅.
Proof.
  induction bs as [|b bs IH]; intros e Hnd Hin Hall.
  { exists e. split; [constructor|]. apply map_eq. intros i. rewrite lookup_empty. apply eq_None_not_Some.
    intros Hi. by apply Hall, elem_of_nil in Hi. }
  cbn [fmap list_fmap] in Hnd. apply NoDup_cons in Hnd as [Hb Hnd].
  destruct (IH (end_at (Chat.block_index b) (Chat.block_content b) e) Hnd) as (e' & He' & Ho).
  - intros b' Hb'. cbn. rewrite lookup_delete_ne; [apply Hin; by right|].
    intros Heq. apply Hb. rewrite Heq. by apply list_elem_of_fmap_2.
  - intros i. cbn. intros Hi. destruct (decide (Chat.block_index b = i)) as [<-|Hne].
    { rewrite lookup_delete_eq in Hi. by destruct Hi. }
    rewrite lookup_delete_ne in Hi by done. apply Hall in Hi. cbn [fmap list_fmap] in Hi.
    apply elem_of_cons in Hi as [->|Hi]; done.
  - exists e'. split; [|done]. change (Chat.finish_block <$> b :: bs) with ([Chat.finish_block b] ++ (Chat.finish_block <$> bs)).
    eapply emits_app; [|exact He']. apply emits_one, emit_end. apply Hin. by left.
Qed.

Lemma chat_ends s e :
  chat_rel s e →
  ∃ e', emits e (Chat.finish_block <$> merge_sort Chat.index_le (map_to_list (ch_blocks s)).*2) e' ∧ em_open e' = ∅.
Proof.
  intros [(Ho & Hs & Hi & _) _]. apply ends_all.
  - rewrite merge_sort_Permutation. rewrite <-list_fmap_compose. apply NoDup_fmap_2_strong.
    + intros [k b] [k' b'] Hk Hk' Heq. apply elem_of_map_to_list in Hk, Hk'. cbn in Heq.
      assert (k = k') as ->; [|congruence].
      apply chat_tracked_lookup in Hk, Hk'. rewrite Heq in Hk. by eapply Hi.
    + apply NoDup_map_to_list.
  - intros b Hb. rewrite merge_sort_Permutation in Hb. apply list_elem_of_fmap in Hb as ([k b'] & -> & Hk).
    apply elem_of_map_to_list in Hk. by eapply Ho, chat_tracked_lookup.
  - intros i Hx. destruct (Hs i Hx) as (k & b & Hk). rewrite lookup_fmap in Hk.
    destruct (ch_blocks s !! k) as [b'|] eqn:Hb; [|done]. injection Hk as <- <-.
    apply list_elem_of_fmap_2. rewrite merge_sort_Permutation.
    apply list_elem_of_fmap. exists (k, b'). split; [done|]. by apply elem_of_map_to_list.
Qed.

(** The reasons of the state are those that a stream can end with. *)
Definition chat_inv (h : list StreamChunk) (s : ChatState) : Prop :=
  emitted false h (ch_terminal s) (chat_rel s) ∧
  from_option proper_finish True (ch_finish_reason s).

(** What only changes at the end, and the reasons. *)
Definition chat_kept (s : ChatState) (r : result fault (list StreamChunk * ChatState)) : Prop :=
  match r with
  | Ok (_, s') => ch_terminal s' = ch_terminal s ∧
      (from_option proper_finish True (ch_finish_reason s) → from_option proper_finish True (ch_finish_reason s'))
  | Err _ => True
  end.

Lemma insert_block_kept k b t s : chat_kept s (Chat.insert_block k b t s).
Proof. unfold Chat.insert_block. by destruct (u64_add _ 1). Qed.
Lemma chat_append_text_kept k d r s : chat_kept s (Chat.append_text k d r s).
Proof.
  unfold Chat.append_text. destruct (is_empty d); [done|]. set (m := match ch_blocks s !! k with Some _ => _ | None => _ end).
  assert (chat_kept s m) as Hm by (unfold m; destruct (ch_blocks s !! k); [done|apply insert_block_kept]).
  destruct m as [[l s1]|]; cbn [mbind result_bind]; [|done].
  by destruct (ch_blocks s1 !! k) as [[]|], r.
Qed.
Lemma append_tool_kept k d s : chat_kept s (Chat.append_tool k d s).
Proof.
  unfold Chat.append_tool. set (m := match ch_blocks s !! k with Some _ => _ | None => _ end).
  assert (chat_kept s m) as Hm.
  { unfold m. destruct (ch_blocks s !! k); [done|]. destruct (get_str "id" d); [|done].
    destruct (get_str "name" _); [apply insert_block_kept|done]. }
  destruct m as [[l s1]|]; cbn [mbind result_bind]; [|done].
  by destruct (ch_blocks s1 !! k) as [[]|].
Qed.
Lemma append_call_kept c s : chat_kept s (Chat.append_call c s).
Proof.
  unfold Chat.append_call. destruct (get_u64 "index" c); [|done]. destruct (u64_add _ 2); [|done].
  apply append_tool_kept.
Qed.
Lemma emitM_kept {A} (f : A → ChatState → result fault (list StreamChunk * ChatState)) l :
  (∀ a s, chat_kept s (f a s)) → ∀ s, chat_kept s (Chat.emitM f l s).
Proof.
  intros Hf. induction l as [|a l IH]; intros s; cbn [Chat.emitM]; [done|].
  pose proof (Hf a s) as H1. destruct (f a s) as [[l1 s1]|]; cbn [mbind result_bind fst snd]; [|done].
  pose proof (IH s1) as H2. destruct (Chat.emitM f l s1) as [[l2 s2]|]; [|done]. cbn in *.
  destruct H1, H2. split; [congruence|auto].
Qed.

Lemma chat_reason_proper r : proper_finish (Chat.reason_of r).
Proof. unfold Chat.reason_of, proper_finish. destruct (_ || _); [auto|]. destruct (String.eqb _ _); auto. Qed.

Lemma accept_choice_kept c s : chat_kept s (Chat.accept_choice c s).
Proof.
  unfold Chat.accept_choice. set (delta := default VNull (get "delta" c)).
  set (reasoning := match get "reasoning_content" delta with Some v => _ | None => _ end).
  set (m1 := match reasoning ≫= as_str with Some text => _ | None => _ end).
  assert (chat_kept s m1) as H1 by (unfold m1; destruct (reasoning ≫= as_str); [apply chat_append_text_kept|done]).
  destruct m1 as [[l1 s1]|]; cbn [mbind result_bind fst snd]; [|done].
  set (m2 := match get_str "content" delta with Some text => _ | None => _ end).
  assert (chat_kept s1 m2) as H2 by (unfold m2; destruct (get_str "content" delta); [apply chat_append_text_kept|done]).
  destruct m2 as [[l2 s2]|]; cbn [mbind result_bind fst snd]; [|done].
  pose proof (emitM_kept Chat.append_call (array_items "tool_calls" delta) append_call_kept s2) as H3.
  destruct (Chat.emitM _ _ s2) as [[l3 s3]|]; cbn [mbind result_bind fst snd]; [|done].
  destruct H1 as [T1 R1], H2 as [T2 R2], H3 as [T3 R3]. cbn.
  destruct (get_str "finish_reason" c); cbn; (split; [congruence|]); [intros _; apply chat_reason_proper|auto].
Qed.
Lemma chat_accept_kept event s : chat_kept s (Chat.accept event s).
Proof.
  unfold Chat.accept. destruct (get "error" event); [done|].
  pose proof (emitM_kept _ (array_items "choices" event) accept_choice_kept s) as H2.
  by destruct (Chat.emitM _ _ s) as [[l2 s2]|].
Qed.

Lemma chat_step_inv `{JsonText} data h s l s' :
  chat_inv h s → chat_step data s = Ok (l, s') → chat_inv (h ++ l) s'.
Proof.
  unfold chat_step. intros [Hi Hp]. destruct (String.eqb data "[DONE]").
  { unfold Chat.finish. destruct (ch_terminal s) eqn:Ht; intros [= <- <-].
    { split; [|done]. rewrite Ht. by eapply emitted_more. }
    destruct Hi as (e & He & Hr). destruct (chat_ends _ _ Hr) as (e' & He' & Ho). split; [|done].
    cbn [ch_terminal emitted]. do 5 eexists. split_and!; [by rewrite app_assoc|by eapply emits_app|done| |done].
    destruct (ch_finish_reason s); [done|by left]. }
  destruct (parse_event _ _ _) as [event|]; cbn [mbind result_bind]; [|done]. intros Ha.
  pose proof (chat_accept_kept event s) as Hk. rewrite Ha in Hk. destruct Hk as [Ht Hq].
  split; [|by apply Hq]. rewrite Ht. destruct (ch_terminal s); [by eapply emitted_more|].
  destruct Hi as (e & He & Hr). pose proof (chat_accept_ok event s e Hr) as Hok. rewrite Ha in Hok.
  destruct Hok as (e' & Hl & Hr'). exists e'. split; [by eapply emits_app|done].
Qed.

Lemma chat_stream_emitted `{JsonText} names incoming l :
  chat_stream names incoming = (l, Ended) → ∃ s, emitted false l true (chat_rel s).
Proof.
  intros Hs. apply (run_stream_keeps _ _ _ _ chat_inv chat_step_inv incoming _ []) in Hs as (s & [Hi _] & Ht).
  - exists s. by destruct (ch_terminal s).
  - split; [|done]. exists Emitter_new. split; [constructor|]. split; [apply tracks_new|done].
Qed.

(** ** Anthropic *)

(** The provider chooses the indexes; one that it has used is not started again. *)
Definition anthropic_rel (s : AnthropicState) (e : Emitter) : Prop :=
  em_open e = Anthropic.block_content <$> an_blocks s ∧ em_usages e = O ∧ an_terminal s = false.

Abbreviation anthropic_ok := (adapts anthropic_rel).

Lemma anthropic_open s e i b :
  anthropic_rel s e → an_blocks s !! i = Some b → em_open e !! i = Some (Anthropic.block_content b).
Proof. intros [-> _] Hb. by rewrite lookup_fmap, Hb. Qed.

Lemma anthropic_put s e i b :
  anthropic_rel s e →
  anthropic_rel (Anthropic.put_blocks (<[i := b]> (an_blocks s)) s) (open_at i (Anthropic.block_content b) e).
Proof. intros (Ho & Hu & Ht). split; [|done]. cbn. by rewrite fmap_insert, Ho. Qed.

Lemma started_app l m : started (l ++ m) = started l ++ started m.
Proof. unfold started. apply omap_app. Qed.

Lemma start_block_ok event s e l s' :
  anthropic_rel s e → Anthropic.start_block event s = Ok (l, s') →
  (∀ i, i ∈ started l → unused i e) → anthropic_ok e (Ok (l, s')).
Proof.
  intros Hr. unfold Anthropic.start_block. destruct (required_index event) as [i|]; [|done]. cbn [mbind result_bind].
  destruct (an_blocks s !! i) eqn:Hi; [intros [= <- <-] _; by apply adapts_stay|].
  unfold Anthropic.starting. destruct (get_str "type" _) as [kind|];
    [|intros [= <- <-] _; by apply adapts_stay].
  destruct (String.eqb kind "text"); [|destruct (String.eqb kind "thinking"); [|destruct (String.eqb kind "tool_use")]].
  - set (text := default _ _). cbn [mbind result_bind]. intros [= <- <-] Hfree.
    exists (open_at i (Text text) e). split; [|by apply (anthropic_put s e i (AnthropicText text))].
    assert (unused i e) as Hu by (apply Hfree; by left).
    destruct (is_empty text) eqn:He.
    + destruct text; [|done]. apply emits_one, emit_text, Hu.
    + apply (emits_cons _ (open_at i (Text "") e) _ [_] [_]); [apply emit_text, Hu|].
      apply emits_one. assert (open_at i (Text text) e = open_at i (Text ("" +:+ text)) (open_at i (Text "") e)) as ->.
      { unfold open_at. cbn. by rewrite insert_insert_eq. }
      apply emit_text_delta. cbn. by rewrite lookup_insert_eq.
  - set (text := default _ _). cbn [mbind result_bind]. intros [= <- <-] Hfree.
    exists (open_at i (Reasoning text) e). split; [|by apply (anthropic_put s e i (AnthropicReasoning text))].
    assert (unused i e) as Hu by (apply Hfree; by left).
    destruct (is_empty text) eqn:He.
    + destruct text; [|done]. apply emits_one, emit_reasoning, Hu.
    + apply (emits_cons _ (open_at i (Reasoning "") e) _ [_] [_]); [apply emit_reasoning, Hu|].
      apply emits_one. assert (open_at i (Reasoning text) e = open_at i (Reasoning ("" +:+ text)) (open_at i (Reasoning "") e)) as ->.
      { unfold open_at. cbn. by rewrite insert_insert_eq. }
      apply emit_reasoning_delta. cbn. by rewrite lookup_insert_eq.
  - destruct (get_str "id" _) as [id|]; [|done]. destruct (get_str "name" _) as [name|]; [|done].
    cbn [mbind result_bind]. intros [= <- <-] Hfree. eexists.
    split; [apply emits_one, (emit_call _ i id name ""), Hfree; by left|].
    by apply (anthropic_put s e i (AnthropicTool id name "")).
  - intros [= <- <-] _. by apply adapts_stay.
Qed.

Lemma delta_ok event s e : anthropic_rel s e → anthropic_ok e (Anthropic.delta event s).
Proof.
  intros Hr. unfold Anthropic.delta. destruct (required_index event) as [i|]; [|done]. cbn [mbind result_bind].
  destruct (an_blocks s !! i) as [b|] eqn:Hb; [|done]. pose proof (anthropic_open _ _ _ _ Hr Hb) as Ho.
  destruct (get_str "type" _) as [kind|]; [|done]. destruct b as [t|t|id name arguments].
  - destruct (String.eqb kind "text_delta"); [|done]. eexists. split; [by apply emits_one, emit_text_delta|].
    by apply (anthropic_put s e i (AnthropicText _)).
  - destruct (String.eqb kind "thinking_delta").
    + eexists. split; [by apply emits_one, emit_reasoning_delta|]. by apply (anthropic_put s e i (AnthropicReasoning _)).
    + destruct (String.eqb kind "signature_delta"); [by apply adapts_stay|done].
  - destruct (String.eqb kind "input_json_delta"); [|done]. eexists.
    split; [by apply emits_one, emit_call_delta|]. by apply (anthropic_put s e i (AnthropicTool _ _ _)).
Qed.

Lemma stop_block_ok i s e : anthropic_rel s e → anthropic_ok e (Anthropic.stop_block i s).
Proof.
  intros Hr. unfold Anthropic.stop_block. destruct (an_blocks s !! i) as [b|] eqn:Hb; [|done].
  eexists. split; [apply emits_one, emit_end; by eapply anthropic_open|].
  destruct Hr as (Ho & Hu & Ht). split; [|done]. cbn. by rewrite fmap_delete, Ho.
Qed.

Definition reason_ok (s : AnthropicState) : Prop := from_option proper_finish True (an_finish_reason s).

Definition anthropic_inv (h : list StreamChunk) (s : AnthropicState) : Prop :=
  (NoDup (started h) → emitted true h (an_terminal s) (anthropic_rel s)) ∧ reason_ok s.

Lemma anthropic_reason_proper r : proper_finish (Anthropic.reason_of r).
Proof. unfold Anthropic.reason_of, proper_finish. destruct (String.eqb _ _); [auto|]. destruct (String.eqb _ _); auto. Qed.

(** What only changes at the end, and the reasons. *)
Lemma start_block_kept event s l s' :
  Anthropic.start_block event s = Ok (l, s') →
  an_terminal s' = an_terminal s ∧ an_finish_reason s' = an_finish_reason s.
Proof.
  unfold Anthropic.start_block. destruct (required_index event) as [i|]; [|done]. cbn [mbind result_bind].
  destruct (an_blocks s !! i); [by intros [= <- <-]|].
  destruct (Anthropic.starting _ _) as [[[[t b] f]|]|]; cbn [mbind result_bind]; [..|done]; by intros [= <- <-].
Qed.
Lemma delta_kept event s l s' :
  Anthropic.delta event s = Ok (l, s') →
  an_terminal s' = an_terminal s ∧ an_finish_reason s' = an_finish_reason s.
Proof.
  unfold Anthropic.delta. destruct (required_index event) as [i|]; [|done]. cbn [mbind result_bind].
  destruct (an_blocks s !! i) as [b|]; [|done]. destruct (get_str "type" _), b; try done.
  all: repeat (destruct (String.eqb _ _); [by intros [= <- <-]|]); done.
Qed.
Lemma stop_block_kept i s l s' :
  Anthropic.stop_block i s = Ok (l, s') →
  an_terminal s' = an_terminal s ∧ an_finish_reason s' = an_finish_reason s.
Proof. unfold Anthropic.stop_block. destruct (an_blocks s !! i); [by intros [= <- <-]|done]. Qed.

(** A step that goes on. *)
Lemma anthropic_inv_step h s l s' :
  anthropic_inv h s → an_terminal s' = an_terminal s → reason_ok s' →
  (∀ e, anthropic_rel s e → (∀ i, i ∈ started l → unused i e) → anthropic_ok e (Ok (l, s'))) →
  anthropic_inv (h ++ l) s'.
Proof.
  intros [Hi _] Ht Hp Hok. split; [|done]. rewrite started_app, Ht. intros Hnd.
  apply NoDup_app in Hnd as (Hh & Hd & Hl). specialize (Hi Hh).
  destruct (an_terminal s); [by eapply emitted_more|]. destruct Hi as (e & He & Hr).
  destruct (Hok e Hr) as (e' & Hl' & Hr').
  { intros i Hin. destruct (emits_started _ _ _ He) as (_ & Hs & _).
    apply dec_stable. intros Hu. apply Hs in Hu as [Hu|Hu]; [by apply Hu; split; apply lookup_empty|].
    by eapply Hd. }
  exists e'. split; [by eapply emits_app|done].
Qed.

Lemma anthropic_inv_quiet h s s' :
  anthropic_inv h s → an_blocks s' = an_blocks s → an_terminal s' = an_terminal s → reason_ok s' →
  anthropic_inv (h ++ []) s'.
Proof.
  intros Hi Hb Ht Hp. eapply anthropic_inv_step; [done..|]. intros e (Ho & Hu & Hf) _. apply adapts_stay.
  split_and!; [by rewrite Hb|done|congruence].
Qed.

Lemma anthropic_finish_inv h s l s' :
  anthropic_inv h s → Anthropic.finish s = Ok (l, s') → anthropic_inv (h ++ l) s'.
Proof.
  intros Hi. unfold Anthropic.finish. destruct (an_terminal s) eqn:Ht.
  { intros [= <- <-]. by apply (anthropic_inv_quiet h s); try apply Hi. }
  case_bool_decide as Hb; cbn [negb]; [|done]. intros [= <- <-]. destruct Hi as [Hi Hp].
  split; [|done]. rewrite started_app, app_nil_r. intros Hnd. specialize (Hi Hnd). rewrite Ht in Hi.
  destruct Hi as (e & He & Ho & Hu & _). cbn [an_terminal emitted].
  do 5 eexists. split_and!; [|eapply emits_app; [exact He|apply emits_one, emit_usage]| | |].
  - by rewrite <-app_assoc.
  - cbn. by rewrite Ho, Hb, fmap_empty.
  - unfold reason_ok in Hp. destruct (an_finish_reason s); [done|by left].
  - intros _. cbn. lia.
Qed.

Lemma anthropic_accept_inv event h s l s' :
  anthropic_inv h s → Anthropic.accept event s = Ok (l, s') → anthropic_inv (h ++ l) s'.
Proof.
  intros Hi. pose proof (proj2 Hi) as Hp. unfold reason_ok in Hp. unfold Anthropic.accept.
  destruct (get_str "type" event) as [kind|]; [|done].
  destruct (String.eqb kind "ping"); [intros [= <- <-]; by eapply anthropic_inv_quiet|].
  destruct (String.eqb kind "error"); [done|].
  destruct (String.eqb kind "message_start").
  { set (usage := pointer _ event). intros [= <- <-]. destruct usage; by apply (anthropic_inv_quiet h s). }
  destruct (String.eqb kind "content_block_start").
  { intros Ha. destruct (start_block_kept _ _ _ _ Ha) as [Ht Hf].
    eapply anthropic_inv_step; [done|done|unfold reason_ok; by rewrite Hf|].
    intros e Hr Hfree. by eapply start_block_ok. }
  destruct (String.eqb kind "content_block_delta").
  { intros Ha. destruct (delta_kept _ _ _ _ Ha) as [Ht Hf].
    eapply anthropic_inv_step; [done|done|unfold reason_ok; by rewrite Hf|].
    intros e Hr _. rewrite <-Ha. by apply delta_ok. }
  destruct (String.eqb kind "content_block_stop").
  { destruct (required_index event) as [i|]; [|done]. cbn [mbind result_bind].
    intros Ha. destruct (stop_block_kept _ _ _ _ Ha) as [Ht Hf].
    eapply anthropic_inv_step; [done|done|unfold reason_ok; by rewrite Hf|].
    intros e Hr _. rewrite <-Ha. by apply stop_block_ok. }
  destruct (String.eqb kind "message_delta").
  { generalize (pointer ["delta"; "stop_reason"] event ≫= as_str). intros reason [= <- <-]. eapply (anthropic_inv_quiet h s); [done| | |].
    - by destruct (get "usage" event).
    - by destruct (get "usage" event).
    - unfold reason_ok. cbn. destruct reason; [apply anthropic_reason_proper|done]. }
  destruct (String.eqb kind "message_stop"); [by apply anthropic_finish_inv|].
  intros [= <- <-]. by eapply anthropic_inv_quiet.
Qed.

Lemma anthropic_step_inv `{JsonText} data h s l s' :
  anthropic_inv h s → anthropic_step data s = Ok (l, s') → anthropic_inv (h ++ l) s'.
Proof.
  unfold anthropic_step. destruct (parse_event _ _ _) as [event|]; cbn [mbind result_bind]; [|done].
  apply anthropic_accept_inv.
Qed.

Lemma anthropic_stream_emitted `{JsonText} incoming l :
  anthropic_stream incoming = (l, Ended) → NoDup (started l) →
  ∃ s, emitted true l true (anthropic_rel s).
Proof.
  intros Hs Hnd. apply (run_stream_keeps _ _ _ _ anthropic_inv anthropic_step_inv incoming _ []) in Hs
    as (s & [Hi _] & Ht).
  - exists s. specialize (Hi Hnd). by destruct (an_terminal s).
  - split; [|done]. intros _. exists Emitter_new. split; [constructor|]. split_and!; [|done..].
    cbn. by rewrite fmap_empty.
Qed.
