(* ===== verification/Samples.v ===== *)
(** * Concrete sessions for the witnesses

    A session header and the log of a turn that was interrupted while a tool
    call was running, over the wire codec of [Codec]. *)

From S2P Require Import Prelude Json Protocol Codec Session SessionFacts.

Definition h0 : SessionHeader :=
  mkHeader 0 "s1" 1 None None None None None None.

Definition user_message (id text : string) : Message :=
  mkMessage id RoleUser [Text text] (SourceUser None).
Definition assistant_call (id call : string) : Message :=
  mkMessage id RoleAssistant [ToolCall call "read" "{}"] (SourceModel "p" "m" None).

Definition plain_event (t : string) (seq : N) (data : Value) : SessionEvent :=
  mkEvent t seq 5 data None None None.
Definition surface_event (t : string) (seq : N) (data : Value) : SessionEvent :=
  mkEvent t seq 5 data None None (Some Append).

Definition turn_start (seq : N) : SessionEvent :=
  plain_event "turn/start" seq (json_object [("turn", json_u64 1)]).
Definition say (id : string) (seq : N) : SessionEvent :=
  surface_event "user/message" seq (to_value (user_message id "hello")).
Definition step_start (seq : N) : SessionEvent :=
  plain_event "step/start" seq (json_object [("turn", json_u64 1); ("step", json_u64 1)]).
Definition assistant (id call : string) (seq : N) : SessionEvent :=
  surface_event "assistant/message" seq
    (json_object [("turn", json_u64 1); ("step", json_u64 1);
                  ("message", to_value (assistant_call id call))]).
Definition tool_call (call : string) (seq : N) : SessionEvent :=
  plain_event "tool/call" seq (json_object [("callId", VString call)]).
Definition enqueue (id : string) (target : string) (seq : N) : SessionEvent :=
  plain_event "agent/inbox/enqueued" seq
    (json_object [("target", VString target);
                  ("message", to_value (user_message id "later"))]).

(** The turn was interrupted between [tool/call] and [tool/result]. *)
Definition interrupted : list SessionEvent :=
  [turn_start 0; say "m1" 1; step_start 2; assistant "m2" "c1" 3; tool_call "c1" 4].

Definition state_of (events : list SessionEvent) : SessionState :=
  match build_state h0 events with Ok s => s | Err _ => initial_state h0 end.
Definition session_of (events : list SessionEvent) : Session :=
  mkSession h0 (state_of events) [].

Definition memory_of (events : list SessionEvent) : MemorySessionPersistence :=
  {[ "s1" := mkMemory h0 events 0 ]}.

Example interrupted_builds : build_state h0 interrupted = Ok (state_of interrupted).
Proof. vm_compute. reflexivity. Qed.

Definition splice (id target action : string) (seq : N) : SessionEvent :=
  plain_event "agent/inbox/spliced" seq
    (json_object [("itemId", VString id); ("target", VString target);
                  ("message", to_value (user_message id "later"));
                  ("action", VString action)]).

(** Two messages queued for the next turn. *)
Definition queued : list SessionEvent :=
  [enqueue "q1" "next-turn" 0; enqueue "q2" "next-turn" 1].
Definition queued_inbox : InboxReplay :=
  mkInbox [user_message "q1" "later"; user_message "q2" "later"] [].
