(* ===== verification/AgentCodec.v ===== *)
(** * A concrete codec of the agent loop's events, and a small agent

    The JSON forms that the [serde] attributes of protocol.rs prescribe for
    stream chunks, usage, failures, ends of turns and request headers, and the
    texts of [AgentError].  They instantiate [LoopWire] for the witnesses,
    together with an environment in which one provider calls a tool and then
    answers. *)

From S2P Require Import Prelude Json Protocol Codec Session Samples Jsonl JsonTextCodec.
From S2P Require Import Compaction AgentInbox Tools Llm SystemPrompt AgentLoop AgentTurn.

#[local] Open Scope N_scope.

(** ** Derived serialisers *)

Definition usage_json (u : TokenUsage) : Value :=
  obj_of [("inputTokens", Some (json_u64 (tu_input_tokens u)));
          ("outputTokens", Some (json_u64 (tu_output_tokens u)));
          ("cacheReadTokens", json_u64 <$> tu_cache_read_tokens u);
          ("cacheWriteTokens", json_u64 <$> tu_cache_write_tokens u);
          ("reasoningTokens", json_u64 <$> tu_reasoning_tokens u)].

Definition failure_json (f : LlmFailure) : Value :=
  obj_of [("message", Some (VString (lf_message f))); ("code", Some (VString (lf_code f)));
          ("status", json_u64 <$> lf_status f);
          ("providerRetryAfterMs", json_u64 <$> lf_provider_retry_after_ms f);
          ("requestId", VString <$> lf_request_id f)].

Definition tagged (tag name : string) (fields : list (string * option Value)) : Value :=
  obj_of ((tag, Some (VString name)) :: fields).

Definition finish_json (r : FinishReason) : Value :=
  match r with
  | FinishStop => tagged "kind" "stop" []
  | FinishToolCalls => tagged "kind" "tool-calls" []
  | FinishMaxTokens => tagged "kind" "max-tokens" []
  | FinishAborted f => tagged "kind" "aborted" [("failure", Some (failure_json f))]
  | FinishError f => tagged "kind" "error" [("failure", Some (failure_json f))]
  end.

Definition chunk_json (c : StreamChunk) : Value :=
  match c with
  | BlockStart i t =>
      tagged "type" "block-start" [("index", Some (json_u64 i)); ("blockType", Some (VString t))]
  | TextDelta i t =>
      tagged "type" "text-delta" [("index", Some (json_u64 i)); ("text", Some (VString t))]
  | ReasoningDelta i t =>
      tagged "type" "reasoning-delta" [("index", Some (json_u64 i)); ("text", Some (VString t))]
  | ToolCallDelta i id name d =>
      tagged "type" "tool-call-delta"
        [("index", Some (json_u64 i)); ("id", Some (VString id)); ("name", VString <$> name);
         ("argumentsDelta", Some (VString d))]
  | BlockEnd i b =>
      tagged "type" "block-end" [("index", Some (json_u64 i)); ("block", Some (block_value b))]
  | ChunkUsage u => tagged "type" "usage" [("usage", Some (usage_json u))]
  | Finish r state => tagged "type" "finish" [("reason", Some (finish_json r)); ("replayState", state)]
  end.

Definition cause_json (c : TurnEndCancelCause) : Value :=
  match c with
  | EndUser => tagged "kind" "user" []
  | EndParent => tagged "kind" "parent" []
  | EndHook reason => tagged "kind" "hook" [("reason", Some (VString reason))]
  | EndDisposed => tagged "kind" "disposed" []
  | EndLegacy => tagged "kind" "legacy" []
  end.

Definition reason_json (r : TurnEndReason) : Value :=
  match r with
  | TurnCompleted => tagged "kind" "completed" []
  | TurnAborted c => tagged "kind" "aborted" [("reason", Some (cause_json c))]
  | TurnBlocked => tagged "kind" "blocked" []
  | TurnError f => tagged "kind" "error" [("error", Some (failure_json f))]
  | TurnMaxTokens => tagged "kind" "max-tokens" []
  | TurnInterrupted => tagged "kind" "interrupted" []
  end.

Definition tool_json (s : ToolSchema) : Value :=
  obj_of [("name", Some (VString (ts_name s))); ("description", Some (VString (ts_description s)));
          ("parameters", Some (ts_parameters s))].

Definition config_json (c : LlmCallConfig) : Value :=
  obj_of [("provider", Some (VString (cc_provider c))); ("model", Some (VString (cc_model c)));
          ("reasoningEffort", VString <$> cc_reasoning_effort c);
          ("temperature", json_f64 <$> cc_temperature c);
          ("maxTokens", json_u64 <$> cc_max_tokens c);
          ("stop", json_strings <$> cc_stop c)].

Definition defaults_json (d : LlmCallConfigAdapterDefaults) : Value :=
  obj_of [("reasoningEffort", VBool <$> ad_reasoning_effort d);
          ("maxTokens", VBool <$> ad_max_tokens d)].

Definition epoch_json (h : EpochHeader) : Value :=
  obj_of [("config", Some (config_json (eh_config h)));
          ("adapterDefaults", defaults_json <$> eh_adapter_defaults h);
          ("system", VString <$> eh_system h);
          ("tools", (λ l, VArray (tool_json <$> l)) <$> eh_tools h)].

Definition agent_error_string (e : AgentError) : string :=
  match e with
  | ADuplicateFactory => "an agent factory is already registered"
  | AFactoryNotRegistered => "no agent factory is registered"
  | ANotFound id => "agent is not live for session " +:+ id
  | ADuplicateInboxMessage id => "an inbox message id is already pending: " +:+ id
  | ACancelled => "agent setup was cancelled"
  | ADisposed => "agent is disposed"
  | AInvalidOptions m => "invalid agent options: " +:+ m
  | ASetupReservationLost => "agent setup reservation was lost"
  | ARuntime m => "agent runtime failed: " +:+ m
  | ASession e => SessionError_code e
  | AMessage e => error_text e
  end.

#[export] Instance concrete_compaction_wire : CompactionWire := {
  usage_value := usage_json;
  failure_value := failure_json;
  finish_value := finish_json;
  tools_value l := VArray (tool_json <$> l);
  content_value l := VArray (block_value <$> l);
  purpose_value p := VString (match p with
    PurposeCompaction => "compaction" | PurposeSessionTitle => "session-title" end);
  json_text v := string_of (print_value v);
  message_text m := string_of (print_value (message_value m));
  session_error_text := SessionError_code;
}.

#[export] Instance concrete_loop_wire : LoopWire := {
  chunk_value := chunk_json;
  reason_value := reason_json;
  header_value := epoch_json;
  parse_json s := parse_text (bytes_of s);
  agent_error_text := agent_error_string;
}.

(** ** A small agent *)

Definition answers (text : string) : list (result TessivumError StreamChunk) :=
  [Ok (BlockStart 0 "text"); Ok (TextDelta 0 text); Ok (BlockEnd 0 (Text text)); Ok (Finish FinishStop None)].
Definition calls_tool (call name arguments : string) (reason : FinishReason) :
    list (result TessivumError StreamChunk) :=
  [Ok (BlockStart 0 "tool-call"); Ok (BlockEnd 0 (ToolCall call name arguments)); Ok (Finish reason None)].

Definition is_result (b : ContentBlock) : bool := match b with ToolResult _ _ _ => true | _ => false end.

(** The adapter calls the tool until it has a result. *)
Definition calling (reason : FinishReason) (r : GenerateRequest) : list (result TessivumError StreamChunk) :=
  if existsb (λ m, existsb is_result (m_content m)) (gr_messages r) then answers "done"
  else calls_tool "c1" "read" "{}" reason.

(** Another task that adds a note to the log at some ticks. *)
Definition takes_notes (ticks : list nat) (n : nat) (s : Session) (b : MemorySessionPersistence)
    (i : Inbox.InboxState) : Session * MemorySessionPersistence * Inbox.InboxState :=
  if bool_decide (n ∈ ticks) then
    let '(_, s, b) := append_next live_token (λ seq, plain_event "session/title" seq VNull) s b in (s, b, i)
  else (s, b, i).

Definition tool_said : ToolOutput :=
  mkToolOutput [Text "contents"] false
    (json_object [("codeDispatches",
       VArray [json_object [("type", VString "tool/code-dispatch"); ("data", VNull)]])]).

Definition small_env (policy : option LlmRetryPolicy)
    (answer : nat → GenerateRequest → list (result TessivumError StreamChunk)) :
    LoopEnv MemorySessionPersistence unit := {|
  le_others := takes_notes [3; 20]%nat;
  le_cancelled _ := false;
  le_cause _ := None;
  le_token _ := live_token;
  le_clock n := 1000 + N.of_nat n;
  le_uuid n := "u" +:+ fmt_N (N.of_nat n);
  le_random _ := f64_zero;
  le_llm _ := mkRuntime 1 {[ "p" := mkSlot 1 tt policy ]};
  le_answer n _ r := Ok (answer n r);
  le_poll _ _ := false;
  le_schemas _ := [mkToolSchema "read" "reads" (VObject [])];
  le_code_description _ := None;
  le_prompt _ := Prompt.new;
  le_execute _ _ _ _ _ := tool_said;
  le_compact := None;
  le_catalog _ := None;
  le_skill _ _ := Err ended_early;
  le_instructions _ _ := None;
|}.

Definition small_config (steps : N) : LoopConfig := {|
  lc_options := mkOptions "p" "m" None None;
  lc_prompt_complete := true;
  lc_prompt_section := Prompt.mkPromptSection "agent-mode/minimal" 0 "Be brief.";
  lc_context_window _ _ := Some 1000;
  lc_max_steps := steps;
|}.

Definition empty_world : World MemorySessionPersistence :=
  mkWorld (session_of []) (memory_of []) Inbox.new None (Some "initial") 0.

Definition small_turn (reason : FinishReason) : result stop unit * World MemorySessionPersistence :=
  run_turn (small_env None (λ _, calling reason)) (small_config 4) 3 (user_message "m1" "hello") empty_world.
