(* ===== verification/ProtocolProps.v ===== *)
(** * What the protocol validators accept (protocol.rs)

    Declarative readings of the two validators other components rely on, the
    tool snapshot and the session event, and the migration of legacy presets. *)

From S2P Require Import Prelude Json Protocol Codec Samples.

(** ** Tool snapshots *)

Lemma validate_tools_from_Ok prior tools :
  validate_tools_from prior tools = Ok tt ↔
  Forall (λ t, ToolSchema_validate t = Ok tt) tools ∧ NoDup (ts_name <$> tools) ∧
  Forall (λ t, ts_name t ∉ ts_name <$> prior) tools.
Proof.
  revert prior. induction tools as [|t tools IH]; intros prior; simpl.
  { repeat split; auto using Forall_nil_2, NoDup_nil_2. }
  assert (existsb (λ p, String.eqb (ts_name p) (ts_name t)) prior = true ↔
          ts_name t ∈ ts_name <$> prior) as Hex.
  { rewrite existsb_exists, list_elem_of_fmap. split.
    - intros (x & Hx & Heq%String.eqb_eq). exists x. by rewrite list_elem_of_In.
    - intros (x & Heq & Hx). exists x. rewrite <-list_elem_of_In. split; [done|].
      by apply String.eqb_eq. }
  rewrite bind_Ok, !Forall_cons, NoDup_cons. split.
  - intros ([] & Hv & [Hn Hr]%guard_Ok). apply IH in Hr as (Hall & Hnd & Hp).
    rewrite <-not_true_iff_false, Hex in Hn.
    assert (∀ x, x ∈ tools → (ts_name x ∉ ts_name <$> prior) ∧ ts_name x ≠ ts_name t) as Hx.
    { intros x Hx. eapply Forall_forall in Hp; [|done].
      rewrite fmap_app in Hp. simpl in Hp.
      by rewrite not_elem_of_app, list_elem_of_singleton in Hp. }
    split_and!; [done..| |done|done|].
    + intros (x & Heq & Hin)%list_elem_of_fmap. by apply (Hx x).
    + apply Forall_forall. intros x Hin. by apply Hx.
  - intros ((Hv & Hall) & (Hn & Hnd) & (Hp & Hps)). exists tt. split; [done|].
    apply guard_Ok. split; [apply not_true_iff_false; by rewrite Hex|].
    apply IH. split_and!; [done..|]. apply Forall_forall. intros x Hin.
    eapply Forall_forall in Hps; [|done].
    rewrite fmap_app. simpl. rewrite not_elem_of_app, list_elem_of_singleton. split; [done|].
    intros Heq. apply Hn. apply list_elem_of_fmap. by exists x.
Qed.

(** A tool snapshot is accepted exactly when every schema is valid (named,
    with object parameters) and no two tools share a name. *)
Theorem validate_tools_accepts tools :
  validate_tools tools = Ok tt ↔
  Forall (λ t, blank (ts_name t) = false ∧ is_object (ts_parameters t) = true) tools ∧
  NoDup (ts_name <$> tools).
Proof.
  unfold validate_tools. rewrite validate_tools_from_Ok.
  assert (∀ t, ToolSchema_validate t = Ok tt ↔
    blank (ts_name t) = false ∧ is_object (ts_parameters t) = true) as Ht.
  { intros t. unfold ToolSchema_validate, validate_nonempty.
    destruct (blank (ts_name t)), (is_object (ts_parameters t)); simpl; intuition done. }
  rewrite (Forall_iff _ _ _ Ht). split; [by intros (? & ? & _)|]. intros [? ?].
  split_and!; [done..|]. apply Forall_forall. intros t _. apply not_elem_of_nil.
Qed.

(** ** Session events *)

(** The contract of the event envelope. *)
Definition surface_op_wf (op : SurfaceOp) : Prop :=
  match op with
  | Append => True
  | Replace start fin =>
      (start ≤ fin)%N ∧ (start ≤ MAX_SAFE_INTEGER)%N ∧ (fin ≤ MAX_SAFE_INTEGER)%N
  end.

Record surface_wf (e : SessionEvent) (op : SurfaceOp) : Prop := {
  swf_op : ev_surface_op e = Some op;
  swf_range : surface_op_wf op;
  swf_cited : match op with
    | Replace _ _ => from_option (λ l, l ≠ []) False (ev_source_event_seqs e)
    | Append => True
    end;
  swf_empty : event_type e ≠ "assistant/message" → ev_source_event_seqs e ≠ Some [];
  swf_earlier : ∀ l, ev_source_event_seqs e = Some l →
    Forall (λ q, (q ≤ MAX_SAFE_INTEGER)%N ∧ (q < ev_seq e)%N) l;
}.

Section events.
Context `{ProtocolWire}.

Record event_wf (e : SessionEvent) : Prop := {
  ewf_seq : (ev_seq e ≤ MAX_SAFE_INTEGER)%N;
  ewf_time : (ev_time e ≤ MAX_SAFE_INTEGER)%N;
  ewf_known : event_type e ∈ known_event_types ∨ ev_ignorable e = Some true;
  ewf_ignorable : ev_ignorable e ≠ Some false;
  ewf_workflow : validate_tool_workflow_event (event_type e) (ev_data e) = Ok tt;
  ewf_surface : is_surface_event_type (event_type e) = true → ∃ op, surface_wf e op;
  ewf_no_surface : is_surface_event_type (event_type e) = false →
    ev_surface_op e = None ∧ ev_source_event_seqs e = None;
}.

Lemma SurfaceOp_validate_iff op : SurfaceOp_validate op = Ok tt ↔ surface_op_wf op.
Proof.
  destruct op as [|start fin]; [done|]. unfold SurfaceOp_validate, surface_op_wf. split.
  - intros ([] & Hs%check_safe_integer_Ok & Hv)%bind_Ok.
    apply bind_Ok in Hv as ([] & He%check_safe_integer_Ok & Hv).
    by apply guard_Ok in Hv as [Hle%N.ltb_ge _].
  - intros (Hle%N.ltb_ge & ? & ?).
    rewrite !(proj2 (check_safe_integer_Ok _ _)) by done. simpl. by rewrite Hle.
Qed.

Lemma sources_earlier_iff e l :
  forM (λ source_seq,
    _ ← check_safe_integer "sourceEventSeqs" source_seq;
    if (ev_seq e <=? source_seq)%N then
      Err (invalid "INVALID_SOURCE_EVENT_SEQS" "sourceEventSeqs must cite earlier events"
        (json_object [("seq", json_u64 (ev_seq e)); ("sourceEventSeq", json_u64 source_seq)]))
    else Ok tt) l = Ok tt ↔
  Forall (λ q, (q ≤ MAX_SAFE_INTEGER)%N ∧ (q < ev_seq e)%N) l.
Proof.
  rewrite forM_Ok. apply Forall_iff. intros q. rewrite bind_Ok. split.
  - intros ([] & Hq%check_safe_integer_Ok & [Hlt%N.leb_gt _]%guard_Ok). done.
  - intros [Hq Hlt]. exists tt. rewrite check_safe_integer_Ok. split; [done|].
    by rewrite (proj2 (N.leb_gt _ _) Hlt).
Qed.

Lemma validate_surface_metadata_iff e :
  validate_surface_metadata e = Ok tt ↔ ∃ op, surface_wf e op.
Proof.
  unfold validate_surface_metadata. split.
  - intros Hv. apply bind_Ok in Hv as (op & Hop%ok_or_Ok & Hv). exists op.
    apply bind_Ok in Hv as ([] & Hr%SurfaceOp_validate_iff & Hv).
    apply bind_Ok in Hv as ([] & Hs & Hv).
    destruct (ev_source_event_seqs e) as [l|] eqn:Hl.
    + apply bind_Ok in Hs as ([] & Hg & Hs%sources_earlier_iff).
      apply guard_Ok in Hg as [Hg _]. split; rewrite ?Hl; try done.
      * destruct op; [done|]. simpl. by destruct l.
      * intros Ha [= ->]. apply andb_false_iff in Hg as [Hg%negb_false_iff|Hg]; [|done].
        by apply String.eqb_eq in Hg.
      * by intros ? [= <-].
    + split; rewrite ?Hl; try done. by destruct op.
  - intros (op & [-> Hr Hc He Hs]). simpl.
    rewrite (proj2 (SurfaceOp_validate_iff op) Hr). simpl.
    destruct (ev_source_event_seqs e) as [l|]; simpl in *.
    + specialize (Hs l eq_refl). rewrite (proj2 (sources_earlier_iff e l) Hs).
      assert (negb (String.eqb (event_type e) "assistant/message")
              && bool_decide (l = []) = false) as ->.
      { destruct (String.eqb_spec (event_type e) "assistant/message"); [done|]. simpl.
        apply bool_decide_eq_false. intros ->. by apply He. }
      simpl. destruct op; [done|]. by destruct l.
    + by destruct op.
Qed.

(** The event envelope.  [SessionEvent::validate] accepts an event exactly
    when its numbers are safe, its type is known or explicitly ignorable, its
    workflow payload is canonical, and its surface metadata is that of its
    type: a message event declares a well-ordered operation, cites only
    strictly earlier events, and a replacement cites at least one. *)
Theorem event_validate_accepts e :
  SessionEvent_validate e = Ok tt ↔ event_wf e.
Proof.
  unfold SessionEvent_validate. split.
  - intros Hv.
    apply bind_Ok in Hv as ([] & Hseq%check_safe_integer_Ok & Hv).
    apply bind_Ok in Hv as ([] & Htime%check_safe_integer_Ok & Hv).
    apply guard_Ok in Hv as [Hign%bool_decide_eq_false Hv].
    apply guard_Ok in Hv as [Hkn Hv]. apply bind_Ok in Hv as ([] & Hw & Hv).
    unfold is_known_event_type in Hkn.
    apply andb_false_iff in Hkn. rewrite !negb_false_iff, !bool_decide_eq_true in Hkn.
    split; try done; intros Hs; rewrite Hs in Hv.
    + by apply validate_surface_metadata_iff.
    + by destruct (ev_surface_op e), (ev_source_event_seqs e).
  - intros [Hseq Htime Hkn Hign Hw Hs Hn].
    rewrite !(proj2 (check_safe_integer_Ok _ _)), bool_decide_eq_false_2 by done. simpl.
    assert (negb (is_known_event_type (event_type e))
            && negb (bool_decide (ev_ignorable e = Some true)) = false) as ->.
    { apply andb_false_iff. unfold is_known_event_type.
      by rewrite !negb_false_iff, !bool_decide_eq_true. }
    rewrite Hw. simpl. destruct (is_surface_event_type _).
    + by apply validate_surface_metadata_iff, Hs.
    + by destruct (Hn eq_refl) as [-> ->].
Qed.
End events.

(** ** Legacy presets *)

(** The stored preset selection migrates once: a migrated event is an
    [agent-mode/selected] event naming one of the four modes, a second migration
    leaves it alone, and events of other types are never touched. *)
Theorem preset_migration_once root debug t data t' data' :
  migrate_legacy_agent_preset_selection root debug t data = Ok (t', data') →
  migrate_legacy_agent_preset_selection root debug t' data' = Ok (t', data') ∧
  (t ≠ "agent-preset/selected" → t' = t ∧ data' = data) ∧
  (t = "agent-preset/selected" → t' = "agent-mode/selected" ∧
     ∃ mode, get_str "agentMode" data' = Some mode ∧
             mode ∈ ["standard"; "ptc"; "minimal"; "composition"]).
Proof.
  unfold migrate_legacy_agent_preset_selection at 1.
  destruct (String.eqb_spec t "agent-preset/selected") as [->|Hne]; simpl; intros Hm.
  - apply bind_Ok in Hm as (p & _ & Hm). apply bind_Ok in Hm as (mode & Hmode & [= <- <-]).
    split_and!; [done..|]. intros _. split; [done|]. exists mode. split; [done|].
    unfold migrate_legacy_agent_preset in Hmode.
    repeat case_match; simplify_eq; rewrite !elem_of_cons; auto.
  - simplify_eq. split_and!; [|done..]. unfold migrate_legacy_agent_preset_selection.
    by rewrite (proj2 (String.eqb_neq _ _) Hne).
Qed.

Lemma preset_migration_once_witness :
  migrate_legacy_agent_preset_selection "r" id "agent-mode/selected"
    (json_object [("agentMode", VString "ptc")]) =
  Ok ("agent-mode/selected", json_object [("agentMode", VString "ptc")]).
Proof.
  apply (preset_migration_once "r" id "agent-preset/selected"
    (json_object [("agentPreset", VString "code")])).
  reflexivity.
Defined.
