(* ===== verification/SessionProps.v ===== *)
(** * What sessions guarantee

    The properties of session.rs: live admission is replay, live sessions are
    durable, restoration rebuilds them, a cold restore closes an interrupted
    turn, the surface cites its events, compare-and-append, and the inbox. *)

From S2P Require Import Prelude Json Protocol Codec Session SessionFacts.
From S2P Require Import RestoreFacts Samples.

(** ** Live admission is replay *)

Section admission.
Context `{ProtocolWire} {S : Type} `{SessionPersistence S}.

(** C1: appending an event to a session leaves it in the state that a replay
    of the extended log rebuilds, and broadcasts exactly that event: what was
    persisted and what the live session shows never diverge. *)
Theorem append_is_replay t event expected s (b : S) s' b' :
  session_wf s →
  append_inner t event expected s b = (Ok tt, s', b') →
  build_state (s_header s) (st_events (s_state s) ++ [event]) = Ok (s_state s') ∧
  st_events (s_state s') = st_events (s_state s) ++ [event] ∧
  s_updates s' = s_updates s ++ [event].
Proof.
  intros Hwf Ha. pose proof (append_inner_wf _ _ _ _ _ _ _ _ Hwf Ha) as [[Hr _] Hh].
  apply append_inner_inv in Ha as [(? & [=] & _)|(p & _ & _ & _ & ->)].
  split; [|done]. exact Hr.
Qed.

Context `{!PersistenceLaws S}.

(** C2: an append that fails leaves the session exactly as it was (log,
    surface and broadcast channel), and the durable log either unchanged or,
    when the back end's outcome was uncertain, one committed event longer;
    one that succeeds has committed exactly that event. *)
Theorem append_atomic t event expected s (b : S) r s' b' :
  append_inner t event expected s b = (r, s', b') →
  match r with
  | Ok _ => commits_append (h_id (s_header s)) event (durable b) (durable b')
  | Err _ => s' = s ∧
      (durable b' = durable b ∨
       commits_append (h_id (s_header s)) event (durable b) (durable b'))
  end.
Proof.
  intros [(e & -> & -> & [->|Hp])|(p & -> & _ & Hp & _)]%append_inner_inv; [by auto| |];
    apply append_writes in Hp; [by split|done].
Qed.

(** Compare-and-append.  An append conditioned on a surface succeeds only
    if the surface the caller saw is still the current one; otherwise it
    reports both surfaces and changes neither the session nor the back end. *)
Theorem append_if_surface_current t event expected s (b : S) r s' b' :
  append_if_surface t event expected s b = (r, s', b') →
  (r = Ok tt → surface_seqs (s_state s) = expected) ∧
  (surface_seqs (s_state s) ≠ expected →
   s' = s ∧ b' = b ∧
   (r = Err ECancelled ∨ r = Err (EStaleSurface expected (surface_seqs (s_state s))))).
Proof.
  unfold append_if_surface. intros Ha. split.
  - intros ->. apply append_inner_inv in Ha as [(? & [=] & _)|(p & _ & Hc & _)].
    apply check_append_Ok in Hc as (_ & _ & Hx). by apply Hx.
  - intros Hne. unfold append_inner, append_under_gate, check_append in Ha.
    rewrite bool_decide_eq_false_2 in Ha by done.
    destruct (check_cancellation (check 0 t)) eqn:H1; simpl in Ha; cycle 1.
    { unfold check_cancellation in H1. case_match; simplify_eq. auto. }
    destruct (check_cancellation (check 0 (sub 1 t))) eqn:H2; simpl in Ha; cycle 1.
    { unfold check_cancellation in H2. case_match; simplify_eq. auto. }
    simplify_eq. auto.
Qed.
End admission.

Lemma append_is_replay_witness :
  let r := append (S := MemorySessionPersistence) live_token (say "m1" 1)
             (session_of [turn_start 0]) (memory_of [turn_start 0]) in
  build_state h0 ([turn_start 0] ++ [say "m1" 1]) = Ok (s_state r.1.2).
Proof.
  apply (append_is_replay (S := MemorySessionPersistence) live_token (say "m1" 1) None
    (session_of [turn_start 0]) (memory_of [turn_start 0]) _ (memory_of [turn_start 0; say "m1" 1])).
  - split; [vm_compute; reflexivity|]. by exists (st_events (state_of [turn_start 0])).
  - vm_compute. reflexivity.
Defined.

Lemma append_atomic_witness :
  commits_append "s1" (say "m1" 1) (durable (memory_of [turn_start 0]))
    (durable (memory_of [turn_start 0; say "m1" 1])).
Proof.
  apply (append_atomic (S := MemorySessionPersistence) live_token (say "m1" 1) None
    (session_of [turn_start 0]) (memory_of [turn_start 0]) (Ok tt)
    (mkSession h0 (state_of [turn_start 0; say "m1" 1]) [say "m1" 1])).
  vm_compute. reflexivity.
Defined.

Lemma append_if_surface_current_witness :
  (append_if_surface (S := MemorySessionPersistence) live_token (step_start 2) [7%N]
     (session_of [turn_start 0; say "m1" 1]) (memory_of [turn_start 0; say "m1" 1])).1.2
  = session_of [turn_start 0; say "m1" 1].
Proof.
  apply (append_if_surface_current (S := MemorySessionPersistence) live_token (step_start 2) [7%N]
    (session_of [turn_start 0; say "m1" 1]) (memory_of [turn_start 0; say "m1" 1])
    (Err (EStaleSurface [7%N] [1%N])) _ (memory_of [turn_start 0; say "m1" 1])).
  - vm_compute. reflexivity.
  - vm_compute. discriminate.
Defined.

(** ** The store *)

Section store.
Context `{ProtocolWire} {S : Type} `{PersistenceLaws S}.

(** C3: durability.  Whatever public operations ran on a store that started
    without live sessions, with whatever cancellations and back-end failures,
    every live session's log is a committed prefix of the durable log under
    its own id and header, and its state is the replay of that log. *)
Theorem reachable_durable (st0 st : SessionStore S) id s :
  initial_store st0 → rtc store_step st0 st → live st !! id = Some s →
  h_id (s_header s) = id ∧
  build_state (s_header s) (st_events (s_state s)) = Ok (s_state s) ∧
  ∃ more, durable (backend st) !! id = Some (s_header s, st_events (s_state s) ++ more).
Proof.
  intros Hi Hr Hs. destruct (reachable_inv st0 st Hi Hr) as [_ Hinv].
  by destruct (Hinv id s Hs) as (? & [? _] & ?).
Qed.

(** No gaps.  In every reachable store the sequence numbers of every
    durable log, and of every live one, are 0, 1, 2, ... *)
Theorem reachable_contiguous (st0 st : SessionStore S) :
  initial_store st0 → rtc store_step st0 st →
  logs_contiguous (durable (backend st)) ∧
  ∀ id s, live st !! id = Some s → contiguous (st_events (s_state s)).
Proof.
  intros Hi Hr. destruct (reachable_inv st0 st Hi Hr) as [Hc Hinv].
  split; [done|]. intros id s Hs. apply session_wf_contiguous. by apply (Hinv id s Hs).
Qed.

(** A cold restore that returns a session has durably closed whatever
    turn was interrupted: the session is live, its log extends the durable
    one by exactly the closers, and nothing is left to close, so a further
    restore adds nothing. *)
Theorem cold_restore_closes t id (st : SessionStore S) s st' :
  Store.restore t id Cold st = (Ok s, st') →
  live st' !! id = Some s ∧
  Closers.interrupted_turn_closers (st_events (s_state s)) = Ok [] ∧
  ∃ events closers, durable (backend st) !! id = Some (s_header s, events) ∧
    Closers.interrupted_turn_closers events = Ok closers ∧
    st_events (s_state s) = events ++ closers.
Proof.
  unfold Store.restore. destruct (Store.load_session t id st) as [[s0 closers]|] eqn:Hl; [|done].
  apply load_session_Ok in Hl as (Hlive & Hid & Hc & events & Hd & Hf).
  pose proof (from_committed_wf _ _ _ Hf) as (Hwf & Hh & He). rewrite filter_all in He.
  rewrite He in Hc.
  assert (∀ b x (y : SessionStore S), Store.publish id x (mkStore b (live st)) = (Ok s, y) →
    s = x ∧ live y !! id = Some s) as Hpub.
  { intros b x y. unfold Store.publish, Store.insert_live. simpl. rewrite Hlive.
    intros [= -> <-]. split; [done|]. apply lookup_insert_eq. }
  destruct closers as [|c closers].
  - destruct st as [b l]. intros [-> ?]%Hpub. rewrite He. split_and!; [done..|].
    exists events, []. by rewrite app_nil_r.
  - destruct (Store.append_all _ _ _ _ _) as [[r s1] b1] eqn:Ha.
    destruct r as [[]|]; [|done].
    apply append_all_events in Ha as (Hwf1 & Hh1 & He1); [|done].
    intros [-> ?]%Hpub. rewrite He in He1. rewrite He1, Hh1.
    split_and!; [done| |by eexists _, _].
    apply closed_log; [done..|]. apply session_wf_decodes in Hwf1.
    rewrite He1 in Hwf1. apply Forall_app in Hwf1 as [_ Hwf1].
    eapply Forall_impl; [done|]. by intros ? [? _].
Qed.
End store.

(** Three steps of a store over an empty memory: create, append, restore. *)
Definition empty_store : SessionStore MemorySessionPersistence := mkStore ∅ ∅.
Definition created : SessionStore MemorySessionPersistence :=
  (Store.create live_token h0 empty_store).2.
Definition started : SessionStore MemorySessionPersistence :=
  (Store.append_live live_token "s1" (turn_start 0) None created).2.

Lemma started_reachable : rtc store_step empty_store started.
Proof.
  eapply rtc_l; [eapply step_create, surjective_pairing|].
  eapply rtc_l; [|apply rtc_refl]. apply (step_append live_token "s1" (turn_start 0) None
    created (Store.append_live live_token "s1" (turn_start 0) None created).1).
  apply surjective_pairing.
Defined.

Lemma empty_initial : initial_store empty_store.
Proof. split; [done|]. intros id h evs Hd.
  change (durable (backend empty_store)) with (∅ : durable_logs) in Hd.
  by rewrite lookup_empty in Hd.
Defined.

Definition started_session : Session :=
  mkSession h0 (state_of [turn_start 0]) [turn_start 0].

Lemma reachable_durable_witness :
  ∃ more, durable (backend started) !! "s1" = Some (h0, [turn_start 0] ++ more).
Proof.
  apply (reachable_durable empty_store started "s1" started_session).
  - apply empty_initial.
  - apply started_reachable.
  - vm_compute. reflexivity.
Defined.

Lemma reachable_contiguous_witness : logs_contiguous (durable (backend started)).
Proof.
  apply (reachable_contiguous empty_store started); [apply empty_initial|apply started_reachable].
Defined.

Definition interrupted_store : SessionStore MemorySessionPersistence :=
  mkStore (memory_of interrupted) ∅.
Definition log_length (r : result SessionError Session) : nat :=
  match r with Ok s => length (st_events (s_state s)) | Err _ => 0 end.

Lemma cold_restore_closes_witness :
  ∃ s st', Store.restore live_token "s1" Cold interrupted_store = (Ok s, st') ∧
    length (st_events (s_state s)) = 8 ∧
    Closers.interrupted_turn_closers (st_events (s_state s)) = Ok [].
Proof.
  assert (log_length (Store.restore live_token "s1" Cold interrupted_store).1 = 8) as Hlen
    by (vm_compute; reflexivity).
  destruct (Store.restore live_token "s1" Cold interrupted_store) as [[s|e] st'] eqn:Hr;
    [|discriminate].
  exists s, st'. split_and!; [done|exact Hlen|].
  apply (cold_restore_closes live_token "s1" interrupted_store s st' Hr).
Defined.

(** ** Restoring over the in-memory back end *)

Section memory.
Context `{ProtocolWire}.
Abbreviation memory_store := (SessionStore MemorySessionPersistence).

Lemma memory_load_session id header events n state closers (st : memory_store) :
  live st !! id = None → h_id header = id →
  backend st !! id = Some (mkMemory header events n) →
  build_state header events = Ok state →
  Closers.interrupted_turn_closers events = Ok closers →
  Store.load_session live_token id st = Ok (mkSession header state [], closers).
Proof.
  intros Hl Hid Hb Hs Hc. unfold Store.load_session, Store.ensure_not_live. simpl.
  rewrite Hl. simpl. unfold memory_load. simpl. rewrite Hb. simpl.
  pose proof Hs as (-> & _)%build_state_Ok. simpl.
  rewrite Hid, String.eqb_refl. simpl. unfold memory_read_from. simpl. rewrite Hb. simpl.
  rewrite filter_all. unfold from_committed. rewrite Hs. simpl.
  rewrite (replayable_events _ _ _ Hs), Hc. done.
Qed.

(** Restoration is faithful.  A session whose log is committed, dropped
    from the store and restored as metadata (no token cancelled, its turns
    well numbered) comes back with the same header and the same state, and is
    published under its id. *)
Theorem restore_rebuilds id s n closers (st : memory_store) :
  session_wf s → h_id (s_header s) = id →
  backend st !! id = Some (mkMemory (s_header s) (st_events (s_state s)) n) →
  Closers.interrupted_turn_closers (st_events (s_state s)) = Ok closers →
  let s' := mkSession (s_header s) (s_state s) [] in
  Store.restore live_token id Metadata (Store.remove id st) =
    (Ok s', mkStore (backend st) (<[id := s']> (delete id (live st)))).
Proof.
  intros [Hr _] Hid Hb Hc. unfold Store.restore.
  rewrite (memory_load_session id (s_header s) (st_events (s_state s)) n (s_state s) closers);
    try done; [|by apply lookup_delete_eq].
  unfold Store.publish, Store.insert_live. simpl. rewrite lookup_delete_eq.
  by destruct closers.
Qed.

Context {stable : Message → Prop} `{!WireLaw Message stable}.

(** A cold restore succeeds.  Over the in-memory back end, with no
    cancellation, the log of a session that replays is always restored and
    closed, provided its turns are well numbered, the interrupted tool calls
    have non-blank ids and the sequence numbers have room. *)
Theorem cold_restore_succeeds id header events n state scan (st : memory_store) :
  live st !! id = None → h_id header = id →
  backend st !! id = Some (mkMemory header events n) →
  build_state header events = Ok state →
  Closers.scan_events events = Ok scan →
  Forall (λ c, blank (Closers.call_id c) = false) (Closers.pending scan) →
  (N.of_nat (length events + length (Closers.pending scan)) + 2 ≤ MAX_SAFE_INTEGER)%N →
  (∀ m c, m_source m = SourceTool c → stable m) →
  ∃ s st', Store.restore live_token id Cold st = (Ok s, st').
Proof using All.
  intros Hl Hid Hb Hs Hscan Hcalls Hroom Hst.
  set (s := mkSession header state []).
  assert (session_wf s) as Hwf.
  { split; [|apply suffix_nil]. unfold replayable. simpl.
    by rewrite (replayable_events _ _ _ Hs). }
  pose proof (replayable_events _ _ _ Hs) as He.
  pose proof (session_wf_contiguous s Hwf) as Hcont. simpl in Hcont. rewrite He in Hcont.
  pose proof (session_wf_decodes s Hwf) as Hdec. simpl in Hdec. rewrite He in Hdec.
  destruct (closers_total events scan) as [closers Hc]; [done..| |].
  { unfold U64_MAX, MAX_SAFE_INTEGER in *. lia. }
  unfold Store.restore. rewrite (memory_load_session id header events n state closers) by done.
  fold s.
  assert (∀ (b : MemorySessionPersistence) x, ∃ s' st', Store.publish id x (mkStore b (live st)) = (Ok s', st')) as Hpub.
  { intros b x. unfold Store.publish, Store.insert_live. simpl. rewrite Hl. eauto. }
  destruct closers as [|c closers]; [destruct st; apply Hpub|].
  apply closers_Ok in Hc as (scan' & Hscan' & Hc).
  assert (scan' = scan) as -> by congruence.
  destruct (Closers.open_turn scan) as [turn|], (last events) as [e|] eqn:Hlast; try done.
  rewrite last_lookup in Hlast.
  pose proof (Hcont _ _ Hlast) as Hseq. pose proof (lookup_lt_Some _ _ _ Hlast) as Hlt.
  replace (ev_seq e + 1)%N with (N.of_nat (length events)) in Hc by lia.
  destruct (memory_append_all 3 (c :: closers) s (backend st) header n) as (s' & b' & ->);
    [done|simpl; congruence| | |apply Hpub]; rewrite Hc; simpl; rewrite He.
  - apply (closers_plain (stable := stable)); try done; [|lia|by apply scan_pending].
    eapply Forall_lookup_1 in Hdec as [_ Hv]; [|done]. unfold SessionEvent_validate in Hv.
    invert_ok. by eapply check_safe_integer_Ok.
  - pose proof (closers_of_length turn (ev_time e) (N.of_nat (length events)) scan).
    unfold U64_MAX, MAX_SAFE_INTEGER in *. simpl in *. lia.
Qed.
End memory.

Lemma restore_rebuilds_witness :
  is_ok (Store.restore live_token "s1" Metadata
           (Store.remove "s1" (mkStore (memory_of interrupted)
              {[ "s1" := session_of interrupted ]}))).1 = true.
Proof.
  destruct (Closers.interrupted_turn_closers (st_events (state_of interrupted)))
    as [closers|] eqn:Hc; [|vm_compute in Hc; discriminate].
  rewrite (restore_rebuilds "s1" (session_of interrupted) 0 closers).
  - reflexivity.
  - split; [vm_compute; reflexivity|]. by exists (st_events (state_of interrupted)).
  - reflexivity.
  - vm_compute. reflexivity.
  - exact Hc.
Defined.

Lemma cold_restore_succeeds_witness :
  ∃ s st', Store.restore live_token "s1" Cold interrupted_store = (Ok s, st').
Proof.
  apply (cold_restore_succeeds (stable := message_stable) "s1" h0 interrupted 0
    (state_of interrupted)
    (Closers.mkScan (Some 1%N) (Some 1%N) [Closers.mkPending "c1" 1 (Some 4%N)])).
  - reflexivity.
  - reflexivity.
  - vm_compute. reflexivity.
  - vm_compute. reflexivity.
  - vm_compute. reflexivity.
  - repeat constructor.
  - vm_compute. discriminate.
  - intros m c Hm. unfold message_stable. by rewrite Hm.
Defined.

(** ** What is derived from a log *)

Section derived.
Context `{ProtocolWire}.

(** Provenance of the model-visible surface.  In a state rebuilt from a
    log (so, by [append_is_replay], in every live state) each surface entry
    is the decoding of the logged event whose sequence number it carries, and
    no event is shown twice, however many replacements were made. *)
Theorem surface_provenance header events state :
  build_state header events = Ok state →
  (∀ sm, sm ∈ st_surface state →
     ∃ e, events !! N.to_nat (sm_event_seq sm) = Some e ∧
          ev_seq e = sm_event_seq sm ∧ decode_surface_event e = Ok (Some sm)) ∧
  NoDup (surface_seqs state).
Proof.
  intros (_ & _ & Hf & _)%build_state_Ok. apply replay_surface in Hf as [Hs Hnd].
  split; [|done]. intros sm Hin. eapply Forall_forall in Hs as (e & He & Hd); [|done].
  exists e. split_and!; [done| |done]. by rewrite (decode_surface_event_seq _ _ Hd).
Qed.

(** At most one pending copy.  The replayed inbox never holds two
    messages with the same id, in one queue or across the two. *)
Theorem inbox_ids_unique events i :
  Inbox.replay events = Ok i → NoDup (m_id <$> followups i ++ steps i).
Proof. intros Hr%replay_unique. by rewrite fmap_app. Qed.

(** Consumption.  Once the user message with some id is logged, no message
    with that id is pending, and every other pending message still is, in
    the same order. *)
Theorem inbox_consumes events i event id i' :
  Inbox.replay events = Ok i →
  event_type event = "user/message" → get_str "id" (ev_data event) = Some id →
  Inbox.apply i event = Ok i' →
  followups i' = filter (λ m, m_id m ≠ id) (followups i) ∧
  steps i' = filter (λ m, m_id m ≠ id) (steps i).
Proof.
  intros Hu%replay_unique Ht Hid. unfold Inbox.apply. rewrite Ht, Hid. simpl.
  intros [= <-]. simpl.
  pose proof (unique_queue Followup i Hu). pose proof (unique_queue Step i Hu).
  by rewrite !remove_first_filter.
Qed.

(** Steering moves a message.  An accepted [steer] takes the message out
    of the next-turn queue, where it was, and puts the same message at the end
    of the next-step queue, touching nothing else. *)
Theorem inbox_steer_moves event i i' :
  event_type event = "agent/inbox/spliced" →
  get_str "action" (ev_data event) = Some "steer" →
  Inbox.apply i event = Ok i' →
  ∃ before m m' after,
    followups i = before ++ m :: after ∧ followups i' = before ++ after ∧
    steps i' = steps i ++ [m'] ∧ m_id m' = m_id m ∧ message_eqb m' m = true.
Proof. apply steer_moves. Qed.
End derived.

Lemma surface_provenance_witness : NoDup (surface_seqs (state_of interrupted)).
Proof. apply (surface_provenance h0 interrupted). vm_compute. reflexivity. Defined.

Lemma inbox_ids_unique_witness :
  NoDup (m_id <$> followups queued_inbox ++ steps queued_inbox).
Proof. apply (inbox_ids_unique queued). vm_compute. reflexivity. Defined.

Lemma inbox_consumes_witness :
  filter (λ m, m_id m ≠ "q1") (followups queued_inbox) = [user_message "q2" "later"].
Proof.
  symmetry.
  apply (inbox_consumes queued queued_inbox (say "q1" 2) "q1"
    (mkInbox [user_message "q2" "later"] [])); vm_compute; reflexivity.
Defined.

Lemma inbox_steer_moves_witness :
  ∃ before m m' after,
    followups queued_inbox = before ++ m :: after ∧
    [user_message "q1" "later"] = before ++ after ∧
    [user_message "q2" "later"] = [] ++ [m'] ∧ m_id m' = m_id m ∧ message_eqb m' m = true.
Proof.
  apply (inbox_steer_moves (splice "q2" "next-step" "steer" 2) queued_inbox
    (mkInbox [user_message "q1" "later"] [user_message "q2" "later"]));
    vm_compute; reflexivity.
Defined.
