(* ===== verification/ScheduleProps.v ===== *)
(** * What schedules guarantee

    The properties of schedule.rs: the log as operations on a list of reminders,
    the handlers, the driver, ids, occurrences, what is due, and the formats. *)

From S2P Require Import Prelude Json Protocol Codec Session SessionFacts Samples.
From S2P Require Import Calendar CalendarFacts Schedule ScheduleFacts ScheduleRunFacts.
From S2P Require Import ScheduleDriveFacts.

#[local] Open Scope Z_scope.

(** ** The log *)

Section log.
Context `{ProtocolWire} {S : Type} `{SessionPersistence S}.

(** C22: the schedule log implements a list of reminders.  When a session's log
    folds to a schedule, appending a change the program writes (a creation, a
    deletion, a dispatch of a one-shot or of a fixed-rate reminder) makes it
    fold to the result of the corresponding list operation: append at the end,
    remove, remove, or replace in place by the next occurrence.  A failed
    append changes nothing. *)
Theorem schedule_log_refines t c now s (b : S) r s' b' F :
  fold s = Some F → change_ok c →
  append_change t (change_data c) now s b = (r, s', b') →
  if r then fold s' = apply_change F c else s' = s.
Proof. intros Hf Hc Ha. by eapply append_change_fold in Ha as [_ Ha]. Qed.

(** ** The handlers *)

Context (nd : list ascii → option nat) `{TimeZones}.

(** Creation.  Whatever happens to a [schedule_create] call, the session is
    either untouched (and the driver is not asked to run) or its schedule is
    the old one with one new reminder at the end: well formed, under an id
    never used before in the session, with the trimmed prompt, strictly in the
    future, and at the time its one selector says.  The driver is asked to run
    only in the second case, and then the call reports that reminder. *)
Theorem create_effect t o arguments s (b : S) out F :
  fold s = Some F → create nd t o arguments s b = Some out →
  (out_session out = s ∧ out_drive out = false) ∨
  (∃ r, record_wf r ∧ (r_id r ∉ f_seen F) ∧
     r_prompt r = trim (default "" (get_str "prompt" arguments)) ∧
     o_clock o 0 < r_scheduled_ms r ∧
     selector_target (parse_selectors arguments) (o_clock o 0) (r_scheduled_ms r) (r_kind r) ∧
     fold (out_session out) = Some (mkFolded (f_active F ++ [r]) ({[ r_id r ]} ∪ f_seen F)) ∧
     (out_drive out = true → out_result out = Ok (Record_view r (o_clock o 2)))).
Proof.
  intros Hf. unfold create. case_match; [intros [= <-]; by left|].
  destruct (check_create arguments) as [prompt|] eqn:Hcheck; [|intros [= <-]; by left].
  case_match; [intros [= <-]; by left|].
  destruct (flush _ _ _) as [[[]|] b1]; [|intros [= <-]; by left].
  rewrite Hf. destruct (allocate_id F) as [id|] eqn:Hid; [|done].
  destruct (create_record _ _ _ _ _) as [[r|]|] eqn:Hr; [|intros [= <-]; by left|done].
  case_match; [intros [= <-]; by left|].
  apply allocate_from_Some in Hid as (m & -> & Hnew & _).
  apply check_create_prompt in Hcheck as [-> Hblank].
  apply create_record_Ok in Hr as (Hwf & Hrid & Hp & Hfut & Hsel); [|apply schedule_id_ok|done].
  destruct (append_change _ _ _ _ _) as [[ok s2] b2] eqn:Ha.
  apply (append_change_fold _ (Create r) _ _ _ _ _ _ F Hf Hwf) in Ha as [_ Ha].
  destruct ok; [|subst s2; intros [= <-]; by left].
  rewrite Hrid in *. simpl in Ha. rewrite Hrid, bool_decide_eq_false_2 in Ha by done.
  destruct (flush _ s2 b2) as [[[]|] b3]; intros [= <-]; right; exists r; by rewrite Hrid.
Qed.

(** Deletion.  A [schedule_delete] call leaves the session untouched or
    removes from its schedule exactly the reminder whose id was given, which
    was active; it answers that the reminder was deleted only in that case. *)
Theorem delete_effect t o arguments s (b : S) F :
  fold s = Some F →
  let id := default "" (get_str "id" arguments) in
  let out := delete_reminder t o arguments s b in
  (out_session out = s ∧
   out_result out ≠ Ok (json_object [("id", VString id); ("deleted", VBool true)])) ∨
  (is_Some (find_id id (f_active F)) ∧
   fold (out_session out) = Some (mkFolded (drop_id id (f_active F)) (f_seen F))).
Proof.
  intros Hf. simpl. unfold delete_reminder. set (id := default "" _).
  case_match; [by left|]. case_match eqn:Hid; [by left|]. case_match; [by left|].
  destruct (flush _ _ _) as [[[]|] b1]; [|by left].
  rewrite Hf. case_match eqn:Hex; [by left|]. case_match; [by left|].
  apply orb_false_iff in Hid as [Hid1 Hid2%negb_false_iff].
  destruct (append_change _ _ _ _ _) as [[ok s2] b2] eqn:Ha.
  apply (append_change_fold _ (Delete id) _ _ _ _ _ _ F Hf (conj Hid1 Hid2)) in Ha as [_ Ha].
  destruct ok; [|subst s2; by left]. right.
  apply negb_false_iff, existsb_find in Hex as [r Hr]. split; [by exists r|].
  change (apply_change F (Delete id)) with
    (_ ← find_id id (f_active F); Some (mkFolded (drop_id id (f_active F)) (f_seen F))) in Ha.
  rewrite Hr in Ha. simpl in Ha. by destruct (flush _ s2 b2) as [[[]|] b3].
Qed.

(** Creation never panics on ASCII input.  When the date and time texts of
    the [at] selector are ASCII, a [schedule_create] call returns a result on
    every path: the [unreachable!] arm is not reached, the loop that looks for
    a free id ends, and no conversion of matched digits or slice of a matched
    offset fails. *)
Theorem create_never_panics t o arguments s (b : S) :
  (∀ a l, (byte a < 128)%N → nd (a :: l) = None) →
  ascii_at arguments → is_Some (create nd t o arguments s b).
Proof.
  intros Hnd Hat. unfold create. case_match; [by eexists|].
  destruct (check_create arguments) as [prompt|] eqn:Hc; [|by eexists].
  case_match; [by eexists|]. destruct (flush _ _ _) as [[[]|] b1]; [|by eexists].
  destruct (fold s) as [F|]; [|by eexists].
  destruct (allocate_from_total (N.of_nat (size (f_seen F)) + 1) (f_seen F)) as [id Hid].
  unfold allocate_id. rewrite Hid.
  destruct (create_record_total nd id prompt arguments (o_clock o 0) Hnd Hat) as [[r|e] ->];
    [by eapply check_create_one|..|by eexists].
  case_match; [by eexists|].
  destruct (append_change _ _ _ _ _) as [[[] s2] b2]; [|by eexists].
  by destruct (flush _ _ _) as [[[]|] b3]; eexists.
Qed.
End log.

(** ** Ids *)

(** The id allocator always finds an id, whatever ids the log used before,
    and it is the first unused [schedule-<n>] from one more than their number. *)
Theorem allocate_id_fresh F :
  ∃ n, allocate_id F = Some (schedule_id n) ∧ (schedule_id n ∉ f_seen F) ∧
       (N.of_nat (size (f_seen F)) < n)%N ∧
       ∀ i, (N.of_nat (size (f_seen F)) < i < n)%N → schedule_id i ∈ f_seen F.
Proof.
  destruct (allocate_from_total (N.of_nat (size (f_seen F)) + 1) (f_seen F)) as [id Hid].
  unfold allocate_id. rewrite Hid. apply allocate_from_Some in Hid as (n & -> & Hn & Hle & Hall).
  exists n. split_and!; [done|done|lia|]. intros i Hi. apply Hall. lia.
Qed.

(** ** Occurrences and due reminders *)

(** Fixed-rate reminders stay aligned with their creation and skip what was
    missed.  For a well-formed fixed-rate reminder accepted at or after its
    time, no arithmetic overflows; the occurrence reported is the latest one not
    after [accepted] and the next one is the first one after it, both whole
    numbers of intervals from the scheduled time; a next time past the year 9999
    ends the reminder. *)
Theorem every_occurrences r accepted :
  record_wf r → r_kind r = Every → r_scheduled_ms r <= accepted <= MAX_INSTANT_MS →
  ∃ i k, interval_of r = Some i ∧ 0 < i ∧ 0 <= k ∧
    let last := r_scheduled_ms r + k * i in let next := last + i in
    last <= accepted < next ∧
    every_occurrence r accepted = format_instant last ∧ is_Some (format_instant last) ∧
    match format_instant next with
    | None => every_next r accepted = Some None
    | Some at_ => ∃ r', every_next r accepted = Some (Some r') ∧ record_wf r' ∧
        r_scheduled_ms r' = next ∧ r_scheduled_at r' = at_ ∧ r_id r' = r_id r ∧
        r_prompt r' = r_prompt r ∧ r_kind r' = Every ∧ interval_of r' = Some i
    end.
Proof.
  intros Hr Hk [Hd Hm]. destruct (interval_wf r Hr Hk) as (i & Hi & Hrange).
  destruct (past_bounds r accepted i Hrange Hd) as [Hp Hb].
  pose proof (every_occurrence_eq r accepted i Hr Hi Hrange Hd Hm) as Ho.
  pose proof (every_next_eq r accepted i Hr Hi Hrange Hd Hm) as Hn.
  set (k := (accepted - r_scheduled_ms r) / i) in *. exists i, k. simpl.
  replace (r_scheduled_ms r + k * i + i) with (r_scheduled_ms r + (k + 1) * i) by lia.
  pose proof (scheduled_range r Hr) as Hs.
  split_and!; [done|lia|done|lia|lia|done|apply format_total; nia|].
  destruct (format_instant (r_scheduled_ms r + (k + 1) * i)) as [at_|]; simpl in Hn; [|done].
  eexists. split; [done|]. apply every_next_wf in Hn as [Hn _]; [|done]. done.
Qed.

(** What the driver decides.  A due one-shot reminder, the earliest of
    them, goes first; without one, every due fixed-rate reminder goes in one
    batch, in time order; without either, nothing is due and the timer is set
    for the earliest of all active reminders, if there is any. *)
Theorem decide_due_correct F now :
  match decide_due F now with
  | OneShot r => r ∈ f_active F ∧ is_every r = false ∧ r_scheduled_ms r <= now ∧
      ∀ x, x ∈ f_active F → is_every x = false → r_scheduled_ms r <= r_scheduled_ms x
  | EveryBatch rs => rs ≠ [] ∧ StronglySorted by_time rs ∧
      (∀ x, x ∈ rs ↔ x ∈ f_active F ∧ is_every x = true ∧ r_scheduled_ms x <= now) ∧
      ∀ x, x ∈ f_active F → is_every x = false → now < r_scheduled_ms x
  | Wait target =>
      (∀ x, x ∈ f_active F → now < r_scheduled_ms x) ∧
      match target with
      | None => f_active F = []
      | Some m => (∃ x, x ∈ f_active F ∧ r_scheduled_ms x = m) ∧
                  ∀ x, x ∈ f_active F → m <= r_scheduled_ms x
      end
  end.
Proof.
  unfold decide_due.
  destruct (sort_by_time (List.filter (λ r, negb _ && _) _)) as [|r l] eqn:Hone; cycle 1.
  { pose proof (sorted_head _ _ _ _ Hone) as Hmin. destruct (sorted_in _ _ _ _ Hone) as [Hr Hd].
    apply andb_true_iff in Hd as [He%negb_true_iff Hd%Z.leb_le].
    split_and!; [done..|]. intros x Hx Hxe. destruct (Z.le_gt_cases (r_scheduled_ms x) now).
    - apply Hmin; [done|]. rewrite Hxe. by apply Z.leb_le.
    - lia. }
  pose proof (sorted_nil _ _ Hone) as Hnot; simpl in Hnot. assert (∀ x, x ∈ f_active F → is_every x = false → now < r_scheduled_ms x) as Hnone.
  { intros x Hx Hxe. pose proof (Hnot x Hx) as Hf. rewrite Hxe in Hf. by apply Z.leb_gt. }
  destruct (sort_by_time (List.filter (λ r, is_every r && _) _)) as [|r l] eqn:Hev; cycle 1.
  { rewrite <-Hev. split_and!; [by rewrite Hev|apply sort_by_time_sorted| |done].
    intros x. rewrite sort_by_time_perm, elem_of_list_filter_bool, andb_true_iff.
    unfold is_due. by rewrite Z.leb_le. }
  pose proof (sorted_nil _ _ Hev) as Hnev; simpl in Hnev. assert (∀ x, x ∈ f_active F → now < r_scheduled_ms x) as Hall.
  { intros x Hx. destruct (is_every x) eqn:Hxe; [|by apply Hnone].
    pose proof (Hnev x Hx) as Hf. rewrite Hxe in Hf. by apply Z.leb_gt. }
  split; [done|]. rewrite (filter_true _ (f_active F)) by (intros; by apply Z.ltb_lt, Hall).
  pose proof (min_time_spec (f_active F)) as Hm. destruct (min_time _); [|done].
  by rewrite Forall_forall in Hm.
Qed.

(** ** The driver *)

Section driver.
Context `{ProtocolWire} {S : Type} `{SessionPersistence S}.
Context (t : token) (d : Driving) (s : Session) (b : S) (F : Folded).
Context (Hfold : fold s = Some F) (Hnow : MIN_INSTANT_MS <= d_now d <= MAX_INSTANT_MS).

(** A drive loses no reminder.  Whatever fails or is cancelled on the way,
    the schedule after a drive still holds every reminder that was not due, with
    unchanged times; it has nothing due that was not due before; and if no
    message was handed to the agent it is exactly what it was. *)
Theorem drive_loses_nothing n :
  drive t d s b = Some n →
  ∃ F', fold (n_session n) = Some F' ∧
    (∀ x, x ∈ f_active F → d_now d < r_scheduled_ms x → x ∈ f_active F') ∧
    (∀ x, x ∈ f_active F' → r_scheduled_ms x <= d_now d → x ∈ f_active F) ∧
    (n_message n = None → F' = F).
Proof using All.
  intros Hd. destruct (drive_ok t d s b F Hfold Hnow) as (n' & Hn & [(F' & Hf & Hs & Hm & _)] & _).
  rewrite Hd in Hn. injection Hn as <-.
  exists F'. split_and!; [done|..|done].
  - intros x Hx Hlt. apply (se_keep _ _ _ Hs); [done|]. by apply Z.leb_gt.
  - intros x Hx Hle. apply (se_new _ _ _ Hs); [done|]. by apply Z.leb_le.
Qed.

(** C33: the driver terminates, and stops only when there is nothing to do.  A
    drive panics in no case: both [expect]s (the current time is representable,
    every record of the batch has a latest occurrence) hold.  It asks to run
    again at once only when it has strictly reduced the number of reminders that
    are due.  With a busy agent it touches nothing and waits until the agent is
    idle; with none due it leaves the session as it was and arms the timer for
    the earliest reminder, a positive delay of at most a day.  It asks for
    nothing only when it is superseded, the agent is gone, the log cannot be
    flushed, there is no reminder, or the dispatch it set out for has failed.
    Of the waits of one generation at most one resumes. *)
Theorem drive_terminates :
  (∃ n, drive t d s b = Some n ∧
    match n_next n with
    | Some AtOnce =>
        ∃ F', fold (n_session n) = Some F' ∧ (due_count F' (d_now d) < due_count F (d_now d))%nat
    | Some WhenIdle =>
        d_agent d = Some false ∧ n_session n = s ∧ n_backend n = b ∧ n_message n = None
    | Some (OnTimer delay) =>
        n_session n = s ∧ n_message n = None ∧ due_count F (d_now d) = 0%nat ∧
        ∃ r, r ∈ f_active F ∧ Forall (λ x, r_scheduled_ms r <= r_scheduled_ms x) (f_active F) ∧
          delay = Z.min (r_scheduled_ms r - d_now d) MAX_TIMER_DELAY_MS ∧ 0 < delay
    | None =>
        d_current d 0 = false ∨ d_current d 1 = false ∨ d_agent d = None ∨
        d_agent d = Some true ∧
          (is_ok (flush (sub 0 t) s b).1 = false ∨ d_current d 2 = false ∨
           match decide_due F (d_now d) with
           | Wait _ => f_active F = []
           | OneShot r => unfinished (sub 2 (sub 1 t)) [r] n
           | EveryBatch rs => unfinished (sub 2 (sub 1 t)) rs n
           end)
    end) ∧
  ∀ o live g g' o', resume o live g = (Some g', o') →
    ow_generation o = g ∧ ow_generation o' ≠ g.
Proof using All.
  split; [|exact resume_once].
  destruct (drive_ok t d s b F Hfold Hnow) as (n & Hn & [(F' & Hf & _ & _ & Hdue)] & Ho).
  exists n. split; [done|]. unfold drive_outcome in Ho. destruct (n_next n) as [[| |delay]|].
  - eauto.
  - tauto.
  - destruct Ho as (_ & [-> ->] & target & Hw & ->). apply decide_wait in Hw as [Hz (Hlt & (r & Hr & <-) & Hall)].
    pose proof (fo_wf _ (fold_wf _ _ Hfold)) as Hwf.
    pose proof (scheduled_range r (proj1 (Forall_forall _ _) Hwf r Hr)) as Hrange.
    split_and!; [done..|]. exists r. rewrite timer_delay_eq by done. split_and!; [done..|].
    unfold MAX_TIMER_DELAY_MS. lia.
  - destruct (decide_due F (d_now d)) as [target| |] eqn:Hw; [|tauto..].
    apply decide_wait in Hw as [_ Hw]. destruct target; [|tauto].
    destruct Ho as [?|[?|[?|(? & [?|[?|?]])]]]; [tauto..|done].
Qed.
End driver.

(** ** Formats *)

(** Records survive the log.  A well-formed reminder is read back from its
    JSON as it was, and only well-formed reminders are ever read: non-blank
    trimmed id and prompt, a canonical time text, seconds within the limits of
    its kind. *)
Theorem record_roundtrip :
  (∀ r, record_wf r → decode_record (Record_value r) = Some r) ∧
  (∀ v r, decode_record v = Some r → record_wf r ∧ decode_record (Record_value r) = Some r).
Proof.
  split; [apply decode_value|]. intros v r Hv%decode_wf. by split; [|apply decode_value].
Qed.

(** Instants survive their text.  Exactly the millisecond instants from
    year 1 to year 9999 have a text, it is parsed back to the same instant, and
    the parser accepts canonical texts only: what it accepts is the text of the
    instant it returns. *)
Theorem instant_roundtrip :
  (∀ ms, is_Some (format_instant ms) ↔ MIN_INSTANT_MS <= ms <= MAX_INSTANT_MS) ∧
  (∀ ms text, format_instant ms = Some text ↔ parse_instant text = Some ms).
Proof.
  split.
  - intros ms. split; [intros [x Hx]; by eapply format_representable|apply format_total].
  - intros ms text. split; [apply parse_of_format|apply format_of_parse].
Qed.

(** A non-ASCII decimal digit in the fraction panics.  The formats are
    matched with [\d], which accepts every Unicode decimal digit, and the
    matched fraction is then parsed as an ASCII number with [expect]: the
    Arabic-Indic digit three (bytes D9 A3) after the decimal point aborts both
    parsers instead of being rejected as an invalid time. *)
Theorem unicode_fraction_panics nd :
  (∀ a l, (byte a < 128)%N → nd (a :: l) = None) →
  (∀ l, nd ("217" :: "163" :: l)%char = Some 2%nat) →
  parse_offset_instant nd "2024-01-01T00:00:00.٣Z" = None ∧
  parse_local_fields nd "2024-01-01" "00:00:00.٣" = None.
Proof.
  intros Hascii Hthree.
  assert (∀ rest, digit_char nd rest = None →
    fraction_chars nd ("." :: "217" :: "163" :: rest)%char = (Some [["217"; "163"]%char], rest)) as Hf.
  { intros rest Hrest. unfold fraction_chars, up_to_chars, lit.
    rewrite bool_decide_eq_true_2 by done. unfold digit_char at 1.
    rewrite Hthree. change (is_ascii_digit "217") with false.
    cbn -[digit_char]. by rewrite skipn_O, Hrest. }
  assert (digit_char nd ["Z"]%char = None) as Hz by (unfold digit_char; simpl; by rewrite Hascii).
  assert (∀ rest, digit_char nd rest = None → time_regex nd
    (bytes_of "00:00:00" ++ ("." :: "217" :: "163" :: rest)%char) = Some (mkTimeCaptures
      ["0"; "0"]%char ["0"; "0"]%char ["0"; "0"]%char (Some [["217"; "163"]%char]), rest)) as Ht.
  { intros rest Hrest. trans (let '(f, r) := fraction_chars nd ("." :: "217" :: "163" :: rest)%char
      in Some (mkTimeCaptures ["0"; "0"]%char ["0"; "0"]%char ["0"; "0"]%char f, r)); [done|].
    by rewrite Hf. }
  assert (∀ rest, date_regex nd (bytes_of "2024-01-01" ++ rest) =
    Some (mkDateCaptures ["2"; "0"; "2"; "4"]%char ["0"; "1"]%char ["0"; "1"]%char, rest)) as Hd
    by done.
  split.
  - assert (∃ d t z, offset_regex nd (bytes_of "2024-01-01T00:00:00.٣Z") = Some (d, t, z) ∧
      cap_fraction t = Some [["217"; "163"]%char]) as (d & t & z & Ho & Hc).
    { eexists _, _, _. split; [|shelve].
      trans (t ← time_regex nd (bytes_of "00:00:00" ++ ["."; "217"; "163"; "Z"]%char);
             z ← zone_regex nd t.2;
             Some (mkDateCaptures ["2"; "0"; "2"; "4"]%char ["0"; "1"]%char ["0"; "1"]%char, t.1, z));
        [done|]. rewrite Ht by done. done. Unshelve. done. }
    unfold parse_offset_instant. rewrite Ho, Hc. done.
  - unfold parse_local_fields.
    change (bytes_of "00:00:00.٣") with (bytes_of "00:00:00" ++ ["."; "217"; "163"]%char).
    rewrite <-(app_nil_r (bytes_of "2024-01-01")), Hd, Ht by done. done.
Qed.

(** ** Witnesses *)

Definition tea : Record_ :=
  mkRecord "schedule-1" After "tea" "1970-01-01T00:01:00.000Z" 60000 (Some 60) None.
Definition stretch : Record_ :=
  mkRecord "schedule-2" Every "stretch" "1970-01-01T00:10:00.000Z" 600000 None (Some 600).
Definition no_digit : list ascii → option nat := λ _, None.
(** The three bytes of interest of the regex crate's table. *)
Definition arabic_three (l : list ascii) : option nat :=
  match l with
  | a :: b :: _ => if bool_decide (a = "217"%char) && bool_decide (b = "163"%char) then Some 2%nat else None
  | _ => None
  end.
#[local] Instance utc_zones : TimeZones := {|
  zone := unit;
  zone_get := λ name, if String.eqb name "UTC" then Some tt else None;
  datetime := Z;
  datetime_new := calendar_millis;
  in_gap := λ _ _, false;
  earlier := λ _ ms, Some ms |}.

Definition reminders_log : list SessionEvent :=
  [schedule_event (create_data tea) 0 0; schedule_event (create_data stretch) 0 1].
Definition reminders : Folded := mkFolded [tea; stretch] {[ "schedule-2"; "schedule-1" ]}.
Definition observed : Observed := mkObserved true true (λ _, 1000).

Lemma tea_wf : record_wf tea.
Proof. split; [done|done|vm_compute; reflexivity|]. exists 60. done. Defined.
Lemma stretch_wf : record_wf stretch.
Proof. split; [done|done|vm_compute; reflexivity|]. split; [done|]. exists 600. done. Defined.
Lemma reminders_fold : fold (session_of reminders_log) = Some reminders.
Proof. vm_compute. reflexivity. Defined.

Lemma schedule_log_refines_witness :
  ∃ s', fold s' = Some (mkFolded [stretch] {[ "schedule-2"; "schedule-1" ]}).
Proof.
  destruct (append_change (S := MemorySessionPersistence) live_token
    (change_data (Delete "schedule-1")) 1000 (session_of reminders_log) (memory_of reminders_log))
    as [[r s'] b'] eqn:Ha.
  pose proof (schedule_log_refines live_token (Delete "schedule-1") 1000 _ _ r s' b' reminders
    reminders_fold (conj eq_refl eq_refl) Ha) as Hr.
  exists s'. destruct r; [exact Hr|]. vm_compute in Ha. discriminate.
Defined.

Definition create_arguments : Value :=
  json_object [("prompt", VString " walk "); ("after_seconds", json_u64 90)].

Lemma create_effect_witness :
  ∃ out, create (S := MemorySessionPersistence) no_digit live_token observed create_arguments
    (session_of reminders_log) (memory_of reminders_log) = Some out ∧ out_drive out = true ∧
    ∃ r, fold (out_session out) = Some (mkFolded [tea; stretch; r]
           ({[ r_id r ]} ∪ {[ "schedule-2"; "schedule-1" ]})) ∧ r_prompt r = "walk".
Proof.
  destruct (create (S := MemorySessionPersistence) no_digit live_token observed create_arguments
    (session_of reminders_log) (memory_of reminders_log)) as [out|] eqn:Hc;
    [|vm_compute in Hc; discriminate].
  assert (out_drive out = true) as Hd.
  { assert (out_drive <$> (create (S := MemorySessionPersistence) no_digit live_token observed
      create_arguments (session_of reminders_log) (memory_of reminders_log)) = Some true) as He
      by (vm_compute; reflexivity). rewrite Hc in He. by injection He. }
  exists out. split_and!; [done|done|].
  destruct (create_effect no_digit live_token observed create_arguments
    (session_of reminders_log) (memory_of reminders_log) out reminders reminders_fold Hc)
    as [[_ Hn]|(r & _ & _ & Hp & _ & _ & Hf & _)]; [congruence|]. exists r. by split.
Defined.

Lemma delete_effect_witness :
  fold (out_session (delete_reminder (S := MemorySessionPersistence) live_token observed
    (json_object [("id", VString "schedule-2")]) (session_of reminders_log)
    (memory_of reminders_log))) = Some (mkFolded [tea] {[ "schedule-2"; "schedule-1" ]}).
Proof.
  destruct (delete_effect live_token observed (json_object [("id", VString "schedule-2")])
    (session_of reminders_log) (memory_of reminders_log) reminders reminders_fold)
    as [[_ Hn]|[_ Hf]]; [|exact Hf].
  destruct Hn. vm_compute. reflexivity.
Defined.

Lemma create_never_panics_witness :
  is_Some (create (S := MemorySessionPersistence) no_digit live_token observed
    (json_object [("prompt", VString "x"); ("at", VString "1970-01-02T00:00:00.5+01:00")])
    (session_of reminders_log) (memory_of reminders_log)).
Proof.
  apply create_never_panics; [done|]. vm_compute. repeat constructor.
Defined.

Lemma every_occurrences_witness :
  ∃ k, 600000 + k * 600000 <= 2000000 < 600000 + k * 600000 + 600000.
Proof.
  destruct (every_occurrences stretch 2000000 stretch_wf eq_refl ltac:(done))
    as (i & k & Hi & _ & _ & Hk & _). vm_compute in Hi. injection Hi as <-. exists k. exact Hk.
Defined.

Definition driving : Driving :=
  mkDriving (λ _, true) (Some true) (λ _, true) (λ _, "text") "m9" 700000 (λ _, 700000).

(** The agent is busy. *)
Definition napping (now : Z) : Driving :=
  mkDriving (λ _, true) (Some false) (λ _, true) (λ _, "text") "m9" now (λ _, now).

Lemma driving_now : MIN_INSTANT_MS <= d_now driving <= MAX_INSTANT_MS.
Proof. split; vm_compute; discriminate. Defined.

Definition drive_result : panics Driven :=
  drive (S := MemorySessionPersistence) live_token driving (session_of reminders_log)
    (memory_of reminders_log).

Lemma drive_loses_nothing_witness :
  ∃ n F', drive_result = Some n ∧ fold (n_session n) = Some F' ∧
    ∀ x, x ∈ f_active F' → r_scheduled_ms x <= 700000 → x ∈ [tea; stretch].
Proof.
  assert (bool_decide (is_Some (n_message <$> drive_result)) = true) as Hs
    by (vm_compute; reflexivity).
  destruct drive_result as [n|] eqn:Hd; [|discriminate Hs].
  destruct (drive_loses_nothing (S := MemorySessionPersistence) live_token driving
    (session_of reminders_log) (memory_of reminders_log) reminders reminders_fold driving_now n Hd)
    as (F' & Hf & _ & Hnew & _). exists n, F'. exact (conj eq_refl (conj Hf Hnew)).
Defined.

Lemma drive_terminates_witness :
  ∃ n, drive (S := MemorySessionPersistence) live_token (napping 700000) (session_of reminders_log)
    (memory_of reminders_log) = Some n ∧ n_next n = Some WhenIdle ∧
    n_session n = session_of reminders_log.
Proof.
  destruct (drive_terminates live_token (napping 700000) (session_of reminders_log)
    (memory_of reminders_log) reminders reminders_fold driving_now) as [(n & Hn & Ho) _].
  exists n. split; [exact Hn|]. injection Hn as <-. split; [reflexivity|]. apply Ho.
Defined.

Lemma record_roundtrip_witness : decode_record (Record_value tea) = Some tea.
Proof. apply record_roundtrip, tea_wf. Defined.

Lemma instant_roundtrip_witness : parse_instant "1970-01-01T00:01:00.000Z" = Some 60000.
Proof. apply instant_roundtrip. vm_compute. reflexivity. Defined.

Lemma unicode_fraction_panics_witness :
  parse_offset_instant arabic_three "2024-01-01T00:00:00.٣Z" = None.
Proof.
  apply unicode_fraction_panics; [|done].
  intros a [|b l] Ha; [done|]. simpl. rewrite bool_decide_eq_false_2; [done|]. by intros ->.
Defined.
