(* ===== verification/ProjectionProps.v ===== *)
(** * What projections guarantee (projection.rs)

    Every snapshot, at every log point, is the fold of the callback over the
    log up to that point; observing appends, replaying and resuming from a
    checkpoint are the same as folding the whole log at once. *)

From S2P Require Import Prelude Json Protocol Codec Session SessionFacts.
From S2P Require Import Projection ProjectionFacts Samples.

(** The events a snapshot at [as_of] has folded. *)
Definition log_at (as_of : option N) (events : list SessionEvent) : list SessionEvent :=
  match as_of with None => events | Some q => up_to q events end.

(** The snapshot the fold value [v] must give. *)
Definition snapshot_of (d : ProjectionDefinition) (id : SessionId) (v : Value)
    (r : result ProjectionError ProjectionSnapshot) : Prop :=
  ∃ state, state ≡ v ∧
    match r with
    | Ok s => sn_state s = state ∧ pd_view d state = Ok (sn_view s) ∧
              sn_session_id s = id ∧ sn_key s = pd_key d
    | Err e => pd_view d state = Err e
    end.

(** Snapshots are folds.  After a session is attached, the snapshot of every
    registered projection, the latest or at any earlier log point, never panics
    and holds the fold of the callback over exactly the events up to that point
    (up to equality of JSON values), or reports the view callback's own error. *)
Theorem attach_snapshots_fold session r r' key d as_of :
  registry_wf r → callback_proper d →
  ordered (st_events (s_state session)) →
  reg_sessions r !! h_id (s_header session) = None →
  attach session r = (Ok tt, r') → reg_definitions r !! key = Some d →
  ∃ v0 v res, pd_init d (s_header session) = Ok v0 ∧
    fold_state d v0 (log_at as_of (st_events (s_state session))) = Ok v ∧
    snapshot_as_of (h_id (s_header session)) key as_of r' = Some res ∧
    snapshot_of d (h_id (s_header session)) v res.
Proof.
  intros Hwf Hd Ho Hnone Ha Hkey. set (id := h_id (s_header session)).
  destruct (attach_Ok _ _ _ Hwf Hnone Ha) as (at_ & -> & Hh & Hk).
  destruct (Hk _ _ Hkey) as (v0 & p & Hv0 & Hf & Hp). fold id. apply folded_events in Hf; [|done..|by apply Forall_true].
  assert (∃ f v, find_frame as_of (ps_frames p) = Some f ∧
    fold_state d v0 (log_at as_of (st_events (s_state session))) = Ok v ∧ fr_state f ≡ v)
    as (f & v & Hff & Hv & Hfv).
  { destruct Hf as [_ (v & Hv & Hpv) (f & Hl & Hfs & _) Hfr]. destruct as_of as [q|].
    - by apply Hfr.
    - exists f, v. by rewrite Hfs. }
  exists v0, v, (view ← pd_view d (fr_state f);
    Ok (mkSnapshot id key (ps_state_version p) (fr_as_of_seq f) (fr_state f) view)).
  unfold snapshot_as_of, definition. simpl. rewrite lookup_insert_eq, Hp, Hff, Hkey, Hh. simpl. split_and!; [done..|].
  exists (fr_state f). split; [done|]. rewrite (Hwf _ _ Hkey).
  by destruct (pd_view d (fr_state f)).
Qed.

(** Live observation is replay.  Attaching a session and then observing
    later events one by one gives the same session states, frames and cursors
    as attaching the longer session at once. *)
Theorem observed_is_replayed session session' more r r1 r2 :
  s_header session' = s_header session →
  st_events (s_state session') = st_events (s_state session) ++ more →
  reg_sessions r !! h_id (s_header session) = None →
  attach session r = (Ok tt, r1) →
  apply_events (h_id (s_header session)) more r1 = (Ok tt, r2) →
  attach session' r = (Ok tt, r2).
Proof.
  intros Hh He Hnone. unfold attach, replay_locked. rewrite Hh, He, Hnone.
  destruct (reg_shutdown r) eqn:Hsd; [done|].
  destruct (initial_projections (s_header session) r) as [m|]; [|done].
  rewrite apply_events_app.
  destruct (apply_events _ (st_events (s_state session)) _) as [[[]|] ra]; [|done].
  intros [= <-].
  change (mkRegistry (reg_definitions ra) (reg_sessions ra) ?l (reg_shutdown ra))
    with (set_observed l ra).
  rewrite apply_events_observed.
  destruct (apply_events _ more ra) as [[[]|] rb] eqn:Hb; [|done]. intros [= <-].
  by rewrite (apply_events_keeps_observed _ _ _ _ _ Hb).
Qed.

(** A lagging observer loses nothing and duplicates nothing.  Replaying a
    session whose log every projection has already folded succeeds and changes
    nothing, so an observer that falls behind may always replay. *)
Theorem replay_idempotent session r r' :
  registry_wf r → ordered (st_events (s_state session)) →
  reg_sessions r !! h_id (s_header session) = None →
  attach session r = (Ok tt, r') →
  replay_locked session r' = (Ok tt, r') ∧ observe session Lagged r' = r'.
Proof.
  intros Hwf Ho Hnone Ha.
  assert (replay_locked session r' = (Ok tt, r')) as Hr; [|unfold observe; by rewrite Hr].
  destruct (attach_Ok _ _ _ Hwf Hnone Ha) as (at_ & -> & Hh & Hk).
  eapply apply_events_seen; [apply lookup_insert_eq|].
  intros e key p d He Hp Hd. destruct (Hk _ _ Hd) as (v & p' & _ & Hf & Hp').
  simplify_eq. eapply seen_all; [done| |done]. by eapply fold_step_last.
Qed.

(** Checkpoints are exact.  A checkpoint taken when the log was [events]
    and restored when the log has grown by [more] (in any registry where the
    session is attached and the definition is unchanged) yields the fold of the
    whole log, although it replays only the events after the last state change. *)
Theorem restore_checkpoint_exact session session' more r r1 key d c r2 r3 :
  registry_wf r → callback_proper d →
  s_header session' = s_header session →
  st_events (s_state session') = st_events (s_state session) ++ more →
  ordered (st_events (s_state session')) →
  reg_sessions r !! h_id (s_header session) = None →
  attach session r = (Ok tt, r1) → reg_definitions r !! key = Some d →
  checkpoint (h_id (s_header session)) key r1 = Some (Ok c) →
  registry_wf r2 → reg_definitions r2 !! key = Some d →
  restore session' c r2 = (Ok tt, r3) →
  ∃ v0 v p, pd_init d (s_header session) = Ok v0 ∧
    fold_state d v0 (st_events (s_state session')) = Ok v ∧
    projection_of r3 (h_id (s_header session)) key = Some p ∧ ps_state p ≡ v.
Proof.
  intros Hwf Hd Hh He Ho Hnone Ha Hkey Hc Hwf2 Hkey2 Hres.
  destruct (attach_Ok _ _ _ Hwf Hnone Ha) as (at_ & -> & Hath & Hk).
  destruct (Hk _ _ Hkey) as (v0 & p & Hv0 & Hf & Hp).
  pose proof (fold_step_version _ _ _ _ Hf) as Hver.
  rewrite He in Ho. destruct (ordered_app _ _ Ho) as [Ho1 Hlt].
  apply folded_events in Hf; [|done..|by apply Forall_true].
  eapply checkpoint_Ok in Hc as (f & Hl & Hc); [|apply lookup_insert_eq|done]. subst c.
  pose proof (folded_top _ _ _ _ _ Hf Hl) as Htop.
  apply (restore_Ok _ _ _ _ d) in Hres as (p' & Hp' & Hf'); [|done..|by rewrite Hh, Hath|done].
  simpl in Hp', Hf'. rewrite Hh in Hp'.
  rewrite He in Hf'. apply folded_from in Hf'; [|done..].
  destruct Hf' as [_ (v & Hv & Hpv) _ _]. simpl in Hv. rewrite He.
  destruct (fr_as_of_seq f) as [a|].
  - destruct Htop as ((e & Hin & ->) & w & Hw & Hfw).
    assert (fold_state d v0 (st_events (s_state session) ++ more) =
      fold_state d w (filter (after (Some (ev_seq e))) (st_events (s_state session) ++ more)))
      as Hsplit.
    { rewrite (ordered_split (ev_seq e) _ Ho) at 1. rewrite fold_state_app.
      rewrite up_to_app_later, Hw; [done|]. apply Forall_forall. intros x Hx. by apply Hlt. }
    pose proof (fold_state_proper d _ _ (filter (after (Some (ev_seq e)))
      (st_events (s_state session) ++ more)) Hd Hfw) as Hequiv.
    rewrite Hv, <-Hsplit in Hequiv. inversion Hequiv as [? v' Hvv Hl1 Hl2|]; subst.
    exists v0, v', p'. split_and!; [done..|]. etrans; [exact Hpv|exact Hvv].
  - rewrite filter_Forall in Hv by by apply Forall_true. rewrite Htop in Hv. by exists v0, v, p'.
Qed.

(** Unusable checkpoints.  A checkpoint of another session or version, or
    one that ends before the retained floor, is refused with the floor it would
    need and leaves the registry as it was; at floor zero it is ignored: the
    outcome is the same for any two such checkpoints. *)
Theorem unusable_checkpoint session c floor r d :
  let id := h_id (s_header session) in
  let foreign c := cp_session_id c ≠ id ∨ cp_state_version c ≠ pd_state_version d in
  reg_definitions r !! cp_key c = Some d →
  ((foreign c ∧ floor ≠ 0%N) ∨ (¬ foreign c ∧ (checkpoint_next c < floor)%N) →
   restore_floor session c floor r =
     (Err (EFullRereadRequired id (cp_key c) floor), r)) ∧
  (∀ c', foreign c → foreign c' → cp_key c' = cp_key c →
   restore_floor session c 0 r = restore_floor session c' 0 r).
Proof.
  intros id foreign Hd.
  assert (∀ c, negb (String.eqb (cp_session_id c) id)
      || negb (cp_state_version c =? pd_state_version d)%N = true ↔ foreign c) as Hf.
  { intros x. unfold foreign. rewrite orb_true_iff, !negb_true_iff, String.eqb_neq, N.eqb_neq.
    done. }
  unfold restore_floor, definition. split.
  - rewrite Hd. simpl. fold id. intros [[Hc%Hf Hfl]|[Hc Hlt]].
    + rewrite Hc. by destruct (N.eqb_spec floor 0).
    + rewrite <-Hf, not_true_iff_false in Hc. rewrite Hc.
      by rewrite (proj2 (N.ltb_lt _ _) Hlt).
  - intros c' Hc%Hf Hc'%Hf ->. rewrite Hd. simpl. fold id. by rewrite Hc, Hc'.
Qed.

(** Log points before a checkpoint are gone.  Once a projection has been
    restored from a checkpoint taken at sequence number [a], asking for any
    earlier log point hits the [expect] on a missing frame. *)
Theorem as_of_before_checkpoint_panics session c r r' d a q :
  registry_wf r → reg_definitions r !! cp_key c = Some d →
  cp_session_id c = h_id (s_header session) → cp_state_version c = pd_state_version d →
  cp_as_of_seq c = Some a → (q < a)%N →
  restore session c r = (Ok tt, r') →
  as_of_seq (h_id (s_header session)) (cp_key c) q r' = None.
Proof.
  intros Hwf Hd Hid Hver Ha Hq Hr.
  apply (restore_Ok _ _ _ _ d) in Hr as (p & Hp & Hf); [|done..].
  assert (not_before a p) as Hnb.
  { eapply fold_not_before, Hf. unfold checkpoint_projection. rewrite Ha.
    split; simpl; [eauto|]. repeat constructor. simpl. eauto. }
  unfold as_of_seq, snapshot_as_of. unfold projection_of in Hp.
  destruct (reg_sessions r' !! _) as [at_|]; [|done]. simpl in Hp. rewrite Hp.
  by rewrite (find_frame_not_before a q p).
Qed.

(** ** Witnesses: the text of the last user message *)

Definition last_said : ProjectionDefinition :=
  mkDefinition "said" 1 (λ _, Ok VNull)
    (λ v e, if String.eqb (event_type e) "user/message"
            then Ok (json_option id (get "id" (ev_data e))) else Ok v)
    Ok.

Lemma last_said_proper : callback_proper last_said.
Proof. intros v w e Hvw. simpl. case_match; by constructor. Defined.

Definition projected : ProjectionRegistry := (register last_said ProjectionRegistry_new).2.

Lemma projected_wf : registry_wf projected.
Proof.
  intros k d Hk.
  change (reg_definitions projected) with ({["said" := last_said]} : gmap string _) in Hk.
  by apply lookup_singleton_Some in Hk as [<- <-].
Defined.

Definition log1 : list SessionEvent := [turn_start 0; say "m1" 1].
Definition log2 : list SessionEvent := [step_start 2; say "m2" 3].

Lemma log_ordered : ordered (log1 ++ log2).
Proof. repeat constructor. Defined.
Lemma log1_ordered : ordered log1.
Proof. repeat constructor. Defined.

Definition attached1 : ProjectionRegistry := (attach (session_of log1) projected).2.

Lemma attach_snapshots_fold_witness :
  ∃ v0 v res, Ok (E := ProjectionError) VNull = Ok v0 ∧
    fold_state last_said v0 (up_to 0 log1) = Ok v ∧
    snapshot_as_of "s1" "said" (Some 0%N) attached1 = Some res ∧
    snapshot_of last_said "s1" v res.
Proof.
  apply (attach_snapshots_fold (session_of log1) projected attached1 "said" last_said (Some 0%N)).
  - apply projected_wf.
  - apply last_said_proper.
  - apply log1_ordered.
  - reflexivity.
  - vm_compute. reflexivity.
  - reflexivity.
Defined.

Definition attached2 : ProjectionRegistry := (apply_events "s1" log2 attached1).2.

Lemma observed_is_replayed_witness :
  attach (session_of (log1 ++ log2)) projected = (Ok tt, attached2).
Proof.
  apply (observed_is_replayed (session_of log1) (session_of (log1 ++ log2)) log2 projected
    attached1); try reflexivity; vm_compute; reflexivity.
Defined.

Lemma replay_idempotent_witness : observe (session_of log1) Lagged attached1 = attached1.
Proof.
  apply (replay_idempotent (session_of log1) projected attached1).
  - apply projected_wf.
  - apply log1_ordered.
  - reflexivity.
  - vm_compute. reflexivity.
Defined.

Definition said_checkpoint : ProjectionCheckpoint :=
  mkCheckpoint "s1" "said" 1 (Some 1%N) (VString "m1").
Definition restored2 : ProjectionRegistry :=
  (restore (session_of (log1 ++ log2)) said_checkpoint attached2).2.

Lemma restore_checkpoint_exact_witness :
  ∃ v0 v p, Ok (E := ProjectionError) VNull = Ok v0 ∧
    fold_state last_said v0 (log1 ++ log2) = Ok v ∧
    projection_of restored2 "s1" "said" = Some p ∧ ps_state p ≡ v.
Proof.
  apply (restore_checkpoint_exact (session_of log1) (session_of (log1 ++ log2)) log2
    projected attached1 "said" last_said said_checkpoint attached2 restored2).
  - apply projected_wf.
  - apply last_said_proper.
  - reflexivity.
  - vm_compute. reflexivity.
  - apply log_ordered.
  - reflexivity.
  - vm_compute. reflexivity.
  - reflexivity.
  - vm_compute. reflexivity.
  - apply projected_wf.
  - reflexivity.
  - vm_compute. reflexivity.
Defined.

Lemma unusable_checkpoint_witness :
  restore_floor (session_of log1) (mkCheckpoint "other" "said" 1 None VNull) 1 attached1 =
    (Err (EFullRereadRequired "s1" "said" 1), attached1).
Proof.
  apply (unusable_checkpoint (session_of log1) (mkCheckpoint "other" "said" 1 None VNull) 1
    attached1 last_said).
  - reflexivity.
  - left. split; [left|]; discriminate.
Defined.

Lemma as_of_before_checkpoint_panics_witness : as_of_seq "s1" "said" 0 restored2 = None.
Proof.
  apply (as_of_before_checkpoint_panics (session_of (log1 ++ log2)) said_checkpoint attached2
    restored2 last_said 1 0); try reflexivity.
  apply projected_wf.
Defined.
