(* ===== verification/GoalProps.v ===== *)
(** * Goals: properties

    The ledger against the log, the life of a goal, the numbering of its
    rounds, the end of the retry loop, and what a refused event does. *)

From S2P Require Import Prelude Json Protocol Codec Session SessionFacts Samples.
From S2P Require Import Goal GoalFacts GoalWriteFacts ServiceCodec GoalLedgerFacts.

#[local] Open Scope N_scope.

(** ** Concrete goals *)

Abbreviation MemoryWorld := (World MemorySessionPersistence).

Definition quiet_env (clock : N) : Env MemorySessionPersistence :=
  mkEnv true (λ _, clock) "u1" (λ _ s b, (s, b)).

Lemma quiet_appends clock : others_append (quiet_env clock).
Proof. intros i s b Hs. split; [done|]. exists []. by rewrite app_nil_r. Qed.

(** The world a method leaves; of no interest when it has none. *)
Definition after {A} (m : Goals MemorySessionPersistence A) (w : MemoryWorld) : MemoryWorld :=
  match m w with Some (_, w') => w' | None => w end.
Definition answer {A} (m : Goals MemorySessionPersistence A) (w : MemoryWorld) :
    option (result GoalError A) := fst <$> m w.

Definition goal_world0 : MemoryWorld :=
  mkWorld GoalState_default (session_of []) (memory_of []).
Definition create_tea : Goals MemorySessionPersistence GoalSnapshot :=
  create 2 live_token (quiet_env 7) "make tea" (Some 3).
Definition created : MemoryWorld := after create_tea goal_world0.

Definition tea_ref (revision : N) : GoalRef := mkGoalRef "goal-u1" revision.
Definition tea_driving : GoalDriving := mkGoalDriving true (λ _, true) "r1" (λ _, "tea").
Definition driven : MemoryWorld := after (drive 2 live_token (quiet_env 8) tea_driving) created.
Definition edit_tea : Goals MemorySessionPersistence GoalSnapshot :=
  edit 2 live_token (quiet_env 9) (tea_ref 1) (Some "make green tea") None.
Definition edited : MemoryWorld := after edit_tea driven.

(** The agent takes the queued round and logs it. *)
Definition log_round (revision round : N) (w : MemoryWorld) : MemoryWorld :=
  let seq := N.of_nat (length (st_events (s_state (w_session w)))) in
  let '(_, s, b) := append live_token
    (surface_event "user/message" seq
       (to_value (goal_message tea_driving (tea_ref revision) round "make tea" 3)))
    (w_session w) (w_backend w) in
  mkWorld (w_goal w) s b.

Example create_runs : answer create_tea goal_world0 =
  Some (Ok (mkGoal (tea_ref 1) Active "make tea" 3 false)).
Proof. vm_compute. reflexivity. Qed.
Example edit_runs : answer edit_tea driven =
  Some (Ok (mkGoal (tea_ref 2) Active "make green tea" 3 false)).
Proof. vm_compute. reflexivity. Qed.
Example driven_log : length (st_events (s_state (w_session driven))) = 2%nat.
Proof. vm_compute. reflexivity. Qed.
Example round_logged :
  length (st_events (s_state (w_session (log_round 1 1 driven)))) = 3%nat.
Proof. vm_compute. reflexivity. Qed.
Example stale_logged :
  GoalService_new true (w_session (log_round 1 1 edited)) = Err GStale.
Proof. vm_compute. reflexivity. Qed.

(** ** The ledger and the log *)

Section service.
Context `{ProtocolWire, GoalWire} {S : Type} `{SessionPersistence S}.
Context `{!WireLaw GoalChange (λ c, gc_version c ≤ 255)}.

(** C34: the ledger is a replay.  From the construction of the service on,
    whatever methods run under whatever cancellations, clocks and budgets, with
    other tasks appending to the session in between, and whether the methods
    succeed or fail: the durable part of the ledger is exactly what replaying
    the observed prefix of the session's log gives, and it is well formed. *)
Theorem goal_ledger_in_step live session s (b : S) w :
  session_wf session → GoalService_new live session = Ok s →
  rtc goal_step (mkWorld s session b) w →
  ledger_wf (w_goal w) ∧
  ∃ r, foldM apply_goal_event GoalState_default
         (take (gs_observed_events (w_goal w)) (st_events (s_state (w_session w)))) = Ok r ∧
       w_goal w ≡ r.
Proof using All.
  intros Hwf Hs Hsteps. assert (in_step w) as [_ Hw].
  { pose proof (new_in_step live session s b Hwf Hs) as Hi.
    clear Hs Hwf. induction Hsteps as [|x y z Hxy _ IH]; [done|]. by apply IH, (step_in_step x). }
  split; [by eapply synced_ledger|apply Hw].
Qed.

(** Writes end.  When the other tasks stop appending after the first [k]
    rounds, [k] + 2 rounds of the retry loop are enough, whatever the back end
    answers, as long as the gaps it reports are about the event it was given. *)
Theorem write_loop_terminates k fuel t (env : Env S) expected g op reason w :
  others_append env → gaps_report_event (S := S) → in_step w →
  (∀ j s b, (2 * k ≤ j)%nat → e_others env j s b = (s, b)) → (k + 2 ≤ fuel)%nat →
  is_Some (write_loop fuel 0 t env expected g op reason w).
Proof.
  intros He Hg Hi Hq Hf. by eapply (write_loop_ends t env expected g op reason He k).
Qed.
End service.

Lemma memory_gaps : gaps_report_event (S := MemorySessionPersistence).
Proof.
  intros t id event b b' e a. cbn. unfold memory_append.
  destruct (check_cancellation _) as [u|err] eqn:Hc.
  2:{ unfold check_cancellation in Hc. intros [= -> _]. by case_match; simplify_eq. }
  cbn [mbind result_bind]. unfold protocol.
  destruct (SessionEvent_validate event); [|done]. cbn [map_err mbind result_bind].
  destruct (b !! id) as [x|]; [|done]. cbn [ok_or mbind result_bind].
  destruct (next_seq _) as [n|err] eqn:Hn.
  2:{ unfold next_seq in Hn. intros [= -> _]. destruct (last _) as [y|]; [|done].
      by destruct (u64_checked_add _ _). }
  cbn [mbind result_bind]. destruct (negb _); [by intros [= _ <- _]|done].
Qed.

Lemma goal_world0_steps w : rtc goal_step created w → rtc goal_step goal_world0 w.
Proof.
  intros Hw. eapply rtc_l; [|exact Hw].
  eapply (step_method (quiet_env 7) create_tea goal_world0); [apply quiet_appends|constructor|].
  vm_compute. reflexivity.
Qed.

Lemma empty_session_wf : session_wf (session_of []).
Proof. split; [vm_compute; reflexivity|]. by exists []. Qed.

Lemma goal_ledger_in_step_witness : ledger_wf (w_goal created).
Proof.
  apply (goal_ledger_in_step true (session_of []) GoalState_default (memory_of []) created).
  - apply empty_session_wf.
  - vm_compute. reflexivity.
  - apply goal_world0_steps. constructor.
Defined.

Definition write_tea_loop : Goals MemorySessionPersistence GoalSnapshot :=
  write_loop 2 0 live_token (quiet_env 7) None (mkGoal (tea_ref 1) Active "make tea" 3 false)
    OpCreate None.
Lemma write_loop_terminates_witness : is_Some (write_tea_loop goal_world0).
Proof.
  apply (write_loop_terminates (S := MemorySessionPersistence) 0 2 live_token (quiet_env 7)).
  - apply quiet_appends.
  - apply memory_gaps.
  - apply (new_in_step true); [apply empty_session_wf|vm_compute; reflexivity].
  - done.
  - lia.
Defined.

(** ** The life of a goal *)

Section life.
Context `{ProtocolWire, GoalWire}.

(** The ledger refines the life of a goal.  Whatever events an accepted
    log holds, each goal goes through moves of [goal_move] only: created active
    at revision one, then each change is the next revision, in a transition its
    operation allows.  So revisions only grow, two snapshots of one revision
    are the same, a complete goal stays complete, and a cleared one never
    changes again. *)
Theorem goal_lifecycle events more s s' id :
  foldM apply_goal_event GoalState_default events = Ok s →
  foldM apply_goal_event GoalState_default (events ++ more) = Ok s' →
  rtc goal_move None (gs_goals s !! id) ∧ rtc goal_move (gs_goals s !! id) (gs_goals s' !! id) ∧
  ∀ g, gs_goals s !! id = Some g → ∃ g', gs_goals s' !! id = Some g' ∧ later g g'.
Proof.
  intros Hs Hs'. rewrite foldM_app, Hs in Hs'. cbn [mbind result_bind] in Hs'.
  pose proof (replay_wf _ _ _ default_wf Hs) as Hwf.
  pose proof (replay_moves _ _ _ id default_wf Hs) as Hfirst.
  pose proof (replay_moves _ _ _ id Hwf Hs') as H2.
  split_and!; [exact Hfirst|done|]. intros g Hg. rewrite Hg in H2.
  destruct (moves_some _ _ H2) as [g' Hg']. exists g'. split; [done|].
  rewrite Hg' in H2. by apply moves_later.
Qed.

(** Rounds are numbered.  In an accepted log the goal rounds of a goal
    carry the numbers 1, 2, 3, ... in order, without gaps or repetitions, at
    most [MAX_SAFE_INTEGER] of them, and the ledger's counter of a goal that is
    not cleared is how many there were. *)
Theorem goal_rounds_numbered events s id :
  foldM apply_goal_event GoalState_default events = Ok s →
  let rounds := rounds_of id events in
  rounds = N.of_nat <$> seq 1 (length rounds) ∧ N.of_nat (length rounds) ≤ MAX_SAFE_INTEGER ∧
  ∀ t, gs_times s !! id = Some t → gt_rounds_started t = N.of_nat (length rounds).
Proof.
  intros Hs rounds.
  destruct (replay_counted _ _ _ _ default_wf counted_default Hs id) as (Hn & Hm & Ht & _).
  split_and!; [done|done|]. intros t Hti. by rewrite Hti in Ht.
Qed.

(** C35: a refused event is final.  Once the log holds an event that the ledger
    refuses, wherever it stands in it, no service can be built over the log and
    no ledger that has not observed the event yet can be synchronised with
    it: both report the event's error, whatever else was or will be logged. *)
Theorem refused_event_poisons events e more r err session s :
  foldM apply_goal_event GoalState_default events = Ok r → apply_goal_event r e = Err err →
  st_events (s_state session) = events ++ e :: more →
  synced session s → (gs_observed_events s ≤ length events)%nat →
  GoalService_new true session = Err err ∧ sync session s = Err err.
Proof.
  intros Hr He Hlog (_ & r0 & Hr0 & Heq) Hle. split.
  - unfold GoalService_new. cbn [negb]. rewrite Hlog, foldM_app, Hr. cbn [mbind result_bind foldM].
    by rewrite He.
  - unfold sync. rewrite Hlog, length_app in *. cbn [length] in *.
    rewrite (proj2 (Nat.ltb_ge _ _)), (proj2 (Nat.eqb_neq _ _)) by lia.
    rewrite take_app_le in Hr0 by lia. rewrite drop_app_le by lia.
    rewrite <-(take_drop (gs_observed_events s) events), foldM_app, Hr0 in Hr.
    cbn [mbind result_bind] in Hr. rewrite foldM_app.
    pose proof (replay_equiv (drop (gs_observed_events s) events) s r0 Heq) as Hrep.
    rewrite Hr in Hrep. destruct (foldM _ s _) as [s1|]; [|done].
    pose proof (apply_goal_event_equiv s1 r e Hrep) as Hev. rewrite He in Hev.
    cbn [mbind result_bind foldM]. destruct (apply_goal_event s1 e); [done|]. by rewrite Hev.
Qed.
End life.

Definition log_of (w : MemoryWorld) : list SessionEvent := st_events (s_state (w_session w)).
Definition replayed (w : MemoryWorld) : GoalState :=
  match foldM apply_goal_event GoalState_default (log_of w) with
  | Ok s => s | Err _ => GoalState_default end.

Definition finished : MemoryWorld :=
  after (complete 2 live_token (quiet_env 9) (tea_ref 1)) driven.

Lemma goal_lifecycle_witness :
  ∃ g', gs_goals (replayed finished) !! "goal-u1" = Some g' ∧
    later (mkGoal (tea_ref 1) Active "make tea" 3 false) g'.
Proof.
  apply (goal_lifecycle (log_of driven) (drop 2 (log_of finished)) (replayed driven)
    (replayed finished) "goal-u1"); vm_compute; reflexivity.
Defined.

Definition tea_rounds : list N := rounds_of "goal-u1" (log_of (log_round 1 1 driven)).
Lemma replayed_round :
  foldM apply_goal_event GoalState_default (log_of (log_round 1 1 driven)) =
  Ok (replayed (log_round 1 1 driven)).
Proof. vm_compute. reflexivity. Qed.

Lemma goal_rounds_numbered_witness :
  length tea_rounds = 1%nat ∧ tea_rounds = N.of_nat <$> seq 1 (length tea_rounds).
Proof.
  split; [vm_compute; reflexivity|].
  exact (proj1 (goal_rounds_numbered _ _ "goal-u1" replayed_round)).
Defined.

(** The goal is edited after its first round was queued; the agent then logs
    the queued message, which names the revision before the edit. *)
Lemma refused_event_poisons_witness :
  GoalService_new true (w_session (log_round 1 1 edited)) = Err GStale ∧
  sync (w_session (log_round 1 1 edited)) (w_goal edited) = Err GStale.
Proof.
  apply (refused_event_poisons (log_of edited)
    (nth 3 (log_of (log_round 1 1 edited)) (turn_start 0)) [] (replayed edited)).
  - vm_compute. reflexivity.
  - vm_compute. reflexivity.
  - vm_compute. reflexivity.
  - split; [vm_compute; lia|]. exists (replayed edited). split; [vm_compute; reflexivity|].
    split; vm_compute; reflexivity.
  - vm_compute. lia.
Defined.
