(* ===== verification/ApprovalProps.v ===== *)
(** * Approvals and permission presets: properties

    Decisions fail closed and are audited, the first answer is final; the durable
    facts of the presets against a specification that keeps the last well-formed
    fact of each kind. *)

From S2P Require Import Prelude Json Protocol Codec Session SessionFacts Approval ApprovalHost.
From S2P Require Import ApprovalFacts ServiceCodec Permissions Samples.

#[local] Open Scope N_scope.

(** ** Decisions *)

Section service.
Context `{ProtocolWire, ApprovalWire} {A S : Type} `{SessionPersistence S}.
Context (authority : AgentAuthority).

Abbreviation log w := (st_events (s_state (aw_session w))).

(** C32: approvals fail closed.  A request is allowed only if the agent was
    live and the same turn active when it was made, when it was asked and when
    it was decided; the request was valid and nobody cancelled it; when it was
    asked the policy was [Ask] and no hook vetoed or panicked; a registered
    answerer said yes after all those tried before it had declined; the
    question was in the session's log before it was answered, and the decision
    is the log's last event. *)
Theorem approve_fail_closed t (env : AEnv A S) request tool call reason w w' :
  approve_with_audit authority t env request tool call reason w = (AllowedOnce, w') →
  let w0 := ae_unlocked env 0 w in
  ∃ turn asked w1 before a after,
    let w2 := ae_unlocked env 1 w1 in
    ae_live env 0 = true ∧ ae_live env 1 = true ∧ ae_live env 2 = true ∧
    ApprovalRequest_validate request = Ok tt ∧
    check 0 t = false ∧ check 1 t = false ∧ check 3 t = false ∧ check 4 t = false ∧
    ae_answers_cancelled env = false ∧
    active_turn (aw_session w) = Some turn ∧ active_turn (aw_session w0) = Some turn ∧
    active_turn (aw_session w2) = Some turn ∧
    ap_policy (aw_state w0) = Ask ∧
    (∀ id hook, ap_hooks (aw_state w0) !! id = Some hook → hook request = Some None) ∧
    values_by_id (ap_answerers (aw_state w0)) ++ values_by_id (ap_host_answerers (aw_state w0)) =
      before ++ a :: after ∧
    Forall (λ x, ae_answer env x asked = Some None) before ∧
    ae_answer env a asked = Some (Some true) ∧
    ak_request asked = request ∧ ak_turn asked = turn ∧ ak_approval_id asked = ae_id env ∧
    (∃ seq prefix, log w1 = prefix ++
       [mkEvent "approval/asked" seq 0 (to_value asked) (Some true) None None]) ∧
    (∃ seq prefix, log w' = prefix ++
       [mkEvent "approval/decided" seq 0
          (to_value (mkDecision (ae_id env) turn AllowedOnce)) (Some true) None None]).
Proof.
  unfold approve_with_audit. destruct (_ || _) eqn:Hl; [done|].
  apply orb_false_iff in Hl as [Hl%negb_false_iff Hv%negb_false_iff].
  destruct (check 0 t) eqn:Hc0; [done|]. destruct (active_turn (aw_session w)) as [turn|] eqn:Ht; [|done].
  destruct (open_request _ _ _ _ _ _ _ _ _) as [[o|out] w1] eqn:Ho.
  2:{ intros [= -> ->]. apply open_request_Err in Ho as [?|?]; done. }
  apply open_request_Ok in Ho as [Hl1 Ht1 Hc1 Hp Hh Has Hr Htu Hid _ (seq & before & Hlog)].
  intros Hc. apply close_request_inv in Hc as ([?|(seq' & before' & Hlog')] & Hall & _); [done|].
  destruct (Hall eq_refl) as (Hdec & Hc4 & Hl2 & Ht2 & _).
  apply decide_request_allows in Hdec as (Hc3 & Hask & Hcan & Hhooks & Hw).
  apply waterfall_allows in Hw as (bs & a & after & Hsplit & Ha & Hb).
  exists turn, (op_asked o), w1, bs, a, after. rewrite Htu in Ht2, Hlog'. rewrite Hid in Hlog'.
  split_and!; try done; try congruence.
  - by destruct (ApprovalRequest_validate request) as [[]|].
  - intros id hook Hhook. rewrite Hr in Hhooks. rewrite Forall_forall in Hhooks. apply Hhooks.
    rewrite Hh. apply elem_of_values. by exists id.
  - by exists seq, before.
  - by exists seq', before'.
Qed.

(** Decisions are audited.  Whatever is returned, either the request was
    refused before anybody was asked, or the last event of the log is the
    decision, under the request's id and turn, with the outcome that is
    returned; if that event could not be made durable the request is rejected.
    The reservation of the request is gone in the end. *)
Theorem approve_audited t (env : AEnv A S) request tool call reason w out w' :
  approve_with_audit authority t env request tool call reason w = (out, w') →
  out ≠ AllowedOnce ∧ (w' = w ∨ ∃ turn, active_turn (aw_session w) = Some turn ∧
    ∃ r, open_request authority t env request tool call reason turn (ae_unlocked env 0 w) = (Err r, w')) ∨
  ∃ turn o w1, active_turn (aw_session w) = Some turn ∧
    open_request authority t env request tool call reason turn (ae_unlocked env 0 w) = (Ok o, w1) ∧
    (out = Rejected ∨ ∃ seq prefix, log w' = prefix ++
       [mkEvent "approval/decided" seq 0 (to_value (mkDecision (ae_id env) turn out))
          (Some true) None None]) ∧
    op_generation o ∉ ap_pending_decisions (aw_state w').
Proof.
  unfold approve_with_audit. destruct (_ || _); [intros [= <- <-]; left; auto|].
  destruct (check 0 t); [intros [= <- <-]; left; auto|].
  destruct (active_turn (aw_session w)) as [turn|] eqn:Ht; [|intros [= <- <-]; left; auto].
  destruct (open_request _ _ _ _ _ _ _ _ _) as [[o|e] w1] eqn:Ho.
  2:{ intros [= <- <-]. left. pose proof Ho as [?|?]%open_request_Err; split;
      try (by subst); right; eauto. }
  intros Hc. right. exists turn, o, w1. split; [done|]. split; [done|].
  apply open_request_Ok in Ho as [_ _ _ _ _ _ _ Htu Hid _ _].
  apply close_request_inv in Hc as (Hlog & _ & Hgone). split; [|done]. by rewrite Hid, Htu in Hlog.
Qed.
End service.

(** ** Concrete requests *)

Definition browser : AgentAuthority := mkAuthority "s1" 1 1.
Abbreviation UnitWorld := (AWorld unit MemorySessionPersistence).

Definition yes_env : AEnv unit MemorySessionPersistence :=
  mkAEnv (λ _, true) true (λ _ s b, (s, b)) (λ _ w, w) "a1" (λ _ _, Some (Some true)) false.
Definition shell : ApprovalRequest := mkRequest "shell" (VString "ls").

Definition turn_world : UnitWorld :=
  mkAWorld (mkApprovals Ask 1 ∅ {[1 := tt]} ∅ ∅) (session_of [turn_start 0]) (memory_of [turn_start 0]).
Definition approved : UnitWorld := (approve browser live_token yes_env shell turn_world).2.

Lemma approved_run :
  approve_with_audit browser live_token yes_env shell "shell" None None turn_world =
  (AllowedOnce, approved).
Proof. vm_compute. reflexivity. Qed.

Definition decided_event : SessionEvent :=
  mkEvent "approval/decided" 2 0 (to_value (mkDecision "a1" 1 AllowedOnce)) (Some true) None None.

Lemma approve_fail_closed_witness :
  ∃ seq prefix, st_events (s_state (aw_session approved)) = prefix ++
    [mkEvent "approval/decided" seq 0 (to_value (mkDecision "a1" 1 AllowedOnce)) (Some true) None None].
Proof.
  destruct (approve_fail_closed browser live_token yes_env shell "shell" None None turn_world approved
    approved_run) as (turn & asked & w1 & before & a & after & Hf).
  destruct Hf as (_ & _ & _ & _ & _ & _ & _ & _ & _ & Ht & _ & _ & _ & _ & _ & _ & _ & _ & _ & _ & _ & Hd).
  assert (turn = 1) as -> by (vm_compute in Ht; congruence). exact Hd.
Defined.

Lemma approve_audited_witness :
  ∃ o : Opened unit, op_generation o ∉ ap_pending_decisions (aw_state approved).
Proof.
  destruct (approve_audited browser live_token yes_env shell "shell" None None turn_world AllowedOnce
    approved approved_run) as [[Hne _]|(turn & o & w1 & _ & _ & _ & Hgone)];
    [by destruct Hne|by exists o].
Defined.

(** ** The host's registry *)

Section registry.
Context {H : Type}.
Abbreviation Registry := (HostApprovalRegistry H).
Abbreviation entries r := (ps_entries (hr_pending r)).

(** The registry's invariant.  In every state reachable from an empty
    registry, by any operations in any order, at most [max_pending] requests
    are on the table and at most that many relayed ones are remembered; every
    request sits under its own id; it has a sender exactly while nobody claimed
    it, no two share one, and nothing was sent over one yet; every slot belongs
    to an authority of its session. *)
Theorem registry_invariant max_pending deadline (r : Registry) :
  rtc (registry_step (λ _, True)) (with_limits max_pending deadline) r → registry_wf r.
Proof. intros Hs. eapply steps_wf; [apply with_limits_wf|exact Hs]. Qed.

(** The first valid response wins.  An accepted response was an allowance
    or a rejection, for a request that was on the table, unclaimed, before its
    deadline and under the given session and approval id, and it is what the
    waiting end receives.  Whatever happens afterwards, the waiting end never
    sees another outcome, and no response to that request is accepted any more
    or changes anything. *)
Theorem respond_first_wins now received rpc_id session approval outcome (r : Registry) x r1 :
  registry_wf r → respond now received rpc_id session approval outcome r = (x, r1) →
  rc_accepted x = true →
  is_pending now rpc_id r = true ∧ (outcome = AllowedOnce ∨ outcome = Rejected) ∧
  ∃ e c, entries r !! rpc_id = Some e ∧ pi_sender e = Some c ∧
    pending_key_from_requested (pi_requested e) = (session, approval) ∧
    ∀ r2, rtc (registry_step (λ id, id ≠ rpc_id)) r1 r2 →
      hr_sent r2 !! c = Some outcome ∧
      ∀ now' received' session' approval' outcome' x' r3,
        respond now' received' rpc_id session' approval' outcome' r2 = (x', r3) →
        rc_accepted x' = false ∧ r3 = r2.
Proof.
  intros Hwf Hr Hx. pose proof Hr as [[_ Hn]|(e & He & Hop & Hout & Hkey & Hent & _ & _ & _ & _ & Hsent)]%respond_inv;
    [congruence|].
  assert (∃ c, pi_sender e = Some c ∧ hr_sent r1 = <[c := outcome]> (hr_sent r)) as (c & Hc & Hs).
  { destruct Hsent as [[_ Hnone]|(c & ? & _ & ?)]; [exfalso|by exists c].
    unfold open_entry in Hop. rewrite (rw_sender r Hwf rpc_id e He), bool_decide_eq_true_2 in Hop;
      [done|by apply Hnone]. }
  split; [unfold is_pending; by rewrite He|]. split; [done|]. exists e, c.
  split; [done|]. split; [done|]. split; [done|]. intros r2 Hsteps.
  assert (spent rpc_id r1) as Hsp.
  { intros e' He'. rewrite Hent, lookup_insert_eq in He'. by simplify_eq. }
  assert (registry_step (λ id, id ≠ rpc_id) r r1) as Hstep by by eapply rs_respond.
  destruct (steps_kept rpc_id r1 r2 c outcome) as (_ & Hsp2 & Hs2); [by eapply step_wf|done| |done|].
  { rewrite Hs. apply lookup_insert_eq. }
  split; [done|]. intros now' received' s' a' o' x' r3. by apply respond_spent.
Qed.

(** Slots are bound to a generation.  Closing a registration removes a slot
    only if it is the one of the registration's own authority, and never
    twice; the other slots and the requests of other authorities stay as they
    are, and each open request of its own is claimed, so that no response to it
    is accepted any more, and its token cancelled. *)
Theorem close_slot_exact g (r : Registry) removed g' r' :
  close_slot g r = (removed, g', r') →
  hg_closed g' = true ∧ (close_slot g' r').1.1 = false ∧
  (removed = false → r' = r) ∧
  (removed = true →
    ∃ slot, hr_slots r !! hg_session g = Some slot ∧
      same_authority (sl_authority slot) (hg_authority g) = true ∧
      hr_slots r' = delete (hg_session g) (hr_slots r) ∧
      ∀ id e, entries r !! id = Some e →
        if same_authority (pi_generation e) (hg_authority g) then
          spent id r' ∧ (pi_claimed e = false → pi_cancellation e ∈ hr_cancelled r')
        else entries r' !! id = Some e).
Proof.
  unfold close_slot. destruct (hg_closed g) eqn:Hg.
  { intros [= <- <- <-]. by rewrite Hg. }
  destruct (hr_slots r !! hg_session g) as [slot|] eqn:Hslot; [|by intros [= <- <- <-]].
  destruct (same_authority _ _) eqn:Hsame; [|by intros [= <- <- <-]].
  intros [= <- <- <-]. split_and!; [done|done|done|]. intros _. exists slot. split_and!; try done.
  intros id e He. case_match eqn:Hown.
  - split.
    + intros e' He'. cbn in He'. rewrite lookup_fmap, He in He'. cbn in He'. rewrite Hown in He'.
      destruct (pi_claimed e) eqn:Hcl; by simplify_eq/=.
    + intros Hcl. cbn. apply elem_of_union_l, elem_of_list_to_set, list_elem_of_fmap.
      exists e. split; [done|]. apply list_elem_of_filter. rewrite Hown, Hcl. split; [done|].
      apply list_elem_of_fmap. exists (id, e). split; [done|]. by apply elem_of_btree_list.
  - cbn. rewrite lookup_fmap, He. cbn. by rewrite Hown.
Qed.
End registry.

Abbreviation UnitRegistry := (HostApprovalRegistry unit).

Definition ask_shell : ApprovalAsked := mkAsked "a1" "s1" 1 Ask shell "shell" None None.
Definition no_answerer : result ApprovalError ApprovalRegistration :=
  Ok (mkRegistration 1 RegHostAnswerer false).
Definition installed : UnitRegistry :=
  (install true true browser tt no_answerer (with_limits 2 100)).2.
Definition waiting : UnitRegistry :=
  (register_pending 5 true "rpc1" 0 0 "s1" browser ask_shell installed).2.
Definition answered : UnitRegistry :=
  (respond 6 true "rpc1" "s1" "a1" AllowedOnce waiting).2.

Lemma waiting_steps : rtc (registry_step (λ _, True)) (with_limits 2 100) waiting.
Proof.
  eapply rtc_l; [eapply (rs_install _ true true browser tt no_answerer); reflexivity|].
  eapply rtc_l; [|apply rtc_refl].
  eapply (rs_register _ 5 true "rpc1" 0 0 "s1" browser ask_shell); try reflexivity. done.
Qed.

Lemma registry_invariant_witness : registry_wf waiting.
Proof. apply (registry_invariant 2 100), waiting_steps. Defined.

Lemma waiting_wf : registry_wf waiting.
Proof. eapply steps_wf; [apply with_limits_wf|apply waiting_steps]. Qed.

Lemma respond_first_wins_witness :
  (respond 6 true "rpc1" "s1" "a1" AllowedOnce waiting).1 = receipt_accepted ∧
  (respond 7 true "rpc1" "s1" "a1" Rejected answered).2 = answered.
Proof.
  split; [vm_compute; reflexivity|].
  destruct (respond_first_wins 6 true "rpc1" "s1" "a1" AllowedOnce waiting receipt_accepted answered
    waiting_wf eq_refl eq_refl) as (_ & _ & e & c & _ & _ & _ & Hlater).
  destruct (Hlater answered (rtc_refl _ _)) as [_ Hagain].
  exact (proj2 (Hagain 7 true "s1" "a1" Rejected _ _ (surjective_pairing _))).
Defined.

Definition registration : HostApprovalRegistration := mkHostRegistration "s1" browser false.
Lemma close_slot_exact_witness :
  spent "rpc1" (close_slot registration waiting).2.
Proof.
  destruct (close_slot_exact registration waiting true (mkHostRegistration "s1" browser true)
    (close_slot registration waiting).2 eq_refl) as (_ & _ & _ & Hremoved).
  destruct (Hremoved eq_refl) as (slot & _ & _ & _ & Hentries).
  exact (proj1 (Hentries "rpc1"
    (mkPendingInteraction (mkRequested "rpc1" "s1" "a1" "shell" None None) browser 1 0 (Some 0) 105
       false) eq_refl)).
Defined.

(** ** Permission presets: properties *)

(** ** The facts of a log *)

Definition named {A} (names : list (string * A)) (s : string) : option A :=
  snd <$> List.find (λ p, String.eqb s p.1) names.

(** The fact of one kind that an event states, if it is well formed. *)
Definition sandbox_fact (event : SessionEvent) : option SandboxMode :=
  if String.eqb (event_type event) "sandbox/mode" then
    get_str "mode" (ev_data event) ≫=
      named [("read-only", ReadOnly); ("workspace-write", WorkspaceWrite);
             ("danger-full-access", DangerFullAccess)]
  else None.
Definition approval_fact (event : SessionEvent) : option ApprovalPolicy :=
  if String.eqb (event_type event) "approval/policy" then
    get_str "policy" (ev_data event) ≫= named [("ask", Ask); ("never", Never)]
  else None.
Definition preset_fact (event : SessionEvent) : option string :=
  if String.eqb (event_type event) "permission/preset" then get_str "preset" (ev_data event)
  else None.

Definition is_permission_fact (event : SessionEvent) : bool :=
  bool_decide (event_type event ∈ ["permission/preset"; "sandbox/mode"; "approval/policy"]).

(** The newer of two facts. *)
Definition newer {A} (old new : option A) : option A :=
  match new with Some a => Some a | None => old end.

Lemma apply_facts k e :
  apply k e = (is_permission_fact e,
    mkKnobs (newer (pk_preset k) (preset_fact e)) (newer (pk_sandbox k) (sandbox_fact e))
      (newer (pk_approval k) (approval_fact e))).
Proof.
  destruct k as [p s a]. unfold apply, is_permission_fact, preset_fact, sandbox_fact, approval_fact.
  destruct (String.eqb_spec (event_type e) "permission/preset") as [->|H1].
  { by destruct (get_str _ _). }
  destruct (String.eqb_spec (event_type e) "sandbox/mode") as [->|H2].
  { destruct (get_str _ _) as [m|]; [|done]. cbn. unfold named. cbn.
    by destruct (String.eqb m _); [|destruct (String.eqb m _); [|destruct (String.eqb m _)]]. }
  destruct (String.eqb_spec (event_type e) "approval/policy") as [->|H3].
  { destruct (get_str _ _) as [m|]; [|done]. cbn. unfold named. cbn.
    by destruct (String.eqb m _); [|destruct (String.eqb m _)]. }
  rewrite bool_decide_eq_false_2; [done|]. set_solver.
Qed.

Lemma last_fact {A} (f : SessionEvent → option A) events e :
  last (omap f (events ++ [e])) = newer (last (omap f events)) (f e).
Proof.
  rewrite omap_app. simpl. destruct (f e); simpl; [by rewrite last_snoc|by rewrite app_nil_r].
Qed.

(** The fold of a log keeps, for each of the three kinds, the last
    well-formed fact, whatever malformed, unknown or foreign events stand
    between and after them; only the name of a preset is kept unchecked. *)
Theorem permission_fold_last events :
  fold events = mkKnobs (last (omap preset_fact events)) (last (omap sandbox_fact events))
                  (last (omap approval_fact events)).
Proof.
  induction events as [|e events IH] using rev_ind; [done|].
  unfold fold in *. rewrite foldl_snoc, IH, apply_facts. cbn [snd pk_preset pk_sandbox pk_approval].
  by rewrite !last_fact.
Qed.

(** ** The current preset *)

Lemma describes_name k p q :
  p ∈ PRESETS → q ∈ PRESETS → describes k p = true → describes k q = true → p = q.
Proof.
  unfold describes. rewrite !andb_true_iff, !bool_decide_eq_true. intros Hp Hq [Hs Ha] [Hs' Ha'].
  unfold PRESETS in Hp, Hq. rewrite !elem_of_cons in Hp, Hq.
  destruct Hp as [->|[->|[->|[]%not_elem_of_nil]]], Hq as [->|[->|[->|[]%not_elem_of_nil]]];
    simpl in *; congruence.
Qed.

(** The recorded name does not matter. *)
Lemma current_find k :
  current k = default CUSTOM_PERMISSION_PRESET (pp_name <$> List.find (describes k) PRESETS).
Proof.
  unfold current. set (first := match List.find _ _ with Some p => _ | None => _ end).
  assert (first = default CUSTOM_PERMISSION_PRESET (pp_name <$> List.find (describes k) PRESETS))
    as Hfirst by (subst first; by destruct (List.find _ _)).
  destruct (pk_preset k ≫= preset) as [selected|] eqn:Hsel; [|done].
  destruct (describes k selected) eqn:Hd; [|done].
  apply bind_Some in Hsel as (name & _ & Hp). unfold preset in Hp.
  apply find_some in Hp as [Hp%list_elem_of_In _].
  destruct (List.find (describes k) PRESETS) as [q|] eqn:Hq.
  - apply find_some in Hq as [Hq%list_elem_of_In Hdq]. cbn. by rewrite (describes_name k selected q).
  - pose proof (find_none _ _ Hq selected) as Hn. apply list_elem_of_In in Hp. by rewrite Hn in Hd.
Qed.

Lemma elem_of_presets p :
  p ∈ PRESETS ↔ p = nth 0 PRESETS p ∨ p = nth 1 PRESETS p ∨ p = nth 2 PRESETS p.
Proof. unfold PRESETS. rewrite !elem_of_cons, elem_of_nil. cbn [nth]. tauto. Qed.

(** The preset that is reported describes the sandbox and the approval
    policy in force, and "custom" is reported exactly when none does.  So the
    recorded name of a preset never decides: whatever name was recorded, the
    same preset is reported. *)
Theorem permission_current k :
  (∀ p, p ∈ PRESETS → current k = pp_name p ↔
     pp_sandbox p = effective_sandbox k ∧ pp_approval p = effective_approval k) ∧
  (current k = CUSTOM_PERMISSION_PRESET ↔ ∀ p, p ∈ PRESETS → describes k p = false) ∧
  (∀ name, current (select_preset name k) = current k).
Proof.
  split_and!.
  - intros p Hp%elem_of_presets. rewrite current_find. unfold describes.
    destruct (effective_sandbox k), (effective_approval k), Hp as [->|[->| ->]]; cbn; split;
      try done; by intros [].
  - rewrite current_find. unfold describes.
    destruct (effective_sandbox k), (effective_approval k); cbn; split; try done.
    all: intros Hall.
    all: try (specialize (Hall (nth 0 PRESETS (mkPreset "" ReadOnly Ask "")) ltac:(set_solver)); done).
    all: try (specialize (Hall (nth 1 PRESETS (mkPreset "" ReadOnly Ask "")) ltac:(set_solver)); done).
    all: try (specialize (Hall (nth 2 PRESETS (mkPreset "" ReadOnly Ask "")) ltac:(set_solver)); done).
    all: intros p Hp%elem_of_presets; destruct Hp as [->|[->| ->]]; done.
  - intros name. by rewrite !current_find.
Qed.
