(* ===== verification/PlanningProps.v ===== *)
(** * Questions, plans and todo lists: properties *)

From S2P Require Import Tools AgentLoop AgentTurn AgentCodec.
From S2P Require Import Prelude Json Protocol Codec Session SessionFacts Samples Approval.
From S2P Require Import ApprovalHost Question QuestionFacts ToolSchema Tools Planning ServiceCodec.

#[local] Open Scope N_scope.

(** ** Answers *)

(** The first valid answer wins.  An answer is accepted only for a pending
    request of its own session and only if it answers every question in order:
    with the question's id, distinct labels the question offers, a custom text
    that is not blank, and no more than one choice unless several are allowed.
    Accepted, it is what the asking tool receives, the request is off the
    table, and no later answer or cancellation of it is accepted. *)
Theorem answer_first_wins received rpc_id session answer r x r' :
  pending_wf r → respond_answer received rpc_id session answer r = (x, r') →
  rc_accepted x = true →
  pending_wf r' ∧ is_pending rpc_id r' = false ∧
  ∃ e, qs_entries r !! rpc_id = Some e ∧ qq_session_id (pq_requested e) = session ∧
    Forall2 answers (qa_answers answer) (qq_questions (pq_requested e)) ∧
    qs_sent r' !! pq_sender e = Some (ReplyAnswered answer) ∧
    (∀ id, id ≠ rpc_id → qs_entries r' !! id = qs_entries r !! id) ∧
    (∀ received' session' answer', (respond_answer received' rpc_id session' answer' r').1
       = receipt_not_pending) ∧
    (∀ received', (respond_cancelled received' rpc_id r').1 = receipt_not_pending).
Proof.
  intros Hwf. unfold respond_answer. destruct (qs_entries r !! rpc_id) as [e|] eqn:He;
    [|by intros [= <- <-]].
  destruct (_ || _) eqn:Hb; [by intros [= <- <-]|].
  apply orb_false_iff in Hb as [Hs%negb_false_iff%String.eqb_eq Hm%negb_false_iff].
  intros (Hent & Hord & _ & Hacc & Hsent)%send_kept Hx. rewrite Hx in Hacc. subst received.
  assert (qs_entries r' !! rpc_id = None) as Hgone by (rewrite Hent; apply lookup_delete_eq).
  split; [apply (pending_wf_eq (remove_pending rpc_id r)); [by apply remove_pending_wf|done|done]|].
  split; [unfold is_pending; by rewrite Hgone|]. exists e.
  split_and!; [done|done|by apply matches_answer_iff|rewrite Hsent; apply lookup_insert_eq|..].
  - intros id Hid. rewrite Hent. simpl. by apply lookup_delete_ne.
  - intros received' session' answer'. by rewrite Hgone.
  - intros received'. unfold respond_cancelled. by rewrite Hgone.
Qed.

(** ** Plans *)

Section planning.
Context `{ProtocolWire, QuestionWire, PlanningWire} {S : Type} `{SessionPersistence S}.
Context (error_text : PlanningError → string) (session_text : SessionError → string).
Abbreviation log w := (st_events (s_state (qw_session w))).

(** The log grows by events other than changes of the mode. *)
Definition steady (w w' : QWorld S) : Prop :=
  ∃ l, log w' = log w ++ l ∧ Forall (λ e, event_type e ≠ "plan/mode") l.
Definition others_steady (env : QEnv S) : Prop :=
  (∀ i w, steady w (qe_between env i w)) ∧
  ∀ i r s b, steady (mkQWorld r s b) (mkQWorld r (qe_others env i s b).1 (qe_others env i s b).2).

Lemma steady_refl w : steady w w.
Proof using Type. exists []. by rewrite app_nil_r. Qed.
Lemma steady_trans w1 w2 w3 : steady w1 w2 → steady w2 w3 → steady w1 w3.
Proof using Type.
  intros (l1 & Hl1 & Hf1) (l2 & Hl2 & Hf2). exists (l1 ++ l2). rewrite Hl2, Hl1, app_assoc.
  split; [done|by apply Forall_app].
Qed.

Lemma steady_mode w w' : steady w w' → mode (qw_session w') = mode (qw_session w).
Proof using Type.
  intros (l & Hl & Hf). unfold mode, fold_plan_mode. rewrite Hl, foldM_app.
  destruct (foldM apply_plan_mode Normal (log w)) as [m|e]; [|done]. cbn [mbind result_bind].
  clear Hl. induction Hf as [|x l Hx _ IH]; [done|].
  assert (apply_plan_mode m x = Ok m) as Hm.
  { unfold apply_plan_mode. by rewrite (proj2 (String.eqb_neq _ _) Hx). }
  cbn [foldM]. rewrite Hm. exact IH.
Qed.

Lemma steady_append t (env : QEnv S) i kind data w r w' :
  others_steady env → kind ≠ "plan/mode" →
  append_question t env i kind data w = (r, w') → steady w w'.
Proof using Type.
  intros [_ Ho] Hk. unfold append_question.
  destruct (next_seq _) as [seq|e]; [|intros [= _ <-]; apply steady_refl].
  specialize (Ho i (qw_registry w) (qw_session w) (qw_backend w)).
  destruct (qe_others _ _ _ _) as [s b]. destruct (append _ _ s b) as [[r' s'] b'] eqn:Ha.
  intros [= _ <-]. eapply steady_trans; [destruct w; exact Ho|]. apply append_events in Ha.
  eexists. split; [exact Ha|]. destruct r'; by repeat constructor.
Qed.

Lemma steady_ask t (env : QEnv S) session call questions w r w' :
  others_steady env → ask session_text t env session call questions w = (r, w') → steady w w'.
Proof using Type.
  intros Ho. pose proof Ho as [Hb _]. unfold ask.
  destruct (check_ask _ _ _ _ _) as [[authority turn]|e]; [|intros [= _ <-]; apply steady_refl].
  destruct (register_question _ _ _ _ _ _) as [w1|e] eqn:Hr; [|intros [= _ <-]; apply Hb].
  assert (steady w w1) as Hw1.
  { eapply steady_trans; [apply (Hb 0%nat)|]. unfold register_question in Hr.
    destruct (qs_slots _ !! session); [|done]. destruct (_ || _); [done|]. injection Hr as <-.
    exists []. by rewrite app_nil_r. }
  destruct (append_question _ _ _ _ _ w1) as [[u|e] w2] eqn:Ha;
    apply steady_append in Ha; try done; cycle 1.
  { intros [= _ <-]. exact (steady_trans _ _ _ Hw1 Ha). }
  unfold finish_ask. set (w3 := qe_between env 1 _).
  assert (steady w w3) as Hw3.
  { eapply steady_trans; [exact (steady_trans _ _ _ Hw1 Ha)|].
    exact (Hb 1%nat (update_registry _ w2)). }
  destruct (append_question _ _ _ _ _ w3) as [[u'|e] w4] eqn:Hf; apply steady_append in Hf; try done;
    intros [= _ <-]; exact (steady_trans _ _ _ Hw3 Hf).
Qed.

(** Whether a step asks to leave plan mode. *)
Lemma append_outputs_exits `{LoopWire} {A} (loop : LoopEnv S A) turn step l w exits w' :
  append_outputs loop turn step l w = (Ok exits, w') →
  exits = existsb (λ x, plan_exit (to_meta x.1.2)) l.
Proof using Type.
  revert w exits. induction l as [|[[call output] seq] l IH]; intros w exits; cbn [append_outputs existsb].
  - by intros [= <- _].
  - unfold mbind, loop_bind. destruct (append_output _ _ _ _ _ _ w) as [[u|e] w1]; [|done].
    destruct (append_outputs _ _ _ l w1) as [[x|e] w2] eqn:Hl; [|done].
    intros [= <- <-]. by rewrite (IH _ _ Hl).
Qed.

(** C40: the model leaves plan mode by a reviewed plan only.  Whatever becomes of a
    call of its tool, the tool itself does not change the mode, which stays what it
    was unless another task changes it (as the user's own [/plan off] does, which
    needs no review).  The tool's way out is an output that asks the loop to
    leave the mode at the end of the step; a step leaves the mode exactly when one
    of its outputs asks so, and a failed call never does.  And the tool returns that output only if
    the session was in plan mode and the plan has a heading, the agent that asked
    was live and its turn active when it asked and when it was answered, and
    the user answered that one question with the one choice "Approve" and
    nothing else; and the answer is the last event of the log. *)
Theorem exit_plan_reviewed `{LoopWire} {A} t (env : QEnv S) routed live session call plan w r w' :
  exit_plan_tool error_text session_text t env routed live session call plan w = (r, w') →
  (others_steady env → mode (qw_session w') = mode (qw_session w)) ∧
  (∀ (loop : LoopEnv S A) turn step l w exits w',
     append_outputs loop turn step l w = (Ok exits, w') →
     exits = existsb (λ x, plan_exit (to_meta x.1.2)) l) ∧
  match r with
  | Err e => plan_exit (to_meta (handler_failure e)) = false
  | Ok output =>
      output = exit_plan_output ∧ plan_exit (to_meta output) = true ∧
      routed = true ∧ live = true ∧ mode (qw_session w) = Plan ∧ has_plan_heading plan = true ∧
      ∃ authority turn w2 answer,
        qs_slots (qw_registry w) !! session = Some authority ∧ qe_live env 0 authority = true ∧
        active_turn (qw_session w) = Some turn ∧
        qs_sent (qw_registry w2) !! qe_channel env = Some (ReplyAnswered answer) ∧
        qe_cancelled env = false ∧ active_turn (qw_session w2) = Some turn ∧
        is_live_owner env 2 session w2 = true ∧
        qa_answers answer = [mkQAnswerItem "plan-review" ["Approve"] None] ∧
        ∃ seq before, log w' = before ++
          [mkEvent "question/resolved" seq 0
             (to_value (mkQResolved (qe_rpc_id env) turn QAnswered (Some answer))) (Some true) None None]
  end.
Proof using Type.
  intros Hrun. split.
  { intros Ho. apply steady_mode. revert Hrun. unfold exit_plan_tool.
    destruct (_ ← _; _); [|intros [= _ <-]; apply steady_refl].
    destruct (ask _ _ _ _ _ _ _) as [[answer|e] w1] eqn:Ha; apply steady_ask in Ha; try done;
      [destruct (plan_approved answer)|]; by intros [= _ <-]. }
  split; [intros loop turn step l w0 exits w1; apply append_outputs_exits|].
  destruct r as [output|e]; [|done]. revert Hrun.
  unfold exit_plan_tool. destruct (_ ← _; _) as [u|e] eqn:Hpre; [|done].
  apply bind_Ok in Hpre as (v & Hr & Hv). unfold validate_exit_plan in Hv.
  destruct routed; [|done]. destruct live; [|done]. cbn [negb] in Hv.
  destruct (plan_active _) eqn:Hm; [|done]. destruct (has_plan_heading plan) eqn:Hh; [|done].
  unfold plan_active in Hm. apply bool_decide_eq_true in Hm.
  destruct (ask _ _ _ _ _ _ _) as [[answer|e] w1] eqn:Ha; [|done].
  destruct (plan_approved answer) eqn:Hap; [|done]. intros [= <- ->].
  unfold ask in Ha. destruct (check_ask _ _ _ _ _) as [[authority turn]|e] eqn:Hc; [|done].
  apply check_ask_Ok in Hc as (_ & _ & _ & Hslot & Hl & Ht).
  destruct (register_question _ _ _ _ _ _) as [w3|e]; [|done].
  destruct (append_question _ _ _ _ _ w3) as [[u'|e] w4]; [|done].
  set (w2 := qe_between env 1 _) in Ha.
  apply finish_ask_Ok in Ha as (Hcan & Hsent & _ & Ht2 & Hown & _ & Hlog).
  split_and!; try done. exists authority, turn, w2, answer. split_and!; try done.
  unfold plan_approved in Hap. destruct (qa_answers answer) as [|[i s c] [|]]; try done.
  cbn in Hap. rewrite !andb_true_iff in Hap. destruct Hap as [[Hi Hs] Hcu].
  apply String.eqb_eq in Hi. destruct s as [|x []]; try done. apply String.eqb_eq in Hs.
  apply bool_decide_eq_true in Hcu. by subst.
Qed.

End planning.

(** ** Todo lists *)

Lemma normalize_todo_idemp x : normalize_todo (normalize_todo x) = normalize_todo x.
Proof. unfold normalize_todo. cbv beta iota delta [todo_content todo_status]. by rewrite trim_trim. Qed.

Lemma normalize_from_idemp seen items items' :
  normalize_from seen items = Ok items' → normalize_from seen items' = Ok items' ∧
  length items' = length items.
Proof.
  revert seen items'. induction items as [|x items IH]; intros seen items'; cbn [normalize_from].
  { by intros [= <-]. }
  destruct (_ || _) eqn:Hb; [done|]. intros (u & Hu & (rest & Hrest & [= <-])%bind_Ok)%bind_Ok.
  apply IH in Hrest as [Hrest Hlen]. split; [|simpl; by rewrite Hlen].
  cbn [normalize_from]. rewrite normalize_todo_idemp, Hb, Hu. cbn [mbind result_bind].
  by rewrite Hrest.
Qed.

(** A normalised list is stable. *)
Lemma normalize_todos_idemp items items' :
  normalize_todos items = Ok items' → normalize_todos items' = Ok items'.
Proof.
  unfold normalize_todos. destruct (Nat.ltb_spec 256 (length items)) as [|Hl]; [done|].
  intros [Hn Hlen]%normalize_from_idemp. by rewrite Hlen, (proj2 (Nat.ltb_ge _ _)).
Qed.

Section todos.
Context `{ProtocolWire, PlanningWire} {S : Type} `{SessionPersistence S}.

Lemma append_planning_Ok t others kind data s (b : S) s' b' :
  append_planning t others kind data s b = (Ok tt, s', b') →
  ∃ seq, st_events (s_state s') =
    st_events (s_state (others s b).1) ++ [mkEvent kind seq 0 data None None None].
Proof.
  unfold append_planning. destruct (next_seq _) as [seq|e]; [|done].
  destruct (others s b) as [s1 b1]. destruct (append _ _ s1 b1) as [[r s2] b2] eqn:Ha.
  intros [= Hr <- <-]. apply append_events in Ha. destruct r; [|done]. by exists seq.
Qed.

Context `{!WireLaw TodoWrite (λ _, True)}.

(** What is written is read back.  A successful write returns the list with
    its contents trimmed, at most 256 items, distinct, none empty; and from
    then on the service and the replay of the log show exactly that list, until
    a later turn starts, which shows none. *)
Theorem todo_write_read t live others items items' s (b : S) s' b' prior :
  fold_todos (st_events (s_state (others s b).1)) = Ok prior →
  write_todos t live others items s b = (Ok items', s', b') →
  items' = normalize_todo <$> items ∧ (length items' ≤ 256)%nat ∧ NoDup (todo_content <$> items') ∧
  todos s' = items' ∧ fold_todos (st_events (s_state s')) = Ok (Some items') ∧
  ∀ e, event_type e = "turn/start" → fold_todos (st_events (s_state s') ++ [e]) = Ok None.
Proof using All.
  intros Hprior. unfold write_todos. destruct (_ ← _; _) as [n|e] eqn:Hn; [|done].
  apply bind_Ok in Hn as (u & _ & Hn).
  destruct (append_planning _ _ _ _ s b) as [[[[]|e] s1] b1] eqn:Ha; [|done]. intros [= -> <- <-].
  apply append_planning_Ok in Ha as [seq Hlog].
  assert (fold_todos (st_events (s_state s1)) = Ok (Some items')) as Hfold.
  { rewrite Hlog. unfold fold_todos in *. rewrite foldM_app, Hprior. cbn [mbind result_bind foldM].
    unfold apply_todos. cbn [event_type ev_data]. rewrite String.eqb_refl. rewrite from_to_value by done. cbn [map_err mbind result_bind tw_todos].
    by rewrite (normalize_todos_idemp _ _ Hn). }
  pose proof Hn as Hn'. unfold normalize_todos in Hn'.
  destruct (Nat.ltb_spec 256 (length items)) as [|Hl]; [done|].
  pose proof (normalize_from_idemp _ _ _ Hn') as [_ Hlen].
  assert (items' = normalize_todo <$> items ∧ NoDup (todo_content <$> items')) as [Hi Hd].
  { clear -Hn'. assert (items' = normalize_todo <$> items ∧ NoDup (todo_content <$> items') ∧
      ∀ x, x ∈ todo_content <$> items' → x ∉ (∅ : gset string)) as (? & ? & _); [|done].
    revert items' Hn'. generalize (∅ : gset string). induction items as [|x items IH];
      intros seen items'; cbn [normalize_from].
    - intros [= <-]. split; [done|]. split; [constructor|]. set_solver.
    - destruct (_ || _) eqn:Hb; [done|]. intros (u & _ & (rest & Hrest & [= <-])%bind_Ok)%bind_Ok.
      apply IH in Hrest as (-> & Hd & Hs). apply orb_false_iff in Hb as [_ Hb%bool_decide_eq_false].
      split; [done|]. rewrite !fmap_cons. split.
      + constructor; [|done]. intros Hin. apply (Hs _ Hin). set_solver.
      + intros y [->|Hy]%elem_of_cons; [done|]. specialize (Hs y Hy). set_solver. }
  split_and!; [done|lia|done|unfold todos; by rewrite Hfold|done|].
  intros e He. unfold fold_todos in *. rewrite foldM_app, Hfold. cbn [mbind result_bind foldM].
  unfold apply_todos. rewrite He. done.
Qed.
End todos.

(** ** Concrete plans *)

Abbreviation MemoryQWorld := (QWorld MemorySessionPersistence).

Definition asker : AgentAuthority := mkAuthority "s1" 1 1.
Definition plan_event (seq : N) : SessionEvent :=
  mkEvent "plan/mode" seq 0 (to_value (mkPlanModeChange true)) None None None.
Definition planning_log : list SessionEvent := [plan_event 0; turn_start 1].
Definition planning_world : MemoryQWorld :=
  mkQWorld (mkQRegistry {[ "s1" := asker ]} ∅ [] ∅ []) (session_of planning_log)
    (memory_of planning_log).
Definition approval_of_plan : AskUserQuestionAnswer :=
  mkQAnswer [mkQAnswerItem "plan-review" ["Approve"] None].
(** The browser answers while the tool waits. *)
Definition user_approves (i : nat) (w : MemoryQWorld) : MemoryQWorld :=
  if (i =? 1)%nat then
    update_registry (λ r, (respond_answer true "rpc1" "s1" approval_of_plan r).2) w
  else w.
Definition plan_env : QEnv MemorySessionPersistence :=
  mkQEnv (λ _ _, true) "rpc1" 7 false (λ _ s b, (s, b)) user_approves.
Definition plan_text : string := "# Build it".
Definition no_text {A} (_ : A) : string := "".
Definition reviewed : MemoryQWorld :=
  (exit_plan_tool no_text no_text live_token plan_env true true "s1" "c1" plan_text
     planning_world).2.

Lemma reviewed_run :
  exit_plan_tool no_text no_text live_token plan_env true true "s1" "c1" plan_text planning_world =
  (Ok exit_plan_output, reviewed).
Proof. vm_compute. reflexivity. Qed.

Lemma plan_env_steady : others_steady plan_env.
Proof.
  split.
  - intros [|[|i]] w; exists []; rewrite app_nil_r; (split; [reflexivity|constructor]).
  - intros i r s b. exists []. rewrite app_nil_r. split; [reflexivity|constructor].
Qed.

Lemma exit_plan_reviewed_witness :
  is_pending "rpc1" (qw_registry reviewed) = false ∧ mode (qw_session planning_world) = Plan ∧
  mode (qw_session reviewed) = Plan.
Proof.
  split; [vm_compute; reflexivity|].
  destruct (exit_plan_reviewed (A := unit) no_text no_text live_token plan_env true true "s1" "c1"
    plan_text planning_world (Ok exit_plan_output) reviewed reviewed_run)
    as (Hmode & _ & _ & _ & _ & _ & Hm & _).
  split; [exact Hm|]. transitivity (mode (qw_session planning_world)); [|exact Hm].
  apply Hmode. exact plan_env_steady.
Defined.

Definition asked_entry : PendingQuestion :=
  mkPendingQuestion (mkQRequested "rpc1" "s1" [plan_review plan_text]) asker 1 7.
Definition asked_registry : HostQuestionRegistry :=
  mkQRegistry {[ "s1" := asker ]} {[ "rpc1" := asked_entry ]} ["rpc1"] ∅ [].
Definition settled_registry : HostQuestionRegistry :=
  (respond_answer true "rpc1" "s1" approval_of_plan asked_registry).2.

Lemma asked_registry_wf : pending_wf asked_registry.
Proof.
  split; [apply NoDup_singleton|]. intros id. simpl.
  rewrite list_elem_of_singleton, lookup_singleton_is_Some. done.
Qed.

Lemma answer_first_wins_witness :
  is_pending "rpc1" settled_registry = false ∧
  (respond_cancelled true "rpc1" settled_registry).1 = receipt_not_pending.
Proof.
  destruct (answer_first_wins true "rpc1" "s1" approval_of_plan asked_registry receipt_accepted
    settled_registry asked_registry_wf eq_refl eq_refl) as (_ & Hp & e & _ & _ & _ & _ & _ & _ & Hc).
  exact (conj Hp (Hc true)).
Defined.

Definition written_todos : list TodoItem := [mkTodo " test " InProgress; mkTodo "ship" Pending].
Definition todo_session : Session * MemorySessionPersistence :=
  let '(_, s, b) := write_todos live_token true pair written_todos
                      (session_of [turn_start 0]) (memory_of [turn_start 0]) in (s, b).

Definition trimmed_todos : list TodoItem := [mkTodo "test" InProgress; mkTodo "ship" Pending].

Lemma todo_run :
  write_todos live_token true pair written_todos (session_of [turn_start 0])
    (memory_of [turn_start 0]) = (Ok trimmed_todos, todo_session.1, todo_session.2).
Proof. vm_compute. reflexivity. Qed.

Lemma todo_write_read_witness : todos todo_session.1 = trimmed_todos.
Proof.
  destruct (todo_write_read live_token true pair written_todos trimmed_todos
    (session_of [turn_start 0]) (memory_of [turn_start 0]) todo_session.1 todo_session.2 None
    eq_refl todo_run) as (_ & _ & _ & Ht & _).
  exact Ht.
Defined.
