(* ===== verification/ToolProps.v ===== *)
(** * The tool runtime: properties *)

From S2P Require Import Prelude Json Protocol Session Approval ToolSchema ToolFacts Tools.

#[local] Open Scope N_scope.

(** ** Arguments *)

(** C39: an accepted schema decides its arguments, by the meaning of its keywords.
    If a schema passes the check at registration, then the validation of any
    value against it never hits one of its [expect]s; it accepts exactly the
    values of the declared type, among the listed ones, that match exactly one
    of the alternatives, whose required entries are present, whose declared
    entries are accepted by their own schemas, that have no other entries if
    these are forbidden, and whose items are accepted; every other value gets an
    error that names the place at or below the given one. *)
Theorem schema_decides debug schema v path :
  validate_schema debug schema "$" = Ok tt →
  ∃ object, schema = VObject object ∧
    (validate_instance schema v path = Some (Ok tt) ∧ conforms object v ∨
     (∃ below message, validate_instance schema v path =
        Some (Err (argument_error (path +:+ below) message))) ∧ ¬ conforms object v).
Proof.
  intros Hs. assert (schema_ok debug schema) as Hok by by eexists.
  destruct (schema_ok_inv _ _ Hok) as (object & -> & Hacc). exists object. split; [done|].
  destruct (schema_always_safe debug _ Hok v path) as [Hv|(b & m & Hv)].
  - left. split; [done|]. by eapply instance_conforms.
  - right. split; [by exists b, m|]. rewrite <-(instance_conforms debug object v path) by done.
    by rewrite Hv.
Qed.

(** ** Scopes *)

(** A scope can only be narrowed.  No tool is more accessible in a narrowed
    scope than in its parent: what the parent denies stays denied, what it
    gates stays gated at least; the names to deny are denied, the names to ask
    for are gated or denied, and with a list of allowed names everything else
    that is not gated is denied.  So a child sees a part of the parent's
    schemas. *)
Theorem narrowed_never_broadens {H A R C} s r s' name (st : RuntimeState H A R C) :
  narrowed s r = Ok s' →
  rank (access s' name) ≤ rank (access s name) ∧
  (name ∈ tl_deny r → access s' name = Deny) ∧
  (name ∈ tl_ask r → access s' name ≠ Allow) ∧
  (∀ allow, tl_allow r = Some allow → name ∉ allow → name ∉ tl_ask r → access s' name = Deny) ∧
  (tl_allow r = None → name ∉ tl_deny r → name ∉ tl_ask r → access s' name = access s name) ∧
  schemas s' st ⊆ schemas s st.
Proof.
  intros Hn. split_and!.
  - by destruct (narrowed_access _ _ _ name Hn) as (_ & Hle & _).
  - intros Hin. destruct (narrowed_access _ _ _ name Hn) as (_ & _ & ->).
    rewrite bool_decide_eq_true_2 by set_solver. unfold requested_access.
    by rewrite bool_decide_eq_true_2.
  - intros Hin. destruct (narrowed_access _ _ _ name Hn) as (_ & _ & ->).
    rewrite bool_decide_eq_true_2 by set_solver. unfold requested_access.
    case_bool_decide; [done|]. by rewrite bool_decide_eq_true_2.
  - intros allow Ha Hna Hns. destruct (narrowed_access _ _ _ name Hn) as (_ & _ & ->).
    case_bool_decide; [|by rewrite Ha]. unfold requested_access. case_bool_decide; [done|].
    by rewrite bool_decide_eq_false_2, Ha, bool_decide_eq_false_2.
  - intros Ha Hd Hs. destruct (narrowed_access _ _ _ name Hn) as (_ & _ & ->).
    case_bool_decide; [|by rewrite Ha]. unfold requested_access.
    by rewrite bool_decide_eq_false_2, bool_decide_eq_false_2, Ha.
  - intros x (tool & -> & [Hacc Hin]%list_elem_of_filter)%list_elem_of_fmap.
    apply list_elem_of_fmap. exists tool. split; [done|]. apply list_elem_of_filter. split; [|done].
    intros Hd. apply Hacc.
    destruct (narrowed_access _ _ _ (td_name (rt_definition tool)) Hn) as (_ & Hle & _).
    rewrite Hd in Hle. by destruct (access s' _).
Qed.

(** ** Execution *)

Section execute.
Context {H A R C : Type}.
Context (debug : string → string) (json_text : Value → string).
Abbreviation State := (RuntimeState H A R C).
Abbreviation effect := (Effect H A R C).
Abbreviation run := (execute debug json_text).

(** The trace of a gate: nothing but questions to an approval. *)
Definition gate (effects : list effect) : Prop :=
  ∀ e, e ∈ effects → match e with Asked _ _ _ _ => True | _ => False end.

(** What a call has to pass before its handler runs. *)
Record permitted (env : TEnv H A R C) (scope : ToolScope) (context : ToolRunContext) (name : string)
    (arguments : Value) (s : State) (tool : RegisteredTool H) (asked : list effect) : Prop := {
  pm_live : check 0 (tr_cancellation context) = false;
  pm_registered : rs_tools s !! name = Some tool;
  pm_visible : access scope name ≠ Deny;
  pm_valid : validate_instance (td_parameters (rt_definition tool)) arguments "$" = Some (Ok tt);
  pm_approved : access scope name = AskAccess →
    check 1 (tr_cancellation context) = false ∧ ∃ a s0, rs_approval s = Some a ∧
    let schema := definition_schema (rt_definition tool) in
    asked = [Asked a context schema arguments] ∧
    te_approve env a context schema arguments (te_between env 0 s) = (Ok (Some true), s0);
}.

Lemma settle_Returns held context output before (s : State) x :
  settle held context output before s = Returns x →
  x = (output, before ++ notify_result context output s, s).
Proof. unfold settle. destruct held; [done|]. by intros [= <-]. Qed.

Lemma decide_approval_gate env approval context schema arguments (s : State) b effects s' :
  decide_approval env approval context schema arguments s = (b, effects, s') →
  gate effects ∧ (b = true → ∃ a, approval = Some a ∧
    effects = [Asked a context schema arguments] ∧
    te_approve env a context schema arguments s = (Ok (Some true), s')).
Proof.
  unfold decide_approval. destruct approval as [a|]; [|intros [= <- <- <-]; split; [by intros e ?%elem_of_nil|done]].
  destruct (te_approve _ _ _ _ _ _) as [r s1] eqn:Hr. intros [= <- <- <-]. split.
  - by intros e ->%list_elem_of_singleton.
  - intros Hb. exists a. split; [done|]. split; [done|].
    by destruct r as [[[]|]|].
Qed.

(** C4: a handler runs only behind every guard, and a call is settled once.  A
    finished call has notified exactly one output, the one it returns, to the
    observers of that moment, after everything else.  Either no handler ran
    and the output is an error, or exactly the handler of the tool registered
    under the name ran, once, on the given arguments, and the call was then
    permitted: cancelled neither before nor during the approval, not denied by the
    scope, its arguments accepted by the tool's schema, and, if the scope gates
    it, the approval in force was asked about just this call and said yes; the
    output is then the handler's, unless the call was cancelled meanwhile. *)
Theorem execute_guarded env scope context name arguments (s s' : State) output trace :
  run env scope context name arguments s = Returns (output, trace, s') →
  ∃ asked, gate asked ∧
    ((to_is_error output = true ∧ trace = asked ++ notify_result context output s') ∨
     ∃ tool r s1, permitted env scope context name arguments s tool asked ∧
       te_run env (td_handler (rt_definition tool)) context arguments s1 = (r, s') ∧
       output = (if check 2 (tr_cancellation context) then cancelled_output
                 else match r with Ok output => output | Err e => handler_failure e end) ∧
       trace = asked ++ Ran (td_handler (rt_definition tool)) context arguments ::
                 notify_result context output s').
Proof.
  assert (gate []) as Hnil by (by intros e ?%elem_of_nil).
  unfold execute. destruct (check 0 _) eqn:Hc0.
  { intros [= -> -> ->]%settle_Returns. exists []. split; [done|by left]. }
  destruct (rs_tools s !! name) as [tool|] eqn:Ht; [|done].
  case_bool_decide as Hd.
  { intros [= -> -> ->]%settle_Returns. exists []. split; [done|by left]. }
  destruct (validate_instance _ _ _) as [[[]|e]|] eqn:Hv; [| |done].
  2:{ intros [= -> -> ->]%settle_Returns. exists []. split; [done|by left]. }
  assert (∀ asked s1, gate asked → permitted env scope context name arguments s tool asked →
    run_handler env (rt_definition tool) context arguments asked s1 = Returns (output, trace, s') →
    ∃ r, te_run env (td_handler (rt_definition tool)) context arguments s1 = (r, s') ∧
       output = (if check 2 (tr_cancellation context) then cancelled_output
                 else match r with Ok output => output | Err e => handler_failure e end) ∧
       trace = asked ++ Ran (td_handler (rt_definition tool)) context arguments ::
                 notify_result context output s') as Hrun.
  { intros asked s1 _ _. unfold run_handler. destruct (te_run _ _ _ _ _) as [r s2].
    intros [= -> -> ->]%settle_Returns. exists r. by rewrite <-app_assoc. }
  case_bool_decide as Ha.
  - destruct (decide_approval _ _ _ _ _ _) as [[approved asked] s2] eqn:Hap.
    apply decide_approval_gate in Hap as [Hg Hyes].
    destruct (check 1 _) eqn:Hc1; [|destruct approved].
    + intros [= -> -> ->]%settle_Returns. exists asked. split; [done|by left].
    + intros Hs. exists asked. split; [done|]. right. exists tool.
      assert (permitted env scope context name arguments s tool asked) as Hp.
      { split; try done. intros _. split; [done|]. destruct (Hyes eq_refl) as (a & ? & ? & ?).
        by exists a, s2. }
      destruct (Hrun asked s2 Hg Hp Hs) as (r & ? & ? & ?). by exists r, s2.
    + intros [= -> -> ->]%settle_Returns. exists asked. split; [done|by left].
  - intros Hs. exists []. split; [done|]. right. exists tool.
    assert (permitted env scope context name arguments s tool []) as Hp by by split.
    destruct (Hrun [] _ Hnil Hp Hs) as (r & ? & ? & ?). by exists r, (te_between env 0 s).
Qed.

(** C38: which calls come back.  Over a registry that the runtime can reach, a call
    never panics in the validation of its arguments, and it returns if it was
    cancelled before or its tool is registered.  Otherwise it never returns: the
    failure for a missing tool is settled while the lock of the registry is
    held, and settling takes that lock. *)
Theorem execute_returns env scope context name arguments (s : State) :
  rtc (tool_step debug) runtime_new s →
  if check 0 (tr_cancellation context) || bool_decide (is_Some (rs_tools s !! name))
  then ∃ x, run env scope context name arguments s = Returns x
  else run env scope context name arguments s = Blocks.
Proof.
  intros Hok%reachable_ok. unfold execute. destruct (check 0 _); [by eexists|]. cbn [orb].
  destruct (rs_tools s !! name) as [tool|] eqn:Ht; [|done].
  rewrite bool_decide_eq_true_2 by by eexists.
  destruct (bool_decide _); [by eexists|].
  destruct (Hok name tool Ht) as [_ [Hs _]%definition_schema_ok].
  destruct (safe_is_Some _ _ (schema_always_safe debug _ Hs arguments "$")) as [r ->].
  destruct r as [u|e]; [|by eexists].
  assert (∀ before s1, ∃ x, run_handler env (rt_definition tool) context arguments before s1 = Returns x)
    as Hrun.
  { intros before s1. unfold run_handler. destruct (te_run _ _ _ _ _). by eexists. }
  destruct (bool_decide _); [|apply Hrun].
  destruct (decide_approval _ _ _ _ _ _) as [[approved asked] s2].
  destruct (check 1 _); [by eexists|]. destruct approved; [apply Hrun|by eexists].
Qed.
End execute.

(** ** Replacement *)

Section replace.
Context {H A R C : Type}.
Context (debug : string → string).
Abbreviation State := (RuntimeState H A R C).

Lemma notify_changes_state (env : TEnv H A R C) i changes (s : State) :
  (∀ i s, te_between env i s = s) → (notify_changes env i changes s).2 = s.
Proof.
  intros He. revert i s. induction changes as [|c changes IH]; intros i s; [done|].
  cbn [notify_changes]. specialize (IH (S i) (te_between env i s)).
  destruct (notify_changes _ _ _ _) as [effects s']. by rewrite <-He with (i := i).
Qed.

(** A registration that is not in force closes nothing. *)
Lemma close_stale env g (s : State) :
  current_registration s g = false →
  (close_registration env g s).2 = s ∧ (close_registration env g s).1.1.1 = false.
Proof. intros Hg. unfold close_registration. rewrite Hg. by destruct (tg_closed g). Qed.

(** The names of the prior registrations that are in force. *)
Lemma elem_of_removed prior (s : State) name :
  name ∈ (list_to_set (tg_name <$> filter (λ g, current_registration s g = true) prior) : gset string)
  ↔ existsb (λ g, String.eqb (tg_name g) name && current_registration s g) prior = true.
Proof.
  rewrite elem_of_list_to_set, list_elem_of_fmap, existsb_exists. split.
  - intros (g & -> & [Hc Hin]%list_elem_of_filter). exists g. split; [by apply list_elem_of_In|].
    by rewrite String.eqb_refl.
  - intros (g & Hin%list_elem_of_In & [Hn%String.eqb_eq Hc]%andb_true_iff). exists g.
    split; [done|]. by apply list_elem_of_filter.
Qed.

(** A replacement is atomic, and the replaced registrations can be dropped.
    Either nothing changes and an error is returned, or the names of the
    replacement are distinct, each of them now has its new definition, under a
    registration that is in force, the names of those prior registrations that
    were in force are gone unless they were replaced, all other tools are as
    before, and closing a prior registration afterwards removes nothing. *)
Theorem replace_swaps env prior ds (s s' : State) r effects :
  (∀ i s, te_between env i s = s) → Forall (λ g, tg_id g < rs_next_id s) prior →
  rs_next_id s + N.of_nat (length ds) ≤ U64_MAX →
  replace debug env prior ds s = (r, effects, s') →
  (∃ e, r = Err e ∧ s' = s ∧ effects = []) ∨
  ∃ gs, r = Ok gs ∧ NoDup (td_name <$> ds) ∧
    (∀ d, d ∈ ds → ∃ id, rs_tools s' !! td_name d = Some (mkRegisteredTool id d) ∧
       mkToolRegistration (td_name d) id false ∈ gs) ∧
    (∀ name, name ∉ td_name <$> ds → rs_tools s' !! name =
       if existsb (λ g, String.eqb (tg_name g) name && current_registration s g) prior
       then None else rs_tools s !! name) ∧
    (∀ g env', g ∈ prior → (close_registration env' g s').2 = s' ∧
                           (close_registration env' g s').1.1.1 = false).
Proof.
  intros Henv Hprior Hmax. unfold replace. destruct (foldM _ ∅ ds) as [names|e] eqn:Hc.
  2:{ intros [= <- <- <-]. left. by exists e. }
  apply check_replacement_fold in Hc as [Hd _]. unfold replace_locked.
  set (removed := list_to_set _). set (sorted := merge_sort name_le ds).
  assert (sorted ≡ₚ ds) as Hperm by apply merge_sort_Permutation.
  destruct (find _ sorted) as [d|]; [intros [= <- <- <-]; left; by eexists|].
  destruct (insert_tools sorted (remove_names removed s)) as [gs s1] eqn:Hi.
  pose proof (notify_changes_state env 0
    ((Removed <$> btree_set removed) ++ ((λ d, Registered (definition_schema d)) <$> sorted)) s1 Henv) as Hs.
  destruct (notify_changes _ _ _ _) as [effects' s2]. cbn in Hs. subst s2.
  intros [= <- <- <-]. right. exists gs. split; [done|]. split; [done|].
  apply insert_tools_spec in Hi as (Hnext & _ & Hother & Hin); [|by rewrite Hperm|].
  2:{ rewrite Hperm. done. }
  assert (∀ name, name ∉ td_name <$> ds → rs_tools s1 !! name =
    if existsb (λ g, String.eqb (tg_name g) name && current_registration s g) prior
    then None else rs_tools s !! name) as Hrest.
  { intros name Hname. rewrite Hother by by rewrite Hperm. cbn. pose proof (elem_of_removed prior s name) as Hr.
    fold removed in Hr. destruct (existsb _ prior).
    - apply map_lookup_filter_None. right. intros x _ Hx. by apply Hx, Hr.
    - destruct (rs_tools s !! name) as [tool|] eqn:Ht.
      + apply map_lookup_filter_Some. split; [done|]. intros Hx. by apply Hr in Hx.
      + apply map_lookup_filter_None. by left. }
  split_and!; [|done|].
  - intros d Hd'. rewrite <-Hperm in Hd'. apply list_elem_of_lookup in Hd' as [i Hd'].
    destruct (Hin i d Hd') as [Ht Hg]. eexists. split; [done|]. by eapply list_elem_of_lookup_2.
  - intros g env' Hg. apply close_stale. unfold current_registration.
    destruct (decide (tg_name g ∈ td_name <$> ds)) as [Hn|Hn].
    + rewrite <-Hperm in Hn. apply list_elem_of_fmap in Hn as (d & -> & [i Hd']%list_elem_of_lookup).
      destruct (Hin i d Hd') as [-> _]. cbn [rt_id]. apply N.eqb_neq. rewrite Forall_forall in Hprior.
      specialize (Hprior g Hg). cbn. lia.
    + rewrite Hrest by done. destruct (existsb _ prior) eqn:He; [done|].
      destruct (rs_tools s !! tg_name g) as [tool|] eqn:Ht; [|done].
      destruct (rt_id tool =? tg_id g) eqn:Hid; [|done]. rewrite <-not_true_iff_false in He. destruct He.
      apply existsb_exists. exists g. split; [by apply list_elem_of_In|].
      rewrite String.eqb_refl. unfold current_registration. by rewrite Ht.
Qed.
End replace.

(** ** A concrete runtime *)

Definition quoted (s : string) : string := "'" +:+ s +:+ "'".
Definition no_json (_ : Value) : string := "{}".
Definition echo_schema : Value :=
  json_object
    [("type", VString "object");
     ("properties", json_object
        [("mode", json_object [("type", VString "string");
                               ("enum", json_strings ["fast"; "slow"])]);
         ("items", json_object [("type", VString "array");
                                ("items", json_object [("type", VString "integer")])])]);
     ("required", json_strings ["mode"]); ("additionalProperties", VBool false)].
Definition fast : Value :=
  json_object [("mode", VString "fast"); ("items", VArray [json_u64 1; json_u64 2])].
Definition slow_extra : Value := json_object [("mode", VString "slow"); ("more", VNull)].

Lemma echo_schema_valid : validate_schema quoted echo_schema "$" = Ok tt.
Proof. vm_compute. reflexivity. Qed.

Lemma schema_decides_witness :
  ∃ object, echo_schema = VObject object ∧ conforms object fast ∧ ¬ conforms object slow_extra.
Proof.
  destruct (schema_decides quoted echo_schema fast "$" echo_schema_valid)
    as (object & He & [[_ Hc]|[(b & m & Hv) _]]); [|vm_compute in Hv; discriminate].
  destruct (schema_decides quoted echo_schema slow_extra "$" echo_schema_valid)
    as (object' & He' & [[Hv _]|[_ Hn]]); [vm_compute in Hv; discriminate|].
  exists object. split; [exact He|]. split; [exact Hc|]. assert (object' = object) as <- by congruence.
  exact Hn.
Defined.

Definition gated : ToolRestrictions := restrictions_ask "echo" (allow_only ["echo"; "read"]).
Definition gated_scope : ToolScope :=
  match narrowed root_scope gated with Ok s => s | Err _ => root_scope end.
Lemma gated_run : narrowed root_scope gated = Ok gated_scope.
Proof. vm_compute. reflexivity. Qed.

Abbreviation SmallRuntime := (RuntimeState string unit N N).
Definition echo : ToolDefinition string := mkToolDefinition "echo" "echoes" echo_schema "echo v1".
Definition echo2 : ToolDefinition string := mkToolDefinition "echo" "echoes" echo_schema "echo v2".
Definition small_env : TEnv string unit N N :=
  mkTEnv (λ _ s, s) (λ _ _ _ _ s, (Ok (Some true), s))
    (λ h _ _ s, (Ok (mkToolOutput [Text h] false VNull), s)).
Definition empty_runtime : SmallRuntime := runtime_new.
Definition echo_registration : ToolRegistration := mkToolRegistration "echo" 1 false.
Definition echo_runtime : SmallRuntime := (register quoted small_env echo empty_runtime).2.
Definition observed_runtime : SmallRuntime :=
  set_approval (Some tt) (observe_results 9 echo_runtime).2.
Definition small_call : ToolRunContext := mkToolContext "s1" "c1" live_token.

Lemma narrowed_never_broadens_witness :
  access gated_scope "write" = Deny ∧ access gated_scope "echo" ≠ Allow.
Proof.
  destruct (narrowed_never_broadens root_scope gated gated_scope "write" echo_runtime gated_run)
    as (_ & _ & _ & Hallow & _).
  destruct (narrowed_never_broadens root_scope gated gated_scope "echo" echo_runtime gated_run)
    as (_ & _ & Hask & _).
  split.
  - apply (Hallow (list_to_set ["echo"; "read"])); [reflexivity|set_solver|set_solver].
  - apply Hask. set_solver.
Defined.

Lemma echo_reachable : rtc (tool_step quoted) runtime_new observed_runtime.
Proof.
  eapply rtc_l; [eapply (ts_insert _ echo empty_runtime); vm_compute; reflexivity|].
  eapply rtc_l; [eapply (ts_results _ 9); reflexivity|].
  eapply rtc_l; [eapply (ts_approval _ (Some tt))|apply rtc_refl].
Qed.

Definition echoed : ToolOutput := mkToolOutput [Text "echo v1"] false VNull.
Definition echo_trace : list (Effect string unit N N) :=
  [Asked tt small_call (definition_schema echo) fast; Ran "echo v1" small_call fast;
   Settled 9 small_call echoed].
Lemma echo_run :
  execute quoted no_json small_env gated_scope small_call "echo" fast observed_runtime =
  Returns (echoed, echo_trace, observed_runtime).
Proof. vm_compute. reflexivity. Qed.

Lemma execute_guarded_witness :
  ∃ asked tool, permitted small_env gated_scope small_call "echo" fast observed_runtime tool asked.
Proof.
  destruct (execute_guarded quoted no_json small_env gated_scope small_call "echo" fast
    observed_runtime observed_runtime echoed echo_trace echo_run)
    as (asked & _ & [[He _]|(tool & r & s1 & Hp & _)]); [discriminate He|by exists asked, tool].
Defined.

Lemma execute_returns_witness :
  execute quoted no_json small_env root_scope small_call "missing" fast observed_runtime = Blocks.
Proof.
  exact (execute_returns quoted no_json small_env root_scope small_call "missing" fast
    observed_runtime echo_reachable).
Defined.

Definition replaced_runtime : SmallRuntime :=
  (replace quoted small_env [echo_registration] [echo2] observed_runtime).2.
Lemma replaced_run :
  replace quoted small_env [echo_registration] [echo2] observed_runtime =
  (Ok [mkToolRegistration "echo" 3 false], [], replaced_runtime).
Proof. vm_compute. reflexivity. Qed.

Lemma replace_swaps_witness :
  (close_registration small_env echo_registration replaced_runtime).2 = replaced_runtime.
Proof.
  destruct (replace_swaps quoted small_env [echo_registration] [echo2] observed_runtime
    replaced_runtime _ _ (λ _ _, eq_refl) ltac:(repeat constructor) ltac:(vm_compute; discriminate)
    replaced_run) as [(e & He & _)|(gs & _ & _ & _ & _ & Hclose)]; [discriminate He|].
  exact (proj1 (Hclose echo_registration small_env (list_elem_of_here _ _))).
Defined.
