(* ===== verification/JsonlProps.v ===== *)
(** * The JSONL back end: properties

    Appends against the map of logs that the back end promises, reads, seeded
    creation, and what an append behind a torn tail does. *)

From S2P Require Import Prelude Json Protocol Codec Session SessionFacts Jsonl JsonlFacts.
From S2P Require Import Samples JsonTextCodec.

#[local] Open Scope N_scope.

Section store.
Context `{ProtocolWire, JsonText, Compression, !CompressionLaws, Disk}.
Context (root : string) (debug : string → string).
Context (error_text : TessivumError → string) (session_text : SessionError → string).
Context (display : string → string).
Context (exact : SessionEvent → Prop) (exact_header : SessionHeader → Prop).
Context `{!JsonTextLaws exact exact_header}.
Abbreviation store := JsonlSessionPersistence.
Abbreviation log_file' := (log_file exact exact_header).
Abbreviation append' := (jsonl_append root debug error_text session_text display).
Abbreviation read_session' := (read_session root debug error_text session_text display).
Abbreviation storable' := (storable exact).
Abbreviation storable_log' := (storable_log exact exact_header).

(** The log of a session is in the file that an operation looks at first. *)
Definition log_at (s : store) (id : SessionId) (path : string) (format : JsonlStorageFormat)
    (h : SessionHeader) (evs : list SessionEvent) (clean : Prop) : Prop :=
  h_id h = id ∧ ∃ content, js_files s !! path = Some content ∧
    log_file' format h evs clean content ∧
    match format with
    | Raw => path = raw_path id
    | Zstd => path = compressed_path id ∧ js_files s !! raw_path id = None
    end.

(** The store holds exactly the durable logs [d], up to torn tails. *)
Definition holds (s : store) (d : durable_logs) : Prop :=
  ∀ id, match d !! id with
  | None => js_files s !! raw_path id = None ∧ js_files s !! compressed_path id = None
  | Some (h, evs) => ∃ path format clean, log_at s id path format h evs clean
  end.

Definition faulty (t : token) : Prop := ∃ i, is_Some (io_fault t i).

Lemma io_cases t i operation path :
  io display t i operation path = Ok tt ∨
  (∃ e, io display t i operation path = Err e) ∧ faulty t.
Proof.
  unfold io, faulty. destruct (io_fault t i) as [[e n]|] eqn:Hf; [right|by left].
  split; [by eexists|exists i; by rewrite Hf].
Qed.

Lemma existing_path_cases t i id s d :
  holds s d →
  (existing_path display t i id s = Ok None ∧ d !! id = None) ∨
  (∃ path format h evs clean, existing_path display t i id s = Ok (Some (path, format)) ∧
     d !! id = Some (h, evs) ∧ log_at s id path format h evs clean) ∨
  (∃ e, existing_path display t i id s = Err e) ∧ faulty t.
Proof.
  intros Hh. specialize (Hh id). unfold existing_path.
  destruct (io_cases t i "inspect log path" (raw_path id)) as [->|[[e ->] Hf]];
    [cbn [mbind result_bind]|right; right; split; [by eexists|done]].
  destruct (d !! id) as [[h evs]|].
  - destruct Hh as (path & format & clean & Hl). pose proof Hl as (Hid & content & Hc & _ & Hp).
    destruct format.
    + subst path. rewrite bool_decide_eq_true_2 by by eexists. right. left.
      by exists (raw_path id), Raw, h, evs, clean.
    + destruct Hp as [-> Hnone]. rewrite Hnone, bool_decide_eq_false_2 by by intros [? ?].
      destruct (io_cases t (i + 1) "inspect log path" (compressed_path id)) as [->|[[e ->] Hf]];
        [cbn [mbind result_bind]|right; right; split; [by eexists|done]].
      rewrite bool_decide_eq_true_2 by by eexists. right. left.
      by exists (compressed_path id), Zstd, h, evs, clean.
  - destruct Hh as [Hr Hc]. rewrite Hr, bool_decide_eq_false_2 by by intros [? ?].
    destruct (io_cases t (i + 1) "inspect log path" (compressed_path id)) as [->|[[e ->] Hf]];
      [cbn [mbind result_bind]|right; right; split; [by eexists|done]].
    rewrite Hc, bool_decide_eq_false_2 by by intros [? ?]. by left.
Qed.

Lemma read_session_cases t i id s d :
  holds s d →
  read_session' t i id s = Ok ((λ p, mkStored p.1 p.2) <$> d !! id) ∨
  (∃ e, read_session' t i id s = Err e) ∧ faulty t.
Proof using All.
  intros Hh. unfold read_session.
  destruct (existing_path_cases t i id s d Hh) as [[-> ->]|[(path & format & h & evs & clean & -> & -> & Hl)|[[e ->] Hf]]];
    [by left| |right; split; [by eexists|done]].
  cbn [mbind result_bind]. destruct (io_cases t (i + 2) "read" path) as [->|[[e ->] Hf]];
    [cbn [mbind result_bind]|right; split; [by eexists|done]].
  destruct Hl as (<- & content & Hc & Hlog & _). unfold parse_file. rewrite Hc. change (default [] (Some content)) with content.
  rewrite (parse_log_file root debug error_text session_text exact exact_header _ _ _ _ _ Hlog).
  by left.
Qed.

(** What an inspection of a log reports. *)
Definition inspection (s : store) (id : SessionId) (p : SessionHeader * list SessionEvent) :
    result SessionError SessionInspection :=
  next ← next_seq p.2;
  Ok (mkInspection p.1 (N.of_nat (length p.2)) next (default 0 (js_flush_counts s !! id))).

Definition cancelled (t : token) : Prop := ∃ i, check i t = true.

Lemma cancel_cases t i :
  check_cancellation (check i t) = Ok tt ∨ (∃ e, check_cancellation (check i t) = Err e) ∧ cancelled t.
Proof.
  destruct (check i t) eqn:Hc; [right|by left]. split; [by eexists|by exists i].
Qed.

Lemma read_raw_cases t id s d :
  holds s d →
  match d !! id with
  | None => jsonl_read_raw root debug error_text session_text display t id s = Ok None
  | Some (h, evs) => ∃ text,
      jsonl_read_raw root debug error_text session_text display t id s =
        Ok (Some (mkArtifact "session.jsonl" text)) ∧
      (text = raw_text h evs ∨ text ++ [newline] = raw_text h evs)
  end ∨ cancelled t ∨ faulty t.
Proof using All.
  intros Hh. unfold jsonl_read_raw.
  destruct (cancel_cases t 0) as [->|[_ ?]]; [|by auto]. cbn [mbind result_bind].
  destruct (cancel_cases t 1) as [->|[_ ?]]; [|by auto]. cbn [mbind result_bind].
  destruct (existing_path_cases t 0 id s d Hh)
    as [[-> ->]|[(path & format & h & evs & clean & -> & -> & Hl)|[_ Hf]]]; [by left| |by auto].
  cbn [mbind result_bind]. destruct (io_cases t 2 "read" path) as [->|[_ ?]]; [|by auto].
  cbn [mbind result_bind]. destruct (cancel_cases t 2) as [->|[_ ?]]; [|by auto]. cbn [mbind result_bind].
  destruct Hl as (<- & content & Hc & Hlog & _). unfold parse_file. rewrite Hc.
  change (default [] (Some content)) with content.
  rewrite (parse_log_file root debug error_text session_text exact exact_header _ _ _ _ _ Hlog).
  cbn [map_err mbind result_bind].
  destruct (text_of_log exact exact_header _ _ _ _ _ Hlog) as (text & Ht & Htext).
  destruct (cancel_cases t 3) as [->|[_ ?]]; [|by auto]. left. exists text. split; [|done].
  destruct format; cbn [text_of] in Ht; [injection Ht as <-|rewrite Ht]; done.
Qed.

(** The files of other sessions have other names. *)
Lemma other_paths s id path format h evs clean id' :
  log_at s id path format h evs clean → id' ≠ id → path ≠ raw_path id' ∧ path ≠ compressed_path id'.
Proof.
  intros (_ & _ & _ & _ & Hp) Hne. destruct format; [subst path|destruct Hp as [-> _]]; split; intros Heq.
  - by apply raw_path_inj in Heq.
  - by apply raw_compressed in Heq.
  - by apply (raw_compressed id' id).
  - by apply compressed_path_inj in Heq.
Qed.

Lemma log_at_other s path content id' p' f' h' evs' clean' :
  path ≠ raw_path id' → path ≠ compressed_path id' → log_at s id' p' f' h' evs' clean' →
  log_at (put_file path content s) id' p' f' h' evs' clean'.
Proof.
  intros Hpr Hpc (Hid & ct & Hct & Hlf & Hp'). split; [done|]. exists ct. cbn.
  destruct f'; [subst p'|destruct Hp' as [-> Hr']]; rewrite !lookup_insert_ne by done; done.
Qed.

Lemma log_at_path s id path format h evs clean path' format' h' evs' clean' :
  log_at s id path format h evs clean → log_at s id path' format' h' evs' clean' →
  path = path' ∧ format = format'.
Proof.
  intros (_ & c & Hc & _ & Hp) (_ & c' & Hc' & _ & Hp').
  destruct format, format'; subst; try (by split); try (by destruct Hp, Hp'; subst).
  - destruct Hp' as [-> Hn]. congruence.
  - destruct Hp as [-> Hn]. congruence.
Qed.

(** A directory that can be listed: each entry with the name of a log is the log
    of its session; ids are strings of the program, that is UTF-8. *)
Record listable (read_dir : list string → list string) (s : store) (d : durable_logs) : Prop := {
  li_dir names : read_dir names ≡ₚ names;
  li_ids id p : d !! id = Some p → utf8 (bytes_of id) = true;
  li_files name content id format :
    js_files s !! name = Some content → id_from_path name = Some (id, format) →
    ∃ h evs clean, d !! id = Some (h, evs) ∧ log_at s id name format h evs clean;
}.

(** A log whose next sequence number is not a [u64]. *)
Definition full (d : durable_logs) : Prop := ∃ id p e, d !! id = Some p ∧ next_seq p.2 = Err e.

Definition entry_ids (names : list string) : list SessionId := omap (λ name, fst <$> id_from_path name) names.

Definition is_inspection (s : store) (d : durable_logs) (x : SessionInspection) : Prop :=
  ∃ p, d !! inspected x = Some p ∧ inspection s (inspected x) p = Ok x.

Lemma list_logs_cases read_dir t i names s d :
  listable read_dir s d → (∀ name, name ∈ names → is_Some (js_files s !! name)) →
  (∃ l, list_logs root debug error_text session_text display t i names s = Ok l ∧
     inspected <$> l = entry_ids names ∧ Forall (is_inspection s d) l) ∨
  cancelled t ∨ faulty t ∨ full d.
Proof using All.
  intros Hls. revert i. induction names as [|name names IH]; intros i Hn; cbn [list_logs].
  { left. by exists []. }
  destruct (cancel_cases t (S i)) as [->|[_ ?]]; [|by auto]. cbn [mbind result_bind].
  destruct (IH (S i)) as [(l & Hl & Hids & Hall)|Hno]; [|clear IH|by auto].
  { intros n ?. apply Hn. by right. }
  unfold entry_ids. cbn [omap list_omap]. destruct (id_from_path name) as [[id format]|] eqn:Hname;
    cbn [fmap option_fmap option_map fst]; [|by left; exists l].
  destruct (io_cases t i "read" name) as [->|[_ ?]]; [|by auto]. cbn [mbind result_bind].
  destruct (Hn name) as [content Hc]; [left|].
  destruct (li_files _ _ _ Hls _ _ _ _ Hc Hname) as (h & evs & clean & Hd & Hid & content' & Hc' & Hlog & _).
  rewrite Hc in Hc'. injection Hc' as <-. unfold parse_file. rewrite Hc.
  change (default [] (Some content)) with content. rewrite <-Hid.
  rewrite (parse_log_file root debug error_text session_text exact exact_header _ _ _ _ _ Hlog).
  cbn [map_err mbind result_bind]. unfold inspect_stored. cbn [sd_events sd_header].
  destruct (next_seq evs) as [next|e] eqn:Hnext; [|by right; right; right; exists id, (h, evs), e].
  cbn [mbind result_bind]. rewrite Hl. cbn [mbind result_bind]. left. eexists. split; [done|].
  split; [by rewrite fmap_cons, Hids|]. constructor; [|done].
  exists (h, evs). unfold inspected. cbn [si_header]. rewrite Hid. split; [done|].
  unfold inspection. cbn [fst snd]. by rewrite Hnext.
Qed.

(** The entries of a directory name each log once. *)
Lemma entry_ids_perm read_dir s d :
  holds s d → listable read_dir s d → entry_ids (read_dir (btree_keys (js_files s))) ≡ₚ btree_keys d.
Proof using All.
  intros Hh Hls.
  assert (∀ name, name ∈ btree_keys (js_files s) ↔ is_Some (js_files s !! name)) as Hkeys.
  { intros name. unfold btree_keys. rewrite list_elem_of_fmap. split.
    - intros ([k v] & -> & Hin%elem_of_btree_list). by eexists.
    - intros [v Hv]. exists (name, v). split; [done|]. by apply elem_of_btree_list. }
  transitivity (entry_ids (btree_keys (js_files s))).
  { unfold entry_ids. by rewrite (li_dir _ _ _ Hls). }
  apply NoDup_Permutation; [|apply NoDup_btree_keys|].
  - assert (∀ names, names ⊆ btree_keys (js_files s) → NoDup names → NoDup (entry_ids names)) as Hnd.
    { intros names Hsub. induction 1 as [|name names Hni Hnd IH]; [constructor|].
      unfold entry_ids. cbn [omap list_omap]. destruct (id_from_path name) as [[id format]|] eqn:Hname;
        cbn [fmap option_fmap option_map fst]; [|by apply IH; set_solver].
      constructor; [|by apply IH; set_solver].
      intros (name' & Hin & Heq)%list_elem_of_omap. destruct (id_from_path name') as [[id' format']|] eqn:Hname';
        [|done]. injection Heq as ->.
      assert (name ∈ btree_keys (js_files s)) as [c Hc]%Hkeys by set_solver.
      assert (name' ∈ btree_keys (js_files s)) as [c' Hc']%Hkeys by set_solver.
      destruct (li_files _ _ _ Hls _ _ _ _ Hc Hname) as (h & evs & cl & _ & Hl).
      destruct (li_files _ _ _ Hls _ _ _ _ Hc' Hname') as (h' & evs' & cl' & _ & Hl').
      destruct (log_at_path _ _ _ _ _ _ _ _ _ _ _ _ Hl Hl') as [-> _]. done. }
    apply Hnd; [done|apply NoDup_btree_keys].
  - intros id. unfold entry_ids. rewrite list_elem_of_omap. unfold btree_keys at 2. rewrite list_elem_of_fmap. split.
    + intros (name & [c Hc]%Hkeys & Hname). destruct (id_from_path name) as [[id' format]|] eqn:Heq; [|done].
      injection Hname as ->. destruct (li_files _ _ _ Hls _ _ _ _ Hc Heq) as (h & evs & cl & Hd & _).
      exists (id, (h, evs)). split; [done|]. by apply elem_of_btree_list.
    + intros ([id' p] & -> & Hin%elem_of_btree_list). cbn [fst].
      assert (d !! (id' : SessionId) = Some p) as Hd by exact Hin. pose proof (Hh id') as Hl. rewrite Hd in Hl.
      destruct p as [h evs]. destruct Hl as (path & format & clean & Hid & content & Hc & Hlog & Hp).
      pose proof (li_ids _ _ _ Hls _ _ Hd) as Hu. destruct Hlog as [[_ _ Hne _ _ _] _]. rewrite Hid in Hne.
      exists path. split; [by apply Hkeys|].
      destruct format; [subst path; by rewrite id_from_raw_path|destruct Hp as [-> _]; by rewrite id_from_compressed_path].
Qed.

Lemma jsonl_list_cases read_dir t s d :
  holds s d → listable read_dir s d →
  (∃ l, jsonl_list root debug error_text session_text display read_dir t s = Ok l ∧
     inspected <$> l = btree_keys d ∧ Forall (is_inspection s d) l) ∨
  cancelled t ∨ faulty t ∨ full d.
Proof using All.
  intros Hh Hls. unfold jsonl_list. destruct (cancel_cases t 0) as [->|[_ ?]]; [|by auto].
  cbn [mbind result_bind].
  destruct (list_logs_cases read_dir t 0 (read_dir (btree_keys (js_files s))) s d Hls)
    as [(l & -> & Hids & Hall)|Hno]; [| |by auto].
  { intros name Hn. rewrite (li_dir _ _ _ Hls) in Hn. unfold btree_keys in Hn.
    apply list_elem_of_fmap in Hn as ([k v] & -> & Hin%elem_of_btree_list). by eexists. }
  cbn [mbind result_bind]. left. eexists. split; [done|].
  assert (inspected <$> merge_sort inspection_le l = btree_keys d) as Hk.
  { apply sorted_inspections. rewrite Hids. by apply entry_ids_perm. }
  rewrite dedup_distinct; [|rewrite Hk; apply NoDup_btree_keys|done]. split; [done|].
  by rewrite (merge_sort_Permutation inspection_le l).
Qed.

(** C24: what the store holds is what it reads, torn tails or not.  Each read
    answers from the durable logs, or was cancelled, or met a fault of the disk:
    [load] gives the header; [inspect] the header, the number of events, the
    next sequence number and the flushes; [read_from] the events from a
    sequence number on, and an error only for a session without a log;
    [read_raw] the text of the log, line by line, in either format, whose last
    newline alone may be missing; and [list], over a directory whose entries are
    logs of sessions, one inspection per log in the order of the ids (a log with
    [2^64] events has no next sequence number).  In particular no tail that an
    interrupted append can leave makes a read fail. *)
Theorem jsonl_reads t id from s d :
  holds s d →
  (jsonl_load root debug error_text session_text display t id s = Ok (fst <$> d !! id) ∨
   check 0 t = true ∨ faulty t) ∧
  (jsonl_inspect root debug error_text session_text display t id s =
     match d !! id with
     | Some p => Some <$> inspection s id p
     | None => Ok None
     end ∨ check 0 t = true ∨ faulty t) ∧
  (jsonl_read_from root debug error_text session_text display t id from s =
     match d !! id with
     | Some (_, evs) => Ok (filter (λ e, from ≤ ev_seq e) evs)
     | None => Err (ENotFound id)
     end ∨ check 0 t = true ∨ faulty t) ∧
  (match d !! id with
   | None => jsonl_read_raw root debug error_text session_text display t id s = Ok None
   | Some (h, evs) => ∃ text,
       jsonl_read_raw root debug error_text session_text display t id s =
         Ok (Some (mkArtifact "session.jsonl" text)) ∧
       (text = raw_text h evs ∨ text ++ [newline] = raw_text h evs)
   end ∨ cancelled t ∨ faulty t) ∧
  ∀ read_dir, listable read_dir s d →
    (∃ l, jsonl_list root debug error_text session_text display read_dir t s = Ok l ∧
       inspected <$> l = btree_keys d ∧ Forall (is_inspection s d) l) ∨
    cancelled t ∨ faulty t ∨ full d.
Proof using All.
  intros Hh. split_and!; [..|by apply read_raw_cases|intros; by apply jsonl_list_cases].
  all: unfold jsonl_load, jsonl_inspect, jsonl_read_from; destruct (check 0 t); [by auto|];
    cbn [check_cancellation mbind result_bind];
    destruct (read_session_cases t 0 id s d Hh) as [->|[_ Hf]]; [|by auto];
    left; cbn [mbind result_bind]; by destruct (d !! id) as [[h evs]|].
Qed.

(** A changed file of a session, with the log it now holds. *)
Lemma holds_put s d id path format h evs clean evs' clean' content :
  holds s d → log_at s id path format h evs clean → log_file' format h evs' clean' content →
  holds (put_file path content s) (<[id := (h, evs')]> d) ∧
  log_at (put_file path content s) id path format h evs' clean'.
Proof.
  intros Hh (Hid & old & Hold & Hlog & Hp) Hnew.
  assert (log_at (put_file path content s) id path format h evs' clean') as Hl.
  { split; [done|]. exists content. split; [apply lookup_insert_eq|]. split; [done|].
    destruct format; [done|]. destruct Hp as [-> Hr]. split; [done|]. cbn.
    rewrite lookup_insert_ne; [done|]. intros Heq. by apply (raw_compressed id id). }
  split; [|done]. intros id'. destruct (decide (id' = id)) as [->|Hne].
  { rewrite lookup_insert_eq. by exists path, format, clean'. }
  rewrite lookup_insert_ne by done. specialize (Hh id').
  destruct (other_paths s id path format h evs clean id') as [Hpr Hpc]; [|done|].
  { split; [done|]. by exists old. }
  destruct (d !! id') as [[h' ev']|].
  - destruct Hh as (p' & f' & c' & Hl'). exists p', f', c'. by apply log_at_other.
  - cbn. by rewrite !lookup_insert_ne.
Qed.

(** The log of the session is in a clean file, if it has one. *)
Definition clean_at (s : store) (d : durable_logs) (id : SessionId) : Prop :=
  ∀ h evs, d !! id = Some (h, evs) → ∃ path format, log_at s id path format h evs True.

(** What the checks of an append have found. *)
Lemma jsonl_check_append_Ok t id e s d path record :
  holds s d → jsonl_check_append root debug error_text session_text display t id e s = Ok (path, record) →
  ∃ h evs format clean, d !! id = Some (h, evs) ∧ log_at s id path format h evs clean ∧
    SessionEvent_validate e = Ok tt ∧ next_seq evs = Ok (ev_seq e) ∧
    encode_record format (event_record e) = Ok record.
Proof using All.
  intros Hh. unfold jsonl_check_append.
  intros (u & _ & (u1 & Hv & (u2 & _ & (o & Ho & (x & Hx & Hk)%bind_Ok)%bind_Ok)%bind_Ok)%bind_Ok)%bind_Ok.
  destruct (read_session_cases t 0 id s d Hh) as [Hr|[[er Hr] _]]; rewrite Hr in Ho; [|done].
  injection Ho as <-. apply ok_or_Ok in Hx. destruct (d !! id) as [[h evs]|] eqn:Hd; [|done].
  injection Hx as <-. cbn [sd_events fst snd] in Hk. apply bind_Ok in Hk as (expected & Hn & Hk).
  destruct (N.eqb_spec (ev_seq e) expected) as [<-|]; [|done]. cbn [negb] in Hk.
  apply bind_Ok in Hk as (o & Ho & Hk).
  destruct (existing_path_cases t 3 id s d Hh) as [[_ ?]|[(p & f & h' & evs' & c & Hp & Hd' & Hl)|[[er Hp] _]]];
    [congruence| |congruence].
  rewrite Hp in Ho. injection Ho as <-. cbn [ok_or mbind result_bind] in Hk.
  apply bind_Ok in Hk as (r & Hr' & Hk). apply bind_Ok in Hk as (u3 & _ & Hk). injection Hk as <- <-.
  rewrite Hd' in Hd. injection Hd as -> ->. exists h, evs, f, c.
  split_and!; try done. destruct u1. by apply map_err_Ok in Hv.
Qed.

(** C23: an append is atomic.  Over a store that holds the durable logs, with a
    clean file for the session, an append of an event that the log can hold
    commits exactly the event if it succeeds, and leaves a clean file again;
    if it fails or the disk fails it at any step, after any number of bytes, the
    store still holds the logs as they were or with exactly the event added,
    and all other logs are untouched. *)
Theorem jsonl_append_atomic t id e s d r s' :
  holds s d → clean_at s d id → storable' e → append' t id e s = (r, s') →
  ∃ d', holds s' d' ∧ writes (commits_append id e) r d d' ∧ (r = Ok tt → clean_at s' d' id) ∧
        (∀ id', id' ≠ id → clean_at s d id' → clean_at s' d' id').
Proof using All.
  intros Hh Hclean Hst. unfold jsonl_append.
  destruct (jsonl_check_append _ _ _ _ _ _ _ _ _) as [[path record]|er] eqn:Hc.
  2:{ intros [= <- <-]. exists d. split_and!; [done|by left|done|done]. }
  apply (jsonl_check_append_Ok _ _ _ _ d) in Hc as (h & evs & format & clean & Hd & Hl & Hv & Hn & Hr); [|done].
  destruct (Hclean h evs Hd) as (path' & format' & Hl').
  destruct (log_at_path _ _ _ _ _ _ _ _ _ _ _ _ Hl Hl') as [<- <-]. clear Hl.
  pose proof Hl' as (Hid & content & Hcontent & Hlog & _).
  assert (storable_log' h (evs ++ [e])) as Hstl.
  { destruct Hlog as [[Hx Hva Hi He Hco Hlen] _]. split; try done.
    - apply Forall_app. split; [done|]. by constructor.
    - by apply contiguous_append.
    - apply contiguous_next_seq in Hn as Hseq; [|done]. unfold next_seq in Hn.
      rewrite length_app. cbn [length]. destruct (last evs) as [x|] eqn:Hlast.
      + apply ok_or_Ok, u64_checked_add_Some in Hn as [Hs Hu]. unfold is_u64 in Hu. lia.
      + apply last_None in Hlast as ->. cbn. vm_compute. done. }
  assert (∀ evs' clean' content', log_file' format h evs' clean' content' →
    (evs' = evs ∨ evs' = evs ++ [e]) → ∀ r', (r' = Ok tt → evs' = evs ++ [e] ∧ clean') →
    ∃ d', holds (put_file path content' s) d' ∧ writes (commits_append id e) r' d d' ∧
      (r' = Ok tt → clean_at (put_file path content' s) d' id) ∧
      (∀ id', id' ≠ id → clean_at s d id' → clean_at (put_file path content' s) d' id')) as Hput.
  { intros evs' clean' content' Hlf Hevs r' Hr'. exists (<[id := (h, evs')]> d).
    destruct (holds_put s d id path format h evs True evs' clean' content' Hh Hl' Hlf) as [Hh' Hl2].
    split_and!; [done| | |].
    - assert (evs' = evs ++ [e] → commits_append id e d (<[id := (h, evs')]> d)) as Hcom
        by (intros ->; by exists h, evs).
      destruct r' as [[]|er]; cbn; [apply Hcom, Hr'; done|]. destruct Hevs as [->|He]; [left|auto].
      by apply insert_id.
    - intros Hok h2 evs2 Hd2. rewrite lookup_insert_eq in Hd2. injection Hd2 as <- <-.
      exists path, format. destruct (Hr' Hok) as [_ Hcl]. destruct Hl2 as (? & c & ? & Hlf2 & ?).
      split; [done|]. exists c. split; [done|]. split; [|done].
      destruct Hlf2 as [? (w & x & b & tl & ? & ? & ? & ? & Hiff)]. split; [done|].
      exists w, x, b, tl. split_and!; try done. tauto.
    - intros id' Hne Hc' h2 evs2 Hd2. rewrite lookup_insert_ne in Hd2 by done.
      destruct (Hc' h2 evs2 Hd2) as (p2 & f2 & Hl3). exists p2, f2.
      destruct (other_paths _ _ _ _ _ _ _ id' Hl' Hne). by apply log_at_other. }
  unfold append_bytes. rewrite Hcontent. change (default [] (Some content)) with content.
  destruct (io_fault t 6) as [[er n]|].
  - intros [= <- <-].
    destruct (append_log_file exact exact_header format h evs content e record n Hlog Hstl Hr)
      as (_ & evs' & clean' & Hevs & Hlf).
    by apply (Hput evs' clean').
  - intros [= <- <-].
    destruct (append_log_file exact exact_header format h evs content e record 0 Hlog Hstl Hr)
      as (Hlf & _).
    apply (Hput (evs ++ [e]) True); [done|by right|done].
Qed.

(** ** Creation *)

Lemma seed_records_encodes t i format evs rest :
  seed_records t i format evs = Ok rest → encodes format (event_record <$> evs) rest.
Proof.
  revert i rest. induction evs as [|e evs IH]; intros i rest; cbn [seed_records].
  { intros [= <-]. apply encodes_nil. }
  intros (u & _ & (r & Hr & (more & Hmore & [= <-])%bind_Ok)%bind_Ok)%bind_Ok.
  destruct (IH _ _ Hmore) as (chunks & Hf & ->). exists (r :: chunks). split; [|done].
  by constructor.
Qed.

Lemma write_new_cases t i path record s r s' :
  write_new display t i path record s = (r, s') →
  s' = put_file path record s ∨ (s' = s ∧ ∃ e, r = Err e).
Proof.
  unfold write_new. destruct (_ ← _; _) as [u|e]; intros [= <- <-]; [by left|right].
  split; [done|by eexists].
Qed.

(** A creation is atomic.  Over a store that holds the durable logs, a seeded
    creation of a log that can be held commits exactly this log, in a clean
    file, if it succeeds; it succeeds only for an id that has no log, and if
    it fails the store holds the logs as they were or with exactly this one. *)
Theorem jsonl_create_seeded_atomic t h evs s d r s' :
  holds s d → exact_header h → Forall storable' evs → N.of_nat (length evs) ≤ U64_MAX + 1 →
  jsonl_create_seeded display t h evs s = (r, s') →
  ∃ d', holds s' d' ∧ writes (commits_create h evs) r d d' ∧
    (∀ id, clean_at s d id → clean_at s' d' id).
Proof using All.
  intros Hh Hx Hst Hlen. unfold jsonl_create_seeded.
  destruct (_ ← _; _) as [content|e] eqn:Hc.
  2:{ intros [= <- <-]. exists d. split_and!; [done|by left|done]. }
  apply bind_Ok in Hc as (u & _ & (u1 & Hv & (u2 & Hs & (u3 & Ha & (rec & Hr & (rest & Hrest & [= <-])
    %bind_Ok)%bind_Ok)%bind_Ok)%bind_Ok)%bind_Ok).
  assert (d !! h_id h = None) as Hnone.
  { unfold check_absent in Ha. apply bind_Ok in Ha as (u4 & _ & (o & Ho & Hk)%bind_Ok).
    destruct (existing_path_cases t 0 (h_id h) s d Hh) as
      [[_ ?]|[(p & f & h' & evs' & c & Hp & _)|[[er Hp] _]]]; [done|rewrite Hp in Ho..].
    - by injection Ho as <-.
    - done. }
  unfold validate_header in Hv. apply bind_Ok in Hv as ([] & Hv%map_err_Ok & Hi).
  destruct (is_empty (h_id h)) eqn:Hid; [done|].
  assert (log_file' (js_format s) h evs True (rec ++ rest)) as Hlf.
  { split.
    - split; try done. intros i e He. destruct u2. by rewrite (check_seed_events_contiguous 0 evs Hs i e He).
    - exists evs, [], (rec ++ rest), []. rewrite !app_nil_r. split_and!; try done.
      + destruct (seed_records_encodes _ _ _ _ _ Hrest) as (chunks & Hf & ->).
        exists (rec :: chunks). split; [by constructor|done].
      + destruct (js_format s); split; [set_solver|done|done|done]. }
  intros [->|[-> [e ->]]]%write_new_cases.
  2:{ exists d. split_and!; [done|by left|done]. }
  exists (<[h_id h := (h, evs)]> d). pose proof (Hh (h_id h)) as Hfree. rewrite Hnone in Hfree.
  destruct Hfree as [Hraw Hcomp]. set (path := new_path (js_format s) (h_id h)).
  assert (log_at (put_file path (rec ++ rest) s) (h_id h) path (js_format s) h evs True) as Hl.
  { split; [done|]. exists (rec ++ rest). split; [apply lookup_insert_eq|]. split; [done|].
    unfold path, new_path. destruct (js_format s); [done|]. split; [done|]. cbn.
    rewrite lookup_insert_ne; [done|]. intros Heq. by apply (raw_compressed (h_id h) (h_id h)). }
  assert (∀ id, id ≠ h_id h → path ≠ raw_path id ∧ path ≠ compressed_path id) as Hother.
  { intros id Hne. by apply (other_paths _ _ _ _ _ _ _ id Hl). }
  split_and!.
  - intros id. destruct (decide (id = h_id h)) as [->|Hne].
    { rewrite lookup_insert_eq. by exists path, (js_format s), True. }
    destruct (Hother id Hne) as [Hpr Hpc]. rewrite lookup_insert_ne by done. specialize (Hh id).
    destruct (d !! id) as [[h' ev']|].
    + destruct Hh as (p' & f' & c' & Hl'). exists p', f', c'. by apply log_at_other.
    + cbn. by rewrite !lookup_insert_ne.
  - assert (commits_create h evs d (<[h_id h := (h, evs)]> d)) as Hcom.
    { split_and!; [done| |done]. by destruct Hlf as [[] _]. }
    destruct r as [[]|er]; [done|by right].
  - intros id Hcl h2 evs2 Hd2. destruct (decide (id = h_id h)) as [->|Hne].
    { rewrite lookup_insert_eq in Hd2. injection Hd2 as <- <-. by exists path, (js_format s). }
    rewrite lookup_insert_ne in Hd2 by done. destruct (Hcl h2 evs2 Hd2) as (p2 & f2 & Hl2).
    destruct (Hother id Hne). exists p2, f2. by apply log_at_other.
Qed.

(** ** Torn tails *)





End store.

(** ** Names *)

(** Each session has its own files.  The file names of a session hold
    nothing but hexadecimal digits between a fixed prefix and suffix, so no id
    names a file outside the root; distinct ids never share a name, nor do the
    two formats; and listing the directory decodes each name to the id and the
    format it was made from. *)
Theorem log_names id id' :
  (∀ a, a ∈ bytes_of (encode_id id) → is_Some (hex_digit a)) ∧
  (raw_path id = raw_path id' ∨ compressed_path id = compressed_path id' → id = id') ∧
  raw_path id ≠ compressed_path id' ∧
  (is_empty id = false → utf8 (bytes_of id) = true →
   id_from_path (raw_path id) = Some (id, Raw) ∧ id_from_path (compressed_path id) = Some (id, Zstd)).
Proof.
  split_and!.
  - unfold encode_id. rewrite bytes_of_string_of. induction (bytes_of id) as [|b l IH]; [set_solver|].
    change (mjoin (hex_byte <$> b :: l)) with (hex_byte b ++ mjoin (hex_byte <$> l)).
    intros a [Ha|Ha]%elem_of_app; [|by apply IH]. unfold hex_byte in Ha. pose proof (byte_lt b).
    rewrite !elem_of_cons, elem_of_nil in Ha. destruct Ha as [->|[->|[]]]; rewrite hex_digit_char;
      [done|apply N.Div0.div_lt_upper_bound; lia|done|by apply N.mod_lt].
  - intros [?%raw_path_inj|?%compressed_path_inj]; done.
  - apply raw_compressed.
  - intros He Hu. split; [by apply id_from_raw_path|by apply id_from_compressed_path].
Qed.

(** ** A concrete log *)

#[local] Instance no_faults : Disk := λ _ _, None.
Definition sample_events : list SessionEvent := [turn_start 0; say "m1" 1; step_start 2].
Definition sample_event (e : SessionEvent) : Prop := e ∈ sample_events.
Definition sample_header (h : SessionHeader) : Prop := h = h0.
Definition sample_text : list bytes := event_text <$> sample_events.

#[local] Instance stored_laws : CompressionLaws.
Proof. split; [by intros r c [= ->]|apply stored_word]. Qed.

Lemma torn_samples :
  forallb (λ t, forallb (λ n, malformed (take n t)) (seq 0 (length t))) sample_text = true.
Proof. vm_compute. reflexivity. Qed.

#[local] Instance sample_laws : JsonTextLaws sample_event sample_header.
Proof.
  split.
  - vm_compute. reflexivity.
  - apply (proj1 (Forall_forall (λ e, event_of_text (event_text e) = Ok e) sample_events)).
    repeat constructor; vm_compute; reflexivity.
  - apply (proj1 (Forall_forall (λ e, malformed (event_text e) = false) sample_events)).
    repeat constructor; vm_compute; reflexivity.
  - apply (proj1 (Forall_forall (λ e, newline ∉ event_text e) sample_events)).
    repeat constructor; apply (bool_decide_unpack _); vm_compute; exact I.
  - intros e p He [k Hk] Hne. pose proof torn_samples as Ht. rewrite forallb_forall in Ht.
    specialize (Ht (event_text e)). rewrite forallb_forall in Ht.
    assert (p = take (length p) (event_text e)) as -> by by rewrite Hk, take_app_length.
    apply Ht; [by apply list_elem_of_In, list_elem_of_fmap_2|].
    apply in_seq. rewrite Hk, length_app. destruct k; [rewrite app_nil_r in Hk; by subst|cbn; lia].
  - intros h ->. apply (bool_decide_unpack _). vm_compute. exact I.
  - intros h ->. eexists. split; [vm_compute; reflexivity|]. split; vm_compute; reflexivity.
Qed.

Definition no_display {A} (_ : A) : string := "".
Definition two_events : list SessionEvent := [turn_start 0; say "m1" 1].
Definition sample_body : bytes := header_record h0 ++ mjoin (event_record <$> two_events).
Definition sample_store (tail : bytes) : JsonlSessionPersistence :=
  mkJsonl Raw {[ raw_path "s1" := sample_body ++ tail ]} ∅.
Definition sample_logs : durable_logs := {[ "s1" := (h0, two_events) ]}.
Definition torn_tail : bytes := take 20 (event_text (step_start 2)).

Lemma sample_storable e : e ∈ sample_events → storable sample_event e.
Proof.
  intros He. split; [done| |].
  - revert e He. apply (proj1 (Forall_forall (λ e, SessionEvent_validate e = Ok tt) sample_events)).
    repeat constructor.
  - revert e He.
    apply (proj1 (Forall_forall (λ e, event_type e ≠ "agent-preset/selected") sample_events)).
    repeat constructor; done.
Qed.

Lemma sample_storable_log evs :
  evs ⊆ sample_events → check_seed_events 0 evs = Ok tt → N.of_nat (length evs) ≤ 5 →
  storable_log sample_event sample_header h0 evs.
Proof.
  intros Hin Hs Hl. split; try done.
  - apply Forall_forall. intros e He. by apply sample_storable, Hin.
  - intros i e He. by rewrite (check_seed_events_contiguous 0 evs Hs i e He).
  - unfold U64_MAX. lia.
Qed.

Lemma two_events_log : storable_log sample_event sample_header h0 two_events.
Proof. apply sample_storable_log; [set_solver|reflexivity|vm_compute; discriminate]. Qed.

Lemma sample_body_encodes : encodes Raw (header_record h0 :: (event_record <$> two_events)) sample_body.
Proof.
  exists (header_record h0 :: (event_record <$> two_events)). split; [|done].
  repeat constructor.
Qed.

Lemma sample_log_at tail clean :
  tail_of Raw tail [] → (clean ↔ tail = []) →
  log_at sample_event sample_header (sample_store tail) "s1" (raw_path "s1") Raw h0 two_events clean.
Proof.
  intros Ht Hc. split; [done|]. exists (sample_body ++ tail). split; [apply lookup_singleton_eq|].
  split; [|done]. split; [apply two_events_log|].
  exists two_events, [], sample_body, tail. split_and!; [done|done|apply sample_body_encodes|done|..]; tauto.
Qed.

Lemma sample_holds tail :
  tail_of Raw tail [] → holds sample_event sample_header (sample_store tail) sample_logs.
Proof.
  intros Ht id. destruct (decide (id = "s1")) as [->|Hne].
  - unfold sample_logs. rewrite lookup_singleton_eq. exists (raw_path "s1"), Raw, (tail = []).
    by apply sample_log_at.
  - unfold sample_logs. rewrite lookup_singleton_ne by done. cbn.
    rewrite !lookup_singleton_ne; [done|..]; intros Heq.
    + by apply raw_compressed in Heq.
    + by apply raw_path_inj in Heq.
Qed.

Lemma torn_tail_of : tail_of Raw torn_tail [].
Proof. split; [apply (bool_decide_unpack _); vm_compute; exact I|vm_compute; reflexivity]. Qed.
Lemma no_tail_of : tail_of Raw [] [].
Proof. split; [set_solver|reflexivity]. Qed.

Lemma never_faulty t : ¬ faulty t.
Proof. by intros [i [x ?]]. Qed.

Abbreviation sample_load := (jsonl_load "" no_display no_display no_display no_display).
Abbreviation sample_append := (jsonl_append "" no_display no_display no_display no_display).

Lemma sample_listable tail :
  tail_of Raw tail [] → listable sample_event sample_header (λ l, l) (sample_store tail) sample_logs.
Proof.
  intros Ht. split; [done| |].
  - intros id p. unfold sample_logs. intros [<- _]%lookup_singleton_Some. reflexivity.
  - intros name content id format. cbn. intros [<- _]%lookup_singleton_Some.
    rewrite id_from_raw_path by reflexivity. intros [= <- <-].
    exists h0, two_events, (tail = []). split; [apply lookup_singleton_eq|]. by apply sample_log_at.
Qed.

Lemma jsonl_reads_witness :
  sample_load live_token "s1" (sample_store torn_tail) = Ok (Some h0) ∧
  ∃ l, jsonl_list "" no_display no_display no_display no_display (λ l, l) live_token
         (sample_store torn_tail) = Ok l ∧ inspected <$> l = ["s1"].
Proof.
  destruct (jsonl_reads "" no_display no_display no_display no_display sample_event sample_header
    live_token "s1" 0 (sample_store torn_tail) sample_logs (sample_holds _ torn_tail_of))
    as ([Hl|[Hc|Hf]] & _ & _ & _ & Hlist); [|discriminate Hc|by destruct (never_faulty _ Hf)].
  split; [exact Hl|].
  destruct (Hlist (λ l, l) (sample_listable _ torn_tail_of)) as [(l & Ho & Hids & _)|[[i Hc]|[Hf|Hfull]]].
  - exists l. split; [exact Ho|]. rewrite Hids. vm_compute. reflexivity.
  - discriminate Hc.
  - by destruct (never_faulty _ Hf).
  - destruct Hfull as (id & p & e & Hd & Hn). unfold sample_logs in Hd.
    apply lookup_singleton_Some in Hd as [_ <-]. discriminate Hn.
Defined.

Definition appended : result SessionError unit * JsonlSessionPersistence :=
  sample_append live_token "s1" (step_start 2) (sample_store []).

Lemma jsonl_append_atomic_witness :
  ∃ d', holds sample_event sample_header appended.2 d' ∧
    commits_append "s1" (step_start 2) sample_logs d'.
Proof.
  destruct (jsonl_append_atomic "" no_display no_display no_display no_display sample_event
    sample_header live_token "s1" (step_start 2) (sample_store []) sample_logs appended.1 appended.2)
    as (d' & Hh & Hw & _).
  - apply sample_holds, no_tail_of.
  - intros h evs Hd. unfold sample_logs in Hd. rewrite lookup_singleton_eq in Hd.
    injection Hd as <- <-. exists (raw_path "s1"), Raw. by apply sample_log_at; [apply no_tail_of|].
  - apply sample_storable. set_solver.
  - apply surjective_pairing.
  - exists d'. split; [exact Hh|]. assert (appended.1 = Ok tt) as Hr by (vm_compute; reflexivity).
    rewrite Hr in Hw. exact Hw.
Defined.

Definition empty_store : JsonlSessionPersistence := with_format Zstd.
Definition seeded : result SessionError unit * JsonlSessionPersistence :=
  jsonl_create_seeded no_display live_token h0 two_events empty_store.

Lemma jsonl_create_seeded_atomic_witness :
  ∃ d', holds sample_event sample_header seeded.2 d' ∧ commits_create h0 two_events ∅ d'.
Proof.
  destruct (jsonl_create_seeded_atomic "" no_display no_display no_display no_display sample_event
    sample_header live_token h0 two_events empty_store ∅ seeded.1 seeded.2) as (d' & Hh & Hw & _).
  - intros id. rewrite lookup_empty. split; apply lookup_empty.
  - reflexivity.
  - apply two_events_log.
  - vm_compute. discriminate.
  - apply surjective_pairing.
  - exists d'. split; [exact Hh|]. assert (seeded.1 = Ok tt) as Hr by (vm_compute; reflexivity).
    rewrite Hr in Hw. exact Hw.
Defined.


Lemma log_names_witness : id_from_path (raw_path "s1") = Some ("s1", Raw).
Proof. apply (log_names "s1" "s1"); reflexivity. Defined.
