(* ===== verification/AgentProps.v ===== *)
(** * The agent: properties

    The live inbox among its users, the messages assembled from provider
    streams, the assembly of prompts, and the turns of the loop. *)

From S2P Require Import Prelude Json Protocol Codec Session SessionFacts Samples.
From S2P Require Import Compaction AgentInbox AgentInboxFacts Tools Llm LlmFacts SystemPrompt.
From S2P Require Import AgentLoop AgentTurn AgentTurnFacts AgentRetryFacts AgentDrive AgentCodec.

#[local] Open Scope N_scope.

(** ** The live inbox *)

(** C8: the live inbox implements two queues in arrival order.  Whatever its users
    do in whatever order (sends, edits, removals, steers, claims of the loop, and
    between a reservation and its end any of these), no operation panics; a
    message is accepted exactly when the agent takes messages, the message is
    valid and no pending message has its id; a claim that was not overtaken by a
    cancellation delivers exactly the messages it reserved, which are the oldest
    of their queue; and the ids of the pending messages stay distinct. *)
Theorem inbox_refines `{ProtocolWire} y op :
  inbox_reachable y →
  ∃ delivered y', run_op op y = Some (delivered, y') ∧
    op_spec op y delivered (queues_of (ag_inbox (sy_agent y'))) ∧
    NoDup (tq_ids (queues_of (ag_inbox (sy_agent y')))).
Proof.
  intros Hy%inbox_reachable_inv. destruct (step_total op y Hy) as (delivered & y' & Hrun & Hi & Hs).
  exists delivered, y'. split_and!; [done|done|by apply inv_ids].
Qed.

Definition note (id : string) : Message :=
  mkMessage id RoleUser [Text id] (SourceUser None).
Definition inbox_after (ops : list inbox_op) : option InboxSystem :=
  foldl (λ o op, y ← o; snd <$> run_op op y) (Some (AgentInbox.started (mkAgentInner Inbox.new None false))) ops.
Definition busy_ops : list inbox_op :=
  [OpSend (note "a") Followup true; OpSend (note "b") Steer true; OpSend (note "c") Followup true;
   OpSend (note "d") Inject false; OpClaimSteps; OpReserveUpdate "c" UpdateSteer true;
   OpSend (note "e") Steer true; OpCommitUpdate 0].
Definition busy : InboxSystem := default (AgentInbox.started (mkAgentInner Inbox.new None false)) (inbox_after busy_ops).

Lemma busy_reachable : inbox_reachable busy.
Proof.
  assert (∀ ops y, inbox_reachable y → ∀ y', foldl (λ o op, y ← o; snd <$> run_op op y) (Some y) ops = Some y' →
    inbox_reachable y') as Hrun.
  { induction ops as [|op ops IH]; intros y Hy y' Hf; cbn in Hf; [by injection Hf as <-|].
    destruct (run_op op y) as [[d z]|] eqn:Hop; cbn in Hf.
    - eapply IH; [|exact Hf]. by apply (inbox_next y op d).
    - exfalso. clear -Hf. induction ops as [|op' ops IH]; cbn in Hf; [done|by apply IH]. }
  apply (Hrun busy_ops _ inbox_start). vm_compute. reflexivity.
Qed.

Lemma inbox_refines_witness :
  ∃ y', run_op (OpCommitClaim 0) busy = Some ([note "b"; note "d"], y') ∧
    NoDup (tq_ids (queues_of (ag_inbox (sy_agent y')))).
Proof.
  destruct (inbox_refines busy (OpCommitClaim 0) busy_reachable) as (delivered & y' & Hrun & _ & Hn).
  assert (fst <$> run_op (OpCommitClaim 0) busy = Some [note "b"; note "d"]) as Hd
    by (vm_compute; reflexivity).
  rewrite Hrun in Hd. injection Hd as ->. by exists y'.
Defined.

(** ** Provider streams *)

(** C13: the message is what the stream says.  When a stream is assembled, it has
    one finish, nothing after it is read, and the message holds, in the order of
    their indexes, exactly the blocks that were closed; a finish at the token
    limit also keeps the text and the reasoning of blocks still open, joined from
    their deltas, but never an unfinished tool call; and a finish with [stop] or
    [tool-calls] is refused while a block is open. *)
Theorem assembled_message early l provider model id g :
  assemble early l (with_message_id provider model id) = Ok g →
  ∃ body reason rs rest, l = body ++ Finish reason rs :: rest ∧
    Forall (λ c, is_finish c = false) body ∧
    gen_message g = mkMessage id RoleAssistant (content_of body reason) (SourceModel provider model rs) ∧
    gen_finish_reason g = reason ∧ gen_chunks g = body ++ [Finish reason rs] ∧
    (reason = FinishStop ∨ reason = FinishToolCalls →
     ∀ i, i ∈ started body → is_Some (head (omap (end_of i) body))).
Proof.
  intros Ha. destruct (assemble_inv early l [] _ g (pushed_start provider model id) Ha)
    as (body & reason & rs & rest & usage & -> & Hb & -> & Hend).
  exists body, reason, rs, rest. split_and!; try done. intros [->| ->]; exact Hend.
Qed.

Definition cut_stream : list StreamChunk :=
  [BlockStart 1 "tool-call"; BlockStart 0 "text"; TextDelta 0 "Hel"; ToolCallDelta 1 "c1" (Some "ls") "{";
   BlockStart 2 "tool-call"; TextDelta 0 "lo"; BlockEnd 1 (ToolCall "c1" "ls" "{}");
   Finish FinishMaxTokens None].
Definition cut_generation : result TessivumError LlmGeneration :=
  assemble ended_early cut_stream (with_message_id "p" "m" "g1").

Lemma assembled_message_witness :
  ∃ g body reason rs rest, cut_generation = Ok g ∧ cut_stream = body ++ Finish reason rs :: rest ∧
    m_content (gen_message g) = content_of body reason.
Proof.
  destruct cut_generation as [g|e] eqn:Hg; [|exfalso; revert Hg; vm_compute; discriminate].
  destruct (assembled_message _ _ _ _ _ _ Hg) as (body & reason & rs & rest & Hl & _ & Hm & _).
  exists g, body, reason, rs, rest. by rewrite Hm.
Defined.

Example cut_content :
  (λ g, m_content (gen_message g)) <$> cut_generation = Ok [Text "Hello"; ToolCall "c1" "ls" "{}"].
Proof. vm_compute. reflexivity. Qed.

(** ** Turns *)

(** C9: turns are well bracketed in the log.  Whatever other tasks append meanwhile
    (events that are not a turn's), a turn that runs to its end leaves the log
    between turns: it wrote one start and one end under the next number, in
    between its steps numbered 1, 2, ..., each with its own start and end, the
    chunks, messages and retries of a step inside it, and for every tool call
    exactly one result, citing it, in the order of the calls, before the step
    ends; a turn that was cancelled before its start wrote none of this.  An error
    leaves a log that such a turn has begun. *)
Theorem turn_bracketed `{ProtocolWire} `{LoopWire} {S A} `{SessionPersistence S}
    (env : LoopEnv S A) cfg fuel initial last w :
  quiet_env env → phase_of (events_of w) = Some (Between last) →
  match run_turn env cfg fuel initial w with
  | (Ok _, w') =>
      phase_of (events_of w') = Some (Between last) ∨
      phase_of (events_of w') = Some (Between (u64_saturating_add last 1))
  | (Err _, w') => ∃ p, phase_of (events_of w') = Some p
  end.
Proof. intros Hq. by apply turn_phases. Qed.

Lemma notes_quiet ticks n s b i : extends_quietly s (takes_notes ticks n s b i).1.1.
Proof.
  unfold takes_notes. case_bool_decide; [|by exists []; rewrite app_nil_r].
  destruct (append_next _ _ _ _) as [[r s'] b'] eqn:Ha.
  apply append_next_inv in Ha as [[_ ->]|(seq & _ & _ & He)].
  - exists []. by rewrite app_nil_r.
  - eexists. split; [exact He|]. apply Forall_singleton, quiet_type. set_solver.
Qed.

Lemma small_quiet policy answer : quiet_env (small_env policy answer).
Proof.
  split; simpl; [intros; apply notes_quiet|done|].
  intros. apply Forall_singleton. simpl. set_solver.
Qed.

Lemma turn_bracketed_witness :
  (small_turn FinishToolCalls).1 = Ok tt ∧
  phase_of (events_of (small_turn FinishToolCalls).2) = Some (Between 1) ∧
  event_type <$> events_of (small_turn FinishToolCalls).2 =
    ["session/title"; "turn/start"; "step/start"; "user/message"; "user/message"; "request/header";
     "session/title"; "request/context"; "assistant/chunk"; "assistant/chunk"; "assistant/chunk";
     "assistant/message"; "tool/call"; "tool/code-dispatch"; "tool/result"; "step/end";
     "step/start"; "assistant/chunk"; "assistant/chunk"; "assistant/chunk"; "assistant/chunk";
     "assistant/message"; "step/end"; "turn/end"].
Proof.
  assert (phase_of (events_of (small_turn FinishToolCalls).2) ≠ Some (Between 0)) as Hn
    by (vm_compute; discriminate).
  assert ((small_turn FinishToolCalls).1 = Ok tt) as Hok by (vm_compute; reflexivity).
  split; [exact Hok|]. split; [|vm_compute; reflexivity].
  pose proof (turn_bracketed (small_env None (λ _, calling FinishToolCalls)) (small_config 4) 3
    (user_message "m1" "hello") 0 empty_world (small_quiet _ _) eq_refl) as Ht.
  fold (small_turn FinishToolCalls) in Ht. destruct (small_turn FinishToolCalls) as [r w].
  simpl in Hok. subst r. destruct Ht as [Ht|Ht]; [done|exact Ht].
Defined.

(** C10: a turn ends.  When the provider's policy is bounded and stays the same, a
    turn needs no more attempts for one generation than the retries of the policy,
    one for a compacted context and the first one: with that fuel the loop of
    attempts never runs dry, for any streams, failures, tools and other tasks. *)
Theorem turn_terminates `{ProtocolWire} `{LoopWire} {S A} `{SessionPersistence S}
    (env : LoopEnv S A) cfg key max fuel initial w :
  quiet_env env → steady env (ao_provider (lc_options cfg)) key max →
  (N.to_nat max + 2 ≤ fuel)%nat →
  (run_turn env cfg fuel initial w).1 ≠ Err OutOfFuel.
Proof. intros Hq Hs Hf. by apply (turn_fueled env Hq cfg key max Hs). Qed.

(** A provider that is always overloaded, under the default policy. *)
Definition overloaded : LlmFailure := mkFailure "try again" "RATE_LIMIT" None None None.
Definition patient : LlmRetryPolicy := Normal 2 DEFAULT_CODES (f64_int 500) (f64_int 10000) default_jitter.
Definition busy_env := small_env (Some patient) (λ _ _, [Ok (Finish (FinishError overloaded) None)]).
Definition busy_turn := run_turn busy_env (small_config 4) 4 (user_message "m1" "hello") empty_world.

Lemma busy_steady : steady busy_env "p" (policy_key json_text patient) 2.
Proof. intros n p Hp. vm_compute in Hp. injection Hp as <-. split; vm_compute; reflexivity. Qed.

Lemma turn_terminates_witness :
  busy_turn.1 ≠ Err OutOfFuel ∧
  filter (λ t, t ∈ ["llm/retry"; "turn/end"]) (event_type <$> events_of busy_turn.2) =
    ["llm/retry"; "llm/retry"; "turn/end"].
Proof.
  split; [|vm_compute; reflexivity].
  apply (turn_terminates busy_env (small_config 4) (policy_key json_text patient) 2);
    [apply small_quiet|apply busy_steady|lia].
Defined.

(** ** Retry delays *)

(** A delay is never negative and never longer than the policy's maximum,
    which is at most 2147483647 ms: for every accepted configuration, whatever the
    number of the retry, the random number (not negative) and what the provider
    asked for, with the rounding and the special values of doubles. *)
Theorem retry_delay_bounded config p n random f d :
  resolve config = Ok p → f64_le f64_zero random = true →
  retry_delay p n random f = Some d →
  f64_le f64_zero d = true ∧ f64_le d (max_delay_ms p) = true ∧
  f64_le (max_delay_ms p) MAX_TIMER_DELAY_MS = true.
Proof.
  intros Hp%resolve_ok Hr Hd.
  assert (∀ d, Some (local_delay_ms p n random) = Some d →
    f64_le f64_zero d = true ∧ f64_le d (max_delay_ms p) = true) as Hlocal.
  { intros d' [= <-]. destruct (local_delay_bounds p n random Hp Hr) as [Hn Hm].
    split; [by apply zero_le|done]. }
  enough (f64_le f64_zero d = true ∧ f64_le d (max_delay_ms p) = true) as [H0 H1]
    by (split; [done|split; [done|apply Hp]]).
  unfold retry_delay in Hd.
  destruct (lf_provider_retry_after_ms f) as [delay|]; [|by apply Hlocal].
  destruct (f64_lt _ _) eqn:Hl.
  { destruct (max_retries p); [done|by apply Hlocal]. }
  destruct (0 <? delay); [|by apply Hlocal]. injection Hd as <-.
  destruct (good_cases _ (good_int (Z.of_N delay) ltac:(lia))) as [Hn|Hn].
  - by apply int_not_nan in Hn.
  - split; [by apply zero_le|]. apply le_of_not_lt; [| |done].
    + intros He. by rewrite He in Hn.
    + intros He. pose proof (bo_max _ Hp) as Hm. by rewrite He in Hm.
Qed.

Lemma retry_delay_bounded_witness :
  ∃ d, retry_delay patient 7 f64_one overloaded = Some d ∧
    f64_le f64_zero d = true ∧ f64_le d (max_delay_ms patient) = true.
Proof.
  assert (resolve None = Ok patient) as Hp by (vm_compute; reflexivity).
  assert (f64_le f64_zero f64_one = true) as Hr by (vm_compute; reflexivity).
  assert (retry_delay patient 7 f64_one overloaded = Some (f64_int 10000)) as Hd
    by (vm_compute; reflexivity).
  destruct (retry_delay_bounded None patient 7 f64_one overloaded (f64_int 10000) Hp Hr Hd) as (H0 & H1 & _).
  exists (f64_int 10000). split; [exact Hd|]. split; assumption.
Defined.

(** ** The tool calls of a turn cut at the token limit *)

(** What the model is shown at the next request. *)
Definition shown (w : World MemorySessionPersistence) : list ContentBlock :=
  mjoin (m_content <$> derive_messages (w_session w)).
Definition is_call (b : ContentBlock) : bool := match b with ToolCall _ _ _ => true | _ => false end.

(** A turn whose model stops at the token limit behind a complete tool call ends
    without an error, and its call stays in the conversation without a result. *)
Example cut_call_unanswered :
  (small_turn FinishMaxTokens).1 = Ok tt ∧
  filter (λ b, is_call b || is_result b = true) (shown (small_turn FinishMaxTokens).2) = [ToolCall "c1" "read" "{}"].
Proof. split; vm_compute; reflexivity. Qed.

(** ** The worker *)

(** C11: who finds the worker idle has been served.  In every interleaving of the
    worker with clients that send, wake, cancel and dispose, in which no claim
    fails and no update holds a message, a client that finds the worker idle knows
    that every message whose sender had woken the worker was taken into a turn,
    unless the agent was cancelled or disposed. *)
Theorem idle_means_served d :
  smooth_reachable d → is_Some (poll_idle d) → stopped d ∨ dr_announced d = [].
Proof. intros Hd%smooth_inv. by apply idle_done. Qed.

Definition quietly : chance := mkChance true None None.
Definition served_ops : list driver_op :=
  [Send "a"; Wake; Work quietly; Work quietly; Work quietly; Send "b"; Wake; Work quietly; Work quietly;
   Work quietly; Work quietly; Work quietly; Work quietly; Work quietly; Work quietly; Work quietly].
Definition served : Driver := default driver_new (driver_run served_ops driver_new).

Lemma smooth_run ops d d' :
  Forall smooth ops → smooth_reachable d → driver_run ops d = Some d' →
  (dr_wakes d + N.of_nat (length ops) < 2 ^ 64)%N → smooth_reachable d'.
Proof.
  intros Hs. revert d. induction Hs as [|op ops Ho _ IH]; intros d Hd Hr Hb; simpl in Hr.
  { by injection Hr as <-. }
  destruct (driver_step op d) as [d1|] eqn:H1; [|done].
  pose proof (driver_step_wakes op d d1 H1) as Hw. simpl length in Hb.
  apply (IH d1); [|exact Hr|lia]. eapply smooth_next; [done..|lia].
Qed.

Lemma served_reachable : smooth_reachable served.
Proof.
  apply (smooth_run served_ops driver_new); [|apply smooth_start|vm_compute; reflexivity|vm_compute; reflexivity].
  repeat constructor.
Qed.

Lemma idle_means_served_witness :
  poll_idle served = Some (Ok tt) ∧ dr_announced served = [].
Proof.
  assert (poll_idle served = Some (Ok tt)) as Hp by (vm_compute; reflexivity).
  split; [exact Hp|].
  destruct (idle_means_served served served_reachable) as [[Hs|Hs]|Hs];
    [rewrite Hp; eauto|vm_compute in Hs; discriminate..|exact Hs].
Defined.

(** C12: left alone, the worker serves what is queued and falls asleep.  From
    every state of such a run, whatever the turns' outcomes, it comes to rest
    within 4n+12 steps for n queued messages: cancelled or disposed, or idle with
    nothing left of what was announced. *)
Theorem worker_settles d cs :
  smooth_reachable d → Forall (λ c, ch_claim c = None) cs →
  (4 * queued_messages d + 12 ≤ length cs)%nat →
  ∃ k d', driver_run (Work <$> take k cs) d = Some d' ∧ asleep d' ∧
    (stopped d' ∨ is_Some (poll_idle d') ∧ dr_announced d' = []).
Proof.
  intros Hd%smooth_inv Hcs Hl. pose proof (steps_bound d) as Hb.
  destruct (falls_asleep cs d Hcs) as (k & d' & Hr & Ha); [lia|].
  exists k, d'. split; [done|]. split; [done|].
  assert (driver_inv d') as Hi by (eapply run_smooth; [by apply Forall_take|done..]).
  apply asleep_settled; done.
Qed.

Definition woken_ops : list driver_op := [Send "a"; Wake; Send "b"; Work quietly; Wake; Work quietly].
Definition woken : Driver := default driver_new (driver_run woken_ops driver_new).

Lemma woken_reachable : smooth_reachable woken.
Proof.
  apply (smooth_run woken_ops driver_new); [|apply smooth_start|vm_compute; reflexivity|vm_compute; reflexivity].
  repeat constructor.
Qed.

Lemma worker_settles_witness :
  dr_announced woken = ["a"; "b"] ∧
  ∃ k d', driver_run (Work <$> take k (replicate 20 quietly)) woken = Some d' ∧ asleep d'.
Proof.
  split; [vm_compute; reflexivity|].
  destruct (worker_settles woken (replicate 20 quietly) woken_reachable) as (k & d' & Hr & Ha & _);
    [apply Forall_replicate; reflexivity|vm_compute; lia|]. exists k, d'. split; assumption.
Defined.

(** C29: an update can lose a wake-up.  A client sends a message and wakes the
    worker while a turn runs; an update of the message is reserved; the turn ends,
    the claim finds the message held, and the worker settles; the update ends
    without waking the worker.  Then the worker sleeps, a client finds it idle
    without an error, and the message stays queued. *)
Theorem update_loses_wake :
  ∃ ops d, driver_run ops driver_new = Some d ∧ asleep d ∧ poll_idle d = Some (Ok tt) ∧
    dr_announced d = ["b"] ∧ dr_reserved d = None ∧ ¬ stopped d.
Proof.
  exists [Send "a"; Wake; Work quietly; Work quietly; Work quietly; Send "b"; Wake; BeginUpdate "b";
    Work quietly; Work quietly; Work quietly; Work quietly; Work quietly; Work quietly; Work quietly; EndUpdate].
  eexists. split; [vm_compute; reflexivity|]. split_and!; try reflexivity.
  - by apply (asleep_or quietly).
  - intros [H|H]; discriminate H.
Qed.
