(* ===== verification/CompactionProps.v ===== *)
(** * Compaction: properties *)

From S2P Require Import Prelude Json Protocol Codec Session SessionFacts Samples.
From S2P Require Import Compaction AgentInbox Tools Llm SystemPrompt AgentLoop AgentTurn AgentTurnFacts AgentCodec.
From S2P Require Import CompactionFacts CompactionLogic CompactionRunFacts CompactionLogFacts.
From S2P Require Import AgentCompaction.

#[local] Open Scope N_scope.

(** ** A conversation for the witnesses *)

Definition long (n : nat) : string := string_of (repeat "x"%char n).
Definition tool_said_event (id call text : string) (seq : N) : SessionEvent :=
  surface_event "tool/result" seq
    (json_object [("turn", json_u64 1); ("step", json_u64 1);
       ("message", to_value (mkMessage id RoleUser [ToolResult call [Text text] None] (SourceTool call)))]).
Definition says (id text : string) (seq : N) : SessionEvent :=
  surface_event "user/message" seq (to_value (user_message id text)).

(** An answered call, long messages, a long result and a last message. *)
Definition conversation : list SessionEvent :=
  [says "m0" (long 200) 0; assistant "m1" "c1" 1; tool_said_event "m2" "c1" (long 60) 2;
   says "m3" (long 200) 3; assistant "m4" "c2" 4; tool_said_event "m5" "c2" (long 400) 5;
   says "m6" "go on" 6].
Definition talk : Session := session_of conversation.

Definition small_compaction : CompactionConfig := mkCompactionConfig "p" "m" None None 3 1200 100.
Definition summarizer : CompactionService := mkService small_compaction None false.

Definition quiet_compact_env : CompactEnv MemorySessionPersistence unit := {|
  ce_others _ s b a := (s, b, a);
  ce_cancelled _ := false;
  ce_token _ := live_token;
  ce_uuid n := "id" +:+ fmt_N (N.of_nat n);
  ce_llm _ := mkRuntime 1 {[ "p" := mkSlot 1 tt None ]};
  ce_answer _ _ _ := Ok (answers "They talked.");
  ce_poll _ _ := false;
|}.
Definition talk_world : CompactWorld MemorySessionPersistence :=
  mkCompactWorld talk (memory_of conversation) ∅ 0 [].
Definition compacted_talk := Service.compact_now quiet_compact_env summarizer talk_world.


Lemma summary_is_read start id texts :
  from_value (to_value (summary_message start id (Text <$> texts)))
  = Ok (summary_message start id (Text <$> texts)).
Proof. by apply from_to_value. Qed.
Lemma pruned_is_read seq call text is_error :
  from_value (to_value (pruned_message seq call text is_error))
  = Ok (pruned_message seq call text is_error).
Proof. by apply from_to_value. Qed.

(** ** Regions *)

(** A compaction never splits a tool call from its result.  In a region that a
    plan accepts, each call is answered by a result of the region and each result
    answers a call of the region: no call or result of the surface is on the other
    side of the region's bounds from its partner. *)
Theorem plan_splits_no_pair `{CompactionWire} cfg surface r limit plan :
  plan_from_surface cfg surface r limit = Ok plan →
  (∀ i j id, answers_call (signals surface) i j id → in_range i r = in_range j r) ∧
  (∀ i id, Opens i id ∈ signals surface → in_range i r = true →
     ∃ j, answers_call (signals surface) i j id ∧ in_range j r = true) ∧
  (∀ j id, Closes j id ∈ signals surface → in_range j r = true →
     ∃ i, answers_call (signals surface) i j id ∧ in_range i r = true).
Proof.
  intros Hp. assert (validate_tool_pairs surface r = Ok tt) as Hv.
  { unfold plan_from_surface in Hp. apply bind_Ok in Hp as (l & _ & Hp).
    destruct (_ <? _); [done|]. by apply bind_Ok in Hp as ([] & Hv & _). }
  split_and!.
  - intros i j id. by apply validated_pair.
  - intros i id Hin Hi. destruct (validated_call r surface i id Hv Hin Hi) as [j Hj].
    exists j. split; [done|]. by rewrite <-(validated_pair r surface i j id Hv Hj).
  - intros j id Hin Hj. destruct (validated_result r surface j id Hv Hin Hj) as [i Hi].
    exists i. split; [done|]. by rewrite (validated_pair r surface i j id Hv Hi).
Qed.

Definition talk_surface : list SurfaceMessage := st_surface (s_state talk).

Lemma plan_splits_no_pair_witness :
  ∃ plan, plan_from_surface small_compaction talk_surface (mkRange 0 2) 1200 = Ok plan ∧
    ∃ j, answers_call (signals talk_surface) 1 j "c1" ∧ in_range j (mkRange 0 2) = true.
Proof.
  destruct (plan_from_surface small_compaction talk_surface (mkRange 0 2) 1200) as [plan|e] eqn:Hp;
    [|exfalso; revert Hp; vm_compute; discriminate].
  exists plan. split; [done|].
  apply (plan_splits_no_pair small_compaction talk_surface (mkRange 0 2) 1200 plan Hp); [|done].
  vm_compute. by repeat constructor.
Defined.

(** A region with a call but not its result is refused. *)
Example half_pair :
  CompactionError_code <$> (match plan_from_surface small_compaction talk_surface (mkRange 0 1) 1200 with
                            | Err e => Some e | Ok _ => None end) = Some "UNBALANCED_TOOL_PAIR".
Proof. vm_compute. reflexivity. Qed.

(** What a recovery selects can be planned.  On an orderly surface (no result
    without its call, no id called twice at once) the region that the batch
    selects is accepted by the planner, which plans exactly this region: at most
    the configured number of messages, within the input bounds, none of them
    protected, at least one that is not a summary yet, and larger than the
    smallest summary. *)
Theorem selection_planned `{CompactionWire} cfg seeds li current r :
  orderly current → li_input li <= U64_MAX → (selection cfg seeds li current).1 = Some r →
  ∃ s q plan, r = mkRange (N.of_nat s) (N.of_nat (q - 1)) ∧ (s < q ≤ length current)%nat ∧
    plan_from_surface cfg current r (li_input li) = Ok plan ∧
    pl_messages plan = sm_message <$> slice current s q ∧
    pl_shadowed_event_seqs plan = sm_event_seq <$> slice current s q ∧
    N.of_nat (length (pl_messages plan)) <= cf_max_surface_messages cfg ∧
    li_minimum_summary li < sum_N (serialized_codepoints <$> pl_messages plan) <= li_input li ∧
    (∀ i, (s ≤ i < q)%nat → protected seeds li current i = false) ∧
    (∃ m, m ∈ pl_messages plan ∧ is_summary m = false).
Proof.
  intros Ho Hu (s & q & -> & Hr & [(e & He & Hf) Hw])%selected_region.
  pose proof (region_planned cfg seeds li current s q Ho Hu Hr) as Hp.
  destruct Hr as [_ [Hq _]%complete_boundary Hlt Hun Hc Hi _].
  assert (sum_N (serialized_codepoints <$> (sm_message <$> slice current s q))
          = sum_N (slice (sizes current) s q)) as Hs.
  { unfold sizes. by rewrite slice_fmap, <-list_fmap_compose. }
  eexists s, q, _. split_and!; [done|lia|lia|exact Hp|done|done| | | |done|].
  - simpl. rewrite length_fmap. unfold slice. rewrite length_take, length_drop. lia.
  - simpl. by rewrite Hs.
  - simpl. by rewrite Hs.
  - exists (sm_message e). split; [|done]. simpl. apply list_elem_of_fmap. by exists e.
Qed.

Definition talk_limits : Limits :=
  Service.limits summarizer (Service.summary_request summarizer [] "s1") None "s1" talk_surface 7.

Lemma selection_planned_witness :
  ∃ plan, plan_from_surface small_compaction talk_surface (mkRange 0 2) (li_input talk_limits) = Ok plan ∧
    length (pl_messages plan) = 3%nat.
Proof.
  destruct (selection_planned small_compaction [] talk_limits talk_surface (mkRange 0 2)) as
    (s & q & plan & Hr & Hlt & Hp & Hm & _); [vm_compute; reflexivity|vm_compute; discriminate|vm_compute; reflexivity|].
  exists plan. split; [exact Hp|]. injection Hr as Hs Hq. assert (s = 0%nat) as -> by lia.
  assert (q = 3%nat) as -> by lia. rewrite Hm. vm_compute. reflexivity.
Defined.

(** ** Recoveries *)

(** C19: a recovery only shortens what may be shortened.  Whatever its outcome, an
    error or a cancellation at any point included, as long as other tasks leave the
    surface alone: every entry of the seed is still on the surface, the latest
    message of the user, the latest runtime context and the latest workspace
    instructions are the same entries as before, the serialised surface and its
    length have not grown, and tool calls still pair with their results if they
    did. *)
Theorem recovery_protects `{ProtocolWire} `{CompactionWire} {S A} `{SessionPersistence S}
    (env : CompactEnv S A) svc trigger r window w :
  calm env →
  (∀ start id texts, let m := summary_message start id (Text <$> texts) in
     from_value (to_value m) = Ok m) →
  (∀ seq call text is_error, let m := pruned_message seq call text is_error in
     from_value (to_value m) = Ok m) →
  N.of_nat (length (surface_of w)) <= U64_MAX →
  let w' := (Service.compact_for_request env svc trigger r window w).2 in
  (∀ e, e ∈ surface_of w → sm_event_seq e ∈ seeds_of (cw_session w) → e ∈ surface_of w') ∧
  latest is_user (surface_of w') = latest is_user (surface_of w) ∧
  latest (of_plugin RUNTIME_CONTEXT_SOURCE) (surface_of w')
    = latest (of_plugin RUNTIME_CONTEXT_SOURCE) (surface_of w) ∧
  latest (of_plugin INSTRUCTIONS_SOURCE) (surface_of w')
    = latest (of_plugin INSTRUCTIONS_SOURCE) (surface_of w) ∧
  total_cp (surface_of w') <= total_cp (surface_of w) ∧
  (length (surface_of w') ≤ length (surface_of w))%nat ∧
  (orderly (surface_of w) → orderly (surface_of w')).
Proof.
  intros Hc Hs Hp Hl w'.
  destruct (request_shrinks env svc Hc Hs Hp trigger r window _ (seeds_of (cw_session w)) Hl w eq_refl)
    as [li Hr].
  fold w' in Hr. simpl in Hr. destruct (shrinks_protected _ _ _ _ _ Hr) as [Hseed Hlatest].
  split_and!; [exact Hseed|apply Hlatest; by left|apply Hlatest; right; by left|
    apply Hlatest; right; by right|by eapply shrinks_total| |by eapply shrinks_orderly].
  clear -Hr. induction Hr as [|a b c Hab _ IH]; [done|]. apply shrink_length in Hab. lia.
Qed.

Lemma talk_calm : calm quiet_compact_env.
Proof. by intros n s b a. Qed.

Lemma recovery_protects_witness :
  latest is_user (surface_of compacted_talk.2) = last talk_surface ∧
  length (surface_of compacted_talk.2) = 2%nat.
Proof.
  split; [|vm_compute; reflexivity].
  destruct (recovery_protects quiet_compact_env summarizer Manual
    (mkGenerateRequest "p" "m" None (derive_messages talk) None None None None None (Some "s1") None) None
    (mkCompactWorld talk (memory_of conversation) ∅ 1 []) talk_calm summary_is_read pruned_is_read)
    as (_ & Hu & _); [vm_compute; discriminate|].
  transitivity (latest is_user talk_surface); [|vm_compute; reflexivity]. exact Hu.
Defined.

(** C20: a recovery ends by itself.  The [2 * len + 1] rounds that the code allows
    are never the reason of its end: with any larger bound the run is the same,
    because each round that goes on turns fresh history into a summary or a tool
    result over the cap into one within it. *)
Theorem recovery_bounded `{ProtocolWire} `{CompactionWire} {S A} `{SessionPersistence S}
    (env : CompactEnv S A) svc trigger r seeds li overhead w more :
  calm env →
  (∀ start id texts, let m := summary_message start id (Text <$> texts) in
     from_value (to_value m) = Ok m) →
  (∀ seq call text is_error, let m := pruned_message seq call text is_error in
     from_value (to_value m) = Ok m) →
  N.of_nat (length (surface_of w)) <= U64_MAX →
  let rounds := (length (surface_of w) * 2 + 1)%nat in
  Service.recover env svc trigger r seeds li overhead rounds None 0 w
  = Service.recover env svc trigger r seeds li overhead (rounds + more) None 0 w.
Proof.
  intros Hc Hs Hp Hl rounds. pose proof (work_le (cs_config svc) li (surface_of w)) as Hw.
  apply recover_rounds; [done..|lia|lia].
Qed.

Lemma recovery_bounded_witness :
  let run n := Service.recover quiet_compact_env summarizer Manual
    (Service.summary_request summarizer [] "s1") [] talk_limits 0 n None 0 talk_world in
  run 15%nat = run 1000%nat ∧ is_ok (run 15%nat).1 = true.
Proof.
  split; [|vm_compute; reflexivity].
  apply (recovery_bounded quiet_compact_env summarizer Manual
    (Service.summary_request summarizer [] "s1") [] talk_limits 0 talk_world 985 talk_calm
    summary_is_read pruned_is_read). vm_compute. discriminate.
Defined.

(** ** The log *)





(** C31: the turns of an agent stay well bracketed with the real compaction.  With
    the compaction service in the loop, on whatever path it ends and whatever the
    other tasks do meanwhile, a turn that runs to its end leaves the log between
    turns, and an error leaves a log that such a turn has begun: the starts,
    summaries, replacements and ends of compactions and the pruned results are
    never out of place in a step. *)
Theorem turn_with_compaction `{ProtocolWire} `{LoopWire} {S A} `{SessionPersistence S}
    (env : LoopEnv S A) (cenv : nat → CompactEnv S A) active svc cfg fuel initial last w :
  quiet_env env → (∀ n, others_quiet (cenv n)) → phase_of (events_of w) = Some (Between last) →
  match run_turn (with_compaction cenv active svc (lc_options cfg) env) cfg fuel initial w with
  | (Ok _, w') =>
      phase_of (events_of w') = Some (Between last) ∨
      phase_of (events_of w') = Some (Between (u64_saturating_add last 1))
  | (Err _, w') => ∃ p, phase_of (events_of w') = Some p
  end.
Proof. intros Hq Hc. apply turn_phases. by apply with_compaction_quiet. Qed.

(** Notes of the user before the first turn. *)
Definition notes : list SessionEvent :=
  (λ n : nat, says ("n" +:+ fmt_N (N.of_nat n)) (long 250) (N.of_nat n)) <$> seq 0 6.
Definition loop_world : World MemorySessionPersistence :=
  mkWorld (session_of notes) (memory_of notes) Inbox.new None (Some "initial") 0.
Definition compacting_env : LoopEnv MemorySessionPersistence unit :=
  with_compaction (λ _, quiet_compact_env) (λ _, ∅) summarizer (mkOptions "p" "m" None None)
    (small_env None (λ _ _, answers "done")).
Definition roomy_config : LoopConfig := {|
  lc_options := mkOptions "p" "m" None None;
  lc_prompt_complete := true;
  lc_prompt_section := Prompt.mkPromptSection "agent-mode/minimal" 0 "Be brief.";
  lc_context_window _ _ := Some 3600;
  lc_max_steps := 4;
|}.
Definition long_turn :=
  run_turn compacting_env roomy_config 3 (user_message "m7" (long 200)) loop_world.

Lemma small_quiet_env answer : quiet_env (small_env None answer).
Proof.
  split; [|done|].
  - intros n s b i. simpl. unfold takes_notes. case_bool_decide; [|by exists []; rewrite app_nil_r].
    destruct (append_next _ _ _ _) as [[r s'] b'] eqn:Ha.
    apply append_next_inv in Ha as [[_ ->]|(seq & _ & _ & He)].
    + exists []. by rewrite app_nil_r.
    + eexists. split; [exact He|]. constructor; [by intros p|constructor].
  - intros n i call name arguments. vm_compute. constructor; [|constructor]. intros Hin.
    repeat (apply elem_of_cons in Hin as [[=]|Hin]). by apply elem_of_nil in Hin.
Qed.


Lemma quiet_others (n : nat) : others_quiet ((λ _, quiet_compact_env) n).
Proof. intros k s b a. exists []. by rewrite app_nil_r. Qed.

Lemma turn_with_compaction_witness :
  count_occ String.string_dec (event_type <$> events_of long_turn.2) "compaction/end" = 3%nat ∧
  phase_of (events_of long_turn.2) = Some (Between 1).
Proof.
  split; [vm_compute; reflexivity|].
  assert (is_ok long_turn.1 = true ∧ phase_of (events_of long_turn.2) ≠ Some (Between 0)) as [Hok Hn].
  { split; [vm_compute; reflexivity|vm_compute; discriminate]. }
  assert (phase_of (events_of loop_world) = Some (Between 0)) as Hp by (vm_compute; reflexivity).
  generalize (turn_with_compaction (small_env None (λ _ _, answers "done")) (λ _, quiet_compact_env)
    (λ _, ∅) summarizer roomy_config 3 (user_message "m7" (long 200)) 0 loop_world
    (small_quiet_env _) quiet_others Hp).
  change (run_turn _ _ _ _ _) with long_turn. revert Hok Hn. clear. generalize long_turn.
  intros [[u|e] w] Hok Hn Hr; [|discriminate Hok]. destruct Hr as [Hr|Hr]; [by destruct Hn|exact Hr].
Defined.

(** ** Calls without a result *)

(** Nothing behind an unanswered call is ever compacted.  When a call on the
    surface has no result behind it (the loop leaves such a call when a generation
    stops at the token limit), every region a recovery selects ends before it, for
    the rest of the session. *)
Theorem unanswered_call_blocks `{CompactionWire} cfg seeds li current r i e id :
  current !! i = Some e → id ∈ Compaction.tool_calls (sm_message e) →
  (∀ j e', (i ≤ j)%nat → current !! j = Some e' → id ∉ Compaction.tool_results (sm_message e')) →
  (selection cfg seeds li current).1 = Some r → rg_end r < N.of_nat i.
Proof.
  intros Hi Hid Hn (s & q & -> & [_ Hq Hlt _ _ _ _] & _)%selected_region.
  pose proof (unanswered_last current i e id q Hi Hid Hn Hq). simpl. lia.
Qed.

(** The result of [c2] is missing, so the long messages behind its call stay. *)
Definition cut_conversation : list SessionEvent :=
  [says "m0" (long 200) 0; says "m1" (long 200) 1; assistant "m4" "c2" 2; says "m5" (long 400) 3;
   says "m6" (long 400) 4; says "m7" (long 400) 5; says "m8" "go on" 6].
Definition cut_surface : list SurfaceMessage := st_surface (s_state (session_of cut_conversation)).

Lemma unanswered_call_blocks_witness :
  ∃ r, (selection small_compaction [] talk_limits cut_surface).1 = Some r ∧ rg_end r < 2.
Proof.
  destruct (selection small_compaction [] talk_limits cut_surface).1 as [r|] eqn:Hs;
    [|exfalso; revert Hs; vm_compute; discriminate].
  exists r. split; [done|].
  apply (unanswered_call_blocks small_compaction [] talk_limits cut_surface r 2
    (mkSurface 2 (assistant_call "m4" "c2") None) "c2"); [vm_compute; reflexivity| | |exact Hs].
  - vm_compute. constructor.
  - intros j e' Hj He'. do 7 (destruct j as [|j]; [try lia; vm_compute in He'; injection He' as <-; vm_compute;
      intros Hin; by apply elem_of_nil in Hin|]). by vm_compute in He'.
Defined.

(** Once the rest alone exceeds the bound, no request can be recovered. *)
Example cut_stays_too_large :
  CompactionError_code <$> (match
    (Service.compact_for_request quiet_compact_env summarizer Pressure
       (Service.summary_request summarizer [] "s1") (Some 1000)
       (mkCompactWorld (session_of cut_conversation) (memory_of cut_conversation) ∅ 0 [])).1
    with Err e => Some e | Ok _ => None end) = Some "COMPACTION_PROTECTED_INPUT_TOO_LARGE".
Proof. vm_compute. reflexivity. Qed.
