(* ===== verification/StorageProps.v ===== *)
(** * Properties of the key/value storage *)

From S2P Require Import Prelude Json Storage StorageFacts StorageRunFacts.

#[local] Open Scope N_scope.

(** ** A run of the registry over one back end in memory *)

Definition memory := StorageRegistry MemoryStorageBackend.
#[local] Abbreviation mem := MemoryStorageBackend.

(** A schedule: calls and sections of tasks, in turn. *)
Inductive move := Begin (t : nat) (c : Registry.Call) | Advance (t : nat).
Definition play1 (r : memory) (m : move) : option memory :=
  match m with
  | Begin t c => if sr_tasks r !! t is Some _ then None else Registry.begin t c r
  | Advance t => Registry.advance t r
  end.
Fixpoint play (l : list move) (r : memory) : option memory :=
  match l with [] => Some r | m :: l => r ← play1 r m; play l r end.

Lemma play_reaches l r r' : play l r = Some r' → rtc storage_step r r'.
Proof.
  revert r. induction l as [|m l IH]; intros r; simpl; [intros [= ->]; constructor|].
  destruct (play1 r m) as [r1|] eqn:Hm; simpl; [|done]. intros Hp.
  eapply rtc_l; [|by apply IH]. destruct m as [t c|t]; simpl in Hm; [|by eapply step_advance].
  destruct (sr_tasks r !! t) eqn:Ht; [done|]. by eapply step_begin.
Qed.

(** One back end in memory under the names [names]. *)
Definition with_memory (names : list string) : memory :=
  foldl (λ r name, (Registry.register_backend name 0%nat r).2)
    (Registry.at_store 0%nat MemoryBackend.new Registry.new) names.

Lemma with_memory_reachable names : reachable (with_memory names).
Proof.
  unfold with_memory.
  assert (∀ r : memory, reachable r → is_Some (sr_stores r !! 0%nat) →
    reachable (foldl (λ r name, (Registry.register_backend name 0%nat r).2) r names)) as Hgen.
  { induction names as [|name names IH]; intros r Hr Hs; simpl; [done|]. apply IH.
    - eapply rtc_r; [done|]. eapply step_register; [done|]. apply surjective_pairing.
    - unfold Registry.register_backend. repeat break_match; done. }
  apply Hgen; [|by eexists].
  eapply rtc_l; [|constructor]. by apply step_backend.
Qed.

Definition opened (t : nat) (name domain : string) : list move :=
  [Begin t (Registry.CallOpen name domain 1); Advance t; Advance t].
Definition written_by (t id : nat) (unit : string) (n : N) : list move :=
  [Begin t (Registry.CallPut id "notes" unit (json_u64 n)); Advance t; Advance t; Advance t].

(** Task 1 has opened a domain and task 2 has written its first unit. *)
Definition at_first_write : option memory :=
  play (opened 1 "mem" "prefs" ++ [Begin 2 (Registry.CallPut 0 "notes" "first" (json_u64 7));
                                   Advance 2; Advance 2]) (with_memory ["mem"]).

(** C6: commits take effect one at a time and in full, and are durable.  In every
    interleaving of openings, commits, closings and the shutdown, one step leaves
    what the readers of a domain see as it was, or it is the last section of one
    commit: then the document becomes the commit's change of the very document
    shown before (no update is lost), the revision counts it, its event is the
    next one broadcast, and the back end holds the new document already.  The back
    end's documents change in no other way than by such a write of the task that
    holds the write gate. *)
Theorem storage_commits_serialise {B} `{StorageBackendLaws B} (r r' : StorageRegistry B) :
  reachable r → storage_step r r' →
  (∀ id d, sr_heap r !! id = Some d → ∃ d', sr_heap r' !! id = Some d' ∧
     kd_name d' = kd_name d ∧ kd_backend d' = kd_backend d ∧
     (unseen d d' ∨ published r r' id d d')) ∧
  (∀ be b, sr_stores r !! be = Some b → ∃ b', sr_stores r' !! be = Some b' ∧
     ∀ name, stored b' !! name = stored b !! name ∨ written r be name (stored b' !! name)) ∧
  (∀ id d, sr_heap r' !! id = Some d → counted d ∧ validate_document (kd_document d) = Ok tt).
Proof.
  intros Hr Hstep. apply st_reachable_ok in Hr. split_and!.
  - by apply step_domains.
  - by apply step_stores.
  - intros id d Hd. pose proof (ok_step _ _ Hr Hstep) as Hr'.
    split; [by apply (ok_counted _ Hr' _ _ Hd)|by apply (ok_valid _ Hr' _ _ Hd)].
Qed.

Lemma first_write_reachable r : at_first_write = Some r → reachable r.
Proof.
  intros Hr. unfold reachable. transitivity (with_memory ["mem"]); [apply (with_memory_reachable ["mem"])|].
  exact (play_reaches _ _ _ Hr).
Qed.

(** What a client reads of domain [id]: a value and the revision. *)
Definition shows (id : nat) (unit : string) (o : option N) (revision : N) (r : memory) : bool :=
  match sr_heap r !! id with
  | Some d =>
      match kd_get "notes" unit d with
      | Ok v => bool_decide ((v ≫= as_u64) = o) && (kd_revision d =? revision)
      | Err _ => false
      end
  | None => false
  end.
Definition ran (o : option memory) (f : memory → bool) : bool :=
  match o with Some r => f r | None => false end.

Lemma ran_Some o f : ran o f = true → ∃ r, o = Some r ∧ f r = true.
Proof. destruct o; simpl; [eauto|done]. Qed.

Lemma storage_commits_serialise_witness :
  ∃ r r' : memory, at_first_write = Some r ∧ Registry.advance 2 r = Some r' ∧
    (∀ id d, sr_heap r !! id = Some d → ∃ d', sr_heap r' !! id = Some d' ∧
       (unseen d d' ∨ published r r' id d d')) ∧
    shows 0 "first" None 0 r = true ∧ shows 0 "first" (Some 7) 1 r' = true.
Proof.
  destruct (ran_Some at_first_write (shows 0 "first" None 0)) as (r & Hr & Hs); [by vm_compute|].
  destruct (ran_Some (at_first_write ≫= Registry.advance 2) (shows 0 "first" (Some 7) 1))
    as (r' & Ha & Hs'); [by vm_compute|]. rewrite Hr in Ha. simpl in Ha.
  exists r, r'. split; [exact Hr|]. split; [exact Ha|]. split; [|split; [exact Hs|exact Hs']].
  destruct (storage_commits_serialise r r') as [Hd _].
  - exact (first_write_reachable r Hr).
  - exact (step_advance r 2 r' Ha).
  - intros id d Hid. destruct (Hd id d Hid) as (d' & Hd' & _ & _ & Hcase).
    exists d'. split; [exact Hd'|exact Hcase].
Defined.

(** A [put] that returns is there.  When the last section of a [put] returns
    successfully, the domain shows the value under its table and unit (up to [==] of
    numbers), every other value is as it was before that section, the revision grew
    by at most one, and unless the value was there before it is durable already. *)
Theorem put_returns {B} `{StorageBackendLaws B} (r r' : StorageRegistry B) t id table unit v c :
  reachable r → put table unit v = Ok c → Registry.advance t r = Some r' →
  (sr_tasks r !! t = Some (Committing id c) ∨
   ∃ doc rev, sr_tasks r !! t = Some (Publishing id c doc rev)) →
  sr_tasks r' !! t = Some (Done (Ok None)) →
  ∃ d d', sr_heap r !! id = Some d ∧ sr_heap r' !! id = Some d' ∧
    option_Forall2 (≡) (Some v) (tables_get table unit (sd_tables (kd_document d'))) ∧
    (∀ table' unit', ¬ (table' = table ∧ unit' = unit) →
       tables_get table' unit' (sd_tables (kd_document d'))
       = tables_get table' unit' (sd_tables (kd_document d))) ∧
    (d' = d ∨ kd_revision d' = kd_revision d + 1 ∧ kd_gate d' = None ∧
              (sole r id → stored_of r' d' = Some (kd_document d'))).
Proof.
  intros Hr Hp Ha Ht Hd. apply st_reachable_ok in Hr.
  assert (∀ doc, cm_change c doc = put_change table unit v doc) as Hc.
  { unfold put in Hp. apply bind_Ok in Hp as (? & _ & Hp). apply bind_Ok in Hp as (? & _ & Hp).
    apply bind_Ok in Hp as (? & _ & Hp). by injection Hp as <-. }
  destruct (commit_returns r t id c r' Hr Ha Ht Hd) as (d & d' & Hd0 & Hd1 & Hcase).
  rewrite !Hc in Hcase. exists d, d'. split; [done|]. split; [done|].
  destruct Hcase as [[-> Heq]|(Hdoc & Hrev & Hg & Hs)].
  - split_and!; [|done|by left].
    pose proof (tables_eqb_get _ _ table unit Heq) as Hget.
    rewrite put_get, decide_True in Hget by done. exact Hget.
  - rewrite Hdoc. split_and!.
    + rewrite put_get, decide_True by done. by constructor.
    + intros table' unit' Hne. by rewrite put_get, decide_False.
    + right. rewrite <- Hdoc. done.
Qed.

(** The write of the first unit. *)
Definition first_write : Commit := mkCommit "notes" "first" Put (Some (json_u64 7)).
Definition publishes_first (r : memory) : bool :=
  match sr_tasks r !! 2%nat with
  | Some (Publishing 0 c _ _) => bool_decide (cm_table c = "notes" ∧ cm_unit c = "first") &&
      match cm_operation c, cm_value c with Put, Some (VNumber (PosInt 7)) => true | _, _ => false end
  | _ => false
  end.

Lemma publishes_first_spec r : publishes_first r = true →
  ∃ doc rev, sr_tasks r !! 2%nat = Some (Publishing 0 first_write doc rev).
Proof.
  unfold publishes_first. destruct (sr_tasks r !! 2%nat) as [[]|]; try done. destruct id; [|done].
  rewrite andb_true_iff, bool_decide_eq_true. intros [[? ?] Hc].
  destruct c as [table unit [] [[| |[[|[[[]| |]|[]|]]| |]| | |]|]]; simpl in *; try done; subst; eauto.
Qed.

Definition done_well (t : nat) (r : memory) : bool :=
  match sr_tasks r !! t with Some (Done (Ok None)) => true | _ => false end.
Lemma done_well_spec t r : done_well t r = true → sr_tasks r !! t = Some (Done (Ok None)).
Proof. unfold done_well. by destruct (sr_tasks r !! t) as [[| | | | | | | | | |[[|]|]]|]. Qed.

Lemma put_returns_witness :
  ∃ (r' : memory) d', at_first_write ≫= Registry.advance 2 = Some r' ∧ sr_heap r' !! 0%nat = Some d' ∧
    option_Forall2 (≡) (Some (json_u64 7)) (tables_get "notes" "first" (sd_tables (kd_document d'))).
Proof.
  destruct (ran_Some at_first_write publishes_first) as (r & Hr & Hs); [by vm_compute|].
  destruct (ran_Some (at_first_write ≫= Registry.advance 2) (done_well 2)) as (r' & Ha & Hd); [by vm_compute|].
  exists r'. pose proof Ha as Ha'. rewrite Hr in Ha.
  destruct (put_returns r r' 2 0 "notes" "first" (json_u64 7) first_write) as (d & d' & _ & Hd' & Hv & _).
  - exact (first_write_reachable r Hr).
  - reflexivity.
  - exact Ha.
  - right. exact (publishes_first_spec r Hs).
  - exact (done_well_spec 2 r' Hd).
  - exists d'. split; [exact Ha'|]. split; [exact Hd'|exact Hv].
Defined.

(** C27: the shutdown is final for every domain it can see.  If no opening is
    between its back end's [load] and the insertion of its domain when the shutdown
    begins, then from the moment its call returns no domain accepts a commit or has
    one on its way, and no document of any back end changes any more, whatever the
    clients do. *)
Theorem shutdown_quiet {B} `{StorageBackendLaws B} (r r1 r2 r3 : StorageRegistry B) t res :
  reachable r → sr_open_gate r = None → sr_tasks r !! t = None →
  Registry.begin t Registry.CallShutdown r = Some r1 → rtc storage_step r1 r2 →
  sr_tasks r2 !! t = Some (Done res) → rtc storage_step r2 r3 →
  (∀ id d, sr_heap r3 !! id = Some d → kd_accepting d = false ∧ kd_gate d = None) ∧
  (∀ be b, sr_stores r2 !! be = Some b → ∃ b', sr_stores r3 !! be = Some b' ∧ stored b' = stored b).
Proof.
  intros Hr Hg Ht Hb H12 Hdone H23. apply st_reachable_ok in Hr.
  pose proof (ok_begin _ _ _ _ Hr Ht Hb) as Hr1.
  assert (closing_down t r1) as Hc1.
  { simpl in Hb. injection Hb as <-. split_and!; [done|done|]. simpl. by rewrite lookup_insert_eq. }
  destruct (closing_down_steps t r1 r2 Hr1 Hc1 H12) as [Hr2 Hc2]. clear Hr1 Hc1 H12 Hb.
  induction H23 as [r2|r2 r2' r3 Hstep H23 IH].
  - destruct Hc2 as (_ & _ & Hq). rewrite Hdone in Hq. split; [exact Hq|]. eauto.
  - pose proof (ok_step _ _ Hr2 Hstep) as Hr2'. pose proof (closing_down_step _ _ _ Hr2 Hc2 Hstep) as Hc2'.
    assert (sr_tasks r2' !! t = Some (Done res)) as Hdone'.
    { destruct (step_task _ _ t Hstep) as [->|Ha]; [by eexists|done|].
      unfold Registry.advance in Ha. by rewrite Hdone in Ha. }
    destruct (IH Hdone' Hr2' Hc2') as [Hq Hst]. split; [exact Hq|]. intros be b Hbe.
    destruct (step_stores _ _ Hr2 Hstep _ _ Hbe) as (b1 & Hb1 & Hsame).
    destruct (Hst _ _ Hb1) as (b2 & Hb2 & Heq). exists b2. split; [done|]. rewrite Heq.
    apply map_eq. intros name. destruct (Hsame name) as [|Hw]; [done|].
    destruct Hw as (t' & id & c & doc & rev & d & _ & Hd & Hgd & _).
    destruct Hc2 as (_ & _ & Hq2). rewrite Hdone in Hq2. destruct (Hq2 _ _ Hd) as [_ Hn]. congruence.
Qed.

(** A domain is opened, written and shut down; then a client tries to write. *)
Definition one_domain : option memory :=
  play (opened 1 "mem" "prefs" ++ written_by 2 0 "first" 7) (with_memory ["mem"]).
Definition shut_down : list move := [Advance 3; Advance 3; Advance 3; Advance 3; Advance 3; Advance 3].
Definition late_write : list move := [Begin 4 (Registry.CallPut 0 "notes" "first" (json_u64 8))].

Definition nobody_opens (t : nat) (r : memory) : bool :=
  bool_decide (sr_open_gate r = None) && match sr_tasks r !! t with None => true | _ => false end.

Definition shutting_down : option memory := one_domain ≫= Registry.begin 3 Registry.CallShutdown.
Definition after_shutdown : option memory := shutting_down ≫= play shut_down.
Definition after_late_write : option memory := after_shutdown ≫= play late_write.

Lemma one_domain_reachable r : one_domain = Some r → reachable r.
Proof.
  intros Hr. unfold reachable. transitivity (with_memory ["mem"]); [apply (with_memory_reachable ["mem"])|].
  exact (play_reaches _ _ _ Hr).
Qed.

Lemma bind_Some_inv {A C} (o : option A) (f : A → option C) a c : o = Some a → o ≫= f = Some c → f a = Some c.
Proof. by intros ->. Qed.

Lemma shutdown_quiet_witness :
  ∃ r3 : memory, after_late_write = Some r3 ∧
    (∀ id d, sr_heap r3 !! id = Some d → kd_accepting d = false ∧ kd_gate d = None) ∧
    shows 0 "first" (Some 7) 1 r3 = true.
Proof.
  destruct (ran_Some one_domain (nobody_opens 3)) as (r & Hr & Hf); [by vm_compute|].
  destruct (ran_Some shutting_down (λ _, true)) as (r1 & H01 & _); [by vm_compute|].
  destruct (ran_Some after_shutdown (done_well 3)) as (r2 & H02 & Hd); [by vm_compute|].
  destruct (ran_Some after_late_write (shows 0 "first" (Some 7) 1)) as (r3 & H03 & Hs); [by vm_compute|].
  exists r3. split; [exact H03|]. split; [|exact Hs].
  apply andb_true_iff in Hf as [Hg Ht]. apply bool_decide_eq_true in Hg.
  destruct (shutdown_quiet r r1 r2 r3 3 (Ok None)) as [Hq _].
  - exact (one_domain_reachable r Hr).
  - exact Hg.
  - destruct (sr_tasks r !! 3%nat); [discriminate Ht|reflexivity].
  - exact (bind_Some_inv _ _ _ _ Hr H01).
  - exact (play_reaches _ _ _ (bind_Some_inv _ _ _ _ H01 H02)).
  - exact (done_well_spec 3 r2 Hd).
  - exact (play_reaches _ _ _ (bind_Some_inv _ _ _ _ H02 H03)).
  - exact Hq.
Defined.

(** Task 1 waits for the load of a document; then task 2 shuts down; then task 1
    gets its domain and task 3 writes to it. *)
Definition loading_domain : option memory :=
  play [Begin 1 (Registry.CallOpen "mem" "prefs" 1); Advance 1] (with_memory ["mem"]).
Definition closing_early : option memory := loading_domain ≫= Registry.begin 2 Registry.CallShutdown.
Definition closed_early : option memory := closing_early ≫= play [Advance 2; Advance 2; Advance 2; Advance 2].
Definition opened_late : option memory := closed_early ≫= play ([Advance 1] ++ written_by 3 0 "first" 7).

Definition stores_prefs (r : memory) : bool :=
  match sr_stores r !! 0%nat ≫= (λ b, stored b !! "prefs") with Some _ => true | None => false end.

(** C28: an opening on its way escapes the shutdown.  The shutdown takes no part in
    the open gate: a domain whose document is being loaded while the shutdown runs
    is inserted behind it.  From a reachable state, a shutdown begins and returns
    successfully with no domain in the registry and no document stored; afterwards a
    commit is accepted, writes its document to the back end that was shut down, and
    returns successfully. *)
Theorem shutdown_misses_opening :
  ∃ r0 r1 r2 r3 : memory, reachable r0 ∧ sr_tasks r0 !! 2%nat = None ∧
    Registry.begin 2 Registry.CallShutdown r0 = Some r1 ∧ rtc storage_step r1 r2 ∧
    sr_tasks r2 !! 2%nat = Some (Done (Ok None)) ∧ sr_heap r2 = ∅ ∧ stores_prefs r2 = false ∧
    rtc storage_step r2 r3 ∧ sr_tasks r3 !! 3%nat = Some (Done (Ok None)) ∧
    shows 0 "first" (Some 7) 1 r3 = true ∧ stores_prefs r3 = true.
Proof.
  destruct (ran_Some loading_domain (λ r, match sr_tasks r !! 2%nat with None => true | _ => false end))
    as (r0 & Hr0 & Hf); [by vm_compute|].
  destruct (ran_Some closing_early (λ _, true)) as (r1 & Hr1 & _); [by vm_compute|].
  destruct (ran_Some closed_early (λ r, done_well 2 r && bool_decide (dom (sr_heap r) = ∅) && negb (stores_prefs r)))
    as (r2 & Hr2 & H2); [by vm_compute|].
  destruct (ran_Some opened_late (λ r, done_well 3 r && shows 0 "first" (Some 7) 1 r && stores_prefs r))
    as (r3 & Hr3 & H3); [by vm_compute|].
  rewrite !andb_true_iff, bool_decide_eq_true, negb_true_iff in H2. destruct H2 as [[Hd2 He] Hs2].
  rewrite !andb_true_iff in H3. destruct H3 as [[Hd3 Hv] Hs3].
  exists r0, r1, r2, r3. split.
  { unfold reachable. transitivity (with_memory ["mem"]); [apply (with_memory_reachable ["mem"])|].
    exact (play_reaches _ _ _ Hr0). }
  split; [clear - Hf; by destruct (sr_tasks r0 !! 2%nat)|]. split; [exact (bind_Some_inv _ _ _ _ Hr0 Hr1)|].
  split; [exact (play_reaches _ _ _ (bind_Some_inv _ _ _ _ Hr1 Hr2))|].
  split; [exact (done_well_spec 2 r2 Hd2)|]. split; [clear - He; by apply dom_empty_inv_L|]. split; [exact Hs2|].
  split; [exact (play_reaches _ _ _ (bind_Some_inv _ _ _ _ Hr2 Hr3))|].
  split; [exact (done_well_spec 3 r3 Hd3)|]. split; [exact Hv|exact Hs3].
Qed.

(** The names of domains, tables and units: words of lower-case letters and digits
    joined by single hyphens, with a letter first. *)
Theorem names_are_words name :
  ensure_name name = Ok tt ↔
  ∃ a w words, is_ascii_lowercase a = true ∧ Forall name_char w ∧ Forall word words ∧
    bytes_of name = join_dash ((a :: w) :: words).
Proof. apply ensure_name_spec. Qed.

(** One back end under two names: each name has its own domain over the same
    document, and a commit through the second domain replaces what the first one
    wrote ([sole] does not hold). *)
Example two_names_lose_an_update :
  ran (play (opened 1 "a" "prefs" ++ opened 2 "b" "prefs" ++ written_by 3 0 "first" 7 ++ written_by 4 1 "second" 8)
         (with_memory ["a"; "b"]))
    (λ r, shows 0 "first" (Some 7) 1 r && shows 1 "second" (Some 8) 1 r &&
       match sr_stores r !! 0%nat ≫= (λ b, stored b !! "prefs") with
       | Some d => bool_decide (tables_get "notes" "first" (sd_tables d) ≫= as_u64 = None) &&
                   bool_decide (tables_get "notes" "second" (sd_tables d) ≫= as_u64 = Some 8)
       | None => false
       end) = true.
Proof. by vm_compute. Qed.
