(* ===== verification/RemoteProps.v ===== *)
(** * Properties of remote access *)

From S2P Require Import Prelude RemoteAccess RemoteFacts RemoteRunFacts.

#[local] Open Scope N_scope.

(** ** A first start, for the witnesses: one process, no faults *)

Definition remote_config : RemoteAccessConfig := mkRemoteConfig true true (300 * 10 ^ 9) (3600 * 10 ^ 9).
Definition hex32 (c : ascii) : string := string_of (repeat c 32).
Definition uuid36 (c : ascii) : string := string_of (repeat c 36).
(** The moment [now], with identifiers made of the character [c]. *)
Definition moment (now : N) (c : ascii) : RemoteEnv :=
  mkRemoteEnv now (λ i, if (i <? 2)%nat then hex32 c else uuid36 c) (λ _, None) 0.

#[local] Abbreviation file := "remote-access.json".
#[local] Abbreviation show := (λ path : string, path).
#[local] Abbreviation sample_run := (remote_run file show "exists" "loop").
#[local] Abbreviation sample_step := (remote_step file show "exists" "loop").

Definition phone_token : string := random_secret "tvp" (moment 1000 "a").
Definition phone_secret : string := random_secret "tvs" (moment 2000 "b").

Definition started : RemoteWorld :=
  match Remote.open file show "loop" (moment 0 "0") remote_config ∅ with
  | Ok w => w
  | Err _ => mkRemoteWorld remote_config RemoteState_default ∅ false 0 []
  end.
Definition issued_world : RemoteWorld := (Remote.issue_pairing (moment 1000 "a") started).2.
Definition paired_world : RemoteWorld :=
  (Remote.exchange_pairing file show "exists" (moment 2000 "b") phone_token "phone" issued_world).2.
Definition pairing_labels : list remote_label :=
  [LIssued phone_token 301000; LExchanged true (uuid36 "b") phone_token phone_secret 3602000].

Lemma moment_ok now c : is_u64 now → env_ok (moment now c).
Proof. intros Hn. split; [done|]. unfold uuid_text, moment, uuid36. simpl. reflexivity. Qed.

Lemma started_run : sample_run [] started.
Proof. by apply (run_start _ _ _ _ (moment 0 "0") remote_config ∅). Qed.

Lemma issued_run : sample_run [LIssued phone_token 301000] issued_world.
Proof.
  apply (run_step _ _ _ _ [] started); [apply started_run|].
  apply (step_issue _ _ _ _ (moment 1000 "a") started (Ok (mkPairingToken phone_token 301000)));
    [by apply moment_ok|by vm_compute].
Qed.

Lemma paired_run : sample_run pairing_labels paired_world.
Proof.
  apply (run_step _ _ _ _ [LIssued phone_token 301000] issued_world); [apply issued_run|].
  apply (step_exchange _ _ _ _ (moment 2000 "b") phone_token "phone" issued_world
    (Ok (mkIssuedSession (mkDeviceDescriptor (uuid36 "b") "phone" 2000 2000 3602000 DeviceActive) phone_secret)));
    [by apply moment_ok|by vm_compute].
Qed.

(** C5: whoever is authenticated was paired and not revoked.  In every run, with
    input and output failing at any step and restarts at any time, an accepted
    secret has the hash of a secret that an exchange gave to the same device; the
    session has not expired; and if that exchange had returned successfully, no
    later revocation of the device, nor of all devices, has returned successfully
    before this moment, on either side of a restart. *)
Theorem authenticated_was_paired `{RemoteCodecLaws} name display already_exists link_loop labels w id secret now w' :
  remote_run name display already_exists link_loop labels w →
  remote_step name display already_exists link_loop w (LAuthenticated id secret now) w' →
  ∃ ok token issued_secret expires_at before after,
    labels = before ++ (LExchanged ok id token issued_secret expires_at :: after) ∧
    Remote.hash_secret secret = Remote.hash_secret issued_secret ∧ now < expires_at ∧
    (ok = true → (LRevoked id ∉ after) ∧ (LRevokedAll ∉ after)).
Proof.
  intros Hrun Hstep. apply run_ok_all in Hrun; [|done].
  remember (LAuthenticated id secret now) as l eqn:Hl.
  destruct Hstep as [env w r w' _ _|env token dn w r w' _ _|env s w r w' Henv Ha|env i w r w' _ _|env w r w' _ _|w|];
    unfold unsaved in *; try (destruct r; repeat case_decide; discriminate Hl); try discriminate Hl.
  - exfalso. unfold exchanged in Hl. destruct r; [done|]. destruct (add_duration _ _); [|done]. by case_decide.
  - destruct r as [c|]; [|by case_decide]. injection Hl as <- <- <-.
    destruct (authenticate_spec _ _ _ _ _ _ _ _ _ Hrun Ha) as (d & Hd & Hu & Hx & _ & Hh).
    destruct (run_devices _ _ _ Hrun _ _ Hd Hu) as (ok & token & secret' & before & after & -> & Hs & Hrev).
    exists ok, token, secret', (dv_expires_at d), before, after. split; [done|]. split.
    { rewrite Hs, decode_hex_hash in Hh by apply sha256_length. by injection Hh. }
    split; [done|]. intros Hok. specialize (Hrev Hok). rewrite Forall_forall in Hrev.
    split; intros Hin; by apply (Hrev _ Hin).
Qed.

Lemma authenticated_was_paired_witness :
  ∃ w' ok token secret expires_at before after,
    sample_step paired_world (LAuthenticated (uuid36 "b") phone_secret 3000) w' ∧
    pairing_labels = before ++ (LExchanged ok (uuid36 "b") token secret expires_at :: after) ∧
    Remote.hash_secret phone_secret = Remote.hash_secret secret ∧ 3000 < expires_at ∧
    (ok = true → (LRevoked (uuid36 "b") ∉ after) ∧ (LRevokedAll ∉ after)).
Proof.
  assert (sample_step paired_world (LAuthenticated (uuid36 "b") phone_secret 3000) paired_world) as Hstep.
  { apply (step_authenticate _ _ _ _ (moment 3000 "c") phone_secret paired_world
      (Ok (mkDeviceContext (uuid36 "b") 3602000))); [by apply moment_ok|by vm_compute]. }
  destruct (authenticated_was_paired file show "exists" "loop" _ _ _ _ _ _ paired_run Hstep)
    as (ok & token & secret & expires & before & after & Heq & Hh & Hx & Hr).
  exists paired_world, ok, token, secret, expires, before, after.
  split; [exact Hstep|]. split; [exact Heq|]. split; [exact Hh|]. split; [exact Hx|exact Hr].
Defined.

(** C25: a pairing token pairs one device.  In every run, each exchange that got as
    far as replacing the store's file used a token with the hash of the token that
    was issued last, and since that token was issued no other token was issued, no
    exchange succeeded and the process was not restarted. *)
Theorem pairing_single_use `{RemoteCodecLaws} name display already_exists link_loop labels w
    before ok id token secret expires_at after :
  remote_run name display already_exists link_loop labels w →
  labels = before ++ (LExchanged ok id token secret expires_at :: after) →
  ∃ token' expires' before' since, before = before' ++ (LIssued token' expires' :: since) ∧
    Remote.hash_secret token = Remote.hash_secret token' ∧
    Forall (λ l, ¬ spends l) since.
Proof.
  intros Hrun. revert after. induction Hrun as [|labels w l w' Hrun IH Hstep]; intros after Heq.
  { by destruct before. }
  destruct after as [|x after _] using rev_ind.
  2:{ rewrite app_comm_cons, app_assoc in Heq. apply app_inj_tail in Heq as [-> _]. by eapply IH. }
  apply app_inj_tail in Heq as [-> Hl]. clear IH.
  apply run_ok_all in Hrun; [|done].
  destruct Hstep as [env w r w' _ _|env tk dn w r w' Henv He|env s w r w' _ _|env i w r w' _ _|env w r w' _ _|w|];
    unfold unsaved in *; try (destruct r; repeat case_decide; discriminate Hl); try discriminate Hl.
  assert (tk = token ∧ (is_ok r = true ∨ rw_files w' !! name ≠ rw_files w !! name)) as [-> Hcase].
  { unfold exchanged in Hl. destruct r; [injection Hl; auto|]. destruct (add_duration _ _); [|done].
    case_decide; [done|]. injection Hl; auto. }
  destruct (exchange_spec _ _ _ _ _ _ _ _ _ _ Hrun Henv He Hcase) as (p & ? & ? & Hp & _ & Hh & _).
  destruct (run_pairing _ _ _ Hrun _ Hp) as (token' & before' & since & -> & Hh' & Hsp).
  exists token', (sp_expires_at p), before', since. split; [done|]. split; [congruence|done].
Qed.

Lemma pairing_single_use_witness :
  ∃ token' expires' before' since, [LIssued phone_token 301000] = before' ++ (LIssued token' expires' :: since) ∧
    Remote.hash_secret phone_token = Remote.hash_secret token' ∧ Forall (λ l, ¬ spends l) since.
Proof.
  exact (pairing_single_use file show "exists" "loop" pairing_labels paired_world [LIssued phone_token 301000]
    true (uuid36 "b") phone_token phone_secret 3602000 [] paired_run eq_refl).
Defined.

(** C26: a restart brings back the devices, never locks the owner out and loses no
    revocation.  Whatever failed before, a start over the files of a run without a
    fault succeeds, and its state is the state in memory without the pairing:
    every device, with its name, secret, times and revocation, and no other.  The
    one exception is a write that failed after it had replaced the file, with no
    exchange nor restart since: then the state is the one of that single pairing,
    touch or revocation, applied to the state in memory.  So each device that
    the new process accepts was accepted by the old one, with the same secret and
    expiry, or belongs to an exchange that failed while it replaced the file. *)
Theorem store_reloads `{RemoteCodecLaws} name display already_exists link_loop labels w env config :
  remote_run name display already_exists link_loop labels w →
  (rc_enabled config = true → rc_trusted_tunnel config = true) →
  rc_pairing_ttl config ≠ 0 → rc_session_ttl config ≠ 0 → (∀ i, re_fault env i = None) →
  ∃ w', Remote.open name display link_loop env config (rw_files w) = Ok w' ∧
    state_ok (rw_state w') ∧ rs_pairing (rw_state w') = None ∧
    (rw_state w' = Remote.set_pairing None (rw_state w) ∨
     attempted (Remote.set_pairing None (rw_state w)) (rw_state w') ∧ behind labels) ∧
    ∀ id d, rs_devices (rw_state w') !! id = Some d → dv_revoked_at d = None →
      (∃ d0, rs_devices (rw_state w) !! id = Some d0 ∧ same_session d0 d) ∨
      lost labels id (dv_secret_hash d) (dv_expires_at d).
Proof.
  intros Hrun Ht Hp Hs Hf. apply run_ok_all in Hrun; [|done].
  destruct (run_disk _ _ _ Hrun) as (s & Hd & Hok & Hfrom & Hstep).
  unfold Remote.open. destruct (rc_enabled config && negb (rc_trusted_tunnel config)) eqn:He.
  { apply andb_true_iff in He as [He Hn]. by rewrite Ht in Hn. }
  destruct (N.eqb_spec (rc_pairing_ttl config) 0); [done|]. destruct (N.eqb_spec (rc_session_ttl config) 0); [done|].
  simpl. rewrite (load_on_disk name display link_loop env (rw_files w) s); [|done..].
  eexists. split; [done|]. split; [by apply state_ok_pairing|]. split; [done|]. split; [exact Hstep|exact Hfrom].
Qed.

Lemma store_reloads_witness :
  ∃ w', Remote.open file show "loop" (moment 9000 "d") remote_config (rw_files paired_world) = Ok w' ∧
    rw_state w' = Remote.set_pairing None (rw_state paired_world) ∧
    dom (rs_devices (rw_state w')) = {[ uuid36 "b" ]}.
Proof.
  destruct (store_reloads file show "exists" "loop" pairing_labels paired_world (moment 9000 "d") remote_config)
    as (w' & Ho & _ & _ & Hs & _).
  - exact paired_run.
  - reflexivity.
  - discriminate.
  - discriminate.
  - reflexivity.
  - assert (rw_state w' = Remote.set_pairing None (rw_state paired_world)) as Heq.
    { destruct Hs as [Hs|[_ (before & l & after & Hl & Hu & _)]]; [exact Hs|]. exfalso.
      destruct before as [|x [|y [|]]]; simpl in Hl; injection Hl; intros; subst; exact Hu || discriminate. }
    exists w'. split; [exact Ho|]. split; [exact Heq|]. rewrite Heq. vm_compute. reflexivity.
Defined.

(** Pairing evicts no session in use.  A successful exchange adds its device,
    uses up the pairing, stays within the limit, is durable, and keeps every device
    that is neither revoked nor expired; and the limit is an obstacle only when 256
    such devices exist. *)
Theorem exchange_evicts_inactive `{RemoteCodecLaws} name display already_exists link_loop labels w env token dn s w' :
  remote_run name display already_exists link_loop labels w → env_ok env →
  Remote.exchange_pairing name display already_exists env token dn w = (Ok s, w') →
  rs_devices (rw_state w') !! re_uuid env 3 = Some (new_device env dn (dd_expires_at (is_device s))) ∧
  rs_pairing (rw_state w') = None ∧ (size (rs_devices (rw_state w')) ≤ MAX_DEVICES)%nat ∧
  on_disk name (rw_files w') (rw_state w') ∧
  (∀ id d, rs_devices (rw_state w) !! id = Some d → inactive (re_now env) d = false → id ≠ re_uuid env 3 →
     rs_devices (rw_state w') !! id = Some d) ∧
  ¬ (size (rs_devices (rw_state w)) = MAX_DEVICES ∧
     ∀ id d, rs_devices (rw_state w) !! id = Some d → inactive (re_now env) d = false).
Proof.
  intros Hrun Henv He. apply run_ok_all in Hrun; [|done].
  pose proof (run_state _ _ _ Hrun) as Hs.
  destruct (exchange_spec _ _ _ _ _ _ _ _ _ _ Hrun Henv He (or_introl eq_refl))
    as (p & expires & c & _ & _ & _ & _ & Hc & Hroom & Hst & _ & _ & Hx & Hdisk).
  rewrite Hst, Hx. rewrite Hc in *. unfold Remote.add_device. cbn [rs_devices rs_pairing].
  split; [apply lookup_insert_eq|]. split; [done|]. split.
  { rewrite map_size_insert. clear Hst Hdisk. destruct (_ !! _); cbn [id]; lia. }
  split; [done|]. split.
  - intros id d Hd Ha Hne. rewrite lookup_insert_ne by done. by apply prune_keeps.
  - intros Hfull. apply prune_full in Hfull; [|done]. lia.
Qed.

Lemma exchange_evicts_inactive_witness :
  ∃ s, Remote.exchange_pairing file show "exists" (moment 2000 "b") phone_token "phone" issued_world = (Ok s, paired_world) ∧
    rs_devices (rw_state paired_world) !! uuid36 "b" = Some (new_device (moment 2000 "b") "phone" (dd_expires_at (is_device s))) ∧
    (size (rs_devices (rw_state paired_world)) ≤ MAX_DEVICES)%nat.
Proof.
  assert (∃ s, Remote.exchange_pairing file show "exists" (moment 2000 "b") phone_token "phone" issued_world = (Ok s, paired_world))
    as [s He].
  { exists (mkIssuedSession (mkDeviceDescriptor (uuid36 "b") "phone" 2000 2000 3602000 DeviceActive) phone_secret).
    by vm_compute. }
  exists s. split; [exact He|].
  destruct (exchange_evicts_inactive file show "exists" "loop" [LIssued phone_token 301000] issued_world
    (moment 2000 "b") phone_token "phone" s paired_world issued_run (moment_ok 2000 "b" ltac:(done)) He)
    as (Hd & _ & Hz & _).
  split; [exact Hd|exact Hz].
Defined.

(** Random identifiers in their simple form, and no fault. *)
Definition fair (name : string) (env : RemoteEnv) (files : gmap string StoreNode) : Prop :=
  env_ok env ∧ (∀ i, re_fault env i = None) ∧ files !! Remote.temporary name env = None ∧
  (∀ i, (i < 2)%nat → str_len (re_uuid env i) = 32 ∧ Forall printable (bytes_of (re_uuid env i))).

(** Pairing works.  From every reachable state with remote access enabled and a
    place for a device: a token issued now and exchanged in time, with a valid
    device name, gives a secret that authenticates its device until the session
    expires, if input and output do not fail and no other device has a secret of
    the same hash. *)
Theorem pairing_works `{RemoteCodecLaws} name display already_exists link_loop labels w env1 env2 env3 dn e1 e2 :
  remote_run name display already_exists link_loop labels w → rc_enabled (rw_config w) = true →
  fair name env1 (rw_files w) → fair name env2 (rw_files w) → fair name env3 (rw_files w) →
  validate_device_name dn = Ok tt →
  add_duration (re_now env1) (rc_pairing_ttl (rw_config w)) = Ok e1 → re_now env2 < e1 →
  add_duration (re_now env2) (rc_session_ttl (rw_config w)) = Ok e2 → re_now env3 < e2 →
  (size (rs_devices (rw_state w)) < MAX_DEVICES ∨
   ∃ id d, rs_devices (rw_state w) !! id = Some d ∧ inactive (re_now env2) d = true)%nat →
  (∀ id d, rs_devices (rw_state w) !! id = Some d →
     decode_hash (dv_secret_hash d) ≠ Some (Remote.hash_secret (random_secret "tvs" env2))) →
  ∃ token w1 s w2 w3, Remote.issue_pairing env1 w = (Ok token, w1) ∧
    Remote.exchange_pairing name display already_exists env2 (pt_token token) dn w1 = (Ok s, w2) ∧
    Remote.authenticate name display already_exists env3 (is_session_secret s) w2
      = Some (Ok (mkDeviceContext (re_uuid env2 3) e2), w3).
Proof.
  intros Hrun Hen (Hok1 & _ & _ & Hu1) (Hok2 & Hf2 & Ht2 & Hu2) (Hok3 & Hf3 & Ht3 & _) Hdn He1 Hlt1 He2 Hlt2 Hroom Hfresh.
  pose proof (run_state _ _ _ (run_ok_all _ _ _ _ _ _ Hrun)) as Hs.
  pose proof (issue_succeeds env1 w e1 Hen He1) as Hi. set (w1 := Remote.with_state _ w) in Hi.
  assert (state_ok (rw_state w1)) as Hs1 by (by apply state_ok_pairing).
  destruct (exchange_succeeds name display already_exists env2 (random_secret "tvp" env1) dn w1
    (mkPairing (Remote.hash_secret (random_secret "tvp" env1)) e1) e2)
    as (s & w2 & bytes & Hx & Hsec & Hcfg & Hst & Hfi); try done.
  { by apply random_secret_valid; [repeat constructor| |]. }
  { intros [Hz Hall]. change (rs_devices (rw_state w1)) with (rs_devices (rw_state w)) in Hz.
    destruct Hroom as [Hlt|(id & d & Hd & Ha)]; [by rewrite Hz in Hlt; apply Nat.lt_irrefl in Hlt|].
    apply Hall in Hd. congruence. }
  assert (state_ok (rw_state w2)) as Hs2.
  { pose proof (run_step _ _ _ _ _ _ _ _ Hrun (step_issue name display already_exists link_loop _ _ _ _ Hok1 Hi)) as Hrun1.
    pose proof (run_step _ _ _ _ _ _ _ _ Hrun1 (step_exchange name display already_exists link_loop _ _ _ _ _ _ Hok2 Hx)) as Hrun2.
    exact (run_state _ _ _ (run_ok_all _ _ _ _ _ _ Hrun2)). }
  assert (rs_devices (rw_state w2) !! re_uuid env2 3 = Some (new_device env2 dn e2)) as Hd.
  { rewrite Hst. apply lookup_insert_eq. }
  destruct (authenticate_succeeds name display already_exists env3 (random_secret "tvs" env2) w2
    (re_uuid env2 3) (new_device env2 dn e2)) as [w3 Ha]; try done.
  { by rewrite Hcfg. }
  { by apply random_secret_valid; [repeat constructor| |]. }
  { apply decode_hex_hash, sha256_length. }
  { rewrite Hst. unfold Remote.add_device. cbn [rs_devices].
    intros id d [[<- <-]|[Hne Hid]]%lookup_insert_Some Hh; [done|].
    apply prune_from in Hid. by apply Hfresh in Hid. }
  { rewrite Hfi. rewrite lookup_insert_ne by (apply not_eq_sym, temporary_ne).
    apply lookup_delete_None. by right. }
  exists (mkPairingToken (random_secret "tvp" env1) e1), w1, s, w2, w3.
  split; [done|]. split; [exact Hx|]. rewrite Hsec. exact Ha.
Qed.

Lemma started_no_devices id d : rs_devices (rw_state started) !! id = Some d → False.
Proof. change (rs_devices (rw_state started)) with (∅ : gmap string StoredDevice). by rewrite lookup_empty. Qed.

Lemma moment_fair now c : is_u64 now → printable c → fair file (moment now c) (rw_files started).
Proof.
  intros Hn Hc. split; [by apply moment_ok|]. split; [done|]. split; [done|].
  intros i Hi. unfold moment, re_uuid. destruct (Nat.ltb_spec i 2); [|lia]. split; [reflexivity|].
  unfold hex32. rewrite bytes_string_of. apply Forall_forall. intros a Ha%list_elem_of_In%repeat_spec. by subst.
Qed.

Lemma pairing_works_witness :
  ∃ token w1 s w2 w3, Remote.issue_pairing (moment 1000 "a") started = (Ok token, w1) ∧
    Remote.exchange_pairing file show "exists" (moment 2000 "b") (pt_token token) "phone" w1 = (Ok s, w2) ∧
    Remote.authenticate file show "exists" (moment 90000 "c") (is_session_secret s) w2
      = Some (Ok (mkDeviceContext (uuid36 "b") 3602000), w3).
Proof.
  apply (pairing_works file show "exists" "loop" [] started (moment 1000 "a") (moment 2000 "b") (moment 90000 "c")
    "phone" 301000 3602000).
  - exact started_run.
  - reflexivity.
  - exact (moment_fair 1000 "a" ltac:(done) ltac:(done)).
  - exact (moment_fair 2000 "b" ltac:(done) ltac:(done)).
  - exact (moment_fair 90000 "c" ltac:(done) ltac:(done)).
  - reflexivity.
  - reflexivity.
  - reflexivity.
  - reflexivity.
  - reflexivity.
  - left. change (size (rs_devices (rw_state started))) with 0%nat. apply Nat.lt_0_succ.
  - intros id d Hd. destruct (started_no_devices id d Hd).
Defined.
