(* ===== verification/AttachmentProps.v ===== *)
(** * Image attachments: properties

    What is read is what the identifier names, what is saved stays readable, a
    failed batch leaves nothing; the headers are read in range; and two defects: the
    rollback of a batch takes a file that another task was told it had saved, and
    the data URLs of images are refused. *)

From S2P Require Import Prelude Json Protocol Jsonl JsonlFacts Attachments AttachmentFacts.

#[local] Open Scope N_scope.

(** ** Concrete images and a concrete disk, for the witnesses *)

(** The bytes themselves, filled up, and their number; long ones are not told apart. *)
Definition toy_digest : Sha256 := λ data,
  if (length data <=? 31)%nat then data ++ repeat "0"%char (31 - length data) ++ [ascii_of_nat (length data)]
  else repeat "z"%char 32.
Lemma toy_digest_law : @Sha256Law toy_digest.
Proof.
  intros data. unfold digest_of, toy_digest. destruct (Nat.leb_spec (length data) 31); [|done].
  rewrite !length_app, repeat_length. cbn [length]. lia.
Qed.

Definition gif (w h : N) : bytes := bytes_of "GIF89a" ++ chars [w; 0; h; 0].
Definition red : AttachmentInput := mkInput (gif 3 2) (Some "red.gif").
Definition blue : AttachmentInput := mkInput (gif 2 5) None.

Definition quiet_disk : AttachmentDisk :=
  {| at_others := λ _ nodes, nodes; at_fault := λ _, None; at_written := λ _, O; at_uuid := λ _, "u" |}.
(** A full disk at one step. *)
Definition full_disk (step : nat) : AttachmentDisk :=
  {| at_others := λ _ nodes, nodes;
     at_fault := λ i, if (i =? step)%nat then Some "No space left on device (os error 28)" else None;
     at_written := λ _, 4%nat; at_uuid := λ _, "u" |}.

Definition stored_red : Nodes := {[@stored_name toy_digest (gif 3 2) := NodeFile (gif 3 2)]}.
Definition red_ref : AttachmentRef :=
  mkRef (from_digest (toy_digest (gif 3 2))) Gif 10 3 2 (Some "red.gif").

(** The outcome of a computation. *)
Definition outcome {A} (p : option (result AttachmentError A * AttachmentDir)) :
    option (result AttachmentError A) := fst <$> p.
Definition left_behind {A} (p : option (result AttachmentError A * AttachmentDir)) : list string :=
  match p with Some (_, s) => (map_to_list (dir_nodes s)).*1 | None => [] end.

Lemma outcome_ran {A} (p : option (result AttachmentError A * AttachmentDir)) r :
  outcome p = Some r → ∃ s', p = Some (r, s').
Proof. destruct p as [[r' s']|]; [|done]. intros [= ->]. eauto. Qed.

Lemma toy_red data :
  digest_of (Sha256 := toy_digest) data = digest_of (Sha256 := toy_digest) (ai_data red) → data = ai_data red.
Proof.
  assert (digest_of (Sha256 := toy_digest) (ai_data red)
          = (ai_data red ++ repeat "0"%char 21) ++ [ascii_of_nat 10]) as -> by (vm_compute; reflexivity).
  unfold digest_of, toy_digest. destruct (Nat.leb_spec (length data) 31) as [Hl|Hl]; [|by vm_compute].
  intros H. rewrite app_assoc in H. apply app_inj_2 in H as [Hd Hn]; [|done].
  injection Hn as Hn. apply (f_equal nat_of_ascii) in Hn.
  rewrite nat_ascii_embedding in Hn by lia. apply (f_equal (take (length data))) in Hd.
  rewrite take_app_length in Hd. rewrite Hd, Hn. vm_compute. reflexivity.
Qed.
Lemma full_disk_once step i j :
  is_Some (at_fault (AttachmentDisk := full_disk step) i) →
  is_Some (at_fault (AttachmentDisk := full_disk step) j) → i = j.
Proof.
  cbn. destruct (Nat.eqb_spec i step), (Nat.eqb_spec j step); [congruence|intros ? [? [=]]|intros [? [=]]..].
Qed.

(** ** Properties *)

(** A read returns only what the identifier names.  Whatever the directory holds
    (tampered files, links that lead out, files of other tasks), a successful read
    returns bytes with the digest of the identifier, within the byte and pixel
    limits, of an admitted type, and metadata computed from these bytes; the bounded
    read by reference moreover respects its own bound, and the reference's type, size
    and dimensions are those of the bytes. *)
Theorem reads_authentic `{Sha256, AttachmentDisk} limits s :
  (∀ id d s', read limits id s = Some (Ok d, s') →
     id = from_digest (digest_of (ad_data d)) ∧ N.of_nat (length (ad_data d)) ≤ al_max_image_bytes limits ∧
     ar_width (ad_reference d) * ar_height (ad_reference d) ≤ al_max_image_pixels limits ∧
     ar_media_type (ad_reference d) ∈ al_media_types limits ∧
     parse_image (ad_data d)
     = Some (Ok (ar_media_type (ad_reference d), ar_width (ad_reference d), ar_height (ad_reference d)))) ∧
  (∀ r max d s', read_ref_bounded limits r max s = Some (Ok d, s') →
     ad_reference d = r ∧ ar_attachment_id r = from_digest (digest_of (ad_data d)) ∧
     ar_bytes r = N.of_nat (length (ad_data d)) ∧ ar_bytes r ≤ max ∧
     parse_image (ad_data d) = Some (Ok (ar_media_type r, ar_width r, ar_height r))).
Proof.
  split.
  - intros id d s' Hr. apply read_Ok in Hr as (v & (Hi & Hb & Hle & Hm & Hp & _ & _ & Hx) & <- & Hd).
    rewrite Hd. cbn. rewrite <-Hb. by split_and!.
  - intros r max d s' Hr. apply read_ref_bounded_Ok in Hr as (Hd & Hle & v & Hv & Hi & Hs).
    destruct (same_metadata_eq _ _ Hs) as (Hm & Hb & Hw & Hh). destruct Hv as (Hvi & Hvb & _ & _ & Hp & _).
    cbn in *. rewrite <-Hm, <-Hw, <-Hh, <-Hb, Hvb. split_and!; congruence || done.
Qed.

(** What was saved stays readable.  If the other tasks only add files and no other
    bytes have the same digest, then after a successful save, in every later state of
    the directory that still has its files, a read without a fault returns the bytes
    that were saved. *)
Theorem saved_stays_readable `{Sha256Law, AttachmentDisk} limits input s r s' s2 :
  (∀ i nodes, nodes ⊆ at_others i nodes) →
  (∀ data, digest_of data = digest_of (ai_data input) → data = ai_data input) →
  save limits input s = Some (Ok r, s') →
  dir_nodes s' ⊆ dir_nodes s2 → (∀ i, (dir_step s2 ≤ i)%nat → at_fault i = None) →
  ∃ s3, read_ref_bounded limits r (al_max_image_bytes limits) s2
        = Some (Ok (mkData r (ai_data input)), s3).
Proof.
  intros Ho Hinj Hs Hsub Hf. unfold save in Hs. invert_att. apply att_check_Ok in Hm as [Hv ->].
  apply validate_bytes_Ok in Hv as [Hd Hname]. destruct (persist_stored _ Ho _ _ _ _ _ Hinj Hd Hm0) as [-> Hn].
  eapply (reads_back _ Ho); [done|by eapply lookup_weaken|exact Hd|done| |].
  - unfold same_metadata. by rewrite !bool_decide_eq_true_2, !N.eqb_refl.
  - destruct Hd as (_ & <- & Hd & _). done.
Qed.

(** C16: a batch is all or nothing.  With no other task at work and at most one fault, a
    directory whose files are sound, and fresh temporary names, a batch either returns
    the references of all its images, keeps every file and holds a file for each of
    them, or it fails and leaves exactly the files that were there before; what fails
    its checks fails before the first step. *)
Theorem batch_atomic `{Sha256Law, AttachmentDisk} limits inputs s :
  (∀ i nodes, at_others i nodes = nodes) →
  (∀ i j, is_Some (at_fault i) → is_Some (at_fault j) → i = j) →
  sound limits (dir_nodes s) →
  ∃ r s', save_batch limits inputs s = Some (r, s') ∧
    match r with
    | Ok refs => length refs = length inputs ∧ dir_nodes s ⊆ dir_nodes s' ∧
        Forall2 (λ input ref, ar_attachment_id ref = from_digest (digest_of (ai_data input)) ∧
                   is_Some (dir_nodes s' !! stored_name (ai_data input))) inputs refs
    | Err _ => dir_nodes s' = dir_nodes s
    end.
Proof.
  intros Halone Hone Hs. unfold save_batch. destruct (_ <? _).
  { by exists (Err BatchCountLimit), s. }
  destruct (validate_batch_total limits inputs 0) as (rv & Hrv & Hall).
  destruct rv as [images|e].
  2: { exists (Err e), s. unfold mbind, Att_bind, att_check. by rewrite Hrv. }
  destruct (Hall images eq_refl) as [Hl Hd].
  destruct (persist_batch_ends limits Halone Hone (zip inputs images) [] s Hs) as (r & s' & Hb & Hq).
  { split; [by constructor|by constructor]. } { exact Hd. }
  exists r, s'. split.
  { unfold mbind, Att_bind, att_check. rewrite Hrv. exact Hb. }
  destruct r as [refs|e]; [|exact Hq]. destruct Hq as (-> & Hsub & Hst).
  rewrite snd_zip by lia. rewrite length_fmap. split_and!; [done..|].
  clear -Hl Hd Hst. revert images Hl Hd Hst.
  induction inputs as [|i l IH]; intros [|v images] Hl Hd Hst; try done.
  cbn in *. apply Forall_cons in Hd as [Hv Hd]. apply Forall_cons in Hst as [Hi Hst].
  constructor; [split; [apply Hv|done]|]. apply IH; [lia|done|done].
Qed.

(** C18: the headers are read in range.  For every string of bytes the parser of headers
    ends without a panic, and the dimensions it returns fit 32 bits; so the validation
    of an image never panics. *)
Theorem headers_in_range data :
  ∃ r, parse_image data = Some r ∧ (∀ m w h, r = Ok (m, w, h) → w ≤ U32_MAX ∧ h ≤ U32_MAX) ∧
    ∀ (sha : Sha256) limits name, ∃ v, validate_bytes limits data name = Some v.
Proof.
  destruct (parse_image_fits data) as (r & Hr & Hf). exists r. split_and!; [done..|].
  intros ? limits name. apply validate_bytes_total.
Qed.

(** A reference as the store makes them. *)
Definition proper_ref (r : AttachmentRef) : Prop :=
  is_ok (digest_hex (ar_attachment_id r)) = true ∧ ar_width r ≤ U32_MAX ∧ ar_height r ≤ U32_MAX ∧
  match ar_name r with Some name => sanitize_name (Some name) = Some name | None => True end.

(** References survive the wire, and only they do.  A reference of the store is
    read back from its value, and a value that is read as a reference is, up to the
    equality of values, the value of that reference, which is well-formed. *)
Theorem reference_roundtrip r v :
  (proper_ref r → AttachmentRef_from_value (AttachmentRef_to_value r) = Ok r) ∧
  (AttachmentRef_from_value v = Ok r → value_eqb (AttachmentRef_to_value r) v = true ∧ proper_ref r).
Proof.
  split.
  - intros (Hid & Hw & Hh & Hn). unfold AttachmentRef_from_value.
    rewrite ref_of_to_value by done. cbn [ok_or mbind result_bind].
    assert (value_eqb (AttachmentRef_to_value r) (AttachmentRef_to_value r) = true) as ->
      by (change (AttachmentRef_to_value r ≡ AttachmentRef_to_value r); reflexivity). cbn [negb]. destruct (ar_name r) as [name|]; [|done].
    by rewrite bool_decide_eq_true_2.
  - unfold AttachmentRef_from_value. intros Hf. apply bind_Ok in Hf as (x & Hx & Hf).
    apply ok_or_Ok in Hx. destruct (value_eqb _ v) eqn:Hv; cbn [negb] in Hf; [|done].
    destruct (ref_of_value_proper _ _ Hx) as (Hid & Hw & Hh). unfold proper_ref.
    destruct (ar_name x) as [name|] eqn:Hn; [|injection Hf as <-; by rewrite Hn].
    case_bool_decide; cbn [negb] in Hf; [|done]. injection Hf as <-. by rewrite Hn.
Qed.

(** The data URL of an image is refused.  The decoder of inline images wants the
    part before the comma to end in ";base64;base64", so the URL that
    [data_url_prefix] begins is an invalid reference, whatever its payload and name. *)
Theorem data_url_refused media payload name :
  decode_inline_image
    (json_object ([("mediaType", VString (media_str media));
                   ("data", VString (data_url_prefix media +:+ payload))]
                  ++ match name with Some n => [("name", VString n)] | None => [] end))
  = Err InvalidReference.
Proof.
  destruct media, name; vm_compute; reflexivity.
Qed.

(** What the other task does while a batch runs: it saves the same image. *)
Definition other_saves : AttachmentDisk :=
  {| at_others := λ i nodes,
       if (i =? 7)%nat then
         match save (H := toy_digest) (H0 := quiet_disk) AttachmentLimits_default red (mkDir nodes 0) with
         | Some (_, s) => dir_nodes s
         | None => nodes
         end
       else nodes;
     at_fault := at_fault (AttachmentDisk := full_disk 7); at_written := λ _, O; at_uuid := λ _, "u" |}.

(** C37: the rollback of a batch removes files that others rely on.  A batch has stored
    its first image; another task saves the same image, is told that it is stored, and
    returns its reference; then the batch fails at its second image and removes the
    file, which it takes for its own.  The other task's reference cannot be read. *)
Theorem rollback_loses_shared :
  save (H := toy_digest) (H0 := other_saves) AttachmentLimits_default red (mkDir ∅ 0)
  = Some (Ok red_ref, mkDir stored_red 7) ∧
  outcome (save (H := toy_digest) (H0 := quiet_disk) AttachmentLimits_default red (mkDir stored_red 0))
  = Some (Ok red_ref) ∧
  ∃ e s, save_batch (H := toy_digest) (H0 := other_saves) AttachmentLimits_default [red; blue] (mkDir ∅ 0)
         = Some (Err e, s) ∧
    outcome (read_ref_bounded (H := toy_digest) (H0 := quiet_disk) AttachmentLimits_default red_ref U64_MAX s)
    = Some (Err (AttachmentStorage ("open attachment: " +:+ NOT_FOUND))).
Proof.
  split; [vm_compute; reflexivity|]. split; [vm_compute; reflexivity|].
  eexists _, _. split; vm_compute; reflexivity.
Qed.

(** ** Witnesses *)

Lemma reads_authentic_witness :
  ∃ d s', read (H := toy_digest) (H0 := quiet_disk) AttachmentLimits_default (ar_attachment_id red_ref)
            (mkDir stored_red 0) = Some (Ok d, s') ∧
    ar_attachment_id red_ref = from_digest (digest_of (Sha256 := toy_digest) (ad_data d)).
Proof.
  destruct (outcome_ran (read (H := toy_digest) (H0 := quiet_disk) AttachmentLimits_default
    (ar_attachment_id red_ref) (mkDir stored_red 0))
    (Ok (mkData (mkRef (ar_attachment_id red_ref) Gif 10 3 2 None) (gif 3 2)))) as [s' Hr].
  { vm_compute. reflexivity. }
  eexists _, s'. split; [exact Hr|].
  by apply (proj1 (@reads_authentic toy_digest quiet_disk AttachmentLimits_default (mkDir stored_red 0))
    _ _ _ Hr).
Defined.

Lemma saved_stays_readable_witness :
  ∃ s' s3, save (H := toy_digest) (H0 := quiet_disk) AttachmentLimits_default red (mkDir ∅ 0)
           = Some (Ok red_ref, s') ∧
    read_ref_bounded (H := toy_digest) (H0 := quiet_disk) AttachmentLimits_default red_ref
      (al_max_image_bytes AttachmentLimits_default) s' = Some (Ok (mkData red_ref (gif 3 2)), s3).
Proof.
  destruct (outcome_ran (save (H := toy_digest) (H0 := quiet_disk) AttachmentLimits_default red
    (mkDir ∅ 0)) (Ok red_ref)) as [s' Hs]; [vm_compute; reflexivity|].
  destruct (@saved_stays_readable toy_digest toy_digest_law quiet_disk AttachmentLimits_default red
    (mkDir ∅ 0) red_ref s' s' (λ _ _, reflexivity _) toy_red Hs (reflexivity _) (λ _ _, eq_refl)) as [s3 H3].
  exists s', s3. split; [exact Hs|exact H3].
Defined.

Lemma batch_atomic_witness :
  ∃ e s', save_batch (H := toy_digest) (H0 := full_disk 10) AttachmentLimits_default [red; blue] (mkDir ∅ 0)
          = Some (Err e, s') ∧ dir_nodes s' = ∅.
Proof.
  destruct (@batch_atomic toy_digest toy_digest_law (full_disk 10) AttachmentLimits_default [red; blue]
    (mkDir ∅ 0) (λ _ _, eq_refl) (full_disk_once 10)) as (r & s' & Hr & Hq).
  { split; [intros d n _ Hn; change ((∅ : Nodes) !! hex_of_digest d = Some n) in Hn; by rewrite lookup_empty in Hn|done]. }
  destruct r as [refs|e]; [exfalso; revert Hr; clear; vm_compute; discriminate|].
  exists e, s'. split; [exact Hr|exact Hq].
Defined.

Lemma reference_roundtrip_witness :
  AttachmentRef_from_value (AttachmentRef_to_value red_ref) = Ok red_ref.
Proof.
  apply (proj1 (reference_roundtrip red_ref VNull)). unfold proper_ref.
  split_and!; vm_compute; first [reflexivity | discriminate].
Defined.
