(* ===== verification/ProviderProps.v ===== *)
(** * Provider protocols: properties

    The streams that the three adapters produce are assembled; events and names of
    tools come back as they were sent, however the bytes arrive; an image that is sent
    is the one that the store holds; and two defects of the Anthropic protocol. *)

From S2P Require Import Prelude Json Protocol Jsonl JsonlFacts JsonTextCodec Attachments AttachmentFacts Responses CompatibleApi Llm LlmFacts ProviderFacts ProviderStreamFacts.

#[local] Open Scope N_scope.

(** ** Streams to try *)

Definition sse (v : Value) : list bytes := [print_value v].
Definition typed (t : string) (fields : list (string * Value)) : list bytes :=
  sse (json_object (("type", VString t) :: fields)).
Definition block_event (t : string) (i : N) (fields : list (string * Value)) : list bytes :=
  typed t (("index", json_u64 i) :: fields).

(** A tool that is called without arguments, behind a text. *)
Definition hello : list (list bytes) :=
  [typed "message_start" [];
   block_event "content_block_start" 0 [("content_block", json_object [("type", VString "text")])];
   block_event "content_block_delta" 0
     [("delta", json_object [("type", VString "text_delta"); ("text", VString "hel")])];
   block_event "content_block_delta" 0
     [("delta", json_object [("type", VString "text_delta"); ("text", VString "lo")])];
   block_event "content_block_stop" 0 [];
   block_event "content_block_start" 1
     [("content_block", json_object [("type", VString "tool_use"); ("id", VString "t1"); ("name", VString "now");
                                     ("input", json_object [])])];
   block_event "content_block_stop" 1 [];
   typed "message_delta" [("delta", json_object [("stop_reason", VString "tool_use")])];
   typed "message_stop" []].

(** The bytes of a stream, in pieces of at most [n + 1]. *)
Fixpoint pieces_of (n fuel : nat) (l : bytes) : list bytes :=
  match fuel, l with
  | S fuel, a :: l => (a :: take n l) :: pieces_of n fuel (drop n l)
  | _, _ => []
  end.
Definition arriving (events : list (list bytes)) : list Incoming :=
  let l := encode_events events in Received <$> pieces_of 6 (length l) l.

Definition early : TessivumError := TessivumError_new "EARLY" "no finish" "llm" VNull.
Definition hello_chunks : list StreamChunk := (anthropic_stream (arriving hello)).1.

(** ** Properties *)

(** C7: the streams of providers are assembled.  For all three protocols, if the stream
    of an adapter comes to its regular end, and its chunks are valid, then the
    assembler accepts it: no block is opened twice, receives deltas of another type, or
    is left open, and each ends with exactly what was streamed.  The message consists
    of the blocks that were started, in the order of their indexes, with the deltas
    under each index as texts and arguments; the reason is a stop, tool calls or the
    limit.  What a provider itself can spoil is excluded: a second report of usage in
    chat completions, an index that Anthropic starts twice. *)
Theorem provider_streams_assemble `{JsonText} names incoming early provider model id l :
  responses_stream names incoming = (l, Ended) ∨
  (chat_stream names incoming = (l, Ended) ∧ (usages_of l ≤ 1)%nat) ∨
  (anthropic_stream incoming = (l, Ended) ∧ NoDup (started l)) →
  Forall valid_chunk l →
  ∃ g, assemble early l (with_message_id provider model id) = Ok g ∧ proper_finish (gen_finish_reason g) ∧
    text_in_block <$> m_content (gen_message g) = streamed_texts l.
Proof.
  intros [Hs|[[Hs Hu]|[Hs Hnd]]] Hv.
  - destruct (responses_stream_emitted _ _ _ Hs) as [s He]. eapply emitted_assembles; eauto.
  - destruct (chat_stream_emitted _ _ _ Hs) as [s He]. eapply emitted_assembles; eauto.
  - destruct (anthropic_stream_emitted _ _ Hs Hnd) as [s He]. eapply emitted_assembles; eauto.
Qed.

(** C14: events come back however they are cut.  If an encoder writes events, each of
    one or more lines of UTF-8 text behind "data: ", and the bytes arrive in any
    pieces, then the decoder returns exactly these events, and accepts the end of the
    stream.  For arbitrary bytes, two ways of cutting them that both succeed give the
    same events and leave the same rest. *)
Theorem sse_roundtrip pieces pieces' events :
  mjoin pieces = mjoin pieces' →
  (Forall good_event events → mjoin pieces = encode_events events →
     sse_feed pieces SseDecoder_default = Ok (event_string <$> events, SseDecoder_default) ∧
     sse_finish SseDecoder_default = Ok tt) ∧
  (∀ e d e' d', sse_feed pieces SseDecoder_default = Ok (e, d) → sse_feed pieces' SseDecoder_default = Ok (e', d') →
     e = e' ∧ d = d').
Proof.
  intros Hp. split.
  - intros Hg He. split; [|done]. by apply feed_encoded.
  - intros e d e' d' H1%feed_drains H2%feed_drains; [|done..]. rewrite Hp, H2 in H1. injection H1 as -> Hd.
    split; [done|]. by destruct d, d'; cbn in Hd; subst.
Qed.

(** C17: names of tools come back.  If the table of a request is built, every name of
    the request, of its tools and of the calls in its history, is sent in the
    provider's alphabet and translated back to itself, and no two names are sent alike;
    it is built unless two different names of the request are sent alike. *)
Theorem tool_names_roundtrip request :
  (∀ n, names_from_request request = Ok n → ∀ name, name ∈ request_names request →
     names_logical n (names_wire n name) = name ∧ Forall wire_alphabet (bytes_of (names_wire n name)) ∧
     ∀ name', name' ∈ request_names request → names_wire n name = names_wire n name' → name = name') ∧
  ((∀ name name', name ∈ request_names request → name' ∈ request_names request →
      wire_of name = wire_of name' → name = name') →
   ∃ n, names_from_request request = Ok n).
Proof.
  unfold names_from_request. split.
  - intros n Hn. destruct (names_fold_ok _ _ _ names_ok_default Hn) as ((Hback & Hwire) & Hall & _).
    assert (∀ name wire, wire_by_logical n !! name = Some wire → names_wire n name = wire) as Hsent
      by (intros x w Hw; unfold names_wire; by rewrite Hw).
    intros name Hname. destruct (Hall _ Hname) as [wire Hw]. rewrite (Hsent _ _ Hw). split_and!.
    + unfold names_logical. by rewrite (proj1 (Hback _ _) Hw).
    + rewrite (Hwire _ _ Hw). apply wire_of_alphabet.
    + intros name' Hname'. destruct (Hall _ Hname') as [wire' Hw']. rewrite (Hsent _ _ Hw'). intros <-.
      apply Hback in Hw, Hw'. congruence.
  - intros Hinj. apply names_fold_total; [apply names_ok_default|]. intros l [Hl|[w Hl]] l' Hl'; [by apply Hinj|].
    cbn in Hl. by rewrite lookup_empty in Hl.
Qed.

(** C15: an image that is sent is the one that the reference names.  If an image block
    is turned into the input of a provider, the data URL has the media type of the
    reference, and its payload decodes to bytes of the digest of the reference, which
    are an image of the type and the dimensions of the reference; the reference is the
    block's own, unless the block came from a server and was saved just before. *)
Theorem image_sent_authentic `{Sha256, AttachmentDisk} attachment model limits s v s' :
  image_input attachment model (Some limits) s = Some (Ok v, s') →
  ∃ reference payload data,
    (∀ r, AttachmentRef_from_value attachment = Ok r → r = reference) ∧
    get_str "image_url" v = Some (data_url_prefix (ar_media_type reference) +:+ string_of payload) ∧
    decode_base64 payload = Some data ∧ ar_attachment_id reference = from_digest (digest_of data) ∧
    parse_image data = Some (Ok (ar_media_type reference, ar_width reference, ar_height reference)).
Proof.
  unfold image_input. destruct (supports _ _); cbn [negb]; [|done]. cbn [body_lift ok_or].
  unfold mbind, Body_bind, body_lift. cbn [ok_or]. intros Hi.
  destruct (image_reference attachment limits s) as [[[reference|e] s1]|] eqn:Hf; [|done..].
  unfold body_att in Hi. destruct (read_ref_bounded limits reference _ s1) as [[[d|e] s2]|] eqn:Hr; [|done..].
  cbn in Hi. injection Hi as <- <-.
  apply read_ref_bounded_Ok in Hr as (<- & _ & x & (Hxi & Hxb & _ & _ & Hp & _) & Hid & Hs).
  destruct (same_metadata_eq _ _ Hs) as (Hm & _ & Hw & Hh). cbn in Hm, Hw, Hh.
  assert (ad_data d ≠ []) as Hne by (intros Hd; rewrite Hd in Hp; vm_compute in Hp; done).
  exists (ad_reference d), (base64_encode (ad_data d)), (ad_data d). split_and!.
  - intros r Hr. unfold image_reference in Hf. rewrite Hr in Hf. by injection Hf.
  - reflexivity.
  - by apply decode_base64_encode.
  - congruence.
  - by rewrite Hp, Hm, Hw, Hh.
Qed.

(** C36: a call without arguments blocks the conversation.  A tool call for which
    Anthropic sends no piece of arguments ends with the empty text as its arguments;
    and every request that has such a call in its history, behind messages that can be
    sent and in an assistant's message behind texts, is refused, whatever follows. *)
Theorem call_without_arguments_blocks `{Sha256, AttachmentDisk, JsonText} :
  (∀ i id name s, an_blocks s !! i = None →
     ∃ s', Anthropic.start_block (json_object
             [("index", VNumber (PosInt i));
              ("content_block", json_object [("type", VString "tool_use"); ("id", VString id); ("name", VString name)])]) s
           = Ok ([BlockStart i "tool-call"; ToolCallDelta i id (Some name) ""], s') ∧
         Anthropic.stop_block i s' = Ok ([BlockEnd i (ToolCall id name "")], s)) ∧
  ∀ request snapshot store before mid texts id name blocks source after s l s1 e,
    value_of_text [] = Err e →
    gr_messages request = before ++ mkMessage mid RoleAssistant ((Text <$> texts) ++ ToolCall id name "" :: blocks) source :: after →
    concatM (anthropic_message (λ attachment, anthropic_image attachment snapshot store)) before s = Some (Ok l, s1) →
    ∃ details, anthropic_body request snapshot store s =
      Some (Err (protocol_error "INVALID_TOOL_ARGUMENTS" "Anthropic tool-call arguments are not valid JSON" details), s1).
Proof.
  split.
  - intros i id name s Hi. eexists. unfold Anthropic.start_block. cbn [mbind result_bind].
    assert (∀ b, required_index (json_object [("index", VNumber (PosInt i)); ("content_block", b)]) = Ok i) as ->
      by reflexivity. cbn [mbind result_bind]. rewrite Hi. split; [reflexivity|].
    unfold Anthropic.stop_block. cbn [Anthropic.put_blocks an_blocks]. rewrite lookup_insert_eq.
    rewrite delete_insert_id by done. by destruct s.
  - intros request snapshot store before mid texts id name blocks source after s l s1 e He Hm Hb.
    exists (json_object [("tool", VString name); ("error", VString e)]).
    unfold anthropic_body. rewrite Hm. unfold mbind at 1, Body_bind at 1.
    set (image := λ attachment, anthropic_image attachment snapshot store) in *.
    rewrite (concatM_app _ _ _ _ _ _ Hb). cbn [concatM].
    unfold mbind, Body_bind. by rewrite (message_blocked image e He).
Qed.

(** A block of an unknown type fails the stream.  The start of a block whose type
    the adapter does not know is passed over, so that later types are harmless; but the
    deltas and the end of that block, which follow, are protocol errors that end the
    stream. *)
Theorem unknown_block_fails i kind delta s :
  kind ∉ ["text"; "thinking"; "tool_use"] → an_blocks s !! i = None →
  Anthropic.accept (json_object
    [("type", VString "content_block_start"); ("index", VNumber (PosInt i));
     ("content_block", json_object [("type", VString kind)])]) s = Ok ([], s) ∧
  Anthropic.accept (json_object
    [("type", VString "content_block_delta"); ("index", VNumber (PosInt i)); ("delta", delta)]) s
    = anthropic_error "content delta has no open block" (at_index i) ∧
  Anthropic.accept (json_object [("type", VString "content_block_stop"); ("index", VNumber (PosInt i))]) s
    = anthropic_error "content block stop has no open block" (at_index i).
Proof.
  intros Hk Hi. rewrite !not_elem_of_cons in Hk. destruct Hk as (H1%String.eqb_neq & H2%String.eqb_neq & H3%String.eqb_neq & _).
  split_and!.
  - change (Anthropic.start_block (json_object
      [("type", VString "content_block_start"); ("index", VNumber (PosInt i));
       ("content_block", json_object [("type", VString kind)])]) s = Ok ([], s)).
    unfold Anthropic.start_block. cbn [mbind result_bind].
    change (required_index _) with (@Ok fault N i). cbn [mbind result_bind]. rewrite Hi.
    unfold Anthropic.starting. change (get_str "type" _) with (Some kind).
    cbv beta iota. by rewrite H1, H2, H3.
  - change (Anthropic.delta (json_object
      [("type", VString "content_block_delta"); ("index", VNumber (PosInt i)); ("delta", delta)]) s
      = anthropic_error "content delta has no open block" (at_index i)).
    unfold Anthropic.delta. change (required_index _) with (@Ok fault N i). cbn [mbind result_bind]. by rewrite Hi.
  - change (Anthropic.stop_block i s = anthropic_error "content block stop has no open block" (at_index i)).
    unfold Anthropic.stop_block. by rewrite Hi.
Qed.

(** ** Witnesses *)

Lemma hello_ends : anthropic_stream (arriving hello) = (hello_chunks, Ended).
Proof. vm_compute. reflexivity. Qed.

Lemma provider_streams_assemble_witness :
  ∃ g, assemble early hello_chunks (with_message_id "anthropic" "m" "a1") = Ok g ∧
    text_in_block <$> m_content (gen_message g) = ["hello"; ""].
Proof.
  destruct (provider_streams_assemble ToolNames_default (arriving hello) early "anthropic" "m" "a1" hello_chunks)
    as (g & Hg & _ & Ht).
  - right. right. split; [exact hello_ends|]. apply (bool_decide_unpack _). vm_compute. exact I.
  - apply valid_chunks_check. vm_compute. reflexivity.
  - exists g. split; [exact Hg|]. rewrite Ht. vm_compute. reflexivity.
Defined.

Definition two_lines : list (list bytes) := [[bytes_of "one"; bytes_of "two"]; [bytes_of "three"]].
Lemma sse_roundtrip_witness :
  sse_feed (pieces_of 2 30 (encode_events two_lines) ++ [drop 90 (encode_events two_lines)]) SseDecoder_default
  = Ok (["one" +:+ line_feed +:+ "two"; "three"], SseDecoder_default).
Proof.
  apply (sse_roundtrip _ [encode_events two_lines] two_lines); [vm_compute; reflexivity| |vm_compute; reflexivity].
  unfold two_lines, good_event, good_line. repeat constructor; try done; vm_compute; discriminate.
Defined.

Definition asking (tools : list ToolSchema) (messages : list Message) : GenerateRequest :=
  mkGenerateRequest "p" "m" None messages None (Some tools) None None None None None.
Definition dotted : ToolSchema := mkToolSchema "github.search" "" (VObject []).
Lemma tool_names_roundtrip_witness :
  ∃ n, names_from_request (asking [dotted] []) = Ok n ∧ names_wire n "github.search" = "github_search" ∧
    names_logical n (names_wire n "github.search") = "github.search".
Proof.
  destruct (proj2 (tool_names_roundtrip (asking [dotted] []))) as [n Hn].
  - intros name name' ->%list_elem_of_singleton ->%list_elem_of_singleton _. reflexivity.
  - exists n. split; [exact Hn|]. split.
    + vm_compute in Hn. injection Hn as <-. vm_compute. reflexivity.
    + apply (proj1 (tool_names_roundtrip _) n Hn "github.search"). by left.
Defined.

(** The bytes themselves, filled up to the length of a digest. *)
Definition filled : Sha256 := λ data, take 32 (data ++ repeat "0"%char 32).
Definition still_disk : AttachmentDisk :=
  {| at_others := λ _ nodes, nodes; at_fault := λ _, None; at_written := λ _, O; at_uuid := λ _, "u" |}.
Definition dot : bytes := bytes_of "GIF89a" ++ chars [3; 0; 2; 0].
Definition dot_ref : AttachmentRef := mkRef (from_digest (filled dot)) Gif 10 3 2 None.
Definition with_dot : AttachmentDir := mkDir {[@stored_name filled dot := NodeFile dot]} 0.
Definition seeing : ResponsesModel :=
  mkModel "m" None None ["text"; "image"] None None [] None.
Lemma image_sent_authentic_witness :
  ∃ v s' payload, image_input (H := filled) (H0 := still_disk) (AttachmentRef_to_value dot_ref) seeing
                    (Some AttachmentLimits_default) with_dot = Some (Ok v, s') ∧
    get_str "image_url" v = Some ("data:image/gif;base64," +:+ string_of payload) ∧
    is_Some (decode_base64 payload).
Proof.
  destruct (image_input (H := filled) (H0 := still_disk) (AttachmentRef_to_value dot_ref) seeing
    (Some AttachmentLimits_default) with_dot) as [[[v|e] s']|] eqn:Hi;
    [|exfalso; vm_compute in Hi; discriminate..].
  destruct (@image_sent_authentic filled still_disk _ _ _ _ _ _ Hi) as (r & payload & data & Hr & Hu & Hd & _).
  exists v, s', payload. split; [reflexivity|].
  specialize (Hr dot_ref ltac:(vm_compute; reflexivity)) as <-. split; [exact Hu|by eexists].
Defined.

Lemma call_without_arguments_blocks_witness :
  ∃ details, anthropic_body (H := filled) (H0 := still_disk)
    (asking [] [mkMessage "a1" RoleAssistant [Text "hello"; ToolCall "t1" "now" ""] (SourceModel "p" "m" None);
                mkMessage "u2" RoleUser [Text "and now?"] (SourceUser None)])
    (mkSnapshot (ResponsesRoute_new "p" "p" "https://h" "key" [seeing]) seeing None) AttachmentLimits_default with_dot =
    Some (Err (protocol_error "INVALID_TOOL_ARGUMENTS" "Anthropic tool-call arguments are not valid JSON" details),
          with_dot).
Proof.
  eapply (proj2 (@call_without_arguments_blocks filled still_disk json_text) _ _ _ [] "a1" ["hello"] "t1" "now" [])
    with (e := "expected value"); [vm_compute; reflexivity|reflexivity|reflexivity].
Defined.

Lemma unknown_block_fails_witness :
  ("redacted_thinking" ∉ ["text"; "thinking"; "tool_use"]) ∧
  Anthropic.accept (json_object [("type", VString "content_block_stop"); ("index", VNumber (PosInt 0))]) Anthropic.new
    = anthropic_error "content block stop has no open block" (at_index 0).
Proof.
  assert ("redacted_thinking" ∉ ["text"; "thinking"; "tool_use"]) as Hk by (vm_compute; set_solver).
  split; [exact Hk|]. apply (unknown_block_fails 0 "redacted_thinking" VNull Anthropic.new Hk eq_refl).
Defined.
